(* ===== verification/_CoqProject ===== *)
-Q . S2P
Prelude.v
Bytes.v
Glob.v
Graph.v
Topo.v
Bfs.v
Order.v
Lattice.v
Access.v
Ids.v
Text.v
Objects.v
Refs.v
RefStore.v
RefsDisk.v
Signing.v
Policy.v
Authority.v
Merge.v
Store.v
Crypto.v
Secrets.v
SecretStore.v
Pack.v
Disk.v
Packed.v
Repack.v
Crash.v
Gc.v
Acl.v
Walk.v
Ephemeral.v
Worktree.v
Checkout.v
CheckoutFacts.v
CheckoutRoundtrip.v
Workspaces.v
Repo.v
Overlay.v
Seeds.v
Trust.v
Discovery.v
Collab.v
CollabFacts.v
CollabHistory.v
Propose.v
Wire.v
Http.v
Session.v
Sync.v
HttpSync.v
SyncFacts.v
SyncPush.v
Authn.v
HttpAuth.v
SyncCollab.v
SyncCollabFacts.v
RelayFacts.v
Hub.v
HubFacts.v
Inproc.v
InprocFacts.v
InprocPush.v
PushSession.v
Persist.v
HttpSyncFacts.v
Git.v
GitProject.v
GitImport.v
GitImportFacts.v
GitProjectFacts.v
GitFormat.v
GitExport.v
GitDeliver.v
GitImportRefs.v
HttpApi.v
