(* ===== verification/Prelude.v ===== *)
(** * A verification library for bole

    bole is a content-addressed version store with access labels, signed policy and
    peer-to-peer synchronisation, a bridge to git and a read API over HTTP.  This library
    models the crate under [src/src/] and the API crate [src/bole-api/] as executable definitions and proves the properties its parts are meant
    to have.  This file is the root: the overview below, then the vocabulary that all
    other files share.

    ** Parts of the program and the files that model them

    Access control ([src/src/acl/]).
    - [Glob.v]: the memoised pattern matcher of [glob.rs].
    - [Lattice.v]: label lattices of [lattice.rs]: dominance, join, meet, validation.
    - [Access.v]: label rules, clearances and the [Accessor] of [rules.rs],
      [clearance.rs], [mod.rs]: effective labels, read and write decisions, traces.
    - [Acl.v]: the [AclBackend] trait, its in-memory and on-disk implementations and the
      facade ([backend.rs], [memory.rs], [disk.rs], [mod.rs]).
    - [Policy.v]: hooks and the hook registry ([hook.rs]), the fast-forward hook with its
      ancestry search, signed approvals ([attestation.rs]).
    - [Authority.v]: policy-root chains, their verification, reconciliation
      ([authority.rs]).

    Objects ([src/src/object/], [src/src/store/], [src/src/codec.rs]).
    - [Ids.v]: 32-byte ids and their hex form.
    - [Objects.v]: every variant of [Object], its edges, and [objects], the decoded view
      of a store: a finite map from ids to the object (or the error) that reading yields.
    - [Store.v]: the [StorageBackend] trait with its contract, the in-memory backend, the
      codec seam and [ObjectStore]; its refinement theorem relates bytes to [objects].
    - [Bytes.v]: little- and big-endian integers and byte readers.
    - [Pack.v]: the pack and pack-index formats of [pack.rs] with their caps and checks.
    - [Disk.v]: loose object files ([disk.rs]): shard directories, files and a clock as
      state, every call of the backend, the states a crash leaves during a write.
    - [Packed.v], [Repack.v], [Crash.v]: the packed backend of [packed.rs]: its operations
      and what they read; compaction and sweep; crashes between their system calls.
    - [Crypto.v]: key providers, provider chains and the KMS adapter ([src/src/crypto/]).
    - [Secrets.v]: secrets, envelopes and multi-recipient secrets ([object/secret.rs]).
    - [SecretStore.v]: the secret operations of [ObjectStore] and [Repository::rekey].
    - [Text.v]: UTF-8 validity, lines and trimming of the Rust standard library.

    Refs ([src/src/refs/]).
    - [Refs.v]: names and their validation, tags, timelines, the [RefBackend] trait with
      its contract, the in-memory backend.
    - [RefStore.v]: ref operations, transactions and their resolution ([mod.rs],
      [transaction.rs]).
    - [RefsDisk.v]: the on-disk backend of [disk.rs] as system-call steps over a file
      system, with the states a crash can leave.

    Signatures: [Signing.v] holds the message layouts, signing and verification functions
    of [authority.rs], [attestation.rs], [collab/object.rs], [pr.rs], [board.rs],
    [reporecord.rs], [sync/authn.rs] and [sync/hub.rs].

    The repository ([src/src/repo/], [src/src/sync/negotiate.rs]).
    - [Graph.v]: the two worklist searches that recur in the code; [Topo.v]: the
      depth-first sort of both directions of the git bridge.
    - [Merge.v]: three-way diff and common ancestors ([merge.rs]).
    - [Gc.v]: mark and sweep, health scan, the closure a sync sends, copying of refs.
    - [Walk.v]: the filtered tree walk of [repo/mod.rs].
    - [Ephemeral.v], [Worktree.v]: the in-memory workspace of [repo/ephemeral.rs]: tree
      builder, walk, diff, commit; then their theorems.
    - [Checkout.v], [CheckoutFacts.v], [CheckoutRoundtrip.v]: file systems with symbolic
      links, the on-disk workspace ([DiskWorkspace] of [repo/ephemeral.rs]) with its walk
      that honours ignore files, the export of a snapshot to a directory
      ([repo/materialize.rs]); what the walk finds, and that an exported commit is the
      directory it was made from.
    - [Workspaces.v]: the [Workspace] trait with its contract, both implementations as
      instances, and the refinement between them.
    - [Persist.v]: a repository on disk: opening it, the states in which the process can
      stop, histories of operations and interruptions; backups.
    - [Overlay.v]: workspace views and environment overlays ([repo/mod.rs],
      [repo/workspace.rs]).
    - [Seeds.v]: the scan for committed private seeds ([repo/mod.rs], [lib.rs]).
    - [Repo.v]: the operations of [Repository] that combine all of the above: listings,
      merge check and merge, [advance_timeline], the pinned policy root, pruning,
      explanations.

    Collaboration ([src/src/collab/], [repo/collab.rs], [repo/pr.rs], [repo/board.rs],
    [repo/reporecord.rs]).
    - [Bfs.v]: breadth-first searches and their shortest paths; [Order.v]: sorting by a
      comparison.
    - [Trust.v]: queries of the trust graph ([trust.rs]) and naming ([naming.rs],
      [alias.rs]).
    - [Discovery.v]: the discovery index ([discovery.rs]), ranking of strangers over one
      relay or several, the ball a search answers with ([search.rs]).
    - [Collab.v]: publishing, listing and scanning signed records in a repository;
      [CollabFacts.v], [CollabHistory.v]: what publication guarantees, over any history.
    - [Propose.v]: merging a change proposal.

    Synchronisation ([src/src/sync/]).
    - [Wire.v]: messages, frames and the buffered receiver ([wire.rs], [transport.rs]).
    - [Session.v]: the [Conn] trait: programs that send and receive, two of them
      interleaved step by step, with the sends that fail when the peer has hung up; one of
      them fed from a list.
    - [Http.v]: one message of the HTTP transport ([http.rs]): [read_http] on the reads of
      a socket, and what [post] and [respond] write.  [HttpSync.v]: the verbs over it;
      [HttpSyncFacts.v]: their theorems.
    - [Sync.v]: both sides of the fetch and push sessions ([session.rs]);
      [SyncFacts.v]: what a fetch gives away; [SyncPush.v]: what a push can change,
      by sessions and by HTTP requests.
    - [Authn.v]: the principals a transport authenticates and the accessors they get
      ([authn.rs]).
    - [SyncCollab.v]: the collaboration exchange of [sync/collab.rs]: the endpoint that
      pushes signed records to a visitor and answers its searches, with the relay's proof
      of identity; the pulling, searching and relay-querying clients.
      [SyncCollabFacts.v]: what the endpoint gives away and what a pull may store;
      [RelayFacts.v]: which answers of a set of relays are believed.
    - [Hub.v]: the hub of [sync/hub.rs]: the responder that authenticates an owner, takes
      its push and lands its signed records, both initiators; [HubFacts.v]: its theorems.
    - [Inproc.v]: [fetch], [push], [clone_from] between two repositories ([mod.rs]);
      [InprocFacts.v], [InprocPush.v]: their theorems, and that a fetch over the wire is
      the in-process one.  [PushSession.v]: how a push over the wire ends on both sides.

    The git bridge ([repo/git_projection.rs], [repo/git_import.rs]).
    - [Git.v]: git objects, the identity map and its sidecar file, sanitised ref names.
    - [GitProject.v]: the export; [GitProjectFacts.v], [GitExport.v], [GitDeliver.v]: the
      trees it writes, what it discloses, what it delivers.  [GitFormat.v]: a reader of
      git's formats, written from the format, that stands for gix in concrete runs.
    - [GitImport.v]: the import; [GitImportFacts.v], [GitImportRefs.v]: what it translates
      and which refs it may touch.

    The read API ([src/bole-api/]).
    - [HttpAuth.v]: errors, the configuration and the authentication of a request
      ([error.rs], [config.rs], [auth.rs]).
    - [HttpApi.v]: the handlers and the route table ([handlers/], [router.rs]), from a
      matched route to a JSON value, bytes or an error.

    ** How the model corresponds to the code

    A struct is a [Record], an enum an [Inductive], a trait a [Class] whose methods are
    the trait's; a second class states the trait's contract ([RefBackendLaws],
    [StorageLaws], [AclLaws]) with an invariant and an abstraction function.  Clients are
    verified against the contracts and each implementation is an instance of them.
    [Result<T, Error>] is [res T] with the code's error enum; a method on [&self] whose
    state survives an error is a function of type [M S A := S -> res A * S].  A panic is
    the extra error [Panic], which the theorems exclude.  [BTreeMap]s and [HashMap]s are
    [gmap]s; where the code iterates over a [BTreeMap] the model iterates in key order,
    over a [HashMap] in an unspecified but fixed one.  [u64] values that the code only
    stores or compares are [N]; where it casts, the cast is written out.

    Code outside the crate is a parameter, with the documented facts that are used as
    laws: postcard ([ObjectCodec], [RefCodec], [AclCodec], [Postcard], [MessageCodec],
    [BodyCodec]: decoding inverts encoding), BLAKE3 (a function; where two contents must not share an id the theorem
    says so), ChaCha20-Poly1305 ([Aead]: opening is the inverse of sealing), the random
    generator (a stream read by position), zstd, Ed25519 ([Ed25519]: what is signed verifies), the text of I/O errors,
    gix (a repository is the map of objects its lookup reads, its parsers are functions
    of raw content and yield text of any bytes), the ignore crate's matcher, the order in which a
    directory is listed, hex, SHA-2 and the parsing of IP addresses.  Each
    has a concrete instance, with which the theorems are applied to concrete data.

    Futures are modelled as their sequential bodies; the locks the code holds make a
    transaction commit one step, and competing committers are sequences of such steps.
    The two sides of a session are interleaved step by step; another session on the same
    repository at the same time is not considered.  A send to a peer that has returned fails
    or its message is lost; against an arbitrary peer a theorem quantifies over the messages
    that it sends and over the number of messages that it takes before it hangs up.

    The theorems on what sessions, hubs, pulls, imports and in-process pushes may change
    ([serve_push_confined], [replication_history], [serve_hub_confined], [push_session_agrees],
    [collab_pull_sound], [push_confined], [git_import_faithful], [git_import_forward],
    [publish_succeeds_iff], [hub_history]) are about repositories on the in-memory backends, whose
    transactions commit all or nothing.  On disk a transaction can fail half way
    ([clashing_names_poison_journal], [leftover_directory_poisons_journal]); what holds there is
    stated by [commit_crash_atomic] and [durable_history] with the conditions that exclude it.

    ** Fuel

    Loops that are not structural run on fuel computed from their input, and their
    theorems show that it never runs out: a search pops each node once ([Graph.v]: the
    number of ids some stored object points to; for a mark phase the out-degree times
    the number of objects); the merge-base search visits a new id every round; a policy
    chain is no longer than the store; the tree walk visits a tree once per path that
    leads to it, at most [(d + 2) ^ 256] visits for out-degree [d], and runs on
    [iter_pow], whose fuel is the logarithm of the number of iterations; a depth-first
    sort ([topo_fuel]) pushes each id once per edge to it; an exported tree is no deeper
    than its longest path ([path_fuel]); an imported tree is read to a depth given
    by the number of objects ([tree_fuel]); the walk of a directory is given the number of
    paths of its file system, and the export of a tree the size of the store.

    ** What the theorems show

    - Access: the glob matcher decides the declarative meaning of a pattern; validation
      accepts exactly the bounded lattices; the effective label is the join of the
      matching rules; a write needs a covering, dominating clearance, at its own level
      when confined; traces agree with decisions; ACLs on disk are a map from patterns.
    - Refs: transactions are atomic and sequential, compare-and-swap excludes lost
      updates, a crash during a commit on disk is completed or undone by recovery.
    - Objects: put then get, content addressing as an invariant, ids and their hex form;
      packs decode to what was packed and to nothing else; the packed backend reads as
      one map; a sweep keeps exactly the marked and the recent; a crash loses nothing.
    - Secrets: envelopes open for their provider, bind their label, survive rotation; the
      recipients are those granted and not revoked; an overlay resolves exactly the
      cleared variables and depends on no other secret.
    - Workspaces: a commit reads back, a diff is exact, the walk ends; the on-disk workspace
      refines the one in memory ([disk_refines_memory]); a committed directory that is
      exported into an empty one is there again ([checkout_roundtrip]); the scan for seeds
      sees every committed file ([scan_seeds_complete]).
    - Durability: wherever the process stops, the repository opens again with every object
      and the refs of whole commits ([durable_history]); a backup is exact
      ([backup_exact]).
    - Policy: ancestry, most restrictive verdicts, approvals that need valid signatures
      over the very head, chains accepted only when complete and signed, lineages
      reconciled symmetrically.
    - Signatures: honest signatures verify, and a signed message determines the artefact,
      its domain included.
    - Repository: an advance that succeeds was authorised on every path, passed every
      hook and moved just the head it was checked against; an allowed merge leaks
      nothing; listings and lookups agree; adopted policy cannot roll back; a collection
      keeps what is reachable without passing through a policy root and, in memory, removes
      everything else.
    - Collaboration: along any history of publications and of updates outside their namespace every public record is signed, under
      its own name and never replaced by an older one; publication succeeds exactly when
      it is not stale; trust paths are shortest and real; a search of the ball of a key
      answers like a search of the whole corpus; a proposal merges only through the
      gates of an advance.
    - Synchronisation: the receiver of a stream gives back the messages sent, within a
      bounded buffer; sessions terminate ([cstep_wf]), and a side behaves in a session as when
      it is fed the other's messages ([cstep_feed]); against any peer at all a fetch
      discloses only what served refs reach and a push moves only what its updates name,
      each under the checks of its kind, and over any number of sessions closures stay complete and
      protected timelines only go forward; a fetch mirrors the peer; after a push both sides
      agree on which refs moved ([push_session_agrees]).
    - Collaboration over the wire: against any visitor the endpoint hands out only public
      records ([serve_collab_confined]); a pull files only records whose signer it checked,
      under the tracking prefix of that signer ([collab_pull_sound]); a search session
      answers as the local search does ([relay_search_session]) and, with pinned relays,
      nothing unauthenticated is believed ([query_relays_authentic]).
    - The hub: against any peer a session changes at most the namespace of the key that
      proved itself and that key's public records ([serve_hub_confined]), and over any
      history of sessions the stored closures stay complete and the records signed
      ([hub_history]); a fetch is confined to the tracked refs ([hub_fetch_confined]).
      Landing the records of an owner on a node is the publication of [Collab.v].
    - Over HTTP: a message is read back however its bytes are cut ([http_roundtrip]), and
      reading one takes a bounded number of bytes ([read_http_bounded]); a fetch ends as the
      in-process one ([http_fetch_agrees]); requests keep what sessions keep
      ([replication_history]); a push changes only tracking refs here ([http_push_local]).
    - Peers: a principal without grants is harmless ([grantless_peer_harmless]).
    - The git bridge: an export discloses only what the accessor may see
      ([export_confined]) and, when it succeeds, delivers every visible history commit for
      commit ([export_faithful]); its trees read back as the paths they were made
      from; an import stores a faithful image of what it selects ([git_import_faithful]),
      moves no tag and takes protected timelines forward only ([git_import_forward]);
      sanitised names are legal and never shared by two git names.
    - The read API: a request passes as a key holder only with a fresh signature over its
      method, target and date ([request_authenticated]); what the timeline and snapshot
      routes answer does not depend on hidden refs ([hidden_refs_unobservable]).
    - Deviations the model exposed: see the theorems [clashing_names_poison_journal],
      [leftover_directory_poisons_journal], [materialize_escapes], [twins_collapse],
      [lossy_names_collapse], [oversized_frame_refused],
      [approval_count_truncated], [timeline_hook_reads_refs], [merge_base_not_lowest],
      [gc_drops_pinned_policy], [privileged_walk_blind], [compact_thrice_empties],
      [oversized_object_lost], [workspace_view_ungated], [inproc_refuses_forward],
      [fetch_keeps_hole], [hub_advertises_relay_pins], [import_pins_policy_root],
      [same_name_aborts], [tree_shows_hidden_head], [status_counts_hidden], the shadowed files of [commit_reads_back] and the dot case of [disk_path_acls].

    ** What is not modelled

    The command-line client ([src/bole-cli/]: argument parsing and terminal output around
    the library); the sockets under the transports and their I/O errors; axum's matching of
    paths to routes and the text of JSON and TOML; the rules of ignore files, which are the ignore
    crate's (a matcher is a parameter); of a file system, permissions and running out of space. *)

From stdpp Require Export base tactics option list list_numbers gmap fin_maps sets strings vector sorting.
From stdpp Require Export pretty.
From Stdlib Require Export Init.Byte.
From Stdlib Require Import Lia.

(** ** Rust results and errors *)

(** [Result<T, E>]; the error comes first so that [Result E] is a functor. *)
Inductive Result (E A : Type) : Type :=
| Ok (a : A)
| Err (e : E).
Arguments Ok {E A} a.
Arguments Err {E A} e.

(** The kinds of [std::io::Error] the sources distinguish. *)
Inductive io_error : Type :=
| NotFound
| NotADirectory
| IsADirectory
| OtherIo (msg : string).

(** [crate::error::Error]. *)
Inductive Error : Type :=
| Codec (msg : string)
| Storage (msg : string)
| Io (e : io_error)
| InvalidRefName (msg : string)
| WrongRefKind (msg : string)
| AccessDenied (msg : string)
| DecryptionFailed
| SecretNotUtf8
| GitProjection (msg : string)
| PolicyViolation (msg : string)
| ApprovalRequired (reason : string) (needed : N)
| TransactionConflict (msg : string)
(** Not a variant of the enum: a panic ([unwrap] on [Err]/[None], a failed
    [expect], an index out of bounds), which the theorems show unreachable. *)
| Panic (msg : string).

Abbreviation res := (Result Error).

#[global] Instance io_error_eq_dec : EqDecision io_error.
Proof. solve_decision. Defined.
#[global] Instance Error_eq_dec : EqDecision Error.
Proof. solve_decision. Defined.
#[global] Instance Result_eq_dec {E A} `{EqDecision E, EqDecision A} : EqDecision (Result E A).
Proof. solve_decision. Defined.

#[global] Instance result_ret {E} : MRet (Result E) := λ A a, Ok a.
#[global] Instance result_bind {E} : MBind (Result E) := λ A B f r,
  match r with Ok a => f a | Err e => Err e end.
#[global] Instance result_fmap {E} : FMap (Result E) := λ A B f r,
  match r with Ok a => Ok (f a) | Err e => Err e end.

Definition is_Ok {E A} (r : Result E A) : bool :=
  match r with Ok _ => true | Err _ => false end.

(** [Option::ok_or]. *)
Definition ok_or {E A} (o : option A) (e : E) : Result E A :=
  match o with Some a => Ok a | None => Err e end.

Lemma bind_Ok {E A B} (r : Result E A) (f : A → Result E B) b :
  r ≫= f = Ok b ↔ ∃ a, r = Ok a ∧ f a = Ok b.
Proof. destruct r; naive_solver. Qed.

Lemma bind_unit_Ok {E B} (r : Result E ()) (k : Result E B) b :
  (_ ← r; k) = Ok b ↔ r = Ok () ∧ k = Ok b.
Proof. destruct r as [[]|]; naive_solver. Qed.

(** Guards: [if bad { return Err(e) } rest]. *)
Lemma guard_Ok {E A} (P : Prop) `{Decision P} (e : E) (r : Result E A) a :
  (if decide P then Err e else r) = Ok a ↔ ¬ P ∧ r = Ok a.
Proof. case_decide; naive_solver. Qed.

Lemma guard_neg_Ok {E A} (P : Prop) `{Decision P} (e : E) (r : Result E A) a :
  (if decide (¬ P) then Err e else r) = Ok a ↔ P ∧ r = Ok a.
Proof. repeat case_decide; naive_solver. Qed.

Lemma check_Ok {E A} (P : Prop) `{Decision P} (e : E) (a b : A) :
  (if decide P then Ok a else Err e) = Ok b ↔ P ∧ a = b.
Proof. case_decide; naive_solver. Qed.

Lemma check_bool_Ok {E} (b : bool) (e : E) :
  (if b then Err e else Ok ()) = Ok () ↔ b = false.
Proof. destruct b; naive_solver. Qed.

(** ** Effects: a method on [&self] whose state survives an error. *)
Definition M (S A : Type) : Type := S → res A * S.

#[global] Instance M_ret {S} : MRet (M S) := λ A a s, (Ok a, s).
#[global] Instance M_bind {S} : MBind (M S) := λ A B f m s,
  match m s with
  | (Ok a, s') => f a s'
  | (Err e, s') => (Err e, s')
  end.

(** Lifting: a fallible read of the state, a failure, an update. *)
Definition lift_res {S A} (r : res A) : M S A := λ s, (r, s).
Definition gets {S A} (f : S → res A) : M S A := λ s, (f s, s).
Definition throw {S A} (e : Error) : M S A := λ s, (Err e, s).
Definition modify {S} (f : S → S) : M S () := λ s, (Ok (), f s).

Lemma gets_bind {S X Y} (f : S → res X) (k : X → M S Y) (s : S) :
  (gets f ≫= k) s = match f s with Ok x => k x s | Err e => (Err e, s) end.
Proof. unfold gets, mbind, M_bind. by destruct (f s). Qed.
Lemma lift_bind {S X Y} (r : res X) (k : X → M S Y) (s : S) :
  (lift_res r ≫= k) s = match r with Ok x => k x s | Err e => (Err e, s) end.
Proof. unfold lift_res, mbind, M_bind. by destruct r. Qed.

Lemma M_bind_Ok {S A B} (m : M S A) (f : A → M S B) s b s' :
  (m ≫= f) s = (Ok b, s') ↔ ∃ a s1, m s = (Ok a, s1) ∧ f a s1 = (Ok b, s').
Proof.
  unfold mbind, M_bind. destruct (m s) as [[a|e] s1]; naive_solver.
Qed.

(** ** Bytes *)
Abbreviation bytes := (list byte).

#[global] Instance byte_eq_dec : EqDecision byte.
Proof. intros x y. destruct (Byte.byte_eq_dec x y); [by left | by right]. Defined.

(** The value of a byte, and the byte of a value taken modulo 256 (a cast
    [as u8]). *)
Definition u8 (b : byte) : N := Byte.to_N b.
Definition as_u8 (n : N) : byte :=
  match Byte.of_N (n `mod` 256)%N with Some b => b | None => x00 end.

Lemma u8_bound b : (u8 b < 256)%N.
Proof. pose proof (Byte.to_N_bounded b). unfold u8. lia. Qed.

Lemma as_u8_u8 b : as_u8 (u8 b) = b.
Proof.
  unfold as_u8. rewrite N.mod_small by apply u8_bound.
  unfold u8. by rewrite Byte.of_to_N.
Qed.

Lemma u8_as_u8 n : u8 (as_u8 n) = (n `mod` 256)%N.
Proof.
  unfold as_u8. destruct (Byte.of_N (n `mod` 256)%N) eqn:E.
  - by apply Byte.to_of_N in E.
  - apply Byte.of_N_None_iff in E. pose proof (N.mod_lt n 256). lia.
Qed.

Lemma u8_inj b c : u8 b = u8 c → b = c.
Proof. intros H. by rewrite <- (as_u8_u8 b), <- (as_u8_u8 c), H. Qed.

#[global] Program Instance byte_countable : Countable byte :=
  inj_countable u8 (λ n, Some (as_u8 n)) _.
Next Obligation. intros b. simpl. by rewrite as_u8_u8. Qed.

(** ** [BTreeMap] and [BTreeSet]

    Maps and sets are stdpp's [gmap] and [gset]; where the code iterates over a
    [BTreeMap]/[BTreeSet], the model iterates in ascending key order. *)
Class OrdKey (K : Type) `{Countable K} := {
  key_le : relation K;
  #[global] key_le_dec :: RelDecision key_le;
  #[global] key_le_po :: PartialOrder key_le;
  #[global] key_le_total :: Total key_le
}.

#[global] Instance string_OrdKey : OrdKey string := {| key_le := String.le |}.

(** An injection into an ordered key type carries its order back. *)
Program Definition OrdKey_inj {K L} `{Countable K, OrdKey L} (f : K → L) `{!Inj (=) (=) f} : OrdKey K :=
  {| key_le := λ x y, key_le (f x) (f y) |}.
Next Obligation. intros. intros x y. apply _. Defined.
Next Obligation.
  intros K L ????? f Hf. split; [split|].
  - intros x. reflexivity.
  - intros x y z. apply transitivity.
  - intros x y Hxy Hyx. apply Hf. by apply (anti_symm key_le).
Qed.
Next Obligation. intros K L ????? f Hf x y. apply (total key_le). Qed.

(** Pairs are ordered lexicographically. *)
#[global] Program Instance prod_OrdKey {K L} `{OrdKey K, OrdKey L} : OrdKey (K * L) :=
  {| key_le := λ p q, (p.1 ≠ q.1 ∧ key_le p.1 q.1) ∨ (p.1 = q.1 ∧ key_le p.2 q.2) |}.
Next Obligation. intros. intros x y. simpl. apply _. Defined.
Next Obligation.
  intros K L ??????. split; [split|].
  - intros [x y]. by right.
  - intros [x1 y1] [x2 y2] [x3 y3]; simpl.
    intros [[? ?]|[-> ?]] [[? ?]|[-> ?]]; [|by left..|right; split; [done|by etrans]].
    left. split; [|by etrans]. intros ->.
    assert (x3 = x2) as -> by by apply (anti_symm key_le). done.
  - intros [x1 y1] [x2 y2]; simpl. intros [[? ?]|[-> ?]] [[? ?]|[? ?]]; simplify_eq; [|done..|].
    + assert (x1 = x2) as -> by by apply (anti_symm key_le). done.
    + f_equal. by apply (anti_symm key_le).
Qed.
Next Obligation.
  intros K L ?????? [x1 y1] [x2 y2]; simpl.
  destruct (decide (x1 = x2)) as [->|].
  - destruct (total key_le y1 y2); [left|right]; right; done.
  - destruct (total key_le x1 x2); [left|right]; left; done.
Qed.

Section btree.
Context {K : Type} `{OrdKey K}.

Definition entry_le {A} (p q : K * A) : Prop := key_le p.1 q.1.
#[global] Instance entry_le_dec {A} : RelDecision (@entry_le A).
Proof. intros p q. unfold entry_le. apply _. Defined.
#[global] Instance entry_le_total {A} : Total (@entry_le A).
Proof. intros p q. apply (total key_le). Qed.
#[global] Instance entry_le_trans {A} : Transitive (@entry_le A).
Proof. intros p q r. unfold entry_le. apply transitivity. Qed.

(** [map.iter()] *)
Definition btree_iter {A} (m : gmap K A) : list (K * A) :=
  merge_sort entry_le (map_to_list m).
(** [map.keys()], [map.values()] *)
Definition btree_keys {A} (m : gmap K A) : list K := (btree_iter m).*1.
Definition btree_values {A} (m : gmap K A) : list A := (btree_iter m).*2.
(** [set.iter()] *)
Definition btree_elems (s : gset K) : list K := merge_sort key_le (elements s).

Lemma btree_iter_perm {A} (m : gmap K A) : btree_iter m ≡ₚ map_to_list m.
Proof. apply merge_sort_Permutation. Qed.

Lemma elem_of_btree_iter {A} (m : gmap K A) k v : (k, v) ∈ btree_iter m ↔ m !! k = Some v.
Proof. rewrite btree_iter_perm. apply elem_of_map_to_list. Qed.

Lemma elem_of_btree_keys {A} (m : gmap K A) k : k ∈ btree_keys m ↔ is_Some (m !! k).
Proof.
  unfold btree_keys. rewrite list_elem_of_fmap. split.
  - intros [[k' v] [-> Hin]]. apply elem_of_btree_iter in Hin. eauto.
  - intros [v Hv]. exists (k, v). by rewrite elem_of_btree_iter.
Qed.

Lemma elem_of_btree_values {A} (m : gmap K A) v : v ∈ btree_values m ↔ ∃ k, m !! k = Some v.
Proof.
  unfold btree_values. rewrite list_elem_of_fmap. split.
  - intros [[k v'] [-> Hin]]. apply elem_of_btree_iter in Hin. eauto.
  - intros [k Hv]. exists (k, v). by rewrite elem_of_btree_iter.
Qed.

Lemma NoDup_btree_keys {A} (m : gmap K A) : NoDup (btree_keys m).
Proof. unfold btree_keys. rewrite btree_iter_perm. apply NoDup_fst_map_to_list. Qed.

Lemma btree_keys_sorted {A} (m : gmap K A) : Sorted key_le (btree_keys m).
Proof.
  unfold btree_keys, btree_iter.
  assert (Sorted entry_le (merge_sort entry_le (map_to_list m))) as Hs
    by apply (Sorted_merge_sort _).
  revert Hs. generalize (merge_sort entry_le (map_to_list m)). intros l Hs.
  induction Hs as [|p l Hs IH Hhd]; simpl; constructor; [done|].
  destruct Hhd; simpl; constructor. done.
Qed.

Lemma elem_of_btree_elems (s : gset K) k : k ∈ btree_elems s ↔ k ∈ s.
Proof. unfold btree_elems. rewrite merge_sort_Permutation. apply elem_of_elements. Qed.

Lemma NoDup_btree_elems (s : gset K) : NoDup (btree_elems s).
Proof. unfold btree_elems. rewrite merge_sort_Permutation. apply NoDup_elements. Qed.
End btree.

(** ** Iteration helpers *)

(** [Iterator::any] / [Iterator::all] over a fallible body are written out where
    they occur; the pure ones are [existsb]/[forallb]. *)
Lemma existsb_true {A} (f : A → bool) l : existsb f l = true ↔ ∃ x, x ∈ l ∧ f x = true.
Proof. rewrite existsb_exists. by setoid_rewrite list_elem_of_In. Qed.

Lemma forallb_true {A} (f : A → bool) l : forallb f l = true ↔ ∀ x, x ∈ l → f x = true.
Proof. rewrite forallb_forall. by setoid_rewrite list_elem_of_In. Qed.

(** [for x in l { body }] where the body may fail: stops at the first error. *)
Fixpoint res_fold {A S} (f : S → A → res S) (s : S) (l : list A) : res S :=
  match l with
  | [] => Ok s
  | x :: l => s' ← f s x; res_fold f s' l
  end.

Lemma res_fold_app {A S} (f : S → A → res S) s l1 l2 :
  res_fold f s (l1 ++ l2) = s' ← res_fold f s l1; res_fold f s' l2.
Proof.
  revert s. induction l1 as [|x l1 IH]; intros s; [done|]. simpl.
  destruct (f s x); simpl; [apply IH|done].
Qed.

(** A loop whose every step adds what it finds. *)
Lemma res_fold_hits {A T} (f : list T → A → res (list T)) (P : A → T → Prop) l :
  (∀ h x h', x ∈ l → f h x = Ok h' → ∀ t, t ∈ h' ↔ t ∈ h ∨ P x t) →
  ∀ hits out, res_fold f hits l = Ok out → ∀ t, t ∈ out ↔ t ∈ hits ∨ ∃ x, x ∈ l ∧ P x t.
Proof.
  induction l as [|x l IH]; intros Hf hits out; cbn [res_fold].
  - intros [= <-] t. split; [by left|]. intros [?|(? & ?%elem_of_nil & _)]; done.
  - rewrite bind_Ok. intros (h & Hx & Hl) t.
    rewrite (IH (λ h y h' Hy, Hf h y h' (list_elem_of_further _ _ _ Hy)) h out Hl t), (Hf hits x h ltac:(by left) Hx t).
    setoid_rewrite elem_of_cons. naive_solver.
Qed.

(** [for x in l { check(x)? }]. *)
Fixpoint for_each {A} (f : A → res ()) (l : list A) : res () :=
  match l with
  | [] => Ok ()
  | x :: l => _ ← f x; for_each f l
  end.

Lemma for_each_Ok {A} (f : A → res ()) l : for_each f l = Ok () ↔ ∀ x, x ∈ l → f x = Ok ().
Proof.
  induction l as [|x l IH]; simpl; [set_solver|].
  rewrite bind_Ok. setoid_rewrite IH. split.
  - intros ([] & ? & ?) y [->|?]%elem_of_cons; auto.
  - intros Hall. exists (). split; [apply Hall; by left|]. intros y ?. apply Hall. by right.
Qed.

(** ... and the same over the state of a component. *)
Fixpoint M_iter {S A} (f : A → M S ()) (l : list A) : M S () :=
  match l with
  | [] => mret ()
  | x :: l => f x ≫= λ _, M_iter f l
  end.

(** A loop over a state that also carries a value from one round to the next. *)
Fixpoint M_fold {S A B} (f : B → A → M S B) (b : B) (l : list A) : M S B :=
  match l with
  | [] => mret b
  | x :: l => b' ← f b x; M_fold f b' l
  end.

(** Finds the first element that satisfies [f]. *)
Definition find_first {A} (f : A → bool) (l : list A) : option A := List.find f l.

Lemma find_first_Some {A} (f : A → bool) l x :
  find_first f l = Some x → x ∈ l ∧ f x = true.
Proof. intros Hf. apply List.find_some in Hf as [??]. by rewrite list_elem_of_In. Qed.

Lemma find_first_None {A} (f : A → bool) l :
  find_first f l = None ↔ ∀ x, x ∈ l → f x = false.
Proof.
  split.
  - intros Hn x Hx. eapply List.find_none; [done|]. by apply list_elem_of_In.
  - induction l as [|y l IH]; intros Hall; [done|]. simpl.
    rewrite (Hall y) by left. apply IH. intros x Hx. apply Hall. by right.
Qed.

Lemma filter_none {A} (P : A → Prop) `{∀ x, Decision (P x)} (l : list A) :
  (∀ x, x ∈ l → ¬ P x) → filter P l = [].
Proof.
  induction l as [|x l IH]; intros Hall; [done|].
  rewrite filter_cons_False by (apply Hall; left). apply IH. intros y ?. apply Hall. by right.
Qed.

Lemma filter_all {A} (P : A → Prop) `{∀ x, Decision (P x)} (l : list A) :
  (∀ x, x ∈ l → P x) → filter P l = l.
Proof.
  induction l as [|x l IH]; intros Hall; [done|].
  rewrite filter_cons_True by (apply Hall; left). f_equal. apply IH. intros y ?. apply Hall. by right.
Qed.

Lemma string_app_assoc (s t u : string) : (s +:+ t) +:+ u = s +:+ t +:+ u.
Proof. induction s as [|a s IH]; [done|]. by apply (f_equal (String.String a)). Qed.

Lemma list_omap_none {A B} (f : A → option B) (l : list A) :
  (∀ x, x ∈ l → f x = None) → omap f l = [].
Proof.
  induction l as [|x l IH]; intros Hall; [done|]. cbn [omap list_omap]. rewrite (Hall x) by left.
  apply IH. intros y ?. apply Hall. by right.
Qed.
Lemma list_omap_single {A B} (f : A → option B) (l : list A) x y :
  NoDup l → x ∈ l → f x = Some y → (∀ z, z ∈ l → z ≠ x → f z = None) → omap f l = [y].
Proof.
  intros Hnd. induction Hnd as [|z l Hz Hnd IH]; intros Hin Hf Hall; [by apply elem_of_nil in Hin|].
  cbn [omap list_omap]. apply elem_of_cons in Hin as [->|Hin].
  - rewrite Hf, list_omap_none; [done|]. intros w Hw. apply Hall; [by right|]. by intros ->.
  - rewrite (Hall z); [|by left|by intros ->]. apply IH; [done..|]. intros w Hw. apply Hall. by right.
Qed.

(** ** Loops with more iterations than a unary counter can hold

    [iter_pow n step] runs [step] up to [2^n] times, stopping when it returns. *)
Section loop.
Context {St R : Type} (step : St → St + R).

Fixpoint iter_pow (n : nat) (s : St) : St + R :=
  match n with
  | O => step s
  | S n => match iter_pow n s with
           | inl s' => iter_pow n s'
           | inr r => inr r
           end
  end.

Lemma iter_pow_inv (P : St → Prop) (Q : R → Prop) :
  (∀ s, P s → match step s with inl s' => P s' | inr r => Q r end) →
  ∀ n s, P s → match iter_pow n s with inl s' => P s' | inr r => Q r end.
Proof.
  intros Hstep n. induction n as [|n IH]; intros s Hs; [by apply Hstep|]. simpl.
  specialize (IH s Hs) as H1. destruct (iter_pow n s) as [s'|r]; [|done]. by apply IH.
Qed.

(** A loop whose measure goes down is over after that many iterations. *)
Lemma iter_pow_measure (P : St → Prop) (μ : St → nat) :
  (∀ s s', P s → step s = inl s' → P s' ∧ μ s' < μ s) →
  ∀ n s s', P s → iter_pow n s = inl s' → P s' ∧ μ s' + 2 ^ n ≤ μ s.
Proof.
  intros Hstep n. induction n as [|n IH]; intros s s' Hs Hi.
  - destruct (Hstep s s' Hs Hi). simpl. split; [done|lia].
  - simpl in Hi. destruct (iter_pow n s) as [s1|] eqn:H1; [|done].
    destruct (IH _ _ Hs H1) as [Hs1 ?]. destruct (IH _ _ Hs1 Hi) as [? ?]. split; [done|]. simpl. lia.
Qed.
End loop.

(** ** [for (k, v) in map { .. out.insert(k, ..) .. }]

    The loop over a [BTreeMap] that builds another one with the same keys: [g] may
    fail, which ends the loop, or leave the key out. *)
Section collect.
Context {K : Type} `{OrdKey K} {A B : Type}.

Definition collect_step (g : K → A → res (option B)) (out : gmap K B) (e : K * A) : res (gmap K B) :=
  r ← g e.1 e.2; Ok (match r with Some v => <[e.1 := v]> out | None => out end).
Definition collect (g : K → A → res (option B)) (m : gmap K A) : res (gmap K B) :=
  res_fold (collect_step g) ∅ (btree_iter m).

Lemma collect_loop g l : NoDup l.*1 → ∀ out out', res_fold (collect_step g) out l = Ok out' →
  (∀ k v, (k, v) ∈ l → ∃ r, g k v = Ok r ∧ out' !! k = match r with Some _ => r | None => out !! k end) ∧
  ∀ k, k ∉ l.*1 → out' !! k = out !! k.
Proof.
  induction l as [|[k v] l IH]; simpl; intros Hnd out out'.
  - intros [= <-]. split; [|done]. by intros k v Hk%not_elem_of_nil.
  - apply NoDup_cons in Hnd as [Hk Hnd]. rewrite bind_Ok. unfold collect_step at 1. simpl.
    intros (o & Ho & Hf). apply bind_Ok in Ho as (r & Hr & [= <-]).
    destruct (IH Hnd _ _ Hf) as [Hin Hout]. split.
    + intros k' v' [[= -> ->]|Hkv]%elem_of_cons.
      * exists r. split; [done|]. rewrite (Hout k Hk). destruct r; [apply lookup_insert_eq|done].
      * destruct (Hin k' v' Hkv) as (r' & Hr' & Heq). exists r'. split; [done|]. rewrite Heq. destruct r'; [done|].
        destruct r; [|done]. apply lookup_insert_ne. intros ->. apply Hk. by apply (list_elem_of_fmap_2 fst _ (k', v')).
    + intros k' [Hne Hk']%not_elem_of_cons. rewrite (Hout k' Hk'). destruct r; [|done]. by apply lookup_insert_ne.
Qed.

(** A run that succeeds applied [g] to every entry. *)
Lemma collect_Ok g m out : collect g m = Ok out →
  ∀ k, match m !! k with Some v => g k v = Ok (out !! k) | None => out !! k = None end.
Proof.
  intros Hc k. apply collect_loop in Hc as [Hin Hout]; [|apply NoDup_btree_keys].
  destruct (m !! k) as [v|] eqn:Hk.
  - apply elem_of_btree_iter in Hk. destruct (Hin k v Hk) as (r & -> & ->).
    destruct r; [done|]. by rewrite lookup_empty.
  - rewrite Hout, lookup_empty; [done|]. intros Hi. change (k ∈ btree_keys m) in Hi.
    apply elem_of_btree_keys in Hi. rewrite Hk in Hi. by destruct Hi.
Qed.

(** Two bodies that agree on the entries make the same run, errors included. *)
Lemma collect_ext g g' m : (∀ k v, m !! k = Some v → g k v = g' k v) → collect g m = collect g' m.
Proof.
  intros Hg. unfold collect.
  assert (∀ e, e ∈ btree_iter m → g e.1 e.2 = g' e.1 e.2) as Hall.
  { intros [k v] He. apply Hg. by apply elem_of_btree_iter. }
  revert Hall. generalize (∅ : gmap K B). induction (btree_iter m) as [|e l IH]; intros out Hall; [done|].
  cbn [res_fold]. assert (collect_step g out e = collect_step g' out e) as ->.
  { unfold collect_step. by rewrite (Hall e) by left. }
  destruct (collect_step g' out e) as [r|]; [|done]. apply IH. intros e' He'. apply Hall. by right.
Qed.

(** It succeeds when [g] does, and stops with the error of the first entry in key order. *)
Lemma collect_total g m : (∀ k v, m !! k = Some v → is_Ok (g k v) = true) → ∃ out, collect g m = Ok out.
Proof.
  intros Hg. unfold collect.
  assert (∀ e, e ∈ btree_iter m → is_Ok (g e.1 e.2) = true) as Hall.
  { intros [k v] He. apply Hg. by apply elem_of_btree_iter. }
  revert Hall. generalize (∅ : gmap K B). induction (btree_iter m) as [|e l IH]; intros out Hall; simpl; [by eexists|].
  pose proof (Hall e ltac:(by left)) as He.
  destruct (collect_step g out e) as [r|e'] eqn:Hs; [|unfold collect_step in Hs; by destruct (g e.1 e.2)].
  apply IH. intros e' He'. apply Hall. by right.
Qed.
Lemma collect_Err g m e : collect g m = Err e → ∃ k v, m !! k = Some v ∧ g k v = Err e.
Proof.
  unfold collect. assert (∀ p, p ∈ btree_iter m → m !! p.1 = Some p.2) as Hall.
  { intros [k v] He. by apply elem_of_btree_iter. }
  revert Hall. generalize (∅ : gmap K B). induction (btree_iter m) as [|p l IH]; intros out Hall; simpl; [done|].
  destruct (collect_step g out p) as [r|e'] eqn:Hp.
  - apply IH. intros q Hq. apply Hall. by right.
  - intros [= ->]. exists p.1, p.2. split; [apply Hall; by left|].
    unfold collect_step in Hp. destruct (g p.1 p.2); [done|by injection Hp as ->].
Qed.
End collect.

(** ** Tactics of the development *)

(** Unfolds the result monads and splits every match on a hypothesis. *)
Ltac simpl_res :=
  unfold mbind, mret, fmap, result_bind, result_ret, result_fmap, M_bind, M_ret,
    lift_res, gets, throw, modify in *; simpl in *.

Ltac case_res H :=
  repeat (case_match; simplify_eq/=; try done).

Create HintDb bole.
#[export] Hint Resolve elem_of_btree_iter elem_of_btree_keys : bole.
