(* ===== verification/Bytes.v ===== *)
(** * Bytes: integers, varints and slices of byte strings

    What the binary formats of the sources share: fixed-width little-endian integers
    ([to_le_bytes]/[from_le_bytes]), checked and unchecked sub-slices, and the LEB128
    varints of src/src/store/pack.rs ([write_varint], [read_varint]).  Positions and
    lengths are [N]; a [u64] is an [N] below [2^64]. *)

From S2P Require Import Prelude.
From Stdlib Require Import Lia.

(** ** Little-endian integers *)

(** [v.to_le_bytes()] of an [n]-byte integer. *)
Fixpoint to_le (n : nat) (v : N) : bytes :=
  match n with
  | O => []
  | S n => as_u8 v :: to_le n (v / 256)
  end.
(** [from_le_bytes]. *)
Fixpoint from_le (l : bytes) : N :=
  match l with
  | [] => 0
  | b :: l => u8 b + 256 * from_le l
  end.

Lemma to_le_length n v : length (to_le n v) = n.
Proof. revert v. induction n; intros v; simpl; [done|by rewrite IHn]. Qed.

Lemma from_to_le n v : (v < 256 ^ N.of_nat n)%N → from_le (to_le n v) = v.
Proof.
  revert v. induction n as [|n IH]; intros v Hv; simpl; [simpl in Hv; lia|].
  rewrite u8_as_u8, IH; [pose proof (N.div_mod v 256); lia|].
  rewrite Nat2N.inj_succ, N.pow_succ_r' in Hv. apply N.Div0.div_lt_upper_bound. done.
Qed.

Lemma from_le_bound l : (from_le l < 256 ^ N.of_nat (length l))%N.
Proof.
  induction l as [|b l IH]; [simpl; lia|].
  cbn [from_le length]. rewrite Nat2N.inj_succ, N.pow_succ_r'. pose proof (u8_bound b). lia.
Qed.

Lemma to_from_le l : to_le (length l) (from_le l) = l.
Proof.
  induction l as [|b l IH]; [done|]. simpl. pose proof (u8_bound b). f_equal.
  - apply u8_inj. rewrite u8_as_u8.
    rewrite (N.mul_comm 256), N.Div0.mod_add, N.mod_small; done.
  - rewrite (N.mul_comm 256), N.div_add by done. rewrite N.div_small by done. by rewrite N.add_0_l.
Qed.

(** ** Slices *)
Definition blen (l : bytes) : N := N.of_nat (length l).

(** [&l[s..e]], once the bounds are known to hold. *)
Definition slice (l : bytes) (s e : N) : bytes :=
  take (N.to_nat (e - s)) (drop (N.to_nat s) l).
(** [l.get(s..e)]: the bounds are checked before a range is cut. *)
Definition get_range (l : bytes) (s e : N) : option bytes :=
  if (s <=? e)%N && (e <=? blen l)%N then Some (slice l s e) else None.
(** [l.get(p)] *)
Definition get_at (l : bytes) (p : N) : option byte :=
  if (p <? blen l)%N then l !! N.to_nat p else None.

Lemma blen_app l k : blen (l ++ k) = (blen l + blen k)%N.
Proof. unfold blen. rewrite length_app. lia. Qed.
Lemma blen_cons b l : blen (b :: l) = (1 + blen l)%N.
Proof. unfold blen. simpl. lia. Qed.
Lemma blen_nil : blen [] = 0%N.
Proof. done. Qed.
Lemma blen_to_le n v : blen (to_le n v) = N.of_nat n.
Proof. unfold blen. by rewrite to_le_length. Qed.

Lemma slice_length l s e : (s ≤ e)%N → (e ≤ blen l)%N → blen (slice l s e) = (e - s)%N.
Proof. unfold blen, slice. intros. rewrite length_take, length_drop. lia. Qed.

(** A slice that ends where a known part does is that part. *)
Lemma slice_app pre l post : slice (pre ++ l ++ post) (blen pre) (blen pre + blen l) = l.
Proof.
  unfold slice, blen.
  replace (N.to_nat (N.of_nat (length pre) + N.of_nat (length l) - N.of_nat (length pre)))
    with (length l) by lia.
  rewrite Nat2N.id, drop_app_length. by rewrite take_app_length.
Qed.

Lemma slice_at pre l post s e :
  s = blen pre → e = (blen pre + blen l)%N → slice (pre ++ l ++ post) s e = l.
Proof. intros -> ->. apply slice_app. Qed.

Lemma get_range_at pre l post s e :
  s = blen pre → e = (blen pre + blen l)%N → get_range (pre ++ l ++ post) s e = Some l.
Proof.
  intros -> ->. unfold get_range. rewrite slice_app, !blen_app.
  rewrite (proj2 (N.leb_le _ _)), (proj2 (N.leb_le _ _)) by lia. done.
Qed.

Lemma get_at_app pre b post p : p = blen pre → get_at (pre ++ b :: post) p = Some b.
Proof.
  intros ->. unfold get_at. rewrite blen_app, blen_cons.
  rewrite (proj2 (N.ltb_lt _ _)) by lia. unfold blen. rewrite Nat2N.id. by rewrite list_lookup_middle.
Qed.

Lemma get_range_Some l s e k :
  get_range l s e = Some k → (s ≤ e)%N ∧ (e ≤ blen l)%N ∧ k = slice l s e.
Proof.
  unfold get_range. destruct (N.leb_spec s e), (N.leb_spec e (blen l)); naive_solver.
Qed.

Lemma get_at_Some l p b : get_at l p = Some b → (p < blen l)%N ∧ l !! N.to_nat p = Some b.
Proof. unfold get_at. destruct (N.ltb_spec p (blen l)); naive_solver. Qed.

Lemma get_at_None l p : get_at l p = None → (blen l ≤ p)%N.
Proof.
  unfold get_at. destruct (N.ltb_spec p (blen l)) as [Hl|]; [|done].
  intros Hn%lookup_ge_None. unfold blen in *. lia.
Qed.

(** A prefix of a list read through [slice] is what the list starts with. *)
Lemma slice_split l s e : (s ≤ e)%N → (e ≤ blen l)%N →
  l = take (N.to_nat s) l ++ slice l s e ++ drop (N.to_nat e) l.
Proof.
  intros Hse He. unfold slice. rewrite <-(take_drop (N.to_nat s) l) at 1. f_equal.
  rewrite <-(take_drop (N.to_nat (e - s)) (drop (N.to_nat s) l)) at 1. f_equal.
  rewrite drop_drop. f_equal. lia.
Qed.

(** ** LEB128 varints (pack.rs) *)
Definition U64 : N := 2 ^ 64.

(** One iteration per seven bits: ten for a [u64], see [read_write_varint]. *)
Fixpoint write_varint_loop (fuel : nat) (v : N) : bytes :=
  match fuel with
  | O => []
  | S fuel =>
      let byte := N.land v 127 in
      let v' := N.shiftr v 7 in
      if decide (v' ≠ 0%N) then as_u8 (N.lor byte 128) :: write_varint_loop fuel v'
      else [as_u8 byte]
  end.
(** The bytes [write_varint] appends to its buffer. *)
Definition write_varint (v : N) : bytes := write_varint_loop 10 v.

(** [shift] goes up by seven and is below 64, so ten iterations are all there are;
    the result is the value and the position after it.  Bits shifted past the
    sixty-fourth are lost, as [<<] loses them. *)
Fixpoint read_varint_loop (fuel : nat) (data : bytes) (pos result shift : N) : res (N * N) :=
  match fuel with
  | O => Err (Storage "pack: varint overflow")
  | S fuel =>
      byte ← ok_or (get_at data pos) (Storage "pack: varint truncated");
      let pos := (pos + 1)%N in
      let result := N.lor result (N.shiftl (N.land (u8 byte) 127) shift `mod` U64) in
      if decide (N.land (u8 byte) 128 = 0%N) then Ok (result, pos)
      else
        let shift := (shift + 7)%N in
        if (64 <=? shift)%N then Err (Storage "pack: varint overflow")
        else read_varint_loop fuel data pos result shift
  end.
Definition read_varint (data : bytes) (pos : N) : res (N * N) := read_varint_loop 10 data pos 0 0.

(** A property of the values below 128, checked on each. *)
Lemma below_128 (f : N → bool) :
  forallb (λ n, f (N.of_nat n)) (seq 0 128) = true → ∀ v, (v < 128)%N → f v = true.
Proof.
  intros Hf v Hv. rewrite forallb_true in Hf. specialize (Hf (N.to_nat v)).
  rewrite N2Nat.id in Hf. apply Hf. apply elem_of_seq. lia.
Qed.

Lemma low7_bound v : (N.land v 127 < 128)%N.
Proof. change 127%N with (N.ones 7). rewrite N.land_ones. apply N.mod_lt. done. Qed.

(** The two kinds of varint bytes: the last one and a continued one. *)
Lemma last_byte b : (b < 128)%N → N.land (u8 (as_u8 b)) 127 = b ∧ N.land (u8 (as_u8 b)) 128 = 0%N.
Proof.
  intros Hb. apply (below_128 (λ b, (N.land (u8 (as_u8 b)) 127 =? b)%N && (N.land (u8 (as_u8 b)) 128 =? 0)%N))
    in Hb; [|by vm_compute].
  apply andb_true_iff in Hb as [?%N.eqb_eq ?%N.eqb_eq]. done.
Qed.
Lemma more_byte b : (b < 128)%N →
  N.land (u8 (as_u8 (N.lor b 128))) 127 = b ∧ N.land (u8 (as_u8 (N.lor b 128))) 128 ≠ 0%N.
Proof.
  intros Hb. apply (below_128 (λ b, (N.land (u8 (as_u8 (N.lor b 128))) 127 =? b)%N &&
    negb (N.land (u8 (as_u8 (N.lor b 128))) 128 =? 0)%N)) in Hb; [|by vm_compute].
  apply andb_true_iff in Hb as [?%N.eqb_eq ?%negb_true_iff%N.eqb_neq]. done.
Qed.

Lemma lor_shift r v s : (r < 2 ^ s)%N → N.lor r (N.shiftl v s) = (r + v * 2 ^ s)%N.
Proof.
  intros Hr. assert (N.land r (N.shiftl v s) = 0%N) as Hd.
  { apply N.bits_inj. intros i. rewrite N.land_spec, N.bits_0.
    destruct (N.lt_ge_cases i s) as [Hi|Hi].
    - rewrite N.shiftl_spec_low by done. apply andb_false_r.
    - rewrite <-(N.mod_small r (2 ^ s)) by done. by rewrite N.mod_pow2_bits_high by done. }
  rewrite <-N.lxor_lor by done. rewrite <-N.add_nocarry_lxor by done. by rewrite N.shiftl_mul_pow2.
Qed.

Lemma split7 v : v = (N.land v 127 + 2 ^ 7 * N.shiftr v 7)%N.
Proof.
  change 127%N with (N.ones 7). rewrite N.land_ones, N.shiftr_div_pow2.
  pose proof (N.div_mod v (2 ^ 7)). lia.
Qed.

Lemma pow7_add s : (2 ^ (s + 7) = 2 ^ 7 * 2 ^ s)%N.
Proof. rewrite N.pow_add_r. lia. Qed.

(** Reading what was written, from any point of the loop. *)
Lemma read_write_loop fuel : ∀ pre v post r,
  let s := (7 * (10 - N.of_nat fuel))%N in
  1 ≤ fuel ≤ 10 → (r < 2 ^ s)%N → (v < 2 ^ (64 - s))%N →
  read_varint_loop fuel (pre ++ write_varint_loop fuel v ++ post) (blen pre) r s =
    Ok ((r + v * 2 ^ s)%N, (blen pre + blen (write_varint_loop fuel v))%N).
Proof.
  induction fuel as [|fuel IH]; intros pre v post r s Hf Hr Hv; [lia|].
  pose proof (low7_bound v) as Hlow. pose proof (split7 v) as Hsplit.
  assert (2 ^ 64 = 2 ^ (64 - s) * 2 ^ s)%N as H64 by (rewrite <-N.pow_add_r; f_equal; lia).
  assert (v * 2 ^ s < U64)%N as Hfit.
  { unfold U64. rewrite H64. apply N.mul_lt_mono_pos_r; [|done]. pose proof (N.pow_nonzero 2 s). lia. }
  assert (N.shiftl (N.land v 127) s `mod` U64 = N.shiftl (N.land v 127) s)%N as Hmod.
  { apply N.mod_small. rewrite N.shiftl_mul_pow2. eapply N.le_lt_trans; [|exact Hfit].
    apply N.mul_le_mono_r. lia. }
  cbn [write_varint_loop read_varint_loop].
  destruct (decide (N.shiftr v 7 ≠ 0%N)) as [Hv'|Hv'].
  - destruct (more_byte _ Hlow) as [Hb1 Hb2]. rewrite <-app_comm_cons, get_at_app by done.
    cbn [ok_or mbind result_bind]. rewrite Hb1, decide_False by exact Hb2. rewrite Hmod, lor_shift by done.
    destruct (decide (fuel = 0)) as [->|].
    { exfalso. apply Hv'. assert (v < 2)%N as Hv2 by exact Hv.
      rewrite N.shiftr_div_pow2. apply N.div_small. etrans; [exact Hv2|done]. }
    assert (s + 7 = 7 * (10 - N.of_nat fuel))%N as Hs' by lia.
    rewrite (proj2 (N.leb_gt _ _)) by lia.
    specialize (IH (pre ++ [as_u8 (N.lor (N.land v 127) 128)]) (N.shiftr v 7) post
      (r + N.land v 127 * 2 ^ s)%N).
    cbv zeta in IH. rewrite <-Hs' in IH. rewrite <-app_assoc in IH. cbn [app] in IH.
    rewrite !blen_app, blen_cons, blen_nil in IH. rewrite blen_cons.
    rewrite N.add_0_r in IH. rewrite IH; [|lia| |].
    + f_equal. f_equal; [|lia]. rewrite pow7_add. rewrite Hsplit at 3. lia.
    + rewrite pow7_add. pose proof (N.pow_nonzero 2 s). nia.
    + apply (N.mul_lt_mono_pos_l (2 ^ 7)); [done|].
      rewrite <-N.pow_add_r. replace (7 + (64 - (s + 7)))%N with (64 - s)%N by lia. lia.
  - destruct (last_byte _ Hlow) as [Hb1 Hb2]. rewrite <-app_comm_cons, get_at_app by done.
    cbn [ok_or mbind result_bind]. rewrite Hb1, decide_True by exact Hb2. rewrite Hmod, lor_shift by done.
    rewrite blen_cons, blen_nil. f_equal.
    assert (N.shiftr v 7 = 0%N) as Hz by (by destruct (decide (N.shiftr v 7 = 0%N))).
    rewrite Hz in Hsplit. f_equal. f_equal. lia.
Qed.

Lemma read_write_varint pre v post p :
  (v < U64)%N → p = blen pre →
  read_varint (pre ++ write_varint v ++ post) p = Ok (v, (p + blen (write_varint v))%N).
Proof.
  intros Hv ->. pose proof (read_write_loop 10 pre v post 0) as Hl. cbv zeta in Hl.
  change (7 * (10 - N.of_nat 10))%N with 0%N in Hl. unfold read_varint, write_varint.
  rewrite Hl; [f_equal; f_equal; simpl; lia|lia|done|exact Hv].
Qed.

Lemma lor_U64 r x : (r < U64)%N → (N.lor r (x `mod` U64) < U64)%N.
Proof.
  intros Hr. apply N.div_small_iff; [done|]. unfold U64 in *.
  rewrite <-N.shiftr_div_pow2, N.shiftr_lor, !N.shiftr_div_pow2.
  rewrite (N.div_small r), (N.div_small (_ `mod` _)); [done|by apply N.mod_lt|done].
Qed.

(** A varint read ends inside the data, after where it began, and fits a [u64]. *)
Lemma read_varint_loop_Ok fuel : ∀ data pos r s v q,
  (r < U64)%N → read_varint_loop fuel data pos r s = Ok (v, q) →
  (v < U64)%N ∧ (pos < q)%N ∧ (q ≤ blen data)%N.
Proof.
  induction fuel as [|fuel IH]; intros data pos r s v q Hr; simpl; [done|].
  destruct (get_at data pos) as [b|] eqn:Hb; [|done]. apply get_at_Some in Hb as [Hb _].
  cbn [ok_or mbind result_bind].
  assert (N.lor r (N.shiftl (N.land (u8 b) 127) s `mod` U64) < U64)%N as Hlor by by apply lor_U64.
  case_decide.
  - intros [= <- <-]. split; [done|]. lia.
  - destruct (64 <=? s + 7)%N; [done|]. intros Hl. apply IH in Hl as (?&?&?); [|done]. lia.
Qed.

Lemma read_varint_Ok data pos v q :
  read_varint data pos = Ok (v, q) → (v < U64)%N ∧ (pos < q)%N ∧ (q ≤ blen data)%N.
Proof. by apply read_varint_loop_Ok. Qed.

(** The only failures are the two errors of the code. *)
Lemma read_varint_loop_Err fuel : ∀ data pos r s e,
  read_varint_loop fuel data pos r s = Err e →
  e = Storage "pack: varint truncated" ∨ e = Storage "pack: varint overflow".
Proof.
  induction fuel as [|fuel IH]; intros data pos r s e; simpl; [intros [= <-]; auto|].
  destruct (get_at data pos); [|intros [= <-]; auto]. cbn [ok_or mbind result_bind].
  case_decide; [done|]. destruct (64 <=? s + 7)%N; [intros [= <-]; auto|]. apply IH.
Qed.

Lemma write_varint_loop_length fuel v : length (write_varint_loop fuel v) ≤ fuel.
Proof.
  revert v. induction fuel as [|fuel IH]; intros v; simpl; [lia|].
  case_decide; simpl; [specialize (IH (N.shiftr v 7)); lia|lia].
Qed.

(** ** Tables of fixed-size records *)
Section table.
Context {A : Type} (f : A → bytes) (k : nat) (Hf : ∀ x, length (f x) = k).

Lemma table_length l : length (l ≫= f) = k * length l.
Proof. induction l as [|x l IH]; [simpl; lia|]. rewrite bind_cons, length_app, Hf, IH. simpl. lia. Qed.

(** The [i]-th record of a table, read at its offset. *)
Lemma slice_table pre l post i x s e : l !! i = Some x →
  s = (blen pre + N.of_nat i * N.of_nat k)%N → e = (s + N.of_nat k)%N →
  slice (pre ++ (l ≫= f) ++ post) s e = f x.
Proof.
  intros Hx -> ->. pose proof (take_drop_middle l i x Hx) as Hl. rewrite <-Hl.
  rewrite bind_app, bind_cons. rewrite <-(app_assoc (take i l ≫= f)), <-app_assoc, (app_assoc pre).
  apply slice_at.
  - rewrite blen_app. f_equal. unfold blen. rewrite table_length, length_take.
    apply lookup_lt_Some in Hx. rewrite Nat.min_l by lia. lia.
  - rewrite blen_app. unfold blen. rewrite table_length, length_take, Hf.
    apply lookup_lt_Some in Hx. rewrite Nat.min_l by lia. lia.
Qed.
End table.
