(* ===== verification/Glob.v ===== *)
(** * Glob: the memoised glob matcher of [src/src/acl/glob.rs]

    [glob_matches] is the code: a backtracking matcher on byte suffixes that
    threads a set of failed (pattern length, path length) pairs.  [Glob] is the
    meaning of a pattern, a relation with no memo and no recursion order.  The
    theorems: the memoised matcher decides exactly [Glob] within the length
    limit, and denies everything beyond it. *)

From S2P Require Import Prelude.
From Stdlib Require Import Ascii.

Local Open Scope char_scope.

Definition MAX_GLOB_LEN : N := 8192.

(** ** The code *)
Section matcher.
(** The set [false_memo] of states known to fail. *)
Notation memo := (gset (nat * nat)).
(** A call of [matches] at the next recursion depth. *)
Notation call := (list ascii → list ascii → memo → bool * memo).

(** [for i in 0..s.len() { if s[i] == '/' && matches(pat, &s[i + 1..]) }],
    [t] being [&s[i..]]. *)
Fixpoint dss_loop (rec : call) (pat t : list ascii) (m : memo) : bool * memo :=
  match t with
  | [] => (false, m)
  | c :: t' =>
      if Ascii.eqb c "/" then
        let '(hit, m') := rec pat t' m in
        if hit then (true, m') else dss_loop rec pat t' m'
      else dss_loop rec pat t' m
  end.

(** [for i in 0..=s.len() { if i == s.len() || s[i] == '/' { .. } }] *)
Fixpoint ds_loop (rec : call) (rest t : list ascii) (m : memo) : bool * memo :=
  match t with
  | [] => rec rest [] m
  | c :: t' =>
      if Ascii.eqb c "/" then
        let '(hit, m') := rec rest t' m in
        if hit then (true, m') else ds_loop rec rest t' m'
      else ds_loop rec rest t' m
  end.

(** [loop { if matches(rest, &s[i..]) .. ; if i == s.len() || s[i] == '/' .. }] *)
Fixpoint star_loop (rec : call) (rest t : list ascii) (m : memo) : bool * memo :=
  let '(hit, m') := rec rest t m in
  if hit then (true, m')
  else match t with
       | [] => (false, m')
       | c :: t' => if Ascii.eqb c "/" then (false, m') else star_loop rec rest t' m'
       end.

(** The [match (pat, s)] of the nested function [matches]. *)
Definition matches_arm (rec : call) (pat s : list ascii) (m : memo) : bool * memo :=
  match pat with
  | [] => (match s with [] => true | _ :: _ => false end, m)
  | "*" :: "*" :: "/" :: rest =>
      let '(b, m') := rec rest s m in
      if b then (true, m') else dss_loop rec pat s m'
  | "*" :: "*" :: rest =>
      let '(b, m') := rec rest s m in
      if b then (true, m') else ds_loop rec rest s m'
  | "*" :: rest => star_loop rec rest s m
  | p :: pat_rest =>
      match s with
      | c :: s_rest => if Ascii.eqb p c then rec pat_rest s_rest m else (false, m)
      | [] => (false, m)
      end
  end.

(** [matches]; the recursion always shortens [pat] or [s], so a depth of
    [length pat + length s + 1] is enough. *)
Fixpoint matches (fuel : nat) (pat s : list ascii) (m : memo) : bool * memo :=
  match fuel with
  | O => (false, m)
  | S fuel =>
      let key := (length pat, length s) in
      if decide (key ∈ m) then (false, m)
      else
        let '(result, m') := matches_arm (matches fuel) pat s m in
        (result, if result then m' else {[key]} ∪ m')
  end.
End matcher.

Definition glob_matches (pattern path : string) : bool :=
  let pat := String.list_ascii_of_string pattern in
  let s := String.list_ascii_of_string path in
  if (MAX_GLOB_LEN <? N.of_nat (length pat))%N || (MAX_GLOB_LEN <? N.of_nat (length s))%N
  then false
  else (matches (S (length pat + length s)) pat s ∅).1.

(** ** The meaning of a pattern *)

(** [seg] is any run of bytes that ends just before a separator. *)
Inductive Glob : list ascii → list ascii → Prop :=
| glob_nil : Glob [] []
| glob_dss_zero rest s : Glob rest s → Glob ("*" :: "*" :: "/" :: rest) s
| glob_dss_seg rest seg s :
    Glob ("*" :: "*" :: "/" :: rest) s →
    Glob ("*" :: "*" :: "/" :: rest) (seg ++ ("/" :: s))
| glob_ds_zero rest s : head rest ≠ Some "/" → Glob rest s → Glob ("*" :: "*" :: rest) s
| glob_ds_all rest s : head rest ≠ Some "/" → Glob rest [] → Glob ("*" :: "*" :: rest) s
| glob_ds_seg rest seg s :
    head rest ≠ Some "/" → Glob rest s → Glob ("*" :: "*" :: rest) (seg ++ ("/" :: s))
| glob_star rest run s :
    head rest ≠ Some "*" → "/" ∉ run → Glob rest s → Glob ("*" :: rest) (run ++ s)
| glob_lit p rest s : p ≠ "*" → Glob rest s → Glob (p :: rest) (p :: s).

(** *** One equation per arm of the match *)
Lemma Glob_nil_iff s : Glob [] s ↔ s = [].
Proof. split; [by inversion 1 | intros ->; constructor]. Qed.

Lemma Glob_dss_iff rest s :
  Glob ("*" :: "*" :: "/" :: rest) s ↔
  Glob rest s ∨ ∃ seg u, s = seg ++ ("/" :: u) ∧ Glob ("*" :: "*" :: "/" :: rest) u.
Proof.
  split.
  - inversion 1; subst; simpl in *; eauto; congruence.
  - intros [?|(seg & u & -> & ?)]; by constructor.
Qed.

Lemma Glob_ds_iff rest s :
  head rest ≠ Some "/" →
  Glob ("*" :: "*" :: rest) s ↔
  Glob rest s ∨ Glob rest [] ∨ ∃ seg u, s = seg ++ ("/" :: u) ∧ Glob rest u.
Proof.
  intros Hr. split.
  - inversion 1; subst; simpl in *; eauto 6; congruence.
  - intros [?|[?|(seg & u & -> & ?)]];
      [by apply glob_ds_zero | by apply glob_ds_all | by apply glob_ds_seg].
Qed.

Lemma Glob_star_iff rest s :
  head rest ≠ Some "*" →
  Glob ("*" :: rest) s ↔ ∃ run u, s = run ++ u ∧ "/" ∉ run ∧ Glob rest u.
Proof.
  intros Hr. split.
  - inversion 1; subst; simpl in *; eauto; congruence.
  - intros (run & u & -> & ? & ?). by apply glob_star.
Qed.

Lemma Glob_lit_iff p rest s :
  p ≠ "*" → Glob (p :: rest) s ↔ ∃ u, s = p :: u ∧ Glob rest u.
Proof.
  intros Hp. split.
  - inversion 1; subst; simpl in *; eauto; congruence.
  - intros (u & -> & ?). by apply glob_lit.
Qed.

(** ** Correctness of the memoised matcher *)
Section correctness.
Context (pat0 s0 : list ascii).

(** The suffix of length [n]: what a memo key stands for. *)
Definition suf (l : list ascii) (n : nat) : list ascii := drop (length l - n) l.

Definition memo_ok (m : gset (nat * nat)) : Prop :=
  ∀ i j, (i, j) ∈ m → ¬ Glob (suf pat0 i) (suf s0 j).

(** What a call promises on inputs of total length below [n]. *)
Definition call_ok (n : nat) (rec : list ascii → list ascii → gset (nat * nat) → bool * gset (nat * nat)) : Prop :=
  ∀ pat s m, pat `suffix_of` pat0 → s `suffix_of` s0 → length pat + length s < n →
    memo_ok m → memo_ok (rec pat s m).2 ∧ ((rec pat s m).1 = true ↔ Glob pat s).

Lemma suf_suffix (l l0 : list ascii) : l `suffix_of` l0 → suf l0 (length l) = l.
Proof.
  intros [k ->]. unfold suf. rewrite length_app.
  replace (length k + length l - length l) with (length k) by lia.
  by rewrite drop_app_length.
Qed.

Lemma suffix_tail (c : ascii) l l0 : (c :: l) `suffix_of` l0 → l `suffix_of` l0.
Proof. apply suffix_cons_l. Qed.

Lemma memo_ok_empty : memo_ok ∅.
Proof. intros i j Hin. set_solver. Qed.

Lemma memo_ok_insert pat s m :
  pat `suffix_of` pat0 → s `suffix_of` s0 → ¬ Glob pat s → memo_ok m →
  memo_ok ({[(length pat, length s)]} ∪ m).
Proof.
  intros Hp Hs Hn Hm i j [Hin|Hin]%elem_of_union; [|by apply Hm].
  apply elem_of_singleton in Hin as [= -> ->]. by rewrite !suf_suffix.
Qed.

Local Hint Resolve memo_ok_empty memo_ok_insert suffix_tail : core.

Lemma dss_loop_ok n rec pat t m :
  call_ok n rec → pat `suffix_of` pat0 → t `suffix_of` s0 → length pat + length t ≤ n →
  memo_ok m →
  memo_ok (dss_loop rec pat t m).2 ∧
  ((dss_loop rec pat t m).1 = true ↔ ∃ seg u, t = seg ++ ("/" :: u) ∧ Glob pat u).
Proof.
  intros Hrec Hp. revert m. induction t as [|c t IH]; intros m Ht Hlen Hm; simpl in *.
  { split; [done|]. split; [done|]. by intros ([]&?&?&?). }
  assert (t `suffix_of` s0) as Ht' by eauto.
  assert ((∃ seg u, c :: t = seg ++ ("/" :: u) ∧ Glob pat u) ↔
          (c = "/" ∧ Glob pat t) ∨ ∃ seg u, t = seg ++ ("/" :: u) ∧ Glob pat u) as Hsplit.
  { split.
    - intros ([|a seg] & u & [= -> ->] & ?); eauto.
    - intros [[-> ?]|(seg & u & -> & ?)]; [by exists [], t | by exists (c :: seg), u]. }
  rewrite Hsplit. destruct (Ascii.eqb_spec c "/") as [->|Hne].
  - destruct (Hrec pat t m Hp Ht' ltac:(lia) Hm) as [Hm' Hiff].
    destruct (rec pat t m) as [[] m']; simpl in *; [split; [done|]; naive_solver|].
    destruct (IH m' Ht' ltac:(lia) Hm') as [? ->]. split; [done|]. naive_solver.
  - destruct (IH m Ht' ltac:(lia) Hm) as [? ->]. split; [done|]. naive_solver.
Qed.

Lemma ds_loop_ok n rec rest t m :
  call_ok n rec → rest `suffix_of` pat0 → t `suffix_of` s0 → length rest + length t < n →
  memo_ok m →
  memo_ok (ds_loop rec rest t m).2 ∧
  ((ds_loop rec rest t m).1 = true ↔
     Glob rest [] ∨ ∃ seg u, t = seg ++ ("/" :: u) ∧ Glob rest u).
Proof.
  intros Hrec Hp. revert m. induction t as [|c t IH]; intros m Ht Hlen Hm; simpl in *.
  { destruct (Hrec rest [] m Hp (suffix_nil _) ltac:(simpl; lia) Hm) as [? ->].
    split; [done|]. split; [by left|]. by intros [?|([]&?&?&?)]. }
  assert (t `suffix_of` s0) as Ht' by eauto.
  assert ((∃ seg u, c :: t = seg ++ ("/" :: u) ∧ Glob rest u) ↔
          (c = "/" ∧ Glob rest t) ∨ ∃ seg u, t = seg ++ ("/" :: u) ∧ Glob rest u) as Hsplit.
  { split.
    - intros ([|a seg] & u & [= -> ->] & ?); eauto.
    - intros [[-> ?]|(seg & u & -> & ?)]; [by exists [], t | by exists (c :: seg), u]. }
  rewrite Hsplit. destruct (Ascii.eqb_spec c "/") as [->|Hne].
  - destruct (Hrec rest t m Hp Ht' ltac:(lia) Hm) as [Hm' Hiff].
    destruct (rec rest t m) as [[] m']; simpl in *; [split; [done|]; naive_solver|].
    destruct (IH m' Ht' ltac:(lia) Hm') as [? ->]. split; [done|]. naive_solver.
  - destruct (IH m Ht' ltac:(lia) Hm) as [? ->]. split; [done|]. naive_solver.
Qed.

Lemma star_loop_ok n rec rest t m :
  call_ok n rec → rest `suffix_of` pat0 → t `suffix_of` s0 → length rest + length t < n →
  memo_ok m →
  memo_ok (star_loop rec rest t m).2 ∧
  ((star_loop rec rest t m).1 = true ↔
     ∃ run u, t = run ++ u ∧ "/" ∉ run ∧ Glob rest u).
Proof.
  intros Hrec Hp. revert m. induction t as [|c t IH]; intros m Ht Hlen Hm; simpl in *.
  - destruct (Hrec rest [] m Hp Ht ltac:(simpl; lia) Hm) as [Hm' Hiff].
    destruct (rec rest [] m) as [[] m']; simpl in *; (split; [done|]).
    + split; [|done]. intros _. exists [], []. split; [done|]. split; [set_solver|naive_solver].
    + split; [done|]. intros (run & u & Heq & _ & ?).
      symmetry in Heq. apply app_nil in Heq as [-> ->]. naive_solver.
  - assert (t `suffix_of` s0) as Ht' by eauto.
    destruct (Hrec rest (c :: t) m Hp Ht ltac:(simpl; lia) Hm) as [Hm' Hiff].
    destruct (rec rest (c :: t) m) as [[] m']; simpl in *.
    { split; [done|]. split; [|done]. intros _. exists [], (c :: t).
      split; [done|]. split; [set_solver|naive_solver]. }
    destruct (Ascii.eqb_spec c "/") as [->|Hne].
    + split; [done|]. split; [done|].
      intros ([|a run] & u & Heq & ? & ?); simplify_eq/=; [naive_solver|set_solver].
    + destruct (IH m' Ht' ltac:(lia) Hm') as [? ->]. split; [done|]. split.
      * intros (run & u & -> & ? & ?). exists (c :: run), u. split; [done|]. set_solver.
      * intros ([|a run] & u & Heq & ? & ?); simplify_eq/=; [naive_solver|].
        exists run, u. split; [done|]. set_solver.
Qed.

(** The arms, one equation each. *)
Lemma arm_ds rec rest s m :
  head rest ≠ Some "/" →
  matches_arm rec ("*" :: "*" :: rest) s m =
    let '(b, m') := rec rest s m in if b then (true, m') else ds_loop rec rest s m'.
Proof.
  intros Hr. destruct rest as [|c rest]; [done|]. simpl in Hr.
  by destruct c as [[] [] [] [] [] [] [] []]; try reflexivity; congruence.
Qed.

Lemma arm_star rec rest s m :
  head rest ≠ Some "*" → matches_arm rec ("*" :: rest) s m = star_loop rec rest s m.
Proof.
  intros Hr. destruct rest as [|c rest]; [done|]. simpl in Hr.
  by destruct c as [[] [] [] [] [] [] [] []]; try reflexivity; congruence.
Qed.

Lemma arm_lit rec p rest s m :
  p ≠ "*" →
  matches_arm rec (p :: rest) s m =
    match s with
    | c :: s_rest => if Ascii.eqb p c then rec rest s_rest m else (false, m)
    | [] => (false, m)
    end.
Proof.
  intros Hp. by destruct p as [[] [] [] [] [] [] [] []]; try reflexivity; congruence.
Qed.

(** After a first call that already decides [P], the loop decides [Q]. *)
Lemma first_then (r : bool * gset (nat * nat)) (k : gset (nat * nat) → bool * gset (nat * nat)) (P Q : Prop) :
  memo_ok r.2 → (r.1 = true ↔ P) →
  (memo_ok r.2 → memo_ok (k r.2).2 ∧ ((k r.2).1 = true ↔ Q)) →
  memo_ok (let '(b, m') := r in if b then (true, m') else k m').2 ∧
  ((let '(b, m') := r in if b then (true, m') else k m').1 = true ↔ P ∨ Q).
Proof.
  destruct r as [[] m']; simpl; intros Hm HP Hk; [split; [done|]; naive_solver|].
  destruct (Hk Hm) as [? ->]. split; [done|]. naive_solver.
Qed.

Lemma matches_arm_ok n rec pat s m :
  call_ok n rec → pat `suffix_of` pat0 → s `suffix_of` s0 → length pat + length s ≤ n →
  memo_ok m →
  memo_ok (matches_arm rec pat s m).2 ∧ ((matches_arm rec pat s m).1 = true ↔ Glob pat s).
Proof.
  intros Hrec Hp Hs Hlen Hm. destruct pat as [|p rest].
  { rewrite Glob_nil_iff. split; [done|]. by destruct s. }
  assert (rest `suffix_of` pat0) as Hp1 by eauto. simpl in Hlen.
  destruct (decide (p = "*")) as [->|Hnp].
  2:{ rewrite arm_lit, Glob_lit_iff by done. destruct s as [|c s].
      { split; [done|]. naive_solver. }
      simpl in Hlen. destruct (Ascii.eqb_spec p c) as [->|Hne].
      - destruct (Hrec rest s m Hp1 ltac:(eauto) ltac:(lia) Hm) as [? ->].
        split; [done|]. naive_solver.
      - split; [done|]. naive_solver. }
  destruct (decide (head rest = Some "*")) as [Hh|Hh].
  2:{ rewrite arm_star, Glob_star_iff by done. apply (star_loop_ok n); auto with lia. }
  destruct rest as [|c rest]; [done|]. injection Hh as ->.
  assert (rest `suffix_of` pat0) as Hp2 by eauto.
  destruct (decide (head rest = Some "/")) as [Hd|Hd].
  - destruct rest as [|c rest]; [done|]. injection Hd as ->.
    assert (rest `suffix_of` pat0) as Hp3 by eauto. rewrite Glob_dss_iff.
    destruct (Hrec rest s m Hp3 Hs ltac:(simpl in *; lia) Hm) as [Hm' Hiff].
    apply (first_then _ (dss_loop rec ("*" :: "*" :: "/" :: rest) s)); [done|done|].
    intros ?. apply (dss_loop_ok n); auto; simpl in *; lia.
  - rewrite arm_ds, Glob_ds_iff by done.
    destruct (Hrec rest s m Hp2 Hs ltac:(simpl in *; lia) Hm) as [Hm' Hiff].
    apply (first_then _ (ds_loop rec rest s)); [done|done|].
    intros ?. apply (ds_loop_ok n); auto; simpl in *; lia.
Qed.

Lemma matches_ok fuel : call_ok fuel (matches fuel).
Proof.
  induction fuel as [|fuel IH]; intros pat s m Hp Hs Hlen Hm; [lia|]. simpl.
  case_decide as Hkey; simpl.
  { split; [done|]. split; [done|]. intros HG. exfalso. apply (Hm _ _ Hkey).
    by rewrite !suf_suffix. }
  destruct (matches_arm_ok fuel (matches fuel) pat s m IH Hp Hs ltac:(lia) Hm) as [Hm' Hiff].
  destruct (matches_arm (matches fuel) pat s m) as [[] m']; simpl in *; [done|].
  split; [|done]. apply memo_ok_insert; naive_solver.
Qed.
End correctness.

Definition within_limit (x : string) : Prop :=
  (N.of_nat (length (String.list_ascii_of_string x)) ≤ MAX_GLOB_LEN)%N.
#[global] Instance within_limit_dec x : Decision (within_limit x).
Proof. unfold within_limit. apply _. Defined.

Lemma glob_matches_iff pattern path :
  glob_matches pattern path = true ↔
  within_limit pattern ∧ within_limit path ∧
  Glob (String.list_ascii_of_string pattern) (String.list_ascii_of_string path).
Proof.
  unfold glob_matches, within_limit.
  set (pat := String.list_ascii_of_string pattern). set (s := String.list_ascii_of_string path).
  destruct (N.ltb_spec MAX_GLOB_LEN (N.of_nat (length pat))) as [?|?]; simpl.
  { split; [done|]. intros (?&?&?). lia. }
  destruct (N.ltb_spec MAX_GLOB_LEN (N.of_nat (length s))) as [?|?]; simpl.
  { split; [done|]. intros (?&?&?). lia. }
  destruct (matches_ok pat s (S (length pat + length s)) pat s ∅) as [_ Hiff];
    [done|done|lia|apply memo_ok_empty|]. simpl in Hiff.
  rewrite Hiff. naive_solver.
Qed.

(** *** Patterns of the shape the ACLs use *)
Lemma Glob_literal_prefix (l rest s : list ascii) :
  "*" ∉ l → Glob (l ++ rest) s ↔ ∃ u, s = l ++ u ∧ Glob rest u.
Proof.
  revert s. induction l as [|c l IH]; intros s Hl; simpl; [naive_solver|].
  rewrite Glob_lit_iff by set_solver. setoid_rewrite IH; [|set_solver]. naive_solver.
Qed.

Lemma Glob_double_star s : Glob ["*"; "*"] s.
Proof. by apply glob_ds_all; [|constructor]. Qed.

Lemma list_ascii_append x y :
  String.list_ascii_of_string (x +:+ y) =
  String.list_ascii_of_string x ++ String.list_ascii_of_string y.
Proof. induction x as [|c x IH]; simpl; [done|]. by rewrite IH. Qed.

(** [C38] The memoised, fuel-bounded matcher decides exactly the declarative
    meaning of a pattern for inputs within the length limit, and rejects every
    longer input: the memo never changes an answer and the recursion depth
    always suffices. *)
Theorem glob_matches_correct (pattern path : string) :
  glob_matches pattern path = true ↔
  within_limit pattern ∧ within_limit path ∧
  Glob (String.list_ascii_of_string pattern) (String.list_ascii_of_string path).
Proof. apply glob_matches_iff. Qed.

(** A subtree rule [dir/**] whose directory holds no wildcard matches
    exactly the paths below that directory, at any depth. *)
Theorem glob_subtree (dir path : string) :
  "*" ∉ String.list_ascii_of_string dir →
  within_limit (dir +:+ "/**") → within_limit path →
  glob_matches (dir +:+ "/**") path = true ↔
  ∃ below, String.list_ascii_of_string path = String.list_ascii_of_string dir ++ "/" :: below.
Proof.
  intros Hdir Hl Hp. rewrite glob_matches_iff, list_ascii_append.
  change (String.list_ascii_of_string "/**") with (["/"] ++ ["*"; "*"]).
  rewrite (assoc_L (++)), Glob_literal_prefix by set_solver.
  setoid_rewrite <- (assoc_L (++)). simpl.
  split; [naive_solver|]. intros [below ->]. split_and!; [done..|].
  eauto using Glob_double_star.
Qed.

Lemma glob_subtree_witness :
  glob_matches "src/**" "src/a/b.rs" = true ↔
  ∃ below, String.list_ascii_of_string "src/a/b.rs" = String.list_ascii_of_string "src" ++ "/" :: below.
Proof.
  apply (glob_subtree "src" "src/a/b.rs"); [|vm_compute; done..].
  apply (bool_decide_unpack _); vm_compute; exact I.
Defined.
