(* ===== verification/Graph.v ===== *)
(** * Graph: the worklist searches the sources share

    Two loops recur in the code.  [dfs_find] is the early-exit search of
    [LabelLattice::dominates] (src/src/acl/lattice.rs) and [is_ancestor]
    (src/src/acl/hook.rs): a stack, a [seen] set filled at push time, success as
    soon as the target is generated.  [closure] is the mark phase of
    [mark_reachable] (src/src/repo/mod.rs) and [missing_closure]
    (src/src/sync/negotiate.rs): a stack, a [seen] set filled at pop time.  Both
    run on fuel; the theorems give the fuel that suffices on a finite graph and
    characterise the result by reachability ([rtc]/[tc]). *)

From S2P Require Import Prelude.

(** Equal relations have equal closures. *)
Lemma tc_ext {A} (R R' : relation A) x y : (∀ a b, R a b ↔ R' a b) → tc R x y ↔ tc R' x y.
Proof.
  intros HR. split; induction 1; [apply tc_once|eapply tc_l|apply tc_once|eapply tc_l];
    first [by apply HR | done].
Qed.
Lemma rtc_ext {A} (R R' : relation A) x y : (∀ a b, R a b ↔ R' a b) → rtc R x y ↔ rtc R' x y.
Proof. intros HR. rewrite !rtc_tc. by rewrite (tc_ext R R'). Qed.

(** Below a node that lies on no cycle every path is shorter than the set of the nodes
    that have edges is large. *)
Lemma acc_no_loop {A} (R : relation A) x : Acc (flip R) x → ¬ tc R x x.
Proof.
  induction 1 as [x _ IH]. intros Ht. inversion Ht as [? ? Hs|? z ? Hs Hz]; subst.
  - apply (IH x Hs). by apply tc_once.
  - apply (IH z Hs). by eapply tc_r.
Qed.

Lemma no_long_path {A} `{Countable A} (R : relation A) x : Acc (flip R) x → ∀ X : gset A,
  (∀ y z, rtc R x y → R y z → y ∈ X) → ¬ ∃ y, nsteps R (S (size X)) x y.
Proof.
  induction 1 as [x Hacc IH]. intros X HX (y & Hn). inversion Hn as [|? ? c ? Hxc Hcy]; subst.
  assert (x ∈ X) as Hx by (eapply HX; [done|exact Hxc]).
  apply (IH c Hxc (X ∖ {[ x ]})).
  - intros y' z Hy' Hz. apply elem_of_difference. split; [eapply HX; [by eapply rtc_l|done]|].
    intros ->%elem_of_singleton.
    apply (acc_no_loop R x); [by constructor|]. apply (tc_rtc_r _ c); [apply tc_once; exact Hxc|done].
  - exists y. rewrite size_difference by set_solver. rewrite size_singleton.
    assert (size X ≠ 0) as Hne by (apply size_non_empty_iff; set_solver).
    replace (S (size X - 1)) with (size X) by lia. done.
Qed.

Section search.
Context {A E : Type} `{Countable A}.
(** The outgoing edges of a node, in the order the code pushes them; reading a
    node may fail. *)
Context (next : A → Result E (list A)).

(** The edge relation of the graph. *)
Definition edge (x y : A) : Prop := ∃ ns, next x = Ok ns ∧ y ∈ ns.

(** *** [dfs_find]: [for n in next(cur) { if n == target { return true }
    if seen.insert(n) { stack.push(n) } }]; [None] is the early return. *)
Fixpoint dfs_scan (target : A) (ns : list A) (seen : gset A) (stack : list A)
    : option (gset A * list A) :=
  match ns with
  | [] => Some (seen, stack)
  | n :: ns =>
      if decide (n = target) then None
      else if decide (n ∈ seen) then dfs_scan target ns seen stack
      else dfs_scan target ns ({[n]} ∪ seen) (n :: stack)
  end.

(** [while let Some(cur) = stack.pop()]; [None] only when the fuel is out. *)
Fixpoint dfs_find (fuel : nat) (target : A) (seen : gset A) (stack : list A)
    : option (Result E bool) :=
  match fuel with
  | O => None
  | S fuel =>
      match stack with
      | [] => Some (Ok false)
      | cur :: stack =>
          match next cur with
          | Err e => Some (Err e)
          | Ok ns =>
              match dfs_scan target ns seen stack with
              | None => Some (Ok true)
              | Some (seen, stack) => dfs_find fuel target seen stack
              end
          end
      end
  end.

(** *** [closure]: [while let Some(id) = stack.pop() { if !seen.insert(id)
    { continue } stack.extend(next(id)) }]. *)
Fixpoint closure (fuel : nat) (seen : gset A) (stack : list A) : option (Result E (gset A)) :=
  match fuel with
  | O => None
  | S fuel =>
      match stack with
      | [] => Some (Ok seen)
      | id :: stack =>
          if decide (id ∈ seen) then closure fuel seen stack
          else match next id with
               | Err e => Some (Err e)
               | Ok ns => closure fuel ({[id]} ∪ seen) (rev ns ++ stack)
               end
      end
  end.

(** ** Correctness of [dfs_find] *)
Lemma dfs_scan_None target ns seen stack :
  dfs_scan target ns seen stack = None ↔ target ∈ ns.
Proof.
  revert seen stack. induction ns as [|n ns IH]; intros seen stack; simpl; [set_solver|].
  case_decide as Ht; [subst; split; [intros _; by left|done]|].
  case_decide as Hs; rewrite IH, elem_of_cons; naive_solver.
Qed.

Lemma dfs_scan_Some target ns seen stack seen' stack' :
  dfs_scan target ns seen stack = Some (seen', stack') →
  seen' = list_to_set ns ∪ seen ∧
  (∃ fresh, stack' = fresh ++ stack ∧ NoDup fresh ∧
     ∀ x, x ∈ fresh ↔ x ∈ ns ∧ x ∉ seen) ∧
  target ∉ ns.
Proof.
  revert seen stack. induction ns as [|n ns IH]; intros seen stack; simpl; intros Hsc.
  { simplify_eq. split; [set_solver|]. split; [|set_solver].
    exists []. split_and!; [done|constructor|set_solver]. }
  case_decide as Ht; [done|]. case_decide as Hs.
  - destruct (IH _ _ Hsc) as (-> & (fresh & -> & ? & Hf) & ?). split; [set_solver|].
    split; [|set_solver]. exists fresh. split_and!; [done|done|].
    intros x. rewrite Hf, elem_of_cons. naive_solver.
  - destruct (IH _ _ Hsc) as (-> & (fresh & -> & Hnd & Hf) & ?). split; [set_solver|].
    split; [|set_solver]. exists (fresh ++ [n]).
    rewrite <- (assoc_L (++)). split; [done|]. split.
    + apply NoDup_app. split_and!; [done| |apply NoDup_singleton].
      intros x Hx. apply Hf in Hx. set_solver.
    + intros x. rewrite elem_of_app, Hf, list_elem_of_singleton, elem_of_cons.
      rewrite elem_of_union, elem_of_singleton. destruct (decide (x = n)); naive_solver.
Qed.

(** The loop invariant: everything generated is reachable, and everything
    generated but not waiting on the stack has been expanded. *)
Record dfs_inv (src target : A) (seen : gset A) (stack : list A) : Prop := {
  dfs_seen : ∀ x, x ∈ seen → tc edge src x;
  dfs_stack : ∀ x, x ∈ stack → x = src ∨ x ∈ seen;
  dfs_done : ∀ x, x = src ∨ x ∈ seen → x ∈ stack ∨
               ∃ ns, next x = Ok ns ∧ target ∉ ns ∧ ∀ y, y ∈ ns → y ∈ seen
}.

Lemma dfs_inv_init src target : dfs_inv src target ∅ [src].
Proof. split; set_solver. Qed.

Lemma dfs_inv_reach src target seen stack x :
  dfs_inv src target seen stack → x ∈ stack → x = src ∨ tc edge src x.
Proof. intros [Hs Hst _] Hx. destruct (Hst x Hx); eauto. Qed.

Lemma tc_extend src x y : x = src ∨ tc edge src x → edge x y → tc edge src y.
Proof. intros [->|?] ?; [by apply tc_once | by eapply tc_r]. Qed.

Lemma dfs_inv_step src target seen cur stack ns seen' stack' :
  dfs_inv src target seen (cur :: stack) → next cur = Ok ns →
  dfs_scan target ns seen stack = Some (seen', stack') →
  dfs_inv src target seen' stack'.
Proof.
  intros Hinv Hns (-> & (fresh & -> & _ & Hf) & Hnt)%dfs_scan_Some.
  pose proof (dfs_inv_reach _ _ _ _ cur Hinv ltac:(left)) as Hcur.
  destruct Hinv as [Hs Hst Hd]. split.
  - intros x [Hx|Hx]%elem_of_union; [|by apply Hs].
    apply elem_of_list_to_set in Hx. eapply tc_extend; [done|]. exists ns. done.
  - intros x [Hx|Hx]%elem_of_app; [apply Hf in Hx; set_solver|].
    destruct (Hst x); set_solver.
  - intros x Hx. destruct (decide (x = cur)) as [->|Hne].
    { right. exists ns. split_and!; [done|done|set_solver]. }
    destruct (decide (x = src ∨ x ∈ seen)) as [Hold|Hnew].
    + destruct (Hd x Hold) as [Hin|(ns' & ? & ? & ?)].
      * left. apply elem_of_app. right. set_solver.
      * right. exists ns'. split_and!; [done|done|set_solver].
    + left. apply elem_of_app. left. apply Hf. set_solver.
Qed.

Lemma dfs_inv_final src target seen :
  dfs_inv src target seen [] → ¬ tc edge src target.
Proof.
  intros [Hs Hst Hd] Htc.
  assert (∀ x y, x = src ∨ x ∈ seen → edge x y → y ∈ seen ∧ y ≠ target) as Hstep.
  { intros x y Hx (ns & Hns & Hin).
    destruct (Hd x Hx) as [Hn|(ns' & Hns' & Hnt & Hsub)]; [by apply not_elem_of_nil in Hn|].
    rewrite Hns in Hns'. injection Hns' as <-. split; [by apply Hsub|].
    intros Heq. rewrite Heq in Hin. done. }
  assert (∀ y, tc edge src y → y ∈ seen ∧ y ≠ target) as Hall; [|naive_solver].
  refine (tc_ind_r (R:=edge) (λ y, y ∈ seen ∧ y ≠ target) src _ _).
  - intros z Hz. apply (Hstep src); [by left|done].
  - intros x z _ Hxz [Hx _]. apply (Hstep x); [by right|done].
Qed.

Lemma dfs_find_sound fuel src target seen stack r :
  dfs_inv src target seen stack → dfs_find fuel target seen stack = Some r →
  match r with
  | Ok true => tc edge src target
  | Ok false => ¬ tc edge src target
  | Err e => ∃ x, rtc edge src x ∧ next x = Err e
  end.
Proof.
  revert seen stack. induction fuel as [|fuel IH]; intros seen stack Hinv; simpl; [done|].
  destruct stack as [|cur stack].
  { intros [= <-]. by eapply dfs_inv_final. }
  pose proof (dfs_inv_reach _ _ _ _ cur Hinv ltac:(left)) as Hcur.
  destruct (next cur) as [ns|e] eqn:Hns.
  - destruct (dfs_scan target ns seen stack) as [[seen' stack']|] eqn:Hsc.
    + intros Hr. eapply IH; [|done]. by eapply dfs_inv_step.
    + intros [= <-]. apply dfs_scan_None in Hsc. eapply tc_extend; [done|]. by exists ns.
  - intros [= <-]. exists cur. split; [|done].
    destruct Hcur as [->|?]; [done|by apply tc_rtc].
Qed.

(** Fuel: one pop per node of the universe, plus the source. *)
Lemma dfs_find_fuel fuel target seen stack (U : gset A) :
  (∀ x ns, next x = Ok ns → ∀ y, y ∈ ns → y ∈ U) →
  length stack + size (U ∖ seen) < fuel →
  is_Some (dfs_find fuel target seen stack).
Proof.
  intros HU. revert seen stack. induction fuel as [|fuel IH]; intros seen stack Hf; [lia|].
  simpl. destruct stack as [|cur stack]; [done|]. destruct (next cur) as [ns|e] eqn:Hns; [|done].
  destruct (dfs_scan target ns seen stack) as [[seen' stack']|] eqn:Hsc; [|done].
  apply IH. apply dfs_scan_Some in Hsc as (-> & (fresh & -> & Hnd & Hfr) & _).
  rewrite length_app. simpl in Hf.
  assert (length fresh + size (U ∖ (list_to_set ns ∪ seen)) ≤ size (U ∖ seen)); [|lia].
  rewrite <- (size_list_to_set (C:=gset A) fresh) by done.
  rewrite <- size_union; [apply subseteq_size|]; set_solver.
Qed.

Lemma dfs_find_total fuel src target (U : gset A) :
  (∀ x ns, next x = Ok ns → ∀ y, y ∈ ns → y ∈ U) →
  S (S (size U)) ≤ fuel → is_Some (dfs_find fuel target ∅ [src]).
Proof.
  intros HU Hf. eapply dfs_find_fuel; [done|]. rewrite difference_empty_L. simpl. lia.
Qed.

(** ** Correctness of [closure] *)
Record closure_inv (roots : list A) (seen : gset A) (stack : list A) : Prop := {
  cl_reach : ∀ x, x ∈ seen ∨ x ∈ stack → ∃ r, r ∈ roots ∧ rtc edge r x;
  cl_closed : ∀ x, x ∈ seen → ∃ ns, next x = Ok ns ∧ ∀ y, y ∈ ns → y ∈ seen ∨ y ∈ stack;
  cl_roots : ∀ r, r ∈ roots → r ∈ seen ∨ r ∈ stack
}.

Lemma closure_inv_init roots : closure_inv roots ∅ roots.
Proof. split; [|set_solver|set_solver]. intros x [?|?]; [set_solver|]. by exists x. Qed.

Lemma closure_inv_skip roots seen id stack :
  closure_inv roots seen (id :: stack) → id ∈ seen → closure_inv roots seen stack.
Proof.
  intros [Hr Hc Hroots] Hid. split.
  - intros x Hx. apply Hr. set_solver.
  - intros x Hx. destruct (Hc x Hx) as (ns & ? & Hsub). exists ns. split; [done|].
    intros y Hy. destruct (Hsub y Hy); set_solver.
  - intros r Hr'. destruct (Hroots r Hr'); set_solver.
Qed.

Lemma closure_inv_visit roots seen id stack ns :
  closure_inv roots seen (id :: stack) → next id = Ok ns →
  closure_inv roots ({[id]} ∪ seen) (rev ns ++ stack).
Proof.
  intros [Hr Hc Hroots] Hns.
  assert (∀ y, y ∈ rev ns ++ stack ↔ y ∈ ns ∨ y ∈ stack) as Hin.
  { intros y. rewrite elem_of_app. by rewrite !list_elem_of_In, <- in_rev. }
  split.
  - intros x Hx. destruct (Hr id) as (r & ? & Hid); [set_solver|].
    rewrite Hin in Hx. destruct (decide (x ∈ ns)) as [Hxn|?].
    + exists r. split; [done|]. eapply rtc_r; [done|]. by exists ns.
    + apply Hr. set_solver.
  - intros x [->%elem_of_singleton|Hx]%elem_of_union.
    + exists ns. split; [done|]. intros y ?. right. apply Hin. by left.
    + destruct (Hc x Hx) as (ns' & ? & Hsub). exists ns'. split; [done|].
      intros y Hy. rewrite Hin. destruct (Hsub y Hy); set_solver.
  - intros r Hr'. rewrite Hin. destruct (Hroots r Hr'); set_solver.
Qed.

Lemma closure_inv_final roots seen :
  closure_inv roots seen [] → ∀ x, x ∈ seen ↔ ∃ r, r ∈ roots ∧ rtc edge r x.
Proof.
  intros [Hr Hc Hroots] x. split; [intros ?; apply Hr; by left|].
  intros (r & Hin & Hrt). assert (r ∈ seen) as Hrs by (destruct (Hroots r Hin); set_solver).
  clear Hin. induction Hrt as [|a b c (ns & Hns & Hb) _ IH]; [done|]. apply IH.
  destruct (Hc a Hrs) as (ns' & ? & Hsub).
  assert (ns' = ns) as -> by congruence. destruct (Hsub b Hb); set_solver.
Qed.

Lemma closure_sound fuel roots seen stack r :
  closure_inv roots seen stack → closure fuel seen stack = Some r →
  match r with
  | Ok seen' => ∀ x, x ∈ seen' ↔ ∃ r, r ∈ roots ∧ rtc edge r x
  | Err e => ∃ x r, r ∈ roots ∧ rtc edge r x ∧ next x = Err e
  end.
Proof.
  revert seen stack. induction fuel as [|fuel IH]; intros seen stack Hinv; simpl; [done|].
  destruct stack as [|id stack].
  { intros [= <-]. by apply closure_inv_final. }
  case_decide as Hid.
  { intros ?. eapply IH; [|done]. by eapply closure_inv_skip. }
  destruct (next id) as [ns|e] eqn:Hns.
  - intros ?. eapply IH; [|done]. by eapply closure_inv_visit.
  - intros [= <-]. destruct (cl_reach _ _ _ Hinv id) as (r & ? & ?); [set_solver|]. eauto.
Qed.

(** A closure that is returned satisfies the invariant with nothing left to visit. *)
Lemma closure_final fuel roots seen stack s :
  closure_inv roots seen stack → closure fuel seen stack = Some (Ok s) → closure_inv roots s [].
Proof.
  revert seen stack. induction fuel as [|fuel IH]; intros seen stack Hinv; simpl; [done|].
  destruct stack as [|id stack]; [by intros [= <-]|].
  case_decide as Hid.
  - intros ?. eapply IH; [|done]. by eapply closure_inv_skip.
  - destruct (next id) as [ns|e] eqn:Hns; [|done]. intros ?. eapply IH; [|done]. by eapply closure_inv_visit.
Qed.

(** When the edges read are those of a relation [R], the closure is the set [R]
    reaches, and every member of it could be read. *)
Lemma closure_reach (R : relation A) fuel roots s :
  (∀ x ns, next x = Ok ns → ∀ y, y ∈ ns ↔ R x y) →
  closure fuel ∅ roots = Some (Ok s) →
  (∀ x, x ∈ s ↔ ∃ r, r ∈ roots ∧ rtc R r x) ∧ ∀ x, x ∈ s → ∃ ns, next x = Ok ns.
Proof.
  intros HR Hc. apply (closure_final fuel roots) in Hc; [|apply closure_inv_init].
  split; [|intros x Hx; destruct (cl_closed _ _ _ Hc x Hx) as (ns & ? & _); by exists ns].
  intros x. split.
  - intros Hx. destruct (cl_reach _ _ _ Hc x (or_introl Hx)) as (r & Hr & Hrt).
    exists r. split; [done|]. clear Hr Hx.
    induction Hrt as [|u v w (ns & Hns & Hv) _ IH]; [done|]. eapply rtc_l; [|done].
    by apply (HR u ns Hns).
  - intros (r & Hr & Hrt). assert (r ∈ s) as Hrs by (destruct (cl_roots _ _ _ Hc r Hr); set_solver).
    clear Hr. induction Hrt as [|u v w Huv _ IH]; [done|]. apply IH.
    destruct (cl_closed _ _ _ Hc u Hrs) as (ns & Hns & Hsub).
    apply (HR u ns Hns) in Huv. destruct (Hsub v Huv); set_solver.
Qed.

(** Fuel: one pop per pushed edge; [D] bounds the out-degree and [U] holds every
    node that has edges. *)
Lemma closure_fuel fuel seen stack (U : gset A) D :
  (∀ x ns, next x = Ok ns → length ns ≤ D ∧ (ns ≠ [] → x ∈ U)) →
  length stack + D * size (U ∖ seen) < fuel →
  is_Some (closure fuel seen stack).
Proof.
  intros HU. revert seen stack. induction fuel as [|fuel IH]; intros seen stack Hf; [lia|].
  simpl. destruct stack as [|id stack]; [done|]. simpl in Hf.
  case_decide as Hid; [apply IH; lia|]. destruct (next id) as [ns|e] eqn:Hns; [|done].
  apply IH. rewrite length_app, length_rev. destruct (HU _ _ Hns) as [HD Hin].
  destruct (decide (ns = [])) as [->|Hne].
  - simpl. assert (size (U ∖ ({[id]} ∪ seen)) ≤ size (U ∖ seen)); [|nia].
    apply subseteq_size. set_solver.
  - assert (S (size (U ∖ ({[id]} ∪ seen))) ≤ size (U ∖ seen)); [|nia].
    change (S ?n) with (1 + n). rewrite <- (size_singleton (C:=gset A) id).
    rewrite <- size_union by set_solver. apply subseteq_size.
    specialize (Hin Hne). intros x. destruct (decide (x = id)); set_solver.
Qed.

Lemma closure_total fuel roots (U : gset A) D :
  (∀ x ns, next x = Ok ns → length ns ≤ D ∧ (ns ≠ [] → x ∈ U)) →
  length roots + D * size U < fuel → is_Some (closure fuel ∅ roots).
Proof.
  intros HU Hf. eapply closure_fuel; [done|]. by rewrite difference_empty_L.
Qed.
End search.
