(* ===== verification/Topo.v ===== *)
(** * Topo: depth-first post-order

    The worklist sort that src/src/repo/git_projection.rs ([collect_topo]) and
    src/src/repo/git_import.rs ([topo_commits]) run over a history: a stack of ids, each
    met twice, first to push what it depends on, then to be finished.

    The theorems: with enough fuel the loop ends; on a graph without cycles the result
    lists exactly what the starts reach, each id once, and after everything it has an
    edge to; it fails only on an id that the starts reach and that cannot be read. *)

From S2P Require Import Prelude Graph.

(** Every member of the list comes after all it has an edge to. *)
Definition parents_first {A} (R : relation A) (l : list A) : Prop :=
  ∀ l1 x l2, l = l1 ++ x :: l2 → ∀ y, R x y → y ∈ l1.

Lemma parents_first_nil {A} (R : relation A) : parents_first R [].
Proof. by intros [|] x l2. Qed.

Lemma parents_first_snoc {A} (R : relation A) l x :
  parents_first R l → (∀ y, R x y → y ∈ l) → parents_first R (l ++ [x]).
Proof.
  intros Hl Hx l1 z l2 Heq y Hy. destruct l2 as [|w l2 _] using rev_ind.
  - apply app_inj_tail in Heq as [-> ->]. by apply Hx.
  - rewrite app_comm_cons, app_assoc in Heq. apply app_inj_tail in Heq as [-> ->]. by apply (Hl l1 z l2).
Qed.

Lemma parents_first_elem {A} (R : relation A) l x y : parents_first R l → x ∈ l → R x y → y ∈ l.
Proof. intros Hl (l1 & l2 & ->)%list_elem_of_split Hy. apply elem_of_app. left. by apply (Hl l1 x l2). Qed.

Section topo.
Context {A E : Type} `{Countable A}.
(** What is pushed for an id, top of the stack first; it may leave out what was visited. *)
Context (next : gset A → A → Result E (list A)).

(** [while let Some((id, finishing)) = stack.pop()]; [None] only when the fuel is out. *)
Fixpoint topo (fuel : nat) (visited : gset A) (result : list A) (stack : list (A * bool))
    : option (Result E (list A)) :=
  match fuel with
  | O => None
  | S fuel =>
      match stack with
      | [] => Some (Ok result)
      | (id, true) :: stack => topo fuel visited (result ++ [id]) stack
      | (id, false) :: stack =>
          if decide (id ∈ visited) then topo fuel visited result stack
          else match next ({[id]} ∪ visited) id with
               | Err e => Some (Err e)
               | Ok ns => topo fuel ({[id]} ∪ visited) result (((λ n, (n, false)) <$> ns) ++ (id, true) :: stack)
               end
      end
  end.

(** ** Termination: [D] bounds what an id pushes, [U] holds every id that pushes anything. *)
Definition topo_weight (stack : list (A * bool)) : nat := sum_list_with (λ i : A * bool, if i.2 then 1 else 2) stack.

Lemma topo_weight_push ns stack : topo_weight (((λ n, (n, false)) <$> ns) ++ stack) = 2 * length ns + topo_weight stack.
Proof.
  unfold topo_weight. rewrite sum_list_with_app. f_equal.
  induction ns as [|n ns IH]; [done|]. rewrite fmap_cons. cbn [sum_list_with snd length]. rewrite IH. lia.
Qed.

Lemma topo_fuel fuel visited result stack (U : gset A) D :
  (∀ V x ns, next V x = Ok ns → length ns ≤ D ∧ (ns ≠ [] → x ∈ U)) →
  topo_weight stack + 2 * D * size (U ∖ visited) < fuel → is_Some (topo fuel visited result stack).
Proof.
  intros HU. revert visited result stack. induction fuel as [|fuel IH]; intros visited result stack Hf; [lia|].
  destruct stack as [|[id []] stack]; [done| |]; simpl in *.
  { apply IH. unfold topo_weight in *. simpl in *. lia. }
  change (topo_weight ((id, false) :: stack)) with (2 + topo_weight stack) in Hf.
  case_decide as Hid; [apply IH; lia|]. destruct (next _ id) as [ns|e] eqn:Hns; [|done].
  destruct (HU _ _ _ Hns) as [HD Hin]. apply IH. rewrite topo_weight_push.
  change (topo_weight ((id, true) :: stack)) with (1 + topo_weight stack).
  assert (size (U ∖ ({[id]} ∪ visited)) ≤ size (U ∖ visited)) by (apply subseteq_size; set_solver).
  destruct (decide (ns = [])) as [->|Hne]; [simpl; nia|].
  assert (S (size (U ∖ ({[id]} ∪ visited))) ≤ size (U ∖ visited)); [|nia].
  change (S ?n) with (1 + n). rewrite <- (size_singleton (C:=gset A) id).
  rewrite <- size_union by set_solver. apply subseteq_size. specialize (Hin Hne).
  intros x. destruct (decide (x = id)); set_solver.
Qed.

(** Nothing on the stack is left unread. *)
Lemma topo_read fuel visited result stack l x : topo fuel visited result stack = Some (Ok l) →
  (x, false) ∈ stack → x ∉ visited → ∃ V ns, next V x = Ok ns.
Proof.
  revert visited result stack. induction fuel as [|fuel IH]; intros visited result stack; cbn [topo]; [done|].
  destruct stack as [|[id []] stack]; [by intros _ ?%elem_of_nil| |].
  - intros Ht [?|Hx]%elem_of_cons; [done|]. by eapply IH.
  - case_decide as Hid.
    + intros Ht [[= ->]|Hx]%elem_of_cons; [done|]. by eapply IH.
    + destruct (next _ id) as [ns|e] eqn:Hns; [|done]. intros Ht Hx Hn. destruct (decide (x = id)) as [->|Hne]; [eauto|].
      eapply IH; [exact Ht| |set_solver]. apply elem_of_cons in Hx as [[= ->]|Hx]; [done|].
      apply elem_of_app. right. by right.
Qed.

(** ** Correctness *)
Context (R : relation A) (starts : list A).
Context (next_edges : ∀ V x ns, next V x = Ok ns → (∀ y, y ∈ ns → R x y) ∧ ∀ y, R x y → y ∈ ns ∨ y ∈ V).

(** What the starts reach. *)
Definition reached (x : A) : Prop := ∃ s, s ∈ starts ∧ rtc R s x.

(** Whatever the graph, nothing else is listed. *)
Lemma topo_within fuel visited result stack l : topo fuel visited result stack = Some (Ok l) →
  (∀ x, x ∈ result → reached x) → (∀ x b, (x, b) ∈ stack → reached x) → ∀ x, x ∈ l → reached x.
Proof.
  revert visited result stack. induction fuel as [|fuel IH]; intros visited result stack; cbn [topo]; [done|].
  destruct stack as [|[id []] stack]; [by intros [= <-]| |].
  - intros Ht Hr Hs. apply (IH _ _ _ Ht); [|intros x b ?; apply (Hs x b); by right].
    intros x [?| ->%list_elem_of_singleton]%elem_of_app; [by apply Hr|]. apply (Hs id true). left.
  - case_decide; intros Ht Hr Hs.
    + apply (IH _ _ _ Ht Hr). intros x b ?. apply (Hs x b). by right.
    + destruct (next _ id) as [ns|e] eqn:Hns; [|done]. apply (IH _ _ _ Ht Hr).
      assert (reached id) as Hid by (apply (Hs id false); left).
      intros x b [(y & [= -> ->] & Hy)%list_elem_of_fmap|[[= -> ->]|?]%elem_of_cons]%elem_of_app; [|done|apply (Hs x b); by right].
      destruct Hid as (s & ? & ?). exists s. split; [done|]. eapply rtc_r; [done|]. by apply (next_edges _ _ _ Hns).
Qed.

Context (acyclic : ∀ x, reached x → ¬ tc R x x).

(** Above an open id the stack holds what it leads to, and all it still waits for. *)
Record topo_inv (visited : gset A) (result : list A) (stack : list (A * bool)) : Prop := {
  ti_result : ∀ x, x ∈ result → x ∈ visited;
  ti_open : ∀ x, (x, true) ∈ stack → x ∈ visited ∧ x ∉ result;
  ti_visited : ∀ x, x ∈ visited → x ∈ result ∨ (x, true) ∈ stack;
  ti_reached : ∀ x b, (x, b) ∈ stack → reached x;
  ti_finished : ∀ x, x ∈ result → reached x;
  ti_starts : ∀ s, s ∈ starts → s ∈ visited ∨ (s, false) ∈ stack;
  ti_sorted : parents_first R result;
  ti_nodup : NoDup result;
  ti_once : ∀ s1 x s2, stack = s1 ++ (x, true) :: s2 → (x, true) ∉ s2;
  ti_above : ∀ s1 x s2, stack = s1 ++ (x, true) :: s2 → ∀ y b, (y, b) ∈ s1 → tc R x y;
  ti_waits : ∀ s1 x s2, stack = s1 ++ (x, true) :: s2 → ∀ y, R x y → y ∈ result ∨ ∃ b, (y, b) ∈ s1
}.

Lemma topo_inv_init : topo_inv ∅ [] ((λ s, (s, false)) <$> rev starts).
Proof.
  assert (∀ x b, (x, b) ∈ (λ s, (s, false)) <$> rev starts → b = false ∧ x ∈ starts) as Hin.
  { intros x b (s & [= -> ->] & Hs)%list_elem_of_fmap. split; [done|]. by rewrite list_elem_of_In, in_rev, <- list_elem_of_In. }
  assert (∀ s1 x s2, (λ s, (s, false)) <$> rev starts ≠ s1 ++ (x, true) :: s2) as Hno.
  { intros s1 x s2 Heq. assert ((x, true) ∈ (λ s, (s, false)) <$> rev starts) as [? _]%Hin; [|done].
    rewrite Heq. apply elem_of_app. right. left. }
  split.
  - by intros x ?%elem_of_nil.
  - by intros x [? _]%Hin.
  - set_solver.
  - intros x b [_ Hx]%Hin. by exists x.
  - by intros x ?%elem_of_nil.
  - intros s Hs. right. apply list_elem_of_fmap. exists s. split; [done|].
    by rewrite list_elem_of_In, <- in_rev, <- list_elem_of_In.
  - apply parents_first_nil.
  - constructor.
  - intros s1 x s2 Heq. by destruct (Hno s1 x s2).
  - intros s1 x s2 Heq. by destruct (Hno s1 x s2).
  - intros s1 x s2 Heq. by destruct (Hno s1 x s2).
Qed.
Lemma topo_inv_finish visited result id stack :
  topo_inv visited result ((id, true) :: stack) → topo_inv visited (result ++ [id]) stack.
Proof.
  intros [Hr Ho Hv Hre Hf Hs Hp Hn H1 Ha Hw].
  assert (id ∈ visited ∧ id ∉ result) as [Hidv Hidr] by (apply Ho; left).
  assert ((id, true) ∉ stack) as Hid by by apply (H1 [] id stack).
  split.
  - intros x [?| ->%list_elem_of_singleton]%elem_of_app; [by apply Hr|done].
  - intros x Hx. destruct (Ho x) as [? ?]; [by right|]. split; [done|].
    intros [?| ->%list_elem_of_singleton]%elem_of_app; done.
  - intros x [?|[[= ->]|?]%elem_of_cons]%Hv; [left; apply elem_of_app; by left|left; apply elem_of_app; right; left|by right].
  - intros x b ?. apply (Hre x b). by right.
  - intros x [?| ->%list_elem_of_singleton]%elem_of_app; [by apply Hf|]. apply (Hre id true). left.
  - intros s [?|[?|?]%elem_of_cons]%Hs; [by left|done|by right].
  - apply parents_first_snoc; [done|]. intros y Hy. destruct (Hw [] id stack eq_refl y Hy) as [?|(b & Hb)]; [done|].
    by apply elem_of_nil in Hb.
  - apply NoDup_app. split; [done|]. split; [|apply NoDup_singleton]. by intros x Hx ->%list_elem_of_singleton.
  - intros s1 x s2 ->. by apply (H1 ((id, true) :: s1) x s2).
  - intros s1 x s2 -> y b Hy. apply (Ha ((id, true) :: s1) x s2 eq_refl y b). by right.
  - intros s1 x s2 -> y Hy. destruct (Hw ((id, true) :: s1) x s2 eq_refl y Hy) as [?|(b & [[= -> ->]|?]%elem_of_cons)].
    + left. apply elem_of_app. by left.
    + left. apply elem_of_app. right. left.
    + right. by exists b.
Qed.

(** An open id below [z] leads to [z], so [z] has no edge back to it. *)
Lemma open_below visited result s1 z s2 x : topo_inv visited result (s1 ++ (z, true) :: s2) →
  (x, true) ∈ (z, true) :: s2 → R z x → False.
Proof.
  intros Hi [[= ->]|Hx]%elem_of_cons Hzx.
  - apply (acyclic z); [|by apply tc_once]. apply (ti_reached _ _ _ Hi z true). apply elem_of_app. right. left.
  - apply list_elem_of_split in Hx as (t1 & t2 & ->). apply (acyclic x).
    + apply (ti_reached _ _ _ Hi x true). apply elem_of_app. right. right. apply elem_of_app. right. left.
    + apply (tc_r _ z); [|done]. eapply (ti_above _ _ _ Hi (s1 ++ (z, true) :: t1) x t2).
      * by rewrite <- app_assoc.
      * apply elem_of_app. right. left.
Qed.

Lemma topo_inv_skip visited result id stack :
  topo_inv visited result ((id, false) :: stack) → id ∈ visited → topo_inv visited result stack.
Proof.
  intros Hi Hid. pose proof Hi as [Hr Ho Hv Hre Hf Hs Hp Hn H1 Ha Hw]. split; try done.
  - intros x ?. apply Ho. by right.
  - intros x [?|[?|?]%elem_of_cons]%Hv; [by left|done|by right].
  - intros x b ?. apply (Hre x b). by right.
  - intros s [?|[[= ->]|?]%elem_of_cons]%Hs; [by left|by left|by right].
  - intros s1 x s2 ->. by apply (H1 ((id, false) :: s1) x s2).
  - intros s1 x s2 -> y b Hy. apply (Ha ((id, false) :: s1) x s2 eq_refl y b). by right.
  - intros s1 x s2 -> y Hy. destruct (Hw ((id, false) :: s1) x s2 eq_refl y Hy) as [?|(b & [[= -> ->]|?]%elem_of_cons)];
      [by left| |right; by exists b].
    destruct (Hv id Hid) as [?|[?|Hin]%elem_of_cons]; [by left|done|]. apply elem_of_app in Hin as [?|Hin]; [right; by exists true|].
    exfalso. by apply (open_below visited result ((id, false) :: s1) x s2 id).
Qed.

Lemma topo_inv_visit visited result id stack ns :
  topo_inv visited result ((id, false) :: stack) → id ∉ visited → next ({[id]} ∪ visited) id = Ok ns →
  topo_inv ({[id]} ∪ visited) result (((λ n, (n, false)) <$> ns) ++ (id, true) :: stack).
Proof.
  intros [Hr Ho Hv Hre Hf Hs Hp Hn H1 Ha Hw] Hid Hns. destruct (next_edges _ _ _ Hns) as [Hsound Hcomp].
  assert (reached id) as Hreach by (apply (Hre id false); left).
  assert (∀ x b, (x, b) ∈ (λ n, (n, false)) <$> ns ↔ b = false ∧ x ∈ ns) as Hin.
  { intros x b. rewrite list_elem_of_fmap. naive_solver. }
  assert (∀ x, (x, true) ∈ stack → x ∈ visited ∧ x ∉ result) as Ho' by (intros x ?; apply Ho; by right).
  (* a stack suffix that starts with an open id is the new one or an old one *)
  assert (∀ s1 x s2, ((λ n, (n, false)) <$> ns) ++ (id, true) :: stack = s1 ++ (x, true) :: s2 →
    (x = id ∧ s1 = (λ n, (n, false)) <$> ns ∧ s2 = stack) ∨
    ∃ t1, s1 = ((λ n, (n, false)) <$> ns) ++ (id, true) :: t1 ∧ stack = t1 ++ (x, true) :: s2) as Hsplit.
  { clear - Hin. intros s1 x s2. revert s1. induction ns as [|n ns IH]; intros [|i s1]; simpl; intros Heq; simplify_eq.
    - by left.
    - right. by exists s1.
    - destruct (IH ltac:(intros; rewrite list_elem_of_fmap; naive_solver) s1 H0) as [(-> & -> & ->)|(t1 & -> & ->)]; [by left|].
      right. by exists t1. }
  split.
  - intros x ?. apply elem_of_union. right. by apply Hr.
  - intros x [[? _]%Hin|[[= ->]|Hx]%elem_of_cons]%elem_of_app; [done| |].
    + split; [set_solver|]. intros ?%Hr. done.
    + destruct (Ho' x Hx). split; [set_solver|done].
  - intros x [->%elem_of_singleton|Hx]%elem_of_union; [right; apply elem_of_app; right; left|].
    destruct (Hv x Hx) as [?|[?|?]%elem_of_cons]; [by left|done|]. right. apply elem_of_app. right. by right.
  - intros x b [[_ Hx]%Hin|[[= -> ->]|Hx]%elem_of_cons]%elem_of_app; [|done|apply (Hre x b); by right].
    destruct Hreach as (s & ? & ?). exists s. split; [done|]. eapply rtc_r; [done|]. by apply Hsound.
  - done.
  - intros s [?|[[= ->]|?]%elem_of_cons]%Hs; [left; set_solver|left; set_solver|].
    right. apply elem_of_app. right. by right.
  - done.
  - done.
  - intros s1 x s2 [(-> & _ & ->)|(t1 & _ & ->)]%Hsplit; [by intros [? _]%Ho'|].
    by apply (H1 ((id, false) :: t1) x s2).
  - intros s1 x s2 [(-> & -> & ->)|(t1 & -> & ->)]%Hsplit y b Hy.
    + apply Hin in Hy as [_ Hy]. by apply tc_once, Hsound.
    + assert (tc R x id) as Hx by (apply (Ha ((id, false) :: t1) x s2 eq_refl id false); left).
      apply elem_of_app in Hy as [[_ Hy]%Hin|[[= -> ->]|Hy]%elem_of_cons]; [|done|].
      * apply (tc_r _ id); [done|]. by apply Hsound.
      * apply (Ha ((id, false) :: t1) x s2 eq_refl y b). by right.
  - intros s1 x s2 [(-> & -> & ->)|(t1 & -> & ->)]%Hsplit y Hy.
    + destruct (Hcomp y Hy) as [?|[->%elem_of_singleton|Hyv]%elem_of_union].
      * right. exists false. by apply Hin.
      * exfalso. apply (acyclic id Hreach). by apply tc_once.
      * destruct (Hv y Hyv) as [?|[?|Hys]%elem_of_cons]; [by left|done|]. exfalso.
        apply (acyclic y); [apply (Hre y true); by right|]. apply (tc_r _ id); [|done].
        apply list_elem_of_split in Hys as (u1 & u2 & ->).
        apply (Ha ((id, false) :: u1) y u2 eq_refl id false). left.
    + destruct (Hw ((id, false) :: t1) x s2 eq_refl y Hy) as [?|(b & [[= -> ->]|Hb]%elem_of_cons)]; [by left| |].
      * right. exists true. apply elem_of_app. right. left.
      * right. exists b. apply elem_of_app. right. by right.
Qed.

Lemma topo_inv_run fuel visited result stack r : topo_inv visited result stack →
  topo fuel visited result stack = Some r →
  match r with
  | Ok l => ∃ visited', topo_inv visited' l []
  | Err e => ∃ V x, reached x ∧ next V x = Err e
  end.
Proof.
  revert visited result stack. induction fuel as [|fuel IH]; intros visited result stack Hi; simpl; [done|].
  destruct stack as [|[id []] stack].
  - intros [= <-]. by exists visited.
  - apply IH. by apply topo_inv_finish.
  - case_decide as Hid; [apply IH; by eapply topo_inv_skip|].
    destruct (next _ id) as [ns|e] eqn:Hns; [apply IH; by apply topo_inv_visit|].
    intros [= <-]. exists ({[id]} ∪ visited), id. split; [|done]. apply (ti_reached _ _ _ Hi id false). left.
Qed.

Lemma topo_sound fuel r : topo fuel ∅ [] ((λ s, (s, false)) <$> rev starts) = Some r →
  match r with
  | Ok l => NoDup l ∧ parents_first R l ∧ ∀ x, x ∈ l ↔ reached x
  | Err e => ∃ V x, reached x ∧ next V x = Err e
  end.
Proof.
  intros Hr. apply topo_inv_run in Hr; [|apply topo_inv_init]. destruct r as [l|e]; [|done].
  destruct Hr as (V & [Hr _ Hv _ Hf Hs Hp Hn _ _ _]). split; [done|]. split; [done|]. intros x. split; [apply Hf|].
  intros (s & Hin & Hrt). assert (s ∈ l) as Hl.
  { destruct (Hs s Hin) as [Hsv|Hb]; [|by apply elem_of_nil in Hb]. destruct (Hv s Hsv) as [?|Hb]; [done|by apply elem_of_nil in Hb]. }
  clear Hin. induction Hrt as [|a b c Hab _ IH]; [done|]. apply IH. by eapply parents_first_elem.
Qed.
End topo.
