(* ===== verification/Bfs.v ===== *)
(** * Bfs: breadth-first search with a bound, for the searches of the trust graph

    The loops of src/src/collab/trust.rs and src/src/collab/search.rs visit a graph level
    by level: a queue, a map (or set) of visited nodes filled when a node is pushed, and
    a bound at which nodes are no longer expanded.  They differ in what they store per
    node (a distance, a route, edges).  This file has their common part, distances: the
    step [bfs_push], the invariant [bfs_inv] and what it says when the queue is empty and
    when a node is met for the first time. *)

From S2P Require Import Prelude.

Lemma size_list_to_set_le {K} `{Countable K} (l : list K) : size (list_to_set l : gset K) ≤ length l.
Proof.
  induction l as [|x l IH]; [reflexivity|]. rewrite list_to_set_cons. simpl. rewrite size_union_alt, size_singleton.
  assert (size ((list_to_set l : gset K) ∖ {[x]}) ≤ size (list_to_set l : gset K)); [|lia].
  apply subseteq_size. set_solver.
Qed.

Section bfs.
Context {K : Type} `{Countable K}.
Context (edge : relation K) (root : K) (bound : nat).

(** Meeting the neighbour [y] of a node at distance [d]. *)
Definition bfs_push (d : nat) (s : gmap K nat * list K) (y : K) : gmap K nat * list K :=
  match s.1 !! y with
  | Some _ => s
  | None => (<[y := S d]> s.1, s.2 ++ [y])
  end.

Definition lvl (seen : gmap K nat) (x : K) : nat := default 0 (seen !! x).

(** Everything visited is at its distance from the root, the queue is in the order of
    distances, which differ by at most one, and all edges of a visited node that is no
    longer queued, and is not at the bound, have been followed. *)
Record bfs_inv (seen : gmap K nat) (q : list K) : Prop := {
  bfs_root : seen !! root = Some 0;
  bfs_reach : ∀ x n, seen !! x = Some n → nsteps edge n root x ∧ n ≤ bound;
  bfs_queued : ∀ x, x ∈ q → is_Some (seen !! x);
  bfs_sorted : StronglySorted le (lvl seen <$> q);
  bfs_front : ∀ x y m, head q = Some x → seen !! y = Some m → m ≤ S (lvl seen x);
  bfs_done : ∀ x n y, seen !! x = Some n → x ∉ q → n < bound → edge x y → ∃ m, seen !! y = Some m ∧ m ≤ S n
}.

Lemma nsteps_0_inv x y : nsteps edge 0 x y → x = y.
Proof. by inversion 1. Qed.

Lemma lvl_Some seen x n : seen !! x = Some n → lvl seen x = n.
Proof. unfold lvl. by intros ->. Qed.

Lemma bfs_inv_init : bfs_inv {[root := 0]} [root].
Proof.
  split.
  - by simplify_map_eq.
  - intros x n [<- <-]%lookup_singleton_Some. split; [constructor|lia].
  - intros x ->%list_elem_of_singleton. by simplify_map_eq.
  - repeat constructor.
  - intros x y m _ [<- <-]%lookup_singleton_Some. lia.
  - intros x n y [<- <-]%lookup_singleton_Some Hx. by destruct Hx; left.
Qed.

(** Leaving the node at the front, once its edges have been followed or it is at the bound. *)
Lemma bfs_inv_pop seen x q n : bfs_inv seen (x :: q) → seen !! x = Some n →
  (n < bound → ∀ y, edge x y → ∃ m, seen !! y = Some m ∧ m ≤ S n) → bfs_inv seen q.
Proof.
  intros [Hr Hre Hq Hs Hf Hd] Hx Hn. simpl in Hs. apply StronglySorted_inv in Hs as [Hs Hall]. split; [done|done| |done| |].
  - intros y Hy. apply Hq. by right.
  - intros y z m Hy Hz. pose proof (Hf x z m eq_refl Hz). rewrite (lvl_Some _ _ _ Hx) in *.
    destruct q as [|y' q]; [done|]. injection Hy as ->. simpl in Hall. apply Forall_cons in Hall as [? _]. lia.
  - intros y k z Hy Hk. destruct (decide (y = x)) as [->|Hne].
    + rewrite Hx in Hy. injection Hy as <-. intros ? ?. by apply Hn.
    + apply Hd; [done|]. rewrite elem_of_cons. naive_solver.
Qed.

Lemma StronglySorted_snoc l (k : nat) : StronglySorted le l → Forall (λ n, n ≤ k) l → StronglySorted le (l ++ [k]).
Proof.
  induction 1 as [|a l Hs IH Ha]; intros Hk; simpl; [repeat constructor|].
  apply Forall_cons in Hk as [? ?]. constructor; [by apply IH|]. apply Forall_app. split; [done|]. by constructor.
Qed.

(** The state between two neighbours of the node [x]: [x] is still at the front. *)
Lemma bfs_inv_push seen x q d y :
  bfs_inv seen (x :: q) → seen !! x = Some d → d < bound → edge x y →
  bfs_inv (bfs_push d (seen, q) y).1 (x :: (bfs_push d (seen, q) y).2) ∧
  seen ⊆ (bfs_push d (seen, q) y).1 ∧
  ∃ m, (bfs_push d (seen, q) y).1 !! y = Some m ∧ m ≤ S d.
Proof.
  intros Hinv Hx Hd He. unfold bfs_push. simpl. destruct (seen !! y) as [m|] eqn:Hy; simpl.
  { split; [done|]. split; [done|]. exists m. split; [done|].
    rewrite <- (lvl_Some _ _ _ Hx). by apply (bfs_front _ _ Hinv x y m). }
  destruct Hinv as [Hr Hre Hq Hs Hf Hdn]. split.
  2:{ split; [by apply insert_subseteq|]. exists (S d). by simplify_map_eq. }
  assert (∀ a, a ≠ y → lvl (<[y:=S d]> seen) a = lvl seen a) as Hlvl.
  { intros a Ha. unfold lvl. by rewrite lookup_insert_ne by done. }
  assert (∀ a, a ∈ x :: q → a ≠ y) as Hne.
  { intros a Ha ->. destruct (Hq y Ha). congruence. }
  split.
  - rewrite lookup_insert_ne; [done|congruence].
  - intros z n [[<- <-]|[_ Hz]]%lookup_insert_Some; [|by apply Hre]. split; [|lia].
    destruct (Hre x d Hx) as [Hp _]. eapply nsteps_r; [exact Hp|done].
  - intros z Hz. destruct (decide (z = y)) as [->|]; [by simplify_map_eq|]. rewrite lookup_insert_ne by done.
    apply Hq. rewrite elem_of_cons, elem_of_app, list_elem_of_singleton in Hz. rewrite elem_of_cons. naive_solver.
  - rewrite app_comm_cons, fmap_app. rewrite (list_fmap_ext (lvl (<[y:=S d]> seen)) (lvl seen) (x :: q)).
    2:{ intros i a Hi. apply Hlvl, Hne. by eapply list_elem_of_lookup_2. }
    change (lvl (<[y:=S d]> seen) <$> [y]) with [lvl (<[y:=S d]> seen) y].
    rewrite (lvl_Some _ y (S d)) by by simplify_map_eq. apply StronglySorted_snoc; [done|].
    apply Forall_fmap, Forall_forall. intros a Ha. simpl. destruct (Hq a Ha) as [n Hn].
    rewrite (lvl_Some _ _ _ Hn), <- (lvl_Some _ _ _ Hx). by apply (Hf x a n).
  - intros a z m [= <-] Hz. rewrite Hlvl by (apply Hne; by left). rewrite (lvl_Some _ _ _ Hx).
    apply lookup_insert_Some in Hz as [[_ <-]|[_ Hz]]; [done|]. rewrite <- (lvl_Some _ _ _ Hx). by apply (Hf x z m).
  - intros a n z Ha Hnq Hn Hz. destruct (decide (a = y)) as [->|Hay].
    { destruct Hnq. right. apply elem_of_app. right. by left. }
    rewrite lookup_insert_ne in Ha by done.
    destruct (Hdn a n z Ha) as (m & Hm & ?); [set_solver|done..|].
    exists m. split; [|done]. destruct (decide (z = y)) as [->|]; [congruence|by rewrite lookup_insert_ne].
Qed.

(** What is visited but not queued after a few pushes was so before. *)
Lemma bfs_push_old d ys : ∀ s z n, (foldl (bfs_push d) s ys).1 !! z = Some n → z ∉ (foldl (bfs_push d) s ys).2 →
  s.1 !! z = Some n ∧ z ∉ s.2.
Proof.
  induction ys as [|y ys IH]; intros s z n; [done|]. cbn [foldl]. intros Hz Hnq.
  destruct (IH _ _ _ Hz Hnq) as [Hz' Hnq']. revert Hz' Hnq'. unfold bfs_push. destruct (s.1 !! y) eqn:Hy; [done|].
  simpl. rewrite elem_of_app, list_elem_of_singleton. intros Hz' Hn. rewrite lookup_insert_ne in Hz' by (intros ->; tauto). tauto.
Qed.

(** Expanding the node at the front: all its neighbours, one after the other. *)
Lemma bfs_inv_expand seen x q d ys :
  bfs_inv seen (x :: q) → seen !! x = Some d → d < bound → (∀ y, y ∈ ys ↔ edge x y) →
  bfs_inv (foldl (bfs_push d) (seen, q) ys).1 (foldl (bfs_push d) (seen, q) ys).2.
Proof.
  intros Hinv Hx Hd Hys.
  assert (∀ l s p, bfs_inv s (x :: p) → s !! x = Some d → (∀ y, y ∈ l → edge x y) →
    let r := foldl (bfs_push d) (s, p) l in
    bfs_inv r.1 (x :: r.2) ∧ s ⊆ r.1 ∧ ∀ y, y ∈ l → ∃ m, r.1 !! y = Some m ∧ m ≤ S d) as Hl.
  { induction l as [|y l IH]; intros s p Hi Hsx Hl; simpl; [split; [done|]; split; [done|by intros ? ?%elem_of_nil]|].
    destruct (bfs_inv_push s x p d y Hi Hsx Hd (Hl y ltac:(by left))) as (Hi' & Hsub & m & Hm & Hle).
    destruct (bfs_push d (s, p) y) as [s' p'] eqn:E. simpl in *.
    destruct (IH s' p' Hi') as (Hi2 & Hsub2 & Hall); [by eapply lookup_weaken|intros z Hz; apply Hl; by right|].
    split; [done|]. split; [by etrans|]. intros z [->|Hz]%elem_of_cons; [|by apply Hall].
    exists m. split; [by eapply lookup_weaken|done]. }
  destruct (Hl ys seen q Hinv Hx) as (Hi & Hsub & Hall); [intros; by apply Hys|].
  eapply bfs_inv_pop; [exact Hi|by eapply lookup_weaken|]. intros _ y Hy%Hys. by apply Hall.
Qed.

(** Every node closer than the front has been visited. *)
Lemma bfs_closer seen x q : bfs_inv seen (x :: q) → ∀ k y, nsteps edge k root y → k ≤ lvl seen x →
  k ≤ bound → ∃ m, seen !! y = Some m ∧ m ≤ k.
Proof.
  intros Hinv k. induction k as [|k IH]; intros y Hy Hk Hb.
  { apply nsteps_0_inv in Hy as <-. exists 0. split; [apply Hinv|done]. }
  apply nsteps_inv_r in Hy as (z & Hz & He). destruct (IH z Hz) as (m & Hm & Hle); [lia..|].
  destruct (decide (z ∈ x :: q)) as [Hin|Hnin].
  - exfalso. assert (lvl seen x ≤ m); [|lia]. rewrite <- (lvl_Some _ _ _ Hm).
    apply elem_of_cons in Hin as [->|Hin]; [done|].
    pose proof (bfs_sorted _ _ Hinv) as Hs. simpl in Hs. apply StronglySorted_inv in Hs as [_ Hs].
    rewrite Forall_fmap, Forall_forall in Hs. by apply Hs.
  - destruct (bfs_done _ _ Hinv z m y) as (m' & ? & ?); [done..|lia|done|]. exists m'. split; [done|lia].
Qed.

(** The distance from the root, when it is at most [bound]. *)
Definition at_distance (x : K) (n : nat) : Prop :=
  nsteps edge n root x ∧ ∀ k, k < n → ¬ nsteps edge k root x.

Lemma at_distance_unique x n m : at_distance x n → at_distance x m → n = m.
Proof.
  intros [Hn Hn'] [Hm Hm']. destruct (lt_eq_lt_dec n m) as [[Hlt|]|Hlt]; [|done|].
  - by destruct (Hm' n Hlt).
  - by destruct (Hn' m Hlt).
Qed.

(** When the queue is empty the visited nodes are those within the bound, with their
    distances. *)
Lemma bfs_complete seen : bfs_inv seen [] → ∀ k y, nsteps edge k root y → k ≤ bound →
  ∃ m, seen !! y = Some m ∧ m ≤ k.
Proof.
  intros Hinv. induction k as [|k IH]; intros y Hy Hb.
  { apply nsteps_0_inv in Hy as <-. exists 0. split; [apply Hinv|done]. }
  apply nsteps_inv_r in Hy as (z & Hz & He). destruct (IH z Hz) as (m & Hm & Hle); [lia|].
  destruct (bfs_done _ _ Hinv z m y) as (m' & ? & ?); [done|by apply not_elem_of_nil|lia|done|].
  exists m'. split; [done|lia].
Qed.
Lemma bfs_final seen : bfs_inv seen [] → ∀ x n, seen !! x = Some n ↔ at_distance x n ∧ n ≤ bound.
Proof.
  intros Hinv. pose proof (bfs_complete seen Hinv) as Hall. intros x n. split.
  - intros Hx. destruct (bfs_reach _ _ Hinv x n Hx) as [Hp Hb]. split; [|done]. split; [done|].
    intros k Hk Hk'. destruct (Hall k x Hk') as (m & Hm & Hle); [lia|]. rewrite Hx in Hm. simplify_eq. lia.
  - intros [[Hp Hmin] Hb]. destruct (Hall n x Hp Hb) as (m & Hm & Hle). rewrite Hm. f_equal.
    destruct (bfs_reach _ _ Hinv x m Hm) as [Hpm _].
    destruct (decide (m < n)); [by destruct (Hmin m)|lia].
Qed.

(** A node first met from the front is one step further than the front. *)
Lemma bfs_first_met seen x q d y : bfs_inv seen (x :: q) → seen !! x = Some d → d < bound →
  edge x y → seen !! y = None → at_distance y (S d).
Proof.
  intros Hinv Hx Hd He Hy. destruct (bfs_reach _ _ Hinv x d Hx) as [Hp _]. split; [by eapply nsteps_r|].
  intros k Hk Hk'. destruct (bfs_closer _ _ _ Hinv k y Hk') as (m & Hm & _); [|lia|congruence].
  rewrite (lvl_Some _ _ _ Hx). lia.
Qed.

(** ** Termination: every push adds a node to the visited ones. *)
Lemma bfs_push_measure (U : gset K) d s q y : y ∈ U →
  length (bfs_push d (s, q) y).2 + size (U ∖ dom (bfs_push d (s, q) y).1) ≤ length q + size (U ∖ dom s).
Proof.
  intros Hy. unfold bfs_push. simpl. destruct (s !! y) eqn:Hs; simpl; [done|].
  apply not_elem_of_dom in Hs. rewrite length_app, dom_insert. simpl.
  assert (S (size (U ∖ ({[y]} ∪ dom s))) ≤ size (U ∖ dom s)); [|lia].
  change (S ?n) with (1 + n). rewrite <- (size_singleton (C := gset K) y). rewrite <- size_union by set_solver.
  apply subseteq_size. intros z. destruct (decide (z = y)); set_solver.
Qed.
Lemma bfs_expand_measure (U : gset K) d ys : (∀ y, y ∈ ys → y ∈ U) → ∀ s q,
  let r := foldl (bfs_push d) (s, q) ys in
  length r.2 + size (U ∖ dom r.1) ≤ length q + size (U ∖ dom s).
Proof.
  induction ys as [|y ys IH]; intros HU s q; simpl; [done|].
  pose proof (bfs_push_measure U d s q y (HU y ltac:(by left))) as Hm.
  destruct (bfs_push d (s, q) y) as [s' q'] eqn:E. simpl in *. etrans; [apply IH|done]. intros z Hz. apply HU. by right.
Qed.

(** One round of the loop: the front node leaves the queue and is expanded, unless it is
    at the bound. *)
Definition bfs_next (d : nat) (ys : list K) (s : gmap K nat * list K) : gmap K nat * list K :=
  if decide (d = bound) then s else foldl (bfs_push d) s ys.
Definition bfs_measure (U : gset K) (s : gmap K nat * list K) : nat := length s.2 + size (U ∖ dom s.1).

Lemma bfs_next_inv (U : gset K) seen x q d ys :
  bfs_inv seen (x :: q) → seen !! x = Some d → (∀ y, y ∈ ys ↔ edge x y) → (∀ y, y ∈ ys → y ∈ U) →
  bfs_inv (bfs_next d ys (seen, q)).1 (bfs_next d ys (seen, q)).2 ∧
  bfs_measure U (bfs_next d ys (seen, q)) < bfs_measure U (seen, x :: q).
Proof.
  intros Hinv Hx Hys HU. unfold bfs_next. destruct (bfs_reach _ _ Hinv x d Hx) as [_ Hb]. case_decide as Hd.
  - split; [|unfold bfs_measure; simpl; lia]. eapply bfs_inv_pop; [done..|]. lia.
  - split; [by eapply bfs_inv_expand; [..|lia|]|].
    pose proof (bfs_expand_measure U d ys HU seen q). unfold bfs_measure. simpl in *. lia.
Qed.
End bfs.

(** ** Running a loop

    [run step fuel] is a [while] loop whose body is [step]; [None] only when the fuel
    is out, which a measure excludes. *)
Fixpoint run {S R} (step : S → S + R) (fuel : nat) (s : S) : option R :=
  match fuel with
  | O => None
  | S fuel => match step s with inl s => run step fuel s | inr r => Some r end
  end.

Lemma run_ends {S R} (step : S → S + R) (Inv : S → Prop) (μ : S → nat) fuel s :
  (∀ s s', Inv s → step s = inl s' → Inv s' ∧ μ s' < μ s) → Inv s → μ s < fuel →
  ∃ s' r, run step fuel s = Some r ∧ Inv s' ∧ step s' = inr r.
Proof.
  intros Hstep. revert s. induction fuel as [|fuel IH]; intros s Hs Hf; [lia|]. simpl.
  destruct (step s) as [s'|r] eqn:E; [|by exists s, r].
  destruct (Hstep s s' Hs E) as [Hs' Hm]. apply IH; [done|lia].
Qed.

(** A run that returns keeps what every step keeps. *)
Lemma run_inv {S R} (step : S → S + R) (Inv : S → Prop) fuel s r :
  (∀ s s', Inv s → step s = inl s' → Inv s') → Inv s → run step fuel s = Some r → ∃ s', Inv s' ∧ step s' = inr r.
Proof.
  intros Hstep. revert s. induction fuel as [|fuel IH]; intros s Hs; [done|]. simpl.
  destruct (step s) as [s'|r'] eqn:E; [intros Hr; apply (IH s'); [by eapply Hstep|done]|]. intros [= ->]. by exists s.
Qed.

(** Relations with the same steps have the same chains and distances. *)
Lemma nsteps_mono {A} (R R' : relation A) n x y : (∀ x y, R x y → R' x y) → nsteps R n x y → nsteps R' n x y.
Proof. intros HR. induction 1; [constructor|]. econstructor; eauto. Qed.
Lemma nsteps_inv_l {A} (R : relation A) n x z : nsteps R (S n) x z → ∃ y, R x y ∧ nsteps R n y z.
Proof. inversion 1; eauto. Qed.
Lemma at_distance_ext {A} (R R' : relation A) root x n : (∀ x y, R x y ↔ R' x y) →
  at_distance R root x n ↔ at_distance R' root x n.
Proof.
  intros HR. assert (∀ k, nsteps R k root x ↔ nsteps R' k root x) as Hk.
  { intros k. split; apply nsteps_mono; intros a b; apply HR. }
  unfold at_distance. by setoid_rewrite Hk.
Qed.
