(* ===== verification/Order.v ===== *)
(** * Order: Rust's [Ordering] and the stable [sort_by] of slices

    [Ordering] is the standard library's [comparison], [then_with] its lexicographic
    product, [sort_by] the insertion sort, which like Rust's keeps elements that compare
    equal in their order. *)

From S2P Require Import Prelude.

(** ** Comparators *)
Class Cmp {A : Type} (c : A → A → comparison) : Prop := {
  cmp_opp : ∀ x y, c y x = CompOpp (c x y);
  cmp_trans : ∀ x y z, c x y ≠ Gt → c y z ≠ Gt → c x z ≠ Gt
}.

(** [Ordering::then_with] *)
Definition then_with (c d : comparison) : comparison := match c with Eq => d | _ => c end.

Lemma cmp_refl {A} (c : A → A → comparison) `{!Cmp c} x : c x x = Eq.
Proof. pose proof (cmp_opp (c := c) x x) as Hx. by destruct (c x x). Qed.

(** Equal elements compare alike with every third one. *)
Lemma cmp_eq_l {A} (c : A → A → comparison) `{!Cmp c} x y z : c x y = Eq → c x z = c y z.
Proof.
  intros Hxy. assert (c y x = Eq) as Hyx by (by rewrite (cmp_opp x y), Hxy).
  pose proof (cmp_trans x y z) as H1. pose proof (cmp_trans y x z) as H2.
  pose proof (cmp_trans z x y) as H3. pose proof (cmp_trans z y x) as H4.
  pose proof (cmp_opp x z) as Hxz. pose proof (cmp_opp y z) as Hyz.
  rewrite Hxz, Hyz, Hxy, Hyx in *. destruct (c x z), (c y z); simpl in *; try done.
  all: exfalso; eauto || (apply H1; done) || (apply H2; done) || (apply H3; done) || (apply H4; done).
Qed.

Lemma Cmp_then {A} (c d : A → A → comparison) (Hc : Cmp c) (Hd : Cmp d) :
  Cmp (λ x y, then_with (c x y) (d x y)).
Proof.
  split.
  - intros x y. rewrite (cmp_opp (c := c) x y), (cmp_opp (c := d) x y). by destruct (c x y).
  - intros x y z. unfold then_with.
    destruct (c x y) eqn:Hxy; [|intros _|done].
    { rewrite (cmp_eq_l c x y z Hxy). destruct (c y z); [apply cmp_trans|done..]. }
    destruct (c y z) eqn:Hyz; [| |done].
    + intros _. assert (c x z = Lt) as ->; [|done].
      assert (c z y = Eq) as Hzy by by rewrite (cmp_opp y z), Hyz.
      rewrite (cmp_opp z x), (cmp_eq_l c z y x Hzy), (cmp_opp x y), Hxy. done.
    + intros _. assert (c x z ≠ Gt) as Hxz by (apply (cmp_trans x y z); congruence).
      destruct (c x z) eqn:E; [|done..]. exfalso.
      rewrite (cmp_eq_l c x z y E), (cmp_opp y z), Hyz in Hxy. done.
Qed.
Lemma Cmp_by {A B} (f : A → B) (c : B → B → comparison) (Hc : Cmp c) : Cmp (λ x y, c (f x) (f y)).
Proof. split; intros; [apply cmp_opp|by eapply cmp_trans]. Qed.
Lemma Cmp_flip {A} (c : A → A → comparison) (Hc : Cmp c) : Cmp (λ x y, c y x).
Proof. split; intros; [apply cmp_opp|by eapply cmp_trans]. Qed.

(** [usize], [u8], [u64] and [bool] ([false < true]). *)
#[global] Instance Cmp_N : Cmp N.compare.
Proof. split; [intros; apply N.compare_antisym|]. intros x y z. rewrite !N.compare_le_iff. lia. Qed.
Definition bool_cmp (a b : bool) : comparison :=
  match a, b with false, true => Lt | true, false => Gt | _, _ => Eq end.
#[global] Instance Cmp_bool : Cmp bool_cmp.
Proof. split; [by intros [] []|by intros [] [] []]. Qed.
(** [str]: by bytes, as the keys of a [BTreeMap]. *)
Definition key_cmp {K} `{OrdKey K} (x y : K) : comparison :=
  if decide (x = y) then Eq else if decide (key_le x y) then Lt else Gt.
#[global] Instance Cmp_key {K} `{OrdKey K} : Cmp (key_cmp (K := K)).
Proof.
  split.
  - intros x y. unfold key_cmp. repeat case_decide; try done; subst; try done.
    + by destruct (H3 (anti_symm key_le x y ltac:(done) ltac:(done))).
    + destruct (total key_le x y); done.
  - intros x y z. unfold key_cmp. repeat case_decide; subst; try done.
    intros _ _. destruct (H6 (transitivity (R := key_le) (y := y) ltac:(done) ltac:(done))).
Qed.
Lemma key_cmp_le {K} `{OrdKey K} (x y : K) : key_cmp x y ≠ Gt ↔ key_le x y.
Proof. unfold key_cmp. repeat case_decide; subst; split; done || (intros; reflexivity). Qed.

(** ** [sort_by] *)
Section sort.
Context {A : Type} (c : A → A → comparison).

Fixpoint sort_insert (x : A) (l : list A) : list A :=
  match l with
  | [] => [x]
  | y :: l => if decide (c x y = Gt) then y :: sort_insert x l else x :: y :: l
  end.
Definition sort_by (l : list A) : list A := foldr sort_insert [] l.

Lemma sort_insert_perm x l : sort_insert x l ≡ₚ x :: l.
Proof. induction l as [|y l IH]; simpl; [done|]. case_decide; [|done]. rewrite IH. constructor. Qed.
Lemma sort_by_perm l : sort_by l ≡ₚ l.
Proof. induction l as [|x l IH]; simpl; [done|]. by rewrite sort_insert_perm, IH. Qed.

(** A sorted list stays as it is. *)
Lemma sort_by_id l : StronglySorted (λ x y, c x y ≠ Gt) l → sort_by l = l.
Proof.
  induction 1 as [|x l _ IH Hall]; simpl; [done|]. rewrite IH. destruct l as [|y l]; simpl; [done|].
  apply Forall_cons in Hall as [Hxy _]. by rewrite decide_False.
Qed.

Context `{!Cmp c}.
Lemma sort_by_sorted l : StronglySorted (λ x y, c x y ≠ Gt) (sort_by l).
Proof.
  induction l as [|x l IH]; simpl; [constructor|].
  induction IH as [|y k Hs IH' Hall]; simpl; [repeat constructor|]. case_decide as Hc.
  - constructor; [done|]. rewrite sort_insert_perm. constructor; [|done]. by rewrite (cmp_opp x y), Hc.
  - constructor; [by constructor|]. constructor; [done|].
    eapply Forall_impl; [exact Hall|]. intros z Hz. by eapply cmp_trans.
Qed.

(** Elements that compare equal stay in their order. *)
Lemma sort_by_stable (P : A → Prop) `{!∀ x, Decision (P x)} l :
  (∀ x y, P x → P y → c x y = Eq) → filter P (sort_by l) = filter P l.
Proof.
  intros HP. assert (∀ x k, filter P (sort_insert x k) = filter P (x :: k)) as Hins.
  { intros x k. induction k as [|y k IH]; simpl; [done|]. case_decide as Hc; [|done].
    rewrite !filter_cons in *. rewrite IH. repeat case_decide; try done. rewrite HP in Hc by done. done. }
  induction l as [|x l IH]; simpl; [done|]. rewrite Hins, !filter_cons, IH. done.
Qed.
End sort.
