(* ===== verification/Lattice.v ===== *)
(** * Lattice: the label lattice of [src/src/acl/lattice.rs]

    A lattice is a set of labels with covering edges; dominance is reachability
    over the edges, computed by a stack search.  [validate] is the runtime check
    of a configuration; the theorems show that it accepts exactly the bounded
    lattices, and that on those [join]/[meet]/[bottom]/[top] are what their names
    say. *)

From S2P Require Import Prelude Graph.

(** [struct Label(pub String)], ordered as its string. *)
Abbreviation Label := string.
Definition PUBLIC : Label := "public".
Definition PROTECTED : Label := "protected".

(** [{:?}] of a label (printable labels; the escapes of [str]'s Debug are not
    reproduced). *)
Definition debug_label (l : Label) : string :=
  let q := String.String (Ascii.ascii_of_nat 34) String.EmptyString in
  "Label(" +:+ q +:+ l +:+ q +:+ ")".

Record LabelLattice : Type := MkLattice {
  labels : gset Label;
  (** [(lower, higher)] *)
  cover : gset (Label * Label)
}.

#[global] Instance LabelLattice_eq_dec : EqDecision LabelLattice.
Proof. solve_decision. Defined.

(** [LabelLattice::new] *)
Definition lattice_new (ls : list Label) (cs : list (Label * Label)) : LabelLattice :=
  {| labels := list_to_set ls; cover := list_to_set cs |}.

Definition two_point : LabelLattice :=
  lattice_new [PUBLIC; PROTECTED] [(PUBLIC, PROTECTED)].

Section lattice.
Context (L : LabelLattice).

(** The [hi] of every cover edge whose [lo] is [cur]. *)
Definition covers_of (cur : Label) : Result Empty_set (list Label) :=
  Ok ((filter (λ e, e.1 = cur) (btree_elems (cover L))).*2).

(** Every label that some edge leads to: bounds the search. *)
Definition cover_targets : gset Label := list_to_set ((elements (cover L)).*2).

(** [a] dominates [b]. *)
Definition dominates (a b : Label) : bool :=
  if decide (a = b) then true
  else match dfs_find covers_of (2 + size cover_targets) a ∅ [b] with
       | Some (Ok found) => found
       | Some (Err e) => match e with end
       | None => false
       end.

Definition strictly_dominates (a b : Label) : bool :=
  bool_decide (a ≠ b) && dominates a b.

Definition label_list : list Label := btree_elems (labels L).

Definition bottom : Label :=
  default PUBLIC
    (find_first (λ l, forallb (λ x, dominates x l) label_list) label_list).

Definition top : Label :=
  default PUBLIC
    (find_first (λ l, forallb (λ x, dominates l x) label_list) label_list).

Definition upper_bounds (a b : Label) : list Label :=
  filter (λ l, dominates l a && dominates l b) label_list.

Definition lower_bounds (a b : Label) : list Label :=
  filter (λ l, dominates a l && dominates b l) label_list.

Definition join (a b : Label) : Label :=
  let ubs := upper_bounds a b in
  default top (find_first (λ cand, forallb (λ other, dominates other cand) ubs) ubs).

Definition meet (a b : Label) : Label :=
  let lbs := lower_bounds a b in
  default bottom (find_first (λ cand, forallb (λ other, dominates cand other) lbs) lbs).

(** [iter().filter(f).count()] *)
Definition count_where (f : Label → bool) (l : list Label) : nat := length (filter f l).

Definition validate : res () :=
  if decide (labels L = ∅) then Err (Storage "lattice has no labels") else
  _ ← for_each (λ e,
        if decide (e.1 ∈ labels L ∧ e.2 ∈ labels L) then Ok ()
        else Err (Storage "cover edge references an unknown label"))
      (btree_elems (cover L));
  _ ← for_each (λ a, for_each (λ b,
        if bool_decide (a ≠ b) && dominates a b && dominates b a
        then Err (Storage ("cycle: " +:+ debug_label a +:+ " and " +:+ debug_label b
                           +:+ " mutually dominate"))
        else Ok ()) label_list) label_list;
  let bottoms := count_where (λ l, forallb (λ x, dominates x l) label_list) label_list in
  if decide (bottoms ≠ 1)
  then Err (Storage ("expected exactly one bottom, found " +:+ pretty bottoms)) else
  let tops := count_where (λ l, forallb (λ x, dominates l x) label_list) label_list in
  if decide (tops ≠ 1)
  then Err (Storage ("expected exactly one top, found " +:+ pretty tops)) else
  for_each (λ a, for_each (λ b,
    let ubs := upper_bounds a b in
    let lubs := count_where (λ cand, forallb (λ o, dominates o cand) ubs) ubs in
    if decide (lubs ≠ 1)
    then Err (Storage ("pair " +:+ debug_label a +:+ "," +:+ debug_label b
                       +:+ " lacks a unique join")) else
    let lbs := lower_bounds a b in
    let glbs := count_where (λ cand, forallb (λ o, dominates cand o) lbs) lbs in
    if decide (glbs ≠ 1)
    then Err (Storage ("pair " +:+ debug_label a +:+ "," +:+ debug_label b
                       +:+ " lacks a unique meet"))
    else Ok ()) label_list) label_list.

(** ** Dominance is reachability *)
Definition covers (lo hi : Label) : Prop := (lo, hi) ∈ cover L.
(** [below b a]: [b ⊑ a]. *)
Definition below : relation Label := rtc covers.

Lemma edge_covers x y : edge covers_of x y ↔ covers x y.
Proof.
  unfold edge, covers_of, covers. split.
  - intros (ns & [= <-] & Hy). apply list_elem_of_fmap in Hy as ([lo hi] & -> & Hin).
    apply list_elem_of_filter in Hin as [<- Hin]. by apply elem_of_btree_elems in Hin.
  - intros Hin. eexists. split; [done|]. apply list_elem_of_fmap. exists (x, y).
    split; [done|]. apply list_elem_of_filter. split; [done|]. by apply elem_of_btree_elems.
Qed.

Lemma tc_edge_covers x y : tc (edge covers_of) x y ↔ tc covers x y.
Proof. apply tc_ext, edge_covers. Qed.

Lemma dominates_iff a b : dominates a b = true ↔ below b a.
Proof.
  unfold dominates, below. case_decide as Hab; [subst; done|].
  assert (rtc covers b a ↔ tc covers b a) as ->.
  { rewrite rtc_tc. naive_solver. }
  rewrite <- tc_edge_covers.
  destruct (dfs_find_total covers_of (2 + size cover_targets) b a cover_targets) as [r Hr].
  { intros x ns [= <-] y Hy. apply elem_of_list_to_set.
    apply list_elem_of_fmap in Hy as (p & -> & Hin). apply list_elem_of_fmap.
    exists p. split; [done|]. apply elem_of_elements, elem_of_btree_elems.
    by apply list_elem_of_filter in Hin as [_ ?]. }
  { lia. }
  rewrite Hr. apply dfs_find_sound with (src:=b) in Hr; [|apply dfs_inv_init].
  destruct r as [[]|[]]; naive_solver.
Qed.

Lemma dominates_false a b : dominates a b = false ↔ ¬ below b a.
Proof. rewrite <- dominates_iff. by destruct (dominates a b). Qed.
End lattice.

(** ** Best elements of a list: the common shape of bottom, top, join and meet *)
Section best.
Context {A : Type} (R : A → A → bool).
Definition is_best (l : list A) (x : A) : Prop := x ∈ l ∧ ∀ y, y ∈ l → R x y = true.

Lemma find_best_Some l : (∃ x, is_best l x) → ∃ x, find_first (λ c, forallb (R c) l) l = Some x ∧ is_best l x.
Proof.
  intros [x [Hx Hb]]. destruct (find_first _ l) as [c|] eqn:Hf.
  - apply find_first_Some in Hf as [Hc Hall]. exists c. split; [done|]. split; [done|].
    by apply forallb_true.
  - rewrite find_first_None in Hf. specialize (Hf x Hx). simpl in Hf.
    assert (forallb (R x) l = true) by (by apply forallb_true). congruence.
Qed.

Lemma count_best l :
  NoDup l → (∀ x y, x ∈ l → y ∈ l → R x y = true → R y x = true → x = y) →
  length (filter (λ c, forallb (R c) l) l) = 1 ↔ ∃ x, is_best l x.
Proof.
  intros Hnd Hanti.
  assert (∀ x, x ∈ filter (λ c, forallb (R c) l) l ↔ is_best l x) as Hin.
  { intros x. rewrite list_elem_of_filter, Is_true_true, forallb_true. unfold is_best. naive_solver. }
  assert (NoDup (filter (λ c, forallb (R c) l) l)) as Hndf by by apply NoDup_filter.
  destruct (filter _ l) as [|x [|y k]]; simpl.
  - split; [done|]. intros [x Hx%Hin]. set_solver.
  - split; [|done]. intros _. exists x. apply Hin. by left.
  - split; [done|]. intros _. exfalso.
    apply NoDup_cons in Hndf as [Hnin _]. apply Hnin.
    assert (is_best l x) as [Hx1 Hx2] by (apply Hin; left).
    assert (is_best l y) as [Hy1 Hy2] by (apply Hin; right; left).
    rewrite (Hanti x y); auto; left.
Qed.
End best.

Section bounded.
Context (L : LabelLattice).
Notation below := (below L).

Definition is_lub (a b j : Label) : Prop :=
  j ∈ labels L ∧ below a j ∧ below b j ∧
  ∀ u, u ∈ labels L → below a u → below b u → below j u.
Definition is_glb (a b m : Label) : Prop :=
  m ∈ labels L ∧ below m a ∧ below m b ∧
  ∀ l, l ∈ labels L → below l a → below l b → below l m.
Definition is_bottom (l : Label) : Prop := l ∈ labels L ∧ ∀ x, x ∈ labels L → below l x.
Definition is_top (l : Label) : Prop := l ∈ labels L ∧ ∀ x, x ∈ labels L → below x l.

(** What "bounded lattice" means for a configuration. *)
Record bounded_lattice : Prop := {
  bl_nonempty : labels L ≠ ∅;
  bl_cover lo hi : (lo, hi) ∈ cover L → lo ∈ labels L ∧ hi ∈ labels L;
  bl_antisym a b : a ∈ labels L → b ∈ labels L → below a b → below b a → a = b;
  bl_bottom : ∃ l, is_bottom l;
  bl_top : ∃ l, is_top l;
  bl_join a b : a ∈ labels L → b ∈ labels L → ∃ j, is_lub a b j;
  bl_meet a b : a ∈ labels L → b ∈ labels L → ∃ m, is_glb a b m
}.

Lemma elem_of_label_list x : x ∈ label_list L ↔ x ∈ labels L.
Proof. apply elem_of_btree_elems. Qed.
Lemma NoDup_label_list : NoDup (label_list L).
Proof. apply NoDup_btree_elems. Qed.

Lemma elem_of_upper_bounds a b x :
  x ∈ upper_bounds L a b ↔ x ∈ labels L ∧ below a x ∧ below b x.
Proof.
  unfold upper_bounds.
  rewrite list_elem_of_filter, elem_of_label_list, Is_true_true, andb_true_iff, !dominates_iff.
  naive_solver.
Qed.
Lemma elem_of_lower_bounds a b x :
  x ∈ lower_bounds L a b ↔ x ∈ labels L ∧ below x a ∧ below x b.
Proof.
  unfold lower_bounds.
  rewrite list_elem_of_filter, elem_of_label_list, Is_true_true, andb_true_iff, !dominates_iff.
  naive_solver.
Qed.

(** The four "best element" predicates, read back as order notions. *)
Lemma best_bottom x : is_best (λ l x, dominates L x l) (label_list L) x ↔ is_bottom x.
Proof.
  unfold is_best, is_bottom. setoid_rewrite elem_of_label_list. by setoid_rewrite dominates_iff.
Qed.
Lemma best_top x : is_best (λ l x, dominates L l x) (label_list L) x ↔ is_top x.
Proof.
  unfold is_best, is_top. setoid_rewrite elem_of_label_list. by setoid_rewrite dominates_iff.
Qed.
Lemma best_lub a b x : is_best (λ c o, dominates L o c) (upper_bounds L a b) x ↔ is_lub a b x.
Proof.
  unfold is_best, is_lub. setoid_rewrite elem_of_upper_bounds. setoid_rewrite dominates_iff.
  naive_solver.
Qed.
Lemma best_glb a b x : is_best (λ c o, dominates L c o) (lower_bounds L a b) x ↔ is_glb a b x.
Proof.
  unfold is_best, is_glb. setoid_rewrite elem_of_lower_bounds. setoid_rewrite dominates_iff.
  naive_solver.
Qed.

(** Counting the best elements, given antisymmetry. *)
Definition antisym : Prop :=
  ∀ a b, a ∈ labels L → b ∈ labels L → below a b → below b a → a = b.

Lemma count_best_labels (R : Label → Label → bool) (l : list Label) :
  antisym → NoDup l → (∀ x, x ∈ l → x ∈ labels L) →
  ((∀ x y, R x y = dominates L x y) ∨ (∀ x y, R x y = dominates L y x)) →
  count_where (λ c, forallb (R c) l) l = 1 ↔ ∃ x, is_best R l x.
Proof.
  intros Hanti Hnd Hsub HR. apply count_best; [done|].
  intros x y Hx%Hsub Hy%Hsub Hxy Hyx. apply Hanti; [done..| |];
    apply dominates_iff; destruct HR as [HR|HR]; by rewrite <- HR.
Qed.

Lemma count_bottom : antisym → count_where (λ l, forallb (λ x, dominates L x l) (label_list L)) (label_list L) = 1 ↔ ∃ l, is_bottom l.
Proof.
  intros Ha. setoid_rewrite <- best_bottom.
  apply (count_best_labels (λ l x, dominates L x l)); eauto using NoDup_label_list.
  intros x. apply elem_of_label_list.
Qed.
Lemma count_top : antisym → count_where (λ l, forallb (λ x, dominates L l x) (label_list L)) (label_list L) = 1 ↔ ∃ l, is_top l.
Proof.
  intros Ha. setoid_rewrite <- best_top.
  apply (count_best_labels (λ l x, dominates L l x)); eauto using NoDup_label_list.
  intros x. apply elem_of_label_list.
Qed.
Lemma count_lub a b : antisym → count_where (λ c, forallb (λ o, dominates L o c) (upper_bounds L a b)) (upper_bounds L a b) = 1 ↔ ∃ j, is_lub a b j.
Proof.
  intros Ha. setoid_rewrite <- best_lub.
  apply (count_best_labels (λ c o, dominates L o c)); eauto.
  - apply NoDup_filter, NoDup_label_list.
  - intros x Hx. by apply elem_of_upper_bounds in Hx as [? _].
Qed.
Lemma count_glb a b : antisym → count_where (λ c, forallb (λ o, dominates L c o) (lower_bounds L a b)) (lower_bounds L a b) = 1 ↔ ∃ m, is_glb a b m.
Proof.
  intros Ha. setoid_rewrite <- best_glb.
  apply (count_best_labels (λ c o, dominates L c o)); eauto.
  - apply NoDup_filter, NoDup_label_list.
  - intros x Hx. by apply elem_of_lower_bounds in Hx as [? _].
Qed.

(** The cycle scan of [validate]. *)
Lemma cycle_scan_iff (msg : Label → Label → string) :
  for_each (λ a, for_each (λ b,
    if bool_decide (a ≠ b) && dominates L a b && dominates L b a
    then Err (Storage (msg a b)) else Ok ()) (label_list L)) (label_list L) = Ok () ↔ antisym.
Proof.
  rewrite for_each_Ok. setoid_rewrite for_each_Ok. setoid_rewrite elem_of_label_list.
  setoid_rewrite check_bool_Ok. unfold antisym. split.
  - intros Hs a b Ha Hb Hab Hba. specialize (Hs a Ha b Hb).
    apply dominates_iff in Hab, Hba. rewrite Hab, Hba, !andb_true_r in Hs.
    apply bool_decide_eq_false in Hs. by destruct (decide (a = b)).
  - intros Hs a Ha b Hb. apply not_true_iff_false.
    rewrite !andb_true_iff, bool_decide_eq_true, !dominates_iff. naive_solver.
Qed.

(** The pair scan of [validate]. *)
Lemma pair_scan_iff (jmsg mmsg : Label → Label → string) :
  antisym →
  for_each (λ a, for_each (λ b,
    if decide (count_where (λ c, forallb (λ o, dominates L o c) (upper_bounds L a b)) (upper_bounds L a b) ≠ 1)
    then Err (Storage (jmsg a b)) else
    if decide (count_where (λ c, forallb (λ o, dominates L c o) (lower_bounds L a b)) (lower_bounds L a b) ≠ 1)
    then Err (Storage (mmsg a b)) else Ok ()) (label_list L)) (label_list L) = Ok () ↔
  ∀ a b, a ∈ labels L → b ∈ labels L → (∃ j, is_lub a b j) ∧ ∃ m, is_glb a b m.
Proof.
  intros Ha. rewrite for_each_Ok. setoid_rewrite for_each_Ok. setoid_rewrite elem_of_label_list.
  setoid_rewrite guard_neg_Ok. setoid_rewrite guard_neg_Ok.
  split.
  - intros Hs a b Hla Hlb. destruct (Hs a Hla b Hlb) as (? & ? & _).
    by rewrite <- count_lub, <- count_glb.
  - intros Hs a Hla b Hlb. destruct (Hs a b Hla Hlb) as [??].
    by rewrite count_lub, count_glb.
Qed.

Lemma validate_iff : validate L = Ok () ↔ bounded_lattice.
Proof.
  unfold validate. rewrite guard_Ok, !bind_unit_Ok, for_each_Ok, cycle_scan_iff.
  rewrite !guard_neg_Ok. split.
  - intros (Hne & Hcov & Hanti & Hb & Ht & Hpairs).
    rewrite pair_scan_iff in Hpairs by done. rewrite count_bottom in Hb by done.
    rewrite count_top in Ht by done. split; [done| |done|done|done|apply Hpairs|apply Hpairs].
    intros lo hi Hin. assert ((lo, hi) ∈ btree_elems (cover L)) as Hin' by by apply elem_of_btree_elems.
    by apply Hcov, check_Ok in Hin' as [[??] _].
  - intros [Hne Hcov Hanti Hb Ht Hj Hm]. split_and!; [done| |done| | |].
    + intros [lo hi] Hin%elem_of_btree_elems. apply check_Ok. split; [|done]. by apply Hcov.
    + by apply count_bottom.
    + by apply count_top.
    + apply pair_scan_iff; auto.
Qed.

(** ** What the operations compute on a bounded lattice *)
Hypothesis HL : bounded_lattice.

Lemma bottom_spec : is_bottom (bottom L).
Proof.
  destruct (find_best_Some (λ l x, dominates L x l) (label_list L)) as (x & Hf & Hx).
  { destruct (bl_bottom HL) as [l Hl]. exists l. by apply best_bottom. }
  unfold bottom. rewrite Hf. simpl. by apply best_bottom.
Qed.
Lemma top_spec : is_top (top L).
Proof.
  destruct (find_best_Some (λ l x, dominates L l x) (label_list L)) as (x & Hf & Hx).
  { destruct (bl_top HL) as [l Hl]. exists l. by apply best_top. }
  unfold top. rewrite Hf. simpl. by apply best_top.
Qed.
Lemma join_spec a b : a ∈ labels L → b ∈ labels L → is_lub a b (join L a b).
Proof.
  intros Ha Hb.
  destruct (find_best_Some (λ c o, dominates L o c) (upper_bounds L a b)) as (x & Hf & Hx).
  { destruct (bl_join HL a b) as [j Hj]; [done..|]. exists j. by apply best_lub. }
  unfold join. rewrite Hf. simpl. by apply best_lub.
Qed.
Lemma meet_spec a b : a ∈ labels L → b ∈ labels L → is_glb a b (meet L a b).
Proof.
  intros Ha Hb.
  destruct (find_best_Some (λ c o, dominates L c o) (lower_bounds L a b)) as (x & Hf & Hx).
  { destruct (bl_meet HL a b) as [j Hj]; [done..|]. exists j. by apply best_glb. }
  unfold meet. rewrite Hf. simpl. by apply best_glb.
Qed.
End bounded.

(** *** Consequences used by the access rules *)
Section facts.
Context (L : LabelLattice).

Lemma dominates_refl a : dominates L a a = true.
Proof. by apply dominates_iff. Qed.

Lemma dominates_trans a b c : dominates L a b = true → dominates L b c = true → dominates L a c = true.
Proof. rewrite !dominates_iff. unfold below. intros. by etrans. Qed.

Lemma strictly_dominates_iff a b :
  strictly_dominates L a b = true ↔ a ≠ b ∧ dominates L a b = true.
Proof. unfold strictly_dominates. by rewrite andb_true_iff, bool_decide_eq_true. Qed.

Context (HL : bounded_lattice L).

Lemma below_labels a b : below L a b → a = b ∨ (a ∈ labels L ∧ b ∈ labels L).
Proof.
  induction 1 as [|a b c Hab Hbc IH]; [by left|]. right.
  destruct (bl_cover _ HL _ _ Hab). naive_solver.
Qed.

Lemma join_comm_labels a b : a ∈ labels L → b ∈ labels L → join L a b = join L b a.
Proof.
  intros Ha Hb. destruct (join_spec L HL a b) as (? & ? & ? & Hl1); [done..|].
  destruct (join_spec L HL b a) as (? & ? & ? & Hl2); [done..|].
  apply (bl_antisym _ HL); auto.
Qed.

(** A label the lattice does not know joins to the top: unknown is most
    protected. *)
Lemma join_unknown a x : x ∉ labels L → join L a x = top L.
Proof.
  intros Hx. unfold join. destruct (upper_bounds L a x) as [|u us] eqn:Hu; [done|].
  assert (u ∈ upper_bounds L a x) as (? & _ & Hxu)%elem_of_upper_bounds by (rewrite Hu; left).
  apply below_labels in Hxu as [->|[? _]]; done.
Qed.

Lemma join_top_l b : b ∈ labels L → join L (top L) b = top L.
Proof.
  intros Hb. destruct (top_spec L HL) as [Ht Htop].
  destruct (join_spec L HL (top L) b) as (? & ? & ? & ?); [done..|].
  apply (bl_antisym _ HL); auto.
Qed.

Lemma join_bottom_l b : b ∈ labels L → join L (bottom L) b = b.
Proof.
  intros Hb. destruct (bottom_spec L HL) as [Ht Hbot].
  destruct (join_spec L HL (bottom L) b) as (? & ? & ? & Hl); [done..|].
  apply (bl_antisym _ HL); auto. apply Hl; [done|by apply Hbot|reflexivity].
Qed.
End facts.

(** ** Properties *)

(** [dominates] decides reachability over the cover edges: the search with
    its [seen] set terminates on every (even cyclic) configuration and answers
    true exactly when the first label is reached upwards from the second. *)
Theorem dominates_reachability (L : LabelLattice) (a b : Label) :
  dominates L a b = true ↔ rtc (λ lo hi, (lo, hi) ∈ cover L) b a.
Proof. apply dominates_iff. Qed.

(** [validate] accepts a configuration exactly when it is a bounded
    lattice: nonempty, edges between known labels, antisymmetric, with a least
    and a greatest label, and a join and a meet of every pair. *)
Theorem validate_bounded_lattice (L : LabelLattice) :
  validate L = Ok () ↔ bounded_lattice L.
Proof. apply validate_iff. Qed.

(** On every configuration that passes [validate], [bottom]/[top] are the
    least and greatest labels, and [join]/[meet] of known labels are their least
    upper and greatest lower bounds (the fallbacks are never taken). *)
Theorem validated_lattice_ops (L : LabelLattice) :
  validate L = Ok () →
  is_bottom L (bottom L) ∧ is_top L (top L) ∧
  ∀ a b, a ∈ labels L → b ∈ labels L →
    is_lub L a b (join L a b) ∧ is_glb L a b (meet L a b).
Proof.
  intros HL%validate_iff. split_and!; [by apply bottom_spec|by apply top_spec|].
  intros a b Ha Hb. split; [by apply join_spec|by apply meet_spec].
Qed.

(** The diamond: two incomparable labels between a bottom and a top. *)
Definition diamond : LabelLattice :=
  lattice_new ["bottom"; "a"; "b"; "top"]
    [("bottom", "a"); ("bottom", "b"); ("a", "top"); ("b", "top")].

Example diamond_ops :
  validate diamond = Ok () ∧ join diamond "a" "b" = "top" ∧ meet diamond "a" "b" = "bottom" ∧
  validate (lattice_new ["a"; "b"] [("a", "b"); ("b", "a")]) ≠ Ok () ∧
  validate (lattice_new ["bottom"; "a"; "b"] [("bottom", "a"); ("bottom", "b")]) ≠ Ok ().
Proof. vm_compute. split_and!; done. Qed.

Lemma validated_lattice_ops_witness :
  validate diamond = Ok () ∧
  is_bottom diamond (bottom diamond) ∧ is_top diamond (top diamond) ∧
  ∀ a b, a ∈ labels diamond → b ∈ labels diamond →
    is_lub diamond a b (join diamond a b) ∧ is_glb diamond a b (meet diamond a b).
Proof. split; [vm_compute; reflexivity|]. apply (validated_lattice_ops diamond). vm_compute; reflexivity. Defined.
