(* ===== verification/Access.v ===== *)
(** * Access: label rules, clearances and the accessor

    [src/src/acl/clearance.rs], [src/src/acl/rules.rs] and the [Accessor] part of
    [src/src/acl/mod.rs]: which label a resource carries, which capabilities an
    actor holds over which labels and resources, the [can_read]/[can_write]
    decisions and their explanation trace. *)

From S2P Require Import Prelude Glob Lattice.

(** ** Clearances (clearance.rs) *)

(** The [bitflags] over [u8]. *)
Definition Capability : Type := N.
Definition READ : Capability := 1%N.
Definition WRITE : Capability := 2%N.
(** [self.contains(other)] *)
Definition cap_contains (self other : Capability) : bool := (N.land self other =? other)%N.

#[global] Arguments cap_contains : simpl never.

Inductive ClearanceScope : Type :=
| ScopePath (glob : string)
| ScopeTimeline (pattern : string)
| ScopeSecret (name : string).

Record Clearance : Type := MkClearance {
  ceiling : Label;
  cap : Capability;
  scope : option ClearanceScope
}.

Record ClearanceSet : Type := MkClearanceSet {
  clearances : list Clearance;
  confined : bool
}.
Definition ClearanceSet_default : ClearanceSet := {| clearances := []; confined := false |}.

(** ** Rules (rules.rs) *)
Inductive LabelRule : Type :=
| RulePath (glob : string) (label : Label)
| RuleTimeline (pattern : string) (label : Label)
| RuleSecret (name : string) (label : Label).

Record LabelRuleSet : Type := MkRuleSet { rules : list LabelRule }.
Definition LabelRuleSet_default : LabelRuleSet := {| rules := [] |}.

#[global] Instance ClearanceScope_eq_dec : EqDecision ClearanceScope.
Proof. solve_decision. Defined.
#[global] Instance Clearance_eq_dec : EqDecision Clearance.
Proof. solve_decision. Defined.
#[global] Instance ClearanceSet_eq_dec : EqDecision ClearanceSet.
Proof. solve_decision. Defined.
#[global] Instance LabelRule_eq_dec : EqDecision LabelRule.
Proof. solve_decision. Defined.
#[global] Instance LabelRuleSet_eq_dec : EqDecision LabelRuleSet.
Proof. solve_decision. Defined.

Definition label_for_path (rs : LabelRuleSet) (lattice : LabelLattice) (path : string) : Label :=
  foldl (λ acc rule,
    match rule with
    | RulePath glob label => if glob_matches glob path then join lattice acc label else acc
    | _ => acc
    end) (bottom lattice) (rules rs).

Definition label_for_timeline (rs : LabelRuleSet) (lattice : LabelLattice) (name : string) : Label :=
  foldl (λ acc rule,
    match rule with
    | RuleTimeline pattern label => if glob_matches pattern name then join lattice acc label else acc
    | _ => acc
    end) (bottom lattice) (rules rs).

Definition label_for_secret (rs : LabelRuleSet) (lattice : LabelLattice) (name : string) : Label :=
  foldl (λ acc rule,
    match rule with
    | RuleSecret rname label => if glob_matches rname name then join lattice acc label else acc
    | _ => acc
    end) (bottom lattice) (rules rs).

(** ** The accessor (mod.rs) *)
Inductive Permission : Type := PermRead | PermWrite.

Definition capability_of (p : Permission) : Capability :=
  match p with PermRead => READ | PermWrite => WRITE end.

Record PathRole : Type := MkPathRole { pr_glob : string; pr_permission : Permission }.
Record TimelineRole : Type := MkTimelineRole { tr_pattern : string; tr_permission : Permission }.

Inductive ResourceRef : Type :=
| ResPath (p : string)
| ResTimeline (t : string)
| ResSecret (n : string).

Definition scope_applies (scope : option ClearanceScope) (r : ResourceRef) : bool :=
  match scope, r with
  | None, _ => true
  | Some (ScopePath g), ResPath p => glob_matches g p
  | Some (ScopeTimeline g), ResTimeline t => glob_matches g t
  | Some (ScopeSecret s), ResSecret n => glob_matches s n
  | _, _ => false
  end.

Definition render_scope (scope : option ClearanceScope) : option string :=
  match scope with
  | None => None
  | Some (ScopePath g) => Some ("path:" +:+ g)
  | Some (ScopeTimeline g) => Some ("timeline:" +:+ g)
  | Some (ScopeSecret g) => Some ("secret:" +:+ g)
  end.

Record ClearanceEval : Type := MkEval {
  ev_ceiling : Label;
  ev_scope : option string;
  ev_scope_applies : bool;
  ev_grants_capability : bool;
  ev_dominates : bool;
  ev_strictly_dominates : bool;
  ev_decisive : bool
}.

Record CapabilityTrace : Type := MkTrace {
  ct_allowed : bool;
  ct_confined_write_down_block : bool;
  ct_clearances : list ClearanceEval
}.

Record Accessor : Type := MkAccessor {
  acc_lattice : LabelLattice;
  acc_rules : LabelRuleSet;
  acc_clearances : ClearanceSet;
  acc_actor : option string
}.

(** [Accessor::new] / [Default]. *)
Definition accessor_new : Accessor :=
  {| acc_lattice := two_point; acc_rules := LabelRuleSet_default;
     acc_clearances := ClearanceSet_default; acc_actor := None |}.

Definition accessor_from_parts (lattice : LabelLattice) (rules : LabelRuleSet)
    (clearances : ClearanceSet) : Accessor :=
  {| acc_lattice := lattice; acc_rules := rules; acc_clearances := clearances; acc_actor := None |}.

Definition with_actor (a : Accessor) (actor : string) : Accessor :=
  {| acc_lattice := acc_lattice a; acc_rules := acc_rules a;
     acc_clearances := acc_clearances a; acc_actor := Some actor |}.

(** Pushes one rule and one clearance. *)
Definition with_rule_and_clearance (a : Accessor) (rule : LabelRule) (c : Clearance) : Accessor :=
  {| acc_lattice := acc_lattice a;
     acc_rules := {| rules := rules (acc_rules a) ++ [rule] |};
     acc_clearances := {| clearances := clearances (acc_clearances a) ++ [c];
                          confined := confined (acc_clearances a) |};
     acc_actor := acc_actor a |}.

Definition with_path_role (a : Accessor) (role : PathRole) : Accessor :=
  with_rule_and_clearance a (RulePath (pr_glob role) PROTECTED)
    {| ceiling := PROTECTED; cap := capability_of (pr_permission role);
       scope := Some (ScopePath (pr_glob role)) |}.

Definition with_timeline_role (a : Accessor) (role : TimelineRole) : Accessor :=
  with_rule_and_clearance a (RuleTimeline (tr_pattern role) PROTECTED)
    {| ceiling := PROTECTED; cap := capability_of (tr_permission role);
       scope := Some (ScopeTimeline (tr_pattern role)) |}.

Definition privileged : Accessor :=
  {| acc_lattice := two_point; acc_rules := LabelRuleSet_default;
     acc_clearances := {| clearances := [{| ceiling := top two_point; cap := READ; scope := None |}];
                          confined := false |};
     acc_actor := None |}.

Definition has_write_capability (a : Accessor) : bool :=
  existsb (λ c, cap_contains (cap c) WRITE) (clearances (acc_clearances a)).

Definition can_read (a : Accessor) (label : Label) (r : ResourceRef) : bool :=
  existsb (λ c, cap_contains (cap c) READ && scope_applies (scope c) r
                && dominates (acc_lattice a) (ceiling c) label)
    (clearances (acc_clearances a)).

Definition can_write (a : Accessor) (label : Label) (r : ResourceRef) : bool :=
  let dominated :=
    existsb (λ c, cap_contains (cap c) WRITE && scope_applies (scope c) r
                  && dominates (acc_lattice a) (ceiling c) label)
      (clearances (acc_clearances a)) in
  if negb dominated then false
  else if confined (acc_clearances a) then
    let at_level :=
      existsb (λ c, cap_contains (cap c) WRITE && scope_applies (scope c) r
                    && dominates (acc_lattice a) (ceiling c) label
                    && negb (strictly_dominates (acc_lattice a) (ceiling c) label))
        (clearances (acc_clearances a)) in
    if negb at_level then false else true
  else true.

Definition can_read_path (a : Accessor) (path : string) : bool :=
  can_read a (label_for_path (acc_rules a) (acc_lattice a) path) (ResPath path).
Definition can_write_path (a : Accessor) (path : string) : bool :=
  can_write a (label_for_path (acc_rules a) (acc_lattice a) path) (ResPath path).
Definition can_read_timeline (a : Accessor) (name : string) : bool :=
  can_read a (label_for_timeline (acc_rules a) (acc_lattice a) name) (ResTimeline name).
Definition can_write_timeline (a : Accessor) (name : string) : bool :=
  can_write a (label_for_timeline (acc_rules a) (acc_lattice a) name) (ResTimeline name).
Definition can_read_secret (a : Accessor) (name : string) : bool :=
  can_read a (label_for_secret (acc_rules a) (acc_lattice a) name) (ResSecret name).

(** The closure mapped over the clearances in [eval_cap]. *)
Definition eval_clearance (a : Accessor) (label : Label) (r : ResourceRef) (request : Capability)
    (c : Clearance) : ClearanceEval :=
  {| ev_ceiling := ceiling c;
     ev_scope := render_scope (scope c);
     ev_scope_applies := scope_applies (scope c) r;
     ev_grants_capability := cap_contains (cap c) request;
     ev_dominates := dominates (acc_lattice a) (ceiling c) label;
     ev_strictly_dominates := strictly_dominates (acc_lattice a) (ceiling c) label;
     ev_decisive := false |}.

Definition ev_qualifies (e : ClearanceEval) : bool :=
  ev_grants_capability e && ev_scope_applies e && ev_dominates e.

Definition set_decisive (e : ClearanceEval) : ClearanceEval :=
  {| ev_ceiling := ev_ceiling e; ev_scope := ev_scope e; ev_scope_applies := ev_scope_applies e;
     ev_grants_capability := ev_grants_capability e; ev_dominates := ev_dominates e;
     ev_strictly_dominates := ev_strictly_dominates e; ev_decisive := true |}.

(** [if let Some(e) = evals.iter_mut().find(qualifies) { e.decisive = true }] *)
Fixpoint mark_decisive (evals : list ClearanceEval) : list ClearanceEval :=
  match evals with
  | [] => []
  | e :: evals => if ev_qualifies e then set_decisive e :: evals else e :: mark_decisive evals
  end.

Definition eval_cap (a : Accessor) (label : Label) (r : ResourceRef) (request : Capability) : CapabilityTrace :=
  let evals := map (eval_clearance a label r request) (clearances (acc_clearances a)) in
  let dominated := existsb ev_qualifies evals in
  let '(allowed, block) :=
    if negb dominated then (false, false)
    else if cap_contains request WRITE && confined (acc_clearances a) then
      let at_level := existsb (λ e, ev_qualifies e && negb (ev_strictly_dominates e)) evals in
      if negb at_level then (false, true) else (true, false)
    else (true, false) in
  {| ct_allowed := allowed;
     ct_confined_write_down_block := block;
     ct_clearances := if allowed then mark_decisive evals else evals |}.

Definition explain (a : Accessor) (label : Label) (r : ResourceRef) : CapabilityTrace * CapabilityTrace :=
  (eval_cap a label r READ, eval_cap a label r WRITE).

(** ** Effective labels are joins of the matching rules *)

(** The label a rule gives a resource, if it matches. *)
Definition path_match (path : string) (rule : LabelRule) : option Label :=
  match rule with RulePath g l => if glob_matches g path then Some l else None | _ => None end.
Definition timeline_match (name : string) (rule : LabelRule) : option Label :=
  match rule with RuleTimeline g l => if glob_matches g name then Some l else None | _ => None end.
Definition secret_match (name : string) (rule : LabelRule) : option Label :=
  match rule with RuleSecret g l => if glob_matches g name then Some l else None | _ => None end.

(** The labels of the rules that match, in rule order. *)
Definition path_labels (rs : LabelRuleSet) (path : string) : list Label :=
  omap (path_match path) (rules rs).
Definition timeline_labels (rs : LabelRuleSet) (name : string) : list Label :=
  omap (timeline_match name) (rules rs).
Definition secret_labels (rs : LabelRuleSet) (name : string) : list Label :=
  omap (secret_match name) (rules rs).

Definition join_all (L : LabelLattice) (ls : list Label) : Label := foldl (join L) (bottom L) ls.

Lemma foldl_join_omap (L : LabelLattice) (f : LabelRule → option Label)
    (step : Label → LabelRule → Label) acc rs :
  (∀ acc rule, step acc rule = match f rule with Some l => join L acc l | None => acc end) →
  foldl step acc rs = foldl (join L) acc (omap f rs).
Proof.
  intros Hstep. revert acc. induction rs as [|rule rs IH]; intros acc; simpl; [done|].
  rewrite IH, Hstep. by destruct (f rule).
Qed.

Ltac solve_label_join f :=
  refine (foldl_join_omap _ f _ _ _ _);
  intros acc [g l|g l|g l]; simpl; try reflexivity; match goal with
  | |- context [glob_matches ?g ?x] => destruct (glob_matches g x); reflexivity
  end.

Lemma label_for_path_join rs L path : label_for_path rs L path = join_all L (path_labels rs path).
Proof. solve_label_join (path_match path). Qed.
Lemma label_for_timeline_join rs L name :
  label_for_timeline rs L name = join_all L (timeline_labels rs name).
Proof. solve_label_join (timeline_match name). Qed.
Lemma label_for_secret_join rs L name :
  label_for_secret rs L name = join_all L (secret_labels rs name).
Proof. solve_label_join (secret_match name). Qed.

(** [j] is the least upper bound of the labels in [ls]. *)
Definition is_join_of (L : LabelLattice) (ls : list Label) (j : Label) : Prop :=
  j ∈ labels L ∧ (∀ l, l ∈ ls → dominates L j l = true) ∧
  ∀ u, u ∈ labels L → (∀ l, l ∈ ls → dominates L u l = true) → dominates L u j = true.

Section joins.
Context (L : LabelLattice) (HL : bounded_lattice L).

Lemma foldl_join_spec acc ls :
  acc ∈ labels L → (∀ l, l ∈ ls → l ∈ labels L) →
  let j := foldl (join L) acc ls in
  j ∈ labels L ∧ below L acc j ∧ (∀ l, l ∈ ls → below L l j) ∧
  ∀ u, u ∈ labels L → below L acc u → (∀ l, l ∈ ls → below L l u) → below L j u.
Proof.
  revert acc. induction ls as [|l ls IH]; intros acc Hacc Hls; simpl.
  { split_and!; [done|reflexivity|set_solver|auto]. }
  destruct (join_spec L HL acc l) as (Hj & Haj & Hlj & Hleast); [done|apply Hls; by left|].
  destruct (IH (join L acc l)) as (? & Hup & Hall & Hl); [done|intros; apply Hls; by right|].
  split_and!; [done|by etrans| |].
  - intros l' [->|?]%elem_of_cons; [by etrans|by apply Hall].
  - intros u Hu Hau Hlu. apply Hl; [done| |intros; apply Hlu; by right].
    apply Hleast; [done..|]. apply Hlu. by left.
Qed.

Lemma join_all_spec ls : (∀ l, l ∈ ls → l ∈ labels L) → is_join_of L ls (join_all L ls).
Proof.
  intros Hls. destruct (bottom_spec L HL) as [Hb Hbot].
  destruct (foldl_join_spec (bottom L) ls) as (? & _ & Hup & Hl); [done..|].
  split; [done|]. split.
  - intros l ?. by apply dominates_iff, Hup.
  - intros u Hu Hall. apply dominates_iff, Hl; [done|by apply Hbot|].
    intros l ?. by apply dominates_iff, Hall.
Qed.

Lemma foldl_join_top ls : foldl (join L) (top L) ls = top L.
Proof.
  induction ls as [|l ls IH]; simpl; [done|].
  destruct (decide (l ∈ labels L)); [by rewrite join_top_l | by rewrite join_unknown].
Qed.

(** A matching rule whose label is unknown makes the resource top-labelled. *)
Lemma foldl_join_unknown acc ls l : l ∈ ls → l ∉ labels L → foldl (join L) acc ls = top L.
Proof.
  revert acc. induction ls as [|l' ls IH]; intros acc Hin Hl; simpl; [by apply not_elem_of_nil in Hin|].
  apply elem_of_cons in Hin as [<-|Hin]; [|by apply IH].
  by rewrite join_unknown, foldl_join_top.
Qed.

Lemma label_for_path_dominates rs path g l :
  RulePath g l ∈ rules rs → glob_matches g path = true →
  dominates L (label_for_path rs L path) l = true ∨ label_for_path rs L path = top L.
Proof.
  intros Hin Hg. rewrite label_for_path_join.
  assert (l ∈ path_labels rs path) as Hl.
  { apply list_elem_of_omap. exists (RulePath g l). split; [done|]. simpl. by rewrite Hg. }
  destruct (decide (Exists (λ x, x ∉ labels L) (path_labels rs path))) as [Hex|Hno].
  - right. apply Exists_exists in Hex as (x & ? & ?). by eapply foldl_join_unknown.
  - left. apply join_all_spec; [|done]. intros x Hx. destruct (decide (x ∈ labels L)); [done|].
    exfalso. apply Hno, Exists_exists. eauto.
Qed.
End joins.

(** ** Decisions *)
Section decisions.
Context (a : Accessor).
Notation cs := (clearances (acc_clearances a)).
Notation dom := (dominates (acc_lattice a)).

(** A clearance that carries the capability, covers the resource and dominates
    the label. *)
Definition qualifies (request : Capability) (label : Label) (r : ResourceRef) (c : Clearance) : Prop :=
  cap_contains (cap c) request = true ∧ scope_applies (scope c) r = true ∧ dom (ceiling c) label = true.

Lemma can_read_iff label r : can_read a label r = true ↔ ∃ c, c ∈ cs ∧ qualifies READ label r c.
Proof.
  unfold can_read, qualifies. rewrite existsb_true. setoid_rewrite andb_true_iff.
  setoid_rewrite andb_true_iff. naive_solver.
Qed.

Lemma can_write_iff label r :
  can_write a label r = true ↔
  ∃ c, c ∈ cs ∧ qualifies WRITE label r c ∧ (confined (acc_clearances a) = true → ceiling c = label).
Proof.
  unfold can_write, qualifies.
  destruct (existsb _ cs) eqn:Hd; simpl.
  2:{ split; [done|]. intros (c & Hc & (H1 & H2 & H3) & _).
      assert (false = true) as []%diff_false_true. rewrite <- Hd. apply existsb_true. exists c.
      by rewrite H1, H2, H3. }
  apply existsb_true in Hd as (c & Hc & [[H1 H2]%andb_true_iff H3]%andb_true_iff).
  destruct (confined (acc_clearances a)).
  2:{ split; [|done]. intros _. exists c. done. }
  destruct (existsb _ cs) eqn:Hl; simpl.
  - split; [intros _|done].
    apply existsb_true in Hl as (c' & Hc' & [[[??]%andb_true_iff Hdom]%andb_true_iff Hns]%andb_true_iff).
    exists c'. split; [done|]. split; [done|]. intros _.
    apply negb_true_iff in Hns. destruct (decide (ceiling c' = label)) as [|Hne]; [done|].
    assert (strictly_dominates (acc_lattice a) (ceiling c') label = true) by
      (by apply strictly_dominates_iff). congruence.
  - split; [done|]. intros (c' & Hc' & (H1' & H2' & H3') & Heq). specialize (Heq eq_refl).
    assert (false = true) as []%diff_false_true. rewrite <- Hl. apply existsb_true. exists c'.
    split; [done|]. rewrite H1', H2', H3'. simpl. apply negb_true_iff.
    apply not_true_iff_false. rewrite strictly_dominates_iff. naive_solver.
Qed.

(** The trace reports the enforced verdicts. *)
Lemma existsb_map {A B} (f : A → B) (p : B → bool) l : existsb p (map f l) = existsb (λ x, p (f x)) l.
Proof. induction l as [|x l IH]; simpl; [done|]. by rewrite IH. Qed.

Lemma eval_cap_read label r : ct_allowed (eval_cap a label r READ) = can_read a label r.
Proof.
  unfold eval_cap, can_read. rewrite existsb_map.
  change (cap_contains READ WRITE) with false. simpl.
  by destruct (existsb _ cs).
Qed.

Lemma eval_cap_write label r : ct_allowed (eval_cap a label r WRITE) = can_write a label r.
Proof.
  unfold eval_cap, can_write. rewrite !existsb_map.
  change (cap_contains WRITE WRITE) with true. simpl.
  destruct (existsb _ cs); simpl; [|done].
  destruct (confined (acc_clearances a)); simpl; [|done].
  by destruct (existsb _ cs).
Qed.

Lemma eval_cap_block label r :
  ct_confined_write_down_block (eval_cap a label r WRITE) = true ↔
  confined (acc_clearances a) = true ∧ can_write a label r = false ∧
  ∃ c, c ∈ cs ∧ qualifies WRITE label r c.
Proof.
  rewrite <- eval_cap_write. unfold eval_cap.
  assert (existsb ev_qualifies (map (eval_clearance a label r WRITE) cs) = true ↔
          ∃ c, c ∈ cs ∧ qualifies WRITE label r c) as <-.
  { rewrite existsb_map, existsb_true. unfold ev_qualifies, qualifies. simpl.
    setoid_rewrite andb_true_iff. setoid_rewrite andb_true_iff. naive_solver. }
  change (cap_contains WRITE WRITE) with true.
  destruct (existsb ev_qualifies _), (confined (acc_clearances a)), (existsb _ _); simpl; naive_solver.
Qed.

(** Exactly one evaluation is decisive on a grant, none on a denial. *)
Lemma mark_decisive_filter evals :
  (∀ e, e ∈ evals → ev_decisive e = false) → existsb ev_qualifies evals = true →
  ∃ e, e ∈ evals ∧ ev_qualifies e = true ∧ filter ev_decisive (mark_decisive evals) = [set_decisive e].
Proof.
  induction evals as [|e evals IH]; simpl; intros Hall Hex; [done|].
  assert (filter ev_decisive evals = []) as Hnil.
  { apply filter_none. intros x Hx. rewrite (Hall x); [by intros []|by right]. }
  destruct (ev_qualifies e) eqn:Hq.
  - exists e. split_and!; [by left|done|]. rewrite filter_cons_True by done. by rewrite Hnil.
  - destruct IH as (e' & ? & ? & Hf); [intros; apply Hall; by right|done|].
    exists e'. split_and!; [by right|done|].
    rewrite filter_cons_False; [done|]. rewrite (Hall e); [by intros []|by left].
Qed.

Lemma eval_cap_decisive label r request :
  if ct_allowed (eval_cap a label r request)
  then ∃ e, ev_qualifies e = true ∧
         filter ev_decisive (ct_clearances (eval_cap a label r request)) = [e]
  else filter ev_decisive (ct_clearances (eval_cap a label r request)) = [].
Proof.
  unfold eval_cap. set (evals := map (eval_clearance a label r request) cs).
  assert (∀ e, e ∈ evals → ev_decisive e = false) as Hnd.
  { intros e He. apply (list_elem_of_fmap (eval_clearance a label r request)) in He as (c & -> & _). done. }
  assert (filter ev_decisive evals = []) as Hnil.
  { apply filter_none. intros x Hx. rewrite (Hnd x Hx). by intros []. }
  destruct (existsb ev_qualifies evals) eqn:Hex; simpl; [|done].
  destruct (mark_decisive_filter evals Hnd Hex) as (e & _ & Hq & Hf).
  destruct (cap_contains request WRITE && confined (acc_clearances a)); simpl; [|by exists (set_decisive e)].
  set (at_level := existsb (λ e, ev_qualifies e && negb (ev_strictly_dominates e)) evals).
  destruct at_level; simpl; [by exists (set_decisive e)|done].
Qed.
End decisions.

(** Reads are downward closed; so are writes of an unconfined actor. *)
Lemma can_read_down a l l' r :
  dominates (acc_lattice a) l l' = true → can_read a l r = true → can_read a l' r = true.
Proof.
  intros Hd. rewrite !can_read_iff. intros (c & ? & ? & ? & ?). exists c. split; [done|].
  split_and!; [done|done|]. by eapply dominates_trans.
Qed.

(** ** The legacy glob roles, lowered into clearances *)
Definition role : Type := PathRole + TimelineRole.
Definition with_role (a : Accessor) (x : role) : Accessor :=
  match x with inl pr => with_path_role a pr | inr tr => with_timeline_role a tr end.
(** [Accessor::new().with_..().with_..()] *)
Definition with_roles (l : list role) : Accessor := foldl with_role accessor_new l.

Definition role_clearance (x : role) : Clearance :=
  match x with
  | inl pr => {| ceiling := PROTECTED; cap := capability_of (pr_permission pr);
                 scope := Some (ScopePath (pr_glob pr)) |}
  | inr tr => {| ceiling := PROTECTED; cap := capability_of (tr_permission tr);
                 scope := Some (ScopeTimeline (tr_pattern tr)) |}
  end.
Definition role_rule (x : role) : LabelRule :=
  match x with
  | inl pr => RulePath (pr_glob pr) PROTECTED
  | inr tr => RuleTimeline (tr_pattern tr) PROTECTED
  end.

Lemma with_role_rule_clearance a x :
  with_role a x = with_rule_and_clearance a (role_rule x) (role_clearance x).
Proof. by destruct x. Qed.

Lemma with_roles_shape l :
  acc_lattice (with_roles l) = two_point ∧
  rules (acc_rules (with_roles l)) = map role_rule l ∧
  clearances (acc_clearances (with_roles l)) = map role_clearance l ∧
  confined (acc_clearances (with_roles l)) = false.
Proof.
  unfold with_roles.
  assert (∀ a, acc_lattice a = two_point → confined (acc_clearances a) = false →
    acc_lattice (foldl with_role a l) = two_point ∧
    rules (acc_rules (foldl with_role a l)) = rules (acc_rules a) ++ map role_rule l ∧
    clearances (acc_clearances (foldl with_role a l)) =
      clearances (acc_clearances a) ++ map role_clearance l ∧
    confined (acc_clearances (foldl with_role a l)) = false) as Hgen; [|by apply Hgen].
  induction l as [|x l IH]; intros a Ha Hc; simpl; [by rewrite !app_nil_r|].
  rewrite with_role_rule_clearance.
  destruct (IH (with_rule_and_clearance a (role_rule x) (role_clearance x))) as (? & -> & -> & ?);
    [done..|]. simpl. by rewrite <- !(assoc_L (++)).
Qed.

(** Every label of the two-point lattice is below [PROTECTED]. *)
Lemma two_point_bounded : bounded_lattice two_point.
Proof. apply validate_iff. vm_compute. reflexivity. Qed.

Lemma two_point_join_protected ls :
  (∀ l, l ∈ ls → l = PROTECTED) → dominates two_point PROTECTED (join_all two_point ls) = true.
Proof.
  intros Hls. assert (PROTECTED ∈ labels two_point) as Hp by (apply (bool_decide_unpack _); vm_compute; exact I).
  apply (join_all_spec two_point two_point_bounded ls); [|done|].
  - by intros l ->%Hls.
  - intros l ->%Hls. apply dominates_refl.
Qed.

Lemma with_roles_path_label l path :
  dominates two_point PROTECTED (label_for_path (acc_rules (with_roles l)) two_point path) = true.
Proof.
  rewrite label_for_path_join. apply two_point_join_protected. unfold path_labels.
  destruct (with_roles_shape l) as (_ & -> & _ & _).
  intros x (rule & (y & -> & _)%list_elem_of_fmap & Hm)%list_elem_of_omap.
  destruct y as [pr|tr]; simpl in Hm; [|done]. by case_match; simplify_eq.
Qed.

Lemma with_roles_timeline_label l name :
  dominates two_point PROTECTED (label_for_timeline (acc_rules (with_roles l)) two_point name) = true.
Proof.
  rewrite label_for_timeline_join. apply two_point_join_protected. unfold timeline_labels.
  destruct (with_roles_shape l) as (_ & -> & _ & _).
  intros x (rule & (y & -> & _)%list_elem_of_fmap & Hm)%list_elem_of_omap.
  destruct y as [pr|tr]; simpl in Hm; [done|]. by case_match; simplify_eq.
Qed.

(** A role's clearance qualifies exactly when its permission and scope fit. *)
Lemma with_roles_qualifies l request label r :
  dominates two_point PROTECTED label = true →
  (∃ c, c ∈ clearances (acc_clearances (with_roles l)) ∧ qualifies (with_roles l) request label r c) ↔
  ∃ x, x ∈ l ∧ cap_contains (cap (role_clearance x)) request = true ∧
       scope_applies (scope (role_clearance x)) r = true.
Proof.
  intros Hdom. destruct (with_roles_shape l) as (HL & _ & -> & _). unfold qualifies. rewrite HL.
  split.
  - intros (c & (x & -> & ?)%list_elem_of_fmap & ? & ? & _). eauto.
  - intros (x & ? & ? & ?). exists (role_clearance x).
    split; [by apply list_elem_of_fmap; eauto|]. split_and!; [done..|]. by destruct x.
Qed.

Definition perm_eqb (p q : Permission) : bool :=
  match p, q with PermRead, PermRead | PermWrite, PermWrite => true | _, _ => false end.

Lemma cap_contains_perm p q : cap_contains (capability_of p) (capability_of q) = true ↔ p = q.
Proof. by destruct p, q. Qed.

Lemma with_roles_can l p label r :
  dominates two_point PROTECTED label = true →
  (if p is PermRead then can_read else can_write) (with_roles l) label r = true ↔
  ∃ x, x ∈ l ∧ cap_contains (cap (role_clearance x)) (capability_of p) = true ∧
       scope_applies (scope (role_clearance x)) r = true.
Proof.
  intros Hdom. rewrite <- with_roles_qualifies by done.
  destruct p; simpl; [by rewrite can_read_iff|]. rewrite can_write_iff.
  destruct (with_roles_shape l) as (_ & _ & _ & ->). naive_solver.
Qed.

(** ** Properties *)

(** On a validated lattice the effective label of a path, timeline or
    secret is the least upper bound of the labels of exactly the matching rules
    of its kind (the bottom when none matches); and if some matching rule names a
    label the lattice does not know, the effective label is the top. *)
Theorem effective_label_is_join (L : LabelLattice) (rs : LabelRuleSet) (x : string) :
  validate L = Ok () →
  let spec matching label :=
    ((∀ l, l ∈ matching → l ∈ labels L) → is_join_of L matching label) ∧
    (∀ l, l ∈ matching → l ∉ labels L → label = top L) ∧
    (matching = [] → label = bottom L) in
  spec (path_labels rs x) (label_for_path rs L x) ∧
  spec (timeline_labels rs x) (label_for_timeline rs L x) ∧
  spec (secret_labels rs x) (label_for_secret rs L x).
Proof.
  intros HL%validate_iff spec.
  assert (∀ ls, spec ls (join_all L ls)) as Hspec.
  { intros ls. split_and!; [by apply join_all_spec| |by intros ->].
    intros l ? ?. by apply (foldl_join_unknown L HL (bottom L) ls l). }
  rewrite label_for_path_join, label_for_timeline_join, label_for_secret_join.
  split_and!; apply Hspec.
Qed.

Definition chain3 : LabelLattice :=
  lattice_new ["public"; "internal"; "secret"] [("public", "internal"); ("internal", "secret")].
Definition chain3_rules : LabelRuleSet :=
  {| rules := [RulePath "secrets/**" "internal"; RulePath "secrets/prod/**" "secret"] |}.

Lemma effective_label_is_join_witness :
  validate chain3 = Ok () ∧ path_labels chain3_rules "secrets/prod/key" = ["internal"; "secret"] ∧
  is_join_of chain3 ["internal"; "secret"] (label_for_path chain3_rules chain3 "secrets/prod/key").
Proof.
  split; [vm_compute; reflexivity|]. split; [vm_compute; reflexivity|].
  destruct (effective_label_is_join chain3 chain3_rules "secrets/prod/key") as [[H _] _];
    [vm_compute; reflexivity|].
  apply H. intros l Hl.
  assert (bool_decide (Forall (λ l, l ∈ labels chain3) (path_labels chain3_rules "secrets/prod/key")) = true)
    as Hall by (vm_compute; reflexivity).
  apply bool_decide_eq_true in Hall. rewrite Forall_forall in Hall. by apply Hall.
Defined.

(** Write authority: an accessor may write a label on a resource exactly
    when some clearance carries WRITE, covers the resource and dominates the
    label; a confined accessor additionally needs such a clearance whose ceiling
    is the label itself, so it never writes strictly below its level, whatever
    other grants it holds. *)
Theorem can_write_authority (a : Accessor) (label : Label) (r : ResourceRef) :
  can_write a label r = true ↔
  ∃ c, c ∈ clearances (acc_clearances a) ∧ qualifies a WRITE label r c ∧
       (confined (acc_clearances a) = true → ceiling c = label).
Proof. apply can_write_iff. Qed.

(** [explain] tells the truth: its read and write verdicts are the enforced
    ones, the confinement flag is set exactly when a qualifying write clearance
    exists but the confined rule refuses, and the trace marks exactly one
    qualifying clearance as decisive on a grant and none on a denial. *)
Theorem explain_agrees (a : Accessor) (label : Label) (r : ResourceRef) :
  let '(rt, wt) := explain a label r in
  ct_allowed rt = can_read a label r ∧
  ct_allowed wt = can_write a label r ∧
  (ct_confined_write_down_block wt = true ↔
     confined (acc_clearances a) = true ∧ can_write a label r = false ∧
     ∃ c, c ∈ clearances (acc_clearances a) ∧ qualifies a WRITE label r c) ∧
  ∀ t, t = rt ∨ t = wt →
    if ct_allowed t
    then ∃ e, ev_qualifies e = true ∧ filter ev_decisive (ct_clearances t) = [e]
    else filter ev_decisive (ct_clearances t) = [].
Proof.
  unfold explain. split_and!; [apply eval_cap_read|apply eval_cap_write|apply eval_cap_block|].
  intros t [->| ->]; apply eval_cap_decisive.
Qed.

(** The legacy constructors keep the historical glob-ACL behaviour: an
    accessor built from path and timeline roles may read (write) a path exactly
    when it was given a path role with that permission whose glob matches, and
    likewise for timelines; an accessor with no roles can do nothing. *)
Theorem legacy_roles_lowering (l : list role) (p : Permission) (x : string) :
  ((if p is PermRead then can_read_path else can_write_path) (with_roles l) x = true ↔
     ∃ pr, inl pr ∈ l ∧ pr_permission pr = p ∧ glob_matches (pr_glob pr) x = true) ∧
  ((if p is PermRead then can_read_timeline else can_write_timeline) (with_roles l) x = true ↔
     ∃ tr, inr tr ∈ l ∧ tr_permission tr = p ∧ glob_matches (tr_pattern tr) x = true).
Proof.
  assert (acc_lattice (with_roles l) = two_point) as HL by apply with_roles_shape.
  split.
  - transitivity ((if p is PermRead then can_read else can_write) (with_roles l)
      (label_for_path (acc_rules (with_roles l)) two_point x) (ResPath x) = true).
    { destruct p; unfold can_read_path, can_write_path; by rewrite HL. }
    rewrite with_roles_can by apply with_roles_path_label. split.
    + intros ([pr|tr] & ? & Hc%cap_contains_perm & ?); simpl in *; [eauto|done].
    + intros (pr & ? & <- & ?). exists (inl pr). split_and!; [done|by apply cap_contains_perm|done].
  - transitivity ((if p is PermRead then can_read else can_write) (with_roles l)
      (label_for_timeline (acc_rules (with_roles l)) two_point x) (ResTimeline x) = true).
    { destruct p; unfold can_read_timeline, can_write_timeline; by rewrite HL. }
    rewrite with_roles_can by apply with_roles_timeline_label. split.
    + intros ([pr|tr] & ? & Hc%cap_contains_perm & ?); simpl in *; [done|eauto].
    + intros (tr & ? & <- & ?). exists (inr tr). split_and!; [done|by apply cap_contains_perm|done].
Qed.
