(* ===== verification/Ids.v ===== *)
(** * Ids: object ids and their hex form

    [ObjectId] of [src/src/object/id.rs]: 32 bytes, ordered lexicographically,
    displayed as 64 lowercase hex digits and parsed back.  [parse_hex_id] is the
    copy of the parser that [src/src/store/disk.rs] uses on file names.  The
    theorem: parsing and displaying are mutually inverse, so an id has exactly one
    spelling. *)

From S2P Require Import Prelude.
From Stdlib Require Import Ascii.

(** The bytes of a string ([str::as_bytes]) and back. *)
Definition str_bytes (s : string) : bytes := String.list_byte_of_string s.
Definition bytes_str (l : bytes) : string := String.string_of_list_byte l.

Lemma str_bytes_str l : str_bytes (bytes_str l) = l.
Proof. apply String.list_byte_of_string_of_list_byte. Qed.
Lemma bytes_str_bytes s : bytes_str (str_bytes s) = s.
Proof. apply String.string_of_list_byte_of_string. Qed.
Lemma str_bytes_app a b : str_bytes (a +:+ b) = str_bytes a ++ str_bytes b.
Proof.
  unfold str_bytes, String.list_byte_of_string. rewrite <-List.map_app. f_equal.
  induction a as [|c a IH]; [done|]. change (String.String c a +:+ b) with (String.String c (a +:+ b)). simpl. by rewrite IH.
Qed.
#[global] Instance str_bytes_inj : Inj (=) (=) str_bytes.
Proof. intros x y Hxy. by rewrite <- (bytes_str_bytes x), Hxy, bytes_str_bytes. Qed.
#[global] Instance bytes_str_inj : Inj (=) (=) bytes_str.
Proof. intros x y H. by rewrite <- (str_bytes_str x), H, str_bytes_str. Qed.

(** [struct ObjectId([u8; 32])] *)
Record ObjectId : Type := ObjectId_new { as_bytes : vec byte 32 }.

#[global] Instance ObjectId_eq_dec : EqDecision ObjectId.
Proof. solve_decision. Defined.

(** The [n] first bytes of a list, padded with zeros. *)
Fixpoint pad_vec (n : nat) (l : bytes) : vec byte n :=
  match n with
  | O => [#]
  | S n => match l with
           | [] => x00 ::: pad_vec n []
           | b :: l => b ::: pad_vec n l
           end
  end.

Lemma pad_vec_to_list n (v : vec byte n) : pad_vec n (vec_to_list v) = v.
Proof. induction v; simpl; congruence. Qed.

Lemma pad_vec_length n l : length l = n → vec_to_list (pad_vec n l) = l.
Proof. revert l. induction n; intros [|b l] [=]; simpl; f_equal; auto. Qed.

Definition id_bytes (id : ObjectId) : bytes := vec_to_list (as_bytes id).
Definition id_of_bytes (l : bytes) : ObjectId := ObjectId_new (pad_vec 32 l).

Lemma id_of_id_bytes id : id_of_bytes (id_bytes id) = id.
Proof. destruct id. unfold id_of_bytes, id_bytes. by rewrite pad_vec_to_list. Qed.
Lemma id_bytes_of l : length l = 32 → id_bytes (id_of_bytes l) = l.
Proof. apply pad_vec_length. Qed.
Lemma id_bytes_length id : length (id_bytes id) = 32.
Proof. apply length_vec_to_list. Qed.
#[global] Instance id_bytes_inj : Inj (=) (=) id_bytes.
Proof. intros x y H. by rewrite <- (id_of_id_bytes x), H, id_of_id_bytes. Qed.

#[global] Program Instance ObjectId_countable : Countable ObjectId :=
  inj_countable' id_bytes id_of_bytes _.
Next Obligation. apply id_of_id_bytes. Qed.

#[global] Instance id_string_inj : Inj (=) (=) (λ id, bytes_str (id_bytes id)).
Proof. intros x y H. by do 2 apply (inj _) in H. Qed.

(** [derive(Ord)]: lexicographic on the bytes. *)
#[global] Instance ObjectId_OrdKey : OrdKey ObjectId := OrdKey_inj (λ id, bytes_str (id_bytes id)).

(** ** Hex *)

(** [{:02x}] of a byte. *)
Definition hex_digit (n : N) : byte := as_u8 (if (n <? 10)%N then 48 + n else 87 + n).
Definition hex_byte (b : byte) : bytes := [hex_digit (u8 b / 16); hex_digit (u8 b `mod` 16)].

(** [Display for ObjectId]; [hex32] of store/packed.rs is the same loop on a raw digest. *)
Definition hex32 (l : bytes) : string := bytes_str (l ≫= hex_byte).
Definition id_to_string (id : ObjectId) : string := hex32 (id_bytes id).

(** [hex_nibble]: ['0'..='9'] and ['a'..='f'] only. *)
Definition hex_nibble (c : byte) : option N :=
  if (48 <=? u8 c)%N && (u8 c <=? 57)%N then Some (u8 c - 48)%N
  else if (97 <=? u8 c)%N && (u8 c <=? 102)%N then Some (u8 c - 97 + 10)%N
  else None.

(** The loop over [bytes.iter_mut().enumerate()]; running off the string would be
    an out-of-bounds panic, which the length check excludes. *)
Fixpoint parse_hex (n : nat) (s : bytes) : option (vec byte n) :=
  match n with
  | O => Some [#]
  | S n =>
      match s with
      | c1 :: c2 :: s =>
          hi ← hex_nibble c1;
          lo ← hex_nibble c2;
          v ← parse_hex n s;
          Some (as_u8 (N.lor (u8 (as_u8 (N.shiftl hi 4))) lo) ::: v)
      | _ => None
      end
  end.

(** [parse_hex_id] of store/disk.rs *)
Definition parse_hex_id (hex : string) : option ObjectId :=
  if decide (length (str_bytes hex) ≠ 64) then None
  else ObjectId_new <$> parse_hex 32 (str_bytes hex).

Inductive ParseObjectIdError : Type := MkParseObjectIdError.

(** [FromStr for ObjectId] *)
Definition id_from_str (s : string) : Result ParseObjectIdError ObjectId :=
  if decide (length (str_bytes s) ≠ 64) then Err MkParseObjectIdError
  else v ← ok_or (parse_hex 32 (str_bytes s)) MkParseObjectIdError; Ok (ObjectId_new v).

(** ** Properties *)

Lemma nibble_cases (P : N → Prop) :
  Forall P [0; 1; 2; 3; 4; 5; 6; 7; 8; 9; 10; 11; 12; 13; 14; 15]%N → ∀ n, (n < 16)%N → P n.
Proof.
  intros HP n Hn. rewrite Forall_forall in HP. apply HP.
  rewrite !elem_of_cons, elem_of_nil. lia.
Qed.

Lemma hex_nibble_digit n : (n < 16)%N → hex_nibble (hex_digit n) = Some n.
Proof.
  revert n. apply nibble_cases. repeat constructor.
Qed.

Lemma hex_digit_nibble c n : hex_nibble c = Some n → c = hex_digit n ∧ (n < 16)%N.
Proof. destruct c; vm_compute; try discriminate; by intros [= <-]. Qed.

Lemma nibbles_byte b :
  as_u8 (N.lor (u8 (as_u8 (N.shiftl (u8 b / 16) 4))) (u8 b `mod` 16)) = b.
Proof. destruct b; reflexivity. Qed.

Lemma byte_nibbles hi lo : (hi < 16)%N → (lo < 16)%N →
  hex_byte (as_u8 (N.lor (u8 (as_u8 (N.shiftl hi 4))) lo)) = [hex_digit hi; hex_digit lo].
Proof.
  intros Hh. revert lo. apply nibble_cases. revert hi Hh. apply nibble_cases.
  repeat constructor.
Qed.

Lemma parse_hex_Some n s v :
  length s = n + n → parse_hex n s = Some v ↔ s = vec_to_list v ≫= hex_byte.
Proof.
  revert s. induction n as [|n IH]; intros s Hs.
  - inv_vec v. destruct s; [done|]. discriminate.
  - inv_vec v. intros b v. destruct s as [|c1 [|c2 s]]; simpl in Hs; [lia..|].
    change (parse_hex (S n) (c1 :: c2 :: s)) with
      (hi ← hex_nibble c1; lo ← hex_nibble c2; w ← parse_hex n s;
       Some (as_u8 (N.lor (u8 (as_u8 (N.shiftl hi 4))) lo) ::: w)).
    change (vec_to_list (b ::: v) ≫= hex_byte) with
      (hex_byte b ++ (vec_to_list v ≫= hex_byte)).
    assert (length s = n + n) as Hs' by lia. split.
    + intros (hi & Hhi & (lo & Hlo & (w & Hw & Heq)%bind_Some)%bind_Some)%bind_Some.
      apply hex_digit_nibble in Hhi as [-> ?]. apply hex_digit_nibble in Hlo as [-> ?].
      assert (b ::: v = as_u8 (N.lor (u8 (as_u8 (N.shiftl hi 4))) lo) ::: w) as Hbv by congruence.
      apply Vector.cons_inj in Hbv as [-> ->]. apply IH in Hw as ->; [|done].
      by rewrite byte_nibbles.
    + intros Heq. unfold hex_byte in Heq. injection Heq as -> -> Hrest.
      apply IH in Hrest; [|done].
      rewrite !hex_nibble_digit by first [apply N.mod_lt; lia | pose proof (u8_bound b); apply N.Div0.div_lt_upper_bound; lia].
      simpl. by rewrite Hrest, nibbles_byte.
Qed.

Lemma hex_bytes_length l : length (l ≫= hex_byte) = length l + length l.
Proof. induction l as [|b l IH]; [done|]. simpl. fold (l ≫= hex_byte). rewrite IH. lia. Qed.

Lemma parse_hex_id_Some s id : parse_hex_id s = Some id ↔ s = id_to_string id.
Proof.
  unfold parse_hex_id, id_to_string, hex32. split.
  - case_decide as Hl; [done|].
    intros (v & Hv & ->)%fmap_Some. apply parse_hex_Some in Hv; [|done].
    unfold id_bytes. simpl. by rewrite <- Hv, bytes_str_bytes.
  - intros ->. rewrite str_bytes_str. rewrite decide_False.
    + apply fmap_Some. exists (as_bytes id). split; [|by destruct id].
      apply parse_hex_Some; [|done]. by rewrite hex_bytes_length, id_bytes_length.
    + rewrite hex_bytes_length, id_bytes_length. auto.
Qed.

Lemma id_from_str_Ok s id : id_from_str s = Ok id ↔ s = id_to_string id.
Proof.
  rewrite <- parse_hex_id_Some. unfold id_from_str, parse_hex_id.
  case_decide; [done|]. destruct (parse_hex 32 (str_bytes s)); simpl; naive_solver.
Qed.

#[global] Instance id_to_string_inj : Inj (=) (=) id_to_string.
Proof. intros x y H. apply id_from_str_Ok in H. pose proof (proj2 (id_from_str_Ok _ _) (eq_refl (id_to_string x))). congruence. Qed.

(** [FromStr] and [Display] of an object id are inverse to each other: a string
    parses to an id exactly when it is that id's 64-digit lowercase hex form, so
    every id parses back to itself and no id has a second spelling; the copy of the
    parser used on object file names agrees. *)
Theorem object_id_roundtrip (s : string) (id : ObjectId) :
  (id_from_str s = Ok id ↔ s = id_to_string id) ∧
  (parse_hex_id s = Some id ↔ s = id_to_string id) ∧
  id_from_str (id_to_string id) = Ok id.
Proof.
  split; [apply id_from_str_Ok|]. split; [apply parse_hex_id_Some|].
  by apply id_from_str_Ok.
Qed.
