(* ===== verification/Text.v ===== *)
(** * Text: what the sources use of Rust's strings

    A [String] is valid UTF-8: [from_utf8] checks the bytes (RFC 3629).  [lines],
    [trim], [split_once], [contains] and [starts_with] work on the bytes of a string;
    all separators the sources use are ASCII, and the white space of [trim] is given by
    its UTF-8 encodings. *)

From S2P Require Import Prelude Ids.
From Stdlib Require Import Ascii.

(** ** Prefixes of strings *)
Lemma prefix_app a b : String.prefix a (a +:+ b) = true.
Proof. induction a as [|c a IH]; [by destruct b|]. simpl. by destruct (Ascii.ascii_dec c c). Qed.
Lemma prefix_ascii a s u : String.list_ascii_of_string s = String.list_ascii_of_string a ++ u → String.prefix a s = true.
Proof.
  revert s. induction a as [|c a IH]; intros [|d s]; try done. simpl. intros [= -> Hs%IH].
  by destruct (Ascii.ascii_dec c c).
Qed.
Lemma prefix_inv a s : String.prefix a s = true → ∃ b, s = a +:+ b.
Proof.
  revert s. induction a as [|c a IH]; intros s; [by exists s|]. destruct s as [|d s]; [done|]. simpl.
  destruct (Ascii.ascii_dec c d) as [->|]; [|done]. intros (b & ->)%IH. by exists b.
Qed.
Lemma append_inj a s t : a +:+ s = a +:+ t → s = t.
Proof. induction a as [|c a IH]; [done|]. intros [= ?]. by apply IH. Qed.

Lemma prefix_trans a b c : String.prefix a b = true → String.prefix b c = true → String.prefix a c = true.
Proof. intros (x & ->)%prefix_inv (y & ->)%prefix_inv. rewrite string_app_assoc. apply prefix_app. Qed.

(** ** UTF-8 *)
Definition in_range (lo hi : N) (b : byte) : bool := (lo <=? u8 b)%N && (u8 b <=? hi)%N.
Definition is_cont : byte → bool := in_range 0x80 0xBF.

Fixpoint utf8_valid (l : bytes) : bool :=
  match l with
  | [] => true
  | b0 :: l1 =>
      if (u8 b0 <? 0x80)%N then utf8_valid l1
      else if in_range 0xC2 0xDF b0 then
        match l1 with b1 :: l2 => is_cont b1 && utf8_valid l2 | _ => false end
      else if in_range 0xE0 0xEF b0 then
        match l1 with
        | b1 :: b2 :: l3 =>
            in_range (if (u8 b0 =? 0xE0)%N then 0xA0 else 0x80) (if (u8 b0 =? 0xED)%N then 0x9F else 0xBF) b1
            && is_cont b2 && utf8_valid l3
        | _ => false
        end
      else if in_range 0xF0 0xF4 b0 then
        match l1 with
        | b1 :: b2 :: b3 :: l4 =>
            in_range (if (u8 b0 =? 0xF0)%N then 0x90 else 0x80) (if (u8 b0 =? 0xF4)%N then 0x8F else 0xBF) b1
            && is_cont b2 && is_cont b3 && utf8_valid l4
        | _ => false
        end
      else false
  end.

(** [String::from_utf8], [str::from_utf8] *)
Definition from_utf8 (l : bytes) : option string := if utf8_valid l then Some (bytes_str l) else None.

Definition REPLACEMENT : bytes := [xef; xbf; xbd].

(** [String::from_utf8_lossy]: every maximal part of an encoding that is cut short, and every
    byte that starts none, becomes U+FFFD. *)
Fixpoint from_utf8_lossy (l : bytes) : bytes :=
  match l with
  | [] => []
  | b0 :: l1 =>
      if (u8 b0 <? 0x80)%N then b0 :: from_utf8_lossy l1
      else if in_range 0xC2 0xDF b0 then
        match l1 with
        | b1 :: l2 => if is_cont b1 then b0 :: b1 :: from_utf8_lossy l2 else REPLACEMENT ++ from_utf8_lossy l1
        | [] => REPLACEMENT
        end
      else if in_range 0xE0 0xEF b0 then
        match l1 with
        | b1 :: l2 =>
            if in_range (if (u8 b0 =? 0xE0)%N then 0xA0 else 0x80) (if (u8 b0 =? 0xED)%N then 0x9F else 0xBF) b1 then
              match l2 with
              | b2 :: l3 => if is_cont b2 then b0 :: b1 :: b2 :: from_utf8_lossy l3 else REPLACEMENT ++ from_utf8_lossy l2
              | [] => REPLACEMENT
              end
            else REPLACEMENT ++ from_utf8_lossy l1
        | [] => REPLACEMENT
        end
      else if in_range 0xF0 0xF4 b0 then
        match l1 with
        | b1 :: l2 =>
            if in_range (if (u8 b0 =? 0xF0)%N then 0x90 else 0x80) (if (u8 b0 =? 0xF4)%N then 0x8F else 0xBF) b1 then
              match l2 with
              | b2 :: l3 =>
                  if is_cont b2 then
                    match l3 with
                    | b3 :: l4 =>
                        if is_cont b3 then b0 :: b1 :: b2 :: b3 :: from_utf8_lossy l4 else REPLACEMENT ++ from_utf8_lossy l3
                    | [] => REPLACEMENT
                    end
                  else REPLACEMENT ++ from_utf8_lossy l2
              | [] => REPLACEMENT
              end
            else REPLACEMENT ++ from_utf8_lossy l1
        | [] => REPLACEMENT
        end
      else REPLACEMENT ++ from_utf8_lossy l1
  end.

(** ** Splitting *)

(** The pieces of [l] between the bytes equal to [sep]; at least one. *)
Fixpoint split_byte (sep : byte) (l : bytes) : list bytes :=
  match l with
  | [] => [[]]
  | b :: l =>
      let ps := split_byte sep l in
      if decide (b = sep) then [] :: ps
      else match ps with p :: ps => (b :: p) :: ps | [] => [[b]] end
  end.

(** [lines()]: split after each line feed, a carriage return before it dropped, and
    no empty line after the last one. *)
Definition strip_cr (l : bytes) : bytes :=
  match reverse l with x0d :: r => reverse r | _ => l end.
Definition lines (l : bytes) : list bytes :=
  match reverse (split_byte x0a l) with
  | last :: r => reverse (strip_cr <$> r) ++ match last with [] => [] | _ => [last] end
  | [] => []
  end.

(** The encodings of the characters [trim] removes. *)
Definition white_space : list bytes :=
  [[x09]; [x0a]; [x0b]; [x0c]; [x0d]; [x20]; [xc2; x85]; [xc2; xa0]; [xe1; x9a; x80];
   [xe2; x80; x80]; [xe2; x80; x81]; [xe2; x80; x82]; [xe2; x80; x83]; [xe2; x80; x84]; [xe2; x80; x85];
   [xe2; x80; x86]; [xe2; x80; x87]; [xe2; x80; x88]; [xe2; x80; x89]; [xe2; x80; x8a];
   [xe2; x80; xa8]; [xe2; x80; xa9]; [xe2; x80; xaf]; [xe2; x81; x9f]; [xe3; x80; x80]].

(** Removes encodings of [ws] from the front; every round removes a byte. *)
Fixpoint trim_front (fuel : nat) (ws : list bytes) (l : bytes) : bytes :=
  match fuel with
  | O => l
  | S fuel =>
      match find_first (λ w, bool_decide (take (length w) l = w)) ws with
      | Some w => trim_front fuel ws (drop (length w) l)
      | None => l
      end
  end.
Definition trim_end (l : bytes) : bytes := reverse (trim_front (length l) (reverse <$> white_space) (reverse l)).
Definition trim (l : bytes) : bytes := trim_end (trim_front (length l) white_space l).

(** [haystack.contains(needle)] *)
Fixpoint bytes_contains (needle haystack : bytes) : bool :=
  bool_decide (take (length needle) haystack = needle) ||
  match haystack with [] => false | _ :: haystack => bytes_contains needle haystack end.
Definition str_contains (haystack needle : string) : bool :=
  bytes_contains (str_bytes needle) (str_bytes haystack).

(** [s.strip_prefix(pre)], [s.split_once('/')] *)
Fixpoint strip_prefix (pre s : string) : option string :=
  match pre, s with
  | String.EmptyString, s => Some s
  | String.String a pre, String.String b s => if Ascii.eqb a b then strip_prefix pre s else None
  | _, _ => None
  end.
Fixpoint split_once (s : string) : option (string * string) :=
  match s with
  | String.EmptyString => None
  | String.String a s =>
      if Ascii.eqb a "/" then Some ("", s)
      else match split_once s with Some (x, y) => Some (String.String a x, y) | None => None end
  end.

(** [s.parse::<u64>()]; a [usize] has 64 bits here too. *)
Fixpoint parse_digits (s : string) (acc : N) : option N :=
  match s with
  | String.EmptyString => Some acc
  | String.String a s =>
      let n := N_of_ascii a in
      if (48 <=? n)%N && (n <=? 57)%N then
        let acc := (10 * acc + (n - 48))%N in if (acc <? 2 ^ 64)%N then parse_digits s acc else None
      else None
  end.
Definition parse_u64 (s : string) : option N :=
  match s with
  | String.EmptyString => None
  | String.String "+" s => if decide (s = "") then None else parse_digits s 0
  | _ => parse_digits s 0
  end.

(** [u8::is_ascii_hexdigit] *)
Definition is_ascii_hexdigit (b : byte) : bool :=
  in_range 48 57 b || in_range 65 70 b || in_range 97 102 b.

(** ** Facts *)
Lemma bytes_contains_spec needle haystack : bytes_contains needle haystack = true ↔
  ∃ pre post, haystack = pre ++ needle ++ post.
Proof.
  induction haystack as [|b h IH]; simpl.
  - rewrite orb_false_r, bool_decide_eq_true. split.
    + intros Ht. exists [], []. rewrite app_nil_r. simpl. rewrite <- Ht. by rewrite take_nil.
    + intros (pre & post & He). symmetry in He. apply app_eq_nil in He as [_ He].
      apply app_eq_nil in He as [-> _]. done.
  - rewrite orb_true_iff, bool_decide_eq_true, IH. split.
    + intros [Ht|(pre & post & ->)]; [|by exists (b :: pre), post].
      exists [], (drop (length needle) (b :: h)). simpl app. rewrite <- Ht at 1. by rewrite take_drop.
    + intros ([|c pre] & post & He).
      * left. simpl in He. rewrite He. apply take_app_length.
      * right. injection He as -> ->. eauto.
Qed.

Lemma split_byte_join sep l ps : split_byte sep l = ps → ∃ p qs, ps = p :: qs ∧
  l = p ++ (qs ≫= λ q, sep :: q) ∧ Forall (λ q, sep ∉ q) ps.
Proof.
  revert ps. induction l as [|b l IH]; intros ps <-; simpl.
  - exists [], []. repeat constructor. by apply not_elem_of_nil.
  - destruct (IH _ eq_refl) as (p & qs & -> & Hl & Hall). case_decide as Hb; [subst b|].
    + exists [], (p :: qs). simpl. split; [done|]. split; [by rewrite Hl at 1|].
      constructor; [by apply not_elem_of_nil|done].
    + exists (b :: p), qs. simpl. split; [done|]. split; [by rewrite Hl at 1|].
      inversion Hall; subst. constructor; [|done]. rewrite elem_of_cons. naive_solver.
Qed.

Lemma strip_prefix_app a b : strip_prefix a (a +:+ b) = Some b.
Proof.
  induction a as [|c a IH]; [by destruct b|]. change (String.String c a +:+ b) with (String.String c (a +:+ b)).
  cbn [strip_prefix]. by rewrite Ascii.eqb_refl.
Qed.
Lemma strip_prefix_Some a s b : strip_prefix a s = Some b ↔ s = a +:+ b.
Proof.
  split; [|intros ->; apply strip_prefix_app]. revert s. induction a as [|c a IH]; intros s; [by destruct s; intros [= <-]|].
  destruct s as [|d s]; [done|]. cbn [strip_prefix]. destruct (Ascii.eqb_spec c d) as [->|]; [|done]. by intros ->%IH.
Qed.

Lemma from_utf8_lossy_ascii l : Forall (λ b, u8 b < 0x80)%N l → from_utf8_lossy l = l.
Proof. induction 1 as [|b l Hb _ IH]; [done|]. cbn [from_utf8_lossy]. by rewrite (proj2 (N.ltb_lt _ _) Hb), IH. Qed.
(** Valid text is kept as it is. *)
Lemma from_utf8_lossy_valid l : utf8_valid l = true → from_utf8_lossy l = l.
Proof.
  induction l as [l IH] using (induction_ltof1 _ length). unfold ltof in IH. destruct l as [|b0 l1]; [done|].
  cbn [utf8_valid from_utf8_lossy]. destruct (u8 b0 <? 0x80)%N; [intros Hv; f_equal; apply IH; [simpl; lia|done]|].
  destruct (in_range 0xC2 0xDF b0).
  { destruct l1 as [|b1 l2]; [done|]. intros [-> Hv]%andb_prop. do 2 f_equal. apply IH; [simpl; lia|done]. }
  destruct (in_range 0xE0 0xEF b0).
  { destruct l1 as [|b1 [|b2 l3]]; [done..|]. intros [[-> ->]%andb_prop Hv]%andb_prop. do 3 f_equal. apply IH; [simpl; lia|done]. }
  destruct (in_range 0xF0 0xF4 b0); [|done].
  destruct l1 as [|b1 [|b2 [|b3 l4]]]; [done..|]. intros [[[-> ->]%andb_prop ->]%andb_prop Hv]%andb_prop. do 4 f_equal. apply IH; [simpl; lia|done].
Qed.
