(* ===== verification/Objects.v ===== *)
(** * Objects: the object model

    The data of [src/src/object/], [src/src/acl/policy_object.rs],
    [src/src/acl/attestation.rs], [src/src/collab/object.rs], [src/src/pr.rs],
    [src/src/board.rs] and [src/src/reporecord.rs]: every variant of the [Object]
    enum with its fields, and the outbound edges of an object ([child_edges] of
    [src/src/sync/negotiate.rs]).

    [objects] is the decoded view of an object store that the algorithms above the
    store read: an id maps to the object its bytes decode to, or to the codec error
    that reading it returns; [Store.v] shows that the byte-level store refines it. *)

From S2P Require Import Prelude Graph Lattice Access Ids.

(** [type Key = [u8; 32]] *)
Abbreviation Key := (vec byte 32).
#[global] Program Instance Key_countable : Countable Key :=
  inj_countable' vec_to_list (pad_vec 32) _.
Next Obligation. apply pad_vec_to_list. Qed.

Record Blob : Type := MkBlob { blob_data : bytes }.

Inductive EntryKind : Type := KindBlob | KindTree.
Record TreeEntry : Type := MkTreeEntry { entry_id : ObjectId; entry_kind : EntryKind }.
Record Tree : Type := MkTree { tree_entries : gmap string TreeEntry }.

Record Snapshot : Type := MkSnapshot {
  snap_root : ObjectId;
  snap_parents : list ObjectId;
  snap_author : string;
  snap_created_at : N;
  snap_message : string
}.

Record Secret : Type := MkSecret { sec_nonce : vec byte 12; sec_ciphertext : bytes }.

Inductive EnvValue : Type :=
| EnvPlain (value : string)
| EnvSecret (id : ObjectId).
Record EnvOverlay : Type := MkEnvOverlay { overlay_entries : gmap string EnvValue }.

(** ** Policy payloads *)
Record HookSpec : Type := MkHookSpec {
  hook_kind : string;
  hook_pattern : string;
  hook_params : gmap string N
}.

Record PolicyRoot : Type := MkPolicyRoot {
  root_lattice : ObjectId;
  root_rules : ObjectId;
  root_parent : option ObjectId;
  root_hooks : list HookSpec
}.

Record ClearanceGrant : Type := MkGrant {
  grant_actor : string;
  grant_clearances : ClearanceSet;
  grant_signature : option bytes
}.

Record Approver : Type := MkApprover { approver_key_id : string; approver_public_key : Key }.
Record ApproverRegistry : Type := MkApprovers { approvers : list Approver }.
Record Attestation : Type := MkAttestation {
  att_target : string;
  att_head : ObjectId;
  att_key_id : string;
  att_sig : bytes
}.

Inductive PolicyObject : Type :=
| PLattice (l : LabelLattice)
| PRuleSet (r : LabelRuleSet)
| PGrant (g : ClearanceGrant)
| PRoot (r : PolicyRoot)
| PApprovers (a : ApproverRegistry)
| PAttestation (a : Attestation).

(** ** Envelope secrets *)
Record WrappedKey : Type := MkWrappedKey { wk_key_ref : string; wk_bytes : bytes }.
Record SecretAad : Type := MkAad { aad_version : N; aad_label : option Label }.
Record SecretV2 : Type := MkSecretV2 {
  s2_wrapped_dk : WrappedKey;
  s2_nonce : vec byte 12;
  s2_ciphertext : bytes;
  s2_aad : SecretAad
}.
Record MultiRecipientSecret : Type := MkMulti {
  mr_recipients : list WrappedKey;
  mr_nonce : vec byte 12;
  mr_ciphertext : bytes;
  mr_aad : SecretAad
}.

(** ** Signed collaboration objects *)
Record Profile : Type := MkProfile {
  profile_key : Key;
  display_name : string;
  bio : string;
  endpoints : list string;
  dns_aliases : list string;
  profile_seq : N;
  profile_sig : bytes
}.

Inductive TrustKind : Type := Vouch | Follow | Review.
Record TrustEdge : Type := MkTrustEdge {
  from_key : Key;
  to_key : Key;
  edge_kind : TrustKind;
  petname : option string;
  edge_seq : N;
  edge_sig : bytes
}.
Inductive CollabObject : Type :=
| CProfile (p : Profile)
| CTrustEdge (e : TrustEdge).

Record ChangeProposal : Type := MkProposal {
  prop_author : Key;
  prop_source : string;
  prop_target : string;
  prop_title : string;
  prop_created_at : N;
  prop_sig : bytes
}.
Record ReviewComment : Type := MkComment {
  com_author : Key;
  com_proposal : ObjectId;
  com_body : string;
  com_resolves : bool;
  com_created_at : N;
  com_sig : bytes
}.
Record Post : Type := MkPost {
  post_author : Key;
  post_board : string;
  post_body : string;
  post_parent : option ObjectId;
  post_created_at : N;
  post_sig : bytes
}.
Record RepoRecord : Type := MkRepoRecord {
  rr_owner : Key;
  rr_name : string;
  rr_description : string;
  rr_seq : N;
  rr_sig : bytes
}.

(** [enum Object] *)
Inductive Object : Type :=
| OBlob (b : Blob)
| OTree (t : Tree)
| OSnapshot (s : Snapshot)
| OSecret (s : Secret)
| OEnvOverlay (o : EnvOverlay)
| OPolicy (p : PolicyObject)
| OSecretV2 (s : SecretV2)
| OMultiRecipientSecret (s : MultiRecipientSecret)
| OCollab (c : CollabObject)
| OChangeProposal (p : ChangeProposal)
| OReviewComment (c : ReviewComment)
| OPost (p : Post)
| ORepoRecord (r : RepoRecord).

#[global] Instance Blob_eq_dec : EqDecision Blob. Proof. solve_decision. Defined.
#[global] Instance EntryKind_eq_dec : EqDecision EntryKind. Proof. solve_decision. Defined.
#[global] Instance TreeEntry_eq_dec : EqDecision TreeEntry. Proof. solve_decision. Defined.
#[global] Instance Tree_eq_dec : EqDecision Tree. Proof. solve_decision. Defined.
#[global] Instance Snapshot_eq_dec : EqDecision Snapshot. Proof. solve_decision. Defined.
#[global] Instance Secret_eq_dec : EqDecision Secret. Proof. solve_decision. Defined.
#[global] Instance EnvValue_eq_dec : EqDecision EnvValue. Proof. solve_decision. Defined.
#[global] Instance EnvOverlay_eq_dec : EqDecision EnvOverlay. Proof. solve_decision. Defined.
#[global] Instance HookSpec_eq_dec : EqDecision HookSpec. Proof. solve_decision. Defined.
#[global] Instance PolicyRoot_eq_dec : EqDecision PolicyRoot. Proof. solve_decision. Defined.
#[global] Instance ClearanceGrant_eq_dec : EqDecision ClearanceGrant. Proof. solve_decision. Defined.
#[global] Instance Approver_eq_dec : EqDecision Approver. Proof. solve_decision. Defined.
#[global] Instance Registry_eq_dec : EqDecision ApproverRegistry. Proof. solve_decision. Defined.
#[global] Instance Attestation_eq_dec : EqDecision Attestation. Proof. solve_decision. Defined.
#[global] Instance PolicyObject_eq_dec : EqDecision PolicyObject. Proof. solve_decision. Defined.
#[global] Instance WrappedKey_eq_dec : EqDecision WrappedKey. Proof. solve_decision. Defined.
#[global] Instance SecretAad_eq_dec : EqDecision SecretAad. Proof. solve_decision. Defined.
#[global] Instance SecretV2_eq_dec : EqDecision SecretV2. Proof. solve_decision. Defined.
#[global] Instance Multi_eq_dec : EqDecision MultiRecipientSecret. Proof. solve_decision. Defined.
#[global] Instance Profile_eq_dec : EqDecision Profile. Proof. solve_decision. Defined.
#[global] Instance TrustKind_eq_dec : EqDecision TrustKind. Proof. solve_decision. Defined.
#[global] Instance TrustEdge_eq_dec : EqDecision TrustEdge. Proof. solve_decision. Defined.
#[global] Instance CollabObject_eq_dec : EqDecision CollabObject. Proof. solve_decision. Defined.
#[global] Instance ChangeProposal_eq_dec : EqDecision ChangeProposal. Proof. solve_decision. Defined.
#[global] Instance ReviewComment_eq_dec : EqDecision ReviewComment. Proof. solve_decision. Defined.
#[global] Instance Post_eq_dec : EqDecision Post. Proof. solve_decision. Defined.
#[global] Instance RepoRecord_eq_dec : EqDecision RepoRecord. Proof. solve_decision. Defined.
#[global] Instance Object_eq_dec : EqDecision Object. Proof. solve_decision. Defined.

(** ** Outbound edges *)

(** The secrets an overlay refers to. *)
Definition overlay_secrets (o : EnvOverlay) : list ObjectId :=
  omap (λ v, match v with EnvSecret id => Some id | EnvPlain _ => None end)
    (btree_values (overlay_entries o)).

Definition child_edges (obj : Object) : list ObjectId :=
  match obj with
  | OSnapshot s => snap_root s :: snap_parents s
  | OTree t => entry_id <$> btree_values (tree_entries t)
  | OEnvOverlay o => overlay_secrets o
  | OPolicy (PRoot r) =>
      [root_lattice r; root_rules r] ++ match root_parent r with Some p => [p] | None => [] end
  | _ => []
  end.

(** ** The decoded view of an object store *)
Abbreviation objects := (gmap ObjectId (res Object)).

(** [ObjectStore::get] *)
Definition os_get (O : objects) (id : ObjectId) : res (option Object) :=
  match O !! id with
  | None => Ok None
  | Some (Ok obj) => Ok (Some obj)
  | Some (Err e) => Err e
  end.

(** [ObjectStore::exists] *)
Definition os_exists (O : objects) (id : ObjectId) : bool := bool_decide (is_Some (O !! id)).

Lemma os_get_Some O id obj : os_get O id = Ok (Some obj) ↔ O !! id = Some (Ok obj).
Proof. unfold os_get. destruct (O !! id) as [[]|]; naive_solver. Qed.
Lemma os_get_None O id : os_get O id = Ok None ↔ O !! id = None.
Proof. unfold os_get. destruct (O !! id) as [[]|]; naive_solver. Qed.
Lemma os_get_Err O id e : os_get O id = Err e ↔ O !! id = Some (Err e).
Proof. unfold os_get. destruct (O !! id) as [[]|]; naive_solver. Qed.

(** ** Fuel for walks over a store

    A walk that reads [f obj] edges from each stored object visits at most
    [size O] objects that have edges, and pushes at most [degree f O] ids for
    each. *)
Section degree.
Context (f : Object → list ObjectId).

Definition degree (O : objects) : nat :=
  max_list ((λ p : ObjectId * res Object,
    match p.2 with Ok obj => length (f obj) | Err _ => 0 end) <$> map_to_list O).

(** The edges of the object stored at [id]: none where nothing is stored. *)
Definition edges_of (O : objects) (id : ObjectId) : res (list ObjectId) :=
  obj ← os_get O id;
  Ok (match obj with Some obj => f obj | None => [] end).

Lemma degree_bound O id obj : O !! id = Some (Ok obj) → length (f obj) ≤ degree O.
Proof.
  intros Hid. unfold degree. apply max_list_elem_of_le. apply list_elem_of_fmap.
  exists (id, Ok obj). split; [done|]. by apply elem_of_map_to_list.
Qed.

Lemma edges_of_bound O id ns :
  edges_of O id = Ok ns → length ns ≤ degree O ∧ (ns ≠ [] → id ∈ (dom O : gset ObjectId)).
Proof.
  unfold edges_of, os_get. destruct (O !! id) as [[obj|e]|] eqn:Hid; simpl; intros [= <-].
  - split; [by eapply degree_bound|]. intros _. apply elem_of_dom. by eexists.
  - split; [simpl; lia|done].
Qed.

(** Every id some stored object has an edge to. *)
Definition edge_targets (O : objects) : gset ObjectId :=
  list_to_set (map_to_list O ≫= λ p, match p.2 with Ok obj => f obj | Err _ => [] end).

Lemma edges_of_targets O id ns :
  edges_of O id = Ok ns → ∀ y, y ∈ ns → y ∈ edge_targets O.
Proof.
  unfold edges_of, os_get. destruct (O !! id) as [[obj|e]|] eqn:Hid; simpl; intros [= <-] y Hy.
  - apply elem_of_list_to_set. apply list_elem_of_bind. exists (id, Ok obj).
    split; [done|]. by apply elem_of_map_to_list.
  - by apply not_elem_of_nil in Hy.
Qed.

Lemma edge_edges_of O x y :
  edge (edges_of O) x y ↔ ∃ obj, O !! x = Some (Ok obj) ∧ y ∈ f obj.
Proof.
  unfold edge, edges_of, os_get. split.
  - intros (ns & Hns & Hy). destruct (O !! x) as [[obj|]|]; simpl in Hns; simplify_eq.
    + by exists obj.
    + by apply not_elem_of_nil in Hy.
  - intros (obj & -> & Hy). simpl. by exists (f obj).
Qed.
End degree.
