(* ===== verification/Refs.v ===== *)
(** * Refs: names, refs and transactions of [src/src/refs/]

    [RefName] (name.rs), [Tag], [Timeline], [Ref] (tag.rs, timeline.rs,
    ref_type.rs), the [RefBackend] interface (backend.rs) with the in-memory
    implementation (memory.rs), the [RefStore] operations (mod.rs) and
    multi-ref transactions (transaction.rs).

    A backend is a state type with the trait's methods; [RefBackend] carries the
    methods and the contract they keep: a map from names to refs.  Theorems about
    the store and about transactions are proved against that contract; the
    in-memory backend is an instance here, the on-disk one in [RefsDisk.v]. *)

From S2P Require Import Prelude Ids Objects.
From Stdlib Require Import Ascii.

(** ** Names *)

(** [s.split(c)] *)
Fixpoint split_on (c : ascii) (s : string) : list string :=
  match s with
  | String.EmptyString => [""]
  | String.String a s =>
      if Ascii.eqb a c then "" :: split_on c s
      else match split_on c s with
           | [] => [String.String a ""]
           | seg :: rest => String.String a seg :: rest
           end
  end.

(** [segments.join("/")] *)
Fixpoint join_on (c : ascii) (l : list string) : string :=
  match l with
  | [] => ""
  | [x] => x
  | x :: l => x +:+ String.String c (join_on c l)
  end.

(** [s.starts_with(c)], [s.ends_with(c)], [s.contains(c)] for a character. *)
Definition starts_with (c : ascii) (s : string) : bool :=
  match s with String.String a _ => Ascii.eqb a c | String.EmptyString => false end.
Fixpoint ends_with (c : ascii) (s : string) : bool :=
  match s with
  | String.EmptyString => false
  | String.String a String.EmptyString => Ascii.eqb a c
  | String.String _ s => ends_with c s
  end.
Fixpoint contains_char (c : ascii) (s : string) : bool :=
  match s with
  | String.EmptyString => false
  | String.String a s => Ascii.eqb a c || contains_char c s
  end.

(** [struct RefName(String)]; the constructor is private to the module: a name
    of the program comes from [RefName_new] ([valid_name] below). *)
Record RefName : Type := MkRefName { as_str : string }.
#[global] Instance RefName_eq_dec : EqDecision RefName.
Proof. solve_decision. Defined.
#[global] Program Instance RefName_countable : Countable RefName :=
  inj_countable' as_str MkRefName _.
Next Obligation. by intros []. Qed.
#[global] Instance as_str_inj : Inj (=) (=) as_str.
Proof. intros [] []; simpl; congruence. Qed.
#[global] Instance RefName_OrdKey : OrdKey RefName := OrdKey_inj as_str.

(** The checks on one segment. *)
Definition segment_check (segment : string) : res () :=
  if decide (segment = "")
  then Err (InvalidRefName "consecutive slashes produce empty segment")
  else if starts_with "." segment
  then Err (InvalidRefName "segment must not start with '.'")
  else if contains_char "000" segment
  then Err (InvalidRefName "null byte in segment")
  else Ok ().

(** [RefName::new]; its [Deserialize] runs it on the decoded string. *)
Definition RefName_new (s : string) : res RefName :=
  if decide (s = "") then Err (InvalidRefName "name must not be empty")
  else if starts_with "/" s then Err (InvalidRefName "name must not start with '/'")
  else if ends_with "/" s then Err (InvalidRefName "name must not end with '/'")
  else _ ← for_each segment_check (split_on "/" s); Ok (MkRefName s).

(** [RefName::prefix]: what precedes the last ['/'], or the empty string. *)
Fixpoint rfind_prefix (s : string) : option string :=
  match s with
  | String.EmptyString => None
  | String.String a s =>
      match rfind_prefix s with
      | Some p => Some (String.String a p)
      | None => if Ascii.eqb a "/" then Some "" else None
      end
  end.
Definition name_prefix (n : RefName) : string := default "" (rfind_prefix (as_str n)).

(** A segment that is safe as one component of a file path. *)
Definition safe_segment (seg : string) : Prop :=
  seg ≠ "" ∧ starts_with "." seg = false ∧ contains_char "000" seg = false.

Definition valid_name (n : RefName) : Prop := RefName_new (as_str n) = Ok n.

Lemma split_on_cons c s : ∃ seg rest, split_on c s = seg :: rest.
Proof.
  destruct s as [|a s]; simpl; [by eexists _, _|].
  destruct (Ascii.eqb a c); [by eexists _, _|]. destruct (split_on c s); by eexists _, _.
Qed.

Lemma join_split c s : join_on c (split_on c s) = s.
Proof.
  induction s as [|a s IH]; [done|]. simpl. destruct (split_on_cons c s) as (seg & rest & Heq).
  rewrite Heq in IH |- *. destruct (Ascii.eqb_spec a c) as [->|].
  - change (String.String c (join_on c (seg :: rest)) = String.String c s). by rewrite IH.
  - destruct rest as [|x rest]; simpl in *; by rewrite <- IH.
Qed.

#[global] Instance split_on_inj c : Inj (=) (=) (split_on c).
Proof. intros x y H. by rewrite <- (join_split c x), H, join_split. Qed.

(** What precedes the first separator is determined. *)
Lemma sep_inj c a b x y : contains_char c a = false → contains_char c b = false →
  a +:+ String.String c x = b +:+ String.String c y → a = b ∧ x = y.
Proof.
  revert b. induction a as [|d a IH]; intros [|e b]; cbn [contains_char]; rewrite ?orb_false_iff.
  - by intros _ _ [= ->].
  - intros _ [He _] [= -> _]. by rewrite Ascii.eqb_refl in He.
  - intros [He _] _ [= -> _]. by rewrite Ascii.eqb_refl in He.
  - intros [_ Ha] [_ Hb] [= -> Heq]. by destruct (IH b Ha Hb Heq) as [-> ->].
Qed.

Lemma starts_with_split s :
  starts_with "/" s = true → "" ∈ split_on "/" s.
Proof.
  destruct s as [|a s]; [done|]. simpl. intros ->. left.
Qed.

Lemma ends_with_split s : ends_with "/" s = true → ∃ l, split_on "/" s = l ++ [""].
Proof.
  induction s as [|a s IH]; [done|]. simpl. destruct s as [|b s].
  - intros ->. by exists [""].
  - intros (l & Hl)%IH. rewrite Hl. destruct (Ascii.eqb a "/"); [by exists ("" :: l)|].
    destruct l as [|seg l]; [|by exists (String.String a seg :: l)].
    exfalso. apply (f_equal (join_on "/")) in Hl. by rewrite join_split in Hl.
Qed.

Lemma segment_check_Ok seg : segment_check seg = Ok () ↔ safe_segment seg.
Proof.
  unfold segment_check, safe_segment. case_decide; [naive_solver|].
  destruct (starts_with "." seg); [naive_solver|]. destruct (contains_char "000" seg); naive_solver.
Qed.

Lemma RefName_new_Ok s n :
  RefName_new s = Ok n ↔ n = MkRefName s ∧ ∀ seg, seg ∈ split_on "/" s → safe_segment seg.
Proof.
  unfold RefName_new. rewrite guard_Ok. split.
  - intros [Hne Hr]. destruct (starts_with "/" s), (ends_with "/" s); try done.
    apply bind_unit_Ok in Hr as [Hall [= <-]]. split; [done|]. intros seg Hin.
    apply segment_check_Ok. revert seg Hin. by apply for_each_Ok.
  - intros [-> Hall]. split.
    { intros ->. destruct (Hall "") as [[] _]; [left|done]. }
    destruct (starts_with "/" s) eqn:Hs.
    { apply starts_with_split, Hall in Hs as [[] _]. done. }
    destruct (ends_with "/" s) eqn:He.
    { apply ends_with_split in He as [l Hl]. destruct (Hall "") as [[] _]; [|done].
      rewrite Hl. apply elem_of_app. right. left. }
    apply bind_unit_Ok. split; [|done]. apply for_each_Ok. intros seg Hin.
    by apply segment_check_Ok, Hall.
Qed.

Lemma valid_name_segments n :
  valid_name n ↔ ∀ seg, seg ∈ split_on "/" (as_str n) → safe_segment seg.
Proof. unfold valid_name. rewrite RefName_new_Ok. destruct n; naive_solver. Qed.

Lemma RefName_new_valid s n : RefName_new s = Ok n → as_str n = s ∧ valid_name n.
Proof.
  intros Hn. pose proof Hn as [-> _]%RefName_new_Ok. split; [done|]. apply Hn.
Qed.

(** ** Refs *)
Record Tag : Type := MkTag {
  tag_target : ObjectId;
  tag_created_at : N;
  tag_message : option string
}.
Inductive TimelinePolicy : Type := FastForwardOnly | Append | Unrestricted.
Record Timeline : Type := MkTimeline {
  head : ObjectId;
  policy : TimelinePolicy;
  tl_created_at : N;
  tl_kind : string;
  expires_at : option N
}.
Definition default_kind : string := "persistent".
Inductive Ref : Type :=
| RTag (t : Tag)
| RTimeline (t : Timeline).

#[global] Instance Tag_eq_dec : EqDecision Tag. Proof. solve_decision. Defined.
#[global] Instance TimelinePolicy_eq_dec : EqDecision TimelinePolicy. Proof. solve_decision. Defined.
#[global] Instance Timeline_eq_dec : EqDecision Timeline. Proof. solve_decision. Defined.
#[global] Instance Ref_eq_dec : EqDecision Ref. Proof. solve_decision. Defined.

Definition with_head (tl : Timeline) (h : ObjectId) : Timeline :=
  MkTimeline h (policy tl) (tl_created_at tl) (tl_kind tl) (expires_at tl).
Definition with_target (t : Tag) (x : ObjectId) : Tag :=
  MkTag x (tag_created_at t) (tag_message t).
Lemma with_head_same (t : Timeline) : with_head t (head t) = t.
Proof. by destruct t. Qed.

(** ** The backend interface *)

(** A plan of absolute final values; [None] deletes. *)
Definition plan : Type := list (RefName * option Ref).

(** [trait RefBackend] *)
Class RefBackend (B : Type) := {
  be_get : B → RefName → res (option Ref);
  be_set : RefName → Ref → M B ();
  be_delete : RefName → M B ();
  be_list : B → string → res (list RefName);
  be_apply_atomic : plan → M B ();
  be_recover : M B ()
}.

(** The provided methods: apply each op in turn; nothing to recover. *)
Definition apply_in_turn {B} (set : RefName → Ref → M B ()) (delete : RefName → M B ())
    (p : plan) : M B () :=
  M_iter (λ e : RefName * option Ref,
    match e.2 with Some r => set e.1 r | None => delete e.1 end) p.
Definition nothing_to_recover {B} : M B () := mret ().

(** The effect of a plan on a map of refs. *)
Definition plan_apply (p : plan) (m : gmap RefName Ref) : gmap RefName Ref :=
  foldl (λ m (e : RefName * option Ref),
    match e.2 with Some r => <[e.1 := r]> m | None => delete e.1 m end) m p.

(** The contract: a backend denotes a map from valid names to refs. A read that
    succeeds is a lookup in it, and a stored ref can always be read; a write that
    succeeds updates it. *)
Class RefBackendLaws (B : Type) `{RefBackend B} := {
  be_inv : B → Prop;
  be_view : B → gmap RefName Ref;
  be_view_valid b n r : be_inv b → be_view b !! n = Some r → valid_name n;
  be_get_Ok b n v : be_inv b → valid_name n → be_get b n = Ok v → v = be_view b !! n;
  be_get_stored b n r : be_inv b → be_view b !! n = Some r → be_get b n = Ok (Some r);
  be_list_Ok b prefix l : be_inv b → be_list b prefix = Ok l →
    NoDup l ∧ Sorted key_le l ∧
    ∀ n, n ∈ l ↔ is_Some (be_view b !! n) ∧ String.prefix prefix (as_str n) = true;
  be_set_Ok b n r b' : be_inv b → valid_name n → be_set n r b = (Ok (), b') →
    be_inv b' ∧ be_view b' = <[n := r]> (be_view b);
  be_delete_Ok b n b' : be_inv b → valid_name n → be_delete n b = (Ok (), b') →
    be_inv b' ∧ be_view b' = delete n (be_view b);
  be_apply_Ok b p b' : be_inv b → Forall (λ e, valid_name e.1) p →
    be_apply_atomic p b = (Ok (), b') → be_inv b' ∧ be_view b' = plan_apply p (be_view b)
}.

(** ** [MemoryRefBackend]: a map from name strings *)
Abbreviation MemoryRefBackend := (gmap string Ref).

Definition mem_get (b : MemoryRefBackend) (n : RefName) : res (option Ref) := Ok (b !! as_str n).
Definition mem_set (n : RefName) (r : Ref) : M MemoryRefBackend () := modify (<[as_str n := r]>).
Definition mem_delete (n : RefName) : M MemoryRefBackend () := modify (delete (as_str n)).

(** [RefName::new(k).unwrap()] *)
Definition unwrap_name (k : string) : res RefName :=
  match RefName_new k with Ok n => Ok n | Err _ => Err (Panic "called `Result::unwrap()` on an `Err` value") end.

(** [.map(f).collect()] for a fallible [f]. *)
Fixpoint res_map {A B} (f : A → res B) (l : list A) : res (list B) :=
  match l with
  | [] => Ok []
  | x :: l => y ← f x; ys ← res_map f l; Ok (y :: ys)
  end.

Definition mem_list (b : MemoryRefBackend) (prefix : string) : res (list RefName) :=
  names ← res_map unwrap_name (filter (λ k, String.prefix prefix k) (map_to_list b).*1);
  Ok (merge_sort key_le names).

#[global] Instance mem_RefBackend : RefBackend MemoryRefBackend := {|
  be_get := mem_get;
  be_set := mem_set;
  be_delete := mem_delete;
  be_list := mem_list;
  be_apply_atomic := apply_in_turn mem_set mem_delete;
  be_recover := nothing_to_recover
|}.

Definition mem_ok (b : MemoryRefBackend) : Prop :=
  ∀ k r, b !! k = Some r → valid_name (MkRefName k).
Definition mem_view (b : MemoryRefBackend) : gmap RefName Ref := kmap MkRefName b.

#[global] Instance MkRefName_inj : Inj (=) (=) MkRefName.
Proof. congruence. Qed.

Lemma mem_view_lookup b n : mem_view b !! n = b !! as_str n.
Proof.
  unfold mem_view. destruct n as [s]. simpl.
  apply option_eq. intros r. rewrite (lookup_kmap_Some MkRefName b). naive_solver.
Qed.

Lemma mem_view_insert b n r : mem_view (<[as_str n := r]> b) = <[n := r]> (mem_view b).
Proof.
  apply map_eq. intros k. rewrite mem_view_lookup. destruct (decide (k = n)) as [->|Hk].
  - by rewrite !lookup_insert_eq.
  - rewrite !lookup_insert_ne, mem_view_lookup; [done|congruence|intros Heq%(inj as_str); congruence].
Qed.
Lemma mem_view_delete b n : mem_view (delete (as_str n) b) = delete n (mem_view b).
Proof.
  apply map_eq. intros k. rewrite mem_view_lookup. destruct (decide (k = n)) as [->|Hk].
  - by rewrite !lookup_delete_eq.
  - rewrite !lookup_delete_ne, mem_view_lookup; [done|congruence|intros Heq%(inj as_str); congruence].
Qed.

Lemma mem_ok_insert b n r : mem_ok b → valid_name n → mem_ok (<[as_str n := r]> b).
Proof.
  intros Hok Hn k r' [[<- <-]|[_ ?]]%lookup_insert_Some; [by destruct n|eauto].
Qed.
Lemma mem_ok_delete b n : mem_ok b → mem_ok (delete (as_str n) b).
Proof. intros Hok k r [_ ?]%lookup_delete_Some; eauto. Qed.

(** The plan never fails in memory. *)
Lemma mem_apply b p :
  ∃ b', apply_in_turn mem_set mem_delete p b = (Ok (), b') ∧
    mem_view b' = plan_apply p (mem_view b) ∧
    (mem_ok b → Forall (λ e, valid_name e.1) p → mem_ok b').
Proof.
  revert b. induction p as [|[n [r|]] p IH]; intros b; [by exists b|..].
  - destruct (IH (<[as_str n := r]> b)) as (b' & Hb' & Hv & Hok). exists b'. split; [done|].
    split; [by rewrite Hv, mem_view_insert|]. intros Hb [Hn Hp]%Forall_cons.
    apply Hok; [|done]. by apply mem_ok_insert.
  - destruct (IH (delete (as_str n) b)) as (b' & Hb' & Hv & Hok). exists b'. split; [done|].
    split; [by rewrite Hv, mem_view_delete|]. intros Hb [Hn Hp]%Forall_cons.
    apply Hok; [|done]. by apply mem_ok_delete.
Qed.

Lemma res_map_Ok {A B} (f : A → res B) l l' :
  res_map f l = Ok l' ↔ Forall2 (λ x y, f x = Ok y) l l'.
Proof.
  revert l'. induction l as [|x l IH]; intros l'; simpl.
  - split; [intros [= <-]; constructor|]. by intros ->%Forall2_nil_inv_l.
  - rewrite bind_Ok. setoid_rewrite bind_Ok. split.
    + intros (y & ? & ys & ?%IH & [= <-]). by constructor.
    + intros (y & ys & ? & ? & ->)%Forall2_cons_inv_l. exists y. split; [done|].
      exists ys. by rewrite IH.
Qed.

(** Listing never panics while every stored key is a valid name. *)
Lemma mem_list_total b prefix : mem_ok b →
  mem_list b prefix =
    Ok (merge_sort key_le (MkRefName <$> filter (λ k, String.prefix prefix k) (map_to_list b).*1)).
Proof.
  intros Hok. unfold mem_list.
  assert (∀ l, (∀ k, k ∈ l → is_Some (b !! k)) → res_map unwrap_name l = Ok (MkRefName <$> l)) as Hmap.
  { intros l Hl. apply res_map_Ok. apply Forall2_fmap_r, Forall_Forall2_diag, Forall_forall.
    intros k [r Hk]%Hl. unfold unwrap_name. pose proof (Hok k r Hk) as Hv. unfold valid_name in Hv. simpl in Hv. by rewrite Hv. }
  rewrite Hmap; [done|]. intros k [_ ([k' r] & -> & Hin)%list_elem_of_fmap]%list_elem_of_filter.
  apply elem_of_map_to_list in Hin. by eexists.
Qed.

#[global] Program Instance mem_RefBackendLaws : RefBackendLaws MemoryRefBackend := {|
  be_inv := mem_ok;
  be_view := mem_view
|}.
Next Obligation.
  intros b n r Hok. rewrite mem_view_lookup. intros ?%Hok. by destruct n.
Qed.
Next Obligation. intros b n v _ _ [= <-]. by rewrite mem_view_lookup. Qed.
Next Obligation. intros b n r _. rewrite mem_view_lookup. unfold be_get. simpl. unfold mem_get. by intros ->. Qed.
Next Obligation.
  intros b prefix l Hok Hl. simpl in Hl. rewrite mem_list_total in Hl by done.
  injection Hl as <-. split.
  { rewrite merge_sort_Permutation. apply NoDup_fmap_2; [apply _|].
    apply NoDup_filter, NoDup_fst_map_to_list. }
  split; [apply (Sorted_merge_sort _)|]. intros [k].
  rewrite merge_sort_Permutation, mem_view_lookup. rewrite list_elem_of_fmap. simpl. split.
  - intros (? & [= ->] & [Hp ([k' r] & -> & Hin)%list_elem_of_fmap]%list_elem_of_filter).
    apply elem_of_map_to_list in Hin. simpl. split; [by eexists|by apply Is_true_true].
  - intros [[r Hr] Hp]. exists k. split; [done|]. apply list_elem_of_filter.
    split; [by apply Is_true_true|]. apply list_elem_of_fmap. exists (k, r).
    by rewrite elem_of_map_to_list.
Qed.
Next Obligation.
  intros b n r b' Hok Hn [= <-]. split; [by apply mem_ok_insert|apply mem_view_insert].
Qed.
Next Obligation.
  intros b n b' Hok _ [= <-]. split; [by apply mem_ok_delete|apply mem_view_delete].
Qed.
Next Obligation.
  intros b p b' Hok Hp Ha. destruct (mem_apply b p) as (b'' & Hb & Hv & Hinv).
  simpl in Ha. rewrite Hb in Ha. injection Ha as <-. auto.
Qed.
