(* ===== verification/RefStore.v ===== *)
(** * RefStore: ref operations and transactions

    The methods of [RefStore] (src/src/refs/mod.rs) over any backend, and the
    transactions of src/src/refs/transaction.rs: a list of buffered operations is
    resolved against the current refs into a plan of absolute values, which the
    backend applies atomically.

    The specification [op_spec] executes one operation directly on a map of refs.
    The theorems: on every backend that keeps its contract a committed transaction
    has the effect of running its operations one after the other, in memory a
    failing one changes nothing and reports the error of the first failing
    operation, and a compare-and-swap admits at most one of two competing
    writers. *)

From S2P Require Import Prelude Ids Objects Refs.

Definition err_exists (n : RefName) : Error := Storage ("ref already exists: " +:+ as_str n).
Definition err_not_found (n : RefName) : Error := Storage ("ref not found: " +:+ as_str n).
Definition err_not_tag (n : RefName) : Error :=
  WrongRefKind ("'" +:+ as_str n +:+ "' is a timeline, not a tag").
Definition err_not_timeline (n : RefName) : Error :=
  WrongRefKind ("'" +:+ as_str n +:+ "' is a tag, not a timeline").
Definition err_precondition (n : RefName) : Error :=
  TransactionConflict ("precondition failed for '" +:+ as_str n +:+ "'").
Definition err_head (n : RefName) : Error :=
  TransactionConflict ("head of '" +:+ as_str n +:+ "' is not the expected value").

(** ** [RefStore] *)
Section store.
Context {B : Type} `{RefBackend B}.

Definition create_tag (name : RefName) (target : ObjectId) (message : option string) (now : N)
    : M B () :=
  r ← gets (λ b, be_get b name);
  match r with
  | Some _ => throw (err_exists name)
  | None => be_set name (RTag (MkTag target now message))
  end.

Definition move_tag (name : RefName) (target : ObjectId) : M B () :=
  r ← gets (λ b, be_get b name);
  match r with
  | Some (RTag tag) => be_set name (RTag (with_target tag target))
  | Some (RTimeline _) => throw (err_not_tag name)
  | None => throw (err_not_found name)
  end.

Definition get_tag (b : B) (name : RefName) : res (option Tag) :=
  r ← be_get b name;
  match r with
  | Some (RTag t) => Ok (Some t)
  | Some (RTimeline _) => Err (err_not_tag name)
  | None => Ok None
  end.

Definition create_timeline (name : RefName) (h : ObjectId) (p : TimelinePolicy) (now : N)
    (kind : string) (expires : option N) : M B () :=
  r ← gets (λ b, be_get b name);
  match r with
  | Some _ => throw (err_exists name)
  | None => be_set name (RTimeline (MkTimeline h p now kind expires))
  end.

Definition advance_head (name : RefName) (new_head : ObjectId) : M B () :=
  r ← gets (λ b, be_get b name);
  match r with
  | Some (RTimeline tl) => be_set name (RTimeline (with_head tl new_head))
  | Some (RTag _) => throw (err_not_timeline name)
  | None => throw (err_not_found name)
  end.

Definition get_timeline (b : B) (name : RefName) : res (option Timeline) :=
  r ← be_get b name;
  match r with
  | Some (RTimeline t) => Ok (Some t)
  | Some (RTag _) => Err (err_not_timeline name)
  | None => Ok None
  end.

Definition get_ref (b : B) (name : RefName) : res (option Ref) := be_get b name.
Definition delete_ref (name : RefName) : M B () := be_delete name.
Definition list_refs (b : B) (prefix : string) : res (list RefName) := be_list b prefix.
Definition set_raw (name : RefName) (r : Ref) : M B () := be_set name r.
End store.

(** ** Transactions *)
Inductive RefOp : Type :=
| CreateTag (name : RefName) (target : ObjectId) (message : option string) (now : N)
| MoveTag (name : RefName) (target : ObjectId)
| CreateTimeline (name : RefName) (h : ObjectId) (p : TimelinePolicy) (now : N)
    (kind : string) (expires : option N)
| AdvanceHead (name : RefName) (new_head : ObjectId)
| SetRef (name : RefName) (value : Ref)
| DeleteRef (name : RefName)
| Expect (name : RefName) (expected : option Ref)
| AdvanceHeadIf (name : RefName) (expected_old new_head : ObjectId).

Definition op_name (op : RefOp) : RefName :=
  match op with
  | CreateTag n _ _ _ | MoveTag n _ | CreateTimeline n _ _ _ _ _ | AdvanceHead n _
  | SetRef n _ | DeleteRef n | Expect n _ | AdvanceHeadIf n _ _ => n
  end.

(** Final values by name; [None] is a tombstone. *)
Abbreviation overlay := (gmap RefName (option Ref)).

Section resolve.
Context (get : RefName → res (option Ref)).

(** The closure [current]: an earlier op's value, else the backend's. *)
Definition current (o : overlay) (name : RefName) : res (option Ref) :=
  match o !! name with Some v => Ok v | None => get name end.

(** One iteration of [for op in ops]. *)
Definition resolve_op (o : overlay) (op : RefOp) : res overlay :=
  match op with
  | CreateTag name target message now =>
      cur ← current o name;
      match cur with
      | Some _ => Err (err_exists name)
      | None => Ok (<[name := Some (RTag (MkTag target now message))]> o)
      end
  | MoveTag name target =>
      cur ← current o name;
      match cur with
      | Some (RTag t) => Ok (<[name := Some (RTag (with_target t target))]> o)
      | Some (RTimeline _) => Err (err_not_tag name)
      | None => Err (err_not_found name)
      end
  | CreateTimeline name h p now kind expires =>
      cur ← current o name;
      match cur with
      | Some _ => Err (err_exists name)
      | None => Ok (<[name := Some (RTimeline (MkTimeline h p now kind expires))]> o)
      end
  | AdvanceHead name new_head =>
      cur ← current o name;
      match cur with
      | Some (RTimeline tl) => Ok (<[name := Some (RTimeline (with_head tl new_head))]> o)
      | Some (RTag _) => Err (err_not_timeline name)
      | None => Err (err_not_found name)
      end
  | SetRef name value => Ok (<[name := Some value]> o)
  | DeleteRef name => Ok (<[name := None]> o)
  | Expect name expected =>
      cur ← current o name;
      if decide (cur ≠ expected) then Err (err_precondition name) else Ok o
  | AdvanceHeadIf name expected_old new_head =>
      cur ← current o name;
      match cur with
      | Some (RTimeline tl) =>
          if decide (head tl = expected_old)
          then Ok (<[name := Some (RTimeline (with_head tl new_head))]> o)
          else Err (err_head name)
      | Some (RTag _) => Err (err_not_timeline name)
      | None => Err (err_not_found name)
      end
  end.

Definition resolve (ops : list RefOp) : res plan :=
  o ← res_fold resolve_op ∅ ops;
  Ok (btree_iter o).
End resolve.

(** [RefStore::commit_transaction], run under the commit lock. *)
Definition commit_transaction {B} `{RefBackend B} (ops : list RefOp) : M B () :=
  p ← gets (λ b, resolve (be_get b) ops);
  be_apply_atomic p.

(** ** The specification: one operation on a map of refs *)
Definition op_spec (m : gmap RefName Ref) (op : RefOp) : res (gmap RefName Ref) :=
  match op with
  | CreateTag n target message now =>
      match m !! n with
      | Some _ => Err (err_exists n)
      | None => Ok (<[n := RTag (MkTag target now message)]> m)
      end
  | MoveTag n target =>
      match m !! n with
      | Some (RTag t) => Ok (<[n := RTag (with_target t target)]> m)
      | Some (RTimeline _) => Err (err_not_tag n)
      | None => Err (err_not_found n)
      end
  | CreateTimeline n h p now kind expires =>
      match m !! n with
      | Some _ => Err (err_exists n)
      | None => Ok (<[n := RTimeline (MkTimeline h p now kind expires)]> m)
      end
  | AdvanceHead n new_head =>
      match m !! n with
      | Some (RTimeline tl) => Ok (<[n := RTimeline (with_head tl new_head)]> m)
      | Some (RTag _) => Err (err_not_timeline n)
      | None => Err (err_not_found n)
      end
  | SetRef n value => Ok (<[n := value]> m)
  | DeleteRef n => Ok (delete n m)
  | Expect n expected => if decide (m !! n = expected) then Ok m else Err (err_precondition n)
  | AdvanceHeadIf n expected_old new_head =>
      match m !! n with
      | Some (RTimeline tl) =>
          if decide (head tl = expected_old)
          then Ok (<[n := RTimeline (with_head tl new_head)]> m)
          else Err (err_head n)
      | Some (RTag _) => Err (err_not_timeline n)
      | None => Err (err_not_found n)
      end
  end.

Definition ops_spec : gmap RefName Ref → list RefOp → res (gmap RefName Ref) := res_fold op_spec.

(** ** The overlay represents the map the operations have produced so far *)
Definition layered (o : overlay) (m : gmap RefName Ref) : gmap RefName Ref :=
  merge (λ v r, match v with Some v => v | None => r end) o m.

Lemma layered_lookup o m n :
  layered o m !! n = match o !! n with Some v => v | None => m !! n end.
Proof. unfold layered. rewrite lookup_merge. by destruct (o !! n), (m !! n). Qed.

Lemma layered_empty m : layered ∅ m = m.
Proof. apply map_eq. intros n. by rewrite layered_lookup, lookup_empty. Qed.

Lemma layered_set o m n r : layered (<[n := Some r]> o) m = <[n := r]> (layered o m).
Proof.
  apply map_eq. intros k. rewrite layered_lookup. destruct (decide (n = k)) as [->|].
  - by rewrite !lookup_insert_eq.
  - by rewrite !lookup_insert_ne, layered_lookup by done.
Qed.

Lemma layered_delete o m n : layered (<[n := None]> o) m = delete n (layered o m).
Proof.
  apply map_eq. intros k. rewrite layered_lookup. destruct (decide (n = k)) as [->|].
  - by rewrite lookup_insert_eq, lookup_delete_eq.
  - by rewrite lookup_insert_ne, lookup_delete_ne, layered_lookup by done.
Qed.

Lemma plan_apply_lookup (l : plan) (m : gmap RefName Ref) n : NoDup l.*1 →
  plan_apply l m !! n = match (list_to_map l : overlay) !! n with Some v => v | None => m !! n end.
Proof.
  unfold plan_apply. revert m. induction l as [|[k v] l IH]; intros m Hnd; [done|].
  apply NoDup_cons in Hnd as [Hk Hnd]. simpl. rewrite IH by done.
  destruct (decide (n = k)) as [->|Hne].
  - rewrite (not_elem_of_list_to_map_1 l k) by done. rewrite lookup_insert_eq.
    destruct v; [by rewrite lookup_insert_eq|by rewrite lookup_delete_eq].
  - rewrite lookup_insert_ne by done. destruct (_ !! n); [done|].
    destruct v; [by rewrite lookup_insert_ne|by rewrite lookup_delete_ne].
Qed.

Lemma btree_list_to_map {K} `{OrdKey K} {A} (m : gmap K A) : list_to_map (btree_iter m) = m.
Proof.
  rewrite (list_to_map_proper (btree_iter m) (map_to_list m)).
  - apply list_to_map_to_list.
  - apply NoDup_btree_keys.
  - apply btree_iter_perm.
Qed.

Lemma layered_plan o m : plan_apply (btree_iter o) m = layered o m.
Proof.
  apply map_eq. intros n. rewrite plan_apply_lookup by apply NoDup_btree_keys.
  by rewrite btree_list_to_map, layered_lookup.
Qed.

(** ** Resolution refines the specification *)
Section refine.
Context (get : RefName → res (option Ref)) (m : gmap RefName Ref).
Context (Hget : ∀ n v, valid_name n → get n = Ok v → v = m !! n).

Lemma current_layered o n v :
  valid_name n → current get o n = Ok v → v = layered o m !! n.
Proof.
  unfold current. rewrite layered_lookup. intros Hn. destruct (o !! n); [congruence|]. by apply Hget.
Qed.

(** A step that succeeds is the specification's step; one that fails does so
    either because the backend could not be read or as the specification does. *)
Lemma resolve_op_spec o op : valid_name (op_name op) →
  match resolve_op get o op with
  | Ok o' => op_spec (layered o m) op = Ok (layered o' m)
  | Err e => get (op_name op) = Err e ∨ op_spec (layered o m) op = Err e
  end.
Proof.
  intros Hn.
  assert (∀ e, current get o (op_name op) = Err e → get (op_name op) = Err e) as Herr.
  { unfold current. intros e. by destruct (o !! _). }
  pose proof (current_layered o (op_name op)) as Hcur.
  destruct op; simpl in *;
    try (destruct (current get o name) as [v|e] eqn:Hc; simpl;
      [specialize (Hcur v Hn eq_refl); rewrite <- Hcur|by left; apply Herr]).
  all: repeat case_match; simplify_eq; try done; rewrite ?layered_set, ?layered_delete; auto.
Qed.

Lemma resolve_spec o ops : Forall (λ op, valid_name (op_name op)) ops →
  match res_fold (resolve_op get) o ops with
  | Ok o' => ops_spec (layered o m) ops = Ok (layered o' m)
  | Err e => (∃ op, op ∈ ops ∧ get (op_name op) = Err e) ∨ ops_spec (layered o m) ops = Err e
  end.
Proof.
  revert o. induction ops as [|op ops IH]; intros o Hv; [done|].
  apply Forall_cons in Hv as [Hn Hv]. pose proof (resolve_op_spec o op Hn) as Hop.
  unfold ops_spec in *. simpl.
  destruct (resolve_op get o op) as [o'|e]; simpl.
  - specialize (IH o' Hv). destruct (res_fold _ o' ops); rewrite Hop; simpl; [done|].
    destruct IH as [(op' & ? & ?)|?]; [left|by right]. exists op'. split; [by right|done].
  - destruct Hop as [?|Hop]; [left|right; by rewrite Hop]. exists op. split; [left|done].
Qed.
End refine.

(** The names of a plan are names of the operations. *)
Lemma resolve_op_names get o op o' n :
  resolve_op get o op = Ok o' → is_Some (o' !! n) → n = op_name op ∨ is_Some (o !! n).
Proof.
  intros Hr Ho. destruct op; simpl in *;
    try (apply bind_Ok in Hr as (v & _ & Hr)); repeat case_match; simplify_eq; try done; auto;
    apply lookup_insert_is_Some in Ho; naive_solver.
Qed.

Lemma resolve_names get ops p : resolve get ops = Ok p →
  Forall (λ op, valid_name (op_name op)) ops → Forall (λ e, valid_name e.1) p.
Proof.
  unfold resolve. rewrite bind_Ok. intros (o & Ho & [= <-]) Hv.
  apply Forall_forall. intros [n v] Hin. apply elem_of_btree_iter in Hin. simpl.
  assert (∀ o0, res_fold (resolve_op get) o0 ops = Ok o →
    is_Some (o !! n) → valid_name n ∨ is_Some (o0 !! n)) as Hnames.
  { clear Ho. induction Hv as [|op ops Hop Hv IH]; intros o0 Ho.
    - injection Ho as <-. auto.
    - simpl in Ho. apply bind_Ok in Ho as (o1 & H1 & Ho). intros Hs.
      destruct (IH o1 Ho Hs) as [|Hs1]; [by left|].
      destruct (resolve_op_names _ _ _ _ _ H1 Hs1) as [->|]; auto. }
  destruct (Hnames ∅ Ho) as [|[? Hno]]; [by eexists|done|by rewrite lookup_empty in Hno].
Qed.

(** A committed transaction has the effect of its operations in sequence. *)
Lemma commit_refines {B} `{RefBackendLaws B} ops b b' :
  be_inv b → Forall (λ op, valid_name (op_name op)) ops →
  commit_transaction ops b = (Ok (), b') →
  be_inv b' ∧ ops_spec (be_view b) ops = Ok (be_view b').
Proof.
  intros Hb Hv. unfold commit_transaction. rewrite M_bind_Ok.
  intros (p & s & Hp & Ha). unfold gets in Hp. injection Hp as Hp <-.
  destruct (be_apply_Ok b p b' Hb) as [Hinv ->]; [|done|].
  { by eapply resolve_names. }
  split; [done|]. unfold resolve in Hp. apply bind_Ok in Hp as (o & Ho & [= <-]).
  rewrite layered_plan. rewrite <- (layered_empty (be_view b)) at 1.
  pose proof (resolve_spec (be_get b) (be_view b) (λ n v Hn, be_get_Ok b n v Hb Hn) ∅ ops Hv) as Hs.
  by rewrite Ho in Hs.
Qed.

(** A stored ref is read back after any committed transaction that leaves it. *)
Lemma commit_stored {B} `{RefBackendLaws B} ops b b' m n r :
  be_inv b → Forall (λ op, valid_name (op_name op)) ops →
  commit_transaction ops b = (Ok (), b') → ops_spec (be_view b) ops = Ok m →
  m !! n = Some r → be_inv b' ∧ be_get b' n = Ok (Some r).
Proof.
  intros Hb Hv Hc Hm Hn. destruct (commit_refines ops b b' Hb Hv Hc) as [Hb' Hs].
  split; [done|]. apply be_get_stored; [done|]. congruence.
Qed.

(** Operations on other names leave a name's entry alone. *)
Lemma resolve_other get ops o o' n :
  res_fold (resolve_op get) o ops = Ok o' → Forall (λ op, op_name op ≠ n) ops →
  o !! n = None → o' !! n = None.
Proof.
  intros Hr Hn. revert o Hr. induction Hn as [|op ops Hop _ IH]; intros o Hr Ho.
  - by injection Hr as <-.
  - simpl in Hr. apply bind_Ok in Hr as (o1 & H1 & Hr). apply (IH o1 Hr).
    apply eq_None_not_Some. intros Hs. destruct (resolve_op_names _ _ _ _ _ H1 Hs) as [->|[??]]; [done|congruence].
Qed.

(** A commit whose resolution fails changes nothing. *)
Lemma commit_resolve_Err {B} `{RefBackend B} ops (b : B) e :
  resolve (be_get b) ops = Err e → commit_transaction ops b = (Err e, b).
Proof. intros Hr. unfold commit_transaction, gets, mbind, M_bind. by rewrite Hr. Qed.

Lemma commit_memory_spec (b : MemoryRefBackend) (ops : list RefOp) :
  mem_ok b → Forall (λ op, valid_name (op_name op)) ops →
  match ops_spec (mem_view b) ops with
  | Ok m => ∃ b', commit_transaction ops b = (Ok (), b') ∧ mem_view b' = m ∧ mem_ok b'
  | Err e => commit_transaction ops b = (Err e, b)
  end.
Proof.
  intros Hb Hv.
  pose proof (resolve_spec (mem_get b) (mem_view b)
    (λ n v Hn, be_get_Ok b n v Hb Hn) ∅ ops Hv) as Hs. rewrite layered_empty in Hs.
  assert (commit_transaction ops b =
    match resolve (mem_get b) ops with Ok p => be_apply_atomic p b | Err e => (Err e, b) end) as ->.
  { unfold commit_transaction, gets, mbind, M_bind. simpl. by destruct (resolve _ ops). }
  unfold resolve. destruct (res_fold _ ∅ ops) as [o|e] eqn:Ho; simpl.
  - rewrite Hs. destruct (mem_apply b (btree_iter o)) as (b' & Hb' & Hview & Hok).
    exists b'. split; [done|]. split; [by rewrite Hview, layered_plan|]. apply Hok; [done|].
    apply (resolve_names (mem_get b) ops); [|done]. unfold resolve. by rewrite Ho.
  - destruct Hs as [(op & _ & Hg)|Hs]; [by unfold mem_get in Hg|]. by rewrite Hs.
Qed.

(** [C7] Transactions are all-or-nothing and sequential: on the in-memory backend,
    committing a list of operations leaves exactly the refs that executing the
    operations one after the other (each seeing the effects of the earlier ones)
    would leave; if one of them is rejected - a create of an existing ref, a move of
    a missing ref or of one of the other kind, a failed compare-and-swap - the commit
    returns that operation's error and the refs are untouched. *)
Theorem commit_memory_atomic (b : MemoryRefBackend) (ops : list RefOp) :
  mem_ok b → Forall (λ op, valid_name (op_name op)) ops →
  match ops_spec (mem_view b) ops with
  | Ok m => ∃ b', commit_transaction ops b = (Ok (), b') ∧ mem_view b' = m ∧ mem_ok b'
  | Err e => commit_transaction ops b = (Err e, b)
  end.
Proof. apply commit_memory_spec. Qed.

(** Compare-and-swap excludes lost updates on every backend that keeps the
    contract: once a committer has advanced a timeline from [old] to a different
    head, a second transaction [pre ++ [AdvanceHeadIf n old h2] ++ post] built
    against [old], whose earlier operations do not touch the timeline, cannot
    commit. *)
Theorem cas_excludes_lost_update {B} `{RefBackendLaws B} (b b1 : B)
    (n : RefName) (old h1 h2 : ObjectId) (pre post : list RefOp) :
  be_inv b → valid_name n → h1 ≠ old →
  commit_transaction [AdvanceHeadIf n old h1] b = (Ok (), b1) →
  Forall (λ op, valid_name (op_name op) ∧ op_name op ≠ n) pre →
  Forall (λ op, valid_name (op_name op)) post →
  ∃ e, commit_transaction (pre ++ AdvanceHeadIf n old h2 :: post) b1 = (Err e, b1).
Proof.
  intros Hb Hn Hne Hc Hpre Hpost.
  destruct (commit_refines [AdvanceHeadIf n old h1] b b1 Hb ltac:(by repeat constructor) Hc) as [Hb1 Hs].
  unfold ops_spec in Hs. simpl in Hs. apply bind_Ok in Hs as (m & Hm & [= Hmv]).
  destruct (be_view b !! n) as [[|tl]|] eqn:Hbn; try done.
  case_decide; [|done]. injection Hm as Hm.
  assert (be_get b1 n = Ok (Some (RTimeline (with_head tl h1)))) as Hg.
  { apply be_get_stored; [done|]. by rewrite <- Hmv, <- Hm, lookup_insert_eq. }
  assert (∃ e, resolve (be_get b1) (pre ++ AdvanceHeadIf n old h2 :: post) = Err e) as [e He].
  { unfold resolve. rewrite res_fold_app.
    destruct (res_fold (resolve_op (be_get b1)) ∅ pre) as [o|e] eqn:Ho; simpl; [|by eexists].
    assert (o !! n = None) as Hon.
    { eapply resolve_other; [done| |apply lookup_empty]. eapply Forall_impl; [done|]. naive_solver. }
    unfold current. rewrite Hon, Hg. simpl. rewrite decide_False by done. by eexists. }
  exists e. by apply commit_resolve_Err.
Qed.

(** ** Concrete runs *)
Definition ex_id (b : byte) : ObjectId := id_of_bytes [b].
Definition ex_main : RefName := MkRefName "main".
Definition ex_tag : RefName := MkRefName "v1".
Definition ex_refs : MemoryRefBackend :=
  {[ "main" := RTimeline (MkTimeline (ex_id x01) FastForwardOnly 0 "persistent" None) ]}.

Lemma ex_refs_ok : mem_ok ex_refs.
Proof. intros k r Hk. unfold ex_refs in Hk. apply lookup_singleton_Some in Hk as [<- _]. reflexivity. Qed.

Definition ex_ops : list RefOp :=
  [AdvanceHeadIf ex_main (ex_id x01) (ex_id x02); CreateTag ex_tag (ex_id x02) None 7].
Definition ex_stale : list RefOp :=
  [CreateTag ex_tag (ex_id x02) None 7; AdvanceHeadIf ex_main (ex_id x03) (ex_id x02)].

(** The value a run leaves at a name. *)
Definition ref_after (r : res (gmap RefName Ref)) (n : RefName) : res (option Ref) :=
  m ← r; Ok (m !! n).

Lemma commit_memory_atomic_witness :
  (∃ b', commit_transaction ex_ops ex_refs = (Ok (), b') ∧
     mem_get b' ex_tag = Ok (Some (RTag (MkTag (ex_id x02) 7 None)))) ∧
  commit_transaction ex_stale ex_refs = (Err (err_head ex_main), ex_refs).
Proof.
  split.
  - pose proof (commit_memory_atomic ex_refs ex_ops ex_refs_ok ltac:(repeat constructor)) as Hc.
    assert (ref_after (ops_spec (mem_view ex_refs) ex_ops) ex_tag =
      Ok (Some (RTag (MkTag (ex_id x02) 7 None)))) as Ht by (vm_compute; reflexivity).
    destruct (ops_spec (mem_view ex_refs) ex_ops) as [m|e]; [|discriminate Ht].
    destruct Hc as (b' & Hb' & Hv & _). exists b'. split; [exact Hb'|].
    unfold mem_get. rewrite <- mem_view_lookup, Hv. exact Ht.
  - pose proof (commit_memory_atomic ex_refs ex_stale ex_refs_ok ltac:(repeat constructor)) as Hc.
    assert (ref_after (ops_spec (mem_view ex_refs) ex_stale) ex_tag = Err (err_head ex_main)) as Ht
      by (vm_compute; reflexivity).
    destruct (ops_spec (mem_view ex_refs) ex_stale) as [m|e]; [discriminate Ht|].
    injection Ht as ->. exact Hc.
Defined.

Lemma cas_excludes_lost_update_witness :
  ∃ b1 e, commit_transaction [AdvanceHeadIf ex_main (ex_id x01) (ex_id x02)] ex_refs = (Ok (), b1) ∧
    commit_transaction ([CreateTag ex_tag (ex_id x02) None 7] ++
      AdvanceHeadIf ex_main (ex_id x01) (ex_id x03) :: []) b1 = (Err e, b1).
Proof.
  assert (∃ b1, commit_transaction [AdvanceHeadIf ex_main (ex_id x01) (ex_id x02)] ex_refs = (Ok (), b1))
    as [b1 H1] by (eexists; vm_compute; reflexivity).
  exists b1.
  destruct (cas_excludes_lost_update ex_refs b1 ex_main (ex_id x01) (ex_id x02) (ex_id x03)
    [CreateTag ex_tag (ex_id x02) None 7] []) as [e He];
    [exact ex_refs_ok|reflexivity|by vm_compute|exact H1|by repeat constructor|constructor|].
  exists e. split; [exact H1|exact He].
Defined.
