(* ===== verification/RefsDisk.v ===== *)
(** * RefsDisk: the on-disk ref backend of [src/src/refs/disk.rs]

    One file per ref under [refs/], directories for the segments of a name, and a
    write-ahead journal under [refs/.txn].  The state is the part of the file
    system the backend touches; every system call that changes it is one step, so
    the states a crash can leave behind are the states between the steps of
    [apply_atomic].

    The theorems: the backend keeps the contract of [Refs.v]; a crash anywhere
    inside a commit is completed or undone by [recover], never left half applied;
    and a plan whose names clash as file and directory defeats this (the journal
    of a failed commit stays and blocks recovery).

    postcard, BLAKE3 and the process id are parameters; of the codec the theorems
    use that decoding inverts encoding. *)

From S2P Require Import Prelude Ids Objects Refs RefStore.
From Stdlib Require Import Ascii.

Class RefCodec := {
  ref_enc : Ref → res bytes;
  ref_dec : bytes → res Ref;
  plan_enc : plan → res bytes;
  plan_dec : bytes → res plan;
  blake3_hex : bytes → string;
  process_id : N
}.

(** postcard's round trips; decoding a plan validates its names, so its law asks
    for valid ones. *)
Class RefCodecLaws `{RefCodec} := {
  ref_dec_enc r data : ref_enc r = Ok data → ref_dec data = Ok r;
  plan_dec_enc p data : Forall (λ e, valid_name e.1) p → plan_enc p = Ok data → plan_dec data = Ok p
}.

(** A path below [refs/], as its components. *)
Abbreviation path := (list string).

(** [files]: regular files below [refs/] outside [.txn]; [dirs]: directories below
    [refs/]; [txn]: the files of [refs/.txn] (a missing directory reads as an empty
    one); [journal_seq]: the process-wide counter. *)
Record RefDisk : Type := MkDisk {
  files : gmap path bytes;
  dirs : gset path;
  txn : gmap string bytes;
  journal_seq : N
}.

Definition set_files (f : gmap path bytes → gmap path bytes) (d : RefDisk) : RefDisk :=
  MkDisk (f (files d)) (dirs d) (txn d) (journal_seq d).
Definition set_txn (f : gmap string bytes → gmap string bytes) (d : RefDisk) : RefDisk :=
  MkDisk (files d) (dirs d) (f (txn d)) (journal_seq d).
Definition add_dirs (l : list path) (d : RefDisk) : RefDisk :=
  MkDisk (files d) (list_to_set l ∪ dirs d) (txn d) (journal_seq d).
Definition bump_seq (d : RefDisk) : RefDisk :=
  MkDisk (files d) (dirs d) (txn d) (journal_seq d + 1).

(** ** Paths *)

(** [ref_path], below [refs/]. *)
Definition ref_path (n : RefName) : path := split_on "/" (as_str n).

(** The proper non-empty prefixes of a path: its parent directories. *)
Definition ancestors (p : path) : list path := (λ i, take i p) <$> seq 1 (length p - 1).

(** Some parent of [p] is a regular file. *)
Definition below_file (d : RefDisk) (p : path) : bool :=
  existsb (λ a, bool_decide (is_Some (files d !! a))) (ancestors p).

(** [path.with_file_name(format!(".{}.tmp", file_name))] *)
Definition tmp_path (p : path) : path :=
  take (length p - 1) p ++ ["." +:+ default "" (last p) +:+ ".tmp"].

(** [path.extension()]: what follows the last dot, unless the only dot leads the
    name. *)
Definition extension (name : string) : option string :=
  match split_on "." name with
  | [] | [_] | ["";_] => None
  | parts => last parts
  end.

(** ** System calls *)
Definition io : Type := M RefDisk ().

(** [fs::create_dir_all(path.parent())] *)
Definition create_parents (p : path) : io := λ d,
  if below_file d p then (Err (Io NotADirectory), d) else (Ok (), add_dirs (ancestors p) d).

(** [fs::write] *)
Definition write_file (p : path) (data : res bytes) : io := λ d,
  match data with Err e => (Err e, d) | Ok data => (Ok (), set_files (<[p := data]>) d) end.

(** [fs::rename] onto a regular file or nothing; a directory is refused. *)
Definition rename_file (src dst : path) : io := λ d,
  match files d !! src with
  | None => (Err (Io NotFound), d)
  | Some data =>
      if decide (dst ∈ dirs d) then (Err (Io IsADirectory), d)
      else (Ok (), set_files (λ f, <[dst := data]> (delete src f)) d)
  end.

(** [fs::read], the outcome of a missing file told apart by kind. *)
Definition read_file (d : RefDisk) (p : path) : Result io_error bytes :=
  match files d !! p with
  | Some data => Ok data
  | None => if decide (p ∈ dirs d) then Err IsADirectory
            else if below_file d p then Err NotADirectory else Err NotFound
  end.

(** [fs::remove_file], with [NotFound] taken as success. *)
Definition remove_file (p : path) : io := λ d,
  match files d !! p with
  | Some _ => (Ok (), set_files (delete p) d)
  | None => if decide (p ∈ dirs d) then (Err (Io IsADirectory), d)
            else if below_file d p then (Err (Io NotADirectory), d) else (Ok (), d)
  end.

Definition txn_create (name : string) : io := λ d, (Ok (), set_txn (<[name := []]>) d).
Definition txn_write (name : string) (data : bytes) : io := λ d, (Ok (), set_txn (<[name := data]>) d).
Definition txn_rename (src dst : string) : io := λ d,
  match txn d !! src with
  | None => (Err (Io NotFound), d)
  | Some data => (Ok (), set_txn (λ t, <[dst := data]> (delete src t)) d)
  end.
Definition txn_remove (name : string) : io := λ d,
  match txn d !! name with
  | None => (Err (Io NotFound), d)
  | Some _ => (Ok (), set_txn (delete name) d)
  end.

(** Runs steps in order, stopping at the first error. *)
Definition run (l : list io) : io := M_iter id l.

(** The states in which the machine can stop while running [l]. *)
Inductive crash : list io → RefDisk → RefDisk → Prop :=
| crash_here l d : crash l d d
| crash_after s l d d1 d2 : s d = (Ok (), d1) → crash l d1 d2 → crash (s :: l) d d2.

Section backend.
Context `{RefCodec}.

(** ** The methods *)
Definition disk_get (d : RefDisk) (n : RefName) : res (option Ref) :=
  match read_file d (ref_path n) with
  | Ok data => r ← ref_dec data; Ok (Some r)
  | Err NotFound => Ok None
  | Err e => Err (Io e)
  end.

Definition set_steps (n : RefName) (r : Ref) : list io :=
  let p := ref_path n in
  [create_parents p; write_file (tmp_path p) (ref_enc r); rename_file (tmp_path p) p].
Definition disk_set (n : RefName) (r : Ref) : io := run (set_steps n r).

Definition delete_steps (n : RefName) : list io := [remove_file (ref_path n)].
Definition disk_delete (n : RefName) : io := run (delete_steps n).

(** [walk_refs]: every file none of whose components is hidden, named by its
    joined components, if that is a ref name with the prefix.  (A component of a
    real path contains no separator: [p] is the path of the joined name.) *)
Definition walk_entry (prefix : string) (p : path) : option RefName :=
  if existsb (starts_with ".") p then None
  else let name := join_on "/" p in
       if String.prefix prefix name
       then match RefName_new name with
            | Ok n => if decide (ref_path n = p) then Some n else None
            | Err _ => None
            end
       else None.
Definition disk_list (d : RefDisk) (prefix : string) : res (list RefName) :=
  Ok (merge_sort key_le (omap (walk_entry prefix) (map_to_list (files d)).*1)).

(** [apply_plan] *)
Definition entry_steps (e : RefName * option Ref) : list io :=
  match e.2 with Some r => set_steps e.1 r | None => delete_steps e.1 end.
Definition plan_steps (p : plan) : list io := p ≫= entry_steps.
Definition apply_plan (p : plan) : io := run (plan_steps p).

(** The names of a commit's journal and of its temporary file. *)
Definition journal_name (data : bytes) (seq : N) : string :=
  (blake3_hex data +:+ "-" +:+ pretty process_id +:+ "-" +:+ pretty seq) +:+ ".journal".
Definition journal_tmp (data : bytes) (seq : N) : string :=
  "." +:+ journal_name data seq +:+ ".tmp".

Definition atomic_steps (p : plan) (data : bytes) (seq : N) : list io :=
  [txn_create (journal_tmp data seq); txn_write (journal_tmp data seq) data;
   txn_rename (journal_tmp data seq) (journal_name data seq)]
  ++ plan_steps p ++ [txn_remove (journal_name data seq)].

Definition apply_atomic (p : plan) : io := λ d,
  match p with
  | [] => (Ok (), d)
  | _ => match plan_enc p with
         | Err e => (Err e, d)
         | Ok data => run (atomic_steps p data (journal_seq d)) (bump_seq d)
         end
  end.

(** The journals, in the order [read_dir] yields them. *)
Definition journals (d : RefDisk) : list string :=
  filter (λ name, extension name = Some "journal") (map_to_list (txn d)).*1.

Definition replay (name : string) : io := λ d,
  match txn d !! name with
  | None => (Err (Io NotFound), d)
  | Some data =>
      (p ← gets (λ _, plan_dec data); _ ← apply_plan p; txn_remove name) d
  end.

Definition recover : io := λ d, M_iter replay (journals d) d.
End backend.

(** ** Paths and names *)
#[global] Instance ref_path_inj : Inj (=) (=) ref_path.
Proof. intros x y Hxy. by apply (inj (split_on "/")), (inj as_str) in Hxy. Qed.

#[global] Instance valid_name_dec n : Decision (valid_name n).
Proof. unfold valid_name. apply _. Defined.

Lemma ref_path_safe n : valid_name n → Forall safe_segment (ref_path n).
Proof. intros Hn. apply Forall_forall. by apply valid_name_segments. Qed.

Lemma tmp_not_safe p : ¬ Forall safe_segment (tmp_path p).
Proof. unfold tmp_path. rewrite Forall_app, Forall_singleton. by intros [_ (_ & ? & _)]. Qed.

Lemma ref_path_not_tmp n p : valid_name n → ref_path n ≠ tmp_path p.
Proof. intros Hn%ref_path_safe Heq. rewrite Heq in Hn. by apply tmp_not_safe in Hn. Qed.

Lemma tmp_not_ancestor n p : valid_name n → tmp_path p ∉ ancestors (ref_path n).
Proof.
  intros Hn%ref_path_safe Hin. unfold ancestors in Hin.
  apply list_elem_of_fmap in Hin as (i & Heq & _). apply (tmp_not_safe p). rewrite Heq.
  by apply Forall_take.
Qed.

Lemma split_on_app c s t : contains_char c t = false →
  split_on c (s +:+ String.String c t) = split_on c s ++ [t].
Proof.
  intros Ht. assert (split_on c t = [t]) as Hsp.
  { revert Ht. induction t as [|a t IH]; [done|]. simpl.
    destruct (Ascii.eqb a c); [done|]. simpl. intros Ht. by rewrite IH. }
  induction s as [|a s IH]; unfold String.append; simpl; fold String.append.
  - by rewrite Ascii.eqb_refl, Hsp.
  - rewrite IH. destruct (split_on_cons c s) as (seg & rest & ->). by destruct (Ascii.eqb a c).
Qed.

Lemma extension_app s t : s ≠ "" → contains_char "." t = false →
  extension (s +:+ String.String "." t) = Some t.
Proof.
  intros Hs Ht. unfold extension. rewrite split_on_app by done.
  assert (split_on "." s ≠ [""]) as Hne.
  { intros Heq. apply (f_equal (join_on ".")) in Heq. by rewrite join_split in Heq. }
  destruct (split_on_cons "." s) as (seg & rest & Heq). rewrite Heq in *. simpl.
  assert (last (seg :: rest ++ [t]) = Some t) as Hl by by rewrite app_comm_cons, last_snoc.
  destruct rest as [|x rest]; simpl in *.
  - by destruct seg.
  - destruct seg; destruct rest; exact Hl.
Qed.

Lemma string_app_nil_l s t : s +:+ t = "" → s = "" ∧ t = "".
Proof. by destruct s. Qed.

Section names.
Context `{RefCodec}.

Lemma journal_name_ext data seq : extension (journal_name data seq) = Some "journal".
Proof.
  unfold journal_name. apply extension_app; [|done]. by intros [_ ?]%string_app_nil_l.
Qed.

Lemma journal_tmp_ext data seq : extension (journal_tmp data seq) = Some "tmp".
Proof. unfold journal_tmp. rewrite <- string_app_assoc. by apply extension_app. Qed.

Lemma journal_tmp_ne data seq : journal_tmp data seq ≠ journal_name data seq.
Proof. intros Heq. pose proof (journal_tmp_ext data seq) as He. by rewrite Heq, journal_name_ext in He. Qed.
End names.

(** ** The refs a disk denotes *)
Section view.
Context `{RefCodec}.

Definition entry_of (e : path * bytes) : option (RefName * Ref) :=
  match RefName_new (join_on "/" e.1) with
  | Ok n => if decide (ref_path n = e.1)
            then match ref_dec e.2 with Ok r => Some (n, r) | Err _ => None end
            else None
  | Err _ => None
  end.

Definition disk_view (d : RefDisk) : gmap RefName Ref :=
  list_to_map (omap entry_of (map_to_list (files d))).

(** The ref stored under a name. *)
Definition stored (f : gmap path bytes) (n : RefName) : option Ref :=
  data ← f !! ref_path n;
  match ref_dec data with Ok r => Some r | Err _ => None end.

Lemma entry_of_Some d n r :
  (n, r) ∈ omap entry_of (map_to_list (files d)) ↔ valid_name n ∧ stored (files d) n = Some r.
Proof.
  rewrite list_elem_of_omap. split.
  - intros ([p data] & Hin%elem_of_map_to_list & He). unfold entry_of in He. simpl in He.
    destruct (RefName_new _) as [n'|] eqn:Hn; [|done]. case_decide as Hp; [|done].
    destruct (ref_dec data) eqn:Hd; [|done]. injection He as -> ->. subst p.
    apply RefName_new_valid in Hn as [_ Hn]. split; [done|]. unfold stored. rewrite Hin. simpl.
    by rewrite Hd.
  - intros [Hv Hs]. unfold stored in Hs. apply bind_Some in Hs as (data & Hf & Hd).
    exists (ref_path n, data). split; [by apply elem_of_map_to_list|]. unfold entry_of. simpl.
    unfold ref_path at 1. rewrite join_split. rewrite Hv, decide_True by done.
    by destruct (ref_dec data); simplify_eq.
Qed.

Lemma disk_view_lookup d n :
  disk_view d !! n = if decide (valid_name n) then stored (files d) n else None.
Proof.
  apply option_eq. intros r. transitivity (valid_name n ∧ stored (files d) n = Some r).
  2: { case_decide; naive_solver. }
  rewrite <- entry_of_Some. split; [apply elem_of_list_to_map_2|]. intros Hin.
  apply elem_of_list_to_map_1'; [|done]. intros r' [_ Hr']%entry_of_Some.
  apply entry_of_Some in Hin as [_ ?]. congruence.
Qed.

Lemma disk_view_ext d d' :
  (∀ n, valid_name n → files d !! ref_path n = files d' !! ref_path n) → disk_view d = disk_view d'.
Proof.
  intros Hf. apply map_eq. intros n. rewrite !disk_view_lookup. unfold stored.
  case_decide as Hn; [|done]. by rewrite (Hf n Hn).
Qed.

Lemma disk_view_write d d' n r data :
  valid_name n → ref_dec data = Ok r →
  (∀ m, valid_name m → files d' !! ref_path m = <[ref_path n := data]> (files d) !! ref_path m) →
  disk_view d' = <[n := r]> (disk_view d).
Proof.
  intros Hn Hd Hf. apply map_eq. intros m. rewrite disk_view_lookup. unfold stored.
  destruct (decide (n = m)) as [->|Hne].
  - by rewrite decide_True, Hf, !lookup_insert_eq by done; simpl; rewrite Hd.
  - rewrite lookup_insert_ne, disk_view_lookup by done. unfold stored. case_decide as Hm; [|done].
    rewrite Hf, lookup_insert_ne by (done || by intros ?%(inj ref_path)). done.
Qed.

Lemma disk_view_remove d d' n :
  (∀ m, valid_name m → files d' !! ref_path m = delete (ref_path n) (files d) !! ref_path m) →
  disk_view d' = delete n (disk_view d).
Proof.
  intros Hf. apply map_eq. intros m. rewrite disk_view_lookup. unfold stored.
  destruct (decide (n = m)) as [->|Hne].
  - rewrite lookup_delete_eq. case_decide; [|done]. by rewrite Hf, lookup_delete_eq.
  - rewrite lookup_delete_ne, disk_view_lookup by done. unfold stored. case_decide as Hm; [|done].
    rewrite Hf, lookup_delete_ne by (done || by intros ?%(inj ref_path)). done.
Qed.

(** The backend's invariant: every ref file decodes. *)
Definition disk_ok (d : RefDisk) : Prop :=
  ∀ n data, valid_name n → files d !! ref_path n = Some data → is_Ok (ref_dec data) = true.

Lemma disk_ok_stored d n data : disk_ok d → valid_name n → files d !! ref_path n = Some data →
  ∃ r, ref_dec data = Ok r ∧ disk_view d !! n = Some r.
Proof.
  intros Hok Hn Hf. pose proof (Hok n data Hn Hf) as Hr.
  destruct (ref_dec data) as [r|] eqn:Hd; [|done]. exists r. split; [done|].
  rewrite disk_view_lookup, decide_True by done. unfold stored. rewrite Hf. simpl. by rewrite Hd.
Qed.
End view.

(** ** Effects of the steps *)
Lemma run_cons s l d d' :
  run (s :: l) d = (Ok (), d') ↔ ∃ d1, s d = (Ok (), d1) ∧ run l d1 = (Ok (), d').
Proof.
  unfold run. simpl. rewrite M_bind_Ok. unfold id. split.
  - intros ([] & d1 & ? & ?). eauto.
  - intros (d1 & ? & ?). by exists (), d1.
Qed.

Lemma run_app l1 l2 d d' :
  run (l1 ++ l2) d = (Ok (), d') ↔ ∃ d1, run l1 d = (Ok (), d1) ∧ run l2 d1 = (Ok (), d').
Proof.
  revert d. induction l1 as [|s l1 IH]; intros d; simpl.
  - split; [intros ?; by exists d|]. by intros (d1 & [= ->] & ?).
  - rewrite run_cons. setoid_rewrite IH. setoid_rewrite run_cons. naive_solver.
Qed.

Lemma run_nil d d' : run [] d = (Ok (), d') ↔ d = d'.
Proof. unfold run. simpl. unfold mret, M_ret. naive_solver. Qed.

Lemma crash_app l1 l2 d d' :
  crash (l1 ++ l2) d d' → crash l1 d d' ∨ ∃ d1, run l1 d = (Ok (), d1) ∧ crash l2 d1 d'.
Proof.
  revert d. induction l1 as [|s l1 IH]; intros d Hc; simpl in *.
  - right. exists d. by rewrite run_nil.
  - inversion Hc as [|? ? ? d1 ? Hs Hc']; subst; [left; constructor|].
    destruct (IH d1 Hc') as [?|(d2 & ? & ?)].
    + left. by econstructor.
    + right. exists d2. split; [|done]. apply run_cons. eauto.
Qed.

Section steps.
Context `{RefCodecLaws}.

(** A step that leaves every ref file and the journals alone. *)
Definition quiet (d d' : RefDisk) : Prop :=
  (∀ n, valid_name n → files d' !! ref_path n = files d !! ref_path n) ∧ txn d' = txn d.

Lemma quiet_view d d' : quiet d d' → disk_view d' = disk_view d.
Proof. intros [Hf _]. by apply disk_view_ext. Qed.
Lemma quiet_ok d d' : quiet d d' → disk_ok d → disk_ok d'.
Proof. intros [Hf _] Hok n data Hn. rewrite Hf by done. by apply Hok. Qed.
Lemma quiet_trans d1 d2 d3 : quiet d1 d2 → quiet d2 d3 → quiet d1 d3.
Proof. intros [Hf1 Ht1] [Hf2 Ht2]. split; [|congruence]. intros n Hn. by rewrite Hf2, Hf1. Qed.

Lemma create_parents_Ok p d d' : create_parents p d = (Ok (), d') →
  files d' = files d ∧ txn d' = txn d ∧ dirs d' = list_to_set (ancestors p) ∪ dirs d.
Proof. unfold create_parents. destruct (below_file d p); intros [= <-]; auto. Qed.

Lemma create_parents_quiet p d d' : create_parents p d = (Ok (), d') → quiet d d'.
Proof. intros (Hf & Ht & _)%create_parents_Ok. split; [|done]. intros. by rewrite Hf. Qed.

Lemma write_tmp_quiet p data d d' : write_file (tmp_path p) data d = (Ok (), d') → quiet d d'.
Proof.
  unfold write_file. destruct data; intros [= <-]. split; [|done]. intros n Hn.
  simpl. rewrite lookup_insert_ne; [done|]. apply not_eq_sym. by apply ref_path_not_tmp.
Qed.

(** [set], once it succeeds. *)
Lemma set_run n r d d' : valid_name n → run (set_steps n r) d = (Ok (), d') →
  ∃ data, ref_enc r = Ok data ∧ txn d' = txn d ∧
    ∀ m, valid_name m → files d' !! ref_path m = <[ref_path n := data]> (files d) !! ref_path m.
Proof.
  intros Hn. unfold set_steps. rewrite !run_cons. setoid_rewrite run_cons.
  setoid_rewrite run_cons. setoid_rewrite run_nil.
  intros (d1 & H1 & d2 & H2 & d3 & H3 & ->). apply create_parents_quiet in H1 as [Hf1 Ht1].
  unfold write_file in H2. destruct (ref_enc r) as [data|]; [|done]. injection H2 as <-.
  exists data. split; [done|]. unfold rename_file in H3. simpl in H3. rewrite lookup_insert_eq in H3.
  case_decide; [done|]. injection H3 as <-. simpl. split; [done|]. intros m Hm.
  destruct (decide (n = m)) as [->|Hne]; [by rewrite !lookup_insert_eq|].
  assert (ref_path n ≠ ref_path m) by by intros ?%(inj ref_path).
  rewrite !(lookup_insert_ne _ (ref_path n)) by done.
  rewrite lookup_delete_ne, lookup_insert_ne by (apply not_eq_sym; by apply ref_path_not_tmp).
  by apply Hf1.
Qed.

Lemma delete_run n d d' : run (delete_steps n) d = (Ok (), d') →
  txn d' = txn d ∧ ∀ m, files d' !! ref_path m = delete (ref_path n) (files d) !! ref_path m.
Proof.
  unfold delete_steps. rewrite run_cons. setoid_rewrite run_nil. intros (d1 & Hr & ->).
  unfold remove_file in Hr. destruct (files d !! ref_path n) eqn:Hf.
  - injection Hr as <-. done.
  - case_decide; [done|]. destruct (below_file d (ref_path n)); [done|]. injection Hr as <-.
    split; [done|]. intros m. by rewrite delete_id.
Qed.

(** One entry of a plan. *)
Lemma entry_run e d d' : disk_ok d → valid_name e.1 → run (entry_steps e) d = (Ok (), d') →
  disk_ok d' ∧ txn d' = txn d ∧ disk_view d' = plan_apply [e] (disk_view d).
Proof.
  intros Hok Hn. destruct e as [n [r|]]; unfold entry_steps, plan_apply; simpl in *.
  - intros (data & Henc & Ht & Hf)%set_run; [|done].
    pose proof (ref_dec_enc r data Henc) as Hd. split; [|split; [done|]].
    + intros m data' Hm. rewrite Hf by done. intros [[_ <-]|[_ ?]]%lookup_insert_Some; [by rewrite Hd|].
      by eapply Hok.
    + by eapply disk_view_write.
  - intros (Ht & Hf)%delete_run. split; [|split; [done|]].
    + intros m data' Hm. rewrite Hf. intros [_ ?]%lookup_delete_Some. by eapply Hok.
    + by apply disk_view_remove.
Qed.

Lemma plan_run p d d' : disk_ok d → Forall (λ e, valid_name e.1) p →
  run (plan_steps p) d = (Ok (), d') →
  disk_ok d' ∧ txn d' = txn d ∧ disk_view d' = plan_apply p (disk_view d).
Proof.
  intros Hok Hv. revert d Hok. induction Hv as [|e p He Hv IH]; intros d Hok.
  - by intros ->%run_nil.
  - change (plan_steps (e :: p)) with (entry_steps e ++ plan_steps p).
    rewrite run_app. intros (d1 & (Hok1 & Ht1 & Hv1)%entry_run & Hr); [|done..].
    destruct (IH d1 Hok1 Hr) as (? & ? & Hv'). split; [done|]. split; [congruence|].
    by rewrite Hv', Hv1.
Qed.

Lemma txn_step_quiet d d' : files d' = files d → disk_view d' = disk_view d ∧ (disk_ok d → disk_ok d').
Proof.
  intros Hf. split; [unfold disk_view; by rewrite Hf|]. intros Hok n data. rewrite Hf. apply Hok.
Qed.

(** Writing the journal always succeeds and touches nothing but [.txn]. *)
Definition journal_steps (data : bytes) (seq : N) : list io :=
  [txn_create (journal_tmp data seq); txn_write (journal_tmp data seq) data;
   txn_rename (journal_tmp data seq) (journal_name data seq)].

Lemma journal_run data seq d : ∃ d',
  run (journal_steps data seq) d = (Ok (), d') ∧ files d' = files d ∧ dirs d' = dirs d ∧
  txn d' = <[journal_name data seq := data]> (delete (journal_tmp data seq) (txn d)).
Proof.
  unfold journal_steps. eexists. split.
  - apply run_cons. eexists. split; [done|]. apply run_cons. eexists. split; [done|].
    apply run_cons. eexists. split; [|by apply run_nil]. unfold txn_rename. simpl.
    by rewrite lookup_insert_eq.
  - simpl. split; [done|]. split; [done|]. by rewrite insert_insert_eq, delete_insert_eq.
Qed.

Lemma atomic_steps_app p data seq :
  atomic_steps p data seq =
    journal_steps data seq ++ plan_steps p ++ [txn_remove (journal_name data seq)].
Proof. done. Qed.

Lemma txn_remove_Ok name d d' : txn_remove name d = (Ok (), d') →
  files d' = files d ∧ dirs d' = dirs d ∧ txn d' = delete name (txn d).
Proof. unfold txn_remove. destruct (txn d !! name); [|done]. by intros [= <-]. Qed.

Lemma apply_atomic_run p d d' : disk_ok d → Forall (λ e, valid_name e.1) p →
  apply_atomic p d = (Ok (), d') → disk_ok d' ∧ disk_view d' = plan_apply p (disk_view d).
Proof.
  intros Hok Hv. unfold apply_atomic. destruct p as [|e p']; [by intros [= <-]|].
  remember (e :: p') as p eqn:Hp. clear Hp. destruct (plan_enc p) as [data|]; [|done].
  rewrite atomic_steps_app, run_app. setoid_rewrite run_app.
  destruct (journal_run data (journal_seq d) (bump_seq d)) as (d1 & Hj & Hf1 & _).
  intros (d1' & Hj' & d2 & Hp & Hr). rewrite Hj in Hj'. injection Hj' as <-.
  apply run_cons in Hr as (d3 & (Hf3 & _)%txn_remove_Ok & <-%run_nil).
  destruct (txn_step_quiet d d1 Hf1) as [Hv1 Hok1]. destruct (txn_step_quiet d2 d3 Hf3) as [Hv3 Hok3].
  apply plan_run in Hp as (Hok2 & _ & Hv2); [|by auto|done]. split; [by auto|].
  by rewrite Hv3, Hv2, Hv1.
Qed.

Lemma read_file_Ok d p data : read_file d p = Ok data ↔ files d !! p = Some data.
Proof. unfold read_file. destruct (files d !! p); [naive_solver|]. repeat case_match; done. Qed.

#[global] Instance disk_RefBackend : RefBackend RefDisk := {|
  be_get := disk_get;
  be_set := disk_set;
  be_delete := disk_delete;
  be_list := disk_list;
  be_apply_atomic := apply_atomic;
  be_recover := recover
|}.

Lemma safe_not_hidden p : Forall safe_segment p → existsb (starts_with ".") p = false.
Proof.
  induction 1 as [|seg p (_ & Hs & _) _ IH]; [done|]. simpl. by rewrite Hs.
Qed.

Lemma walk_entry_Some prefix p n :
  walk_entry prefix p = Some n ↔
  valid_name n ∧ ref_path n = p ∧ String.prefix prefix (as_str n) = true.
Proof.
  unfold walk_entry. split.
  - destruct (existsb _ p); [done|]. destruct (String.prefix _ _) eqn:Hp; [|done].
    destruct (RefName_new _) as [n'|] eqn:Hn; [|done]. case_decide; [|done]. intros [= ->].
    apply RefName_new_valid in Hn as [Hs Hn]. by rewrite Hs.
  - intros (Hv & <- & Hp). rewrite safe_not_hidden by by apply ref_path_safe.
    unfold ref_path at 1 2. rewrite join_split, Hp, Hv. by rewrite decide_True.
Qed.

Lemma NoDup_omap_inj {A B} (f : A → option B) l :
  (∀ x y b, f x = Some b → f y = Some b → x = y) → NoDup l → NoDup (omap f l).
Proof.
  intros Hf. induction 1 as [|x l Hx Hl IH]; [constructor|]. simpl.
  destruct (f x) as [b|] eqn:Hb; [|done]. constructor; [|done].
  intros (y & Hy & Hyb)%list_elem_of_omap. by rewrite (Hf x y b Hb Hyb) in Hx.
Qed.

#[global] Program Instance disk_RefBackendLaws : RefBackendLaws RefDisk := {|
  be_inv := disk_ok;
  be_view := disk_view
|}.
Next Obligation.
  intros d n r _. rewrite disk_view_lookup. by case_decide.
Qed.
Next Obligation.
  intros d n v Hok Hn. simpl. unfold disk_get. destruct (read_file d (ref_path n)) as [data|e] eqn:Hr.
  - apply read_file_Ok in Hr. destruct (disk_ok_stored d n data Hok Hn Hr) as (r & Hd & Hv).
    rewrite Hd, Hv. simpl. congruence.
  - destruct e; try done. intros [= <-]. rewrite disk_view_lookup, decide_True by done.
    unfold stored. assert (files d !! ref_path n = None) as ->; [|done].
    apply eq_None_not_Some. intros [data Hd%read_file_Ok]. congruence.
Qed.
Next Obligation.
  intros d n r _. simpl. rewrite disk_view_lookup. case_decide; [|done].
  unfold stored, disk_get. intros (data & Hf & Hd)%bind_Some.
  apply read_file_Ok in Hf. rewrite Hf. by destruct (ref_dec data); simplify_eq/=.
Qed.
Next Obligation.
  intros d prefix l Hok [= <-]. split; [|split].
  - rewrite merge_sort_Permutation. apply NoDup_omap_inj; [|apply NoDup_fst_map_to_list].
    intros p q n (_ & <- & _)%walk_entry_Some (_ & <- & _)%walk_entry_Some. done.
  - apply (Sorted_merge_sort _).
  - intros n. rewrite merge_sort_Permutation, list_elem_of_omap.
    setoid_rewrite walk_entry_Some. split.
    + intros (p & ([p' data] & -> & Hin%elem_of_map_to_list)%list_elem_of_fmap & Hn & Hp & Hpre).
      simpl in Hp. subst p'. destruct (disk_ok_stored d n data Hok Hn Hin) as (r & _ & ->). by eauto.
    + intros [[r Hr] Hpre]. rewrite disk_view_lookup in Hr. case_decide as Hn; [|done].
      apply bind_Some in Hr as (data & Hf & _). exists (ref_path n). split; [|done].
      apply list_elem_of_fmap. exists (ref_path n, data). by rewrite elem_of_map_to_list.
Qed.
Next Obligation.
  intros d n r d' Hok Hn Hr. destruct (entry_run (n, Some r) d d' Hok Hn Hr) as (? & _ & ?). done.
Qed.
Next Obligation.
  intros d n d' Hok Hn Hr. destruct (entry_run (n, None) d d' Hok Hn Hr) as (? & _ & ?). done.
Qed.
Next Obligation. intros d p d' Hok Hv Hr. by apply apply_atomic_run. Qed.
End steps.

(** ** Plans whose names do not clash *)

(** No name is a directory of another one or of a stored ref's path, and none
    lies below a stored ref. *)
Record compat (N : list RefName) (d : RefDisk) : Prop := {
  cp_valid n : n ∈ N → valid_name n;
  cp_clash n m : n ∈ N → m ∈ N → ref_path n ∉ ancestors (ref_path m);
  cp_dirs n : n ∈ N → ref_path n ∉ dirs d;
  cp_files n a : n ∈ N → a ∈ ancestors (ref_path n) → files d !! a = None
}.

Lemma compat_change N d d' :
  compat N d →
  (∀ n, n ∈ N → ref_path n ∈ dirs d' → ref_path n ∈ dirs d) →
  (∀ n a, n ∈ N → a ∈ ancestors (ref_path n) → files d !! a = None → files d' !! a = None) →
  compat N d'.
Proof.
  intros [Hv Hc Hd Hf] Hd' Hf'. split; [done|done|..].
  - intros n Hn Hin. apply (Hd n Hn). eauto.
  - eauto.
Qed.

Lemma below_file_compat N d n : compat N d → n ∈ N → below_file d (ref_path n) = false.
Proof.
  intros Hc Hn. apply not_true_iff_false. intros (a & Ha & Hs%bool_decide_eq_true)%existsb_true.
  destruct Hs as [data Hs]. by rewrite (cp_files N d Hc n a Hn Ha) in Hs.
Qed.

Lemma crash_run l d d' : run l d = (Ok (), d') → crash l d d'.
Proof.
  revert d. induction l as [|s l IH]; intros d.
  - intros ->%run_nil. constructor.
  - intros (d1 & Hs & Hr)%run_cons. econstructor; eauto.
Qed.

Section recovery.
Context `{RefCodecLaws}.

Lemma crash_set N n r d d' : compat N d → n ∈ N → crash (set_steps n r) d d' →
  compat N d' ∧ (quiet d d' ∨ run (set_steps n r) d = (Ok (), d')).
Proof.
  intros Hc Hn Hcr. pose proof (cp_valid N d Hc n Hn) as Hv. unfold set_steps in Hcr.
  inversion Hcr as [|s1 l1 ? d1 ? H1 Hcr1]; subst.
  { split; [done|]. by left. }
  pose proof (create_parents_quiet _ _ _ H1) as Q1.
  pose proof (create_parents_Ok _ _ _ H1) as (Hf1 & _ & Hd1).
  assert (compat N d1) as C1.
  { apply (compat_change N d); [done|..].
    - intros m Hm. rewrite Hd1. intros [Ha|?]%elem_of_union; [|done].
      apply elem_of_list_to_set in Ha. by apply (cp_clash N d Hc m n) in Ha.
    - intros m q _ _. by rewrite Hf1. }
  inversion Hcr1 as [|s2 l2 ? d2 ? H2 Hcr2]; subst; [by split; [|left]|].
  pose proof (write_tmp_quiet _ _ _ _ H2) as Q2.
  assert (compat N d2) as C2.
  { unfold write_file in H2. destruct (ref_enc r); [|done]. injection H2 as <-.
    apply (compat_change N d1); [done|done|]. intros m q Hm Ha Hn0. simpl.
    rewrite lookup_insert_ne; [done|]. intros <-. revert Ha. apply tmp_not_ancestor.
    by apply (cp_valid N d Hc). }
  inversion Hcr2 as [|s3 l3 ? d3 ? H3 Hcr3]; subst.
  { split; [done|]. left. by eapply quiet_trans. }
  inversion Hcr3; subst. split.
  - unfold rename_file in H3. destruct (files d2 !! _); [|done]. case_decide; [done|].
    injection H3 as <-. apply (compat_change N d2); [done|done|]. intros m q Hm Ha Hn0. simpl.
    rewrite lookup_insert_ne; [|intros <-; by apply (cp_clash N d Hc n m) in Ha].
    by apply lookup_delete_None; right.
  - right. apply run_cons. exists d1. split; [done|]. apply run_cons. exists d2. split; [done|].
    apply run_cons. exists d'. by rewrite run_nil.
Qed.

Lemma set_total N n r data d : compat N d → n ∈ N → ref_enc r = Ok data →
  ∃ d', run (set_steps n r) d = (Ok (), d').
Proof.
  intros Hc Hn Hr. eexists. unfold set_steps. apply run_cons. eexists. split.
  { unfold create_parents. by rewrite (below_file_compat N) by done. }
  apply run_cons. eexists. split; [unfold write_file; by rewrite Hr|].
  apply run_cons. eexists. split; [|by apply run_nil]. unfold rename_file. simpl.
  rewrite lookup_insert_eq, decide_False; [done|].
  intros [Ha|Hd]%elem_of_union.
  - apply elem_of_list_to_set in Ha. by apply (cp_clash N d Hc n n) in Ha.
  - by apply (cp_dirs N d Hc n) in Hd.
Qed.

Lemma crash_delete N n d d' : compat N d → n ∈ N → crash (delete_steps n) d d' →
  compat N d' ∧ (quiet d d' ∨ run (delete_steps n) d = (Ok (), d')).
Proof.
  intros Hc Hn Hcr. unfold delete_steps in Hcr. inversion Hcr as [|s1 l1 ? d1 ? H1 Hcr1]; subst.
  { split; [done|]. by left. }
  inversion Hcr1; subst. split.
  - unfold remove_file in H1. destruct (files d !! _); [|repeat case_match; by simplify_eq].
    injection H1 as <-. apply (compat_change N d); [done|done|]. intros m q Hm Ha Hn0. simpl.
    by apply lookup_delete_None; right.
  - right. apply run_cons. exists d'. by rewrite run_nil.
Qed.

Lemma delete_total N n d : compat N d → n ∈ N → ∃ d', run (delete_steps n) d = (Ok (), d').
Proof.
  intros Hc Hn. assert (∃ d', remove_file (ref_path n) d = (Ok (), d')) as [d' Hr].
  { unfold remove_file. rewrite (below_file_compat N), decide_False by (done || by apply (cp_dirs N d)).
    destruct (files d !! _); by eexists. }
  exists d'. apply run_cons. exists d'. by rewrite run_nil.
Qed.

Lemma crash_entry N e d d' : compat N d → e.1 ∈ N → crash (entry_steps e) d d' →
  compat N d' ∧ (quiet d d' ∨ run (entry_steps e) d = (Ok (), d')).
Proof.
  unfold entry_steps. destruct (e.2); [apply crash_set|apply crash_delete].
Qed.

(** Every value a plan sets can be encoded. *)
Definition encodable (p : plan) : Prop :=
  Forall (λ e : RefName * option Ref, ∀ r, e.2 = Some r → is_Ok (ref_enc r) = true) p.

Lemma plan_total N p d : compat N d → encodable p → (∀ e, e ∈ p → e.1 ∈ N) →
  ∃ d', run (plan_steps p) d = (Ok (), d').
Proof.
  intros Hc He. revert d Hc. induction He as [|e p He _ IH]; intros d Hc HN.
  { exists d. by apply run_nil. }
  assert (e.1 ∈ N) as Hn by (apply HN; left).
  assert (∃ d1, run (entry_steps e) d = (Ok (), d1)) as [d1 H1].
  { unfold entry_steps. destruct (e.2) as [r|]; [|by eapply delete_total].
    specialize (He r eq_refl). destruct (ref_enc r) eqn:Hr; [|done]. by eapply set_total. }
  destruct (crash_entry N e d d1 Hc Hn (crash_run _ _ _ H1)) as [Hc1 _].
  destruct (IH d1 Hc1) as [d2 H2]; [intros e' He'; apply HN; by right|].
  exists d2. change (plan_steps (e :: p)) with (entry_steps e ++ plan_steps p). apply run_app. eauto.
Qed.

Lemma plan_apply_cons e p m : plan_apply (e :: p) m = plan_apply p (plan_apply [e] m).
Proof. done. Qed.

Lemma plan_crash N p d d' : compat N d → disk_ok d → (∀ e, e ∈ p → e.1 ∈ N) →
  crash (plan_steps p) d d' →
  compat N d' ∧ disk_ok d' ∧ txn d' = txn d ∧
  ∃ k, disk_view d' = plan_apply (take k p) (disk_view d).
Proof.
  revert d. induction p as [|e p IH]; intros d Hc Hok HN Hcr.
  { inversion Hcr; subst. split; [done|]. split; [done|]. split; [done|]. by exists 0. }
  assert (e.1 ∈ N) as Hn by (apply HN; left).
  change (plan_steps (e :: p)) with (entry_steps e ++ plan_steps p) in Hcr.
  assert (∀ d1, run (entry_steps e) d = (Ok (), d1) → compat N d1 ∧
    disk_ok d1 ∧ txn d1 = txn d ∧ disk_view d1 = plan_apply [e] (disk_view d)) as Hentry.
  { intros d1 H1. destruct (crash_entry N e d d1 Hc Hn (crash_run _ _ _ H1)) as [Hc1 _].
    split; [done|]. apply entry_run; [done| |done]. by apply (cp_valid N d Hc). }
  apply crash_app in Hcr as [Hcr|(d1 & H1 & Hcr)].
  - destruct (crash_entry N e d d' Hc Hn Hcr) as [Hc' [Hq|Hr]].
    + split; [done|]. split; [by eapply quiet_ok|]. split; [apply Hq|]. exists 0.
      by apply quiet_view.
    + destruct (Hentry d' Hr) as (? & ? & ? & Hv). split; [done|]. split; [done|]. split; [done|]. by exists 1.
  - destruct (Hentry d1 H1) as (Hc1 & Hok1 & Ht1 & Hv1).
    destruct (IH d1 Hc1 Hok1) as (? & ? & ? & k & Hv); [intros e' He'; apply HN; by right|done|].
    split; [done|]. split; [done|]. split; [congruence|]. exists (S k).
    change (take (S k) (e :: p)) with (e :: take k p). by rewrite plan_apply_cons, Hv, Hv1.
Qed.

(** Replaying a plan over a state in which a part of it has been applied. *)
Lemma plan_apply_take p k m : NoDup p.*1 → plan_apply p (plan_apply (take k p) m) = plan_apply p m.
Proof.
  intros Hnd. apply map_eq. intros n. rewrite !(plan_apply_lookup p) by done.
  destruct ((list_to_map p : overlay) !! n) eqn:Hn; [done|].
  assert (NoDup (take k p).*1) as Hnd'.
  { rewrite fmap_take. rewrite <- (take_drop k (p.*1)) in Hnd. by apply NoDup_app in Hnd as [? _]. }
  rewrite plan_apply_lookup by done.
  apply not_elem_of_list_to_map in Hn.
  rewrite (not_elem_of_list_to_map_1 (take k p) n); [done|]. intros Hin. apply Hn.
  rewrite fmap_take in Hin. rewrite <- (take_drop k (p.*1)). apply elem_of_app. by left.
Qed.

(** ** Recovery *)
Lemma elem_of_journals d name :
  name ∈ journals d ↔ is_Some (txn d !! name) ∧ extension name = Some "journal".
Proof.
  unfold journals. rewrite list_elem_of_filter, list_elem_of_fmap. split.
  - intros [He ([k v] & -> & Hin%elem_of_map_to_list)]. by eauto.
  - intros [[v Hv] He]. split; [done|]. exists (name, v). by rewrite elem_of_map_to_list.
Qed.

Lemma journals_nil d : (∀ name, name ∉ journals d) → journals d = [].
Proof. intros Hn. apply elem_of_nil_inv. exact Hn. Qed.

Lemma journals_one d j : (∀ name, name ∈ journals d ↔ name = j) → journals d = [j].
Proof.
  intros Hj. assert (NoDup (journals d)) as Hnd by (apply NoDup_filter, NoDup_fst_map_to_list).
  apply Permutation_singleton_r. symmetry. apply NoDup_Permutation; [apply NoDup_singleton|done|].
  intros x. by rewrite Hj, list_elem_of_singleton.
Qed.

(** Nothing to replay. *)
Lemma recover_none d : journals d = [] → recover d = (Ok (), d).
Proof. unfold recover. by intros ->. Qed.

Lemma recover_one d j data p d1 :
  journals d = [j] → txn d !! j = Some data → plan_dec data = Ok p →
  run (plan_steps p) d = (Ok (), d1) → txn d1 = txn d →
  recover d = (Ok (), set_txn (delete j) d1).
Proof.
  intros Hj Ht Hp Hr Ht1. unfold recover. rewrite Hj. simpl. unfold replay, gets, mbind, M_bind.
  rewrite Ht, Hp. unfold apply_plan. rewrite Hr. unfold txn_remove. by rewrite Ht1, Ht.
Qed.

(** The outcome both theorems below speak of. *)
Definition recovered (d : RefDisk) (m : gmap RefName Ref) : Prop :=
  ∃ d', recover d = (Ok (), d') ∧ disk_ok d' ∧ journals d' = [] ∧ disk_view d' = m.

Lemma recovered_none d m : journals d = [] → disk_ok d → disk_view d = m → recovered d m.
Proof. intros Hj Hok Hv. exists d. by rewrite recover_none. Qed.

(** A state in which journal [j] is on disk and [k] entries of its plan [p] have
    been applied to the refs [m]. *)
Record journaled (m : gmap RefName Ref) (p : plan) (data : bytes) (j : string) (k : nat)
    (d : RefDisk) : Prop := {
  jn_compat : compat p.*1 d;
  jn_ok : disk_ok d;
  jn_only name : name ∈ journals d ↔ name = j;
  jn_data : txn d !! j = Some data;
  jn_view : disk_view d = plan_apply (take k p) m
}.

Lemma compat_plan_valid (p : plan) d : compat p.*1 d → Forall (λ e, valid_name e.1) p.
Proof.
  intros Hc. apply Forall_forall. intros e He. apply (cp_valid _ _ Hc). by apply list_elem_of_fmap_2.
Qed.

Lemma journals_txn d d' : txn d' = txn d → journals d' = journals d.
Proof. unfold journals. by intros ->. Qed.

(** The plan has been applied and its journal removed. *)
Lemma journaled_done m p data j k d d' : journaled m p data j k d →
  files d' = files d → txn d' = delete j (txn d) → disk_ok d' ∧ journals d' = [].
Proof.
  intros [_ Hok Hj _ _] Hf Ht. split; [by apply (txn_step_quiet d d')|].
  apply journals_nil. intros name. rewrite elem_of_journals, Ht.
  intros [[v [Hne Hd]%lookup_delete_Some] He]. apply Hne. symmetry. apply Hj.
  apply elem_of_journals. eauto.
Qed.

Lemma journaled_recovers m p data j k d :
  journaled m p data j k d → NoDup p.*1 → encodable p → plan_enc p = Ok data →
  recovered d (plan_apply p m).
Proof.
  intros Hjn Hnd Henc Hp. pose proof Hjn as [Hc Hok Hj Ht Hv].
  pose proof (compat_plan_valid p d Hc) as Hvn.
  destruct (plan_total (p.*1) p d Hc Henc) as [d1 Hr].
  { intros e He. by apply list_elem_of_fmap_2. }
  destruct (plan_run p d d1 Hok Hvn Hr) as (Hok1 & Ht1 & Hv1).
  exists (set_txn (delete j) d1). split.
  { apply (recover_one d j data p d1); [by apply journals_one|done|by apply plan_dec_enc|done|done]. }
  split; [exact Hok1|]. split.
  - apply journals_nil. intros name. rewrite elem_of_journals. simpl. rewrite Ht1.
    intros [[v [Hne Hd]%lookup_delete_Some] He]. apply Hne. symmetry. apply Hj.
    apply elem_of_journals. eauto.
  - transitivity (disk_view d1); [done|]. by rewrite Hv1, Hv, plan_apply_take.
Qed.

(** The plan steps preserve it. *)
Lemma journaled_plan m p data j d d' :
  journaled m p data j 0 d → crash (plan_steps p) d d' → ∃ k, journaled m p data j k d'.
Proof.
  intros [Hc Hok Hj Ht Hv] Hcr.
  destruct (plan_crash (p.*1) p d d' Hc Hok) as (Hc' & Hok' & Ht' & k & Hv'); [|done|].
  { intros e He. by apply list_elem_of_fmap_2. }
  exists k. split; [done|done| |by rewrite Ht'|by rewrite Hv', Hv].
  intros name. by rewrite (journals_txn _ _ Ht').
Qed.

(** A crash while the journal is being written. *)
Lemma crash_journal data seq d d' : crash (journal_steps data seq) d d' →
  files d' = files d ∧ dirs d' = dirs d ∧
  ((∀ name, extension name = Some "journal" → txn d' !! name = txn d !! name) ∨
   run (journal_steps data seq) d = (Ok (), d')).
Proof.
  intros Hcr. assert (∀ name v (m : gmap string bytes), extension name = Some "journal" →
    <[journal_tmp data seq := v]> m !! name = m !! name) as Hne.
  { intros name v m He. rewrite lookup_insert_ne; [done|]. intros <-. by rewrite journal_tmp_ext in He. }
  unfold journal_steps in Hcr. inversion Hcr as [|s1 l1 ? d1 ? H1 Hcr1]; subst; [by auto|].
  unfold txn_create in H1. injection H1 as <-.
  inversion Hcr1 as [|s2 l2 ? d2 ? H2 Hcr2]; subst.
  { split; [done|]. split; [done|]. left. intros name He. simpl. by rewrite Hne. }
  unfold txn_write in H2. injection H2 as <-.
  inversion Hcr2 as [|s3 l3 ? d3 ? H3 Hcr3]; subst.
  { split; [done|]. split; [done|]. left. intros name He. simpl. by rewrite !Hne. }
  inversion Hcr3; subst.
  destruct (journal_run data seq d) as (d'' & Hrun & Hf & Hd & _).
  assert (run (journal_steps data seq) d = (Ok (), d')) as Hrun'.
  { apply run_cons. eexists. split; [done|]. apply run_cons. eexists. split; [done|].
    apply run_cons. eexists. split; [exact H3|by apply run_nil]. }
  assert (d'' = d') as -> by congruence. auto.
Qed.

Lemma compat_files_dirs N d d' :
  files d' = files d → dirs d' = dirs d → compat N d → compat N d'.
Proof. intros Hf Hd Hc. apply (compat_change N d); [done|by rewrite Hd|by rewrite Hf]. Qed.

(** Before the rename the journal does not count. *)
Definition no_journal (d : RefDisk) : Prop :=
  ∀ name, extension name = Some "journal" → txn d !! name = None.

Lemma no_journal_iff d : no_journal d ↔ journals d = [].
Proof.
  split.
  - intros Hn. apply journals_nil. intros name [[v Hs] He]%elem_of_journals. by rewrite Hn in Hs.
  - intros Hj name He. apply eq_None_not_Some. intros Hs. apply (not_elem_of_nil name).
    rewrite <- Hj. by apply elem_of_journals.
Qed.

(** ... and after it, it does. *)
Lemma journaled_start d d' p data seq :
  disk_ok d → no_journal d → compat p.*1 d → run (journal_steps data seq) d = (Ok (), d') →
  journaled (disk_view d) p data (journal_name data seq) 0 d'.
Proof.
  intros Hok Hn Hc Hr. destruct (journal_run data seq d) as (d'' & Hr' & Hf & Hd & Ht).
  assert (d'' = d') as -> by congruence. destruct (txn_step_quiet d d' Hf) as [Hv Hok']. split.
  - by apply (compat_files_dirs _ d).
  - by apply Hok'.
  - intros name. rewrite elem_of_journals, Ht. split.
    + intros [[v [[<- _]|[_ [_ Hs]%lookup_delete_Some]]%lookup_insert_Some] He]; [done|].
      by rewrite Hn in Hs.
    + intros ->. rewrite lookup_insert_eq, journal_name_ext. eauto.
  - by rewrite Ht, lookup_insert_eq.
  - done.
Qed.

(** Wherever a commit is cut short, recovery finds the refs before it or after it. *)
Lemma crash_recovers d d' p data seq : disk_ok d → no_journal d → compat p.*1 d →
  NoDup p.*1 → encodable p → plan_enc p = Ok data → crash (atomic_steps p data seq) d d' →
  recovered d' (disk_view d) ∨ recovered d' (plan_apply p (disk_view d)).
Proof.
  intros Hok Hn Hc Hnd Henc Hp. rewrite atomic_steps_app.
  intros [Hcr|(d1 & Hrj & Hcr)]%crash_app.
  { destruct (crash_journal data seq d d' Hcr) as (Hf & _ & [Ht|Hr]); [left|right].
    - destruct (txn_step_quiet d d' Hf) as [Hv Hok']. apply recovered_none; [|by auto|done].
      apply no_journal_iff. intros name He. rewrite Ht by done. by apply Hn.
    - pose proof (journaled_start d d' p data seq Hok Hn Hc Hr). by eapply journaled_recovers. }
  right. pose proof (journaled_start d d1 p data seq Hok Hn Hc Hrj) as Hjn.
  apply crash_app in Hcr as [Hcr|(d2 & Hr2 & Hcr)].
  { destruct (journaled_plan _ _ _ _ _ _ Hjn Hcr) as [k Hk]. by eapply journaled_recovers. }
  destruct (journaled_plan _ _ _ _ _ _ Hjn (crash_run _ _ _ Hr2)) as [k Hk].
  inversion Hcr as [|s l ? d3 ? H3 Hcr3]; subst; [by eapply journaled_recovers|].
  inversion Hcr3; subst. destruct (txn_remove_Ok _ _ _ H3) as (Hf & _ & Ht).
  destruct (journaled_done _ _ _ _ _ _ _ Hk Hf Ht) as [Hok' Hj'].
  apply recovered_none; [done|done|].
  destruct (plan_run p d1 d2 (jn_ok _ _ _ _ _ _ Hjn) (compat_plan_valid p d Hc) Hr2) as (_ & _ & Hv2).
  destruct (txn_step_quiet d2 d' Hf) as [Hv' _]. by rewrite Hv', Hv2, (jn_view _ _ _ _ _ _ Hjn).
Qed.

(** An undisturbed commit succeeds. *)
Lemma atomic_total d p data seq : disk_ok d → no_journal d → compat p.*1 d → encodable p →
  ∃ d', run (atomic_steps p data seq) d = (Ok (), d') ∧ no_journal d'.
Proof.
  intros Hok Hn Hc Henc. destruct (journal_run data seq d) as (d1 & Hr1 & _).
  pose proof (journaled_start d d1 p data seq Hok Hn Hc Hr1) as Hjn.
  destruct (plan_total (p.*1) p d1 (jn_compat _ _ _ _ _ _ Hjn) Henc) as [d2 Hr2].
  { intros e He. by apply list_elem_of_fmap_2. }
  destruct (journaled_plan _ _ _ _ _ _ Hjn (crash_run _ _ _ Hr2)) as [k Hk].
  exists (set_txn (delete (journal_name data seq)) d2). split.
  - rewrite atomic_steps_app. apply run_app. exists d1. split; [done|]. apply run_app.
    exists d2. split; [done|]. apply run_cons. eexists. split; [|by apply run_nil].
    unfold txn_remove. by rewrite (jn_data _ _ _ _ _ _ Hk).
  - apply no_journal_iff. by eapply journaled_done.
Qed.

(** [C3] Commits on disk are atomic under crashes. For a non-empty plan of valid, distinct names with
    encodable refs, on a disk with no pending journal whose ref files all decode, where no
    name of the plan is a directory of another one or of the ref tree, be it a left-over
    directory without a ref below it, and none lies below a stored ref
    ([clashing_names_poison_journal] and [leftover_directory_poisons_journal] show that these
    are needed): an undisturbed [apply_atomic] succeeds, leaves no
    journal and yields the plan's refs; and if the process stops after any number of
    its file-system steps, [recover] on the next open succeeds, leaves no journal,
    and yields either exactly the refs from before the commit or exactly the plan's -
    never a mixture. *)
Theorem commit_crash_atomic (d : RefDisk) (p : plan) (data : bytes) :
  disk_ok d → no_journal d → compat p.*1 d → NoDup p.*1 → p ≠ [] →
  encodable p → plan_enc p = Ok data →
  (∃ d', apply_atomic p d = (Ok (), d') ∧ disk_view d' = plan_apply p (disk_view d) ∧
     disk_ok d' ∧ no_journal d') ∧
  ∀ d', crash (atomic_steps p data (journal_seq d)) (bump_seq d) d' →
    recovered d' (disk_view d) ∨ recovered d' (plan_apply p (disk_view d)).
Proof.
  intros Hok Hn Hc Hnd Hne Henc Hp. split.
  - destruct (atomic_total (bump_seq d) p data (journal_seq d)) as (d' & Hr & Hn'); try done.
    { by apply (compat_files_dirs _ d). }
    assert (apply_atomic p d = (Ok (), d')) as Ha.
    { unfold apply_atomic. by destruct p; [|rewrite Hp]. }
    destruct (apply_atomic_run p d d' Hok (compat_plan_valid p d Hc) Ha). by exists d'.
  - intros d' Hcr. apply (crash_recovers (bump_seq d) d' p data (journal_seq d)); try done.
    by apply (compat_files_dirs _ d).
Qed.
End recovery.

(** ** A concrete codec

    stdpp's countable encodings, one byte per bit: an instance of the parameters
    with which the theorems are run. *)
#[global] Instance Tag_countable : Countable Tag.
Proof.
  refine (inj_countable' (λ t, (tag_target t, tag_created_at t, tag_message t))
    (λ x, MkTag x.1.1 x.1.2 x.2) _).
  by intros [].
Defined.
#[global] Instance TimelinePolicy_countable : Countable TimelinePolicy.
Proof.
  refine (inj_countable' (λ p, match p with FastForwardOnly => 0%N | Append => 1%N | Unrestricted => 2%N end)
    (λ n, match n with 0%N => FastForwardOnly | 1%N => Append | _ => Unrestricted end) _).
  by intros [].
Defined.
#[global] Instance Timeline_countable : Countable Timeline.
Proof.
  refine (inj_countable' (λ t, (head t, policy t, tl_created_at t, tl_kind t, expires_at t))
    (λ x, MkTimeline x.1.1.1.1 x.1.1.1.2 x.1.1.2 x.1.2 x.2) _).
  by intros [].
Defined.
#[global] Instance Ref_countable : Countable Ref.
Proof.
  refine (inj_countable' (λ r, match r with RTag t => inl t | RTimeline t => inr t end)
    (λ x, match x with inl t => RTag t | inr t => RTimeline t end) _).
  by intros [].
Defined.

Fixpoint pos_bytes (p : positive) : bytes :=
  match p with xH => [] | xO p => x00 :: pos_bytes p | xI p => x01 :: pos_bytes p end.
Fixpoint bytes_pos (l : bytes) : positive :=
  match l with [] => xH | x00 :: l => xO (bytes_pos l) | _ :: l => xI (bytes_pos l) end.
Lemma bytes_pos_bytes p : bytes_pos (pos_bytes p) = p.
Proof. induction p; simpl; congruence. Qed.

Definition demo_enc {A} `{Countable A} (a : A) : bytes := pos_bytes (encode a).
Definition demo_dec {A} `{Countable A} (l : bytes) : res A :=
  ok_or (decode (bytes_pos l)) (Codec "malformed").
Lemma demo_dec_enc {A} `{Countable A} (a : A) : demo_dec (demo_enc a) = Ok a.
Proof. unfold demo_dec, demo_enc. by rewrite bytes_pos_bytes, decode_encode. Qed.

Definition demo_codec : RefCodec := {|
  ref_enc r := Ok (demo_enc r);
  ref_dec := demo_dec;
  plan_enc p := Ok (demo_enc p);
  plan_dec := demo_dec;
  blake3_hex _ := "00";
  process_id := 1
|}.
Lemma demo_codec_laws : @RefCodecLaws demo_codec.
Proof.
  split; [intros r data [= <-]|intros p data _ [= <-]]; apply demo_dec_enc.
Qed.

Section demo.
Local Existing Instance demo_codec.
Local Existing Instance demo_codec_laws.

Definition ex_release : RefName := MkRefName "release/1.0".
Definition ex_timeline (h : ObjectId) : Ref :=
  RTimeline (MkTimeline h FastForwardOnly 0 "persistent" None).
Definition ex_disk : RefDisk :=
  MkDisk {[ ["main"] := demo_enc (ex_timeline (ex_id x01)) ]} ∅ ∅ 0.
Definition ex_plan : plan :=
  [(ex_main, Some (ex_timeline (ex_id x02))); (ex_release, Some (RTag (MkTag (ex_id x02) 7 None)))].

Lemma ex_disk_ok : disk_ok ex_disk.
Proof.
  intros n data _ Hf. unfold ex_disk in Hf. simpl in Hf.
  apply lookup_singleton_Some in Hf as [_ <-]. 
  vm_compute. reflexivity.
Qed.

Lemma ex_compat : compat ex_plan.*1 ex_disk.
Proof.
  assert (∀ P : RefName → Prop, P ex_main → P ex_release → ∀ n, n ∈ ex_plan.*1 → P n) as Hcases.
  { intros P H1 H2 n [->|[->|Hn]%elem_of_cons]%elem_of_cons; [done|done|].
    by apply not_elem_of_nil in Hn. }
  split.
  - by apply (Hcases valid_name).
  - intros n m Hn Hm. revert m Hm n Hn.
    apply (Hcases (λ m, ∀ n, n ∈ ex_plan.*1 → ref_path n ∉ ancestors (ref_path m)));
      [apply (Hcases (λ n, ref_path n ∉ ancestors (ref_path ex_main)))
      |apply (Hcases (λ n, ref_path n ∉ ancestors (ref_path ex_release)))];
      apply (bool_decide_unpack _); vm_compute; exact I.
  - intros n _. apply not_elem_of_empty.
  - intros n q Hn. revert n Hn q.
    apply (Hcases (λ n, ∀ a, a ∈ ancestors (ref_path n) → files ex_disk !! a = None)); intros a Ha.
    + by apply not_elem_of_nil in Ha.
    + apply list_elem_of_singleton in Ha as ->. vm_compute. reflexivity.
Qed.

Lemma commit_crash_atomic_witness :
  no_journal ex_disk ∧ NoDup ex_plan.*1 ∧
  ∀ d', crash (atomic_steps ex_plan (demo_enc ex_plan) 0) (bump_seq ex_disk) d' →
    recovered d' (disk_view ex_disk) ∨ recovered d' (plan_apply ex_plan (disk_view ex_disk)).
Proof.
  assert (no_journal ex_disk) as Hn by (intros name _; apply lookup_empty).
  assert (NoDup ex_plan.*1) as Hnd by (apply (bool_decide_unpack _); vm_compute; exact I).
  split; [exact Hn|]. split; [exact Hnd|].
  apply (commit_crash_atomic ex_disk ex_plan (demo_enc ex_plan) ex_disk_ok Hn ex_compat Hnd).
  - discriminate.
  - repeat constructor; intros; reflexivity.
  - reflexivity.
Defined.

(** Names that clash: [a] as a file and as a directory. *)
Definition clash_plan : plan :=
  [(MkRefName "a", Some (ex_timeline (ex_id x01))); (MkRefName "a/b", Some (ex_timeline (ex_id x02)))].
Definition empty_disk : RefDisk := MkDisk ∅ ∅ ∅ 0.

Lemma empty_disk_ok : disk_ok empty_disk.
Proof. intros n data _ Hf. discriminate Hf. Qed.

(** The documented guarantee - on any failure nothing is applied - does not extend to a
    plan that names both [a] and [a/b]: the in-memory backend commits it, but on
    disk the commit fails after writing [a], the failed commit's journal stays, and
    every later [recover] (run by every open) fails as well. *)
Theorem clashing_names_poison_journal :
  let '(r, d) := apply_atomic clash_plan empty_disk in
  is_Ok r = false ∧ disk_get d (MkRefName "a") = Ok (Some (ex_timeline (ex_id x01))) ∧
  length (journals d) = 1 ∧ (recover d).1 = Err (Io NotADirectory) ∧
  length (journals (recover d).2) = 1 ∧
  is_Ok (@be_apply_atomic MemoryRefBackend _ clash_plan ∅).1 = true.
Proof.
  vm_compute. repeat split.
Qed.

(** A directory outlives the refs below it: deleting [a/b] leaves the directory [a], and a
    commit that then creates the timeline [a] fails at its rename, although no two refs clash;
    its journal stays, and every later [recover] fails as well. *)
Theorem leftover_directory_poisons_journal :
  let leaf := MkRefName "a/b" in let parent := MkRefName "a" in
  let '(r1, d1) := apply_atomic [(leaf, Some (ex_timeline (ex_id x01)))] empty_disk in
  let '(r2, d2) := apply_atomic [(leaf, None)] d1 in
  let '(r3, d3) := apply_atomic [(parent, Some (ex_timeline (ex_id x02)))] d2 in
  r1 = Ok () ∧ r2 = Ok () ∧ disk_get d2 leaf = Ok None ∧ length (journals d2) = 0 ∧
  is_Ok r3 = false ∧ length (journals d3) = 1 ∧ is_Ok (recover d3).1 = false ∧ length (journals (recover d3).2) = 1.
Proof. vm_compute. repeat split. Qed.
End demo.
