(* ===== verification/Signing.v ===== *)
(** * Signing: the signature schemes

    Every signed artefact of the program is an Ed25519 signature over a domain tag
    followed by the artefact's fields: policy roots (src/src/acl/authority.rs),
    attestations (acl/attestation.rs), ref updates (sync/authn.rs), hub pushes
    (sync/hub.rs), profiles, trust edges and relay challenges (collab/object.rs),
    change proposals and review comments (pr.rs), board posts (board.rs), repo
    records (reporecord.rs).

    Ed25519 and postcard are parameters.  The theorems: what a signer issues
    verifies, in every scheme; and the signed bytes determine the scheme and every
    signed field, so no signature can be read as one over anything else. *)

From S2P Require Import Prelude Ids Objects Refs RefStore RefsDisk.
From Stdlib Require Import Ascii.

Abbreviation Seed := (vec byte 32).

(** [ed25519_dalek]: key derivation, signing, whether bytes are a public key,
    verification. *)
Class Ed25519 := {
  verifying_key : Seed → Key;
  sign : Seed → bytes → vec byte 64;
  vk_from_bytes : Key → bool;
  vk_verify : Key → bytes → vec byte 64 → bool
}.

(** Derived keys are keys, and signatures verify. *)
Class Ed25519Laws `{Ed25519} := {
  verifying_key_valid s : vk_from_bytes (verifying_key s) = true;
  verify_sign s m : vk_verify (verifying_key s) m (sign s m) = true
}.

(** The structs the sources serialize under a domain tag. *)
Record ProfileMsg : Type := MkProfileMsg {
  pm_key : Key; pm_display_name : string; pm_bio : string;
  pm_endpoints : list string; pm_dns_aliases : list string; pm_seq : N }.
Record EdgeMsg : Type := MkEdgeMsg {
  em_from_key : Key; em_to_key : Key; em_kind : TrustKind; em_petname : option string; em_seq : N }.
Record ProposalMsg : Type := MkProposalMsg {
  qm_author : Key; qm_source : string; qm_target : string; qm_title : string; qm_created_at : N }.
Record CommentMsg : Type := MkCommentMsg {
  cm_author : Key; cm_proposal : ObjectId; cm_body : string; cm_resolves : bool; cm_created_at : N }.
Record PostMsg : Type := MkPostMsg {
  bm_author : Key; bm_board : string; bm_body : string; bm_parent : option ObjectId;
  bm_created_at : N }.
Record RepoMsg : Type := MkRepoMsg {
  rm_owner : Key; rm_name : string; rm_description : string; rm_seq : N }.

(** [postcard::to_allocvec] on them; it does not fail on owned data. *)
Class Postcard := {
  pc_profile : ProfileMsg → bytes;
  pc_edge : EdgeMsg → bytes;
  pc_proposal : ProposalMsg → bytes;
  pc_comment : CommentMsg → bytes;
  pc_post : PostMsg → bytes;
  pc_repo : RepoMsg → bytes
}.

(** The encoding can be read back, so it is injective. *)
Class PostcardLaws `{Postcard} := {
  #[global] pc_profile_inj :: Inj (=) (=) pc_profile;
  #[global] pc_edge_inj :: Inj (=) (=) pc_edge;
  #[global] pc_proposal_inj :: Inj (=) (=) pc_proposal;
  #[global] pc_comment_inj :: Inj (=) (=) pc_comment;
  #[global] pc_post_inj :: Inj (=) (=) pc_post;
  #[global] pc_repo_inj :: Inj (=) (=) pc_repo
}.

(** ** Domain tags *)
Definition POLICY_ROOT_DOMAIN : bytes := str_bytes "bole-policy-root-v1" ++ [x00].
Definition ATTESTATION_DOMAIN : bytes := str_bytes "bole-attestation-v1" ++ [x00].
Definition REF_OP_DOMAIN : bytes := str_bytes "bole-ref-op-v1" ++ [x00].
Definition HUB_PUSH_DOMAIN : bytes := str_bytes "bole-hub-push-v1" ++ [x00].
Definition COLLAB_RELAY_AUTH_DOMAIN : bytes := str_bytes "bole-relay-auth-v1".
Definition COLLAB_PROFILE_DOMAIN : bytes := str_bytes "bole-collab-profile-v1" ++ [x00].
Definition COLLAB_EDGE_DOMAIN : bytes := str_bytes "bole-collab-edge-v1" ++ [x00].
Definition PROPOSAL_DOMAIN : bytes := str_bytes "bole-change-proposal-v1" ++ [x00].
Definition REVIEW_COMMENT_DOMAIN : bytes := str_bytes "bole-review-comment-v1" ++ [x00].
Definition BOARD_POST_DOMAIN : bytes := str_bytes "bole-board-post-v1" ++ [x00].
Definition REPO_RECORD_DOMAIN : bytes := str_bytes "bole-repo-record-v1" ++ [x00].

(** ** Messages *)
Definition policy_root_message (root : ObjectId) : bytes := POLICY_ROOT_DOMAIN ++ id_bytes root.
Definition attestation_message (target : string) (h : ObjectId) : bytes :=
  ATTESTATION_DOMAIN ++ str_bytes target ++ [x00] ++ id_bytes h.
Definition ref_op_message (name : RefName) (expected_old : option ObjectId) (new_head : ObjectId)
    : bytes :=
  REF_OP_DOMAIN ++ str_bytes (as_str name) ++ [x00] ++
  default [] (id_bytes <$> expected_old) ++ [x00] ++ id_bytes new_head.
Definition challenge_message (nonce : vec byte 32) : bytes := HUB_PUSH_DOMAIN ++ vec_to_list nonce.
Definition relay_challenge_message (nonce : vec byte 32) : bytes :=
  COLLAB_RELAY_AUTH_DOMAIN ++ vec_to_list nonce.

Section schemes.
Context `{Ed25519, Postcard}.

Definition profile_message (p : Profile) : bytes :=
  COLLAB_PROFILE_DOMAIN ++ pc_profile (MkProfileMsg (profile_key p) (display_name p) (bio p)
    (endpoints p) (dns_aliases p) (profile_seq p)).
Definition edge_message (e : TrustEdge) : bytes :=
  COLLAB_EDGE_DOMAIN ++
  pc_edge (MkEdgeMsg (from_key e) (to_key e) (edge_kind e) (petname e) (edge_seq e)).
Definition proposal_message (p : ChangeProposal) : bytes :=
  PROPOSAL_DOMAIN ++ pc_proposal (MkProposalMsg (prop_author p) (prop_source p) (prop_target p)
    (prop_title p) (prop_created_at p)).
Definition comment_message (c : ReviewComment) : bytes :=
  REVIEW_COMMENT_DOMAIN ++ pc_comment (MkCommentMsg (com_author c) (com_proposal c) (com_body c)
    (com_resolves c) (com_created_at c)).
Definition post_message (p : Post) : bytes :=
  BOARD_POST_DOMAIN ++ pc_post (MkPostMsg (post_author p) (post_board p) (post_body p)
    (post_parent p) (post_created_at p)).
Definition repo_message (r : RepoRecord) : bytes :=
  REPO_RECORD_DOMAIN ++ pc_repo (MkRepoMsg (rr_owner r) (rr_name r) (rr_description r) (rr_seq r)).

(** ** Verification

    The shape all verifiers share: parse the key, parse a 64-byte signature,
    verify; anything malformed is a refusal. *)
Definition sig_from_slice (l : bytes) : option (vec byte 64) :=
  if decide (length l = 64) then Some (pad_vec 64 l) else None.
Definition verify_with (key : Key) (msg sig : bytes) : bool :=
  if vk_from_bytes key then
    match sig_from_slice sig with Some s => vk_verify key msg s | None => false end
  else false.

(** [TrustStore] and [RootSignature] *)
Record TrustAnchor : Type := MkAnchor { anchor_key_id : string; anchor_public_key : Key }.
Record TrustStore : Type := MkTrustStore { anchors : list TrustAnchor }.
Definition trust_add (t : TrustStore) (a : TrustAnchor) : TrustStore := MkTrustStore (anchors t ++ [a]).
Definition trust_find (t : TrustStore) (key_id : string) : option TrustAnchor :=
  find_first (λ a, bool_decide (anchor_key_id a = key_id)) (anchors t).

Record RootSignature : Type := MkRootSignature { rs_root : ObjectId; rs_key_id : string; rs_sig : bytes }.
Definition SignatureStore : Type := gmap ObjectId RootSignature.
Definition sig_insert (s : SignatureStore) (x : RootSignature) : SignatureStore := <[rs_root x := x]> s.

Definition verify_root_signature (root : ObjectId) (sig : RootSignature) (trust : TrustStore) : bool :=
  if decide (rs_root sig ≠ root) then false
  else match trust_find trust (rs_key_id sig) with
       | None => false
       | Some anchor => verify_with (anchor_public_key anchor) (policy_root_message root) (rs_sig sig)
       end.

(** [ApproverRegistry] *)
Definition approver_add (r : ApproverRegistry) (a : Approver) : ApproverRegistry :=
  MkApprovers (approvers r ++ [a]).
Definition approver_find (r : ApproverRegistry) (key_id : string) : option Approver :=
  find_first (λ a, bool_decide (approver_key_id a = key_id)) (approvers r).

Definition verify_attestation (att : Attestation) (registry : ApproverRegistry) : bool :=
  match approver_find registry (att_key_id att) with
  | None => false
  | Some a => verify_with (approver_public_key a) (attestation_message (att_target att) (att_head att))
                (att_sig att)
  end.

Definition verify_ref_op (name : RefName) (expected_old : option ObjectId) (new_head : ObjectId)
    (sig : bytes) (public_key : Key) : bool :=
  verify_with public_key (ref_op_message name expected_old new_head) sig.
Definition verify_proof (owner : Key) (nonce : vec byte 32) (sig : bytes) : bool :=
  verify_with owner (challenge_message nonce) sig.
Definition verify_relay_challenge (key : Key) (nonce : vec byte 32) (sig : vec byte 64) : bool :=
  if vk_from_bytes key then vk_verify key (relay_challenge_message nonce) sig else false.
Definition verify_profile (p : Profile) : bool :=
  verify_with (profile_key p) (profile_message p) (profile_sig p).
Definition verify_edge (e : TrustEdge) : bool := verify_with (from_key e) (edge_message e) (edge_sig e).
Definition verify_proposal (p : ChangeProposal) : bool :=
  verify_with (prop_author p) (proposal_message p) (prop_sig p).
Definition verify_comment (c : ReviewComment) : bool :=
  verify_with (com_author c) (comment_message c) (com_sig c).
Definition verify_post (p : Post) : bool := verify_with (post_author p) (post_message p) (post_sig p).
Definition verify_repo (r : RepoRecord) : bool := verify_with (rr_owner r) (repo_message r) (rr_sig r).

(** ** Signers: a signing key, and its name where the scheme has one *)
Definition sign_vec (s : Seed) (m : bytes) : bytes := vec_to_list (sign s m).

Definition policy_anchor (key_id : string) (s : Seed) : TrustAnchor :=
  MkAnchor key_id (verifying_key s).
Definition sign_root (key_id : string) (s : Seed) (root : ObjectId) : RootSignature :=
  MkRootSignature root key_id (sign_vec s (policy_root_message root)).
Definition approver_of (key_id : string) (s : Seed) : Approver := MkApprover key_id (verifying_key s).
Definition attest (key_id : string) (s : Seed) (target : string) (h : ObjectId) : Attestation :=
  MkAttestation target h key_id (sign_vec s (attestation_message target h)).
Definition sign_ref_op (s : Seed) (name : RefName) (expected_old : option ObjectId)
    (new_head : ObjectId) : bytes :=
  sign_vec s (ref_op_message name expected_old new_head).
Definition sign_challenge (s : Seed) (nonce : vec byte 32) : bytes :=
  sign_vec s (challenge_message nonce).
Definition sign_relay_challenge (s : Seed) (nonce : vec byte 32) : vec byte 64 :=
  sign s (relay_challenge_message nonce).

(** The artefact is built with an empty signature, which its message ignores. *)
Definition sign_profile (s : Seed) (name b : string) (eps als : list string) (seq : N) : Profile :=
  let p := MkProfile (verifying_key s) name b eps als seq [] in
  MkProfile (verifying_key s) name b eps als seq (sign_vec s (profile_message p)).
Definition sign_edge (s : Seed) (to : Key) (kind : TrustKind) (pet : option string) (seq : N) : TrustEdge :=
  let e := MkTrustEdge (verifying_key s) to kind pet seq [] in
  MkTrustEdge (verifying_key s) to kind pet seq (sign_vec s (edge_message e)).
Definition sign_proposal (s : Seed) (src tgt title : string) (at_ : N) : ChangeProposal :=
  let p := MkProposal (verifying_key s) src tgt title at_ [] in
  MkProposal (verifying_key s) src tgt title at_ (sign_vec s (proposal_message p)).
Definition sign_comment (s : Seed) (proposal : ObjectId) (body : string) (resolves : bool) (at_ : N)
    : ReviewComment :=
  let c := MkComment (verifying_key s) proposal body resolves at_ [] in
  MkComment (verifying_key s) proposal body resolves at_ (sign_vec s (comment_message c)).
Definition sign_post (s : Seed) (board body : string) (parent : option ObjectId) (at_ : N) : Post :=
  let p := MkPost (verifying_key s) board body parent at_ [] in
  MkPost (verifying_key s) board body parent at_ (sign_vec s (post_message p)).
Definition sign_repo (s : Seed) (name desc : string) (seq : N) : RepoRecord :=
  let r := MkRepoRecord (verifying_key s) name desc seq [] in
  MkRepoRecord (verifying_key s) name desc seq (sign_vec s (repo_message r)).
End schemes.

(** ** What the signed bytes determine *)

(** Everything the program signs, without the signature. *)
Inductive Signed : Type :=
| SgRoot (root : ObjectId)
| SgAttestation (target : string) (h : ObjectId)
| SgRefOp (name : RefName) (expected_old : option ObjectId) (new_head : ObjectId)
| SgHub (nonce : vec byte 32)
| SgRelay (nonce : vec byte 32)
| SgProfile (m : ProfileMsg)
| SgEdge (m : EdgeMsg)
| SgProposal (m : ProposalMsg)
| SgComment (m : CommentMsg)
| SgPost (m : PostMsg)
| SgRepo (m : RepoMsg).

(** Ref names are valid by construction. *)
Definition signed_ok (x : Signed) : Prop :=
  match x with SgRefOp n _ _ => valid_name n | _ => True end.

Definition signed_message `{Postcard} (x : Signed) : bytes :=
  match x with
  | SgRoot root => policy_root_message root
  | SgAttestation target h => attestation_message target h
  | SgRefOp n old new => ref_op_message n old new
  | SgHub nonce => challenge_message nonce
  | SgRelay nonce => relay_challenge_message nonce
  | SgProfile m => profile_message (MkProfile (pm_key m) (pm_display_name m) (pm_bio m)
      (pm_endpoints m) (pm_dns_aliases m) (pm_seq m) [])
  | SgEdge m => edge_message (MkTrustEdge (em_from_key m) (em_to_key m) (em_kind m)
      (em_petname m) (em_seq m) [])
  | SgProposal m => proposal_message (MkProposal (qm_author m) (qm_source m) (qm_target m)
      (qm_title m) (qm_created_at m) [])
  | SgComment m => comment_message (MkComment (cm_author m) (cm_proposal m) (cm_body m)
      (cm_resolves m) (cm_created_at m) [])
  | SgPost m => post_message (MkPost (bm_author m) (bm_board m) (bm_body m) (bm_parent m)
      (bm_created_at m) [])
  | SgRepo m => repo_message (MkRepoRecord (rm_owner m) (rm_name m) (rm_description m) (rm_seq m) [])
  end.

(** A byte that occurs in neither prefix ends both. *)
Lemma app_cons_unique {A} (b : A) l1 l2 r1 r2 :
  b ∉ l1 → b ∉ l2 → l1 ++ b :: r1 = l2 ++ b :: r2 → l1 = l2 ∧ r1 = r2.
Proof.
  revert l2. induction l1 as [|x l1 IH]; intros [|y l2] H1 H2 Heq; simplify_eq/=.
  - done.
  - exfalso. apply H2. left.
  - exfalso. apply H1. left.
  - destruct (IH l2) as [-> ->]; [..|done].
    + intros ?. apply H1. by right.
    + intros ?. apply H2. by right.
    + done.
Qed.

Lemma app_id_inj l1 l2 (x y : ObjectId) :
  l1 ++ id_bytes x = l2 ++ id_bytes y → l1 = l2 ∧ x = y.
Proof.
  intros Heq. apply app_inj_2 in Heq as [-> Hid]; [|by rewrite !id_bytes_length].
  by apply (inj id_bytes) in Hid.
Qed.

Lemma contains_split c d s : c ≠ d →
  (∀ seg, seg ∈ split_on c s → contains_char d seg = false) → contains_char d s = false.
Proof.
  intros Hne. induction s as [|a s IH]; [done|]. intros Hall. simpl in *.
  destruct (split_on_cons c s) as (seg & rest & Hs). rewrite Hs in *.
  destruct (Ascii.eqb_spec a c) as [->|Hac].
  - destruct (Ascii.eqb_spec c d); [done|]. simpl. apply IH. intros x Hx. apply Hall. by right.
  - pose proof (Hall (String.String a seg) ltac:(left)) as Ha. simpl in Ha.
    apply orb_false_iff in Ha as [-> Hseg]. apply IH. intros x [->|Hx]%elem_of_cons; [done|].
    apply Hall. by right.
Qed.

Lemma nul_str_bytes s : contains_char "000" s = false → x00 ∉ str_bytes s.
Proof.
  induction s as [|a s IH]; [intros _; apply not_elem_of_nil|]. simpl.
  intros [Ha Hs]%orb_false_iff. unfold str_bytes in *. simpl.
  intros [H0|Hin]%elem_of_cons; [|by apply IH].
  apply (f_equal Ascii.ascii_of_byte) in H0. rewrite Ascii.ascii_of_byte_of_ascii in H0.
  by subst a.
Qed.

Lemma valid_name_no_nul n : valid_name n → x00 ∉ str_bytes (as_str n).
Proof.
  intros Hn. apply nul_str_bytes, (contains_split "/"); [done|]. intros seg Hin.
  by apply (proj1 (valid_name_segments n) Hn) in Hin as (_ & _ & ?).
Qed.

Lemma ref_op_message_inj n1 o1 h1 n2 o2 h2 : valid_name n1 → valid_name n2 →
  ref_op_message n1 o1 h1 = ref_op_message n2 o2 h2 → n1 = n2 ∧ o1 = o2 ∧ h1 = h2.
Proof.
  intros Hn1%valid_name_no_nul Hn2%valid_name_no_nul Heq. unfold ref_op_message in Heq.
  apply app_inv_head in Heq. apply app_cons_unique in Heq as [Hn Heq]; [|done..].
  apply (inj str_bytes), (inj as_str) in Hn. split; [done|].
  assert ((default [] (id_bytes <$> o1) ++ [x00]) ++ id_bytes h1 =
    (default [] (id_bytes <$> o2) ++ [x00]) ++ id_bytes h2) as Heq' by (rewrite <- !app_assoc; exact Heq).
  apply app_id_inj in Heq' as [Ho ->]. split; [|done].
  apply app_inv_tail in Ho. destruct o1 as [o1|], o2 as [o2|]; simpl in Ho.
  - by apply (inj id_bytes) in Ho as ->.
  - pose proof (id_bytes_length o1) as Hl. by rewrite Ho in Hl.
  - pose proof (id_bytes_length o2) as Hl. by rewrite <- Ho in Hl.
  - done.
Qed.

Lemma attestation_message_inj t1 h1 t2 h2 :
  attestation_message t1 h1 = attestation_message t2 h2 → t1 = t2 ∧ h1 = h2.
Proof.
  unfold attestation_message. intros Heq%app_inv_head. rewrite !app_assoc in Heq.
  apply app_id_inj in Heq as [Heq ->]. apply app_inv_tail in Heq. by apply (inj str_bytes) in Heq.
Qed.

#[global] Instance vec_list_inj {A n} : Inj (=) (=) (@vec_to_list A n).
Proof. intros v w. apply vec_to_list_inj2. Qed.

Lemma tagged_inj {A} (d : bytes) (f : A → bytes) `{!Inj (=) (=) f} x y : d ++ f x = d ++ f y → x = y.
Proof. intros Heq%app_inv_head. by apply (inj f). Qed.

Section theorems.
Context `{Ed25519, !Ed25519Laws, Postcard}.

Lemma sig_from_sign_vec s m : sig_from_slice (sign_vec s m) = Some (sign s m).
Proof.
  unfold sig_from_slice, sign_vec. rewrite decide_True by apply length_vec_to_list.
  by rewrite pad_vec_to_list.
Qed.

Lemma verify_with_sign s m : verify_with (verifying_key s) m (sign_vec s m) = true.
Proof. unfold verify_with. by rewrite verifying_key_valid, sig_from_sign_vec, verify_sign. Qed.

Lemma verify_relay_challenge_sign s nonce : verify_relay_challenge (verifying_key s) nonce (sign_relay_challenge s nonce) = true.
Proof. unfold verify_relay_challenge, sign_relay_challenge. by rewrite verifying_key_valid, verify_sign. Qed.

(** Every signature the program issues is accepted by the verifier of its scheme:
    policy-root signatures under the signer's anchor, attestations under the
    signer's approver entry, ref updates, hub and relay challenges, profiles, trust
    edges, proposals, comments, posts and repo records under the key embedded in
    them. *)
Theorem signed_artefacts_verify (s : Seed) (key_id : string) :
  (∀ root, verify_root_signature root (sign_root key_id s root)
     (trust_add (MkTrustStore []) (policy_anchor key_id s)) = true) ∧
  (∀ target h, verify_attestation (attest key_id s target h)
     (approver_add (MkApprovers []) (approver_of key_id s)) = true) ∧
  (∀ n old new, verify_ref_op n old new (sign_ref_op s n old new) (verifying_key s) = true) ∧
  (∀ nonce, verify_proof (verifying_key s) nonce (sign_challenge s nonce) = true ∧
     verify_relay_challenge (verifying_key s) nonce (sign_relay_challenge s nonce) = true) ∧
  (∀ name b eps als seq, verify_profile (sign_profile s name b eps als seq) = true) ∧
  (∀ to kind pet seq, verify_edge (sign_edge s to kind pet seq) = true) ∧
  (∀ src tgt title t, verify_proposal (sign_proposal s src tgt title t) = true) ∧
  (∀ p body resolves t, verify_comment (sign_comment s p body resolves t) = true) ∧
  (∀ board body parent t, verify_post (sign_post s board body parent t) = true) ∧
  (∀ name desc seq, verify_repo (sign_repo s name desc seq) = true).
Proof.
  split; [|split].
  - intros root. unfold verify_root_signature, trust_find. simpl.
    rewrite decide_False, bool_decide_true by naive_solver. apply verify_with_sign.
  - intros target h. unfold verify_attestation, approver_find. simpl.
    rewrite bool_decide_true by done. apply verify_with_sign.
  - repeat split; intros; first [apply verify_with_sign | apply verify_relay_challenge_sign].
Qed.

(** Domain separation: the bytes an artefact is signed over determine it. Two
    signed artefacts with the same message are of the same scheme and agree in
    every signed field, so a signature made for one - by whatever key - can never be
    presented as a signature over another artefact or in another scheme. *)
Theorem signed_message_determines_artefact `{!PostcardLaws} (x y : Signed) :
  signed_ok x → signed_ok y → signed_message x = signed_message y → x = y.
Proof.
  intros Hx Hy. destruct x, y; simpl in *; try (intros Heq; discriminate Heq).
  - intros Heq. by apply (tagged_inj POLICY_ROOT_DOMAIN id_bytes) in Heq as ->.
  - by intros [-> ->]%attestation_message_inj.
  - intros Heq. by apply ref_op_message_inj in Heq as (-> & -> & ->).
  - intros Heq. by apply (tagged_inj HUB_PUSH_DOMAIN vec_to_list) in Heq as ->.
  - intros Heq. by apply (tagged_inj COLLAB_RELAY_AUTH_DOMAIN vec_to_list) in Heq as ->.
  - destruct m, m0. intros Heq. apply (tagged_inj COLLAB_PROFILE_DOMAIN pc_profile) in Heq. f_equal. exact Heq.
  - destruct m, m0. intros Heq. apply (tagged_inj COLLAB_EDGE_DOMAIN pc_edge) in Heq. f_equal. exact Heq.
  - destruct m, m0. intros Heq. apply (tagged_inj PROPOSAL_DOMAIN pc_proposal) in Heq. f_equal. exact Heq.
  - destruct m, m0. intros Heq. apply (tagged_inj REVIEW_COMMENT_DOMAIN pc_comment) in Heq. f_equal. exact Heq.
  - destruct m, m0. intros Heq. apply (tagged_inj BOARD_POST_DOMAIN pc_post) in Heq. f_equal. exact Heq.
  - destruct m, m0. intros Heq. apply (tagged_inj REPO_RECORD_DOMAIN pc_repo) in Heq. f_equal. exact Heq.
Qed.
End theorems.

(** ** Concrete parameters

    A toy scheme whose public key is the seed and whose signature is the key and
    the head of the message; postcard replaced by stdpp's encodings. *)
Definition toy_sign (k : vec byte 32) (m : bytes) : vec byte 64 := pad_vec 64 (vec_to_list k ++ m).
Definition toy_ed25519 : Ed25519 := {|
  verifying_key s := s;
  sign := toy_sign;
  vk_from_bytes _ := true;
  vk_verify k m s := bool_decide (s = toy_sign k m)
|}.
Lemma toy_ed25519_laws : @Ed25519Laws toy_ed25519.
Proof. split; [done|]. intros s m. by apply bool_decide_true. Qed.

#[global] Instance TrustKind_countable : Countable TrustKind.
Proof.
  refine (inj_countable' (λ k, match k with Vouch => 0%N | Follow => 1%N | Review => 2%N end)
    (λ n, match n with 0%N => Vouch | 1%N => Follow | _ => Review end) _).
  by intros [].
Defined.

#[global] Instance demo_enc_inj {A} `{Countable A} : Inj (=) (=) (demo_enc (A := A)).
Proof.
  intros x y Heq. pose proof (demo_dec_enc x) as Hx. rewrite Heq, demo_dec_enc in Hx. congruence.
Qed.

Definition toy_postcard : Postcard := {|
  pc_profile m := demo_enc (pm_key m, pm_display_name m, pm_bio m, pm_endpoints m, pm_dns_aliases m, pm_seq m);
  pc_edge m := demo_enc (em_from_key m, em_to_key m, em_kind m, em_petname m, em_seq m);
  pc_proposal m := demo_enc (qm_author m, qm_source m, qm_target m, qm_title m, qm_created_at m);
  pc_comment m := demo_enc (cm_author m, cm_proposal m, cm_body m, cm_resolves m, cm_created_at m);
  pc_post m := demo_enc (bm_author m, bm_board m, bm_body m, bm_parent m, bm_created_at m);
  pc_repo m := demo_enc (rm_owner m, rm_name m, rm_description m, rm_seq m)
|}.
Lemma toy_postcard_laws : @PostcardLaws toy_postcard.
Proof. split; intros [] [] Heq%(inj demo_enc); simpl in Heq; congruence. Qed.

Definition zero_seed : Seed := pad_vec 32 [].

Lemma signed_artefacts_verify_witness :
  @verify_profile toy_ed25519 toy_postcard
    (@sign_profile toy_ed25519 toy_postcard zero_seed "Alice" "hi" [] [] 1) = true.
Proof.
  destruct (@signed_artefacts_verify toy_ed25519 toy_ed25519_laws toy_postcard zero_seed "k")
    as (_ & _ & _ & _ & Hp & _).
  apply Hp.
Defined.

Lemma signed_message_determines_artefact_witness :
  let a := SgRefOp ex_main None (ex_id x02) in
  let b := SgRefOp ex_main (Some (ex_id x01)) (ex_id x02) in
  signed_ok a ∧ signed_ok b ∧ @signed_message toy_postcard a ≠ @signed_message toy_postcard b.
Proof.
  split; [reflexivity|]. split; [reflexivity|]. intros Heq.
  pose proof (@signed_message_determines_artefact toy_postcard toy_postcard_laws
    (SgRefOp ex_main None (ex_id x02)) (SgRefOp ex_main (Some (ex_id x01)) (ex_id x02))
    eq_refl eq_refl Heq) as Hx.
  discriminate Hx.
Defined.
