(* ===== verification/Policy.v ===== *)
(** * Policy: write-time policy hooks

    [src/src/acl/hook.rs] and the approval hook of [src/src/acl/attestation.rs]:
    decisions, the hook registry, the built-in fast-forward hook with its ancestry
    search, signed approvals counted from the repository's refs, and the
    resolution of declarative hook specs.  A hook is its name, its check and its
    determinism flag; the registry holds a list of them.

    The theorems: the ancestry search terminates and decides reachability in the
    snapshot graph; the registry's verdict is the most restrictive one; an approval
    hook lets a head through only on enough distinct valid signatures over exactly
    that target and head; and what the code does with an out-of-range count. *)

From S2P Require Import Prelude Graph Lattice Glob Access Ids Objects Refs RefStore RefsDisk Signing.

(** [Display] of an error; the text of an I/O error is the standard library's. *)
Class IoText := { io_text : io_error → string }.
Definition error_text `{IoText} (e : Error) : string :=
  match e with
  | Codec m => "codec error: " +:+ m
  | Storage m => "storage error: " +:+ m
  | Io e => "io error: " +:+ io_text e
  | InvalidRefName m => "invalid ref name: " +:+ m
  | WrongRefKind m => "wrong ref kind: " +:+ m
  | AccessDenied m => "access denied: " +:+ m
  | DecryptionFailed => "decryption failed"
  | SecretNotUtf8 => "secret value is not valid UTF-8"
  | GitProjection m => "git projection failed: " +:+ m
  | PolicyViolation m => "policy violation: " +:+ m
  | ApprovalRequired reason _ => "approval required: " +:+ reason
  | TransactionConflict m => "transaction conflict: " +:+ m
  | Panic m => m
  end.

(** A cast [as u32]. *)
Definition as_u32 (n : N) : N := (n `mod` 2 ^ 32)%N.

Inductive PolicyDecision : Type :=
| Allow
| Deny (reason : string)
| RequiresApproval (reason : string) (needed : N).
#[global] Instance PolicyDecision_eq_dec : EqDecision PolicyDecision.
Proof. solve_decision. Defined.

Definition rank (d : PolicyDecision) : N :=
  match d with Allow => 0 | RequiresApproval _ _ => 1 | Deny _ => 2 end.
Definition more_restrictive (a b : PolicyDecision) : PolicyDecision :=
  if (rank a <? rank b)%N then b else a.

Inductive PolicyEvent : Type :=
| EvAdvance (timeline : RefName) (old_head new_head : ObjectId)
| EvMerge (source target : RefName) (old_head result_head : ObjectId).

(** ** Ancestry *)
Definition parents_of (obj : Object) : list ObjectId :=
  match obj with OSnapshot s => snap_parents s | _ => [] end.

(** [is_ancestor]; the fuel bounds the ids the search can meet. *)
Definition is_ancestor (O : objects) (ancestor descendant : ObjectId) : res bool :=
  if decide (ancestor = descendant) then Ok true
  else match dfs_find (edges_of parents_of O) (2 + size (edge_targets parents_of O))
               ancestor ∅ [descendant] with
       | Some r => r
       | None => Err (Panic "out of fuel")
       end.

Section policy.
Context {B : Type} `{RefBackend B, IoText, Ed25519}.

Record PolicyContext : Type := MkContext {
  ctx_event : PolicyEvent;
  ctx_accessor : Accessor;
  ctx_objects : objects;
  ctx_refs : B;
  ctx_now : N
}.

(** [trait PolicyHook] *)
Record PolicyHook : Type := MkHook {
  hook_name : string;
  hook_check : PolicyContext → PolicyDecision;
  hook_deterministic : bool
}.

(** ** The built-in hook *)
Definition debug_policy (p : TimelinePolicy) : string :=
  match p with
  | FastForwardOnly => "FastForwardOnly" | Append => "Append" | Unrestricted => "Unrestricted"
  end.

Definition timeline_policy_check (ctx : PolicyContext) : PolicyDecision :=
  match ctx_event ctx with
  | EvMerge _ _ _ _ => Allow
  | EvAdvance timeline old_head new_head =>
      match get_timeline (ctx_refs ctx) timeline with
      | Ok None => Deny ("timeline '" +:+ as_str timeline +:+ "' not found")
      | Err e => Deny ("timeline lookup failed: " +:+ error_text e)
      | Ok (Some tl) =>
          match policy tl with
          | Unrestricted => Allow
          | FastForwardOnly | Append =>
              match is_ancestor (ctx_objects ctx) old_head new_head with
              | Ok true => Allow
              | Ok false =>
                  Deny ("timeline '" +:+ as_str timeline +:+ "' has policy " +:+
                    debug_policy (policy tl) +:+ "; new head " +:+ id_to_string new_head +:+
                    " is not a descendant of current head " +:+ id_to_string old_head)
              | Err e => Deny ("ancestry check failed: " +:+ error_text e)
              end
          end
      end
  end.
(** [deterministic] is not overridden: the trait's default. *)
Definition TimelinePolicyHook : PolicyHook := MkHook "timeline-policy" timeline_policy_check true.

(** ** Signed approvals *)
Definition APPROVERS_REF : string := "refs/policy/approvers".
Definition ATTESTATIONS_PREFIX : string := "refs/attestations/".

Definition load_approvers (refs : B) (O : objects) : res ApproverRegistry :=
  name ← RefName_new APPROVERS_REF;
  tag ← get_tag refs name;
  match tag with
  | None => Ok (MkApprovers [])
  | Some t =>
      obj ← os_get O (tag_target t);
      match obj with
      | Some (OPolicy (PApprovers reg)) => Ok reg
      | _ => Ok (MkApprovers [])
      end
  end.

(** One ref of [load_attestations]. *)
Definition load_attestation (refs : B) (O : objects) (name : RefName) : res (option Attestation) :=
  tag ← get_tag refs name;
  match tag with
  | None => Ok None
  | Some t =>
      obj ← os_get O (tag_target t);
      match obj with Some (OPolicy (PAttestation att)) => Ok (Some att) | _ => Ok None end
  end.
Definition load_attestations (refs : B) (O : objects) : res (list Attestation) :=
  names ← list_refs refs ATTESTATIONS_PREFIX;
  atts ← res_map (load_attestation refs O) names;
  Ok (omap (M := list) (λ a : option Attestation, a) atts).

(** The valid attestations of [head] for [target]. *)
Definition approves (registry : ApproverRegistry) (target : string) (h : ObjectId)
    (att : Attestation) : bool :=
  bool_decide (att_target att = target) && bool_decide (att_head att = h) &&
  verify_attestation att registry.
(** The set [approvers] of [count_valid_approvals]. *)
Definition approval_keys (atts : list Attestation) (registry : ApproverRegistry)
    (target : string) (h : ObjectId) : gset string :=
  foldl (λ s att, if approves registry target h att then {[att_key_id att]} ∪ s else s) ∅ atts.
Definition count_valid_approvals (atts : list Attestation) (registry : ApproverRegistry)
    (target : string) (h : ObjectId) : N :=
  as_u32 (N.of_nat (size (approval_keys atts registry target h))).

Definition event_target (e : PolicyEvent) : RefName * ObjectId :=
  match e with
  | EvMerge _ target _ result_head => (target, result_head)
  | EvAdvance timeline _ new_head => (timeline, new_head)
  end.

Definition signed_approval_check (pattern : string) (needed : N) (ctx : PolicyContext)
    : PolicyDecision :=
  let '(target, h) := event_target (ctx_event ctx) in
  if negb (glob_matches pattern (as_str target)) then Allow
  else match load_approvers (ctx_refs ctx) (ctx_objects ctx) with
  | Err e => Deny ("approver load failed: " +:+ error_text e)
  | Ok approvers =>
      match load_attestations (ctx_refs ctx) (ctx_objects ctx) with
      | Err e => Deny ("attestation load failed: " +:+ error_text e)
      | Ok attestations =>
          let have := count_valid_approvals attestations approvers (as_str target) h in
          if (have <? needed)%N
          then RequiresApproval (as_str target +:+ " needs " +:+ pretty needed +:+
                 " signed approval(s) of head " +:+ id_to_string h +:+ ", has " +:+ pretty have)
                 (needed - have)
          else Allow
      end
  end.
Definition SignedApprovalHook (pattern : string) (needed : N) : PolicyHook :=
  MkHook "signed-approval" (signed_approval_check pattern needed) false.

(** ** Resolution of declarative specs *)
Definition resolve_hook (spec : HookSpec) : res PolicyHook :=
  if decide (hook_kind spec = "signed-approval") then
    Ok (SignedApprovalHook (hook_pattern spec) (as_u32 (default 1%N (hook_params spec !! "needed"))))
  else if decide (hook_kind spec = "timeline-policy") then Ok TimelinePolicyHook
  else Err (PolicyViolation ("unknown policy hook kind '" +:+ hook_kind spec +:+ "' (fail-closed)")).

(** ** The registry *)
Record PolicyRegistry : Type := MkRegistry { hooks : list PolicyHook }.
Definition registry_new : PolicyRegistry := MkRegistry [TimelinePolicyHook].
Definition registry_push (r : PolicyRegistry) (h : PolicyHook) : PolicyRegistry :=
  MkRegistry (hooks r ++ [h]).

Definition evaluate (r : PolicyRegistry) (ctx : PolicyContext) : PolicyDecision :=
  foldl (λ d h, more_restrictive d (hook_check h ctx)) Allow (hooks r).
Definition deterministic (r : PolicyRegistry) : bool := forallb hook_deterministic (hooks r).
Definition non_deterministic (r : PolicyRegistry) : list string :=
  hook_name <$> filter (λ h, negb (hook_deterministic h)) (hooks r).
(** [offenders.join(", ")] *)
Definition join_names (l : list string) : string :=
  match l with [] => "" | x :: l => foldl (λ a s, a +:+ ", " +:+ s) x l end.
Definition evaluate_replayable (r : PolicyRegistry) (ctx : PolicyContext) : PolicyDecision :=
  let offenders := non_deterministic r in
  match offenders with
  | _ :: _ => Deny ("non-deterministic policy hook(s) [" +:+ join_names offenders +:+
      "] cannot gate a replicated advance (fail-closed); use replayable hooks (e.g. signed attestations) instead")
  | [] => evaluate r ctx
  end.
End policy.
Arguments PolicyContext B : clear implicits.
Arguments PolicyHook B : clear implicits.
Arguments PolicyRegistry B : clear implicits.

(** ** Ancestry decides reachability *)

(** [y] is a parent of the snapshot stored at [x]. *)
Definition parent_of (O : objects) (x y : ObjectId) : Prop :=
  ∃ s, O !! x = Some (Ok (OSnapshot s)) ∧ y ∈ snap_parents s.

Lemma edge_parents O x y : edge (edges_of parents_of O) x y ↔ parent_of O x y.
Proof.
  rewrite edge_edges_of. unfold parent_of. split.
  - intros (obj & Ho & Hy). destruct obj; simpl in Hy; try by apply not_elem_of_nil in Hy. eauto.
  - intros (s & Ho & Hy). by exists (OSnapshot s).
Qed.

Lemma edges_of_Err f O x e : edges_of f O x = Err e → O !! x = Some (Err e).
Proof. unfold edges_of, os_get. destruct (O !! x) as [[]|]; simpl; congruence. Qed.

Lemma is_ancestor_spec (O : objects) (a d : ObjectId) :
  match is_ancestor O a d with
  | Ok b => b = true ↔ rtc (parent_of O) d a
  | Err e => ∃ x, rtc (parent_of O) d x ∧ O !! x = Some (Err e)
  end.
Proof.
  unfold is_ancestor. case_decide as Had; [subst; naive_solver|].
  destruct (dfs_find_total (edges_of parents_of O) (2 + size (edge_targets parents_of O)) d a
    (edge_targets parents_of O)) as [r Hr]; [apply edges_of_targets|lia|].
  rewrite Hr. apply dfs_find_sound with (src := d) in Hr; [|apply dfs_inv_init].
  assert (tc (edge (edges_of parents_of O)) d a ↔ rtc (parent_of O) d a) as Htc.
  { rewrite rtc_tc, (tc_ext _ (parent_of O)) by apply edge_parents. naive_solver. }
  destruct r as [[]|e].
  - naive_solver.
  - rewrite <- Htc. naive_solver.
  - destruct Hr as (x & Hx & He). exists x. split; [|by eapply edges_of_Err].
    by apply (rtc_ext (edge (edges_of parents_of O)) (parent_of O)); [apply edge_parents|].
Qed.

(** ** Most restrictive *)
Lemma more_restrictive_fold ds d r : foldl more_restrictive d ds = r →
  (rank d ≤ rank r)%N ∧ (∀ x, x ∈ ds → (rank x ≤ rank r)%N) ∧
  (r = d ∨ ∃ l1 l2, ds = l1 ++ r :: l2 ∧ (rank d < rank r)%N ∧ ∀ x, x ∈ l1 → (rank x < rank r)%N).
Proof.
  revert d. induction ds as [|x ds IH]; intros d; simpl.
  { intros ->. split; [lia|]. split; [by intros x ?%not_elem_of_nil|by left]. }
  intros Hr. destruct (IH _ Hr) as (Hd & Hall & Hor). clear Hr IH.
  assert (rank d ≤ rank (more_restrictive d x) ∧ rank x ≤ rank (more_restrictive d x))%N as [Hdm Hxm].
  { unfold more_restrictive. destruct (N.ltb_spec (rank d) (rank x)); lia. }
  split; [lia|]. split.
  { intros y [->|Hy]%elem_of_cons; [lia|]. by apply Hall. }
  destruct Hor as [Hr|(l1 & l2 & Hds & Hlt & Hl1)].
  - unfold more_restrictive in Hr. destruct (N.ltb_spec (rank d) (rank x)); [right|by left].
    subst r. exists [], ds. split; [done|]. split; [lia|]. by intros y ?%not_elem_of_nil.
  - right. exists (x :: l1), l2. split; [by rewrite Hds|]. split; [lia|].
    intros y [->|Hy]%elem_of_cons; [lia|]. by apply Hl1.
Qed.

Section facts.
Context {B : Type} `{RefBackend B, IoText, Ed25519}.

Lemma evaluate_fold (r : PolicyRegistry B) ctx :
  evaluate r ctx = foldl more_restrictive Allow ((λ h, hook_check h ctx) <$> hooks r).
Proof. unfold evaluate. generalize Allow. induction (hooks r) as [|h l IH]; intros d; [done|]. apply IH. Qed.

Lemma non_deterministic_nil (r : PolicyRegistry B) : non_deterministic r = [] ↔ deterministic r = true.
Proof.
  unfold non_deterministic, deterministic. induction (hooks r) as [|h l IH]; [done|].
  rewrite filter_cons. case_decide as Hd; simpl; destruct (hook_deterministic h); simpl in *; done.
Qed.

(** ** Approvals *)
Lemma elem_of_approval_keys atts reg target h k :
  k ∈ approval_keys atts reg target h ↔
    ∃ att, att ∈ atts ∧ approves reg target h att = true ∧ att_key_id att = k.
Proof.
  unfold approval_keys.
  assert (∀ s : gset string, k ∈ foldl (λ s att, if approves reg target h att
      then {[att_key_id att]} ∪ s else s) s atts ↔
    k ∈ s ∨ ∃ att, att ∈ atts ∧ approves reg target h att = true ∧ att_key_id att = k) as Hg.
  { induction atts as [|att atts IH]; intros s; simpl.
    - split; [by left|]. intros [?|(att & ?%not_elem_of_nil & _)]; done.
    - rewrite IH. destruct (approves reg target h att) eqn:Ha.
      + rewrite elem_of_union, elem_of_singleton. split.
        * intros [[->|?]|(a & ? & ? & ?)]; [right; exists att|by left|right; exists a];
            (split; [|done]); [by left|by right].
        * intros [?|(a & [->|?]%elem_of_cons & ? & <-)]; [left; by right|left; by left|].
          right. by exists a.
      + split.
        * intros [?|(a & ? & ? & ?)]; [by left|]. right. exists a. split; [by right|done].
        * intros [?|(a & [->|?]%elem_of_cons & ? & <-)]; [by left|congruence|]. right. by exists a. }
  rewrite Hg. set_solver.
Qed.

Lemma approves_true reg target h att :
  approves reg target h att = true ↔
    att_target att = target ∧ att_head att = h ∧
    ∃ a, approver_find reg (att_key_id att) = Some a ∧
      verify_with (approver_public_key a) (attestation_message target h) (att_sig att) = true.
Proof.
  unfold approves, verify_attestation. rewrite !andb_true_iff, !bool_decide_eq_true.
  destruct (approver_find _ _); naive_solver.
Qed.

(** Every loaded attestation is stored, and pinned by a ref of the namespace. *)
Lemma load_attestations_stored `{!RefBackendLaws B} (refs : B) O atts att :
  be_inv refs → load_attestations refs O = Ok atts → att ∈ atts →
  ∃ n t, be_view refs !! n = Some (RTag t) ∧
    String.prefix ATTESTATIONS_PREFIX (as_str n) = true ∧
    O !! tag_target t = Some (Ok (OPolicy (PAttestation att))).
Proof.
  intros Hinv. unfold load_attestations. rewrite bind_Ok. setoid_rewrite bind_Ok.
  intros (names & Hl & os & Hos & [= <-]) Hin.
  apply list_elem_of_omap in Hin as (o & Ho & ->). apply res_map_Ok in Hos.
  apply list_elem_of_lookup_1 in Ho as [i Hi]. destruct (Forall2_lookup_r _ _ _ _ _ Hos Hi) as (n & Hn & Hload).
  apply list_elem_of_lookup_2 in Hn. unfold list_refs in Hl.
  destruct (be_list_Ok _ _ _ Hinv Hl) as (_ & _ & Hnames). apply Hnames in Hn as [[r Hr] Hp].
  unfold load_attestation, get_tag in Hload.
  rewrite (be_get_stored _ _ _ Hinv Hr) in Hload. simpl in Hload.
  destruct r as [t|tl]; [|done]. exists n, t. split; [done|]. split; [done|]. simpl in Hload.
  unfold os_get in Hload. destruct (O !! tag_target t) as [[obj|]|]; try done.
  simpl in Hload. repeat case_match; simplify_eq. done.
Qed.

(** The ancestry test behind fast-forward enforcement always terminates and decides
    reachability: it answers yes exactly when the ancestor is the descendant or
    reachable from it along the parents of stored snapshots, and it fails only with
    the error of a reachable object that cannot be decoded. *)
Theorem is_ancestor_correct (O : objects) (a d : ObjectId) :
  match is_ancestor O a d with
  | Ok b => b = true ↔ rtc (parent_of O) d a
  | Err e => ∃ x, rtc (parent_of O) d x ∧ O !! x = Some (Err e)
  end.
Proof. apply is_ancestor_spec. Qed.

(** The registry's verdict is the most restrictive one: no bound hook's decision is
    more restrictive than it, and unless every hook allows, it is the decision of
    the first hook that reaches that restrictiveness. For a replicated decision the
    verdict is the same when every hook is deterministic and a denial otherwise. *)
Theorem registry_most_restrictive (r : PolicyRegistry B) (ctx : PolicyContext B) :
  (∀ h, h ∈ hooks r → (rank (hook_check h ctx) ≤ rank (evaluate r ctx))%N) ∧
  (evaluate r ctx = Allow ∨ ∃ l1 h l2, hooks r = l1 ++ h :: l2 ∧
     evaluate r ctx = hook_check h ctx ∧
     ∀ h', h' ∈ l1 → (rank (hook_check h' ctx) < rank (evaluate r ctx))%N) ∧
  (if deterministic r then evaluate_replayable r ctx = evaluate r ctx
   else ∃ reason, evaluate_replayable r ctx = Deny reason).
Proof.
  destruct (more_restrictive_fold _ _ _ (eq_sym (evaluate_fold r ctx))) as (_ & Hall & Hor).
  split; [|split].
  - intros h Hh. apply Hall. apply list_elem_of_fmap. by exists h.
  - destruct Hor as [?|(l1 & l2 & Hds & _ & Hl1)]; [by left|right].
    apply fmap_app_inv in Hds as (k1 & k2 & -> & Hk2 & Hk).
    symmetry in Hk2. apply fmap_cons_inv in Hk2 as (h & k3 & Hh & _ & ->).
    exists k1, h, k3. split; [done|]. split; [done|]. intros h' Hh'. apply Hl1.
    apply list_elem_of_fmap. by exists h'.
  - destruct (deterministic r) eqn:Hd.
    + unfold evaluate_replayable. by rewrite (proj2 (non_deterministic_nil r) Hd).
    + unfold evaluate_replayable. destruct (non_deterministic r) eqn:Hn; [|by eexists].
      apply non_deterministic_nil in Hn. congruence.
Qed.

(** [C22] What lets a head through an approval gate: on a target the hook's pattern
    matches, the check allows the advance or merge exactly when the approvers and
    attestations can be loaded and the number of distinct registered keys with a
    valid signature over exactly this target and this head (counted as a [u32])
    reaches the required number; and every attestation counted is an object pinned
    by a tag of the attestation namespace. *)
Theorem signed_approval_gate `{!RefBackendLaws B} (pattern : string) (needed : N)
    (ctx : PolicyContext B) :
  be_inv (ctx_refs ctx) →
  let t := (event_target (ctx_event ctx)).1 in
  let h := (event_target (ctx_event ctx)).2 in
  glob_matches pattern (as_str t) = true →
  hook_check (SignedApprovalHook pattern needed) ctx = Allow ↔
  ∃ reg atts (keys : gset string),
    load_approvers (ctx_refs ctx) (ctx_objects ctx) = Ok reg ∧
    load_attestations (ctx_refs ctx) (ctx_objects ctx) = Ok atts ∧
    (∀ k, k ∈ keys ↔ ∃ att a, att ∈ atts ∧ att_key_id att = k ∧
       att_target att = as_str t ∧ att_head att = h ∧ approver_find reg k = Some a ∧
       verify_with (approver_public_key a) (attestation_message (as_str t) h) (att_sig att) = true) ∧
    (∀ att, att ∈ atts → ∃ n tag, be_view (ctx_refs ctx) !! n = Some (RTag tag) ∧
       String.prefix ATTESTATIONS_PREFIX (as_str n) = true ∧
       ctx_objects ctx !! tag_target tag = Some (Ok (OPolicy (PAttestation att)))) ∧
    (needed ≤ as_u32 (N.of_nat (size keys)))%N.
Proof.
  intros Hinv t h Hm.
  assert (∀ reg atts k, k ∈ approval_keys atts reg (as_str t) h ↔
    ∃ att a, att ∈ atts ∧ att_key_id att = k ∧ att_target att = as_str t ∧ att_head att = h ∧
      approver_find reg k = Some a ∧
      verify_with (approver_public_key a) (attestation_message (as_str t) h) (att_sig att) = true)
    as Hkeys.
  { intros reg atts k. rewrite elem_of_approval_keys. setoid_rewrite approves_true. naive_solver. }
  simpl. unfold signed_approval_check.
  assert (event_target (ctx_event ctx) = (t, h)) as -> by (unfold t, h; by destruct (event_target _)).
  rewrite Hm. simpl.
  destruct (load_approvers (ctx_refs ctx) (ctx_objects ctx)) as [reg|e]; [|naive_solver].
  destruct (load_attestations (ctx_refs ctx) (ctx_objects ctx)) as [atts|e] eqn:Ha; [|naive_solver].
  unfold count_valid_approvals. destruct (N.ltb_spec (as_u32 (N.of_nat
    (size (approval_keys atts reg (as_str t) h)))) needed) as [Hlt|Hge].
  - split; [done|]. intros (reg' & atts' & keys & [= <-] & [= <-] & Hk & _ & Hn).
    assert (keys = approval_keys atts reg (as_str t) h) as ->.
    { apply set_eq. intros k. by rewrite Hk, Hkeys. }
    lia.
  - split; [|done]. intros _. exists reg, atts, (approval_keys atts reg (as_str t) h).
    split; [done|]. split; [done|]. split; [by apply Hkeys|]. split; [|done].
    intros att Hin. by eapply load_attestations_stored.
Qed.

(** What the code does with an out-of-range count: the required number of a
    declarative [signed-approval] hook is a 64-bit parameter cut to 32 bits, so a
    spec that asks for a multiple of 2^32 approvals resolves to a hook that asks for
    none, and never requests an approval. *)
Theorem approval_count_truncated (spec : HookSpec) (k : N) :
  hook_kind spec = "signed-approval" → hook_params spec !! "needed" = Some (k * 2 ^ 32)%N →
  resolve_hook spec = Ok (SignedApprovalHook (B := B) (hook_pattern spec) 0) ∧
  ∀ ctx reason n, hook_check (SignedApprovalHook (B := B) (hook_pattern spec) 0) ctx ≠
    RequiresApproval reason n.
Proof.
  intros Hk Hp. split.
  - unfold resolve_hook. rewrite decide_True by done. rewrite Hp. simpl.
    unfold as_u32. by rewrite N.Div0.mod_mul.
  - intros ctx reason n. simpl. unfold signed_approval_check.
    destruct (event_target _) as [t h]. destruct (glob_matches _ _); simpl; [|done].
    destruct (load_approvers _ _); [|done]. destruct (load_attestations _ _); [|done].
    by destruct (N.ltb_spec (count_valid_approvals a0 a (as_str t) h) 0); [lia|].
Qed.
End facts.

(** ** Concrete runs *)
Definition demo_io_text : IoText := {| io_text _ := "os error" |}.

Section demo.
Local Existing Instance demo_io_text.
Local Existing Instance toy_ed25519.

Definition ex_approvers_id : ObjectId := ex_id x0a.
Definition ex_att_id : ObjectId := ex_id x0b.
Definition ex_attestation : Attestation := attest "alice" zero_seed "main" (ex_id x02).
Definition ex_gate_objects : objects :=
  {[ ex_approvers_id := Ok (OPolicy (PApprovers (MkApprovers [approver_of "alice" zero_seed])));
     ex_att_id := Ok (OPolicy (PAttestation ex_attestation)) ]}.
Definition ex_gate_refs : MemoryRefBackend :=
  {[ "refs/policy/approvers" := RTag (MkTag ex_approvers_id 0 None);
     "refs/attestations/1" := RTag (MkTag ex_att_id 0 None) ]}.
Definition ex_gate_ctx : PolicyContext MemoryRefBackend :=
  MkContext (EvAdvance ex_main (ex_id x01) (ex_id x02)) accessor_new ex_gate_objects ex_gate_refs 0.

Lemma ex_gate_refs_ok : mem_ok ex_gate_refs.
Proof.
  intros k r Hk. unfold ex_gate_refs in Hk.
  apply lookup_insert_Some in Hk as [[<- _]|[_ Hk]]; [vm_compute; reflexivity|].
  apply lookup_singleton_Some in Hk as [<- _]. vm_compute. reflexivity.
Qed.

Lemma signed_approval_gate_witness :
  hook_check (SignedApprovalHook "main" 1) ex_gate_ctx = Allow ∧
  ∃ (keys : gset string) reg atts, (1 ≤ as_u32 (N.of_nat (size keys)))%N ∧
    load_approvers ex_gate_refs ex_gate_objects = Ok reg ∧
    load_attestations ex_gate_refs ex_gate_objects = Ok atts.
Proof.
  assert (hook_check (SignedApprovalHook "main" 1) ex_gate_ctx = Allow) as Hc
    by (vm_compute; reflexivity).
  split; [exact Hc|].
  assert (be_inv (ctx_refs ex_gate_ctx)) as Hinv by exact ex_gate_refs_ok.
  destruct (proj1 (signed_approval_gate "main" 1 ex_gate_ctx Hinv eq_refl) Hc)
    as (reg & atts & keys & Hr & Ha & _ & _ & Hn).
  exists keys, reg, atts. split; [exact Hn|]. split; [exact Hr|exact Ha].
Defined.

Definition ex_spec : HookSpec := MkHookSpec "signed-approval" "release/**" {[ "needed" := 4294967296%N ]}.

Lemma approval_count_truncated_witness :
  resolve_hook (B := MemoryRefBackend) ex_spec = Ok (SignedApprovalHook "release/**" 0).
Proof.
  exact (proj1 (approval_count_truncated (B := MemoryRefBackend) ex_spec 1 eq_refl eq_refl)).
Defined.

(** A head that does not descend from the current one. *)
Definition ex_ff_ctx (p : TimelinePolicy) : PolicyContext MemoryRefBackend :=
  MkContext (EvAdvance ex_main (ex_id x01) (ex_id x02)) accessor_new ∅
    {[ "main" := RTimeline (MkTimeline (ex_id x01) p 0 "persistent" None) ]} 0.

(** The built-in fast-forward hook reports itself deterministic - a pure function of
    the event and the object graph - but it reads the timeline's policy from the
    live ref store: the same advance over the same objects is denied by a replica
    on which the timeline is fast-forward-only and allowed by one on which it is
    unrestricted. *)
Theorem timeline_hook_reads_refs :
  hook_deterministic (TimelinePolicyHook (B := MemoryRefBackend)) = true ∧
  ctx_event (ex_ff_ctx FastForwardOnly) = ctx_event (ex_ff_ctx Unrestricted) ∧
  ctx_objects (ex_ff_ctx FastForwardOnly) = ctx_objects (ex_ff_ctx Unrestricted) ∧
  rank (hook_check TimelinePolicyHook (ex_ff_ctx FastForwardOnly)) = 2%N ∧
  hook_check TimelinePolicyHook (ex_ff_ctx Unrestricted) = Allow.
Proof.
  split; [reflexivity|]. split; [reflexivity|]. split; [reflexivity|].
  split; vm_compute; reflexivity.
Qed.
End demo.
