(* ===== verification/Authority.v ===== *)
(** * Authority: policy-root chains

    The rest of [src/src/acl/authority.rs]: loading a policy root, walking its
    parent chain, verifying a chain against trusted keys, and reconciling two
    verified tips.

    The theorems: the walk terminates and returns exactly the parent chain; a chain
    is accepted exactly when every root on it is present, complete, resolvable and
    signed by a trusted key; reconciliation prefers the longer lineage and does not
    depend on the order of its arguments. *)

From S2P Require Import Prelude Graph Access Ids Objects Refs RefStore RefsDisk Signing Policy.

Inductive PolicyVerdict : Type :=
| Accept (depth : N)
| Reject (reason : string).

Inductive PolicyResolution : Type :=
| ResolveLeft
| ResolveRight
| Diverged (left right : ObjectId).

(** [load_root] *)
Definition load_root (O : objects) (rid : ObjectId) : res (option PolicyRoot) :=
  obj ← os_get O rid;
  match obj with Some (OPolicy (PRoot r)) => Ok (Some r) | _ => Ok None end.

(** [chain_of]'s loop: the walk cannot visit more than [size O] distinct roots. *)
Fixpoint chain_walk (fuel : nat) (O : objects) (chain : list ObjectId) (seen : gset ObjectId)
    (cur : option ObjectId) : res (list ObjectId) :=
  match cur with
  | None => Ok (rev chain)
  | Some rid =>
      match fuel with
      | O => Err (Panic "out of fuel")
      | S fuel =>
          if decide (rid ∈ seen) then Err (PolicyViolation "policy chain has a cycle")
          else root ← load_root O rid;
               match root with
               | None => Err (PolicyViolation ("policy root not found: " +:+ id_to_string rid))
               | Some root => chain_walk fuel O (rid :: chain) ({[rid]} ∪ seen) (root_parent root)
               end
      end
  end.
Definition chain_of (O : objects) (tip : ObjectId) : res (list ObjectId) :=
  chain_walk (S (S (size O))) O [] ∅ (Some tip).

Section verify.
Context {B : Type} `{RefBackend B, IoText, Ed25519}.
Context (O : objects) (sigs : SignatureStore) (trust : TrustStore).

(** One iteration of [verify_chain]'s loop: the reason to reject, if any. *)
Definition verify_one (rid : ObjectId) : res (option string) :=
  r ← load_root O rid;
  match r with
  | None => Err (Panic "chain_of validated presence")
  | Some root =>
      lattice ← os_get O (root_lattice root);
      match lattice with
      | None => Ok (Some ("missing lattice for root " +:+ id_to_string rid))
      | Some _ =>
          rules ← os_get O (root_rules root);
          match rules with
          | None => Ok (Some ("missing rules for root " +:+ id_to_string rid))
          | Some _ =>
              match find_first (λ h, negb (is_Ok (resolve_hook (B := B) h))) (root_hooks root) with
              | Some h => Ok (Some ("unknown hook kind '" +:+ hook_kind h +:+ "' in root " +:+ id_to_string rid))
              | None =>
                  match sigs !! rid with
                  | Some sig =>
                      if verify_root_signature rid sig trust then Ok None
                      else Ok (Some ("bad signature on root " +:+ id_to_string rid))
                  | None => Ok (Some ("unsigned policy root " +:+ id_to_string rid))
                  end
              end
          end
      end
  end.

(** [for id in &chain { .. return Ok(Reject) .. }] *)
Fixpoint verify_all (l : list ObjectId) : res (option string) :=
  match l with
  | [] => Ok None
  | rid :: l =>
      r ← verify_one rid;
      match r with Some reason => Ok (Some reason) | None => verify_all l end
  end.

Definition verify_chain (tip : ObjectId) : res PolicyVerdict :=
  match chain_of O tip with
  | Err (PolicyViolation reason) => Ok (Reject reason)
  | Err e => Err e
  | Ok chain =>
      r ← verify_all chain;
      match r with
      | Some reason => Ok (Reject reason)
      | None => Ok (Accept (N.of_nat (length chain)))
      end
  end.

Definition require_verified (x : ObjectId) : res () :=
  v ← verify_chain x;
  match v with
  | Accept _ => Ok ()
  | Reject _ => Err (PolicyViolation ("candidate " +:+ id_to_string x +:+ " does not verify"))
  end.

Definition reconcile (a b : ObjectId) : res PolicyResolution :=
  _ ← require_verified a;
  _ ← require_verified b;
  if decide (a = b) then Ok ResolveLeft
  else
    chain_a ← chain_of O a;
    chain_b ← chain_of O b;
    if decide (last chain_a ≠ last chain_b) then Ok (Diverged a b)
    else if decide (b ∈ chain_a) then Ok ResolveLeft
    else if decide (a ∈ chain_b) then Ok ResolveRight
    else Ok (Diverged a b).
End verify.

(** ** The walk returns the parent chain *)

(** [is_chain O x l]: [l] lists [x] and its ancestors up to a root without parent. *)
Inductive is_chain (O : objects) : ObjectId → list ObjectId → Prop :=
| chain_root x r : O !! x = Some (Ok (OPolicy (PRoot r))) → root_parent r = None → is_chain O x [x]
| chain_step x r y l : O !! x = Some (Ok (OPolicy (PRoot r))) → root_parent r = Some y →
    is_chain O y l → is_chain O x (x :: l).

Lemma load_root_Some O x r : load_root O x = Ok (Some r) ↔ O !! x = Some (Ok (OPolicy (PRoot r))).
Proof.
  unfold load_root, os_get. destruct (O !! x) as [[obj|]|]; simpl; try done.
  - destruct obj; try naive_solver. destruct p; naive_solver.
Qed.

Lemma chain_det O x l1 l2 : is_chain O x l1 → is_chain O x l2 → l1 = l2.
Proof.
  intros H1. revert l2. induction H1 as [x r Hx Hp|x r y l Hx Hp Hl IH]; intros l2 H2.
  - inversion H2; simplify_eq; congruence.
  - inversion H2 as [|x' r' y' l' Hx' Hp' Hl']; simplify_eq; try congruence.
    f_equal. apply IH. congruence.
Qed.

Lemma chain_head O x l : is_chain O x l → ∃ l', l = x :: l'.
Proof. inversion 1; eauto. Qed.

(** Every suffix of a chain is the chain of its head. *)
Lemma chain_suffix O x l y : is_chain O x l → y ∈ l → ∃ l1 l2, l = l1 ++ l2 ∧ is_chain O y l2.
Proof.
  intros Hc. revert y. induction Hc as [x r Hx Hp|x r z l Hx Hp Hl IH]; intros y Hy.
  - apply list_elem_of_singleton in Hy as ->. exists [], [x]. split; [done|]. by econstructor.
  - apply elem_of_cons in Hy as [->|Hy].
    + exists [], (x :: l). split; [done|]. by econstructor.
    + destruct (IH y Hy) as (l1 & l2 & -> & ?). by exists (x :: l1), l2.
Qed.

Lemma chain_walk_sound fuel O acc seen cur l :
  chain_walk fuel O acc seen (Some cur) = Ok l → ∃ l', l = rev acc ++ l' ∧ is_chain O cur l' ∧
    NoDup l' ∧ ∀ x, x ∈ l' → x ∉ seen.
Proof.
  revert acc seen cur. induction fuel as [|fuel IH]; intros acc seen cur; simpl; [done|].
  case_decide as Hs; [done|]. rewrite bind_Ok. intros (root & Hr & Hw).
  destruct root as [root|]; [|done]. apply load_root_Some in Hr.
  destruct (root_parent root) as [y|] eqn:Hp.
  - apply IH in Hw as (l' & -> & Hc & Hnd & Hns). exists (cur :: l'). simpl.
    rewrite <- (assoc_L (++)). split; [done|]. split; [by econstructor|]. split.
    + constructor; [|done]. intros Hin. apply Hns in Hin. set_solver.
    + intros x [->|Hx]%elem_of_cons; [done|]. apply Hns in Hx. set_solver.
  - destruct fuel; simpl in Hw; injection Hw as <-; (exists [cur]; split; [done|];
      split; [by econstructor|]; split; [apply NoDup_singleton|];
      by intros x ->%list_elem_of_singleton).
Qed.

(** What a failing walk reports: a stored error, a missing root or a cycle; with
    enough fuel, nothing else. *)
Lemma chain_walk_Err fuel O acc (seen : gset ObjectId) cur e :
  size (dom O ∖ seen) < fuel → chain_walk fuel O acc seen cur = Err e →
  (∃ x, O !! x = Some (Err e)) ∨ ∃ msg, e = PolicyViolation msg.
Proof.
  revert acc seen cur. induction fuel as [|fuel IH]; intros acc seen cur Hf; [lia|].
  destruct cur as [cur|]; simpl; [|done]. case_decide as Hs; [intros [= <-]; eauto|].
  unfold load_root, os_get. destruct (O !! cur) as [[obj|e']|] eqn:Hx; simpl.
  - assert (size (dom O ∖ ({[cur]} ∪ seen)) < fuel) as Hf'.
    { assert (cur ∈ (dom O : gset ObjectId)) by (apply elem_of_dom; eauto).
      assert (dom O ∖ ({[cur]} ∪ seen) ⊂ (dom O : gset ObjectId) ∖ seen) as Hsub by set_solver.
      apply subset_size in Hsub. lia. }
    destruct obj as [| | | | |p| | | | | | |]; simpl; try (intros [= <-]; eauto; fail).
    destruct p; simpl; try (intros [= <-]; eauto; fail). by apply IH.
  - intros [= <-]. eauto.
  - intros [= <-]. eauto.
Qed.

Lemma chain_NoDup O x l : is_chain O x l → NoDup l.
Proof.
  intros Hc. induction Hc as [x r Hx Hp|x r y l Hx Hp Hl IH]; [apply NoDup_singleton|].
  constructor; [|done]. intros Hin. destruct (chain_suffix O y l x Hl Hin) as (l1 & l2 & -> & Hc).
  assert (is_chain O x (x :: l1 ++ l2)) as Hc' by by econstructor.
  pose proof (chain_det _ _ _ _ Hc Hc') as Heq. apply (f_equal length) in Heq.
  simpl in Heq. rewrite length_app in Heq. lia.
Qed.

Lemma chain_dom O x l : is_chain O x l → ∀ y, y ∈ l → y ∈ (dom O : gset ObjectId).
Proof.
  induction 1 as [x r Hx Hp|x r y l Hx Hp Hl IH]; intros z Hz.
  - apply list_elem_of_singleton in Hz as ->. apply elem_of_dom. eauto.
  - apply elem_of_cons in Hz as [->|?]; [|auto]. apply elem_of_dom. eauto.
Qed.

(** ... and a chain is walked to its end. *)
Lemma chain_walk_complete fuel O acc (seen : gset ObjectId) x l :
  is_chain O x l → length l ≤ fuel → (∀ y, y ∈ l → y ∉ seen) →
  chain_walk fuel O acc seen (Some x) = Ok (rev acc ++ l).
Proof.
  intros Hc. revert fuel acc seen.
  induction Hc as [x r Hx Hp|x r y l Hx Hp Hl IH]; intros fuel acc seen Hf Hns;
    (destruct fuel as [|fuel]; simpl in Hf; [lia|]); simpl;
    (rewrite decide_False by (apply Hns; left));
    rewrite (proj2 (load_root_Some O x r) Hx); simpl; rewrite Hp.
  - by destruct fuel.
  - rewrite IH; [simpl; by rewrite <- (assoc_L (++))|lia|].
    intros z Hz. pose proof (Hns z ltac:(by right)).
    pose proof (chain_NoDup O x (x :: l) ltac:(by econstructor)) as [Hxl _]%NoDup_cons.
    intros [->%elem_of_singleton|?]%elem_of_union; done.
Qed.

Lemma chain_of_spec O tip :
  match chain_of O tip with
  | Ok l => is_chain O tip l
  | Err e => (∃ x, O !! x = Some (Err e)) ∨ ∃ msg, e = PolicyViolation msg
  end.
Proof.
  unfold chain_of. destruct (chain_walk _ O [] ∅ (Some tip)) as [l|e] eqn:Hw.
  - by apply chain_walk_sound in Hw as (l' & -> & ? & _).
  - apply chain_walk_Err in Hw; [done|]. rewrite difference_empty_L.
    assert (size (dom O : gset ObjectId) = size O) as -> by apply size_dom. lia.
Qed.

Lemma chain_of_complete O tip l : is_chain O tip l → chain_of O tip = Ok l.
Proof.
  intros Hc. unfold chain_of. rewrite (chain_walk_complete _ O [] ∅ tip l); [done|done| |set_solver].
  assert (length l ≤ size (dom O : gset ObjectId)) as Hle.
  { rewrite <- (size_list_to_set (C := gset ObjectId) l) by by eapply chain_NoDup.
    apply subseteq_size. intros y Hy%elem_of_list_to_set. by eapply chain_dom. }
  assert (size (dom O : gset ObjectId) = size O) as Hs by apply size_dom. lia.
Qed.

Section verified.
Context {B : Type} `{RefBackend B, IoText, Ed25519}.
Context (O : objects) (sigs : SignatureStore) (trust : TrustStore).

(** A root that is complete, resolvable and signed by a trusted key. *)
Definition good_root (x : ObjectId) : Prop :=
  ∃ r, O !! x = Some (Ok (OPolicy (PRoot r))) ∧
    (∃ l, O !! root_lattice r = Some (Ok l)) ∧ (∃ l, O !! root_rules r = Some (Ok l)) ∧
    (∀ h, h ∈ root_hooks r → hook_kind h = "signed-approval" ∨ hook_kind h = "timeline-policy") ∧
    ∃ sig a, sigs !! x = Some sig ∧ rs_root sig = x ∧ trust_find trust (rs_key_id sig) = Some a ∧
      verify_with (anchor_public_key a) (policy_root_message x) (rs_sig sig) = true.

Lemma resolve_hook_Ok (h : HookSpec) : is_Ok (resolve_hook (B := B) h) = true ↔
  hook_kind h = "signed-approval" ∨ hook_kind h = "timeline-policy".
Proof. unfold resolve_hook. repeat case_decide; naive_solver. Qed.

Lemma verify_root_signature_true x sig : verify_root_signature x sig trust = true ↔
  rs_root sig = x ∧ ∃ a, trust_find trust (rs_key_id sig) = Some a ∧
    verify_with (anchor_public_key a) (policy_root_message x) (rs_sig sig) = true.
Proof.
  unfold verify_root_signature. case_decide as Hr; [naive_solver|].
  destruct (trust_find _ _); naive_solver.
Qed.

Lemma os_get_is_Some x : (∃ obj, O !! x = Some (Ok obj)) ↔ ∃ obj, os_get O x = Ok (Some obj).
Proof. by setoid_rewrite os_get_Some. Qed.

Lemma hooks_resolve r : find_first (λ h, negb (is_Ok (resolve_hook (B := B) h))) (root_hooks r) = None ↔
  ∀ h, h ∈ root_hooks r → hook_kind h = "signed-approval" ∨ hook_kind h = "timeline-policy".
Proof.
  rewrite find_first_None. split; intros Hall h Hh; specialize (Hall h Hh).
  - apply negb_false_iff in Hall. by apply resolve_hook_Ok.
  - apply negb_false_iff. by apply resolve_hook_Ok.
Qed.

Lemma verify_one_None x : verify_one (B := B) O sigs trust x = Ok None ↔ good_root x.
Proof.
  unfold verify_one, good_root. setoid_rewrite os_get_is_Some.
  destruct (load_root O x) as [[r|]|e] eqn:Hr; simpl.
  2: { split; [done|]. intros (r & Hx & _). apply load_root_Some in Hx. congruence. }
  2: { split; [done|]. intros (r & Hx & _). apply load_root_Some in Hx. congruence. }
  apply load_root_Some in Hr. transitivity (
    (∃ l, os_get O (root_lattice r) = Ok (Some l)) ∧ (∃ l, os_get O (root_rules r) = Ok (Some l)) ∧
    (∀ h, h ∈ root_hooks r → hook_kind h = "signed-approval" ∨ hook_kind h = "timeline-policy") ∧
    ∃ sig, sigs !! x = Some sig ∧ verify_root_signature x sig trust = true).
  2: { setoid_rewrite verify_root_signature_true. split.
       - intros (? & ? & ? & sig & ? & ? & a & ?). exists r. naive_solver.
       - intros (r' & Hx & ? & ? & ? & sig & a & ?). assert (r' = r) as -> by congruence. naive_solver. }
  rewrite <- hooks_resolve.
  destruct (os_get O (root_lattice r)) as [[l|]|e]; simpl; [|split; [done|by intros [[? ?] _]]..].
  destruct (os_get O (root_rules r)) as [[l'|]|e]; simpl; [|split; [done|by intros (_ & [? ?] & _)]..].
  destruct (find_first _ _); [split; [done|by intros (_ & _ & ? & _)]|].
  destruct (sigs !! x) as [sig|]; [|split; [done|by intros (_ & _ & _ & ? & ? & _)]].
  destruct (verify_root_signature x sig trust) eqn:Hv.
  - split; [|done]. intros _. eauto 10.
  - split; [done|]. intros (_ & _ & _ & ? & [= <-] & ?). congruence.
Qed.

Lemma verify_all_None l : verify_all (B := B) O sigs trust l = Ok None ↔ Forall good_root l.
Proof.
  induction l as [|x l IH]; simpl; [by rewrite Forall_nil|]. rewrite Forall_cons, <- IH, <- verify_one_None.
  destruct (verify_one O sigs trust x) as [[r|]|e]; simpl; naive_solver.
Qed.

(** A verified lineage. *)
Definition verified (x : ObjectId) (l : list ObjectId) : Prop := is_chain O x l ∧ Forall good_root l.

Lemma verify_chain_Accept tip d : verify_chain (B := B) O sigs trust tip = Ok (Accept d) ↔
  ∃ l, verified tip l ∧ d = N.of_nat (length l).
Proof.
  unfold verify_chain, verified. destruct (chain_of O tip) as [l|e] eqn:Hc.
  - pose proof (chain_of_spec O tip) as Hs. rewrite Hc in Hs.
    transitivity (verify_all (B := B) O sigs trust l = Ok None ∧ d = N.of_nat (length l)).
    { destruct (verify_all O sigs trust l) as [[]|]; simpl; naive_solver. }
    rewrite verify_all_None. split; [naive_solver|].
    intros (l' & [Hl' ?] & ->). by rewrite (chain_det _ _ _ _ Hs Hl').
  - split; [by destruct e|]. intros (l & [Hl _] & _). apply chain_of_complete in Hl. congruence.
Qed.

Lemma require_verified_Ok x : require_verified (B := B) O sigs trust x = Ok () ↔ ∃ l, verified x l.
Proof.
  unfold require_verified. split.
  - intros (v & Hv & Hok)%bind_Ok. destruct v as [d|]; [|done].
    apply verify_chain_Accept in Hv as (l & ? & _). by exists l.
  - intros (l & Hl). apply bind_Ok. exists (Accept (N.of_nat (length l))). split; [|done].
    apply verify_chain_Accept. by exists l.
Qed.

Lemma chain_last x l y : is_chain O x l → y ∈ l → ∃ l2, is_chain O y l2 ∧ last l = last l2.
Proof.
  intros Hc Hy. destruct (chain_suffix O x l y Hc Hy) as (l1 & l2 & -> & Hc2). exists l2.
  split; [done|]. destruct (chain_head _ _ _ Hc2) as [l3 ->]. by rewrite last_app_cons.
Qed.

(** Two different roots are never both in each other's lineage. *)
Lemma chain_antisym a b la lb : is_chain O a la → is_chain O b lb → b ∈ la → a ∈ lb → a = b.
Proof.
  intros Ha Hb Hba Hab.
  destruct (chain_suffix O a la b Ha Hba) as (l1 & l2 & -> & Hb2).
  destruct (chain_suffix O b lb a Hb Hab) as (l3 & l4 & -> & Ha2).
  pose proof (f_equal length (chain_det _ _ _ _ Ha Ha2)) as Hl1.
  pose proof (f_equal length (chain_det _ _ _ _ Hb Hb2)) as Hl2. rewrite !length_app in *.
  assert (l1 = []) as -> by (apply nil_length_inv; lia). simpl in *.
  destruct (chain_head _ _ _ Ha) as [l5 ->]. destruct (chain_head _ _ _ Hb2) as [l6 Hl]. congruence.
Qed.

Lemma reconcile_Ok a b r : reconcile (B := B) O sigs trust a b = Ok r ↔
  ∃ la lb, verified a la ∧ verified b lb ∧
    r = if decide (b ∈ la) then ResolveLeft else if decide (a ∈ lb) then ResolveRight else Diverged a b.
Proof.
  unfold reconcile. rewrite !bind_unit_Ok, !require_verified_Ok. split.
  - intros ([la Ha] & [lb Hb] & Hr). exists la, lb. split; [done|]. split; [done|].
    destruct Ha as [Ha _], Hb as [Hb _]. case_decide as Hab.
    { subst b. rewrite decide_True; [congruence|]. destruct (chain_head _ _ _ Ha) as [l ->]. left. }
    rewrite (chain_of_complete _ _ _ Ha), (chain_of_complete _ _ _ Hb) in Hr. simpl in Hr.
    case_decide as Hlast; [|repeat case_decide; congruence].
    rewrite !decide_False; [congruence|..].
    + intros Hin. destruct (chain_last b lb a Hb Hin) as (l2 & Hc & Hl).
      rewrite (chain_det _ _ _ _ Hc Ha) in Hl. congruence.
    + intros Hin. destruct (chain_last a la b Ha Hin) as (l2 & Hc & Hl).
      rewrite (chain_det _ _ _ _ Hc Hb) in Hl. congruence.
  - intros (la & lb & Ha & Hb & ->). split; [eauto|]. split; [eauto|].
    destruct Ha as [Ha _], Hb as [Hb _]. case_decide as Hab.
    { subst b. rewrite decide_True; [done|]. destruct (chain_head _ _ _ Ha) as [l ->]. left. }
    rewrite (chain_of_complete _ _ _ Ha), (chain_of_complete _ _ _ Hb). simpl.
    case_decide as Hlast; [|repeat case_decide; congruence].
    rewrite !decide_False; [done|..].
    + intros Hin. destruct (chain_last b lb a Hb Hin) as (l2 & Hc & Hl).
      rewrite (chain_det _ _ _ _ Hc Ha) in Hl. congruence.
    + intros Hin. destruct (chain_last a la b Ha Hin) as (l2 & Hc & Hl).
      rewrite (chain_det _ _ _ _ Hc Hb) in Hl. congruence.
Qed.

(** [C26] A policy tip is accepted at depth [d] exactly when it heads a finite parent chain of
    length [d] in which every root is stored, has its lattice and rules stored, names
    only hook kinds this replica can resolve, and carries a signature by a key of
    the trust store over exactly that root. *)
Theorem verify_chain_accepts (tip : ObjectId) (d : N) :
  verify_chain (B := B) O sigs trust tip = Ok (Accept d) ↔
    ∃ l, is_chain O tip l ∧ d = N.of_nat (length l) ∧ ∀ x, x ∈ l → good_root x.
Proof.
  rewrite verify_chain_Accept. unfold verified. setoid_rewrite Forall_forall. naive_solver.
Qed.

(** Reconciliation of two tips: it succeeds only when both lineages verify; the tip
    whose lineage contains the other wins, two tips of which neither contains the
    other diverge, and exchanging the arguments of two different tips exchanges the
    answer. *)
Theorem reconcile_lineage (a b : ObjectId) :
  (∀ r, reconcile (B := B) O sigs trust a b = Ok r ↔
     ∃ la lb, verified a la ∧ verified b lb ∧
       r = if decide (b ∈ la) then ResolveLeft
           else if decide (a ∈ lb) then ResolveRight else Diverged a b) ∧
  (a ≠ b → ∀ r, reconcile (B := B) O sigs trust a b = Ok r ↔
     reconcile (B := B) O sigs trust b a = Ok
       match r with
       | ResolveLeft => ResolveRight
       | ResolveRight => ResolveLeft
       | Diverged x y => Diverged y x
       end).
Proof.
  split; [apply reconcile_Ok|]. intros Hne r. rewrite !reconcile_Ok. split.
  - intros (la & lb & [Ha Hga] & [Hb Hgb] & ->). exists lb, la. split; [done|]. split; [done|].
    pose proof (chain_antisym a b la lb Ha Hb). repeat case_decide; naive_solver.
  - intros (lb & la & [Hb Hgb] & [Ha Hga] & Hr). exists la, lb. split; [done|]. split; [done|].
    pose proof (chain_antisym a b la lb Ha Hb). destruct r; repeat case_decide; naive_solver.
Qed.
End verified.
