(* ===== verification/Merge.v ===== *)
(** * Merge: three-way merge and merge bases

    [src/src/repo/merge.rs]: the three-way diff of flat path-to-blob maps and the
    breadth-first search for a common ancestor from both heads at once.

    The theorems: the diff computes the textbook three-way merge path by path,
    reports exactly the paths both sides changed differently, and is symmetric; the
    search terminates, returns a common ancestor whenever there is one, and reports
    none only when there is none.  It need not return a lowest one. *)

From S2P Require Import Prelude Graph Ids Objects Refs RefStore Policy.

(** ** Three-way diff *)
Abbreviation path_map := (gmap string ObjectId).

Record MergeConflict : Type := MkConflict {
  mc_path : string;
  mc_ours : option ObjectId;
  mc_theirs : option ObjectId
}.
Record MergeResult : Type := MkMergeResult {
  merged : path_map;
  conflicts : list MergeConflict
}.
Definition is_clean (r : MergeResult) : bool := bool_decide (conflicts r = []).

Definition merge_insert (key : string) (x : ObjectId) (r : MergeResult) : MergeResult :=
  MkMergeResult (<[key := x]> (merged r)) (conflicts r).
Definition merge_conflict (c : MergeConflict) (r : MergeResult) : MergeResult :=
  MkMergeResult (merged r) (conflicts r ++ [c]).

(** The body of [for key in all_keys]. *)
Definition merge_key (ancestor ours theirs : path_map) (r : MergeResult) (key : string) : MergeResult :=
  let anc := ancestor !! key in
  let our := ours !! key in
  let thr := theirs !! key in
  if decide (our = thr) then match our with Some x => merge_insert key x r | None => r end
  else match anc, our, thr with
       | _, Some o, Some t =>
           if decide (anc = Some o) then merge_insert key t r
           else if decide (anc = Some t) then merge_insert key o r
           else merge_conflict (MkConflict key (Some o) (Some t)) r
       | Some a_id, Some o, None =>
           if decide (o = a_id) then r else merge_conflict (MkConflict key (Some o) None) r
       | None, Some o, None => merge_insert key o r
       | Some a_id, None, Some t =>
           if decide (t = a_id) then r else merge_conflict (MkConflict key None (Some t)) r
       | None, None, Some t => merge_insert key t r
       (* both absent: [unreachable!], excluded by the first test *)
       | _, None, None => r
       end.

Definition all_keys (ancestor ours theirs : path_map) : list string :=
  btree_elems (dom ancestor ∪ dom ours ∪ dom theirs : gset string).

Definition three_way_diff (ancestor ours theirs : path_map) : MergeResult :=
  foldl (merge_key ancestor ours theirs) (MkMergeResult ∅ []) (all_keys ancestor ours theirs).

(** The specification, for one path. *)
Definition three_way (a o t : option ObjectId) : option ObjectId :=
  if decide (o = t) then o else if decide (o = a) then t else if decide (t = a) then o else None.
Definition conflicting (a o t : option ObjectId) : bool :=
  bool_decide (o ≠ t) && bool_decide (o ≠ a) && bool_decide (t ≠ a).

Lemma merge_key_spec ancestor ours theirs r key :
  let a := ancestor !! key in let o := ours !! key in let t := theirs !! key in
  merge_key ancestor ours theirs r key =
    MkMergeResult
      (match three_way a o t with Some x => <[key := x]> (merged r) | None => merged r end)
      (conflicts r ++ if conflicting a o t then [MkConflict key o t] else []).
Proof.
  unfold merge_key, three_way, conflicting, merge_insert, merge_conflict.
  destruct r as [m cs]. simpl.
  destruct (ancestor !! key) as [a|], (ours !! key) as [o|], (theirs !! key) as [t|]; simpl;
    repeat (case_decide || case_bool_decide || (progress simplify_eq/=)); rewrite ?app_nil_r; congruence.
Qed.

Lemma conflicting_three_way a o t : conflicting a o t = true → three_way a o t = None.
Proof.
  unfold conflicting, three_way. rewrite !andb_true_iff, !bool_decide_eq_true.
  intros [[? ?] ?]. by rewrite !decide_False.
Qed.

Section fold.
Context (ancestor ours theirs : path_map).

Definition spec_at (p : string) : option ObjectId :=
  three_way (ancestor !! p) (ours !! p) (theirs !! p).
Definition conflict_at (p : string) : bool :=
  conflicting (ancestor !! p) (ours !! p) (theirs !! p).
Definition conflict_of (p : string) : MergeConflict := MkConflict p (ours !! p) (theirs !! p).

Lemma merge_fold_conflicts keys r :
  conflicts (foldl (merge_key ancestor ours theirs) r keys) =
  conflicts r ++ (conflict_of <$> filter (λ p, conflict_at p) keys).
Proof.
  revert r. induction keys as [|key keys IH]; intros r; simpl; [by rewrite app_nil_r|].
  rewrite IH, merge_key_spec. simpl. rewrite <- (assoc_L (++)). f_equal.
  rewrite filter_cons. fold (conflict_at key).
  case_decide as Hd; destruct (conflict_at key); simpl in *; done.
Qed.

Lemma merge_fold_merged keys r p : NoDup keys →
  merged (foldl (merge_key ancestor ours theirs) r keys) !! p =
    if decide (p ∈ keys) then match spec_at p with Some x => Some x | None => merged r !! p end
    else merged r !! p.
Proof.
  intros Hnd. revert r. induction Hnd as [|key keys Hk Hnd IH]; intros r.
  { rewrite decide_False; [done|]. apply not_elem_of_nil. }
  change (foldl _ r (key :: keys)) with
    (foldl (merge_key ancestor ours theirs) (merge_key ancestor ours theirs r key) keys).
  rewrite IH, merge_key_spec. simpl. fold (spec_at key).
  destruct (decide (p = key)) as [->|Hne].
  - rewrite decide_False by done. rewrite decide_True by left.
    destruct (spec_at key); [by rewrite lookup_insert_eq|done].
  - assert (match spec_at key with Some x => <[key:=x]> (merged r) | None => merged r end !! p = merged r !! p) as ->.
    { destruct (spec_at key); [by rewrite lookup_insert_ne|done]. }
    destruct (decide (p ∈ keys)).
    + by rewrite decide_True by (by right).
    + by rewrite decide_False by (by intros [?|?]%elem_of_cons).
Qed.

Lemma elem_of_all_keys p :
  p ∈ all_keys ancestor ours theirs ↔
    is_Some (ancestor !! p) ∨ is_Some (ours !! p) ∨ is_Some (theirs !! p).
Proof.
  unfold all_keys. rewrite elem_of_btree_elems, !elem_of_union, !elem_of_dom. tauto.
Qed.

Lemma diff_merged p : merged (three_way_diff ancestor ours theirs) !! p = spec_at p.
Proof.
  unfold three_way_diff. rewrite merge_fold_merged by apply NoDup_btree_elems. simpl.
  rewrite lookup_empty. case_decide as Hp; [by destruct (spec_at p)|].
  rewrite elem_of_all_keys in Hp. unfold spec_at, three_way.
  destruct (ancestor !! p), (ours !! p), (theirs !! p);
    try (exfalso; apply Hp; naive_solver); done.
Qed.

Lemma diff_conflicts : conflicts (three_way_diff ancestor ours theirs) =
  conflict_of <$> filter (λ p, conflict_at p) (all_keys ancestor ours theirs).
Proof. unfold three_way_diff. by rewrite merge_fold_conflicts. Qed.

Lemma elem_of_diff_conflicts c :
  c ∈ conflicts (three_way_diff ancestor ours theirs) ↔
    c = conflict_of (mc_path c) ∧ conflict_at (mc_path c) = true.
Proof.
  rewrite diff_conflicts, list_elem_of_fmap. setoid_rewrite list_elem_of_filter.
  setoid_rewrite elem_of_all_keys. split.
  - intros (p & -> & Hc%Is_true_true & _). done.
  - intros [Hc Ht]. exists (mc_path c). split; [done|]. split; [by apply Is_true_true|].
    unfold conflict_at, conflicting in Ht. rewrite !andb_true_iff, !bool_decide_eq_true in Ht.
    destruct Ht as [[Hot Hoa] Hta].
    destruct (ours !! mc_path c), (theirs !! mc_path c); eauto. done.
Qed.
End fold.

Lemma all_keys_comm a o t : all_keys a o t = all_keys a t o.
Proof.
  unfold all_keys. f_equal. apply set_eq. intros p. rewrite !elem_of_union. tauto.
Qed.

Lemma StronglySorted_filter {A} (R : relation A) (f : A → bool) l :
  StronglySorted R l → StronglySorted R (filter (λ x, f x) l).
Proof.
  induction 1 as [|x l Hs IH Hx]; [constructor|]. rewrite filter_cons. case_decide; [|done].
  constructor; [done|]. rewrite Forall_forall in Hx |- *.
  intros y [_ Hy]%list_elem_of_filter. by apply Hx.
Qed.

(** Exchanging the sides of a conflict. *)
Definition swap_conflict (c : MergeConflict) : MergeConflict :=
  MkConflict (mc_path c) (mc_theirs c) (mc_ours c).

Lemma three_way_comm a o t : three_way a o t = three_way a t o.
Proof. unfold three_way. repeat case_decide; congruence. Qed.
Lemma conflicting_comm a o t : conflicting a o t = conflicting a t o.
Proof.
  unfold conflicting. repeat case_bool_decide; simpl; congruence.
Qed.

(** The three-way diff is the textbook merge, path by path: where the sides agree
    their common content (or absence) is taken, where only one side differs from the
    ancestor that side is taken, deletions included, and where both differ the path
    is left out and reported with both contents; nothing else is reported, in path
    order and once per path; exchanging the sides yields the same merged map and the
    same conflicts with their sides exchanged. *)
Theorem three_way_diff_correct (ancestor ours theirs : path_map) :
  let r := three_way_diff ancestor ours theirs in
  (∀ p, merged r !! p = three_way (ancestor !! p) (ours !! p) (theirs !! p)) ∧
  (∀ p o t, MkConflict p o t ∈ conflicts r ↔ o = ours !! p ∧ t = theirs !! p ∧
     conflicting (ancestor !! p) o t = true) ∧
  NoDup (mc_path <$> conflicts r) ∧ Sorted key_le (mc_path <$> conflicts r) ∧
  merged (three_way_diff ancestor theirs ours) = merged r ∧
  conflicts (three_way_diff ancestor theirs ours) = swap_conflict <$> conflicts r.
Proof.
  intros r. unfold r. split; [apply diff_merged|]. split.
  { intros p o t. rewrite elem_of_diff_conflicts. simpl. unfold conflict_of, conflict_at.
    split; [by intros [[= -> ->] ?]|by intros (-> & -> & ?)]. }
  assert (mc_path <$> conflicts (three_way_diff ancestor ours theirs) =
    filter (λ p, conflict_at ancestor ours theirs p) (all_keys ancestor ours theirs)) as Hp.
  { rewrite diff_conflicts, <- list_fmap_compose. apply list_fmap_id. }
  rewrite Hp. split; [apply NoDup_filter, NoDup_btree_elems|]. split.
  { apply StronglySorted_Sorted, StronglySorted_filter, Sorted_StronglySorted; [apply _|].
    unfold all_keys, btree_elems. apply (Sorted_merge_sort _). }
  split.
  - apply map_eq. intros p. rewrite !diff_merged. apply three_way_comm.
  - rewrite !diff_conflicts, <- list_fmap_compose, (all_keys_comm ancestor theirs ours).
    f_equal. apply list_filter_iff. intros p. unfold conflict_at. by rewrite conflicting_comm.
Qed.

(** ** Common ancestors *)

(** [expand_frontier]: the parents not yet visited, in order. *)
Fixpoint push_parents (ps : list ObjectId) (frontier : list ObjectId) (visited : gset ObjectId)
    : list ObjectId * gset ObjectId :=
  match ps with
  | [] => (frontier, visited)
  | p :: ps =>
      if decide (p ∈ visited) then push_parents ps frontier visited
      else push_parents ps (frontier ++ [p]) ({[p]} ∪ visited)
  end.
Fixpoint expand_all (O : objects) (current frontier : list ObjectId) (visited : gset ObjectId)
    : res (list ObjectId * gset ObjectId) :=
  match current with
  | [] => Ok (frontier, visited)
  | x :: current =>
      ps ← edges_of parents_of O x;
      let '(frontier, visited) := push_parents ps frontier visited in
      expand_all O current frontier visited
  end.
(** The new frontier and visited set; [found_new] is the frontier's non-emptiness. *)
Definition expand_frontier (O : objects) (frontier : list ObjectId) (visited : gset ObjectId)
    : res (list ObjectId * gset ObjectId) := expand_all O frontier [] visited.

Definition first_common (va vb : gset ObjectId) : option ObjectId :=
  find_first (λ x, bool_decide (x ∈ vb)) (btree_elems va).

Fixpoint lca_loop (fuel : nat) (O : objects) (fa fb : list ObjectId) (va vb : gset ObjectId)
    : res (option ObjectId) :=
  match fuel with
  | O => Err (Panic "out of fuel")
  | S fuel =>
      ra ← expand_frontier O fa va;
      let '(fa, va) := ra in
      match first_common va vb with
      | Some c => Ok (Some c)
      | None =>
          rb ← expand_frontier O fb vb;
          let '(fb, vb) := rb in
          match first_common vb va with
          | Some c => Ok (Some c)
          | None =>
              if decide (fa = [] ∧ fb = []) then Ok None else lca_loop fuel O fa fb va vb
          end
      end
  end.

(** Each round that continues visits a new id on one of the two sides. *)
Definition lca_fuel (O : objects) : nat := 2 * size (edge_targets parents_of O) + 2.

Definition find_common_ancestor (O : objects) (a b : ObjectId) : res (option ObjectId) :=
  if decide (a = b) then Ok (Some a)
  else lca_loop (lca_fuel O) O [a] [b] {[a]} {[b]}.

Lemma edges_parents O x ps y : edges_of parents_of O x = Ok ps → y ∈ ps ↔ parent_of O x y.
Proof.
  intros Hps. rewrite <- edge_parents. split; [by exists ps|].
  intros (ps' & Hps' & Hy). congruence.
Qed.

Lemma push_parents_spec ps f (v : gset ObjectId) f' v' : push_parents ps f v = (f', v') →
  ∃ new, f' = f ++ new ∧ v' = list_to_set new ∪ v ∧ (∀ x, x ∈ new → x ∈ ps ∧ x ∉ v) ∧
    ∀ p, p ∈ ps → p ∈ v'.
Proof.
  revert f v. induction ps as [|p ps IH]; intros f v; simpl.
  { intros [= <- <-]. exists []. rewrite app_nil_r. split; [done|]. split; [set_solver|].
    by split; intros x ?%not_elem_of_nil. }
  case_decide as Hp; intros (new & -> & -> & Hnew & Hps)%IH.
  - exists new. split; [done|]. split; [done|]. split.
    + intros x Hx. destruct (Hnew x Hx). split; [by right|done].
    + intros q [->|Hq]%elem_of_cons; [apply elem_of_union; by right|by apply Hps].
  - exists (p :: new). rewrite <- (assoc_L (++)). split; [done|]. split; [set_solver|]. split.
    + intros x [->|Hx]%elem_of_cons; [split; [left|done]|]. destruct (Hnew x Hx) as [? Hx'].
      split; [by right|]. intros ?. apply Hx', elem_of_union. by right.
    + intros q [->|Hq]%elem_of_cons; [|by apply Hps].
      apply elem_of_union; right. apply elem_of_union; left. by apply elem_of_singleton.
Qed.

Lemma expand_all_spec O cur f (v : gset ObjectId) :
  match expand_all O cur f v with
  | Ok (f', v') => ∃ new, f' = f ++ new ∧ v' = list_to_set new ∪ v ∧
      (∀ x, x ∈ new → x ∉ v ∧ ∃ c, c ∈ cur ∧ parent_of O c x) ∧
      ∀ c y, c ∈ cur → parent_of O c y → y ∈ v'
  | Err e => ∃ x, x ∈ cur ∧ O !! x = Some (Err e)
  end.
Proof.
  revert f v. induction cur as [|c cur IH]; intros f v; simpl.
  { exists []. rewrite app_nil_r. split; [done|]. split; [set_solver|].
    split; [by intros x ?%not_elem_of_nil|by intros x y ?%not_elem_of_nil]. }
  destruct (edges_of parents_of O c) as [ps|e] eqn:Hps; simpl.
  2: { apply edges_of_Err in Hps. exists c. split; [left|done]. }
  destruct (push_parents ps f v) as [f1 v1] eqn:Hpush.
  apply push_parents_spec in Hpush as (n1 & -> & -> & Hn1 & Hall1).
  specialize (IH (f ++ n1) (list_to_set n1 ∪ v)).
  destruct (expand_all O cur _ _) as [[f2 v2]|e].
  2: { destruct IH as (x & ? & ?). exists x. split; [by right|done]. }
  destruct IH as (n2 & -> & -> & Hn2 & Hall2). exists (n1 ++ n2).
  rewrite <- (assoc_L (++)), list_to_set_app_L. split; [done|]. split; [set_solver|]. split.
  - intros x [Hx|Hx]%elem_of_app.
    + destruct (Hn1 x Hx) as [Hin Hnv]. split; [done|]. exists c. split; [left|].
      by apply (edges_parents O c ps).
    + destruct (Hn2 x Hx) as [Hnv (d & Hd & Hpar)]. split.
      * intros Hv. apply Hnv, elem_of_union. by right.
      * exists d. split; [by right|done].
  - intros d y [->|Hd]%elem_of_cons Hpar.
    + apply (edges_parents O c ps) in Hpar; [|done]. apply Hall1 in Hpar. set_solver.
    + by eapply Hall2.
Qed.

(** One side of the search: the ids visited from [r], of which the frontier is
    still to be expanded. *)
Record side (O : objects) (r : ObjectId) (frontier : list ObjectId) (visited : gset ObjectId) : Prop := {
  sd_root : r ∈ visited;
  sd_reach x : x ∈ visited → rtc (parent_of O) r x;
  sd_closed x y : x ∈ visited → parent_of O x y → x ∈ frontier ∨ y ∈ visited;
  sd_bound : visited ⊆ {[r]} ∪ edge_targets parents_of O;
  sd_frontier x : x ∈ frontier → x ∈ visited
}.

Lemma side_init O r : side O r [r] {[r]}.
Proof.
  split; [set_solver| | |set_solver|].
  - intros x ->%elem_of_singleton. done.
  - intros x y ->%elem_of_singleton _. left. left.
  - intros x ->%list_elem_of_singleton. by apply elem_of_singleton.
Qed.

Lemma parent_target O x y : parent_of O x y → y ∈ edge_targets parents_of O.
Proof.
  intros (ps & Hps & Hy)%edge_parents. by eapply edges_of_targets.
Qed.

Lemma side_expand O r f v : side O r f v →
  match expand_frontier O f v with
  | Ok (f', v') => side O r f' v' ∧ v ⊆ v' ∧ (f' ≠ [] → v ⊂ v')
  | Err e => ∃ x, rtc (parent_of O) r x ∧ O !! x = Some (Err e)
  end.
Proof.
  intros [Hr Hre Hcl Hb Hf]. unfold expand_frontier. pose proof (expand_all_spec O f [] v) as Hs.
  destruct (expand_all O f [] v) as [[f' v']|e].
  2: { destruct Hs as (x & Hx & He). exists x. split; [by apply Hre, Hf|done]. }
  destruct Hs as (new & -> & -> & Hnew & Hall). simpl. split; [split|split].
  - set_solver.
  - intros x [Hx|Hx]%elem_of_union; [|by apply Hre]. apply elem_of_list_to_set in Hx.
    destruct (Hnew x Hx) as [_ (c & Hc & Hp)]. eapply rtc_r; [|exact Hp]. by apply Hre, Hf.
  - intros x y [Hx|Hx]%elem_of_union Hp; [left; by apply elem_of_list_to_set in Hx|right].
    destruct (Hcl x y Hx Hp) as [Hxf|?]; [by eapply Hall|set_solver].
  - intros x [Hx|Hx]%elem_of_union; [|by apply Hb]. apply elem_of_list_to_set in Hx.
    destruct (Hnew x Hx) as [_ (c & Hc & Hp)]. apply elem_of_union. right. by eapply parent_target.
  - intros x Hx. apply elem_of_union. left. by apply elem_of_list_to_set.
  - set_solver.
  - intros Hne. destruct new as [|x new]; [done|]. destruct (Hnew x) as [Hx _]; [left|]. set_solver.
Qed.

Lemma side_done O r v : side O r [] v → ∀ x, rtc (parent_of O) r x → x ∈ v.
Proof.
  intros [Hr _ Hcl _ _] x Hx. revert Hr. induction Hx as [|a b c Hab _ IH]; [done|].
  intros Ha. apply IH. destruct (Hcl a b Ha Hab) as [Hn|]; [by apply not_elem_of_nil in Hn|done].
Qed.

Lemma first_common_Some va vb c : first_common va vb = Some c → c ∈ va ∧ c ∈ vb.
Proof.
  unfold first_common. intros [Hin Hb]%find_first_Some. apply elem_of_btree_elems in Hin.
  by apply bool_decide_eq_true in Hb.
Qed.
Lemma first_common_None va vb : first_common va vb = None → ∀ c, c ∈ va → c ∉ vb.
Proof.
  unfold first_common. rewrite find_first_None. intros Hn c Hc.
  specialize (Hn c (proj2 (elem_of_btree_elems va c) Hc)). by apply bool_decide_eq_false in Hn.
Qed.

(** What is left to visit. *)
Definition unseen (O : objects) (r : ObjectId) (v : gset ObjectId) : nat :=
  size (({[r]} ∪ edge_targets parents_of O) ∖ v).

Lemma unseen_mono O r v v' : v ⊆ v' → unseen O r v' ≤ unseen O r v.
Proof. intros Hsub. apply subseteq_size. set_solver. Qed.
Lemma unseen_grow O r v f' v' : side O r f' v' → v ⊂ v' → unseen O r v' < unseen O r v.
Proof.
  intros Hs [Hsub Hne]. apply subset_size. pose proof (sd_bound _ _ _ _ Hs) as Hb.
  split; [set_solver|]. intros Hc. apply Hne. intros x Hx.
  destruct (decide (x ∈ v)) as [|Hxv]; [done|].
  assert (x ∈ ({[r]} ∪ edge_targets parents_of O) ∖ v') as Hin.
  { apply Hc. apply elem_of_difference. split; [by apply Hb|done]. }
  by apply elem_of_difference in Hin as [_ ?].
Qed.

(** A common ancestor of two snapshots (each counted among its own ancestors). *)
Definition common_ancestor (O : objects) (a b c : ObjectId) : Prop :=
  rtc (parent_of O) a c ∧ rtc (parent_of O) b c.

Lemma lca_loop_spec O a b fuel fa fb va vb :
  side O a fa va → side O b fb vb → unseen O a va + unseen O b vb < fuel →
  match lca_loop fuel O fa fb va vb with
  | Ok (Some c) => common_ancestor O a b c
  | Ok None => ∀ c, ¬ common_ancestor O a b c
  | Err e => ∃ x, (rtc (parent_of O) a x ∨ rtc (parent_of O) b x) ∧ O !! x = Some (Err e)
  end.
Proof.
  revert fa fb va vb. induction fuel as [|fuel IH]; intros fa fb va vb Ha Hb Hf; [lia|]. simpl.
  pose proof (side_expand O a fa va Ha) as Ea.
  destruct (expand_frontier O fa va) as [[fa' va']|e]; simpl; [|naive_solver].
  destruct Ea as (Ha' & Hsa & Hga). destruct (first_common va' vb) as [c|] eqn:Hc1.
  { apply first_common_Some in Hc1 as [H1 H2]. split; [by eapply sd_reach|by eapply sd_reach]. }
  pose proof (side_expand O b fb vb Hb) as Eb.
  destruct (expand_frontier O fb vb) as [[fb' vb']|e]; simpl; [|naive_solver].
  destruct Eb as (Hb' & Hsb & Hgb). destruct (first_common vb' va') as [c|] eqn:Hc2.
  { apply first_common_Some in Hc2 as [H1 H2]. split; [by eapply sd_reach|by eapply sd_reach]. }
  case_decide as Hend.
  - destruct Hend as [-> ->]. intros c [Hac Hbc]. apply (first_common_None _ _ Hc2 c).
    + by eapply side_done.
    + by eapply side_done.
  - apply IH; [done..|]. pose proof (unseen_mono O a va va' Hsa). pose proof (unseen_mono O b vb vb' Hsb).
    destruct fa' as [|x fa'].
    + assert (fb' ≠ []) as Hne by (intros ->; by apply Hend).
      pose proof (unseen_grow O b vb fb' vb' Hb' (Hgb Hne)). lia.
    + pose proof (unseen_grow O a va (x :: fa') va' Ha' (Hga ltac:(done))). lia.
Qed.

Lemma unseen_init O r : unseen O r {[r]} ≤ size (edge_targets parents_of O).
Proof. apply subseteq_size. set_solver. Qed.

Lemma find_common_ancestor_spec (O : objects) (a b : ObjectId) :
  match find_common_ancestor O a b with
  | Ok (Some c) => common_ancestor O a b c
  | Ok None => ∀ c, ¬ common_ancestor O a b c
  | Err e => ∃ x, (rtc (parent_of O) a x ∨ rtc (parent_of O) b x) ∧ O !! x = Some (Err e)
  end.
Proof.
  unfold find_common_ancestor. case_decide as Hab; [by subst|].
  apply lca_loop_spec; [apply side_init..|].
  pose proof (unseen_init O a). pose proof (unseen_init O b). unfold lca_fuel. lia.
Qed.

(** The merge-base search always terminates; it returns a common ancestor of the two
    heads whenever their histories share one, returns none only when they share
    none, and fails only with the error of an ancestor of one of them that cannot be
    decoded. *)
Theorem find_common_ancestor_correct (O : objects) (a b : ObjectId) :
  match find_common_ancestor O a b with
  | Ok (Some c) => common_ancestor O a b c
  | Ok None => ∀ c, ¬ common_ancestor O a b c
  | Err e => ∃ x, (rtc (parent_of O) a x ∨ rtc (parent_of O) b x) ∧ O !! x = Some (Err e)
  end.
Proof. apply find_common_ancestor_spec. Qed.

(** ** A merge base that is not lowest

    [3] and [4] are both merges of [2] and of its parent [1]: [2] is the nearest
    common ancestor, the search returns [1]. *)
Definition ex_snap (ps : list ObjectId) : res Object := Ok (OSnapshot (MkSnapshot (ex_id x00) ps "" 0 "")).
Definition ex_history : objects :=
  {[ ex_id x01 := ex_snap []; ex_id x02 := ex_snap [ex_id x01];
     ex_id x03 := ex_snap [ex_id x02; ex_id x01]; ex_id x04 := ex_snap [ex_id x02; ex_id x01] ]}.

(** The search is documented to find a lowest (nearest) common ancestor; it returns the
    smallest id among those found at once. On a history where two snapshots both
    have the parents [2] and [1], and [1] is the parent of [2], it returns [1],
    although [2] is a common ancestor too and descends from it. *)
Theorem merge_base_not_lowest :
  find_common_ancestor ex_history (ex_id x03) (ex_id x04) = Ok (Some (ex_id x01)) ∧
  common_ancestor ex_history (ex_id x03) (ex_id x04) (ex_id x02) ∧
  parent_of ex_history (ex_id x02) (ex_id x01).
Proof.
  assert (∀ x y ps, ex_history !! x = Some (ex_snap ps) → y ∈ ps → parent_of ex_history x y) as Hp.
  { intros x y ps Hx Hy. eexists. split; [exact Hx|exact Hy]. }
  split; [vm_compute; reflexivity|]. split; [split|].
  - apply rtc_once. apply (Hp _ _ [ex_id x02; ex_id x01]); [vm_compute; reflexivity|left].
  - apply rtc_once. apply (Hp _ _ [ex_id x02; ex_id x01]); [vm_compute; reflexivity|left].
  - apply (Hp _ _ [ex_id x01]); [vm_compute; reflexivity|left].
Qed.
