(* ===== verification/Store.v ===== *)
(** * Store: the content-addressed object store

    The [StorageBackend] interface (src/src/store/backend.rs) with its contract, the
    in-memory backend (store/memory.rs), the codec seam (src/src/codec.rs) and the
    [ObjectStore] facade (store/mod.rs).  postcard and BLAKE3 are parameters.

    [decoded] is the abstraction: the map from ids to the objects their bytes decode
    to, which the algorithms of the other files read.  The theorems: the facade
    refines it on every backend that keeps the contract, and every stored byte
    string stays filed under its own hash. *)

From S2P Require Import Prelude Ids Objects.

(** ** The codec seam *)
Class ObjectCodec := {
  serialize : Object → res bytes;
  deserialize : bytes → res Object;
  blake3_hash : bytes → vec byte 32
}.
(** postcard reads back what it wrote. *)
Class ObjectCodecLaws `{ObjectCodec} := {
  deserialize_serialize obj data : serialize obj = Ok data → deserialize data = Ok obj
}.

(** [codec::object_id], [ObjectId::from_content] *)
Definition object_id `{ObjectCodec} (data : bytes) : ObjectId := ObjectId_new (blake3_hash data).

(** ** The backend interface *)
Class StorageBackend (B : Type) := {
  sb_put : ObjectId → bytes → M B ();
  sb_get : B → ObjectId → res (option bytes);
  sb_exists : B → ObjectId → res bool;
  sb_delete : ObjectId → M B ();
  sb_list : B → res (list ObjectId);
  sb_count : B → res N;
  sb_compact : M B N;
  sb_sweep : gset ObjectId → N → N → M B N
}.

(** The provided methods. *)
Definition default_count {B} (list : B → res (list ObjectId)) (b : B) : res N :=
  l ← list b; Ok (N.of_nat (length l)).
Definition default_compact {B} : M B N := mret 0%N.
(** [for id in list { if !reachable.contains(&id) { delete(&id)?; removed += 1 } }] *)
Fixpoint sweep_list {B} (delete : ObjectId → M B ()) (reachable : gset ObjectId)
    (l : list ObjectId) (removed : N) : M B N :=
  match l with
  | [] => mret removed
  | x :: l =>
      if decide (x ∈ reachable) then sweep_list delete reachable l removed
      else _ ← delete x; sweep_list delete reachable l (removed + 1)
  end.
Definition default_sweep {B} (list : B → res (list ObjectId)) (delete : ObjectId → M B ())
    (reachable : gset ObjectId) (_grace_secs _now : N) : M B N :=
  l ← gets list; sweep_list delete reachable l 0.

(** The contract: a backend denotes a map from ids to bytes; a read that succeeds is
    a lookup, [put] of an absent id inserts, [delete] removes, [list] is the domain,
    [sweep] keeps what is reachable, and [compact] changes nothing. *)
Class StorageLaws (B : Type) `{StorageBackend B} := {
  sb_inv : B → Prop;
  sb_view : B → gmap ObjectId bytes;
  sb_get_Ok b x v : sb_inv b → sb_get b x = Ok v → v = sb_view b !! x;
  sb_exists_Ok b x v : sb_inv b → sb_exists b x = Ok v → v = bool_decide (is_Some (sb_view b !! x));
  sb_list_Ok b l : sb_inv b → sb_list b = Ok l → NoDup l ∧ ∀ x, x ∈ l ↔ is_Some (sb_view b !! x);
  sb_put_Ok b x data b' : sb_inv b → sb_view b !! x = None → sb_put x data b = (Ok (), b') →
    sb_inv b' ∧ sb_view b' = <[x := data]> (sb_view b);
  sb_delete_Ok b x b' : sb_inv b → sb_delete x b = (Ok (), b') →
    sb_inv b' ∧ sb_view b' = delete x (sb_view b);
  sb_compact_Ok b n b' : sb_inv b → sb_compact b = (Ok n, b') → sb_inv b' ∧ sb_view b' = sb_view b;
  sb_sweep_Ok b keep grace now n b' : sb_inv b → sb_sweep keep grace now b = (Ok n, b') →
    sb_inv b' ∧ sb_view b' ⊆ sb_view b ∧
    ∀ x, x ∈ keep → sb_view b' !! x = sb_view b !! x
}.

(** ** [MemoryBackend] *)
Abbreviation MemoryBackend := (gmap ObjectId bytes).
Definition mb_put (x : ObjectId) (data : bytes) : M MemoryBackend () := modify (<[x := data]>).
Definition mb_get (b : MemoryBackend) (x : ObjectId) : res (option bytes) := Ok (b !! x).
Definition mb_exists (b : MemoryBackend) (x : ObjectId) : res bool := Ok (bool_decide (is_Some (b !! x))).
Definition mb_delete (x : ObjectId) : M MemoryBackend () := modify (delete x).
Definition mb_list (b : MemoryBackend) : res (list ObjectId) := Ok (map_to_list b).*1.

#[global] Instance mem_StorageBackend : StorageBackend MemoryBackend := {|
  sb_put := mb_put;
  sb_get := mb_get;
  sb_exists := mb_exists;
  sb_delete := mb_delete;
  sb_list := mb_list;
  sb_count := default_count mb_list;
  sb_compact := default_compact;
  sb_sweep := default_sweep mb_list mb_delete
|}.

(** In memory a sweep removes exactly the unreachable objects, and counts them. *)
Lemma mem_sweep_list keep l n (b : MemoryBackend) : NoDup l →
  sweep_list mb_delete keep l n b =
    (Ok (n + N.of_nat (length (filter (λ x, x ∉ keep) l)))%N,
     filter (λ p, p.1 ∉ list_to_set (C := gset ObjectId) (filter (λ x, x ∉ keep) l)) b).
Proof.
  intros Hnd. revert n b. induction Hnd as [|x l Hx Hnd IH]; intros n b; simpl.
  - unfold mret, M_ret. f_equal; [f_equal; lia|]. symmetry. apply map_filter_id. set_solver.
  - rewrite filter_cons. destruct (decide (x ∈ keep)) as [Hk|Hk].
    + rewrite IH, decide_False by (intros ?; done). done.
    + unfold mbind, M_bind, mb_delete, modify. rewrite IH, decide_True by done. f_equal.
      * f_equal. simpl. lia.
      * apply map_eq. intros y. apply option_eq. intros d.
        rewrite !map_lookup_filter_Some, lookup_delete_Some. simpl. set_solver.
Qed.

Lemma mem_sweep keep grace now (b : MemoryBackend) :
  sb_sweep keep grace now b =
    (Ok (N.of_nat (length (filter (λ x, x ∉ keep) (map_to_list b).*1))), filter (λ p, p.1 ∈ keep) b).
Proof.
  simpl. unfold default_sweep, gets, mbind, M_bind. simpl.
  rewrite mem_sweep_list by apply NoDup_fst_map_to_list. f_equal.
  apply map_eq. intros y. apply option_eq. intros d. rewrite !map_lookup_filter_Some. simpl.
  rewrite elem_of_list_to_set, list_elem_of_filter, list_elem_of_fmap. split; intros [Hb Hk]; split; try done.
  - destruct (decide (y ∈ keep)) as [|Hn]; [done|]. exfalso. apply Hk. split; [done|].
    exists (y, d). by rewrite elem_of_map_to_list.
  - intros [? _]. done.
Qed.

#[global] Program Instance mem_StorageLaws : StorageLaws MemoryBackend := {|
  sb_inv _ := True;
  sb_view b := b
|}.
Next Obligation. intros b x v _ [= <-]. done. Qed.
Next Obligation. intros b x v _ [= <-]. done. Qed.
Next Obligation.
  intros b l _ [= <-]. split; [apply NoDup_fst_map_to_list|]. intros x.
  rewrite list_elem_of_fmap. split.
  - intros ([y d] & -> & Hin%elem_of_map_to_list). eauto.
  - intros [d Hd]. exists (x, d). by rewrite elem_of_map_to_list.
Qed.
Next Obligation. intros b x data b' _ _ [= <-]. done. Qed.
Next Obligation. intros b x b' _ [= <-]. done. Qed.
Next Obligation. intros b n b' _ [= _ <-]. done. Qed.
Next Obligation.
  intros b keep grace now n b' _ Hs. rewrite mem_sweep in Hs. injection Hs as _ <-. split; [done|].
  split; [apply map_filter_subseteq|]. intros x Hx. apply option_eq. intros d.
  rewrite map_lookup_filter_Some. naive_solver.
Qed.

(** ** [ObjectStore] *)
Section store.
Context {B : Type} `{StorageBackend B, ObjectCodec}.

Definition put (obj : Object) : M B ObjectId :=
  data ← lift_res (serialize obj);
  let x := object_id data in
  e ← gets (λ b, sb_exists b x);
  if negb e then _ ← sb_put x data; mret x else mret x.

Definition get (b : B) (x : ObjectId) : res (option Object) :=
  d ← sb_get b x;
  match d with
  | Some data => obj ← deserialize data; Ok (Some obj)
  | None => Ok None
  end.

Definition exists_ (b : B) (x : ObjectId) : res bool := sb_exists b x.
Definition put_blob (data : bytes) : M B ObjectId := put (OBlob (MkBlob data)).
Definition put_tree (entries : gmap string TreeEntry) : M B ObjectId := put (OTree (MkTree entries)).
Definition put_snapshot (s : Snapshot) : M B ObjectId := put (OSnapshot s).
Definition put_overlay (o : EnvOverlay) : M B ObjectId := put (OEnvOverlay o).
Definition get_overlay (b : B) (x : ObjectId) : res (option EnvOverlay) :=
  obj ← get b x;
  match obj with
  | None => Ok None
  | Some (OEnvOverlay o) => Ok (Some o)
  | Some _ => Err (Codec "not an env overlay")
  end.
Definition list_ids (b : B) : res (list ObjectId) := sb_list b.
Definition count (b : B) : res N := sb_count b.
Definition compact : M B N := sb_compact.
Definition get_raw (b : B) (x : ObjectId) : res (option bytes) := sb_get b x.
Definition put_raw (canonical : bytes) : M B ObjectId :=
  let x := object_id canonical in
  e ← gets (λ b, sb_exists b x);
  if negb e then _ ← sb_put x canonical; mret x else mret x.
Definition sweep (reachable : gset ObjectId) (grace_secs now : N) : M B N :=
  sb_sweep reachable grace_secs now.
End store.

(** [copy_objects] of src/src/repo/mod.rs: decode, re-encode. *)
Definition copy_objects {B1 B2} `{StorageBackend B1, StorageBackend B2, ObjectCodec} (from : B1)
    : M B2 () :=
  ids ← lift_res (list_ids from);
  M_iter (λ x, obj ← lift_res (get from x);
    match obj with Some obj => _ ← put obj; mret () | None => mret () end) ids.

(** ** The abstraction *)
Section refine.
Context {B : Type} `{StorageLaws B, !ObjectCodec}.

Definition decoded (b : B) : objects := deserialize <$> sb_view b.

(** Every byte string is filed under its hash. *)
Definition addressed (b : B) : Prop :=
  ∀ x data, sb_view b !! x = Some data → object_id data = x.

Lemma get_decoded b x v : sb_inv b → get b x = v → (∀ e, sb_get b x ≠ Err e) → v = os_get (decoded b) x.
Proof.
  intros Hinv Hg Hne. unfold get in Hg. destruct (sb_get b x) as [d|e] eqn:Hd; [|by destruct (Hne e)].
  apply sb_get_Ok in Hd; [|done]. subst d. unfold os_get, decoded. rewrite lookup_fmap.
  destruct (sb_view b !! x) as [data|]; simpl in *; [|done]. by destruct (deserialize data).
Qed.

(** Reads of the facade are reads of the decoded view. *)
Lemma get_Ok_decoded b x v : sb_inv b → get b x = Ok v → os_get (decoded b) x = Ok v.
Proof.
  intros Hi Hg. rewrite <- (get_decoded b x (Ok v) Hi Hg); [done|]. intros e He. unfold get in Hg. by rewrite He in Hg.
Qed.

(** Storing canonical bytes: [put] after serialization, and [put_raw]. *)
Lemma put_raw_Ok data x b b' : sb_inv b → put_raw data b = (Ok x, b') →
  sb_inv b' ∧ x = object_id data ∧
  sb_view b' = match sb_view b !! x with Some _ => sb_view b | None => <[x := data]> (sb_view b) end.
Proof.
  intros Hinv. unfold put_raw, gets. rewrite M_bind_Ok. intros (e & s & He & Hp).
  injection He as He <-. apply sb_exists_Ok in He; [|done]. case_bool_decide as Hs; subst e; simpl in Hp.
  - injection Hp as <- <-. destruct Hs as [old ->]. done.
  - apply M_bind_Ok in Hp as ([] & s & Hp & [= <- <-]).
    apply eq_None_not_Some in Hs. destruct (sb_put_Ok _ _ _ _ Hinv Hs Hp) as [? ->]. by rewrite Hs.
Qed.

Lemma put_put_raw obj data b : serialize obj = Ok data → put obj b = put_raw data b.
Proof. intros Hs. unfold put, lift_res. rewrite Hs. done. Qed.

Lemma put_serialize obj x b b' : put obj b = (Ok x, b') → ∃ data, serialize obj = Ok data ∧ x = object_id data.
Proof.
  unfold put. rewrite M_bind_Ok. intros (data & s & Hd & Hp). unfold lift_res in Hd.
  injection Hd as Hd <-. exists data. split; [done|].
  apply M_bind_Ok in Hp as (e & s2 & _ & Hp). destruct e; simpl in Hp.
  - by injection Hp as <-.
  - by apply M_bind_Ok in Hp as (_ & s3 & _ & [= <- _]).
Qed.

Lemma addressed_put_raw data x b b' : sb_inv b → addressed b → put_raw data b = (Ok x, b') → addressed b'.
Proof.
  intros Hinv Ha Hp. destruct (put_raw_Ok _ _ _ _ Hinv Hp) as (_ & -> & Hv).
  intros y d. rewrite Hv. destruct (sb_view b !! object_id data); [apply Ha|].
  intros [[<- <-]|[_ ?]]%lookup_insert_Some; [done|by apply Ha].
Qed.

Lemma addressed_subset (b b' : B) : sb_view b' ⊆ sb_view b → addressed b → addressed b'.
Proof. intros Hs Ha x data Hx. eapply Ha, lookup_weaken; done. Qed.
End refine.

(** ** Properties *)
Section theorems.
Context {B : Type} `{StorageLaws B, !ObjectCodec, !ObjectCodecLaws}.

(** Put, then get: after a successful [put], on any backend that keeps the
    contract, the object is stored under the hash of its encoding and decodes back
    to itself, every other id is untouched, and putting it again changes nothing.
    The proviso is local: no different byte string with the same hash was stored
    before. *)
Theorem put_refines (obj : Object) (data : bytes) (x : ObjectId) (b b' : B) :
  sb_inv b → serialize obj = Ok data → put obj b = (Ok x, b') →
  (∀ old, sb_view b !! object_id data = Some old → old = data) →
  sb_inv b' ∧ x = object_id data ∧ decoded b' = <[x := Ok obj]> (decoded b) ∧
  (∀ y b'', put obj b' = (Ok y, b'') → y = x ∧ sb_view b'' = sb_view b').
Proof.
  intros Hinv Hs Hp Hcol. rewrite (put_put_raw obj data b Hs) in Hp.
  destruct (put_raw_Ok _ _ _ _ Hinv Hp) as (Hinv' & -> & Hv). split; [done|]. split; [done|].
  assert (sb_view b' = <[object_id data := data]> (sb_view b)) as Hv'.
  { rewrite Hv. destruct (sb_view b !! object_id data) as [old|] eqn:Hold; [|done].
    rewrite insert_id; [done|]. by rewrite Hold, (Hcol old eq_refl). }
  split.
  - unfold decoded. rewrite Hv', fmap_insert. by rewrite (deserialize_serialize obj data Hs).
  - intros y b'' Hp2. rewrite (put_put_raw obj data b' Hs) in Hp2.
    destruct (put_raw_Ok _ _ _ _ Hinv' Hp2) as (_ & -> & Hv2). split; [done|].
    rewrite Hv2, Hv'. by rewrite lookup_insert_eq.
Qed.

(** Content addressing is an invariant of the store: if every byte string is filed
    under its own hash, it still is after [put], [put_raw], a deletion, a compaction
    or a sweep, on any backend that keeps the contract. *)
Theorem store_stays_addressed (b : B) :
  sb_inv b → addressed b →
  (∀ obj x b', put obj b = (Ok x, b') → addressed b') ∧
  (∀ data x b', put_raw data b = (Ok x, b') → x = object_id data ∧ addressed b') ∧
  (∀ x b', sb_delete x b = (Ok (), b') → addressed b') ∧
  (∀ n b', compact b = (Ok n, b') → addressed b') ∧
  (∀ keep grace now n b', sweep keep grace now b = (Ok n, b') → addressed b').
Proof.
  intros Hinv Ha. split; [|split; [|split; [|split]]].
  - intros obj x b' Hp. destruct (put_serialize _ _ _ _ Hp) as (data & Hs & ->).
    rewrite (put_put_raw obj data b Hs) in Hp. by eapply addressed_put_raw.
  - intros data x b' Hp. split; [by destruct (put_raw_Ok _ _ _ _ Hinv Hp) as (_ & ? & _)|].
    by eapply addressed_put_raw.
  - intros x b' Hd. destruct (sb_delete_Ok _ _ _ Hinv Hd) as [_ Hv]. eapply addressed_subset; [|done].
    rewrite Hv. apply delete_subseteq.
  - intros n b' Hc. destruct (sb_compact_Ok _ _ _ Hinv Hc) as [_ Hv]. intros x data. rewrite Hv. apply Ha.
  - intros keep grace now n b' Hs. destruct (sb_sweep_Ok _ _ _ _ _ _ Hinv Hs) as (_ & Hsub & _).
    by eapply addressed_subset.
Qed.
End theorems.

(** ** A concrete codec: enough to run the store on blobs

    A blob is its payload behind a tag byte, anything else is refused; the hash is
    the head of the bytes. *)
Definition toy_codec : ObjectCodec := {|
  serialize obj := match obj with OBlob b => Ok (x00 :: blob_data b) | _ => Err (Codec "unsupported") end;
  deserialize l := match l with t :: d => if decide (t = x00) then Ok (OBlob (MkBlob d)) else Err (Codec "malformed")
    | [] => Err (Codec "malformed") end;
  blake3_hash l := pad_vec 32 l
|}.
Lemma toy_codec_laws : @ObjectCodecLaws toy_codec.
Proof.
  split. intros obj data Hs. destruct obj as [[d]| | | | | | | | | | | |]; try discriminate Hs.
  injection Hs as <-. reflexivity.
Qed.

(** A codec that knows finitely many objects; ids are the encodings, padded. *)
Definition table_codec (table : list (Object * bytes)) : ObjectCodec := {|
  serialize obj :=
    match find_first (λ p, bool_decide (p.1 = obj)) table with
    | Some p => Ok p.2 | None => Err (Codec "unsupported") end;
  deserialize data :=
    match find_first (λ p, bool_decide (p.2 = data)) table with
    | Some p => Ok p.1 | None => Err (Codec "malformed") end;
  blake3_hash l := pad_vec 32 l
|}.

Lemma table_serialize table obj data : @serialize (table_codec table) obj = Ok data → (obj, data) ∈ table.
Proof.
  simpl. destruct (find_first _ table) as [[o d]|] eqn:Hp; [|done]. intros [= <-].
  apply find_first_Some in Hp as [Hin Ho%bool_decide_eq_true]. simpl in *. by subst.
Qed.
(** Looking a row up by its bytes. *)
Lemma table_find {X} (table : list (X * bytes)) p : NoDup table.*2 → p ∈ table →
  find_first (λ q, bool_decide (q.2 = p.2)) table = Some p.
Proof.
  intros Hnd Hin. destruct (find_first (λ q, bool_decide (q.2 = p.2)) table) as [q|] eqn:Hq.
  - apply find_first_Some in Hq as [Hq Hd%bool_decide_eq_true].
    apply list_elem_of_lookup in Hin as [i Hi]. apply list_elem_of_lookup in Hq as [j Hj].
    assert (i = j) as ->; [|congruence].
    eapply (NoDup_lookup table.*2); [done|by rewrite list_lookup_fmap, Hi|]. rewrite list_lookup_fmap, Hj. simpl. by rewrite Hd.
  - exfalso. pose proof (proj1 (find_first_None _ _) Hq p Hin) as Hn.
    simpl in Hn. by rewrite bool_decide_eq_false in Hn.
Qed.
Lemma table_codec_laws table : NoDup table.*2 → @ObjectCodecLaws (table_codec table).
Proof.
  intros Hnd. split. intros obj data Hs%table_serialize. pose proof (table_find table (obj, data) Hnd Hs) as Hf. simpl in *. by rewrite Hf.
Qed.

Section demo.
Local Existing Instance toy_codec.
Local Existing Instance toy_codec_laws.

Definition ex_blob : Object := OBlob (MkBlob [x61; x62]).
Definition ex_blob_data : bytes := [x00; x61; x62].

Lemma put_refines_witness :
  let b' := <[object_id ex_blob_data := ex_blob_data]> (∅ : MemoryBackend) in
  put ex_blob (∅ : MemoryBackend) = (Ok (object_id ex_blob_data), b') ∧
  decoded b' = <[object_id ex_blob_data := Ok ex_blob]> (decoded (∅ : MemoryBackend)).
Proof.
  assert (put ex_blob (∅ : MemoryBackend) = (Ok (object_id ex_blob_data),
    <[object_id ex_blob_data := ex_blob_data]> (∅ : MemoryBackend))) as Hp by reflexivity.
  assert (sb_inv (∅ : MemoryBackend)) as Hinv by exact I. assert (serialize ex_blob = Ok ex_blob_data) as Hs by reflexivity.
  split; [exact Hp|].
  apply (put_refines ex_blob ex_blob_data _ (∅ : MemoryBackend) _ Hinv Hs Hp).
  intros old Hold. discriminate Hold.
Defined.

Lemma store_stays_addressed_witness :
  addressed (<[object_id ex_blob_data := ex_blob_data]> (∅ : MemoryBackend)).
Proof.
  assert (addressed (∅ : MemoryBackend)) as Ha by (intros x data Hx; discriminate Hx).
  assert (sb_inv (∅ : MemoryBackend)) as Hinv by exact I.
  destruct (store_stays_addressed (∅ : MemoryBackend) Hinv Ha) as (Hput & _).
  exact (Hput ex_blob (object_id ex_blob_data) _ eq_refl).
Defined.
End demo.
