(* ===== verification/Crypto.v ===== *)
(** * Crypto: the master-key boundary of envelope encryption

    [KeyProvider], [LocalKeyProvider] and [ProviderChain] of
    src/src/crypto/key_provider.rs, and the KMS slot of crypto/kms.rs.
    ChaCha20-Poly1305, the operating system's randomness and BLAKE3 are parameters:
    [Aead] with the fact that decryption inverts encryption in both directions
    (RFC 8439: it recomputes the tag and removes the same key stream), [Random] with
    no assumption at all.

    A provider promises to unwrap what it wrapped ([KeyProviderLaws]); the local and
    the KMS providers keep that promise, and a chain asks its providers in a fixed
    order ([chain_unwrap_order]). *)

From S2P Require Import Prelude Bytes Ids Objects Store.

(** ** Randomness: [rand::random], one call after the other *)
Class Random := random_bytes : N → ∀ n, vec byte n.
(** The number of calls made so far. *)
Definition Rng : Type := N.
Definition random `{Random} (n : nat) : M Rng (vec byte n) := λ k, (Ok (random_bytes k n), (k + 1)%N).

Abbreviation Nonce := (vec byte 12).

(** ** ChaCha20-Poly1305

    [aead_encrypt key nonce aad msg], [aead_decrypt key nonce aad ciphertext].  The
    constructor [new_from_slice] only fails on keys that are not 32 bytes long, which
    the types exclude. *)
Class Aead := {
  aead_encrypt : Key → Nonce → bytes → bytes → option bytes;
  aead_decrypt : Key → Nonce → bytes → bytes → option bytes
}.
Class AeadLaws `{Aead} := {
  aead_decrypt_iff k n a c m : aead_decrypt k n a c = Some m ↔ aead_encrypt k n a m = Some c
}.

(** [Vec<u8>::try_into::<[u8; 32]>()] *)
Definition to_key (l : bytes) : option Key :=
  if decide (length l = 32) then Some (pad_vec 32 l) else None.

Lemma to_key_Some l k : to_key l = Some k ↔ l = vec_to_list k.
Proof.
  unfold to_key. case_decide as Hl; split; intros Hk; simplify_eq.
  - by rewrite pad_vec_length.
  - by rewrite pad_vec_to_list.
  - by rewrite length_vec_to_list in Hl.
Qed.

(** [hex8] *)
Definition hex8 (l : bytes) : string := bytes_str (take 8 l ≫= hex_byte).

(** ** [trait KeyProvider], used as [dyn KeyProvider] *)
Record KeyProvider : Type := MkProvider {
  active_key_ref : string;
  wrap_dk : Key → bytes → M Rng WrappedKey;
  unwrap_dk : WrappedKey → bytes → res Key
}.
(** What a provider promises: its wraps carry its reference and it unwraps them. *)
Class KeyProviderLaws (p : KeyProvider) : Prop := {
  wrap_key_ref dk aad r w r' : wrap_dk p dk aad r = (Ok w, r') → wk_key_ref w = active_key_ref p;
  unwrap_wrapped dk aad r w r' : wrap_dk p dk aad r = (Ok w, r') → unwrap_dk p w aad = Ok dk
}.

(** [nonce || ciphertext], the layout both local implementations use *)
Definition seal_blob `{Random, Aead} (key : Key) (aad msg : bytes) (e : Error) : M Rng bytes :=
  nonce ← random 12;
  ct ← lift_res (ok_or (aead_encrypt key nonce aad msg) e);
  mret (vec_to_list nonce ++ ct).
Definition open_blob `{Aead} (key : Key) (aad blob : bytes) : res bytes :=
  if decide (length blob < 12) then Err DecryptionFailed
  else ok_or (aead_decrypt key (pad_vec 12 (take 12 blob)) aad (drop 12 blob)) DecryptionFailed.

(** ** [LocalKeyProvider] *)
Record LocalKeyProvider : Type := MkLocal { lp_mk : Key; lp_key_ref : string }.

Section local.
Context `{Random, Aead, ObjectCodec}.

Definition local_new (mk : Key) (ref_prefix : string) : LocalKeyProvider :=
  MkLocal mk (ref_prefix +:+ ":" +:+ hex8 (blake3_hash mk)).

Definition local_wrap_dk (p : LocalKeyProvider) (dk : Key) (aad : bytes) : M Rng WrappedKey :=
  blob ← seal_blob (lp_mk p) aad dk (Codec "dk wrap failed");
  mret (MkWrappedKey (lp_key_ref p) blob).

Definition local_unwrap_dk (p : LocalKeyProvider) (wrapped : WrappedKey) (aad : bytes) : res Key :=
  dk ← open_blob (lp_mk p) aad (wk_bytes wrapped);
  ok_or (to_key dk) DecryptionFailed.

Definition local_provider (p : LocalKeyProvider) : KeyProvider :=
  MkProvider (lp_key_ref p) (local_wrap_dk p) (local_unwrap_dk p).
End local.

(** ** The KMS slot *)
Record KmsClient : Type := MkKms {
  kms_key_ref : string;
  kms_encrypt : bytes → bytes → M Rng bytes;
  kms_decrypt : bytes → bytes → res bytes
}.
Class KmsClientLaws (c : KmsClient) : Prop := {
  kms_decrypt_encrypt pt aad r ct r' : kms_encrypt c pt aad r = (Ok ct, r') → kms_decrypt c ct aad = Ok pt
}.

(** [KmsKeyProvider] *)
Definition kms_provider (c : KmsClient) : KeyProvider :=
  MkProvider (kms_key_ref c)
    (λ dk aad, ct ← kms_encrypt c dk aad; mret (MkWrappedKey (kms_key_ref c) ct))
    (λ wrapped aad, dk ← kms_decrypt c (wk_bytes wrapped) aad; ok_or (to_key dk) DecryptionFailed).

(** [LocalKmsClient] *)
Definition local_kms `{Random, Aead, ObjectCodec} (key : Key) : KmsClient :=
  MkKms ("local-kms:" +:+ hex8 (blake3_hash key))
    (λ pt aad, seal_blob key aad pt (Codec "kms encrypt failed"))
    (λ ct aad, open_blob key aad ct).

(** ** [ProviderChain] *)
Record ProviderChain : Type := MkChain {
  chain_providers : list KeyProvider;
  legacy_keys : list Key
}.
Definition chain_new : ProviderChain := MkChain [] [].
Definition with_provider (p : KeyProvider) : ProviderChain := MkChain [p] [].
Definition push_provider (p : KeyProvider) (c : ProviderChain) : ProviderChain :=
  MkChain (chain_providers c ++ [p]) (legacy_keys c).
Definition push_legacy_key (k : Key) (c : ProviderChain) : ProviderChain :=
  MkChain (chain_providers c) (legacy_keys c ++ [k]).
Definition chain_active (c : ProviderChain) : res KeyProvider :=
  ok_or (head (chain_providers c)) (Codec "no key provider configured").

(** The two loops of [unwrap]. *)
Fixpoint unwrap_advertised (ps : list KeyProvider) (w : WrappedKey) (aad : bytes) : option Key :=
  match ps with
  | [] => None
  | p :: ps =>
      if decide (active_key_ref p = wk_key_ref w) then
        match unwrap_dk p w aad with
        | Ok dk => Some dk
        | Err _ => unwrap_advertised ps w aad
        end
      else unwrap_advertised ps w aad
  end.
Fixpoint unwrap_any (ps : list KeyProvider) (w : WrappedKey) (aad : bytes) : option Key :=
  match ps with
  | [] => None
  | p :: ps =>
      match unwrap_dk p w aad with
      | Ok dk => Some dk
      | Err _ => unwrap_any ps w aad
      end
  end.
Definition chain_unwrap (c : ProviderChain) (w : WrappedKey) (aad : bytes) : res Key :=
  match unwrap_advertised (chain_providers c) w aad with
  | Some dk => Ok dk
  | None => ok_or (unwrap_any (chain_providers c) w aad) DecryptionFailed
  end.

(** ** Facts *)

(** [random] never fails. *)
Lemma random_eq `{Random} n r : random n r = (Ok (random_bytes r n), (r + 1)%N).
Proof. done. Qed.

Section blobs.
Context `{Random, AeadLaws}.

Lemma seal_blob_Ok key aad msg e r blob r' : seal_blob key aad msg e r = (Ok blob, r') ↔
  ∃ ct, aead_encrypt key (random_bytes r 12) aad msg = Some ct ∧
    blob = vec_to_list (random_bytes r 12) ++ ct ∧ r' = (r + 1)%N.
Proof.
  unfold seal_blob, mbind, M_bind, random, lift_res.
  destruct (aead_encrypt _ _ _ _) as [ct|]; unfold mret, M_ret; simpl; naive_solver.
Qed.

Lemma open_blob_Ok key aad blob m : open_blob key aad blob = Ok m ↔
  ∃ (n : Nonce) ct, blob = vec_to_list n ++ ct ∧ aead_encrypt key n aad m = Some ct.
Proof.
  unfold open_blob. case_decide as Hl; split.
  - done.
  - intros (n & ct & -> & _). rewrite length_app, length_vec_to_list in Hl. lia.
  - intros Ho. destruct (aead_decrypt _ _ _ _) as [m'|] eqn:Hd; simplify_eq/=.
    apply aead_decrypt_iff in Hd. exists (pad_vec 12 (take 12 blob)), (drop 12 blob). split; [|done].
    rewrite pad_vec_length by (rewrite length_take; lia). by rewrite take_drop.
  - intros (n & ct & -> & He). apply aead_decrypt_iff in He.
    rewrite take_app_length', drop_app_length' by by rewrite length_vec_to_list.
    by rewrite pad_vec_to_list, He.
Qed.

Lemma open_sealed key aad msg e r blob r' : seal_blob key aad msg e r = (Ok blob, r') → open_blob key aad blob = Ok msg.
Proof. intros (ct & He & -> & _)%seal_blob_Ok. apply open_blob_Ok. eauto. Qed.

(** What a local provider unwraps: a blob that is a sealing under its key. *)
Lemma local_unwrap_iff p w aad dk : local_unwrap_dk p w aad = Ok dk ↔
  ∃ (n : Nonce) ct, wk_bytes w = vec_to_list n ++ ct ∧ aead_encrypt (lp_mk p) n aad dk = Some ct.
Proof.
  unfold local_unwrap_dk. rewrite bind_Ok. split.
  - intros (l & (n & ct & Hb & He)%open_blob_Ok & Hk).
    destruct (to_key l) as [k|] eqn:Hl; simplify_eq/=. apply to_key_Some in Hl as ->. eauto.
  - intros (n & ct & Hb & He). exists (vec_to_list dk). split; [apply open_blob_Ok; eauto|].
    by rewrite (proj2 (to_key_Some _ _) eq_refl).
Qed.

Lemma local_wrap_Ok p dk aad r w r' : local_wrap_dk p dk aad r = (Ok w, r') ↔
  ∃ ct, aead_encrypt (lp_mk p) (random_bytes r 12) aad dk = Some ct ∧
    w = MkWrappedKey (lp_key_ref p) (vec_to_list (random_bytes r 12) ++ ct) ∧ r' = (r + 1)%N.
Proof.
  unfold local_wrap_dk. rewrite M_bind_Ok. split.
  - intros (blob & s & (ct & He & -> & ->)%seal_blob_Ok & [= <- <-]). eauto.
  - intros (ct & He & -> & ->). eexists _, _. split; [apply seal_blob_Ok; eauto|done].
Qed.

#[global] Instance local_laws p : KeyProviderLaws (local_provider p).
Proof.
  split; simpl.
  - intros dk aad r w r' (ct & _ & -> & _)%local_wrap_Ok. done.
  - intros dk aad r w r' (ct & He & -> & _)%local_wrap_Ok. apply local_unwrap_iff. eauto.
Qed.

#[global] Instance local_kms_laws `{ObjectCodec} key : KmsClientLaws (local_kms key).
Proof. split; simpl. intros pt aad r ct r'. apply open_sealed. Qed.
End blobs.

#[global] Instance kms_laws c : KmsClientLaws c → KeyProviderLaws (kms_provider c).
Proof.
  intros Hc. split; simpl; intros dk aad r w r'; rewrite M_bind_Ok; intros (ct & s & He & [= <- <-]); [done|].
  simpl. rewrite (kms_decrypt_encrypt _ _ _ _ _ He). simpl. by rewrite (proj2 (to_key_Some _ _) eq_refl).
Qed.

(** ** Which provider of a chain answers *)
Definition unwrap_opt (w : WrappedKey) (aad : bytes) (p : KeyProvider) : option Key :=
  match unwrap_dk p w aad with Ok dk => Some dk | Err _ => None end.

Lemma unwrap_opt_Some w aad p dk : unwrap_opt w aad p = Some dk ↔ unwrap_dk p w aad = Ok dk.
Proof. unfold unwrap_opt. destruct (unwrap_dk p w aad); naive_solver. Qed.

Lemma unwrap_any_omap ps w aad : unwrap_any ps w aad = head (omap (unwrap_opt w aad) ps).
Proof.
  induction ps as [|p ps IH]; [done|]. simpl. unfold unwrap_opt at 1.
  destruct (unwrap_dk p w aad); [done|]. apply IH.
Qed.
Lemma unwrap_advertised_omap ps w aad : unwrap_advertised ps w aad =
  head (omap (unwrap_opt w aad) (filter (λ p, active_key_ref p = wk_key_ref w) ps)).
Proof.
  induction ps as [|p ps IH]; [done|]. simpl. rewrite filter_cons. case_decide; [|done].
  simpl. unfold unwrap_opt at 1. destruct (unwrap_dk p w aad); [done|]. apply IH.
Qed.

(** The providers that advertise the wrap's reference answer first, then all of them,
    each in the order of the chain. *)
Lemma chain_unwrap_order c w aad : chain_unwrap c w aad =
  ok_or (head (omap (unwrap_opt w aad)
    (filter (λ p, active_key_ref p = wk_key_ref w) (chain_providers c) ++ chain_providers c))) DecryptionFailed.
Proof.
  unfold chain_unwrap. rewrite unwrap_advertised_omap, unwrap_any_omap.
  rewrite omap_app. by destruct (omap _ (filter _ _)).
Qed.

Lemma chain_unwrap_from c w aad dk : chain_unwrap c w aad = Ok dk →
  ∃ p, p ∈ chain_providers c ∧ unwrap_dk p w aad = Ok dk.
Proof.
  rewrite chain_unwrap_order. destruct (omap _ _) as [|d l] eqn:Ho; [done|]. intros [= ->].
  assert (dk ∈ dk :: l) as Hd by left. rewrite <- Ho in Hd.
  apply list_elem_of_omap in Hd as (p & Hp & Hu%unwrap_opt_Some). exists p. split; [|done].
  apply elem_of_app in Hp as [Hp|Hp]; [|done]. by apply list_elem_of_filter in Hp as [_ ?].
Qed.

(** It fails in one way only, and then no provider can unwrap. *)
Lemma chain_unwrap_Err c w aad e : chain_unwrap c w aad = Err e ↔
  e = DecryptionFailed ∧ ∀ p dk, p ∈ chain_providers c → unwrap_dk p w aad ≠ Ok dk.
Proof.
  rewrite chain_unwrap_order. split.
  - destruct (omap _ _) as [|d l] eqn:Ho; [|done]. intros [= <-]. split; [done|].
    intros p dk Hp Hu%unwrap_opt_Some.
    assert (dk ∈ ([] : list Key)) as Hd; [|by apply elem_of_nil in Hd].
    rewrite <- Ho. apply list_elem_of_omap. exists p. split; [by apply elem_of_app; right|done].
  - intros [-> Hn]. destruct (omap _ _) as [|d l] eqn:Ho; [done|]. exfalso.
    assert (d ∈ d :: l) as Hd by left. rewrite <- Ho in Hd.
    apply list_elem_of_omap in Hd as (p & Hp & Hu%unwrap_opt_Some). apply (Hn p d); [|done].
    apply elem_of_app in Hp as [Hp|Hp]; [|done]. by apply list_elem_of_filter in Hp as [_ ?].
Qed.

(** A chain is honest about a wrap of [dk] if none of its providers unwraps it to
    another key; it then recovers [dk] as soon as one provider can. *)
Definition honest (c : ProviderChain) (w : WrappedKey) (aad : bytes) (dk : Key) : Prop :=
  ∀ p dk', p ∈ chain_providers c → unwrap_dk p w aad = Ok dk' → dk' = dk.

Lemma chain_unwrap_honest c w aad dk p : honest c w aad dk → p ∈ chain_providers c →
  unwrap_dk p w aad = Ok dk → chain_unwrap c w aad = Ok dk.
Proof.
  intros Hh Hp Hu. destruct (chain_unwrap c w aad) as [dk'|e] eqn:Hc.
  - apply chain_unwrap_from in Hc as (q & Hq & Hu'). by rewrite (Hh q dk' Hq Hu').
  - apply chain_unwrap_Err in Hc as [_ Hn]. by destruct (Hn p dk Hp).
Qed.

(** A second local provider that unwraps another one's wrap exhibits two keys under
    which the same ciphertext is a sealing. *)
Lemma local_rival `{Random, AeadLaws} p q dk dk' aad r w r' : local_wrap_dk p dk aad r = (Ok w, r') →
  local_unwrap_dk q w aad = Ok dk' →
  aead_encrypt (lp_mk q) (random_bytes r 12) aad dk' = aead_encrypt (lp_mk p) (random_bytes r 12) aad dk.
Proof.
  intros (ct & He & -> & _)%local_wrap_Ok (n & ct' & Hb & He')%local_unwrap_iff. simpl in Hb.
  apply app_inj_1 in Hb as [Hn <-]; [|by rewrite !length_vec_to_list].
  apply vec_to_list_inj2 in Hn as <-. by rewrite He, He'.
Qed.
