(* ===== verification/Secrets.v ===== *)
(** * Secrets: encryption, envelopes and recipients

    [Secret], [SecretV2] and [MultiRecipientSecret] of src/src/object/secret.rs over
    the providers of [Crypto.v].  [AadCodec] is postcard on [SecretAad], whose bytes are
    bound into every sealing.

    The theorems: an envelope opens for every chain that holds its provider, and a
    relabelled or lifted one only on an AEAD collision that the theorem names; a rewrap
    changes the wrap alone; over any history of grants and revocations exactly the
    current recipients are wrapped for, each of them reads the plaintext, and the value
    ciphertext never changes. *)

From S2P Require Import Prelude Bytes Lattice Ids Objects Store Crypto.

Class AadCodec := aad_to_bytes : SecretAad → res bytes.
(** postcard can read the bytes back. *)
Class AadCodecLaws `{AadCodec} := {
  aad_to_bytes_inj a b l : aad_to_bytes a = Ok l → aad_to_bytes b = Ok l → a = b
}.

(** [SecretAad::v2] *)
Definition aad_v2 (label : option Label) : SecretAad := MkAad 2 label.

Section secrets.
Context `{Random, Aead, AadCodec}.

(** ** [Secret]: one raw key *)
Definition secret_encrypt (plaintext : bytes) (key : Key) : M Rng Secret :=
  nonce ← random 12;
  ciphertext ← lift_res (ok_or (aead_encrypt key nonce [] plaintext) (Codec "encryption failed"));
  mret (MkSecret nonce ciphertext).
Definition secret_decrypt (s : Secret) (key : Key) : res bytes :=
  ok_or (aead_decrypt key (sec_nonce s) [] (sec_ciphertext s)) DecryptionFailed.

(** ** [SecretV2]: the value under a data key, the data key under a master key *)
Definition encrypt_envelope (plaintext : bytes) (provider : KeyProvider) (aad : SecretAad) : M Rng SecretV2 :=
  aad_bytes ← lift_res (aad_to_bytes aad);
  dk ← random 32;
  nonce ← random 12;
  ciphertext ← lift_res (ok_or (aead_encrypt dk nonce aad_bytes plaintext) (Codec "value encryption failed"));
  wrapped_dk ← wrap_dk provider dk aad_bytes;
  mret (MkSecretV2 wrapped_dk nonce ciphertext aad).

Definition v2_decrypt (s : SecretV2) (chain : ProviderChain) : res bytes :=
  aad_bytes ← aad_to_bytes (s2_aad s);
  dk ← chain_unwrap chain (s2_wrapped_dk s) aad_bytes;
  ok_or (aead_decrypt dk (s2_nonce s) aad_bytes (s2_ciphertext s)) DecryptionFailed.

Definition rewrap (s : SecretV2) (old : ProviderChain) (new : KeyProvider) : M Rng SecretV2 :=
  aad_bytes ← lift_res (aad_to_bytes (s2_aad s));
  dk ← lift_res (chain_unwrap old (s2_wrapped_dk s) aad_bytes);
  wrapped_dk ← wrap_dk new dk aad_bytes;
  mret (MkSecretV2 wrapped_dk (s2_nonce s) (s2_ciphertext s) (s2_aad s)).

(** ** [MultiRecipientSecret]: the data key wrapped once per recipient *)

(** [for provider in recipients { wraps.push(provider.wrap_dk(&dk, &aad)?) }] *)
Fixpoint wrap_all (dk : Key) (aad : bytes) (recipients : list KeyProvider) : M Rng (list WrappedKey) :=
  match recipients with
  | [] => mret []
  | p :: recipients => w ← wrap_dk p dk aad; ws ← wrap_all dk aad recipients; mret (w :: ws)
  end.

Definition encrypt_for (plaintext : bytes) (recipients : list KeyProvider) (aad : SecretAad)
    : M Rng MultiRecipientSecret :=
  if decide (recipients = []) then throw (Codec "a multi-recipient secret needs at least one recipient") else
  aad_bytes ← lift_res (aad_to_bytes aad);
  dk ← random 32;
  nonce ← random 12;
  ciphertext ← lift_res (ok_or (aead_encrypt dk nonce aad_bytes plaintext) (Codec "value encryption failed"));
  wraps ← wrap_all dk aad_bytes recipients;
  mret (MkMulti wraps nonce ciphertext aad).

(** The first wrap the chain can open. *)
Fixpoint first_open (chain : ProviderChain) (aad : bytes) (wraps : list WrappedKey) : option Key :=
  match wraps with
  | [] => None
  | w :: wraps =>
      match chain_unwrap chain w aad with
      | Ok dk => Some dk
      | Err _ => first_open chain aad wraps
      end
  end.

Definition mr_decrypt (s : MultiRecipientSecret) (chain : ProviderChain) : res bytes :=
  aad_bytes ← aad_to_bytes (mr_aad s);
  match first_open chain aad_bytes (mr_recipients s) with
  | Some dk => ok_or (aead_decrypt dk (mr_nonce s) aad_bytes (mr_ciphertext s)) DecryptionFailed
  | None => Err DecryptionFailed
  end.

Definition set_recipients (s : MultiRecipientSecret) (ws : list WrappedKey) : MultiRecipientSecret :=
  MkMulti ws (mr_nonce s) (mr_ciphertext s) (mr_aad s).

(** [grant] on [&mut self]: the secret after a success; a failure leaves it alone. *)
Definition grant (s : MultiRecipientSecret) (chain : ProviderChain) (recipient : KeyProvider)
    : M Rng MultiRecipientSecret :=
  aad_bytes ← lift_res (aad_to_bytes (mr_aad s));
  dk ← lift_res (ok_or (first_open chain aad_bytes (mr_recipients s)) DecryptionFailed);
  new_wrap ← wrap_dk recipient dk aad_bytes;
  if existsb (λ w, bool_decide (wk_key_ref w = wk_key_ref new_wrap)) (mr_recipients s) then mret s
  else mret (set_recipients s (mr_recipients s ++ [new_wrap])).

Definition revoke (s : MultiRecipientSecret) (key_ref : string) : res (bool * MultiRecipientSecret) :=
  let matching := length (filter (λ w, wk_key_ref w = key_ref) (mr_recipients s)) in
  if decide (matching = 0) then Ok (false, s)
  else if decide (length (mr_recipients s) ≤ matching)
  then Err (Codec "cannot revoke the last recipient of a secret")
  else Ok (true, set_recipients s (filter (λ w, wk_key_ref w ≠ key_ref) (mr_recipients s))).
End secrets.

(** ** Envelopes *)
Section envelopes.
Context `{Random, AeadLaws, AadCodec}.

Lemma secret_decrypt_encrypt pt key r s r' : secret_encrypt pt key r = (Ok s, r') → secret_decrypt s key = Ok pt.
Proof.
  unfold secret_encrypt, secret_decrypt, mbind, M_bind, lift_res. rewrite random_eq.
  destruct (aead_encrypt _ _ _ _) as [ct|] eqn:He; [|done]. intros [= <- _]. simpl.
  apply aead_decrypt_iff in He. by rewrite He.
Qed.

Lemma encrypt_envelope_Ok pt p aad r s r' : encrypt_envelope pt p aad r = (Ok s, r') → ∃ l,
  aad_to_bytes aad = Ok l ∧ s2_aad s = aad ∧
  aead_encrypt (random_bytes r 32) (s2_nonce s) l pt = Some (s2_ciphertext s) ∧
  wrap_dk p (random_bytes r 32) l (r + 1 + 1)%N = (Ok (s2_wrapped_dk s), r').
Proof.
  unfold encrypt_envelope. rewrite M_bind_Ok. intros (l & r0 & [= Hl <-] & Hs). exists l.
  apply M_bind_Ok in Hs as (dk & r1 & [= <- <-] & Hs). apply M_bind_Ok in Hs as (n & r2 & [= <- <-] & Hs).
  apply M_bind_Ok in Hs as (ct & r3 & [= Hct <-] & Hs). apply M_bind_Ok in Hs as (w & r4 & Hw & [= <- <-]).
  destruct (aead_encrypt _ _ _ _) eqn:He; naive_solver.
Qed.

(** A chain reads a v2 secret just when it recovers a key under which the value is a
    sealing of what is read. *)
Lemma v2_decrypt_Ok s chain m : v2_decrypt s chain = Ok m ↔ ∃ l dk,
  aad_to_bytes (s2_aad s) = Ok l ∧ chain_unwrap chain (s2_wrapped_dk s) l = Ok dk ∧
  aead_encrypt dk (s2_nonce s) l m = Some (s2_ciphertext s).
Proof.
  unfold v2_decrypt. setoid_rewrite bind_Ok. setoid_rewrite bind_Ok. setoid_rewrite <- aead_decrypt_iff. split.
  - intros (l & Hl & dk & Hdk & Hm). destruct (aead_decrypt _ _ _ _) eqn:Hd; naive_solver.
  - intros (l & dk & Hl & Hdk & Hd). exists l. split; [done|]. exists dk. by rewrite Hd.
Qed.

(** An envelope opens for its readers: every chain that holds the provider it was
    encrypted for (and whose other providers do not unwrap the data key to something
    else) decrypts to the plaintext, the wrap carries the provider's reference, and a
    chain without any provider that can unwrap it fails with [DecryptionFailed]. *)
Theorem envelope_opens (pt : bytes) (p : KeyProvider) (aad : SecretAad) (r r' : Rng) (s : SecretV2) :
  KeyProviderLaws p → encrypt_envelope pt p aad r = (Ok s, r') →
  wk_key_ref (s2_wrapped_dk s) = active_key_ref p ∧
  (∀ chain l, p ∈ chain_providers chain → aad_to_bytes aad = Ok l →
     honest chain (s2_wrapped_dk s) l (random_bytes r 32) → v2_decrypt s chain = Ok pt) ∧
  (∀ chain l, aad_to_bytes aad = Ok l →
     (∀ q dk, q ∈ chain_providers chain → unwrap_dk q (s2_wrapped_dk s) l ≠ Ok dk) →
     v2_decrypt s chain = Err DecryptionFailed).
Proof.
  intros Hp (l & Hl & Ha & He & Hw)%encrypt_envelope_Ok. split; [by eapply wrap_key_ref|]. split.
  - intros chain l' Hin Hl' Hh. rewrite Hl in Hl'. injection Hl' as <-. apply v2_decrypt_Ok. exists l, (random_bytes r 32).
    rewrite Ha. split; [done|]. split; [|done].
    eapply chain_unwrap_honest; [done..|]. by eapply unwrap_wrapped.
  - intros chain l' Hl' Hn. unfold v2_decrypt. rewrite Ha, Hl'. simpl.
    by rewrite (proj2 (chain_unwrap_Err chain _ l' DecryptionFailed) (conj eq_refl Hn)).
Qed.

(** The label is bound into both sealings: take a secret encrypted for a local
    master key, replace its label, or put the wrap of a second secret in its place,
    and read it with that master key.  Whatever is read, the value ciphertext is then
    a sealing under two different associated data or data keys at once. *)
Theorem envelope_binds `{!AadCodecLaws} (pt : bytes) (p : LocalKeyProvider) (aad aad' : SecretAad)
    (r r' : Rng) (s : SecretV2) (w : WrappedKey) (m : bytes) :
  encrypt_envelope pt (local_provider p) aad r = (Ok s, r') →
  v2_decrypt (MkSecretV2 w (s2_nonce s) (s2_ciphertext s) aad') (with_provider (local_provider p)) = Ok m →
  ∃ l l' dk', aad_to_bytes aad = Ok l ∧ aad_to_bytes aad' = Ok l' ∧ local_unwrap_dk p w l' = Ok dk' ∧
    (aad ≠ aad' → l ≠ l') ∧
    aead_encrypt dk' (s2_nonce s) l' m = aead_encrypt (random_bytes r 32) (s2_nonce s) l pt ∧
    (w = s2_wrapped_dk s → ∃ (n : Nonce), aead_encrypt (lp_mk p) n l' dk' = aead_encrypt (lp_mk p) n l (random_bytes r 32)).
Proof.
  intros (l & Hl & Ha & He & Hw)%encrypt_envelope_Ok (l' & dk' & Hl' & Hu & He')%v2_decrypt_Ok. simpl in *.
  apply chain_unwrap_from in Hu as (q & Hq & Hu). apply list_elem_of_singleton in Hq as ->.
  exists l, l', dk'. split; [done|]. split; [done|]. split; [done|]. split.
  { intros Hne ->. by apply Hne, (aad_to_bytes_inj _ _ l'). }
  split; [by rewrite He, He'|]. intros ->.
  apply local_wrap_Ok in Hw as (ct & Hc & Hw & _). apply local_unwrap_iff in Hu as (n & ct' & Hb & Hc').
  rewrite Hw in Hb. simpl in Hb. apply app_inj_1 in Hb as [Hn <-]; [|by rewrite !length_vec_to_list].
  apply vec_to_list_inj2 in Hn as <-. exists (random_bytes (r + 1 + 1) 12). by rewrite Hc, Hc'.
Qed.

(** Rotating a master key re-wraps the data key and nothing else: nonce,
    ciphertext and label stay as they are, the wrap now names the new provider, and a
    chain that holds it reads exactly what the old chain read, failures of the value
    decryption included. *)
Theorem rewrap_keeps_value (s s' : SecretV2) (old : ProviderChain) (new : KeyProvider) (r r' : Rng) :
  KeyProviderLaws new → rewrap s old new r = (Ok s', r') →
  s2_nonce s' = s2_nonce s ∧ s2_ciphertext s' = s2_ciphertext s ∧ s2_aad s' = s2_aad s ∧
  wk_key_ref (s2_wrapped_dk s') = active_key_ref new ∧
  ∃ l dk, aad_to_bytes (s2_aad s) = Ok l ∧ chain_unwrap old (s2_wrapped_dk s) l = Ok dk ∧
    ∀ chain, new ∈ chain_providers chain → honest chain (s2_wrapped_dk s') l dk →
      v2_decrypt s' chain = v2_decrypt s old.
Proof.
  intros Hnew. unfold rewrap. rewrite M_bind_Ok. intros (l & r0 & [= Hl <-] & Hs).
  apply M_bind_Ok in Hs as (dk & r1 & [= Hdk <-] & Hs). apply M_bind_Ok in Hs as (w & r2 & Hw & [= <- <-]).
  simpl. do 3 (split; [done|]). split; [by eapply wrap_key_ref|]. exists l, dk. do 2 (split; [done|]).
  intros chain Hin Hh. unfold v2_decrypt. simpl. rewrite Hl. simpl. rewrite Hdk. simpl.
  rewrite (chain_unwrap_honest chain w l dk new) by (done || by eapply unwrap_wrapped). done.
Qed.
End envelopes.

(** ** Recipients *)
Section recipients.
Context `{Random, AeadLaws, AadCodec}.

Lemma first_open_Some chain l ws dk : first_open chain l ws = Some dk →
  ∃ w, w ∈ ws ∧ chain_unwrap chain w l = Ok dk.
Proof.
  induction ws as [|w ws IH]; [done|]. simpl. destruct (chain_unwrap chain w l) eqn:Hu.
  - intros [= ->]. exists w. split; [by left|done].
  - intros (w' & Hin & ?)%IH. exists w'. split; [by right|done].
Qed.

Lemma first_open_None chain l ws : first_open chain l ws = None ↔
  ∀ w p dk, w ∈ ws → p ∈ chain_providers chain → unwrap_dk p w l ≠ Ok dk.
Proof.
  induction ws as [|w ws IH]; simpl.
  - split; [|done]. by intros _ w p dk Hw%elem_of_nil.
  - destruct (chain_unwrap chain w l) as [dk|e] eqn:Hu.
    + split; [done|]. intros Hn. apply chain_unwrap_from in Hu as (p & Hp & Hu). by destruct (Hn w p dk ltac:(by left)).
    + rewrite IH. apply chain_unwrap_Err in Hu as [_ Hu]. split.
      * intros Hn w' p dk [->|Hw']%elem_of_cons; [apply Hu|by apply Hn].
      * intros Hn w' p dk Hw'. apply Hn. by right.
Qed.

(** The wraps of [ps], in order: each names its provider and yields the data key. *)
Definition wraps_of (dk : Key) (l : bytes) : list KeyProvider → list WrappedKey → Prop :=
  Forall2 (λ p w, wk_key_ref w = active_key_ref p ∧ unwrap_dk p w l = Ok dk).

Lemma wrap_all_Ok dk l ps r ws r' : Forall KeyProviderLaws ps → wrap_all dk l ps r = (Ok ws, r') → wraps_of dk l ps ws.
Proof.
  intros Hps. revert r ws r'. induction Hps as [|p ps Hp Hps IH]; intros r ws r'; simpl.
  - intros [= <- _]. apply Forall2_nil_2.
  - rewrite M_bind_Ok. intros (w & r1 & Hw & Hs). apply M_bind_Ok in Hs as (ws' & r2 & Hws & [= <- _]).
    apply Forall2_cons_2; [|by eapply IH]. split; [by eapply wrap_key_ref|by eapply unwrap_wrapped].
Qed.

Lemma wraps_of_refs dk l ps ws : wraps_of dk l ps ws → wk_key_ref <$> ws = active_key_ref <$> ps.
Proof. induction 1 as [|p w ps ws [? _] _ IH]; simpl; [done|by f_equal]. Qed.

Lemma wraps_of_filter dk l (P : string → Prop) `{∀ x, Decision (P x)} ps ws : wraps_of dk l ps ws →
  wraps_of dk l (filter (λ p, P (active_key_ref p)) ps) (filter (λ w, P (wk_key_ref w)) ws).
Proof.
  induction 1 as [|p w ps ws [Hr Hu] _ IH]; [apply Forall2_nil_2|].
  rewrite !filter_cons, Hr. case_decide; [by apply Forall2_cons_2|done].
Qed.

(** A chain that holds a recipient and is honest about all wraps recovers the key. *)
Lemma first_open_recipient dk l ps ws chain p : wraps_of dk l ps ws → p ∈ ps → p ∈ chain_providers chain →
  (∀ w, w ∈ ws → honest chain w l dk) → first_open chain l ws = Some dk.
Proof.
  intros Hws Hp Hin Hh. destruct (first_open chain l ws) as [dk'|] eqn:Ho.
  - apply first_open_Some in Ho as (w & Hw & Hu). apply chain_unwrap_from in Hu as (q & Hq & Hu).
    by rewrite (Hh w Hw q dk' Hq Hu).
  - exfalso. apply list_elem_of_lookup in Hp as [i Hi].
    destruct (Forall2_lookup_l _ _ _ _ _ Hws Hi) as (w & Hw & _ & Hu).
    apply list_elem_of_lookup_2 in Hw. by apply (proj1 (first_open_None chain l ws) Ho w p dk).
Qed.

Lemma encrypt_for_Ok pt ps aad r s r' : encrypt_for pt ps aad r = (Ok s, r') → ps ≠ [] ∧ ∃ l,
  aad_to_bytes aad = Ok l ∧ mr_aad s = aad ∧
  aead_encrypt (random_bytes r 32) (mr_nonce s) l pt = Some (mr_ciphertext s) ∧
  wrap_all (random_bytes r 32) l ps (r + 1 + 1)%N = (Ok (mr_recipients s), r').
Proof.
  unfold encrypt_for. case_decide as Hps; [done|]. intros Hs. split; [done|]. revert Hs.
  rewrite M_bind_Ok. intros (l & r0 & [= Hl <-] & Hs). exists l.
  apply M_bind_Ok in Hs as (dk & r1 & [= <- <-] & Hs). apply M_bind_Ok in Hs as (n & r2 & [= <- <-] & Hs).
  apply M_bind_Ok in Hs as (ct & r3 & [= Hct <-] & Hs). apply M_bind_Ok in Hs as (w & r4 & Hw & [= <- <-]).
  destruct (aead_encrypt _ _ _ _) eqn:He; naive_solver.
Qed.

(** ** Histories

    The secrets that grants and revocations can make of a fresh one, with the list
    of the providers that are recipients; [l] are the bytes of its label, [dk] its
    data key, and a granting chain is honest about the wraps it opens. *)
Inductive mr_history (pt : bytes) (aad : SecretAad) (l : bytes) (dk : Key)
    : list KeyProvider → MultiRecipientSecret → Prop :=
| History_new ps r s r' : Forall KeyProviderLaws ps → aad_to_bytes aad = Ok l → dk = random_bytes r 32 →
    encrypt_for pt ps aad r = (Ok s, r') → mr_history pt aad l dk ps s
| History_grant ps s chain p r s' r' : mr_history pt aad l dk ps s → KeyProviderLaws p →
    (∀ w, w ∈ mr_recipients s → honest chain w l dk) → grant s chain p r = (Ok s', r') →
    mr_history pt aad l dk
      (if decide (active_key_ref p ∈ active_key_ref <$> ps) then ps else ps ++ [p]) s'
| History_revoke ps s k b s' : mr_history pt aad l dk ps s → revoke s k = Ok (b, s') →
    mr_history pt aad l dk (filter (λ p, active_key_ref p ≠ k) ps) s'.

Record mr_inv (pt : bytes) (aad : SecretAad) (l : bytes) (dk : Key) (ps : list KeyProvider)
    (s : MultiRecipientSecret) : Prop := {
  mi_some : ps ≠ [];
  mi_aad : mr_aad s = aad;
  mi_bytes : aad_to_bytes aad = Ok l;
  mi_value : aead_encrypt dk (mr_nonce s) l pt = Some (mr_ciphertext s);
  mi_wraps : wraps_of dk l ps (mr_recipients s)
}.

Lemma grant_inv pt aad l dk ps s chain p r s' r' : mr_inv pt aad l dk ps s → KeyProviderLaws p →
  (∀ w, w ∈ mr_recipients s → honest chain w l dk) → grant s chain p r = (Ok s', r') →
  mr_nonce s' = mr_nonce s ∧ mr_ciphertext s' = mr_ciphertext s ∧
  mr_inv pt aad l dk (if decide (active_key_ref p ∈ active_key_ref <$> ps) then ps else ps ++ [p]) s'.
Proof.
  intros [Hne Ha Hl Hv Hws] Hp Hh. unfold grant. rewrite M_bind_Ok, Ha, Hl. intros (l0 & r0 & [= <- <-] & Hs).
  apply M_bind_Ok in Hs as (dk' & r1 & [= Hdk <-] & Hs). apply M_bind_Ok in Hs as (w & r2 & Hw & Hs).
  assert (dk' = dk) as ->.
  { destruct (first_open _ _ _) as [d|] eqn:Ho; [|done]. injection Hdk as ->.
    apply first_open_Some in Ho as (w0 & Hw0 & Hu). apply chain_unwrap_from in Hu as (q & Hq & Hu).
    by apply (Hh w0 Hw0 q). }
  pose proof (wrap_key_ref _ _ _ _ _ Hw) as Hr. pose proof (unwrap_wrapped _ _ _ _ _ Hw) as Hu.
  assert (existsb (λ w0, bool_decide (wk_key_ref w0 = wk_key_ref w)) (mr_recipients s) = true ↔
    active_key_ref p ∈ active_key_ref <$> ps) as Hex.
  { rewrite <- (wraps_of_refs _ _ _ _ Hws), existsb_exists, list_elem_of_fmap, <- Hr. split.
    - intros (x & Hx & Hd%bool_decide_eq_true). exists x. split; [done|by apply list_elem_of_In].
    - intros (x & Hx & Hin). exists x. split; [by apply list_elem_of_In|by apply bool_decide_eq_true]. }
  destruct (existsb _ _); injection Hs as <- <-; simpl; do 2 (split; [done|]).
  - rewrite decide_True by by apply Hex. by constructor.
  - rewrite decide_False by (intros Hin; by apply Hex in Hin). constructor; simpl; try done.
    + by destruct ps.
    + apply Forall2_app; [done|]. by repeat constructor.
Qed.

(** ** [revoke], on every branch *)
Lemma revoke_spec s k : revoke s k =
  if decide (k ∈ wk_key_ref <$> mr_recipients s) then
    if decide (filter (λ w, wk_key_ref w ≠ k) (mr_recipients s) = [])
    then Err (Codec "cannot revoke the last recipient of a secret")
    else Ok (true, set_recipients s (filter (λ w, wk_key_ref w ≠ k) (mr_recipients s)))
  else Ok (false, s).
Proof.
  unfold revoke. set (ws := mr_recipients s).
  assert (length ws = length (filter (λ w, wk_key_ref w = k) ws) + length (filter (λ w, wk_key_ref w ≠ k) ws)) as Hlen.
  { induction ws as [|w ws IH]; [done|]. rewrite !filter_cons.
    destruct (decide (wk_key_ref w = k)); rewrite ?(decide_False (P := ¬ _)), ?(decide_True (P := ¬ _)) by (done || tauto); simpl; lia. }
  assert (length (filter (λ w, wk_key_ref w = k) ws) = 0 ↔ k ∉ wk_key_ref <$> ws) as Hzero.
  { rewrite length_zero_iff_nil. split.
    - intros Hn (w & -> & Hw)%list_elem_of_fmap. assert (w ∈ ([] : list WrappedKey)) as Hx; [|by apply elem_of_nil in Hx].
      rewrite <- Hn. by apply list_elem_of_filter.
    - intros Hn. apply filter_none. intros w Hw <-. apply Hn. apply list_elem_of_fmap. eauto. }
  destruct (decide (k ∈ wk_key_ref <$> ws)) as [Hk|Hk].
  - rewrite (decide_False (P := _ = 0)) by tauto. destruct (decide (filter (λ w, wk_key_ref w ≠ k) ws = [])) as [He|He].
    + rewrite He in Hlen. simpl in Hlen. by rewrite decide_True by lia.
    + rewrite decide_False; [done|]. destruct (filter (λ w, wk_key_ref w ≠ k) ws); [done|simpl in *; lia].
  - by rewrite decide_True by by apply Hzero.
Qed.

Lemma filter_refs_nil k ps ws dk l : wraps_of dk l ps ws →
  filter (λ w, wk_key_ref w ≠ k) ws ≠ [] → filter (λ p, active_key_ref p ≠ k) ps ≠ [].
Proof.
  intros Hws%(wraps_of_filter dk l (λ x, x ≠ k)) Hn Hp. rewrite Hp in Hws. by inversion Hws.
Qed.

Lemma revoke_inv pt aad l dk ps s k b s' : mr_inv pt aad l dk ps s → revoke s k = Ok (b, s') →
  mr_nonce s' = mr_nonce s ∧ mr_ciphertext s' = mr_ciphertext s ∧
  mr_inv pt aad l dk (filter (λ p, active_key_ref p ≠ k) ps) s'.
Proof.
  intros [Hne Ha Hl Hv Hws]. rewrite revoke_spec. case_decide as Hk; [case_decide as Hf; [done|]|]; intros [= <- <-].
  - simpl. do 2 (split; [done|]). constructor; simpl; try done.
    + by eapply filter_refs_nil.
    + exact (wraps_of_filter dk l (λ x, x ≠ k) _ _ Hws).
  - do 2 (split; [done|]). assert (filter (λ p, active_key_ref p ≠ k) ps = ps) as ->; [|by constructor].
    apply filter_all. intros p Hp <-. apply Hk. rewrite (wraps_of_refs _ _ _ _ Hws). by apply list_elem_of_fmap_2.
Qed.

Lemma history_inv pt aad l dk ps s : mr_history pt aad l dk ps s → mr_inv pt aad l dk ps s.
Proof.
  induction 1 as [ps r s r' Hps Hl -> Hs|ps s chain p r s' r' _ IH Hp Hh Hg|ps s k b s' _ IH Hr].
  - apply encrypt_for_Ok in Hs as (Hne & l' & Hl' & Ha & He & Hw). rewrite Hl in Hl'. injection Hl' as <-.
    constructor; [done..|]. by eapply wrap_all_Ok.
  - by eapply grant_inv in Hg as (_ & _ & ?).
  - by eapply revoke_inv in Hr as (_ & _ & ?).
Qed.

(** [C37] Over any history of grants and revocations a multi-recipient secret is wrapped for exactly
    the providers (known by their key references) that were granted and not revoked since, never
    for none; every one of them reads the plaintext through an honest chain, and a chain that
    can open none of the current wraps gets [DecryptionFailed], so that a revoked recipient
    needs a current one's key. *)
Theorem recipients_read (pt : bytes) (aad : SecretAad) (l : bytes) (dk : Key) (ps : list KeyProvider)
    (s : MultiRecipientSecret) :
  mr_history pt aad l dk ps s →
  ps ≠ [] ∧ wk_key_ref <$> mr_recipients s = active_key_ref <$> ps ∧
  (∀ p chain, p ∈ ps → p ∈ chain_providers chain →
     (∀ w, w ∈ mr_recipients s → honest chain w l dk) → mr_decrypt s chain = Ok pt) ∧
  (∀ chain, (∀ w p dk', w ∈ mr_recipients s → p ∈ chain_providers chain → unwrap_dk p w l ≠ Ok dk') →
     mr_decrypt s chain = Err DecryptionFailed).
Proof.
  intros [Hne Ha Hl Hv Hws]%history_inv. split; [done|]. split; [by eapply wraps_of_refs|]. split.
  - intros p chain Hp Hin Hh. unfold mr_decrypt. rewrite Ha, Hl. simpl.
    rewrite (first_open_recipient dk l ps _ chain p) by done.
    apply aead_decrypt_iff in Hv. by rewrite Hv.
  - intros chain Hn. unfold mr_decrypt. rewrite Ha, Hl. simpl. by rewrite (proj2 (first_open_None _ _ _) Hn).
Qed.
End recipients.

(** ** A concrete cipher

    The associated data are written in front of the message, behind key and nonce:
    not secret, but exactly as binding as the laws ask. *)
Definition toy_prefix (k : Key) (n : Nonce) (a : bytes) : bytes :=
  vec_to_list k ++ vec_to_list n ++ to_le 8 (blen a) ++ a.
Definition toy_aead : Aead := {|
  aead_encrypt k n a m := Some (toy_prefix k n a ++ m);
  aead_decrypt k n a c :=
    let p := toy_prefix k n a in
    if decide (take (length p) c = p) then Some (drop (length p) c) else None
|}.
Lemma toy_aead_laws : @AeadLaws toy_aead.
Proof.
  split. intros k n a c m. simpl. set (p := toy_prefix k n a). split.
  - case_decide as Hp; [|done]. intros [= <-]. f_equal. rewrite <- Hp at 1. apply take_drop.
  - intros [= <-]. by rewrite take_app_length, drop_app_length, decide_True.
Qed.
Definition toy_random : Random := λ k n, pad_vec n [as_u8 k].
Definition toy_aad : AadCodec := λ a,
  if (aad_version a <? 256)%N
  then Ok (as_u8 (aad_version a) :: match aad_label a with None => [] | Some l => x01 :: str_bytes l end)
  else Err (Codec "version").
Lemma toy_aad_laws : @AadCodecLaws toy_aad.
Proof.
  split. intros [v1 l1] [v2 l2] l. unfold aad_to_bytes, toy_aad. simpl.
  destruct (v1 <? 256)%N eqn:H1; [|done]. destruct (v2 <? 256)%N eqn:H2; [|done]. intros [= <-] [= Hv Hl].
  apply N.ltb_lt in H1, H2. apply (f_equal u8) in Hv. rewrite !u8_as_u8, !N.mod_small in Hv by done.
  subst. destruct l1 as [a|], l2 as [b|]; [|done..|done]. injection Hl as Hl.
  apply (f_equal bytes_str) in Hl. rewrite !bytes_str_bytes in Hl. by subst.
Qed.

Section demo.
Local Existing Instance toy_random.
Local Existing Instance toy_aead.
Local Existing Instance toy_aead_laws.
Local Existing Instance toy_aad.
Local Existing Instance toy_aad_laws.
Local Existing Instance toy_codec.

Definition ex_key (b : byte) : Key := pad_vec 32 [b].
Definition ex_local (b : byte) : LocalKeyProvider := local_new (ex_key b) "env".
Definition ex_provider (b : byte) : KeyProvider := local_provider (ex_local b).
Definition ex_aad : SecretAad := aad_v2 (Some PROTECTED).
Definition ex_value : bytes := str_bytes "hunter2".
Definition ex_envelope : res SecretV2 := (encrypt_envelope ex_value (ex_provider x07) ex_aad 0%N).1.
Definition ex_secret : SecretV2 :=
  match ex_envelope with Ok s => s | Err _ => MkSecretV2 (MkWrappedKey "" []) (pad_vec 12 []) [] ex_aad end.

Lemma ex_sealed : encrypt_envelope ex_value (ex_provider x07) ex_aad 0%N = (Ok ex_secret, 3%N).
Proof. vm_compute. reflexivity. Qed.

(** In this cipher a local provider unwraps at most one key from a wrap. *)
Lemma ex_honest b w l dk : local_unwrap_dk (ex_local b) w l = Ok dk → honest (with_provider (ex_provider b)) w l dk.
Proof. intros Hu p dk' ->%list_elem_of_singleton Hu'. simpl in Hu'. congruence. Qed.

Lemma envelope_opens_witness : v2_decrypt ex_secret (with_provider (ex_provider x07)) = Ok ex_value ∧
  v2_decrypt ex_secret (with_provider (ex_provider x08)) = Err DecryptionFailed.
Proof.
  destruct (envelope_opens ex_value (ex_provider x07) ex_aad 0%N 3%N ex_secret (local_laws _) ex_sealed)
    as (_ & Hopen & Hshut). split.
  - eapply Hopen; [by left|reflexivity|]. apply ex_honest. vm_compute. reflexivity.
  - eapply Hshut; [reflexivity|]. intros q dk ->%list_elem_of_singleton Hu. vm_compute in Hu. discriminate Hu.
Defined.

Lemma envelope_binds_witness : v2_decrypt ex_secret (with_provider (ex_provider x07)) = Ok ex_value ∧
  ∃ l, aad_to_bytes ex_aad = Ok l.
Proof.
  assert (v2_decrypt ex_secret (with_provider (ex_provider x07)) = Ok ex_value) as Hd by (vm_compute; reflexivity).
  split; [exact Hd|].
  destruct (envelope_binds ex_value (ex_local x07) ex_aad ex_aad 0%N 3%N ex_secret (s2_wrapped_dk ex_secret) ex_value ex_sealed)
    as (l & _ & _ & Hl & _); [vm_compute; reflexivity|]. exists l. exact Hl.
Defined.

Definition ex_rewrapped : SecretV2 :=
  match (rewrap ex_secret (with_provider (ex_provider x07)) (ex_provider x08) 3%N).1 with Ok s => s | Err _ => ex_secret end.

Lemma rewrap_keeps_value_witness : s2_ciphertext ex_rewrapped = s2_ciphertext ex_secret ∧
  v2_decrypt ex_rewrapped (with_provider (ex_provider x08)) = v2_decrypt ex_secret (with_provider (ex_provider x07)).
Proof.
  destruct (rewrap_keeps_value ex_secret ex_rewrapped (with_provider (ex_provider x07)) (ex_provider x08) 3%N 4%N)
    as (_ & Hc & _ & _ & l & dk & Hl & Hdk & Hread); [apply local_laws|vm_compute; reflexivity|].
  split; [exact Hc|]. apply Hread; [by left|]. apply ex_honest.
  vm_compute in Hl. injection Hl as <-. vm_compute in Hdk. injection Hdk as <-. vm_compute. reflexivity.
Defined.

(** Encrypted for one recipient, granted to a second, the first revoked. *)
Definition ex_multi0 : res MultiRecipientSecret := (encrypt_for ex_value [ex_provider x07] ex_aad 0%N).1.
Definition ex_multi1 : res MultiRecipientSecret :=
  s ← ex_multi0; (grant s (with_provider (ex_provider x07)) (ex_provider x08) 3%N).1.
Definition ex_multi2 : res MultiRecipientSecret :=
  s ← ex_multi1; r ← revoke s (active_key_ref (ex_provider x07)); Ok r.2.
Definition ex_mr (r : res MultiRecipientSecret) : MultiRecipientSecret :=
  match r with Ok s => s | Err _ => MkMulti [] (pad_vec 12 []) [] ex_aad end.
Definition ex_aad_bytes : bytes := match aad_to_bytes ex_aad with Ok l => l | Err _ => [] end.

Lemma ex_history : mr_history ex_value ex_aad ex_aad_bytes (random_bytes 0%N 32) [ex_provider x08] (ex_mr ex_multi2).
Proof.
  assert (mr_history ex_value ex_aad ex_aad_bytes (random_bytes 0%N 32) [ex_provider x07] (ex_mr ex_multi0)) as H0.
  { eapply (History_new _ _ _ _ _ 0%N _ 3%N); [repeat constructor; apply local_laws|reflexivity|reflexivity|vm_compute; reflexivity]. }
  assert (mr_history ex_value ex_aad ex_aad_bytes (random_bytes 0%N 32) [ex_provider x07; ex_provider x08] (ex_mr ex_multi1)) as H1.
  { refine (History_grant _ _ _ _ _ _ (with_provider (ex_provider x07)) (ex_provider x08) 3%N _ 4%N H0 (local_laws _) _ _).
    - intros w Hw. apply ex_honest. destruct (mr_recipients (ex_mr ex_multi0)) as [|w0 [|? ?]] eqn:He; try (vm_compute in He; discriminate He).
      apply list_elem_of_singleton in Hw as ->. assert (w0 = hd (MkWrappedKey "" []) (mr_recipients (ex_mr ex_multi0))) as -> by by rewrite He.
      vm_compute. reflexivity.
    - vm_compute. reflexivity. }
  refine (History_revoke _ _ _ _ _ _ (active_key_ref (ex_provider x07)) true _ H1 _). vm_compute. reflexivity.
Qed.

Lemma recipients_read_witness : mr_decrypt (ex_mr ex_multi2) (with_provider (ex_provider x08)) = Ok ex_value ∧
  mr_decrypt (ex_mr ex_multi2) (with_provider (ex_provider x07)) = Err DecryptionFailed.
Proof.
  destruct (recipients_read ex_value ex_aad ex_aad_bytes (random_bytes 0%N 32) [ex_provider x08] (ex_mr ex_multi2) ex_history)
    as (_ & _ & Hread & Hshut).
  assert (∀ w, w ∈ mr_recipients (ex_mr ex_multi2) → w = hd (MkWrappedKey "" []) (mr_recipients (ex_mr ex_multi2))) as Hone.
  { intros w Hw. destruct (mr_recipients (ex_mr ex_multi2)) as [|w0 [|? ?]] eqn:He; try (vm_compute in He; discriminate He).
    by apply list_elem_of_singleton in Hw. }
  split.
  - apply (Hread (ex_provider x08)); [by left|by left|]. intros w ->%Hone. apply ex_honest. vm_compute. reflexivity.
  - apply Hshut. intros w p dk ->%Hone ->%list_elem_of_singleton Hu. vm_compute in Hu. discriminate Hu.
Defined.
End demo.
