(* ===== verification/SecretStore.v ===== *)
(** * SecretStore: the secret operations of the object store

    [put_secret], [get_secret], the envelope and recipient operations of
    src/src/store/mod.rs and [Repository::rekey] of src/src/repo/mod.rs, over any
    [StorageBackend]; the state is the backend together with the random generator.

    The theorems: what is put is read back; a granted recipient reads what the granter
    read; rotating master keys changes what no id reads, leaves every stored object in
    place, and returns for each old id a new one that reads the same under the new
    provider alone.  Provisos about ids are local: the ids the call returned were not
    in use. *)

From S2P Require Import Prelude Bytes Lattice Ids Objects Store Crypto Secrets.

Definition err_secret_not_found (id : ObjectId) : Error := Storage ("secret not found: " +:+ id_to_string id).

(** ** Reading *)
Section reading.
Context `{Aead, AadCodec}.

(** [for k in legacy_keys { if let Ok(pt) = s.decrypt(k) { return .. } }] *)
Fixpoint legacy_open (s : Secret) (keys : list Key) : option bytes :=
  match keys with
  | [] => None
  | k :: keys => match secret_decrypt s k with Ok pt => Some pt | Err _ => legacy_open s keys end
  end.

(** What [get_secret] and [get_secret_resolved] do with the object at the id. *)
Definition open_secret (obj : option Object) (key : Key) : res (option bytes) :=
  match obj with
  | None => Ok None
  | Some (OSecret s) => pt ← secret_decrypt s key; Ok (Some pt)
  | Some _ => Err (Codec "not a secret")
  end.
Definition open_resolved (obj : option Object) (chain : ProviderChain) : res (option bytes) :=
  match obj with
  | None => Ok None
  | Some (OSecretV2 s) => pt ← v2_decrypt s chain; Ok (Some pt)
  | Some (OMultiRecipientSecret s) => pt ← mr_decrypt s chain; Ok (Some pt)
  | Some (OSecret s) => pt ← ok_or (legacy_open s (legacy_keys chain)) DecryptionFailed; Ok (Some pt)
  | Some _ => Err (Codec "not a secret")
  end.

(** The two reads on the decoded view of a store. *)
Definition os_get_secret (O : objects) (id : ObjectId) (key : Key) : res (option bytes) :=
  obj ← os_get O id; open_secret obj key.
Definition os_get_secret_resolved (O : objects) (id : ObjectId) (chain : ProviderChain) : res (option bytes) :=
  obj ← os_get O id; open_resolved obj chain.
End reading.

(** ** The operations *)
Section store.
Context {B : Type} `{StorageBackend B, ObjectCodec, Random, Aead, AadCodec}.
Abbreviation St := (B * Rng)%type.

Definition on_store {A} (m : M B A) : M St A := λ s, let '(r, b) := m s.1 in (r, (b, s.2)).
Definition on_rng {A} (m : M Rng A) : M St A := λ s, let '(r, k) := m s.2 in (r, (s.1, k)).

Definition put_secret (plaintext : bytes) (key : Key) : M St ObjectId :=
  secret ← on_rng (secret_encrypt plaintext key); on_store (put (OSecret secret)).

Definition get_secret (b : B) (id : ObjectId) (key : Key) : res (option bytes) :=
  obj ← get b id; open_secret obj key.

Definition put_secret_enveloped (plaintext : bytes) (provider : KeyProvider) (aad : SecretAad) : M St ObjectId :=
  s ← on_rng (encrypt_envelope plaintext provider aad); on_store (put (OSecretV2 s)).

Definition put_multi_recipient (plaintext : bytes) (recipients : list KeyProvider) (aad : SecretAad)
    : M St ObjectId :=
  s ← on_rng (encrypt_for plaintext recipients aad); on_store (put (OMultiRecipientSecret s)).

Definition grant_secret_recipient (id : ObjectId) (granting_chain : ProviderChain)
    (new_recipient : KeyProvider) : M St ObjectId :=
  obj ← on_store (gets (λ b, get b id));
  match obj with
  | Some (OMultiRecipientSecret s) =>
      s ← on_rng (grant s granting_chain new_recipient);
      on_store (put (OMultiRecipientSecret s))
  | Some (OSecretV2 s) =>
      plaintext ← lift_res (v2_decrypt s granting_chain);
      granter ← lift_res (chain_active granting_chain);
      put_multi_recipient plaintext [granter; new_recipient] (s2_aad s)
  | Some _ => throw (Codec "not an envelope secret")
  | None => throw (err_secret_not_found id)
  end.

Definition revoke_secret_recipient (id : ObjectId) (key_ref : string) : M St ObjectId :=
  obj ← on_store (gets (λ b, get b id));
  match obj with
  | Some (OMultiRecipientSecret s) =>
      r ← lift_res (revoke s key_ref);
      if negb r.1 then throw (Codec (key_ref +:+ " is not a recipient of this secret"))
      else on_store (put (OMultiRecipientSecret r.2))
  | Some _ => throw (Codec "not a multi-recipient secret")
  | None => throw (err_secret_not_found id)
  end.

Definition get_secret_resolved (b : B) (id : ObjectId) (chain : ProviderChain) : res (option bytes) :=
  obj ← get b id; open_resolved obj chain.

(** The body of the loop of [rekey], and the loop. *)
Definition rekey_one (id : ObjectId) (old : ProviderChain) (new : KeyProvider) : M St ObjectId :=
  obj ← on_store (gets (λ b, get b id));
  match obj with
  | Some (OSecretV2 s) => rewrapped ← on_rng (rewrap s old new); on_store (put (OSecretV2 rewrapped))
  | Some (OSecret v1) =>
      pt ← lift_res (ok_or (legacy_open v1 (legacy_keys old)) DecryptionFailed);
      put_secret_enveloped pt new (aad_v2 None)
  | Some _ => throw (Codec ("not a secret: " +:+ id_to_string id))
  | None => throw (err_secret_not_found id)
  end.
Fixpoint rekey (ids : list ObjectId) (old : ProviderChain) (new : KeyProvider)
    : M St (list (ObjectId * ObjectId)) :=
  match ids with
  | [] => mret []
  | id :: ids =>
      new_id ← rekey_one id old new;
      mapping ← rekey ids old new;
      mret ((id, new_id) :: mapping)
  end.

Lemma on_store_Ok {A} (m : M B A) s a s' : on_store m s = (Ok a, s') ↔ ∃ b', m s.1 = (Ok a, b') ∧ s' = (b', s.2).
Proof. unfold on_store. destruct (m s.1); naive_solver. Qed.
Lemma on_rng_Ok {A} (m : M Rng A) s a s' : on_rng m s = (Ok a, s') ↔ ∃ k, m s.2 = (Ok a, k) ∧ s' = (s.1, k).
Proof. unfold on_rng. destruct (m s.2); naive_solver. Qed.
End store.

(** ** Facts *)
Section facts.
Context {B : Type} `{StorageLaws B, !ObjectCodec, !ObjectCodecLaws, Random, AeadLaws, AadCodec}.
Implicit Types (b : B) (r : Rng).

Lemma get_secret_resolved_decoded b id chain v : sb_inv b → get b id = Ok v →
  get_secret_resolved b id chain = os_get_secret_resolved (decoded b) id chain.
Proof.
  intros Hinv Hg. unfold get_secret_resolved, os_get_secret_resolved.
  by rewrite Hg, (get_Ok_decoded _ _ _ Hinv Hg).
Qed.

Lemma put_fresh obj x b b' : sb_inv b → put obj b = (Ok x, b') → sb_view b !! x = None →
  sb_inv b' ∧ decoded b' = <[x := Ok obj]> (decoded b).
Proof.
  intros Hinv Hp Hx. destruct (put_serialize _ _ _ _ Hp) as (data & Hs & Hid).
  rewrite (put_put_raw obj data b Hs) in Hp. destruct (put_raw_Ok _ _ _ _ Hinv Hp) as (Hinv' & _ & Hv).
  rewrite Hx in Hv. split; [done|]. unfold decoded. by rewrite Hv, fmap_insert, (deserialize_serialize _ _ Hs).
Qed.

Lemma decoded_None b x : decoded b !! x = None ↔ sb_view b !! x = None.
Proof. unfold decoded. by rewrite lookup_fmap, fmap_None. Qed.

Lemma os_get_insert (O : objects) x obj : os_get (<[x := Ok obj]> O) x = Ok (Some obj).
Proof. unfold os_get. by rewrite lookup_insert_eq. Qed.

(** Reads at an id that is stored survive any growth of the store. *)
Lemma os_resolved_subset (O O' : objects) id chain v : O ⊆ O' → os_get O id = Ok (Some v) →
  os_get_secret_resolved O' id chain = os_get_secret_resolved O id chain.
Proof.
  intros Hsub Hv. unfold os_get_secret_resolved. rewrite Hv. apply os_get_Some in Hv.
  eapply lookup_weaken in Hv; [|done]. apply os_get_Some in Hv. by rewrite Hv.
Qed.

(** A provider alone is honest about what it unwraps. *)
Lemma honest_alone p w l dk : unwrap_dk p w l = Ok dk → honest (with_provider p) w l dk.
Proof. intros Hu q dk' ->%list_elem_of_singleton Hu'. congruence. Qed.

Lemma envelope_reads_back pt p aad r s r' : KeyProviderLaws p → encrypt_envelope pt p aad r = (Ok s, r') →
  v2_decrypt s (with_provider p) = Ok pt.
Proof.
  intros Hp (l & Hl & Ha & He & Hw)%encrypt_envelope_Ok. apply v2_decrypt_Ok.
  exists l, (random_bytes r 32). rewrite Ha. split; [done|]. split; [|done].
  pose proof (unwrap_wrapped _ _ _ _ _ Hw) as Hu. eapply chain_unwrap_honest; [by apply honest_alone|by left|done].
Qed.

(** One step of a rotation: what the new id reads under the new provider. *)
Lemma rekey_one_Ok id old new b r x b' r' : sb_inv b → KeyProviderLaws new →
  rekey_one id old new (b, r) = (Ok x, (b', r')) → sb_view b !! x = None →
  ∃ v obj, os_get (decoded b) id = Ok (Some v) ∧ sb_inv b' ∧ decoded b' = <[x := Ok obj]> (decoded b) ∧
    open_resolved (Some obj) (with_provider new) = open_resolved (Some v) old.
Proof.
  intros Hinv Hnew. unfold rekey_one. rewrite M_bind_Ok. intros (v & s & Hg & Hs) Hx.
  apply on_store_Ok in Hg as (b1 & [= Hg <-] & ->). apply get_Ok_decoded in Hg; [|done]. simpl in *.
  destruct v as [[| | |v1| | |v2| | | | | |]|]; try done.
  - apply M_bind_Ok in Hs as (pt & s1 & [= Hpt <-] & Hs). unfold put_secret_enveloped in Hs.
    apply M_bind_Ok in Hs as (s2 & st & (k & He & ->)%on_rng_Ok & (b2 & Hp & Heq)%on_store_Ok). simpl in *.
    injection Heq as -> ->. destruct (put_fresh _ _ _ _ Hinv Hp Hx) as [Hinv' Hd].
    eexists _, _. do 3 (split; [done|]). simpl. rewrite Hpt. by rewrite (envelope_reads_back _ _ _ _ _ _ Hnew He).
  - apply M_bind_Ok in Hs as (s2 & st & (k & He & ->)%on_rng_Ok & (b2 & Hp & Heq)%on_store_Ok). simpl in *.
    injection Heq as -> ->. destruct (put_fresh _ _ _ _ Hinv Hp Hx) as [Hinv' Hd].
    eexists _, _. do 3 (split; [done|]). simpl.
    unfold rewrap in He. apply M_bind_Ok in He as (l & r0 & [= Hl <-] & He).
    apply M_bind_Ok in He as (dk & r1 & [= Hdk <-] & He). apply M_bind_Ok in He as (w & r2 & Hw & [= <- <-]).
    unfold v2_decrypt. simpl. rewrite Hl. simpl. rewrite Hdk. simpl.
    pose proof (unwrap_wrapped _ _ _ _ _ Hw) as Hu.
    by rewrite (chain_unwrap_honest (with_provider new) w l dk new) by (done || by left || by apply honest_alone).
Qed.
(** A chain that can open one wrap and is honest about all of them reads the value. *)
Lemma mr_decrypt_holder s l dk pt chain q w : aad_to_bytes (mr_aad s) = Ok l →
  aead_encrypt dk (mr_nonce s) l pt = Some (mr_ciphertext s) →
  q ∈ chain_providers chain → w ∈ mr_recipients s → unwrap_dk q w l = Ok dk →
  (∀ w, w ∈ mr_recipients s → honest chain w l dk) → mr_decrypt s chain = Ok pt.
Proof.
  intros Hl He Hq Hw Hu Hh. unfold mr_decrypt. rewrite Hl. simpl.
  destruct (first_open chain l (mr_recipients s)) as [dk'|] eqn:Ho.
  - apply first_open_Some in Ho as (w' & Hw' & Hu'). apply chain_unwrap_from in Hu' as (q' & Hq' & Hu').
    rewrite (Hh w' Hw' q' dk' Hq' Hu'). apply aead_decrypt_iff in He. by rewrite He.
  - exfalso. by apply (proj1 (first_open_None _ _ _) Ho w q dk).
Qed.

(** [grant] for a newcomer, and the secret it makes of a chain's reading. *)
Lemma grant_new s chain p r s' r' pt : KeyProviderLaws p → grant s chain p r = (Ok s', r') →
  mr_decrypt s chain = Ok pt → active_key_ref p ∉ wk_key_ref <$> mr_recipients s →
  ∃ l dk w, aad_to_bytes (mr_aad s) = Ok l ∧ aead_encrypt dk (mr_nonce s) l pt = Some (mr_ciphertext s) ∧
    wk_key_ref w = active_key_ref p ∧ unwrap_dk p w l = Ok dk ∧ s' = set_recipients s (mr_recipients s ++ [w]).
Proof.
  intros Hp Hg Hd Hnew. unfold mr_decrypt in Hd. apply bind_Ok in Hd as (l & Hl & Hd).
  destruct (first_open chain l (mr_recipients s)) as [dk|] eqn:Ho; [|done].
  destruct (aead_decrypt _ _ _ _) as [m|] eqn:Ha; [|done]. injection Hd as ->. apply aead_decrypt_iff in Ha.
  unfold grant in Hg. rewrite Hl in Hg. apply M_bind_Ok in Hg as (l0 & r0 & [= <- <-] & Hg). rewrite Ho in Hg.
  apply M_bind_Ok in Hg as (dk0 & r1 & [= <- <-] & Hg). apply M_bind_Ok in Hg as (w & r2 & Hw & Hg).
  pose proof (wrap_key_ref _ _ _ _ _ Hw) as Hr. pose proof (unwrap_wrapped _ _ _ _ _ Hw) as Hu.
  exists l, dk, w. do 4 (split; [done|]).
  destruct (existsb _ _) eqn:Hex; [|by injection Hg as <-]. exfalso. apply Hnew.
  apply existsb_exists in Hex as (y & Hy & He%bool_decide_eq_true). rewrite <- Hr, <- He.
  apply list_elem_of_fmap_2, list_elem_of_In. done.
Qed.
End facts.

(** ** Properties *)
Section theorems.
Context {B : Type} `{StorageLaws B, !ObjectCodec, !ObjectCodecLaws, Random, AeadLaws, AadCodec}.

(** What is put is read back: a secret stored under a raw key with that key, an
    envelope with a chain that holds its provider alone, and the new ids are the only
    change to the store. *)
Theorem secrets_read_back (pt : bytes) (b b' : B) (r r' : Rng) (x : ObjectId) : sb_inv b →
  sb_view b !! x = None →
  (∀ key, put_secret pt key (b, r) = (Ok x, (b', r')) →
     delete x (decoded b') = decoded b ∧ os_get_secret (decoded b') x key = Ok (Some pt)) ∧
  (∀ p aad, KeyProviderLaws p → put_secret_enveloped pt p aad (b, r) = (Ok x, (b', r')) →
     delete x (decoded b') = decoded b ∧ os_get_secret_resolved (decoded b') x (with_provider p) = Ok (Some pt)).
Proof.
  intros Hinv Hx. assert (∀ obj, delete x (<[x := Ok obj]> (decoded b)) = decoded b) as Hdel.
  { intros obj. apply delete_insert_id. by apply decoded_None. }
  split.
  - intros key. unfold put_secret. rewrite M_bind_Ok.
    intros (s & st & (k & He & ->)%on_rng_Ok & (b2 & Hp & [= -> ->])%on_store_Ok).
    destruct (put_fresh _ _ _ _ Hinv Hp Hx) as [_ ->]. split; [done|].
    unfold os_get_secret. rewrite os_get_insert. simpl. by rewrite (secret_decrypt_encrypt _ _ _ _ _ He).
  - intros p aad Hlaws. unfold put_secret_enveloped. rewrite M_bind_Ok.
    intros (s & st & (k & He & ->)%on_rng_Ok & (b2 & Hp & [= -> ->])%on_store_Ok).
    destruct (put_fresh _ _ _ _ Hinv Hp Hx) as [_ ->]. split; [done|].
    unfold os_get_secret_resolved. rewrite os_get_insert. simpl. by rewrite (envelope_reads_back _ _ _ _ _ _ Hlaws He).
Qed.

(** Rotating master keys loses nothing: a [rekey] that succeeds returns one new id
    per given id, in order; every object that was stored still is, unchanged; and each
    new id reads, with nothing but the new provider, exactly what its old id reads
    with the old chain. *)
Theorem rekey_preserves (ids : list ObjectId) (old : ProviderChain) (new : KeyProvider)
    (b b' : B) (r r' : Rng) (mapping : list (ObjectId * ObjectId)) :
  sb_inv b → KeyProviderLaws new → rekey ids old new (b, r) = (Ok mapping, (b', r')) →
  NoDup mapping.*2 → (∀ x, x ∈ mapping.*2 → sb_view b !! x = None) →
  mapping.*1 = ids ∧ decoded b ⊆ decoded b' ∧
  ∀ id x, (id, x) ∈ mapping →
    os_get_secret_resolved (decoded b') x (with_provider new) = os_get_secret_resolved (decoded b') id old.
Proof.
  intros Hinv Hnew. revert b r mapping Hinv. induction ids as [|id ids IH]; intros b r mapping Hinv; simpl.
  - intros [= <- <- <-] _ _. split; [done|]. split; [done|]. by intros id x Hi%elem_of_nil.
  - rewrite M_bind_Ok. intros (x & [b1 r1] & Hone & Hs) Hnd Hfresh.
    apply M_bind_Ok in Hs as (mp & [b2 r2] & Hr & [= <- <- <-]). simpl in *.
    apply NoDup_cons in Hnd as [Hx Hnd].
    destruct (rekey_one_Ok _ _ _ _ _ _ _ _ Hinv Hnew Hone (Hfresh x ltac:(by left))) as (v & obj & Hv & Hinv1 & Hd & Ho).
    destruct (IH b1 r1 mp Hinv1 Hr Hnd) as (Hfst & Hsub & Hread).
    { intros y Hy. apply decoded_None. rewrite Hd, lookup_insert_ne by (intros ->; done).
      apply decoded_None, Hfresh. by right. }
    assert (decoded b ⊆ decoded b1) as Hsub1.
    { rewrite Hd. apply insert_subseteq, decoded_None, Hfresh. by left. }
    split; [by f_equal|]. split; [by etrans|].
    intros i y [[= -> ->]|Hin]%elem_of_cons; [|by apply Hread].
    rewrite (os_resolved_subset (decoded b1) (decoded b2) x (with_provider new) obj);
      [|done|by rewrite Hd; apply os_get_insert].
    rewrite (os_resolved_subset (decoded b) (decoded b2) id old v) by (done || by etrans).
    unfold os_get_secret_resolved. by rewrite Hd, os_get_insert, Hv.
Qed.
(** Granting works for the newcomer and for those who could read before: if the
    granting chain reads a plaintext at the old id, the call adds one
    multi-recipient secret with a wrap under the newcomer's reference, and any chain that can open one of
    its wraps (and is honest about the others) reads the same plaintext at the new
    id.  A secret that already had recipients keeps them, its ciphertext and its
    label, and gains that one wrap. *)
Theorem granted_recipient_reads (id x : ObjectId) (chain : ProviderChain) (p : KeyProvider)
    (b b' : B) (r r' : Rng) (pt : bytes) :
  sb_inv b → KeyProviderLaws p → (∀ g, chain_active chain = Ok g → KeyProviderLaws g) →
  grant_secret_recipient id chain p (b, r) = (Ok x, (b', r')) → sb_view b !! x = None →
  os_get_secret_resolved (decoded b) id chain = Ok (Some pt) →
  (∀ s, decoded b !! id = Some (Ok (OMultiRecipientSecret s)) → active_key_ref p ∉ wk_key_ref <$> mr_recipients s) →
  ∃ s l dk w, decoded b' = <[x := Ok (OMultiRecipientSecret s)]> (decoded b) ∧
    w ∈ mr_recipients s ∧ wk_key_ref w = active_key_ref p ∧ unwrap_dk p w l = Ok dk ∧
    (∀ chain' q v, q ∈ chain_providers chain' → v ∈ mr_recipients s → unwrap_dk q v l = Ok dk →
       (∀ v, v ∈ mr_recipients s → honest chain' v l dk) →
       os_get_secret_resolved (decoded b') x chain' = Ok (Some pt)) ∧
    (∀ s0, decoded b !! id = Some (Ok (OMultiRecipientSecret s0)) → s = set_recipients s0 (mr_recipients s0 ++ [w])).
Proof.
  intros Hinv Hp Hact Hgr Hx Hpt Hnew. unfold grant_secret_recipient in Hgr.
  apply M_bind_Ok in Hgr as (v & st & (b1 & [= Hg <-] & ->)%on_store_Ok & Hs). simpl in Hs.
  apply get_Ok_decoded in Hg; [|done]. unfold os_get_secret_resolved in Hpt. rewrite Hg in Hpt. simpl in Hpt.
  assert (∀ s, sb_inv b' ∧ decoded b' = <[x := Ok (OMultiRecipientSecret s)]> (decoded b) →
    ∀ l dk, aad_to_bytes (mr_aad s) = Ok l → aead_encrypt dk (mr_nonce s) l pt = Some (mr_ciphertext s) →
    ∀ chain' q v, q ∈ chain_providers chain' → v ∈ mr_recipients s → unwrap_dk q v l = Ok dk →
    (∀ v, v ∈ mr_recipients s → honest chain' v l dk) →
    os_get_secret_resolved (decoded b') x chain' = Ok (Some pt)) as Hall.
  { intros s [_ ->] l dk Hl He chain' q w Hq Hw Hu Hh. unfold os_get_secret_resolved. rewrite os_get_insert.
    simpl. by rewrite (mr_decrypt_holder s l dk pt chain' q w). }
  destruct v as [[| | | | | |v2|s0| | | | |]|]; try done.
  - apply bind_Ok in Hpt as (pt' & Hd & [= ->]).
    apply M_bind_Ok in Hs as (pt' & s1 & [= Hd' <-] & Hs). rewrite Hd in Hd'. injection Hd' as <-.
    apply M_bind_Ok in Hs as (g & s2 & [= Hga <-] & Hs). unfold put_multi_recipient in Hs.
    apply M_bind_Ok in Hs as (s & st & (k & He & ->)%on_rng_Ok & (b2 & Hput & [= -> ->])%on_store_Ok).
    apply encrypt_for_Ok in He as (_ & l & Hl & Ha & He & Hw). rewrite <- Ha in Hl.
    cbn [snd fst] in *.
    apply wrap_all_Ok in Hw; [|apply Forall_cons_2; [by apply Hact|by apply Forall_cons_2]].
    pose proof (put_fresh _ _ _ _ Hinv Hput Hx) as Hd'.
    assert (∃ w, w ∈ mr_recipients s ∧ wk_key_ref w = active_key_ref p ∧ unwrap_dk p w l = Ok (random_bytes r 32)) as (w & Hw1 & Hw2 & Hw3).
    { destruct (Forall2_lookup_l _ _ _ 1 p Hw eq_refl) as (w & Hi & ? & ?). exists w.
      split; [by eapply list_elem_of_lookup_2|done]. }
    exists s, l, (random_bytes r 32), w. split; [apply Hd'|]. do 3 (split; [done|]). split; [by apply Hall|].
    intros s0 Hs0. apply os_get_Some in Hs0. by rewrite Hg in Hs0.
  - apply bind_Ok in Hpt as (pt' & Hd & [= ->]).
    apply M_bind_Ok in Hs as (s & st & (k & He & ->)%on_rng_Ok & (b2 & Hput & [= -> ->])%on_store_Ok).
    assert (decoded b !! id = Some (Ok (OMultiRecipientSecret s0))) as Hs0 by by apply os_get_Some.
    destruct (grant_new _ _ _ _ _ _ _ Hp He Hd (Hnew _ Hs0)) as (l & dk & w & Hl & Hv & Hr & Hu & ->).
    pose proof (put_fresh _ _ _ _ Hinv Hput Hx) as Hd'.
    exists (set_recipients s0 (mr_recipients s0 ++ [w])), l, dk, w. split; [apply Hd'|].
    split; [by apply elem_of_app; right; left|]. do 2 (split; [done|]). split; [by apply Hall|].
    intros s1 Hs1. rewrite Hs0 in Hs1. by injection Hs1 as ->.
Qed.
End theorems.

(** ** On concrete data *)
Section demo.
Local Existing Instance toy_random.
Local Existing Instance toy_aead.
Local Existing Instance toy_aead_laws.
Local Existing Instance toy_aad.

Definition ex_shared : MultiRecipientSecret :=
  ex_mr (encrypt_for ex_value [ex_provider x07; ex_provider x08] ex_aad 3%N).1.
Definition ex_secret_table : list (Object * bytes) :=
  [(OSecretV2 ex_secret, [x01]); (OMultiRecipientSecret ex_shared, [x02]); (OSecretV2 ex_rewrapped, [x03])].
Local Instance ex_secret_codec : ObjectCodec := table_codec ex_secret_table.
Lemma ex_secret_codec_laws : ObjectCodecLaws.
Proof. apply table_codec_laws. apply (bool_decide_unpack _). vm_compute. exact I. Qed.
Local Existing Instance ex_secret_codec_laws.

Definition ex_sid (b : byte) : ObjectId := id_of_bytes [b].
Definition ex_store0 : MemoryBackend := {[ ex_sid x01 := [x01] ]}.
Definition ex_chain (b : byte) : ProviderChain := with_provider (ex_provider b).

Lemma secrets_read_back_witness : ∃ b', put_secret_enveloped ex_value (ex_provider x07) ex_aad (∅ : MemoryBackend, 0%N)
    = (Ok (ex_sid x01), (b', 3%N)) ∧
  os_get_secret_resolved (decoded b') (ex_sid x01) (ex_chain x07) = Ok (Some ex_value).
Proof.
  exists ex_store0.
  assert (put_secret_enveloped ex_value (ex_provider x07) ex_aad (∅ : MemoryBackend, 0%N) = (Ok (ex_sid x01), (ex_store0, 3%N))) as Hp
    by (apply (bool_decide_unpack _); vm_compute; exact I).
  split; [exact Hp|].
  refine (proj2 (proj2 (secrets_read_back ex_value (∅ : MemoryBackend) ex_store0 0%N 3%N (ex_sid x01) I eq_refl)
    (ex_provider x07) ex_aad (local_laws _) Hp)).
Defined.

Definition ex_store2 : MemoryBackend := <[ex_sid x03 := [x03]]> ex_store0.

Lemma rekey_preserves_witness :
  rekey [ex_sid x01] (ex_chain x07) (ex_provider x08) (ex_store0, 3%N) = (Ok [(ex_sid x01, ex_sid x03)], (ex_store2, 4%N)) ∧
  os_get_secret_resolved (decoded ex_store2) (ex_sid x03) (ex_chain x08) =
    os_get_secret_resolved (decoded ex_store2) (ex_sid x01) (ex_chain x07).
Proof.
  assert (rekey [ex_sid x01] (ex_chain x07) (ex_provider x08) (ex_store0, 3%N) = (Ok [(ex_sid x01, ex_sid x03)], (ex_store2, 4%N))) as Hr
    by (apply (bool_decide_unpack _); vm_compute; exact I).
  split; [exact Hr|].
  refine (proj2 (proj2 (rekey_preserves [ex_sid x01] (ex_chain x07) (ex_provider x08) ex_store0 ex_store2 3%N 4%N
    [(ex_sid x01, ex_sid x03)] I (local_laws _) Hr _ _)) (ex_sid x01) (ex_sid x03) _).
  - apply NoDup_singleton.
  - intros x ->%list_elem_of_singleton. vm_compute. reflexivity.
  - by left.
Defined.

Definition ex_store1 : MemoryBackend := <[ex_sid x02 := [x02]]> ex_store0.

Lemma granted_recipient_reads_witness :
  grant_secret_recipient (ex_sid x01) (ex_chain x07) (ex_provider x08) (ex_store0, 3%N) = (Ok (ex_sid x02), (ex_store1, 7%N)) ∧
  ∃ s w, decoded ex_store1 !! ex_sid x02 = Some (Ok (OMultiRecipientSecret s)) ∧ w ∈ mr_recipients s ∧
    wk_key_ref w = active_key_ref (ex_provider x08).
Proof.
  assert (grant_secret_recipient (ex_sid x01) (ex_chain x07) (ex_provider x08) (ex_store0, 3%N) = (Ok (ex_sid x02), (ex_store1, 7%N))) as Hg
    by (apply (bool_decide_unpack _); vm_compute; exact I).
  split; [exact Hg|].
  destruct (granted_recipient_reads (ex_sid x01) (ex_sid x02) (ex_chain x07) (ex_provider x08) ex_store0 ex_store1 3%N 7%N ex_value)
    as (s & l & dk & w & Hd & Hw & Hr & _).
  - exact I.
  - apply local_laws.
  - intros g Hgr. injection Hgr as <-. apply local_laws.
  - exact Hg.
  - vm_compute. reflexivity.
  - apply (bool_decide_unpack _). vm_compute. exact I.
  - intros s Hs. vm_compute in Hs. discriminate Hs.
  - exists s, w. split; [rewrite Hd; apply lookup_insert_eq|]. split; [exact Hw|exact Hr].
Defined.
End demo.
