(* ===== verification/Pack.v ===== *)
(** * Pack: the immutable pack format

    src/src/store/pack.rs: a header, one independently compressed frame per object and
    a trailer with the digest of everything before it; and the sorted index of a pack.
    zstd and BLAKE3 are parameters.  The theorems: what the builder writes, the decoder
    reads back, whole ([decode_pack]) or object by object through the index
    ([read_frame_at] at [lookup]); what the decoder accepts is content-addressed and
    within the caps, and it never panics whatever the bytes; the index search with its
    fan-out ranges is the lookup in a table; an index survives its file format. *)

From S2P Require Import Prelude Bytes Ids Objects Store.
From Stdlib Require Import Lia.

(** ** zstd *)

(** [zstd_encode] is [encode_all(_, 3)]; [zstd_stream] is what a streaming decoder with
    the 2^27 window cap does on a slice: it cannot be created, or it delivers bytes and
    then ends or fails; [zstd_decode] is [decode_all].  The laws: decoding undoes
    encoding, and the compressed size is bounded (the format's own bound is tighter). *)
Class Zstd := {
  zstd_encode : bytes → Result string bytes;
  zstd_stream : bytes → Result string (bytes * option string);
  zstd_decode : bytes → Result string bytes
}.
Class ZstdLaws `{Zstd} := {
  zstd_stream_encode data z : zstd_encode data = Ok z → zstd_stream z = Ok (data, None);
  zstd_decode_encode data z : zstd_encode data = Ok z → zstd_decode z = Ok data;
  zstd_encode_bound data z : zstd_encode data = Ok z → (blen z ≤ 2 * blen data + 1024)%N
}.

(** ** Constants *)
Definition PACK_MAGIC : bytes := str_bytes "BOLEPACK".
Definition END_MAGIC : bytes := str_bytes "BOLEPKND".
Definition IDX_MAGIC : bytes := str_bytes "BOLEIDX" ++ [x00].
Definition PACK_VERSION : N := 1.
Definition IDX_VERSION : N := 1.
Definition RECORD_OBJECT : byte := x01.
Definition HEADER_LEN : N := 32.
Definition TRAILER_LEN : N := 40.
Definition MAX_OBJECT_LEN : N := 128 * 1024 * 1024.
Definition MAX_PACK_OBJECTS : N := 8000000.
Definition MAX_PACK_TOTAL_LEN : N := 1024 * 1024 * 1024.

Record PackEntry : Type := MkEntry { pe_id : ObjectId; pe_offset : N; pe_len : N }.

Section format.
Context `{Zstd, ObjectCodec}.

(** Reads at most [max_out + 1] bytes: when that many arrive the reader stops, and a
    failure behind them is never seen. *)
Definition zstd_decode_bounded (zs : bytes) (max_out : N) : res bytes :=
  match zstd_stream zs with
  | Err e => Err (Storage ("pack: zstd init: " +:+ e))
  | Ok (out, failure) =>
      if (max_out + 1 <=? blen out)%N then Ok (take (N.to_nat (max_out + 1)) out)
      else match failure with
           | Some e => Err (Storage ("pack: zstd decode: " +:+ e))
           | None => Ok out
           end
  end.

(** ** [PackBuilder]: the queued objects, in the order they were added *)
Definition PackBuilder : Type := list (ObjectId * bytes).
Definition builder_new : PackBuilder := [].
Definition builder_add (b : PackBuilder) (id : ObjectId) (canonical : bytes) : PackBuilder :=
  b ++ [(id, canonical)].
Definition builder_len (b : PackBuilder) : nat := length b.
Definition builder_is_empty (b : PackBuilder) : bool := bool_decide (b = []).

(** The loop of [finish]: the buffer and the entries grow together. *)
Fixpoint finish_loop (objects : PackBuilder) (buf : bytes) (entries : list PackEntry)
    : res (bytes * list PackEntry) :=
  match objects with
  | [] => Ok (buf, entries)
  | (id, canonical) :: objects =>
      let offset := blen buf in
      match zstd_encode canonical with
      | Err e => Err (Storage ("pack: zstd encode: " +:+ e))
      | Ok zs =>
          let buf := buf ++ [RECORD_OBJECT] in
          let buf := buf ++ id_bytes id in
          let buf := buf ++ write_varint (blen canonical) in
          let buf := buf ++ write_varint (blen zs) in
          let buf := buf ++ zs in
          let len := (blen buf - offset)%N in
          finish_loop objects buf (entries ++ [MkEntry id offset len])
      end
  end.

Definition pack_header (n : N) : bytes :=
  PACK_MAGIC ++ to_le 4 PACK_VERSION ++ to_le 4 0 ++ to_le 8 n ++ replicate 8 x00.

Definition finish (b : PackBuilder) : res (bytes * list PackEntry * vec byte 32) :=
  '(buf, entries) ← finish_loop b (pack_header (N.of_nat (length b))) [];
  let digest := blake3_hash buf in
  Ok (buf ++ END_MAGIC ++ vec_to_list digest, entries, digest).

(** ** Decoding *)

(** [pos + slen] of the body's range is an unchecked [usize] addition. *)
Definition decode_frame (frame : bytes) : res (ObjectId * bytes) :=
  rt ← ok_or (get_at frame 0) (Storage "pack: empty frame");
  if decide (rt ≠ RECORD_OBJECT) then Err (Storage "pack: unknown record type")
  else
    idb ← ok_or (get_range frame 1 33) (Storage "pack: frame id truncated");
    let id := id_of_bytes idb in
    '(ulen, pos) ← read_varint frame 33;
    if (MAX_OBJECT_LEN <? ulen)%N then Err (Storage "pack: object length exceeds cap")
    else
      '(slen, pos) ← read_varint frame pos;
      if (U64 <=? pos + slen)%N then Err (Panic "attempt to add with overflow")
      else
        zs ← ok_or (get_range frame pos (pos + slen)) (Storage "pack: frame body truncated");
        canonical ← zstd_decode_bounded zs ulen;
        if decide (blen canonical ≠ ulen) then Err (Storage "pack: uncompressed length mismatch")
        else if decide (object_id canonical ≠ id) then Err (Storage "pack: frame id does not match content")
        else Ok (id, canonical).

Definition decode_frame_public (frame : bytes) : res (ObjectId * bytes) := decode_frame frame.

Definition read_frame_at (pack : bytes) (offset len : N) : res (ObjectId * bytes) :=
  let e := (offset + len)%N in
  if (e <? U64)%N && (e <=? blen pack)%N then decode_frame (slice pack offset e)
  else Err (Storage "pack: frame range out of bounds").

(** [a.saturating_add(b)] on [u64] *)
Definition saturating_add (a b : N) : N := N.min (a + b) (U64 - 1).

(** The frame loop of [decode_pack]; each turn moves [pos] forward, so the length of
    the body bounds the turns. *)
Fixpoint decode_loop (fuel : nat) (body : bytes) (pos total_out : N) (out : list (ObjectId * bytes))
    : res (list (ObjectId * bytes)) :=
  if (blen body <=? pos)%N then Ok out
  else
    match fuel with
    | O => Err (Panic "out of fuel")
    | S fuel =>
        let frame_start := pos in
        rt ← ok_or (get_at body pos) (Panic "index out of bounds");
        let pos := (pos + 1)%N in
        if decide (rt ≠ RECORD_OBJECT) then Err (Storage "pack: unknown record type")
        else
          let pos := (pos + 32)%N in
          if (blen body <? pos)%N then Err (Storage "pack: frame id truncated")
          else
            '(_, pos) ← read_varint body pos;
            '(slen, pos) ← read_varint body pos;
            let frame_end := (pos + slen)%N in
            if (U64 <=? frame_end)%N || (blen body <? frame_end)%N
            then Err (Storage "pack: frame body truncated")
            else
              '(id, canonical) ← decode_frame (slice body frame_start frame_end);
              let total_out := saturating_add total_out (blen canonical) in
              if (MAX_PACK_TOTAL_LEN <? total_out)%N
              then Err (Storage "pack: total uncompressed size exceeds cap")
              else decode_loop fuel body frame_end total_out (out ++ [(id, canonical)])
    end.

Definition decode_pack (pack : bytes) : res (list (ObjectId * bytes)) :=
  if (blen pack <? HEADER_LEN + TRAILER_LEN)%N then Err (Storage "pack: shorter than header+trailer")
  else if decide (slice pack 0 8 ≠ PACK_MAGIC) then Err (Storage "pack: bad magic")
  else if decide (from_le (slice pack 8 12) ≠ PACK_VERSION) then Err (Storage "pack: unsupported version")
  else
    let count := from_le (slice pack 16 24) in
    if (MAX_PACK_OBJECTS <? count)%N then Err (Storage "pack: object count exceeds cap")
    else
      let body_end := (blen pack - TRAILER_LEN)%N in
      let trailer := slice pack body_end (blen pack) in
      if decide (slice trailer 0 8 ≠ END_MAGIC) then Err (Storage "pack: bad end magic")
      else
        let body := slice pack 0 body_end in
        if decide (vec_to_list (blake3_hash body) ≠ slice trailer 8 40)
        then Err (Storage "pack: digest mismatch")
        else
          out ← decode_loop (length body) body HEADER_LEN 0 [];
          if decide (N.of_nat (length out) ≠ count) then Err (Storage "pack: object count mismatch")
          else Ok out.

(** ** [PackIndex] *)

(** Compares two ids by their bytes: [as_bytes().cmp(as_bytes())]. *)
Fixpoint bytes_cmp (a b : bytes) : comparison :=
  match a, b with
  | [], [] => Eq
  | [], _ :: _ => Lt
  | _ :: _, [] => Gt
  | x :: a, y :: b => match (u8 x ?= u8 y)%N with Eq => bytes_cmp a b | c => c end
  end.
Definition id_cmp (x y : ObjectId) : comparison := bytes_cmp (id_bytes x) (id_bytes y).

(** [slice::binary_search_by] of the standard library: halve the size, moving the base
    to the middle unless the middle is greater; then look at the base. *)
Fixpoint bsearch_loop {A} (f : A → comparison) (l : list A) (fuel base size : nat) : nat :=
  match fuel with
  | O => base
  | S fuel =>
      if decide (1 < size) then
        let half := Nat.div2 size in
        let mid := base + half in
        let base := match f <$> l !! mid with Some Gt => base | _ => mid end in
        bsearch_loop f l fuel base (size - half)
      else base
  end.
Definition binary_search_by {A} (f : A → comparison) (l : list A) : Result nat nat :=
  if decide (length l = 0) then Err 0
  else
    let base := bsearch_loop f l (length l) 0 (length l) in
    match f <$> l !! base with
    | Some Eq => Ok base
    | Some Lt => Err (base + 1)
    | _ => Err base
    end.
(** [slice::partition_point] *)
Definition partition_point {A} (pred : A → bool) (l : list A) : nat :=
  match binary_search_by (λ x, if pred x then Lt else Gt) l with Ok i => i | Err i => i end.

Record PackIndex : Type := MkIndex { idx_entries : list PackEntry; idx_digest : vec byte 32 }.

Definition entry_id_le (a b : PackEntry) : Prop := id_cmp (pe_id a) (pe_id b) ≠ Gt.
#[global] Instance entry_id_le_dec : RelDecision entry_id_le.
Proof. intros a b. unfold entry_id_le. apply _. Defined.

(** [entries.sort_by(...)]: a stable merge sort. *)
Definition index_build (entries : list PackEntry) (digest : vec byte 32) : PackIndex :=
  MkIndex (merge_sort entry_id_le entries) digest.
Definition index_count (i : PackIndex) : nat := length (idx_entries i).
Definition index_ids (i : PackIndex) : list ObjectId := pe_id <$> idx_entries i.

(** [id.as_bytes()[0]] *)
Definition first_byte (x : ObjectId) : N := from_le (slice (id_bytes x) 0 1).

Definition fanout_at (i : PackIndex) (b : N) : nat :=
  partition_point (λ e, (first_byte (pe_id e) <=? b)%N) (idx_entries i).

(** [slice[lo..hi]] panics when [hi < lo]; [None] is the panic, which
    [index_lookup_correct] rules out for a built index. *)
Definition index_lookup (i : PackIndex) (id : ObjectId) : res (option (N * N)) :=
  let first := first_byte id in
  let lo := if decide (first = 0%N) then 0 else fanout_at i (first - 1) in
  let hi := fanout_at i first in
  if decide (hi < lo) then Err (Panic "slice index starts after its end")
  else
    let sl := take (hi - lo) (drop lo (idx_entries i)) in
    Ok (match binary_search_by (λ e, id_cmp (pe_id e) id) sl with
        | Ok k => (λ e, (pe_offset e, pe_len e)) <$> sl !! k
        | Err _ => None
        end).

Definition index_encode (i : PackIndex) : bytes :=
  let es := idx_entries i in
  let buf := IDX_MAGIC ++ to_le 4 IDX_VERSION ++ to_le 4 (N.of_nat (length es)) in
  let buf := buf ++ (seq 0 256 ≫= λ b, to_le 4 (N.of_nat (fanout_at i (N.of_nat b)))) in
  let buf := buf ++ (es ≫= λ e, id_bytes (pe_id e)) in
  let buf := buf ++ (es ≫= λ e, to_le 8 (pe_offset e)) in
  let buf := buf ++ (es ≫= λ e, to_le 8 (pe_len e)) in
  let buf := buf ++ vec_to_list (idx_digest i) in
  buf ++ vec_to_list (blake3_hash buf).

(** The tables behind the fan-out: ids, offsets, lengths and the digest of the pack. *)
Definition index_tables (head : bytes) (n pos : N) : PackIndex :=
  let ids_start := pos in
  let offsets_start := (ids_start + n * 32)%N in
  let lens_start := (offsets_start + n * 8)%N in
  let digest_start := (lens_start + n * 8)%N in
  let entry k :=
    let i := N.of_nat k in
    MkEntry
      (id_of_bytes (slice head (ids_start + i * 32) (ids_start + i * 32 + 32)))
      (from_le (slice head (offsets_start + i * 8) (offsets_start + i * 8 + 8)))
      (from_le (slice head (lens_start + i * 8) (lens_start + i * 8 + 8))) in
  MkIndex (entry <$> seq 0 (N.to_nat n)) (pad_vec 32 (slice head digest_start (digest_start + 32))).

Definition index_parse (data : bytes) : res PackIndex :=
  if (blen data <? 16)%N then Err (Storage "idx: truncated")
  else if decide (slice data 0 8 ≠ IDX_MAGIC) then Err (Storage "idx: bad magic")
  else if decide (from_le (slice data 8 12) ≠ IDX_VERSION) then Err (Storage "idx: unsupported version")
  else
    let n := from_le (slice data 12 16) in
    if (blen data <? 32)%N then Err (Storage "idx: truncated")
    else
      let head := slice data 0 (blen data - 32) in
      let digest := slice data (blen data - 32) (blen data) in
      if decide (vec_to_list (blake3_hash head) ≠ digest) then Err (Storage "idx: digest mismatch")
      else
        let pos := (16 + 256 * 4)%N in
        if (blen head <? pos + (n * 32 + n * 8 + n * 8 + 32))%N then Err (Storage "idx: truncated")
        else Ok (index_tables head n pos).
End format.

(** ** Searching *)

(** The order [binary_search_by] relies on: below, then equal, then above. *)
Definition ordered_by {A} (f : A → comparison) (l : list A) : Prop :=
  ∀ i j x y, i ≤ j → l !! i = Some x → l !! j = Some y →
    (f x = Gt → f y = Gt) ∧ (f y = Lt → f x = Lt).

Lemma bsearch_loop_inv {A} (f : A → comparison) (l : list A) : ordered_by f l → ∀ fuel base size,
  1 ≤ size → base + size ≤ length l → size ≤ fuel + 1 →
  (∀ j y, base + size ≤ j → l !! j = Some y → f y = Gt) →
  (base = 0 ∨ ∃ x, l !! base = Some x ∧ f x ≠ Gt) →
  let b := bsearch_loop f l fuel base size in
  b < length l ∧ (∀ j y, b < j → l !! j = Some y → f y = Gt) ∧
  (b = 0 ∨ ∃ x, l !! b = Some x ∧ f x ≠ Gt).
Proof.
  intros Ho. induction fuel as [|fuel IH]; intros base size Hs Hb Hf Hgt Hbase; simpl.
  - replace size with 1 in * by lia. split_and!; [lia| |done]. intros. eapply Hgt; [|done]. lia.
  - case_decide as Hd; [|replace size with 1 in * by lia; split_and!; [lia| |done]; intros; eapply Hgt; [|done]; lia].
    assert (1 ≤ Nat.div2 size ∧ 2 * Nat.div2 size ≤ size) as Hh.
    { rewrite Nat.div2_div. split; [apply Nat.div_le_lower_bound; lia|apply Nat.Div0.mul_div_le]. }
    destruct (lookup_lt_is_Some_2 l (base + Nat.div2 size)) as [x Hx]; [lia|]. rewrite Hx. simpl.
    destruct (decide (f x = Gt)) as [Hg|Hg].
    + rewrite Hg. apply IH; [lia..| |done]. intros j y Hj Hy.
      eapply (Ho (base + Nat.div2 size) j); [|done..]. lia.
    + replace (match f x with Gt => base | _ => base + Nat.div2 size end) with (base + Nat.div2 size)
        by (destruct (f x); done).
      apply IH; [lia..| |right; eauto]. intros j y Hj Hy. eapply Hgt; [|done]. lia.
Qed.

(** On an ordered slice the search finds an equal element, or the point between what
    is below and what is above. *)
Lemma binary_search_correct {A} (f : A → comparison) (l : list A) : ordered_by f l →
  match binary_search_by f l with
  | Ok i => ∃ x, l !! i = Some x ∧ f x = Eq
  | Err i => i ≤ length l ∧ (∀ j y, j < i → l !! j = Some y → f y = Lt) ∧
      ∀ j y, i ≤ j → l !! j = Some y → f y = Gt
  end.
Proof.
  intros Ho. unfold binary_search_by. case_decide as Hl.
  { destruct l; [|done]. split_and!; [done|done|]. intros j y _. by rewrite lookup_nil. }
  destruct (bsearch_loop_inv f l Ho (length l) 0 (length l)) as (Hb & Hgt & Hbase); [lia..| |by left|].
  { intros j y Hj Hy%lookup_lt_Some. lia. }
  set (b := bsearch_loop f l (length l) 0 (length l)) in *.
  destruct (lookup_lt_is_Some_2 l b Hb) as [x Hx]. rewrite Hx. simpl.
  destruct (f x) eqn:Hfx; [eauto|..].
  - split_and!; [lia| |].
    + intros j y Hj Hy. eapply (Ho j b); [|done..]. lia.
    + intros j y Hj Hy. apply (Hgt j); [lia|done].
  - destruct Hbase as [->|(x' & Hx' & Hn)]; [|congruence].
    split_and!; [lia|intros; lia|]. intros j y _ Hy. by eapply (Ho 0 j); [lia|done..].
Qed.

Lemma partition_point_correct {A} (p : A → bool) (l : list A) :
  (∀ i j x y, i ≤ j → l !! i = Some x → l !! j = Some y → p y = true → p x = true) →
  partition_point p l ≤ length l ∧ ∀ j y, l !! j = Some y → p y = bool_decide (j < partition_point p l).
Proof.
  intros Hm. unfold partition_point.
  pose proof (binary_search_correct (λ x, if p x then Lt else Gt) l) as Hc.
  destruct (binary_search_by _ l) as [i|i].
  - destruct Hc as (x & _ & Hx); [|by destruct (p x)].
    intros i' j x y Hij Hx Hy. specialize (Hm _ _ _ _ Hij Hx Hy). by destruct (p x), (p y); naive_solver.
  - destruct Hc as (Hi & Hlt & Hgt).
    { intros i' j x y Hij Hx Hy. specialize (Hm _ _ _ _ Hij Hx Hy). by destruct (p x), (p y); naive_solver. }
    split; [done|]. intros j y Hy. case_bool_decide as Hj.
    + specialize (Hlt j y Hj Hy). by destruct (p y).
    + specialize (Hgt j y ltac:(lia) Hy). by destruct (p y).
Qed.

(** ** The order of ids *)
Lemma bytes_cmp_Eq a b : bytes_cmp a b = Eq ↔ a = b.
Proof.
  revert b. induction a as [|x a IH]; intros [|y b]; simpl; try done.
  destruct (N.compare_spec (u8 x) (u8 y)) as [He|He|He]; rewrite ?IH; split.
  - intros ->. by apply u8_inj in He as ->.
  - by intros [= -> ->].
  - done.
  - intros [= -> ->]. lia.
  - done.
  - intros [= -> ->]. lia.
Qed.
Lemma bytes_cmp_antisym a b : bytes_cmp a b = CompOpp (bytes_cmp b a).
Proof.
  revert b. induction a as [|x a IH]; intros [|y b]; simpl; try done.
  rewrite (N.compare_antisym (u8 y)). destruct (u8 y ?= u8 x)%N; simpl; [apply IH|done..].
Qed.
Lemma bytes_cmp_Lt a b : bytes_cmp a b = Lt ↔ bytes_cmp b a = Gt.
Proof. rewrite (bytes_cmp_antisym b). by destruct (bytes_cmp a b). Qed.
Lemma bytes_cmp_trans a b c : bytes_cmp a b ≠ Gt → bytes_cmp b c ≠ Gt → bytes_cmp a c ≠ Gt.
Proof.
  revert b c. induction a as [|x a IH]; intros [|y b] [|z c]; simpl; try done.
  destruct (N.compare_spec (u8 x) (u8 y)), (N.compare_spec (u8 y) (u8 z)),
    (N.compare_spec (u8 x) (u8 z)); try done; try lia. apply IH.
Qed.

#[global] Instance entry_id_le_total : Total entry_id_le.
Proof.
  intros a b. unfold entry_id_le, id_cmp. rewrite (bytes_cmp_antisym (id_bytes (pe_id b))).
  destruct (bytes_cmp (id_bytes (pe_id a)) (id_bytes (pe_id b))); auto.
Qed.
#[global] Instance entry_id_le_trans : Transitive entry_id_le.
Proof. intros a b c. apply bytes_cmp_trans. Qed.

Lemma id_cmp_Eq x y : id_cmp x y = Eq ↔ x = y.
Proof. unfold id_cmp. rewrite bytes_cmp_Eq. split; [apply (inj id_bytes)|by intros ->]. Qed.

Lemma id_bytes_cons x : ∃ b l, id_bytes x = b :: l ∧ first_byte x = u8 b.
Proof.
  pose proof (id_bytes_length x) as Hl. unfold first_byte, slice.
  destruct (id_bytes x) as [|b l]; [done|]. exists b, l. split; [done|]. simpl. lia.
Qed.
Lemma first_byte_le x y : id_cmp x y ≠ Gt → (first_byte x ≤ first_byte y)%N.
Proof.
  unfold id_cmp. destruct (id_bytes_cons x) as (b & l & -> & ->), (id_bytes_cons y) as (c & k & -> & ->).
  simpl. destruct (N.compare_spec (u8 b) (u8 c)); intros; try done; lia.
Qed.
Lemma first_byte_bound x : (first_byte x < 256)%N.
Proof. destruct (id_bytes_cons x) as (b & l & _ & ->). apply u8_bound. Qed.

Lemma sorted_lookup_le (l : list PackEntry) i j x y :
  StronglySorted entry_id_le l → i ≤ j → l !! i = Some x → l !! j = Some y → entry_id_le x y.
Proof.
  intros Hs. revert i j. induction Hs as [|e l Hs IH Hall]; intros i j Hij Hx Hy; [by rewrite lookup_nil in Hx|].
  destruct i as [|i], j as [|j]; simpl in *; simplify_eq; [|..|lia|eapply IH; [|done..]; lia].
  - unfold entry_id_le, id_cmp. rewrite (proj2 (bytes_cmp_Eq _ _) eq_refl). done.
  - eapply Forall_forall in Hall; [done|]. by eapply list_elem_of_lookup_2.
Qed.

Lemma fanout_at_spec i b : StronglySorted entry_id_le (idx_entries i) →
  fanout_at i b ≤ length (idx_entries i) ∧
  ∀ j e, idx_entries i !! j = Some e → (first_byte (pe_id e) ≤ b)%N ↔ j < fanout_at i b.
Proof.
  intros Hs. unfold fanout_at.
  destruct (partition_point_correct (λ e, (first_byte (pe_id e) <=? b)%N) (idx_entries i)) as [Hl Hp].
  - intros k j x y Hkj Hx Hy Hp%N.leb_le. apply N.leb_le.
    pose proof (first_byte_le _ _ (sorted_lookup_le _ _ _ _ _ Hs Hkj Hx Hy)). lia.
  - split; [done|]. intros j e He. specialize (Hp j e He). rewrite <-N.leb_le, Hp.
    by rewrite bool_decide_eq_true.
Qed.

Lemma ordered_by_id (l : list PackEntry) id lo n : StronglySorted entry_id_le l →
  ordered_by (λ e, id_cmp (pe_id e) id) (take n (drop lo l)).
Proof.
  intros Hs i j x y Hij Hx Hy. apply lookup_take_Some in Hx as [Hx _], Hy as [Hy _].
  rewrite lookup_drop in Hx, Hy. pose proof (sorted_lookup_le l (lo + i) (lo + j) x y Hs ltac:(lia) Hx Hy) as Hle.
  unfold entry_id_le, id_cmp in *. rewrite !bytes_cmp_Lt. split; intros Hg.
  - destruct (decide (bytes_cmp (id_bytes (pe_id y)) (id_bytes id) = Gt)) as [|Hn]; [done|].
    by destruct (bytes_cmp_trans _ _ _ Hle Hn).
  - destruct (decide (bytes_cmp (id_bytes id) (id_bytes (pe_id x)) = Gt)) as [|Hn]; [done|].
    by destruct (bytes_cmp_trans _ _ _ Hn Hle).
Qed.

Lemma fanout_mono i a b : StronglySorted entry_id_le (idx_entries i) → (a ≤ b)%N → fanout_at i a ≤ fanout_at i b.
Proof.
  intros Hs Hab. destruct (fanout_at_spec i a Hs) as [Ha Hsa], (fanout_at_spec i b Hs) as [Hb Hsb].
  destruct (decide (fanout_at i a ≤ fanout_at i b)) as [|Hn]; [done|].
  destruct (lookup_lt_is_Some_2 (idx_entries i) (fanout_at i b)) as [e He]; [lia|].
  assert (first_byte (pe_id e) ≤ a)%N as Hle by (apply (Hsa (fanout_at i b)); [done|lia]).
  assert (fanout_at i b < fanout_at i b); [|lia]. apply (Hsb _ e); [done|lia].
Qed.

(** A lookup in sorted entries is a lookup in the table they list. *)
Lemma index_lookup_sorted i id : StronglySorted entry_id_le (idx_entries i) →
  ∃ o, index_lookup i id = Ok o ∧
    match o with
    | Some (off, len) => MkEntry id off len ∈ idx_entries i
    | None => ∀ e, e ∈ idx_entries i → pe_id e ≠ id
    end.
Proof.
  intros Hs. unfold index_lookup.
  set (lo := if decide (first_byte id = 0%N) then 0 else fanout_at i (first_byte id - 1)).
  set (hi := fanout_at i (first_byte id)).
  assert (lo ≤ hi) as Hlohi.
  { subst lo hi. case_decide; [lia|]. apply fanout_mono; [done|lia]. }
  rewrite decide_False by lia. eexists. split; [reflexivity|].
  pose proof (binary_search_correct _ _ (ordered_by_id (idx_entries i) id lo (hi - lo) Hs)) as Hbs.
  destruct (binary_search_by _ _) as [k|k].
  - destruct Hbs as ([x off len] & Hk & Hx%id_cmp_Eq). simpl in Hx. subst x. rewrite Hk. simpl.
    apply lookup_take_Some in Hk as [Hk _]. rewrite lookup_drop in Hk. by eapply list_elem_of_lookup_2.
  - destruct Hbs as (_ & Hlt & Hgt). intros e [j Hj]%list_elem_of_lookup_1 <-.
    destruct (fanout_at_spec i (first_byte (pe_id e)) Hs) as [_ Hhi].
    assert (j < hi) as Hjhi by (apply (Hhi _ _ Hj); lia).
    assert (lo ≤ j) as Hjlo.
    { subst lo. case_decide; [lia|]. destruct (fanout_at_spec i (first_byte (pe_id e) - 1) Hs) as [_ Hlo].
      destruct (decide (fanout_at i (first_byte (pe_id e) - 1) ≤ j)); [done|].
      assert (first_byte (pe_id e) ≤ first_byte (pe_id e) - 1)%N; [|lia]. apply (Hlo _ _ Hj). lia. }
    assert (take (hi - lo) (drop lo (idx_entries i)) !! (j - lo) = Some e) as Hsl.
    { apply lookup_take_Some. rewrite lookup_drop. split; [|lia]. by replace (lo + (j - lo)) with j by lia. }
    assert (id_cmp (pe_id e) (pe_id e) = Eq) as He by by apply id_cmp_Eq.
    destruct (decide (j - lo < k)).
    + specialize (Hlt _ _ ltac:(done) Hsl). simpl in Hlt. congruence.
    + specialize (Hgt (j - lo) e ltac:(lia) Hsl). simpl in Hgt. congruence.
Qed.

(** The index search is a table lookup. Whatever entries a pack was built with, the
    index sorts them; a lookup (a fan-out range computed by two binary searches, then a
    third inside the range) never panics, returns the location of an entry with that id
    when there is one, and nothing when there is none; so with distinct ids it returns
    exactly the entry. *)
Theorem index_lookup_correct (entries : list PackEntry) (digest : vec byte 32) (id : ObjectId) :
  ∃ o, index_lookup (index_build entries digest) id = Ok o ∧
    (o = None ↔ ∀ e, e ∈ entries → pe_id e ≠ id) ∧
    (∀ off len, o = Some (off, len) → MkEntry id off len ∈ entries) ∧
    (NoDup (pe_id <$> entries) → ∀ off len, o = Some (off, len) ↔ MkEntry id off len ∈ entries).
Proof.
  destruct (index_lookup_sorted (index_build entries digest) id) as (o & Ho & Hspec).
  { apply (StronglySorted_merge_sort _). }
  assert (∀ e, e ∈ merge_sort entry_id_le entries ↔ e ∈ entries) as Hp
    by (intros e; by rewrite merge_sort_Permutation).
  simpl in Hspec. exists o. split; [done|].
  destruct o as [[off len]|]; [rewrite Hp in Hspec|setoid_rewrite Hp in Hspec];
    (split_and!; [|intros ?? [=]; by subst|]).
  - split; [done|]. intros Hall. by destruct (Hall _ Hspec).
  - intros Hnd off' len'. split; [by intros [= <- <-]|]. intros Hin.
    assert (MkEntry id off' len' = MkEntry id off len) as [= -> ->]; [|done].
    apply list_elem_of_lookup in Hspec as [j Hj], Hin as [k Hk].
    assert (j = k) as ->; [|congruence].
    apply (NoDup_lookup _ j k id Hnd); rewrite list_lookup_fmap; [by rewrite Hj|by rewrite Hk].
  - done.
  - intros _ off' len'. split; [done|]. intros Hin. by destruct (Hspec _ Hin).
Qed.

(** ** What the builder writes, the decoder reads *)
Section roundtrip.
Context `{Zstd, !ZstdLaws, ObjectCodec}.

(** The frame of an object whose compressed form is [z]. *)
Definition frame_of (o : ObjectId * bytes) (z : bytes) : bytes :=
  RECORD_OBJECT :: id_bytes o.1 ++ write_varint (blen o.2) ++ write_varint (blen z) ++ z.
Definition frames_of (b : PackBuilder) (zs : list bytes) : bytes := concat (zip_with frame_of b zs).
Definition compressed (b : PackBuilder) (zs : list bytes) : Prop :=
  Forall2 (λ o z, zstd_encode o.2 = Ok z) b zs.

(** Where an entry points: at the frame of its object. *)
Definition points_at (buf : bytes) (o : ObjectId * bytes) (e : PackEntry) : Prop :=
  ∃ z pre post, zstd_encode o.2 = Ok z ∧ pe_id e = o.1 ∧ buf = pre ++ frame_of o z ++ post ∧
    pe_offset e = blen pre ∧ pe_len e = blen (frame_of o z).

Lemma points_at_app buf o e post : points_at buf o e → points_at (buf ++ post) o e.
Proof.
  intros (z & pre & post' & Hz & Hid & -> & Ho & Hl). exists z, pre, (post' ++ post).
  split_and!; try done. by rewrite <-!app_assoc.
Qed.

Lemma finish_loop_spec b : ∀ buf es buf' es', finish_loop b buf es = Ok (buf', es') →
  ∃ zs new, compressed b zs ∧ buf' = buf ++ frames_of b zs ∧ es' = es ++ new ∧ Forall2 (points_at buf') b new.
Proof.
  unfold compressed, frames_of.
  induction b as [|[id c] b IH]; intros buf es buf' es'; simpl.
  - intros [= -> ->]. exists [], []. rewrite !app_nil_r. split_and!; constructor.
  - destruct (zstd_encode c) as [z|] eqn:Hz; [|done]. intros Hl. apply IH in Hl as (zs & new & Hc & -> & -> & Hp).
    replace (((((buf ++ [RECORD_OBJECT]) ++ id_bytes id) ++ write_varint (blen c)) ++
      write_varint (blen z)) ++ z) with (buf ++ frame_of (id, c) z) in *
      by (unfold frame_of; by rewrite <-!app_assoc).
    exists (z :: zs), (MkEntry id (blen buf) (blen (buf ++ frame_of (id, c) z) - blen buf) :: new).
    cbn [zip_with concat]. rewrite <-!app_assoc. split_and!; [by constructor|done|done|].
    constructor; [|by rewrite <-app_assoc in Hp]. exists z, buf, (concat (zip_with frame_of b zs)).
    split_and!; try done. rewrite blen_app. simpl. lia.
Qed.

(** What a pack may hold for its own reader to accept it. *)
Definition packable (o : ObjectId * bytes) : Prop :=
  object_id o.2 = o.1 ∧ (blen o.2 ≤ MAX_OBJECT_LEN)%N.
Definition total_len (b : PackBuilder) : N := foldr (λ o n, (blen o.2 + n)%N) 0%N b.

Lemma frame_of_length o z :
  blen (frame_of o z) = (33 + blen (write_varint (blen o.2)) + blen (write_varint (blen z)) + blen z)%N.
Proof.
  unfold frame_of. rewrite blen_cons, !blen_app. unfold blen at 1. rewrite id_bytes_length. lia.
Qed.
Lemma write_varint_length v : (blen (write_varint v) ≤ 10)%N.
Proof. unfold blen, write_varint. pose proof (write_varint_loop_length 10 v). lia. Qed.

Lemma frame_of_bound o z : zstd_encode o.2 = Ok z → (blen (frame_of o z) ≤ 2 * blen o.2 + 1077)%N.
Proof.
  intros Hz%zstd_encode_bound. rewrite frame_of_length.
  pose proof (write_varint_length (blen o.2)). pose proof (write_varint_length (blen z)). lia.
Qed.

Lemma decode_bounded_encoded c z : zstd_encode c = Ok z → zstd_decode_bounded z (blen c) = Ok c.
Proof.
  intros Hz. unfold zstd_decode_bounded. rewrite (zstd_stream_encode _ _ Hz).
  by rewrite (proj2 (N.leb_gt _ _)) by lia.
Qed.

(** The header of a frame, read where it was written. *)
Lemma read_frame_header pre o z post p :
  (blen o.2 < U64)%N → (blen z < U64)%N → p = blen pre →
  ∃ q1 q2, read_varint (pre ++ frame_of o z ++ post) (p + 33) = Ok (blen o.2, q1) ∧
    read_varint (pre ++ frame_of o z ++ post) q1 = Ok (blen z, q2) ∧
    (q2 + blen z = p + blen (frame_of o z))%N ∧
    get_range (pre ++ frame_of o z ++ post) q2 (q2 + blen z) = Some z.
Proof.
  intros Ho Hz ->. unfold frame_of. set (w1 := write_varint (blen o.2)). set (w2 := write_varint (blen z)).
  assert (blen (id_bytes o.1) = 32%N) as Hid by (unfold blen; by rewrite id_bytes_length).
  exists (blen pre + 33 + blen w1)%N, (blen pre + 33 + blen w1 + blen w2)%N. split_and!.
  - pose proof (read_write_varint (pre ++ RECORD_OBJECT :: id_bytes o.1) (blen o.2) (w2 ++ z ++ post)
      (blen pre + 33) Ho) as Hr. rewrite <-app_assoc, <-app_comm_cons in Hr.
    rewrite <-app_comm_cons, <-!app_assoc. apply Hr. rewrite blen_app, blen_cons. lia.
  - pose proof (read_write_varint (pre ++ RECORD_OBJECT :: id_bytes o.1 ++ w1) (blen z) (z ++ post)
      (blen pre + 33 + blen w1) Hz) as Hr. rewrite <-app_assoc, <-app_comm_cons, <-app_assoc in Hr.
    rewrite <-app_comm_cons, <-!app_assoc. apply Hr. rewrite blen_app, blen_cons, blen_app. lia.
  - rewrite blen_cons, !blen_app. lia.
  - pose proof (get_range_at (pre ++ RECORD_OBJECT :: id_bytes o.1 ++ w1 ++ w2) z post
      (blen pre + 33 + blen w1 + blen w2) (blen pre + 33 + blen w1 + blen w2 + blen z)) as Hr.
    rewrite <-app_assoc, <-app_comm_cons, <-!app_assoc in Hr.
    rewrite <-app_comm_cons, <-!app_assoc.
    apply Hr; rewrite blen_app, blen_cons, !blen_app; lia.
Qed.

Lemma caps_fit : (2 * MAX_OBJECT_LEN + 2000 < U64)%N ∧ (MAX_OBJECT_LEN < U64)%N.
Proof. split; reflexivity. Qed.
Lemma pack_caps_fit : (2 * MAX_PACK_TOTAL_LEN + 1077 * MAX_PACK_OBJECTS + 2000 < U64)%N.
Proof. reflexivity. Qed.

Lemma decode_frame_of o z : packable o → zstd_encode o.2 = Ok z → decode_frame (frame_of o z) = Ok o.
Proof.
  intros [Hid Hlen] Hz. pose proof caps_fit. pose proof (zstd_encode_bound _ _ Hz) as Hb.
  destruct (read_frame_header [] o z [] 0) as (q1 & q2 & Hr1 & Hr2 & Hq & Hr3); [lia..|done|].
  rewrite app_nil_l, app_nil_r in Hr1, Hr2, Hr3. unfold decode_frame.
  pose proof (frame_of_bound _ _ Hz).
  assert (get_at (frame_of o z) 0 = Some RECORD_OBJECT) as -> by apply (get_at_app [] RECORD_OBJECT), eq_refl.
  cbn [ok_or mbind result_bind]. rewrite decide_False by (intros Hn; by apply Hn).
  assert (get_range (frame_of o z) 1 33 = Some (id_bytes o.1)) as ->.
  { apply (get_range_at [RECORD_OBJECT] (id_bytes o.1)); [done|]. unfold blen. by rewrite id_bytes_length. }
  cbn [ok_or mbind result_bind]. rewrite id_of_id_bytes. rewrite N.add_0_l in Hr1. rewrite Hr1.
  cbn [mbind result_bind]. rewrite (proj2 (N.ltb_ge _ _)) by done. rewrite Hr2. cbn [mbind result_bind].
  rewrite (proj2 (N.leb_gt _ _)) by lia. rewrite Hr3. cbn [ok_or mbind result_bind].
  rewrite (decode_bounded_encoded _ _ Hz). cbn [mbind result_bind].
  rewrite !decide_False by (intros Hn; by apply Hn). by destruct o.
Qed.

(** A frame that declares more than the cap is refused before it is decoded. *)
Lemma decode_frame_oversized o z : (MAX_OBJECT_LEN < blen o.2)%N → (blen o.2 < U64)%N → (blen z < U64)%N →
  decode_frame (frame_of o z) = Err (Storage "pack: object length exceeds cap").
Proof.
  intros Hbig Ho Hz. destruct (read_frame_header [] o z [] 0) as (q1 & q2 & Hr1 & _); [done..|].
  rewrite app_nil_l, app_nil_r, N.add_0_l in Hr1. unfold decode_frame.
  assert (get_at (frame_of o z) 0 = Some RECORD_OBJECT) as -> by apply (get_at_app [] RECORD_OBJECT), eq_refl.
  cbn [ok_or mbind result_bind]. rewrite decide_False by (intros Hn; by apply Hn).
  assert (get_range (frame_of o z) 1 33 = Some (id_bytes o.1)) as ->.
  { apply (get_range_at [RECORD_OBJECT] (id_bytes o.1)); [done|]. unfold blen. by rewrite id_bytes_length. }
  cbn [ok_or mbind result_bind]. rewrite Hr1. cbn [mbind result_bind]. by rewrite (proj2 (N.ltb_lt _ _)).
Qed.

Lemma frames_of_bound b zs : compressed b zs →
  (blen (frames_of b zs) ≤ 2 * total_len b + 1077 * N.of_nat (length b))%N.
Proof.
  unfold frames_of. induction 1 as [|o z b zs Hz Hc IH]; [done|].
  cbn [zip_with concat total_len foldr length]. rewrite blen_app. pose proof (frame_of_bound _ _ Hz).
  fold (total_len b). lia.
Qed.

(** The loop over the frames of [b] decodes [b]. *)
Lemma decode_loop_frames b zs : compressed b zs → Forall packable b → ∀ fuel pre total out,
  length b ≤ fuel → (total + total_len b ≤ MAX_PACK_TOTAL_LEN)%N →
  (blen (pre ++ frames_of b zs) < U64)%N →
  decode_loop fuel (pre ++ frames_of b zs) (blen pre) total out = Ok (out ++ b).
Proof.
  unfold frames_of. induction 1 as [|o z b zs Hz Hc IH]; intros Hp fuel pre total out Hfuel Htot Hfit.
  - simpl. rewrite !app_nil_r. destruct fuel; simpl; by rewrite N.leb_refl.
  - apply Forall_cons in Hp as [Ho Hp]. pose proof (zstd_encode_bound _ _ Hz) as Hb. destruct Ho as [Hid Hlen].
    pose proof caps_fit. destruct fuel as [|fuel]; [simpl in Hfuel; lia|].
    cbn [zip_with concat total_len foldr] in *. fold (total_len b) in *.
    set (rest := concat (zip_with frame_of b zs)) in *.
    destruct (read_frame_header pre o z rest (blen pre)) as (q1 & q2 & Hr1 & Hr2 & Hq & _); [lia..|done|].
    rewrite !blen_app in Hfit. cbn [decode_loop].
    pose proof (frame_of_length o z). rewrite (proj2 (N.leb_gt _ _)) by (rewrite !blen_app; lia).
    assert (get_at (pre ++ frame_of o z ++ rest) (blen pre) = Some RECORD_OBJECT) as -> by by apply get_at_app.
    cbn [ok_or mbind result_bind]. rewrite decide_False by (intros Hn; by apply Hn).
    rewrite (proj2 (N.ltb_ge _ _)) by (rewrite !blen_app; lia).
    replace (blen pre + 1 + 32)%N with (blen pre + 33)%N by lia. rewrite Hr1. cbn [mbind result_bind].
    rewrite Hr2. cbn [mbind result_bind]. rewrite Hq, (proj2 (N.leb_gt _ _)) by lia.
    rewrite (proj2 (N.ltb_ge _ _)) by (rewrite !blen_app; lia). cbn [orb].
    rewrite slice_app, (decode_frame_of o z) by done. destruct o as [id c]. cbn [mbind result_bind snd] in *.
    assert (saturating_add total (blen c) = total + blen c)%N as ->.
    { unfold saturating_add. apply N.min_l. pose proof pack_caps_fit. lia. }
    rewrite (proj2 (N.ltb_ge _ _)) by lia.
    specialize (IH Hp fuel (pre ++ frame_of (id, c) z) (total + blen c)%N (out ++ [(id, c)])).
    rewrite <-!app_assoc, !blen_app in IH. fold rest in IH. apply IH; [simpl in Hfuel; lia|lia|].
    lia.
Qed.

Lemma digest_length body : blen (END_MAGIC ++ vec_to_list (blake3_hash body)) = 40%N.
Proof. rewrite blen_app. unfold blen at 2. by rewrite length_vec_to_list. Qed.
Lemma pack_header_length n : blen (pack_header n) = 32%N.
Proof. unfold pack_header. rewrite !blen_app, !blen_to_le. done. Qed.
Lemma pack_header_fields n rest :
  slice (pack_header n ++ rest) 0 8 = PACK_MAGIC ∧ slice (pack_header n ++ rest) 8 12 = to_le 4 PACK_VERSION ∧
  slice (pack_header n ++ rest) 16 24 = to_le 8 n.
Proof.
  unfold pack_header. rewrite <-!app_assoc. split_and!.
  - by apply (slice_at [] PACK_MAGIC).
  - by apply (slice_at PACK_MAGIC (to_le 4 PACK_VERSION)).
  - rewrite (app_assoc PACK_MAGIC), (app_assoc (PACK_MAGIC ++ _)).
    apply (slice_at ((PACK_MAGIC ++ to_le 4 PACK_VERSION) ++ to_le 4 0) (to_le 8 n)); [done|].
    by rewrite blen_to_le.
Qed.

(** The checks around the frame loop, on a body that starts with a header. *)
Lemma decode_pack_body n body out :
  (32 ≤ blen body)%N → (∃ rest, body = pack_header n ++ rest) → (n ≤ MAX_PACK_OBJECTS)%N →
  decode_loop (length body) body HEADER_LEN 0 [] = Ok out → N.of_nat (length out) = n →
  decode_pack (body ++ END_MAGIC ++ vec_to_list (blake3_hash body)) = Ok out.
Proof.
  intros Hlen [rest ->] Hn Hloop Hout. set (body := pack_header n ++ rest) in *.
  set (digest := vec_to_list (blake3_hash body)).
  assert (blen digest = 32%N) as Hd by (unfold digest, blen; by rewrite length_vec_to_list).
  pose proof (digest_length body) as Htr. fold digest in Htr.
  destruct (pack_header_fields n (rest ++ END_MAGIC ++ digest)) as (Hf1 & Hf2 & Hf3).
  rewrite app_assoc in Hf1, Hf2, Hf3. fold body in Hf1, Hf2, Hf3. unfold decode_pack.
  assert (blen (body ++ END_MAGIC ++ digest) = blen body + 40)%N as Hall by (rewrite blen_app, Htr; done).
  rewrite Hall, (proj2 (N.ltb_ge _ _)) by (unfold HEADER_LEN, TRAILER_LEN; lia).
  rewrite Hf1, Hf2, Hf3. rewrite decide_False by (intros Hx; by apply Hx).
  rewrite (from_to_le 4), (from_to_le 8); [|unfold MAX_PACK_OBJECTS in Hn; simpl; lia|done].
  rewrite decide_False by (intros Hx; by apply Hx). rewrite (proj2 (N.ltb_ge _ _)) by done.
  replace (blen body + 40 - TRAILER_LEN)%N with (blen body) by (unfold TRAILER_LEN; lia).
  pose proof (slice_at body (END_MAGIC ++ digest) [] (blen body) (blen body + 40) eq_refl ltac:(lia)) as Ht.
  rewrite app_nil_r in Ht. rewrite Ht.
  pose proof (slice_at [] body (END_MAGIC ++ digest) 0 (blen body) eq_refl eq_refl) as Hb.
  rewrite app_nil_l in Hb. rewrite Hb.
  assert (slice (END_MAGIC ++ digest) 0 8 = END_MAGIC) as -> by by apply (slice_at [] END_MAGIC).
  rewrite decide_False by (intros Hx; by apply Hx).
  pose proof (slice_at END_MAGIC digest [] 8 40 eq_refl ltac:(rewrite Hd; done)) as He.
  rewrite app_nil_r in He. rewrite He. rewrite decide_False by (intros Hx; by apply Hx).
  rewrite Hloop. cbn [mbind result_bind]. by rewrite decide_False by (intros Hx; by apply Hx).
Qed.

(** A finished pack: its shape, its entries, and that the reader accepts it. *)
Lemma finish_Ok b pack entries digest : finish b = Ok (pack, entries, digest) →
  ∃ zs, compressed b zs ∧ Forall2 (points_at pack) b entries ∧
    let body := pack_header (N.of_nat (length b)) ++ frames_of b zs in
    digest = blake3_hash body ∧ pack = body ++ END_MAGIC ++ vec_to_list digest.
Proof.
  unfold finish. intros ([buf es] & Hl & Hf)%bind_Ok. injection Hf as <- <- <-.
  apply finish_loop_spec in Hl as (zs & new & Hc & -> & -> & Hp). exists zs. cbv zeta. split_and!; try done.
  eapply Forall2_impl; [exact Hp|]. intros o e. apply points_at_app.
Qed.

Definition pack_caps (b : PackBuilder) : Prop :=
  Forall packable b ∧ (N.of_nat (length b) ≤ MAX_PACK_OBJECTS)%N ∧ (total_len b ≤ MAX_PACK_TOTAL_LEN)%N.

Lemma frames_fit b zs : compressed b zs → pack_caps b →
  (blen (pack_header (N.of_nat (length b)) ++ frames_of b zs) + 1000 < U64)%N.
Proof.
  intros Hc (_ & Hn & Ht). pose proof (frames_of_bound b zs Hc). rewrite blen_app, pack_header_length.
  pose proof pack_caps_fit. lia.
Qed.

Lemma frames_of_length b zs : compressed b zs → length b ≤ length (frames_of b zs).
Proof.
  unfold frames_of. induction 1 as [|o z b zs Hz Hc IH]; [done|].
  cbn [zip_with concat length]. rewrite length_app. assert (1 ≤ length (frame_of o z)) by (unfold frame_of; simpl; lia). lia.
Qed.

Lemma decode_finish (b : PackBuilder) pack entries digest :
  pack_caps b → finish b = Ok (pack, entries, digest) → decode_pack pack = Ok b.
Proof.
  intros Hcaps Hfin. apply finish_Ok in Hfin as (zs & Hc & _ & Hd & Hpack).
  pose proof (frames_fit b zs Hc Hcaps) as Hfit. destruct Hcaps as (Hall & Hn & Ht).
  set (body := pack_header (N.of_nat (length b)) ++ frames_of b zs) in *.
  subst pack digest. apply (decode_pack_body (N.of_nat (length b))); [|by eexists|done| |done].
  { unfold body. rewrite blen_app, pack_header_length. lia. }
  unfold body. replace HEADER_LEN with (blen (pack_header (N.of_nat (length b)))) by apply pack_header_length.
  apply (decode_loop_frames b zs Hc Hall _ _ 0 []); [|lia|fold body; lia].
  rewrite length_app. pose proof (frames_of_length b zs Hc). lia.
Qed.

(** [C40] Packs round-trip. When [finish] writes a pack of content-addressed objects within
    the caps (128 MiB an object, 8,000,000 objects, 1 GiB in all), [decode_pack] accepts the
    bytes and returns the same objects in the same order; and the index built from the
    entries, given a queued id, finds a place at which [read_frame_at] decodes an object
    queued under that id. *)
Theorem pack_roundtrip (b : PackBuilder) pack entries digest :
  pack_caps b → finish b = Ok (pack, entries, digest) →
  decode_pack pack = Ok b ∧
  ∀ id c, (id, c) ∈ b → ∃ off len c', index_lookup (index_build entries digest) id = Ok (Some (off, len)) ∧
    read_frame_at pack off len = Ok (id, c') ∧ (id, c') ∈ b.
Proof.
  intros Hcaps Hfin. split; [by eapply decode_finish|]. apply finish_Ok in Hfin as (zs & Hc & Hp & Hd & Hpack).
  pose proof (frames_fit b zs Hc Hcaps) as Hfit. destruct Hcaps as (Hall & Hn & Ht).
  set (body := pack_header (N.of_nat (length b)) ++ frames_of b zs) in *.
  intros id c Hin. destruct (index_lookup_sorted (index_build entries digest) id) as (o & Ho & Hspec).
    { apply (StronglySorted_merge_sort _). }
    apply list_elem_of_lookup in Hin as [k Hk].
    destruct (Forall2_lookup_l _ _ _ _ _ Hp Hk) as (e & He & Hpt). simpl in Hspec.
    assert (∀ x, x ∈ merge_sort entry_id_le entries ↔ x ∈ entries) as Hperm
      by (intros x; by rewrite merge_sort_Permutation).
    destruct o as [[off len]|].
    + rewrite Hperm in Hspec. apply list_elem_of_lookup in Hspec as [j Hj].
      destruct (Forall2_lookup_r _ _ _ _ _ Hp Hj) as ([id' c'] & Hb & z & pre & post & Hz & Hid & Hpk & Hoff & Hln).
      simpl in Hid, Hoff, Hln. subst id' off len. exists (blen pre), (blen (frame_of (id, c') z)), c'.
      assert ((id, c') ∈ b) as Hin by by eapply list_elem_of_lookup_2.
      split_and!; [done| |done]. unfold read_frame_at.
      assert (blen pack < U64)%N as Hpl.
      { subst pack digest. fold body in Hfit |- *. rewrite blen_app, digest_length. lia. }
      rewrite Hpk in Hpl |- *. rewrite !blen_app in Hpl |- *.
      rewrite (proj2 (N.ltb_lt _ _)), (proj2 (N.leb_le _ _)) by lia. cbn [andb]. rewrite slice_app.
      apply decode_frame_of; [|done]. rewrite Forall_forall in Hall. by apply Hall.
    + exfalso. destruct Hpt as (z & pre & post & _ & Hid & _). apply (Hspec e); [|done].
      apply Hperm. by eapply list_elem_of_lookup_2.
Qed.
End roundtrip.

(** ** What the decoder accepts *)
Lemma get_at_slice l s e p : (s ≤ p)%N → (p < e)%N → (e ≤ blen l)%N →
  get_at (slice l s e) (p - s) = get_at l p.
Proof.
  intros Hs Hp He. unfold get_at. rewrite slice_length by lia.
  rewrite !(proj2 (N.ltb_lt _ _)) by lia. unfold slice.
  rewrite lookup_take_lt, lookup_drop by lia. f_equal. lia.
Qed.

Lemma read_varint_slice fuel : ∀ data s e p r sh v q, (s ≤ p)%N → (q ≤ e)%N → (e ≤ blen data)%N →
  (r < U64)%N → read_varint_loop fuel data p r sh = Ok (v, q) →
  read_varint_loop fuel (slice data s e) (p - s) r sh = Ok (v, (q - s)%N).
Proof.
  induction fuel as [|fuel IH]; intros data s e p r sh v q Hs Hq He Hr Hread; [done|].
  pose proof (read_varint_loop_Ok _ _ _ _ _ _ _ Hr Hread) as (_ & Hpq & _).
  cbn [read_varint_loop] in *. rewrite get_at_slice by lia.
  destruct (get_at data p) as [b|]; [|done]. cbn [ok_or mbind result_bind] in *.
  set (r' := N.lor r (N.shiftl (N.land (u8 b) 127) sh `mod` U64)) in *.
  assert (r' < U64)%N as Hr' by by apply lor_U64.
  case_decide.
  - injection Hread as <- <-. f_equal. f_equal. lia.
  - destruct (64 <=? sh + 7)%N; [done|]. replace (p - s + 1)%N with (p + 1 - s)%N by lia.
    eapply (IH data s e); [lia|done..].
Qed.

Definition no_panic {A} (r : res A) : Prop := ∀ m, r ≠ Err (Panic m).

Lemma no_panic_err {A B} (r : res A) e m : no_panic r → r = Err e → (Err e : res B) ≠ Err (Panic m).
Proof. intros Hn -> [= ->]. by apply (Hn m). Qed.

Lemma read_varint_no_panic data pos : no_panic (read_varint data pos).
Proof. intros m Hp. by apply read_varint_loop_Err in Hp as [|]. Qed.

Section sound.
Context `{Zstd, ObjectCodec}.

(** A frame expands to no more than its declared length and one byte. *)
Lemma zstd_decode_bounded_length zs n out :
  zstd_decode_bounded zs n = Ok out → (blen out ≤ n + 1)%N.
Proof.
  unfold zstd_decode_bounded. destruct (zstd_stream zs) as [[o f]|]; [|done].
  destruct (N.leb_spec (n + 1) (blen o)).
  - intros [= <-]. unfold blen. rewrite length_take. lia.
  - destruct f; [done|]. intros [= <-]. lia.
Qed.
Lemma zstd_decode_bounded_no_panic zs n : no_panic (zstd_decode_bounded zs n).
Proof.
  intros m. unfold zstd_decode_bounded. destruct (zstd_stream zs) as [[o f]|]; [|done].
  destruct (n + 1 <=? blen o)%N; [done|]. by destruct f.
Qed.

Lemma decode_frame_Ok frame o : decode_frame frame = Ok o → packable o.
Proof.
  unfold decode_frame, packable. intros (rt & _ & Hd)%bind_Ok. case_decide; [done|].
  apply bind_Ok in Hd as (idb & _ & Hd). apply bind_Ok in Hd as ([ulen p1] & _ & Hd).
  destruct (N.ltb_spec MAX_OBJECT_LEN ulen); [done|]. apply bind_Ok in Hd as ([slen p2] & _ & Hd).
  destruct (U64 <=? p2 + slen)%N; [done|]. apply bind_Ok in Hd as (zs & _ & Hd).
  apply bind_Ok in Hd as (c & _ & Hd). case_decide as Hl; [done|]. case_decide as Hid; [done|].
  injection Hd as <-. simpl. split; [by destruct (decide (object_id c = id_of_bytes idb))|].
  assert (blen c = ulen) as -> by by destruct (decide (blen c = ulen)). done.
Qed.

(** Inside a pack's loop the lengths have been checked, so the addition of
    [decode_frame] does not overflow. *)
Lemma decode_frame_no_panic body s ulen p1 slen p2 :
  (blen body < U64)%N → read_varint body (s + 33) = Ok (ulen, p1) → read_varint body p1 = Ok (slen, p2) →
  (p2 + slen ≤ blen body)%N → no_panic (decode_frame (slice body s (p2 + slen))).
Proof.
  intros Hfit Hr1 Hr2 He m. pose proof (read_varint_Ok _ _ _ _ Hr1) as (_&?&_).
  pose proof (read_varint_Ok _ _ _ _ Hr2) as (_&?&_). unfold decode_frame.
  destruct (get_at _ 0); [|done]. cbn [ok_or mbind result_bind]. case_decide; [done|].
  destruct (get_range _ 1 33); [|done]. cbn [ok_or mbind result_bind].
  pose proof (read_varint_slice 10 body s (p2 + slen) (s + 33) 0 0 ulen p1 ltac:(lia) ltac:(lia) He eq_refl Hr1) as Hv1.
  replace (s + 33 - s)%N with 33%N in Hv1 by lia. fold (read_varint (slice body s (p2 + slen)) 33) in Hv1.
  pose proof (read_varint_slice 10 body s (p2 + slen) p1 0 0 slen p2 ltac:(lia) ltac:(lia) He eq_refl Hr2) as Hv2.
  fold (read_varint (slice body s (p2 + slen)) (p1 - s)) in Hv2. rewrite Hv1. cbn [mbind result_bind].
  destruct (MAX_OBJECT_LEN <? ulen)%N; [done|]. rewrite Hv2. cbn [mbind result_bind].
  rewrite (proj2 (N.leb_gt _ _)) by lia. destruct (get_range _ (p2 - s) _); [|done]. cbn [ok_or mbind result_bind].
  destruct (zstd_decode_bounded _ ulen) eqn:Hz; cbn [mbind result_bind]; [|eapply no_panic_err; [|exact Hz]; apply zstd_decode_bounded_no_panic].
  repeat case_decide; done.
Qed.

Lemma decode_loop_no_panic fuel : ∀ body pos total out, (blen body < U64)%N →
  (blen body ≤ pos + N.of_nat fuel)%N → no_panic (decode_loop fuel body pos total out).
Proof.
  induction fuel as [|fuel IH]; intros body pos total out Hfit Hfuel m; cbn [decode_loop];
    (destruct (N.leb_spec (blen body) pos); [done|]); [lia|].
  destruct (get_at body pos) eqn:Hb; [|apply get_at_None in Hb; lia]. cbn [ok_or mbind result_bind].
  case_decide; [done|]. destruct (blen body <? pos + 1 + 32)%N; [done|].
  replace (pos + 1 + 32)%N with (pos + 33)%N by lia.
  destruct (read_varint body (pos + 33)) as [[ulen p1]|] eqn:Hr1; cbn [mbind result_bind];
    [|eapply no_panic_err; [|exact Hr1]; apply read_varint_no_panic].
  destruct (read_varint body p1) as [[slen p2]|] eqn:Hr2; cbn [mbind result_bind];
    [|eapply no_panic_err; [|exact Hr2]; apply read_varint_no_panic].
  destruct ((U64 <=? p2 + slen)%N || (blen body <? p2 + slen)%N) eqn:Hcheck; [done|].
  apply orb_false_iff in Hcheck as [_ Hend%N.ltb_ge].
  destruct (decode_frame _) as [[id c]|] eqn:Hd; cbn [mbind result_bind];
    [|eapply no_panic_err; [|exact Hd]; by eapply decode_frame_no_panic].
  destruct (_ <? _)%N; [done|]. pose proof (read_varint_Ok _ _ _ _ Hr1) as (_&?&_).
  pose proof (read_varint_Ok _ _ _ _ Hr2) as (_&?&_). apply IH; [done|]. lia.
Qed.

Lemma decode_loop_Ok fuel : ∀ body pos total out r, (total ≤ MAX_PACK_TOTAL_LEN)%N →
  decode_loop fuel body pos total out = Ok r →
  ∃ more, r = out ++ more ∧ Forall packable more ∧ (total + total_len more ≤ MAX_PACK_TOTAL_LEN)%N.
Proof.
  induction fuel as [|fuel IH]; intros body pos total out r Htot; cbn [decode_loop];
    (destruct (blen body <=? pos)%N; [intros [= <-]; exists []; rewrite app_nil_r; split_and!; simpl; [done|done|lia]|]);
    [done|].
  intros (rt & _ & Hd)%bind_Ok. case_decide; [done|]. destruct (blen body <? pos + 1 + 32)%N; [done|].
  apply bind_Ok in Hd as ([ulen p1] & _ & Hd). apply bind_Ok in Hd as ([slen p2] & _ & Hd).
  destruct (_ || _); [done|]. apply bind_Ok in Hd as ([id c] & Hf & Hd). apply decode_frame_Ok in Hf as Hp.
  destruct (N.ltb_spec MAX_PACK_TOTAL_LEN (saturating_add total (blen c))) as [|Hle]; [done|].
  assert (saturating_add total (blen c) = total + blen c)%N as Hsat.
  { unfold saturating_add in *. destruct Hp as [_ Hp]. simpl in Hp. pose proof caps_fit. pose proof pack_caps_fit. lia. }
  rewrite Hsat in *. apply IH in Hd as (more & -> & Hall & Hm); [|done].
  exists ((id, c) :: more). rewrite <-app_assoc. split_and!; [done|by constructor|]. simpl. fold (total_len more). lia.
Qed.

(** [C39] Untrusted packs. On any bytes that fit in memory [decode_pack] returns a list or an
    error and never panics (no index out of range, no overflow, the frame loop ends); when
    it returns a list, the header and trailer hold the magics, the version and the digest of
    everything before the trailer, the list is as long as the header says, each object's id
    is the hash of its bytes, and the caps hold: 128 MiB an object, 8,000,000 objects, 1 GiB
    in all. *)
Theorem decode_pack_sound (pack : bytes) :
  (blen pack < U64)%N →
  no_panic (decode_pack pack) ∧
  ∀ out, decode_pack pack = Ok out →
    slice pack 0 8 = PACK_MAGIC ∧ from_le (slice pack 8 12) = PACK_VERSION ∧
    from_le (slice pack 16 24) = N.of_nat (length out) ∧
    (∃ body, pack = body ++ END_MAGIC ++ vec_to_list (blake3_hash body)) ∧
    pack_caps out.
Proof.
  intros Hfit. unfold decode_pack, HEADER_LEN, TRAILER_LEN.
  destruct (N.ltb_spec (blen pack) (32 + 40)) as [|Hlen]; [split; [intros ?|]; done|].
  case_decide as Hm; [split; [intros ?|]; done|]. case_decide as Hv; [split; [intros ?|]; done|].
  destruct (N.ltb_spec MAX_PACK_OBJECTS (from_le (slice pack 16 24))) as [|Hn]; [split; [intros ?|]; done|].
  set (body := slice pack 0 (blen pack - 40)). set (trailer := slice pack (blen pack - 40) (blen pack)).
  case_decide as He; [split; [intros ?|]; done|]. case_decide as Hd; [split; [intros ?|]; done|].
  assert (blen body = blen pack - 40)%N as Hbody by (unfold body; rewrite slice_length; lia).
  split.
  - intros m. destruct (decode_loop _ _ _ _ _) eqn:Hl; cbn [mbind result_bind]; [case_decide; done|].
    eapply no_panic_err; [|exact Hl]. apply decode_loop_no_panic; [lia|]. unfold blen at 1. lia.
  - intros out (l & Hl & Hc)%bind_Ok. case_decide as Hcount; [done|]. injection Hc as ->.
    apply decode_loop_Ok in Hl as (more & -> & Hall & Htot); [|done]. rewrite app_nil_l in Hcount |- *.
    split_and!; try done.
    + exists body. assert (blen trailer = 40%N) as Ht by (unfold trailer; rewrite slice_length; lia).
      assert (trailer = END_MAGIC ++ vec_to_list (blake3_hash body)) as Htr.
      { pose proof (slice_split trailer 0 8 ltac:(lia) ltac:(lia)) as Hs. rewrite He in Hs.
        rewrite Hs at 1. change (take (N.to_nat 0) trailer) with (@nil byte). rewrite app_nil_l. apply (f_equal (app END_MAGIC)). rewrite Hd. unfold slice.
        rewrite take_ge; [done|]. rewrite length_drop. unfold blen in Ht. lia. }
      rewrite <-Htr. pose proof (slice_split pack 0 (blen pack - 40) ltac:(lia) ltac:(lia)) as Hs.
      rewrite Hs at 1. change (take (N.to_nat 0) pack) with (@nil byte). rewrite app_nil_l. apply (f_equal (app body)). unfold trailer, slice.
      rewrite take_ge; [done|]. rewrite length_drop. unfold blen. lia.
    + split_and!; [done|lia|lia].
Qed.
End sound.

(** ** The index file *)
Section index_file.
Context `{Zstd, ObjectCodec}.

(** What fits the fields of the file. *)
Definition index_fits (i : PackIndex) : Prop :=
  (N.of_nat (length (idx_entries i)) < 2 ^ 32)%N ∧
  Forall (λ e, (pe_offset e < U64)%N ∧ (pe_len e < U64)%N) (idx_entries i).

Lemma fanout_table_length i l : length (l ≫= λ b, to_le 4 (N.of_nat (fanout_at i (N.of_nat b)))) = 4 * length l.
Proof. apply table_length. intros. apply to_le_length. Qed.

(** The checks of [parse] on a head of the right shape and length. *)
Lemma index_parse_head n rest : (n < 2 ^ 32)%N →
  let head := IDX_MAGIC ++ to_le 4 IDX_VERSION ++ to_le 4 n ++ rest in
  (blen head = 1072 + 48 * n)%N →
  index_parse (head ++ vec_to_list (blake3_hash head)) = Ok (index_tables head n 1040).
Proof.
  intros Hn head Hhead. set (hd := vec_to_list (blake3_hash head)).
  assert (blen hd = 32%N) as Hhd by (unfold hd, blen; by rewrite length_vec_to_list).
  unfold index_parse. rewrite blen_app, Hhd, Hhead. rewrite (proj2 (N.ltb_ge _ _)) by lia.
  assert (slice (head ++ hd) 0 8 = IDX_MAGIC) as ->.
  { unfold head. rewrite <-!app_assoc. by apply (slice_at [] IDX_MAGIC). }
  rewrite decide_False by (intros Hx; by apply Hx).
  assert (slice (head ++ hd) 8 12 = to_le 4 IDX_VERSION) as ->.
  { unfold head. rewrite <-!app_assoc. by apply (slice_at IDX_MAGIC (to_le 4 IDX_VERSION)). }
  assert (slice (head ++ hd) 12 16 = to_le 4 n) as ->.
  { unfold head. rewrite <-!app_assoc, (app_assoc IDX_MAGIC).
    apply (slice_at (IDX_MAGIC ++ to_le 4 IDX_VERSION) (to_le 4 n)); [done|]. by rewrite blen_to_le. }
  rewrite decide_False by (intros Hx; by apply Hx). rewrite (from_to_le 4) by exact Hn.
  rewrite (proj2 (N.ltb_ge _ _)) by lia.
  replace (1072 + 48 * n + 32 - 32)%N with (blen head) by lia.
  pose proof (slice_at [] head hd 0 (blen head) eq_refl eq_refl) as Hs1. rewrite app_nil_l in Hs1. rewrite Hs1.
  replace (1072 + 48 * n + 32)%N with (blen head + blen hd)%N by lia.
  pose proof (slice_at head hd [] (blen head) (blen head + blen hd) eq_refl eq_refl) as Hs2.
  rewrite app_nil_r in Hs2. rewrite Hs2. fold hd. rewrite decide_False by (intros Hx; by apply Hx).
  by rewrite Hhead, (proj2 (N.ltb_ge _ _)) by lia.
Qed.

(** The tables read back what they were written from. *)
Lemma index_tables_written pre es dg : (blen pre = 1040)%N → Forall (λ e, (pe_offset e < U64)%N ∧ (pe_len e < U64)%N) es →
  index_tables (pre ++ (es ≫= λ e, id_bytes (pe_id e)) ++ (es ≫= λ e, to_le 8 (pe_offset e)) ++
    (es ≫= λ e, to_le 8 (pe_len e)) ++ vec_to_list dg) (N.of_nat (length es)) 1040 = MkIndex es dg.
Proof.
  intros Hpre Hfit. set (n := length es). set (ids := es ≫= λ e, id_bytes (pe_id e)).
  set (offs := es ≫= λ e, to_le 8 (pe_offset e)). set (lens := es ≫= λ e, to_le 8 (pe_len e)).
  set (dig := vec_to_list dg).
  assert (blen ids = 32 * N.of_nat n)%N as Hids
    by (unfold ids, blen; rewrite (table_length _ 32) by (intros; apply id_bytes_length); lia).
  assert (blen offs = 8 * N.of_nat n)%N as Hoffs
    by (unfold offs, blen; rewrite (table_length _ 8) by (intros; apply to_le_length); lia).
  assert (blen lens = 8 * N.of_nat n)%N as Hlens
    by (unfold lens, blen; rewrite (table_length _ 8) by (intros; apply to_le_length); lia).
  assert (blen dig = 32%N) as Hdig by (unfold dig, blen; by rewrite length_vec_to_list).
  unfold index_tables. f_equal.
  - rewrite Nat2N.id. apply list_eq. intros k. rewrite list_lookup_fmap.
    destruct (decide (k < n)) as [Hk|Hk]; [|rewrite (lookup_ge_None_2 (seq 0 n)) by (rewrite length_seq; lia);
      symmetry; apply lookup_ge_None_2; fold n; lia].
    rewrite lookup_seq_lt by done. cbn [fmap option_fmap option_map].
    destruct (lookup_lt_is_Some_2 es k Hk) as [[id off len] He]. rewrite He. rewrite Forall_forall in Hfit.
    destruct (Hfit (MkEntry id off len)) as [Hoff Hlen]; [by eapply list_elem_of_lookup_2|]. simpl in Hoff, Hlen.
    do 2 f_equal.
    + rewrite <-(id_of_id_bytes id). f_equal.
      apply (slice_table _ 32 ltac:(intros; apply id_bytes_length) pre es _ k (MkEntry id off len)); [done|lia..].
    + rewrite <-(from_to_le 8 off) by done. f_equal. rewrite (app_assoc pre).
      apply (slice_table _ 8 ltac:(intros; apply to_le_length) (pre ++ ids) es _ k (MkEntry id off len));
        [done|rewrite !blen_app; lia|lia].
    + rewrite <-(from_to_le 8 len) by done. f_equal. rewrite (app_assoc pre), (app_assoc (pre ++ ids)).
      apply (slice_table _ 8 ltac:(intros; apply to_le_length) ((pre ++ ids) ++ offs) es _ k (MkEntry id off len));
        [done|rewrite !blen_app; lia|lia].
  - rewrite <-(pad_vec_to_list _ dg). f_equal. fold dig.
    rewrite (app_assoc pre), (app_assoc (pre ++ ids)), (app_assoc ((pre ++ ids) ++ offs)), <-(app_nil_r (_ ++ dig)), <-(app_assoc _ dig).
    apply slice_at; rewrite !blen_app; lia.
Qed.

(** An index survives its file. [parse] of what [encode] writes is the index itself:
    the same entries in the same order with their offsets and lengths, and the digest of the
    pack; for any index of fewer than 2^32 entries whose offsets and lengths are [u64]s. *)
Theorem index_file_roundtrip (i : PackIndex) : index_fits i → index_parse (index_encode i) = Ok i.
Proof.
  destruct i as [es dg]. intros [Hn Hfit]. unfold index_encode. cbn [idx_entries idx_digest] in *.
  set (fan := seq 0 256 ≫= _). rewrite <-!app_assoc.
  assert (blen fan = 1024%N) as Hfan by (unfold fan, blen; rewrite fanout_table_length; reflexivity).
  pose proof (index_parse_head _ (fan ++ (es ≫= λ e, id_bytes (pe_id e)) ++ (es ≫= λ e, to_le 8 (pe_offset e)) ++
    (es ≫= λ e, to_le 8 (pe_len e)) ++ vec_to_list dg) Hn) as Hp. cbv zeta in Hp. rewrite <-!app_assoc in Hp. rewrite Hp.
  - f_equal. rewrite !(app_assoc _ _ (fan ++ _)), (app_assoc _ fan). apply index_tables_written; [|done].
    rewrite blen_app, Hfan. done.
  - rewrite !blen_app, Hfan. unfold blen.
    rewrite (table_length _ 32) by (intros; apply id_bytes_length). rewrite !(table_length _ 8) by (intros; apply to_le_length).
    rewrite length_vec_to_list, !to_le_length. change (length IDX_MAGIC) with 8. lia.
Qed.
End index_file.

(** ** Concrete parameters: a compressor that only adds a tag, and a rolling hash *)
Definition toy_zstd : Zstd := {|
  zstd_encode data := Ok (x28 :: data);
  zstd_stream z := match z with [] => Err "empty" | _ :: data => Ok (data, None) end;
  zstd_decode z := match z with [] => Err "empty" | _ :: data => Ok data end
|}.
Lemma toy_zstd_laws : @ZstdLaws toy_zstd.
Proof. split; intros data z [= <-]; [done|done|]. rewrite blen_cons. lia. Qed.

Definition rolling_hash (l : bytes) : vec byte 32 :=
  pad_vec 32 (to_le 8 (foldl (λ h b, (h * 1099511628211 + u8 b + 1) `mod` U64)%N 14695981039346656037%N l)).
Definition rolling_codec : ObjectCodec := {|
  serialize obj := match obj with OBlob b => Ok (x00 :: blob_data b) | _ => Err (Codec "unsupported") end;
  deserialize l := match l with t :: d => if decide (t = x00) then Ok (OBlob (MkBlob d)) else Err (Codec "malformed")
    | [] => Err (Codec "malformed") end;
  blake3_hash := rolling_hash
|}.

Section demo.
Local Existing Instance toy_zstd.
Local Existing Instance toy_zstd_laws.
Local Existing Instance rolling_codec.

Definition ex_data1 : bytes := [x00; x61; x62].
Definition ex_data2 : bytes := [x00; x63].
Definition ex_objs : PackBuilder := [(object_id ex_data1, ex_data1); (object_id ex_data2, ex_data2)].
Definition ex_pack : bytes := match finish ex_objs with Ok (p, _, _) => p | Err _ => [] end.
Definition ex_entries : list PackEntry := match finish ex_objs with Ok (_, e, _) => e | Err _ => [] end.
Definition ex_digest : vec byte 32 := match finish ex_objs with Ok (_, _, d) => d | Err _ => rolling_hash [] end.

Lemma ex_finish : finish ex_objs = Ok (ex_pack, ex_entries, ex_digest).
Proof. vm_compute. reflexivity. Qed.
Lemma ex_caps : pack_caps ex_objs.
Proof.
  split; [|split; vm_compute; discriminate].
  repeat constructor; vm_compute; (reflexivity || discriminate).
Qed.

Lemma pack_roundtrip_witness : decode_pack ex_pack = Ok ex_objs ∧ length ex_pack = 149.
Proof.
  split; [|vm_compute; reflexivity].
  exact (proj1 (pack_roundtrip ex_objs ex_pack ex_entries ex_digest ex_caps ex_finish)).
Defined.

Lemma decode_pack_sound_witness : pack_caps ex_objs ∧ decode_pack (x00 :: ex_pack) = Err (Storage "pack: bad magic").
Proof.
  assert (blen ex_pack < U64)%N as Hlt by (vm_compute; reflexivity).
  assert (decode_pack ex_pack = Ok ex_objs) as Hd by (vm_compute; reflexivity).
  split; [|vm_compute; reflexivity].
  destruct (decode_pack_sound ex_pack Hlt) as [_ Hs].
  destruct (Hs ex_objs Hd) as (_ & _ & _ & _ & Hc). exact Hc.
Defined.

Lemma index_file_roundtrip_witness :
  index_parse (index_encode (index_build ex_entries ex_digest)) = Ok (index_build ex_entries ex_digest).
Proof.
  assert (index_fits (index_build ex_entries ex_digest)) as Hf.
  { split; [vm_compute; reflexivity|]. apply (bool_decide_unpack _). vm_compute. exact I. }
  exact (index_file_roundtrip (index_build ex_entries ex_digest) Hf).
Defined.
End demo.
