(* ===== verification/Disk.v ===== *)
(** * Disk: the loose object files

    [DiskBackend] of src/src/store/disk.rs: one zstd file per object, in a directory
    sharded by the first two hex digits of the id, written to a [.tmp] file and renamed.
    The state is the [objects] directory: shards by name, files by name, with contents and
    modification times (a missing directory and an empty one behave alike); every entry of
    the directory is a shard and every entry of a shard a file.  The order in which
    a directory is read is a parameter.  System calls succeed.  The theorems: the files
    implement the storage contract of Store.v, and a write that stops half-way, at any
    system call and with any part of the bytes on disk, leaves the store as it was or
    with the object. *)

From S2P Require Import Prelude Bytes Ids Objects Store Pack.
From Stdlib Require Import Lia.

(** [read_dir]: the entries in an order of the file system's choosing. *)
Class ReadDir := {
  read_dir : ∀ {A}, gmap string A → list (string * A)
}.
Class ReadDirLaws `{ReadDir} := {
  read_dir_perm {A} (m : gmap string A) : read_dir m ≡ₚ map_to_list m
}.

Record LooseFile : Type := MkFile { lf_bytes : bytes; lf_mtime : N }.
Record DiskBackend : Type := MkDisk {
  db_objects : gmap string (gmap string LooseFile);
  db_clock : N
}.

(** ** Names *)
Definition str_take (n : nat) (s : string) : string := bytes_str (take n (str_bytes s)).
Definition str_drop (n : nat) (s : string) : string := bytes_str (drop n (str_bytes s)).
Definition str_ends_with (s suffix : string) : bool :=
  bool_decide (str_bytes s = take (length (str_bytes s) - length (str_bytes suffix)) (str_bytes s) ++ str_bytes suffix).

(** [object_path]: the shard and the name in it. *)
Definition object_path (id : ObjectId) : string * string :=
  let hex := id_to_string id in (str_take 2 hex, str_drop 2 hex).
(** [path.with_extension("tmp")] of a name without a dot. *)
Definition tmp_name (name : string) : string := name +:+ ".tmp".

(** ** System calls *)
Definition fs_file (b : DiskBackend) (p : string * string) : option LooseFile :=
  db_objects b !! p.1 ≫= λ shard, shard !! p.2.
Definition with_objects (b : DiskBackend) (o : gmap string (gmap string LooseFile)) : DiskBackend :=
  MkDisk o (db_clock b).
(** [create_dir_all] of a shard *)
Definition fs_mkdir (sh : string) (b : DiskBackend) : DiskBackend :=
  match db_objects b !! sh with Some _ => b | None => with_objects b (<[sh := ∅]> (db_objects b)) end.
(** [fs::write]: the file is created or replaced, with the time of day. *)
Definition fs_write (p : string * string) (data : bytes) (b : DiskBackend) : DiskBackend :=
  with_objects b (alter (insert p.2 (MkFile data (db_clock b))) p.1 (db_objects b)).
(** [fs::rename] inside a shard *)
Definition fs_rename (sh from to : string) (b : DiskBackend) : DiskBackend :=
  match fs_file b (sh, from) with
  | Some f => with_objects b (alter (λ shard, <[to := f]> (delete from shard)) sh (db_objects b))
  | None => b
  end.
(** [fs::remove_file], a missing file being no error to the callers *)
Definition fs_remove (p : string * string) (b : DiskBackend) : DiskBackend :=
  with_objects b (alter (delete p.2) p.1 (db_objects b)).

(** ** The backend *)
Section ops.
Context `{Zstd, ReadDir}.

Definition db_exists (b : DiskBackend) (id : ObjectId) : res bool :=
  Ok (bool_decide (is_Some (fs_file b (object_path id)))).

Definition db_put (id : ObjectId) (data : bytes) : M DiskBackend () :=
  let '(sh, name) := object_path id in
  e ← gets (λ b, db_exists b id);
  if e : bool then mret ()
  else
    _ ← modify (fs_mkdir sh);
    z ← lift_res (match zstd_encode data with Ok z => Ok z | Err e => Err (Storage e) end);
    _ ← modify (fs_write (sh, tmp_name name) z);
    modify (fs_rename sh (tmp_name name) name).

Definition db_get (b : DiskBackend) (id : ObjectId) : res (option bytes) :=
  match fs_file b (object_path id) with
  | Some f => match zstd_decode (lf_bytes f) with Ok d => Ok (Some d) | Err e => Err (Storage e) end
  | None => Ok None
  end.

Definition db_delete (id : ObjectId) : M DiskBackend () := modify (fs_remove (object_path id)).

(** The names of one shard that are ids. *)
Definition list_shard (prefix : string) (shard : gmap string LooseFile) : list ObjectId :=
  if decide (length (str_bytes prefix) ≠ 2) then []
  else
    omap (λ '(name, _), if str_ends_with name ".tmp" then None else parse_hex_id (prefix +:+ name)) (read_dir shard).
Definition db_list (b : DiskBackend) : res (list ObjectId) :=
  Ok (read_dir (db_objects b) ≫= λ '(prefix, shard), list_shard prefix shard).

#[global] Instance disk_StorageBackend : StorageBackend DiskBackend := {|
  sb_put := db_put;
  sb_get := db_get;
  sb_exists := db_exists;
  sb_delete := db_delete;
  sb_list := db_list;
  sb_count := default_count db_list;
  sb_compact := default_compact;
  sb_sweep := default_sweep db_list db_delete
|}.
End ops.

(** Where a write can stop: before it, with the shard made, with any part of the
    temporary file, with all of it, or renamed. *)
Inductive put_crash `{Zstd} (b : DiskBackend) (id : ObjectId) (data : bytes) : DiskBackend → Prop :=
| crash_before : put_crash b id data b
| crash_mkdir : put_crash b id data (fs_mkdir (object_path id).1 b)
| crash_tmp z k : zstd_encode data = Ok z →
    put_crash b id data (fs_write ((object_path id).1, tmp_name (object_path id).2) (take k z) (fs_mkdir (object_path id).1 b))
| crash_renamed z : zstd_encode data = Ok z →
    put_crash b id data
      (fs_rename (object_path id).1 (tmp_name (object_path id).2) (object_path id).2
        (fs_write ((object_path id).1, tmp_name (object_path id).2) z (fs_mkdir (object_path id).1 b))).

(** ** Paths *)
Lemma hex_length id : length (str_bytes (id_to_string id)) = 64.
Proof. unfold id_to_string, hex32. by rewrite str_bytes_str, hex_bytes_length, id_bytes_length. Qed.

Lemma path_join id : (object_path id).1 +:+ (object_path id).2 = id_to_string id.
Proof.
  apply (inj str_bytes). rewrite str_bytes_app. unfold object_path, str_take, str_drop. simpl.
  by rewrite !str_bytes_str, take_drop.
Qed.

(** The path of an id is the only split of its hex form after two digits. *)
Lemma path_split id p n : length (str_bytes p) = 2 → p +:+ n = id_to_string id → object_path id = (p, n).
Proof.
  intros Hp Heq. unfold object_path, str_take, str_drop. rewrite <-Heq, str_bytes_app, <-Hp.
  by rewrite take_app_length, drop_app_length, !bytes_str_bytes.
Qed.
Lemma path_shard_length id : length (str_bytes (object_path id).1) = 2.
Proof. unfold object_path, str_take. simpl. by rewrite str_bytes_str, length_take, hex_length. Qed.

#[global] Instance object_path_inj : Inj (=) (=) object_path.
Proof. intros x y Hp. apply (inj id_to_string). by rewrite <-!path_join, Hp. Qed.

(** File names of objects are hex digits, so none is a temporary file. *)
Lemma hex_bytes_digits l c : c ∈ l ≫= hex_byte → ∃ n, (n < 16)%N ∧ c = hex_digit n.
Proof.
  intros (b & Hc & _)%list_elem_of_bind. unfold hex_byte in Hc.
  pose proof (u8_bound b). apply elem_of_cons in Hc as [->|Hc%list_elem_of_singleton]; [|subst c]; eexists; split; try done.
  - apply N.Div0.div_lt_upper_bound. lia.
  - by apply N.mod_lt.
Qed.
Lemma path_digit id c : c ∈ str_bytes (object_path id).2 → hex_nibble c ≠ None.
Proof.
  unfold object_path, str_drop. simpl. rewrite str_bytes_str. unfold id_to_string, hex32. rewrite str_bytes_str.
  intros Hc. destruct (hex_bytes_digits (id_bytes id) c) as (n & Hn & ->); [|by rewrite hex_nibble_digit].
  rewrite <-(take_drop 2 (id_bytes id ≫= hex_byte)). apply elem_of_app. by right.
Qed.

Lemma tmp_byte n : x70 ∈ str_bytes (tmp_name n).
Proof. unfold tmp_name. rewrite str_bytes_app. apply elem_of_app. right. by apply (bool_decide_unpack _); vm_compute. Qed.
Lemma path_not_tmp id n : (object_path id).2 ≠ tmp_name n.
Proof. intros Hn. apply (path_digit id x70); [rewrite Hn; apply tmp_byte|done]. Qed.
Lemma path_not_tmp_suffix id : str_ends_with (object_path id).2 ".tmp" = false.
Proof.
  unfold str_ends_with. apply bool_decide_eq_false_2. intros He.
  apply (path_digit id x70); [|done]. rewrite He. apply elem_of_app. right.
  by apply (bool_decide_unpack _); vm_compute.
Qed.

(** ** Files after each system call *)
Lemma fs_file_alter b g sh p :
  fs_file (with_objects b (alter g sh (db_objects b))) p =
    if decide (p.1 = sh) then (g <$> db_objects b !! sh) ≫= (.!! p.2) else fs_file b p.
Proof.
  unfold fs_file. simpl. case_decide as Hd; [subst sh; by rewrite lookup_alter_eq|].
  by rewrite lookup_alter_ne.
Qed.

Lemma fs_file_mkdir sh b p : fs_file (fs_mkdir sh b) p = fs_file b p.
Proof.
  unfold fs_mkdir, fs_file. destruct (db_objects b !! sh) eqn:Hs; [done|]. simpl.
  destruct (decide (sh = p.1)) as [->|]; [|by rewrite lookup_insert_ne].
  rewrite lookup_insert_eq, Hs. simpl. by rewrite lookup_empty.
Qed.
Lemma fs_mkdir_shard sh b : is_Some (db_objects (fs_mkdir sh b) !! sh).
Proof.
  unfold fs_mkdir. destruct (db_objects b !! sh) eqn:Hs; [by eauto|]. simpl. rewrite lookup_insert_eq. eauto.
Qed.

Lemma fs_file_write p d b q : is_Some (db_objects b !! p.1) →
  fs_file (fs_write p d b) q = if decide (q = p) then Some (MkFile d (db_clock b)) else fs_file b q.
Proof.
  intros [shard Hs]. unfold fs_write. rewrite fs_file_alter. destruct p as [sh n], q as [sh' n']; simpl in *.
  destruct (decide (sh' = sh)) as [->|]; [|rewrite decide_False by congruence; done].
  unfold fs_file. rewrite Hs. simpl. destruct (decide (n' = n)) as [->|].
  - by rewrite lookup_insert_eq, decide_True.
  - rewrite lookup_insert_ne, decide_False by congruence. by rewrite Hs.
Qed.

Lemma fs_file_rename sh from to b f q : from ≠ to → fs_file b (sh, from) = Some f →
  fs_file (fs_rename sh from to b) q =
    if decide (q = (sh, to)) then Some f else if decide (q = (sh, from)) then None else fs_file b q.
Proof.
  intros Hne Hf. unfold fs_rename. rewrite Hf, fs_file_alter. destruct q as [sh' n]; simpl.
  unfold fs_file in *. simpl in *. destruct (db_objects b !! sh) as [shard|] eqn:Hs; [|done]. simpl in *.
  destruct (decide (sh' = sh)) as [->|]; [|rewrite !decide_False by congruence; done].
  rewrite Hs. simpl. destruct (decide (n = to)) as [->|].
  - by rewrite lookup_insert_eq, decide_True.
  - rewrite lookup_insert_ne, decide_False by congruence. destruct (decide (n = from)) as [->|].
    + by rewrite lookup_delete_eq, decide_True.
    + by rewrite lookup_delete_ne, decide_False by congruence.
Qed.

Lemma fs_file_remove p b q : fs_file (fs_remove p b) q = if decide (q = p) then None else fs_file b q.
Proof.
  unfold fs_remove. rewrite fs_file_alter. destruct p as [sh n], q as [sh' n']; simpl. unfold fs_file. simpl.
  destruct (decide (sh' = sh)) as [->|]; [|rewrite decide_False by congruence; done].
  destruct (db_objects b !! sh) as [shard|]; simpl; [|by destruct (decide _)].
  destruct (decide (n' = n)) as [->|]; [by rewrite lookup_delete_eq, decide_True|].
  by rewrite lookup_delete_ne, decide_False by congruence.
Qed.

(** ** The contract *)
Section laws.
Context `{Zstd, !ZstdLaws, ReadDir, !ReadDirLaws}.

Lemma elem_of_read_dir {A} (m : gmap string A) k v : (k, v) ∈ read_dir m ↔ m !! k = Some v.
Proof. rewrite read_dir_perm. apply elem_of_map_to_list. Qed.

Lemma elem_of_list_shard prefix shard id : 
  id ∈ list_shard prefix shard ↔ ∃ name f, object_path id = (prefix, name) ∧ shard !! name = Some f.
Proof.
  unfold list_shard. case_decide as Hl.
  - split; [by intros ?%elem_of_nil|]. intros (name & f & Hp & _). exfalso. apply Hl.
    pose proof (path_shard_length id) as Hpl. by rewrite Hp in Hpl.
  - rewrite list_elem_of_omap. split.
    + intros ([name f] & Hin%elem_of_read_dir & Hid). destruct (str_ends_with name ".tmp"); [done|].
      apply parse_hex_id_Some in Hid. exists name, f. split; [|done]. apply path_split; [lia|done].
    + intros (name & f & Hp & Hf). exists (name, f). rewrite elem_of_read_dir. split; [done|].
      pose proof (path_not_tmp_suffix id) as Ht. rewrite Hp in Ht. simpl in Ht. rewrite Ht.
      apply parse_hex_id_Some. rewrite <-(path_join id). by rewrite Hp.
Qed.

Definition db_ids (b : DiskBackend) : list ObjectId :=
  read_dir (db_objects b) ≫= λ '(prefix, shard), list_shard prefix shard.

Lemma elem_of_db_ids b id : id ∈ db_ids b ↔ is_Some (fs_file b (object_path id)).
Proof.
  unfold db_ids. rewrite list_elem_of_bind. unfold fs_file. split.
  - intros ([prefix shard] & Hid & Hin%elem_of_read_dir). apply elem_of_list_shard in Hid as (name & f & Hp & Hf).
    rewrite Hp. simpl. rewrite Hin. simpl. eauto.
  - intros [f (shard & Hs & Hf)%bind_Some]. exists ((object_path id).1, shard).
    rewrite elem_of_read_dir. split; [|done]. apply elem_of_list_shard. exists (object_path id).2, f.
    split; [apply surjective_pairing|done].
Qed.

Lemma NoDup_list_shard prefix shard : NoDup (list_shard prefix shard).
Proof.
  unfold list_shard. case_decide; [constructor|].
  assert (NoDup (read_dir shard)) as Hnd by (rewrite read_dir_perm; apply NoDup_map_to_list).
  assert (∀ n f, (n, f) ∈ read_dir shard → shard !! n = Some f) as Hin by (intros n f; apply elem_of_read_dir).
  revert Hin. induction Hnd as [|[n f] l Hnf Hnd IH]; intros Hin; [constructor|]. cbn [omap list_omap].
  specialize (IH ltac:(intros; apply Hin; by right)).
  destruct (if str_ends_with n ".tmp" then None else parse_hex_id (prefix +:+ n)) as [id|] eqn:Hid; [|done].
  destruct (str_ends_with n ".tmp"); [done|].
  constructor; [|done]. rewrite list_elem_of_omap. intros ([n' f'] & Hl & Hid').
  destruct (str_ends_with n' ".tmp"); [done|]. apply parse_hex_id_Some in Hid, Hid'.
  assert (n = n') as <-.
  { pose proof (path_split id prefix n ltac:(lia) Hid) as Hpa.
    pose proof (path_split id prefix n' ltac:(lia) Hid') as Hpb. congruence. }
  assert (f = f') as <-; [|done].
  pose proof (Hin n f ltac:(left)) as Hsa. pose proof (Hin n f' ltac:(by right)) as Hsb. congruence.
Qed.

Lemma NoDup_db_ids b : NoDup (db_ids b).
Proof.
  unfold db_ids. apply NoDup_bind.
  - intros [p1 s1] [p2 s2] id Hm1%elem_of_read_dir Hm2%elem_of_read_dir Hi1 Hi2.
    apply elem_of_list_shard in Hi1 as (? & ? & Hp1 & _), Hi2 as (? & ? & Hp2 & _).
    assert (p1 = p2) as <- by congruence. congruence.
  - intros [p s] _. apply NoDup_list_shard.
  - rewrite read_dir_perm. apply NoDup_map_to_list.
Qed.

(** What the directory stores: the files at object paths, decoded. *)
Definition db_content (b : DiskBackend) (id : ObjectId) : option bytes :=
  f ← fs_file b (object_path id); match zstd_decode (lf_bytes f) with Ok d => Some d | Err _ => None end.
Definition db_view (b : DiskBackend) : gmap ObjectId bytes :=
  map_imap (λ id _, db_content b id) (gset_to_gmap () (list_to_set (db_ids b) : gset ObjectId)).
Definition db_inv (b : DiskBackend) : Prop :=
  ∀ id f, fs_file b (object_path id) = Some f → ∃ d, zstd_decode (lf_bytes f) = Ok d.

Lemma lookup_db_view b id : db_view b !! id = db_content b id.
Proof.
  unfold db_view. rewrite map_lookup_imap, lookup_gset_to_gmap.
  destruct (decide (id ∈ (list_to_set (db_ids b) : gset ObjectId))) as [Hin|Hin].
  - by rewrite option_guard_True.
  - rewrite option_guard_False by done. simpl. rewrite elem_of_list_to_set, elem_of_db_ids in Hin.
    apply eq_None_not_Some in Hin. unfold db_content. by rewrite Hin.
Qed.

Lemma db_view_Some b id : db_inv b → is_Some (db_view b !! id) ↔ is_Some (fs_file b (object_path id)).
Proof.
  intros Hinv. rewrite lookup_db_view. unfold db_content. destruct (fs_file b (object_path id)) as [f|] eqn:Hf; simpl.
  - destruct (Hinv id f Hf) as [d ->]. split; eauto.
  - split; intros [? ?]; done.
Qed.

(** A change that touches no object path keeps the contents; one that touches a single
    path changes them there. *)
Lemma db_change b b' : db_inv b →
  (∀ id, fs_file b' (object_path id) = fs_file b (object_path id)) → db_inv b' ∧ db_view b' = db_view b.
Proof.
  intros Hinv Hs. split; [intros id f Hf; rewrite Hs in Hf; by eapply Hinv|].
  apply map_eq. intros id. rewrite !lookup_db_view. unfold db_content. by rewrite Hs.
Qed.

Lemma db_after_write b id z k : let p := object_path id in
  ∀ x, fs_file (fs_write (p.1, tmp_name p.2) (take k z) (fs_mkdir p.1 b)) (object_path x) = fs_file b (object_path x).
Proof.
  intros p x. rewrite fs_file_write by apply fs_mkdir_shard. rewrite decide_False, fs_file_mkdir; [done|].
  intros Hx. apply (path_not_tmp x p.2). by rewrite Hx.
Qed.

Lemma db_after_rename b id data z : zstd_encode data = Ok z → db_inv b → let p := object_path id in
  let b' := fs_rename p.1 (tmp_name p.2) p.2 (fs_write (p.1, tmp_name p.2) z (fs_mkdir p.1 b)) in
  db_inv b' ∧ db_view b' = <[id := data]> (db_view b).
Proof.
  intros Hz Hinv p b'.
  assert (∀ x, fs_file b' (object_path x) = if decide (x = id) then Some (MkFile z (db_clock (fs_mkdir p.1 b)))
    else fs_file b (object_path x)) as Hs.
  { intros x. unfold b'. erewrite fs_file_rename; [|by intros Hn; apply (path_not_tmp id p.2); fold p|].
    2: { rewrite fs_file_write by apply fs_mkdir_shard. by rewrite decide_True. }
    rewrite <-surjective_pairing. destruct (decide (x = id)) as [->|Hne]; [by rewrite decide_True|].
    rewrite decide_False by (intros ?; by apply Hne, (inj object_path)).
    rewrite decide_False by (intros Hx; apply (path_not_tmp x p.2); by rewrite Hx).
    rewrite <-(firstn_all z). apply (db_after_write b id z (length z)). }
  pose proof (zstd_decode_encode _ _ Hz) as Hd. split.
  - intros x f. rewrite Hs. case_decide; [intros [= <-]; eauto|apply Hinv].
  - apply map_eq. intros x. rewrite lookup_db_view. unfold db_content. rewrite Hs.
    destruct (decide (x = id)) as [->|]; simpl.
    + by rewrite Hd, lookup_insert_eq.
    + rewrite lookup_insert_ne, lookup_db_view by done. done.
Qed.

(** The store a finished write leaves. *)
Definition put_done (b : DiskBackend) (id : ObjectId) (z : bytes) : DiskBackend :=
  let p := object_path id in
  fs_rename p.1 (tmp_name p.2) p.2 (fs_write (p.1, tmp_name p.2) z (fs_mkdir p.1 b)).
Lemma put_done_view b id data z : zstd_encode data = Ok z → db_inv b →
  db_inv (put_done b id z) ∧ db_view (put_done b id z) = <[id := data]> (db_view b).
Proof. intros Hz Hinv. exact (db_after_rename b id data z Hz Hinv). Qed.

Lemma db_after_remove b id : db_inv b → 
  db_inv (fs_remove (object_path id) b) ∧ db_view (fs_remove (object_path id) b) = delete id (db_view b).
Proof.
  intros Hinv.
  assert (∀ x, fs_file (fs_remove (object_path id) b) (object_path x) =
    if decide (x = id) then None else fs_file b (object_path x)) as Hs.
  { intros x. rewrite fs_file_remove. destruct (decide (x = id)) as [->|Hne]; [by rewrite decide_True|].
    rewrite decide_False; [done|]. intros ?. by apply Hne, (inj object_path). }
  split.
  - intros x f. rewrite Hs. case_decide; [done|apply Hinv].
  - apply map_eq. intros x. rewrite lookup_db_view. unfold db_content. rewrite Hs.
    destruct (decide (x = id)) as [->|]; simpl; [by rewrite lookup_delete_eq|].
    rewrite lookup_delete_ne, lookup_db_view by done. done.
Qed.

Lemma db_put_steps id data b r b' : db_put id data b = (r, b') →
  (is_Some (fs_file b (object_path id)) ∧ r = Ok () ∧ b' = b) ∨
  (fs_file b (object_path id) = None ∧
    ((∃ e, zstd_encode data = Err e ∧ r = Err (Storage e) ∧ b' = fs_mkdir (object_path id).1 b) ∨
     ∃ z, zstd_encode data = Ok z ∧ r = Ok () ∧
       b' = fs_rename (object_path id).1 (tmp_name (object_path id).2) (object_path id).2
         (fs_write ((object_path id).1, tmp_name (object_path id).2) z (fs_mkdir (object_path id).1 b)))).
Proof.
  unfold db_put, db_exists. destruct (object_path id) as [sh name]. simpl_res.
  case_bool_decide as Hs; [intros [= <- <-]; by left|]. apply eq_None_not_Some in Hs.
  destruct (zstd_encode data) as [z|e]; intros [= <- <-]; right; split; [done| |done|]; [right|left]; eauto.
Qed.

Lemma db_sweep_list keep l : ∀ n b m b', db_inv b → sweep_list db_delete keep l n b = (Ok m, b') →
  db_inv b' ∧ db_view b' ⊆ db_view b ∧ ∀ x, x ∈ keep → db_view b' !! x = db_view b !! x.
Proof.
  induction l as [|y l IH]; intros n b m b' Hinv; simpl; [by intros [= _ <-]|].
  case_decide as Hk; [by apply IH|]. rewrite M_bind_Ok. intros (? & b1 & [= _ <-] & Hs).
  destruct (db_after_remove b y Hinv) as [Hinv1 Hv1]. apply IH in Hs as (Hinv' & Hsub & Hkeep); [|done].
  split_and!; [done| |].
  - etrans; [exact Hsub|]. rewrite Hv1. apply delete_subseteq.
  - intros w Hw. rewrite Hkeep, Hv1 by done. apply lookup_delete_ne. by intros ->.
Qed.

#[global] Program Instance disk_StorageLaws : StorageLaws DiskBackend := {|
  sb_inv := db_inv;
  sb_view := db_view
|}.
Next Obligation.
  intros b x v Hinv. simpl. unfold db_get. rewrite lookup_db_view. unfold db_content.
  destruct (fs_file b (object_path x)) as [f|]; simpl; [|by intros [= <-]].
  destruct (zstd_decode (lf_bytes f)); [by intros [= <-]|done].
Qed.
Next Obligation.
  intros b x v Hinv [= <-]. apply bool_decide_ext. symmetry. by apply db_view_Some.
Qed.
Next Obligation.
  intros b l Hinv [= <-]. split; [apply NoDup_db_ids|]. intros x. rewrite db_view_Some by done. apply elem_of_db_ids.
Qed.
Next Obligation.
  intros b x data b' Hinv Hnone Hput. apply db_put_steps in Hput as [[Hs _]|[_ [(e & _ & [=] & _)|(z & Hz & _ & ->)]]].
  - apply db_view_Some in Hs as [? Hs]; [|done]. by rewrite Hnone in Hs.
  - by apply (db_after_rename b x data z).
Qed.
Next Obligation. intros b x b' Hinv [= <-]. by apply db_after_remove. Qed.
Next Obligation. intros b n b' Hinv [= _ <-]. done. Qed.
Next Obligation.
  intros b keep grace now n b' Hinv Hs. simpl in Hs. unfold default_sweep in Hs. rewrite M_bind_Ok in Hs.
  destruct Hs as (l & s & [= _ <-] & Hs). by eapply db_sweep_list.
Qed.

(** Loose writes are atomic. Wherever a [put] stops (before it starts, with the
    shard directory made, with any prefix of the compressed bytes in the temporary file,
    with all of them, or after the rename) the store it leaves is sound and holds exactly
    what it held before, or that and the new object; a [put] that returns has got to one of
    these states, and listing, reading and existence checks never see the temporary file. *)
Theorem loose_put_crash_safe (b s : DiskBackend) (id : ObjectId) (data : bytes) :
  db_inv b → put_crash b id data s →
  db_inv s ∧ (db_view s = db_view b ∨ db_view s = <[id := data]> (db_view b)) ∧
  (∃ l, db_list s = Ok l ∧ NoDup l ∧ ∀ x, x ∈ l ↔ is_Some (db_view s !! x)) ∧
  (∀ x, db_get s x = Ok (db_view s !! x)) ∧
  (∀ r b', db_put id data b = (r, b') → db_view b !! id = None → put_crash b id data b' ∧
     (r = Ok () → db_view b' = <[id := data]> (db_view b))).
Proof.
  intros Hinv Hc.
  assert (db_inv s ∧ (db_view s = db_view b ∨ db_view s = <[id := data]> (db_view b))) as [Hs Hv].
  { destruct Hc as [| |z k Hz|z Hz]; [by split; [|left]|..].
    - destruct (db_change b (fs_mkdir (object_path id).1 b) Hinv) as [? ?]; [intros; apply fs_file_mkdir|]. by split; [|left].
    - edestruct (db_change b) as [? ?]; [done|apply (db_after_write b id)|]. split; [done|by left].
    - destruct (db_after_rename b id data z Hz Hinv). split; [done|by right]. }
  split; [done|]. split; [done|]. split; [|split].
  - exists (db_ids s). split; [done|]. split; [apply NoDup_db_ids|]. intros x. rewrite db_view_Some by done. apply elem_of_db_ids.
  - intros x. unfold db_get. rewrite lookup_db_view. unfold db_content.
    destruct (fs_file s (object_path x)) as [f|] eqn:Hf; [|done]. simpl. by destruct (Hs x f Hf) as [d ->].
  - intros r b' Hput Hnone. apply db_put_steps in Hput as [[Hsm _]|[_ [(e & He & -> & ->)|(z & Hz & -> & ->)]]].
    + apply db_view_Some in Hsm as [? Hsm]; [|done]. by rewrite Hnone in Hsm.
    + split; [constructor|done].
    + split; [by constructor|]. intros _. by apply db_after_rename.
Qed.
End laws.

(** ** A concrete directory order, and a store *)
Definition toy_read_dir : ReadDir := {| read_dir A m := map_to_list m |}.
Lemma toy_read_dir_laws : @ReadDirLaws toy_read_dir.
Proof. split. intros A m. done. Qed.

Section demo.
Local Existing Instance toy_zstd.
Local Existing Instance toy_zstd_laws.
Local Existing Instance rolling_codec.
Local Existing Instance toy_read_dir.
Local Existing Instance toy_read_dir_laws.

Definition ex_id1 : ObjectId := object_id ex_data1.
Definition ex_id2 : ObjectId := object_id ex_data2.
Definition ex_empty : DiskBackend := MkDisk ∅ 1000.
Definition ex_disk : DiskBackend := (db_put ex_id2 ex_data2 (db_put ex_id1 ex_data1 ex_empty).2).2.
(** Two bytes of the second object's file written. *)
Definition ex_half : DiskBackend :=
  let p := object_path ex_id2 in
  fs_write (p.1, tmp_name p.2) [x28; x00] (fs_mkdir p.1 (db_put ex_id1 ex_data1 ex_empty).2).

Lemma ex_empty_inv : db_inv ex_empty.
Proof. intros x f Hx. discriminate Hx. Qed.
Lemma ex_disk1_inv : db_inv (db_put ex_id1 ex_data1 ex_empty).2.
Proof.
  assert (db_put ex_id1 ex_data1 ex_empty = (Ok (), (db_put ex_id1 ex_data1 ex_empty).2)) as Hp by (vm_compute; reflexivity).
  assert (db_view ex_empty !! ex_id1 = None) as Hn by (vm_compute; reflexivity).
  exact (proj1 (sb_put_Ok ex_empty ex_id1 ex_data1 _ ex_empty_inv Hn Hp)).
Qed.
Lemma ex_disk_inv : db_inv ex_disk.
Proof.
  assert (db_put ex_id2 ex_data2 (db_put ex_id1 ex_data1 ex_empty).2 = (Ok (), ex_disk)) as Hp by (vm_compute; reflexivity).
  assert (db_view (db_put ex_id1 ex_data1 ex_empty).2 !! ex_id2 = None) as Hn by (vm_compute; reflexivity).
  exact (proj1 (sb_put_Ok _ ex_id2 ex_data2 ex_disk ex_disk1_inv Hn Hp)).
Qed.

Lemma loose_put_crash_safe_witness : db_inv ex_half ∧ db_get ex_half ex_id1 = Ok (Some ex_data1) ∧
  db_get ex_half ex_id2 = Ok None ∧ db_list ex_half = Ok [ex_id1].
Proof.
  assert (put_crash (db_put ex_id1 ex_data1 ex_empty).2 ex_id2 ex_data2 ex_half) as Hc
    by exact (crash_tmp _ _ _ (x28 :: ex_data2) 2 eq_refl).
  destruct (loose_put_crash_safe _ ex_half ex_id2 ex_data2 ex_disk1_inv Hc) as (Hi & _).
  split; [exact Hi|]. split; [vm_compute; reflexivity|]. split; vm_compute; reflexivity.
Defined.
End demo.
