(* ===== verification/Packed.v ===== *)
(** * Packed: loose objects and packs behind one backend

    [PackedDiskBackend] of src/src/store/packed.rs: a loose store, the pack files of the
    [packs] directory and the indexes loaded from them.  Reads look at the loose store
    first; writes land there; repacking folds everything into one new pack named after its
    digest, then deletes the packs it replaces, then the loose copies.  The state keeps the
    loose store, the files of [packs] by name and the loaded packs in probe order. *)

From S2P Require Import Prelude Bytes Ids Objects Store Pack Disk.
From Stdlib Require Import Lia.

(** ** File names *)

(** A name split at its last dot. *)
Fixpoint rsplit_dot (s : string) : option (string * string) :=
  match s with
  | EmptyString => None
  | String c s' =>
      match rsplit_dot s' with
      | Some (a, b) => Some (String c a, b)
      | None => if decide (c = Ascii.ascii_of_nat 46) then Some ("", s') else None
      end
  end.
(** [Path::extension]: none when nothing stands before the dot. *)
Definition extension (name : string) : option string :=
  '(stem, ext) ← rsplit_dot name; if decide (stem = "") then None else Some ext.
(** [Path::with_extension] *)
Definition with_extension (name ext : string) : string :=
  let stem := match rsplit_dot name with
              | Some (stem, _) => if decide (stem = "") then name else stem
              | None => name
              end in
  stem +:+ "." +:+ ext.

(** ** State *)
Record Pack : Type := MkPack { pk_idx : PackIndex; pk_path : string }.
Record PackedDiskBackend : Type := MkPacked {
  pb_loose : DiskBackend;
  pb_dir : gmap string bytes;
  pb_packs : list Pack
}.
Definition with_loose (b : PackedDiskBackend) (l : DiskBackend) : PackedDiskBackend :=
  MkPacked l (pb_dir b) (pb_packs b).
Definition with_dir (b : PackedDiskBackend) (d : gmap string bytes) : PackedDiskBackend :=
  MkPacked (pb_loose b) d (pb_packs b).
Definition with_packs (b : PackedDiskBackend) (p : list Pack) : PackedDiskBackend :=
  MkPacked (pb_loose b) (pb_dir b) p.

(** Runs an operation of the loose store. *)
Definition on_loose {A} (m : M DiskBackend A) : M PackedDiskBackend A := λ b,
  let '(r, l) := m (pb_loose b) in (r, with_loose b l).

Section ops.
Context `{Zstd, ReadDir, ObjectCodec}.

(** [load_packs]: the [.idx] names, newest name first; an index without its pack is
    skipped, but not before it has been read and parsed. *)
Definition idx_paths (d : gmap string bytes) : list string :=
  reverse (merge_sort String.le (filter (λ n, extension n = Some "idx") (read_dir d).*1)).
Definition load_pack (d : gmap string bytes) (packs : list Pack) (idx_path : string) : res (list Pack) :=
  data ← ok_or (d !! idx_path) (Io NotFound);
  idx ← index_parse data;
  let pack_path := with_extension idx_path "pack" in
  if decide (d !! pack_path = None) then Ok packs else Ok (packs ++ [MkPack idx pack_path]).
Definition load_packs (d : gmap string bytes) : res (list Pack) := res_fold (load_pack d) [] (idx_paths d).

Definition packed_open (loose : DiskBackend) (d : gmap string bytes) : res PackedDiskBackend :=
  packs ← load_packs d; Ok (MkPacked loose d packs).

Definition reload_packs : M PackedDiskBackend () := λ b,
  match load_packs (pb_dir b) with
  | Ok packs => (Ok (), with_packs b packs)
  | Err e => (Err e, b)
  end.

(** ** Reading *)
Fixpoint in_packs (packs : list Pack) (id : ObjectId) : res (option (string * N * N)) :=
  match packs with
  | [] => Ok None
  | p :: packs =>
      hit ← index_lookup (pk_idx p) id;
      match hit with
      | Some (off, len) => Ok (Some (pk_path p, off, len))
      | None => in_packs packs id
      end
  end.
Definition in_any_pack (b : PackedDiskBackend) (id : ObjectId) : res (option (string * N * N)) :=
  in_packs (pb_packs b) id.

(** Open, seek, [read_exact], decode; the id of the frame is not compared. *)
Definition read_pack_frame (d : gmap string bytes) (path : string) (offset len : N) : res bytes :=
  file ← ok_or (d !! path) (Io NotFound);
  buf ← ok_or (get_range file offset (offset + len)) (Io (OtherIo "failed to fill whole buffer"));
  '(_, canonical) ← decode_frame_public buf;
  Ok canonical.

Definition pb_get (b : PackedDiskBackend) (id : ObjectId) : res (option bytes) :=
  loose ← db_get (pb_loose b) id;
  match loose with
  | Some data => Ok (Some data)
  | None =>
      hit ← in_any_pack b id;
      match hit with
      | Some (path, off, len) => canonical ← read_pack_frame (pb_dir b) path off len; Ok (Some canonical)
      | None => Ok None
      end
  end.

Definition pb_exists (b : PackedDiskBackend) (id : ObjectId) : res bool :=
  e ← db_exists (pb_loose b) id;
  if e : bool then Ok true else hit ← in_any_pack b id; Ok (bool_decide (is_Some hit)).

(** A [BTreeSet] of the loose ids and those of every pack. *)
Definition packed_ids (b : PackedDiskBackend) : list ObjectId := pb_packs b ≫= λ p, index_ids (pk_idx p).
Definition pb_list (b : PackedDiskBackend) : res (list ObjectId) :=
  loose ← db_list (pb_loose b);
  Ok (btree_elems (list_to_set (loose ++ packed_ids b))).

(** Counts the loose ids no pack has. *)
Fixpoint count_extra (packs : list Pack) (loose : list ObjectId) : res N :=
  match loose with
  | [] => Ok 0%N
  | id :: loose =>
      hit ← in_packs packs id;
      n ← count_extra packs loose;
      Ok (if decide (hit = None) then 1 + n else n)%N
  end.
Definition pb_count (b : PackedDiskBackend) : res N :=
  loose ← db_list (pb_loose b);
  let packed := foldr (λ p n, (N.of_nat (index_count (pk_idx p)) + n)%N) 0%N (pb_packs b) in
  extra ← count_extra (pb_packs b) loose;
  Ok (packed + extra)%N.

(** ** Writing *)
Definition pb_put (id : ObjectId) (data : bytes) : M PackedDiskBackend () :=
  hit ← gets (λ b, in_any_pack b id);
  match hit with Some _ => mret () | None => on_loose (db_put id data) end.
Definition pb_delete (id : ObjectId) : M PackedDiskBackend () := on_loose (db_delete id).

(** ** Repacking *)

(** [remove_file], its failure ignored. *)
Definition dir_remove (p : string) : M PackedDiskBackend () := modify (λ b, with_dir b (delete p (pb_dir b))).
(** [write_synced]: a temporary file beside the target, then a rename. *)
Definition dir_write_synced (path : string) (data : bytes) : M PackedDiskBackend () :=
  let tmp := with_extension path "tmp" in
  _ ← modify (λ b, with_dir b (<[tmp := data]> (pb_dir b)));
  modify (λ b, with_dir b (<[path := data]> (delete tmp (pb_dir b)))).
Definition write_pack_atomic (hex : string) (pack idx : bytes) : M PackedDiskBackend () :=
  let stem := "pack-" +:+ hex in
  _ ← dir_write_synced (stem +:+ ".pack") pack;
  dir_write_synced (stem +:+ ".idx") idx.
(** Unlinks a pack and its index. *)
Definition remove_pack (p : string) : M PackedDiskBackend () :=
  _ ← dir_remove p; dir_remove (with_extension p "idx").
Definition remove_packs (paths : list string) : M PackedDiskBackend () := M_iter remove_pack paths.
Definition retire_all_packs : M PackedDiskBackend () :=
  paths ← gets (λ b, Ok (pk_path <$> pb_packs b));
  _ ← remove_packs paths;
  reload_packs.

Definition excluded (keep : option (gset ObjectId)) (id : ObjectId) : bool :=
  match keep with Some k => bool_decide (id ∉ k) | None => false end.

(** The gathering loop: each id once, those of [keep], with its bytes. *)
Fixpoint gather (b : PackedDiskBackend) (keep : option (gset ObjectId)) (ids : list ObjectId)
    (seen : gset ObjectId) (builder : PackBuilder) : res PackBuilder :=
  match ids with
  | [] => Ok builder
  | id :: ids =>
      if decide (id ∈ seen) then gather b keep ids seen builder
      else
        let seen := {[id]} ∪ seen in
        if excluded keep id then gather b keep ids seen builder
        else
          data ← pb_get b id;
          match data with
          | Some data => gather b keep ids seen (builder_add builder id data)
          | None => gather b keep ids seen builder
          end
  end.

(** The ids of [builder] are the [sources] of the code. *)
Definition repack_keeping (keep : option (gset ObjectId)) : M PackedDiskBackend (option (vec byte 32)) :=
  loose_ids ← gets (λ b, db_list (pb_loose b));
  builder ← gets (λ b, gather b keep (loose_ids ++ packed_ids b) ∅ builder_new);
  if builder_is_empty builder then
    _ ← match keep with Some _ => retire_all_packs | None => mret () end;
    mret None
  else
    '(pack_bytes, entries, digest) ← lift_res (finish builder);
    let idx_bytes := index_encode (index_build entries digest) in
    let hex := hex32 (vec_to_list digest) in
    old_packs ← gets (λ b, Ok (pk_path <$> pb_packs b));
    _ ← write_pack_atomic hex pack_bytes idx_bytes;
    _ ← remove_packs old_packs;
    _ ← reload_packs;
    _ ← M_iter (λ id, on_loose (db_delete id)) builder.*1;
    mret (Some digest).
Definition repack : M PackedDiskBackend (option (vec byte 32)) := repack_keeping None.

Definition pb_compact : M PackedDiskBackend N :=
  loose ← gets (λ b, db_list (pb_loose b));
  _ ← repack;
  mret (N.of_nat (length loose)).

(** [loose_mtime_secs] *)
Definition loose_mtime_secs (b : PackedDiskBackend) (id : ObjectId) : option N :=
  lf_mtime <$> fs_file (pb_loose b) (object_path id).

Definition sweep_one (reachable : gset ObjectId) (grace_secs now : N) (id : ObjectId) : M PackedDiskBackend () :=
  if decide (id ∈ reachable) then mret ()
  else
    mtime ← gets (λ b, Ok (loose_mtime_secs b id));
    match mtime with
    | Some m => if (now <? saturating_add m grace_secs)%N then mret () else on_loose (db_delete id)
    | None => on_loose (db_delete id)
    end.
Definition pb_sweep (reachable : gset ObjectId) (grace_secs now : N) : M PackedDiskBackend N :=
  before ← gets pb_count;
  _ ← repack_keeping (Some reachable);
  ids ← gets (λ b, db_list (pb_loose b));
  _ ← M_iter (sweep_one reachable grace_secs now) ids;
  after ← gets pb_count;
  mret (before - after)%N.

#[global] Instance packed_StorageBackend : StorageBackend PackedDiskBackend := {|
  sb_put := pb_put;
  sb_get := pb_get;
  sb_exists := pb_exists;
  sb_delete := pb_delete;
  sb_list := pb_list;
  sb_count := pb_count;
  sb_compact := pb_compact;
  sb_sweep := pb_sweep
|}.
End ops.

(** ** Names of packs *)
Lemma rsplit_dot_file s e : rsplit_dot e = None → rsplit_dot (s +:+ "." +:+ e) = Some (s, e).
Proof.
  intros He. induction s as [|c s IH].
  - change ("" +:+ "." +:+ e) with (String (Ascii.ascii_of_nat 46) e). simpl. by rewrite He.
  - change (String c s +:+ "." +:+ e) with (String c (s +:+ "." +:+ e)). simpl. by rewrite IH.
Qed.
Lemma rsplit_dot_Some n : ∀ s e, rsplit_dot n = Some (s, e) → n = s +:+ "." +:+ e.
Proof.
  induction n as [|c n IH]; intros s e; [done|]. simpl. destruct (rsplit_dot n) as [[a b]|].
  - intros [= <- <-]. change (String c a +:+ "." +:+ b) with (String c (a +:+ "." +:+ b)). by rewrite (IH a b).
  - case_decide as Hc; [|done]. intros [= <- <-]. by subst.
Qed.

Lemma extension_file s e : rsplit_dot e = None → s ≠ "" → extension (s +:+ "." +:+ e) = Some e.
Proof. intros He Hs. unfold extension. rewrite rsplit_dot_file by done. simpl. by rewrite decide_False. Qed.
Lemma with_extension_file s e e' : rsplit_dot e = None → s ≠ "" →
  with_extension (s +:+ "." +:+ e) e' = s +:+ "." +:+ e'.
Proof. intros He Hs. unfold with_extension. rewrite rsplit_dot_file by done. by rewrite decide_False. Qed.
Lemma extension_Some n e : extension n = Some e → ∃ s, s ≠ "" ∧ n = s +:+ "." +:+ e.
Proof.
  unfold extension. intros ([s e'] & Hr & Hs)%bind_Some. case_decide; [done|]. injection Hs as ->.
  exists s. split; [done|]. by apply rsplit_dot_Some.
Qed.
Lemma file_inj s s' e e' : rsplit_dot e = None → rsplit_dot e' = None →
  s +:+ "." +:+ e = s' +:+ "." +:+ e' → s = s' ∧ e = e'.
Proof.
  intros He He' Heq. pose proof (rsplit_dot_file s e He) as Ha. rewrite Heq, rsplit_dot_file in Ha by done.
  by injection Ha as -> ->.
Qed.

(** ** Loading *)
Section load.
Context `{Zstd, ReadDir, !ReadDirLaws, ObjectCodec}.

Lemma elem_of_idx_paths d n : n ∈ idx_paths d ↔ extension n = Some "idx" ∧ is_Some (d !! n).
Proof.
  unfold idx_paths. rewrite elem_of_reverse, merge_sort_Permutation, list_elem_of_filter, list_elem_of_fmap.
  split; intros [He Hd]; (split; [done|]).
  - destruct Hd as ([k v] & -> & Hin%elem_of_read_dir). eauto.
  - destruct Hd as [v Hv]. exists (n, v). by rewrite elem_of_read_dir.
Qed.
Lemma NoDup_idx_paths d : NoDup (idx_paths d).
Proof.
  unfold idx_paths. rewrite reverse_Permutation, merge_sort_Permutation. apply NoDup_filter.
  rewrite read_dir_perm. apply NoDup_fst_map_to_list.
Qed.

Definition parsed (d : gmap string bytes) (n : string) : option PackIndex :=
  data ← d !! n; match index_parse data with Ok i => Some i | Err _ => None end.
Definition loaded (d : gmap string bytes) (n : string) : option Pack :=
  i ← parsed d n; if decide (d !! with_extension n "pack" = None) then None else Some (MkPack i (with_extension n "pack")).

Lemma load_pack_Ok d acc n acc' : load_pack d acc n = Ok acc' ↔
  is_Some (parsed d n) ∧ acc' = acc ++ option_list (loaded d n).
Proof.
  unfold load_pack, loaded, parsed. destruct (d !! n) as [data|]; simpl; [|split; [done|by intros [[? ?] _]]].
  destruct (index_parse data) as [i|]; simpl; [|split; [done|by intros [[? ?] _]]].
  case_decide; simpl; rewrite ?app_nil_r; (split; [intros [= <-]; by split; [eauto|]|by intros [_ ->]]).
Qed.

Lemma load_fold d l : ∀ acc packs, res_fold (load_pack d) acc l = Ok packs ↔
  (∀ n, n ∈ l → is_Some (parsed d n)) ∧ packs = acc ++ omap (loaded d) l.
Proof.
  induction l as [|n l IH]; intros acc packs.
  - simpl. rewrite app_nil_r. split; [intros [= ->]; split; [by intros ? ?%elem_of_nil|done]|by intros [_ ->]].
  - cbn [res_fold omap list_omap]. rewrite bind_Ok.
    assert (∀ o : list Pack, match loaded d n with Some y => y :: o | None => o end = option_list (loaded d n) ++ o)
      as Ho by (intros o; by destruct (loaded d n)).
    rewrite Ho, app_assoc. split.
    + intros (acc' & [Hn ->]%load_pack_Ok & [Hl ->]%IH). split; [|done].
      intros x [->|Hx]%elem_of_cons; auto.
    + intros [Hall ->]. exists (acc ++ option_list (loaded d n)). split.
      * apply load_pack_Ok. split; [apply Hall; left|done].
      * apply IH. split; [|done]. intros x Hx. apply Hall. by right.
Qed.

Lemma load_packs_Ok d packs : load_packs d = Ok packs ↔
  (∀ n, n ∈ idx_paths d → is_Some (parsed d n)) ∧ packs = omap (loaded d) (idx_paths d).
Proof. unfold load_packs. by rewrite load_fold. Qed.

(** A loaded pack is a pair of files with the same stem. *)
Lemma elem_of_loaded d packs p : load_packs d = Ok packs →
  p ∈ packs ↔ ∃ s data, s ≠ "" ∧ pk_path p = s +:+ ".pack" ∧ d !! (s +:+ ".idx") = Some data ∧
    index_parse data = Ok (pk_idx p) ∧ is_Some (d !! (s +:+ ".pack")).
Proof.
  intros [_ ->]%load_packs_Ok. rewrite list_elem_of_omap. unfold loaded, parsed. split.
  - intros (n & [Hext _]%elem_of_idx_paths & Hl). destruct (extension_Some _ _ Hext) as (s & Hs & ->).
    rewrite (with_extension_file s "idx" "pack") in Hl by done. apply bind_Some in Hl as (i & Hi & Hl).
    apply bind_Some in Hi as (data & Hd & Hi). destruct (index_parse data) as [i'|] eqn:Hp; [|done].
    injection Hi as ->. case_decide as Hn; [done|]. injection Hl as <-. exists s, data. split_and!; try done.
    by apply not_eq_None_Some in Hn.
  - intros (s & data & Hs & Hp & Hd & Hi & Hpk). exists (s +:+ ".idx"). split.
    + apply elem_of_idx_paths. split; [by apply (extension_file s "idx")|eauto].
    + change (s +:+ ".idx") with (s +:+ "." +:+ "idx") in *. rewrite (with_extension_file s "idx" "pack") by done.
      rewrite Hd. simpl. rewrite Hi. simpl. rewrite decide_False by (by apply not_eq_None_Some).
      destruct p as [i path]. simpl in *. by subst.
Qed.
End load.

(** ** The directory after a repack *)
Section repack_dir.
Context `{Zstd, ReadDir, !ReadDirLaws, ObjectCodec}.

Definition written (d : gmap string bytes) (stem : string) (pack idx : bytes) : gmap string bytes :=
  <[stem +:+ ".idx" := idx]> (delete (stem +:+ ".tmp") (<[stem +:+ ".tmp" := idx]>
    (<[stem +:+ ".pack" := pack]> (delete (stem +:+ ".tmp") (<[stem +:+ ".tmp" := pack]> d))))).
Definition removed (d : gmap string bytes) (paths : list string) : gmap string bytes :=
  foldl (λ d p, delete (with_extension p "idx") (delete p d)) d paths.

Lemma write_pack_atomic_eq hex pack idx b :
  write_pack_atomic hex pack idx b = (Ok (), with_dir b (written (pb_dir b) ("pack-" +:+ hex) pack idx)).
Proof.
  unfold write_pack_atomic, dir_write_synced. set (s := "pack-" +:+ hex). assert (s ≠ "") as Hs by done.
  change (s +:+ ".pack") with (s +:+ "." +:+ "pack"). change (s +:+ ".idx") with (s +:+ "." +:+ "idx").
  rewrite !with_extension_file by done. reflexivity.
Qed.

Lemma remove_packs_eq paths : ∀ b, remove_packs paths b = (Ok (), with_dir b (removed (pb_dir b) paths)).
Proof.
  unfold remove_packs, removed. induction paths as [|p paths IH]; intros b.
  - simpl. unfold mret, M_ret, with_dir. by destruct b.
  - cbn [M_iter foldl]. unfold mbind, M_bind, remove_pack, dir_remove, modify. simpl. unfold mbind, M_bind. simpl.
    rewrite IH. by unfold with_dir.
Qed.

Definition is_removed (paths : list string) (n : string) : Prop :=
  Exists (λ p, n = p ∨ n = with_extension p "idx") paths.

Lemma lookup_removed paths : ∀ d n, removed d paths !! n = if decide (is_removed paths n) then None else d !! n.
Proof.
  unfold removed, is_removed. induction paths as [|p paths IH]; intros d n; cbn [foldl].
  - rewrite decide_False; [done|]. by intros ?%Exists_nil.
  - rewrite IH. destruct (decide (Exists _ paths)) as [Hd|Hd].
    + rewrite decide_True; [done|]. by right.
    + case_decide as Hd'.
      * rewrite !lookup_delete_None. apply Exists_cons in Hd' as [[Heq|Heq]|?]; [auto..|done].
      * rewrite Exists_cons in Hd'. rewrite !lookup_delete_ne; [done| |]; intros Heq; apply Hd'; auto.
Qed.

Lemma lookup_written d s pack idx n : lookup n (written d s pack idx) =
  if decide (n = s +:+ ".idx") then Some idx else if decide (n = s +:+ ".tmp") then None
  else if decide (n = s +:+ ".pack") then Some pack else d !! n.
Proof.
  unfold written. repeat case_decide; subst; rewrite ?lookup_insert_eq; try done.
  - rewrite lookup_insert_ne by done. by rewrite lookup_delete_eq.
  - rewrite lookup_insert_ne, lookup_delete_ne, lookup_insert_ne by done. by rewrite lookup_insert_eq.
  - by rewrite lookup_insert_ne, lookup_delete_ne, lookup_insert_ne, lookup_insert_ne, lookup_delete_ne,
      lookup_insert_ne by done.
Qed.

Lemma ext_inj s s' e e' : rsplit_dot e = None → rsplit_dot e' = None →
  s +:+ "." +:+ e = s' +:+ "." +:+ e' ↔ s = s' ∧ e = e'.
Proof. intros. split; [by apply file_inj|by intros [-> ->]]. Qed.

(** A new pack [s] written over the packs of a directory, which are then removed. *)
Section after.
Context (d : gmap string bytes) (packs : list Pack) (s : string) (pack idx : bytes).
Context (Hs : s ≠ "") (Hload : load_packs d = Ok packs).

Definition olds : list string := pk_path <$> packs.
Definition after_repack : gmap string bytes := removed (written d s pack idx) olds.

Lemma elem_of_olds n : n ∈ olds → ∃ q, q ≠ "" ∧ n = q +:+ "." +:+ "pack".
Proof.
  intros (p & -> & Hp)%list_elem_of_fmap. apply (elem_of_loaded d) in Hp as (q & _ & Hq & Hpath & _); [|done].
  exists q. split; [done|exact Hpath].
Qed.

Lemma is_removed_file q e : q ≠ "" → e = "idx" ∨ e = "pack" →
  is_removed olds (q +:+ "." +:+ e) ↔ q +:+ "." +:+ "pack" ∈ olds.
Proof.
  intros Hq He. unfold is_removed. rewrite Exists_exists. split.
  - intros (p & Hp & Heq). destruct (elem_of_olds p Hp) as (q' & Hq' & ->).
    rewrite with_extension_file, !ext_inj in Heq by (try done; by destruct He as [->| ->]).
    by destruct Heq as [[-> _]|[-> _]].
  - intros Hp. exists (q +:+ "." +:+ "pack"). split; [done|].
    rewrite with_extension_file by done. destruct He as [->| ->]; auto.
Qed.

Lemma lookup_after q e : q ≠ "" → e = "idx" ∨ e = "pack" →
  after_repack !! (q +:+ "." +:+ e) =
    if decide (q +:+ "." +:+ "pack" ∈ olds) then None
    else if decide (q = s) then Some (if decide (e = "idx") then idx else pack)
    else d !! (q +:+ "." +:+ e).
Proof.
  intros Hq He. unfold after_repack. rewrite lookup_removed.
  rewrite (decide_ext _ _ _ _ (is_removed_file q e Hq He)). case_decide; [done|]. rewrite lookup_written.
  change (s +:+ ".idx") with (s +:+ "." +:+ "idx"). change (s +:+ ".pack") with (s +:+ "." +:+ "pack").
  change (s +:+ ".tmp") with (s +:+ "." +:+ "tmp").
  assert (∀ e', rsplit_dot e' = None → q +:+ "." +:+ e = s +:+ "." +:+ e' ↔ q = s ∧ e = e') as Hx
    by (intros e' He'; apply ext_inj; [by destruct He as [->| ->]|done]).
  rewrite (decide_ext _ _ _ _ (Hx "idx" eq_refl)), (decide_ext _ _ _ _ (Hx "tmp" eq_refl)),
    (decide_ext _ _ _ _ (Hx "pack" eq_refl)).
  destruct (decide (q = s)) as [->|Hqs]; [|by rewrite !decide_False by by intros [? _]].
  destruct He as [->| ->].
  - by rewrite decide_True.
  - rewrite !decide_False by by intros [_ ?]. by rewrite decide_True.
Qed.

(** An index left over from before had no pack, and has none. *)
Lemma orphan q : q ≠ "" → q ≠ s → is_Some (after_repack !! (q +:+ "." +:+ "idx")) →
  is_Some (parsed after_repack (q +:+ "." +:+ "idx")) ∧ after_repack !! (q +:+ "." +:+ "pack") = None.
Proof.
  intros Hq Hqs Hsome. unfold parsed. rewrite !lookup_after in * by auto.
  case_decide as Hin; [by destruct Hsome|]. rewrite !decide_False in * by done. destruct Hsome as [data Hdata].
  apply load_packs_Ok in Hload as Hl. destruct Hl as [Hparse _].
  destruct (Hparse (q +:+ "." +:+ "idx")) as [i Hi].
  { apply elem_of_idx_paths. split; [by apply extension_file|eauto]. }
  unfold parsed in Hi. split; [eauto|]. apply eq_None_not_Some. intros Hpk. apply Hin, list_elem_of_fmap.
  exists (MkPack i (q +:+ ".pack")). split; [done|]. apply (elem_of_loaded d); [done|]. exists q, data.
  split_and!; try done. rewrite Hdata in Hi. simpl in *. destruct (index_parse data); congruence.
Qed.

Lemma after_others n : n ∈ idx_paths after_repack → n ≠ s +:+ "." +:+ "idx" →
  is_Some (parsed after_repack n) ∧ loaded after_repack n = None.
Proof.
  intros [Hext Hn]%elem_of_idx_paths Hne. destruct (extension_Some _ _ Hext) as (q & Hq & ->).
  destruct (orphan q Hq) as [Hp Hnone]; [by intros ->|done|]. split; [done|].
  unfold loaded. destruct (parsed after_repack _) as [i|]; [|by destruct Hp]. simpl.
  rewrite with_extension_file by done. by rewrite Hnone.
Qed.

(** A new name: the new pack is the only one. *)
Lemma load_after_fresh i : s +:+ ".pack" ∉ olds → index_parse idx = Ok i →
  load_packs after_repack = Ok [MkPack i (s +:+ ".pack")].
Proof.
  intros Hin Hi. apply load_packs_Ok.
  assert (after_repack !! (s +:+ "." +:+ "idx") = Some idx) as Hidx
    by (rewrite lookup_after by auto; by rewrite decide_False, decide_True).
  assert (parsed after_repack (s +:+ "." +:+ "idx") = Some i) as Hps
    by (unfold parsed; rewrite Hidx; simpl; by rewrite Hi).
  split; [intros n Hn; destruct (decide (n = s +:+ "." +:+ "idx")) as [->|]; [by rewrite Hps|by apply after_others]|].
  symmetry. apply (list_omap_single _ _ (s +:+ "." +:+ "idx")); [apply NoDup_idx_paths| | |].
  - apply elem_of_idx_paths. split; [by apply extension_file|eauto].
  - unfold loaded. rewrite Hps. simpl. rewrite with_extension_file by done.
    rewrite lookup_after by auto. by rewrite (decide_False (P := _ ∈ olds)), (decide_True (P := s = s)) by done.
  - intros n Hn Hne. by apply after_others.
Qed.

(** The name of an old pack: the new pack is removed with it. *)
Lemma load_after_clash : s +:+ ".pack" ∈ olds → load_packs after_repack = Ok [].
Proof.
  intros Hin. assert (s +:+ "." +:+ "idx" ∉ idx_paths after_repack) as Hns.
  { intros [_ Hsome]%elem_of_idx_paths. rewrite lookup_after, decide_True in Hsome by auto. by destruct Hsome. }
  apply load_packs_Ok. split; [intros n Hn; apply after_others; [done|by intros ->]|].
  symmetry. apply list_omap_none. intros n Hn. apply after_others; [done|by intros ->].
Qed.
End after.
End repack_dir.

(** ** What a packed backend stores *)
Section view.
Context `{Zstd, !ZstdLaws, ReadDir, !ReadDirLaws, ObjectCodec}.

(** An entry of an index that its pack honours. *)
Definition readable (file : bytes) (e : PackEntry) (c : bytes) : Prop :=
  ∃ buf, get_range file (pe_offset e) (pe_offset e + pe_len e) = Some buf ∧ decode_frame buf = Ok (pe_id e, c).
Definition pack_ok (d : gmap string bytes) (p : Pack) : Prop :=
  StronglySorted entry_id_le (idx_entries (pk_idx p)) ∧
  ∃ file, d !! pk_path p = Some file ∧ ∀ e, e ∈ idx_entries (pk_idx p) → ∃ c, readable file e c.

(** Sound states: the loose files decode, the packs in memory are those of the directory
    and every entry of theirs reads. *)
Record packed_inv (b : PackedDiskBackend) : Prop := {
  pi_loose : db_inv (pb_loose b);
  pi_loaded : load_packs (pb_dir b) = Ok (pb_packs b);
  pi_packs : ∀ p, p ∈ pb_packs b → pack_ok (pb_dir b) p
}.

Definition pack_content (b : PackedDiskBackend) (id : ObjectId) : option bytes :=
  match in_any_pack b id with
  | Ok (Some (path, off, len)) =>
      match read_pack_frame (pb_dir b) path off len with Ok c => Some c | Err _ => None end
  | _ => None
  end.
Definition pb_content (b : PackedDiskBackend) (id : ObjectId) : option bytes :=
  match db_content (pb_loose b) id with Some c => Some c | None => pack_content b id end.
Definition pb_view (b : PackedDiskBackend) : gmap ObjectId bytes :=
  map_imap (λ id _, pb_content b id)
    (gset_to_gmap () (list_to_set (db_ids (pb_loose b) ++ packed_ids b) : gset ObjectId)).

Lemma in_packs_spec packs id : (∀ p, p ∈ packs → StronglySorted entry_id_le (idx_entries (pk_idx p))) →
  ∃ o, in_packs packs id = Ok o ∧
    match o with
    | Some (path, off, len) => ∃ p, p ∈ packs ∧ pk_path p = path ∧ MkEntry id off len ∈ idx_entries (pk_idx p)
    | None => ∀ p, p ∈ packs → id ∉ index_ids (pk_idx p)
    end.
Proof.
  induction packs as [|p packs IH]; intros Hs; [exists None; split; [done|]; by intros ? ?%elem_of_nil|].
  cbn [in_packs]. destruct (index_lookup_sorted (pk_idx p) id) as (o & -> & Ho); [apply Hs; by left|].
  cbn [mbind result_bind]. destruct o as [[off len]|].
  - eexists. split; [done|]. exists p. split; [by left|done].
  - destruct IH as (o & -> & Hspec); [intros; apply Hs; by right|]. exists o. split; [done|].
    destruct o as [[[path off] len]|].
    + destruct Hspec as (q & Hq & ?). exists q. split; [by right|done].
    + intros q [->|Hq]%elem_of_cons; [|by apply Hspec]. intros (e & -> & He)%list_elem_of_fmap. by apply (Ho e).
Qed.

Lemma elem_of_packed_ids b id : id ∈ packed_ids b ↔ ∃ p, p ∈ pb_packs b ∧ id ∈ index_ids (pk_idx p).
Proof. unfold packed_ids. rewrite list_elem_of_bind. naive_solver. Qed.

Lemma elem_of_index_ids i id : id ∈ index_ids i ↔ ∃ off len, MkEntry id off len ∈ idx_entries i.
Proof.
  unfold index_ids. rewrite list_elem_of_fmap. split.
  - intros ([x off len] & -> & He). eauto.
  - intros (off & len & He). by eexists (MkEntry id off len).
Qed.

Section inv.
Context (b : PackedDiskBackend) (Hinv : packed_inv b).

(** A packed id reads, and its bytes hash to it; an id in no pack is not found. *)
Lemma packed_lookup id :
  (id ∈ packed_ids b ∧ ∃ path off len c, in_any_pack b id = Ok (Some (path, off, len)) ∧
    read_pack_frame (pb_dir b) path off len = Ok c ∧ packable (id, c)) ∨
  (id ∉ packed_ids b ∧ in_any_pack b id = Ok None).
Proof.
  destruct (in_packs_spec (pb_packs b) id) as (o & Ho & Hspec);
    [intros p Hp; by destruct (pi_packs b Hinv p Hp)|].
  destruct o as [[[path off] len]|].
  - left. destruct Hspec as (p & Hp & <- & He). split.
    { apply elem_of_packed_ids. exists p. split; [done|]. apply elem_of_index_ids. eauto. }
    destruct (pi_packs b Hinv p Hp) as (_ & file & Hf & Hread). destruct (Hread _ He) as (c & buf & Hbuf & Hdec).
    simpl in *. exists (pk_path p), off, len, c. split; [done|]. split; [|by eapply decode_frame_Ok].
    unfold read_pack_frame, decode_frame_public. by rewrite Hf; simpl; rewrite Hbuf; simpl; rewrite Hdec.
  - right. split; [|done]. rewrite elem_of_packed_ids. intros (p & Hp & Hid). by apply (Hspec p).
Qed.

Lemma pack_content_Some id : is_Some (pack_content b id) ↔ id ∈ packed_ids b.
Proof.
  unfold pack_content. destruct (packed_lookup id) as [(Hid & path & off & len & c & -> & -> & _)|[Hid ->]].
  - split; eauto.
  - split; [by intros [? ?]|done].
Qed.

Lemma lookup_pb_view id : pb_view b !! id = pb_content b id.
Proof.
  unfold pb_view. rewrite map_lookup_imap, lookup_gset_to_gmap.
  destruct (decide (id ∈ (list_to_set (db_ids (pb_loose b) ++ packed_ids b) : gset ObjectId))) as [Hin|Hin].
  - by rewrite option_guard_True.
  - rewrite option_guard_False by done. simpl. rewrite elem_of_list_to_set, elem_of_app in Hin.
    unfold pb_content, db_content. destruct (fs_file (pb_loose b) (object_path id)) as [f|] eqn:Hf.
    + exfalso. apply Hin. left. apply elem_of_db_ids. eauto.
    + simpl. destruct (pack_content b id) as [c|] eqn:Hc; [|done]. exfalso. apply Hin. right.
      apply pack_content_Some. eauto.
Qed.

Lemma pb_view_Some id : is_Some (pb_view b !! id) ↔ id ∈ db_ids (pb_loose b) ∨ id ∈ packed_ids b.
Proof.
  rewrite lookup_pb_view, <-pack_content_Some, elem_of_db_ids. unfold pb_content, db_content.
  destruct (fs_file (pb_loose b) (object_path id)) as [f|] eqn:Hf; simpl.
  - destruct (pi_loose b Hinv id f Hf) as [c ->]. split; eauto.
  - split; [by right|]. by intros [[? ?]|?].
Qed.

(** ** Reads *)
Lemma pb_get_view id : pb_get b id = Ok (pb_view b !! id).
Proof.
  rewrite lookup_pb_view. unfold pb_get, db_get, pb_content, db_content.
  destruct (fs_file (pb_loose b) (object_path id)) as [f|] eqn:Hf; simpl.
  - by destruct (pi_loose b Hinv id f Hf) as [c ->].
  - unfold pack_content. destruct (packed_lookup id) as [(Hid & path & off & len & c & Hl & Hr & _)|[Hid Hl]];
      rewrite Hl; simpl; [by rewrite Hr|done].
Qed.

Lemma pb_exists_view id : pb_exists b id = Ok (bool_decide (is_Some (pb_view b !! id))).
Proof.
  unfold pb_exists, db_exists. cbn [mbind result_bind]. pose proof (pb_view_Some id) as Hv.
  rewrite elem_of_db_ids in Hv. case_bool_decide as Hl; [rewrite bool_decide_eq_true_2; [done|tauto]|].
  destruct (packed_lookup id) as [(Hid & path & off & len & c & -> & _)|[Hid ->]]; simpl.
  - rewrite bool_decide_eq_true_2 by tauto. done.
  - rewrite bool_decide_eq_false_2 by tauto. done.
Qed.

Lemma count_extra_eq l : count_extra (pb_packs b) l = Ok (N.of_nat (length (filter (.∉ packed_ids b) l))).
Proof.
  induction l as [|id l IH]; [done|]. cbn [count_extra]. fold (in_any_pack b id). rewrite filter_cons.
  destruct (packed_lookup id) as [(Hid & path & off & len & c & -> & _)|[Hid ->]]; cbn [mbind result_bind]; rewrite IH;
    cbn [mbind result_bind].
  - by rewrite !decide_False by (done || by intros ?).
  - rewrite !decide_True by done. f_equal. simpl. lia.
Qed.

Lemma packed_count : foldr (λ p n, (N.of_nat (index_count (pk_idx p)) + n)%N) 0%N (pb_packs b) = N.of_nat (length (packed_ids b)).
Proof.
  unfold packed_ids. induction (pb_packs b) as [|p l IH]; [done|]. rewrite bind_cons, length_app. cbn [foldr]. rewrite IH.
  unfold index_ids, index_count. rewrite length_fmap. lia.
Qed.

(** The count is exact when no id is in two packs or twice in one. *)
Lemma pb_count_view : NoDup (packed_ids b) → pb_count b = Ok (N.of_nat (size (pb_view b))).
Proof.
  intros Hnodup. unfold pb_count, db_list. cbn [mbind result_bind]. fold (db_ids (pb_loose b)).
  rewrite count_extra_eq, packed_count. cbn [mbind result_bind]. f_equal.
  rewrite <-Nat2N.inj_add. f_equal. rewrite <-length_app, <-size_dom.
  set (l := packed_ids b ++ filter (.∉ packed_ids b) (db_ids (pb_loose b))).
  assert (NoDup l) as Hnd.
  { apply NoDup_app. split_and!; [exact Hnodup| |apply NoDup_filter, NoDup_db_ids].
    intros x Hx Hf. by apply list_elem_of_filter in Hf as [? _]. }
  rewrite <-(size_list_to_set (C := gset ObjectId) l Hnd). f_equal. apply set_eq. intros x.
  rewrite elem_of_list_to_set, elem_of_dom, pb_view_Some. unfold l. rewrite elem_of_app, list_elem_of_filter.
  destruct (decide (x ∈ packed_ids b)); tauto.
Qed.

Lemma pb_list_view : ∃ l, pb_list b = Ok l ∧ NoDup l ∧ ∀ id, id ∈ l ↔ is_Some (pb_view b !! id).
Proof.
  eexists. split; [done|]. split; [apply NoDup_btree_elems|]. intros id.
  rewrite elem_of_btree_elems, elem_of_list_to_set, elem_of_app, pb_view_Some. done.
Qed.
End inv.

(** ** Writes to the loose side *)
Lemma packed_inv_loose b l : packed_inv b → db_inv l → packed_inv (with_loose b l).
Proof. intros [? ? ?] ?. by split. Qed.

Lemma lookup_with_loose b l id : packed_inv b → db_inv l →
  pb_view (with_loose b l) !! id = match db_view l !! id with Some c => Some c | None => pack_content b id end.
Proof.
  intros Hinv Hl. rewrite (lookup_pb_view _ (packed_inv_loose b l Hinv Hl)), lookup_db_view. done.
Qed.
Lemma lookup_loose_view b id : packed_inv b →
  pb_view b !! id = match db_view (pb_loose b) !! id with Some c => Some c | None => pack_content b id end.
Proof. intros Hinv. by rewrite lookup_pb_view, lookup_db_view. Qed.

Lemma pb_put_Ok b id data b' : packed_inv b → pb_put id data b = (Ok (), b') →
  packed_inv b' ∧ packed_ids b' = packed_ids b ∧
  pb_view b' = match pb_view b !! id with Some _ => pb_view b | None => <[id := data]> (pb_view b) end.
Proof.
  intros Hinv. unfold pb_put, gets, mbind, M_bind.
  destruct (packed_lookup b Hinv id) as [(Hid & path & off & len & c & Hl & _)|[Hid Hl]]; rewrite Hl.
  { intros [= <-]. split; [done|]. split; [done|].
    destruct (proj2 (pb_view_Some b Hinv id)) as [v ->]; [by right|done]. }
  unfold on_loose. destruct (db_put id data (pb_loose b)) as [r l] eqn:Hput. intros [= -> <-].
  assert (pack_content b id = None) as Hpc by (apply eq_None_not_Some; by rewrite pack_content_Some).
  pose proof (lookup_loose_view b id Hinv) as Hv.
  destruct (db_put_steps _ _ _ _ _ Hput) as [(Hs & _ & ->)|(Hn & [(e & _ & [=] & _)|(z & Hz & _ & Hl')])].
  - split; [by apply packed_inv_loose, pi_loose|]. split; [done|].
    destruct (proj2 (pb_view_Some b Hinv id)) as [v ->]; [left; by apply elem_of_db_ids|]. by destruct b.
  - destruct (db_after_rename (pb_loose b) id data z Hz (pi_loose b Hinv)) as [Hdi Hdv]. rewrite <-Hl' in Hdi, Hdv.
    split; [by apply packed_inv_loose|]. split; [done|].
    assert (db_view (pb_loose b) !! id = None) as Hdn by (rewrite lookup_db_view; unfold db_content; by rewrite Hn).
    rewrite Hdn, Hpc in Hv. rewrite Hv. apply map_eq. intros x. rewrite lookup_with_loose, Hdv by done.
    destruct (decide (x = id)) as [->|]; [by rewrite !lookup_insert_eq|].
    rewrite !lookup_insert_ne, lookup_loose_view by done. done.
Qed.

(** Dropping loose copies. *)
Definition drop_loose (ids : list ObjectId) (l : DiskBackend) : DiskBackend :=
  foldl (λ l id, fs_remove (object_path id) l) l ids.

Lemma drop_loose_file ids x : ∀ l,
  fs_file (drop_loose ids l) (object_path x) = if decide (x ∈ ids) then None else fs_file l (object_path x).
Proof.
  induction ids as [|id ids IH]; intros l; [by rewrite decide_False by apply not_elem_of_nil|].
  cbn [drop_loose foldl]. fold (drop_loose ids (fs_remove (object_path id) l)). rewrite IH, fs_file_remove.
  destruct (decide (x ∈ ids)); [by rewrite decide_True by by right|].
  destruct (decide (x = id)) as [->|Hne]; [by rewrite decide_True, (decide_True (P := _ ∈ _)) by (done || left)|].
  rewrite decide_False by (intros ?; by apply Hne, (inj object_path)).
  by rewrite decide_False by (rewrite elem_of_cons; tauto).
Qed.

Lemma drop_loose_view ids : ∀ l, db_inv l → db_inv (drop_loose ids l) ∧
  ∀ x, db_view (drop_loose ids l) !! x = if decide (x ∈ ids) then None else db_view l !! x.
Proof.
  induction ids as [|id ids IH]; intros l Hl; [by split; [|intros x; rewrite decide_False by apply not_elem_of_nil]|].
  cbn [drop_loose foldl]. destruct (db_after_remove l id Hl) as [Hl' Hv].
  destruct (IH _ Hl') as [Hi Hx]. split; [exact Hi|]. intros x. fold (drop_loose ids (fs_remove (object_path id) l)).
  rewrite Hx, Hv. destruct (decide (x ∈ ids)); [by rewrite decide_True by by right|].
  destruct (decide (x = id)) as [->|]; [by rewrite decide_True, lookup_delete_eq by by left|].
  rewrite decide_False, lookup_delete_ne by (rewrite ?elem_of_cons; naive_solver). done.
Qed.

Lemma drop_loose_eq ids : ∀ b, M_iter (λ id, on_loose (db_delete id)) ids b = (Ok (), with_loose b (drop_loose ids (pb_loose b))).
Proof.
  unfold drop_loose. induction ids as [|id ids IH]; intros b; [by destruct b|].
  cbn [M_iter foldl]. unfold mbind, M_bind, on_loose at 1, db_delete, modify. by rewrite IH.
Qed.

(** ** Gathering *)
Fixpoint gather_ids (keep : option (gset ObjectId)) (ids : list ObjectId) (seen : gset ObjectId) : list ObjectId :=
  match ids with
  | [] => []
  | id :: ids =>
      if decide (id ∈ seen) then gather_ids keep ids seen
      else if excluded keep id then gather_ids keep ids ({[id]} ∪ seen)
      else id :: gather_ids keep ids ({[id]} ∪ seen)
  end.

Lemma elem_of_gather_ids keep ids : ∀ seen id,
  id ∈ gather_ids keep ids seen ↔ id ∈ ids ∧ id ∉ seen ∧ excluded keep id = false.
Proof.
  induction ids as [|x ids IH]; intros seen id; simpl; [rewrite elem_of_nil; naive_solver|].
  rewrite elem_of_cons. case_decide as Hs.
  { rewrite IH. split; [tauto|]. intros ([->|?] & ? & ?); [done|tauto]. }
  destruct (excluded keep x) eqn:Hx; [|rewrite elem_of_cons]; rewrite IH, not_elem_of_union, not_elem_of_singleton.
  - split; [tauto|]. intros ([->|?] & ? & ?); [congruence|]. split_and!; [done| |done|done]. intros ->. congruence.
  - destruct (decide (id = x)) as [->|]; tauto.
Qed.
Lemma NoDup_gather_ids keep ids : ∀ seen, NoDup (gather_ids keep ids seen).
Proof.
  induction ids as [|x ids IH]; intros seen; simpl; [constructor|]. case_decide; [done|].
  destruct (excluded keep x); [done|]. constructor; [|done]. rewrite elem_of_gather_ids. set_solver.
Qed.
(** Ids that are all distinct, new and wanted are gathered in their order. *)
Lemma gather_ids_id keep ids : ∀ seen, NoDup ids → (∀ id, id ∈ ids → id ∉ seen ∧ excluded keep id = false) →
  gather_ids keep ids seen = ids.
Proof.
  induction ids as [|x ids IH]; intros seen Hnd Hall; [done|]. apply NoDup_cons in Hnd as [Hx Hnd]. simpl.
  destruct (Hall x) as [Hs He]; [by left|]. rewrite decide_False, He by done. f_equal. apply IH; [done|].
  intros id Hid. destruct (Hall id) as [? ?]; [by right|]. split; [|done]. set_solver.
Qed.

Definition obj_of (m : gmap ObjectId bytes) (id : ObjectId) : ObjectId * bytes := (id, default [] (m !! id)).
Definition repack_objs (keep : option (gset ObjectId)) (b : PackedDiskBackend) : PackBuilder :=
  obj_of (pb_view b) <$> gather_ids keep (db_ids (pb_loose b) ++ packed_ids b) ∅.

Lemma gather_eq b keep ids : packed_inv b → ∀ seen builder, (∀ id, id ∈ ids → is_Some (pb_view b !! id)) →
  gather b keep ids seen builder = Ok (builder ++ (obj_of (pb_view b) <$> gather_ids keep ids seen)).
Proof.
  intros Hinv. induction ids as [|x ids IH]; intros seen builder Hall; simpl; [by rewrite app_nil_r|].
  assert (∀ id, id ∈ ids → is_Some (pb_view b !! id)) as Hall' by (intros; apply Hall; by right).
  case_decide; [by apply IH|]. destruct (excluded keep x); [by apply IH|].
  rewrite pb_get_view by done. cbn [mbind result_bind]. destruct (Hall x) as [c Hc]; [by left|]. rewrite Hc.
  rewrite IH by done. unfold builder_add. rewrite <-app_assoc.
  assert (obj_of (pb_view b) x = (x, c)) as Ho by (unfold obj_of; by rewrite Hc). by rewrite fmap_cons, Ho.
Qed.

Lemma gather_repack b keep : packed_inv b →
  gather b keep (db_ids (pb_loose b) ++ packed_ids b) ∅ builder_new = Ok (repack_objs keep b).
Proof.
  intros Hinv. rewrite gather_eq; [done|done|]. intros id Hid%elem_of_app. by apply pb_view_Some.
Qed.

Lemma repack_objs_fst keep b : (repack_objs keep b).*1 = gather_ids keep (db_ids (pb_loose b) ++ packed_ids b) ∅.
Proof. unfold repack_objs. rewrite <-list_fmap_compose. apply list_fmap_id. Qed.

Lemma elem_of_repack_objs keep b id c : packed_inv b →
  (id, c) ∈ repack_objs keep b ↔ pb_view b !! id = Some c ∧ excluded keep id = false.
Proof.
  intros Hinv. unfold repack_objs. rewrite list_elem_of_fmap. unfold obj_of. split.
  - intros (x & [= -> ->] & Hx). apply elem_of_gather_ids in Hx as (Hx & _ & He). split; [|done].
    apply elem_of_app, (pb_view_Some b Hinv) in Hx as [v ->]. done.
  - intros [Hv He]. exists id. rewrite Hv. split; [done|]. apply elem_of_gather_ids. split_and!; [|set_solver|done].
    apply elem_of_app, (pb_view_Some b Hinv). eauto.
Qed.
Lemma NoDup_repack_objs keep b : NoDup (repack_objs keep b).*1.
Proof. rewrite repack_objs_fst. apply NoDup_gather_ids. Qed.
End view.

(** ** The interface operations *)
Section interface.
Context `{Zstd, !ZstdLaws, ReadDir, !ReadDirLaws, ObjectCodec}.

(** [C32] A packed store is a map. On any sound state a read returns exactly what the store holds
    (the loose copy if there is one, else the object of the pack whose index has the id),
    [exists] and [list] agree with it, the list has no duplicates, and the count is exact when
    no id is in two packs or twice in one index; a successful [put] adds a missing object and
    changes nothing for one that is there, and keeps the state sound; a [delete] removes the
    loose copy only, so that what is packed stays. *)
Theorem packed_backend_reads (b : PackedDiskBackend) :
  packed_inv b →
  (∀ id, pb_get b id = Ok (pb_view b !! id)) ∧
  (∀ id, pb_exists b id = Ok (bool_decide (is_Some (pb_view b !! id)))) ∧
  (∃ l, pb_list b = Ok l ∧ NoDup l ∧ ∀ id, id ∈ l ↔ is_Some (pb_view b !! id)) ∧
  (NoDup (packed_ids b) → pb_count b = Ok (N.of_nat (size (pb_view b)))) ∧
  (∀ id data b', pb_put id data b = (Ok (), b') → packed_inv b' ∧ packed_ids b' = packed_ids b ∧
     pb_view b' = match pb_view b !! id with Some _ => pb_view b | None => <[id := data]> (pb_view b) end) ∧
  (∀ id, ∃ b', pb_delete id b = (Ok (), b') ∧ packed_inv b' ∧
     ∀ x, pb_view b' !! x = if decide (x = id) then pack_content b id else pb_view b !! x).
Proof.
  intros Hinv. split_and!.
  - intros id. by apply pb_get_view.
  - intros id. by apply pb_exists_view.
  - by apply pb_list_view.
  - by apply pb_count_view.
  - intros id data b' Hput. by eapply pb_put_Ok.
  - intros id. destruct (db_after_remove (pb_loose b) id (pi_loose b Hinv)) as [Hdi Hdv].
    eexists. split; [done|]. split; [by apply packed_inv_loose|]. intros x.
    rewrite lookup_with_loose, Hdv by done. case_decide as Hx; [subst x; by rewrite lookup_delete_eq|].
    rewrite lookup_delete_ne, (lookup_loose_view b) by done. done.
Qed.
End interface.

Section demo.
Local Existing Instance toy_zstd.
Local Existing Instance toy_zstd_laws.
Local Existing Instance rolling_codec.
Local Existing Instance toy_read_dir.
Local Existing Instance toy_read_dir_laws.

(** Two loose objects and no pack. *)
Definition ex_packed : PackedDiskBackend := MkPacked ex_disk ∅ [].
Lemma ex_packed_inv : packed_inv ex_packed.
Proof. split; [exact ex_disk_inv|reflexivity|by intros ? ?%elem_of_nil]. Qed.

(** ... and the same two in a pack. *)
Definition ex_repacked : PackedDiskBackend := (repack ex_packed).2.
Lemma packed_backend_reads_witness :
  pb_get ex_packed ex_id1 = Ok (pb_view ex_packed !! ex_id1) ∧ pb_get ex_repacked ex_id1 = Ok (Some ex_data1) ∧
  pb_count ex_repacked = Ok 2%N.
Proof.
  destruct (packed_backend_reads ex_packed ex_packed_inv) as [Hget _].
  split; [exact (Hget ex_id1)|]. split; vm_compute; reflexivity.
Defined.
End demo.
