(* ===== verification/Repack.v ===== *)
(** * Repack: what consolidation and collection do to a packed store

    The theorems about [repack_keeping], [compact] and [sweep] of Packed.v.  When the new
    pack has a name of its own the store keeps its contents, at every point a crash can
    leave it in, and a sweep keeps what is reachable and what is young.  When the new pack
    has the name of a pack it replaces, it is deleted with it: three compactions in
    a row empty any store.  And an object over the reader's size cap does not survive
    a compaction. *)

From S2P Require Import Prelude Bytes Ids Objects Store Pack Disk Packed.
From Stdlib Require Import Lia.

Section repack.
Context `{Zstd, !ZstdLaws, ReadDir, !ReadDirLaws, ObjectCodec}.

Definition pack_stem (digest : vec byte 32) : string := "pack-" +:+ hex32 (vec_to_list digest).
(** The directory and the state a repack that writes a pack ends in. *)
Definition repacked_dir (b : PackedDiskBackend) pack entries digest : gmap string bytes :=
  after_repack (pb_dir b) (pb_packs b) (pack_stem digest) pack (index_encode (index_build entries digest)).

Lemma repack_keeping_eq keep b pack entries digest : packed_inv b → repack_objs keep b ≠ [] →
  finish (repack_objs keep b) = Ok (pack, entries, digest) →
  repack_keeping keep b =
    match load_packs (repacked_dir b pack entries digest) with
    | Ok packs => (Ok (Some digest),
        MkPacked (drop_loose (repack_objs keep b).*1 (pb_loose b)) (repacked_dir b pack entries digest) packs)
    | Err e => (Err e, MkPacked (pb_loose b) (repacked_dir b pack entries digest) (pb_packs b))
    end.
Proof.
  intros Hinv Hne Hfin. unfold repack_keeping, gets, db_list. unfold mbind at 1 2, M_bind at 1 2.
  fold (db_ids (pb_loose b)). rewrite gather_repack by done.
  unfold builder_is_empty. rewrite bool_decide_eq_false_2 by done.
  unfold lift_res. unfold mbind at 1, M_bind at 1. rewrite Hfin.
  unfold mbind at 1, M_bind at 1. unfold mbind at 1, M_bind at 1.
  rewrite write_pack_atomic_eq. unfold mbind at 1, M_bind at 1. rewrite remove_packs_eq.
  unfold mbind at 1, M_bind at 1. unfold reload_packs at 1.
  unfold repacked_dir, after_repack, olds, pack_stem. cbn [with_dir pb_dir].
  destruct (load_packs _) as [packs|e]; [|done].
  unfold mbind, M_bind. by rewrite drop_loose_eq.
Qed.

Lemma repack_keeping_nil b keep : packed_inv b → repack_objs keep b = [] →
  repack_keeping keep b =
    match keep with
    | Some _ => match load_packs (removed (pb_dir b) (pk_path <$> pb_packs b)) with
                | Ok packs => (Ok None, MkPacked (pb_loose b) (removed (pb_dir b) (pk_path <$> pb_packs b)) packs)
                | Err e => (Err e, MkPacked (pb_loose b) (removed (pb_dir b) (pk_path <$> pb_packs b)) (pb_packs b))
                end
    | None => (Ok None, b)
    end.
Proof.
  intros Hinv Hnil. unfold repack_keeping, gets, db_list. unfold mbind at 1 2, M_bind at 1 2.
  fold (db_ids (pb_loose b)). rewrite gather_repack, Hnil by done.
  unfold builder_is_empty. rewrite bool_decide_eq_true_2 by done. destruct keep as [k|]; [|done].
  unfold retire_all_packs, gets, mbind, M_bind. rewrite remove_packs_eq. unfold reload_packs. cbn [with_dir pb_dir].
  by destruct (load_packs _).
Qed.

Lemma pack_stem_nonempty digest : pack_stem digest ≠ "".
Proof. done. Qed.

(** What the index of a finished pack can hold. *)
Lemma finish_index_fits_mem objs pack entries digest : (blen pack < U64)%N → (N.of_nat (length objs) < 2 ^ 32)%N →
  finish objs = Ok (pack, entries, digest) → index_fits (index_build entries digest).
Proof.
  intros Hl Hn Hfin. destruct (finish_Ok _ _ _ _ Hfin) as (zs & Hc & Hp & _).
  pose proof (Forall2_length _ _ _ Hp) as Hlen. split; simpl.
  - by rewrite merge_sort_Permutation, <-Hlen.
  - rewrite merge_sort_Permutation. apply Forall_forall. intros e [k Hk]%list_elem_of_lookup.
    destruct (Forall2_lookup_r _ _ _ _ _ Hp Hk) as (o & _ & z & pre & post & _ & _ & Hpk & -> & ->).
    rewrite Hpk, !blen_app in Hl. lia.
Qed.
Lemma finish_index_fits objs pack entries digest : pack_caps objs → finish objs = Ok (pack, entries, digest) →
  index_fits (index_build entries digest).
Proof.
  intros Hcaps Hfin. destruct (finish_Ok _ _ _ _ Hfin) as (zs & Hc & _ & Hd & Hpack).
  pose proof (frames_fit objs zs Hc Hcaps) as Hfit. destruct Hcaps as (_ & Hn & _).
  apply (finish_index_fits_mem objs pack); [|unfold MAX_PACK_OBJECTS in Hn; lia|done].
  rewrite Hpack, Hd, blen_app, digest_length. lia.
Qed.

Definition entry_pack entries digest : Pack := MkPack (index_build entries digest) (pack_stem digest +:+ ".pack").
Definition repacked_state keep b pack entries digest : PackedDiskBackend :=
  MkPacked (drop_loose (repack_objs keep b).*1 (pb_loose b)) (repacked_dir b pack entries digest) [entry_pack entries digest].

Lemma load_repacked_dir b pack entries digest : packed_inv b → index_fits (index_build entries digest) →
  pack_stem digest +:+ ".pack" ∉ pk_path <$> pb_packs b →
  load_packs (repacked_dir b pack entries digest) = Ok [entry_pack entries digest].
Proof.
  intros Hinv Hfits Hfresh. apply (load_after_fresh (pb_dir b)); [done|apply (pi_loaded b Hinv)|done|].
  by apply index_file_roundtrip.
Qed.

Lemma lookup_repacked_dir b pack entries digest : packed_inv b → pack_stem digest +:+ ".pack" ∉ pk_path <$> pb_packs b →
  repacked_dir b pack entries digest !! (pack_stem digest +:+ ".pack") = Some pack.
Proof.
  intros Hinv Hfresh. unfold repacked_dir. pose proof (lookup_after (pb_dir b) (pb_packs b) (pack_stem digest) pack
    (index_encode (index_build entries digest)) (pi_loaded b Hinv) (pack_stem digest) "pack"
    (pack_stem_nonempty digest) (or_intror eq_refl)) as Hl.
  rewrite decide_False, decide_True in Hl by done. exact Hl.
Qed.

(** ** A new name: nothing is lost *)
Section fresh.
Context (keep : option (gset ObjectId)) (b : PackedDiskBackend) (pack : bytes) (entries : list PackEntry)
  (digest : vec byte 32).
Context (Hinv : packed_inv b) (Hne : repack_objs keep b ≠ []) (Hcaps : pack_caps (repack_objs keep b))
  (Hfin : finish (repack_objs keep b) = Ok (pack, entries, digest))
  (Hfresh : pack_stem digest +:+ ".pack" ∉ pk_path <$> pb_packs b).

Local Abbreviation new_pack := (entry_pack entries digest).
Local Abbreviation repacked := (repacked_state keep b pack entries digest).

Lemma repacked_load : load_packs (repacked_dir b pack entries digest) = Ok [new_pack].
Proof. apply load_repacked_dir; [done|by eapply finish_index_fits|done]. Qed.

Lemma repack_fresh_eq : repack_keeping keep b = (Ok (Some digest), repacked).
Proof. rewrite (repack_keeping_eq keep b pack entries digest) by done. by rewrite repacked_load. Qed.

(** The entry of the new pack for an id is that of its object. *)
Lemma new_entry_readable e : e ∈ entries →
  ∃ c, readable pack e c ∧ (pe_id e, c) ∈ repack_objs keep b.
Proof.
  destruct (finish_Ok _ _ _ _ Hfin) as (zs & _ & Hp & _). intros [k Hk]%list_elem_of_lookup.
  destruct (Forall2_lookup_r _ _ _ _ _ Hp Hk) as ([id c] & Hb & z & pre & post & Hz & Hid & Hpk & Hoff & Hln).
  exists c. rewrite Hid. simpl. assert ((id, c) ∈ repack_objs keep b) as Hin by by eapply list_elem_of_lookup_2.
  split; [|done]. exists (frame_of (id, c) z). rewrite Hoff, Hln, Hpk. split; [by apply get_range_at|].
  rewrite Hid. apply decode_frame_of; [|done]. destruct Hcaps as (Hall & _). rewrite Forall_forall in Hall. by apply Hall.
Qed.

Lemma elem_of_build e : e ∈ idx_entries (index_build entries digest) ↔ e ∈ entries.
Proof. simpl. by rewrite merge_sort_Permutation. Qed.
Lemma entries_ids : pe_id <$> entries = (repack_objs keep b).*1.
Proof.
  destruct (finish_Ok _ _ _ _ Hfin) as (zs & _ & Hp & _). clear -Hp.
  induction Hp as [|o e l k (z & pre & post & _ & Hid & _) Hp IH]; [done|]. by rewrite !fmap_cons, Hid, IH.
Qed.

Lemma lookup_new_pack : repacked_dir b pack entries digest !! (pack_stem digest +:+ ".pack") = Some pack.
Proof. by apply lookup_repacked_dir. Qed.

Lemma repacked_inv : packed_inv repacked.
Proof.
  split.
  - apply drop_loose_view, Hinv.
  - apply repacked_load.
  - intros p Hp%list_elem_of_singleton. subst p. split; [apply (StronglySorted_merge_sort _)|].
    exists pack. split; [apply lookup_new_pack|]. intros e He%elem_of_build.
    destruct (new_entry_readable e He) as (c & Hc & _). eauto.
Qed.

Lemma repacked_ids id : id ∈ packed_ids repacked ↔ is_Some (pb_view b !! id) ∧ excluded keep id = false.
Proof.
  rewrite elem_of_packed_ids. split.
  - intros (p & Hp%list_elem_of_singleton & Hid). subst p. apply elem_of_index_ids in Hid as (off & len & He%elem_of_build).
    destruct (new_entry_readable _ He) as (c & _ & Hc). simpl in Hc. apply elem_of_repack_objs in Hc as [-> ?]; [|done]. eauto.
  - intros [[c Hc] He]. exists new_pack. split; [by apply list_elem_of_singleton|].
    assert (id ∈ pe_id <$> entries) as Hin.
    { rewrite entries_ids. apply list_elem_of_fmap. exists (id, c). split; [done|]. by apply elem_of_repack_objs. }
    apply list_elem_of_fmap in Hin as ([x off len] & -> & Hin). apply elem_of_index_ids. exists off, len. by apply elem_of_build.
Qed.

Lemma NoDup_repacked_ids : NoDup (packed_ids repacked).
Proof.
  unfold packed_ids. cbn [repacked_state pb_packs mbind list_bind app]. rewrite app_nil_r.
  unfold index_ids. simpl. rewrite merge_sort_Permutation, entries_ids. apply NoDup_repack_objs.
Qed.

Lemma repacked_content id : id ∈ packed_ids repacked → pack_content repacked id = pb_view b !! id.
Proof.
  intros Hid. unfold pack_content, in_any_pack.
  destruct (in_packs_spec (pb_packs repacked) id) as (o & -> & Hspec).
  { intros p Hp. by destruct (pi_packs repacked repacked_inv p Hp). }
  apply elem_of_packed_ids in Hid as (p & Hp & Hid).
  destruct o as [[[path off] len]|]; [|by destruct (Hspec p Hp)].
  destruct Hspec as (q & Hq%list_elem_of_singleton & <- & He). subst q. apply elem_of_build in He.
  destruct (new_entry_readable _ He) as (c & (buf & Hbuf & Hdec) & Hc). simpl in *.
  apply elem_of_repack_objs in Hc as [-> _]; [|done].
  unfold read_pack_frame, decode_frame_public. rewrite lookup_new_pack. simpl. rewrite Hbuf. simpl. by rewrite Hdec.
Qed.

(** What is kept moves to the pack; what is not stays only where it is loose. *)
Lemma repacked_view id : pb_view repacked !! id =
  if excluded keep id then db_view (pb_loose b) !! id else pb_view b !! id.
Proof.
  rewrite lookup_pb_view by apply repacked_inv. unfold pb_content. rewrite <-lookup_db_view. cbn [repacked_state pb_loose].
  destruct (drop_loose_view (repack_objs keep b).*1 (pb_loose b) (pi_loose b Hinv)) as [_ ->].
  assert (id ∈ (repack_objs keep b).*1 ↔ id ∈ packed_ids repacked) as Hobj.
  { rewrite repacked_ids, list_elem_of_fmap. split.
    - intros ([x c] & -> & Hc%elem_of_repack_objs); [|done]. simpl. destruct Hc as [-> ?]. eauto.
    - intros [[c Hc] He]. exists (id, c). split; [done|]. by apply elem_of_repack_objs. }
  case_decide as Hin.
  - apply Hobj in Hin. rewrite repacked_content by done. apply repacked_ids in Hin as [_ He]. by rewrite He.
  - assert (pack_content repacked id = None) as ->.
    { apply eq_None_not_Some. rewrite pack_content_Some by apply repacked_inv. by rewrite <-Hobj. }
    rewrite Hobj, repacked_ids in Hin. destruct (excluded keep id); [by destruct (db_view _ !! id)|].
    destruct (pb_view b !! id) as [v|] eqn:Hv; [exfalso; apply Hin; eauto|].
    rewrite lookup_loose_view in Hv by done. destruct (db_view (pb_loose b) !! id); [done|done].
Qed.
End fresh.

(** ** The order of an index *)
Definition id_le (x y : ObjectId) : Prop := id_cmp x y ≠ Gt.
#[local] Instance id_le_trans : Transitive id_le.
Proof. intros x y z. apply bytes_cmp_trans. Qed.
#[local] Instance id_le_antisymm : AntiSymm (=) id_le.
Proof.
  intros x y Hxy Hyx. apply id_cmp_Eq. unfold id_le, id_cmp in *. rewrite (bytes_cmp_antisym (id_bytes y)) in Hyx.
  by destruct (bytes_cmp (id_bytes x) (id_bytes y)).
Qed.

Lemma index_ids_sorted es d : StronglySorted id_le (index_ids (index_build es d)) ∧
  index_ids (index_build es d) ≡ₚ pe_id <$> es.
Proof.
  unfold index_ids. simpl. split; [|by rewrite merge_sort_Permutation].
  pose proof (StronglySorted_merge_sort entry_id_le es) as Hs. induction Hs as [|e l Hs IH Hall]; [constructor|].
  rewrite fmap_cons. constructor; [done|]. apply Forall_fmap. exact Hall.
Qed.
Lemma index_ids_of_sorted es d : StronglySorted id_le (pe_id <$> es) → index_ids (index_build es d) = pe_id <$> es.
Proof. intros Hs. destruct (index_ids_sorted es d) as [Hs' Hp]. by apply (StronglySorted_unique id_le). Qed.

Lemma total_len_perm b1 b2 : b1 ≡ₚ b2 → total_len b1 = total_len b2.
Proof. unfold total_len. induction 1; simpl; try lia. Qed.
Lemma pack_caps_perm b1 b2 : b1 ≡ₚ b2 → pack_caps b1 → pack_caps b2.
Proof.
  intros Hp (Ha & Hn & Ht). split_and!.
  - by rewrite <-Hp.
  - by rewrite <-(Permutation_length Hp).
  - by rewrite <-(total_len_perm _ _ Hp).
Qed.

(** What is queued for a full repack is the whole store. *)
Lemma repack_all_perm b : packed_inv b → repack_objs None b ≡ₚ map_to_list (pb_view b).
Proof.
  intros Hinv. apply NoDup_Permutation.
  - eapply NoDup_fmap_1, NoDup_repack_objs.
  - apply NoDup_map_to_list.
  - intros [id c]. rewrite elem_of_repack_objs, elem_of_map_to_list by done. naive_solver.
Qed.

Lemma finish_total objs : (∀ c, ∃ z, zstd_encode c = Ok z) → ∃ pack entries digest, finish objs = Ok (pack, entries, digest).
Proof.
  intros Hz. assert (∀ buf es, ∃ r, finish_loop objs buf es = Ok r) as Hl.
  { induction objs as [|[id c] objs IH]; intros buf es; [eauto|]. simpl. destruct (Hz c) as [z ->]. apply IH. }
  unfold finish. destruct (Hl (pack_header (N.of_nat (length objs))) []) as [[buf es] ->]. simpl. eauto.
Qed.

Lemma view_empty b : packed_inv b → db_ids (pb_loose b) = [] → packed_ids b = [] → pb_view b = ∅.
Proof.
  intros Hinv Hl Hp. apply map_eq. intros id. rewrite lookup_empty. apply eq_None_not_Some.
  rewrite pb_view_Some, Hl, Hp by done. by intros [?%elem_of_nil|?%elem_of_nil].
Qed.
Lemma no_loose_left b ids : packed_inv b → (∀ id, id ∈ db_ids (pb_loose b) → id ∈ ids) →
  db_ids (drop_loose ids (pb_loose b)) = [].
Proof.
  intros Hinv Hall. destruct (drop_loose_view ids (pb_loose b) (pi_loose b Hinv)) as [Hi Hv].
  apply elem_of_nil_inv. intros id Hid%elem_of_db_ids. apply (db_view_Some _ _ Hi) in Hid as [c Hc].
  rewrite Hv in Hc. case_decide as Hin; [done|]. apply Hin, Hall, elem_of_db_ids, db_view_Some; [apply Hinv|eauto].
Qed.
Lemma all_loose_queued b id : packed_inv b → id ∈ db_ids (pb_loose b) → id ∈ (repack_objs None b).*1.
Proof.
  intros Hinv Hid. rewrite repack_objs_fst, elem_of_gather_ids. split_and!; [|set_solver|done].
  apply elem_of_app. by left.
Qed.

(** ** The clash of names *)

(** When the new pack has the name of an old one nothing is left. *)
Lemma repack_clash b pack entries digest : packed_inv b → repack_objs None b ≠ [] →
  finish (repack_objs None b) = Ok (pack, entries, digest) → pack_stem digest +:+ ".pack" ∈ pk_path <$> pb_packs b →
  ∃ b', repack b = (Ok (Some digest), b') ∧ packed_inv b' ∧ pb_view b' = ∅.
Proof.
  intros Hinv Hne Hfin Hclash. unfold repack. rewrite (repack_keeping_eq None b pack entries digest) by done.
  pose proof (load_after_clash (pb_dir b) (pb_packs b) (pack_stem digest) pack (index_encode (index_build entries digest))
    (pack_stem_nonempty digest) (pi_loaded b Hinv) Hclash) as Hl. fold (repacked_dir b pack entries digest) in Hl.
  rewrite Hl. eexists. split; [done|].
  assert (packed_inv (MkPacked (drop_loose (repack_objs None b).*1 (pb_loose b)) (repacked_dir b pack entries digest) [])) as Hi.
  { split; [apply drop_loose_view, Hinv|done|by intros ? ?%elem_of_nil]. }
  split; [done|]. apply view_empty; [done| |done]. apply no_loose_left; [done|]. intros id. by apply all_loose_queued.
Qed.

(** A full repack either leaves nothing or moves everything to one new pack. *)
Lemma repack_step b : packed_inv b → pack_caps (map_to_list (pb_view b)) → (∀ c, ∃ z, zstd_encode c = Ok z) →
  ∃ r b', repack b = (Ok r, b') ∧ packed_inv b' ∧
    (pb_view b' = ∅ ∨
     ∃ pack entries digest, finish (repack_objs None b) = Ok (pack, entries, digest) ∧
       b' = repacked_state None b pack entries digest ∧ pb_view b' = pb_view b ∧ db_ids (pb_loose b') = []).
Proof.
  intros Hinv Hcaps Hz. destruct (decide (repack_objs None b = [])) as [Hnil|Hne].
  { exists None, b. unfold repack. rewrite repack_keeping_nil by done. split_and!; [done|done|left].
    apply map_to_list_empty_iff, Permutation_nil. by rewrite <-(repack_all_perm b Hinv), Hnil. }
  destruct (finish_total (repack_objs None b) Hz) as (pack & entries & digest & Hfin).
  apply (pack_caps_perm _ (repack_objs None b)) in Hcaps; [|by rewrite repack_all_perm].
  destruct (decide (pack_stem digest +:+ ".pack" ∈ pk_path <$> pb_packs b)) as [Hc|Hf].
  - destruct (repack_clash b pack entries digest Hinv Hne Hfin Hc) as (b' & ? & ? & ?). eexists _, b'. eauto.
  - exists (Some digest), (repacked_state None b pack entries digest). unfold repack.
    rewrite (repack_fresh_eq None b pack entries digest) by done. split; [done|].
    split; [by apply repacked_inv|]. right. exists pack, entries, digest. split_and!; [done|done| |].
    + apply map_eq. intros id. by rewrite repacked_view.
    + apply no_loose_left; [done|]. intros id. by apply all_loose_queued.
Qed.

Lemma repack_empty b : packed_inv b → pb_view b = ∅ → repack b = (Ok None, b).
Proof.
  intros Hinv Hv. unfold repack. rewrite repack_keeping_nil; [done|done|].
  apply Permutation_nil. by rewrite (repack_all_perm b Hinv), Hv, map_to_list_empty.
Qed.

(** With everything in one pack the queue is the index of that pack. *)
Lemma repack_objs_packed b : NoDup (packed_ids b) → db_ids (pb_loose b) = [] →
  repack_objs None b = obj_of (pb_view b) <$> packed_ids b.
Proof.
  intros Hnd Hl. unfold repack_objs. rewrite Hl. simpl. rewrite gather_ids_id; [done|done|].
  intros id _. split; [set_solver|done].
Qed.
Lemma repacked_packed_ids keep b pack entries digest :
  packed_ids (repacked_state keep b pack entries digest) = index_ids (index_build entries digest).
Proof. unfold packed_ids. simpl. by rewrite app_nil_r. Qed.

(** Three compactions empty the store. Start from any sound packed store whose objects
    fit a pack and compact it three times, with nothing in between: every compaction
    reports success, and after the third no object is left. The second writes the objects in
    index order, the third writes the same bytes again, so its pack has the name of the one
    it replaces, and the retirement of old packs deletes it. *)
Theorem compact_thrice_empties (b : PackedDiskBackend) :
  packed_inv b → pack_caps (map_to_list (pb_view b)) → (∀ c, ∃ z, zstd_encode c = Ok z) →
  ∃ n1 b1 n2 b2 n3 b3, pb_compact b = (Ok n1, b1) ∧ pb_compact b1 = (Ok n2, b2) ∧ pb_compact b2 = (Ok n3, b3) ∧
    pb_view b3 = ∅.
Proof.
  intros Hinv Hcaps Hz.
  assert (∀ s r s', repack s = (Ok r, s') → ∃ n, pb_compact s = (Ok n, s')) as Hcompact.
  { intros s r s' Hr. unfold pb_compact, gets, db_list, mbind, M_bind. rewrite Hr. eauto. }
  assert (∀ s, packed_inv s → pb_view s = ∅ → repack s = (Ok None, s)) as Hempty by (intros; by apply repack_empty).
  destruct (repack_step b Hinv Hcaps Hz) as (r1 & b1 & Hr1 & Hi1 & Hcase1).
  destruct (Hcompact _ _ _ Hr1) as [n1 Hc1]. destruct Hcase1 as [He1|(p1 & e1 & d1 & Hf1 & Heq1 & Hv1 & Hl1)].
  { destruct (Hcompact _ _ _ (Hempty b1 Hi1 He1)) as [n Hc]. exists n1, b1, n, b1, n, b1. done. }
  assert (NoDup (packed_ids b1)) as Hnd1 by (rewrite Heq1; eapply NoDup_repacked_ids; done).
  assert (packed_ids b1 = index_ids (index_build e1 d1)) as Hids1 by (rewrite Heq1; apply repacked_packed_ids).
  rewrite <-Hv1 in Hcaps. destruct (repack_step b1 Hi1 Hcaps Hz) as (r2 & b2 & Hr2 & Hi2 & Hcase2).
  destruct (Hcompact _ _ _ Hr2) as [n2 Hc2]. destruct Hcase2 as [He2|(p2 & e2 & d2 & Hf2 & Heq2 & Hv2 & Hl2)].
  { destruct (Hcompact _ _ _ (Hempty b2 Hi2 He2)) as [n Hc]. exists n1, b1, n2, b2, n, b2. done. }
  rewrite (repack_objs_packed b1 Hnd1 Hl1) in Hf2.
  assert (pe_id <$> e2 = packed_ids b1) as Hids2.
  { rewrite (entries_ids None b1 p2 e2 d2) by by rewrite (repack_objs_packed b1 Hnd1 Hl1).
    rewrite (repack_objs_packed b1 Hnd1 Hl1), <-list_fmap_compose. apply list_fmap_id. }
  assert (packed_ids b2 = packed_ids b1) as Hsame.
  { rewrite Heq2, repacked_packed_ids, index_ids_of_sorted; [done|]. rewrite Hids2, Hids1. apply index_ids_sorted. }
  assert (repack_objs None b2 = obj_of (pb_view b1) <$> packed_ids b1) as Hobjs2.
  { rewrite repack_objs_packed, Hsame, Hv2; [done| |done]. by rewrite Hsame. }
  destruct (decide (repack_objs None b2 = [])) as [Hnil|Hne].
  { assert (pb_view b2 = ∅) as He2.
    { apply map_to_list_empty_iff, Permutation_nil. by rewrite <-(repack_all_perm b2 Hi2), Hnil. }
    destruct (Hcompact _ _ _ (Hempty b2 Hi2 He2)) as [n Hc]. exists n1, b1, n2, b2, n, b2. done. }
  rewrite <-Hobjs2 in Hf2. destruct (repack_clash b2 p2 e2 d2 Hi2 Hne Hf2) as (b3 & Hr3 & _ & Hv3).
  { rewrite Heq2. simpl. by apply list_elem_of_singleton. }
  destruct (Hcompact _ _ _ Hr3) as [n3 Hc3]. exists n1, b1, n2, b2, n3, b3. done.
Qed.

(** One compaction keeps everything, when the new pack has a new name. From a sound
    store with objects that fit a pack, [compact] reports the number of loose
    objects, moves every object into one pack, leaves no loose copy and changes no read;
    the count of objects is then exact. *)
Theorem compact_keeps_contents (b : PackedDiskBackend) pack entries digest :
  packed_inv b → repack_objs None b ≠ [] → pack_caps (repack_objs None b) →
  finish (repack_objs None b) = Ok (pack, entries, digest) →
  pack_stem digest +:+ ".pack" ∉ pk_path <$> pb_packs b →
  ∃ b', pb_compact b = (Ok (N.of_nat (length (db_ids (pb_loose b)))), b') ∧ packed_inv b' ∧
    pb_view b' = pb_view b ∧ db_ids (pb_loose b') = [] ∧
    (∀ id, pb_get b' id = pb_get b id) ∧ pb_count b' = Ok (N.of_nat (size (pb_view b))).
Proof.
  intros Hinv Hne Hcaps Hfin Hfresh. exists (repacked_state None b pack entries digest).
  assert (packed_inv (repacked_state None b pack entries digest)) as Hi by by apply repacked_inv.
  assert (pb_view (repacked_state None b pack entries digest) = pb_view b) as Hv by (apply map_eq; intros id; by rewrite repacked_view).
  split_and!; [|done|done| | |].
  - unfold pb_compact, repack, gets, db_list, mbind, M_bind. by rewrite (repack_fresh_eq None b pack entries digest).
  - apply no_loose_left; [done|]. intros id. by apply all_loose_queued.
  - intros id. by rewrite !pb_get_view, Hv.
  - rewrite pb_count_view, Hv; [done|done|]. by apply NoDup_repacked_ids.
Qed.

(** ** Sweeping *)

(** A loose object inside the grace window. *)
Definition young (b : PackedDiskBackend) (grace_secs now : N) (id : ObjectId) : bool :=
  match loose_mtime_secs b id with Some m => (now <? saturating_add m grace_secs)%N | None => false end.
Definition doomed (b : PackedDiskBackend) (keep : gset ObjectId) (grace_secs now : N) (id : ObjectId) : bool :=
  negb (bool_decide (id ∈ keep)) && negb (young b grace_secs now id).

Lemma sweep_loop keep grace now b0 ids : NoDup ids → ∀ b,
  (∀ id, id ∈ ids → loose_mtime_secs b id = loose_mtime_secs b0 id) →
  M_iter (sweep_one keep grace now) ids b =
    (Ok (), with_loose b (drop_loose (filter (λ id, doomed b0 keep grace now id = true) ids) (pb_loose b))).
Proof.
  induction 1 as [|id ids Hid Hnd IH]; intros b Hm; [by destruct b|].
  assert (∀ b', (∀ x, x ∈ ids → fs_file (pb_loose b') (object_path x) = fs_file (pb_loose b) (object_path x)) →
    ∀ x, x ∈ ids → loose_mtime_secs b' x = loose_mtime_secs b0 x) as Hm'.
  { intros b' Hf x Hx. unfold loose_mtime_secs. rewrite Hf by done. apply Hm. by right. }
  assert (M_iter (sweep_one keep grace now) ids (with_loose b (fs_remove (object_path id) (pb_loose b))) =
    (Ok (), with_loose b (drop_loose (id :: filter (λ x, doomed b0 keep grace now x = true) ids) (pb_loose b)))) as Hdrop.
  { rewrite IH; [done|]. apply Hm'. intros x Hx. cbn [with_loose pb_loose]. rewrite fs_file_remove, decide_False; [done|].
    intros ?%(inj object_path). by subst. }
  assert (M_iter (sweep_one keep grace now) ids b =
    (Ok (), with_loose b (drop_loose (filter (λ x, doomed b0 keep grace now x = true) ids) (pb_loose b)))) as Hstay.
  { apply IH, Hm'. done. }
  specialize (Hm id ltac:(by left)).
  cbn [M_iter]. unfold mbind, M_bind, sweep_one at 1.
  destruct (decide (id ∈ keep)) as [Hk|Hk].
  { rewrite filter_cons_False; [exact Hstay|]. unfold doomed. by rewrite bool_decide_eq_true_2. }
  unfold gets, mbind, M_bind. rewrite Hm.
  assert (doomed b0 keep grace now id = negb (young b0 grace now id)) as Hd
    by (unfold doomed; by rewrite bool_decide_eq_false_2). unfold young in Hd.
  destruct (loose_mtime_secs b0 id) as [m|]; [destruct (now <? saturating_add m grace)%N|].
  - rewrite filter_cons_False; [exact Hstay|]. by rewrite Hd.
  - rewrite filter_cons_True by done. unfold on_loose, db_delete, modify. exact Hdrop.
  - rewrite filter_cons_True by done. unfold on_loose, db_delete, modify. exact Hdrop.
Qed.

(** With every pack removed no pack loads. *)
Lemma load_retired d packs : load_packs d = Ok packs → load_packs (removed d (pk_path <$> packs)) = Ok [].
Proof.
  intros Hload. apply load_packs_Ok in Hload as Hl. destruct Hl as [Hparse _]. apply load_packs_Ok.
  assert (∀ n, n ∈ idx_paths (removed d (pk_path <$> packs)) → is_Some (parsed (removed d (pk_path <$> packs)) n) ∧
    loaded (removed d (pk_path <$> packs)) n = None) as Hall.
  { intros n [Hext Hn]%elem_of_idx_paths. destruct (extension_Some _ _ Hext) as (q & Hq & ->).
    pose proof (is_removed_file d packs Hload q "idx" Hq (or_introl eq_refl)) as Hri.
    pose proof (is_removed_file d packs Hload q "pack" Hq (or_intror eq_refl)) as Hrp. unfold olds in *.
    unfold parsed, loaded, parsed. rewrite (with_extension_file q "idx" "pack"), !lookup_removed in * by done.
    rewrite (decide_ext _ _ _ _ Hri), (decide_ext _ _ _ _ Hrp) in *.
    case_decide as Hin; [by destruct Hn|]. destruct Hn as [data Hdata].
    destruct (Hparse (q +:+ "." +:+ "idx")) as [i Hi]; [apply elem_of_idx_paths; eauto|]. unfold parsed in Hi.
    split; [eauto|]. rewrite Hi. simpl. rewrite decide_True; [done|]. apply eq_None_not_Some. intros Hpk.
    apply Hin, list_elem_of_fmap. exists (MkPack i (q +:+ ".pack")). split; [done|].
    apply (elem_of_loaded d); [done|]. exists q, data. split_and!; try done.
    rewrite Hdata in Hi. simpl in *. destruct (index_parse data); congruence. }
  split; [intros n Hn; by apply Hall|]. symmetry. apply list_omap_none. intros n Hn. by apply Hall.
Qed.

(** The first half of a sweep. *)
Lemma sweep_repack b keep : packed_inv b → pack_caps (repack_objs (Some keep) b) →
  (∀ c, ∃ z, zstd_encode c = Ok z) →
  (∀ pack entries digest, finish (repack_objs (Some keep) b) = Ok (pack, entries, digest) →
    pack_stem digest +:+ ".pack" ∉ pk_path <$> pb_packs b) →
  ∃ r b1, repack_keeping (Some keep) b = (Ok r, b1) ∧ packed_inv b1 ∧ NoDup (packed_ids b1) ∧
    (∀ id, id ∈ packed_ids b1 → id ∈ keep) ∧
    (∀ id, pb_view b1 !! id = if decide (id ∈ keep) then pb_view b !! id else db_view (pb_loose b) !! id) ∧
    ∀ id, id ∉ keep → fs_file (pb_loose b1) (object_path id) = fs_file (pb_loose b) (object_path id).
Proof.
  intros Hinv Hcaps Hz Hfresh. destruct (decide (repack_objs (Some keep) b = [])) as [Hnil|Hne].
  - exists None, (MkPacked (pb_loose b) (removed (pb_dir b) (pk_path <$> pb_packs b)) []).
    pose proof (load_retired _ _ (pi_loaded b Hinv)) as Hl.
    rewrite repack_keeping_nil, Hl by done. split; [done|].
    assert (packed_inv (MkPacked (pb_loose b) (removed (pb_dir b) (pk_path <$> pb_packs b)) [])) as Hi.
    { split; [apply Hinv|done|by intros ? ?%elem_of_nil]. }
    split; [done|]. split; [constructor|]. split; [by intros ? ?%elem_of_nil|]. split; [|done]. intros id.
    rewrite lookup_pb_view by done. unfold pb_content, pack_content. rewrite <-lookup_db_view. simpl.
    destruct (decide (id ∈ keep)) as [Hk|Hk]; [|by destruct (db_view _ !! id)].
    destruct (pb_view b !! id) as [c|] eqn:Hc.
    + exfalso. apply (not_elem_of_nil (id, c)). rewrite <-Hnil. apply elem_of_repack_objs; [done|]. split; [done|].
      simpl. apply bool_decide_eq_false_2. intros Hn. by apply Hn.
    + rewrite lookup_loose_view in Hc by done. by destruct (db_view _ !! id).
  - destruct (finish_total (repack_objs (Some keep) b) Hz) as (pack & entries & digest & Hfin).
    specialize (Hfresh pack entries digest Hfin).
    exists (Some digest), (repacked_state (Some keep) b pack entries digest). rewrite (repack_fresh_eq (Some keep) b pack entries digest) by done.
    assert (∀ id, excluded (Some keep) id = negb (bool_decide (id ∈ keep))) as Hex.
    { intros id. simpl. by rewrite bool_decide_not. }
    split; [done|]. split; [by apply repacked_inv|]. split; [by apply NoDup_repacked_ids|]. split_and!.
    + intros id Hid. apply repacked_ids in Hid as [_ Hid]; [|done..]. rewrite Hex in Hid. by case_bool_decide.
    + intros id. rewrite repacked_view, Hex by done. by case_bool_decide; case_decide.
    + intros id Hk. cbn [repacked_state pb_loose]. rewrite drop_loose_file, decide_False; [done|].
      intros ([x c] & -> & Hc)%list_elem_of_fmap. apply elem_of_repack_objs in Hc as [_ Hc]; [|done].
      rewrite Hex in Hc. by case_bool_decide.
Qed.

(** A sweep keeps what is reachable and what is young, and nothing else, when the pack
    it writes has a new name. From a sound store with no id in two packs,
    a sweep leaves a reachable object exactly as it was, an unreachable one only if it has
    a loose copy younger than the grace window, and reports how many objects went. *)
Theorem packed_sweep_exact (b : PackedDiskBackend) (keep : gset ObjectId) (grace_secs now : N) :
  packed_inv b → NoDup (packed_ids b) → pack_caps (repack_objs (Some keep) b) →
  (∀ c, ∃ z, zstd_encode c = Ok z) →
  (∀ pack entries digest, finish (repack_objs (Some keep) b) = Ok (pack, entries, digest) →
    pack_stem digest +:+ ".pack" ∉ pk_path <$> pb_packs b) →
  ∃ b', pb_sweep keep grace_secs now b = (Ok (N.of_nat (size (pb_view b) - size (pb_view b'))), b') ∧
    packed_inv b' ∧
    (∀ id, pb_view b' !! id =
      if decide (id ∈ keep) then pb_view b !! id
      else if young b grace_secs now id then db_view (pb_loose b) !! id else None) ∧
    pb_view b' ⊆ pb_view b.
Proof.
  intros Hinv Hnd Hcaps Hz Hfresh.
  destruct (sweep_repack b keep Hinv Hcaps Hz Hfresh) as (r & b1 & Hr & Hi1 & Hnd1 & Hkeep & Hv1 & Hf1).
  set (ids := filter (λ id, doomed b1 keep grace_secs now id = true) (db_ids (pb_loose b1))).
  set (b' := with_loose b1 (drop_loose ids (pb_loose b1))).
  pose proof (sweep_loop keep grace_secs now b1 (db_ids (pb_loose b1)) (NoDup_db_ids _) b1 (λ _ _, eq_refl)) as Hloop.
  fold ids b' in Hloop. destruct (drop_loose_view ids (pb_loose b1) (pi_loose b1 Hi1)) as [Hdi Hdv].
  assert (packed_inv b') as Hi' by by apply packed_inv_loose.
  assert (∀ id, pb_view b' !! id = if decide (id ∈ keep) then pb_view b !! id
      else if young b grace_secs now id then db_view (pb_loose b) !! id else None) as Hv'.
  { intros id. unfold b'. rewrite lookup_with_loose, Hdv by done. specialize (Hv1 id).
    rewrite lookup_loose_view in Hv1 by done. unfold ids.
    destruct (decide (id ∈ filter _ _)) as [Hin|Hin]; rewrite list_elem_of_filter in Hin; unfold doomed in Hin.
    all: destruct (decide (id ∈ keep)) as [Hk|Hk];
      [rewrite bool_decide_eq_true_2 in Hin by done|rewrite bool_decide_eq_false_2 in Hin by done]; [first [exact Hv1|by destruct Hin]|].
    all: assert (pack_content b1 id = None) as Hp
      by (apply eq_None_not_Some; rewrite pack_content_Some by done; intros Hid; by apply Hk, Hkeep).
    all: assert (young b1 grace_secs now id = young b grace_secs now id) as Hy
      by (unfold young, loose_mtime_secs; by rewrite Hf1).
    all: rewrite Hp, Hy in *.
    - destruct Hin as [Hy' _]. by destruct (young b grace_secs now id).
    - destruct (young b grace_secs now id); simpl in Hin; [exact Hv1|].
      destruct (db_view (pb_loose b1) !! id) as [c|] eqn:Hc; [|done].
      exfalso. apply Hin. split; [done|]. apply elem_of_db_ids, db_view_Some; [apply Hi1|eauto]. }
  assert (pb_view b' ⊆ pb_view b) as Hsub.
  { apply map_subseteq_spec. intros id c. rewrite Hv'. case_decide; [done|]. destruct (young _ _ _ _); [|done].
    intros Hc. rewrite lookup_loose_view, Hc by done. done. }
  exists b'. split_and!; [|done|done|done].
  unfold pb_sweep, gets, mbind, M_bind. cbv beta. rewrite pb_count_view by done. rewrite Hr. unfold db_list.
  fold (db_ids (pb_loose b1)). rewrite Hloop. rewrite pb_count_view; [|done|exact Hnd1].
  unfold mret, M_ret. do 2 f_equal. lia.
Qed.

(** ** The reader's cap *)

(** A compaction can make an object unreadable. Put an object larger than 128 MiB
    (the loose store has no limit) in any sound store and compact, the pack having a new
    name: the compaction reports success, the loose copy is gone, [exists] still says
    the object is there, and reading it fails, since the pack reader refuses frames over
    128 MiB while the pack writer does not. *)
Theorem oversized_object_lost (b : PackedDiskBackend) (id : ObjectId) (data pack : bytes) entries digest :
  packed_inv b → pb_get b id = Ok (Some data) → (MAX_OBJECT_LEN < blen data)%N → (blen data < U64)%N →
  finish (repack_objs None b) = Ok (pack, entries, digest) →
  (blen pack < U64)%N → (N.of_nat (length (repack_objs None b)) < 2 ^ 32)%N →
  pack_stem digest +:+ ".pack" ∉ pk_path <$> pb_packs b →
  ∃ n b', pb_compact b = (Ok n, b') ∧ pb_exists b' id = Ok true ∧
    fs_file (pb_loose b') (object_path id) = None ∧
    pb_get b' id = Err (Storage "pack: object length exceeds cap").
Proof.
  intros Hinv Hget Hbig Hmem Hfin Hpmem Hn Hfresh. rewrite pb_get_view in Hget by done. injection Hget as Hv.
  assert ((id, data) ∈ repack_objs None b) as Hin by by apply elem_of_repack_objs.
  assert (repack_objs None b ≠ []) as Hne by (intros Hnil; rewrite Hnil in Hin; by apply elem_of_nil in Hin).
  pose proof (finish_index_fits_mem _ _ _ _ Hpmem Hn Hfin) as Hfits.
  set (b' := repacked_state None b pack entries digest).
  assert (repack b = (Ok (Some digest), b')) as Hr.
  { unfold repack. rewrite (repack_keeping_eq None b pack entries digest), load_repacked_dir by done. done. }
  exists (N.of_nat (length (db_ids (pb_loose b)))), b'. split.
  { unfold pb_compact, gets, db_list, mbind, M_bind. by rewrite Hr. }
  assert (fs_file (pb_loose b') (object_path id) = None) as Hnone.
  { cbn [b' repacked_state pb_loose]. rewrite drop_loose_file, decide_True; [done|]. apply list_elem_of_fmap. by exists (id, data). }
  assert (∃ off len buf, in_any_pack b' id = Ok (Some (pack_stem digest +:+ ".pack", off, len)) ∧
    get_range pack off (off + len) = Some buf ∧ decode_frame buf = Err (Storage "pack: object length exceeds cap"))
    as (off & len & buf & Hhit & Hbuf & Hdec).
  { destruct (finish_Ok _ _ _ _ Hfin) as (zs & _ & Hp & _).
    destruct (in_packs_spec (pb_packs b') id) as (o & Ho & Hspec).
    { intros p Hp1%list_elem_of_singleton. subst p. apply (StronglySorted_merge_sort _). }
    destruct o as [[[path off] len]|].
    - destruct Hspec as (p & Hp1%list_elem_of_singleton & <- & He). subst p. simpl in He. rewrite merge_sort_Permutation in He.
      apply list_elem_of_lookup in He as [k Hk].
      destruct (Forall2_lookup_r _ _ _ _ _ Hp Hk) as ([id' c] & Hb & z & pre & post & Hz & Hid & Hpk & Hoff & Hln).
      simpl in Hid, Hoff, Hln. subst id' off len. apply list_elem_of_lookup_2, elem_of_repack_objs in Hb as [Hb _]; [|done].
      rewrite Hv in Hb. injection Hb as <-. exists (blen pre), (blen (frame_of (id, data) z)), (frame_of (id, data) z).
      split; [exact Ho|]. split; [rewrite Hpk; by apply get_range_at|]. apply decode_frame_oversized; [done|done|].
      rewrite Hpk, !blen_app, frame_of_length in Hpmem. lia.
    - exfalso. apply (Hspec (entry_pack entries digest)); [by apply list_elem_of_singleton|].
      unfold index_ids, entry_pack. simpl. rewrite merge_sort_Permutation, (entries_ids None b pack entries digest) by done.
      apply list_elem_of_fmap. by exists (id, data). }
  split_and!; [|done|].
  - unfold pb_exists, db_exists. rewrite Hnone. simpl. by rewrite Hhit.
  - unfold pb_get, db_get. rewrite Hnone. simpl. rewrite Hhit. simpl. unfold read_pack_frame, decode_frame_public.
    cbn [b' repacked_state pb_dir]. rewrite lookup_repacked_dir by done. simpl. rewrite Hbuf. simpl. by rewrite Hdec.
Qed.
End repack.

Section demo.
Local Existing Instance toy_zstd.
Local Existing Instance toy_zstd_laws.
Local Existing Instance rolling_codec.
Local Existing Instance toy_read_dir.
Local Existing Instance toy_read_dir_laws.

Lemma toy_zstd_total c : ∃ z, zstd_encode c = Ok z.
Proof. by eexists. Qed.
Lemma ex_packed_caps : pack_caps (map_to_list (pb_view ex_packed)).
Proof.
  assert (map_to_list (pb_view ex_packed) = ex_objs) as -> by (vm_compute; reflexivity). exact ex_caps.
Qed.

(** A store with two objects is empty after three compactions. *)
Lemma compact_thrice_empties_witness : size (pb_view ex_packed) = 2 ∧
  ∃ n1 b1 n2 b2 n3 b3, pb_compact ex_packed = (Ok n1, b1) ∧ pb_compact b1 = (Ok n2, b2) ∧
    pb_compact b2 = (Ok n3, b3) ∧ pb_view b3 = ∅.
Proof.
  split; [vm_compute; reflexivity|].
  exact (compact_thrice_empties ex_packed ex_packed_inv ex_packed_caps toy_zstd_total).
Defined.

Definition ex_new : bytes * list PackEntry * vec byte 32 :=
  match finish (repack_objs None ex_packed) with Ok r => r | Err _ => ([], [], rolling_hash []) end.
Lemma ex_new_finish : finish (repack_objs None ex_packed) = Ok (ex_new.1.1, ex_new.1.2, ex_new.2).
Proof. vm_compute. reflexivity. Qed.
Lemma ex_objs_caps : pack_caps (repack_objs None ex_packed).
Proof. apply (pack_caps_perm (map_to_list (pb_view ex_packed))); [|exact ex_packed_caps]. symmetry. by apply repack_all_perm, ex_packed_inv. Qed.
Lemma ex_objs_nonempty : repack_objs None ex_packed ≠ [].
Proof. intros Hn. vm_compute in Hn. discriminate Hn. Qed.

Lemma compact_keeps_contents_witness : ∃ b', pb_compact ex_packed = (Ok 2%N, b') ∧
  pb_view b' = pb_view ex_packed ∧ pb_get b' ex_id2 = Ok (Some ex_data2).
Proof.
  assert (pack_stem ex_new.2 +:+ ".pack" ∉ pk_path <$> pb_packs ex_packed) as Hf by apply not_elem_of_nil.
  destruct (compact_keeps_contents ex_packed ex_new.1.1 ex_new.1.2 ex_new.2 ex_packed_inv ex_objs_nonempty
    ex_objs_caps ex_new_finish Hf) as (b' & Hc & _ & Hv & _ & Hg & _).
  exists b'. split; [|split; [exact Hv|]].
  - rewrite Hc. reflexivity.
  - rewrite Hg. vm_compute. reflexivity.
Defined.

Lemma ex_caps1 : pack_caps (take 1 ex_objs).
Proof.
  split; [|split; vm_compute; discriminate].
  repeat constructor; vm_compute; (reflexivity || discriminate).
Qed.

(** Sweeping with only the first object reachable, a day later. *)
Lemma packed_sweep_exact_witness :
  ∃ b', pb_sweep {[ex_id1]} 3600 87400 ex_packed = (Ok 1%N, b') ∧
    pb_view b' !! ex_id1 = Some ex_data1 ∧ pb_view b' !! ex_id2 = None.
Proof.
  assert (NoDup (packed_ids ex_packed)) as Hnd by constructor.
  assert (pack_caps (repack_objs (Some {[ex_id1]}) ex_packed)) as Hcaps
    by (assert (repack_objs (Some {[ex_id1]}) ex_packed = take 1 ex_objs) as -> by (vm_compute; reflexivity); exact ex_caps1).
  assert (∀ pack entries digest, finish (repack_objs (Some {[ex_id1]}) ex_packed) = Ok (pack, entries, digest) →
    pack_stem digest +:+ ".pack" ∉ pk_path <$> pb_packs ex_packed) as Hf
    by (intros pack entries digest _; apply not_elem_of_nil).
  destruct (packed_sweep_exact ex_packed {[ex_id1]} 3600 87400 ex_packed_inv Hnd Hcaps toy_zstd_total Hf)
    as (b' & Hs & _ & Hv & _).
  exists b'. split; [|split].
  - rewrite Hs. assert (b' = (pb_sweep {[ex_id1]} 3600 87400 ex_packed).2) as -> by by rewrite Hs.
    vm_compute. reflexivity.
  - rewrite Hv. vm_compute. reflexivity.
  - rewrite Hv. vm_compute. reflexivity.
Defined.

(** An object of 128 MiB and one byte, alone in a store. *)
Definition big_id : ObjectId := id_of_bytes [].
Definition big_disk (data : bytes) : DiskBackend := put_done ex_empty big_id (x28 :: data).
Definition big_store (data : bytes) : PackedDiskBackend := MkPacked (big_disk data) ∅ [].
Lemma big_exists : ∃ data : bytes, blen data = (MAX_OBJECT_LEN + 1)%N.
Proof. exists (replicate (N.to_nat (MAX_OBJECT_LEN + 1)) x00). unfold blen. rewrite length_replicate. apply N2Nat.id. Qed.
Lemma toy_encode data : zstd_encode data = Ok (x28 :: data).
Proof. reflexivity. Qed.

Lemma big_inv data : packed_inv (big_store data) ∧ pb_view (big_store data) = {[big_id := data]}.
Proof.
  destruct (put_done_view ex_empty big_id data (x28 :: data) (toy_encode data) ex_empty_inv) as [Hi Hv].
  assert (packed_inv (big_store data)) as Hb.
  { unfold big_store, big_disk. split; [exact Hi|reflexivity|]. intros p Hp. apply elem_of_nil in Hp. destruct Hp. }
  split; [exact Hb|]. apply map_eq. intros x. rewrite lookup_loose_view by exact Hb. unfold big_store, big_disk. cbn [pb_loose].
  rewrite Hv. assert (db_view ex_empty = ∅) as -> by (vm_compute; reflexivity).
  unfold singletonM, map_singleton. by destruct (<[big_id:=data]> ∅ !! x).
Qed.

Lemma big_objs data : repack_objs None (big_store data) = [(big_id, data)].
Proof.
  destruct (big_inv data) as [Hi Hv]. apply Permutation_singleton_r. rewrite repack_all_perm, Hv by exact Hi.
  by rewrite map_to_list_singleton.
Qed.

Lemma oversized_object_lost_witness : ∃ data n b', pb_get (big_store data) big_id = Ok (Some data) ∧
  pb_compact (big_store data) = (Ok n, b') ∧ pb_exists b' big_id = Ok true ∧
    pb_get b' big_id = Err (Storage "pack: object length exceeds cap").
Proof.
  destruct big_exists as [data big_length]. destruct (big_inv data) as [Hi Hv].
  assert (pb_get (big_store data) big_id = Ok (Some data)) as Hg
    by (rewrite pb_get_view, Hv by exact Hi; by rewrite lookup_singleton_eq).
  destruct (finish_total (repack_objs None (big_store data)) toy_zstd_total) as (pack & entries & digest & Hfin).
  assert (blen pack < U64)%N as Hpl.
  { rewrite big_objs in Hfin. destruct (finish_Ok _ _ _ _ Hfin) as (zs & Hc & _ & Hd & Hp).
    pose proof (frames_of_bound _ _ Hc) as Hb. rewrite Hp, Hd, blen_app, digest_length, blen_app, pack_header_length.
    unfold total_len in Hb. cbn [foldr length] in Hb. cbn [snd] in Hb. rewrite big_length in Hb.
    unfold MAX_OBJECT_LEN, U64 in *. lia. }
  assert (MAX_OBJECT_LEN < blen data)%N as Hbig by (rewrite big_length; reflexivity).
  assert (blen data < U64)%N as Hmem by (rewrite big_length; reflexivity).
  assert (N.of_nat (length (repack_objs None (big_store data))) < 2 ^ 32)%N as Hn by (rewrite big_objs; reflexivity).
  assert (pack_stem digest +:+ ".pack" ∉ pk_path <$> pb_packs (big_store data)) as Hf by apply not_elem_of_nil.
  destruct (oversized_object_lost (big_store data) big_id data pack entries digest Hi Hg Hbig Hmem Hfin Hpl Hn Hf)
    as (n & b' & Hc & He & _ & Hl).
  exists data, n, b'. split; [exact Hg|]. split; [exact Hc|]. split; [exact He|exact Hl].
Defined.
End demo.
