(* ===== verification/Crash.v ===== *)
(** * Crash: where a repack can stop, and what is left

    [repack_keeping] of src/src/store/packed.rs writes the new pack and its index to
    temporary files and renames them, removes the old packs file by file, then the loose
    copies one by one.  A crash leaves the files as they are between two of these system
    calls, or with a temporary file half written.  The theorem: whatever point it stops
    at, opening the store again succeeds and every object that was to be kept reads as
    before. *)

From S2P Require Import Prelude Bytes Ids Objects Store Pack Disk Packed Repack.
From Stdlib Require Import Lia.

(** ** Crash states *)
Section crash.
Context `{Zstd, ReadDir, ObjectCodec}.

(** The loose files and the pack files at each point of a repack that writes [pack] and
    [idx] under the stem [s] and replaces the packs [old], moving the objects [ids]. *)
Inductive repack_crash (l : DiskBackend) (d : gmap string bytes) (old : list string) (ids : list ObjectId)
    (s : string) (pack idx : bytes) : DiskBackend → gmap string bytes → Prop :=
| crash_start : repack_crash l d old ids s pack idx l d
| crash_pack_tmp k : repack_crash l d old ids s pack idx l (<[s +:+ ".tmp" := take k pack]> d)
| crash_pack : repack_crash l d old ids s pack idx l
    (<[s +:+ ".pack" := pack]> (delete (s +:+ ".tmp") (<[s +:+ ".tmp" := pack]> d)))
| crash_idx_tmp k : repack_crash l d old ids s pack idx l
    (<[s +:+ ".tmp" := take k idx]> (<[s +:+ ".pack" := pack]> (delete (s +:+ ".tmp") (<[s +:+ ".tmp" := pack]> d))))
| crash_removing done_ rest : old = done_ ++ rest →
    repack_crash l d old ids s pack idx l (removed (written d s pack idx) done_)
| crash_half_removed done_ p rest : old = done_ ++ p :: rest →
    repack_crash l d old ids s pack idx l (delete p (removed (written d s pack idx) done_))
| crash_loose gone rest : ids = gone ++ rest →
    repack_crash l d old ids s pack idx (drop_loose gone l) (removed (written d s pack idx) old).
End crash.

Section safe.
Context `{Zstd, !ZstdLaws, ReadDir, !ReadDirLaws, ObjectCodec}.

(** An id has one pack and one entry in it. *)
Lemma NoDup_bind_unique {A B} (f : A → list B) (l : list A) p q x :
  NoDup (l ≫= f) → p ∈ l → q ∈ l → x ∈ f p → x ∈ f q → p = q.
Proof.
  induction l as [|y l IH]; [by intros _ ?%elem_of_nil|].
  rewrite bind_cons, NoDup_app. intros (_ & Hdisj & Hnd) Hp Hq Hxp Hxq.
  apply elem_of_cons in Hp as [->|Hp], Hq as [->|Hq]; [done|..|by apply IH].
  - exfalso. apply (Hdisj x Hxp), list_elem_of_bind. eauto.
  - exfalso. apply (Hdisj x Hxq), list_elem_of_bind. eauto.
Qed.
Lemma NoDup_bind_in {A B} (f : A → list B) (l : list A) p : NoDup (l ≫= f) → p ∈ l → NoDup (f p).
Proof.
  induction l as [|y l IH]; [by intros _ ?%elem_of_nil|].
  rewrite bind_cons, NoDup_app. intros (Hy & _ & Hnd) [->|Hp]%elem_of_cons; [done|by apply IH].
Qed.
Lemma entry_unique (l : list PackEntry) e1 e2 : NoDup (pe_id <$> l) → e1 ∈ l → e2 ∈ l → pe_id e1 = pe_id e2 → e1 = e2.
Proof.
  intros Hnd [i Hi]%list_elem_of_lookup [j Hj]%list_elem_of_lookup He.
  assert (i = j) as ->; [|congruence].
  apply (NoDup_lookup _ i j (pe_id e1) Hnd); rewrite list_lookup_fmap; [by rewrite Hi|rewrite Hj; simpl; by f_equal].
Qed.

Context (keep : option (gset ObjectId)) (b : PackedDiskBackend) (pack : bytes) (entries : list PackEntry)
  (digest : vec byte 32).
Context (Hinv : packed_inv b) (Hnd : NoDup (packed_ids b))
  (Hcaps : pack_caps (repack_objs keep b)) (Hfin : finish (repack_objs keep b) = Ok (pack, entries, digest))
  (Hclean : pb_dir b !! (pack_stem digest +:+ ".idx") = None).

Local Abbreviation s := (pack_stem digest).
Local Abbreviation idx := (index_encode (index_build entries digest)).
Local Abbreviation old := (pk_path <$> pb_packs b).

Lemma clean_fresh : s +:+ ".pack" ∉ old.
Proof.
  intros (p & Hp & Hin)%list_elem_of_fmap. apply (elem_of_loaded (pb_dir b)) in Hin as (q & data & Hq & Hpath & Hd & _);
    [|apply Hinv]. rewrite Hpath in Hp. apply (file_inj s q "pack" "pack") in Hp as [<- _]; [|done..]. by rewrite Hclean in Hd.
Qed.

(** What every directory left by a crash satisfies: its indexes and packs are old ones or
    the new ones, the new index comes with its pack, and either no old pack is touched or
    the new pack is in place. *)
Record partial_dir (d : gmap string bytes) : Prop := {
  pd_idx q data : q ≠ "" → d !! (q +:+ "." +:+ "idx") = Some data →
    (q ≠ s ∧ pb_dir b !! (q +:+ "." +:+ "idx") = Some data) ∨
    (q = s ∧ data = idx ∧ d !! (s +:+ "." +:+ "pack") = Some pack);
  pd_pack q f : q ≠ "" → q ≠ s → d !! (q +:+ "." +:+ "pack") = Some f → pb_dir b !! (q +:+ "." +:+ "pack") = Some f;
  pd_cover : (∀ q, q ≠ "" → q ≠ s →
      d !! (q +:+ "." +:+ "idx") = pb_dir b !! (q +:+ "." +:+ "idx") ∧
      d !! (q +:+ "." +:+ "pack") = pb_dir b !! (q +:+ "." +:+ "pack")) ∨
    d !! (s +:+ "." +:+ "idx") = Some idx
}.

Lemma idx_parses : index_parse idx = Ok (index_build entries digest).
Proof. apply index_file_roundtrip. by eapply finish_index_fits. Qed.

(** Such a directory loads: old packs, and the new one if its index is there. *)
Lemma partial_load d : partial_dir d → ∃ packs, load_packs d = Ok packs ∧
  ∀ p, p ∈ packs →
    (p ∈ pb_packs b ∧ d !! pk_path p = pb_dir b !! pk_path p) ∨
    (p = entry_pack entries digest ∧ d !! pk_path p = Some pack).
Proof.
  intros Hd. assert (∀ n, n ∈ idx_paths d → is_Some (parsed d n)) as Hparse.
  { intros n [Hext [data Hn]]%elem_of_idx_paths. destruct (extension_Some _ _ Hext) as (q & Hq & ->).
    unfold parsed. rewrite Hn. simpl. destruct (pd_idx d Hd q data Hq Hn) as [[_ Hold]|(_ & -> & _)].
    - pose proof (proj1 (proj1 (load_packs_Ok _ _) (pi_loaded b Hinv)) (q +:+ "." +:+ "idx")) as Hp.
      unfold parsed in Hp. rewrite Hold in Hp. simpl in Hp. apply Hp, elem_of_idx_paths. split; [by apply extension_file|eauto].
    - rewrite idx_parses. eauto. }
  eexists. split; [by apply load_packs_Ok|]. intros p Hp.
  assert (load_packs d = Ok (omap (loaded d) (idx_paths d))) as Hl by by apply load_packs_Ok.
  apply (elem_of_loaded d _ _ Hl) in Hp as (q & data & Hq & Hpath & Hdata & Hi & [f Hf]). rewrite Hpath.
  destruct (pd_idx d Hd q data Hq Hdata) as [[Hqs Hold]|(-> & -> & Hpk)].
  - left. change (q +:+ ".pack") with (q +:+ "." +:+ "pack") in *.
    pose proof (pd_pack d Hd q f Hq Hqs Hf) as Hfo. split; [|by rewrite Hf, Hfo].
    apply (elem_of_loaded (pb_dir b)); [apply Hinv|]. exists q, data. split_and!; eauto.
  - right. split; [|exact Hpk]. rewrite idx_parses in Hi. destruct p as [i path]. simpl in *. injection Hi as <-. by subst.
Qed.

Lemma new_pack_ok d : d !! (s +:+ ".pack") = Some pack → pack_ok d (entry_pack entries digest).
Proof.
  intros Hd. split; [apply (StronglySorted_merge_sort _)|]. exists pack. split; [exact Hd|].
  intros e He. simpl in He. rewrite merge_sort_Permutation in He.
  destruct (new_entry_readable keep b pack entries digest Hcaps Hfin e He) as (c & Hc & _). eauto.
Qed.

Lemma pack_ok_same d p : p ∈ pb_packs b → d !! pk_path p = pb_dir b !! pk_path p → pack_ok d p.
Proof. intros Hp Hd. destruct (pi_packs b Hinv p Hp) as [Hs Hf]. split; [done|]. by rewrite Hd. Qed.

(** Old packs keep their only place for an id. *)
Lemma old_entry p off len id : p ∈ pb_packs b → MkEntry id off len ∈ idx_entries (pk_idx p) →
  in_any_pack b id = Ok (Some (pk_path p, off, len)).
Proof.
  intros Hp He. destruct (in_packs_spec (pb_packs b) id) as (o & Ho & Hspec).
  { intros q Hq. by destruct (pi_packs b Hinv q Hq). }
  assert (id ∈ index_ids (pk_idx p)) as Hid by (apply elem_of_index_ids; eauto).
  unfold in_any_pack. rewrite Ho. destruct o as [[[path off'] len']|]; [|by destruct (Hspec p Hp)].
  destruct Hspec as (q & Hq & <- & He').
  assert (q = p) as ->.
  { apply (NoDup_bind_unique (λ p, index_ids (pk_idx p)) (pb_packs b) q p id); try done. apply elem_of_index_ids. eauto. }
  assert (MkEntry id off' len' = MkEntry id off len) as [= -> ->]; [|done].
  apply (entry_unique (idx_entries (pk_idx p))); try done.
  by apply (NoDup_bind_in (λ p, index_ids (pk_idx p)) (pb_packs b) p Hnd).
Qed.

(** Opening such a directory with the loose files untouched gives the same reads. *)
Lemma partial_view d packs : partial_dir d → load_packs d = Ok packs →
  packed_inv (MkPacked (pb_loose b) d packs) ∧
  ∀ id, excluded keep id = false → pb_view (MkPacked (pb_loose b) d packs) !! id = pb_view b !! id.
Proof.
  intros Hd Hload. destruct (partial_load d Hd) as (packs' & Hload' & Hfrom).
  assert (packs' = packs) as -> by congruence. set (b' := MkPacked (pb_loose b) d packs).
  assert (packed_inv b') as Hi.
  { split; [apply Hinv|done|]. intros p Hp. destruct (Hfrom p Hp) as [[Hpb Hsame]|[-> Hnew]];
      [by apply pack_ok_same|by apply new_pack_ok]. }
  split; [done|]. intros id He. rewrite (lookup_loose_view b'), (lookup_loose_view b) by done. cbn [b' pb_loose].
  destruct (db_view (pb_loose b) !! id) as [c|] eqn:Hl; [done|].
  assert (pb_view b !! id = pack_content b id) as Hvp by (rewrite lookup_loose_view, Hl by done; done).
  unfold pack_content at 1, in_any_pack. destruct (in_packs_spec (pb_packs b') id) as (o & -> & Hspec).
  { intros q Hq. by destruct (pi_packs b' Hi q Hq). }
  destruct o as [[[path off] len]|].
  - destruct Hspec as (p & Hp & <- & Hent). destruct (Hfrom p Hp) as [[Hpb Hsame]|[-> Hnew]].
    + unfold pack_content. rewrite (old_entry p off len id Hpb Hent). unfold read_pack_frame. cbn [b' pb_dir]. by rewrite Hsame.
    + cbn [entry_pack pk_idx index_build idx_entries] in Hent. rewrite merge_sort_Permutation in Hent.
      destruct (new_entry_readable keep b pack entries digest Hcaps Hfin _ Hent) as (c & (buf & Hbuf & Hdec) & Hc).
      apply elem_of_repack_objs in Hc as [Hc _]; [|done]. simpl in Hbuf, Hdec, Hc. rewrite <-Hvp, Hc.
      unfold read_pack_frame, decode_frame_public. cbn [b' pb_dir]. rewrite Hnew. simpl. rewrite Hbuf. simpl. by rewrite Hdec.
  - symmetry. apply eq_None_not_Some. rewrite pack_content_Some by done. intros Hid.
    assert (is_Some (pb_view b !! id)) as [c Hc] by (apply pb_view_Some; auto).
    apply elem_of_packed_ids in Hid as (p & Hp & Hid). destruct (pd_cover d Hd) as [Hall|Hnew].
    + apply (Hspec p); [|done]. apply (elem_of_loaded d); [done|].
      pose proof Hp as Hpl. apply (elem_of_loaded (pb_dir b)) in Hpl as (q & data & Hq & Hpath & Hdata & Hi' & Hpk); [|apply Hinv].
      assert (q ≠ s) as Hqs by (intros ->; congruence). destruct (Hall q Hq Hqs) as [Hx1 Hx2].
      exists q, data. change (q +:+ ".idx") with (q +:+ "." +:+ "idx") in *.
      change (q +:+ ".pack") with (q +:+ "." +:+ "pack") in *. rewrite Hx1, Hx2. done.
    + apply (Hspec (entry_pack entries digest)).
      * apply (elem_of_loaded d); [done|]. exists s, idx. split_and!; try done; [apply idx_parses|].
        destruct (pd_idx d Hd s idx (pack_stem_nonempty digest) Hnew) as [[Hss _]|(_ & _ & Hpk)]; [done|eauto].
      * unfold index_ids. simpl. rewrite merge_sort_Permutation, (entries_ids keep b pack entries digest) by done.
        apply list_elem_of_fmap. exists (id, c). split; [done|]. by apply elem_of_repack_objs.
Qed.

(** ** Every crash state is such a directory *)

(** A directory that differs from the old one in temporary files and the new pack only. *)
Lemma partial_unindexed d : (∀ q, q ≠ "" → d !! (q +:+ "." +:+ "idx") = pb_dir b !! (q +:+ "." +:+ "idx")) →
  (∀ q, q ≠ "" → q ≠ s → d !! (q +:+ "." +:+ "pack") = pb_dir b !! (q +:+ "." +:+ "pack")) → partial_dir d.
Proof.
  intros Hidx Hpk. split.
  - intros q data Hq Hd. rewrite Hidx in Hd by done. left. split; [|done]. intros ->.
    change (s +:+ "." +:+ "idx") with (s +:+ ".idx") in Hd. by rewrite Hclean in Hd.
  - intros q f Hq Hqs Hd. by rewrite Hpk in Hd.
  - left. intros q Hq Hqs. by rewrite Hidx, Hpk.
Qed.

Lemma elem_of_old n : n ∈ old → ∃ q, q ≠ "" ∧ q ≠ s ∧ n = q +:+ "." +:+ "pack".
Proof.
  intros Hn. destruct (elem_of_olds (pb_dir b) (pb_packs b) (pi_loaded b Hinv) n Hn) as (q & Hq & ->).
  exists q. split_and!; [done| |done]. intros ->. by apply clean_fresh.
Qed.

(** With the new files in place, any of the old ones may be gone. *)
Lemma partial_indexed d : d !! (s +:+ "." +:+ "idx") = Some idx → d !! (s +:+ "." +:+ "pack") = Some pack →
  (∀ q e, q ≠ "" → q ≠ s → e = "idx" ∨ e = "pack" →
    d !! (q +:+ "." +:+ e) = None ∨ d !! (q +:+ "." +:+ e) = pb_dir b !! (q +:+ "." +:+ e)) → partial_dir d.
Proof.
  intros Hidx Hpk Hother. split.
  - intros q data Hq Hd. destruct (decide (q = s)) as [->|Hqs].
    + right. split_and!; [done|congruence|done].
    + left. split; [done|]. destruct (Hother q "idx" Hq Hqs (or_introl eq_refl)) as [Ho|Ho]; congruence.
  - intros q f Hq Hqs Hd. destruct (Hother q "pack" Hq Hqs (or_intror eq_refl)) as [Ho|Ho]; congruence.
  - by right.
Qed.

Lemma not_removed_new paths e : paths ⊆ old → e = "idx" ∨ e = "pack" → ¬ is_removed paths (s +:+ "." +:+ e).
Proof.
  intros Hsub He. unfold is_removed. rewrite Exists_exists. intros (p & Hp & Heq).
  destruct (elem_of_old p (Hsub p Hp)) as (q & Hq & Hqs & ->). rewrite with_extension_file in Heq by done.
  destruct Heq as [Heq|Heq]; apply file_inj in Heq as [<- _]; try done; by destruct He as [->| ->].
Qed.

Lemma partial_removing paths extra : paths ⊆ old → extra ⊆ old →
  partial_dir (foldr delete (removed (written (pb_dir b) s pack idx) paths) extra).
Proof.
  intros Hsub Hex.
  assert (∀ d n, foldr delete d extra !! n = if decide (n ∈ extra) then None else (d : gmap string bytes) !! n) as Hfold.
  { clear. intros d n. induction extra as [|p l IH]; cbn [foldr]; [by rewrite decide_False by apply not_elem_of_nil|].
    destruct (decide (n = p)) as [->|Hne]; [rewrite lookup_delete_eq, decide_True; [done|by left]|].
    rewrite lookup_delete_ne, IH by done. by apply decide_ext; rewrite elem_of_cons; tauto. }
  assert (∀ e, e = "idx" ∨ e = "pack" → s +:+ "." +:+ e ∉ extra) as Hnew.
  { intros e He Hin. destruct (elem_of_old _ (Hex _ Hin)) as (q & Hq & Hqs & Heq).
    apply file_inj in Heq as [<- _]; try done; by destruct He as [->| ->]. }
  apply partial_indexed.
  - rewrite Hfold, decide_False, lookup_removed, decide_False, lookup_written by (auto using not_removed_new).
    by rewrite decide_True.
  - rewrite Hfold, decide_False, lookup_removed, decide_False, lookup_written by (auto using not_removed_new).
    assert (∀ e', rsplit_dot e' = None → e' ≠ "pack" → s +:+ "." +:+ "pack" ≠ s +:+ "." +:+ e') as Hx
      by (intros e' He' Hp Heq; by apply file_inj in Heq as [_ ?]).
    rewrite decide_False by exact (Hx "idx" eq_refl ltac:(done)).
    rewrite decide_False by exact (Hx "tmp" eq_refl ltac:(done)). by rewrite decide_True.
  - intros q e Hq Hqs He. rewrite Hfold, lookup_removed. case_decide; [by left|]. case_decide; [by left|]. right.
    rewrite lookup_written. assert (∀ e', rsplit_dot e' = None → q +:+ "." +:+ e ≠ s +:+ "." +:+ e') as Hx.
    { intros e' He' Heq. apply file_inj in Heq as [? _]; try done. by destruct He as [->| ->]. }
    by rewrite !decide_False by (apply (Hx "idx") || apply (Hx "tmp") || apply (Hx "pack"); done).
Qed.

Lemma tmp_other d f q e : e = "idx" ∨ e = "pack" → (<[s +:+ ".tmp" := f]> d) !! (q +:+ "." +:+ e) = (d : gmap string bytes) !! (q +:+ "." +:+ e).
Proof.
  intros He. change (s +:+ ".tmp") with (s +:+ "." +:+ "tmp"). apply lookup_insert_ne. intros Heq.
  destruct He as [->| ->]; by apply file_inj in Heq as [_ ?].
Qed.
Lemma tmp_delete_other d q e : e = "idx" ∨ e = "pack" →
  delete (s +:+ ".tmp") d !! (q +:+ "." +:+ e) = (d : gmap string bytes) !! (q +:+ "." +:+ e).
Proof.
  intros He. change (s +:+ ".tmp") with (s +:+ "." +:+ "tmp"). apply lookup_delete_ne. intros Heq.
  destruct He as [->| ->]; by apply file_inj in Heq as [_ ?].
Qed.
Lemma pack_other d f q e : q ≠ s ∨ e = "idx" → e = "idx" ∨ e = "pack" →
  (<[s +:+ ".pack" := f]> d) !! (q +:+ "." +:+ e) = (d : gmap string bytes) !! (q +:+ "." +:+ e).
Proof.
  intros Hq He. change (s +:+ ".pack") with (s +:+ "." +:+ "pack"). apply lookup_insert_ne. intros Heq.
  apply file_inj in Heq as [<- ?]; [|done|by destruct He as [->| ->]]. destruct Hq as [Hq| ->]; done.
Qed.

(** Up to the loose deletions the loose files are as before. *)
Lemma crash_partial l d : repack_crash (pb_loose b) (pb_dir b) old (repack_objs keep b).*1 s pack idx l d →
  (l = pb_loose b ∧ partial_dir d) ∨
  (∃ gone rest, (repack_objs keep b).*1 = gone ++ rest ∧ l = drop_loose gone (pb_loose b) ∧
    d = repacked_dir b pack entries digest).
Proof.
  intros Hc. destruct Hc as [|k| |k|done_ rest Hold|done_ p rest Hold|gone rest Hids]; [left; split; [done|]..|right].
  - apply partial_unindexed; by intros.
  - apply partial_unindexed; intros; apply tmp_other; auto.
  - apply partial_unindexed; intros; rewrite pack_other, tmp_delete_other, tmp_other by auto; done.
  - apply partial_unindexed; intros; rewrite tmp_other, pack_other, tmp_delete_other, tmp_other by auto; done.
  - apply (partial_removing done_ []); [|apply list_subseteq_nil]. rewrite Hold. by apply list_subseteq_app_l.
  - apply (partial_removing done_ [p]); rewrite Hold; [by apply list_subseteq_app_l|].
    intros x ->%list_elem_of_singleton. apply elem_of_app. right. by left.
  - exists gone, rest. done.
Qed.

Lemma crash_safe l d : repack_crash (pb_loose b) (pb_dir b) old (repack_objs keep b).*1 s pack idx l d →
  ∃ b', packed_open l d = Ok b' ∧ packed_inv b' ∧ ∀ id, excluded keep id = false → pb_view b' !! id = pb_view b !! id.
Proof.
  intros Hc. destruct (crash_partial l d Hc) as [[-> Hd]|(gone & rest & Hids & -> & ->)].
  - destruct (partial_load d Hd) as (packs & Hload & _). exists (MkPacked (pb_loose b) d packs).
    unfold packed_open. rewrite Hload. split; [done|]. by apply partial_view.
  - pose proof (repacked_inv keep b pack entries digest Hinv Hcaps Hfin clean_fresh) as Hri.
    destruct (drop_loose_view gone (pb_loose b) (pi_loose b Hinv)) as [Hdi Hdv].
    set (b1 := repacked_state keep b pack entries digest) in *.
    exists (with_loose b1 (drop_loose gone (pb_loose b))). split; [|split; [by apply packed_inv_loose|]].
    + unfold packed_open. rewrite (repacked_load keep b pack entries digest) by (done || apply clean_fresh). done.
    + intros id He. rewrite lookup_with_loose, Hdv by done.
      assert (id ∈ packed_ids b1 ↔ is_Some (pb_view b !! id)) as Hid.
      { unfold b1. rewrite repacked_ids by done. naive_solver. }
      assert (pack_content b1 id = pb_view b !! id) as Hpc.
      { destruct (pb_view b !! id) as [c|] eqn:Hv; rewrite <-?Hv.
        - apply repacked_content; try done; [apply clean_fresh|]. apply Hid. eauto.
        - rewrite Hv. apply eq_None_not_Some. rewrite pack_content_Some, Hid by done. by intros [? ?]. }
      rewrite Hpc. case_decide; [done|]. rewrite lookup_loose_view by done. by destruct (db_view (pb_loose b) !! id).
Qed.
End safe.

(** A repack is crash-safe when its pack has a new name. From a sound store with no id
    in two packs, wherever a repack stops (half-way through either temporary file, between the two
    renames, after any of the removals of old packs, even between a pack and its index, or
    after any of the removals of loose copies) the store opens again, is sound, and every
    object the repack was to keep (all of them, or those of the set) reads as it did; and the
    state a completed repack ends in is one of these. *)
Theorem repack_crash_safe `{Zstd, !ZstdLaws, ReadDir, !ReadDirLaws, ObjectCodec} (keep : option (gset ObjectId))
    (b : PackedDiskBackend) (pack : bytes) (entries : list PackEntry) (digest : vec byte 32) :
  packed_inv b → NoDup (packed_ids b) → repack_objs keep b ≠ [] → pack_caps (repack_objs keep b) →
  finish (repack_objs keep b) = Ok (pack, entries, digest) →
  pb_dir b !! (pack_stem digest +:+ ".idx") = None →
  let crash := repack_crash (pb_loose b) (pb_dir b) (pk_path <$> pb_packs b) (repack_objs keep b).*1
    (pack_stem digest) pack (index_encode (index_build entries digest)) in
  (∀ l d, crash l d → ∃ b', packed_open l d = Ok b' ∧ packed_inv b' ∧
    ∀ id, excluded keep id = false → pb_get b' id = pb_get b id) ∧
  ∃ b', repack_keeping keep b = (Ok (Some digest), b') ∧ crash (pb_loose b') (pb_dir b').
Proof.
  intros Hinv Hnd Hne Hcaps Hfin Hclean crash. split.
  - intros l d Hc. destruct (crash_safe keep b pack entries digest Hinv Hnd Hcaps Hfin Hclean l d Hc) as (b' & Ho & Hi & Hv).
    exists b'. split; [done|]. split; [done|]. intros id He. by rewrite !pb_get_view, Hv.
  - exists (repacked_state keep b pack entries digest). split.
    + apply repack_fresh_eq; try done. by apply clean_fresh.
    + apply crash_loose with (rest := []). by rewrite app_nil_r.
Qed.

Section demo.
Local Existing Instance toy_zstd.
Local Existing Instance toy_zstd_laws.
Local Existing Instance rolling_codec.
Local Existing Instance toy_read_dir.
Local Existing Instance toy_read_dir_laws.

(** Stopped with half of the index in the temporary file. *)
Lemma repack_crash_safe_witness :
  let s := pack_stem ex_new.2 in
  let d := <[s +:+ ".tmp" := take 700 (index_encode (index_build ex_new.1.2 ex_new.2))]>
    (<[s +:+ ".pack" := ex_new.1.1]> (delete (s +:+ ".tmp") (<[s +:+ ".tmp" := ex_new.1.1]> ∅))) in
  ∃ b', packed_open ex_disk d = Ok b' ∧ pb_get b' ex_id1 = Ok (Some ex_data1) ∧ pb_get b' ex_id2 = Ok (Some ex_data2).
Proof.
  intros s d. assert (NoDup (packed_ids ex_packed)) as Hnd by constructor.
  assert (pb_dir ex_packed !! (pack_stem ex_new.2 +:+ ".idx") = None) as Hclean by reflexivity.
  destruct (repack_crash_safe None ex_packed ex_new.1.1 ex_new.1.2 ex_new.2 ex_packed_inv Hnd ex_objs_nonempty
    ex_objs_caps ex_new_finish Hclean) as [Hsafe _].
  destruct (Hsafe ex_disk d (crash_idx_tmp _ _ _ _ _ _ _ 700)) as (b' & Ho & _ & Hg).
  exists b'. split; [exact Ho|]. split; rewrite Hg by reflexivity; vm_compute; reflexivity.
Defined.
End demo.
