(* ===== verification/Gc.v ===== *)
(** * Gc: reachability over a store

    The walks of [src/src/repo/mod.rs] and [src/src/sync/negotiate.rs] over the
    objects of a repository: the mark phase ([mark_reachable]) and the garbage
    collector ([gc], [unreachable_object_count]), the health scan
    ([scan_object_health]) and the closure a sync sends ([have_set],
    [missing_closure]).  They read any storage backend and any ref backend that keep
    their contracts.

    The theorems: a collection never removes an object that a ref or an extra root
    reaches, in memory it removes exactly the others, reports their number and is
    idempotent; the health scan reports exactly the refs whose target, or something
    below it, is missing; the closure a sync sends is exactly what the receiver
    lacks, when what the receiver has is closed.  A policy root's lattice and rules
    are edges for a sync and not for the mark phase: a collection deletes them. *)

From S2P Require Import Prelude Graph Lattice Access Ids Objects Refs RefStore Store.

(** ** Edges *)

(** The arms of [mark_reachable]: policy payloads are leaves. *)
Definition mark_edges (obj : Object) : list ObjectId :=
  match obj with
  | OSnapshot s => snap_root s :: snap_parents s
  | OTree t => entry_id <$> btree_values (tree_entries t)
  | OEnvOverlay o => overlay_secrets o
  | _ => []
  end.

Definition ref_target (r : Ref) : ObjectId :=
  match r with RTimeline t => head t | RTag t => tag_target t end.

(** The specification of both edge functions, as relations: what an object needs to be
    complete, and what it links to, which adds the edges of a policy root. *)
Inductive needs (O : objects) : relation ObjectId :=
| needs_root x s : O !! x = Some (Ok (OSnapshot s)) → needs O x (snap_root s)
| needs_parent x s y : O !! x = Some (Ok (OSnapshot s)) → y ∈ snap_parents s → needs O x y
| needs_entry x t name e : O !! x = Some (Ok (OTree t)) → tree_entries t !! name = Some e →
    needs O x (entry_id e)
| needs_secret x o var y : O !! x = Some (Ok (OEnvOverlay o)) →
    overlay_entries o !! var = Some (EnvSecret y) → needs O x y.
Inductive links (O : objects) : relation ObjectId :=
| links_needs x y : needs O x y → links O x y
| links_policy x r y : O !! x = Some (Ok (OPolicy (PRoot r))) →
    y = root_lattice r ∨ y = root_rules r ∨ root_parent r = Some y → links O x y.

Lemma elem_of_overlay_secrets o y :
  y ∈ overlay_secrets o ↔ ∃ var, overlay_entries o !! var = Some (EnvSecret y).
Proof.
  unfold overlay_secrets. rewrite list_elem_of_omap. setoid_rewrite elem_of_btree_values. split.
  - intros ([v|z] & [k Hk] & Hv); simplify_eq. eauto.
  - intros [k Hk]. exists (EnvSecret y). eauto.
Qed.

Lemma elem_of_tree_ids t y :
  y ∈ entry_id <$> btree_values (tree_entries t) ↔ ∃ name e, tree_entries t !! name = Some e ∧ y = entry_id e.
Proof. rewrite list_elem_of_fmap. setoid_rewrite elem_of_btree_values. naive_solver. Qed.

Lemma mark_edge_needs O x y : edge (edges_of mark_edges O) x y ↔ needs O x y.
Proof.
  rewrite edge_edges_of. split.
  - intros (obj & Hx & Hy). destruct obj; simpl in Hy; try by apply not_elem_of_nil in Hy.
    + apply elem_of_tree_ids in Hy as (name & e & ? & ->). by eapply needs_entry.
    + apply elem_of_cons in Hy as [->|?]; [by apply needs_root|by eapply needs_parent].
    + apply elem_of_overlay_secrets in Hy as [var ?]. by eapply needs_secret.
  - destruct 1; (eexists; split; [eassumption|]); simpl.
    + left.
    + by right.
    + apply elem_of_tree_ids. eauto.
    + apply elem_of_overlay_secrets. eauto.
Qed.

Lemma child_edge_links O x y : edge (edges_of child_edges O) x y ↔ links O x y.
Proof.
  rewrite edge_edges_of. split.
  - intros (obj & Hx & Hy).
    assert (y ∈ mark_edges obj ∨ ∃ r, obj = OPolicy (PRoot r)) as [Hm|[r ->]].
    { destruct obj as [| | | | |p| | | | | | |]; try (by left). destruct p; try (by left). right. eauto. }
    + apply links_needs, mark_edge_needs, edge_edges_of. eauto.
    + eapply links_policy; [exact Hx|]. simpl in Hy. destruct (root_parent r); set_solver.
  - destruct 1 as [x y (obj & Hx & Hy)%mark_edge_needs%edge_edges_of|x r y Hx Hy].
    + exists obj. split; [done|]. destruct obj as [| | | | |[]| | | | | | |]; try exact Hy. by apply not_elem_of_nil in Hy.
    + eexists. split; [exact Hx|]. simpl. destruct (root_parent r); set_solver.
Qed.

Definition policy_root (O : objects) (x : ObjectId) : Prop := ∃ r, O !! x = Some (Ok (OPolicy (PRoot r))).
#[global] Instance policy_root_dec O x : Decision (policy_root O x).
Proof.
  destruct (O !! x) as [[[| | | | |p| | | | | | |]|e]|] eqn:Hx; try (right; intros [? ?]; congruence).
  destruct p; try (right; intros [? ?]; congruence). left. by eexists.
Defined.
(** A link of an object that is not a policy root. *)
Definition open_link (O : objects) : relation ObjectId := λ x y, links O x y ∧ ¬ policy_root O x.

(** The mark phase follows every link but those of a policy root. *)
Lemma mark_edge_open O x y : edge (edges_of mark_edges O) x y ↔ open_link O x y.
Proof.
  rewrite mark_edge_needs. split.
  - intros Hn. split; [by apply links_needs|]. intros [r Hr]. destruct Hn; congruence.
  - intros [[? ? Hn|? r ? Hx _] Hp]; [done|]. destruct Hp. by exists r.
Qed.

Section walks.
Context {B : Type} `{StorageLaws B, !ObjectCodec}.

(** What a walk pushes after reading an object. *)
Definition stored_edges (f : Object → list ObjectId) (b : B) (x : ObjectId) : res (list ObjectId) :=
  o ← get b x; Ok (match o with Some obj => f obj | None => [] end).

(** Each stored object is expanded once and pushes at most [degree] ids. *)
Definition walk_fuel (f : Object → list ObjectId) (b : B) (start : nat) : nat :=
  S (start + degree f (decoded b) * size (dom (decoded b) : gset ObjectId)).

Definition out_of_fuel : Error := Panic "out of fuel".

(** [mark_reachable]: [stack.pop()] takes the last root first. *)
Definition mark_reachable (b : B) (roots : list ObjectId) : res (gset ObjectId) :=
  match closure (stored_edges mark_edges b) (walk_fuel mark_edges b (length roots)) ∅ (rev roots) with
  | Some r => r
  | None => Err out_of_fuel
  end.

(** *** [missing_closure] *)
Fixpoint missing_loop (fuel : nat) (b : B) (have seen : gset ObjectId) (out stack : list ObjectId)
    : option (res (list ObjectId)) :=
  match fuel with
  | O => None
  | S fuel =>
      match stack with
      | [] => Some (Ok out)
      | x :: stack =>
          if decide (x ∈ have) then missing_loop fuel b have seen out stack
          else if decide (x ∈ seen) then missing_loop fuel b have seen out stack
          else match get b x with
               | Err e => Some (Err e)
               | Ok (Some obj) =>
                   missing_loop fuel b have ({[x]} ∪ seen) (out ++ [x]) (rev (child_edges obj) ++ stack)
               | Ok None => missing_loop fuel b have ({[x]} ∪ seen) out stack
               end
      end
  end.

Definition missing_closure (src : B) (wants : list ObjectId) (have : gset ObjectId)
    : res (list ObjectId) :=
  match missing_loop (walk_fuel child_edges src (length wants)) src have ∅ [] (rev wants) with
  | Some r => r
  | None => Err out_of_fuel
  end.

Definition have_set (b : B) : res (gset ObjectId) :=
  ids ← list_ids b; Ok (list_to_set ids).

(** *** [scan_object_health]: the first absent object below one target. *)
Fixpoint health_loop (fuel : nat) (b : B) (seen : gset ObjectId) (stack : list ObjectId)
    : option (res (option ObjectId)) :=
  match fuel with
  | O => None
  | S fuel =>
      match stack with
      | [] => Some (Ok None)
      | x :: stack =>
          if decide (x ∈ seen) then health_loop fuel b seen stack
          else match get b x with
               | Err e => Some (Err e)
               | Ok (Some obj) => health_loop fuel b ({[x]} ∪ seen) (rev (child_edges obj) ++ stack)
               | Ok None => Some (Ok (Some x))
               end
      end
  end.
Definition first_missing (b : B) (target : ObjectId) : res (option ObjectId) :=
  match health_loop (walk_fuel child_edges b 1) b ∅ [target] with
  | Some r => r
  | None => Err out_of_fuel
  end.

(** ** Over the refs *)
Context {R : Type} `{RefBackendLaws R}.

(** The loop that collects the roots, shared by [gc] and [unreachable_object_count]. *)
Definition collect_roots (refs : R) (extra_roots : list ObjectId) : res (list ObjectId) :=
  names ← list_refs refs "";
  res_fold (λ roots name,
    r ← get_ref refs name;
    Ok (match r with Some r => roots ++ [ref_target r] | None => roots end)) extra_roots names.

Definition gc (refs : R) (extra_roots : list ObjectId) (grace_secs now : N) : M B N :=
  roots ← lift_res (collect_roots refs extra_roots);
  reachable ← gets (λ b, mark_reachable b roots);
  sweep reachable grace_secs now.

Definition unreachable_object_count (refs : R) (b : B) (extra_roots : list ObjectId) : res nat :=
  roots ← collect_roots refs extra_roots;
  reachable ← mark_reachable b roots;
  all ← list_ids b;
  Ok (length (filter (λ x, x ∉ reachable) all)).

(** One iteration over the refs: [(dangling, broken)]. *)
Definition health_step (refs : R) (b : B)
    (acc : list RefName * list (RefName * ObjectId)) (name : RefName)
    : res (list RefName * list (RefName * ObjectId)) :=
  r ← get_ref refs name;
  match r with
  | None => Ok acc
  | Some r =>
      m ← first_missing b (ref_target r);
      Ok (match m with
          | None => acc
          | Some x => if decide (x = ref_target r) then (acc.1 ++ [name], acc.2)
                      else (acc.1, acc.2 ++ [(name, x)])
          end)
  end.
Definition scan_object_health (refs : R) (b : B) : res (list RefName * list (RefName * ObjectId)) :=
  names ← list_refs refs "";
  res_fold (health_step refs b) ([], []) names.
End walks.

(** [copy_refs]: [from.list("")], then [to.set_raw]. *)
Definition copy_refs {R1 R2} `{RefBackend R1, RefBackend R2} (from : R1) : M R2 () :=
  names ← lift_res (list_refs from "");
  M_iter (λ name, r ← lift_res (get_ref from name);
    match r with Some r => set_raw name r | None => mret () end) names.

(** ** Reachability *)
Section reach.
Context {B : Type} `{StorageLaws B, !ObjectCodec}.
Context (f : Object → list ObjectId) (b : B) (Hinv : sb_inv b).

(** The edges of the objects the store denotes. *)
Definition obj_edge : relation ObjectId := edge (edges_of f (decoded b)).
(** Reached from one of the roots. *)
Definition reaches (roots : list ObjectId) (x : ObjectId) : Prop :=
  ∃ r, r ∈ roots ∧ rtc obj_edge r x.

Lemma get_Ok x o : get b x = Ok o → os_get (decoded b) x = Ok o.
Proof.
  intros Hg. rewrite <- (get_decoded b x (Ok o)); [done|done|done|].
  intros e He. unfold get in Hg. by rewrite He in Hg.
Qed.

Lemma stored_edges_decoded x ns : stored_edges f b x = Ok ns → edges_of f (decoded b) x = Ok ns.
Proof.
  unfold stored_edges. rewrite bind_Ok. intros (o & Hg%get_Ok & [= <-]).
  unfold edges_of. by rewrite Hg.
Qed.

Lemma stored_edges_obj_edge x ns : stored_edges f b x = Ok ns → ∀ y, y ∈ ns ↔ obj_edge x y.
Proof.
  intros Hns%stored_edges_decoded y. unfold obj_edge, edge. rewrite Hns. split; [by exists ns|].
  by intros (ns' & [= <-] & ?).
Qed.

Lemma stored_edges_Err x e : stored_edges f b x = Err e → get b x = Err e.
Proof. unfold stored_edges. destruct (get b x); simpl; congruence. Qed.

Lemma walk_total (next : ObjectId → res (list ObjectId)) roots :
  (∀ x ns, next x = Ok ns → ns = [] ∨ stored_edges f b x = Ok ns) →
  is_Some (closure next (walk_fuel f b (length roots)) ∅ (rev roots)).
Proof.
  intros Hnext. apply (closure_total next _ _ (dom (decoded b)) (degree f (decoded b))).
  - intros x ns Hns. destruct (Hnext x ns Hns) as [->|Hs]; [split; [simpl; lia|done]|].
    apply edges_of_bound. by apply stored_edges_decoded.
  - rewrite length_rev. unfold walk_fuel. lia.
Qed.

Lemma reaches_rev roots x : reaches (rev roots) x ↔ reaches roots x.
Proof. unfold reaches. setoid_rewrite list_elem_of_In. by setoid_rewrite <- in_rev. Qed.

(** From one root, by the child edges: along links. *)
Lemma reaches_rtc t x : reaches [t] x ↔ rtc obj_edge t x.
Proof.
  unfold reaches. split; [by intros (r & ->%list_elem_of_singleton & ?)|]. intros ?. exists t. split; [left|done].
Qed.

Lemma reaches_step roots x y : reaches roots x → obj_edge x y → reaches roots y.
Proof. intros (r & ? & ?) ?. exists r. split; [done|]. by eapply rtc_r. Qed.
End reach.

Lemma reaches_links {B : Type} `{StorageLaws B, !ObjectCodec} (b : B) t x :
  reaches child_edges b [t] x ↔ rtc (links (decoded b)) t x.
Proof. rewrite reaches_rtc. apply rtc_ext, child_edge_links. Qed.

Section marked.
Context {B : Type} `{StorageLaws B, !ObjectCodec}.

(** The mark phase terminates with the reachable ids, or with the error of reading
    one of them. *)
Lemma mark_reachable_spec (b : B) roots : sb_inv b →
  match mark_reachable b roots with
  | Ok s => (∀ x, x ∈ s ↔ reaches mark_edges b roots x) ∧ ∀ x, x ∈ s → ∃ o, get b x = Ok o
  | Err e => ∃ x, reaches mark_edges b roots x ∧ get b x = Err e
  end.
Proof.
  intros Hinv. unfold mark_reachable.
  destruct (walk_total mark_edges b Hinv (stored_edges mark_edges b) roots) as [r Hr]; [by right|].
  rewrite Hr. destruct r as [s|e].
  - apply (closure_reach _ (obj_edge mark_edges b)) in Hr as [Hs Hrd];
      [|by apply stored_edges_obj_edge].
    split; [intros x; rewrite Hs; apply reaches_rev|].
    intros x (ns & Hns)%Hrd. unfold stored_edges in Hns. destruct (get b x); [by eexists|done].
  - apply closure_sound with (roots := rev roots) in Hr; [|apply closure_inv_init].
    destruct Hr as (x & r & Hin & Hrt & He). exists x. split; [|by eapply stored_edges_Err].
    apply reaches_rev. exists r. split; [done|]. clear Hin He.
    induction Hrt as [|u v w (ns & Hns & Hv) _ IH]; [done|]. eapply rtc_l; [|done].
    by apply (stored_edges_obj_edge mark_edges b Hinv u ns Hns).
Qed.

(** *** The health walk is a closure whose reads also fail on absence. *)
Definition health_next (b : B) (x : ObjectId) : Result (Error + ObjectId) (list ObjectId) :=
  match get b x with
  | Err e => Err (inl e)
  | Ok None => Err (inr x)
  | Ok (Some obj) => Ok (child_edges obj)
  end.

Lemma health_loop_closure fuel b seen stack :
  health_loop fuel b seen stack =
    match closure (health_next b) fuel seen stack with
    | Some (Ok _) => Some (Ok None)
    | Some (Err (inl e)) => Some (Err e)
    | Some (Err (inr x)) => Some (Ok (Some x))
    | None => None
    end.
Proof.
  revert seen stack. induction fuel as [|fuel IH]; intros seen stack; [done|]. simpl.
  destruct stack as [|x stack]; [done|]. case_decide; [apply IH|].
  unfold health_next at 1. destruct (get b x) as [[obj|]|e]; [apply IH|done|done].
Qed.

Lemma health_next_stored b x ns : health_next b x = Ok ns → stored_edges child_edges b x = Ok ns.
Proof. unfold health_next, stored_edges. by destruct (get b x) as [[obj|]|e]; intros [= <-]. Qed.

Lemma health_edge b x y : sb_inv b → edge (health_next b) x y → obj_edge child_edges b x y.
Proof.
  intros Hinv (ns & Hns%health_next_stored & Hy).
  by apply (stored_edges_obj_edge child_edges b Hinv x ns Hns).
Qed.

Lemma first_missing_spec (b : B) t : sb_inv b →
  match first_missing b t with
  | Ok None => ∀ x, reaches child_edges b [t] x → ∃ obj, decoded b !! x = Some (Ok obj)
  | Ok (Some m) => reaches child_edges b [t] m ∧ decoded b !! m = None ∧
                   (m = t ↔ decoded b !! t = None)
  | Err e => ∃ x, reaches child_edges b [t] x ∧ get b x = Err e
  end.
Proof.
  intros Hinv. unfold first_missing. rewrite health_loop_closure.
  assert (is_Some (closure (health_next b) (walk_fuel child_edges b 1) ∅ [t])) as [r Hr].
  { apply (closure_total _ _ _ (dom (decoded b)) (degree child_edges (decoded b))).
    - intros x ns Hns. by apply edges_of_bound, stored_edges_decoded, health_next_stored.
    - unfold walk_fuel. simpl. lia. }
  rewrite Hr. destruct r as [s|e].
  - apply (closure_reach _ (obj_edge child_edges b)) in Hr as [Hs Hrd].
    + intros x Hx. apply Hs, Hrd in Hx as (ns & Hns). unfold health_next in Hns.
      destruct (get b x) as [[obj|]|e] eqn:Hg; try done. exists obj.
      by apply os_get_Some, get_Ok.
    + intros x ns Hns. by apply stored_edges_obj_edge, health_next_stored.
  - pose proof Hr as Hs. apply closure_sound with (roots := [t]) in Hs; [|apply closure_inv_init].
    destruct Hs as (x & r & ->%list_elem_of_singleton & Hrt & He).
    assert (reaches child_edges b [t] x) as Hx.
    { exists t. split; [left|]. eapply rtc_subrel; [|exact Hrt]. intros u v. by apply health_edge. }
    unfold health_next in He. destruct (get b x) as [[obj|]|e'] eqn:Hg; simplify_eq; [|by exists x].
    apply (get_Ok _ Hinv) in Hg. apply os_get_None in Hg.
    split; [done|]. split; [done|]. split; [by intros <-|]. intros Ht.
    simpl in Hr. unfold health_next at 1 in Hr. rewrite decide_False in Hr by set_solver.
    destruct (get b t) as [[obj|]|e] eqn:Hgt; simplify_eq; [|done].
    apply (get_Ok _ Hinv), os_get_Some in Hgt. congruence.
Qed.
End marked.

(** ** The closure a sync sends *)
Section missing.
Context {B : Type} `{StorageLaws B, !ObjectCodec}.
Context (b : B) (Hinv : sb_inv b) (have : gset ObjectId).

(** The walk that stops at what the receiver has. *)
Definition pruned_next (x : ObjectId) : res (list ObjectId) :=
  if decide (x ∈ have) then Ok [] else stored_edges child_edges b x.
Definition pruned_edge : relation ObjectId := λ x y, x ∉ have ∧ links (decoded b) x y.

Definition readable (x : ObjectId) : Prop := ∃ obj, get b x = Ok (Some obj).

(** The two walks run in lockstep. *)
Lemma missing_loop_closure fuel seen seen' out stack :
  (∀ x, x ∈ seen ↔ x ∈ seen' ∧ x ∉ have) → NoDup out → (∀ x, x ∈ out ↔ x ∈ seen ∧ readable x) →
  match closure pruned_next fuel seen' stack with
  | Some (Ok s) => ∃ out', missing_loop fuel b have seen out stack = Some (Ok out') ∧ NoDup out' ∧
                     ∀ x, x ∈ out' ↔ x ∈ s ∧ x ∉ have ∧ readable x
  | Some (Err e) => missing_loop fuel b have seen out stack = Some (Err e)
  | None => missing_loop fuel b have seen out stack = None
  end.
Proof.
  revert seen seen' out stack. induction fuel as [|fuel IH]; intros seen seen' out stack Hseen Hnd Hout; [done|].
  simpl. destruct stack as [|x stack].
  { exists out. split; [done|]. split; [done|]. intros x. rewrite Hout, Hseen. tauto. }
  destruct (decide (x ∈ have)) as [Hh|Hh].
  { assert (pruned_next x = Ok []) as -> by (unfold pruned_next; by rewrite decide_True).
    case_decide; [by apply IH|]. simpl. apply IH; [set_solver|done..]. }
  assert (pruned_next x = stored_edges child_edges b x) as -> by (unfold pruned_next; by rewrite decide_False).
  destruct (decide (x ∈ seen')) as [Hs|Hs].
  { rewrite decide_True by by apply Hseen. by apply IH. }
  rewrite decide_False by (rewrite Hseen; tauto).
  unfold stored_edges. destruct (get b x) as [[obj|]|e] eqn:Hg; simpl; [| |done].
  - apply IH; [set_solver| |].
    + apply NoDup_app. split; [done|]. split; [|apply NoDup_singleton].
      intros y Hy ->%list_elem_of_singleton. apply Hout in Hy as [Hy _]. by apply Hseen in Hy as [? _].
    + intros y. rewrite elem_of_app, Hout, list_elem_of_singleton, elem_of_union, elem_of_singleton.
      split; [intros [[? ?]| ->]; [tauto|split; [by left|by exists obj]]|intros [[->|?] ?]; tauto].
  - apply IH; [set_solver|done|]. intros y. rewrite Hout, elem_of_union, elem_of_singleton.
    split; [tauto|]. intros [[->|?] Hr]; [|done]. destruct Hr as [obj Hobj]. by rewrite Hg in Hobj.
Qed.

Lemma pruned_next_edge x ns : pruned_next x = Ok ns → ∀ y, y ∈ ns ↔ pruned_edge x y.
Proof.
  unfold pruned_next, pruned_edge. case_decide.
  - intros [= <-] y. rewrite elem_of_nil. naive_solver.
  - intros Hns y. rewrite (stored_edges_obj_edge child_edges b Hinv x ns Hns), <- child_edge_links. naive_solver.
Qed.

Lemma missing_closure_spec wants :
  match missing_closure b wants have with
  | Ok out => NoDup out ∧ ∀ x, x ∈ out ↔
                x ∉ have ∧ is_Some (decoded b !! x) ∧ ∃ w, w ∈ wants ∧ rtc pruned_edge w x
  | Err e => ∃ x, reaches child_edges b wants x ∧ get b x = Err e
  end.
Proof.
  unfold missing_closure.
  pose proof (missing_loop_closure (walk_fuel child_edges b (length wants)) ∅ ∅ [] (rev wants)) as Hl.
  destruct (walk_total child_edges b Hinv pruned_next wants) as [r Hr].
  { intros x ns. unfold pruned_next. case_decide; [intros [= <-]; by left|by right]. }
  rewrite Hr in Hl. destruct r as [s|e].
  - destruct Hl as (out & -> & Hnd & Hout); [set_solver|constructor|set_solver|].
    split; [done|]. apply (closure_reach _ pruned_edge) in Hr as [Hs Hrd]; [|by apply pruned_next_edge].
    intros x. rewrite Hout, Hs.
    assert ((∃ r, r ∈ rev wants ∧ rtc pruned_edge r x) ↔ (∃ w, w ∈ wants ∧ rtc pruned_edge w x)) as ->.
    { setoid_rewrite list_elem_of_In. by setoid_rewrite <- in_rev. }
    split.
    + intros (? & ? & obj & Hg). split; [done|]. split; [|done]. apply (get_Ok b Hinv), os_get_Some in Hg. by eexists.
    + intros (Hh & [v Hv] & Hw). split; [done|]. split; [done|].
      destruct (Hrd x) as (ns & Hns).
      { apply Hs. destruct Hw as (w & ? & ?). exists w. by rewrite list_elem_of_In, <- in_rev, <- list_elem_of_In. }
      unfold pruned_next, stored_edges in Hns. rewrite decide_False in Hns by done.
      destruct (get b x) as [[obj|]|] eqn:Hg; [by exists obj| |done].
      apply (get_Ok b Hinv), os_get_None in Hg. congruence.
  - rewrite Hl; [|set_solver|constructor|set_solver].
    apply closure_sound with (roots := rev wants) in Hr; [|apply closure_inv_init].
    destruct Hr as (x & r & Hin & Hrt & He). exists x. split.
    + apply reaches_rev. exists r. split; [done|]. eapply rtc_subrel; [|exact Hrt].
      intros u v (ns & Hns & Hv). by apply (pruned_next_edge u ns Hns) in Hv as [_ ?%child_edge_links].
    + unfold pruned_next in He. case_decide; [done|]. by eapply stored_edges_Err.
Qed.

(** When the receiver's ids are closed under edges, pruning loses nothing. *)
Lemma pruned_closed w x :
  (∀ u v, u ∈ have → links (decoded b) u v → v ∈ have) →
  rtc (links (decoded b)) w x → rtc pruned_edge w x ∨ x ∈ have.
Proof.
  intros Hc Hrt. revert x Hrt. refine (rtc_ind_r (λ x, rtc pruned_edge w x ∨ x ∈ have) w _ _); [by left|].
  intros u v _ Huv [Hu|Hu]; [|right; by eapply Hc]. destruct (decide (u ∈ have)); [right; by eapply Hc|].
  left. by eapply rtc_r.
Qed.

Lemma missing_closure_closed wants out : (∀ u v, u ∈ have → links (decoded b) u v → v ∈ have) →
  missing_closure b wants have = Ok out →
  ∀ x, x ∈ out ↔ x ∉ have ∧ is_Some (decoded b !! x) ∧ ∃ w, w ∈ wants ∧ rtc (links (decoded b)) w x.
Proof.
  intros Hc Hm. pose proof (missing_closure_spec wants) as Hs. rewrite Hm in Hs. destruct Hs as [_ Hout].
  intros x. rewrite Hout. split; intros (Hh & Hs & w & Hw & Hrt); (split; [done|]; split; [done|]; exists w; split; [done|]).
  - eapply rtc_subrel; [|exact Hrt]. by intros u v [_ ?].
  - by destruct (pruned_closed w x Hc Hrt).
Qed.
End missing.

(** ** The roots *)
Section roots.
Context {R : Type} `{RefBackendLaws R}.

Lemma get_listed (refs : R) names n : be_inv refs → list_refs refs "" = Ok names → n ∈ names →
  ∃ r, be_view refs !! n = Some r ∧ get_ref refs n = Ok (Some r).
Proof.
  intros Hinv Hl Hn. destruct (be_list_Ok _ _ _ Hinv Hl) as (_ & _ & Hin).
  apply Hin in Hn as [[r Hr] _]. exists r. split; [done|]. by apply (be_get_stored refs n r).
Qed.

Lemma listed (refs : R) names n : be_inv refs → list_refs refs "" = Ok names →
  n ∈ names ↔ is_Some (be_view refs !! n).
Proof.
  intros Hinv Hl. destruct (be_list_Ok _ _ _ Hinv Hl) as (_ & _ & Hin). rewrite Hin.
  destruct n as [s]. simpl. destruct s; tauto.
Qed.

Lemma collect_fold (refs : R) extra names :
  (∀ n, n ∈ names → ∃ r, be_view refs !! n = Some r ∧ get_ref refs n = Ok (Some r)) →
  ∃ roots, res_fold (λ roots name, r ← get_ref refs name;
      Ok (match r with Some r => roots ++ [ref_target r] | None => roots end)) extra names = Ok roots ∧
    ∀ x, x ∈ roots ↔ x ∈ extra ∨ ∃ n r, n ∈ names ∧ be_view refs !! n = Some r ∧ x = ref_target r.
Proof.
  revert extra. induction names as [|n names IH]; intros extra Hall; simpl.
  { exists extra. split; [done|]. set_solver. }
  destruct (Hall n) as (r & Hv & Hg); [left|]. rewrite Hg. simpl.
  destruct (IH (extra ++ [ref_target r])) as (roots & -> & Hr); [intros m ?; apply Hall; by right|].
  exists roots. split; [done|]. intros x. rewrite Hr, elem_of_app, list_elem_of_singleton.
  setoid_rewrite elem_of_cons. split; [naive_solver|].
  intros [?|(m & r' & [->|?] & Hm & ->)]; [naive_solver| |naive_solver].
  left. right. congruence.
Qed.

(** Once the refs can be listed, collecting the roots cannot fail. *)
Lemma collect_roots_spec (refs : R) extra names : be_inv refs → list_refs refs "" = Ok names →
  ∃ roots, collect_roots refs extra = Ok roots ∧
    ∀ x, x ∈ roots ↔ x ∈ extra ∨ ∃ n r, be_view refs !! n = Some r ∧ x = ref_target r.
Proof.
  intros Hinv Hl. unfold collect_roots. rewrite Hl. simpl.
  destruct (collect_fold refs extra names) as (roots & -> & Hr); [intros n Hn; by eapply get_listed|].
  exists roots. split; [done|]. intros x. rewrite Hr. setoid_rewrite (listed refs names); [|done..].
  naive_solver.
Qed.
End roots.

(** ** Live objects *)
Section live.
Context {B : Type} `{StorageLaws B, !ObjectCodec}.
Context {R : Type} `{RefBackendLaws R}.
Context (refs : R) (extra : list ObjectId).

(** The ids a collection starts from. *)
Definition gc_root (root : ObjectId) : Prop := root ∈ extra ∨ ∃ n r, be_view refs !! n = Some r ∧ root = ref_target r.

(** What they reach as a sync or the health scan follows an object ([child_edges]), and what
    they reach in that way without passing through a policy root. *)
Definition anchored (b : B) (x : ObjectId) : Prop := ∃ root, gc_root root ∧ rtc (links (decoded b)) root x.
Definition live (b : B) (x : ObjectId) : Prop := ∃ root, gc_root root ∧ rtc (open_link (decoded b)) root x.

Lemma live_roots roots :
  (∀ x, x ∈ roots ↔ x ∈ extra ∨ ∃ n r, be_view refs !! n = Some r ∧ x = ref_target r) →
  ∀ b x, reaches mark_edges b roots x ↔ live b x.
Proof.
  intros Hr b x. unfold live, reaches. setoid_rewrite Hr.
  by setoid_rewrite (rtc_ext (obj_edge mark_edges b) (open_link (decoded b)) _ _ (mark_edge_open (decoded b))).
Qed.

(** What is anchored and not live lies behind a live policy root. *)
Lemma anchored_live b x : anchored b x →
  live b x ∨ ∃ p, live b p ∧ policy_root (decoded b) p ∧ tc (links (decoded b)) p x.
Proof.
  intros (root & Hr & Hx). assert (live b root) as Hl by (exists root; split; [done|apply rtc_refl]). clear Hr.
  induction Hx as [|u v w Huv Hvw IH]; [by left|].
  destruct (decide (policy_root (decoded b) u)) as [Hp|Hp].
  - right. exists u. split; [done|]. split; [done|]. eapply tc_rtc_r; [by apply tc_once|done].
  - apply IH. destruct Hl as (root & Hr & Hu). exists root. split; [done|]. by eapply rtc_r.
Qed.

(** The live objects depend on nothing but the live objects. *)
Lemma open_agree (O O' : objects) x y : O' !! x = O !! x → open_link O x y ↔ open_link O' x y.
Proof. intros Hx. rewrite <- !mark_edge_open, !edge_edges_of. by rewrite Hx. Qed.

Lemma live_agree (b b' : B) :
  (∀ x, live b x → decoded b' !! x = decoded b !! x) → ∀ x, live b' x ↔ live b x.
Proof.
  intros Hag x. split; intros (r & Hr & Hrt); exists r; (split; [exact Hr|]).
  - assert (live b r) as Hl by (exists r; split; [exact Hr|apply rtc_refl]). clear Hr.
    induction Hrt as [|u v w Huv _ IH]; [done|].
    apply (open_agree _ (decoded b') u v (Hag u Hl)) in Huv. eapply rtc_l; [exact Huv|]. apply IH.
    destruct Hl as (q & Hq & Hu). exists q. split; [exact Hq|]. by eapply rtc_r.
  - assert (live b r) as Hl by (exists r; split; [exact Hr|apply rtc_refl]). clear Hr.
    induction Hrt as [|u v w Huv _ IH]; [done|].
    pose proof Huv as Huv'. apply (open_agree _ (decoded b') u v (Hag u Hl)) in Huv'.
    eapply rtc_l; [exact Huv'|]. apply IH.
    destruct Hl as (q & Hq & Hu). exists q. split; [exact Hq|]. by eapply rtc_r.
Qed.

(** The mark phase of a collection, once the refs can be listed. *)
Lemma gc_run grace now (b : B) names : be_inv refs → sb_inv b → list_refs refs "" = Ok names →
  match gc refs extra grace now b with
  | (Ok n, b') => ∃ keep roots, collect_roots refs extra = Ok roots ∧ mark_reachable b roots = Ok keep ∧
      (∀ x, x ∈ keep ↔ live b x) ∧ (∀ x, x ∈ keep → ∃ o, get b x = Ok o) ∧ sweep keep grace now b = (Ok n, b')
  | (Err e, b') => (b' = b ∧ ∃ x, live b x ∧ get b x = Err e) ∨
      ∃ keep, (∀ x, x ∈ keep ↔ live b x) ∧ sweep keep grace now b = (Err e, b')
  end.
Proof.
  intros Hri Hi Hl. unfold gc, lift_res, gets, mbind, M_bind.
  destruct (collect_roots_spec refs extra names Hri Hl) as (roots & Hc & Hr). rewrite Hc.
  pose proof (mark_reachable_spec b roots Hi) as Hm.
  destruct (mark_reachable b roots) as [keep|e] eqn:Hk.
  - destruct Hm as [Hm Hrd]. assert (∀ x, x ∈ keep ↔ live b x) as Hkl.
    { intros x. rewrite Hm. by apply live_roots. }
    destruct (sweep keep grace now b) as [[n|e] b'] eqn:Hs; [exists keep, roots; by eauto 10|].
    right. by exists keep.
  - left. split; [done|]. destruct Hm as (x & Hx & He). exists x. split; [|done]. by apply (live_roots roots).
Qed.
End live.

(** ** The health scan, one ref at a time *)
Section health.
Context {B : Type} `{StorageLaws B, !ObjectCodec}.
Context {R : Type} `{RefBackendLaws R}.
Context (refs : R) (b : B).
Abbreviation report := (list RefName * list (RefName * ObjectId))%type.

(** An iteration reports nothing about another ref... *)
Lemma health_step_ne (acc acc' : report) k n : n ≠ k → health_step refs b acc k = Ok acc' →
  (n ∈ acc'.1 ↔ n ∈ acc.1) ∧ ∀ m, (n, m) ∈ acc'.2 ↔ (n, m) ∈ acc.2.
Proof.
  intros Hne. unfold health_step. rewrite bind_Ok. intros ([rk|] & _ & Hst); [|by injection Hst as <-].
  apply bind_Ok in Hst as ([m|] & _ & [= <-]); [|done].
  case_decide; simpl; setoid_rewrite elem_of_app; setoid_rewrite list_elem_of_singleton; naive_solver.
Qed.

Lemma health_fold_ne n l (acc out : report) : n ∉ l → res_fold (health_step refs b) acc l = Ok out →
  (n ∈ out.1 ↔ n ∈ acc.1) ∧ ∀ m, (n, m) ∈ out.2 ↔ (n, m) ∈ acc.2.
Proof.
  revert acc. induction l as [|k l IH]; intros acc Hk Hf; [by injection Hf as ->|].
  apply not_elem_of_cons in Hk as [Hne Hk]. simpl in Hf. apply bind_Ok in Hf as (acc' & Hst & Hf).
  destruct (IH acc' Hk Hf) as [-> Hb]. destruct (health_step_ne _ _ _ _ Hne Hst) as [-> Hb'].
  split; [done|]. intros m. by rewrite Hb.
Qed.

(** ... and about its own ref what the walk below its target found. *)
Lemma health_step_eq (acc acc' : report) n r : get_ref refs n = Ok (Some r) →
  health_step refs b acc n = Ok acc' → n ∉ acc.1 → (∀ m, (n, m) ∉ acc.2) →
  ∃ v, first_missing b (ref_target r) = Ok v ∧ (n ∈ acc'.1 ↔ v = Some (ref_target r)) ∧
    ∀ m, (n, m) ∈ acc'.2 ↔ v = Some m ∧ m ≠ ref_target r.
Proof.
  intros Hg Hst Hn1 Hn2. unfold health_step in Hst. rewrite Hg in Hst.
  apply bind_Ok in Hst as (rk & [= <-] & Hst). apply bind_Ok in Hst as (v & Hv & [= <-]).
  exists v. split; [done|]. destruct v as [m|]; [|naive_solver].
  case_decide as Hm; simpl; setoid_rewrite elem_of_app; setoid_rewrite list_elem_of_singleton; naive_solver.
Qed.

Lemma health_fold_at n r l (acc : report) dangling broken :
  get_ref refs n = Ok (Some r) → NoDup l → n ∈ l → n ∉ acc.1 → (∀ m, (n, m) ∉ acc.2) →
  res_fold (health_step refs b) acc l = Ok (dangling, broken) →
  ∃ v, first_missing b (ref_target r) = Ok v ∧ (n ∈ dangling ↔ v = Some (ref_target r)) ∧
    ∀ m, (n, m) ∈ broken ↔ v = Some m ∧ m ≠ ref_target r.
Proof.
  intros Hg Hnd. revert acc. induction Hnd as [|k l Hk Hnd IH]; intros acc Hin Hn1 Hn2 Hf;
    [by apply not_elem_of_nil in Hin|].
  simpl in Hf. apply bind_Ok in Hf as (acc' & Hst & Hf). destruct (decide (n = k)) as [<-|Hne].
  - destruct (health_step_eq acc acc' n r Hg Hst Hn1 Hn2) as (v & Hv & Hd & Hb).
    destruct (health_fold_ne n l acc' _ Hk Hf) as [Hd' Hb']. simpl in *. exists v. split; [done|].
    rewrite Hd'. by setoid_rewrite Hb'.
  - destruct (health_step_ne acc acc' k n Hne Hst) as [Hd Hb].
    apply (IH acc'); [by apply elem_of_cons in Hin as [|]|by rewrite Hd| |done].
    intros m. by rewrite Hb.
Qed.
End health.

(** In memory, a sweep that keeps every stored id removes nothing. *)
Lemma mem_sweep_all keep grace now (b : MemoryBackend) :
  (∀ x, is_Some (b !! x) → x ∈ keep) → sb_sweep keep grace now b = (Ok 0%N, b).
Proof.
  intros Hall. rewrite mem_sweep, filter_none.
  - f_equal. apply map_filter_id. intros x d Hx. apply Hall. by exists d.
  - intros x ([y d] & -> & Hin%elem_of_map_to_list)%list_elem_of_fmap Hn. apply Hn, Hall. by exists d.
Qed.

(** ** Properties *)
Section theorems.
Context {B : Type} `{StorageLaws B, !ObjectCodec}.
Context {R : Type} `{RefBackendLaws R}.

(** [C8] A garbage collection never removes a live object: on every storage and ref
    backend that keep their contracts, when [gc] succeeds every object which an extra
    root or the target of a stored ref reaches, along the links a sync and the health scan
    follow ([child_edges]), is still there, byte for byte, unless it lies behind a policy root; a
    policy root itself, and what is reached without passing through one, stays and is reached
    afterwards as before; and nothing was added. (The mark phase does not
    follow a policy root to its lattice, rules and parent, and a collection deletes those of a
    pinned root that nothing else reaches: [gc_drops_pinned_policy].) *)
Theorem gc_keeps_live (refs : R) (extra : list ObjectId) (grace now n : N) (b b' : B) :
  be_inv refs → sb_inv b → gc refs extra grace now b = (Ok n, b') →
  sb_inv b' ∧ sb_view b' ⊆ sb_view b ∧
  (∀ x, anchored refs extra b x → sb_view b' !! x = sb_view b !! x ∨
     ∃ p, live refs extra b p ∧ policy_root (decoded b) p ∧ tc (links (decoded b)) p x) ∧
  (∀ x, live refs extra b x → sb_view b' !! x = sb_view b !! x) ∧
  (∀ x, live refs extra b' x ↔ live refs extra b x).
Proof.
  intros Hri Hi Hg. destruct (list_refs refs "") as [names|e] eqn:Hl.
  - pose proof (gc_run refs extra grace now b names Hri Hi Hl) as Hr. rewrite Hg in Hr.
    destruct Hr as (keep & roots & _ & _ & Hk & _ & Hs).
    destruct (sb_sweep_Ok _ _ _ _ _ _ Hi Hs) as (Hi' & Hsub & Hkeep).
    assert (∀ x, live refs extra b x → sb_view b' !! x = sb_view b !! x) as Hl'.
    { intros x Hx. by apply Hkeep, Hk. }
    split; [done|]. split; [done|]. split.
    { intros x [Hx|Hx]%anchored_live; [left; by apply Hl'|by right]. }
    split; [done|]. apply live_agree. intros x Hx. unfold decoded. by rewrite !lookup_fmap, Hl'.
  - unfold gc, collect_roots in Hg. rewrite Hl in Hg. discriminate.
Qed.

(** The health scan is exact: for every stored ref, it is reported dangling just when
    its target is not stored, and broken just when the target is stored but some
    object it reaches is not; the object named as missing is reached and absent. *)
Theorem scan_object_health_correct (refs : R) (b : B) dangling broken :
  be_inv refs → sb_inv b → scan_object_health refs b = Ok (dangling, broken) →
  ∀ n r, be_view refs !! n = Some r →
  (n ∈ dangling ↔ decoded b !! ref_target r = None) ∧
  ((∃ m, (n, m) ∈ broken) ↔
    decoded b !! ref_target r ≠ None ∧ ∃ m, rtc (links (decoded b)) (ref_target r) m ∧ decoded b !! m = None) ∧
  (∀ m, (n, m) ∈ broken → rtc (links (decoded b)) (ref_target r) m ∧ decoded b !! m = None).
Proof.
  intros Hri Hi Hs n r Hn. unfold scan_object_health in Hs. apply bind_Ok in Hs as (names & Hl & Hs).
  assert (n ∈ names) as Hin by (apply (listed refs names n Hri Hl); by exists r).
  assert (get_ref refs n = Ok (Some r)) as Hg by by apply (be_get_stored refs n r).
  destruct (be_list_Ok _ _ _ Hri Hl) as (Hnd & _).
  destruct (health_fold_at refs b n r names ([], []) dangling broken Hg Hnd Hin) as (v & Hv & Hd & Hb);
    [set_solver|set_solver|done|].
  pose proof (first_missing_spec b (ref_target r) Hi) as Hm. rewrite Hv in Hm. rewrite Hd. setoid_rewrite Hb.
  setoid_rewrite <- (reaches_links b).
  destruct v as [m|].
  - destruct Hm as (Hr & Hmiss & Hiff). split; [naive_solver|]. split; [|naive_solver].
    split; [|naive_solver]. intros (m' & [= <-] & Hne). split; [naive_solver|]. by exists m.
  - split.
    + split; [done|]. intros Ht. destruct (Hm (ref_target r)) as [obj Hobj]; [|congruence].
      exists (ref_target r). split; [left|done].
    + split; [|naive_solver]. split; [naive_solver|]. intros [_ (m & Hr & Hmiss)].
      destruct (Hm m Hr). congruence.
Qed.

(** What a sync sends: the closure walk terminates with each object once, exactly those
    stored objects that the receiver lacks and that the wanted targets reach without
    passing through an object the receiver has; when what the receiver has is closed
    under edges, pruning loses nothing and these are exactly the reachable objects it
    lacks. The walk fails only when some reachable object cannot be read. *)
Theorem missing_closure_exact (src : B) (wants : list ObjectId) (have : gset ObjectId) :
  sb_inv src →
  match missing_closure src wants have with
  | Ok out =>
      NoDup out ∧
      (∀ x, x ∈ out ↔ x ∉ have ∧ is_Some (decoded src !! x) ∧
         ∃ w, w ∈ wants ∧ rtc (pruned_edge src have) w x) ∧
      ((∀ x y, x ∈ have → links (decoded src) x y → y ∈ have) →
        ∀ x, x ∈ out ↔ x ∉ have ∧ is_Some (decoded src !! x) ∧ ∃ w, w ∈ wants ∧ rtc (links (decoded src)) w x)
  | Err e => ∃ x w, w ∈ wants ∧ rtc (links (decoded src)) w x ∧ get src x = Err e
  end.
Proof.
  intros Hi. pose proof (missing_closure_spec src Hi have wants) as Hm.
  destruct (missing_closure src wants have) as [out|e] eqn:Ho.
  2: { destruct Hm as (x & (w & Hw & Hr) & He). exists x, w. split; [done|]. split; [|done].
       by apply (rtc_ext _ _ w x (child_edge_links (decoded src))). }
  destruct Hm as [Hnd Hout].
  split; [done|]. split; [done|]. intros Hc. by apply missing_closure_closed.
Qed.
End theorems.

(** The collector of an in-memory repository is exact: it removes just the objects
    that are not live, returns their number, which is what the dry count announced,
    and a second run removes nothing; it fails only when a live object does not
    decode, and then changes nothing. *)
Theorem gc_memory_exact `{!ObjectCodec} (refs : MemoryRefBackend) (extra : list ObjectId) (grace now : N)
    (b : MemoryBackend) : mem_ok refs →
  match gc refs extra grace now b with
  | (Ok n, b') =>
      (∀ x d, b' !! x = Some d ↔ b !! x = Some d ∧ live refs extra b x) ∧
      unreachable_object_count refs b extra = Ok (N.to_nat n) ∧
      gc refs extra grace now b' = (Ok 0%N, b')
  | (Err e, b') => b' = b ∧ ∃ x, live refs extra b x ∧ decoded b !! x = Some (Err e)
  end.
Proof.
  intros Hok. pose proof (mem_list_total refs "" Hok) as Hl.
  pose proof (gc_run refs extra grace now b _ Hok I Hl) as Hr.
  destruct (gc refs extra grace now b) as [[n|e] b'].
  - destruct Hr as (keep & roots & Hc & Hm & Hk & Hrd & Hs). unfold sweep in Hs. rewrite mem_sweep in Hs.
    injection Hs as <- Hb'.
    assert (∀ x d, b' !! x = Some d ↔ b !! x = Some d ∧ live refs extra b x) as Hx.
    { intros x d. rewrite <- Hb', map_lookup_filter_Some. simpl. by rewrite Hk. }
    split; [done|]. split.
    { unfold unreachable_object_count. rewrite Hc. simpl. rewrite Hm. simpl. by rewrite Nat2N.id. }
    assert (∀ x, live refs extra b x → b' !! x = b !! x) as Hag.
    { intros x Hlv. apply option_eq. intros d. rewrite Hx. tauto. }
    assert (∀ x, live refs extra b' x ↔ live refs extra b x) as Hlive.
    { apply live_agree. intros x Hlv. unfold decoded. simpl. by rewrite !lookup_fmap, (Hag x Hlv). }
    pose proof (gc_run refs extra grace now b' _ Hok I Hl) as Hr.
    assert (∀ keep', (∀ x, x ∈ keep' ↔ live refs extra b' x) →
      sb_sweep keep' grace now b' = (Ok 0%N, b')) as Hsw.
    { intros keep' Hk'. apply mem_sweep_all. intros x [d [_ Hlv]%Hx]. by apply Hk', Hlive. }
    destruct (gc refs extra grace now b') as [[n2|e2] b2].
    + destruct Hr as (keep' & _ & _ & _ & Hk' & _ & Hs). unfold sweep in Hs. rewrite (Hsw keep' Hk') in Hs. congruence.
    + exfalso. destruct Hr as [[_ (x & Hlv%Hlive & He)]|(keep' & Hk' & Hs)].
      * destruct (Hrd x) as [o Ho]; [by apply Hk|]. unfold get, sb_get in *. simpl in *. unfold mb_get in *.
        rewrite (Hag x Hlv) in He. congruence.
      * unfold sweep in Hs. rewrite (Hsw keep' Hk') in Hs. congruence.
  - destruct Hr as [[-> (x & Hlv & He)]|(keep & _ & Hs)].
    + split; [done|]. exists x. split; [done|]. unfold decoded. simpl. rewrite lookup_fmap.
      unfold get in He. simpl in He. destruct (b !! x) as [data|]; [|done]. simpl in *.
      destruct (deserialize data); simpl in *; [done|congruence].
    + unfold sweep in Hs. rewrite mem_sweep in Hs. congruence.
Qed.

(** ** A pinned policy root on concrete data *)
Section demo.
Definition ex_policy_root : PolicyRoot := MkPolicyRoot (ex_id x01) (ex_id x02) None [].
Definition ex_policy_table : list (Object * bytes) :=
  [(OPolicy (PLattice two_point), [x01]); (OPolicy (PRuleSet LabelRuleSet_default), [x02]);
   (OPolicy (PRoot ex_policy_root), [x03])].
Local Instance ex_policy_codec : ObjectCodec := table_codec ex_policy_table.

Definition ex_policy_store : MemoryBackend := {[ ex_id x01 := [x01]; ex_id x02 := [x02]; ex_id x03 := [x03] ]}.
Definition ex_policy_refs : MemoryRefBackend :=
  {[ "refs/policy/root" := RTag (MkTag (ex_id x03) 0 None) ]}.
Definition ex_policy_pin : RefName := MkRefName "refs/policy/root".

Lemma ex_policy_refs_ok : mem_ok ex_policy_refs.
Proof. intros k r Hk. unfold ex_policy_refs in Hk. apply lookup_singleton_Some in Hk as [<- _]. reflexivity. Qed.

(** The mark phase takes every policy payload for a leaf, while a sync and the health
    scan follow a policy root to its lattice and rules: in a healthy repository whose
    only ref pins a policy root, a collection deletes the root's lattice and its
    rules. A sync of the pin would have sent all three objects, and the health scan
    then reports the pin broken. *)
Theorem gc_drops_pinned_policy :
  scan_object_health ex_policy_refs ex_policy_store = Ok ([], []) ∧
  missing_closure ex_policy_store [ex_id x03] ∅ = Ok [ex_id x03; ex_id x02; ex_id x01] ∧
  gc ex_policy_refs [] 0 0 ex_policy_store = (Ok 2%N, {[ ex_id x03 := [x03] ]}) ∧
  scan_object_health ex_policy_refs ({[ ex_id x03 := [x03] ]} : MemoryBackend) =
    Ok ([], [(ex_policy_pin, ex_id x02)]).
Proof. split_and!; apply (bool_decide_unpack _); vm_compute; exact I. Qed.

Lemma gc_keeps_live_witness :
  ∃ n b', gc ex_policy_refs [] 0 0 ex_policy_store = (Ok n, b') ∧ sb_view b' !! ex_id x03 = Some [x03].
Proof.
  assert (gc ex_policy_refs [] 0 0 ex_policy_store = (Ok 2%N, {[ ex_id x03 := [x03] ]})) as Hg
    by (apply (bool_decide_unpack _); vm_compute; exact I).
  assert (sb_inv ex_policy_store) as Hi by exact I.
  assert (be_inv ex_policy_refs) as Hri by exact ex_policy_refs_ok.
  exists 2%N, {[ ex_id x03 := [x03] ]}. split; [exact Hg|].
  destruct (gc_keeps_live ex_policy_refs [] 0 0 2 ex_policy_store _ Hri Hi Hg)
    as (_ & _ & _ & Hk & _).
  rewrite (Hk (ex_id x03)); [apply (bool_decide_unpack _); vm_compute; exact I|].
  exists (ex_id x03). split; [right|apply rtc_refl].
  exists ex_policy_pin, (RTag (MkTag (ex_id x03) 0 None)). split; [apply (bool_decide_unpack _); vm_compute; exact I|reflexivity].
Defined.

Lemma gc_memory_exact_witness :
  mem_ok ex_policy_refs ∧
  gc ex_policy_refs [] 0 0 (∅ : MemoryBackend) = (Ok 0%N, ∅) ∧
  unreachable_object_count ex_policy_refs (∅ : MemoryBackend) [] = Ok 0.
Proof.
  split; [exact ex_policy_refs_ok|].
  assert (gc ex_policy_refs [] 0 0 (∅ : MemoryBackend) = (Ok 0%N, ∅)) as Hg by (apply (bool_decide_unpack _); vm_compute; exact I).
  split; [exact Hg|].
  pose proof (gc_memory_exact ex_policy_refs [] 0 0 ∅ ex_policy_refs_ok) as Ht. rewrite Hg in Ht.
  exact (proj1 (proj2 Ht)).
Defined.

Lemma scan_object_health_correct_witness :
  ∃ m, rtc (links (decoded ({[ ex_id x03 := [x03] ]} : MemoryBackend))) (ex_id x03) m ∧
    decoded ({[ ex_id x03 := [x03] ]} : MemoryBackend) !! m = None.
Proof.
  assert (sb_inv ({[ ex_id x03 := [x03] ]} : MemoryBackend)) as Hi by exact I.
  assert (scan_object_health ex_policy_refs ({[ ex_id x03 := [x03] ]} : MemoryBackend) =
    Ok ([], [(ex_policy_pin, ex_id x02)])) as Hs by (apply (bool_decide_unpack _); vm_compute; exact I).
  assert (be_view ex_policy_refs !! ex_policy_pin = Some (RTag (MkTag (ex_id x03) 0 None))) as Hn
    by (apply (bool_decide_unpack _); vm_compute; exact I).
  assert (be_inv ex_policy_refs) as Hri by exact ex_policy_refs_ok.
  destruct (scan_object_health_correct ex_policy_refs ({[ ex_id x03 := [x03] ]} : MemoryBackend) _ _
    Hri Hi Hs ex_policy_pin _ Hn) as (_ & _ & Hm).
  exists (ex_id x02). apply Hm. left.
Defined.

Lemma missing_closure_exact_witness :
  missing_closure ex_policy_store [ex_id x03] ∅ = Ok [ex_id x03; ex_id x02; ex_id x01] ∧
  ∃ w, w ∈ [ex_id x03] ∧ rtc (links (decoded ex_policy_store)) w (ex_id x01).
Proof.
  assert (sb_inv ex_policy_store) as Hi by exact I.
  assert (missing_closure ex_policy_store [ex_id x03] ∅ = Ok [ex_id x03; ex_id x02; ex_id x01]) as Hm
    by (apply (bool_decide_unpack _); vm_compute; exact I).
  split; [exact Hm|].
  pose proof (missing_closure_exact ex_policy_store [ex_id x03] ∅ Hi) as Ht. rewrite Hm in Ht.
  destruct Ht as (_ & _ & Ht). apply (Ht); [|right; right; left]. intros x y Hx _. exact (False_ind _ (not_elem_of_empty x Hx)).
Defined.
End demo.
