(* ===== verification/Acl.v ===== *)
(** * Acl: stored access rules

    The [AclBackend] interface (src/src/acl/backend.rs) with its provided methods, the
    in-memory backend (acl/memory.rs), the on-disk backend (acl/disk.rs) and the
    [AclStore] facade (acl/mod.rs).  Both built-in backends keep path, timeline and
    secret ACLs and derive the two-point lattice and its rules from them; only the
    in-memory one keeps clearance grants.

    The theorems: on a backend that keeps the contract a resource is labelled
    [protected] just when a listed ACL matches it; ACL file names are injective and
    stay in their directory, so the disk backend is a map from patterns, except that
    an ACL whose pattern starts with a dot is stored but not listed, hence not
    enforced.

    The serde codec of an ACL is a parameter. *)

From S2P Require Import Prelude Glob Graph Lattice Access Ids Objects Refs RefStore.
From Stdlib Require Import Ascii.

Record PathAcl : Type := MkPathAcl { pa_glob : string }.
Record TimelineAcl : Type := MkTimelineAcl { ta_pattern : string }.
Record SecretAcl : Type := MkSecretAcl { sa_name : string }.
#[global] Instance PathAcl_eq_dec : EqDecision PathAcl. Proof. solve_decision. Defined.
#[global] Instance TimelineAcl_eq_dec : EqDecision TimelineAcl. Proof. solve_decision. Defined.
#[global] Instance SecretAcl_eq_dec : EqDecision SecretAcl. Proof. solve_decision. Defined.

(** [trait AclBackend] *)
Class AclBackend (A : Type) := {
  get_path_acl : A → string → res (option PathAcl);
  set_path_acl : PathAcl → M A ();
  delete_path_acl : string → M A ();
  list_path_acls : A → res (list PathAcl);
  get_timeline_acl : A → string → res (option TimelineAcl);
  set_timeline_acl : TimelineAcl → M A ();
  delete_timeline_acl : string → M A ();
  list_timeline_acls : A → res (list TimelineAcl);
  list_secret_acls : A → res (list SecretAcl);
  set_secret_acl : SecretAcl → M A ();
  delete_secret_acl : string → M A ();
  get_lattice : A → res LabelLattice;
  set_lattice : LabelLattice → M A ();
  get_label_ruleset : A → res LabelRuleSet;
  set_label_ruleset : LabelRuleSet → M A ();
  get_grant : A → string → res (option ClearanceGrant);
  set_grant : ClearanceGrant → M A ()
}.

(** The provided methods that neither built-in backend overrides... *)
Definition default_lattice {A} (_ : A) : res LabelLattice := Ok two_point.
Definition default_set_lattice {A} (_ : LabelLattice) : M A () := mret ().
Definition default_set_ruleset {A} (_ : LabelRuleSet) : M A () := mret ().
Definition default_ruleset {A} (paths : A → res (list PathAcl)) (timelines : A → res (list TimelineAcl))
    (secrets : A → res (list SecretAcl)) (a : A) : res LabelRuleSet :=
  ps ← paths a; ts ← timelines a; ss ← secrets a;
  Ok (MkRuleSet (((λ p, RulePath (pa_glob p) PROTECTED) <$> ps) ++
                 ((λ t, RuleTimeline (ta_pattern t) PROTECTED) <$> ts) ++
                 ((λ s, RuleSecret (sa_name s) PROTECTED) <$> ss))).
(** ... and those only the in-memory one does. *)
Definition default_get_grant {A} (_ : A) (_ : string) : res (option ClearanceGrant) := Ok None.
Definition default_set_grant {A} (_ : ClearanceGrant) : M A () := mret ().

(** The contract of a backend that derives its labels from ACLs. *)
Class AclLaws (A : Type) `{AclBackend A} := {
  lattice_two_point a L : get_lattice a = Ok L → L = two_point;
  ruleset_derived a rs : get_label_ruleset a = Ok rs →
    ∃ ps ts ss, list_path_acls a = Ok ps ∧ list_timeline_acls a = Ok ts ∧ list_secret_acls a = Ok ss ∧
      rules rs = ((λ p, RulePath (pa_glob p) PROTECTED) <$> ps) ++
                 ((λ t, RuleTimeline (ta_pattern t) PROTECTED) <$> ts) ++
                 ((λ s, RuleSecret (sa_name s) PROTECTED) <$> ss)
}.

Lemma default_ruleset_derived {A} paths timelines secrets (a : A) rs :
  default_ruleset paths timelines secrets a = Ok rs →
  ∃ ps ts ss, paths a = Ok ps ∧ timelines a = Ok ts ∧ secrets a = Ok ss ∧
    rules rs = ((λ p, RulePath (pa_glob p) PROTECTED) <$> ps) ++
               ((λ t, RuleTimeline (ta_pattern t) PROTECTED) <$> ts) ++
               ((λ s, RuleSecret (sa_name s) PROTECTED) <$> ss).
Proof.
  unfold default_ruleset. rewrite bind_Ok. intros (ps & ? & Hr).
  apply bind_Ok in Hr as (ts & ? & Hr). apply bind_Ok in Hr as (ss & ? & [= <-]). by exists ps, ts, ss.
Qed.

(** ** [MemoryAclBackend] *)
Record MemoryAclBackend : Type := MkMemAcl {
  path_acls : gmap string PathAcl;
  timeline_acls : gmap string TimelineAcl;
  secret_acls : gmap string SecretAcl;
  grants : gmap string ClearanceGrant
}.
Definition MemoryAclBackend_new : MemoryAclBackend := MkMemAcl ∅ ∅ ∅ ∅.

Definition on_paths (f : gmap string PathAcl → gmap string PathAcl) (a : MemoryAclBackend) : MemoryAclBackend :=
  MkMemAcl (f (path_acls a)) (timeline_acls a) (secret_acls a) (grants a).
Definition on_timelines (f : gmap string TimelineAcl → gmap string TimelineAcl) (a : MemoryAclBackend) : MemoryAclBackend :=
  MkMemAcl (path_acls a) (f (timeline_acls a)) (secret_acls a) (grants a).
Definition on_secrets (f : gmap string SecretAcl → gmap string SecretAcl) (a : MemoryAclBackend) : MemoryAclBackend :=
  MkMemAcl (path_acls a) (timeline_acls a) (f (secret_acls a)) (grants a).
Definition on_grants (f : gmap string ClearanceGrant → gmap string ClearanceGrant) (a : MemoryAclBackend) : MemoryAclBackend :=
  MkMemAcl (path_acls a) (timeline_acls a) (secret_acls a) (f (grants a)).

(** [map.values().cloned().collect()]: a [HashMap] lists in an unspecified order. *)
Definition map_values {V} (m : gmap string V) : list V := (map_to_list m).*2.

Definition mem_list_path_acls (a : MemoryAclBackend) : res (list PathAcl) := Ok (map_values (path_acls a)).
Definition mem_list_timeline_acls (a : MemoryAclBackend) : res (list TimelineAcl) := Ok (map_values (timeline_acls a)).
Definition mem_list_secret_acls (a : MemoryAclBackend) : res (list SecretAcl) := Ok (map_values (secret_acls a)).

#[global] Instance mem_AclBackend : AclBackend MemoryAclBackend := {|
  get_path_acl a glob := Ok (path_acls a !! glob);
  set_path_acl acl := modify (on_paths <[pa_glob acl := acl]>);
  delete_path_acl glob := modify (on_paths (delete glob));
  list_path_acls := mem_list_path_acls;
  get_timeline_acl a pattern := Ok (timeline_acls a !! pattern);
  set_timeline_acl acl := modify (on_timelines <[ta_pattern acl := acl]>);
  delete_timeline_acl pattern := modify (on_timelines (delete pattern));
  list_timeline_acls := mem_list_timeline_acls;
  list_secret_acls := mem_list_secret_acls;
  set_secret_acl acl := modify (on_secrets <[sa_name acl := acl]>);
  delete_secret_acl name := modify (on_secrets (delete name));
  get_lattice := default_lattice;
  set_lattice := default_set_lattice;
  get_label_ruleset := default_ruleset mem_list_path_acls mem_list_timeline_acls mem_list_secret_acls;
  set_label_ruleset := default_set_ruleset;
  get_grant a actor := Ok (grants a !! actor);
  set_grant grant := modify (on_grants <[grant_actor grant := grant]>)
|}.

#[global] Instance mem_AclLaws : AclLaws MemoryAclBackend.
Proof. split; [by intros a L [= <-]|]. intros a rs. apply default_ruleset_derived. Qed.

(** ** [DiskAclBackend]: one directory per kind of ACL, one file per pattern *)

(** [str::replace] of a character. *)
Fixpoint replace_char (c : ascii) (by_ : string) (s : string) : string :=
  match s with
  | String.EmptyString => ""
  | String.String a s => if Ascii.eqb a c then by_ +:+ replace_char c by_ s
                         else String.String a (replace_char c by_ s)
  end.

Definition sanitize (s : string) : string :=
  replace_char "*" "%2A" (replace_char "/" "%2F" (replace_char "%" "%25" s)).

(** What the file system makes of a file name: a NUL byte is refused, the empty name
    and [.] are the directory itself, [..] has no [file_name]. *)
Definition dir_component (name : string) : res () :=
  if contains_char "000" name then Err (Io (OtherIo "file name contained an unexpected NUL byte"))
  else if decide (name = "" ∨ name = "." ∨ name = "..") then Err (Io IsADirectory)
  else Ok ().

(** A directory of ACL files. *)
Abbreviation acl_dir := (gmap string bytes).

Section dir.
Context {T : Type} (key : T → string) (enc : T → res bytes) (dec : bytes → res T).

(** [path.file_name()] of the target, under the leading-dot temporary name. *)
Definition acl_tmp (name : string) : string := "." +:+ name +:+ ".tmp".

Definition atomic_write (name : string) (data : bytes) : M acl_dir () :=
  if decide (name = "..") then throw (Panic "called `Option::unwrap()` on a `None` value")
  else _ ← lift_res (dir_component name);
       _ ← modify <[acl_tmp name := data]>;
       modify (λ d, <[name := data]> (delete (acl_tmp name) d)).

Definition dir_get (d : acl_dir) (k : string) : res (option T) :=
  _ ← dir_component (sanitize k);
  match d !! sanitize k with
  | Some data => t ← dec data; Ok (Some t)
  | None => Ok None
  end.
Definition dir_set (t : T) : M acl_dir () :=
  data ← lift_res (enc t); atomic_write (sanitize (key t)) data.
Definition dir_delete (k : string) : M acl_dir () :=
  _ ← lift_res (dir_component (sanitize k)); modify (delete (sanitize k)).

(** [list_dir], in the order [read_dir] yields the entries. *)
Definition dir_list (d : acl_dir) : res (list T) :=
  res_map (λ e : string * bytes, dec e.2)
    (filter (λ e, starts_with "." e.1 = false) (map_to_list d)).
End dir.

Class AclCodec := {
  path_enc : PathAcl → res bytes; path_dec : bytes → res PathAcl;
  timeline_enc : TimelineAcl → res bytes; timeline_dec : bytes → res TimelineAcl;
  secret_enc : SecretAcl → res bytes; secret_dec : bytes → res SecretAcl
}.
Class AclCodecLaws `{AclCodec} := {
  path_dec_enc t d : path_enc t = Ok d → path_dec d = Ok t;
  timeline_dec_enc t d : timeline_enc t = Ok d → timeline_dec d = Ok t;
  secret_dec_enc t d : secret_enc t = Ok d → secret_dec d = Ok t
}.

Record DiskAclBackend : Type := MkDiskAcl { paths_dir : acl_dir; timelines_dir : acl_dir; secrets_dir : acl_dir }.
Definition DiskAclBackend_new : DiskAclBackend := MkDiskAcl ∅ ∅ ∅.

(** Running an operation of one directory. *)
Definition in_dir {X} (get : DiskAclBackend → acl_dir) (set : acl_dir → DiskAclBackend → DiskAclBackend)
    (m : M acl_dir X) : M DiskAclBackend X := λ a,
  let '(r, d) := m (get a) in (r, set d a).
Definition put_paths (d : acl_dir) (a : DiskAclBackend) := MkDiskAcl d (timelines_dir a) (secrets_dir a).
Definition put_timelines (d : acl_dir) (a : DiskAclBackend) := MkDiskAcl (paths_dir a) d (secrets_dir a).
Definition put_secrets (d : acl_dir) (a : DiskAclBackend) := MkDiskAcl (paths_dir a) (timelines_dir a) d.

Section disk.
Context `{AclCodec}.
Definition disk_list_path_acls (a : DiskAclBackend) : res (list PathAcl) := dir_list path_dec (paths_dir a).
Definition disk_list_timeline_acls (a : DiskAclBackend) : res (list TimelineAcl) := dir_list timeline_dec (timelines_dir a).
Definition disk_list_secret_acls (a : DiskAclBackend) : res (list SecretAcl) := dir_list secret_dec (secrets_dir a).

#[global] Instance disk_AclBackend : AclBackend DiskAclBackend := {|
  get_path_acl a glob := dir_get path_dec (paths_dir a) glob;
  set_path_acl acl := in_dir paths_dir put_paths (dir_set pa_glob path_enc acl);
  delete_path_acl glob := in_dir paths_dir put_paths (dir_delete glob);
  list_path_acls := disk_list_path_acls;
  get_timeline_acl a pattern := dir_get timeline_dec (timelines_dir a) pattern;
  set_timeline_acl acl := in_dir timelines_dir put_timelines (dir_set ta_pattern timeline_enc acl);
  delete_timeline_acl pattern := in_dir timelines_dir put_timelines (dir_delete pattern);
  list_timeline_acls := disk_list_timeline_acls;
  list_secret_acls := disk_list_secret_acls;
  set_secret_acl acl := in_dir secrets_dir put_secrets (dir_set sa_name secret_enc acl);
  delete_secret_acl name := in_dir secrets_dir put_secrets (dir_delete name);
  get_lattice := default_lattice;
  set_lattice := default_set_lattice;
  get_label_ruleset := default_ruleset disk_list_path_acls disk_list_timeline_acls disk_list_secret_acls;
  set_label_ruleset := default_set_ruleset;
  get_grant := default_get_grant;
  set_grant := default_set_grant
|}.

#[global] Instance disk_AclLaws : AclLaws DiskAclBackend.
Proof. split; [by intros a L [= <-]|]. intros a rs. apply default_ruleset_derived. Qed.
End disk.

(** ** [AclStore] *)
Section store.
Context {A : Type} `{AclBackend A}.
Definition path_is_protected (a : A) (path : string) : res bool :=
  l ← list_path_acls a; Ok (existsb (λ p, glob_matches (pa_glob p) path) l).
Definition timeline_is_protected (a : A) (name : string) : res bool :=
  l ← list_timeline_acls a; Ok (existsb (λ t, glob_matches (ta_pattern t) name) l).
End store.

(** ** Derived labels *)
Lemma join_two_point_protected l : l = PUBLIC ∨ l = PROTECTED → join two_point l PROTECTED = PROTECTED.
Proof. intros [-> | ->]; vm_compute; reflexivity. Qed.

Lemma join_all_protected ls : (∀ l, l ∈ ls → l = PROTECTED) →
  join_all two_point ls = if decide (ls = []) then PUBLIC else PROTECTED.
Proof.
  intros Hls. unfold join_all.
  assert (∀ acc, acc = PUBLIC ∨ acc = PROTECTED →
    foldl (join two_point) acc ls = if decide (ls = []) then acc else PROTECTED) as Hf.
  { revert Hls. induction ls as [|l ls IH]; intros Hls acc Hacc; [done|]. simpl.
    rewrite (Hls l) by left. rewrite join_two_point_protected by done.
    rewrite IH; [by case_decide|by intros l' ?; apply Hls; right|by right]. }
  replace (bottom two_point) with PUBLIC by (vm_compute; reflexivity). apply Hf. by left.
Qed.

Lemma omap_all_none {A B} (f : A → option B) l : (∀ x, x ∈ l → f x = None) → omap f l = [].
Proof.
  induction l as [|x l IH]; intros Hn; [done|]. simpl. rewrite (Hn x) by left. apply IH.
  intros y ?. apply Hn. by right.
Qed.

Lemma omap_fmap_match {T} (mk : T → LabelRule) (f : LabelRule → option Label) (g : T → bool) l :
  (∀ t, f (mk t) = if g t then Some PROTECTED else None) →
  (∀ x, x ∈ omap f (mk <$> l) → x = PROTECTED) ∧ (omap f (mk <$> l) = [] ↔ existsb g l = false).
Proof.
  intros Hf. induction l as [|t l [IH1 IH2]]; simpl; [set_solver|]. rewrite Hf.
  destruct (g t); simpl; [split; [|done]; intros x [->|?]%elem_of_cons; auto|done].
Qed.

Lemma other_kind {T} (mk : T → LabelRule) (f : LabelRule → option Label) (l : list T) :
  (∀ t, f (mk t) = None) → ∀ r, r ∈ mk <$> l → f r = None.
Proof. intros Hf r (t & -> & _)%list_elem_of_fmap. apply Hf. Qed.

Section derived.
Context {A : Type} `{AclLaws A} (a : A) (L : LabelLattice) (rs : LabelRuleSet).
Context (HL : get_lattice a = Ok L) (Hrs : get_label_ruleset a = Ok rs).

(** The label a kind of ACL derives. *)
Definition derived (b : bool) : Label := if b then PROTECTED else PUBLIC.

Lemma derived_label (f : LabelRule → option Label) {T} (mk : T → LabelRule) (g : T → bool) l before after :
  rules rs = before ++ (mk <$> l) ++ after →
  (∀ t, f (mk t) = if g t then Some PROTECTED else None) →
  (∀ r, r ∈ before → f r = None) → (∀ r, r ∈ after → f r = None) →
  join_all L (omap f (rules rs)) = derived (existsb g l).
Proof.
  intros Hr Hf Hb Ha. rewrite (lattice_two_point a L HL), Hr, !omap_app.
  rewrite (omap_all_none f before Hb), (omap_all_none f after Ha), app_nil_r. simpl.
  destruct (omap_fmap_match mk f g l Hf) as [Hall Hnil].
  rewrite join_all_protected by done. unfold derived. destruct (existsb g l); case_decide; naive_solver.
Qed.

Lemma derived_spec : ∃ ps ts ss,
  list_path_acls a = Ok ps ∧ list_timeline_acls a = Ok ts ∧ list_secret_acls a = Ok ss ∧
  (∀ p, label_for_path rs L p = derived (existsb (λ x, glob_matches (pa_glob x) p) ps)) ∧
  (∀ n, label_for_timeline rs L n = derived (existsb (λ x, glob_matches (ta_pattern x) n) ts)) ∧
  (∀ n, label_for_secret rs L n = derived (existsb (λ x, glob_matches (sa_name x) n) ss)).
Proof.
  destruct (ruleset_derived a rs Hrs) as (ps & ts & ss & ? & ? & ? & Hr). exists ps, ts, ss.
  split; [done|]. split; [done|]. split; [done|].
  split; [|split]; intros x.
  - rewrite label_for_path_join. unfold path_labels.
    eapply (derived_label (path_match x)) with (before := []); [exact Hr|done|set_solver|].
    intros r [?|?]%elem_of_app; (eapply other_kind; [|eassumption]; done).
  - rewrite label_for_timeline_join. unfold timeline_labels.
    eapply (derived_label (timeline_match x)); [exact Hr|done|by apply other_kind|by apply other_kind].
  - rewrite label_for_secret_join. unfold secret_labels. rewrite (assoc_L (++)) in Hr.
    eapply (derived_label (secret_match x)) with (after := []); [by rewrite app_nil_r; exact Hr|done| |set_solver].
    intros r [?|?]%elem_of_app; (eapply other_kind; [|eassumption]; done).
Qed.

(** Every derived label is one of the two. *)
Lemma derived_path_label p : label_for_path rs L p = PUBLIC ∨ label_for_path rs L p = PROTECTED.
Proof. destruct derived_spec as (ps & ts & ss & _ & _ & _ & -> & _). unfold derived. case_match; auto. Qed.
End derived.

(** ** File names *)
Definition escape_char (a : ascii) : string :=
  if Ascii.eqb a "%" then "%25" else if Ascii.eqb a "/" then "%2F"
  else if Ascii.eqb a "*" then "%2A" else String.String a "".
Fixpoint escape (s : string) : string :=
  match s with
  | String.EmptyString => ""
  | String.String a s => escape_char a +:+ escape s
  end.

Lemma append_cons a s t : String.String a s +:+ t = String.String a (s +:+ t).
Proof. reflexivity. Qed.
Lemma append_nil t : "" +:+ t = t.
Proof. reflexivity. Qed.

Lemma replace_char_app c t s1 s2 : replace_char c t (s1 +:+ s2) = replace_char c t s1 +:+ replace_char c t s2.
Proof.
  assert (∀ x y z : string, (x +:+ y) +:+ z = x +:+ (y +:+ z)) as Hassoc.
  { induction x as [|a x IH]; intros y z; [done|]. by rewrite !append_cons, IH. }
  induction s1 as [|a s1 IH]; [done|]. rewrite append_cons. simpl.
  destruct (Ascii.eqb a c); [by rewrite IH, Hassoc|]. by rewrite IH.
Qed.

(** The three passes act on each character once. *)
Lemma sanitize_escape s : sanitize s = escape s.
Proof.
  unfold sanitize. induction s as [|a s IH]; [done|]. simpl. unfold escape_char.
  destruct (Ascii.eqb_spec a "%") as [->|Hp]; [by rewrite !replace_char_app, IH|]. simpl.
  destruct (Ascii.eqb_spec a "/") as [->|Hs]; [by rewrite replace_char_app, IH|]. simpl.
  destruct (Ascii.eqb_spec a "*") as [->|Ht]; [by rewrite IH|]. by rewrite IH.
Qed.

Lemma escape_char_cancel a b x y : escape_char a +:+ x = escape_char b +:+ y → a = b ∧ x = y.
Proof.
  unfold escape_char.
  destruct (Ascii.eqb_spec a "%"), (Ascii.eqb_spec b "%"), (Ascii.eqb_spec a "/"), (Ascii.eqb_spec b "/"),
    (Ascii.eqb_spec a "*"), (Ascii.eqb_spec b "*"); subst;
    rewrite ?append_cons, ?append_nil; intros Heq; split; congruence.
Qed.

Lemma escape_char_ne a x : escape_char a +:+ x ≠ "".
Proof. unfold escape_char. repeat case_match; by rewrite append_cons. Qed.

#[global] Instance sanitize_inj : Inj (=) (=) sanitize.
Proof.
  intros s t. rewrite !sanitize_escape. revert t.
  induction s as [|a s IH]; intros [|b t]; simpl; [done|intros Heq..].
  - by destruct (escape_char_ne b (escape t)).
  - by destruct (escape_char_ne a (escape s)).
  - apply escape_char_cancel in Heq as [-> Heq]. f_equal. by apply IH.
Qed.

Lemma sanitize_dot s : starts_with "." (sanitize s) = starts_with "." s.
Proof.
  rewrite sanitize_escape. destruct s as [|a s]; [done|]. simpl. unfold escape_char.
  destruct (Ascii.eqb_spec a "%") as [->|]; [done|]. destruct (Ascii.eqb_spec a "/") as [->|]; [done|].
  destruct (Ascii.eqb_spec a "*") as [->|]; [done|]. by rewrite append_cons.
Qed.

(** ** An ACL directory is a map from patterns *)
Section dir_facts.
Context {T : Type} (key : T → string) (enc : T → res bytes) (dec : bytes → res T).
Context (dec_enc : ∀ t d, enc t = Ok d → dec d = Ok t).

(** Every file that is not hidden holds an ACL under its own name. *)
Definition dir_ok (d : acl_dir) : Prop :=
  ∀ name data, d !! name = Some data → starts_with "." name = false →
    ∃ t, dec data = Ok t ∧ name = sanitize (key t).

Lemma dir_list_Ok d : dir_ok d → ∃ l, dir_list dec d = Ok l ∧
  ∀ t, t ∈ l ↔ starts_with "." (key t) = false ∧ ∃ data, d !! sanitize (key t) = Some data ∧ dec data = Ok t.
Proof.
  intros Hok. unfold dir_list.
  assert (∀ es, (∀ e, e ∈ es → d !! e.1 = Some e.2 ∧ starts_with "." e.1 = false) →
    ∃ l, res_map (λ e : string * bytes, dec e.2) es = Ok l ∧ ∀ t, t ∈ l ↔ ∃ e, e ∈ es ∧ dec e.2 = Ok t) as Hmap.
  { induction es as [|e es IH]; intros Hes; simpl; [exists []; set_solver|].
    destruct (Hes e) as [He Hd]; [left|]. destruct (Hok _ _ He Hd) as (t & Ht & _). rewrite Ht. simpl.
    destruct IH as (l & -> & Hl); [by intros e' ?; apply Hes; right|]. simpl. exists (t :: l). split; [done|].
    intros t'. rewrite elem_of_cons, Hl. split.
    - intros [->|(e' & ? & ?)]; [exists e|exists e']; (split; [|done]); [left|by right].
    - intros (e' & [->|?]%elem_of_cons & ?); [left; congruence|right; by exists e']. }
  destruct (Hmap (filter (λ e, starts_with "." e.1 = false) (map_to_list d))) as (l & -> & Hl).
  { intros [n data] [Hn Hin%elem_of_map_to_list]%list_elem_of_filter. done. }
  exists l. split; [done|]. intros t. rewrite Hl. split.
  - intros ([n data] & [Hn Hin%elem_of_map_to_list]%list_elem_of_filter & Hd). simpl in *.
    destruct (Hok n data Hin Hn) as (t' & Ht' & ->). assert (t' = t) as -> by congruence.
    rewrite <- sanitize_dot. split; [exact Hn|]. by exists data.
  - intros (Hn & data & Hin & Hd). exists (sanitize (key t), data).
    split; [|done]. apply list_elem_of_filter. rewrite elem_of_map_to_list. simpl. by rewrite sanitize_dot.
Qed.

Lemma dir_set_Ok t d d' : dir_ok d → dir_set key enc t d = (Ok (), d') →
  ∃ data, enc t = Ok data ∧ dir_component (sanitize (key t)) = Ok () ∧
    d' = <[sanitize (key t) := data]> (delete (acl_tmp (sanitize (key t))) (<[acl_tmp (sanitize (key t)) := data]> d)).
Proof.
  intros Hok. unfold dir_set. rewrite M_bind_Ok. intros (data & s & Hd & Hw). injection Hd as Hd <-.
  exists data. split; [done|]. unfold atomic_write in Hw. case_decide; [done|].
  apply M_bind_Ok in Hw as ([] & s & Hc & Hw). injection Hc as Hc <-. split; [done|].
  by injection Hw as <-.
Qed.

Lemma dir_set_lookup name data (d : acl_dir) n : starts_with "." n = false →
  <[name := data]> (delete (acl_tmp name) (<[acl_tmp name := data]> d)) !! n =
  if decide (n = name) then Some data else d !! n.
Proof.
  intros Hn. case_decide as Heq; [by subst; rewrite lookup_insert_eq|].
  assert (acl_tmp name ≠ n) by (intros <-; done).
  by rewrite lookup_insert_ne, lookup_delete_ne, lookup_insert_ne.
Qed.

Lemma dir_set_spec t d d' : dir_ok d → dir_set key enc t d = (Ok (), d') →
  dir_ok d' ∧ dir_get dec d' (key t) = Ok (Some t) ∧
  ∃ l l', dir_list dec d = Ok l ∧ dir_list dec d' = Ok l' ∧
    ∀ x, x ∈ l' ↔ (x = t ∧ starts_with "." (key t) = false) ∨ (x ∈ l ∧ key x ≠ key t).
Proof.
  intros Hok Hs. destruct (dir_set_Ok _ _ _ Hok Hs) as (data & He & Hc & ->).
  set (d' := <[_ := data]> _).
  assert (∀ n, starts_with "." n = false → d' !! n = if decide (n = sanitize (key t)) then Some data else d !! n) as Hl'
    by (intros n Hn; by apply dir_set_lookup).
  assert (dir_ok d') as Hok'.
  { intros n dt Hn Hdot. rewrite Hl' in Hn by done. case_decide; [|by apply Hok].
    injection Hn as <-. exists t. auto. }
  split; [done|]. split.
  { unfold dir_get. rewrite Hc. simpl. unfold d'. rewrite lookup_insert_eq. by rewrite (dec_enc t data He). }
  destruct (dir_list_Ok d Hok) as (l & Hl & Hin). destruct (dir_list_Ok d' Hok') as (l' & Hl2 & Hin').
  exists l, l'. split; [done|]. split; [done|]. intros x. rewrite Hin, Hin'. split.
  - intros (Hdot & dt & Hx & Hd). rewrite Hl' in Hx by (by rewrite sanitize_dot).
    case_decide as Hk; [left|right; split; [by eauto|intros Heq; by rewrite Heq in Hk]].
    injection Hx as <-. rewrite (dec_enc t data He) in Hd. injection Hd as <-. done.
  - intros [[-> Hdot]|[(Hdot & dt & Hx & Hd) Hne]]; (split; [exact Hdot|]); rewrite Hl' by (by rewrite sanitize_dot).
    + rewrite decide_True by done. by exists data; rewrite (dec_enc t data He).
    + rewrite decide_False; [by exists dt|]. by intros Heq%(inj sanitize).
Qed.
End dir_facts.

(** ** Properties *)

(** On every backend that derives its labels from ACLs (both built-in ones), a path,
    timeline or secret is labelled [protected] when some listed ACL of its kind
    matches it, and [public] otherwise; for paths and timelines this is what
    [path_is_protected] and [timeline_is_protected] answer. *)
Theorem derived_labels_protect {A : Type} `{AclLaws A} (a : A) (L : LabelLattice) (rs : LabelRuleSet) :
  get_lattice a = Ok L → get_label_ruleset a = Ok rs →
  ∃ ps ts ss, list_path_acls a = Ok ps ∧ list_timeline_acls a = Ok ts ∧ list_secret_acls a = Ok ss ∧
  (∀ p, label_for_path rs L p = derived (existsb (λ x, glob_matches (pa_glob x) p) ps) ∧
        path_is_protected a p = Ok (bool_decide (label_for_path rs L p = PROTECTED))) ∧
  (∀ n, label_for_timeline rs L n = derived (existsb (λ x, glob_matches (ta_pattern x) n) ts) ∧
        timeline_is_protected a n = Ok (bool_decide (label_for_timeline rs L n = PROTECTED))) ∧
  (∀ n, label_for_secret rs L n = derived (existsb (λ x, glob_matches (sa_name x) n) ss)).
Proof.
  intros HL Hrs. destruct (derived_spec a L rs HL Hrs) as (ps & ts & ss & Hp & Ht & Hs & Hlp & Hlt & Hls).
  exists ps, ts, ss. split; [done|]. split; [done|]. split; [done|]. split; [|split]; [..|done].
  - intros p. split; [apply Hlp|]. unfold path_is_protected. rewrite Hp, Hlp. simpl. by destruct (existsb _ ps).
  - intros n. split; [apply Hlt|]. unfold timeline_is_protected. rewrite Ht, Hlt. simpl. by destruct (existsb _ ts).
Qed.

(** A path ACL on disk: when [set_path_acl] succeeds on a well-formed directory, the
    directory stays well formed and [get_path_acl] returns the ACL. The listing, from
    which labels are derived, gains the ACL and loses nothing but an older one for the
    same pattern, with one exception: a pattern that starts with a dot is stored and
    returned but not listed, so it is never enforced. *)
Theorem disk_path_acls `{AclCodecLaws} (a a' : DiskAclBackend) (acl : PathAcl) :
  dir_ok pa_glob path_dec (paths_dir a) → set_path_acl acl a = (Ok (), a') →
  dir_ok pa_glob path_dec (paths_dir a') ∧ get_path_acl a' (pa_glob acl) = Ok (Some acl) ∧
  ∃ l l', list_path_acls a = Ok l ∧ list_path_acls a' = Ok l' ∧
    ∀ x, x ∈ l' ↔ (x = acl ∧ starts_with "." (pa_glob acl) = false) ∨ (x ∈ l ∧ pa_glob x ≠ pa_glob acl).
Proof.
  intros Hok Hs. simpl in Hs. unfold in_dir in Hs.
  destruct (dir_set pa_glob path_enc acl (paths_dir a)) as [r d] eqn:Hd. injection Hs as -> <-.
  by apply (dir_set_spec pa_glob path_enc path_dec path_dec_enc) in Hd.
Qed.

(** ** A concrete codec: the pattern itself *)
Definition toy_acl_codec : AclCodec := {|
  path_enc p := Ok (str_bytes (pa_glob p)); path_dec d := Ok (MkPathAcl (bytes_str d));
  timeline_enc t := Ok (str_bytes (ta_pattern t)); timeline_dec d := Ok (MkTimelineAcl (bytes_str d));
  secret_enc s := Ok (str_bytes (sa_name s)); secret_dec d := Ok (MkSecretAcl (bytes_str d))
|}.
Lemma toy_acl_laws : @AclCodecLaws toy_acl_codec.
Proof. split; intros [s] d [= <-]; simpl; by rewrite bytes_str_bytes. Qed.

Section demo.
Local Existing Instance toy_acl_codec.
Local Existing Instance toy_acl_laws.

Definition ex_env_acl : PathAcl := MkPathAcl ".env".
Definition ex_env_disk : DiskAclBackend := snd (set_path_acl ex_env_acl DiskAclBackend_new).

Lemma disk_path_acls_witness :
  get_path_acl ex_env_disk ".env" = Ok (Some ex_env_acl) ∧ ∃ l, list_path_acls ex_env_disk = Ok l ∧ ex_env_acl ∉ l.
Proof.
  assert (set_path_acl ex_env_acl DiskAclBackend_new = (Ok (), ex_env_disk)) as Hs by reflexivity.
  assert (dir_ok pa_glob path_dec (paths_dir DiskAclBackend_new)) as Hok.
  { intros name data Hn. exact (False_ind _ (lookup_empty_Some name data Hn)). }
  destruct (disk_path_acls DiskAclBackend_new ex_env_disk ex_env_acl Hok Hs) as (_ & Hg & l & l' & _ & Hl & Hin).
  split; [exact Hg|]. exists l'. split; [exact Hl|]. intros [[_ Hdot]|[_ Hne]]%Hin; [discriminate Hdot|exact (Hne eq_refl)].
Defined.

Definition ex_acls : MemoryAclBackend := snd (set_path_acl (MkPathAcl "secrets/**") MemoryAclBackend_new).
Definition ex_ruleset : LabelRuleSet := MkRuleSet [RulePath "secrets/**" PROTECTED].

Lemma derived_labels_protect_witness :
  path_is_protected ex_acls "secrets/prod.key" = Ok (bool_decide (label_for_path ex_ruleset two_point "secrets/prod.key" = PROTECTED)).
Proof.
  assert (get_lattice ex_acls = Ok two_point) as HL by reflexivity.
  assert (get_label_ruleset ex_acls = Ok ex_ruleset) as Hrs by reflexivity.
  destruct (derived_labels_protect ex_acls two_point ex_ruleset HL Hrs) as (ps & ts & ss & _ & _ & _ & Hp & _).
  apply Hp.
Defined.
End demo.
