(* ===== verification/Walk.v ===== *)
(** * Walk: the files of a snapshot

    [walk_tree_filtered] of [src/src/repo/mod.rs]: the worklist walk of a nested tree
    that collects the paths an accessor may see, with its bound on the nesting depth.

    [files] is the specification: the blobs the tree reaches, with their paths.  The
    theorem: the walk terminates, never collects a path the accessor may not see, and
    collects every path it may; it fails only on a tree nested 256 deep or on an
    object that cannot be read. *)

From S2P Require Import Prelude Glob Lattice Access Ids Objects.

Definition MAX_TREE_DEPTH : nat := 256.
Definition err_too_deep : Error := Storage "tree nesting exceeds maximum depth 256".

(** A work item: tree id, path prefix, depth. *)
Definition item : Type := ObjectId * string * nat.

Section walk.
Context (O : objects) (lattice : LabelLattice) (rs : LabelRuleSet) (accessor : Accessor).

Definition full_path (pfx name : string) : string :=
  if decide (pfx = "") then name else pfx +:+ "/" +:+ name.

(** The rule shared by every read path: public, or readable. *)
Definition visible (path : string) : bool :=
  let label := label_for_path rs lattice path in
  bool_decide (label = bottom lattice) || can_read accessor label (ResPath path).

(** One entry of a tree. *)
Definition walk_entry (pfx : string) (depth : nat) (acc : list item * gmap string ObjectId)
    (e : string * TreeEntry) : list item * gmap string ObjectId :=
  let '(stack, out) := acc in
  let path := full_path pfx e.1 in
  match entry_kind e.2 with
  | KindBlob => (stack, if visible path then <[path := entry_id e.2]> out else out)
  | KindTree => ((entry_id e.2, path, S depth) :: stack, out)
  end.

(** One iteration of [while let Some((tid, pfx, depth)) = stack.pop()]. *)
Definition walk_step (s : list item * gmap string ObjectId)
    : (list item * gmap string ObjectId) + res (gmap string ObjectId) :=
  let '(stack, out) := s in
  match stack with
  | [] => inr (Ok out)
  | (tid, pfx, depth) :: stack =>
      if decide (MAX_TREE_DEPTH ≤ depth) then inr (Err err_too_deep)
      else match os_get O tid with
           | Err e => inr (Err e)
           | Ok (Some (OTree t)) => inl (foldl (walk_entry pfx depth) (stack, out) (btree_iter (tree_entries t)))
           | Ok _ => inl (stack, out)
           end
  end.

(** Every nested tree, an upper bound of the out-degree. *)
Definition tree_ids (obj : Object) : list ObjectId :=
  match obj with OTree t => entry_id <$> btree_values (tree_entries t) | _ => [] end.

(** The walk visits a tree once for each path that leads to it: with [d] entries per
    tree at most [(d + 2) ^ 256] visits, so the logarithm of that is enough fuel for
    [iter_pow]. *)
Definition walk_bits : nat :=
  N.size_nat (N.of_nat (degree tree_ids O + 2) ^ N.of_nat MAX_TREE_DEPTH).

Definition walk_tree_filtered (tree_id : ObjectId) (prefix : string) (out : gmap string ObjectId)
    : res (gmap string ObjectId) :=
  match iter_pow walk_step walk_bits ([(tree_id, prefix, 0)], out) with
  | inr r => r
  | inl _ => Err (Panic "out of fuel")
  end.

(** ** The specification *)

(** [j] is an entry of the tree at [i]. *)
Definition item_edge : relation item := λ i j,
  ∃ t name x, O !! i.1.1 = Some (Ok (OTree t)) ∧ tree_entries t !! name = Some (MkTreeEntry x KindTree) ∧
    j = (x, full_path i.1.2 name, S i.2).
(** The tree at [i] has a blob with this path. *)
Definition blob_at (i : item) (path : string) (x : ObjectId) : Prop :=
  ∃ t name, O !! i.1.1 = Some (Ok (OTree t)) ∧ tree_entries t !! name = Some (MkTreeEntry x KindBlob) ∧
    path = full_path i.1.2 name.
(** The files below a tree. *)
Definition files (root : item) (path : string) (x : ObjectId) : Prop :=
  ∃ j, rtc item_edge root j ∧ blob_at j path x.

(** ** One tree *)
Lemma walk_fold_stack pfx depth es stack out i :
  i ∈ (foldl (walk_entry pfx depth) (stack, out) es).1 ↔
  i ∈ stack ∨ ∃ name x, (name, MkTreeEntry x KindTree) ∈ es ∧ i = (x, full_path pfx name, S depth).
Proof.
  revert stack out. induction es as [|[name [x k]] es IH]; intros stack out; simpl; [set_solver|].
  setoid_rewrite elem_of_cons. destruct k; simpl; rewrite IH, ?elem_of_cons; naive_solver.
Qed.

Lemma walk_fold_length pfx depth es stack out :
  length (foldl (walk_entry pfx depth) (stack, out) es).1 ≤ length stack + length es.
Proof.
  revert stack out. induction es as [|[name [x k]] es IH]; intros stack out; simpl; [lia|].
  destruct k; simpl; etrans; [apply IH|simpl; lia|apply IH|simpl; lia].
Qed.

Lemma walk_fold_out pfx depth es stack out :
  let out' := (foldl (walk_entry pfx depth) (stack, out) es).2 in
  (∀ p x, out' !! p = Some x → out !! p = Some x ∨
     ∃ name, (name, MkTreeEntry x KindBlob) ∈ es ∧ p = full_path pfx name ∧ visible p = true) ∧
  (∀ p, is_Some (out !! p) → is_Some (out' !! p)) ∧
  (∀ name x, (name, MkTreeEntry x KindBlob) ∈ es → visible (full_path pfx name) = true →
     is_Some (out' !! full_path pfx name)).
Proof.
  revert stack out. induction es as [|[name [x k]] es IH]; intros stack out; simpl; [set_solver|].
  destruct k; simpl.
  - destruct (IH stack (if visible (full_path pfx name) then <[full_path pfx name := x]> out else out))
      as (IH1 & IH2 & IH3). setoid_rewrite elem_of_cons. split; [|split].
    + intros p y Hy. destruct (IH1 p y Hy) as [Ho|(n & ? & ? & ?)]; [|right; exists n; eauto].
      destruct (visible (full_path pfx name)) eqn:Hv; [|by left].
      apply lookup_insert_Some in Ho as [[<- <-]|[_ ?]]; [right|by left]. exists name. eauto.
    + intros p Hp. apply IH2. destruct (visible _); [|done]. apply lookup_insert_is_Some'. by right.
    + intros n y [Heq|Hin] Hv; [|by eapply IH3]. injection Heq as -> ->. apply IH2. rewrite Hv.
      by rewrite lookup_insert_eq.
  - destruct (IH ((x, full_path pfx name, S depth) :: stack) out) as (IH1 & IH2 & IH3).
    setoid_rewrite elem_of_cons. split; [|split]; [|done|].
    + intros p y Hy. destruct (IH1 p y Hy) as [|(n & ? & ? & ?)]; [by left|right; exists n; eauto].
    + intros n y [Heq|Hin] Hv; [done|by eapply IH3].
Qed.

(** ** The loop *)
Section loop.
Context (root : item) (out0 : gmap string ObjectId).

Record walk_inv (s : list item * gmap string ObjectId) : Prop := {
  wi_stack : ∀ i, i ∈ s.1 → rtc item_edge root i;
  wi_out : ∀ p x, s.2 !! p = Some x → out0 !! p = Some x ∨ (files root p x ∧ visible p = true);
  wi_kept : ∀ p, is_Some (out0 !! p) → is_Some (s.2 !! p);
  wi_done : ∀ j, rtc item_edge root j → (∃ i, i ∈ s.1 ∧ rtc item_edge i j) ∨
    (j.2 < MAX_TREE_DEPTH ∧ ∀ p x, blob_at j p x → visible p = true → is_Some (s.2 !! p))
}.

Definition walk_post (r : res (gmap string ObjectId)) : Prop :=
  match r with
  | Ok out =>
      (∀ p x, out !! p = Some x → out0 !! p = Some x ∨ (files root p x ∧ visible p = true)) ∧
      (∀ p, is_Some (out !! p) ↔ is_Some (out0 !! p) ∨ (visible p = true ∧ ∃ x, files root p x)) ∧
      (∀ j, rtc item_edge root j → j.2 < MAX_TREE_DEPTH)
  | Err e => ∃ j, rtc item_edge root j ∧ ((MAX_TREE_DEPTH ≤ j.2 ∧ e = err_too_deep) ∨ O !! j.1.1 = Some (Err e))
  end.

(** An item that is no readable tree has no edges. *)
Lemma item_leaf i : (∀ t, O !! i.1.1 ≠ Some (Ok (OTree t))) →
  (∀ j, rtc item_edge i j → j = i) ∧ ∀ p x, ¬ blob_at i p x.
Proof.
  intros Hn. split.
  - intros j Hr. inversion Hr as [|? k ? (t & _ & _ & Ht & _)]; [done|]. by destruct (Hn t).
  - intros p x (t & _ & Ht & _). by destruct (Hn t).
Qed.

Lemma walk_step_tree tid pfx depth stack out t :
  walk_inv ((tid, pfx, depth) :: stack, out) → depth < MAX_TREE_DEPTH → O !! tid = Some (Ok (OTree t)) →
  walk_inv (foldl (walk_entry pfx depth) (stack, out) (btree_iter (tree_entries t))).
Proof.
  intros [Hst Ho Hk Hd] Hdep Ht. simpl in *.
  destruct (walk_fold_out pfx depth (btree_iter (tree_entries t)) stack out) as (F1 & F2 & F3).
  pose proof (walk_fold_stack pfx depth (btree_iter (tree_entries t)) stack out) as Fs.
  assert (rtc item_edge root (tid, pfx, depth)) as Hroot by (apply Hst; left).
  setoid_rewrite elem_of_btree_iter in F1. setoid_rewrite elem_of_btree_iter in F3.
  setoid_rewrite elem_of_btree_iter in Fs. split.
  - intros i [Hi|(name & x & Hx & ->)]%Fs; [apply Hst; by right|].
    eapply rtc_r; [exact Hroot|]. by exists t, name, x.
  - intros p x Hx. destruct (F1 p x Hx) as [?|(name & Hn & -> & Hv)]; [by apply Ho|].
    right. split; [|done]. eexists. split; [exact Hroot|]. by exists t, name.
  - intros p Hp. by apply F2, Hk.
  - intros j Hj. destruct (Hd j Hj) as [(i & Hi & Hij)|[? Hb]]; [|right; split; [done|]; intros p x Hbl Hv; eapply F2, Hb; done].
    apply elem_of_cons in Hi as [->|Hi]; [|left; exists i; split; [apply Fs; by left|done]].
    inversion Hij as [|? k ? (t' & name & x & Ht' & Hx & ->) Hkj]; subst.
    + right. split; [done|]. intros p x (t' & name & Ht' & Hx & ->) Hv. simpl in *. simplify_eq. by eapply F3.
    + left. simpl in *. simplify_eq. eexists. split; [|exact Hkj]. apply Fs. right. eauto.
Qed.

Lemma walk_step_leaf tid pfx depth stack out :
  walk_inv ((tid, pfx, depth) :: stack, out) → depth < MAX_TREE_DEPTH →
  (∀ t, O !! tid ≠ Some (Ok (OTree t))) → walk_inv (stack, out).
Proof.
  intros [Hst Ho Hk Hd] Hdep Hn. destruct (item_leaf (tid, pfx, depth) Hn) as [Hl1 Hl2]. split; simpl in *; [|done..|].
  - intros i Hi. apply Hst. by right.
  - intros j Hj. destruct (Hd j Hj) as [(i & [->|Hi]%elem_of_cons & Hij)|?]; [|left; by exists i|by right].
    apply Hl1 in Hij as ->. right. split; [done|]. intros p x Hb. by destruct (Hl2 p x).
Qed.

Lemma walk_step_inv s : walk_inv s → match walk_step s with inl s' => walk_inv s' | inr r => walk_post r end.
Proof.
  destruct s as [stack out]. intros Hinv. unfold walk_step. destruct stack as [|[[tid pfx] depth] stack].
  { destruct Hinv as [Hst Ho Hk Hd]. simpl in *. split; [done|].
    assert (∀ j, rtc item_edge root j → j.2 < MAX_TREE_DEPTH ∧
      ∀ p x, blob_at j p x → visible p = true → is_Some (out !! p)) as Hd'.
    { intros j Hj. destruct (Hd j Hj) as [(i & Hi & _)|?]; [by apply not_elem_of_nil in Hi|done]. }
    split; [|intros j Hj; by apply Hd'].
    intros p. split.
    - intros [x Hx]. destruct (Ho p x Hx) as [?|[? ?]]; [left|right]; eauto.
    - intros [?|(Hv & x & j & Hj & Hb)]; [by apply Hk|]. destruct (Hd' j Hj) as [_ Hbl]. by eapply Hbl. }
  assert (rtc item_edge root (tid, pfx, depth)) as Hroot by (apply (wi_stack _ Hinv); left).
  case_decide as Hdep; [exists (tid, pfx, depth); eauto|].
  assert (depth < MAX_TREE_DEPTH) by lia.
  destruct (os_get O tid) as [[obj|]|e] eqn:Hg.
  - apply os_get_Some in Hg.
    destruct obj; try (eapply walk_step_leaf; [done..|]; intros t; by rewrite Hg).
    by eapply walk_step_tree.
  - apply os_get_None in Hg. eapply walk_step_leaf; [done..|]. intros t. by rewrite Hg.
  - apply os_get_Err in Hg. exists (tid, pfx, depth). auto.
Qed.
End loop.

(** ** Termination *)
Definition weight (i : item) : nat := (degree tree_ids O + 2) ^ (MAX_TREE_DEPTH - i.2).
Definition walk_measure (s : list item * gmap string ObjectId) : nat := foldr (λ i n, weight i + n) 0 s.1.

Local Arguments weight : simpl never.

Lemma weight_pos i : 0 < weight i.
Proof. unfold weight. apply Nat.neq_0_lt_0, Nat.pow_nonzero. lia. Qed.

(** Some item at the next depth. *)
Definition ex_item (depth : nat) : item := (id_of_bytes [], "", S depth).

Lemma walk_fold_measure pfx depth es stack out :
  walk_measure (foldl (walk_entry pfx depth) (stack, out) es) ≤
  walk_measure (stack, out) + length es * weight (ex_item depth).
Proof.
  revert stack out. induction es as [|[name [x k]] es IH]; intros stack out; simpl; [lia|].
  destruct k; simpl; (etrans; [apply IH|]); unfold walk_measure; simpl; [lia|].
  change (weight (x, full_path pfx name, S depth)) with (weight (ex_item depth)). lia.
Qed.

Lemma walk_step_measure s s' : walk_step s = inl s' → walk_measure s' < walk_measure s.
Proof.
  destruct s as [[|[[tid pfx] depth] stack] out]; [done|]. unfold walk_step. case_decide as Hdep; [done|].
  pose proof (weight_pos (tid, pfx, depth)) as Hw.
  destruct (os_get O tid) as [[obj|]|e] eqn:Hg; [| |done].
  2: { intros [= <-]. unfold walk_measure. simpl. lia. }
  apply os_get_Some in Hg. destruct obj as [|t| | | | | | | | | | |]; intros [= <-];
    try (unfold walk_measure; simpl; lia).
  pose proof (walk_fold_measure pfx depth (btree_iter (tree_entries t)) stack out) as Hm.
  assert (length (btree_iter (tree_entries t)) ≤ degree tree_ids O) as Hlen.
  { pose proof (degree_bound tree_ids O tid _ Hg) as Hb. simpl in Hb.
    unfold btree_values in Hb. by rewrite !length_fmap in Hb. }
  assert (weight (tid, pfx, depth) = (degree tree_ids O + 2) * weight (ex_item depth)) as Hws.
  { unfold weight. simpl. replace (MAX_TREE_DEPTH - depth) with (S (MAX_TREE_DEPTH - S depth)) by lia.
    by rewrite Nat.pow_succ_r'. }
  pose proof (weight_pos (ex_item depth)) as Hpos.
  apply (Nat.mul_le_mono_r _ _ (weight (ex_item depth))) in Hlen.
  change (walk_measure ((tid, pfx, depth) :: stack, out)) with (weight (tid, pfx, depth) + walk_measure (stack, out)).
  rewrite Hws, Nat.mul_add_distr_r. lia.
Qed.

Lemma size_nat_bound n : N.to_nat n < 2 ^ N.size_nat n.
Proof.
  assert (n < 2 ^ N.size n)%N as Hs by apply N.size_gt.
  assert (N.size n = N.of_nat (N.size_nat n)) as Hsz.
  { clear Hs. destruct n as [|p]; [done|]. induction p as [p IH|p IH|]; [..|done];
      change (N.succ (N.size (N.pos p)) = N.of_nat (S (N.size_nat (N.pos p)))); rewrite IH; symmetry; apply Nat2N.inj_succ. }
  rewrite Hsz in Hs. rewrite <- (N2Nat.id n) in Hs at 1.
  change 2%N with (N.of_nat 2) in Hs. rewrite <- Nat2N.inj_pow in Hs. lia.
Qed.

Lemma walk_tree_spec root prefix out0 :
  walk_post (root, prefix, 0) out0 (walk_tree_filtered root prefix out0).
Proof.
  unfold walk_tree_filtered.
  pose proof (iter_pow_inv walk_step (walk_inv (root, prefix, 0) out0) (walk_post (root, prefix, 0) out0)
    (walk_step_inv _ _) walk_bits ([(root, prefix, 0)], out0)) as Hi.
  destruct (iter_pow _ _ _) as [s|r] eqn:Hr.
  - exfalso. apply (iter_pow_measure walk_step (λ _, True) walk_measure) in Hr as [_ Hm];
      [|intros s1 s2 _ Hs; split; [done|by apply walk_step_measure]|done].
    pose proof (size_nat_bound (N.of_nat (degree tree_ids O + 2) ^ N.of_nat MAX_TREE_DEPTH)) as Hb.
    rewrite <- Nat2N.inj_pow, Nat2N.id in Hb. unfold walk_bits in Hm.
    rewrite <- Nat2N.inj_pow in Hm.
    unfold walk_measure in Hm. simpl foldr in Hm. unfold weight in Hm. simpl snd in Hm. rewrite Nat.sub_0_r in Hm.
    revert Hb Hm. generalize ((degree tree_ids O + 2) ^ MAX_TREE_DEPTH). intros; lia.
  - apply Hi. split; simpl; [|by left|done|].
    + by intros i ->%list_elem_of_singleton.
    + intros j Hj. left. eexists. split; [left|done].
Qed.
End walk.

(** ** Properties *)

(** [C23] The filtered walk of a snapshot's tree terminates on every store. When it
    succeeds it holds exactly the paths of the tree's files that the accessor may see
    (public ones, and those it has a read clearance for), each with the blob of a file
    at that path, and no nested tree is 256 levels deep; it fails only when one is,
    or on an object that cannot be read. *)
Theorem walk_tree_filtered_correct (O : objects) (L : LabelLattice) (rs : LabelRuleSet)
    (a : Accessor) (root : ObjectId) (prefix : string) :
  match walk_tree_filtered O L rs a root prefix ∅ with
  | Ok out =>
      (∀ p x, out !! p = Some x → files O (root, prefix, 0) p x ∧ visible L rs a p = true) ∧
      (∀ p, is_Some (out !! p) ↔ visible L rs a p = true ∧ ∃ x, files O (root, prefix, 0) p x) ∧
      (∀ j, rtc (item_edge O) (root, prefix, 0) j → j.2 < 256)
  | Err e => ∃ j, rtc (item_edge O) (root, prefix, 0) j ∧
      ((256 ≤ j.2 ∧ e = err_too_deep) ∨ O !! j.1.1 = Some (Err e))
  end.
Proof.
  pose proof (walk_tree_spec O L rs a root prefix ∅) as Hw. unfold walk_post in Hw.
  destruct (walk_tree_filtered _ _ _ _ _ _ _) as [out|e]; [|exact Hw].
  destruct Hw as (H1 & H2 & H3). split; [|split; [|exact H3]].
  - intros p x Hx. destruct (H1 p x Hx) as [He|?]; [by rewrite lookup_empty in He|done].
  - intros p. rewrite H2, lookup_empty. split; [|by right]. intros [[? ?]|?]; [done|done].
Qed.
