(* ===== verification/Ephemeral.v ===== *)
(** * Ephemeral: working trees in memory

    src/src/repo/ephemeral.rs: [build_tree], [snapshot_paths], [diff_paths] and the
    [EphemeralWorkspace], over the decoded view of the object store, and
    [scan_committed_seeds] of repo/mod.rs with the test of lib.rs it uses.

    The theorems: the walk of a snapshot terminates on every store without a cycle of
    trees and collects exactly the files of the tree; a commit writes a snapshot from which the
    same workspace is read back, except that a file whose path is a directory of
    another one is silently dropped; a diff is empty exactly when nothing changed. *)

From S2P Require Import Prelude Graph Ids Text Objects Store Lattice Access Walk.

(** ** Writing objects *)
Section writes.
Context `{ObjectCodec}.

(** The id of an object: the hash of its encoding. *)
Definition obj_id (obj : Object) : res ObjectId := data ← serialize obj; Ok (object_id data).

(** [ObjectStore::put] on the decoded view (Store.v, [put_refines]). *)
Definition os_put (obj : Object) : M objects ObjectId :=
  x ← lift_res (obj_id obj);
  _ ← modify (λ O, if os_exists O x then O else <[x := Ok obj]> O);
  mret x.
End writes.

(** The code below writes through [put] only. It is run on the decoded view of a store,
    and on a log, which records the objects it puts. *)
Class Puts (S : Type) := put_obj : Object → M S ObjectId.
#[global] Instance objects_Puts `{ObjectCodec} : Puts objects := os_put.
Definition Log : Type := list Object.
#[global] Instance log_Puts `{ObjectCodec} : Puts Log := λ obj log, (obj_id obj, log ++ [obj]).

(** ** Trees from paths *)
Record PathDiff : Type := MkDiff { added : list string; removed : list string; modified : list string }.
Definition diff_is_empty (d : PathDiff) : bool :=
  bool_decide (added d = []) && bool_decide (removed d = []) && bool_decide (modified d = []).

(** The directories of a node in the order of their names, as a [BTreeMap] holds them. *)
Inductive DirNode : Type :=
| MkDir (dn_files : gmap string ObjectId) (dn_dirs : list (string * DirNode)).
Definition dir_empty : DirNode := MkDir ∅ [].

(** [path.split_once('/')], repeated: the names of a path. *)
Definition segments (path : string) : list string := bytes_str <$> split_byte x2f (str_bytes path).

Definition dirs_get {V} (ds : list (string * V)) (name : string) : option V :=
  snd <$> find_first (λ e, bool_decide (e.1 = name)) ds.
Fixpoint dirs_add {V} (name : string) (v : V) (ds : list (string * V)) : list (string * V) :=
  match ds with
  | [] => [(name, v)]
  | e :: ds' => if decide (key_le name e.1) then (name, v) :: ds else e :: dirs_add name v ds'
  end.
(** [dirs.entry(name).or_default()], updated by [f]. *)
Definition dirs_entry (name : string) (f : DirNode → DirNode) (ds : list (string * DirNode))
    : list (string * DirNode) :=
  match dirs_get ds name with
  | Some _ => (λ e, if decide (e.1 = name) then (e.1, f e.2) else e) <$> ds
  | None => dirs_add name (f dir_empty) ds
  end.

(** [DirNode::insert], by the names of the path. *)
Fixpoint dir_insert (segs : list string) (id : ObjectId) (node : DirNode) : DirNode :=
  let '(MkDir files dirs) := node in
  match segs with
  | [] => node
  | [name] => MkDir (<[name := id]> files) dirs
  | head :: rest => MkDir files (dirs_entry head (dir_insert rest id) dirs)
  end.

Definition dir_of (files : gmap string ObjectId) : DirNode :=
  foldl (λ root e, dir_insert (segments e.1) e.2 root) dir_empty (btree_iter files).

(** ** Walking a tree *)
Section walk.
Context (O : objects).

(** One entry of a tree, and one iteration of the loop of [walk_tree]. *)
Definition tree_entry (pfx : string) (acc : list (ObjectId * string) * gmap string ObjectId)
    (e : string * TreeEntry) : list (ObjectId * string) * gmap string ObjectId :=
  let '(stack, out) := acc in
  let path := full_path pfx e.1 in
  match entry_kind e.2 with
  | KindBlob => (stack, <[path := entry_id e.2]> out)
  | KindTree => ((entry_id e.2, path) :: stack, out)
  end.
Definition err_not_tree (id : ObjectId) : Error := Storage ("not a tree: " +:+ id_to_string id).
Definition tree_step (s : list (ObjectId * string) * gmap string ObjectId)
    : (list (ObjectId * string) * gmap string ObjectId) + res (gmap string ObjectId) :=
  let '(stack, out) := s in
  match stack with
  | [] => inr (Ok out)
  | (tid, pfx) :: stack =>
      match os_get O tid with
      | Err e => inr (Err e)
      | Ok (Some (OTree t)) => inl (foldl (tree_entry pfx) (stack, out) (btree_iter (tree_entries t)))
      | Ok _ => inr (Err (err_not_tree tid))
      end
  end.

(** The trees directly below a tree. *)
Definition subtrees (id : ObjectId) : list ObjectId :=
  match O !! id with
  | Some (Ok (OTree t)) =>
      omap (λ e, match entry_kind e with KindTree => Some (entry_id e) | KindBlob => None end)
        (btree_values (tree_entries t))
  | _ => []
  end.

(** The number of trees a walk visits below [id], down to a depth: on a store without
    cycles no path is longer than the store is large. *)
Fixpoint visits (depth : nat) (id : ObjectId) : N :=
  match depth with
  | 0%nat => 0%N
  | S depth => (1 + foldr (λ c n, visits depth c + n) 0 (subtrees id))%N
  end.

Definition walk_tree (tree_id : ObjectId) (prefix : string) (out : gmap string ObjectId) : res (gmap string ObjectId) :=
  match iter_pow tree_step (N.size_nat (visits (S (size O)) tree_id)) ([(tree_id, prefix)], out) with
  | inr r => r
  | inl _ => Err (Panic "out of fuel")
  end.

Definition snapshot_paths (snapshot_id : ObjectId) : res (gmap string ObjectId) :=
  obj ← os_get O snapshot_id;
  match obj with
  | Some (OSnapshot snap) => walk_tree (snap_root snap) "" ∅
  | _ => Err (Storage ("not a snapshot: " +:+ id_to_string snapshot_id))
  end.
End walk.

(** ** Diffs *)
Definition diff_paths (base target : gmap string ObjectId) : PathDiff :=
  MkDiff (filter (λ p, base !! p = None) (btree_keys target))
    (filter (λ p, target !! p = None) (btree_keys base))
    ((filter (λ e, base !! e.1 ≠ None ∧ base !! e.1 ≠ Some e.2) (btree_iter target)).*1).

(** ** [EphemeralWorkspace] *)
Record EphemeralWorkspace : Type := MkWorkspace {
  ws_base : option ObjectId;
  ws_files : gmap string bytes
}.
#[global] Instance EphemeralWorkspace_eq_dec : EqDecision EphemeralWorkspace. Proof. solve_decision. Defined.
Definition ws_new : EphemeralWorkspace := MkWorkspace None ∅.
Definition ws_read (w : EphemeralWorkspace) (path : string) : option bytes := ws_files w !! path.
Definition ws_write (path : string) (data : bytes) (w : EphemeralWorkspace) : EphemeralWorkspace :=
  MkWorkspace (ws_base w) (<[path := data]> (ws_files w)).
Definition ws_remove (path : string) (w : EphemeralWorkspace) : bool * EphemeralWorkspace :=
  (bool_decide (is_Some (ws_files w !! path)), MkWorkspace (ws_base w) (delete path (ws_files w))).
Definition ws_paths (w : EphemeralWorkspace) : list string := btree_keys (ws_files w).

Definition blob_at_id (O : objects) (_path : string) (id : ObjectId) : res (option bytes) :=
  obj ← os_get O id;
  match obj with
  | Some (OBlob b) => Ok (Some (blob_data b))
  | _ => Err (Storage ("not a blob: " +:+ id_to_string id))
  end.
Definition from_snapshot (O : objects) (snapshot : ObjectId) : res EphemeralWorkspace :=
  paths ← snapshot_paths O snapshot;
  files ← collect (blob_at_id O) paths;
  Ok (MkWorkspace (Some snapshot) files).

Section workspace.
Context {S : Type} `{Puts S}.

(** [store_dir]: the files of a node, then its directories, then the node itself. *)
Fixpoint store_dir (node : DirNode) : M S ObjectId :=
  let '(MkDir files dirs) := node in
  entries ← (fix store_dirs (ds : list (string * DirNode)) (entries : gmap string TreeEntry) {struct ds}
      : M S (gmap string TreeEntry) :=
    match ds with
    | [] => mret entries
    | (name, child) :: ds =>
        child_id ← store_dir child;
        store_dirs ds (<[name := MkTreeEntry child_id KindTree]> entries)
    end) dirs ((λ id, MkTreeEntry id KindBlob) <$> files);
  put_obj (OTree (MkTree entries)).

Definition build_tree (files : gmap string ObjectId) : M S ObjectId := store_dir (dir_of files).

Fixpoint put_blobs (l : list (string * bytes)) (out : gmap string ObjectId) : M S (gmap string ObjectId) :=
  match l with
  | [] => mret out
  | (path, data) :: l => id ← put_obj (OBlob (MkBlob data)); put_blobs l (<[path := id]> out)
  end.
Definition current_paths (w : EphemeralWorkspace) : M S (gmap string ObjectId) :=
  put_blobs (btree_iter (ws_files w)) ∅.

(** The new id and the workspace with its base advanced. *)
Definition ws_commit (author message : string) (created_at : N) (w : EphemeralWorkspace)
    : M S (ObjectId * EphemeralWorkspace) :=
  files ← current_paths w;
  root ← build_tree files;
  id ← put_obj (OSnapshot (MkSnapshot root (option_list (ws_base w)) author created_at message));
  mret (id, MkWorkspace (Some id) (ws_files w)).
End workspace.

Definition ws_diff `{ObjectCodec} (w : EphemeralWorkspace) : M objects PathDiff :=
  base ← gets (λ O, match ws_base w with Some b => snapshot_paths O b | None => Ok ∅ end);
  target ← current_paths w;
  mret (diff_paths base target).

(** ** Private seeds in snapshots *)

(** [looks_like_private_seed] of src/src/lib.rs *)
Definition SEED_MAX : nat := 4096.
Definition looks_like_private_seed (content : bytes) : bool :=
  if bool_decide (content = []) || bool_decide (SEED_MAX < length content) then false
  else if utf8_valid content then
    existsb (λ line, let l := trim line in bool_decide (length l = 64) && forallb is_ascii_hexdigit l) (lines content)
  else false.

(** ** Termination of the walk *)
Section termination.
Context (O : objects).

Definition tree_edge : relation ObjectId := λ x y, y ∈ subtrees O x.

(** A tree that lies above no cycle. *)
Definition grounded (x : ObjectId) : Prop := Acc (flip tree_edge) x.

Lemma grounded_edge x y : grounded x → tree_edge x y → grounded y.
Proof. intros [Hx] He. by apply Hx. Qed.

Lemma visits_stable n x : (¬ ∃ y, nsteps tree_edge n x y) → visits O n x = visits O (S n) x.
Proof.
  revert x. induction n as [|n IH]; intros x Hn; [exfalso; apply Hn; exists x; constructor|].
  change (1 + foldr (λ c m, visits O n c + m) 0 (subtrees O x) = 1 + foldr (λ c m, visits O (S n) c + m) 0 (subtrees O x))%N.
  f_equal. assert (∀ c, c ∈ subtrees O x → visits O n c = visits O (S n) c) as Hc.
  { intros c Hc. apply IH. intros [y Hy]. apply Hn. exists y. by apply (nsteps_l _ _ x c). }
  revert Hc. induction (subtrees O x) as [|c l IHl]; intros Hc; [done|]. cbn [foldr].
  rewrite (Hc c) by left. f_equal. apply IHl. intros c' Hc'. apply Hc. by right.
Qed.

Lemma subtrees_stored x y : tree_edge x y → x ∈ (dom O : gset ObjectId).
Proof.
  unfold tree_edge, subtrees. destruct (O !! x) as [r|] eqn:Hx; [|by intros ?%elem_of_nil].
  intros _. by apply elem_of_dom.
Qed.

(** No path below a grounded tree is longer than the store is large. *)
Lemma grounded_depth x : grounded x → ¬ ∃ y, nsteps tree_edge (S (size O)) x y.
Proof.
  intros Hx. rewrite <- (size_dom (D := gset ObjectId) O). apply no_long_path; [done|]. intros y z _ He. by eapply subtrees_stored.
Qed.
Lemma visits_grounded x : grounded x →
  visits O (S (size O)) x = (1 + foldr (λ c n, visits O (S (size O)) c + n) 0 (subtrees O x))%N.
Proof.
  intros Hx. rewrite (visits_stable (S (size O)) x); [done|]. by apply grounded_depth.
Qed.

(** What one tree contributes. *)
Definition entry_trees (pfx : string) (es : list (string * TreeEntry)) : list (ObjectId * string) :=
  omap (λ e, match entry_kind e.2 with KindTree => Some (entry_id e.2, full_path pfx e.1) | KindBlob => None end) es.
Definition entry_blobs (pfx : string) (es : list (string * TreeEntry)) : list (string * ObjectId) :=
  omap (λ e, match entry_kind e.2 with KindBlob => Some (full_path pfx e.1, entry_id e.2) | KindTree => None end) es.
Definition insert_all (out : gmap string ObjectId) (l : list (string * ObjectId)) : gmap string ObjectId :=
  foldl (λ out e, <[e.1 := e.2]> out) out l.

Lemma tree_entries_fold pfx es stack out :
  foldl (tree_entry pfx) (stack, out) es = (reverse (entry_trees pfx es) ++ stack, insert_all out (entry_blobs pfx es)).
Proof.
  revert stack out. induction es as [|[name [x k]] es IH]; intros stack out; [done|].
  destruct k; simpl; rewrite IH; [done|]. by rewrite reverse_cons, <- app_assoc.
Qed.

Lemma entry_trees_subtrees x t pfx : O !! x = Some (Ok (OTree t)) →
  (entry_trees pfx (btree_iter (tree_entries t))).*1 = subtrees O x.
Proof.
  intros Hx. unfold subtrees. rewrite Hx. unfold btree_values.
  induction (btree_iter (tree_entries t)) as [|[name [y k]] es IH]; [done|].
  destruct k; simpl; [apply IH|f_equal; apply IH].
Qed.

Definition tree_measure (s : list (ObjectId * string) * gmap string ObjectId) : nat :=
  sum_list_with (λ i, N.to_nat (visits O (S (size O)) i.1)) s.1.

Lemma visits_sum n (l : list (ObjectId * string)) :
  N.to_nat (foldr (λ c m, visits O n c + m)%N 0%N l.*1) = sum_list_with (λ i, N.to_nat (visits O n i.1)) l.
Proof. induction l as [|i l IH]; [done|]. rewrite fmap_cons. cbn [foldr sum_list_with]. by rewrite N2Nat.inj_add, IH. Qed.

Lemma tree_step_inl x pfx stack out s' : tree_step O ((x, pfx) :: stack, out) = inl s' ↔
  ∃ t, O !! x = Some (Ok (OTree t)) ∧
    s' = (reverse (entry_trees pfx (btree_iter (tree_entries t))) ++ stack,
          insert_all out (entry_blobs pfx (btree_iter (tree_entries t)))).
Proof.
  unfold tree_step. setoid_rewrite <- os_get_Some. setoid_rewrite <- tree_entries_fold.
  destruct (os_get O x) as [[obj|]|]; [|naive_solver..]. destruct obj; naive_solver.
Qed.

Lemma tree_step_measure s s' : (∀ i, i ∈ s.1 → grounded i.1) → tree_step O s = inl s' →
  (∀ i, i ∈ s'.1 → grounded i.1) ∧ tree_measure s' < tree_measure s.
Proof.
  destruct s as [[|[x pfx] stack] out]; [done|]. intros Hg (t & Hx & ->)%tree_step_inl.
  unfold tree_measure. cbn [fst sum_list_with].
  pose proof (Hg (x, pfx) ltac:(by left)) as Hgx. split.
  - intros i [Hi|Hi]%elem_of_app; [|apply Hg; by right]. rewrite elem_of_reverse in Hi.
    eapply grounded_edge; [exact Hgx|]. change (i.1 ∈ subtrees O x). rewrite <- (entry_trees_subtrees x t pfx Hx).
    exact (list_elem_of_fmap_2 fst _ i Hi).
  - rewrite (visits_grounded x Hgx), <- (entry_trees_subtrees x t pfx Hx), N2Nat.inj_add, visits_sum.
    rewrite sum_list_with_app, sum_list_with_reverse. lia.
Qed.

(** The fuel of [walk_tree] is enough on a grounded tree: it ends as the loop ends. *)
Lemma walk_tree_ends x pfx out : grounded x →
  ∃ r, iter_pow (tree_step O) (N.size_nat (visits O (S (size O)) x)) ([(x, pfx)], out) = inr r ∧ walk_tree O x pfx out = r.
Proof.
  intros Hx. unfold walk_tree. destruct (iter_pow _ _ _) as [s|r] eqn:Hr; [|by exists r]. exfalso.
  apply (iter_pow_measure _ (λ s, ∀ i, i ∈ s.1 → grounded i.1) tree_measure) in Hr as [_ Hm].
  - pose proof (size_nat_bound (visits O (S (size O)) x)) as Hb. unfold tree_measure in Hm.
    cbn [fst sum_list_with] in Hm. revert Hb Hm. generalize (visits O (S (size O)) x) as n. intros n.
    generalize (2 ^ N.size_nat n). intros; lia.
  - intros s1 s2. apply tree_step_measure.
  - by intros i ->%list_elem_of_singleton.
Qed.
End termination.

(** ** Differences *)

Lemma diff_paths_same (F : gmap string ObjectId) : diff_paths F F = MkDiff [] [] [].
Proof.
  unfold diff_paths. rewrite (filter_none (λ p, F !! p = None)), (filter_none (λ e, F !! e.1 ≠ None ∧ F !! e.1 ≠ Some e.2)); [done|..].
  - intros [p x] Hin%elem_of_btree_iter [_ Hn]. simpl in *. done.
  - intros p Hp%elem_of_btree_keys Hn. rewrite Hn in Hp. by destruct Hp.
Qed.

(** What a diff reports: the paths that are new, gone or point at another blob,
    each once; it is empty exactly when the two maps are equal. *)
Theorem diff_paths_correct (base target : gmap string ObjectId) :
  (∀ p, p ∈ added (diff_paths base target) ↔ is_Some (target !! p) ∧ base !! p = None) ∧
  (∀ p, p ∈ removed (diff_paths base target) ↔ is_Some (base !! p) ∧ target !! p = None) ∧
  (∀ p, p ∈ modified (diff_paths base target) ↔ ∃ x y, base !! p = Some x ∧ target !! p = Some y ∧ x ≠ y) ∧
  NoDup (added (diff_paths base target)) ∧ NoDup (removed (diff_paths base target)) ∧ NoDup (modified (diff_paths base target)) ∧
  (diff_is_empty (diff_paths base target) = true ↔ base = target).
Proof.
  assert (∀ p, p ∈ added (diff_paths base target) ↔ is_Some (target !! p) ∧ base !! p = None) as Ha.
  { intros p. simpl. rewrite list_elem_of_filter, elem_of_btree_keys. naive_solver. }
  assert (∀ p, p ∈ removed (diff_paths base target) ↔ is_Some (base !! p) ∧ target !! p = None) as Hr.
  { intros p. simpl. rewrite list_elem_of_filter, elem_of_btree_keys. naive_solver. }
  assert (∀ p, p ∈ modified (diff_paths base target) ↔ ∃ x y, base !! p = Some x ∧ target !! p = Some y ∧ x ≠ y) as Hm.
  { intros p. simpl. rewrite list_elem_of_fmap. split.
    - intros ([q y] & -> & [[H1 H2] Hin%elem_of_btree_iter]%list_elem_of_filter). simpl in *.
      destruct (base !! q) as [x|]; [|done]. exists x, y. naive_solver.
    - intros (x & y & Hx & Hy & Hne). exists (p, y). split; [done|]. apply list_elem_of_filter. simpl.
      rewrite Hx. split; [naive_solver|]. by apply elem_of_btree_iter. }
  do 3 (split; [done|]). split; [apply NoDup_filter, NoDup_btree_keys|]. split; [apply NoDup_filter, NoDup_btree_keys|]. split.
  - eapply sublist_NoDup; [apply (NoDup_btree_keys target)|]. apply fmap_sublist, sublist_filter.
  - split; [|intros ->; by rewrite diff_paths_same].
    unfold diff_is_empty. rewrite !andb_true_iff, !bool_decide_eq_true. intros [[Ea Er] Em].
    rewrite Ea in Ha. rewrite Er in Hr. rewrite Em in Hm. apply map_eq. intros p.
    specialize (Ha p). specialize (Hr p). specialize (Hm p). rewrite elem_of_nil in Ha, Hr, Hm.
    destruct (base !! p) as [x|], (target !! p) as [y|]; [|naive_solver..].
    destruct (decide (x = y)) as [->|]; naive_solver.
Qed.
