(* ===== verification/Worktree.v ===== *)
(** * Worktree: what a commit stores and a checkout reads

    The facts behind the workspace theorems of src/src/repo/ephemeral.rs: paths as
    lists of names, the tree of directories that [build_tree] makes of them, the
    objects a commit writes, and the walk that reads them back. *)

From S2P Require Import Prelude Graph Ids Text Objects Store Lattice Access Walk Ephemeral.

(** ** Paths and names *)
Definition join_bytes (l : list bytes) : bytes :=
  match l with [] => [] | p :: qs => p ++ (qs ≫= λ q, x2f :: q) end.

Lemma join_segments l : join_bytes (split_byte x2f l) = l.
Proof. destruct (split_byte_join x2f l _ eq_refl) as (p & qs & -> & Hl & _). simpl. by rewrite <- Hl. Qed.

Lemma split_nonempty l : split_byte x2f l ≠ [].
Proof. destruct (split_byte_join x2f l _ eq_refl) as (p & qs & -> & _). done. Qed.

Lemma join_app l1 l2 : l1 ≠ [] → l2 ≠ [] → join_bytes (l1 ++ l2) = join_bytes l1 ++ x2f :: join_bytes l2.
Proof.
  destruct l1 as [|p qs]; [done|]. destruct l2 as [|p2 qs2]; [done|]. intros _ _. simpl.
  by rewrite bind_app, <- app_assoc, bind_cons.
Qed.

Lemma split_app a b : split_byte x2f (a ++ x2f :: b) = split_byte x2f a ++ split_byte x2f b.
Proof.
  induction a as [|c a IH]; simpl; [done|]. rewrite IH. case_decide; [done|].
  destruct (split_byte x2f a) as [|p ps] eqn:Hs; [|done]. by apply split_nonempty in Hs.
Qed.

Lemma segments_nonempty p : segments p ≠ [].
Proof. unfold segments. intros Hn%fmap_nil_inv. by apply split_nonempty in Hn. Qed.

Lemma segments_bytes p : str_bytes <$> segments p = split_byte x2f (str_bytes p).
Proof.
  unfold segments. rewrite <- list_fmap_compose. rewrite <- (list_fmap_id (split_byte _ _)) at 2.
  apply list_fmap_ext. intros i x _. apply str_bytes_str.
Qed.

Lemma segments_join p : bytes_str (join_bytes (str_bytes <$> segments p)) = p.
Proof. by rewrite segments_bytes, join_segments, bytes_str_bytes. Qed.

#[global] Instance segments_inj : Inj (=) (=) segments.
Proof. intros p q Heq. by rewrite <- (segments_join p), Heq, segments_join. Qed.

Lemma bytes_str_cat a b : bytes_str (a ++ b) = bytes_str a +:+ bytes_str b.
Proof.
  rewrite <- (bytes_str_bytes (bytes_str a +:+ bytes_str b)). by rewrite str_bytes_app, !str_bytes_str.
Qed.

Lemma segments_slash p r : segments (p +:+ "/" +:+ r) = segments p ++ segments r.
Proof. unfold segments. rewrite !str_bytes_app. simpl. by rewrite split_app, fmap_app. Qed.

(** A path below another one begins with its names. *)
Lemma segments_below p q rest : rest ≠ [] → segments q = segments p ++ rest →
  ∃ r, q = p +:+ "/" +:+ r ∧ rest = segments r.
Proof.
  intros Hr Hq. set (r := bytes_str (join_bytes (str_bytes <$> rest))).
  assert (q = p +:+ "/" +:+ r) as Heq.
  { rewrite <- (segments_join q), Hq, fmap_app, join_app.
    - by rewrite bytes_str_cat, segments_join.
    - intros Hn%fmap_nil_inv. by apply segments_nonempty in Hn.
    - intros Hn%fmap_nil_inv. done. }
  exists r. split; [done|]. rewrite Heq, segments_slash in Hq. by apply app_inv_head in Hq.
Qed.

(** The path at which the walk reports a file, from the names on the way. *)
Fixpoint path_of (pfx : string) (segs : list string) : string :=
  match segs with [] => pfx | name :: segs => path_of (full_path pfx name) segs end.

(** The walk drops a leading slash; otherwise it gives the path back. *)
Definition rooted (p : string) : bool := match str_bytes p with x2f :: _ => true | _ => false end.

Lemma path_of_below a qs : a ≠ [] →
  path_of (bytes_str a) (bytes_str <$> qs) = bytes_str (a ++ (qs ≫= λ q, x2f :: q)).
Proof.
  revert a. induction qs as [|q qs IH]; intros a Ha; simpl; [by rewrite app_nil_r|].
  assert (full_path (bytes_str a) (bytes_str q) = bytes_str (a ++ x2f :: q)) as ->.
  { unfold full_path. rewrite decide_False.
    - by rewrite bytes_str_cat.
    - intros Hn. apply (f_equal str_bytes) in Hn. by rewrite str_bytes_str in Hn. }
  rewrite IH by by destruct a. f_equal. by rewrite <- app_assoc.
Qed.

Lemma path_of_segments p : rooted p = false → path_of "" (segments p) = p.
Proof.
  intros Hr. unfold segments. pose proof (join_segments (str_bytes p)) as Hj.
  destruct (split_byte_join x2f (str_bytes p) _ eq_refl) as (a & qs & Hs & _). rewrite Hs in *.
  simpl in Hj. assert (full_path "" (bytes_str a) = bytes_str a) as Hf by by unfold full_path; rewrite decide_True.
  simpl. rewrite Hf. destruct a as [|b a].
  - destruct qs as [|q qs]; simpl in *.
    + by rewrite <- (bytes_str_bytes p), <- Hj.
    + unfold rooted in Hr. by rewrite <- Hj in Hr.
  - rewrite path_of_below by done. rewrite Hj. apply bytes_str_bytes.
Qed.

(** ** Directories *)

(** The node at a path, and the file at a path. *)
Fixpoint dir_sub (segs : list string) (node : DirNode) : option DirNode :=
  match segs with
  | [] => Some node
  | name :: segs => let '(MkDir _ dirs) := node in c ← dirs_get dirs name; dir_sub segs c
  end.
Fixpoint dir_get (segs : list string) (node : DirNode) : option ObjectId :=
  let '(MkDir files dirs) := node in
  match segs with
  | [] => None
  | [name] => files !! name
  | name :: segs => c ← dirs_get dirs name; dir_get segs c
  end.

Lemma dirs_get_map {V} (f : V → V) n (ds : list (string * V)) m :
  dirs_get ((λ e, if decide (e.1 = n) then (e.1, f e.2) else e) <$> ds) m =
  if decide (m = n) then f <$> dirs_get ds m else dirs_get ds m.
Proof.
  unfold dirs_get. induction ds as [|[k v] ds IH]; simpl; [by case_decide|].
  destruct (decide (k = n)) as [->|Hk]; simpl.
  - destruct (decide (n = m)) as [->|Hm].
    + rewrite bool_decide_true by done. by rewrite decide_True.
    + rewrite bool_decide_false by done. exact IH.
  - destruct (decide (k = m)) as [->|Hm].
    + rewrite bool_decide_true by done. by rewrite decide_False.
    + rewrite bool_decide_false by done. exact IH.
Qed.

Lemma dirs_get_add {V} n (v : V) ds m : dirs_get ds n = None →
  dirs_get (dirs_add n v ds) m = if decide (m = n) then Some v else dirs_get ds m.
Proof.
  unfold dirs_get. intros Hn.
  assert (∀ ds : list (string * V), snd <$> find_first (λ e, bool_decide (e.1 = m)) ((n, v) :: ds) =
    if decide (m = n) then Some v else snd <$> find_first (λ e, bool_decide (e.1 = m)) ds) as Hhead.
  { intros l. simpl. destruct (decide (m = n)) as [->|Hm]; [by rewrite bool_decide_true|by rewrite bool_decide_false]. }
  induction ds as [|[k w] ds IH]; [apply Hhead|]. cbn [dirs_add fst].
  destruct (decide (key_le n k)); [apply Hhead|].
  simpl in *. destruct (decide (k = n)) as [->|Hk]; [by rewrite bool_decide_true in Hn|].
  rewrite bool_decide_false in Hn by done. destruct (decide (k = m)) as [->|Hm].
  - rewrite bool_decide_true by done. by rewrite decide_False.
  - rewrite bool_decide_false by done. by apply IH.
Qed.

Lemma dirs_get_entry n f ds m : dirs_get (dirs_entry n f ds) m =
  if decide (m = n) then Some (f (default dir_empty (dirs_get ds n))) else dirs_get ds m.
Proof.
  unfold dirs_entry. destruct (dirs_get ds n) as [c|] eqn:Hn.
  - rewrite dirs_get_map. case_decide; [subst; by rewrite Hn|done].
  - by apply dirs_get_add.
Qed.

Lemma dir_get_empty segs : dir_get segs dir_empty = None.
Proof. by destruct segs as [|? [|]]. Qed.
Lemma dir_sub_empty segs : dir_sub segs dir_empty = if decide (segs = []) then Some dir_empty else None.
Proof. by destruct segs. Qed.

(** Inserting a file changes the file at its path and no other, and makes a directory
    of every proper prefix of the path. *)
Lemma dir_get_insert s id node s' : s ≠ [] →
  dir_get s' (dir_insert s id node) = if decide (s' = s) then Some id else dir_get s' node.
Proof.
  revert node s'. induction s as [|h r IH]; intros [files dirs] s' Hne; [done|].
  destruct r as [|h2 r].
  - destruct s' as [|m [|m2 r']]; [by rewrite decide_False| |by rewrite decide_False].
    cbn [dir_get dir_insert].
    destruct (decide (m = h)) as [->|Hm].
    + rewrite decide_True by done. apply lookup_insert_eq.
    + rewrite decide_False by congruence. by apply lookup_insert_ne.
  - destruct s' as [|m [|m2 r']]; [by rewrite decide_False|by rewrite decide_False by done|].
    change (dirs_get (dirs_entry h (dir_insert (h2 :: r) id) dirs) m ≫= dir_get (m2 :: r') =
      if decide (m :: m2 :: r' = h :: h2 :: r) then Some id else dirs_get dirs m ≫= dir_get (m2 :: r')).
    rewrite dirs_get_entry. destruct (decide (m = h)) as [->|Hm].
    + cbn [mbind option_bind]. rewrite IH by done. destruct (decide (m2 :: r' = h2 :: r)) as [->|Hr].
      * by rewrite decide_True.
      * rewrite decide_False by congruence. destruct (dirs_get dirs h); [done|]. apply dir_get_empty.
    + by rewrite decide_False by congruence.
Qed.

Lemma dir_sub_insert s id node s' : s ≠ [] →
  is_Some (dir_sub s' (dir_insert s id node)) ↔ is_Some (dir_sub s' node) ∨ ∃ rest, rest ≠ [] ∧ s = s' ++ rest.
Proof.
  revert node s'. induction s as [|h r IH]; intros [files dirs] s' Hne; [done|].
  destruct s' as [|m s']; [simpl; naive_solver|]. destruct r as [|h2 r].
  - simpl. split; [by left|]. intros [?|(rest & Hr & Heq)]; [done|].
    injection Heq as -> Heq. destruct s'; simplify_eq/=; by destruct rest.
  - change (is_Some (dirs_get (dirs_entry h (dir_insert (h2 :: r) id) dirs) m ≫= dir_sub s') ↔
      is_Some (dirs_get dirs m ≫= dir_sub s') ∨ ∃ rest, rest ≠ [] ∧ h :: h2 :: r = (m :: s') ++ rest).
    rewrite dirs_get_entry. destruct (decide (m = h)) as [->|Hm].
    + cbn [mbind option_bind]. rewrite IH by done.
      assert ((∃ rest, rest ≠ [] ∧ h2 :: r = s' ++ rest) ↔ ∃ rest, rest ≠ [] ∧ h :: h2 :: r = (h :: s') ++ rest) as <-.
      { split; intros (rest & Hr & Heq); exists rest; simplify_eq/=; [by rewrite Heq|done]. }
      destruct (dirs_get dirs h) as [c|]; [done|]. cbn [default mbind option_bind]. rewrite dir_sub_empty.
      case_decide as Hs; [subst s'|].
      * split; [|by left]. intros _. right. exists (h2 :: r). done.
      * split; [|naive_solver]. intros [[? ?]|?]; [done|by right].
    + split; [by left|]. intros [?|(rest & _ & Heq)]; [done|]. by injection Heq as -> _.
Qed.

(** *** Well-formed nodes: no two directories of one name *)
Lemma dir_ind (P : DirNode → Prop) :
  (∀ files dirs, (∀ name c, (name, c) ∈ dirs → P c) → P (MkDir files dirs)) → ∀ node, P node.
Proof.
  intros Hstep.
  assert (∀ dirs : list (string * DirNode), Forall (λ e, P e.2) dirs → ∀ name c, (name, c) ∈ dirs → P c) as Hall.
  { intros dirs Hd name c Hin. rewrite Forall_forall in Hd. exact (Hd (name, c) Hin). }
  exact (fix IH node := match node return P node with
    | MkDir files dirs => Hstep files dirs (Hall dirs
        ((fix go l : Forall (λ e, P e.2) l := match l return Forall (λ e, P e.2) l with
          | [] => Forall_nil_2 _
          | e :: l => Forall_cons_2 _ e l (match e return P e.2 with (_, c) => IH c end) (go l)
          end) dirs))
    end).
Qed.

Inductive dir_wf : DirNode → Prop :=
| Dir_wf files dirs : NoDup dirs.*1 → (∀ name c, (name, c) ∈ dirs → dir_wf c) → dir_wf (MkDir files dirs).

Lemma dirs_get_elem {V} (ds : list (string * V)) n c : NoDup ds.*1 → dirs_get ds n = Some c ↔ (n, c) ∈ ds.
Proof.
  unfold dirs_get. induction ds as [|[k v] ds IH]; cbn [fmap list_fmap]; intros Hnd.
  - split; [done|by intros ?%elem_of_nil].
  - apply NoDup_cons in Hnd as [Hk Hnd]. rewrite elem_of_cons. simpl. destruct (decide (k = n)) as [->|Hkn].
    + rewrite bool_decide_true by done. simpl. split; [intros [= ->]; by left|].
      intros [[= ->]|Hin]; [done|]. exfalso. apply Hk. by apply (list_elem_of_fmap_2 fst _ (n, c)).
    + rewrite bool_decide_false by done. rewrite (IH Hnd). naive_solver.
Qed.

Lemma dirs_get_None {V} (ds : list (string * V)) n : dirs_get ds n = None ↔ n ∉ ds.*1.
Proof.
  unfold dirs_get. rewrite fmap_None, find_first_None. split.
  - intros Hall ([k v] & -> & Hin)%list_elem_of_fmap. specialize (Hall (k, v) Hin). by rewrite bool_decide_eq_false in Hall.
  - intros Hn [k v] Hin. apply bool_decide_eq_false. simpl. intros ->. apply Hn. by apply (list_elem_of_fmap_2 fst _ (n, v)).
Qed.

Lemma dirs_entry_NoDup n f ds : NoDup ds.*1 → NoDup (dirs_entry n f ds).*1.
Proof.
  intros Hnd. unfold dirs_entry. destruct (dirs_get ds n) as [c|] eqn:Hn.
  - rewrite <- list_fmap_compose. replace (_ <$> ds) with ds.*1; [done|].
    apply list_fmap_ext. intros i [k v] _. simpl. by case_decide.
  - apply dirs_get_None in Hn. assert (∀ ds : list (string * DirNode), (dirs_add n (f dir_empty) ds).*1 ≡ₚ n :: ds.*1) as Hp.
    { intros l. induction l as [|[k v] l IH]; [done|]. cbn [dirs_add]. case_decide; [done|].
      rewrite !fmap_cons, IH. apply Permutation_swap. }
    rewrite Hp. by apply NoDup_cons.
Qed.

Lemma dir_insert_wf s id node : dir_wf node → dir_wf (dir_insert s id node).
Proof.
  revert node. induction s as [|h r IH]; intros node [files dirs Hnd Hc]; [by constructor|].
  destruct r as [|h2 r]; [by constructor|]. constructor; [by apply dirs_entry_NoDup|].
  intros name c Hin. apply dirs_get_elem in Hin; [|by apply dirs_entry_NoDup].
  rewrite dirs_get_entry in Hin. case_decide; [|apply (Hc name); by apply dirs_get_elem].
  injection Hin as <-. apply IH. destruct (dirs_get dirs h) as [c|] eqn:Hh; simpl.
  - apply (Hc h). by apply dirs_get_elem.
  - constructor; [constructor|]. by intros ? ? ?%elem_of_nil.
Qed.

(** The tree of directories of a map of files. *)
Lemma dir_of_wf F : dir_wf (dir_of F).
Proof.
  unfold dir_of. assert (dir_wf dir_empty) as Hwf by (constructor; [constructor|by intros ? ? ?%elem_of_nil]).
  revert Hwf. generalize dir_empty. induction (btree_iter F) as [|e l IH]; intros node Hwf; [done|].
  by apply IH, dir_insert_wf.
Qed.

Lemma dir_of_get F s x : dir_get s (dir_of F) = Some x ↔ ∃ p, segments p = s ∧ F !! p = Some x.
Proof.
  unfold dir_of. setoid_rewrite <- elem_of_btree_iter. pose proof (NoDup_btree_keys F) as Hnd. unfold btree_keys in Hnd.
  induction (btree_iter F) as [|[p y] l IH] using rev_ind.
  - simpl. rewrite dir_get_empty. split; [done|]. by intros (? & _ & ?%elem_of_nil).
  - rewrite foldl_snoc, dir_get_insert by apply segments_nonempty. rewrite fmap_app in Hnd.
    apply NoDup_app in Hnd as (Hnd & Hp & _). simpl. case_decide as Hs.
    + subst s. split; [intros [= ->]; exists p; split; [done|]; apply elem_of_app; right; by left|].
      intros (q & Hq%(inj segments) & Hin). subst q. apply elem_of_app in Hin as [Hin|Hin].
      * exfalso. apply (Hp p); [by apply (list_elem_of_fmap_2 fst _ (p, x))|by left].
      * apply list_elem_of_singleton in Hin. by injection Hin as ->.
    + rewrite (IH Hnd). split; intros (q & Hq & Hin); exists q; (split; [done|]).
      * apply elem_of_app. by left.
      * apply elem_of_app in Hin as [?|Hin]; [done|]. apply list_elem_of_singleton in Hin. naive_solver.
Qed.

Lemma dir_of_sub F s : is_Some (dir_sub s (dir_of F)) ↔
  s = [] ∨ ∃ q rest, rest ≠ [] ∧ segments q = s ++ rest ∧ is_Some (F !! q).
Proof.
  assert ((∃ q rest, rest ≠ [] ∧ segments q = s ++ rest ∧ is_Some (F !! q)) ↔
    ∃ q x rest, (q, x) ∈ btree_iter F ∧ rest ≠ [] ∧ segments q = s ++ rest) as ->.
  { setoid_rewrite elem_of_btree_iter. unfold is_Some. naive_solver. }
  unfold dir_of. induction (btree_iter F) as [|[p y] l IH] using rev_ind.
  - simpl. rewrite dir_sub_empty. case_decide as Hs; [naive_solver|]. split; [by intros [??]|].
    intros [?|(? & ? & ? & Hin & _)]; [done|]. by apply elem_of_nil in Hin.
  - rewrite foldl_snoc, dir_sub_insert by apply segments_nonempty. rewrite IH.
    setoid_rewrite elem_of_app. setoid_rewrite list_elem_of_singleton. naive_solver.
Qed.

(** The loop over the directories of a node. *)
Section store_dirs.
Context {S : Type} `{Puts S}.
Fixpoint store_dirs (ds : list (string * DirNode)) (entries : gmap string TreeEntry) : M S (gmap string TreeEntry) :=
  match ds with
  | [] => mret entries
  | (name, child) :: ds =>
      child_id ← store_dir child;
      store_dirs ds (<[name := MkTreeEntry child_id KindTree]> entries)
  end.
Lemma store_dir_eq files dirs : store_dir (MkDir files dirs) =
  (entries ← store_dirs dirs ((λ id, MkTreeEntry id KindBlob) <$> files); put_obj (OTree (MkTree entries))).
Proof. reflexivity. Qed.
End store_dirs.

(** ** Writes

    A computation that only puts objects: its result does not depend on the store, it
    puts the objects its log records, in order. *)
Section writes.
Context `{ObjectCodec}.

Definition put_all (objs : list Object) (O : objects) : objects := foldl (λ O obj, (os_put obj O).2) O objs.
Definition emits {A} (m : M objects A) (m' : M Log A) (r : res A) (objs : list Object) : Prop :=
  (∀ O, m O = (r, put_all objs O)) ∧ ∀ l, m' l = (r, l ++ objs).
(** What a computation writes. *)
Definition written {A} (m' : M Log A) : list Object := (m' []).2.

(** No two of the objects share an id, nor does one with something else stored. *)
Definition collision_free (objs : list Object) (O : objects) : Prop :=
  (∀ o1 o2 x, o1 ∈ objs → o2 ∈ objs → obj_id o1 = Ok x → obj_id o2 = Ok x → o1 = o2) ∧
  ∀ o x r, o ∈ objs → obj_id o = Ok x → O !! x = Some r → r = Ok o.
(** All of them are stored. *)
Definition holds (objs : list Object) (O : objects) : Prop :=
  ∀ o x, o ∈ objs → obj_id o = Ok x → O !! x = Some (Ok o).

Lemma emits_ret {A} (a : A) : emits (mret a) (mret a) (Ok a) [].
Proof. split; [done|]. intros l. by rewrite app_nil_r. Qed.
Lemma emits_put obj : emits (put_obj obj) (put_obj obj) (obj_id obj) [obj].
Proof.
  split; [|done]. intros O. unfold put_all, put_obj, objects_Puts, os_put, mbind, M_bind, lift_res. simpl.
  by destruct (obj_id obj).
Qed.
Lemma emits_bind {A C} (m : M objects A) m' (f : A → M objects C) f' a l1 r l2 :
  emits m m' (Ok a) l1 → emits (f a) (f' a) r l2 → emits (m ≫= f) (m' ≫= f') r (l1 ++ l2).
Proof.
  intros [Hm Hm'] [Hf Hf']. unfold emits, mbind, M_bind. split.
  - intros O. rewrite (Hm O), (Hf (put_all l1 O)). unfold put_all. by rewrite foldl_app.
  - intros l. rewrite (Hm' l), (Hf' (l ++ l1)). by rewrite app_assoc.
Qed.
Lemma emits_bind_Err {A C} (m : M objects A) m' (f : A → M objects C) f' e l :
  emits m m' (Err e) l → emits (m ≫= f) (m' ≫= f') (Err e) l.
Proof.
  intros [Hm Hm']. unfold emits, mbind, M_bind. split; [intros O; by rewrite (Hm O)|intros l'; by rewrite (Hm' l')].
Qed.
Lemma emits_map {A C} (m : M objects A) m' (g : A → C) r l :
  emits m m' r l → emits (x ← m; mret (g x)) (x ← m'; mret (g x)) (x ← r; Ok (g x)) l.
Proof.
  intros [Hm Hm']. unfold emits, mbind, M_bind.
  split; [intros O; rewrite (Hm O)|intros l'; rewrite (Hm' l')]; by destruct r.
Qed.
Lemma emits_written {A} (m : M objects A) m' r objs : emits m m' r objs → written m' = objs.
Proof. intros [_ Hm']. unfold written. by rewrite Hm'. Qed.

Lemma os_put_lookup obj O x r : (os_put obj O).2 !! x = Some r →
  O !! x = Some r ∨ (obj_id obj = Ok x ∧ r = Ok obj).
Proof.
  unfold os_put, mbind, M_bind, lift_res, modify. destruct (obj_id obj) as [y|e]; [|by left]. simpl.
  destruct (os_exists O y); [by left|]. intros [[<- <-]|[_ ?]]%lookup_insert_Some; [by right|by left].
Qed.
Lemma os_put_keeps obj O x r : O !! x = Some r → (os_put obj O).2 !! x = Some r.
Proof.
  unfold os_put, mbind, M_bind, lift_res, modify. destruct (obj_id obj) as [y|e]; [|done]. simpl. intros Hx.
  destruct (os_exists O y) eqn:He; [done|]. rewrite lookup_insert_ne; [done|]. intros ->.
  unfold os_exists in He. rewrite Hx in He. by rewrite bool_decide_true in He.
Qed.
Lemma os_put_stores obj O x : obj_id obj = Ok x → is_Some ((os_put obj O).2 !! x).
Proof.
  intros Hx. unfold os_put, mbind, M_bind, lift_res, modify. rewrite Hx. simpl.
  destruct (os_exists O x) eqn:He; [by apply bool_decide_eq_true in He|]. by rewrite lookup_insert_eq.
Qed.

Lemma put_all_keeps objs O : O ⊆ put_all objs O.
Proof.
  revert O. induction objs as [|o objs IH]; intros O; [done|]. etrans; [|apply IH].
  apply map_subseteq_spec. intros x r. apply os_put_keeps.
Qed.

(** After a run without collisions everything it put is there. *)
Lemma put_all_holds objs O : collision_free objs O → holds objs (put_all objs O).
Proof.
  intros [Hd Hs] o x Ho Hx.
  assert (∀ l O', l ⊆ objs → (∀ o r, o ∈ objs → obj_id o = Ok x → O' !! x = Some r → r = Ok o) →
    ∀ o r, o ∈ objs → obj_id o = Ok x → put_all l O' !! x = Some r → r = Ok o) as Hind.
  { induction l as [|o1 l IH]; intros O' Hl HO'; [done|]. apply IH; [set_solver|].
    intros o2 r Ho2 Hx2 [?|[Hx1 ->]]%os_put_lookup; [by eapply HO'|].
    f_equal. apply (Hd o1 o2 x); [set_solver|done..]. }
  apply list_elem_of_split in Ho as Hsplit. destruct Hsplit as (l1 & l2 & Heq).
  assert (is_Some (put_all objs O !! x)) as [r Hr].
  { rewrite Heq. unfold put_all. rewrite foldl_app. cbn [foldl].
    destruct (os_put_stores o (foldl (λ O obj, (os_put obj O).2) O l1) x Hx) as [r Hr]. exists r.
    eapply lookup_weaken; [exact Hr|apply put_all_keeps]. }
  rewrite Hr. f_equal. apply (Hind objs O); [done| |done..]. intros o' r' ? ? ?. by apply (Hs o' x).
Qed.

Lemma holds_app l1 l2 O : holds (l1 ++ l2) O ↔ holds l1 O ∧ holds l2 O.
Proof. unfold holds. setoid_rewrite elem_of_app. naive_solver. Qed.

(** ** The stored form of a directory *)
Inductive stored (O : objects) : DirNode → ObjectId → Prop :=
| Stored files dirs t id : O !! id = Some (Ok (OTree t)) →
    (∀ name, name ∉ dirs.*1 → tree_entries t !! name = (λ x, MkTreeEntry x KindBlob) <$> files !! name) →
    (∀ name c, (name, c) ∈ dirs → ∃ cid, tree_entries t !! name = Some (MkTreeEntry cid KindTree) ∧ stored O c cid) →
    stored O (MkDir files dirs) id.

Definition stores (c : DirNode) : Prop := ∃ r objs, emits (store_dir c) (store_dir c) r objs ∧
  ∀ id, r = Ok id → ∀ O, holds objs O → stored O c id.

Lemma store_dirs_emits ds : (∀ name c, (name, c) ∈ ds → stores c) → NoDup ds.*1 → ∀ entries,
  ∃ r objs, emits (store_dirs ds entries) (store_dirs ds entries) r objs ∧ ∀ out, r = Ok out →
    (∀ name, name ∉ ds.*1 → out !! name = entries !! name) ∧
    ∀ O, holds objs O → ∀ name c, (name, c) ∈ ds →
      ∃ cid, out !! name = Some (MkTreeEntry cid KindTree) ∧ stored O c cid.
Proof.
  induction ds as [|[name c] ds IH]; intros Hc Hnd entries.
  - exists (Ok entries), []. split; [apply emits_ret|]. intros out [= <-]. split; [done|].
    by intros O _ n c ?%elem_of_nil.
  - apply NoDup_cons in Hnd as [Hn Hnd]. destruct (Hc name c ltac:(by left)) as ([cid|e] & l1 & Hem & Hst).
    + destruct (IH (λ n c' Hin, Hc n c' (list_elem_of_further _ _ _ Hin)) Hnd (<[name := MkTreeEntry cid KindTree]> entries))
        as (r & l2 & Hem2 & Hout).
      exists r, (l1 ++ l2). split; [by eapply emits_bind|]. intros out Hr.
      destruct (Hout out Hr) as [Hrest Hin]. cbn [fmap list_fmap]. split.
      * intros n [Hne Hn']%not_elem_of_cons. rewrite (Hrest n Hn'). by apply lookup_insert_ne.
      * intros O [H1 H2]%holds_app n c' [[= -> ->]|Hin']%elem_of_cons; [|by eapply Hin].
        exists cid. rewrite (Hrest name Hn), lookup_insert_eq. split; [done|]. by eapply Hst.
    + exists (Err e), l1. split; [by apply emits_bind_Err|done].
Qed.

Lemma store_dir_emits node : dir_wf node → stores node.
Proof.
  induction node as [files dirs IH] using dir_ind. inversion 1 as [? ? Hnd Hwf]; subst.
  destruct (store_dirs_emits dirs (λ n c Hin, IH n c Hin (Hwf n c Hin)) Hnd ((λ id, MkTreeEntry id KindBlob) <$> files))
    as ([out|e] & l & Hem & Hout); unfold stores; rewrite !store_dir_eq.
  - destruct (Hout out eq_refl) as [Hfiles Hdirs].
    exists (obj_id (OTree (MkTree out))), (l ++ [OTree (MkTree out)]).
    split; [eapply emits_bind; [done|apply emits_put]|]. intros id Hid O [H1 H2]%holds_app.
    apply (Stored O files dirs (MkTree out)); simpl.
    + apply H2; [by left|done].
    + intros name Hn. by rewrite (Hfiles name Hn), lookup_fmap.
    + by apply Hdirs.
  - exists (Err e), l. split; [by apply emits_bind_Err|done].
Qed.
End writes.

(** ** Reading a stored directory back *)

(** The files the walk finds below a node, with the paths it reports. *)
Inductive dir_file : DirNode → string → string → ObjectId → Prop :=
| File_here files dirs pfx name x : name ∉ dirs.*1 → files !! name = Some x →
    dir_file (MkDir files dirs) pfx (full_path pfx name) x
| File_below files dirs pfx name c p x : (name, c) ∈ dirs → dir_file c (full_path pfx name) p x →
    dir_file (MkDir files dirs) pfx p x.

Lemma dir_file_get node pfx p x : dir_wf node →
  dir_file node pfx p x ↔ ∃ segs, dir_get segs node = Some x ∧ dir_sub segs node = None ∧ p = path_of pfx segs.
Proof.
  intros Hwf. split.
  - intros Hf. induction Hf as [files dirs pfx name x Hn Hx|files dirs pfx name c p x Hin _ IH].
    + exists [name]. split; [done|]. split; [|done]. simpl. by apply dirs_get_None in Hn as ->.
    + inversion Hwf as [? ? Hnd Hc]; subst. destruct (IH (Hc _ _ Hin)) as (segs & Hg & Hs & ->).
      apply (dirs_get_elem dirs name c Hnd) in Hin. exists (name :: segs). simpl. rewrite Hin.
      destruct segs as [|s segs]; [by destruct c|]. done.
  - intros (segs & Hg & Hs & ->). revert node pfx Hwf Hg Hs.
    induction segs as [|name segs IH]; intros [files dirs] pfx Hwf Hg Hs; [done|].
    inversion Hwf as [? ? Hnd Hc]; subst. destruct segs as [|s segs].
    + simpl in *. constructor; [|done]. apply dirs_get_None. by destruct (dirs_get dirs name).
    + change (dirs_get dirs name ≫= dir_get (s :: segs) = Some x) in Hg.
      change (dirs_get dirs name ≫= dir_sub (s :: segs) = None) in Hs.
      destruct (dirs_get dirs name) as [c|] eqn:Hd; [|done]. apply dirs_get_elem in Hd; [|done].
      change (path_of pfx (name :: s :: segs)) with (path_of (full_path pfx name) (s :: segs)).
      eapply File_below; [done|]. apply IH; [by eapply Hc|done..].
Qed.

Section reading.
Context (O : objects).

Lemma stored_edge files dirs id y : stored O (MkDir files dirs) id → tree_edge O id y →
  ∃ name c, (name, c) ∈ dirs ∧ stored O c y.
Proof.
  inversion 1 as [? ? t ? Ht Hf Hd]; subst. unfold tree_edge, subtrees. rewrite Ht.
  intros ([z k] & Hv & Hy)%list_elem_of_omap. apply elem_of_btree_values in Hv as [name Hn].
  destruct k; [done|]. injection Hy as ->. destruct (decide (name ∈ dirs.*1)) as [Hin|Hin].
  - apply list_elem_of_fmap in Hin as ([n c] & -> & Hin). destruct (Hd n c Hin) as (cid & Hcid & Hst).
    simpl in Hn. rewrite Hcid in Hn. injection Hn as ->. eauto.
  - rewrite (Hf name Hin) in Hn. by destruct (files !! name).
Qed.

Lemma stored_grounded node id : stored O node id → grounded O id.
Proof.
  revert id. induction node as [files dirs IH] using dir_ind. intros id Hst. constructor. intros y Hy.
  destruct (stored_edge files dirs id y Hst Hy) as (name & c & Hin & Hc). by eapply IH.
Qed.

Lemma insert_all_spec l : ∀ out, (∀ p x, insert_all out l !! p = Some x → out !! p = Some x ∨ (p, x) ∈ l) ∧
  ∀ p, is_Some (out !! p) ∨ (∃ x, (p, x) ∈ l) → is_Some (insert_all out l !! p).
Proof.
  induction l as [|[q y] l IH]; intros out; simpl.
  - split; [by left|]. intros p [?|[x ?%elem_of_nil]]; done.
  - destruct (IH (<[q := y]> out)) as [IH1 IH2]. split.
    + intros p x Hp. destruct (IH1 p x Hp) as [[[<- <-]|[_ ?]]%lookup_insert_Some|?]; [right; by left|by left|right; by right].
    + intros p [Hp|[x [[= -> ->]|Hx]%elem_of_cons]]; apply IH2; [left; apply lookup_insert_is_Some'; by right| |right; eauto].
      left. by rewrite lookup_insert_eq.
Qed.

Definition tsteps : relation (list (ObjectId * string) * gmap string ObjectId) :=
  rtc (λ s s', tree_step O s = inl s').

(** The walk below a stored node, with what it adds to the result. *)
Definition walks (node : DirNode) : Prop := ∀ id pfx stack out, stored O node id →
  ∃ out', tsteps ((id, pfx) :: stack, out) (stack, out') ∧
    (∀ p x, out' !! p = Some x → out !! p = Some x ∨ dir_file node pfx p x) ∧
    ∀ p, is_Some (out !! p) ∨ (∃ x, dir_file node pfx p x) → is_Some (out' !! p).

(** A stack of subtrees, walked one after the other. *)
Lemma walk_stack (dirs : list (string * DirNode)) pfx stack : NoDup dirs.*1 →
  (∀ name c, (name, c) ∈ dirs → walks c) → ∀ (ns : list (string * ObjectId)) out,
  (∀ name id, (name, id) ∈ ns → ∃ c, (name, c) ∈ dirs ∧ stored O c id) →
  ∃ out', tsteps (((λ e, (e.2, full_path pfx e.1)) <$> ns) ++ stack, out) (stack, out') ∧
    (∀ p x, out' !! p = Some x → out !! p = Some x ∨ ∃ name c, (name, c) ∈ dirs ∧ dir_file c (full_path pfx name) p x) ∧
    ∀ p, is_Some (out !! p) ∨ (∃ name id c x, (name, id) ∈ ns ∧ (name, c) ∈ dirs ∧ dir_file c (full_path pfx name) p x) →
      is_Some (out' !! p).
Proof.
  intros Hnd Hw ns. induction ns as [|[name id] ns IH]; intros out Hns.
  - exists out. split; [apply rtc_refl|]. split; [by left|]. intros p [?|(? & ? & ? & ? & ?%elem_of_nil & _)]; done.
  - destruct (Hns name id ltac:(by left)) as (c & Hc & Hst).
    destruct (Hw name c Hc id (full_path pfx name) (((λ e, (e.2, full_path pfx e.1)) <$> ns) ++ stack) out Hst)
      as (out1 & Hr1 & Hs1 & Hk1).
    destruct (IH out1) as (out' & Hr2 & Hs2 & Hk2); [intros n i Hin; apply Hns; by right|].
    exists out'. split; [by etrans|]. split.
    + intros p x [[?|?]%Hs1|?]%Hs2; [by left|right; eauto|by right].
    + intros p [Hp|(n & i & c' & x & [[= -> ->]|Hin]%elem_of_cons & Hc' & Hf)]; apply Hk2; [left; apply Hk1; by left| |right; eauto 10].
      left. apply Hk1. right. exists x. apply (dirs_get_elem dirs name c' Hnd) in Hc'.
      apply (dirs_get_elem dirs name c Hnd) in Hc. rewrite Hc in Hc'. by injection Hc' as <-.
Qed.

(** The subtrees of a list of entries, and the files. *)
Definition tree_names (es : list (string * TreeEntry)) : list (string * ObjectId) :=
  omap (λ e, match entry_kind e.2 with KindTree => Some (e.1, entry_id e.2) | KindBlob => None end) es.

Lemma entry_trees_names pfx es : entry_trees pfx es = (λ e, (e.2, full_path pfx e.1)) <$> tree_names es.
Proof. induction es as [|[n [x k]] es IH]; [done|]. destruct k; simpl; [apply IH|f_equal; apply IH]. Qed.
Lemma elem_of_tree_names es n x : (n, x) ∈ tree_names es ↔ (n, MkTreeEntry x KindTree) ∈ es.
Proof.
  unfold tree_names. rewrite list_elem_of_omap. split.
  - intros ([n' [x' k]] & Hin & Heq). destruct k; simplify_eq/=. done.
  - intros Hin. by exists (n, MkTreeEntry x KindTree).
Qed.
Lemma elem_of_entry_blobs pfx es p x : (p, x) ∈ entry_blobs pfx es ↔
  ∃ n, (n, MkTreeEntry x KindBlob) ∈ es ∧ p = full_path pfx n.
Proof.
  unfold entry_blobs. rewrite list_elem_of_omap. split.
  - intros ([n [x' k]] & Hin & Heq). destruct k; simplify_eq/=. eauto.
  - intros (n & Hin & ->). by exists (n, MkTreeEntry x KindBlob).
Qed.

Lemma walk_stored node : dir_wf node → walks node.
Proof.
  induction node as [files dirs IH] using dir_ind. inversion 1 as [? ? Hnd Hc]; subst.
  intros id pfx stack out Hst. inversion Hst as [? ? t ? Ht Hf Hd]; subst.
  set (es := btree_iter (tree_entries t)).
  assert (∀ n x, (n, MkTreeEntry x KindBlob) ∈ es ↔ n ∉ dirs.*1 ∧ files !! n = Some x) as Hblob.
  { intros n x. unfold es. rewrite elem_of_btree_iter. destruct (decide (n ∈ dirs.*1)) as [Hin|Hin].
    - apply list_elem_of_fmap in Hin as ([n' c] & -> & Hin). destruct (Hd n' c Hin) as (cid & Hcid & _).
      simpl. rewrite Hcid. split; [done|]. intros [Hn _]. destruct Hn. by apply (list_elem_of_fmap_2 fst _ (n', c)).
    - rewrite (Hf n Hin). destruct (files !! n); naive_solver. }
  assert (∀ n x, (n, x) ∈ tree_names es → ∃ c, (n, c) ∈ dirs ∧ stored O c x) as Htree.
  { intros n x. rewrite elem_of_tree_names. unfold es. rewrite elem_of_btree_iter. intros Hn.
    destruct (decide (n ∈ dirs.*1)) as [Hin|Hin].
    - apply list_elem_of_fmap in Hin as ([n' c] & -> & Hin). destruct (Hd n' c Hin) as (cid & Hcid & Hs).
      simpl in Hn. rewrite Hcid in Hn. injection Hn as ->. eauto.
    - rewrite (Hf n Hin) in Hn. by destruct (files !! n). }
  destruct (walk_stack dirs pfx stack Hnd (λ n c Hin, IH n c Hin (Hc n c Hin)) (reverse (tree_names es))
    (insert_all out (entry_blobs pfx es))) as (out' & Hr & Hs & Hk).
  { intros n x Hin. apply Htree. by rewrite elem_of_reverse in Hin. }
  destruct (insert_all_spec (entry_blobs pfx es) out) as [Hi1 Hi2].
  exists out'. split; [|split].
  - eapply rtc_l; [apply tree_step_inl; eauto|]. rewrite entry_trees_names, <- fmap_reverse. exact Hr.
  - intros p x [[?|(n & Hn & ->)%elem_of_entry_blobs]%Hi1|(n & c & Hin & Hf')]%Hs; [by left|right..].
    + apply Hblob in Hn as [??]. by constructor.
    + by eapply File_below.
  - intros p [Hp|[x Hx]]; apply Hk; [left; apply Hi2; by left|]. inversion Hx as [? ? ? n ? Hn Hfile|? ? ? n c ? ? Hin Hbelow]; subst.
    + left. apply Hi2. right. exists x. apply elem_of_entry_blobs. exists n. split; [by apply Hblob|done].
    + right. destruct (Hd n c Hin) as (cid & Hcid & _). exists n, cid, c, x. split; [|done].
      rewrite elem_of_reverse. apply elem_of_tree_names. by apply elem_of_btree_iter.
Qed.

(** A run of the loop and a run of [walk_tree] end alike. *)
Lemma iter_pow_rtc {St Res} (step : St → St + Res) n s : 
  match iter_pow step n s with
  | inl s' => rtc (λ s s', step s = inl s') s s'
  | inr r => ∃ s', rtc (λ s s', step s = inl s') s s' ∧ step s' = inr r
  end.
Proof.
  revert s. induction n as [|n IH]; intros s; simpl.
  - destruct (step s) as [s'|r] eqn:Hs; [by apply rtc_once|]. exists s. split; [apply rtc_refl|done].
  - pose proof (IH s) as H1. destruct (iter_pow step n s) as [s1|r]; [|done].
    pose proof (IH s1) as H2. destruct (iter_pow step n s1) as [s2|r]; [by etrans|].
    destruct H2 as (s' & Hr & Hs). exists s'. split; [by etrans|done].
Qed.
Lemma run_agree {St Res} (step : St → St + Res) s s1 s2 r1 r2 :
  rtc (λ s s', step s = inl s') s s1 → step s1 = inr r1 → rtc (λ s s', step s = inl s') s s2 → step s2 = inr r2 → r1 = r2.
Proof.
  intros Hr1 Hs1. revert s2. induction Hr1 as [s|s s' s1 Hs Hr1 IH]; intros s2 Hr2 Hs2.
  - inversion Hr2 as [|? ? ? Hs']; subst; congruence.
  - inversion Hr2 as [|? s'' ? Hs' Hr2']; subst; [congruence|].
    rewrite Hs in Hs'. injection Hs' as <-. by eapply IH.
Qed.

(** The walk of a stored directory of files. *)
Lemma walk_tree_stored node id : dir_wf node → stored O node id → ∃ out, walk_tree O id "" ∅ = Ok out ∧
  (∀ p x, out !! p = Some x → dir_file node "" p x) ∧ ∀ p x, dir_file node "" p x → is_Some (out !! p).
Proof.
  intros Hwf Hst. destruct (walk_stored node Hwf id "" [] ∅ Hst) as (out & Hr & Hs & Hk).
  destruct (walk_tree_ends O id "" ∅ (stored_grounded node id Hst)) as (r & Hi & Hw). exists out.
  pose proof (iter_pow_rtc (tree_step O) (N.size_nat (visits O (S (size O)) id)) ([(id, "")], ∅)) as Hp.
  rewrite Hi in Hp. destruct Hp as (s' & Hr' & Hs').
  split; [rewrite Hw; symmetry; by eapply (run_agree (tree_step O)); [exact Hr|..]|]. split.
  - intros p x [Hx|?]%Hs; [by rewrite lookup_empty in Hx|done].
  - intros p x Hx. apply Hk. right. eauto.
Qed.

(** ... and of the directory of a map of files: everything but what a directory hides. *)
Definition shadowed {V} (F : gmap string V) (p : string) : Prop := ∃ r, is_Some (F !! (p +:+ "/" +:+ r)).

Lemma walk_tree_files F id : (∀ p, is_Some (F !! p) → rooted p = false) → stored O (dir_of F) id →
  ∃ out, walk_tree O id "" ∅ = Ok out ∧ ∀ p x, out !! p = Some x ↔ F !! p = Some x ∧ ¬ shadowed F p.
Proof.
  intros Hroot Hst. destruct (walk_tree_stored (dir_of F) id (dir_of_wf F) Hst) as (out & Hw & Hs & Hk).
  assert (∀ p x, dir_file (dir_of F) "" p x ↔ F !! p = Some x ∧ ¬ shadowed F p) as Hfile.
  { intros p x. rewrite dir_file_get by apply dir_of_wf. split.
    - intros (segs & (q & <- & Hq)%dir_of_get & Hn & ->). rewrite path_of_segments by (apply Hroot; eauto). split; [done|].
      intros [r Hr]. apply eq_None_not_Some in Hn. apply Hn, dir_of_sub. right.
      exists (q +:+ "/" +:+ r), (segments r). split; [apply segments_nonempty|]. split; [apply segments_slash|done].
    - intros [Hp Hn]. exists (segments p). split; [apply dir_of_get; eauto|].
      split; [|rewrite path_of_segments; [done|apply Hroot; eauto]].
      apply eq_None_not_Some. intros [Hnil|(q & rest & Hr & Hq & HF)]%dir_of_sub; [by apply segments_nonempty in Hnil|].
      destruct (segments_below p q rest Hr Hq) as (r & -> & _). apply Hn. by exists r. }
  exists out. split; [done|]. intros p x. split; [intros Hx; by apply Hfile, Hs|].
  intros Hx. apply Hfile in Hx as Hd. destruct (Hk p x Hd) as [y Hy]. rewrite Hy. f_equal.
  apply Hs, Hfile in Hy as [Hy _]. destruct Hx as [Hx _]. rewrite Hy in Hx. by injection Hx.
Qed.
End reading.

(** ** Commits *)
Section commit.
Context `{ObjectCodec}.

(** Two entries of a list of files under one path agree. *)
Definition functional (l : list (string * bytes)) : Prop := ∀ p d d', (p, d) ∈ l → (p, d') ∈ l → d = d'.

Lemma put_blobs_emits l : functional l → ∀ out, ∃ r objs, emits (put_blobs l out) (put_blobs l out) r objs ∧ ∀ ids, r = Ok ids →
  (∀ p d, (p, d) ∈ l → OBlob (MkBlob d) ∈ objs ∧ ∃ x, obj_id (OBlob (MkBlob d)) = Ok x ∧ ids !! p = Some x) ∧
  ∀ p, p ∉ l.*1 → ids !! p = out !! p.
Proof.
  induction l as [|[p d] l IH]; intros Hfun out.
  - exists (Ok out), []. split; [apply emits_ret|]. intros ids [= <-]. split; [by intros p d ?%elem_of_nil|done].
  - assert (functional l) as Hfun' by (intros q d1 d2 H1 H2; apply (Hfun q); by right).
    destruct (obj_id (OBlob (MkBlob d))) as [x|e] eqn:Hx.
    + destruct (IH Hfun' (<[p := x]> out)) as (r & objs & Hem & Hids). exists r, ([OBlob (MkBlob d)] ++ objs). split.
      { eapply emits_bind; [|done]. rewrite <- Hx. apply emits_put. }
      intros ids Hr. destruct (Hids ids Hr) as [Hin Hout]. cbn [fmap list_fmap]. split.
      * intros p' d' [[= -> ->]|Hin']%elem_of_cons.
        -- split; [by left|]. exists x. split; [done|]. destruct (decide (p ∈ l.*1)) as [Hp|Hp].
           ++ apply list_elem_of_fmap in Hp as ([q d2] & -> & Hp). cbn [fst] in *.
              assert (d2 = d) as -> by (apply (Hfun q); [by right|by left]). destruct (Hin q d Hp) as (_ & y & Hy & Hq). congruence.
           ++ by rewrite (Hout p Hp), lookup_insert_eq.
        -- destruct (Hin p' d' Hin') as [? ?]. split; [by right|done].
      * intros p' [Hne Hp']%not_elem_of_cons. rewrite (Hout p' Hp'). by apply lookup_insert_ne.
    + exists (Err e), [OBlob (MkBlob d)]. split; [|done]. apply emits_bind_Err. rewrite <- Hx. apply emits_put.
Qed.

(** A list that lists the files of a map. *)
Definition lists (l : list (string * bytes)) (F : gmap string bytes) : Prop := ∀ p d, (p, d) ∈ l ↔ F !! p = Some d.
Lemma lists_functional l F : lists l F → functional l.
Proof. intros Hl p d d' H1%Hl H2%Hl. congruence. Qed.
Lemma lists_iter F : lists (btree_iter F) F.
Proof. intros p d. apply elem_of_btree_iter. Qed.

(** The blobs of the files and their ids. *)
Lemma put_files_emits l F : lists l F → ∃ r objs, emits (put_blobs l ∅) (put_blobs l ∅) r objs ∧ ∀ ids, r = Ok ids → ∀ p,
  match F !! p with
  | Some d => OBlob (MkBlob d) ∈ objs ∧ ∃ x, obj_id (OBlob (MkBlob d)) = Ok x ∧ ids !! p = Some x
  | None => ids !! p = None
  end.
Proof.
  intros Hl. destruct (put_blobs_emits l (lists_functional l F Hl) ∅) as (r & objs & Hem & Hids).
  exists r, objs. split; [done|]. intros ids Hr p. destruct (Hids ids Hr) as [Hin Hout].
  destruct (F !! p) as [d|] eqn:Hp; [by apply Hin, Hl|]. rewrite Hout; [done|].
  intros ([q d] & -> & Hq%Hl)%list_elem_of_fmap. simpl in Hp. congruence.
Qed.

Lemma shadowed_ext {V W} (F : gmap string V) (G : gmap string W) p :
  (∀ q, is_Some (F !! q) ↔ is_Some (G !! q)) → shadowed F p ↔ shadowed G p.
Proof. intros Heq. unfold shadowed. by setoid_rewrite Heq. Qed.

(** Both kinds of workspace commit a list of files: blobs, trees, snapshot. *)
Definition commit_files {S} `{Puts S} (l : list (string * bytes)) (base : option ObjectId) (author message : string) (t : N)
    : M S ObjectId :=
  ids ← put_blobs l ∅;
  root ← build_tree ids;
  put_obj (OSnapshot (MkSnapshot root (option_list base) author t message)).

Lemma ws_commit_files {S} `{Puts S} author message t w (s : S) :
  ws_commit author message t w s =
    (id ← commit_files (btree_iter (ws_files w)) (ws_base w) author message t; mret (id, MkWorkspace (Some id) (ws_files w))) s.
Proof.
  unfold ws_commit, commit_files, current_paths, mbind, M_bind. destruct (put_blobs _ _ s) as [[ids|e] s1]; [|done].
  destruct (build_tree ids s1) as [[root|e] s2]; [|done]. by destruct (put_obj _ s2) as [[id|e] s3].
Qed.

(** A commit that succeeds puts the blobs, the trees and the snapshot; where all of
    them are stored, they hold the files. *)
Lemma commit_files_emits l F base author message t id O O' : lists l F →
  commit_files l base author message t O = (Ok id, O') →
  let objs := written (commit_files l base author message t) in
  ∃ ids root, O' = put_all objs O ∧ (∃ k, emits (put_blobs l ∅) (put_blobs l ∅) (Ok ids) k) ∧
    ∀ S, holds objs S →
      S !! id = Some (Ok (OSnapshot (MkSnapshot root (option_list base) author t message))) ∧
      stored S (dir_of ids) root ∧
      ∀ p, match F !! p with
           | Some d => ∃ x, ids !! p = Some x ∧ S !! x = Some (Ok (OBlob (MkBlob d)))
           | None => ids !! p = None
           end.
Proof.
  intros Hl Hc. destruct (put_files_emits l F Hl) as ([ids|e] & l1 & Hem1 & Hids).
  2: { unfold commit_files in Hc. unfold mbind, M_bind in Hc. by rewrite (proj1 Hem1 O) in Hc. }
  destruct (store_dir_emits (dir_of ids) (dir_of_wf ids)) as (rt & l2 & Hem2 & Hst).
  change (emits (build_tree ids) (build_tree ids) rt l2) in Hem2. destruct rt as [root|e].
  2: { unfold commit_files in Hc. unfold mbind, M_bind in Hc. rewrite (proj1 Hem1 O) in Hc. by rewrite (proj1 Hem2 (put_all l1 O)) in Hc. }
  set (snap := MkSnapshot root (option_list base) author t message).
  assert (emits (commit_files l base author message t) (commit_files l base author message t)
    (obj_id (OSnapshot snap)) (l1 ++ l2 ++ [OSnapshot snap])) as Hem.
  { eapply emits_bind; [done|]. eapply emits_bind; [done|]. apply emits_put. }
  rewrite (emits_written _ _ _ _ Hem). rewrite (proj1 Hem O) in Hc. injection Hc as Hx HO.
  exists ids, root. split; [done|]. split; [by exists l1|].
  intros S [H1 [H2 H3]%holds_app]%holds_app. split; [apply H3; [by left|done]|]. split; [by apply Hst|].
  intros p. specialize (Hids ids eq_refl p). destruct (F !! p) as [d|]; [|done].
  destruct Hids as (Hin & y & Hy & Hp). exists y. split; [done|]. by apply H1.
Qed.

(** Reading the blobs at the paths of a tree. *)
Lemma read_blobs (O : objects) (ids out : gmap string ObjectId) (F : gmap string bytes) :
  (∀ p, match F !! p with
        | Some d => ∃ x, ids !! p = Some x ∧ O !! x = Some (Ok (OBlob (MkBlob d)))
        | None => ids !! p = None
        end) →
  (∀ p x, out !! p = Some x ↔ ids !! p = Some x ∧ ¬ shadowed F p) →
  ∃ files, collect (blob_at_id O) out = Ok files ∧ ∀ p d, files !! p = Some d ↔ F !! p = Some d ∧ ¬ shadowed F p.
Proof.
  intros Hids Hout.
  assert (∀ p x, out !! p = Some x → ∃ d, F !! p = Some d ∧ blob_at_id O p x = Ok (Some d)) as Hblob.
    { intros p x [Hx _]%Hout. specialize (Hids p). destruct (F !! p) as [d|]; [|congruence].
      destruct Hids as (y & Hy & Hb). rewrite Hx in Hy. injection Hy as <-. exists d. split; [done|].
      unfold blob_at_id. by rewrite (proj2 (os_get_Some O x _) Hb). }
    destruct (collect_total (blob_at_id O) out) as [files Hf].
    { intros p x Hx. by destruct (Hblob p x Hx) as (d & _ & ->). }
    exists files. split; [done|]. intros p d. pose proof (collect_Ok _ _ _ Hf p) as Hp.
    destruct (out !! p) as [x|] eqn:Hx.
    - destruct (Hblob p x Hx) as (d' & Hd & Hb). rewrite Hb in Hp. injection Hp as <-. apply Hout in Hx as [_ Hs].
      rewrite Hd. naive_solver.
    - rewrite Hp. split; [done|]. intros [Hd Hs]. specialize (Hids p). rewrite Hd in Hids. destruct Hids as (x & Hi & _).
      assert (out !! p = Some x) as Hx' by by apply Hout. congruence.
Qed.

(** After a commit that succeeds on a store where no id it writes is taken by something
    else, opening the snapshot gives the files except the shadowed ones. *)
Lemma commit_files_back l F base author message t id O O' : lists l F →
  (∀ p, is_Some (F !! p) → rooted p = false) →
  commit_files l base author message t O = (Ok id, O') →
  collision_free (written (commit_files l base author message t)) O →
  ∃ ids root out files, O ⊆ O' ∧ (∃ k, emits (put_blobs l ∅) (put_blobs l ∅) (Ok ids) k) ∧
    O' !! id = Some (Ok (OSnapshot (MkSnapshot root (option_list base) author t message))) ∧
    stored O' (dir_of ids) root ∧
    (∀ p, match F !! p with
          | Some d => ∃ x, ids !! p = Some x ∧ O' !! x = Some (Ok (OBlob (MkBlob d)))
          | None => ids !! p = None
          end) ∧
    snapshot_paths O' id = Ok out ∧ from_snapshot O' id = Ok (MkWorkspace (Some id) files) ∧
    (∀ p d, files !! p = Some d ↔ F !! p = Some d ∧ ¬ shadowed F p) ∧
    ((∀ p, is_Some (F !! p) → ¬ shadowed F p) → files = F ∧ out = ids).
Proof.
  intros Hl Hroot Hc Hcol. destruct (commit_files_emits _ F _ _ _ _ _ _ _ Hl Hc) as (ids & root & -> & Hput & Hheld).
  set (objs := written _) in *. destruct (Hheld _ (put_all_holds _ _ Hcol)) as (Hsnap & Hst & Hids).
  clear Hc Hheld. set (O' := put_all objs O) in *.
  assert (∀ q, is_Some (ids !! q) ↔ is_Some (F !! q)) as Hdom.
  { intros q. specialize (Hids q). destruct (F !! q) as [d|].
    - destruct Hids as (x & -> & _). done.
    - rewrite Hids. split; by intros [??]. }
  destruct (walk_tree_files O' ids root) as (out & Hw & Hout); [intros p Hp; by apply Hroot, Hdom|done|].
  setoid_rewrite (shadowed_ext ids F) in Hout; [|done].
  assert (snapshot_paths O' id = Ok out) as Hpaths.
  { unfold snapshot_paths. rewrite (proj2 (os_get_Some O' id _) Hsnap). done. }
  destruct (read_blobs O' ids out F) as (files & Hcol' & Hfiles); [done..|]. exists ids, root, out, files.
  split; [apply put_all_keeps|]. split_and!; [done..| |done|].
  { unfold from_snapshot. rewrite Hpaths. simpl. by rewrite Hcol'. }
  intros Hns. split.
  - apply map_eq. intros p. apply option_eq. intros d. rewrite Hfiles.
    split; [by intros [? _]|]. intros Hd. split; [done|]. apply Hns. eauto.
  - apply map_eq. intros p. apply option_eq. intros x. rewrite Hout. split; [by intros [? _]|].
    intros Hx. split; [done|]. apply Hns, Hdom. eauto.
Qed.

(** A commit can be read back: after a commit that succeeds on a store where no id
    it writes is taken by something else, the snapshot has the workspace's base as its
    parent, and opening it gives the files of the workspace, except those whose path
    is at the same time a directory of another file, which the commit silently drops.
    If there is none, the opened workspace is the committed one, and its diff against
    its base is empty.  (No path starts with a slash, which the walk would drop.) *)
Theorem commit_reads_back (w w' : EphemeralWorkspace) (author message : string) (t : N) (id : ObjectId) (O O' : objects) :
  (∀ p, is_Some (ws_files w !! p) → rooted p = false) →
  ws_commit author message t w O = (Ok (id, w'), O') →
  collision_free (written (ws_commit author message t w)) O →
  O ⊆ O' ∧ w' = MkWorkspace (Some id) (ws_files w) ∧
  (∃ root, O' !! id = Some (Ok (OSnapshot (MkSnapshot root (option_list (ws_base w)) author t message)))) ∧
  (∃ files, from_snapshot O' id = Ok (MkWorkspace (Some id) files) ∧
     ∀ p d, files !! p = Some d ↔ ws_files w !! p = Some d ∧ ¬ shadowed (ws_files w) p) ∧
  ((∀ p, is_Some (ws_files w !! p) → ¬ shadowed (ws_files w) p) →
     from_snapshot O' id = Ok w' ∧ (ws_diff w' O').1 = Ok (MkDiff [] [] [])).
Proof.
  intros Hroot Hc Hcol. rewrite ws_commit_files in Hc. unfold written in Hcol. rewrite ws_commit_files in Hcol.
  unfold mbind, M_bind in Hc, Hcol. destruct (commit_files _ _ author message t O) as [[x|e] O1] eqn:Hf; [|done]. injection Hc as <- <- <-.
  assert (collision_free (written (commit_files (btree_iter (ws_files w)) (ws_base w) author message t)) O) as Hcol'.
  { revert Hcol. unfold written. by destruct (commit_files (S := Log) (btree_iter (ws_files w)) (ws_base w) author message t []) as [[] ?]. }
  destruct (commit_files_back _ _ _ _ _ _ _ _ _ (lists_iter (ws_files w)) Hroot Hf Hcol')
    as (ids & root & out & files & Hsub & (k & Hput) & Hsnap & _ & _ & Hpaths & Hfrom & Hfiles & Hns).
  split; [done|]. split; [done|]. split; [by exists root|]. split; [by exists files|]. intros Hn.
  destruct (Hns Hn) as [-> ->]. split; [done|]. unfold ws_diff. unfold mbind, M_bind, gets. cbn [ws_base]. rewrite Hpaths.
  unfold current_paths. cbn [ws_files]. rewrite (proj1 Hput O1). unfold mret, M_ret. simpl. by rewrite diff_paths_same.
Qed.

End commit.

(** The walk of a snapshot ends on every store in which no tree contains itself: it
    returns what the loop returns, and it fails only on an entry of the tree that is
    not a readable tree.  (A content-addressed store has no cycles; nothing but the
    absence of cycles bounds the depth.) *)
Theorem walk_tree_terminates (O : objects) (x : ObjectId) (pfx : string) (out : gmap string ObjectId) :
  grounded O x →
  (∃ s, tsteps O ([(x, pfx)], out) s ∧ tree_step O s = inr (walk_tree O x pfx out)) ∧
  match walk_tree O x pfx out with
  | Ok _ => True
  | Err e => ∃ y, rtc (tree_edge O) x y ∧
      (O !! y = Some (Err e) ∨ ((∀ t, O !! y ≠ Some (Ok (OTree t))) ∧ e = err_not_tree y))
  end.
Proof.
  intros Hx. destruct (walk_tree_ends O x pfx out Hx) as (r & Hi & ->).
  pose proof (iter_pow_rtc (tree_step O) (N.size_nat (visits O (S (size O)) x)) ([(x, pfx)], out)) as Hp.
  rewrite Hi in Hp. destruct Hp as (s & Hr & Hs). split; [by exists s|].
  assert (∀ i, i ∈ s.1 → rtc (tree_edge O) x i.1) as Hreach.
  { assert (∀ i, i ∈ ([(x, pfx)], out).1 → rtc (tree_edge O) x i.1) as Hstart.
    { by intros i ->%list_elem_of_singleton. }
    clear Hi Hs. induction Hr as [s|s1 s2 s3 Hst _ IH]; [done|]. apply IH. intros i Hin.
    destruct s1 as [[|[y q] stack] o]; [done|]. apply tree_step_inl in Hst as (t & Ht & ->). simpl in *.
    apply elem_of_app in Hin as [Hin|Hin]; [|apply Hstart; by right]. rewrite elem_of_reverse in Hin.
    eapply rtc_r; [apply (Hstart (y, q)); by left|]. change (i.1 ∈ subtrees O y).
    rewrite <- (entry_trees_subtrees O y t q Ht). exact (list_elem_of_fmap_2 fst _ i Hin). }
  destruct r as [o|e]; [done|]. destruct s as [[|[y q] stack] o]; [done|].
  exists y. split; [apply (Hreach (y, q)); by left|]. unfold tree_step in Hs.
  destruct (os_get O y) as [[obj|]|e'] eqn:Hg.
  - apply os_get_Some in Hg. rewrite Hg. destruct obj; naive_solver.
  - apply os_get_None in Hg. rewrite Hg. naive_solver.
  - apply os_get_Err in Hg. rewrite Hg. naive_solver.
Qed.

(** ** On concrete data: two files, one in a directory; and a file that is hidden *)
Section demo.
Definition ex_wid (b : byte) : ObjectId := id_of_bytes [b].
Definition ex_src : Object := OTree (MkTree {[ "b" := MkTreeEntry (ex_wid x01) KindBlob ]}).
Definition ex_top : Object :=
  OTree (MkTree {[ "a" := MkTreeEntry (ex_wid x03) KindTree; "c" := MkTreeEntry (ex_wid x02) KindBlob ]}).
Definition ex_top2 : Object := OTree (MkTree {[ "a" := MkTreeEntry (ex_wid x03) KindTree ]}).
Definition ex_snap (root : byte) : Object := OSnapshot (MkSnapshot (ex_wid root) [] "me" 7 "msg").
Local Instance ex_ws_codec : ObjectCodec := table_codec
  [(OBlob (MkBlob [x41]), [x01]); (OBlob (MkBlob [x42]), [x02]); (ex_src, [x03]); (ex_top, [x04]);
   (ex_snap x04, [x05]); (ex_top2, [x06]); (ex_snap x06, [x07])].

Definition ex_ws : EphemeralWorkspace := ws_write "c" [x42] (ws_write "a/b" [x41] ws_new).
Definition ex_hidden : EphemeralWorkspace := ws_write "a" [x42] (ws_write "a/b" [x41] ws_new).
Definition ex_committed (w : EphemeralWorkspace) : objects := (ws_commit "me" "msg" 7 w (∅ : objects)).2.

Lemma ex_written : written (ws_commit "me" "msg" 7 ex_ws) =
  [OBlob (MkBlob [x41]); OBlob (MkBlob [x42]); ex_src; ex_top; ex_snap x04].
Proof. apply (bool_decide_unpack _). vm_compute. exact I. Qed.

(** Both runs: the workspace is read back, and the hidden file is lost. *)
Lemma commit_reads_back_witness :
  from_snapshot (ex_committed ex_ws) (ex_wid x05) = Ok (MkWorkspace (Some (ex_wid x05)) (ws_files ex_ws)) ∧
  from_snapshot (ex_committed ex_hidden) (ex_wid x07) = Ok (MkWorkspace (Some (ex_wid x07)) {[ "a/b" := [x41] ]}).
Proof.
  split; [|apply (bool_decide_unpack _); vm_compute; exact I].
  assert ((ws_commit "me" "msg" 7 ex_ws (∅ : objects)).1 = Ok (ex_wid x05, MkWorkspace (Some (ex_wid x05)) (ws_files ex_ws))) as Hr
    by (apply (bool_decide_unpack _); vm_compute; exact I).
  assert (∀ p, is_Some (ws_files ex_ws !! p) → p = "c" ∨ p = "a/b") as Hdom.
  { intros p [d Hd]. unfold ex_ws in Hd. cbn [ws_files ws_write ws_new] in Hd.
    apply lookup_insert_Some in Hd as [[<- _]|[_ Hd]]; [by left|]. apply lookup_insert_Some in Hd as [[<- _]|[_ Hd]]; [by right|].
    rewrite lookup_empty in Hd. discriminate Hd. }
  refine (proj1 (proj2 (proj2 (proj2 (proj2 (commit_reads_back ex_ws (MkWorkspace (Some (ex_wid x05)) (ws_files ex_ws))
    "me" "msg" 7 (ex_wid x05) ∅ (ex_committed ex_ws) _ _ _)))) _)).
  - intros p [->| ->]%Hdom; reflexivity.
  - unfold ex_committed. rewrite <- Hr. apply surjective_pairing.
  - rewrite ex_written. split; [|intros o x r _ _ Hx; rewrite lookup_empty in Hx; discriminate Hx].
    intros o1 o2 x H1 H2. rewrite !elem_of_cons, elem_of_nil in H1, H2.
    destruct H1 as [->|[->|[->|[->|[->|[]]]]]], H2 as [->|[->|[->|[->|[->|[]]]]]]; intros Hx Hy;
      first [reflexivity | exfalso; rewrite <- Hx in Hy; vm_compute in Hy; discriminate Hy].
  - intros p [->| ->]%Hdom [r Hr']; apply Hdom in Hr' as [Hr'|Hr']; discriminate Hr'.
Defined.

Lemma walk_tree_terminates_witness : is_Ok (walk_tree (ex_committed ex_ws) (ex_wid x04) "" ∅) = true ∧
  ∃ s, tsteps (ex_committed ex_ws) ([(ex_wid x04, "")], ∅) s ∧
    tree_step (ex_committed ex_ws) s = inr (walk_tree (ex_committed ex_ws) (ex_wid x04) "" ∅).
Proof.
  split; [vm_compute; reflexivity|].
  refine (proj1 (walk_tree_terminates (ex_committed ex_ws) (ex_wid x04) "" ∅ _)).
  constructor. intros y Hy. unfold flip, tree_edge in Hy.
  assert (subtrees (ex_committed ex_ws) (ex_wid x04) = [ex_wid x03]) as He by (apply (bool_decide_unpack _); vm_compute; exact I).
  rewrite He in Hy. apply list_elem_of_singleton in Hy as ->. constructor. intros z Hz. unfold flip, tree_edge in Hz.
  assert (subtrees (ex_committed ex_ws) (ex_wid x03) = []) as He2 by (apply (bool_decide_unpack _); vm_compute; exact I).
  rewrite He2 in Hz. apply elem_of_nil in Hz. destruct Hz.
Defined.
End demo.
