(* ===== verification/Checkout.v ===== *)
(** * Checkout: working directories on disk

    The [DiskWorkspace] of src/src/repo/ephemeral.rs and the export of a snapshot to a
    directory of src/src/repo/materialize.rs.

    The file system is a map from paths without links, as lists of names from the root
    directory, to files, directories and symbolic links; paths are resolved as POSIX
    does, at most 40 links deep.  The order in which a directory is read is a parameter, as
    in [Disk.v], and so are the rules of the ignore crate: a function of the
    bytes of the root [.boleignore].  A file path that ends in a slash is [NotFound] or
    [NotADirectory] here, whatever the system says.

    The theorems are in [CheckoutFacts.v]. *)

From S2P Require Import Prelude Graph Order Ids Text Objects Store Lattice Access Walk Disk Ephemeral Worktree.

(** ** The file system *)
Inductive FsEntry : Type := EFile (data : bytes) | EDir | ELink (target : string).
#[global] Instance FsEntry_eq_dec : EqDecision FsEntry. Proof. solve_decision. Defined.
Abbreviation Fs := (gmap (list string) FsEntry).

Definition entry_at (fs : Fs) (p : list string) : option FsEntry := if decide (p = []) then Some EDir else fs !! p.

(** [Path]: the names from the root directory, empty ones and dots included.
    [base.join(path)] *)
Definition join (base : list string) (path : string) : list string :=
  if rooted path then segments path else base ++ segments path.

(** Empty names and dots at the end of a path are not names to [Path::parent]. *)
Fixpoint strip_dots (l : list string) : list string :=
  match l with c :: l' => if decide (c = "" ∨ c = ".") then strip_dots l' else l | [] => [] end.
Definition parent (p : list string) : option (list string) :=
  match strip_dots (reverse p) with _ :: r => Some (reverse r) | [] => None end.

Definition MAXSYMLINKS : nat := 40.
Definition err_loop : Error := Io (OtherIo "too many levels of symbolic links").

(** The path without links that a path stands for; its last name need not exist.  A link
    in last position is only followed where [follow] says so. *)
Fixpoint resolve (links : nat) (fs : Fs) (follow : bool) (cur path : list string) : res (list string) :=
  (fix go (cur path : list string) {struct path} : res (list string) :=
    match path with
    | [] => Ok cur
    | c :: rest =>
        if decide (c = "" ∨ c = ".") then go cur rest
        else if decide (c = "..") then go (removelast cur) rest
        else
          match fs !! (cur ++ [c]) with
          | Some EDir => go (cur ++ [c]) rest
          | Some (EFile _) => if decide (rest = []) then Ok (cur ++ [c]) else Err (Io NotADirectory)
          | Some (ELink t) =>
              if negb follow && bool_decide (rest = []) then Ok (cur ++ [c])
              else
                match links with
                | 0%nat => Err err_loop
                | S links => resolve links fs follow (if rooted t then [] else cur) (segments t ++ rest)
                end
          | None => if decide (rest = []) then Ok (cur ++ [c]) else Err (Io NotFound)
          end
    end) cur path.
Definition fs_resolve (fs : Fs) (follow : bool) (p : list string) : res (list string) := resolve MAXSYMLINKS fs follow [] p.

(** ** System calls *)

(** [fs::read], [fs::write], [fs::remove_file] *)
Definition fs_read (fs : Fs) (p : list string) : res bytes :=
  q ← fs_resolve fs true p;
  match entry_at fs q with
  | Some (EFile data) => Ok data
  | Some EDir => Err (Io IsADirectory)
  | _ => Err (Io NotFound)
  end.
Definition fs_write (p : list string) (data : bytes) : M Fs () := λ fs,
  match fs_resolve fs true p with
  | Err e => (Err e, fs)
  | Ok q =>
      match entry_at fs q with
      | Some EDir => (Err (Io IsADirectory), fs)
      | _ => (Ok (), <[q := EFile data]> fs)
      end
  end.
Definition fs_remove_file (p : list string) : M Fs () := λ fs,
  match fs_resolve fs false p with
  | Err e => (Err e, fs)
  | Ok q =>
      match entry_at fs q with
      | Some EDir => (Err (Io IsADirectory), fs)
      | Some _ => (Ok (), delete q fs)
      | None => (Err (Io NotFound), fs)
      end
  end.

(** [fs::create_dir_all]: every directory on the way that is not there. *)
Definition is_dir (fs : Fs) (p : list string) : bool :=
  match fs_resolve fs true p with Ok q => bool_decide (entry_at fs q = Some EDir) | Err _ => false end.
Definition mkdir_step (p : list string) : M Fs () := λ fs,
  match fs_resolve fs false p with
  | Err e => (Err e, fs)
  | Ok q =>
      match entry_at fs q with
      | None => (Ok (), <[q := EDir]> fs)
      | Some _ => if is_dir fs p then (Ok (), fs) else (Err (Io (OtherIo "file exists")), fs)
      end
  end.
Definition prefixes (p : list string) : list (list string) := (λ k, take (S k) p) <$> seq 0 (length p).
Definition create_dir_all (p : list string) : M Fs () := M_iter mkdir_step (prefixes p).

(** [fs::read_dir] *)
Definition child_of (p q : list string) : option string :=
  match reverse q with c :: r => if decide (reverse r = p) then Some c else None | [] => None end.
Definition children (fs : Fs) (p : list string) : gmap string FsEntry :=
  list_to_map (omap (λ e, (λ c, (c, e.2)) <$> child_of p e.1) (map_to_list fs)).
Definition fs_read_dir `{ReadDir} (fs : Fs) (p : list string) : res (list (string * FsEntry)) :=
  q ← fs_resolve fs true p;
  match entry_at fs q with
  | Some EDir => Ok (read_dir (children fs q))
  | Some _ => Err (Io NotADirectory)
  | None => Err (Io NotFound)
  end.

(** ** [DiskWorkspace] *)
Record DiskWorkspace : Type := MkDiskWorkspace { dw_root : list string; dw_base : option ObjectId }.
#[global] Instance DiskWorkspace_eq_dec : EqDecision DiskWorkspace. Proof. solve_decision. Defined.
Definition dw_new (root : list string) : DiskWorkspace := MkDiskWorkspace root None.
Definition dw_bound (root : list string) (snapshot : ObjectId) : DiskWorkspace := MkDiskWorkspace root (Some snapshot).

Definition REPO_DIR : string := ".bole".
Definition IGNORE_FILE : string := ".boleignore".

(** [builder.build().matched(path, is_dir).is_ignore()] after [builder.add] of a file, by
    its bytes; the names of the path below the root. *)
Class Gitignore := is_ignored : bytes → list string → bool → bool.

(** [path.strip_prefix(root).to_string_lossy().replace('\\', "/")] *)
Definition slash (b : byte) : byte := if decide (b = x5c) then x2f else b.
Definition rel_string (rel : list string) : string := bytes_str (slash <$> from_utf8_lossy (join_bytes (str_bytes <$> rel))).

Section walk.
Context `{ReadDir, Gitignore}.
Context (fs : Fs) (root : list string).

Definition ignore_matcher : list string → bool → bool :=
  match fs_read fs (root ++ [IGNORE_FILE]) with
  | Ok content => is_ignored content
  | Err _ => λ _ _, false
  end.

(** One entry of a directory: a directory to descend into, a file to take, or nothing. *)
Definition classify (cur : list string) (e : string * FsEntry) : option (list string * option bytes) :=
  let path := cur ++ [e.1] in
  match e.2 with
  | ELink _ => None
  | EDir => if decide (e.1 = REPO_DIR) then None else if ignore_matcher path true then None else Some (path, None)
  | EFile data => if decide (e.1 = REPO_DIR) then None else if ignore_matcher path false then None else Some (path, Some data)
  end.

Section collect.
Context {S : Type} `{Puts S}.
Definition collect_entry (cur : list string) (acc : list (list string) * gmap string ObjectId) (e : string * FsEntry)
    : M S (list (list string) * gmap string ObjectId) :=
  match classify cur e with
  | None => mret acc
  | Some (path, None) => mret (path :: acc.1, acc.2)
  | Some (path, Some data) => id ← put_obj (OBlob (MkBlob data)); mret (acc.1, <[rel_string path := id]> acc.2)
  end.
Fixpoint collect_loop (fuel : nat) (stack : list (list string)) (out : gmap string ObjectId) : M S (gmap string ObjectId) :=
  match fuel with
  | 0%nat => lift_res (Err (Panic "out of fuel"))
  | Datatypes.S fuel =>
      match stack with
      | [] => mret out
      | cur :: stack =>
          es ← lift_res (fs_read_dir fs (root ++ cur));
          '(stack, out) ← M_fold (collect_entry cur) (stack, out) es;
          collect_loop fuel stack out
      end
  end.
Definition dw_collect : M S (gmap string ObjectId) := collect_loop (Datatypes.S (size fs + 1)) [[]] ∅.
End collect.

(** *** Seeds in the working directory *)
Definition SEED_FILE_MAX : N := 4096.
Definition scan_entry (cur : list string) (acc : list (list string) * list (string * bool)) (e : string * FsEntry)
    : list (list string) * list (string * bool) :=
  let path := cur ++ [e.1] in
  match e.2 with
  | ELink _ => acc
  | EDir => if decide (e.1 = REPO_DIR) then acc else if ignore_matcher path true then acc else (path :: acc.1, acc.2)
  | EFile data =>
      if decide (e.1 = REPO_DIR) then acc
      else if (SEED_FILE_MAX <? N.of_nat (length data))%N then acc
      else if looks_like_private_seed data then (acc.1, acc.2 ++ [(rel_string path, ignore_matcher path false)])
      else acc
  end.
Fixpoint scan_loop (fuel : nat) (stack : list (list string)) (out : list (string * bool)) : res (list (string * bool)) :=
  match fuel with
  | 0%nat => Err (Panic "out of fuel")
  | S fuel =>
      match stack with
      | [] => Ok out
      | cur :: stack =>
          es ← fs_read_dir fs (root ++ cur);
          let '(stack, out) := foldl (scan_entry cur) (stack, out) es in
          scan_loop fuel stack out
      end
  end.
Definition seed_cmp (x y : string * bool) : comparison := then_with (key_cmp x.1 y.1) (bool_cmp x.2 y.2).
Definition scan_seed_files : res (list (string * bool)) :=
  out ← scan_loop (S (size fs + 1)) [[]] [];
  Ok (sort_by seed_cmp out).
End walk.

(** *** The [Workspace] methods *)
Definition dw_read (fs : Fs) (w : DiskWorkspace) (path : string) : res (option bytes) :=
  match fs_read fs (join (dw_root w) path) with
  | Ok data => Ok (Some data)
  | Err (Io NotFound) => Ok None
  | Err e => Err e
  end.
Definition dw_write (w : DiskWorkspace) (path : string) (data : bytes) : M Fs () :=
  let abs := join (dw_root w) path in
  _ ← match parent abs with Some p => create_dir_all p | None => mret () end;
  fs_write abs data.
Definition dw_remove (w : DiskWorkspace) (path : string) : M Fs bool := λ fs,
  match fs_remove_file (join (dw_root w) path) fs with
  | (Ok _, fs) => (Ok true, fs)
  | (Err (Io NotFound), fs) => (Ok false, fs)
  | (Err e, fs) => (Err e, fs)
  end.

Section methods.
Context `{ReadDir, Gitignore}.
Context {S : Type} `{Puts S}.
Definition dw_paths (fs : Fs) (w : DiskWorkspace) : M S (list string) :=
  out ← dw_collect fs (dw_root w); mret (btree_keys out).
Definition dw_commit (fs : Fs) (author message : string) (created_at : N) (w : DiskWorkspace) : M S (ObjectId * DiskWorkspace) :=
  files ← dw_collect fs (dw_root w);
  root ← build_tree files;
  id ← put_obj (OSnapshot (MkSnapshot root (option_list (dw_base w)) author created_at message));
  mret (id, MkDiskWorkspace (dw_root w) (Some id)).
End methods.
Definition dw_diff `{ReadDir, Gitignore, ObjectCodec} (fs : Fs) (w : DiskWorkspace) : M objects PathDiff :=
  base ← gets (λ O, match dw_base w with Some b => snapshot_paths O b | None => Ok ∅ end);
  target ← dw_collect fs (dw_root w);
  mret (diff_paths base target).

(** ** Exporting a snapshot *)
Section materialize.
Context (O : objects).

Definition err_kind (id : ObjectId) (what : string) : Error := Storage (id_to_string id +:+ " is not a " +:+ what).
Definition err_missing (id : ObjectId) (what : string) : Error := Storage (what +:+ " not found: " +:+ id_to_string id).

Definition tree_of (tree_id : ObjectId) : res Tree :=
  obj ← os_get O tree_id;
  match obj with
  | Some (OTree t) => Ok t
  | Some _ => Err (err_kind tree_id "tree")
  | None => Err (err_missing tree_id "tree")
  end.
Definition blob_of (id : ObjectId) : res bytes :=
  obj ← os_get O id;
  match obj with
  | Some (OBlob b) => Ok (blob_data b)
  | Some _ => Err (err_kind id "blob")
  | None => Err (err_missing id "blob")
  end.

Fixpoint write_tree (fuel : nat) (tree_id : ObjectId) (base : list string) : M Fs () :=
  match fuel with
  | 0%nat => lift_res (Err (Panic "out of fuel"))
  | S fuel =>
      t ← lift_res (tree_of tree_id);
      M_iter (λ e,
        let path := join base e.1 in
        match entry_kind e.2 with
        | KindBlob => data ← lift_res (blob_of (entry_id e.2)); fs_write path data
        | KindTree => _ ← create_dir_all path; write_tree fuel (entry_id e.2) path
        end) (btree_iter (tree_entries t))
  end.

Definition materialize (snapshot_id : ObjectId) (dest : list string) : M Fs () :=
  _ ← create_dir_all dest;
  obj ← lift_res (os_get O snapshot_id);
  match obj with
  | Some (OSnapshot snap) => write_tree (S (size O)) (snap_root snap) dest
  | Some _ => lift_res (Err (err_kind snapshot_id "snapshot"))
  | None => lift_res (Err (err_missing snapshot_id "snapshot"))
  end.
End materialize.
