(* ===== verification/CheckoutFacts.v ===== *)
(** * CheckoutFacts: what an export writes and what the walk of a directory takes

    Theorems about [Checkout.v].  An export of a snapshot into an empty directory succeeds and
    writes exactly its files; the walk of a working directory ends and takes exactly the
    files below the root that no rule excludes. *)

From S2P Require Import Prelude Graph Order Ids Text Objects Store Lattice Access Walk Disk Ephemeral Worktree Checkout.

(** ** Names *)
Definition proper_name (c : string) : Prop := c ≠ "" ∧ c ≠ "." ∧ c ≠ ".." ∧ x2f ∉ str_bytes c.
#[global] Instance proper_name_dec c : Decision (proper_name c).
Proof. unfold proper_name. apply _. Defined.

Lemma split_whole sep l : sep ∉ l → split_byte sep l = [l].
Proof.
  induction l as [|b l IH]; [done|]. intros [Hb Hl]%not_elem_of_cons. cbn [split_byte]. rewrite decide_False by done. by rewrite IH.
Qed.
Lemma segments_proper c : proper_name c → segments c = [c].
Proof. intros (_ & _ & _ & Hs). unfold segments. rewrite split_whole by done. simpl. by rewrite bytes_str_bytes. Qed.
Lemma proper_not_rooted c : proper_name c → rooted c = false.
Proof.
  intros (_ & _ & _ & Hs). unfold rooted. destruct (str_bytes c) as [|b l]; [done|]. apply not_elem_of_cons in Hs as [Hb _].
  by destruct b.
Qed.
Lemma join_proper base c : proper_name c → join base c = base ++ [c].
Proof. intros Hc. unfold join. by rewrite proper_not_rooted, segments_proper. Qed.

(** ** Well-formed file systems *)
Record fs_wf (fs : Fs) : Prop := {
  fw_root : fs !! [] = None;
  fw_parent p c : is_Some (fs !! (p ++ [c])) → entry_at fs p = Some EDir;
  fw_name p c : is_Some (fs !! (p ++ [c])) → proper_name c
}.
Definition real_dir (fs : Fs) (p : list string) : Prop := entry_at fs p = Some EDir.

Lemma entry_at_snoc fs p c : entry_at fs (p ++ [c]) = fs !! (p ++ [c]).
Proof. unfold entry_at. rewrite decide_False; [done|]. by destruct p. Qed.
Lemma real_dir_prefix fs p q : fs_wf fs → real_dir fs (p ++ q) → real_dir fs p.
Proof.
  intros Hw. induction q as [|c q IH] using rev_ind; [by rewrite app_nil_r|]. rewrite app_assoc. unfold real_dir at 1.
  rewrite entry_at_snoc. intros He. apply IH. apply (fw_parent fs Hw _ c). by rewrite He.
Qed.
Lemma real_dir_names fs p : fs_wf fs → real_dir fs p → Forall proper_name p.
Proof.
  intros Hw. induction p as [|c p IH] using rev_ind; [constructor|]. intros Hd. apply Forall_app. split.
  - apply IH. by eapply real_dir_prefix.
  - constructor; [|constructor]. apply (fw_name fs Hw p c). unfold real_dir in Hd. rewrite entry_at_snoc in Hd. by rewrite Hd.
Qed.
(** Nothing lies below what is not a directory. *)
Lemma below_dir fs p q : fs_wf fs → q ≠ [] → is_Some (fs !! (p ++ q)) → real_dir fs p.
Proof.
  intros Hw. destruct q as [|c q] using rev_ind; [done|]. intros _ Hs. rewrite app_assoc in Hs.
  apply (real_dir_prefix fs p q Hw). by apply (fw_parent fs Hw _ c).
Qed.

(** ** Resolution of paths without links *)
Lemma resolve_cons links fs follow cur c rest : proper_name c →
  resolve links fs follow cur (c :: rest) =
    match fs !! (cur ++ [c]) with
    | Some EDir => resolve links fs follow (cur ++ [c]) rest
    | Some (EFile _) => if decide (rest = []) then Ok (cur ++ [c]) else Err (Io NotADirectory)
    | Some (ELink t) =>
        if negb follow && bool_decide (rest = []) then Ok (cur ++ [c])
        else
          match links with
          | 0%nat => Err err_loop
          | S links => resolve links fs follow (if rooted t then [] else cur) (segments t ++ rest)
          end
    | None => if decide (rest = []) then Ok (cur ++ [c]) else Err (Io NotFound)
    end.
Proof.
  intros (H1 & H2 & H3 & _). destruct links; cbn [resolve]; rewrite decide_False by naive_solver; by rewrite decide_False by done.
Qed.
Lemma resolve_nil links fs follow cur : resolve links fs follow cur [] = Ok cur.
Proof. by destruct links. Qed.
Lemma resolve_dirs links fs follow cur p rest : fs_wf fs → real_dir fs (cur ++ p) →
  resolve links fs follow cur (p ++ rest) = resolve links fs follow (cur ++ p) rest.
Proof.
  intros Hw. revert cur. induction p as [|c p IH]; intros cur Hd; [by rewrite app_nil_r|].
  assert (real_dir fs (cur ++ [c])) as Hc by (apply (real_dir_prefix fs _ p Hw); by rewrite <- app_assoc).
  pose proof (real_dir_names fs _ Hw Hc) as [_ Hn%Forall_inv]%Forall_app.
  cbn [app]. rewrite resolve_cons by done. unfold real_dir in Hc. rewrite entry_at_snoc in Hc. rewrite Hc.
  rewrite IH; rewrite <- app_assoc; done.
Qed.
Lemma resolve_real fs follow p : fs_wf fs → real_dir fs p → fs_resolve fs follow p = Ok p.
Proof.
  intros Hw Hd. unfold fs_resolve. rewrite <- (app_nil_r p) at 1. rewrite (resolve_dirs _ fs follow [] p [] Hw Hd). apply resolve_nil.
Qed.
(** A name in a directory that is no link. *)
Lemma resolve_entry fs follow p c : fs_wf fs → real_dir fs p → proper_name c →
  (∀ t, fs !! (p ++ [c]) ≠ Some (ELink t)) → fs_resolve fs follow (p ++ [c]) = Ok (p ++ [c]).
Proof.
  intros Hw Hd Hc Hl. unfold fs_resolve. rewrite (resolve_dirs _ fs follow [] p [c] Hw Hd). simpl app at 1.
  rewrite resolve_cons by done. destruct (fs !! (p ++ [c])) as [[| |t]|]; [done|apply resolve_nil|by destruct (Hl t)|done].
Qed.

(** ** Changes *)
Lemma fs_wf_insert fs p c e : fs_wf fs → real_dir fs p → proper_name c →
  (∀ q d, is_Some (fs !! ((p ++ [c]) ++ q ++ [d])) → e = EDir) → fs_wf (<[p ++ [c] := e]> fs).
Proof.
  intros Hw Hd Hc Hbelow. split.
  - rewrite lookup_insert_ne by (by destruct p). apply (fw_root fs Hw).
  - intros q d. destruct (decide (q ++ [d] = p ++ [c])) as [[-> ->]%app_inj_tail|Hne].
    + intros _. unfold entry_at. case_decide; [done|]. rewrite lookup_insert_ne by (intros He%(f_equal length); rewrite length_app in He; simpl in He; lia).
      unfold real_dir, entry_at in Hd. by rewrite decide_False in Hd.
    + rewrite lookup_insert_ne by done. intros Hs. destruct (decide (q = p ++ [c])) as [->|Hq].
      * rewrite entry_at_snoc, lookup_insert_eq. f_equal. apply (Hbelow [] d). done.
      * pose proof (fw_parent fs Hw q d Hs) as He. unfold entry_at in *. case_decide; [done|]. by rewrite lookup_insert_ne.
  - intros q d. destruct (decide (q ++ [d] = p ++ [c])) as [[-> ->]%app_inj_tail|Hne]; [done|]. rewrite lookup_insert_ne by done.
    apply (fw_name fs Hw).
Qed.

Lemma fs_write_new fs p c data : fs_wf fs → real_dir fs p → proper_name c → fs !! (p ++ [c]) = None →
  fs_write (p ++ [c]) data fs = (Ok (), <[p ++ [c] := EFile data]> fs).
Proof.
  intros Hw Hd Hc Hn. unfold fs_write. rewrite resolve_entry by (done || by rewrite Hn). by rewrite entry_at_snoc, Hn.
Qed.

Lemma mkdir_real fs p : fs_wf fs → real_dir fs p → mkdir_step p fs = (Ok (), fs).
Proof.
  intros Hw Hd. unfold mkdir_step. rewrite resolve_real by done. pose proof Hd as He. unfold real_dir in He. rewrite He.
  unfold is_dir. rewrite resolve_real by done. by rewrite bool_decide_eq_true_2.
Qed.
Lemma M_iter_noop {S A} (f : A → M S ()) l s : (∀ x, x ∈ l → f x s = (Ok (), s)) → M_iter f l s = (Ok (), s).
Proof.
  induction l as [|x l IH]; intros Hf; [done|]. cbn [M_iter]. unfold mbind, M_bind. rewrite (Hf x) by left. apply IH.
  intros y Hy. apply Hf. by right.
Qed.
Lemma M_iter_app {S A} (f : A → M S ()) l1 l2 s : M_iter f (l1 ++ l2) s = (M_iter f l1 ≫= λ _, M_iter f l2) s.
Proof.
  revert s. induction l1 as [|x l1 IH]; intros s; [done|]. cbn [M_iter app]. unfold mbind, M_bind in *.
  destruct (f x s) as [[[]|e] s1]; [apply IH|done].
Qed.
Lemma create_dir_all_real fs p : fs_wf fs → real_dir fs p → create_dir_all p fs = (Ok (), fs).
Proof.
  intros Hw Hd. unfold create_dir_all. apply M_iter_noop. intros q (k & -> & _)%list_elem_of_fmap. apply mkdir_real; [done|].
  apply (real_dir_prefix fs _ (drop (S k) p) Hw). by rewrite take_drop.
Qed.
Lemma create_dir_all_snoc p c fs : create_dir_all (p ++ [c]) fs = (create_dir_all p ≫= λ _, mkdir_step (p ++ [c])) fs.
Proof.
  unfold create_dir_all. assert (prefixes (p ++ [c]) = prefixes p ++ [p ++ [c]]) as ->.
  { unfold prefixes. rewrite length_app. simpl. rewrite seq_app, fmap_app. f_equal.
    - apply list_fmap_ext. intros i k Hk. apply lookup_seq in Hk as [-> Hk]. simpl. by rewrite take_app_le by lia.
    - simpl. f_equal. apply take_ge. rewrite length_app. simpl. lia. }
  rewrite M_iter_app. unfold mbind, M_bind. destruct (M_iter mkdir_step (prefixes p) fs) as [[[]|e] s1]; [|done].
  cbn [M_iter]. unfold mbind, M_bind. by destruct (mkdir_step (p ++ [c]) s1) as [[[]|e] s2].
Qed.
Lemma create_dir_all_new fs p c : fs_wf fs → real_dir fs p → proper_name c → fs !! (p ++ [c]) = None →
  create_dir_all (p ++ [c]) fs = (Ok (), <[p ++ [c] := EDir]> fs).
Proof.
  intros Hw Hd Hc Hn. rewrite create_dir_all_snoc. unfold mbind, M_bind. rewrite create_dir_all_real by done. unfold mkdir_step.
  rewrite resolve_entry by (done || by rewrite Hn). by rewrite entry_at_snoc, Hn.
Qed.

(** ** Exports *)
Section export.
Context (O : objects).

(** The files of a tree. *)
Inductive tree_file : ObjectId → list string → bytes → Prop :=
| tree_blob x t n y d : O !! x = Some (Ok (OTree t)) → tree_entries t !! n = Some (MkTreeEntry y KindBlob) →
    O !! y = Some (Ok (OBlob (MkBlob d))) → tree_file x [n] d
| tree_below x t n y rel d : O !! x = Some (Ok (OTree t)) → tree_entries t !! n = Some (MkTreeEntry y KindTree) →
    tree_file y rel d → tree_file x (n :: rel) d.
Definition entry_file (e : TreeEntry) (rel : list string) (d : bytes) : Prop :=
  match entry_kind e with
  | KindBlob => rel = [] ∧ O !! entry_id e = Some (Ok (OBlob (MkBlob d)))
  | KindTree => tree_file (entry_id e) rel d
  end.

(** A tree that can be exported: everything below it is stored, under proper names. *)
Record exportable (x : ObjectId) : Prop := {
  xp_tree y : rtc (tree_edge O) x y → ∃ t, O !! y = Some (Ok (OTree t)) ∧
    ∀ n e, tree_entries t !! n = Some e → proper_name n ∧
      (entry_kind e = KindBlob → ∃ d, O !! entry_id e = Some (Ok (OBlob (MkBlob d))))
}.

Lemma tree_file_cases x t rel d : O !! x = Some (Ok (OTree t)) →
  tree_file x rel d ↔ ∃ n e r, rel = n :: r ∧ tree_entries t !! n = Some e ∧ entry_file e r d.
Proof.
  intros Ht. split.
  - inversion 1 as [? t' n y ? Ht' Hn Hy|? t' n y r ? Ht' Hn Hf]; subst; rewrite Ht in Ht'; injection Ht' as <-.
    + exists n, (MkTreeEntry y KindBlob), []. done.
    + exists n, (MkTreeEntry y KindTree), r. done.
  - intros (n & [y []] & r & -> & Hn & Hf); unfold entry_file in Hf; simpl in Hf.
    + destruct Hf as [-> Hy]. by eapply tree_blob.
    + by eapply tree_below.
Qed.
Lemma entry_edge x t n y : O !! x = Some (Ok (OTree t)) → tree_entries t !! n = Some (MkTreeEntry y KindTree) → tree_edge O x y.
Proof.
  intros Ht Hn. unfold tree_edge, subtrees. rewrite Ht. apply list_elem_of_omap. exists (MkTreeEntry y KindTree). split; [|done].
  unfold btree_values. apply list_elem_of_fmap. exists (n, MkTreeEntry y KindTree). split; [done|]. by apply elem_of_btree_iter.
Qed.
Lemma exportable_edge x y : exportable x → tree_edge O x y → exportable y.
Proof. intros [Hx] He. split. intros z Hz. apply Hx. by eapply rtc_l. Qed.

(** What an export into an empty directory leaves. *)
Record exported_to (base : list string) (files : list string → bytes → Prop) (fs fs' : Fs) : Prop := {
  ex_wf : fs_wf fs';
  ex_frame p : (∀ n r, p ≠ base ++ n :: r) → fs' !! p = fs !! p;
  ex_files rel d : rel ≠ [] → fs' !! (base ++ rel) = Some (EFile d) ↔ files rel d;
  ex_links rel t : rel ≠ [] → fs' !! (base ++ rel) ≠ Some (ELink t)
}.

Lemma frame_real base fs fs' : real_dir fs base → (∀ p, (∀ n r, p ≠ base ++ n :: r) → fs' !! p = fs !! p) → real_dir fs' base.
Proof.
  unfold real_dir, entry_at. case_decide; [done|]. intros Hd Hf. rewrite Hf; [done|]. intros n r Hp.
  apply (f_equal length) in Hp. rewrite length_app in Hp. simpl in Hp. lia.
Qed.

Section entries.
Context (step : string * TreeEntry → M Fs ()) (base : list string).
Definition step_ok (e : string * TreeEntry) : Prop := ∀ fs, fs_wf fs → real_dir fs base → proper_name e.1 →
  (∀ r, fs !! (base ++ e.1 :: r) = None) →
  ∃ fs', step e fs = (Ok (), fs') ∧ fs_wf fs' ∧ (∀ p, (∀ r, p ≠ base ++ e.1 :: r) → fs' !! p = fs !! p) ∧
    (∀ r d, fs' !! (base ++ e.1 :: r) = Some (EFile d) ↔ entry_file e.2 r d) ∧ ∀ r t, fs' !! (base ++ e.1 :: r) ≠ Some (ELink t).

Lemma write_entries es : NoDup es.*1 → (∀ e, e ∈ es → step_ok e ∧ proper_name e.1) → ∀ fs, fs_wf fs → real_dir fs base →
  (∀ n r, n ∈ es.*1 → fs !! (base ++ n :: r) = None) →
  ∃ fs', M_iter step es fs = (Ok (), fs') ∧ fs_wf fs' ∧
    (∀ p, (∀ n r, n ∈ es.*1 → p ≠ base ++ n :: r) → fs' !! p = fs !! p) ∧
    ∀ n e, (n, e) ∈ es → (∀ r d, fs' !! (base ++ n :: r) = Some (EFile d) ↔ entry_file e r d) ∧
      ∀ r t, fs' !! (base ++ n :: r) ≠ Some (ELink t).
Proof.
  induction es as [|[n e] es IH]; intros Hnd Hok fs Hw Hd He.
  { exists fs. split_and!; [done..|]. by intros n e ?%elem_of_nil. }
  apply NoDup_cons in Hnd as [Hn Hnd]. destruct (Hok (n, e) ltac:(by left)) as [Hs Hp].
  destruct (Hs fs Hw Hd Hp) as (fs1 & Hr & Hw1 & Hf1 & Hfiles1 & Hl1); [intros r; apply He; by left|]. cbn [fst snd] in *.
  assert (∀ m r r', m ≠ n → base ++ m :: r ≠ base ++ n :: r') as Hne by (intros m r r' Hm [= ?]%app_inv_head; done).
  destruct (IH Hnd (λ e' Hin, Hok e' (list_elem_of_further _ _ _ Hin)) fs1 Hw1) as (fs2 & Hr2 & Hw2 & Hf2 & Hall2).
  { apply (frame_real base fs); [done|]. intros p Hp'. apply Hf1. intros r. apply Hp'. }
  { intros m r Hm. rewrite Hf1; [apply He; by right|]. intros r'. apply Hne. by intros ->. }
  exists fs2. split; [cbn [M_iter]; unfold mbind, M_bind; by rewrite Hr|]. split; [done|].
  assert (∀ r, fs2 !! (base ++ n :: r) = fs1 !! (base ++ n :: r)) as Hn2.
  { intros r. apply Hf2. intros m r' Hm Heq. apply app_inv_head in Heq. injection Heq as -> _. done. }
  split.
  - intros p Hp'. rewrite Hf2, Hf1; [done|intros r; apply Hp'; by left|]. intros m r Hm. apply Hp'. by right.
  - intros m e' [[= -> ->]|Hin]%elem_of_cons; [|by apply Hall2]. split; intros; rewrite Hn2; [apply Hfiles1|apply Hl1].
Qed.
End entries.

Lemma write_tree_spec fuel : ∀ x, (¬ ∃ y, nsteps (tree_edge O) fuel x y) → exportable x → ∀ fs base, fs_wf fs → real_dir fs base →
  (∀ n r, fs !! (base ++ n :: r) = None) →
  ∃ fs', write_tree O fuel x base fs = (Ok (), fs') ∧ exported_to base (tree_file x) fs fs'.
Proof.
  induction fuel as [|fuel IH]; intros x Hn Hx fs base Hw Hd He; [destruct Hn; exists x; constructor|].
  destruct (xp_tree x Hx x) as (t & Ht & Hent); [done|]. cbn [write_tree]. rewrite lift_bind.
  unfold tree_of. rewrite (proj2 (os_get_Some O x _) Ht). cbn [mbind result_bind].
  set (step := λ e : string * TreeEntry, _).
  destruct (write_entries step base (btree_iter (tree_entries t)) (NoDup_btree_keys _)) with (fs := fs) as (fs' & Hr & Hw' & Hf & Hall); try done.
  - intros [n e] Hin%elem_of_btree_iter. destruct (Hent n e Hin) as [Hp Hblob]. split; [|done]. intros fs0 Hw0 Hd0 _ He0.
    cbn [fst snd] in *. unfold step. cbn [fst snd]. rewrite join_proper by done. pose proof (He0 []) as Hnew.
    destruct e as [y []]; cbn [entry_kind entry_id] in *.
    + destruct (Hblob eq_refl) as [d Hy]. rewrite lift_bind. unfold blob_of. rewrite (proj2 (os_get_Some O y _) Hy). cbn [mbind result_bind blob_data].
      rewrite fs_write_new by done. eexists. split; [done|]. split.
      { apply fs_wf_insert; [done..|]. intros q c [e Hq]. rewrite <- app_assoc in Hq. simpl in Hq. by rewrite He0 in Hq. }
      split; [intros p Hp'; apply lookup_insert_ne; intros <-; by apply (Hp' [])|]. unfold entry_file. cbn [entry_kind entry_id]. split.
      * intros r d'. destruct r as [|c r].
        -- rewrite lookup_insert_eq, Hy. naive_solver.
        -- rewrite lookup_insert_ne by (intros [=]%app_inv_head). rewrite He0. naive_solver.
      * intros r t'. destruct r as [|c r]; [by rewrite lookup_insert_eq|]. rewrite lookup_insert_ne by (intros [=]%app_inv_head). by rewrite He0.
    + unfold mbind at 1, M_bind at 1. rewrite create_dir_all_new by done.
      assert (fs_wf (<[base ++ [n] := EDir]> fs0)) as Hw1 by by apply fs_wf_insert.
      assert (tree_edge O x y) as Hxy by by eapply entry_edge.
      destruct (IH y) with (fs := <[base ++ [n] := EDir]> fs0) (base := base ++ [n]) as (fs2 & Hr2 & [Hw2 Hf2 Hfiles2 Hl2]); [|by eapply exportable_edge|done|..].
      { intros [z Hz]. apply Hn. exists z. by econstructor. }
      { unfold real_dir. by rewrite entry_at_snoc, lookup_insert_eq. }
      { intros m r. rewrite <- app_assoc, lookup_insert_ne by (intros [=]%app_inv_head). apply He0. }
      exists fs2. split; [done|]. split; [done|].
      assert (fs2 !! (base ++ [n]) = Some EDir) as Hdir.
      { rewrite Hf2, lookup_insert_eq; [done|]. intros m r Heq. rewrite <- app_assoc in Heq. by apply app_inv_head in Heq. }
      split.
      { intros p Hp'. rewrite Hf2, lookup_insert_ne; [done|intros <-; by apply (Hp' [])|]. intros m r ->. apply (Hp' (m :: r)). by rewrite <- app_assoc. }
      unfold entry_file. cbn [entry_kind entry_id]. split.
      * intros r d. destruct r as [|c r]; [rewrite Hdir; split; [done|inversion 1]|]. rewrite <- (Hfiles2 (c :: r) d) by done. by rewrite <- app_assoc.
      * intros r t'. destruct r as [|c r]; [by rewrite Hdir|]. specialize (Hl2 (c :: r) t'). rewrite <- app_assoc in Hl2. by apply Hl2.
  - exists fs'. split; [done|]. split; [done|..].
    + intros p Hp. apply Hf. intros n r _. apply Hp.
    + intros [|n r] d; [done|]. intros _. rewrite (tree_file_cases x t (n :: r) d Ht).
      destruct (tree_entries t !! n) as [e|] eqn:Hne.
      * destruct (Hall n e) as [Hfile _]; [by apply elem_of_btree_iter|]. rewrite Hfile. naive_solver.
      * rewrite Hf, He; [naive_solver|]. intros m r' (e & Hm)%elem_of_btree_keys [= <- _]%app_inv_head. congruence.
    + intros [|n r] t'; [done|]. intros _. destruct (tree_entries t !! n) as [e|] eqn:Hne.
      * destruct (Hall n e) as [_ Hl]; [by apply elem_of_btree_iter|]. apply Hl.
      * rewrite Hf, He; [done|]. intros m r' (e & Hm)%elem_of_btree_keys [= <- _]%app_inv_head. congruence.
Qed.
End export.

(** An export into an empty directory succeeds and leaves there the files of the snapshot and
    nothing else: no other path changes, and no link is made. *)
Theorem materialize_correct (O : objects) (id : ObjectId) (snap : Snapshot) (fs : Fs) (dest : list string) :
  O !! id = Some (Ok (OSnapshot snap)) → grounded O (snap_root snap) → exportable O (snap_root snap) →
  fs_wf fs → real_dir fs dest → (∀ n r, fs !! (dest ++ n :: r) = None) →
  ∃ fs', materialize O id dest fs = (Ok (), fs') ∧ exported_to dest (tree_file O (snap_root snap)) fs fs'.
Proof.
  intros Hs Hg Hx Hw Hd He. unfold materialize. unfold mbind at 1, M_bind at 1. rewrite create_dir_all_real by done.
  rewrite lift_bind, (proj2 (os_get_Some O id _) Hs). apply write_tree_spec; [by apply grounded_depth|done..].
Qed.

(** ** Directories *)
Lemma child_of_Some p q c : child_of p q = Some c ↔ q = p ++ [c].
Proof.
  unfold child_of. destruct q as [|d q] using rev_ind; [split; [done|by destruct p]|]. rewrite reverse_snoc. case_decide as Hr.
  - rewrite reverse_involutive in Hr. subst q. split; [by intros [= ->]|]. by intros [_ ->]%app_inj_tail.
  - rewrite reverse_involutive in Hr. split; [done|]. by intros [? _]%app_inj_tail.
Qed.
Lemma children_lookup (fs : Fs) p c : children fs p !! c = fs !! (p ++ [c]).
Proof.
  unfold children. set (l := omap _ _).
  assert (∀ d e, (d, e) ∈ l ↔ fs !! (p ++ [d]) = Some e) as Hl.
  { intros d e. unfold l. rewrite list_elem_of_omap. split.
    - intros ([q e'] & Hin & (d' & Hd & [= -> ->])%fmap_Some). apply elem_of_map_to_list in Hin. apply child_of_Some in Hd. simpl in *. by subst q.
    - intros Hd. exists (p ++ [d], e). split; [by apply elem_of_map_to_list|]. simpl. by rewrite (proj2 (child_of_Some p _ d) eq_refl). }
  apply option_eq. intros e. rewrite <- Hl. split; [apply elem_of_list_to_map_2|]. intros Hin.
  apply elem_of_list_to_map_1'; [|done]. intros e' Hin'. apply Hl in Hin, Hin'. congruence.
Qed.

Section scan.
Context `{ReadDirLaws, Gitignore}.
Context (fs : Fs) (root : list string).
Context (Hw : fs_wf fs).

Lemma read_dir_elem p es c e : real_dir fs p → fs_read_dir fs p = Ok es → (c, e) ∈ es ↔ fs !! (p ++ [c]) = Some e.
Proof.
  intros Hd. unfold fs_read_dir. rewrite resolve_real by done. cbn [mbind result_bind]. pose proof Hd as He. unfold real_dir in He. rewrite He.
  intros [= <-]. rewrite read_dir_perm, elem_of_map_to_list. by rewrite children_lookup.
Qed.
Lemma read_dir_Ok p : real_dir fs p → ∃ es, fs_read_dir fs p = Ok es.
Proof.
  intros Hd. unfold fs_read_dir. rewrite resolve_real by done. cbn [mbind result_bind]. unfold real_dir in Hd. rewrite Hd. eauto.
Qed.

(** The files of a working directory: those no directory on the way to which, and which
    themselves, is the repository's or excluded. *)
Inductive found (cur : list string) : list string → bytes → Prop :=
| found_here c d : fs !! ((root ++ cur) ++ [c]) = Some (EFile d) → c ≠ REPO_DIR → ignore_matcher fs root (cur ++ [c]) false = false →
    found cur (cur ++ [c]) d
| found_below c rel d : fs !! ((root ++ cur) ++ [c]) = Some EDir → c ≠ REPO_DIR → ignore_matcher fs root (cur ++ [c]) true = false →
    found (cur ++ [c]) rel d → found cur rel d.

Lemma found_file cur rel d : found cur rel d → ∃ r, r ≠ [] ∧ rel = cur ++ r ∧ fs !! (root ++ rel) = Some (EFile d).
Proof.
  induction 1 as [cur c d Hf|cur c rel d _ _ _ _ (r & _ & -> & Hf)].
  - exists [c]. by rewrite app_assoc.
  - exists (c :: r). rewrite <- app_assoc in *. done.
Qed.

(** What the entries of a directory contribute. *)
Definition dirs_in (cur : list string) (es : list (string * FsEntry)) : list (list string) :=
  omap (λ e, match classify fs root cur e with Some (p, None) => Some p | _ => None end) es.
Definition files_in (cur : list string) (es : list (string * FsEntry)) : list (list string * bytes) :=
  omap (λ e, match classify fs root cur e with Some (p, Some d) => Some (p, d) | _ => None end) es.

Lemma elem_of_dirs_in cur es p : real_dir fs (root ++ cur) → fs_read_dir fs (root ++ cur) = Ok es →
  p ∈ dirs_in cur es ↔ ∃ c, p = cur ++ [c] ∧ fs !! ((root ++ cur) ++ [c]) = Some EDir ∧ c ≠ REPO_DIR ∧
    ignore_matcher fs root (cur ++ [c]) true = false.
Proof.
  intros Hd Hes. unfold dirs_in. rewrite list_elem_of_omap. split.
  - intros ([c e] & Hin & Hc). apply (read_dir_elem _ es c e Hd Hes) in Hin. unfold classify in Hc. cbn [fst snd] in Hc.
    destruct e as [d| |t]; [|case_decide; [done|]|done].
    + case_decide; [done|]. by destruct (ignore_matcher _ _ _ _).
    + destruct (ignore_matcher _ _ _ _) eqn:Hig; [done|]. injection Hc as <-. by exists c.
  - intros (c & -> & Hc & Hn & Hig). exists (c, EDir). split; [by apply (read_dir_elem _ es c EDir Hd Hes)|].
    unfold classify. cbn [fst snd]. rewrite decide_False by done. by rewrite Hig.
Qed.
Lemma elem_of_files_in cur es p d : real_dir fs (root ++ cur) → fs_read_dir fs (root ++ cur) = Ok es →
  (p, d) ∈ files_in cur es ↔ ∃ c, p = cur ++ [c] ∧ fs !! ((root ++ cur) ++ [c]) = Some (EFile d) ∧ c ≠ REPO_DIR ∧
    ignore_matcher fs root (cur ++ [c]) false = false.
Proof.
  intros Hd Hes. unfold files_in. rewrite list_elem_of_omap. split.
  - intros ([c e] & Hin & Hc). apply (read_dir_elem _ es c e Hd Hes) in Hin. unfold classify in Hc. cbn [fst snd] in Hc.
    destruct e as [d'| |t]; [case_decide; [done|]|case_decide; [done|]|done].
    + destruct (ignore_matcher _ _ _ _) eqn:Hig; [done|]. injection Hc as <- <-. by exists c.
    + by destruct (ignore_matcher _ _ _ _).
  - intros (c & -> & Hc & Hn & Hig). exists (c, EFile d). split; [by apply (read_dir_elem _ es c _ Hd Hes)|].
    unfold classify. cbn [fst snd]. rewrite decide_False by done. by rewrite Hig.
Qed.

(** One directory, then what lies below it. *)
Lemma found_step cur es rel d : real_dir fs (root ++ cur) → fs_read_dir fs (root ++ cur) = Ok es →
  found cur rel d ↔ (rel, d) ∈ files_in cur es ∨ ∃ p, p ∈ dirs_in cur es ∧ found p rel d.
Proof.
  intros Hd Hes. rewrite (elem_of_files_in cur es rel d Hd Hes). setoid_rewrite (elem_of_dirs_in cur es _ Hd Hes). split.
  - inversion 1; subst; [left|right]; eauto 10.
  - intros [(c & -> & ? & ? & ?)|(p & (c & -> & ? & ? & ?) & Hf)]; [by constructor|by eapply found_below].
Qed.

(** ** The walk ends

    Every turn takes a directory off the part of the file system below the stack. *)
Definition below (stack : list (list string)) : gset (list string) :=
  filter (λ p, Exists (λ cur, (root ++ cur) `prefix_of` p) stack) (dom fs ∪ {[root]}).

Definition real_stack (stack : list (list string)) : Prop := ∀ cur, cur ∈ stack → real_dir fs (root ++ cur).

Lemma real_in_dom p : real_dir fs (root ++ p) → root ++ p ∈ dom fs ∪ {[root]}.
Proof.
  intros Hd. rewrite elem_of_union, elem_of_singleton. unfold real_dir, entry_at in Hd. case_decide as Hp.
  - right. apply app_eq_nil in Hp as [-> ->]. done.
  - left. apply elem_of_dom. by rewrite Hd.
Qed.

(** No directory of the stack lies below another. *)
Definition anti (stack : list (list string)) : Prop :=
  NoDup stack ∧ ∀ s t, s ∈ stack → t ∈ stack → s `prefix_of` t → s = t.

Lemma read_dir_NoDup p es : fs_read_dir fs p = Ok es → NoDup es.*1.
Proof.
  unfold fs_read_dir. destruct (fs_resolve fs true p) as [q|]; [|done]. cbn [mbind result_bind].
  destruct (entry_at fs q) as [[]|]; [done| |done..]. intros [= <-]. rewrite read_dir_perm. apply NoDup_fst_map_to_list.
Qed.
Lemma dirs_in_names cur es p : p ∈ dirs_in cur es → ∃ c, c ∈ es.*1 ∧ p = cur ++ [c].
Proof.
  unfold dirs_in. rewrite list_elem_of_omap. intros ([c e] & Hin & Hc). exists c. split; [exact (list_elem_of_fmap_2 fst _ _ Hin)|].
  unfold classify in Hc. cbn [fst snd] in Hc. destruct e; repeat case_match; naive_solver.
Qed.
Lemma dirs_in_NoDup cur es : NoDup es.*1 → NoDup (dirs_in cur es).
Proof.
  induction es as [|[c e] es IH]; [constructor|]. intros [Hc Hnd]%NoDup_cons. unfold dirs_in. cbn [omap list_omap].
  fold (dirs_in cur es). destruct (classify fs root cur (c, e)) as [[p [d|]]|] eqn:Hcl; [by apply IH| |by apply IH].
  constructor; [|by apply IH]. intros (c' & Hc' & Hp)%dirs_in_names.
  assert (p ∈ dirs_in cur [(c, e)]) as (c2 & Hc2 & Hp2)%dirs_in_names by (unfold dirs_in; cbn [omap list_omap]; rewrite Hcl; left).
  apply list_elem_of_singleton in Hc2. simpl in Hc2. subst. apply app_inj_tail in Hp2 as [_ ->]. done.
Qed.

Lemma anti_step cur es stack : anti (cur :: stack) → fs_read_dir fs (root ++ cur) = Ok es →
  anti (reverse (dirs_in cur es) ++ stack) ∧ Forall (λ s, ¬ (root ++ s) `prefix_of` (root ++ cur)) stack.
Proof.
  intros [[Hc Hnd]%NoDup_cons Hp] Hes.
  assert (∀ c t, t ∈ stack → ¬ (cur ++ [c]) `prefix_of` t) as Hup.
  { intros c t Ht Hpre. apply Hc. rewrite (Hp cur t); [done|by left|by right|]. etrans; [|exact Hpre]. by exists [c]. }
  assert (∀ c t, t ∈ stack → t `prefix_of` (cur ++ [c]) → t = cur ++ [c]) as Hdown.
  { intros c t Ht [q Hq]. destruct q as [|d q] using rev_ind; [by rewrite app_nil_r in Hq|].
    rewrite app_assoc in Hq. apply app_inj_tail in Hq as [-> _]. destruct Hc. rewrite <- (Hp t (t ++ q)); [done|by right|by left|by exists q]. }
  split.
  - split.
    + apply NoDup_app. split; [rewrite reverse_Permutation; apply dirs_in_NoDup; by eapply read_dir_NoDup|]. split; [|done].
      intros p Hin Ht. apply elem_of_reverse, dirs_in_names in Hin as (c & _ & ->). by apply (Hup c (cur ++ [c])).
    + intros s t [Hs|Hs]%elem_of_app [Ht|Ht]%elem_of_app Hst.
      * apply elem_of_reverse, dirs_in_names in Hs as (c & _ & ->). apply elem_of_reverse, dirs_in_names in Ht as (c' & _ & ->).
        destruct Hst as [q Hq]. rewrite <- app_assoc in Hq. apply app_inv_head in Hq. by injection Hq as ->.
      * apply elem_of_reverse, dirs_in_names in Hs as (c & _ & ->). by destruct (Hup c t Ht).
      * apply elem_of_reverse, dirs_in_names in Ht as (c & _ & ->). by apply Hdown.
      * apply Hp; [by right..|done].
  - apply Forall_forall. intros s Hs [q Hq]. rewrite <- app_assoc in Hq. apply app_inv_head in Hq.
    apply Hc. rewrite <- (Hp s cur); [done|by right|by left|by exists q].
Qed.

Lemma below_step cur es stack : real_stack (cur :: stack) → fs_read_dir fs (root ++ cur) = Ok es →
  real_stack (reverse (dirs_in cur es) ++ stack) ∧
  (Forall (λ s, ¬ (root ++ s) `prefix_of` (root ++ cur)) stack → size (below (reverse (dirs_in cur es) ++ stack)) < size (below (cur :: stack))).
Proof.
  intros Hr Hes. pose proof (Hr cur ltac:(by left)) as Hd. split.
  - intros p [Hp|Hp]%elem_of_app; [|apply Hr; by right]. apply elem_of_reverse, (elem_of_dirs_in cur es p Hd Hes) in Hp as (c & -> & Hc & _).
    unfold real_dir. by rewrite app_assoc, entry_at_snoc.
  - intros Hnot. apply subset_size. split.
    + intros p. unfold below. rewrite !elem_of_filter, !Exists_exists. intros [(s & Hs & Hp) Hdom]. split; [|done].
      apply elem_of_app in Hs as [Hs|Hs]; [|exists s; split; [by right|done]].
      apply elem_of_reverse, (elem_of_dirs_in cur es s Hd Hes) in Hs as (c & -> & _). exists cur. split; [by left|].
      etrans; [|exact Hp]. rewrite app_assoc. by exists [c].
    + intros Hsub. specialize (Hsub (root ++ cur)). unfold below in Hsub. rewrite !elem_of_filter, !Exists_exists in Hsub.
      destruct Hsub as [(s & Hs & Hp) _]; [split; [exists cur; split; [by left|done]|by apply real_in_dom]|].
      apply elem_of_app in Hs as [Hs|Hs]; [|rewrite Forall_forall in Hnot; by apply (Hnot s)].
      apply elem_of_reverse, (elem_of_dirs_in cur es s Hd Hes) in Hs as (c & -> & _). destruct Hp as [q Hp].
      apply (f_equal length) in Hp. rewrite !length_app in Hp. simpl in Hp. lia.
Qed.

(** ** What the walk collects *)
Definition named (l : list (list string * bytes)) : list (string * bytes) := (λ e, (rel_string e.1, e.2)) <$> l.

Section collected.
Context {S : Type} `{Puts S}.

Lemma put_blobs_app l1 l2 out (s : S) : put_blobs (l1 ++ l2) out s = (out ← put_blobs l1 out; put_blobs l2 out) s.
Proof.
  revert out s. induction l1 as [|[p d] l1 IH]; intros out s; [done|]. cbn [app put_blobs]. unfold mbind, M_bind in *.
  destruct (put_obj _ s) as [[x|e] s1]; [apply IH|done].
Qed.
Lemma M_fold_cons {A C} (f : C → A → M S C) b x l (s : S) :
  M_fold f b (x :: l) s = match f b x s with (Ok b', s') => M_fold f b' l s' | (Err e, s') => (Err e, s') end.
Proof. done. Qed.
Lemma put_blobs_cons p d l out (s : S) :
  put_blobs ((p, d) :: l) out s = match put_obj (OBlob (MkBlob d)) s with (Ok x, s') => put_blobs l (<[p := x]> out) s' | (Err e, s') => (Err e, s') end.
Proof. done. Qed.
Lemma collect_entries cur es stack out (s : S) :
  M_fold (collect_entry fs root cur) (stack, out) es s =
    match put_blobs (named (files_in cur es)) out s with
    | (Ok out, s) => (Ok (reverse (dirs_in cur es) ++ stack, out), s)
    | (Err e, s) => (Err e, s)
    end.
Proof.
  revert stack out s. induction es as [|[c e] es IH]; intros stack out s; [done|]. rewrite M_fold_cons. unfold collect_entry at 1.
  unfold files_in, dirs_in. cbn [omap list_omap]. fold (files_in cur es). fold (dirs_in cur es).
  destruct (classify fs root cur (c, e)) as [[p [d|]]|].
  - unfold named. rewrite fmap_cons. fold (named (files_in cur es)). rewrite put_blobs_cons. unfold mbind, M_bind.
    cbn [fst snd]. destruct (put_obj _ s) as [[x|er] s1]; [|done]. unfold mret, M_ret. apply IH.
  - unfold mret, M_ret. cbn [fst snd]. rewrite IH, reverse_cons. destruct (put_blobs _ out s) as [[out1|er] s1]; [|done].
    by rewrite <- app_assoc.
  - unfold mret, M_ret. apply IH.
Qed.

End collected.

Lemma collect_loop_spec fuel : ∀ stack, size (below stack) < fuel → real_stack stack → anti stack →
  ∃ l, (∀ (S : Type) (HS : Puts S) out (s : S), collect_loop fs root fuel stack out s = put_blobs (named l) out s) ∧
    ∀ rel d, (rel, d) ∈ l ↔ ∃ cur, cur ∈ stack ∧ found cur rel d.
Proof.
  induction fuel as [|fuel IH]; intros stack Hf Hr Ha; [lia|]. destruct stack as [|cur stack].
  { exists []. split; [done|]. intros rel d. rewrite elem_of_nil. split; [done|]. by intros (? & ?%elem_of_nil & _). }
  destruct (read_dir_Ok (root ++ cur)) as [es Hes]; [apply Hr; by left|].
  destruct (anti_step cur es stack Ha Hes) as [Ha' Hnot]. destruct (below_step cur es stack Hr Hes) as [Hr' Hsz].
  destruct (IH (reverse (dirs_in cur es) ++ stack)) as (l & Hl & Hin); [specialize (Hsz Hnot); lia|done..|].
  exists (files_in cur es ++ l). split.
  - intros S HS out s. cbn [collect_loop]. rewrite lift_bind, Hes. unfold named. rewrite fmap_app. fold (named (files_in cur es)). fold (named l).
    rewrite put_blobs_app. unfold mbind at 1, M_bind at 1. rewrite collect_entries. unfold mbind, M_bind.
    destruct (put_blobs (named (files_in cur es)) out s) as [[out1|e] s1]; [apply Hl|done].
  - intros rel d. rewrite elem_of_app, Hin. setoid_rewrite elem_of_app. setoid_rewrite elem_of_reverse. setoid_rewrite elem_of_cons.
    pose proof (found_step cur es rel d (Hr cur ltac:(by left)) Hes) as Hst. naive_solver.
Qed.

Lemma below_start : size (below [[]]) ≤ size fs + 1.
Proof.
  etrans; [apply (subseteq_size _ (dom fs ∪ {[root]})); intros p; unfold below; rewrite elem_of_filter; tauto|].
  rewrite size_union_alt, size_dom. enough (size ({[root]} ∖ dom fs : gset (list string)) ≤ 1) by lia.
  rewrite <- (size_singleton (C := gset (list string)) root). apply subseteq_size. set_solver.
Qed.
Lemma anti_start : anti [[]].
Proof. split; [apply NoDup_singleton|]. by intros s t ->%list_elem_of_singleton ->%list_elem_of_singleton. Qed.

Lemma dw_collect_spec : real_dir fs root → ∃ l, (∀ (S : Type) (HS : Puts S) (s : S), dw_collect fs root s = put_blobs (named l) ∅ s) ∧
  ∀ rel d, (rel, d) ∈ l ↔ found [] rel d.
Proof.
  intros Hd. destruct (collect_loop_spec (S (size fs + 1)) [[]]) as (l & Hl & Hin).
  - pose proof below_start. lia.
  - intros cur ->%list_elem_of_singleton. by rewrite app_nil_r.
  - apply anti_start.
  - exists l. split; [intros S HS s; apply Hl|]. intros rel d. rewrite Hin. setoid_rewrite list_elem_of_singleton. naive_solver.
Qed.
End scan.
