(* ===== verification/CheckoutRoundtrip.v ===== *)
(** * CheckoutRoundtrip: from one working directory to another

    Theorems about [Checkout.v] with the commits of [Worktree.v]: a commit of a working
    directory reads back as its files; exporting it elsewhere gives the files back; the scan for
    seeds misses no file a commit would capture.  Names that are not UTF-8, or hold a
    backslash, fall outside: two such files may share one path.  The names in a tree
    are not checked: a run shows an export that writes outside of its destination. *)

From S2P Require Import Prelude Graph Order Ids Text Objects Store Lattice Access Walk Disk Ephemeral Worktree Checkout CheckoutFacts.

(** ** Plain names *)

(** Names that [to_string_lossy] and the replacement of backslashes leave alone. *)
Definition plain_name (c : string) : Prop := utf8_valid (str_bytes c) = true ∧ x5c ∉ str_bytes c.

Lemma utf8_valid_app a b : utf8_valid a = true → utf8_valid b = true → utf8_valid (a ++ b) = true.
Proof.
  induction a as [a IH] using (induction_ltof1 _ length). unfold ltof in IH. destruct a as [|b0 l1]; [done|]. intros Ha Hb.
  cbn [app utf8_valid] in *. destruct (u8 b0 <? 0x80)%N; [apply IH; [simpl; lia|done..]|].
  destruct (in_range 0xC2 0xDF b0).
  { destruct l1 as [|b1 l2]; [done|]. apply andb_prop in Ha as [Hc Ha]. cbn [app]. rewrite Hc. apply IH; [simpl; lia|done..]. }
  destruct (in_range 0xE0 0xEF b0).
  { destruct l1 as [|b1 [|b2 l3]]; [done..|]. apply andb_prop in Ha as [Hc Ha]. cbn [app]. rewrite Hc. apply IH; [simpl; lia|done..]. }
  destruct (in_range 0xF0 0xF4 b0); [|done].
  destruct l1 as [|b1 [|b2 [|b3 l4]]]; [done..|]. apply andb_prop in Ha as [Hc Ha]. cbn [app]. rewrite Hc. apply IH; [simpl; lia|done..].
Qed.
Lemma join_cons a l : l ≠ [] → join_bytes (a :: l) = a ++ x2f :: join_bytes l.
Proof. intros Hl. change (a :: l) with ([a] ++ l). rewrite join_app by done. simpl. by rewrite app_nil_r. Qed.

Lemma plain_join rel : Forall plain_name rel → utf8_valid (join_bytes (str_bytes <$> rel)) = true ∧ x5c ∉ join_bytes (str_bytes <$> rel).
Proof.
  induction 1 as [|c rel [Hu Hb] Hrel IH]; [split; [done|]; apply not_elem_of_nil|]. rewrite fmap_cons.
  destruct rel as [|c' rel]; [simpl; by rewrite app_nil_r|]. rewrite join_cons by done. destruct IH as [IHu IHb]. split.
  - apply utf8_valid_app; [done|exact IHu].
  - rewrite elem_of_app, elem_of_cons. intros [?|[?|?]]; done.
Qed.
Lemma rel_string_plain rel : Forall plain_name rel → rel_string rel = bytes_str (join_bytes (str_bytes <$> rel)).
Proof.
  intros [Hu Hb]%plain_join. unfold rel_string. rewrite from_utf8_lossy_valid by done. f_equal.
  revert Hb. generalize (join_bytes (str_bytes <$> rel)) as l. clear. induction l as [|b l IH]; [done|]. intros [Hb Hl]%not_elem_of_cons.
  rewrite fmap_cons, IH by done. unfold slash. by rewrite decide_False by done.
Qed.
Lemma segments_rel rel : rel ≠ [] → Forall proper_name rel → Forall plain_name rel → segments (rel_string rel) = rel.
Proof.
  intros Hne Hp Hq. rewrite rel_string_plain by done. unfold segments. rewrite str_bytes_str. clear Hq.
  induction Hp as [|c rel Hc Hrel IH]; [done|]. rewrite fmap_cons. destruct Hc as (_ & _ & _ & Hs).
  destruct rel as [|c' rel]; [simpl; rewrite app_nil_r, split_whole by done; simpl; by rewrite bytes_str_bytes|].
  rewrite join_cons by done. rewrite split_app, split_whole by done. simpl. rewrite bytes_str_bytes. f_equal. by apply IH.
Qed.
Lemma rel_not_rooted rel : rel ≠ [] → Forall proper_name rel → Forall plain_name rel → rooted (rel_string rel) = false.
Proof.
  intros Hne Hp Hq. rewrite rel_string_plain by done. unfold rooted. rewrite str_bytes_str.
  destruct Hp as [|c rel (Hc & _ & _ & Hs) _]; [done|]. assert (∃ b l k, str_bytes c = b :: l ∧ join_bytes (str_bytes <$> c :: rel) = b :: k) as (b & l & k & Hb & ->).
  { destruct (str_bytes c) as [|b l] eqn:Hb; [by destruct Hc; apply (inj str_bytes)|]. exists b, l. rewrite fmap_cons, Hb.
    destruct rel as [|c' rel]; [by eexists|]. rewrite join_cons by done. by eexists. }
  rewrite Hb in Hs. apply not_elem_of_cons in Hs as [Hs _]. by destruct b.
Qed.

(** ** Commits of a working directory *)
Section commit.
Context `{ObjectCodec, ReadDirLaws, Gitignore}.
Context (fs : Fs) (w : DiskWorkspace).
Context (Hw : fs_wf fs) (Hd : real_dir fs (dw_root w)).
Abbreviation found := (found fs (dw_root w) []).
Context (Hplain : ∀ rel d, found rel d → Forall plain_name rel).

Lemma found_names rel d : found rel d → rel ≠ [] ∧ Forall proper_name rel ∧ fs !! (dw_root w ++ rel) = Some (EFile d) ∧
  segments (rel_string rel) = rel.
Proof.
  intros Hf. destruct (found_file fs (dw_root w) [] rel d Hf) as (r & Hr & -> & He). simpl in *.
  assert (Forall proper_name r) as Hp.
  { destruct r as [|c r] using rev_ind; [done|]. rewrite app_assoc in He. pose proof (fw_parent fs Hw _ _ ltac:(eauto)) as Hdir.
    apply (real_dir_names fs _ Hw) in Hdir. apply Forall_app in Hdir as [_ Hdir]. apply Forall_app. split; [done|].
    constructor; [|constructor]. by eapply (fw_name fs Hw _ c). }
  split_and!; [done..|]. apply segments_rel; [done..|]. by eapply Hplain.
Qed.

(** The files, by their paths. *)
Lemma found_lists : ∃ l F, (∀ (S : Type) (HS : Puts S) (s : S), dw_collect fs (dw_root w) s = put_blobs l ∅ s) ∧ lists l F ∧
  (∀ p d, F !! p = Some d ↔ ∃ rel, p = rel_string rel ∧ found rel d).
Proof.
  destruct (dw_collect_spec fs (dw_root w) Hw Hd) as (l & Hl & Hin).
  assert (∀ p d, (p, d) ∈ named l ↔ ∃ rel, p = rel_string rel ∧ found rel d) as Hn.
  { intros p d. unfold named. rewrite list_elem_of_fmap. split.
    - intros ([rel d'] & [= -> ->] & Hrel%Hin). by exists rel.
    - intros (rel & -> & Hf). exists (rel, d). split; [done|]. by apply Hin. }
  assert (functional (named l)) as Hfun.
  { intros p d d' (rel & -> & Hf)%Hn (rel' & Heq & Hf')%Hn. destruct (found_names rel d Hf) as (_ & _ & He & Hs).
    destruct (found_names rel' d' Hf') as (_ & _ & He' & Hs'). rewrite Heq, Hs' in Hs. subst rel'. congruence. }
  assert (lists (named l) (list_to_map (named l))) as Hlists.
  { intros p d. split; [|apply elem_of_list_to_map_2]. intros Hp. apply elem_of_list_to_map_1'; [|done]. intros d' Hp'. by apply (Hfun p). }
  exists (named l), (list_to_map (named l)). split_and!; [done..|]. intros p d. rewrite <- (Hlists p d). apply Hn.
Qed.

(** No file hides another. *)
Lemma found_unshadowed (F : gmap string bytes) : (∀ p d, F !! p = Some d ↔ ∃ rel, p = rel_string rel ∧ found rel d) →
  ∀ p, is_Some (F !! p) → rooted p = false ∧ ¬ shadowed F p.
Proof.
  intros HF p [d (rel & -> & Hf)%HF]. destruct (found_names rel d Hf) as (Hne & Hp & He & Hs).
  split; [apply rel_not_rooted; [done..|by eapply Hplain]|].
  intros (r & d' & (rel' & Heq & Hf')%HF). destruct (found_names rel' d' Hf') as (_ & _ & He' & Hs').
  apply (f_equal segments) in Heq. rewrite segments_slash, Hs, Hs' in Heq. subst rel'. rewrite app_assoc in He'.
  pose proof (below_dir fs (dw_root w ++ rel) (segments r) Hw (segments_nonempty r) ltac:(eauto)) as Hdir.
  unfold real_dir, entry_at in Hdir. case_decide as Hnil; [by apply app_eq_nil in Hnil as [_ ->]|]. congruence.
Qed.

Lemma dw_commit_files author message t (l : list (string * bytes)) :
  (∀ (S : Type) (HS : Puts S) (s : S), dw_collect fs (dw_root w) s = put_blobs l ∅ s) →
  ∀ (S : Type) (HS : Puts S) (s : S), dw_commit fs author message t w s =
    (id ← commit_files l (dw_base w) author message t; mret (id, MkDiskWorkspace (dw_root w) (Some id))) s.
Proof.
  intros Hl S HS s. unfold dw_commit, commit_files, mbind, M_bind. rewrite (Hl S HS s). destruct (put_blobs l ∅ s) as [[ids|e] s1]; [|done].
  destruct (build_tree ids s1) as [[root|e] s2]; [|done]. by destruct (put_obj _ s2) as [[id|e] s3].
Qed.

(** What a commit leaves. *)
Lemma dw_commit_spec author message t id w' O O' :
  dw_commit fs author message t w O = (Ok (id, w'), O') → collision_free (written (dw_commit fs author message t w)) O →
  ∃ ids F root, O ⊆ O' ∧ w' = MkDiskWorkspace (dw_root w) (Some id) ∧
    O' !! id = Some (Ok (OSnapshot (MkSnapshot root (option_list (dw_base w)) author t message))) ∧
    (∀ p d, F !! p = Some d ↔ ∃ rel, p = rel_string rel ∧ found rel d) ∧ stored O' (dir_of ids) root ∧
    (∀ p, match F !! p with
          | Some d => ∃ x, ids !! p = Some x ∧ O' !! x = Some (Ok (OBlob (MkBlob d)))
          | None => ids !! p = None
          end) ∧
    from_snapshot O' id = Ok (MkWorkspace (Some id) F) ∧ (dw_diff fs w' O').1 = Ok (MkDiff [] [] []).
Proof.
  destruct found_lists as (l & F & Hcol & Hl & HF). pose proof (found_unshadowed F HF) as Hun.
  pose proof (dw_commit_files author message t l Hcol) as Hc. intros Hrun Hfree. rewrite Hc in Hrun.
  unfold written in Hfree. rewrite Hc in Hfree. unfold mbind, M_bind in Hrun, Hfree.
  destruct (commit_files _ _ author message t O) as [[x|e] O1] eqn:Hf; [|done]. injection Hrun as <- <- <-.
  assert (collision_free (written (commit_files l (dw_base w) author message t)) O) as Hfree'.
  { revert Hfree. unfold written. by destruct (commit_files (S := Log) l (dw_base w) author message t []) as [[] ?]. }
  destruct (commit_files_back l F _ _ _ _ _ _ _ Hl (λ p Hp, proj1 (Hun p Hp)) Hf Hfree')
    as (ids & root & out & files & Hsub & (k & Hput) & Hsnap & Hst & Hids & Hpaths & Hfrom & _ & Hns).
  destruct (Hns (λ p Hp, proj2 (Hun p Hp))) as [-> ->]. exists ids, F, root. split_and!; [done..|].
  unfold dw_diff. unfold mbind, M_bind, gets. cbn [dw_base dw_root]. rewrite Hpaths, Hcol, (proj1 Hput O1).
  unfold mret, M_ret. simpl. by rewrite diff_paths_same.
Qed.
End commit.

(** ** The stored tree of a commit *)

(** Every name satisfies [P], every file [Q]. *)
Inductive dir_all (P : string → Prop) (Q : ObjectId → Prop) : DirNode → Prop :=
| Dir_all files dirs : (∀ n y, files !! n = Some y → P n ∧ Q y) → (∀ n c, dirs_get dirs n = Some c → P n) →
    (∀ n c, dirs_get dirs n = Some c → dir_all P Q c) → dir_all P Q (MkDir files dirs).

Lemma dir_insert_all P Q segs id node : Forall P segs → Q id → dir_all P Q node → dir_all P Q (dir_insert segs id node).
Proof.
  intros Hp Hq. revert node. induction Hp as [|n segs Hn Hsegs IH]; intros node Hall; [by destruct Hall|].
  destruct Hall as [files dirs Hf Hd Hc]. destruct segs as [|n2 segs].
  - constructor; [|done..]. intros m y. destruct (decide (m = n)) as [->|Hne]; [rewrite lookup_insert_eq; by intros [= <-]|].
    rewrite lookup_insert_ne by done. apply Hf.
  - constructor; [done|..]; intros m c; rewrite dirs_get_entry; case_decide as Hm; try by (subst || eauto).
    intros [= <-]. apply IH. destruct (dirs_get dirs n) as [c|] eqn:Hget; [by eapply Hc|]. by constructor.
Qed.
Lemma dir_of_all P Q (F : gmap string ObjectId) : (∀ p y, F !! p = Some y → Forall P (segments p) ∧ Q y) → dir_all P Q (dir_of F).
Proof.
  intros HF. unfold dir_of. assert (∀ e, e ∈ btree_iter F → Forall P (segments e.1) ∧ Q e.2) as Hall.
  { intros [p y] Hin%elem_of_btree_iter. by apply HF. }
  assert (dir_all P Q dir_empty) as Hnode by by constructor. revert Hall Hnode. generalize dir_empty.
  induction (btree_iter F) as [|e l IH]; intros node Hall Hnode; [done|]. simpl. apply IH; [intros e' He'; apply Hall; by right|].
  destruct (Hall e ltac:(by left)). by apply dir_insert_all.
Qed.

Section stored.
Context (O : objects).

Lemma stored_exportable node x : dir_wf node → dir_all proper_name (λ y, ∃ d, O !! y = Some (Ok (OBlob (MkBlob d)))) node →
  stored O node x → exportable O x.
Proof.
  intros Hwf Hall Hst. split. intros y Hy.
  assert (∃ c, stored O c y ∧ dir_wf c ∧ dir_all proper_name (λ y, ∃ d, O !! y = Some (Ok (OBlob (MkBlob d)))) c) as (c & Hc & Hwc & Hac).
  { clear -Hwf Hall Hst Hy. revert node Hwf Hall Hst. induction Hy as [x|x y z Hxy _ IH]; intros node Hwf Hall Hst; [by exists node|].
    destruct node as [files dirs]. destruct (stored_edge O files dirs x y Hst Hxy) as (n & c & Hin & Hc).
    inversion Hwf as [? ? Hnd Hwc]; subst. apply (IH c); [by eapply Hwc| |done]. inversion Hall as [? ? _ _ Hac]; subst.
    apply (Hac n). by apply dirs_get_elem. }
  destruct Hc as [files dirs t y Ht Hfiles Hdirs]. exists t. split; [done|]. intros n e He.
  inversion Hwc as [? ? Hnd _]; subst. inversion Hac as [? ? Hf Hdn _]; subst. destruct (decide (n ∈ dirs.*1)) as [Hn|Hn].
  - apply list_elem_of_fmap in Hn as ([n' c] & -> & Hin). cbn [fst] in *. destruct (Hdirs n' c Hin) as (cid & Hcid & _).
    rewrite He in Hcid. injection Hcid as ->. split; [|done]. apply (Hdn n' c). by apply dirs_get_elem.
  - rewrite (Hfiles n Hn) in He. apply fmap_Some in He as (z & Hz & ->). destruct (Hf n z Hz). done.
Qed.

Lemma tree_file_stored rel : ∀ node x d, dir_wf node → stored O node x →
  tree_file O x rel d ↔ ∃ y, dir_get rel node = Some y ∧ dir_sub rel node = None ∧ O !! y = Some (Ok (OBlob (MkBlob d))).
Proof.
  induction rel as [|n rel IH]; intros node x d Hwf Hst.
  - split; [inversion 1|]. by destruct node as [files dirs]; intros (y & [=] & _).
  - destruct Hst as [files dirs t x Ht Hfiles Hdirs]. inversion Hwf as [? ? Hnd Hwc]; subst.
    rewrite (tree_file_cases O x t (n :: rel) d Ht). destruct (dirs_get dirs n) as [c|] eqn:Hget.
    + apply dirs_get_elem in Hget as Hin; [|done]. destruct (Hdirs n c Hin) as (cid & Hcid & Hc).
      specialize (IH c cid d (Hwc n c Hin) Hc). destruct rel as [|n2 rel].
      * split; [|intros (y & _ & Hs & _); simpl in Hs; rewrite Hget in Hs; by destruct c].
        intros (n' & e & r & [= <- <-] & He & Hf). rewrite Hcid in He. injection He as <-. unfold entry_file in Hf. simpl in Hf. inversion Hf.
      * change (dir_get (n :: n2 :: rel) (MkDir files dirs)) with (dirs_get dirs n ≫= dir_get (n2 :: rel)).
        change (dir_sub (n :: n2 :: rel) (MkDir files dirs)) with (dirs_get dirs n ≫= dir_sub (n2 :: rel)). rewrite Hget. cbn [mbind option_bind].
        rewrite <- IH. split.
        -- intros (n' & e & r & [= <- <-] & He & Hf). rewrite Hcid in He. injection He as <-. done.
        -- intros Hf. by exists n, (MkTreeEntry cid KindTree), (n2 :: rel).
    + apply dirs_get_None in Hget as Hn. pose proof (Hfiles n Hn) as He. destruct rel as [|n2 rel].
      * simpl. rewrite Hget. split.
        -- intros (n' & e & r & [= <- <-] & He' & Hf). rewrite He in He'. apply fmap_Some in He' as (y & Hy & ->).
           exists y. destruct Hf as [_ Hf]. done.
        -- intros (y & Hy & _ & Hb). exists n, (MkTreeEntry y KindBlob), []. rewrite He, Hy. done.
      * change (dir_get (n :: n2 :: rel) (MkDir files dirs)) with (dirs_get dirs n ≫= dir_get (n2 :: rel)). rewrite Hget. cbn [mbind option_bind].
        split; [|by intros (y & [=] & _)]. intros (n' & e & r & [= <- <-] & He' & Hf). rewrite He in He'.
        apply fmap_Some in He' as (y & Hy & ->). by destruct Hf.
Qed.
End stored.

(** ** From one directory to another *)
Section checkout.
Context `{ObjectCodec, ReadDirLaws, Gitignore}.

(** A commit of a working directory whose files have plain names, on a store where no id it
    writes is taken by something else, can be read back: opening the snapshot gives exactly
    the files below the root that are neither the repository's nor excluded, by
    their paths, and the diff of the directory against its new base is empty. *)
Theorem dw_commit_reads_back (fs : Fs) (w w' : DiskWorkspace) (author message : string) (t : N) (id : ObjectId) (O O' : objects) :
  fs_wf fs → real_dir fs (dw_root w) → (∀ rel d, found fs (dw_root w) [] rel d → Forall plain_name rel) →
  dw_commit fs author message t w O = (Ok (id, w'), O') → collision_free (written (dw_commit fs author message t w)) O →
  O ⊆ O' ∧ w' = MkDiskWorkspace (dw_root w) (Some id) ∧ (dw_diff fs w' O').1 = Ok (MkDiff [] [] []) ∧
  ∃ files, from_snapshot O' id = Ok (MkWorkspace (Some id) files) ∧
    ∀ p d, files !! p = Some d ↔ ∃ rel, p = rel_string rel ∧ found fs (dw_root w) [] rel d.
Proof.
  intros Hw Hd Hp Hc Hf. destruct (dw_commit_spec fs w Hw Hd Hp author message t id w' O O' Hc Hf)
    as (ids & F & root & Hs & Hw' & _ & HF & _ & _ & Hfrom & Hdiff). eauto 10.
Qed.

(** [C35] What is committed in one directory, all of whose captured paths have names that are UTF-8
    without a backslash ([twins_collapse] shows what else happens), and exported into a real
    directory with nothing in it, is there again, file for file and nothing else: whatever the
    second file system holds elsewhere stays, and the export cannot fail. (No two objects of
    the commit or of the store share an id.) *)
Theorem checkout_roundtrip (fs fs2 : Fs) (w w' : DiskWorkspace) (author message : string) (t : N) (id : ObjectId) (O O' : objects)
    (dest : list string) :
  fs_wf fs → real_dir fs (dw_root w) → (∀ rel d, found fs (dw_root w) [] rel d → Forall plain_name rel) →
  dw_commit fs author message t w O = (Ok (id, w'), O') → collision_free (written (dw_commit fs author message t w)) O →
  fs_wf fs2 → real_dir fs2 dest → (∀ n r, fs2 !! (dest ++ n :: r) = None) →
  ∃ fs2', materialize O' id dest fs2 = (Ok (), fs2') ∧ exported_to dest (found fs (dw_root w) []) fs2 fs2'.
Proof.
  intros Hw Hd Hp Hc Hf Hw2 Hd2 He. destruct (dw_commit_spec fs w Hw Hd Hp author message t id w' O O' Hc Hf)
    as (ids & F & root & _ & _ & Hsnap & HF & Hst & Hids & _ & _).
  assert (∀ p y, ids !! p = Some y → ∃ d, F !! p = Some d ∧ O' !! y = Some (Ok (OBlob (MkBlob d)))) as Hback.
  { intros p y Hy. specialize (Hids p). destruct (F !! p) as [d|]; [|congruence]. destruct Hids as (x & Hx & Hb). exists d. split; [done|congruence]. }
  assert (exportable O' root) as Hx.
  { apply (stored_exportable O' (dir_of ids) root (dir_of_wf ids)); [|done]. apply dir_of_all. intros p y Hy.
    destruct (Hback p y Hy) as (d & (rel & -> & Hrel)%HF & Hb). split; [|by exists d].
    destruct (found_names fs w Hw Hp rel d Hrel) as (_ & Hn & _ & ->). done. }
  destruct (materialize_correct O' id _ fs2 dest Hsnap (stored_grounded O' _ _ Hst) Hx Hw2 Hd2 He) as (fs2' & Hm & [Hwf Hframe Hfiles Hlinks]).
  exists fs2'. split; [done|]. split; [done..| |done]. intros rel d Hne. rewrite (Hfiles rel d Hne). cbn [snap_root].
  rewrite (tree_file_stored O' rel (dir_of ids) root d (dir_of_wf ids) Hst). split.
  - intros (y & (p & <- & Hy)%dir_of_get & _ & Hb). destruct (Hback p y Hy) as (d' & (rel' & -> & Hrel)%HF & Hb').
    assert (d' = d) as -> by congruence. by destruct (found_names fs w Hw Hp rel' d Hrel) as (_ & _ & _ & ->).
  - intros Hrel. destruct (found_names fs w Hw Hp rel d Hrel) as (_ & _ & _ & Hs).
    assert (F !! rel_string rel = Some d) as HFp by (apply HF; eauto). pose proof (Hids (rel_string rel)) as Hi. rewrite HFp in Hi.
    destruct Hi as (y & Hy & Hb). exists y. split; [apply dir_of_get; eauto|]. split; [|done].
    apply eq_None_not_Some. intros [Hnil|(q & rest & Hr & Hq & [z Hz])]%dir_of_sub; [done|].
    destruct (Hback q z Hz) as (d2 & Hq2 & _).
    destruct (found_unshadowed fs w Hw Hp F HF (rel_string rel)) as [_ Hun]; [eauto|]. apply Hun.
    destruct (segments_below (rel_string rel) q rest Hr) as (r & -> & _); [by rewrite Hs|]. exists r. eauto.
Qed.
End checkout.

(** ** Seeds in the working directory *)
Section seeds.
Context `{ReadDirLaws, Gitignore}.
Context (fs : Fs) (root : list string) (Hw : fs_wf fs) (Hd : real_dir fs root).

(** What a reported path says. *)
Definition seed_report (x : string * bool) : Prop := ∃ rel d, fs !! (root ++ rel) = Some (EFile d) ∧
  looks_like_private_seed d = true ∧ x = (rel_string rel, ignore_matcher fs root rel false).

Lemma looks_short d : looks_like_private_seed d = true → length d ≤ SEED_MAX.
Proof.
  unfold looks_like_private_seed. case_bool_decide; [done|]. case_bool_decide as Hl; [done|]. intros _. lia.
Qed.

Lemma scan_entries cur es : ∀ stack out, foldl (scan_entry fs root cur) (stack, out) es =
  (reverse (dirs_in fs root cur es) ++ stack, out ++ omap (λ e, match e.2 with
    | EFile d => if decide (e.1 = REPO_DIR) then None else if (SEED_FILE_MAX <? N.of_nat (length d))%N then None
                 else if looks_like_private_seed d then Some (rel_string (cur ++ [e.1]), ignore_matcher fs root (cur ++ [e.1]) false) else None
    | _ => None end) es).
Proof.
  induction es as [|[c e] es IH]; intros stack out; [by rewrite app_nil_r|]. cbn [foldl]. unfold dirs_in. cbn [omap list_omap].
  fold (dirs_in fs root cur es). unfold scan_entry at 2, classify. cbn [fst snd]. destruct e as [d| |t].
  - case_decide; [apply IH|]. destruct (ignore_matcher _ _ _ false) eqn:Hig; destruct (SEED_FILE_MAX <? _)%N; try apply IH;
      destruct (looks_like_private_seed d); try apply IH; rewrite IH, <- app_assoc; done.
  - case_decide; [apply IH|]. destruct (ignore_matcher _ _ _ true); [apply IH|]. rewrite IH, reverse_cons, <- app_assoc. done.
  - apply IH.
Qed.

Lemma scan_loop_spec fuel : ∀ stack out, size (below fs root stack) < fuel → real_stack fs root stack → anti stack →
  ∃ out', scan_loop fs root fuel stack out = Ok out' ∧
    (∀ x, x ∈ out' → x ∈ out ∨ seed_report x) ∧ (∀ x, x ∈ out → x ∈ out') ∧
    ∀ cur rel d, cur ∈ stack → found fs root cur rel d → looks_like_private_seed d = true → (rel_string rel, false) ∈ out'.
Proof.
  induction fuel as [|fuel IH]; intros stack out Hf Hr Ha; [lia|]. destruct stack as [|cur stack].
  { exists out. split_and!; [done|auto|done|]. by intros ? ? ? ?%elem_of_nil. }
  destruct (read_dir_Ok fs Hw (root ++ cur)) as [es Hes]; [apply Hr; by left|]. pose proof (Hr cur ltac:(by left)) as Hdir.
  destruct (anti_step fs root cur es stack Ha Hes) as [Ha' Hnot]. destruct (below_step fs root Hw cur es stack Hr Hes) as [Hr' Hsz].
  cbn [scan_loop]. rewrite Hes. cbn [mbind result_bind]. rewrite scan_entries. set (new := omap _ es).
  destruct (IH (reverse (dirs_in fs root cur es) ++ stack) (out ++ new)) as (out' & Ho & Hsound & Hkeep & Hcomp); [specialize (Hsz Hnot); lia|done..|].
  exists out'. split; [done|]. assert (∀ x, x ∈ new → seed_report x) as Hnew.
  { intros x ([c e] & Hin & Hx)%list_elem_of_omap. apply (read_dir_elem fs Hw _ es c e Hdir Hes) in Hin. cbn [fst snd] in Hx.
    destruct e as [d| |t]; [|done..]. case_decide; [done|]. destruct (_ <? _)%N; [done|]. destruct (looks_like_private_seed d) eqn:Hl; [|done].
    injection Hx as <-. exists (cur ++ [c]), d. by rewrite app_assoc. }
  split; [|split].
  - intros x [[?|?]%elem_of_app|?]%Hsound; auto.
  - intros x Hx. apply Hkeep, elem_of_app. by left.
  - intros cur' rel d [->|Hin]%elem_of_cons Hfound Hl; [|apply (Hcomp cur' rel d); [apply elem_of_app; by right|done..]].
    apply (found_step fs root Hw cur es rel d Hdir Hes) in Hfound as [Hfile|(p & Hp & Hbelow)].
    + apply Hkeep, elem_of_app. right. apply (elem_of_files_in fs root Hw cur es rel d Hdir Hes) in Hfile as (c & -> & Hc & Hne & Hig).
      apply list_elem_of_omap. exists (c, EFile d). split; [by apply (read_dir_elem fs Hw _ es c _ Hdir Hes)|]. cbn [fst snd].
      rewrite decide_False by done. rewrite (proj2 (N.ltb_ge _ _)); [by rewrite Hl, Hig|]. apply looks_short in Hl. unfold SEED_FILE_MAX, SEED_MAX in *. lia.
    + apply (Hcomp p rel d); [apply elem_of_app; left; by apply elem_of_reverse|done..].
Qed.

(** The scan for seeds ends; every path it reports is a file that looks like one,
    with the verdict of the ignore file; and it misses no file that a commit of the
    directory would capture: such a file is reported as not ignored. *)
Theorem scan_seeds_complete : ∃ out, scan_seed_files fs root = Ok out ∧ (∀ x, x ∈ out → seed_report x) ∧
  ∀ rel d, found fs root [] rel d → looks_like_private_seed d = true → (rel_string rel, false) ∈ out.
Proof.
  destruct (scan_loop_spec (S (size fs + 1)) [[]] []) as (out & Ho & Hsound & _ & Hcomp).
  - pose proof (below_start fs root Hw). lia.
  - intros cur ->%list_elem_of_singleton. by rewrite app_nil_r.
  - apply anti_start.
  - exists (sort_by seed_cmp out). unfold scan_seed_files. rewrite Ho. cbn [mbind result_bind]. split; [done|]. setoid_rewrite sort_by_perm. split.
    + intros x [?%elem_of_nil|?]%Hsound; done.
    + intros rel d Hf Hl. apply (Hcomp [] rel d); [by left|done..].
Qed.
End seeds.

(** ** On concrete data *)
Definition key_ok (fs : Fs) (p : list string) : Prop :=
  match reverse p with c :: r => entry_at fs (reverse r) = Some EDir ∧ proper_name c | [] => False end.
#[global] Instance key_ok_dec fs p : Decision (key_ok fs p).
Proof. unfold key_ok. destruct (reverse p); apply _. Defined.
Definition fs_check (fs : Fs) : Prop := map_Forall (λ p _, key_ok fs p) fs.
Lemma fs_check_wf fs : fs_check fs → fs_wf fs.
Proof.
  intros Hc. assert (∀ p c, is_Some (fs !! (p ++ [c])) → entry_at fs p = Some EDir ∧ proper_name c) as Hall.
  { intros p c [e He]. apply Hc in He. unfold key_ok in He. by rewrite reverse_snoc, reverse_involutive in He. }
  split; [|by intros p c [? _]%Hall|by intros p c [_ ?]%Hall]. apply eq_None_not_Some. intros [e He]. by apply Hc in He.
Qed.
#[global] Instance plain_name_dec c : Decision (plain_name c).
Proof. unfold plain_name. apply _. Defined.
Lemma plain_keys fs root : map_Forall (λ p (_ : FsEntry), Forall plain_name p) fs →
  ∀ `{ReadDir, Gitignore} rel d, found fs root [] rel d → Forall plain_name rel.
Proof.
  intros Hk ? ? rel d (r & _ & -> & Hr%Hk)%found_file. by apply Forall_app in Hr as [_ Hr].
Qed.

#[local] Existing Instance toy_read_dir.
#[local] Existing Instance ex_ws_codec.
#[local] Instance toy_read_dir_laws : ReadDirLaws.
Proof. by split. Qed.
(** Every line of the ignore file is a name. *)
#[local] Instance toy_ignore : Gitignore := λ content rel _, existsb (λ l, bool_decide (last rel = Some (bytes_str l))) (lines content).

(** A working directory with a repository, an excluded file and a link, and an empty
    directory beside it. *)
Definition ex_fs : Fs :=
  {[ ["w"] := EDir; ["w"; ".bole"] := EDir; ["w"; ".bole"; "x"] := EFile [x00]; ["w"; "a"] := EDir; ["w"; "a"; "b"] := EFile [x41];
     ["w"; "c"] := EFile [x42]; ["w"; "k"] := EFile [x43]; ["w"; "l"] := ELink "../w/c";
     ["w"; ".boleignore"] := EFile (str_bytes "k" ++ [x0a] ++ str_bytes ".boleignore"); ["d"] := EDir ]}.
Definition ex_dw : DiskWorkspace := dw_new ["w"].
Definition ex_dw_run : res (ObjectId * DiskWorkspace) * objects := dw_commit ex_fs "me" "msg" 7 ex_dw ∅.
Definition ex_exported : Fs := (materialize ex_dw_run.2 (ex_wid x05) ["d"] ex_fs).2.

Lemma ex_fs_wf : fs_wf ex_fs.
Proof. apply fs_check_wf. unfold fs_check. apply (bool_decide_unpack _). by vm_compute. Qed.
Lemma ex_fs_plain rel d : found ex_fs ["w"] [] rel d → Forall plain_name rel.
Proof.
  intros Hf. assert (map_Forall (λ p (_ : FsEntry), Forall plain_name p) ex_fs) as Hk by (apply (bool_decide_unpack _); by vm_compute).
  exact (plain_keys ex_fs ["w"] Hk _ _ Hf).
Qed.
Lemma ex_dw_run_eq : dw_commit ex_fs "me" "msg" 7 ex_dw ∅ = (Ok (ex_wid x05, dw_bound ["w"] (ex_wid x05)), ex_dw_run.2).
Proof.
  assert (ex_dw_run.1 = Ok (ex_wid x05, dw_bound ["w"] (ex_wid x05))) as <- by (apply (bool_decide_unpack _); by vm_compute).
  apply surjective_pairing.
Qed.
Lemma ex_dw_free : collision_free (written (dw_commit ex_fs "me" "msg" 7 ex_dw)) ∅.
Proof.
  assert (written (dw_commit ex_fs "me" "msg" 7 ex_dw) = [OBlob (MkBlob [x42]); OBlob (MkBlob [x41]); ex_src; ex_top; ex_snap x04]) as ->
    by (apply (bool_decide_unpack _); by vm_compute).
  split; [|intros o x r _ _ Hx; rewrite lookup_empty in Hx; discriminate Hx].
  intros o1 o2 x H1 H2. rewrite !elem_of_cons, elem_of_nil in H1, H2.
  destruct H1 as [->|[->|[->|[->|[->|[]]]]]], H2 as [->|[->|[->|[->|[->|[]]]]]]; intros Hx Hy;
    first [reflexivity | exfalso; rewrite <- Hx in Hy; vm_compute in Hy; discriminate Hy].
Qed.

Lemma dw_commit_reads_back_witness :
  from_snapshot ex_dw_run.2 (ex_wid x05) = Ok (MkWorkspace (Some (ex_wid x05)) {[ "a/b" := [x41]; "c" := [x42] ]}) ∧
  found ex_fs ["w"] [] ["a"; "b"] [x41].
Proof.
  destruct (dw_commit_reads_back ex_fs ex_dw (dw_bound ["w"] (ex_wid x05)) "me" "msg" 7 (ex_wid x05) ∅ ex_dw_run.2
    ex_fs_wf eq_refl ex_fs_plain ex_dw_run_eq ex_dw_free) as (_ & _ & _ & files & Hf & Hin).
  assert (from_snapshot ex_dw_run.2 (ex_wid x05) = Ok (MkWorkspace (Some (ex_wid x05)) {[ "a/b" := [x41]; "c" := [x42] ]})) as He
    by (apply (bool_decide_unpack _); vm_compute; exact I).
  split; [exact He|]. rewrite He in Hf. injection Hf as Hf. destruct (proj1 (Hin "a/b" [x41])) as (rel & Hr & Hfound).
  { rewrite <- Hf. vm_compute. reflexivity. }
  destruct (found_names ex_fs ex_dw ex_fs_wf ex_fs_plain rel [x41] Hfound) as (_ & _ & _ & Hs). rewrite <- Hr in Hs.
  assert (rel = ["a"; "b"]) as -> by (rewrite <- Hs; vm_compute; reflexivity). exact Hfound.
Defined.

Lemma checkout_roundtrip_witness : ex_exported !! ["d"; "a"; "b"] = Some (EFile [x41]) ∧
  ∀ rel d, rel ≠ [] → ex_exported !! (["d"] ++ rel) = Some (EFile d) → found ex_fs ["w"] [] rel d.
Proof.
  split; [vm_compute; reflexivity|].
  destruct (checkout_roundtrip ex_fs ex_fs ex_dw (dw_bound ["w"] (ex_wid x05)) "me" "msg" 7 (ex_wid x05) ∅ ex_dw_run.2 ["d"]
    ex_fs_wf eq_refl ex_fs_plain ex_dw_run_eq ex_dw_free ex_fs_wf eq_refl) as (fs' & Hm & Hx).
  - intros n r. assert (map_Forall (λ p (_ : FsEntry), ¬ (["d"] `prefix_of` p ∧ p ≠ ["d"])) ex_fs) as Ha
      by (apply (bool_decide_unpack _); vm_compute; exact I).
    destruct (ex_fs !! (["d"] ++ n :: r)) as [e|] eqn:He; [|reflexivity]. apply Ha in He. destruct He. split; [exists (n :: r); reflexivity|discriminate].
  - intros rel d Hne He. apply (ex_files _ _ _ _ Hx rel d Hne). unfold ex_exported in He. rewrite Hm in He. exact He.
Defined.

Lemma scan_seeds_complete_witness : ∃ out, scan_seed_files ex_fs ["w"] = Ok out.
Proof. destruct (scan_seeds_complete ex_fs ["w"] ex_fs_wf eq_refl) as (out & Ho & _). exists out. exact Ho. Defined.

(** *** Entry names that are paths

    The names of a tree are whatever was decoded: an export joins them to the destination
    as they are, so a tree received from a peer can write outside of it. *)
Definition ex_evil_tree (name : string) : objects :=
  {[ ex_wid x01 := Ok (OBlob (MkBlob [x41])); ex_wid x02 := Ok (OTree (MkTree {[ name := MkTreeEntry (ex_wid x01) KindBlob ]}));
     ex_wid x03 := Ok (OSnapshot (MkSnapshot (ex_wid x02) [] "" 0 "")) ]}.
Example materialize_escapes :
  (materialize (ex_evil_tree "../evil") (ex_wid x03) ["d"] ex_fs).2 !! ["evil"] = Some (EFile [x41]) ∧
  (materialize (ex_evil_tree "/w/.bole/x") (ex_wid x03) ["d"] ex_fs).2 !! ["w"; ".bole"; "x"] = Some (EFile [x41]).
Proof. by vm_compute. Qed.

(** *** Names that are not text

    Two files whose names differ in a byte that is not UTF-8, or in a slash and a backslash, share a
    path: a commit keeps one of them. *)
Definition ex_twins : Fs :=
  {[ ["w"] := EDir; ["w"; bytes_str [x61; xff]] := EFile [x41]; ["w"; bytes_str [x61; xfe]] := EFile [x42] ]}.
Example twins_collapse : size <$> (dw_collect ex_twins ["w"] (∅ : objects)).1 = Ok 1.
Proof. by vm_compute. Qed.
