(* ===== verification/Workspaces.v ===== *)
(** * Workspaces: the [Workspace] trait and its two implementations

    The trait of src/src/repo/ephemeral.rs, implemented in memory ([Ephemeral.v]) and on
    disk ([Checkout.v]), with the contract that both keep: on the paths a workspace
    covers it is a map from paths to bytes, and a commit reads back as what the workspace
    captures.  The state of a [DiskWorkspace] is the file system together with its
    fields.

    The theorems are about any implementation: a sequence of edits that succeeds leaves
    the map it should, answers what it should, and two implementations that start with the
    same files cannot be told apart by it. *)

From S2P Require Import Prelude Graph Order Ids Text Objects Store Lattice Access Walk Disk Ephemeral Worktree Checkout CheckoutFacts CheckoutRoundtrip.

(** ** The trait *)
Class Workspace (W : Type) := {
  w_base : W → option ObjectId;
  w_read : W → string → res (option bytes);
  w_write : string → bytes → M W ();
  w_remove : string → M W bool;
  w_paths : ∀ {S : Type} {_ : Puts S}, W → M S (list string);
  w_diff : ∀ {_ : ObjectCodec}, W → M objects PathDiff;
  w_commit : ∀ {S : Type} {_ : Puts S}, string → string → N → W → M S (ObjectId * W)
}.

#[global] Instance ephemeral_Workspace : Workspace EphemeralWorkspace := {|
  w_base := ws_base;
  w_read w path := Ok (ws_read w path);
  w_write path data := modify (ws_write path data);
  w_remove path := λ w, let '(b, w) := ws_remove path w in (Ok b, w);
  w_paths S _ w := mret (ws_paths w);
  w_diff _ w := ws_diff w;
  w_commit S _ author message created_at w := ws_commit author message created_at w
|}.

Abbreviation DiskState := (Fs * DiskWorkspace)%type.
Section disk.
Context `{ReadDir, Gitignore}.
(** A change of the file system. *)
Definition on_fs {A} (f : DiskWorkspace → M Fs A) : M DiskState A := λ s,
  let '(r, fs) := f s.2 s.1 in (r, (fs, s.2)).
#[global] Instance disk_Workspace : Workspace DiskState := {|
  w_base s := dw_base s.2;
  w_read s path := dw_read s.1 s.2 path;
  w_write path data := on_fs (λ w, dw_write w path data);
  w_remove path := on_fs (λ w, dw_remove w path);
  w_paths S _ s := dw_paths s.1 s.2;
  w_diff _ s := dw_diff s.1 s.2;
  w_commit S _ author message created_at s :=
    '(id, w) ← dw_commit s.1 author message created_at s.2; mret (id, (s.1, w))
|}.
End disk.

(** ** The contract *)
Class WorkspaceLaws (W : Type) `{Workspace W, ObjectCodec} := {
  w_ok : W → Prop;
  (** The paths it covers. *)
  w_good : string → Prop;
  w_file : W → string → option bytes;
  (** What a commit takes, and when it can be read back. *)
  w_captured : W → string → bytes → Prop;
  w_clean : W → Prop;
  w_read_Ok w p v : w_ok w → w_good p → w_read w p = Ok v → v = w_file w p;
  w_read_stored w p d : w_ok w → w_good p → w_file w p = Some d → w_read w p = Ok (Some d);
  w_write_Ok w p d w' : w_ok w → w_good p → w_write p d w = (Ok (), w') → w_ok w' ∧ w_base w' = w_base w ∧
    ∀ q, w_good q → w_file w' q = if decide (q = p) then Some d else w_file w q;
  w_remove_Ok w p b w' : w_ok w → w_good p → w_remove p w = (Ok b, w') → w_ok w' ∧ w_base w' = w_base w ∧
    b = bool_decide (is_Some (w_file w p)) ∧ ∀ q, w_good q → w_file w' q = if decide (q = p) then None else w_file w q;
  w_captured_file w p d : w_ok w → w_clean w → w_captured w p d → w_good p ∧ w_file w p = Some d;
  w_commit_Ok w author message t id w' (O O' : objects) : w_ok w → w_clean w →
    w_commit author message t w O = (Ok (id, w'), O') → collision_free (written (w_commit author message t w)) O →
    w_ok w' ∧ w_base w' = Some id ∧ (∀ p, w_file w' p = w_file w p) ∧ (w_diff w' O').1 = Ok (MkDiff [] [] []) ∧
    ∃ files, from_snapshot O' id = Ok (MkWorkspace (Some id) files) ∧ ∀ p d, files !! p = Some d ↔ w_captured w p d
}.

(** In memory every path is covered; a commit can be read back if no file is at the same
    time a directory of another one. *)
#[global] Program Instance ephemeral_WorkspaceLaws `{ObjectCodec} : WorkspaceLaws EphemeralWorkspace := {|
  w_ok w := True;
  w_good p := True;
  w_file w p := ws_files w !! p;
  w_captured w p d := ws_files w !! p = Some d;
  w_clean w := ∀ p, is_Some (ws_files w !! p) → rooted p = false ∧ ¬ shadowed (ws_files w) p
|}.
Next Obligation. intros ? w p v _ _ [= <-]. done. Qed.
Next Obligation. intros ? w p d _ _ Hd. simpl. unfold ws_read. by rewrite Hd. Qed.
Next Obligation.
  intros ? w p d w' _ _ [= <-]. split_and!; [done..|]. intros q _. simpl. case_decide as Hq; [by subst; rewrite lookup_insert_eq|by rewrite lookup_insert_ne].
Qed.
Next Obligation.
  intros ? w p b w' _ _ [= <- <-]. split_and!; [done..|]. intros q _. simpl. case_decide as Hq; [by subst; rewrite lookup_delete_eq|by rewrite lookup_delete_ne].
Qed.
Next Obligation. done. Qed.
Next Obligation.
  intros ? w author message t id w' O O' _ Hcl Hc Hfree.
  destruct (commit_reads_back w w' author message t id O O' (λ p Hp, proj1 (Hcl p Hp)) Hc Hfree) as (_ & -> & _ & _ & Hns).
  destruct (Hns (λ p Hp, proj2 (Hcl p Hp))) as [Hfrom Hdiff]. split_and!; [done..|]. by exists (ws_files w).
Qed.

(** ** Paths of a working directory *)

(** A root directory with no link below it. *)
Record plain_root (fs : Fs) (root : list string) : Prop := {
  pr_wf : fs_wf fs;
  pr_dir : real_dir fs root;
  pr_links r t : fs !! (root ++ r) ≠ Some (ELink t)
}.
(** A relative path without empty names, dots and double dots. *)
Definition plain_path (p : string) : Prop := rooted p = false ∧ Forall proper_name (segments p).

Lemma join_plain root p : plain_path p → join root p = root ++ segments p.
Proof. intros [Hr _]. unfold join. by rewrite Hr. Qed.
Lemma segments_inj p q : segments p = segments q → p = q.
Proof. intros Hs. by rewrite <- (segments_join p), Hs, segments_join. Qed.
Lemma segments_snoc p : plain_path p → ∃ l c, segments p = l ++ [c] ∧ Forall proper_name l ∧ proper_name c.
Proof.
  intros [_ Hp]. pose proof (segments_nonempty p) as Hne. destruct (segments p) as [|c l _] using rev_ind; [done|].
  apply Forall_app in Hp as [Hl Hc%Forall_inv]. by exists l, c.
Qed.
Lemma parent_snoc p c : proper_name c → parent (p ++ [c]) = Some p.
Proof.
  intros (H1 & H2 & _). unfold parent. rewrite reverse_snoc. cbn [strip_dots]. rewrite decide_False by naive_solver.
  by rewrite reverse_involutive.
Qed.

Lemma plain_root_below fs root r : plain_root fs root → real_dir fs (root ++ r) → plain_root fs (root ++ r).
Proof. intros [Hw _ Hl] Hd. split; [done..|]. intros r' t. rewrite <- app_assoc. apply Hl. Qed.

(** A path resolves to itself or to nothing. *)
Lemma resolve_plain links follow fs cur rel : plain_root fs cur → Forall proper_name rel →
  match resolve links fs follow cur rel with
  | Ok q => q = cur ++ rel
  | Err _ => fs !! (cur ++ rel) = None
  end.
Proof.
  intros Hcur Hp. revert cur Hcur. induction Hp as [|c rel Hc Hp IH]; intros cur Hcur; [by rewrite resolve_nil, app_nil_r|].
  rewrite resolve_cons by done. replace (cur ++ c :: rel) with ((cur ++ [c]) ++ rel) by by rewrite <- app_assoc.
  assert (rel ≠ [] → (fs !! (cur ++ [c]) ≠ Some EDir) → fs !! ((cur ++ [c]) ++ rel) = None) as Hnone.
  { intros Hne Hd. apply eq_None_not_Some. intros Hs. apply Hd. pose proof (below_dir fs (cur ++ [c]) rel (pr_wf fs cur Hcur) Hne Hs) as Hdir.
    unfold real_dir in Hdir. by rewrite entry_at_snoc in Hdir. }
  destruct (fs !! (cur ++ [c])) as [[d| |t]|] eqn:He.
  - case_decide as Hr; [by rewrite Hr, app_nil_r|]. by apply Hnone.
  - apply IH, (plain_root_below fs cur [c] Hcur). unfold real_dir. by rewrite entry_at_snoc.
  - by destruct (pr_links fs cur Hcur [c] t).
  - case_decide as Hr; [by rewrite Hr, app_nil_r|]. by apply Hnone.
Qed.
Lemma resolve_below fs follow root rel : plain_root fs root → Forall proper_name rel →
  match fs_resolve fs follow (root ++ rel) with
  | Ok q => q = root ++ rel
  | Err _ => fs !! (root ++ rel) = None
  end.
Proof.
  intros Hr Hp. unfold fs_resolve. rewrite (resolve_dirs _ fs follow [] root rel (pr_wf fs root Hr) (pr_dir fs root Hr)). by apply resolve_plain.
Qed.

(** ** Changes below the root *)
Lemma plain_root_insert fs root p c e : plain_root fs root → real_dir fs (root ++ p) → proper_name c → (∀ t, e ≠ ELink t) →
  (e = EDir ∨ fs !! (root ++ p ++ [c]) ≠ Some EDir) → plain_root (<[root ++ p ++ [c] := e]> fs) root.
Proof.
  intros [Hw Hd Hl] Hp Hc He Hdir. split.
  - rewrite app_assoc. apply fs_wf_insert; [done..|]. intros q d Hs. destruct Hdir as [?|Hdir]; [done|].
    exfalso. apply Hdir. rewrite app_assoc. pose proof (below_dir fs ((root ++ p) ++ [c]) (q ++ [d]) Hw ltac:(by destruct q) Hs) as Hr.
    unfold real_dir in Hr. by rewrite entry_at_snoc in Hr.
  - unfold real_dir, entry_at in Hd |- *. destruct (decide (root = [])); [done|]. rewrite lookup_insert_ne; [done|].
    intros Heq%(f_equal length). rewrite !length_app in Heq. simpl in Heq. lia.
  - intros r t. rewrite lookup_insert_Some. intros [[_ ?]|[_ ?]]; [by eapply He|by eapply Hl].
Qed.
Lemma plain_root_delete fs root p c d : plain_root fs root → fs !! (root ++ p ++ [c]) = Some (EFile d) →
  plain_root (delete (root ++ p ++ [c]) fs) root.
Proof.
  intros [Hw Hd Hl] Hf.
  assert (∀ q, entry_at fs q = Some EDir → entry_at (delete (root ++ p ++ [c]) fs) q = Some EDir) as Hent.
  { intros q. unfold entry_at. case_decide; [done|]. intros Hq. rewrite lookup_delete_ne; [done|]. intros <-. congruence. }
  split.
  - split.
    + apply lookup_delete_None. right. apply (fw_root fs Hw).
    + intros q n [e [_ He]%lookup_delete_Some]. apply Hent, (fw_parent fs Hw q n). eauto.
    + intros q n [e [_ He]%lookup_delete_Some]. apply (fw_name fs Hw q n). eauto.
  - by apply Hent.
  - intros r t [_ ?]%lookup_delete_Some. by eapply Hl.
Qed.

Definition same_files (fs fs' : Fs) : Prop := ∀ q d, fs' !! q = Some (EFile d) ↔ fs !! q = Some (EFile d).
(** What [create_dir_all] does when it succeeds. *)
Lemma create_dirs_below root rel : Forall proper_name rel → ∀ fs fs', plain_root fs root → create_dir_all (root ++ rel) fs = (Ok (), fs') →
  plain_root fs' root ∧ real_dir fs' (root ++ rel) ∧ same_files fs fs'.
Proof.
  intros Hp. induction rel as [|c rel IH] using rev_ind; intros fs fs' Hr.
  { rewrite app_nil_r, create_dir_all_real by apply Hr. intros [= <-]. split; [done|]. split; [apply Hr|done]. }
  apply Forall_app in Hp as [Hp Hc%Forall_inv]. rewrite app_assoc, create_dir_all_snoc, M_bind_Ok. intros ([] & fs1 & H1 & H2).
  destruct (IH Hp fs fs1 Hr H1) as (Hr1 & Hd1 & Hs1). pose proof (pr_wf fs1 root Hr1) as Hw1. unfold mkdir_step in H2.
  assert (∀ t, fs1 !! ((root ++ rel) ++ [c]) ≠ Some (ELink t)) as Hl by (intros t; rewrite <- app_assoc; apply Hr1).
  rewrite resolve_entry, entry_at_snoc in H2 by done. unfold is_dir in H2.
  destruct (fs1 !! ((root ++ rel) ++ [c])) as [[d| |t]|] eqn:He.
  - rewrite resolve_entry, entry_at_snoc, He in H2 by (done || by rewrite He). by rewrite bool_decide_eq_false_2 in H2.
  - rewrite resolve_entry, entry_at_snoc, He in H2 by (done || by rewrite He). rewrite bool_decide_eq_true_2 in H2 by done. injection H2 as <-.
    split; [done|]. split; [|done]. unfold real_dir. by rewrite entry_at_snoc.
  - by destruct (Hl t).
  - injection H2 as <-. split; [|split].
    + rewrite <- app_assoc. by apply plain_root_insert; [..|by left].
    + unfold real_dir. by rewrite entry_at_snoc, lookup_insert_eq.
    + intros q d. rewrite <- (Hs1 q d), lookup_insert_Some. split; [by intros [[_ ?]|[_ ?]]|]. intros Hq. right. split; [congruence|done].
Qed.

(** ** The operations on disk *)
Section ops.
Context (w : DiskWorkspace).
Abbreviation root := (dw_root w).

Definition dw_file (fs : Fs) (p : string) : option bytes :=
  match fs !! (root ++ segments p) with Some (EFile d) => Some d | _ => None end.
Lemma dw_file_Some fs p d : dw_file fs p = Some d ↔ fs !! (root ++ segments p) = Some (EFile d).
Proof. unfold dw_file. destruct (fs !! _) as [[]|]; naive_solver. Qed.
Lemma same_files_dw fs fs' p : same_files fs fs' → dw_file fs' p = dw_file fs p.
Proof. intros Hs. apply option_eq. intros d. rewrite !dw_file_Some. apply Hs. Qed.

Lemma entry_below fs p : plain_path p → entry_at fs (root ++ segments p) = fs !! (root ++ segments p).
Proof. intros (l & c & -> & _)%segments_snoc. by rewrite app_assoc, entry_at_snoc. Qed.

Lemma dw_read_spec fs p : plain_root fs root → plain_path p →
  match dw_read fs w p with Ok v => v = dw_file fs p | Err _ => dw_file fs p = None end.
Proof.
  intros Hr Hp. unfold dw_read, fs_read. rewrite join_plain by done. pose proof (resolve_below fs true root (segments p) Hr (proj2 Hp)) as Hres.
  unfold dw_file. destruct (fs_resolve fs true (root ++ segments p)) as [q|e]; cbn [mbind result_bind].
  - subst q. rewrite entry_below by done. destruct (fs !! (root ++ segments p)) as [[]|]; done.
  - rewrite Hres. destruct e as [| |[]| | | | | | | | | |]; done.
Qed.
Lemma dw_read_stored fs p d : plain_root fs root → plain_path p → dw_file fs p = Some d → dw_read fs w p = Ok (Some d).
Proof.
  intros Hr Hp Hd. pose proof (dw_read_spec fs p Hr Hp) as Hs. destruct (dw_read fs w p); congruence.
Qed.

Lemma file_insert fs p q d : dw_file (<[root ++ segments p := EFile d]> fs) q = if decide (q = p) then Some d else dw_file fs q.
Proof.
  unfold dw_file. case_decide as Hq; [by subst; rewrite lookup_insert_eq|].
  rewrite lookup_insert_ne; [done|]. by intros Heq%(inj (app root))%segments_inj.
Qed.
Lemma file_delete fs p q : dw_file (delete (root ++ segments p) fs) q = if decide (q = p) then None else dw_file fs q.
Proof.
  unfold dw_file. case_decide as Hq; [by subst; rewrite lookup_delete_eq|].
  rewrite lookup_delete_ne; [done|]. by intros Heq%(inj (app root))%segments_inj.
Qed.

Lemma dw_write_spec fs p d fs' : plain_root fs root → plain_path p → dw_write w p d fs = (Ok (), fs') →
  plain_root fs' root ∧ ∀ q, dw_file fs' q = if decide (q = p) then Some d else dw_file fs q.
Proof.
  intros Hr Hp. unfold dw_write. rewrite join_plain by done. destruct (segments_snoc p Hp) as (l & c & Hs & Hl & Hc).
  rewrite Hs, app_assoc, parent_snoc, M_bind_Ok by done. intros ([] & fs1 & H1 & H2).
  destruct (create_dirs_below root l Hl fs fs1 Hr H1) as (Hr1 & Hd1 & Hs1). unfold fs_write in H2.
  rewrite resolve_entry, entry_at_snoc in H2 by (done || apply Hr1 || (intros t; rewrite <- app_assoc; apply Hr1)).
  assert (fs1 !! ((root ++ l) ++ [c]) ≠ Some EDir ∧ fs' = <[(root ++ l) ++ [c] := EFile d]> fs1) as [Hne ->].
  { destruct (fs1 !! ((root ++ l) ++ [c])) as [[]|]; try done; by injection H2 as <-. }
  split; [rewrite <- app_assoc in *; apply plain_root_insert; [done..|by right]|].
  intros q. rewrite <- app_assoc, <- Hs, file_insert. case_decide; [done|]. by apply same_files_dw.
Qed.

Lemma dw_remove_spec fs p b fs' : plain_root fs root → plain_path p → dw_remove w p fs = (Ok b, fs') →
  plain_root fs' root ∧ b = bool_decide (is_Some (dw_file fs p)) ∧ ∀ q, dw_file fs' q = if decide (q = p) then None else dw_file fs q.
Proof.
  intros Hr Hp. unfold dw_remove, fs_remove_file. rewrite join_plain by done.
  pose proof (resolve_below fs false root (segments p) Hr (proj2 Hp)) as Hres.
  assert (dw_file fs p = None → ∀ q, dw_file fs q = if decide (q = p) then None else dw_file fs q) as Hsame.
  { intros Hn q. case_decide; [by subst|done]. }
  destruct (fs_resolve fs false (root ++ segments p)) as [q|e].
  - subst q. rewrite entry_below by done. destruct (fs !! (root ++ segments p)) as [[d| |t]|] eqn:He; [..|].
    + intros [= <- <-]. rewrite (proj2 (dw_file_Some fs p d) He). destruct (segments_snoc p Hp) as (l & c & Hs & _).
      split; [rewrite Hs in *; by eapply plain_root_delete|]. split; [done|]. intros q. apply file_delete.
    + done.
    + by destruct (pr_links fs root Hr (segments p) t).
    + intros [= <- <-]. assert (dw_file fs p = None) as Hn by (unfold dw_file; by rewrite He). rewrite Hn. auto.
  - assert (dw_file fs p = None) as Hn by (unfold dw_file; by rewrite Hres). rewrite Hn. destruct e as [| |[]| | | | | | | | | |]; try done.
    intros [= <- <-]. auto.
Qed.
End ops.

(** On disk the paths covered are the plain ones below a root without links; a commit
    takes what the walk finds, and can be read back if those names survive it. *)
#[global] Program Instance disk_WorkspaceLaws `{ObjectCodec, ReadDirLaws, Gitignore} : WorkspaceLaws DiskState := {|
  w_ok s := plain_root s.1 (dw_root s.2);
  w_good := plain_path;
  w_file s p := dw_file s.2 s.1 p;
  w_captured s p d := ∃ rel, p = rel_string rel ∧ found s.1 (dw_root s.2) [] rel d;
  w_clean s := ∀ rel d, found s.1 (dw_root s.2) [] rel d → Forall plain_name rel
|}.
Next Obligation. intros ? ? ? ? [fs w] p v Hok Hp Hr. pose proof (dw_read_spec w fs p Hok Hp) as Hs. change (dw_read fs w p = Ok v) in Hr. by rewrite Hr in Hs. Qed.
Next Obligation. intros ? ? ? ? [fs w] p d Hok Hp Hd. exact (dw_read_stored w fs p d Hok Hp Hd). Qed.
Next Obligation.
  intros ? ? ? ? [fs w] p d [fs' w'] Hok Hp. cbn [w_write disk_Workspace]. unfold on_fs. cbn [fst snd]. destruct (dw_write w p d fs) as [r fs1] eqn:Hw.
  intros [= -> <- <-]. destruct (dw_write_spec w fs p d fs1 Hok Hp Hw) as [Hok' Hf]. split_and!; [done..|]. intros q _. apply Hf.
Qed.
Next Obligation.
  intros ? ? ? ? [fs w] p b [fs' w'] Hok Hp. cbn [w_remove disk_Workspace]. unfold on_fs. cbn [fst snd]. destruct (dw_remove w p fs) as [r fs1] eqn:Hw.
  intros [= -> <- <-]. destruct (dw_remove_spec w fs p b fs1 Hok Hp Hw) as (Hok' & Hb & Hf). split_and!; [done..|]. intros q _. apply Hf.
Qed.
Next Obligation.
  intros ? ? ? ? [fs w] p d Hok Hcl (rel & -> & Hf). cbn [fst snd] in *.
  destruct (found_names fs w (pr_wf _ _ Hok) Hcl rel d Hf) as (Hne & Hp & He & Hs). split.
  - split; [by apply rel_not_rooted; [..|by eapply Hcl]|]. by rewrite Hs.
  - apply dw_file_Some. by rewrite Hs.
Qed.
Next Obligation.
  intros ? ? ? ? [fs w] author message t id [fs' w'] O O' Hok Hcl Hc Hfree. cbn [fst snd w_commit disk_Workspace] in *.
  unfold mbind, M_bind, mret, M_ret in Hc. destruct (dw_commit fs author message t w O) as [[[id1 w1]|e] O1] eqn:Hd; [|done].
  injection Hc as <- <- <- <-.
  assert (collision_free (written (dw_commit fs author message t w)) O) as Hfree'.
  { revert Hfree. unfold written, mbind, M_bind, mret, M_ret. by destruct (dw_commit (S := Log) fs author message t w []) as [[[]|] ?]. }
  destruct (dw_commit_spec fs w (pr_wf _ _ Hok) (pr_dir _ _ Hok) Hcl author message t id1 w1 O O1 Hd Hfree')
    as (ids & F & r & _ & -> & _ & HF & _ & _ & Hfrom & Hdiff). split_and!; [done..|]. by exists F.
Qed.

(** ** Edits of any workspace *)
Inductive edit : Type := Write (p : string) (d : bytes) | Remove (p : string).
Definition edit_path (e : edit) : string := match e with Write p _ | Remove p => p end.

Section edits.
Context {W : Type} `{Workspace W}.
(** A removal answers whether the file was there. *)
Definition run_edit (e : edit) : M W (option bool) :=
  match e with
  | Write p d => _ ← w_write p d; mret None
  | Remove p => b ← w_remove p; mret (Some b)
  end.
Fixpoint run_edits (l : list edit) : M W (list (option bool)) :=
  match l with
  | [] => mret []
  | e :: l => a ← run_edit e; r ← run_edits l; mret (a :: r)
  end.
End edits.

(** What they should do to a map, and answer. *)
Definition edit_map (e : edit) (F : gmap string bytes) : gmap string bytes :=
  match e with Write p d => <[p := d]> F | Remove p => delete p F end.
Definition edit_answer (e : edit) (F : gmap string bytes) : option bool :=
  match e with Write _ _ => None | Remove p => Some (bool_decide (is_Some (F !! p))) end.
Fixpoint edit_answers (l : list edit) (F : gmap string bytes) : list (option bool) :=
  match l with [] => [] | e :: l => edit_answer e F :: edit_answers l (edit_map e F) end.

Section client.
Context {W : Type} `{WorkspaceLaws W}.
Definition holds_files (w : W) (F : gmap string bytes) : Prop := ∀ p, w_good p → w_file w p = F !! p.

Lemma run_edit_Ok e w a w' F : w_ok w → w_good (edit_path e) → holds_files w F → run_edit e w = (Ok a, w') →
  w_ok w' ∧ w_base w' = w_base w ∧ a = edit_answer e F ∧ holds_files w' (edit_map e F).
Proof.
  intros Hok Hp HF. destruct e as [p d|p]; cbn [run_edit]; rewrite M_bind_Ok.
  - intros ([] & w1 & Hw & [= <- <-]). destruct (w_write_Ok w p d w1 Hok Hp Hw) as (? & ? & Hf). split_and!; [done..|].
    intros q Hq. rewrite Hf by done. simpl. case_decide; [by subst; rewrite lookup_insert_eq|]. rewrite lookup_insert_ne by done. by apply HF.
  - intros (b & w1 & Hw & [= <- <-]). destruct (w_remove_Ok w p b w1 Hok Hp Hw) as (? & ? & -> & Hf). split_and!; [done..|by simpl; rewrite HF|].
    intros q Hq. rewrite Hf by done. simpl. case_decide; [by subst; rewrite lookup_delete_eq|]. rewrite lookup_delete_ne by done. by apply HF.
Qed.

(** A sequence of edits that succeeds leaves the files it should and answers what it should,
    whatever the implementation; the base stays. *)
Theorem edits_correct (l : list edit) (w w' : W) (F : gmap string bytes) (r : list (option bool)) :
  w_ok w → holds_files w F → Forall (λ e, w_good (edit_path e)) l → run_edits l w = (Ok r, w') →
  w_ok w' ∧ w_base w' = w_base w ∧ r = edit_answers l F ∧ holds_files w' (foldl (λ F e, edit_map e F) F l).
Proof.
  intros Hok HF Hl. revert w F r Hok HF. induction Hl as [|e l He Hl IH]; intros w F r Hok HF; cbn [run_edits]; [by intros [= <- <-]|].
  rewrite M_bind_Ok. intros (a & w1 & He1 & Hr). apply M_bind_Ok in Hr as (r1 & w2 & Hr & [= <- <-]).
  destruct (run_edit_Ok e w a w1 F Hok He HF He1) as (Hok1 & Hb1 & -> & HF1). destruct (IH w1 _ r1 Hok1 HF1 Hr) as (? & ? & -> & ?).
  split_and!; [done|congruence|done..].
Qed.
End client.

(** In memory every edit succeeds. *)
Lemma memory_edits l : ∀ w : EphemeralWorkspace, ∃ r w', run_edits l w = (Ok r, w').
Proof.
  induction l as [|e l IH]; intros w; cbn [run_edits]; [by eexists _, _|]. unfold mbind, M_bind.
  assert (∃ a w1, run_edit e w = (Ok a, w1)) as (a & w1 & ->) by (destruct e; by eexists _, _).
  destruct (IH w1) as (r & w2 & ->). by eexists _, _.
Qed.

(** [C36] A working directory without any symbolic link below its root behaves as the workspace in
    memory. If both start with the same files on plain paths, any edits of such paths that
    succeed on disk succeed in memory with the same answers, and what either reads afterwards on
    a plain path is the same; and, if then every name on a path that a commit captures is UTF-8
    without a backslash, what a commit of the directory captures are files of the one in memory.
    (A plain path is relative, without empty names, [.] and [..].) *)
Theorem disk_refines_memory `{ObjectCodec, ReadDirLaws, Gitignore} (l : list edit) (s s' : DiskState) (e : EphemeralWorkspace)
    (r : list (option bool)) :
  w_ok s → (∀ p, plain_path p → w_file s p = ws_files e !! p) → Forall (λ x, plain_path (edit_path x)) l →
  run_edits l s = (Ok r, s') →
  ∃ e', run_edits l e = (Ok r, e') ∧ w_ok s' ∧
    (∀ p v, plain_path p → w_read s' p = Ok v → w_read e' p = Ok v) ∧
    (∀ p d, plain_path p → w_read e' p = Ok (Some d) → w_read s' p = Ok (Some d)) ∧
    (w_clean s' → ∀ p d, w_captured s' p d → w_read e' p = Ok (Some d)).
Proof.
  intros Hok HF Hl Hrun. destruct (memory_edits l e) as (r' & e' & He).
  destruct (edits_correct l s s' (ws_files e) r Hok HF Hl Hrun) as (Hok' & _ & -> & HF').
  assert (Forall (λ x, w_good (WorkspaceLaws := ephemeral_WorkspaceLaws) (edit_path x)) l) as Hgood by (by apply Forall_forall).
  assert (w_ok e) as Hoke by exact I. assert (holds_files e (ws_files e)) as Hfe by done.
  destruct (edits_correct l e e' (ws_files e) r' Hoke Hfe Hgood He) as (_ & _ & -> & He').
  assert (∀ p, plain_path p → w_file s' p = ws_files e' !! p) as Hsame.
  { intros p Hp. rewrite (HF' p Hp). symmetry. by apply (He' p). }
  exists e'. split; [done|]. split; [done|]. split_and!.
  - intros p v Hp Hv. rewrite (w_read_Ok s' p v Hok' Hp Hv), Hsame by done. done.
  - intros p d Hp [= Hd]. apply w_read_stored; [done..|]. by rewrite Hsame.
  - intros Hcl p d Hc. destruct (w_captured_file s' p d Hok' Hcl Hc) as [Hp Hd]. rewrite Hsame in Hd by done. simpl. unfold ws_read. by rewrite Hd.
Qed.

(** ** On concrete data *)
Section demo.
Local Existing Instance toy_read_dir.
Local Existing Instance ex_ws_codec.
#[local] Instance demo_read_dir_laws : ReadDirLaws.
Proof. by split. Qed.
(** Nothing is excluded. *)
#[local] Instance no_ignore : Gitignore := λ _ _ _, false.

Definition no_link (e : FsEntry) : bool := match e with ELink _ => false | _ => true end.
Lemma plain_root_check (fs : Fs) root : fs_check fs → real_dir fs root → map_Forall (λ _ e, no_link e = true) fs → plain_root fs root.
Proof.
  intros Hc Hd Hl. split; [by apply fs_check_wf|done|]. intros r t He. by apply Hl in He.
Qed.

Definition ex_work : Fs := {[ ["w"] := EDir; ["w"; "a"] := EDir; ["w"; "a"; "b"] := EFile [x41]; ["w"; "c"] := EFile [x42] ]}.
Definition ex_edits : list edit := [Write "d/e/f" [x43]; Remove "c"; Remove "c"; Write "a/b" [x44]].
Definition ex_edited : DiskState := (run_edits ex_edits (ex_work, dw_new ["w"])).2.
Lemma ex_work_ok : plain_root ex_work ["w"].
Proof. apply plain_root_check; [unfold fs_check; apply (bool_decide_unpack _); by vm_compute|reflexivity|apply (bool_decide_unpack _); by vm_compute]. Qed.
Lemma ex_work_files p : dw_file (dw_new ["w"]) ex_work p = ({[ "a/b" := [x41]; "c" := [x42] ]} : gmap string bytes) !! p.
Proof.
  assert (∀ d, dw_file (dw_new ["w"]) ex_work p = Some d ↔ ({[ "a/b" := [x41]; "c" := [x42] ]} : gmap string bytes) !! p = Some d) as Hiff.
  { intros d. rewrite dw_file_Some. unfold ex_work. rewrite !lookup_insert_Some, !lookup_singleton_Some. simpl.
    change ["a"; "b"] with (segments "a/b"). split.
    - intros [[_ [=]]|[_ [[_ [=]]|[_ [[[= Hs] [= <-]]|[_ [[= Hs] [= <-]]]]]]]].
      + left. split; [|done]. by apply segments_inj.
      + right. assert (p = "c") as -> by (by apply segments_inj). done.
    - intros [[<- <-]|[_ [<- <-]]]; [right; split; [done|]; right; split; [done|]; left; done|].
      right. split; [done|]. right. split; [done|]. right. done. }
  destruct (dw_file _ _ p) as [d|]; [symmetry; by apply Hiff|]. symmetry. apply eq_None_not_Some. intros [d Hd%Hiff]. done.
Qed.
Lemma disk_refines_memory_witness : ∃ e', run_edits ex_edits (MkWorkspace None {[ "a/b" := [x41]; "c" := [x42] ]}) =
    (Ok [None; Some true; Some false; None], e') ∧
  w_read e' "d/e/f" = Ok (Some [x43]) ∧ w_read ex_edited "a/b" = Ok (Some [x44]).
Proof.
  assert (run_edits ex_edits (ex_work, dw_new ["w"]) = (Ok [None; Some true; Some false; None], ex_edited)) as Hrun.
  { assert ((run_edits ex_edits (ex_work, dw_new ["w"])).1 = Ok [None; Some true; Some false; None]) as <- by (apply (bool_decide_unpack _); by vm_compute).
    apply surjective_pairing. }
  assert (Forall (λ x, plain_path (edit_path x)) ex_edits) as Hp.
  { repeat constructor; try reflexivity; try discriminate; apply (bool_decide_unpack _); by vm_compute. }
  destruct (disk_refines_memory ex_edits (ex_work, dw_new ["w"]) ex_edited (MkWorkspace None {[ "a/b" := [x41]; "c" := [x42] ]})
    _ ex_work_ok (λ p _, ex_work_files p) Hp Hrun) as (e' & He & _ & Hr & _).
  exists e'. split; [exact He|]. split; [|apply (bool_decide_unpack _); by vm_compute].
  apply Hr; [repeat constructor; try discriminate; apply (bool_decide_unpack _); by vm_compute|]. apply (bool_decide_unpack _). by vm_compute.
Defined.
End demo.
