(* ===== verification/Repo.v ===== *)
(** * Repo: the repository

    The operations of [Repository] (src/src/repo/mod.rs) that combine objects, refs and
    access rules: filtered snapshots and ref listings, the merge check and the merge,
    [advance_timeline] with its authorisation, policy and compare-and-swap steps, the
    pinned policy root, approvers and attestations, pruning and explanations.

    A repository is its objects (the decoded view of Objects.v), a ref backend, an ACL
    backend, its hook bindings and the audit log, if any.  An operation that changes
    the repository runs in the state monad [M], so its state survives an error.

    The theorems: a successful advance was authorised on the timeline and on every path
    of the old and of the new snapshot, passed every hook, and is a compare-and-swap of
    just that head; a merge check that answers [Allowed] leaks nothing; listings and
    point lookups of refs agree and never serve a scoped one; adoption of a policy root
    is verified and cannot roll back; and the walk that authorises an advance does not
    see labels outside the two-point lattice. *)

From S2P Require Import Prelude Graph Glob Lattice Access Ids Objects Refs RefStore RefsDisk Signing Policy Authority Merge Store Acl Walk.

Definition POLICY_ROOT_REF : string := "refs/policy/root".
Definition COLLAB_SCOPED_PREFIX : string := "refs/collab/scoped/".

Inductive AuditDecision : Type :=
| AuditAllowed
| AuditDenied (reason : string)
| AuditApprovalRequired (needed : N) (reason : string).
Record AuditEvent : Type := MkAuditEvent {
  ae_timeline : string;
  ae_actor : option string;
  ae_old_head : ObjectId;
  ae_new_head : ObjectId;
  ae_decision : AuditDecision
}.

Record FilteredSnapshot : Type := MkFiltered {
  fs_id : ObjectId;
  fs_author : string;
  fs_created_at : N;
  fs_message : string;
  fs_parents : list ObjectId;
  fs_visible_paths : gmap string ObjectId
}.

Inductive MergeCheck : Type :=
| MergeAllowed
| MergeRequiresApproval (leaking : list PathAcl)
| MergeRejected (leaking : list PathAcl).

Record Decision_ : Type := MkDecision {
  dec_allowed : bool;
  dec_reason : string;
  dec_confined_block : bool;
  dec_clearances : list ClearanceEval
}.
Record AccessExplanation : Type := MkExplanation {
  ex_path : string;
  ex_present : bool;
  ex_label : Label;
  ex_matched_rules : list string;
  ex_read : Decision_;
  ex_write : Decision_
}.

Record Repository (R A : Type) : Type := MkRepo {
  r_objects : objects;
  r_refs : R;
  r_acls : A;
  r_hooks : list HookSpec;
  r_audit : option (list AuditEvent)
}.
Arguments MkRepo {R A}.
Arguments r_objects {R A}.
Arguments r_refs {R A}.
Arguments r_acls {R A}.
Arguments r_hooks {R A}.
Arguments r_audit {R A}.

Section repo.
Context {R : Type} `{RefBackend R, IoText, Ed25519}.
Context {A : Type} `{AclBackend A}.
Abbreviation Repo := (Repository R A).

Definition set_refs (refs : R) (s : Repo) : Repo := MkRepo (r_objects s) refs (r_acls s) (r_hooks s) (r_audit s).
Definition set_objects (O : objects) (s : Repo) : Repo := MkRepo O (r_refs s) (r_acls s) (r_hooks s) (r_audit s).

Definition register_hook (spec : HookSpec) (s : Repo) : Repo :=
  MkRepo (r_objects s) (r_refs s) (r_acls s) (r_hooks s ++ [spec]) (r_audit s).

(** [with_audit_sink]: a new sink, with nothing recorded. *)
Definition with_audit_sink (s : Repo) : Repo := MkRepo (r_objects s) (r_refs s) (r_acls s) (r_hooks s) (Some []).

(** An operation of the ref store. *)
Definition on_refs {X} (m : M R X) : M Repo X := λ s, let '(r, refs) := m (r_refs s) in (r, set_refs refs s).

(** [audit_advance]: recorded when a sink is installed and the timeline has a head. *)
Definition audit_advance (name : RefName) (accessor : Accessor) (old : option ObjectId)
    (new_head : ObjectId) (decision : AuditDecision) (s : Repo) : Repo :=
  match r_audit s, old with
  | Some log, Some old_head =>
      MkRepo (r_objects s) (r_refs s) (r_acls s) (r_hooks s)
        (Some (log ++ [MkAuditEvent (as_str name) (acc_actor accessor) old_head new_head decision]))
  | _, _ => s
  end.

(** ** The pinned policy root *)
Definition policy_root (s : Repo) : res (option (ObjectId * PolicyRoot)) :=
  name ← RefName_new POLICY_ROOT_REF;
  r ← get_ref (r_refs s) name;
  match r with
  | None => Ok None
  | Some (RTimeline _) =>
      Err (PolicyViolation "refs/policy/root is a timeline, not a policy-root tag (fail-closed)")
  | Some (RTag t) =>
      obj ← os_get (r_objects s) (tag_target t);
      match obj with
      | Some (OPolicy (PRoot r)) => Ok (Some (tag_target t, r))
      | _ => Err (PolicyViolation "refs/policy/root does not point at a stored policy root (fail-closed)")
      end
  end.

(** [for spec in specs { reg.push(resolve_hook(spec)?) }] *)
Definition push_specs : PolicyRegistry R → list HookSpec → res (PolicyRegistry R) :=
  res_fold (λ reg spec, h ← resolve_hook spec; Ok (registry_push reg h)).

Definition policy_registry (s : Repo) : res (PolicyRegistry R) :=
  reg ← push_specs registry_new (r_hooks s);
  pr ← policy_root s;
  match pr with Some (_, root) => push_specs reg (root_hooks root) | None => Ok reg end.

(** ** Reading snapshots *)
Definition tree_as_map (s : Repo) (tree_id : ObjectId) : res (gmap string ObjectId) :=
  lattice ← get_lattice (r_acls s);
  rules ← get_label_ruleset (r_acls s);
  walk_tree_filtered (r_objects s) lattice rules privileged tree_id "" ∅.

Definition get_snapshot_filtered (s : Repo) (id : ObjectId) (accessor : Accessor)
    : res (option FilteredSnapshot) :=
  obj ← os_get (r_objects s) id;
  match obj with
  | Some (OSnapshot snap) =>
      lattice ← get_lattice (r_acls s);
      rules ← get_label_ruleset (r_acls s);
      paths ← walk_tree_filtered (r_objects s) lattice rules accessor (snap_root snap) "" ∅;
      Ok (Some (MkFiltered id (snap_author snap) (snap_created_at snap) (snap_message snap)
        (snap_parents snap) paths))
  | _ => Ok None
  end.

(** ** Listing refs *)
Definition timeline_readable_with (lattice : LabelLattice) (rules : LabelRuleSet) (name : RefName)
    (accessor : Accessor) : bool :=
  let label := label_for_timeline rules lattice (as_str name) in
  bool_decide (label = bottom lattice) || can_read accessor label (ResTimeline (as_str name)).

Definition list_refs_filtered (s : Repo) (prefix : string) (accessor : Accessor) : res (list RefName) :=
  lattice ← get_lattice (r_acls s);
  rules ← get_label_ruleset (r_acls s);
  all ← list_refs (r_refs s) prefix;
  Ok (filter (λ name, timeline_readable_with lattice rules name accessor) all).

Definition list_refs_served (s : Repo) (prefix : string) (accessor : Accessor) : res (list RefName) :=
  l ← list_refs_filtered s prefix accessor;
  Ok (filter (λ n, negb (String.prefix COLLAB_SCOPED_PREFIX (as_str n))) l).

Definition ref_served (s : Repo) (name : RefName) (accessor : Accessor) : res bool :=
  if String.prefix COLLAB_SCOPED_PREFIX (as_str name) then Ok false
  else
    lattice ← get_lattice (r_acls s);
    rules ← get_label_ruleset (r_acls s);
    let readable := timeline_readable_with lattice rules name accessor in
    r ← get_ref (r_refs s) name;
    Ok (readable && bool_decide (is_Some r)).

(** ** Merging *)

(** One ACL of the leak scan: some file it covers would become less protected. *)
Definition any_leak (lattice : LabelLattice) (rules : LabelRuleSet) (dest_label : Label)
    (visible : gmap string ObjectId) (acl : PathAcl) : bool :=
  existsb (λ p, glob_matches (pa_glob acl) p &&
    negb (dominates lattice dest_label (label_for_path rules lattice p))) (btree_keys visible).
Definition leak_step (leaks : PathAcl → bool) (leaking : list PathAcl) (acl : PathAcl) : list PathAcl :=
  if leaks acl && negb (existsb (λ l, bool_decide (pa_glob l = pa_glob acl)) leaking)
  then leaking ++ [acl] else leaking.

Definition check_merge (s : Repo) (source dest : RefName) (accessor : Accessor) : res MergeCheck :=
  src ← get_timeline (r_refs s) source;
  match src with
  | None => Err (Storage ("source ref '" +:+ as_str source +:+ "' not found"))
  | Some tl =>
      let source_head := head tl in
      obj ← os_get (r_objects s) source_head;
      match obj with
      | Some (OSnapshot snap) =>
          lattice ← get_lattice (r_acls s);
          rules ← get_label_ruleset (r_acls s);
          visible ← walk_tree_filtered (r_objects s) lattice rules privileged (snap_root snap) "" ∅;
          let dest_label := label_for_timeline rules lattice (as_str dest) in
          path_acls ← list_path_acls (r_acls s);
          let leaking := foldl (leak_step (any_leak lattice rules dest_label visible)) [] path_acls in
          registry ← policy_registry s;
          let ctx := MkContext (EvMerge source dest source_head source_head) accessor (r_objects s) (r_refs s) 0 in
          let hook_decision := evaluate registry ctx in
          Ok (match hook_decision with
              | Deny _ => MergeRejected leaking
              | _ =>
                  if bool_decide (leaking = [])
                  then match hook_decision with
                       | RequiresApproval _ _ => MergeRequiresApproval leaking
                       | _ => MergeAllowed
                       end
                  else if can_write_timeline accessor (as_str dest) then MergeRequiresApproval leaking
                  else MergeRejected leaking
              end)
      | _ => Err (WrongRefKind ("source ref '" +:+ as_str source +:+ "' head is not a snapshot"))
      end
  end.

Definition err_timeline (n : RefName) : Error := Storage ("timeline not found: " +:+ as_str n).
Definition err_snapshot (x : ObjectId) : Error := Storage ("snapshot not found: " +:+ id_to_string x).

(** The root of a stored snapshot. *)
Definition snapshot_of (s : Repo) (x : ObjectId) : res Snapshot :=
  obj ← os_get (r_objects s) x;
  match obj with Some (OSnapshot snap) => Ok snap | _ => Err (err_snapshot x) end.
(** The files of a snapshot, none where there is no snapshot. *)
Definition head_paths (s : Repo) (x : ObjectId) : res (gmap string ObjectId) :=
  obj ← os_get (r_objects s) x;
  match obj with Some (OSnapshot snap) => tree_as_map s (snap_root snap) | _ => Ok ∅ end.

Definition merge_timelines (s : Repo) (source target : RefName) (accessor : Accessor) : res MergeResult :=
  if negb (can_write_timeline accessor (as_str target))
  then Err (AccessDenied ("write denied on timeline: " +:+ as_str target))
  else
    so ← get_timeline (r_refs s) source;
    source_tl ← ok_or so (err_timeline source);
    ta ← get_timeline (r_refs s) target;
    target_tl ← ok_or ta (err_timeline target);
    ancestor_id ← find_common_ancestor (r_objects s) (head source_tl) (head target_tl);
    source_snap ← snapshot_of s (head source_tl);
    target_snap ← snapshot_of s (head target_tl);
    ancestor_tree ← match ancestor_id with Some x => head_paths s x | None => Ok ∅ end;
    source_tree ← tree_as_map s (snap_root source_snap);
    target_tree ← tree_as_map s (snap_root target_snap);
    Ok (three_way_diff ancestor_tree target_tree source_tree).
End repo.

(** ** Advancing a timeline *)
Section advance.
Context {R : Type} `{RefBackend R, IoText, Ed25519}.
Context {A : Type} `{AclBackend A}.
Abbreviation Repo := (Repository R A).

(** Record a refusal, then fail. *)
Definition refuse {X} (name : RefName) (accessor : Accessor) (old : option ObjectId)
    (new_head : ObjectId) (decision : AuditDecision) (e : Error) : M Repo X :=
  _ ← modify (audit_advance name accessor old new_head decision); throw e.

(** The first path among [keys] that the accessor may not write. *)
Definition unwritable (lattice : LabelLattice) (rules : LabelRuleSet) (accessor : Accessor)
    (keys : list string) : option string :=
  find_first (λ p, negb (can_write accessor (label_for_path rules lattice p) (ResPath p))) keys.

Definition err_stale (name : RefName) : Error :=
  TransactionConflict ("timeline '" +:+ as_str name +:+
    "' moved from the expected head (merge is stale); retry").

(** The last part: hooks, then the compare-and-swap on the head that was read. *)
Definition advance_commit (name : RefName) (timeline : Timeline) (snapshot_id : ObjectId)
    (accessor : Accessor) : M Repo () :=
  registry ← gets policy_registry;
  verdict ← gets (λ s, Ok (evaluate registry
    (MkContext (EvAdvance name (head timeline) snapshot_id) accessor (r_objects s) (r_refs s) 0)));
  match verdict with
  | Deny reason =>
      refuse name accessor (Some (head timeline)) snapshot_id (AuditDenied reason) (PolicyViolation reason)
  | RequiresApproval reason needed =>
      refuse name accessor (Some (head timeline)) snapshot_id (AuditApprovalRequired needed reason)
        (ApprovalRequired reason needed)
  | Allow =>
      _ ← on_refs (commit_transaction [AdvanceHeadIf name (head timeline) snapshot_id]);
      modify (audit_advance name accessor (Some (head timeline)) snapshot_id AuditAllowed)
  end.

Definition advance_timeline_expecting (name : RefName) (snapshot_id : ObjectId)
    (expected_old : option ObjectId) (accessor : Accessor) : M Repo () :=
  lattice ← gets (λ s, get_lattice (r_acls s));
  rules ← gets (λ s, get_label_ruleset (r_acls s));
  cur ← gets (λ s, get_timeline (r_refs s) name);
  let audit_old := head <$> cur in
  if negb (can_write accessor (label_for_timeline rules lattice (as_str name)) (ResTimeline (as_str name)))
  then let reason := "write denied on timeline: " +:+ as_str name in
       refuse name accessor audit_old snapshot_id (AuditDenied reason) (AccessDenied reason)
  else
    snap ← gets (λ s, snapshot_of s snapshot_id);
    paths ← gets (λ s, walk_tree_filtered (r_objects s) lattice rules privileged (snap_root snap) "" ∅);
    match unwritable lattice rules accessor (btree_keys paths) with
    | Some path =>
        let reason := "write denied on path: " +:+ path in
        refuse name accessor audit_old snapshot_id (AuditDenied reason) (AccessDenied reason)
    | None =>
        tl ← gets (λ s, get_timeline (r_refs s) name);
        timeline ← lift_res (ok_or tl (err_timeline name));
        if match expected_old with Some h => bool_decide (head timeline ≠ h) | None => false end
        then throw (err_stale name)
        else
          old_paths ← gets (λ s, head_paths s (head timeline));
          match unwritable lattice rules accessor
                  (filter (λ p, paths !! p = None) (btree_keys old_paths)) with
          | Some path =>
              let reason := "write denied on removed path: " +:+ path in
              refuse name accessor audit_old snapshot_id (AuditDenied reason) (AccessDenied reason)
          | None => advance_commit name timeline snapshot_id accessor
          end
    end.

Definition advance_timeline (name : RefName) (snapshot_id : ObjectId) (accessor : Accessor) : M Repo () :=
  advance_timeline_expecting name snapshot_id None accessor.

(** ** Pruning *)

(** Some tag points at [h]. *)
Fixpoint tagged (refs : R) (h : ObjectId) (names : list RefName) : res bool :=
  match names with
  | [] => Ok false
  | n :: names =>
      r ← get_ref refs n;
      match r with
      | Some (RTag t) => if decide (tag_target t = h) then Ok true else tagged refs h names
      | _ => tagged refs h names
      end
  end.

Definition prune_timeline (name : RefName) (now : N) : M Repo bool :=
  tl ← gets (λ s, get_timeline (r_refs s) name);
  match tl with
  | None => mret false
  | Some tl =>
      if match expires_at tl with Some exp => (exp <=? now)%N | None => false end
      then names ← gets (λ s, list_refs (r_refs s) "");
           b ← gets (λ s, tagged (r_refs s) (head tl) names);
           if (b : bool) then mret false
           else _ ← on_refs (delete_ref name); mret true
      else mret false
  end.

(** ** Pinned objects *)
Context `{ObjectCodec}.

(** [ObjectStore::put] on the decoded view (Store.v, [put_refines]). *)
Definition repo_put (obj : Object) : M Repo ObjectId :=
  data ← lift_res (serialize obj);
  let x := object_id data in
  _ ← modify (λ s, if os_exists (r_objects s) x then s else set_objects (<[x := Ok obj]> (r_objects s)) s);
  mret x.

(** A transaction that sets a tag. *)
Definition pin (name : string) (x : ObjectId) : M Repo () :=
  n ← lift_res (RefName_new name);
  on_refs (commit_transaction [SetRef n (RTag (MkTag x 0 None))]).

Definition set_policy_root (root : PolicyRoot) : M Repo ObjectId :=
  x ← repo_put (OPolicy (PRoot root)); _ ← pin POLICY_ROOT_REF x; mret x.
Definition set_approvers (registry : ApproverRegistry) : M Repo () :=
  x ← repo_put (OPolicy (PApprovers registry)); pin APPROVERS_REF x.
Definition add_attestation (att : Attestation) : M Repo ObjectId :=
  x ← repo_put (OPolicy (PAttestation att));
  _ ← pin (ATTESTATIONS_PREFIX +:+ id_to_string x) x; mret x.

Definition approvers (s : Repo) : res ApproverRegistry := load_approvers (r_refs s) (r_objects s).
Definition attestations (s : Repo) : res (list Attestation) := load_attestations (r_refs s) (r_objects s).

Definition adopt_policy_root (tip : ObjectId) (sigs : SignatureStore) (trust : TrustStore) : M Repo () :=
  v ← gets (λ s, verify_chain (B := R) (r_objects s) sigs trust tip);
  match v with
  | Reject reason => throw (PolicyViolation ("policy adoption rejected: " +:+ reason))
  | Accept _ =>
      name ← lift_res (RefName_new POLICY_ROOT_REF);
      current ← gets (λ s, get_ref (r_refs s) name);
      let commit := on_refs (commit_transaction [Expect name current; SetRef name (RTag (MkTag tip 0 None))]) in
      match current with
      | Some (RTag cur) =>
          offered ← gets (λ s, chain_of (r_objects s) tip);
          if decide (tag_target cur ∈ offered) then commit
          else throw (PolicyViolation
            "policy adoption is not a fast-forward of the pinned root (refusing rollback/divergence)")
      | Some (RTimeline _) => throw (PolicyViolation
          "refs/policy/root is not a policy-root tag; refuse to adopt over a malformed pin")
      | None => commit
      end
  end.

(** ** Explanations *)
Definition explain_path (s : Repo) (accessor : Accessor) (snapshot : ObjectId) (path : string)
    : res AccessExplanation :=
  lattice ← get_lattice (r_acls s);
  rules ← get_label_ruleset (r_acls s);
  let label := label_for_path rules lattice path in
  let matched := omap (λ r, match r with
    | RulePath glob _ => if glob_matches glob path then Some glob else None | _ => None end) (Access.rules rules) in
  snap ← snapshot_of s snapshot;
  map ← tree_as_map s (snap_root snap);
  let '(rt, wt) := explain accessor label (ResPath path) in
  let read :=
    if bool_decide (label = bottom lattice)
    then MkDecision true "path label is public (lattice bottom); readable by all actors" false (ct_clearances rt)
    else if ct_allowed rt
    then MkDecision true ("granted: a read clearance dominates label `" +:+ label +:+ "`") false (ct_clearances rt)
    else MkDecision false ("denied: no in-scope read clearance dominates label `" +:+ label +:+ "`")
           false (ct_clearances rt) in
  let write :=
    if ct_allowed wt
    then MkDecision true ("granted: a write clearance dominates label `" +:+ label +:+ "`") false (ct_clearances wt)
    else if ct_confined_write_down_block wt
    then MkDecision false ("denied: confined actor may not write down to label `" +:+ label +:+ "`")
           true (ct_clearances wt)
    else MkDecision false ("denied: no in-scope write clearance dominates label `" +:+ label +:+ "`")
           false (ct_clearances wt) in
  Ok (MkExplanation path (bool_decide (is_Some (map !! path))) label matched read write).
End advance.

(** ** Reading facts *)
Lemma on_refs_bind {R A X Y} (m : M R X) (k : X → M (Repository R A) Y) (s : Repository R A) :
  (on_refs m ≫= k) s =
    match m (r_refs s) with
    | (Ok x, refs) => k x (set_refs refs s)
    | (Err e, refs) => (Err e, set_refs refs s)
    end.
Proof. unfold on_refs, mbind, M_bind. by destruct (m (r_refs s)) as [[x|e] refs]. Qed.

Section facts.
Context {R : Type} `{RefBackendLaws R, IoText, Ed25519}.
Context {A : Type} `{AclLaws A}.
Abbreviation Repo := (Repository R A).
Implicit Types s : Repo.

(** Two repositories with the same content: only the audit log may differ. *)
Definition same_content (s s' : Repo) : Prop :=
  r_objects s' = r_objects s ∧ r_refs s' = r_refs s ∧ r_acls s' = r_acls s ∧ r_hooks s' = r_hooks s.

Lemma audit_same name a old new d s : same_content s (audit_advance name a old new d s).
Proof. unfold audit_advance. by destruct (r_audit s), old. Qed.
Lemma same_refl s : same_content s s.
Proof. done. Qed.

(** The privileged accessor sees every file of a repository with derived labels. *)
Lemma privileged_sees (a : A) L rs p :
  get_lattice a = Ok L → get_label_ruleset a = Ok rs → visible L rs privileged p = true.
Proof.
  intros HL Hrs. unfold visible. apply orb_true_iff.
  pose proof (derived_path_label a L rs HL Hrs p) as Hd. rewrite (lattice_two_point a L HL) in *.
  destruct Hd as [-> | ->]; [left|right]; vm_compute; reflexivity.
Qed.

Lemma privileged_walk s L rs root out :
  get_lattice (r_acls s) = Ok L → get_label_ruleset (r_acls s) = Ok rs →
  walk_tree_filtered (r_objects s) L rs privileged root "" ∅ = Ok out →
  ∀ p, is_Some (out !! p) ↔ ∃ x, files (r_objects s) (root, "", 0) p x.
Proof.
  intros HL Hrs Hw p. pose proof (walk_tree_spec (r_objects s) L rs privileged root "" ∅) as Hs.
  rewrite Hw in Hs. destruct Hs as (_ & Hs & _). rewrite Hs, lookup_empty.
  rewrite (privileged_sees _ _ _ p HL Hrs). split; [|by right; eauto].
  intros [[? ?]|[_ ?]]; done.
Qed.

Lemma tree_as_map_spec s root out : tree_as_map s root = Ok out →
  ∀ p, is_Some (out !! p) ↔ ∃ x, files (r_objects s) (root, "", 0) p x.
Proof.
  unfold tree_as_map. rewrite bind_Ok. intros (L & HL & Hw). apply bind_Ok in Hw as (rs & Hrs & Hw).
  by eapply privileged_walk.
Qed.

(** The file paths of the snapshot stored at [x]. *)
Definition snapshot_file (s : Repo) (x : ObjectId) (p : string) : Prop :=
  ∃ snap, r_objects s !! x = Some (Ok (OSnapshot snap)) ∧ ∃ b, files (r_objects s) (snap_root snap, "", 0) p b.

Lemma head_paths_spec s x out : head_paths s x = Ok out → ∀ p, is_Some (out !! p) ↔ snapshot_file s x p.
Proof.
  unfold head_paths, snapshot_file. rewrite bind_Ok. intros (o & Ho & Hp) p.
  setoid_rewrite <- os_get_Some. rewrite Ho. destruct o as [[]|];
    try (injection Hp as <-; rewrite lookup_empty; split; [by intros [? ?]|by intros (? & ? & _)]).
  rewrite (tree_as_map_spec s _ _ Hp p). naive_solver.
Qed.

(** *** Write checks *)
Lemma unwritable_None L rs a keys : unwritable L rs a keys = None ↔
  ∀ p, p ∈ keys → can_write a (label_for_path rs L p) (ResPath p) = true.
Proof.
  unfold unwritable. rewrite find_first_None. split; intros Hall p Hp; specialize (Hall p Hp);
    by apply negb_false_iff.
Qed.

(** *** The registry *)
Lemma push_specs_incl (reg reg' : PolicyRegistry R) specs h :
  push_specs reg specs = Ok reg' → h ∈ hooks reg → h ∈ hooks reg'.
Proof.
  unfold push_specs. revert reg. induction specs as [|spec specs IH]; intros reg Hp Hin; [by injection Hp as <-|].
  simpl in Hp. apply bind_Ok in Hp as (reg1 & Hr1 & Hp). apply bind_Ok in Hr1 as (hk & _ & [= <-]).
  apply (IH _ Hp). simpl. apply elem_of_app. by left.
Qed.

Lemma registry_builtin s reg : policy_registry s = Ok reg → TimelinePolicyHook ∈ hooks reg.
Proof.
  unfold policy_registry. rewrite bind_Ok. intros (reg1 & Hr1 & Hp). apply bind_Ok in Hp as (pr & _ & Hp).
  assert (TimelinePolicyHook ∈ hooks reg1) as Hin by (apply (push_specs_incl _ _ _ _ Hr1); left).
  destruct pr as [[x root]|]; [by eapply push_specs_incl|by injection Hp as <-].
Qed.

Lemma evaluate_Allow (reg : PolicyRegistry R) ctx : evaluate reg ctx = Allow →
  ∀ h, h ∈ hooks reg → hook_check h ctx = Allow.
Proof.
  rewrite evaluate_fold. intros (_ & Hall & _)%more_restrictive_fold h Hh.
  assert (rank (hook_check h ctx) ≤ rank Allow)%N as Hr by (apply Hall, list_elem_of_fmap; eauto).
  destruct (hook_check h ctx); simpl in Hr; [done|lia|lia].
Qed.

(** What the built-in hook lets through. *)
Lemma timeline_policy_Allow ctx name old new tl :
  ctx_event ctx = EvAdvance name old new → get_timeline (ctx_refs ctx) name = Ok (Some tl) →
  timeline_policy_check (B := R) ctx = Allow → policy tl ≠ Unrestricted → rtc (parent_of (ctx_objects ctx)) new old.
Proof.
  intros He Hg. unfold timeline_policy_check. rewrite He, Hg. intros Hc Hp.
  pose proof (is_ancestor_spec (ctx_objects ctx) old new) as Ha.
  destruct (policy tl); [| |done]; destruct (is_ancestor _ old new) as [[]|]; try done; by apply Ha.
Qed.

Lemma get_timeline_view (refs : R) name tl : be_inv refs → valid_name name →
  get_timeline refs name = Ok (Some tl) → be_view refs !! name = Some (RTimeline tl).
Proof.
  intros Hi Hv. unfold get_timeline. rewrite bind_Ok. intros (r & Hr & Hm).
  apply be_get_Ok in Hr; [|done..]. destruct r as [[]|]; simplify_eq. done.
Qed.

(** The compare-and-swap of an advance. *)
Lemma commit_head_if (refs refs' : R) name tl h : be_inv refs → valid_name name →
  be_view refs !! name = Some (RTimeline tl) →
  commit_transaction [AdvanceHeadIf name (head tl) h] refs = (Ok (), refs') →
  be_inv refs' ∧ be_view refs' = <[name := RTimeline (with_head tl h)]> (be_view refs).
Proof.
  intros Hi Hv Ht Hc. destruct (commit_refines [AdvanceHeadIf name (head tl) h] refs refs' Hi) as [Hi' Hs];
    [by repeat constructor|done|]. split; [done|].
  unfold ops_spec in Hs. simpl in Hs. rewrite Ht in Hs. rewrite decide_True in Hs by done.
  by injection Hs as <-.
Qed.
End facts.

(** ** Properties *)
Section theorems.
Context {R : Type} `{RefBackendLaws R, IoText, Ed25519}.
Context {A : Type} `{AclLaws A}.

(** The authority an advance needs. *)
Record advance_authorised (s : Repository R A) (name : RefName) (x : ObjectId)
    (expected : option ObjectId) (a : Accessor) (tl : Timeline) : Prop := {
  aa_current : be_view (r_refs s) !! name = Some (RTimeline tl);
  aa_expected : ∀ h, expected = Some h → head tl = h;
  aa_labels : ∃ L rs, get_lattice (r_acls s) = Ok L ∧ get_label_ruleset (r_acls s) = Ok rs ∧
    can_write a (label_for_timeline rs L (as_str name)) (ResTimeline (as_str name)) = true ∧
    ∀ p, snapshot_file s x p ∨ snapshot_file s (head tl) p →
      can_write a (label_for_path rs L p) (ResPath p) = true;
  aa_snapshot : ∃ snap, r_objects s !! x = Some (Ok (OSnapshot snap));
  aa_hooks : ∃ reg, policy_registry s = Ok reg ∧ ∀ h, h ∈ hooks reg →
    hook_check h (MkContext (EvAdvance name (head tl) x) a (r_objects s) (r_refs s) 0) = Allow;
  aa_policy : policy tl ≠ Unrestricted → rtc (parent_of (r_objects s)) x (head tl)
}.

Lemma advance_commit_spec (s s' : Repository R A) name tl x a r :
  be_inv (r_refs s) → valid_name name → get_timeline (r_refs s) name = Ok (Some tl) →
  advance_commit name tl x a s = (r, s') →
  match r with
  | Ok _ => (∃ reg, policy_registry s = Ok reg ∧ (∀ h, h ∈ hooks reg →
        hook_check h (MkContext (EvAdvance name (head tl) x) a (r_objects s) (r_refs s) 0) = Allow) ∧
        (policy tl ≠ Unrestricted → rtc (parent_of (r_objects s)) x (head tl))) ∧
      be_inv (r_refs s') ∧ be_view (r_refs s') = <[name := RTimeline (with_head tl x)]> (be_view (r_refs s)) ∧
      same_content s (set_refs (r_refs s) s')
  | Err e => same_content s s' ∨
      (commit_transaction [AdvanceHeadIf name (head tl) x] (r_refs s) = (Err e, r_refs s') ∧
       same_content s (set_refs (r_refs s) s'))
  end.
Proof.
  intros Hi Hv Hg. unfold advance_commit. rewrite gets_bind.
  destruct (policy_registry s) as [reg|e] eqn:Hreg; [|intros [= <- <-]; by left].
  rewrite gets_bind. set (ctx := MkContext _ _ _ _ _). destruct (evaluate reg ctx) as [|reason|reason n] eqn:He.
  - rewrite on_refs_bind. destruct (commit_transaction _ (r_refs s)) as [[[]|e] refs] eqn:Hc; intros [= <- <-].
    + pose proof (evaluate_Allow reg ctx He) as Hall. split.
      { exists reg. split; [done|]. split; [done|]. apply (timeline_policy_Allow ctx name _ _ tl eq_refl Hg).
        apply (Hall TimelinePolicyHook), (registry_builtin s reg Hreg). }
      destruct (audit_same name a (Some (head tl)) x AuditAllowed (set_refs refs s)) as (Ho & Hr & Ha & Hh).
      rewrite Hr. simpl. split; [|split].
      * by eapply (commit_head_if (r_refs s)); [..|exact Hc]; [| |apply get_timeline_view].
      * by eapply (commit_head_if (r_refs s)); [..|exact Hc]; [| |apply get_timeline_view].
      * split; [done|]. split; [done|]. split; [exact Ha|exact Hh].
    + right. done.
  - intros [= <- <-]. left. apply audit_same.
  - intros [= <- <-]. left. apply audit_same.
Qed.

Lemma advance_spec (s s' : Repository R A) (name : RefName) (x : ObjectId)
    (expected : option ObjectId) (a : Accessor) (r : res ()) :
  be_inv (r_refs s) → valid_name name →
  advance_timeline_expecting name x expected a s = (r, s') →
  match r with
  | Ok _ => ∃ tl, advance_authorised s name x expected a tl ∧
      be_inv (r_refs s') ∧ be_view (r_refs s') = <[name := RTimeline (with_head tl x)]> (be_view (r_refs s)) ∧
      same_content s (set_refs (r_refs s) s')
  | Err e => same_content s s' ∨ ∃ old,
      commit_transaction [AdvanceHeadIf name old x] (r_refs s) = (Err e, r_refs s') ∧
      same_content s (set_refs (r_refs s) s')
  end.
Proof.
  intros Hi Hv. unfold advance_timeline_expecting. rewrite gets_bind.
  destruct (get_lattice (r_acls s)) as [L|e] eqn:HL; [|intros [= <- <-]; by left]. rewrite gets_bind.
  destruct (get_label_ruleset (r_acls s)) as [rs|e] eqn:Hrs; [|intros [= <- <-]; by left]. rewrite gets_bind.
  destruct (get_timeline (r_refs s) name) as [cur|e] eqn:Hg; [|intros [= <- <-]; by left].
  destruct (can_write a (label_for_timeline rs L (as_str name)) _) eqn:Hw; cbn [negb]; cbv zeta iota;
    [|intros [= <- <-]; left; apply audit_same].
  rewrite gets_bind. destruct (snapshot_of s x) as [snap|e] eqn:Hsn; [|intros [= <- <-]; by left].
  rewrite gets_bind. destruct (walk_tree_filtered _ L rs privileged _ _ _) as [paths|e] eqn:Hp;
    [|intros [= <- <-]; by left].
  destruct (unwritable L rs a (btree_keys paths)) as [p|] eqn:Hu; [intros [= <- <-]; left; apply audit_same|].
  rewrite gets_bind, Hg, lift_bind. destruct cur as [tl|]; simpl ok_or; cbv iota; [|intros [= <- <-]; by left].
  destruct (match expected with Some h => bool_decide (head tl ≠ h) | None => false end) eqn:Hex;
    [intros [= <- <-]; by left|].
  rewrite gets_bind. destruct (head_paths s (head tl)) as [old|e] eqn:Ho; [|intros [= <- <-]; by left].
  destruct (unwritable L rs a (filter _ _)) as [p|] eqn:Hu2; [intros [= <- <-]; left; apply audit_same|].
  intros Hc. apply (advance_commit_spec s s' name tl x a r Hi Hv Hg) in Hc. destruct r as [[]|e].
  2: { destruct Hc as [?|?]; [by left|right; by exists (head tl)]. }
  destruct Hc as ((reg & Hreg & Hhk & Hff) & Hi' & Hview & Hsame). exists tl. split; [|done].
  assert (r_objects s !! x = Some (Ok (OSnapshot snap))) as Hx.
  { unfold snapshot_of in Hsn. apply bind_Ok in Hsn as (o & Hgo & Hm). apply os_get_Some.
    rewrite Hgo. destruct o as [[]|]; simplify_eq. done. }
  split; [by apply get_timeline_view| |exists L, rs|by exists snap|by exists reg|done].
  - intros h ->. by apply bool_decide_eq_false, dec_stable in Hex.
  - split; [done|]. split; [done|]. split; [done|]. rewrite unwritable_None in Hu, Hu2. intros p Hfile.
    destruct (decide (is_Some (paths !! p))) as [Hin|Hnin]; [by apply Hu, elem_of_btree_keys|].
    destruct Hfile as [(snap' & Hx' & Hf)|Hf].
    + destruct Hnin. apply (privileged_walk s L rs _ _ HL Hrs Hp). simplify_eq. exact Hf.
    + apply Hu2, list_elem_of_filter. split; [by apply eq_None_not_Some|].
      by apply elem_of_btree_keys, (head_paths_spec s _ _ Ho).
Qed.

(** [C1] A timeline advance, on any ref backend that keeps its contract and any ACL backend
    that derives its labels: when it succeeds, the accessor could write the timeline
    and every path of the new snapshot and of the old head's snapshot (kept, changed
    or deleted), the expected head, if one was given, was the current one, every hook
    of the registry allowed the transition, and under a fast-forward policy the new
    head descends from the old; the only change to the repository is that the
    timeline's head moves from the head all of this was checked against. When it
    fails, nothing but the audit log changes, unless the final commit itself failed
    in the ref backend. *)
Theorem advance_timeline_authorised (s s' : Repository R A) (name : RefName) (x : ObjectId)
    (expected : option ObjectId) (a : Accessor) (r : res ()) :
  be_inv (r_refs s) → valid_name name →
  advance_timeline_expecting name x expected a s = (r, s') →
  match r with
  | Ok _ => ∃ tl, advance_authorised s name x expected a tl ∧
      be_inv (r_refs s') ∧ be_view (r_refs s') = <[name := RTimeline (with_head tl x)]> (be_view (r_refs s)) ∧
      same_content s (set_refs (r_refs s) s')
  | Err e => same_content s s' ∨ ∃ old,
      commit_transaction [AdvanceHeadIf name old x] (r_refs s) = (Err e, r_refs s') ∧
      same_content s (set_refs (r_refs s) s')
  end.
Proof. apply advance_spec. Qed.

(** What a peer is served: on every ref backend, the served listing under a prefix is
    exactly the stored refs with that prefix that are outside the scoped collaboration
    namespace and whose timeline label is public or readable; the point lookup answers
    yes exactly for the refs of that listing; a scoped ref is never served. *)
Theorem served_refs_agree (s : Repository R A) (a : Accessor) :
  be_inv (r_refs s) →
  (∀ prefix l, list_refs_served s prefix a = Ok l → ∃ L rs,
     get_lattice (r_acls s) = Ok L ∧ get_label_ruleset (r_acls s) = Ok rs ∧
     ∀ n, n ∈ l ↔ is_Some (be_view (r_refs s) !! n) ∧ String.prefix prefix (as_str n) = true ∧
       String.prefix COLLAB_SCOPED_PREFIX (as_str n) = false ∧ timeline_readable_with L rs n a = true) ∧
  (∀ n b l, valid_name n → ref_served s n a = Ok b → list_refs_served s "" a = Ok l → b = true ↔ n ∈ l) ∧
  (∀ n, String.prefix COLLAB_SCOPED_PREFIX (as_str n) = true → ref_served s n a = Ok false).
Proof.
  intros Hi. assert (∀ prefix l, list_refs_served s prefix a = Ok l → ∃ L rs,
     get_lattice (r_acls s) = Ok L ∧ get_label_ruleset (r_acls s) = Ok rs ∧
     ∀ n, n ∈ l ↔ is_Some (be_view (r_refs s) !! n) ∧ String.prefix prefix (as_str n) = true ∧
       String.prefix COLLAB_SCOPED_PREFIX (as_str n) = false ∧ timeline_readable_with L rs n a = true) as Hlist.
  { intros prefix l Hl. unfold list_refs_served, list_refs_filtered in Hl.
    apply bind_Ok in Hl as (l1 & Hl & [= <-]). apply bind_Ok in Hl as (L & HL & Hl).
    apply bind_Ok in Hl as (rs & Hrs & Hl). apply bind_Ok in Hl as (all & Hall & [= <-]).
    exists L, rs. split; [done|]. split; [done|]. intros n.
    destruct (be_list_Ok _ _ _ Hi Hall) as (_ & _ & Hin).
    rewrite !list_elem_of_filter, Hin, !Is_true_true, negb_true_iff. tauto. }
  split; [exact Hlist|]. split; [|by intros n Hn; unfold ref_served; rewrite Hn].
  intros n b l Hv Hs Hl. destruct (Hlist "" l Hl) as (L & rs & HL & Hrs & Hin). rewrite Hin.
  unfold ref_served in Hs. destruct (String.prefix COLLAB_SCOPED_PREFIX (as_str n)).
  { injection Hs as <-. naive_solver. }
  rewrite HL, Hrs in Hs. simpl in Hs. apply bind_Ok in Hs as (r & Hr & [= <-]).
  apply (be_get_Ok _ _ _ Hi Hv) in Hr. subst r. rewrite andb_true_iff, bool_decide_eq_true.
  destruct n as [n]; simpl. destruct n; simpl; tauto.
Qed.

Lemma leak_fold leaks acls acc :
  let l := foldl (leak_step leaks) acc acls in
  (l = [] ↔ acc = [] ∧ ∀ acl, acl ∈ acls → leaks acl = false) ∧
  (∀ x, x ∈ l → x ∈ acc ∨ (x ∈ acls ∧ leaks x = true)).
Proof.
  revert acc. induction acls as [|acl acls IH]; intros acc; simpl; [set_solver|].
  destruct (IH (leak_step leaks acc acl)) as [-> Hx]. split.
  - assert (leak_step leaks acc acl = [] ↔ acc = [] ∧ leaks acl = false) as ->.
    { unfold leak_step. destruct (leaks acl); simpl; [|tauto].
      destruct (existsb _ acc) eqn:He; simpl; split; try (intros [? ?]; done).
      - intros ->. discriminate He.
      - by intros [_ ?]%app_nil. }
    split.
    + intros [[? ?] Hall]. split; [done|]. intros x [->|?]%elem_of_cons; [done|by apply Hall].
    + intros [? Hall]. split; [split; [done|apply Hall; by left]|]. intros x ?. apply Hall. by right.
  - assert (∀ x, x ∈ leak_step leaks acc acl → x ∈ acc ∨ (x = acl ∧ leaks acl = true)) as Hs.
    { intros x. unfold leak_step. destruct (leaks acl); simpl; [|by left]. destruct (existsb _ acc); simpl; [by left|].
      intros [?| ->%list_elem_of_singleton]%elem_of_app; auto. }
    intros x [[?|[-> ?]]%Hs|[? ?]]%Hx; [by left|right; split; [by left|done]|right; split; [by right|done]].
Qed.

(** A two-point label dominates the public one. *)
Lemma dominates_public L rs (acls : A) n p : get_lattice acls = Ok L → get_label_ruleset acls = Ok rs →
  label_for_path rs L p = PUBLIC → dominates L (label_for_timeline rs L n) (label_for_path rs L p) = true.
Proof.
  intros HL Hrs ->. destruct (derived_spec acls L rs HL Hrs) as (ps & ts & ss & _ & _ & _ & _ & -> & _).
  rewrite (lattice_two_point acls L HL). unfold derived. case_match; vm_compute; reflexivity.
Qed.

(** A file of the source's snapshot would become less protected in the destination. *)
Definition merge_leaks (s : Repository R A) (L : LabelLattice) (rs : LabelRuleSet) (source_head : ObjectId)
    (dest : RefName) (p : string) : Prop :=
  snapshot_file s source_head p ∧
  dominates L (label_for_timeline rs L (as_str dest)) (label_for_path rs L p) = false.
(** The hooks' verdict on the merge. *)
Definition merge_verdict (s : Repository R A) (reg : PolicyRegistry R) (source dest : RefName) (tl : Timeline)
    (a : Accessor) : PolicyDecision :=
  evaluate reg (MkContext (EvMerge source dest (head tl) (head tl)) a (r_objects s) (r_refs s) 0).

(** [C28] The merge check: an answer is computed from the source's current head. It is
    [Allowed] exactly when the label of the destination dominates that of every file
    of the source's snapshot and every hook allows the merge; a hook's denial always
    rejects; and each ACL reported as leaking is a stored one that covers a file whose
    label the destination does not dominate. *)
Theorem check_merge_no_leak (s : Repository R A) (source dest : RefName) (a : Accessor) (c : MergeCheck) :
  check_merge s source dest a = Ok c →
  ∃ tl L rs acls reg, get_timeline (r_refs s) source = Ok (Some tl) ∧
    get_lattice (r_acls s) = Ok L ∧ get_label_ruleset (r_acls s) = Ok rs ∧
    list_path_acls (r_acls s) = Ok acls ∧ policy_registry s = Ok reg ∧
    (c = MergeAllowed ↔ (∀ p, ¬ merge_leaks s L rs (head tl) dest p) ∧ merge_verdict s reg source dest tl a = Allow) ∧
    (∀ reason, merge_verdict s reg source dest tl a = Deny reason → ∃ l, c = MergeRejected l) ∧
    (∀ l acl, c = MergeRequiresApproval l ∨ c = MergeRejected l → acl ∈ l →
       acl ∈ acls ∧ ∃ p, glob_matches (pa_glob acl) p = true ∧ merge_leaks s L rs (head tl) dest p).
Proof.
  unfold check_merge. rewrite bind_Ok. intros (src & Hsrc & Hc). destruct src as [tl|]; [|done].
  apply bind_Ok in Hc as (o & Ho & Hc). destruct o as [[| |snap| | | | | | | | | |]|]; try done.
  apply bind_Ok in Hc as (L & HL & Hc). apply bind_Ok in Hc as (rs & Hrs & Hc).
  apply bind_Ok in Hc as (vis & Hvis & Hc). apply bind_Ok in Hc as (acls & Hacls & Hc).
  apply bind_Ok in Hc as (reg & Hreg & [= Hc]). exists tl, L, rs, acls, reg.
  split; [done|]. split; [done|]. split; [done|]. split; [done|]. split; [done|].
  set (leaks := merge_leaks s L rs (head tl) dest). set (verdict := merge_verdict s reg source dest tl a).
  assert (∀ p, is_Some (vis !! p) ↔ snapshot_file s (head tl) p) as Hfile.
  { intros p. rewrite (privileged_walk s L rs _ _ HL Hrs Hvis p). unfold snapshot_file.
    apply os_get_Some in Ho. rewrite Ho. naive_solver. }
  assert (∀ acl, any_leak L rs (label_for_timeline rs L (as_str dest)) vis acl = true ↔
    ∃ p, glob_matches (pa_glob acl) p = true ∧ leaks p) as Hany.
  { intros acl. unfold any_leak, leaks, merge_leaks. rewrite existsb_true. setoid_rewrite elem_of_btree_keys.
    setoid_rewrite Hfile. setoid_rewrite andb_true_iff. setoid_rewrite negb_true_iff. naive_solver. }
  destruct (leak_fold (any_leak L rs (label_for_timeline rs L (as_str dest)) vis) acls []) as [Hnil Hin].
  set (leaking := foldl _ [] acls) in *.
  assert (leaking = [] ↔ ∀ p, ¬ leaks p) as Hno.
  { rewrite Hnil. split.
    - intros [_ Hall] p Hp. destruct (derived_spec _ L rs HL Hrs) as (ps & ts & ss & Hps & _ & _ & Hlp & _).
      assert (ps = acls) as -> by congruence. pose proof (proj2 Hp) as Hd. pose proof (Hlp p) as Hl.
      destruct (existsb _ acls) eqn:He; simpl in Hl; [|by rewrite (dominates_public _ _ (r_acls s)) in Hd].
      apply existsb_true in He as (acl & Hacl & Hg). specialize (Hall acl Hacl).
      assert (any_leak L rs (label_for_timeline rs L (as_str dest)) vis acl = true) by (apply Hany; eauto). congruence.
    - intros Hall. split; [done|]. intros acl _. apply not_true_iff_false. rewrite Hany. naive_solver. }
  assert (∀ acl, acl ∈ leaking → acl ∈ acls ∧ ∃ p, glob_matches (pa_glob acl) p = true ∧ leaks p) as Hleak.
  { intros acl [?%not_elem_of_nil|[? ?%Hany]]%Hin; done. }
  change (evaluate reg _) with verdict in Hc. subst c. rewrite <- Hno.
  destruct (decide (leaking = [])) as [Hl|Hl];
    [rewrite (bool_decide_true (leaking = [])) by done|rewrite (bool_decide_false (leaking = [])) by done];
    destruct verdict; try destruct (can_write_timeline a (as_str dest));
    (split; [by split; [|intros [? ?]]|split; [by intros ? ?; eauto|]]);
    intros l acl [Heq|Heq] Hacl; try discriminate Heq; injection Heq as <-; by apply Hleak.
Qed.

(** [C27] Adoption of a policy root: it succeeds only for a tip whose whole chain is present,
    complete, resolvable and signed by trusted keys, and only as a fast-forward - if a
    root is pinned, it lies on the offered chain - and then moves the pin to the tip
    and changes nothing else. When it is refused nothing changes, unless the final
    commit itself failed in the ref backend. *)
Theorem adopt_policy_root_verified (s s' : Repository R A) (tip : ObjectId) (sigs : SignatureStore)
    (trust : TrustStore) (r : res ()) :
  be_inv (r_refs s) → adopt_policy_root tip sigs trust s = (r, s') →
  match r with
  | Ok _ => ∃ chain, verified (r_objects s) sigs trust tip chain ∧
      (be_view (r_refs s) !! MkRefName POLICY_ROOT_REF = None ∨
       ∃ t, be_view (r_refs s) !! MkRefName POLICY_ROOT_REF = Some (RTag t) ∧ tag_target t ∈ chain) ∧
      be_inv (r_refs s') ∧
      be_view (r_refs s') = <[MkRefName POLICY_ROOT_REF := RTag (MkTag tip 0 None)]> (be_view (r_refs s)) ∧
      same_content s (set_refs (r_refs s) s')
  | Err e => s' = s ∨ ∃ current, same_content s (set_refs (r_refs s) s') ∧
      commit_transaction [Expect (MkRefName POLICY_ROOT_REF) current;
        SetRef (MkRefName POLICY_ROOT_REF) (RTag (MkTag tip 0 None))] (r_refs s) = (Err e, r_refs s')
  end.
Proof.
  intros Hi. assert (valid_name (MkRefName POLICY_ROOT_REF)) as Hv by reflexivity.
  unfold adopt_policy_root. rewrite gets_bind.
  destruct (verify_chain (r_objects s) sigs trust tip) as [[d|reason]|e] eqn:Hver; [|intros [= <- <-]; by left..].
  apply verify_chain_Accept in Hver as (chain & Hchain & _).
  rewrite lift_bind. change (RefName_new POLICY_ROOT_REF) with (Ok (E := Error) (MkRefName POLICY_ROOT_REF)). cbv iota beta.
  rewrite gets_bind. destruct (get_ref (r_refs s) (MkRefName POLICY_ROOT_REF)) as [cur|e] eqn:Hg; [|intros [= <- <-]; by left].
  apply (be_get_Ok _ _ _ Hi Hv) in Hg. cbv zeta. set (ops := [Expect _ _; SetRef _ _]).
  assert (∀ P : Prop, P → on_refs (commit_transaction ops) s = (r, s') →
    match r with
    | Ok _ => P ∧ be_inv (r_refs s') ∧
        be_view (r_refs s') = <[MkRefName POLICY_ROOT_REF := RTag (MkTag tip 0 None)]> (be_view (r_refs s)) ∧
        same_content s (set_refs (r_refs s) s')
    | Err e => same_content s (set_refs (r_refs s) s') ∧ commit_transaction ops (r_refs s) = (Err e, r_refs s')
    end) as Hcommit.
  { intros P HP. unfold on_refs. destruct (commit_transaction ops (r_refs s)) as [r' refs] eqn:Hc.
    intros [= <- <-]. destruct r' as [[]|e]; [|done]. split; [done|].
    destruct (commit_refines ops (r_refs s) refs Hi) as [Hi' Hs]; [by repeat constructor|done|].
    split; [done|]. split; [|done]. unfold ops_spec in Hs. simpl in Hs. rewrite decide_True in Hs by done.
    injection Hs as Hs. simpl. by rewrite Hs. }
  destruct cur as [[t|tl]|]; [|intros [= <- <-]; by left|].
  - rewrite gets_bind. destruct (chain_of (r_objects s) tip) as [offered|e] eqn:Ho; [|intros [= <- <-]; by left].
    pose proof (chain_of_spec (r_objects s) tip) as Hs. rewrite Ho in Hs.
    rewrite (chain_det _ _ _ _ Hs (proj1 Hchain)). case_decide as Hin; [|intros [= <- <-]; by left].
    intros Hc. apply (Hcommit (tag_target t ∈ chain) Hin) in Hc. destruct r as [[]|e]; [|right; eauto].
    destruct Hc as (_ & Hi' & Hview & Hsame). exists chain. split; [done|]. split; [|done]. right. by exists t.
  - intros Hc. apply (Hcommit True I) in Hc. destruct r as [[]|e]; [|right; eauto].
    destruct Hc as (_ & Hi' & Hview & Hsame). exists chain. split; [done|]. split; [|done]. by left.
Qed.
End theorems.

(** ** Concrete runs *)
Section demo.
Local Existing Instance demo_io_text.
Local Existing Instance toy_ed25519.

Definition ex_file (x : ObjectId) : res Object := Ok (OTree (MkTree {[ "a" := MkTreeEntry x KindBlob ]})).
Definition ex_snapshot (root : ObjectId) (ps : list ObjectId) : res Object :=
  Ok (OSnapshot (MkSnapshot root ps "" 0 "")).
Definition ex_repo_objects : objects :=
  {[ ex_id x01 := ex_snapshot (ex_id x11) []; ex_id x11 := ex_file (ex_id x21);
     ex_id x02 := ex_snapshot (ex_id x12) [ex_id x01]; ex_id x12 := ex_file (ex_id x22) ]}.
Definition ex_repo : Repository MemoryRefBackend MemoryAclBackend :=
  MkRepo ex_repo_objects ex_refs ex_acls [] (Some []).
Definition ex_writer : Accessor :=
  accessor_from_parts two_point LabelRuleSet_default (MkClearanceSet [MkClearance PROTECTED WRITE None] false).

Definition ex_advanced : Repository MemoryRefBackend MemoryAclBackend :=
  snd (advance_timeline_expecting ex_main (ex_id x02) (Some (ex_id x01)) ex_writer ex_repo).

Lemma advance_timeline_authorised_witness :
  ∃ tl, be_view ex_refs !! ex_main = Some (RTimeline tl) ∧
    be_view (r_refs ex_advanced) = <[ex_main := RTimeline (with_head tl (ex_id x02))]> (be_view ex_refs).
Proof.
  assert (fst (advance_timeline_expecting ex_main (ex_id x02) (Some (ex_id x01)) ex_writer ex_repo) = Ok ()) as Hf
    by (apply (bool_decide_unpack _); vm_compute; exact I).
  assert (advance_timeline_expecting ex_main (ex_id x02) (Some (ex_id x01)) ex_writer ex_repo = (Ok (), ex_advanced)) as Ha.
  { rewrite <- Hf. apply surjective_pairing. }
  assert (be_inv (r_refs ex_repo)) as Hi by exact ex_refs_ok.
  assert (valid_name ex_main) as Hv by reflexivity.
  destruct (advance_timeline_authorised ex_repo ex_advanced ex_main (ex_id x02) (Some (ex_id x01)) ex_writer _ Hi Hv Ha)
    as (tl & Hauth & _ & Hview & _).
  exists tl. split; [exact (aa_current _ _ _ _ _ _ Hauth)|exact Hview].
Defined.

Lemma served_refs_agree_witness :
  ref_served ex_repo ex_main accessor_new = Ok true ∧ list_refs_served ex_repo "" accessor_new = Ok [ex_main] ∧
  (true = true ↔ ex_main ∈ [ex_main]).
Proof.
  assert (be_inv (r_refs ex_repo)) as Hi by exact ex_refs_ok.
  assert (valid_name ex_main) as Hv by reflexivity.
  assert (ref_served ex_repo ex_main accessor_new = Ok true) as Hs by (apply (bool_decide_unpack _); vm_compute; exact I).
  assert (list_refs_served ex_repo "" accessor_new = Ok [ex_main]) as Hl by (apply (bool_decide_unpack _); vm_compute; exact I).
  split; [exact Hs|]. split; [exact Hl|].
  exact (proj1 (proj2 (served_refs_agree ex_repo accessor_new Hi)) ex_main true [ex_main] Hv Hs Hl).
Defined.

#[local] Instance MergeCheck_eq_dec : EqDecision MergeCheck.
Proof. solve_decision. Defined.

Lemma check_merge_no_leak_witness :
  check_merge ex_repo ex_main ex_main accessor_new = Ok MergeAllowed ∧
  ∃ tl L rs, get_timeline ex_refs ex_main = Ok (Some tl) ∧ ∀ p, ¬ merge_leaks ex_repo L rs (head tl) ex_main p.
Proof.
  assert (check_merge ex_repo ex_main ex_main accessor_new = Ok MergeAllowed) as Hc
    by (apply (bool_decide_unpack _); vm_compute; exact I).
  split; [exact Hc|].
  destruct (check_merge_no_leak ex_repo ex_main ex_main accessor_new MergeAllowed Hc)
    as (tl & L & rs & acls & reg & Ht & _ & _ & _ & _ & Hiff & _).
  exists tl, L, rs. split; [exact Ht|]. exact (proj1 (proj1 Hiff eq_refl)).
Defined.

Definition ex_root_objects : objects :=
  {[ ex_id x01 := Ok (OPolicy (PLattice two_point)); ex_id x02 := Ok (OPolicy (PRuleSet LabelRuleSet_default));
     ex_id x03 := Ok (OPolicy (PRoot (MkPolicyRoot (ex_id x01) (ex_id x02) None []))) ]}.
Definition ex_root_repo : Repository MemoryRefBackend MemoryAclBackend :=
  MkRepo ex_root_objects ∅ MemoryAclBackend_new [] None.
Definition ex_root_sigs : SignatureStore := {[ ex_id x03 := sign_root "root" zero_seed (ex_id x03) ]}.
Definition ex_root_trust : TrustStore := trust_add (MkTrustStore []) (policy_anchor "root" zero_seed).
Definition ex_adopted : Repository MemoryRefBackend MemoryAclBackend :=
  snd (adopt_policy_root (ex_id x03) ex_root_sigs ex_root_trust ex_root_repo).

Lemma adopt_policy_root_verified_witness :
  ∃ chain, verified ex_root_objects ex_root_sigs ex_root_trust (ex_id x03) chain.
Proof.
  assert (fst (adopt_policy_root (ex_id x03) ex_root_sigs ex_root_trust ex_root_repo) = Ok ()) as Hf
    by (apply (bool_decide_unpack _); vm_compute; exact I).
  assert (adopt_policy_root (ex_id x03) ex_root_sigs ex_root_trust ex_root_repo = (Ok (), ex_adopted)) as Ha.
  { rewrite <- Hf. apply surjective_pairing. }
  assert (be_inv (r_refs ex_root_repo)) as Hi by (intros k r Hk; exact (False_ind _ (lookup_empty_Some k r Hk))).
  destruct (adopt_policy_root_verified ex_root_repo ex_adopted (ex_id x03) ex_root_sigs ex_root_trust _ Hi Ha)
    as (chain & Hv & _).
  exists chain. exact Hv.
Defined.

(** An ACL backend with a lattice and rules of its own, as the trait allows. *)
#[local] Instance ex_tri_backend : AclBackend () := {|
  get_path_acl _ _ := Ok None; set_path_acl _ := mret (); delete_path_acl _ := mret ();
  list_path_acls _ := Ok [];
  get_timeline_acl _ _ := Ok None; set_timeline_acl _ := mret (); delete_timeline_acl _ := mret ();
  list_timeline_acls _ := Ok [];
  list_secret_acls _ := Ok []; set_secret_acl _ := mret (); delete_secret_acl _ := mret ();
  get_lattice _ := Ok chain3; set_lattice := default_set_lattice;
  get_label_ruleset _ := Ok (MkRuleSet [RulePath "a" "secret"]); set_label_ruleset := default_set_ruleset;
  get_grant := default_get_grant; set_grant := default_set_grant
|}.
Definition ex_tri_repo : Repository MemoryRefBackend () := MkRepo ex_repo_objects ex_refs () [] None.
(** May write timelines, and no path at all. *)
Definition ex_clerk : Accessor :=
  accessor_from_parts chain3 LabelRuleSet_default
    (MkClearanceSet [MkClearance "secret" WRITE (Some (ScopeTimeline "main"))] false).

(** The walk that authorises an advance reads as [Accessor::privileged], whose lattice
    is always the two-point one. On an ACL backend that overrides [get_lattice], as the
    trait permits, a file whose label lies outside those two points is invisible to it,
    so no write clearance is asked for: here an actor without any clearance on paths
    replaces a file labelled [secret] on a three-level lattice. *)
Theorem privileged_walk_blind :
  snapshot_file ex_tri_repo (ex_id x02) "a" ∧
  label_for_path (MkRuleSet [RulePath "a" "secret"]) chain3 "a" = "secret" ∧
  (∀ label p, can_write ex_clerk label (ResPath p) = false) ∧
  fst (advance_timeline ex_main (ex_id x02) ex_clerk ex_tri_repo) = Ok ().
Proof.
  split; [|split; [|split]].
  - exists (MkSnapshot (ex_id x12) [ex_id x01] "" 0 ""). split; [apply (bool_decide_unpack _); vm_compute; exact I|].
    exists (ex_id x22). exists (ex_id x12, "", 0). split; [apply rtc_refl|].
    exists (MkTree {[ "a" := MkTreeEntry (ex_id x22) KindBlob ]}), "a".
    split; [apply (bool_decide_unpack _); vm_compute; exact I|]. split; [|reflexivity].
    apply (bool_decide_unpack _). vm_compute. exact I.
  - vm_compute. reflexivity.
  - intros label p. apply not_true_iff_false. rewrite can_write_iff.
    intros (c & ->%list_elem_of_singleton & (_ & Hs & _) & _). discriminate Hs.
  - apply (bool_decide_unpack _). vm_compute. exact I.
Qed.
End demo.
