(* ===== verification/Overlay.v ===== *)
(** * Overlay: environments with secrets

    [compute_workspace_view] and [resolve_overlay] of src/src/repo/mod.rs: an overlay
    maps environment variables to plain values or to the ids of secrets, which are
    decrypted on the way out.

    The theorems: [resolve_overlay] returns exactly the plain values and the decrypted
    values of the secrets whose variable the accessor is cleared for, and its result,
    errors included, does not depend on any other secret; [compute_workspace_view]
    filters files by the accessor but decrypts every secret. *)

From S2P Require Import Prelude Graph Glob Lattice Access Ids Text Objects Refs RefStore RefsDisk Signing Policy Store Crypto Secrets SecretStore Acl Walk Repo.

Record WorkspaceView : Type := MkView {
  view_files : gmap string ObjectId;
  view_env : gmap string string
}.

Section overlay.
Context {R : Type} `{RefBackend R, IoText, Ed25519}.
Context {A : Type} `{AclBackend A, Aead, AadCodec}.
Abbreviation Repo := (Repository R A).
Implicit Types s : Repo.

(** [ObjectStore::get_overlay] on the decoded view. *)
Definition os_get_overlay (O : objects) (id : ObjectId) : res EnvOverlay :=
  obj ← os_get O id;
  match obj with
  | None => Err (Storage ("overlay not found: " +:+ id_to_string id))
  | Some (OEnvOverlay o) => Ok o
  | Some _ => Err (Codec "not an env overlay")
  end.

(** One variable of the loop of [compute_workspace_view]. *)
Definition view_value (s : Repo) (key : Key) (_var : string) (value : EnvValue) : res (option string) :=
  match value with
  | EnvPlain v => Ok (Some v)
  | EnvSecret id =>
      b ← os_get_secret (r_objects s) id key;
      b ← ok_or b (err_secret_not_found id);
      v ← ok_or (from_utf8 b) SecretNotUtf8;
      Ok (Some v)
  end.

Definition compute_workspace_view (s : Repo) (snapshot_id overlay_id : ObjectId) (key : Key)
    (accessor : Accessor) : res (option WorkspaceView) :=
  filtered ← get_snapshot_filtered s snapshot_id accessor;
  match filtered with
  | None => Ok None
  | Some filtered =>
      overlay ← os_get_overlay (r_objects s) overlay_id;
      env ← collect (view_value s key) (overlay_entries overlay);
      Ok (Some (MkView (fs_visible_paths filtered) env))
  end.

Definition cleared (lattice : LabelLattice) (rules : LabelRuleSet) (accessor : Accessor) (var : string) : bool :=
  let label := label_for_secret rules lattice var in
  bool_decide (label = bottom lattice) || can_read accessor label (ResSecret var).

Definition err_uncleared (var : string) : Error :=
  AccessDenied ("not cleared to resolve secret for env var '" +:+ var +:+ "'").
Definition err_not_utf8 (var : string) : Error :=
  Codec ("secret for env var '" +:+ var +:+ "' is not valid UTF-8").

(** One variable of the loop of [resolve_overlay]. *)
Definition resolve_value (O : objects) (lattice : LabelLattice) (rules : LabelRuleSet) (chain : ProviderChain)
    (accessor : Accessor) (skip_unauthorized : bool) (var : string) (value : EnvValue) : res (option string) :=
  match value with
  | EnvPlain v => Ok (Some v)
  | EnvSecret id =>
      if negb (cleared lattice rules accessor var) then
        if skip_unauthorized then Ok None else Err (err_uncleared var)
      else
        b ← os_get_secret_resolved O id chain;
        b ← ok_or b (err_secret_not_found id);
        v ← ok_or (from_utf8 b) (err_not_utf8 var);
        Ok (Some v)
  end.

Definition resolve_overlay (s : Repo) (overlay_id : ObjectId) (chain : ProviderChain)
    (accessor : Accessor) (skip_unauthorized : bool) : res (gmap string string) :=
  overlay ← os_get_overlay (r_objects s) overlay_id;
  lattice ← get_lattice (r_acls s);
  rules ← get_label_ruleset (r_acls s);
  collect (resolve_value (r_objects s) lattice rules chain accessor skip_unauthorized) (overlay_entries overlay).

(** ** Facts *)
Lemma resolve_secret_Ok O L rs chain a skip var id r :
  resolve_value O L rs chain a skip var (EnvSecret id) = Ok r ↔
  (cleared L rs a var = false ∧ skip = true ∧ r = None) ∨
  (cleared L rs a var = true ∧ ∃ pt v, os_get_secret_resolved O id chain = Ok (Some pt) ∧
     from_utf8 pt = Some v ∧ r = Some v).
Proof.
  simpl. destruct (cleared L rs a var); simpl.
  - rewrite bind_Ok. setoid_rewrite bind_Ok. split.
    + intros ([pt|] & Hs & pt' & Hp & Hv); [|done]. injection Hp as <-. right. split; [done|].
      apply bind_Ok in Hv as (v & Hv & [= <-]). destruct (from_utf8 pt) eqn:Hu; [|done].
      injection Hv as ->. eauto.
    + intros [[? _]|(_ & pt & v & Hs & Hv & ->)]; [done|]. exists (Some pt). split; [done|].
      exists pt. split; [done|]. by rewrite Hv.
  - destruct skip; naive_solver.
Qed.
End overlay.

(** ** Properties *)
Section theorems.
Context {R : Type} `{RefBackend R, IoText, Ed25519}.
Context {A : Type} `{AclBackend A, Aead, AadCodec}.
Implicit Types s : Repository R A.

(** [C33] When the overlay, the lattice and the label rules load, what resolving the overlay
    returns: the plain values, and for every secret the
    accessor is cleared for (its variable has the bottom label or the accessor may
    read that label) the decrypted value as text; an uncleared secret is left out,
    which can only happen with [skip_unauthorized]. Conversely a run fails only where
    a cleared secret cannot be read, decrypted or decoded, or, without
    [skip_unauthorized], on an uncleared secret, and then the error names a variable
    of the overlay. *)
Theorem resolve_overlay_correct s (oid : ObjectId) (chain : ProviderChain) (a : Accessor) (skip : bool)
    (o : EnvOverlay) (L : LabelLattice) (rs : LabelRuleSet) :
  os_get_overlay (r_objects s) oid = Ok o → get_lattice (r_acls s) = Ok L → get_label_ruleset (r_acls s) = Ok rs →
  match resolve_overlay s oid chain a skip with
  | Ok out => ∀ var,
      match overlay_entries o !! var with
      | None => out !! var = None
      | Some (EnvPlain v) => out !! var = Some v
      | Some (EnvSecret id) =>
          if cleared L rs a var
          then ∃ pt v, os_get_secret_resolved (r_objects s) id chain = Ok (Some pt) ∧ from_utf8 pt = Some v ∧ out !! var = Some v
          else skip = true ∧ out !! var = None
      end
  | Err e => ∃ var id, overlay_entries o !! var = Some (EnvSecret id) ∧
      ((cleared L rs a var = false ∧ skip = false ∧ e = err_uncleared var) ∨
       (cleared L rs a var = true ∧
         (os_get_secret_resolved (r_objects s) id chain = Err e ∨
          (os_get_secret_resolved (r_objects s) id chain = Ok None ∧ e = err_secret_not_found id) ∨
          ∃ pt, os_get_secret_resolved (r_objects s) id chain = Ok (Some pt) ∧ from_utf8 pt = None ∧ e = err_not_utf8 var)))
  end.
Proof.
  intros Ho HL Hrs. unfold resolve_overlay. rewrite Ho, HL, Hrs. simpl.
  destruct (collect _ _) as [out|e] eqn:Hc.
  - intros var. pose proof (collect_Ok _ _ _ Hc var) as Hv.
    destruct (overlay_entries o !! var) as [[v|id]|]; [by injection Hv as <-| |done].
    apply resolve_secret_Ok in Hv as [(-> & -> & ->)|(-> & pt & v & ? & ? & ->)]; [done|eauto].
  - apply collect_Err in Hc as (var & [v|id] & Hv & He); [done|]. exists var, id. split; [done|].
    simpl in He. destruct (cleared L rs a var); simpl in He; [right; split; [done|]|left; by destruct skip; simplify_eq].
    destruct (os_get_secret_resolved (r_objects s) id chain) as [[pt|]|e']; simplify_eq/=; [|by right; left|by left].
    right. right. exists pt. destruct (from_utf8 pt); naive_solver.
Qed.

(** [C34] Nothing leaks from a secret the accessor is not cleared for: two repositories
    with the same overlay and the same access rules, in which the secrets of cleared
    variables read the same, give the same result, errors included, whatever the
    other secrets contain. *)
Theorem resolve_overlay_noninterference s1 s2 (oid : ObjectId) (chain1 chain2 : ProviderChain) (a : Accessor)
    (skip : bool) (o : EnvOverlay) (L : LabelLattice) (rs : LabelRuleSet) :
  os_get_overlay (r_objects s1) oid = Ok o → os_get_overlay (r_objects s2) oid = Ok o →
  get_lattice (r_acls s1) = Ok L → get_lattice (r_acls s2) = Ok L →
  get_label_ruleset (r_acls s1) = Ok rs → get_label_ruleset (r_acls s2) = Ok rs →
  (∀ var id, overlay_entries o !! var = Some (EnvSecret id) → cleared L rs a var = true →
     os_get_secret_resolved (r_objects s1) id chain1 = os_get_secret_resolved (r_objects s2) id chain2) →
  resolve_overlay s1 oid chain1 a skip = resolve_overlay s2 oid chain2 a skip.
Proof.
  intros Ho1 Ho2 HL1 HL2 Hr1 Hr2 Heq. unfold resolve_overlay. rewrite Ho1, Ho2, HL1, HL2, Hr1, Hr2. simpl.
  apply collect_ext. intros var [v|id] Hv; [done|]. simpl.
  destruct (cleared L rs a var) eqn:Hc; simpl; [|done]. by rewrite (Heq var id Hv Hc).
Qed.

(** A workspace view filters its files but not its secrets: whoever asks, a view
    that is computed holds every secret of the overlay in clear text, and two
    accessors that get a view of the same snapshot get the same environment. *)
Theorem workspace_view_ungated s (sid oid : ObjectId) (key : Key) (a1 a2 : Accessor) (v1 v2 : WorkspaceView) :
  compute_workspace_view s sid oid key a1 = Ok (Some v1) → compute_workspace_view s sid oid key a2 = Ok (Some v2) →
  view_env v1 = view_env v2 ∧
  ∃ o, os_get_overlay (r_objects s) oid = Ok o ∧
    ∀ var id, overlay_entries o !! var = Some (EnvSecret id) →
      ∃ pt v, os_get_secret (r_objects s) id key = Ok (Some pt) ∧ from_utf8 pt = Some v ∧ view_env v1 !! var = Some v.
Proof.
  assert (∀ a v, compute_workspace_view s sid oid key a = Ok (Some v) → ∃ o,
    os_get_overlay (r_objects s) oid = Ok o ∧ collect (view_value s key) (overlay_entries o) = Ok (view_env v)) as Hview.
  { intros a v. unfold compute_workspace_view. rewrite bind_Ok. intros ([f|] & _ & Hv); [|done].
    apply bind_Ok in Hv as (o & Ho & Hv). apply bind_Ok in Hv as (env & He & [= <-]). eauto. }
  intros (o & Ho & Hc1)%Hview (o' & Ho' & Hc2)%Hview. rewrite Ho in Ho'. injection Ho' as <-.
  rewrite Hc1 in Hc2. injection Hc2 as <-. split; [done|]. exists o. split; [done|]. intros var id Hvar.
  pose proof (collect_Ok _ _ _ Hc1 var) as Hc. rewrite Hvar in Hc. simpl in Hc.
  apply bind_Ok in Hc as (b & Hs & Hc). apply bind_Ok in Hc as (pt & Hp & Hc). apply bind_Ok in Hc as (v & Hv & Hc).
  destruct b as [b|]; [|done]. injection Hp as ->. destruct (from_utf8 pt) eqn:Hu; [|done].
  injection Hv as ->. injection Hc as Hc. eauto.
Qed.
End theorems.

(** ** On concrete data: one plain and one protected variable *)
Section demo.
Local Existing Instance demo_io_text.
Local Existing Instance toy_ed25519.
Local Existing Instance toy_random.
Local Existing Instance toy_aead.
Local Existing Instance toy_aad.

Definition ex_overlay : EnvOverlay :=
  MkEnvOverlay {[ "MODE" := EnvPlain "prod"; "TOKEN" := EnvSecret (ex_id x31) ]}.
Definition ex_v1 (pt : bytes) : res Object := s ← (secret_encrypt pt (ex_key x05) 0%N).1; Ok (OSecret s).
Definition ex_env_acls : MemoryAclBackend := snd (set_secret_acl (MkSecretAcl "TOKEN") MemoryAclBackend_new).
Definition ex_env_repo (pt : bytes) : Repository MemoryRefBackend MemoryAclBackend :=
  MkRepo (<[ex_id x30 := Ok (OEnvOverlay ex_overlay)]> (<[ex_id x31 := ex_v1 pt]> ex_repo_objects)) ex_refs ex_env_acls [] None.
Definition ex_legacy : ProviderChain := push_legacy_key (ex_key x05) chain_new.
Definition ex_token_rules : LabelRuleSet := MkRuleSet [RuleSecret "TOKEN" PROTECTED].
Definition ex_guest : Accessor := accessor_new.

Lemma ex_env_overlay pt : os_get_overlay (r_objects (ex_env_repo pt)) (ex_id x30) = Ok ex_overlay.
Proof. reflexivity. Qed.
Lemma ex_env_lattice pt : get_lattice (r_acls (ex_env_repo pt)) = Ok two_point.
Proof. reflexivity. Qed.
Lemma ex_env_rules pt : get_label_ruleset (r_acls (ex_env_repo pt)) = Ok ex_token_rules.
Proof. reflexivity. Qed.

Lemma resolve_overlay_correct_witness :
  resolve_overlay (ex_env_repo ex_value) (ex_id x30) ex_legacy privileged false =
    Ok {[ "MODE" := "prod"; "TOKEN" := "hunter2" ]} ∧
  ∃ e, resolve_overlay (ex_env_repo ex_value) (ex_id x30) ex_legacy ex_guest false = Err e.
Proof.
  split; [apply (bool_decide_unpack _); vm_compute; exact I|].
  pose proof (resolve_overlay_correct (ex_env_repo ex_value) (ex_id x30) ex_legacy ex_guest false ex_overlay two_point
    ex_token_rules (ex_env_overlay _) eq_refl (ex_env_rules _)) as Hr.
  destruct (resolve_overlay _ _ _ ex_guest _) as [out|e]; [|exists e; reflexivity].
  specialize (Hr "TOKEN"). destruct (cleared two_point ex_token_rules ex_guest "TOKEN") eqn:Hc.
  - vm_compute in Hc. discriminate Hc.
  - assert (overlay_entries ex_overlay !! "TOKEN" = Some (EnvSecret (ex_id x31))) as Ht by reflexivity.
    rewrite Ht in Hr. destruct Hr as [Hf _]. discriminate Hf.
Defined.

Lemma resolve_overlay_noninterference_witness :
  resolve_overlay (ex_env_repo [x61]) (ex_id x30) ex_legacy ex_guest true =
  resolve_overlay (ex_env_repo [x62]) (ex_id x30) ex_legacy ex_guest true.
Proof.
  apply (resolve_overlay_noninterference (ex_env_repo [x61]) (ex_env_repo [x62]) (ex_id x30) ex_legacy ex_legacy ex_guest true ex_overlay two_point
    ex_token_rules (ex_env_overlay _) (ex_env_overlay _) (ex_env_lattice _) (ex_env_lattice _) (ex_env_rules _) (ex_env_rules _)).
  intros var id Hv Hc. unfold ex_overlay in Hv. cbn [overlay_entries] in Hv.
  apply lookup_insert_Some in Hv as [[<- Hv]|[_ Hv]]; [discriminate Hv|].
  apply lookup_singleton_Some in Hv as [<- _]. vm_compute in Hc. discriminate Hc.
Defined.

Lemma workspace_view_ungated_witness : ∃ v,
  compute_workspace_view (ex_env_repo ex_value) (ex_id x01) (ex_id x30) (ex_key x05) ex_guest = Ok (Some v) ∧
  view_env v !! "TOKEN" = Some "hunter2".
Proof.
  destruct (compute_workspace_view (ex_env_repo ex_value) (ex_id x01) (ex_id x30) (ex_key x05) ex_guest)
    as [[v|]|e] eqn:Hv; [|exfalso; vm_compute in Hv; discriminate Hv..].
  exists v. split; [reflexivity|].
  destruct (workspace_view_ungated _ _ _ _ _ _ _ _ Hv Hv) as (_ & o & Ho & Henv).
  rewrite ex_env_overlay in Ho. injection Ho as <-.
  destruct (Henv "TOKEN" (ex_id x31) eq_refl) as (pt & u & Hpt & Hu & ->).
  vm_compute in Hpt. injection Hpt as <-. vm_compute in Hu. rewrite Hu. reflexivity.
Defined.
End demo.
