(* ===== verification/Seeds.v ===== *)
(** * Seeds: private keys in published snapshots

    [Repository::scan_committed_seeds] of src/src/repo/mod.rs: the files of every
    timeline's head that look like an account seed.  The theorem: the scan reports
    exactly those. *)

From S2P Require Import Prelude Graph Ids Text Objects Refs RefStore RefsDisk Signing Policy Store Acl Gc Walk Ephemeral Repo.

Section scan.
Context {R A : Type} `{RefBackend R}.
Implicit Types s : Repository R A.

(** One file of a snapshot, one ref, and the loop over all of them. *)
Definition scan_file (O : objects) (name : RefName) (hits : list (RefName * string)) (e : string * ObjectId)
    : res (list (RefName * string)) :=
  obj ← os_get O e.2;
  match obj with
  | Some (OBlob b) => Ok (if looks_like_private_seed (blob_data b) then hits ++ [(name, e.1)] else hits)
  | _ => Ok hits
  end.
Definition scan_ref s (hits : list (RefName * string)) (name : RefName) : res (list (RefName * string)) :=
  r ← get_ref (r_refs s) name;
  match r with
  | Some (RTimeline t) =>
      paths ← snapshot_paths (r_objects s) (head t);
      res_fold (scan_file (r_objects s) name) hits (btree_iter paths)
  | _ => Ok hits
  end.
Definition scan_committed_seeds s : res (list (RefName * string)) :=
  names ← list_refs (r_refs s) "";
  res_fold (scan_ref s) [] names.
End scan.

(** The leaks of one file, and of one ref. *)
Definition seed_at (O : objects) (x : ObjectId) : Prop :=
  ∃ b, O !! x = Some (Ok (OBlob b)) ∧ looks_like_private_seed (blob_data b) = true.

Lemma scan_file_hits O n h e h' : scan_file O n h e = Ok h' →
  ∀ t, t ∈ h' ↔ t ∈ h ∨ (t = (n, e.1) ∧ seed_at O e.2).
Proof.
  unfold scan_file. rewrite bind_Ok. intros (obj & Ho & Hh) t.
  assert (∀ b, O !! e.2 = Some (Ok (OBlob b)) ↔ obj = Some (OBlob b)) as Hobj.
  { intros b. rewrite <- os_get_Some, Ho. naive_solver. }
  unfold seed_at. setoid_rewrite Hobj.
  destruct obj as [[b| | | | | | | | | | | |]|]; try (injection Hh as <-; naive_solver).
  destruct (looks_like_private_seed (blob_data b)) eqn:Hl; injection Hh as <-.
  - rewrite elem_of_app, list_elem_of_singleton. naive_solver.
  - naive_solver congruence.
Qed.

Section theorem.
Context {R A : Type} `{RefBackendLaws R}.
Implicit Types s : Repository R A.

Lemma scan_ref_hits s h n h' : scan_ref s h n = Ok h' →
  ∀ t, t ∈ h' ↔ t ∈ h ∨ (t.1 = n ∧ ∃ tl paths x, get_ref (r_refs s) n = Ok (Some (RTimeline tl)) ∧
    snapshot_paths (r_objects s) (head tl) = Ok paths ∧ paths !! t.2 = Some x ∧ seed_at (r_objects s) x).
Proof.
  unfold scan_ref. rewrite bind_Ok. intros (r & Hg & Hh) [m q]. simpl. rewrite Hg.
  destruct r as [[tag|tl]|]; [injection Hh as <-; naive_solver| |injection Hh as <-; naive_solver].
  apply bind_Ok in Hh as (paths & Hp & Hh).
  rewrite (res_fold_hits _ (λ e t, t = (n, e.1) ∧ seed_at (r_objects s) e.2) _
    (λ h1 e h2 _, scan_file_hits (r_objects s) n h1 e h2) _ _ Hh (m, q)).
  f_equiv. split.
  - intros ([q' x] & Hin%elem_of_btree_iter & [= -> ->] & Hs). simpl in *. split; [done|]. by exists tl, paths, x.
  - intros (-> & tl' & paths' & x & [= <-] & Hp' & Hx & Hs). rewrite Hp in Hp'. injection Hp' as <-.
    exists (q, x). split; [by apply elem_of_btree_iter|done].
Qed.

(** A scan that succeeds reports exactly the leaks: a timeline and a path are
    reported if and only if the timeline exists, its head is a snapshot with a file
    at that path, and that file's blob has a line that is a bare 64-digit hex key. *)
Theorem scan_committed_seeds_exact s (hits : list (RefName * string)) (name : RefName) (p : string) :
  be_inv (r_refs s) → scan_committed_seeds s = Ok hits →
  (name, p) ∈ hits ↔ ∃ t paths x b,
    be_view (r_refs s) !! name = Some (RTimeline t) ∧ snapshot_paths (r_objects s) (head t) = Ok paths ∧
    paths !! p = Some x ∧ r_objects s !! x = Some (Ok (OBlob b)) ∧ looks_like_private_seed (blob_data b) = true.
Proof.
  intros Hinv. unfold scan_committed_seeds. rewrite bind_Ok. intros (names & Hn & Hs).
  rewrite (res_fold_hits _ _ names (λ h n h' _, scan_ref_hits s h n h') [] hits Hs (name, p)), elem_of_nil.
  simpl. unfold seed_at. split.
  - intros [[]|(n & Hin & -> & t & paths & x & Hg & Hp & Hx & b & Hb & Hl)].
    destruct (get_listed (r_refs s) names n Hinv Hn Hin) as (r & Hr & Hg'). rewrite Hg in Hg'. injection Hg' as <-.
    by exists t, paths, x, b.
  - intros (t & paths & x & b & Hv & Hp & Hx & Hb & Hl). right. exists name.
    assert (name ∈ names) as Hin by (apply (listed (r_refs s) names name Hinv Hn); eauto).
    destruct (get_listed (r_refs s) names name Hinv Hn Hin) as (r & Hr & Hg). rewrite Hv in Hr. injection Hr as <-.
    naive_solver.
Qed.
End theorem.

(** ** On concrete data: a key file on the main timeline *)
Section demo.
Definition ex_seed_line : bytes := replicate 64 x61.
Definition ex_seed_objects : objects :=
  {[ ex_id x01 := Ok (OSnapshot (MkSnapshot (ex_id x11) [] "" 0 ""));
     ex_id x11 := Ok (OTree (MkTree {[ "key" := MkTreeEntry (ex_id x21) KindBlob; "readme" := MkTreeEntry (ex_id x22) KindBlob ]}));
     ex_id x21 := Ok (OBlob (MkBlob (ex_seed_line ++ [x0a]))); ex_id x22 := Ok (OBlob (MkBlob (x6b :: ex_seed_line))) ]}.
Definition ex_seed_repo : Repository MemoryRefBackend () := MkRepo ex_seed_objects ex_refs () [] None.

Lemma scan_committed_seeds_exact_witness : scan_committed_seeds ex_seed_repo = Ok [(ex_main, "key")] ∧
  ∃ t, be_view ex_refs !! ex_main = Some (RTimeline t).
Proof.
  assert (scan_committed_seeds ex_seed_repo = Ok [(ex_main, "key")]) as Hs by (apply (bool_decide_unpack _); vm_compute; exact I).
  split; [exact Hs|]. assert (be_inv (r_refs ex_seed_repo)) as Hri by exact ex_refs_ok.
  destruct (proj1 (scan_committed_seeds_exact ex_seed_repo _ ex_main "key" Hri Hs)) as (t & _ & _ & _ & Ht & _); [by left|].
  exists t. exact Ht.
Defined.
End demo.
