(* ===== verification/Trust.v ===== *)
(** * Trust: the trust graph and the names it suggests

    [TrustGraph] of src/src/collab/trust.rs: the bounded searches over [Follow] and
    [Vouch] edges; [Namer] of src/src/collab/naming.rs and [verify_alias] of
    src/src/collab/alias.rs.  The searches are the level-order loop of [Bfs.v], each with
    the data it keeps per node; the theorems say that what they return is the shortest,
    and that nothing within the bound is missed. *)

From S2P Require Import Prelude Bfs Order Ids Objects Store.

#[global] Instance key_string_inj : Inj (=) (=) (λ k : Key, bytes_str (vec_to_list k)).
Proof. intros x y Hxy. by apply (inj bytes_str), vec_to_list_inj2 in Hxy. Qed.
(** [Ord for [u8; 32]] *)
#[global] Instance Key_OrdKey : OrdKey Key := OrdKey_inj (λ k : Key, bytes_str (vec_to_list k)).

Record TrustGraph : Type := MkGraph { tg_edges : list TrustEdge }.
Record TrustHop : Type := MkHop { hop_key : Key; hop_via : TrustKind }.
Record VouchSuggestion : Type := MkSuggestion { vs_petname : string; vs_depth : N; vs_path : list Key }.

Definition follows (g : TrustGraph) (from : Key) : list Key :=
  to_key <$> filter (λ e, edge_kind e = Follow ∧ from_key e = from) (tg_edges g).

(** ** [follow_neighborhood]: distances, the queue of nodes with theirs, the seen set *)
Fixpoint near_scan (d : N) (ns : list Key) (s : gmap Key N * list (Key * N) * gset Key)
    : gmap Key N * list (Key * N) * gset Key :=
  match ns with
  | [] => s
  | next :: ns =>
      let '(dist, q, seen) := s in
      near_scan d ns
        (if decide (next ∈ seen) then s
         else (<[next := (d + 1)%N]> dist, q ++ [(next, (d + 1)%N)], {[next]} ∪ seen))
  end.
Definition near_step (g : TrustGraph) (hops : byte) (s : gmap Key N * list (Key * N) * gset Key)
    : (gmap Key N * list (Key * N) * gset Key) + gmap Key N :=
  let '(dist, q, seen) := s in
  match q with
  | [] => inr dist
  | (node, d) :: q =>
      if decide (d = u8 hops) then inl (dist, q, seen)
      else inl (near_scan d (follows g node) (dist, q, seen))
  end.
(** Every edge pushes at most one node. *)
Definition search_fuel (g : TrustGraph) : nat := S (S (length (tg_edges g))).
Definition follow_neighborhood (g : TrustGraph) (root : Key) (hops : byte) : gmap Key N :=
  default ∅ (run (near_step g hops) (search_fuel g) (∅, [(root, 0%N)], {[root]})).

(** ** [follow_paths]: the path of every visited node; [len as u8 - 1] overflows at 256 *)
Definition err_no_path : Error := Panic "visited nodes have a path".
Definition err_subtract : Error := Panic "attempt to subtract with overflow".

Fixpoint route_scan (node_path : list Key) (ns : list Key) (s : gmap Key (list Key) * list Key)
    : gmap Key (list Key) * list Key :=
  match ns with
  | [] => s
  | next :: ns =>
      route_scan node_path ns
        (match s.1 !! next with
         | Some _ => s
         | None => (<[next := node_path ++ [next]]> s.1, s.2 ++ [next])
         end)
  end.
Definition route_step (g : TrustGraph) (root : Key) (hops : byte) (s : gmap Key (list Key) * list Key)
    : (gmap Key (list Key) * list Key) + res (gmap Key (list Key)) :=
  let '(paths, q) := s in
  match q with
  | [] => inr (Ok (delete root paths))
  | node :: q =>
      match paths !! node with
      | None => inr (Err err_no_path)
      | Some node_path =>
          let len := u8 (as_u8 (N.of_nat (length node_path))) in
          if decide (len = 0%N) then inr (Err err_subtract)
          else if decide ((len - 1)%N = u8 hops) then inl (paths, q)
          else inl (route_scan node_path (follows g node) (paths, q))
      end
  end.
Definition follow_paths (g : TrustGraph) (root : Key) (hops : byte) : res (gmap Key (list Key)) :=
  default (Err (Panic "fuel")) (run (route_step g root hops) (search_fuel g) ({[root := [root]]}, [root])).

(** ** [vouch_suggestions] *)
Definition vouched_names (g : TrustGraph) (voucher target : Key) : list string :=
  omap petname (filter (λ e, edge_kind e = Vouch ∧ from_key e = voucher ∧ to_key e = target) (tg_edges g)).
Definition vouch_suggestions (g : TrustGraph) (root target : Key) (max_depth : N) : list VouchSuggestion :=
  (if decide (1 ≤ max_depth)%N
   then (λ name, MkSuggestion name 1 [root]) <$> vouched_names g root target else []) ++
  (if decide (2 ≤ max_depth)%N
   then voucher ← follows g root;
        (λ name, MkSuggestion name 2 [root; voucher]) <$> vouched_names g voucher target
   else []).

(** ** [trust_path] *)
Definition note_edge (from : Key) (best : gmap Key TrustKind) (e : TrustEdge) : gmap Key TrustKind :=
  if decide (from_key e = from ∧ (edge_kind e = Follow ∨ edge_kind e = Vouch)) then
    match best !! to_key e with
    | Some _ => if decide (edge_kind e = Vouch) then <[to_key e := Vouch]> best else best
    | None => <[to_key e := edge_kind e]> best
    end
  else best.
Definition trust_neighbors (g : TrustGraph) (from : Key) : list (Key * TrustKind) :=
  btree_iter (foldl (note_edge from) ∅ (tg_edges g)).

Fixpoint path_scan (target : Key) (node_path : list TrustHop) (ns : list (Key * TrustKind))
    (s : gmap Key (list TrustHop) * list Key) : list TrustHop + gmap Key (list TrustHop) * list Key :=
  match ns with
  | [] => inr s
  | (next, via) :: ns =>
      match s.1 !! next with
      | Some _ => path_scan target node_path ns s
      | None =>
          let p := node_path ++ [MkHop next via] in
          if decide (next = target) then inl p
          else path_scan target node_path ns (<[next := p]> s.1, s.2 ++ [next])
      end
  end.
Definition path_step (g : TrustGraph) (target : Key) (max_hops : byte) (s : gmap Key (list TrustHop) * list Key)
    : (gmap Key (list TrustHop) * list Key) + res (option (list TrustHop)) :=
  let '(paths, q) := s in
  match q with
  | [] => inr (Ok None)
  | node :: q =>
      match paths !! node with
      | None => inr (Err err_no_path)
      | Some node_path =>
          if decide (as_u8 (N.of_nat (length node_path)) = max_hops) then inl (paths, q)
          else match path_scan target node_path (trust_neighbors g node) (paths, q) with
               | inl p => inr (Ok (Some p))
               | inr s => inl s
               end
      end
  end.
Definition trust_path (g : TrustGraph) (root target : Key) (max_hops : byte) : res (option (list TrustHop)) :=
  if decide (root = target) then Ok (Some [])
  else default (Err (Panic "fuel")) (run (path_step g target max_hops) (search_fuel g) ({[root := []]}, [root])).

(** ** Names *)
Inductive PetnameResolution : Type :=
| PetLocal (name : string)
| PetVouch (name : string) (depth : N) (path : list Key)
| PetFingerprint (fp : string).

Section names.
Context `{ObjectCodec}.

(** [fingerprint], [key_hex] *)
Definition fingerprint (k : Key) : string := hex32 (vec_to_list (blake3_hash (vec_to_list k))).
Definition key_hex (k : Key) : string := hex32 (vec_to_list k).

Record Namer : Type := MkNamer { nm_root : Key; nm_local : gmap Key string; nm_graph : TrustGraph }.
Definition namer_resolve (n : Namer) (key : Key) : PetnameResolution :=
  match nm_local n !! key with
  | Some name => PetLocal name
  | None =>
      match sort_by (λ a b, N.compare (vs_depth a) (vs_depth b))
              (vouch_suggestions (nm_graph n) (nm_root n) key 2) with
      | s :: _ => PetVouch (vs_petname s) (vs_depth s) (vs_path s)
      | [] => PetFingerprint (fingerprint key)
      end
  end.
End names.

(** ** Aliases *)
Inductive AliasStatus : Type := Verified | Claimed.
Class AliasResolver (A : Type) := { asserted_key : A → string → res (option Key) }.
Definition verify_alias `{AliasResolver A} (resolver : A) (alias : string) (key : Key) : res AliasStatus :=
  asserted ← asserted_key resolver alias;
  match asserted with
  | Some k => if decide (k = key) then Ok Verified else Ok Claimed
  | None => Ok Claimed
  end.

(** ** Edges and routes of a trust graph *)
Definition follow_edge (g : TrustGraph) (x y : Key) : Prop :=
  ∃ e, e ∈ tg_edges g ∧ edge_kind e = Follow ∧ from_key e = x ∧ to_key e = y.
Definition vouch_edge (g : TrustGraph) (x y : Key) : Prop :=
  ∃ e, e ∈ tg_edges g ∧ edge_kind e = Vouch ∧ from_key e = x ∧ to_key e = y.
Definition trust_edge (g : TrustGraph) (x y : Key) : Prop := follow_edge g x y ∨ vouch_edge g x y.
(** The nodes a search of [g] can meet. *)
Definition nodes (g : TrustGraph) (root : Key) : gset Key := {[root]} ∪ list_to_set (to_key <$> tg_edges g).

Lemma elem_of_follows g x y : y ∈ follows g x ↔ follow_edge g x y.
Proof.
  unfold follows, follow_edge. rewrite list_elem_of_fmap. setoid_rewrite list_elem_of_filter. naive_solver.
Qed.
Lemma follow_edge_node g root x y : follow_edge g x y → y ∈ nodes g root.
Proof. intros (e & He & _ & _ & <-). unfold nodes. apply elem_of_union_r, elem_of_list_to_set, list_elem_of_fmap. eauto. Qed.
Lemma nodes_size g root : 1 + size (nodes g root ∖ {[root]}) < search_fuel g.
Proof.
  unfold search_fuel, nodes.
  assert (size (({[root]} ∪ list_to_set (to_key <$> tg_edges g) : gset Key) ∖ {[root]}) ≤ size (list_to_set (to_key <$> tg_edges g) : gset Key)) as Hs.
  { apply subseteq_size. set_solver. }
  pose proof (size_list_to_set_le (to_key <$> tg_edges g)) as Hl. rewrite length_fmap in Hl. lia.
Qed.

(** ** [follow_neighborhood] *)
Section near.
Context (g : TrustGraph) (root : Key) (hops : byte).

Definition near_rel (s : gmap Key N * list (Key * N) * gset Key) (t : gmap Key nat * list Key) : Prop :=
  let '(dist, q, seen) := s in
  t.1 = <[root := 0]> (N.to_nat <$> dist) ∧ t.2 = q.*1 ∧ seen = dom t.1 ∧ dist !! root = None ∧
  ∀ x d, (x, d) ∈ q → t.1 !! x = Some (N.to_nat d).

Lemma near_scan_push d ns : ∀ s t, near_rel s t →
  near_rel (near_scan d ns s) (foldl (bfs_push (N.to_nat d)) t ns).
Proof.
  induction ns as [|y ns IH]; intros s t Hs; simpl; [done|].
  destruct s as [[dist q] seen], t as [sm tq]. apply IH.
  destruct Hs as (Hsm & Hq & Hseen & Hr & Hqd). simpl in *. unfold bfs_push. simpl.
  destruct (decide (y ∈ seen)) as [Hy|Hy].
  - rewrite Hseen in Hy. apply elem_of_dom in Hy as [m Hm]. rewrite Hm. done.
  - rewrite Hseen in Hy. assert (sm !! y = None) as Hn by by apply not_elem_of_dom. rewrite Hn.
    assert (y ≠ root) as Hyr by (intros ->; by rewrite Hsm, lookup_insert_eq in Hn).
    simpl. split_and!.
    + rewrite Hsm, fmap_insert, insert_insert_ne by done. do 2 f_equal. lia.
    + by rewrite Hq, fmap_app.
    + by rewrite Hseen, dom_insert_L.
    + by rewrite lookup_insert_ne.
    + intros x n Hin. apply elem_of_app in Hin as [Hin|Hin].
      * rewrite lookup_insert_ne; [by apply Hqd|]. intros ->. apply Hqd in Hin. congruence.
      * apply list_elem_of_singleton in Hin as [= -> ->]. rewrite lookup_insert_eq. f_equal. lia.
Qed.

Definition near_inv (s : gmap Key N * list (Key * N) * gset Key) : Prop :=
  ∃ t, near_rel s t ∧ bfs_inv (follow_edge g) root (N.to_nat (u8 hops)) t.1 t.2.
Definition near_measure (s : gmap Key N * list (Key * N) * gset Key) : nat :=
  let '(dist, q, seen) := s in length q + size (nodes g root ∖ seen).

Lemma near_step_inv s s' : near_inv s → near_step g hops s = inl s' → near_inv s' ∧ near_measure s' < near_measure s.
Proof.
  destruct s as [[dist q] seen]. intros ([sm tq] & Hrel & Hinv). unfold near_step. destruct q as [|[x d] q]; [done|].
  destruct Hrel as (Hsm & Hq & Hseen & Hr & Hqd). simpl in Hsm, Hq, Hseen, Hqd, Hinv. subst tq seen.
  assert (sm !! x = Some (N.to_nat d)) as Hx by (apply Hqd; by left).
  destruct (bfs_next_inv _ _ _ (nodes g root) sm x q.*1 (N.to_nat d) (follows g x) Hinv Hx) as [Hinv' Hm];
    [apply elem_of_follows|intros y Hy; eapply follow_edge_node; by apply elem_of_follows|].
  assert (near_rel (dist, q, dom sm) (sm, q.*1)) as Hrel'.
  { split_and!; simpl; try done. intros y n Hin. apply Hqd. by right. }
  unfold bfs_next, bfs_measure in *. case_decide as E1; case_decide as E2;
    [|by destruct E2; lia|by destruct E1; rewrite E2|]; intros [= <-].
  - split; [by exists (sm, q.*1)|]. simpl. lia.
  - pose proof (near_scan_push d (follows g x) _ _ Hrel') as Hs. split; [exact (ex_intro _ _ (conj Hs Hinv'))|].
    destruct (near_scan d _ _) as [[dist' q'] seen']. destruct Hs as (_ & H2 & -> & _).
    rewrite H2, length_fmap in Hm. simpl in *. rewrite length_fmap in Hm. lia.
Qed.

Lemma follow_neighborhood_run : ∃ dist seen, near_inv (dist, [], seen) ∧ follow_neighborhood g root hops = dist.
Proof.
  unfold follow_neighborhood. destruct (run_ends (near_step g hops) near_inv near_measure (search_fuel g) (∅, [(root, 0%N)], {[root]}))
    as ([[dist q] seen] & r & -> & Hinv & Hr).
  - apply near_step_inv.
  - exists ({[root := 0]}, [root]). split; [|apply bfs_inv_init]. split_and!; simpl; try done.
    + by rewrite dom_singleton_L.
    + intros x d [= -> ->]%list_elem_of_singleton. by simplify_map_eq.
  - apply nodes_size.
  - simpl in *. destruct q as [|[x d] q]; [|by repeat case_decide]. injection Hr as <-. by exists dist, seen.
Qed.

Lemma follow_neighborhood_spec (k : Key) (n : N) :
  follow_neighborhood g root hops !! k = Some n ↔
  k ≠ root ∧ (n ≤ u8 hops)%N ∧ at_distance (follow_edge g) root k (N.to_nat n).
Proof.
  destruct follow_neighborhood_run as (dist & seen & ([sm q] & (Hsm & Hq & _ & Hr & _) & Hinv) & ->). simpl in *.
  subst q. pose proof (bfs_final _ _ _ _ Hinv k (N.to_nat n)) as Hf. destruct (decide (k = root)) as [->|Hk].
  { rewrite Hr. naive_solver. }
  rewrite Hsm, lookup_insert_ne, lookup_fmap in Hf by done.
  assert (dist !! k = Some n ↔ N.to_nat <$> dist !! k = Some (N.to_nat n)) as ->.
  { destruct (dist !! k) as [m|]; simpl; [|done]. split; [by intros [= ->]|]. intros [= ?]. f_equal. lia. }
  rewrite Hf. split; intros; destruct_and?; split_and!; done || lia.
Qed.
(** The neighbourhood is exact: it holds the keys other than the root that some
    chain of at most [hops] follow edges reaches, each with the length of the shortest
    chain. *)
Theorem follow_neighborhood_exact (k : Key) (n : N) :
  follow_neighborhood g root hops !! k = Some n ↔
  k ≠ root ∧ (n ≤ u8 hops)%N ∧ at_distance (follow_edge g) root k (N.to_nat n).
Proof. apply follow_neighborhood_spec. Qed.
End near.

(** ** Searches that keep a path per node *)
Section paths.
Context {P : Type} (len : P → nat).

Definition paths_rel (s : gmap Key P * list Key) (t : gmap Key nat * list Key) : Prop :=
  t.1 = len <$> s.1 ∧ t.2 = s.2.

Lemma paths_rel_known s t y p d : paths_rel s t → s.1 !! y = Some p → bfs_push d t y = t.
Proof. intros [Hs _] Hy. unfold bfs_push. by rewrite Hs, lookup_fmap, Hy. Qed.
Lemma paths_rel_new s t y p d : paths_rel s t → s.1 !! y = None → len p = S d →
  t.1 !! y = None ∧ paths_rel (<[y := p]> s.1, s.2 ++ [y]) (bfs_push d t y).
Proof.
  intros [Hs Hq] Hy Hp. assert (t.1 !! y = None) as Hn by by rewrite Hs, lookup_fmap, Hy.
  split; [done|]. unfold bfs_push. rewrite Hn. split; simpl; [by rewrite Hs, fmap_insert, Hp|by rewrite Hq].
Qed.
Lemma paths_rel_lookup s t y p : paths_rel s t → s.1 !! y = Some p → t.1 !! y = Some (len p).
Proof. intros [Hs _] Hy. by rewrite Hs, lookup_fmap, Hy. Qed.
Lemma paths_rel_queued s t y E root b : paths_rel s t → bfs_inv E root b t.1 t.2 → y ∈ s.2 → ∃ p, s.1 !! y = Some p.
Proof.
  intros [Hs Hq] Hinv Hy. rewrite <- Hq in Hy. apply (bfs_queued _ _ _ _ _ Hinv) in Hy as [n Hn].
  rewrite Hs, lookup_fmap in Hn. destruct (s.1 !! y) as [p|]; [by exists p|done].
Qed.
End paths.

(** ** [follow_paths] *)
Section routes.
Context (g : TrustGraph) (root : Key) (hops : byte).

Inductive route : Key → list Key → Prop :=
| route_root : route root [root]
| route_hop x y p : route x p → follow_edge g x y → route y (p ++ [y]).

Definition route_inv (s : gmap Key (list Key) * list Key) : Prop :=
  (∃ t, paths_rel (λ p, pred (length p)) s t ∧ bfs_inv (follow_edge g) root (N.to_nat (u8 hops)) t.1 t.2) ∧
  ∀ x p, s.1 !! x = Some p → route x p.
Definition route_measure (s : gmap Key (list Key) * list Key) : nat := length s.2 + size (nodes g root ∖ dom s.1).

Lemma route_length x p : route x p → 0 < length p.
Proof. destruct 1; simpl; [lia|]. rewrite length_app. simpl. lia. Qed.

Lemma route_scan_push x np ns : route x np → (∀ y, y ∈ ns → follow_edge g x y) → ∀ s t,
  paths_rel (λ p, pred (length p)) s t → (∀ x p, s.1 !! x = Some p → route x p) →
  paths_rel (λ p, pred (length p)) (route_scan np ns s) (foldl (bfs_push (pred (length np))) t ns) ∧
  ∀ x p, (route_scan np ns s).1 !! x = Some p → route x p.
Proof.
  intros Hnp. induction ns as [|y ns IH]; intros Hns s t Hrel Hr; simpl; [done|].
  assert (∀ z, z ∈ ns → follow_edge g x z) as Hns' by (intros z Hz; apply Hns; by right).
  destruct (s.1 !! y) as [p|] eqn:Hy.
  - rewrite (paths_rel_known _ _ _ _ _ _ Hrel Hy). by apply IH.
  - pose proof (route_length _ _ Hnp) as Hl.
    destruct (paths_rel_new _ _ _ y (np ++ [y]) (pred (length np)) Hrel Hy) as [_ Hrel']; [rewrite length_app; simpl; lia|].
    apply IH; [done..|]. simpl. intros z p [[<- <-]|[_ Hz]]%lookup_insert_Some; [|by apply Hr].
    eapply route_hop; [done|]. apply Hns. by left.
Qed.

Lemma as_u8_small n : n < 256 → u8 (as_u8 (N.of_nat n)) = N.of_nat n.
Proof. intros Hn. rewrite u8_as_u8, N.mod_small by lia. done. Qed.

Lemma route_step_inv s s' : (u8 hops < 255)%N → route_inv s → route_step g root hops s = inl s' →
  route_inv s' ∧ route_measure s' < route_measure s.
Proof.
  intros Hh [([sm tq] & Hrel & Hinv) Hr]. destruct s as [paths q]. unfold route_step. destruct q as [|x q]; [done|].
  destruct Hrel as [Hsm Hq]. simpl in Hsm, Hq, Hinv, Hr. subst tq.
  destruct (paths !! x) as [np|] eqn:Hp; [|done]. pose proof (Hr x np Hp) as Hnp. pose proof (route_length _ _ Hnp) as Hl.
  assert (sm !! x = Some (pred (length np))) as Hx by by rewrite Hsm, lookup_fmap, Hp.
  assert (pred (length np) ≤ N.to_nat (u8 hops)) as Hb by apply (bfs_reach _ _ _ _ _ Hinv x _ Hx).
  destruct (bfs_next_inv _ _ _ (nodes g root) sm x q _ (follows g x) Hinv Hx) as [Hinv' Hm];
    [apply elem_of_follows|intros y Hy; eapply follow_edge_node; by apply elem_of_follows|].
  rewrite as_u8_small by lia. rewrite decide_False by lia. unfold bfs_next, bfs_measure in *.
  assert (dom sm = dom paths) as Hdom by by rewrite Hsm, dom_fmap_L.
  case_decide as E1; case_decide as E2; [|lia|lia|]; intros [= <-].
  - split; [split; [by exists (sm, q)|done]|]. unfold route_measure. simpl in *. rewrite Hdom in Hm. lia.
  - destruct (route_scan_push x np (follows g x) Hnp (λ y, proj1 (elem_of_follows g x y)) (paths, q) (sm, q)) as [Hrel' Hr']; [done..|].
    split; [split; [by eexists|done]|]. destruct Hrel' as [H1 H2]. unfold route_measure. simpl in *.
    rewrite H1, H2, dom_fmap_L, Hdom in Hm. lia.
Qed.

(** With a bound below 255 every key within the bound, and no other, gets a route
    of follow edges from the root that no shorter one exists for, and the call does not
    panic. *)
Theorem follow_paths_shortest : (u8 hops < 255)%N →
  ∃ paths, follow_paths g root hops = Ok paths ∧ ∀ k,
    match paths !! k with
    | Some p => k ≠ root ∧ route k p ∧ ∃ n, length p = S n ∧ n ≤ N.to_nat (u8 hops) ∧ at_distance (follow_edge g) root k n
    | None => k = root ∨ ∀ n, n ≤ N.to_nat (u8 hops) → ¬ nsteps (follow_edge g) n root k
    end.
Proof.
  intros Hh. unfold follow_paths.
  destruct (run_ends (route_step g root hops) route_inv route_measure (search_fuel g) ({[root := [root]]}, [root]))
    as ([paths q] & r & -> & [([sm tq] & Hrel & Hinv) Hr] & Hs).
  - intros s s'. by apply route_step_inv.
  - split; [exists ({[root := 0]}, [root]); split; [|apply bfs_inv_init]|].
    + split; [|done]. simpl. by rewrite map_fmap_singleton.
    + simpl. intros x p [<- <-]%lookup_singleton_Some. constructor.
  - unfold route_measure. simpl. rewrite dom_singleton_L. apply nodes_size.
  - unfold route_step in Hs. destruct q as [|x q].
    2:{ destruct (paths_rel_queued _ _ _ x _ _ _ Hrel Hinv) as [np Hp]; [by left|]. simpl in Hp. rewrite Hp in Hs.
        pose proof (route_length _ _ (Hr x np Hp)) as Hl.
        pose proof (paths_rel_lookup _ _ _ _ _ Hrel Hp) as Hx. destruct (bfs_reach _ _ _ _ _ Hinv _ _ Hx) as [_ Hb].
        rewrite as_u8_small in Hs by lia. rewrite decide_False in Hs by lia. by case_decide. }
    injection Hs as <-. exists (delete root paths). split; [done|]. intros k.
    pose proof (bfs_final _ _ _ _ (eq_rect _ (bfs_inv _ _ _ _) Hinv _ (proj2 Hrel)) k) as Hf.
    pose proof (bfs_complete _ _ _ _ (eq_rect _ (bfs_inv _ _ _ _) Hinv _ (proj2 Hrel))) as Hall.
    destruct Hrel as [Hsm _]. simpl in Hsm, Hf, Hall.
    destruct (decide (k = root)) as [->|Hk]; [rewrite lookup_delete_eq; by left|].
    rewrite lookup_delete_ne by done. destruct (paths !! k) as [p|] eqn:Hp.
    + split; [done|]. split; [by apply Hr|]. pose proof (route_length _ _ (Hr k p Hp)).
      exists (pred (length p)). split; [lia|]. apply and_comm, Hf. by rewrite Hsm, lookup_fmap, Hp.
    + right. intros n Hn Hst. destruct (Hall n k Hst Hn) as (m & Hm & _). by rewrite Hsm, lookup_fmap, Hp in Hm.
Qed.
End routes.

(** ** [trust_path] *)

(** What [trust_neighbors] records for a pair of keys: a vouch edge wins over a follow
    edge. *)
Definition is_edge (kind : TrustKind) (x y : Key) (e : TrustEdge) : Prop :=
  edge_kind e = kind ∧ from_key e = x ∧ to_key e = y.
#[global] Instance is_edge_dec kind x y e : Decision (is_edge kind x y e).
Proof. unfold is_edge. apply _. Defined.
Definition link (l : list TrustEdge) (x y : Key) : option TrustKind :=
  if decide (Exists (is_edge Vouch x y) l) then Some Vouch
  else if decide (Exists (is_edge Follow x y) l) then Some Follow else None.

Lemma note_edges l x y : foldl (note_edge x) ∅ l !! y = link l x y.
Proof.
  induction l as [|e l IH] using rev_ind.
  { unfold link. by rewrite !decide_False by inversion 1. }
  rewrite foldl_app. simpl. unfold note_edge at 1.
  assert (∀ k, Exists (is_edge k x y) (l ++ [e]) ↔ Exists (is_edge k x y) l ∨ is_edge k x y e) as He.
  { intros k. rewrite Exists_app, Exists_cons, Exists_nil. tauto. }
  destruct (decide (to_key e = y)) as [Hto|Hto].
  - rewrite Hto, IH. unfold link in *. unfold is_edge in He at 3.
    destruct (edge_kind e) eqn:Hk; repeat case_decide; rewrite ?He in *; rewrite ?lookup_insert_eq, ?IH;
      done || (exfalso; intuition congruence).
  - assert (link (l ++ [e]) x y = link l x y) as Hl.
    { assert (∀ k, Exists (is_edge k x y) (l ++ [e]) ↔ Exists (is_edge k x y) l) as He'.
      { intros k. rewrite He. split; [by intros [?|(_ & _ & ?)]|by left]. }
      unfold link. pose proof (He' Vouch). pose proof (He' Follow). repeat case_decide; tauto. }
    rewrite Hl, <- IH. case_decide; [|done]. destruct (_ !! to_key e); [case_decide|]; by rewrite ?lookup_insert_ne.
Qed.

Lemma link_trust_edge g x y : is_Some (link (tg_edges g) x y) ↔ trust_edge g x y.
Proof.
  unfold link, trust_edge, vouch_edge, follow_edge. unfold is_edge. rewrite <- !Exists_exists.
  repeat case_decide; split; intros Hs; try done; try (by left); try (by right); try tauto; by destruct Hs.
Qed.

Lemma elem_of_trust_neighbors g x y via : (y, via) ∈ trust_neighbors g x ↔ link (tg_edges g) x y = Some via.
Proof. unfold trust_neighbors. by rewrite elem_of_btree_iter, note_edges. Qed.

Section trust_path.
Context (g : TrustGraph) (root target : Key) (max_hops : byte).

(** The hops of a path: each is a link of the graph, with its kind. *)
Inductive trail : Key → list TrustHop → Prop :=
| trail_root : trail root []
| trail_hop x y via p : trail x p → link (tg_edges g) x y = Some via → trail y (p ++ [MkHop y via]).

Definition path_inv (s : gmap Key (list TrustHop) * list Key) : Prop :=
  (∃ t, paths_rel length s t ∧ bfs_inv (trust_edge g) root (N.to_nat (u8 max_hops)) t.1 t.2) ∧
  (∀ x p, s.1 !! x = Some p → trail x p) ∧ s.1 !! target = None.
Definition path_measure (s : gmap Key (list TrustHop) * list Key) : nat := length s.2 + size (nodes g root ∖ dom s.1).

Lemma path_scan_push x np ns : trail x np → (∀ y via, (y, via) ∈ ns → link (tg_edges g) x y = Some via) → ∀ s t,
  paths_rel length s t → (∀ x p, s.1 !! x = Some p → trail x p) → s.1 !! target = None →
  match path_scan target np ns s with
  | inl p => trail target p ∧ length p = S (length np) ∧ trust_edge g x target
  | inr s' => paths_rel length s' (foldl (bfs_push (length np)) t ns.*1) ∧
      (∀ x p, s'.1 !! x = Some p → trail x p) ∧ s'.1 !! target = None
  end.
Proof.
  intros Hnp. induction ns as [|[y via] ns IH]; intros Hns s t Hrel Hr Ht; simpl; [done|].
  assert (∀ z v, (z, v) ∈ ns → link (tg_edges g) x z = Some v) as Hns' by (intros z v Hz; apply Hns; by right).
  pose proof (Hns y via ltac:(by left)) as Hy. destruct (s.1 !! y) as [p|] eqn:Hsy.
  - rewrite (paths_rel_known _ _ _ _ _ _ Hrel Hsy). by apply IH.
  - destruct (paths_rel_new length _ _ y (np ++ [MkHop y via]) (length np) Hrel Hsy) as [_ Hrel'];
      [rewrite length_app; simpl; lia|].
    assert (trail y (np ++ [MkHop y via])) as Htr by by eapply trail_hop.
    case_decide as Hyt; [subst y; split; [done|]; split; [rewrite length_app; simpl; lia|]; by apply link_trust_edge; exists via|].
    apply IH; [done|done| |by simpl; rewrite lookup_insert_ne].
    simpl. intros z p [[<- <-]|[_ Hz]]%lookup_insert_Some; [done|by apply Hr].
Qed.

Lemma link_nodes x y : trust_edge g x y → y ∈ nodes g root.
Proof.
  intros [He|(e & He & _ & _ & <-)]; [by eapply follow_edge_node|].
  unfold nodes. apply elem_of_union_r, elem_of_list_to_set, list_elem_of_fmap. eauto.
Qed.

Lemma elem_of_neighbor_keys x y : y ∈ (trust_neighbors g x).*1 ↔ trust_edge g x y.
Proof.
  rewrite <- link_trust_edge, list_elem_of_fmap. split.
  - intros ([z via] & -> & Hin%elem_of_trust_neighbors). by exists via.
  - intros [via Hv]. exists (y, via). split; [done|]. by apply elem_of_trust_neighbors.
Qed.

(** One round: it goes on with the invariant, or it ends with the answer. *)
Lemma path_step_inv s : path_inv s →
  match path_step g target max_hops s with
  | inl s' => path_inv s' ∧ path_measure s' < path_measure s
  | inr (Ok (Some p)) => trail target p ∧ length p ≤ N.to_nat (u8 max_hops) ∧ at_distance (trust_edge g) root target (length p)
  | inr (Ok None) => ∀ n, n ≤ N.to_nat (u8 max_hops) → ¬ nsteps (trust_edge g) n root target
  | inr (Err _) => False
  end.
Proof.
  intros [([sm tq] & Hrel & Hinv) [Hr Ht]]. destruct s as [paths q]. unfold path_step. pose proof Hrel as [Hsm Hq].
  simpl in Hsm, Hq, Hinv, Hr, Ht. subst tq. destruct q as [|x q].
  { intros n Hn Hst. destruct (bfs_complete _ _ _ _ Hinv n target Hst Hn) as (m & Hm & _).
    by rewrite Hsm, lookup_fmap, Ht in Hm. }
  destruct (paths_rel_queued _ _ _ x _ _ _ Hrel Hinv) as [np Hp]; [by left|]. simpl in Hp. rewrite Hp.
  pose proof (Hr x np Hp) as Hnp. assert (sm !! x = Some (length np)) as Hx by by rewrite Hsm, lookup_fmap, Hp.
  destruct (bfs_reach _ _ _ _ _ Hinv x _ Hx) as [_ Hb]. pose proof (u8_bound max_hops) as Hu.
  destruct (bfs_next_inv _ _ _ (nodes g root) sm x q _ (trust_neighbors g x).*1 Hinv Hx) as [Hinv' Hm];
    [apply elem_of_neighbor_keys|intros y Hy; eapply link_nodes; by apply elem_of_neighbor_keys|].
  assert (as_u8 (N.of_nat (length np)) = max_hops ↔ length np = N.to_nat (u8 max_hops)) as Hbound.
  { pose proof (as_u8_small (length np) ltac:(lia)) as Hs. split; [intros He; rewrite He in Hs; lia|].
    intros He. apply u8_inj. rewrite Hs. lia. }
  assert (dom sm = dom paths) as Hdom by by rewrite Hsm, dom_fmap_L.
  unfold bfs_next, bfs_measure in *. destruct (decide (as_u8 (N.of_nat (length np)) = max_hops)) as [E|E].
  - rewrite decide_True in Hinv', Hm by by apply Hbound. split.
    + split; [by exists (sm, q)|done].
    + unfold path_measure. simpl in *. rewrite Hdom in Hm. lia.
  - assert (length np ≠ N.to_nat (u8 max_hops)) as E' by by rewrite <- Hbound.
    rewrite decide_False in Hinv', Hm by done.
    pose proof (path_scan_push x np (trust_neighbors g x) Hnp (λ y via, proj1 (elem_of_trust_neighbors g x y via))
      (paths, q) (sm, q) (conj Hsm eq_refl) Hr Ht) as Hps.
    destruct (path_scan _ _ _ _) as [p|s'].
    + destruct Hps as (Htr & Hlen & Hedge). split; [done|]. split; [lia|]. rewrite Hlen.
      eapply bfs_first_met; [done..|lia|done|]. by rewrite Hsm, lookup_fmap, Ht.
    + destruct Hps as (Hrel' & Hr' & Ht'). split; [split; [by eexists|done]|].
      destruct Hrel' as [H1 H2]. unfold path_measure. rewrite H1, H2, dom_fmap_L in Hm. simpl in *. rewrite Hdom in Hm. lia.
Qed.

Lemma trust_path_spec :
  match trust_path g root target max_hops with
  | Ok (Some p) => trail target p ∧ length p ≤ N.to_nat (u8 max_hops) ∧ at_distance (trust_edge g) root target (length p)
  | Ok None => ∀ n, n ≤ N.to_nat (u8 max_hops) → ¬ nsteps (trust_edge g) n root target
  | Err _ => False
  end.
Proof.
  unfold trust_path. case_decide as Hrt.
  { rewrite <- Hrt. split; [constructor|]. split; [simpl; lia|]. split; [constructor|]. simpl. lia. }
  destruct (run_ends (path_step g target max_hops) path_inv path_measure (search_fuel g) ({[root := []]}, [root]))
    as (s & r & -> & Hinv & Hs).
  - intros s s' Hinv Hs. pose proof (path_step_inv s Hinv) as Hst. by rewrite Hs in Hst.
  - split; [exists ({[root := 0]}, [root]); split; [|apply bfs_inv_init]|].
    + split; [|done]. simpl. by rewrite map_fmap_singleton.
    + simpl. split; [intros x p [<- <-]%lookup_singleton_Some; constructor|by rewrite lookup_singleton_ne].
  - unfold path_measure. simpl. rewrite dom_singleton_L. apply nodes_size.
  - pose proof (path_step_inv s Hinv) as Hst. rewrite Hs in Hst. done.
Qed.
(** The answer is the shortest trust path: if one is returned, each of its hops is a
    follow or vouch edge of the graph, labelled with the stronger of the two kinds, it
    ends at the target, has at most [max_hops] hops, and no shorter chain of edges
    exists; if none is returned, no chain of at most [max_hops] edges exists.  The
    call never panics. *)
Theorem trust_path_correct :
  match trust_path g root target max_hops with
  | Ok (Some p) => trail target p ∧ length p ≤ N.to_nat (u8 max_hops) ∧ at_distance (trust_edge g) root target (length p)
  | Ok None => ∀ n, n ≤ N.to_nat (u8 max_hops) → ¬ nsteps (trust_edge g) n root target
  | Err _ => False
  end.
Proof. apply trust_path_spec. Qed.
End trust_path.

(** ** Names *)
Section naming.
Context `{ObjectCodec}.

Lemma suggestions_sorted (root : Key) (l1 l2 : list VouchSuggestion) :
  Forall (λ s, vs_depth s = 1%N) l1 → Forall (λ s, vs_depth s = 2%N) l2 →
  StronglySorted (λ a b, N.compare (vs_depth a) (vs_depth b) ≠ Gt) (l1 ++ l2).
Proof.
  intros H1 H2. induction H1 as [|x l1 Hx H1 IH]; simpl.
  - induction H2 as [|x l2 Hx H2 IH]; constructor; [done|]. eapply Forall_impl; [exact H2|]. intros y Hy. simpl. by rewrite Hx, Hy.
  - constructor; [done|]. apply Forall_app. split; [eapply Forall_impl; [exact H1|]|eapply Forall_impl; [exact H2|]];
      intros y Hy; simpl; by rewrite Hx, Hy.
Qed.

Lemma namer_sorted g root key :
  sort_by (λ a b, N.compare (vs_depth a) (vs_depth b)) (vouch_suggestions g root key 2) =
  ((λ name, MkSuggestion name 1 [root]) <$> vouched_names g root key) ++
  (voucher ← follows g root; (λ name, MkSuggestion name 2 [root; voucher]) <$> vouched_names g voucher key).
Proof.
  unfold vouch_suggestions. rewrite !decide_True by lia. apply sort_by_id, suggestions_sorted; [done|..].
  - by apply Forall_fmap, Forall_true.
  - apply Forall_bind, Forall_true. intros v. by apply Forall_fmap, Forall_true.
Qed.

(** The first name among those the followed keys vouch. *)
Lemma first_voucher g root key fs :
  match voucher ← fs; (λ name, MkSuggestion name 2 [root; voucher]) <$> vouched_names g voucher key with
  | [] => ∀ u, u ∈ fs → vouched_names g u key = []
  | s :: _ => ∃ name earlier voucher later, s = MkSuggestion name 2 [root; voucher] ∧
      fs = earlier ++ voucher :: later ∧ (∀ u, u ∈ earlier → vouched_names g u key = []) ∧
      head (vouched_names g voucher key) = Some name
  end.
Proof.
  set (f := λ voucher, (λ name, MkSuggestion name 2 [root; voucher]) <$> vouched_names g voucher key).
  induction fs as [|v fs IH]; [by intros u ?%elem_of_nil|]. rewrite bind_cons.
  destruct (vouched_names g v key) as [|name l] eqn:Hv.
  - assert (f v = []) as -> by (unfold f; by rewrite Hv). change ([] ++ fs ≫= f) with (fs ≫= f).
    destruct (fs ≫= f) as [|s l]; [intros u Hu; apply elem_of_cons in Hu as [->|Hu]; auto|].
    destruct IH as (name & earlier & w & later & -> & -> & He & Hh). exists name, (v :: earlier), w, later.
    split; [done|]. split; [done|]. split; [|done]. intros u [->|Hu]%elem_of_cons; auto.
  - assert (f v = MkSuggestion name 2 [root; v] :: ((λ name, MkSuggestion name 2 [root; v]) <$> l)) as -> by (unfold f; by rewrite Hv).
    exists name, [], v, fs. split; [done|]. split; [done|]. split; [by intros u ?%elem_of_nil|]. by rewrite Hv.
Qed.

(** Names have a fixed precedence: the local name; else the first name the root
    itself vouches; else the first name vouched by the first followed key that vouches
    one; else, and only if nobody within two hops names the key, its fingerprint.  A
    vouched name comes with the route to its voucher. *)
Theorem namer_precedence (n : Namer) (key : Key) :
  match namer_resolve n key with
  | PetLocal name => nm_local n !! key = Some name
  | PetVouch name d path =>
      nm_local n !! key = None ∧
      ((d = 1%N ∧ path = [nm_root n] ∧ head (vouched_names (nm_graph n) (nm_root n) key) = Some name) ∨
       (d = 2%N ∧ vouched_names (nm_graph n) (nm_root n) key = [] ∧
        ∃ earlier voucher later, follows (nm_graph n) (nm_root n) = earlier ++ voucher :: later ∧ path = [nm_root n; voucher] ∧
          (∀ u, u ∈ earlier → vouched_names (nm_graph n) u key = []) ∧ head (vouched_names (nm_graph n) voucher key) = Some name))
  | PetFingerprint fp =>
      nm_local n !! key = None ∧ vouched_names (nm_graph n) (nm_root n) key = [] ∧
      (∀ u, u ∈ follows (nm_graph n) (nm_root n) → vouched_names (nm_graph n) u key = []) ∧ fp = fingerprint key
  end.
Proof.
  unfold namer_resolve. destruct (nm_local n !! key) as [name|] eqn:Hl; [done|].
  rewrite namer_sorted. set (g := nm_graph n). set (root := nm_root n). destruct (vouched_names g root key) as [|name l] eqn:Hv; simpl.
  2:{ split; [done|]. left. done. }
  pose proof (first_voucher g root key (follows g root)) as Hf.
  destruct (follows g root ≫= _) as [|s l]; [done|]. destruct Hf as (name & earlier & v & later & -> & Hfs & He & Hh).
  split; [done|]. right. simpl. split; [done|]. split; [done|]. by exists earlier, v, later.
Qed.
End naming.

(** ** On concrete data: a chain of three keys *)
Section demo.
Definition ex_key (b : byte) : Key := pad_vec 32 [b].
Definition ex_follow (a b : byte) : TrustEdge := MkTrustEdge (ex_key a) (ex_key b) Follow None 1 [].
Definition ex_vouch (a b : byte) (name : string) : TrustEdge := MkTrustEdge (ex_key a) (ex_key b) Vouch (Some name) 1 [].
Definition ex_graph : TrustGraph := MkGraph [ex_follow x01 x02; ex_vouch x02 x03 "Carol"; ex_follow x02 x03; ex_follow x03 x01].

Lemma follow_paths_shortest_witness :
  match follow_paths ex_graph (ex_key x01) x02 with Ok m => m !! ex_key x03 | Err _ => None end =
    Some [ex_key x01; ex_key x02; ex_key x03] ∧
  ∃ paths, follow_paths ex_graph (ex_key x01) x02 = Ok paths.
Proof.
  split; [vm_compute; reflexivity|].
  destruct (follow_paths_shortest ex_graph (ex_key x01) x02 ltac:(vm_compute; reflexivity)) as (paths & Hp & _).
  exists paths. exact Hp.
Defined.

Example ex_trust_path : trust_path ex_graph (ex_key x01) (ex_key x03) x02 = Ok (Some [MkHop (ex_key x02) Follow; MkHop (ex_key x03) Vouch]).
Proof. vm_compute. reflexivity. Qed.
Example ex_trust_path_bounded : trust_path ex_graph (ex_key x01) (ex_key x03) x01 = Ok None.
Proof. vm_compute. reflexivity. Qed.
End demo.
