(* ===== verification/Discovery.v ===== *)
(** * Discovery: indexes, ranking of strangers, and the search a relay answers

    src/src/collab/discovery.rs: the local index ([Index], [gather]) and the ranking of
    strangers by their trust path; src/src/collab/search.rs: the part of a relay's
    corpus that answers a search.  The last theorem composes the two sides: ranking what
    the relay selected finds the same strangers at the same distances as ranking the
    whole corpus. *)

From S2P Require Import Prelude Bfs Order Ids Text Objects Store Signing Trust.

(** [PublicObjectSource] *)
Class PublicObjectSource (A : Type) := { public_objects : A → res (list CollabObject) }.

Record DiscoveryResult : Type := MkResult {
  dr_key : Key; dr_object : CollabObject; dr_distance : N; dr_trust_path : list Key }.
Record Index : Type := MkIndex { ix_results : list DiscoveryResult }.

Definition publisher_key (o : CollabObject) : Key :=
  match o with CProfile p => profile_key p | CTrustEdge e => from_key e end.
Definition recency (o : CollabObject) : N :=
  match o with CProfile p => profile_seq p | CTrustEdge e => edge_seq e end.

Section discovery.
Context `{ObjectCodec, Ed25519, Postcard}.

Definition matches (o : CollabObject) (term : string) : bool :=
  if decide (term = "") then true
  else match o with
       | CProfile p =>
           str_contains (fingerprint (profile_key p)) term || str_contains (display_name p) term
           || str_contains (bio p) term || existsb (λ a, str_contains a term) (dns_aliases p)
       | CTrustEdge e =>
           str_contains (fingerprint (from_key e)) term
           || match petname e with Some n => str_contains n term | None => false end
       end.

(** [Index::build]; the first component of a pulled tuple is not used. *)
Definition index_build (root : Key) (own : list CollabObject)
    (pulled : list (Key * N * list Key * list CollabObject)) : Index :=
  MkIndex
    (((λ o, MkResult (publisher_key o) o 0 [root]) <$> own) ++
     ('(_, distance, trust_path, objs) ← pulled;
      (λ o, MkResult (publisher_key o) o distance trust_path) <$> objs)).
(** [Index::query] *)
Definition hit_cmp (a b : DiscoveryResult) : comparison :=
  then_with (N.compare (dr_distance a) (dr_distance b))
    (N.compare (recency (dr_object b)) (recency (dr_object a))).
Definition query (ix : Index) (term : string) : list DiscoveryResult :=
  sort_by hit_cmp (filter (λ r, matches (dr_object r) term = true) (ix_results ix)).

Definition verified (o : CollabObject) : bool :=
  match o with CProfile p => verify_profile p | CTrustEdge e => verify_edge e end.

(** The loop of [gather] over the neighbourhood. *)
Fixpoint pull `{PublicObjectSource A} (root : Key) (sources : gmap Key A) (ns : list (Key * N))
    : list (Key * N * list Key * list CollabObject) :=
  match ns with
  | [] => []
  | (peer, distance) :: ns =>
      match sources !! peer with
      | Some src =>
          match public_objects src with
          | Ok objs => (peer, distance, [root; peer], filter (λ o, verified o = true) objs) :: pull root sources ns
          | Err _ => pull root sources ns
          end
      | None => pull root sources ns
      end
  end.
Definition gather `{PublicObjectSource A} (root : Key) (own : A) (graph : TrustGraph) (hops : byte)
    (sources : gmap Key A) : res Index :=
  objs ← public_objects own;
  let neighborhood := follow_neighborhood graph root hops in
  Ok (index_build root (filter (λ o, verified o = true) objs) (pull root sources (btree_iter neighborhood))).

(** ** Strangers *)
Record StrangerHit : Type := MkHit {
  sh_key : Key; sh_display_name : string; sh_trust_path : option (list TrustHop);
  sh_hops : option N; sh_relays : list Key }.

Definition corpus_profiles (corpus : list CollabObject) : list Profile :=
  omap (λ o, match o with CProfile p => Some p | CTrustEdge _ => None end) corpus.
Definition corpus_edges (corpus : list CollabObject) : list TrustEdge :=
  omap (λ o, match o with CTrustEdge e => Some e | CProfile _ => None end) corpus.

(** The test shared by [rank_strangers] and the relay's [profile_matches]. *)
Definition profile_matches (p : Profile) (term : string) : bool :=
  str_contains (display_name p) term || str_contains (bio p) term
  || existsb (λ a, str_contains a term) (dns_aliases p) || str_contains (key_hex (profile_key p)) term.

Definition has_vouch (path : option (list TrustHop)) : bool :=
  match path with Some p => existsb (λ h, bool_decide (hop_via h = Vouch)) p | None => false end.
Definition usize_max : N := 2 ^ 64 - 1.
Definition stranger_cmp (a b : StrangerHit) : comparison :=
  then_with (bool_cmp (bool_decide (is_Some (sh_trust_path b))) (bool_decide (is_Some (sh_trust_path a))))
  (then_with (N.compare (default usize_max (sh_hops a)) (default usize_max (sh_hops b)))
  (then_with (bool_cmp (has_vouch (sh_trust_path b)) (has_vouch (sh_trust_path a)))
  (then_with (key_cmp (sh_display_name a) (sh_display_name b))
             (key_cmp (fingerprint (sh_key a)) (fingerprint (sh_key b)))))).

(** The loop over the profiles of the corpus. *)
Fixpoint stranger_hits (graph : TrustGraph) (self_key : Key) (term : string) (max_hops : byte)
    (ps : list Profile) : res (list StrangerHit) :=
  match ps with
  | [] => Ok []
  | p :: ps =>
      if negb (profile_matches p term) then stranger_hits graph self_key term max_hops ps
      else
        path ← trust_path graph self_key (profile_key p) max_hops;
        hits ← stranger_hits graph self_key term max_hops ps;
        Ok (MkHit (profile_key p) (display_name p) path ((λ v, N.of_nat (length v)) <$> path) [] :: hits)
  end.
Definition rank_strangers (self_key : Key) (own_edges : list TrustEdge) (relay_corpus : list CollabObject)
    (term : string) (max_hops : byte) : res (list StrangerHit) :=
  let graph := MkGraph (own_edges ++ corpus_edges relay_corpus) in
  hits ← stranger_hits graph self_key term max_hops (corpus_profiles relay_corpus);
  Ok (sort_by stranger_cmp hits).

(** [edge_id] of search.rs, and the same lines of [rank_strangers_multi]. *)
Definition edge_id (e : TrustEdge) : res ObjectId :=
  match serialize (OCollab (CTrustEdge e)) with
  | Ok data => Ok (object_id data)
  | Err _ => Err (Panic "postcard serialization is infallible for owned data")
  end.

Record Merged : Type := MkMerged {
  mg_best : gmap Key Profile; mg_served_by : gmap Key (gset Key); mg_edges : gmap ObjectId TrustEdge }.
Definition merge_object (relay_key : Key) (m : Merged) (o : CollabObject) : res Merged :=
  match o with
  | CProfile p =>
      let k := profile_key p in
      let served := <[k := {[relay_key]} ∪ default ∅ (mg_served_by m !! k)]> (mg_served_by m) in
      let keep := match mg_best m !! k with Some cur => bool_decide (profile_seq p ≤ profile_seq cur)%N | None => false end in
      Ok (MkMerged (if keep then mg_best m else <[k := p]> (mg_best m)) served (mg_edges m))
  | CTrustEdge e =>
      id ← edge_id e;
      Ok (MkMerged (mg_best m) (mg_served_by m)
            (match mg_edges m !! id with Some _ => mg_edges m | None => <[id := e]> (mg_edges m) end))
  end.
Definition merge_relays (per_relay : list (Key * list CollabObject)) : res Merged :=
  res_fold (λ m rc, res_fold (merge_object rc.1) m rc.2) (MkMerged ∅ ∅ ∅) per_relay.
Definition rank_strangers_multi (self_key : Key) (own_edges : list TrustEdge)
    (per_relay : list (Key * list CollabObject)) (term : string) (max_hops : byte) : res (list StrangerHit) :=
  m ← merge_relays per_relay;
  let merged := (CProfile <$> btree_values (mg_best m)) ++ (CTrustEdge <$> btree_values (mg_edges m)) in
  hits ← rank_strangers self_key own_edges merged term max_hops;
  Ok (fmap (M := list) (λ h, match mg_served_by m !! sh_key h with
        | Some set => MkHit (sh_key h) (sh_display_name h) (sh_trust_path h) (sh_hops h) (btree_elems set)
        | None => h
        end) hits).

(** ** The relay's side: [search_ball] *)

(** [incoming.entry(e.to_key).or_default().push(e)] for every edge. *)
Definition add_incoming (m : gmap Key (list TrustEdge)) (e : TrustEdge) : gmap Key (list TrustEdge) :=
  <[to_key e := default [] (m !! to_key e) ++ [e]]> m.
Definition incoming (edges : list TrustEdge) : gmap Key (list TrustEdge) := foldl add_incoming ∅ edges.

(** What the loops of one match share: [out] and [ball] outlive it. *)
Record Ball : Type := MkBall {
  bl_out : list CollabObject; bl_ball : gset ObjectId; bl_visited : gset Key; bl_q : list (Key * N) }.

Definition ball_edge (depth : N) (s : Ball) (e : TrustEdge) : res Ball :=
  id ← edge_id e;
  let fresh := bool_decide (id ∉ bl_ball s) in
  let out := if fresh then bl_out s ++ [CTrustEdge e] else bl_out s in
  let push := bool_decide (from_key e ∉ bl_visited s) in
  Ok (MkBall out ({[id]} ∪ bl_ball s) ({[from_key e]} ∪ bl_visited s)
        (if push then bl_q s ++ [(from_key e, (depth + 1)%N)] else bl_q s)).
Definition ball_step (inc : gmap Key (list TrustEdge)) (max_hops : byte) (s : Ball) : Ball + res Ball :=
  match bl_q s with
  | [] => inr (Ok s)
  | (node, depth) :: q =>
      let s := MkBall (bl_out s) (bl_ball s) (bl_visited s) q in
      if decide (u8 max_hops ≤ depth)%N then inl s
      else match inc !! node with
           | Some preds =>
               match res_fold (ball_edge depth) s preds with
               | Ok s => inl s
               | Err e => inr (Err e)
               end
           | None => inl s
           end
  end.
(** One iteration of the loop over the profiles. *)
Definition ball_profile (inc : gmap Key (list TrustEdge)) (fuel : nat) (term : string) (max_hops : byte)
    (s : list CollabObject * gset ObjectId) (p : Profile) : res (list CollabObject * gset ObjectId) :=
  if negb (profile_matches p term) then Ok s
  else
    s ← default (Err (Panic "fuel"))
      (run (ball_step inc max_hops) fuel
        (MkBall (s.1 ++ [CProfile p]) s.2 {[profile_key p]} [(profile_key p, 0%N)]));
    Ok (bl_out s, bl_ball s).
Definition search_ball (corpus : list CollabObject) (term : string) (max_hops : byte) : res (list CollabObject) :=
  let edges := corpus_edges corpus in
  r ← res_fold (ball_profile (incoming edges) (S (S (length edges))) term max_hops) ([], ∅) (corpus_profiles corpus);
  Ok r.1.
End discovery.

(** ** The ball around one match *)
Lemma corpus_edges_app l1 l2 : corpus_edges (l1 ++ l2) = corpus_edges l1 ++ corpus_edges l2.
Proof. apply omap_app. Qed.
Lemma corpus_profiles_app l1 l2 : corpus_profiles (l1 ++ l2) = corpus_profiles l1 ++ corpus_profiles l2.
Proof. apply omap_app. Qed.
Lemma elem_of_corpus_edges l e : e ∈ corpus_edges l ↔ CTrustEdge e ∈ l.
Proof.
  unfold corpus_edges. rewrite list_elem_of_omap. split.
  - intros ([p|e'] & Hin & [= ->]). done.
  - intros Hin. by exists (CTrustEdge e).
Qed.
Lemma elem_of_corpus_profiles l p : p ∈ corpus_profiles l ↔ CProfile p ∈ l.
Proof.
  unfold corpus_profiles. rewrite list_elem_of_omap. split.
  - intros ([p'|e] & Hin & [= ->]). done.
  - intros Hin. by exists (CProfile p).
Qed.

Lemma incoming_lookup edges k : default [] (incoming edges !! k) = filter (λ e, to_key e = k) edges.
Proof.
  unfold incoming. induction edges as [|e l IH] using rev_ind; [done|].
  rewrite foldl_app, filter_app, <- IH. cbn [foldl]. unfold add_incoming at 1. rewrite filter_cons, filter_nil.
  case_decide as He; [subst k; by rewrite lookup_insert_eq|]. by rewrite lookup_insert_ne, app_nil_r.
Qed.

Section ball.
Context `{ObjectCodec} (edges : list TrustEdge).
Context (ids_total : ∀ e, e ∈ edges → ∃ id, edge_id e = Ok id).
Context (ids_inj : ∀ e e' id, e ∈ edges → e' ∈ edges → edge_id e = Ok id → edge_id e' = Ok id → e = e').

(** A step backwards along an edge. *)
Definition back (x y : Key) : Prop := ∃ e, e ∈ edges ∧ to_key e = x ∧ from_key e = y.

Definition ball_rel (s : Ball) (t : gmap Key nat * list Key) : Prop :=
  bl_visited s = dom t.1 ∧ t.2 = (bl_q s).*1 ∧ ∀ x d, (x, d) ∈ bl_q s → t.1 !! x = Some (N.to_nat d).
Definition out_ok (Q : TrustEdge → Prop) (out : list CollabObject) (ball : gset ObjectId) : Prop :=
  (∀ e, CTrustEdge e ∈ out → e ∈ edges ∧ Q e) ∧
  (∀ id, id ∈ ball ↔ ∃ e, CTrustEdge e ∈ out ∧ edge_id e = Ok id) ∧ NoDup (corpus_edges out).
(** [out] has grown to [out'], by edges only. *)
Definition grown (out out' : list CollabObject) : Prop :=
  corpus_profiles out' = corpus_profiles out ∧ ∀ o, o ∈ out → o ∈ out'.

#[local] Instance grown_preorder : PreOrder grown.
Proof. split; [by intros out|]. intros o1 o2 o3 [H1 H1'] [H2 H2']. split; [congruence|auto]. Qed.

Lemma ball_edge_out Q (out : list CollabObject) (ball : gset ObjectId) e id : e ∈ edges → Q e → edge_id e = Ok id →
  out_ok Q out ball →
  let out' := if bool_decide (id ∉ ball) then out ++ [CTrustEdge e] else out in
  out_ok Q out' ({[id]} ∪ ball) ∧ grown out out' ∧ CTrustEdge e ∈ out'.
Proof.
  intros He HQ Hid (Ho & Hb & Hnd). simpl. case_bool_decide as Hf.
  - unfold out_ok, grown. split_and!.
    + intros e' [Hin|Hin]%elem_of_app; [by apply Ho|]. apply list_elem_of_singleton in Hin as [= ->]. done.
    + intros i. rewrite elem_of_union, elem_of_singleton, Hb. split.
      * intros [->|(e' & ? & ?)]; [exists e|exists e']; (split; [apply elem_of_app|done]); [right; by left|by left].
      * intros (e' & [Hin|Hin]%elem_of_app & He'); [right; by exists e'|]. apply list_elem_of_singleton in Hin as [= ->]. left. congruence.
    + rewrite corpus_edges_app. apply NoDup_app. split; [exact Hnd|]. split; [|apply NoDup_singleton].
      intros e' Hin He'. apply list_elem_of_singleton in He'. subst e'. apply Hf, Hb. exists e. split; [by apply elem_of_corpus_edges|done].
    + rewrite corpus_profiles_app. apply app_nil_r.
    + intros o Hin. apply elem_of_app. by left.
    + apply elem_of_app. right. by left.
  - destruct (proj1 (Hb id) Hf) as (e' & Hin' & Hid').
    assert (e' = e) as -> by (apply (ids_inj e' e id); try done; by apply Ho).
    split; [|done]. split; [done|]. split; [|done]. intros i. rewrite <- Hb. set_solver.
Qed.

Lemma ball_edge_ok Q d s t e : e ∈ edges → Q e → ball_rel s t → out_ok Q (bl_out s) (bl_ball s) →
  ∃ s', ball_edge d s e = Ok s' ∧ ball_rel s' (bfs_push (N.to_nat d) t (from_key e)) ∧
    out_ok Q (bl_out s') (bl_ball s') ∧ grown (bl_out s) (bl_out s') ∧ CTrustEdge e ∈ bl_out s'.
Proof.
  intros He HQ (Hv & Hq & Hqd) Hok. destruct (ids_total e He) as [id Hid]. unfold ball_edge. rewrite Hid.
  eexists. split; [reflexivity|]. pose proof (ball_edge_out Q _ _ e id He HQ Hid Hok) as Hout. simpl in Hout |- *.
  split; [|done]. unfold bfs_push. rewrite Hv. destruct t as [sm tq]. simpl in *. subst tq.
  destruct (sm !! from_key e) as [m|] eqn:Hm.
  - assert (from_key e ∈ dom sm) as Hin by by apply elem_of_dom. rewrite (bool_decide_false (from_key e ∉ dom sm)) by tauto.
    split_and!; simpl; [set_solver|done|done].
  - assert (from_key e ∉ dom sm) as Hin by by apply not_elem_of_dom. rewrite (bool_decide_true (from_key e ∉ dom sm)) by done.
    split_and!; simpl; [by rewrite dom_insert_L|by rewrite fmap_app|].
    intros x n [Hx|Hx]%elem_of_app.
    + rewrite lookup_insert_ne; [by apply Hqd|]. intros <-. apply Hqd in Hx. congruence.
    + apply list_elem_of_singleton in Hx as [= -> ->]. rewrite lookup_insert_eq. f_equal. lia.
Qed.

Lemma ball_fold_ok Q d l : (∀ e, e ∈ l → e ∈ edges ∧ Q e) → ∀ s t, ball_rel s t → out_ok Q (bl_out s) (bl_ball s) →
  ∃ s', res_fold (ball_edge d) s l = Ok s' ∧ ball_rel s' (foldl (bfs_push (N.to_nat d)) t (from_key <$> l)) ∧
    out_ok Q (bl_out s') (bl_ball s') ∧ grown (bl_out s) (bl_out s') ∧ ∀ e, e ∈ l → CTrustEdge e ∈ bl_out s'.
Proof.
  induction l as [|e l IH]; intros Hl s t Hrel Hok; simpl.
  { exists s. split_and!; try done. by intros e ?%elem_of_nil. }
  destruct (Hl e ltac:(by left)) as [He HQ].
  destruct (ball_edge_ok Q d s t e He HQ Hrel Hok) as (s1 & -> & Hrel1 & Hok1 & Hg1 & Hin). simpl.
  destruct (IH (λ e' He', Hl e' ltac:(by right)) s1 _ Hrel1 Hok1) as (s2 & -> & Hrel2 & Hok2 & Hg2 & Hall).
  exists s2. split_and!; try done; [by etrans..|]. intros e' [->|Hin']%elem_of_cons; [by apply Hg2|by apply Hall].
Qed.

Lemma elem_of_preds x y : y ∈ (from_key <$> filter (λ e, to_key e = x) edges) ↔ back x y.
Proof. rewrite list_elem_of_fmap. setoid_rewrite list_elem_of_filter. unfold back. naive_solver. Qed.

(** ** One match *)
Section one_match.
Context (k : Key) (max_hops : byte) (Q0 : TrustEdge → Prop) (out0 : list CollabObject).

(** An edge that a path of at most [max_hops] edges into the match can start with. *)
Definition near (k : Key) (max_hops : byte) (e : TrustEdge) : Prop := ∃ d, d < N.to_nat (u8 max_hops) ∧ nsteps back d k (to_key e).

Definition ball_inv (s : Ball) : Prop :=
  (∃ t, ball_rel s t ∧ bfs_inv back k (N.to_nat (u8 max_hops)) t.1 t.2 ∧
     ∀ e n, e ∈ edges → t.1 !! to_key e = Some n → to_key e ∉ t.2 → n < N.to_nat (u8 max_hops) → CTrustEdge e ∈ bl_out s) ∧
  out_ok (λ e, Q0 e ∨ near k max_hops e) (bl_out s) (bl_ball s) ∧ grown out0 (bl_out s).
Definition ball_nodes : gset Key := {[k]} ∪ list_to_set (from_key <$> edges).
Definition ball_measure (s : Ball) : nat := length (bl_q s) + size (ball_nodes ∖ bl_visited s).

Lemma ball_step_inv s : ball_inv s →
  match ball_step (incoming edges) max_hops s with
  | inl s' => ball_inv s' ∧ ball_measure s' < ball_measure s
  | inr (Ok s') => s' = s ∧ bl_q s = []
  | inr (Err _) => False
  end.
Proof.
  intros [([sm tq] & (Hv & Hq & Hqd) & Hinv & Hdone) [Hok Hg]]. unfold ball_step. destruct s as [out ball visited q].
  simpl in *. subst tq visited. destruct q as [|[x d] q]; [done|].
  assert (sm !! x = Some (N.to_nat d)) as Hx by (apply Hqd; by left).
  destruct (bfs_reach _ _ _ _ _ Hinv x _ Hx) as [Hst Hb].
  set (ys := from_key <$> filter (λ e, to_key e = x) edges).
  destruct (bfs_next_inv _ _ _ ball_nodes sm x q.*1 _ ys Hinv Hx (elem_of_preds x)) as [Hinv' Hm].
  { intros y (e & He & _ & <-)%elem_of_preds. apply elem_of_union_r, elem_of_list_to_set, list_elem_of_fmap. eauto. }
  assert (ball_rel (MkBall out ball (dom sm) q) (sm, q.*1)) as Hrel.
  { split_and!; simpl; try done. intros y n Hin. apply Hqd. by right. }
  assert (∀ e n, e ∈ edges → sm !! to_key e = Some n → to_key e ∉ q.*1 → n < N.to_nat (u8 max_hops) →
    CTrustEdge e ∈ out ∨ to_key e = x) as Hdone'.
  { intros e n He Hn Hnin Hlt. destruct (decide (to_key e = x)) as [|Hne]; [by right|]. left.
    apply (Hdone e n); [done..| |done]. change ((((x, d) :: q).*1)) with (x :: q.*1). rewrite elem_of_cons. by intros [|]. }
  unfold bfs_next, bfs_measure in *. destruct (decide (u8 max_hops ≤ d)%N) as [E|E].
  - rewrite decide_True in Hinv', Hm by lia. split; [|unfold ball_measure; simpl in *; lia].
    split; [exists (sm, q.*1); split; [done|]; split; [done|]|done]. simpl. intros e n He Hn Hnin Hlt.
    destruct (Hdone' e n He Hn Hnin Hlt) as [|Heq]; [done|]. rewrite Heq, Hx in Hn. simplify_eq. lia.
  - rewrite decide_False in Hinv', Hm by lia.
    assert (∀ e, e ∈ filter (λ e, to_key e = x) edges → e ∈ edges ∧ (Q0 e ∨ near k max_hops e)) as Hl.
    { intros e [<- He]%list_elem_of_filter. split; [done|]. right. exists (N.to_nat d). split; [lia|done]. }
    destruct (ball_fold_ok _ d _ Hl _ _ Hrel Hok) as (s' & Hs' & Hrel' & Hok' & Hg' & Hall).
    assert (match incoming edges !! x with
            | Some preds => match res_fold (ball_edge d) (MkBall out ball (dom sm) q) preds with Ok s => inl s | Err e => inr (Err e) end
            | None => inl (MkBall out ball (dom sm) q)
            end = (inl s' : Ball + res Ball)) as ->.
    { pose proof (incoming_lookup edges x) as Hinc. destruct (incoming edges !! x) as [preds|]; simpl in Hinc.
      - by rewrite Hinc, Hs'.
      - rewrite <- Hinc in Hs'. by injection Hs' as ->. }
    fold ys in Hrel'. split.
    + split; [|split; [done|by etrans]]. eexists. split; [exact Hrel'|]. split; [done|].
      intros e n He Hn Hnin Hlt. destruct (decide (to_key e = x)) as [Heq|Hne].
      { apply Hall, list_elem_of_filter. done. }
      destruct (bfs_push_old _ _ _ _ _ Hn Hnin) as [Hn' Hnin']. apply Hg'. simpl in *.
      by destruct (Hdone' e n He Hn' Hnin' Hlt).
    + destruct Hrel' as (H1 & H2 & _). unfold ball_measure. simpl. rewrite H1.
      pose proof (length_fmap fst (bl_q s')) as Hl1. rewrite <- H2 in Hl1. pose proof (length_fmap fst q) as Hl2.
      rewrite <- Hl1, <- Hl2. cbn [fst snd length] in Hm. cbn. lia.
Qed.

Lemma ball_inv_init (ball : gset ObjectId) : out_ok Q0 out0 ball → ball_inv (MkBall out0 ball {[k]} [(k, 0%N)]).
Proof.
  intros (Ho & Hb & Hnd). split; [|split; [|done]].
  - exists ({[k := 0]}, [k]). split; [|split; [apply bfs_inv_init|]].
    + split; [simpl; by rewrite dom_singleton_L|]. split; [done|]. simpl.
      intros x d [= -> ->]%list_elem_of_singleton. by simplify_map_eq.
    + simpl. intros e n _ [<- _]%lookup_singleton_Some Hn. by destruct Hn; left.
  - split; [|done]. intros e He. destruct (Ho e He). split; [done|]. by left.
Qed.

Lemma ball_nodes_size : 1 + size (ball_nodes ∖ {[k]}) < S (S (length edges)).
Proof.
  unfold ball_nodes. pose proof (size_list_to_set_le (from_key <$> edges)) as Hl. rewrite length_fmap in Hl.
  assert (size (({[k]} ∪ list_to_set (from_key <$> edges) : gset Key) ∖ {[k]}) ≤ size (list_to_set (from_key <$> edges) : gset Key)); [|lia].
  apply subseteq_size. set_solver.
Qed.

Lemma ball_run (ball : gset ObjectId) : out_ok Q0 out0 ball →
  ∃ s, run (ball_step (incoming edges) max_hops) (S (S (length edges))) (MkBall out0 ball {[k]} [(k, 0%N)]) = Some (Ok s) ∧
    out_ok (λ e, Q0 e ∨ near k max_hops e) (bl_out s) (bl_ball s) ∧ grown out0 (bl_out s) ∧
    ∀ e, e ∈ edges → near k max_hops e → CTrustEdge e ∈ bl_out s.
Proof.
  intros Hok. destruct (run_ends (ball_step (incoming edges) max_hops) ball_inv ball_measure (S (S (length edges)))
    (MkBall out0 ball {[k]} [(k, 0%N)])) as (s & r & -> & Hinv & Hs).
  - intros s s' Hi Hs. pose proof (ball_step_inv s Hi) as Hst. by rewrite Hs in Hst.
  - by apply ball_inv_init.
  - unfold ball_measure. simpl. apply ball_nodes_size.
  - pose proof (ball_step_inv s Hinv) as Hst. rewrite Hs in Hst. destruct r as [s'|]; [|done].
    destruct Hst as [-> Hq]. exists s. split; [done|]. destruct Hinv as [([sm tq] & (_ & Htq & _) & Hi & Hd) [Ho Hg]].
    split; [done|]. split; [done|]. simpl in *. subst tq. rewrite Hq in *. intros e He (d & Hd' & Hst).
    destruct (bfs_complete _ _ _ _ Hi d (to_key e) Hst) as (m & Hm & Hle); [lia|].
    eapply Hd; [done..|by apply not_elem_of_nil|lia].
Qed.
End one_match.

(** ** All matches *)
Definition wanted (term : string) (max_hops : byte) (ps : list Profile) (e : TrustEdge) : Prop :=
  ∃ p, p ∈ ps ∧ profile_matches p term = true ∧ near (profile_key p) max_hops e.
Definition search_inv (term : string) (max_hops : byte) (ps : list Profile) (s : list CollabObject * gset ObjectId) : Prop :=
  out_ok (wanted term max_hops ps) s.1 s.2 ∧ corpus_profiles s.1 = filter (λ p, profile_matches p term = true) ps ∧
  ∀ e, e ∈ edges → wanted term max_hops ps e → CTrustEdge e ∈ s.1.

Lemma wanted_snoc term max_hops ps p e :
  wanted term max_hops (ps ++ [p]) e ↔
  wanted term max_hops ps e ∨ (profile_matches p term = true ∧ near (profile_key p) max_hops e).
Proof. unfold wanted. setoid_rewrite elem_of_app. setoid_rewrite list_elem_of_singleton. naive_solver. Qed.

Lemma out_ok_ext (Q Q' : TrustEdge → Prop) out ball : (∀ e, Q e → Q' e) → out_ok Q out ball → out_ok Q' out ball.
Proof. intros HQ (Ho & Hb & Hnd). split; [|done]. intros e He. destruct (Ho e He). auto. Qed.

Lemma ball_profile_ok term max_hops ps p s : search_inv term max_hops ps s →
  ∃ s', ball_profile (incoming edges) (S (S (length edges))) term max_hops s p = Ok s' ∧ search_inv term max_hops (ps ++ [p]) s'.
Proof.
  destruct s as [out ball]. intros (Hok & Hps & Hall). simpl in *. unfold ball_profile.
  destruct (profile_matches p term) eqn:Hm; cbn [negb fst snd].
  - destruct (ball_run (profile_key p) max_hops (wanted term max_hops ps) (out ++ [CProfile p]) ball) as (s & -> & Hok' & [Hg Hg'] & Hn).
    { destruct Hok as (Ho & Hb & Hnd). split_and!.
      - intros e [He|He]%elem_of_app; [by apply Ho|]. by apply list_elem_of_singleton in He.
      - intros id. rewrite Hb. split; intros (e & He & Hid); exists e; (split; [|done]).
        + apply elem_of_app. by left.
        + apply elem_of_app in He as [He|He]; [done|]. by apply list_elem_of_singleton in He.
      - rewrite corpus_edges_app. simpl. by rewrite app_nil_r. }
    simpl. eexists. split; [done|]. split; [|split]; simpl.
    + eapply out_ok_ext; [|done]. intros e He. apply wanted_snoc. naive_solver.
    + rewrite Hg, corpus_profiles_app, Hps, filter_app. rewrite filter_cons_True by done. done.
    + intros e He [Hw|[_ Hw]]%wanted_snoc; [|by apply Hn]. apply Hg', elem_of_app. left. by apply Hall.
  - eexists. split; [done|]. split; [|split]; simpl.
    + eapply out_ok_ext; [|done]. intros e He. apply wanted_snoc. by left.
    + rewrite filter_app, filter_cons_False by congruence. by rewrite filter_nil, app_nil_r.
    + intros e He [Hw|[Hw _]]%wanted_snoc; [by apply Hall|congruence].
Qed.

Lemma search_fold term max_hops ps : ∀ before s, search_inv term max_hops before s →
  ∃ s', res_fold (ball_profile (incoming edges) (S (S (length edges))) term max_hops) s ps = Ok s' ∧
    search_inv term max_hops (before ++ ps) s'.
Proof.
  induction ps as [|p ps IH]; intros before s Hs; simpl.
  { exists s. by rewrite app_nil_r. }
  destruct (ball_profile_ok term max_hops before p s Hs) as (s1 & -> & Hs1). simpl.
  destruct (IH _ _ Hs1) as (s2 & -> & Hs2). exists s2. split; [done|]. by rewrite <- (assoc_L (++)) in Hs2.
Qed.
End ball.

(** ** What the relay sends *)
Section search.
Context `{ObjectCodec}.

(** Every edge of a corpus has an id, and no two edges share one. *)
Definition ids_ok (corpus : list CollabObject) : Prop :=
  (∀ e, CTrustEdge e ∈ corpus → ∃ id, edge_id e = Ok id) ∧
  ∀ e e' id, CTrustEdge e ∈ corpus → CTrustEdge e' ∈ corpus → edge_id e = Ok id → edge_id e' = Ok id → e = e'.

(** [e] starts a chain of at most [max_hops] edges of the corpus into a matching
    profile's key. *)
Definition leads_to_match (corpus : list CollabObject) (term : string) (max_hops : byte) (e : TrustEdge) : Prop :=
  ∃ p d, CProfile p ∈ corpus ∧ profile_matches p term = true ∧ d < N.to_nat (u8 max_hops) ∧
    nsteps (back (corpus_edges corpus)) d (profile_key p) (to_key e).

Lemma search_ball_spec (corpus : list CollabObject) (term : string) (max_hops : byte) : ids_ok corpus →
  ∃ out, search_ball corpus term max_hops = Ok out ∧
    corpus_profiles out = filter (λ p, profile_matches p term = true) (corpus_profiles corpus) ∧
    NoDup (corpus_edges out) ∧
    ∀ e, CTrustEdge e ∈ out ↔ CTrustEdge e ∈ corpus ∧ leads_to_match corpus term max_hops e.
Proof.
  intros [Htot Hinj]. unfold search_ball.
  destruct (search_fold (corpus_edges corpus)
    (λ e He, Htot e (proj1 (elem_of_corpus_edges corpus e) He))
    (λ e e' id He He', Hinj e e' id (proj1 (elem_of_corpus_edges corpus e) He) (proj1 (elem_of_corpus_edges corpus e') He'))
    term max_hops (corpus_profiles corpus) [] ([], ∅)) as ([out ball] & -> & Hok & Hps & Hall).
  { split; [|split; [done|]].
    - split_and!; simpl; [by intros e ?%elem_of_nil| |constructor].
      intros id. split; [set_solver|]. by intros (e & ?%elem_of_nil & _).
    - by intros e _ (p & ?%elem_of_nil & _). }
  exists out. split; [done|]. split; [done|]. destruct Hok as (Ho & _ & Hnd). split; [done|].
  assert (∀ e, wanted (corpus_edges corpus) term max_hops (corpus_profiles corpus) e ↔ leads_to_match corpus term max_hops e) as Hw.
  { intros e. unfold wanted, near, leads_to_match. setoid_rewrite elem_of_corpus_profiles. naive_solver. }
  intros e. rewrite <- Hw, <- (elem_of_corpus_edges corpus). split; [apply Ho|]. intros [? ?]. by apply Hall.
Qed.

(** A relay answers a search with exactly the profiles that match and the edges
    that start a chain of at most [max_hops] edges of its corpus into one of them, each
    edge once. *)
Theorem search_ball_exact (corpus : list CollabObject) (term : string) (max_hops : byte) : ids_ok corpus →
  ∃ out, search_ball corpus term max_hops = Ok out ∧
    corpus_profiles out = filter (λ p, profile_matches p term = true) (corpus_profiles corpus) ∧
    NoDup (corpus_edges out) ∧
    ∀ e, CTrustEdge e ∈ out ↔ CTrustEdge e ∈ corpus ∧ leads_to_match corpus term max_hops e.
Proof. apply search_ball_spec. Qed.

(** ** Ranking *)
Definition path_of (g : TrustGraph) (self k : Key) (max_hops : byte) : option (list TrustHop) :=
  match trust_path g self k max_hops with Ok o => o | Err _ => None end.
Definition hit_of (g : TrustGraph) (self : Key) (max_hops : byte) (p : Profile) : StrangerHit :=
  let path := path_of g self (profile_key p) max_hops in
  MkHit (profile_key p) (display_name p) path ((λ v, N.of_nat (length v)) <$> path) [].

Lemma trust_path_Ok g self k max_hops : trust_path g self k max_hops = Ok (path_of g self k max_hops).
Proof.
  pose proof (trust_path_spec g self k max_hops) as Ht. unfold path_of. by destruct (trust_path g self k max_hops).
Qed.
Lemma stranger_hits_Ok g self term max_hops ps :
  stranger_hits g self term max_hops ps = Ok (hit_of g self max_hops <$> filter (λ p, profile_matches p term = true) ps).
Proof.
  induction ps as [|p ps IH]; [done|]. cbn [stranger_hits]. rewrite filter_cons.
  destruct (profile_matches p term) eqn:Hm; cbn [negb].
  - rewrite decide_True by done. rewrite trust_path_Ok, IH. done.
  - rewrite decide_False by done. apply IH.
Qed.

#[local] Instance stranger_cmp_laws : Cmp stranger_cmp.
Proof.
  refine (Cmp_then _ _ (Cmp_by (λ a, bool_decide (is_Some (sh_trust_path a))) _ (Cmp_flip _ Cmp_bool))
    (Cmp_then _ _ (Cmp_by (λ a, default usize_max (sh_hops a)) _ Cmp_N)
    (Cmp_then _ _ (Cmp_by (λ a, has_vouch (sh_trust_path a)) _ (Cmp_flip _ Cmp_bool))
    (Cmp_then _ _ (Cmp_by sh_display_name _ Cmp_key) (Cmp_by (λ a, fingerprint (sh_key a)) _ Cmp_key))))).
Qed.

(** Ranking strangers never panics and lists the matching profiles of the corpus,
    each with a shortest trust path over the querier's edges and the corpus' edges, or
    none when nothing within the bound connects them; the list is ordered by the
    documented criteria. *)
Theorem rank_strangers_correct (self : Key) (own : list TrustEdge) (corpus : list CollabObject) (term : string) (max_hops : byte) :
  ∃ hits, rank_strangers self own corpus term max_hops = Ok hits ∧
    StronglySorted (λ a b, stranger_cmp a b ≠ Gt) hits ∧
    (λ h, (sh_key h, sh_display_name h)) <$> hits ≡ₚ
      (λ p, (profile_key p, display_name p)) <$> filter (λ p, profile_matches p term = true) (corpus_profiles corpus) ∧
    ∀ h, h ∈ hits →
      sh_hops h = (λ v, N.of_nat (length v)) <$> sh_trust_path h ∧
      let g := MkGraph (own ++ corpus_edges corpus) in
      match sh_trust_path h with
      | Some p => trail g self (sh_key h) p ∧ length p ≤ N.to_nat (u8 max_hops) ∧ at_distance (trust_edge g) self (sh_key h) (length p)
      | None => ∀ n, n ≤ N.to_nat (u8 max_hops) → ¬ nsteps (trust_edge g) n self (sh_key h)
      end.
Proof.
  unfold rank_strangers. rewrite stranger_hits_Ok. simpl. eexists. split; [done|]. split; [apply (sort_by_sorted _)|].
  split; [rewrite sort_by_perm, <- list_fmap_compose; done|].
  intros h Hin. rewrite sort_by_perm in Hin. apply list_elem_of_fmap in Hin as (p & -> & _). split; [done|]. simpl.
  pose proof (trust_path_spec (MkGraph (own ++ corpus_edges corpus)) self (profile_key p) max_hops) as Ht.
  rewrite trust_path_Ok in Ht. done.
Qed.
End search.

(** ** The querier and the relay together *)
Section end_to_end.
Context `{ObjectCodec}.

Lemma trust_edge_app own l x y : trust_edge (MkGraph (own ++ l)) x y ↔ trust_edge (MkGraph own) x y ∨ trust_edge (MkGraph l) x y.
Proof.
  split.
  - intros [(e & [He|He]%elem_of_app & Hr)|(e & [He|He]%elem_of_app & Hr)];
      [left; left|right; left|left; right|right; right]; by exists e.
  - intros [[(e & He & Hr)|(e & He & Hr)]|[(e & He & Hr)|(e & He & Hr)]];
      [left|right|left|right]; exists e; (split; [apply elem_of_app; tauto|done]).
Qed.
Lemma trust_edge_mono l l' x y : (∀ e, e ∈ l → e ∈ l') → trust_edge (MkGraph l) x y → trust_edge (MkGraph l') x y.
Proof. intros Hl [(e & He & Hr)|(e & He & Hr)]; [left|right]; exists e; (split; [by apply Hl|done]). Qed.

(** A chain read backwards. *)
Lemma nsteps_back l n x t : nsteps (trust_edge (MkGraph l)) n x t → nsteps (back l) n t x.
Proof.
  induction 1 as [|n x y z Hxy _ IH]; [constructor|]. eapply nsteps_r; [exact IH|].
  destruct Hxy as [(e & He & _ & <- & <-)|(e & He & _ & <- & <-)]; by exists e.
Qed.

(** A chain of the full graph is one of the sent edges, or the part of it after its
    last visit to the querier is a chain of the querier's graph. *)
Lemma chain_sent (corpus out : list CollabObject) own self term max_hops p :
  (∀ e, e ∈ own → from_key e = self) → CProfile p ∈ corpus → profile_matches p term = true →
  (∀ e, CTrustEdge e ∈ corpus → leads_to_match corpus term max_hops e → CTrustEdge e ∈ out) →
  (∀ e, CTrustEdge e ∈ out → CTrustEdge e ∈ corpus) →
  ∀ k x, nsteps (trust_edge (MkGraph (own ++ corpus_edges corpus))) k x (profile_key p) → k ≤ N.to_nat (u8 max_hops) →
    nsteps (trust_edge (MkGraph (corpus_edges out))) k x (profile_key p) ∨
    ∃ m, m ≤ k ∧ nsteps (trust_edge (MkGraph (own ++ corpus_edges out))) m self (profile_key p).
Proof.
  intros Hown Hp Hm Hall Hsub k. induction k as [|k IH]; intros x Hst Hk.
  { apply nsteps_0_inv in Hst as ->. left. constructor. }
  apply nsteps_inv_l in Hst as (y & Hxy & Hst). destruct (IH y Hst) as [Hy|(m & ? & ?)]; [lia| |right; exists m; split; [lia|done]].
  apply trust_edge_app in Hxy as [Hxy|Hxy].
  - right. exists (S k). split; [done|]. assert (x = self) as ->.
    { destruct Hxy as [(e & He & _ & <- & _)|(e & He & _ & <- & _)]; by apply Hown. }
    econstructor; [apply trust_edge_app; by left|]. eapply nsteps_mono; [|exact Hy]. intros a b Hab. apply trust_edge_app. by right.
  - left. econstructor; [|exact Hy].
    assert (∀ e, e ∈ corpus_edges corpus → to_key e = y → e ∈ corpus_edges out) as Hin.
    { intros e He%elem_of_corpus_edges <-. apply elem_of_corpus_edges, Hall; [done|].
      exists p, k. split; [done|]. split; [done|]. split; [lia|].
      apply nsteps_back. eapply nsteps_mono; [|exact Hy]. intros a b. apply trust_edge_mono.
      intros e' He'. apply elem_of_corpus_edges, Hsub. by apply elem_of_corpus_edges. }
    destruct Hxy as [(e & He & Hk' & Hf & Ht)|(e & He & Hk' & Hf & Ht)]; [left|right]; exists e; (split; [by apply Hin|done]).
Qed.

(** Two graphs with the same reachability within the bound give the same distance. *)
Lemma same_hops g1 g2 self k max_hops :
  (∀ n, n ≤ N.to_nat (u8 max_hops) → nsteps (trust_edge g1) n self k → ∃ m, m ≤ n ∧ nsteps (trust_edge g2) m self k) →
  (∀ n, n ≤ N.to_nat (u8 max_hops) → nsteps (trust_edge g2) n self k → ∃ m, m ≤ n ∧ nsteps (trust_edge g1) m self k) →
  length <$> path_of g1 self k max_hops = length <$> path_of g2 self k max_hops.
Proof.
  intros H12 H21. pose proof (trust_path_spec g1 self k max_hops) as T1. pose proof (trust_path_spec g2 self k max_hops) as T2.
  rewrite trust_path_Ok in T1, T2. destruct (path_of g1 self k max_hops) as [p1|], (path_of g2 self k max_hops) as [p2|]; simpl.
  - destruct T1 as (_ & L1 & S1 & M1), T2 as (_ & L2 & S2 & M2). f_equal.
    destruct (H12 _ L1 S1) as (m1 & ? & N1), (H21 _ L2 S2) as (m2 & ? & N2).
    destruct (decide (length p1 < length p2)); [by destruct (M2 m1); [lia|]|].
    destruct (decide (length p2 < length p1)); [by destruct (M1 m2); [lia|]|]. lia.
  - destruct T1 as (_ & L1 & S1 & _). destruct (H12 _ L1 S1) as (m & ? & N1). by destruct (T2 m); [lia|].
  - destruct T2 as (_ & L2 & S2 & _). destruct (H21 _ L2 S2) as (m & ? & N2). by destruct (T1 m); [lia|].
  - done.
Qed.

Lemma search_ball_suffices_spec (corpus : list CollabObject) (own : list TrustEdge) (self : Key) (term : string) (max_hops : byte) :
  ids_ok corpus → (∀ e, e ∈ own → from_key e = self) →
  ∃ out full got, search_ball corpus term max_hops = Ok out ∧
    rank_strangers self own corpus term max_hops = Ok full ∧ rank_strangers self own out term max_hops = Ok got ∧
    (λ h, (sh_key h, sh_display_name h, sh_hops h)) <$> got ≡ₚ (λ h, (sh_key h, sh_display_name h, sh_hops h)) <$> full.
Proof.
  intros Hids Hown. destruct (search_ball_spec corpus term max_hops Hids) as (out & Hout & Hps & _ & He).
  exists out. unfold rank_strangers. rewrite !stranger_hits_Ok. simpl. do 2 eexists. split; [done|]. split; [done|]. split; [done|].
  rewrite !sort_by_perm, <- !list_fmap_compose, Hps, list_filter_filter_l by done.
  erewrite list_fmap_ext; [done|]. intros i p Hi%list_elem_of_lookup_2. apply list_elem_of_filter in Hi as [Hm Hp].
  apply elem_of_corpus_profiles in Hp. simpl. f_equal.
  assert (length <$> path_of (MkGraph (own ++ corpus_edges out)) self (profile_key p) max_hops =
          length <$> path_of (MkGraph (own ++ corpus_edges corpus)) self (profile_key p) max_hops) as Hl.
  { apply same_hops; intros n Hn Hst.
    - exists n. split; [done|]. eapply nsteps_mono; [|exact Hst]. intros x y. apply trust_edge_mono.
      intros e. rewrite !elem_of_app, !elem_of_corpus_edges, He. tauto.
    - destruct (chain_sent corpus out own self term max_hops p Hown Hp Hm) with (k := n) (x := self) as [Hk|(m & ? & ?)]; try done.
      + intros e H1 H2. by apply He.
      + intros e H1. by apply He in H1 as [? _].
      + exists n. split; [done|]. eapply nsteps_mono; [|exact Hk]. intros x y Hxy. apply trust_edge_app. by right.
      + by exists m. }
  destruct (path_of _ _ _ _), (path_of _ _ _ _); simplify_eq/=; congruence.
Qed.

(** The relay's selection loses nothing: for a querier that holds only edges of its
    own, ranking what a search returns finds the same strangers, with the same names
    and at the same trust distance, as ranking the relay's whole corpus. *)
Theorem search_ball_suffices (corpus : list CollabObject) (own : list TrustEdge) (self : Key) (term : string) (max_hops : byte) :
  ids_ok corpus → (∀ e, e ∈ own → from_key e = self) →
  ∃ out full got, search_ball corpus term max_hops = Ok out ∧
    rank_strangers self own corpus term max_hops = Ok full ∧ rank_strangers self own out term max_hops = Ok got ∧
    (λ h, (sh_key h, sh_display_name h, sh_hops h)) <$> got ≡ₚ (λ h, (sh_key h, sh_display_name h, sh_hops h)) <$> full.
Proof. apply search_ball_suffices_spec. Qed.
End end_to_end.

(** ** The local index *)
Section index.
Context `{ObjectCodec, Ed25519, Postcard}.

#[local] Instance hit_cmp_laws : Cmp hit_cmp.
Proof.
  refine (Cmp_then _ _ (Cmp_by dr_distance _ Cmp_N) (Cmp_by (λ r, recency (dr_object r)) _ (Cmp_flip _ Cmp_N))).
Qed.

Lemma elem_of_pull `{PublicObjectSource A} root (sources : gmap Key A) ns x :
  x ∈ pull root sources ns ↔ ∃ peer d src l, (peer, d) ∈ ns ∧ sources !! peer = Some src ∧ public_objects src = Ok l ∧
    x = (peer, d, [root; peer], filter (λ o, verified o = true) l).
Proof.
  induction ns as [|[peer d] ns IH]; cbn [pull].
  { rewrite elem_of_nil. split; [done|]. by intros (? & ? & ? & ? & ?%elem_of_nil & _). }
  setoid_rewrite elem_of_cons. destruct (sources !! peer) as [src|] eqn:Hs.
  - destruct (public_objects src) as [l|e] eqn:Hl; [rewrite elem_of_cons|]; rewrite IH; split.
    + intros [->|(p & d' & s & l' & Hin & Hr)]; [by exists peer, d, src, l; auto|exists p, d', s, l'; auto].
    + intros (p & d' & s & l' & [[= -> ->]|Hin] & Hr & Hp & ->); [left; congruence|right; by exists p, d', s, l'].
    + intros (p & d' & s & l' & Hin & Hr). exists p, d', s, l'. auto.
    + intros (p & d' & s & l' & [[= -> ->]|Hin] & Hr & Hp & ->); [congruence|by exists p, d', s, l'].
  - rewrite IH. split.
    + intros (p & d' & s & l' & Hin & Hr). exists p, d', s, l'. auto.
    + intros (p & d' & s & l' & [[= -> ->]|Hin] & Hr & Hp & ->); [congruence|by exists p, d', s, l'].
Qed.

(** A gathered index holds what was served and verified, and nothing else: the own
    public objects at distance 0, and those of every reachable source whose key is
    within [hops] follow edges, at that distance.  A query returns exactly the entries
    that match, nearest first, then most recent first.  A failing peer is skipped, only
    a failure of the own source is an error. *)
Theorem gather_correct `{PublicObjectSource A} (root : Key) (own : A) (g : TrustGraph) (hops : byte) (sources : gmap Key A) :
  match public_objects own with
  | Err e => gather root own g hops sources = Err e
  | Ok objs => ∃ ix, gather root own g hops sources = Ok ix ∧ ∀ term,
      StronglySorted (λ a b, hit_cmp a b ≠ Gt) (query ix term) ∧
      ∀ r, r ∈ query ix term ↔
        matches (dr_object r) term = true ∧ verified (dr_object r) = true ∧ dr_key r = publisher_key (dr_object r) ∧
        ((dr_distance r = 0%N ∧ dr_trust_path r = [root] ∧ dr_object r ∈ objs) ∨
         ∃ peer src l, peer ≠ root ∧ sources !! peer = Some src ∧ public_objects src = Ok l ∧ dr_object r ∈ l ∧
           dr_trust_path r = [root; peer] ∧ (dr_distance r ≤ u8 hops)%N ∧
           at_distance (follow_edge g) root peer (N.to_nat (dr_distance r)))
  end.
Proof.
  unfold gather. destruct (public_objects own) as [objs|e]; [|done]. simpl. eexists. split; [done|].
  intros term. split; [apply (sort_by_sorted _)|]. intros r. unfold query. rewrite sort_by_perm, list_elem_of_filter.
  unfold index_build. cbn [ix_results]. rewrite elem_of_app, list_elem_of_fmap, list_elem_of_bind.
  setoid_rewrite elem_of_pull. setoid_rewrite elem_of_btree_iter. setoid_rewrite follow_neighborhood_spec. split.
  - intros [Hm [(o & -> & [Hv Ho]%list_elem_of_filter)|([[[p d] path] l] & Hr & (peer & d' & src & l' & (Hne & Hd & Hat) & Hs & Hp & [= -> -> -> ->]))]].
    + split; [done|]. split; [done|]. split; [done|]. by left.
    + apply list_elem_of_fmap in Hr as (o & -> & [Hv Ho]%list_elem_of_filter). split; [done|]. split; [done|]. split; [done|].
      right. by exists peer, src, l'.
  - intros (Hm & Hv & Hk & Hr). split; [done|]. destruct r as [k o d path]. simpl in *. subst k. destruct Hr as [(-> & -> & Ho)|Hr].
    + left. exists o. split; [done|]. by apply list_elem_of_filter.
    + right. destruct Hr as (peer & src & l & Hne & Hs & Hp & Ho & -> & Hd & Hat).
      exists (peer, d, [root; peer], filter (λ o, verified o = true) l). split.
      * apply list_elem_of_fmap. exists o. split; [done|]. by apply list_elem_of_filter.
      * by exists peer, d, src, l.
Qed.
End index.

(** ** Several relays *)
Section relays.
Context `{ObjectCodec}.
Implicit Types (l : list (Key * CollabObject)) (m : Merged).

(** Who served what. *)
Definition served (per_relay : list (Key * list CollabObject)) : list (Key * CollabObject) :=
  per_relay ≫= λ rc, pair rc.1 <$> rc.2.

Lemma merge_relays_flat per_relay :
  merge_relays per_relay = res_fold (λ m ro, merge_object ro.1 m ro.2) (MkMerged ∅ ∅ ∅) (served per_relay).
Proof.
  unfold merge_relays. generalize (MkMerged ∅ ∅ ∅) as m. induction per_relay as [|[k c] prs IH]; intros m; [done|].
  unfold served. rewrite bind_cons, res_fold_app. cbn [res_fold fst snd].
  assert (∀ c m, res_fold (λ m ro, merge_object ro.1 m ro.2) m (pair k <$> c) = res_fold (merge_object k) m c) as Hc.
  { clear. induction c as [|o c IH]; intros m; [done|]. cbn [fmap list_fmap res_fold fst snd].
    by destruct (merge_object k m o); cbn [mbind result_bind]; [apply IH|]. }
  rewrite Hc. destruct (res_fold (merge_object k) m c) as [m'|e]; cbn [mbind result_bind]; [apply IH|done].
Qed.

(** The merged corpus after the objects of [l]: the highest profile per key, who served
    one, and the edges by id. *)
Record merged_ok l m : Prop := {
  mo_best : ∀ k p, mg_best m !! k = Some p →
    (∃ r, (r, CProfile p) ∈ l) ∧ profile_key p = k ∧
    ∀ r p', (r, CProfile p') ∈ l → profile_key p' = k → (profile_seq p' ≤ profile_seq p)%N;
  mo_all : ∀ r p, (r, CProfile p) ∈ l → is_Some (mg_best m !! profile_key p);
  mo_served : ∀ k r, r ∈ default ∅ (mg_served_by m !! k) ↔ ∃ p, (r, CProfile p) ∈ l ∧ profile_key p = k;
  mo_edges : ∀ id e, mg_edges m !! id = Some e → edge_id e = Ok id ∧ ∃ r, (r, CTrustEdge e) ∈ l;
  mo_ids : ∀ r e, (r, CTrustEdge e) ∈ l → ∃ id e', edge_id e = Ok id ∧ mg_edges m !! id = Some e'
}.

Lemma merged_ok_nil : merged_ok [] (MkMerged ∅ ∅ ∅).
Proof.
  split; simpl.
  - intros k p Hk. by rewrite lookup_empty in Hk.
  - by intros r p ?%elem_of_nil.
  - intros k r. rewrite lookup_empty. simpl. split; [set_solver|]. by intros (p & ?%elem_of_nil & _).
  - intros id e Hid. by rewrite lookup_empty in Hid.
  - by intros r e ?%elem_of_nil.
Qed.

Lemma elem_of_snoc {A} (l : list A) x y : y ∈ l ++ [x] ↔ y ∈ l ∨ y = x.
Proof. by rewrite elem_of_app, list_elem_of_singleton. Qed.

Lemma merged_ok_profile l m r p : merged_ok l m → ∃ m', merge_object r m (CProfile p) = Ok m' ∧ merged_ok (l ++ [(r, CProfile p)]) m'.
Proof.
  intros [Hb Ha Hs He Hi]. cbn [merge_object]. eexists. split; [done|]. set (k := profile_key p).
  assert (∀ j q, (if match mg_best m !! k with Some cur => bool_decide (profile_seq p ≤ profile_seq cur)%N | None => false end
                  then mg_best m else <[k := p]> (mg_best m)) !! j = Some q →
     (mg_best m !! j = Some q ∧ (j = k → (profile_seq p ≤ profile_seq q)%N)) ∨
     (j = k ∧ q = p ∧ ∀ cur, mg_best m !! k = Some cur → (profile_seq cur ≤ profile_seq p)%N)) as Hcase.
  { intros j q. destruct (mg_best m !! k) as [cur|] eqn:Hk; [case_bool_decide as Hle|].
    - intros Hq. left. split; [done|]. intros ->. congruence.
    - intros [[<- <-]|[? Hq]]%lookup_insert_Some; [right|left; done]. split; [done|]. split; [done|]. intros ? [= <-]. lia.
    - intros [[<- <-]|[? Hq]]%lookup_insert_Some; [right; done|left; done]. }
  split; cbn [mg_best mg_served_by mg_edges].
  - intros j q Hq. destruct (Hcase j q Hq) as [[Hj Hle]|(-> & -> & Hle)].
    + destruct (Hb j q Hj) as ([r' Hr] & Hk & Hmax). split; [exists r'; apply elem_of_snoc; by left|]. split; [done|].
      intros r2 p2 [Hin|[= -> ->]]%elem_of_snoc Hp2; [by eapply Hmax|]. by apply Hle.
    + split; [exists r; apply elem_of_snoc; by right|]. split; [done|].
      intros r2 p2 [Hin|[= -> ->]]%elem_of_snoc Hp2; [|done].
      destruct (Ha r2 p2 Hin) as [cur Hcur]. destruct (Hb _ _ Hcur) as (_ & _ & Hmax).
      pose proof (Hmax r2 p2 Hin eq_refl). rewrite Hp2 in Hcur. specialize (Hle cur Hcur). lia.
  - intros r2 p2 [Hin|[= -> ->]]%elem_of_snoc.
    + destruct (Ha r2 p2 Hin) as [cur Hcur]. destruct (match mg_best m !! k with Some _ => _ | None => _ end); [by exists cur|].
      destruct (decide (k = profile_key p2)) as [<-|]; [rewrite lookup_insert_eq; eauto|rewrite lookup_insert_ne; eauto].
    + fold k. destruct (mg_best m !! k) as [cur|] eqn:Hk; [case_bool_decide; [by exists cur|]|]; rewrite lookup_insert_eq; eauto.
  - intros j r2. destruct (decide (k = j)) as [<-|Hne].
    + rewrite lookup_insert_eq. simpl. rewrite elem_of_union, elem_of_singleton, Hs.
      setoid_rewrite elem_of_snoc. split; [intros [->|(q & ? & ?)]; eauto|].
      intros (q & [Hin|[= -> ->]] & Hq); [right; by exists q|by left].
    + rewrite lookup_insert_ne by done. rewrite Hs. setoid_rewrite elem_of_snoc. split; [naive_solver|].
      intros (q & [Hin|[= -> ->]] & Hq); [by exists q|done].
  - intros id e Hid. destruct (He id e Hid) as (? & r' & ?). split; [done|]. exists r'. apply elem_of_snoc. by left.
  - intros r2 e [Hin|[=]]%elem_of_snoc. by eapply Hi.
Qed.

Lemma merged_ok_edge l m r e id : edge_id e = Ok id → merged_ok l m →
  ∃ m', merge_object r m (CTrustEdge e) = Ok m' ∧ merged_ok (l ++ [(r, CTrustEdge e)]) m'.
Proof.
  intros Hid [Hb Ha Hs He Hi]. cbn [merge_object]. rewrite Hid. cbn [mbind result_bind]. eexists. split; [done|].
  split; cbn [mg_best mg_served_by mg_edges].
  - intros k p Hk. destruct (Hb k p Hk) as ([r' Hr] & ? & Hmax). split; [exists r'; apply elem_of_snoc; by left|]. split; [done|].
    intros r2 p2 [Hin|[=]]%elem_of_snoc. by eapply Hmax.
  - intros r2 p2 [Hin|[=]]%elem_of_snoc. by eapply Ha.
  - intros k r2. rewrite Hs. setoid_rewrite elem_of_snoc. naive_solver.
  - intros i e2 Hi2. destruct (mg_edges m !! id) as [e0|] eqn:E.
    + destruct (He i e2 Hi2) as (? & r' & ?). split; [done|]. exists r'. apply elem_of_snoc. by left.
    + apply lookup_insert_Some in Hi2 as [[<- <-]|[_ Hi2]]; [split; [done|]; exists r; apply elem_of_snoc; by right|].
      destruct (He i e2 Hi2) as (? & r' & ?). split; [done|]. exists r'. apply elem_of_snoc. by left.
  - intros r2 e2 [Hin|[= -> ->]]%elem_of_snoc.
    + destruct (Hi r2 e2 Hin) as (i & e' & ? & He'). exists i. destruct (mg_edges m !! id) as [e0|] eqn:E; [by exists e'|].
      destruct (decide (id = i)) as [<-|]; [congruence|]. exists e'. by rewrite lookup_insert_ne.
    + exists id. destruct (mg_edges m !! id) as [e0|] eqn:E; [by exists e0|]. exists e. by rewrite lookup_insert_eq.
Qed.

Lemma merge_fold l : (∀ r e, (r, CTrustEdge e) ∈ l → ∃ id, edge_id e = Ok id) →
  ∃ m, res_fold (λ m ro, merge_object ro.1 m ro.2) (MkMerged ∅ ∅ ∅) l = Ok m ∧ merged_ok l m.
Proof.
  induction l as [|[r o] l IH] using rev_ind; intros Hids; [eexists; split; [done|apply merged_ok_nil]|].
  destruct IH as (m & Hm & Hok); [intros r' e' Hin; eapply Hids, elem_of_snoc; by left|].
  rewrite res_fold_app, Hm. cbn [mbind result_bind res_fold fst snd].
  assert (∃ m', merge_object r m o = Ok m' ∧ merged_ok (l ++ [(r, o)]) m') as (m' & -> & Hok').
  { destruct o as [p|e]; [by apply merged_ok_profile|]. destruct (Hids r e) as [id Hid]; [apply elem_of_snoc; by right|].
    by eapply merged_ok_edge. }
  by exists m'.
Qed.

Lemma relay_edges l m x y : merged_ok l m →
  (∀ e e' id, CTrustEdge e ∈ l.*2 → CTrustEdge e' ∈ l.*2 → edge_id e = Ok id → edge_id e' = Ok id → e = e') → ∀ own,
  trust_edge (MkGraph (own ++ corpus_edges ((CProfile <$> btree_values (mg_best m)) ++ (CTrustEdge <$> btree_values (mg_edges m))))) x y ↔
  trust_edge (MkGraph (own ++ corpus_edges l.*2)) x y.
Proof.
  intros [_ _ _ He Hi] Hinj own.
  assert (∀ e, CTrustEdge e ∈ l.*2 ↔ ∃ r, (r, CTrustEdge e) ∈ l) as Hl.
  { intros e. rewrite list_elem_of_fmap. split; [intros ([r o] & -> & Hin); by exists r|intros (r & Hin); by exists (r, CTrustEdge e)]. }
  assert (∀ e, CTrustEdge e ∈ (CProfile <$> btree_values (mg_best m)) ++ (CTrustEdge <$> btree_values (mg_edges m)) ↔ CTrustEdge e ∈ l.*2) as Hall.
  { intros e. rewrite Hl, elem_of_app, !list_elem_of_fmap. split.
    - intros [(p & [=] & _)|(e' & [= ->] & (id & Hid)%elem_of_btree_values)]. by destruct (He id e' Hid) as [_ ?].
    - intros [r Hr]. right. exists e. split; [done|]. destruct (Hi r e Hr) as (id & e' & Hid & He').
      destruct (He id e' He') as (Hid' & r' & Hr'). assert (e' = e) as ->.
      { apply (Hinj e' e id); [apply Hl; by exists r'|apply Hl; by exists r|done..]. }
      apply elem_of_btree_values. by exists id. }
  split; apply trust_edge_mono; intros e; rewrite !elem_of_app, !elem_of_corpus_edges, Hall; done.
Qed.

Lemma profiles_of_profiles ps : corpus_profiles (CProfile <$> ps) = ps.
Proof. induction ps as [|p ps IH]; [done|]. cbn. by f_equal. Qed.
Lemma profiles_of_edges es : corpus_profiles (CTrustEdge <$> es) = [].
Proof. by induction es as [|e es IH]. Qed.

Lemma merged_keys l m : merged_ok l m → NoDup (profile_key <$> btree_values (mg_best m)).
Proof.
  intros [Hb _ _ _ _]. assert (profile_key <$> btree_values (mg_best m) = btree_keys (mg_best m)) as ->; [|apply NoDup_btree_keys].
  unfold btree_values, btree_keys. rewrite <- list_fmap_compose. apply list_fmap_ext.
  intros i [k p] Hi%list_elem_of_lookup_2%elem_of_btree_iter. simpl. by destruct (Hb k p Hi) as (_ & ? & _).
Qed.

(** Asking several relays: every stranger is listed once, under the name of the
    newest of its profiles that any relay served, attributed to exactly the relays that
    served a profile of it, and at its distance in the graph of the querier's edges and
    all relays' edges together. *)
Theorem rank_multi_correct (self : Key) (own : list TrustEdge) (per_relay : list (Key * list CollabObject)) (term : string) (max_hops : byte) :
  ids_ok (served per_relay).*2 →
  ∃ hits, rank_strangers_multi self own per_relay term max_hops = Ok hits ∧ NoDup (sh_key <$> hits) ∧
    ∀ h, h ∈ hits →
      (∃ r p, (r, CProfile p) ∈ served per_relay ∧ profile_key p = sh_key h ∧ display_name p = sh_display_name h ∧
         profile_matches p term = true ∧
         ∀ r' p', (r', CProfile p') ∈ served per_relay → profile_key p' = sh_key h → (profile_seq p' ≤ profile_seq p)%N) ∧
      (∀ r, r ∈ sh_relays h ↔ ∃ p, (r, CProfile p) ∈ served per_relay ∧ profile_key p = sh_key h) ∧
      match sh_hops h with
      | Some n => (n ≤ u8 max_hops)%N ∧
          at_distance (trust_edge (MkGraph (own ++ corpus_edges (served per_relay).*2))) self (sh_key h) (N.to_nat n)
      | None => ∀ n, n ≤ N.to_nat (u8 max_hops) →
          ¬ nsteps (trust_edge (MkGraph (own ++ corpus_edges (served per_relay).*2))) n self (sh_key h)
      end.
Proof.
  intros [Htot Hinj]. unfold rank_strangers_multi. rewrite merge_relays_flat.
  destruct (merge_fold (served per_relay)) as (m & -> & Hok).
  { intros r e Hin. apply Htot, list_elem_of_fmap. by exists (r, CTrustEdge e). }
  cbn [mbind result_bind]. set (merged := (CProfile <$> btree_values (mg_best m)) ++ (CTrustEdge <$> btree_values (mg_edges m))).
  assert (corpus_profiles merged = btree_values (mg_best m)) as Hps.
  { unfold merged. by rewrite corpus_profiles_app, profiles_of_profiles, profiles_of_edges, app_nil_r. }
  unfold rank_strangers. rewrite stranger_hits_Ok, Hps. cbn [mbind result_bind].
  set (g := MkGraph (own ++ corpus_edges merged)). set (g' := MkGraph (own ++ corpus_edges (served per_relay).*2)).
  set (attribute := λ h : StrangerHit, _). eexists. split; [done|].
  assert (∀ h, sh_key (attribute h) = sh_key h ∧ sh_display_name (attribute h) = sh_display_name h ∧ sh_hops (attribute h) = sh_hops h) as Hatt.
  { intros h. unfold attribute. by destruct (mg_served_by m !! sh_key h). }
  split.
  - rewrite <- list_fmap_compose. rewrite (list_fmap_ext (sh_key ∘ attribute) sh_key); [|intros i h _; apply Hatt].
    rewrite sort_by_perm, <- list_fmap_compose. change (sh_key ∘ hit_of g self max_hops) with profile_key.
    eapply sublist_NoDup; [apply (merged_keys _ _ Hok)|]. apply fmap_sublist, sublist_filter.
  - intros h (h0 & -> & Hin)%list_elem_of_fmap. destruct (Hatt h0) as (-> & -> & ->). rewrite sort_by_perm in Hin.
    apply list_elem_of_fmap in Hin as (p & -> & [Hm (k & Hk)%elem_of_btree_values]%list_elem_of_filter).
    destruct (mo_best _ _ Hok k p Hk) as ((r & Hr) & <- & Hmax). split; [|split].
    + exists r, p. done.
    + intros r'. rewrite <- (mo_served _ _ Hok). unfold attribute. simpl.
      pose proof (mo_served _ _ Hok (profile_key p) r) as Hsv. destruct (mg_served_by m !! profile_key p) as [set|]; simpl in *.
      * apply elem_of_btree_elems.
      * exfalso. assert (r ∈ (∅ : gset Key)) as Hno; [apply Hsv; by exists p|]. by apply elem_of_empty in Hno.
    + simpl. pose proof (trust_path_spec g self (profile_key p) max_hops) as Ht. rewrite trust_path_Ok in Ht.
      assert (∀ x y, trust_edge g x y ↔ trust_edge g' x y) as Hg by (intros x y; by apply (relay_edges _ _ x y Hok Hinj)).
      destruct (path_of g self (profile_key p) max_hops) as [path|]; simpl.
      * destruct Ht as (_ & Hl & Hd). split; [lia|]. rewrite Nat2N.id. by apply (at_distance_ext _ _ _ _ _ Hg).
      * intros n Hn Hst. apply (Ht n Hn). eapply nsteps_mono; [|exact Hst]. intros x y. apply Hg.
Qed.
End relays.

(** ** On concrete data: a relay with one matching profile *)
Section demo.
Definition ex_codec : ObjectCodec :=
  table_codec [(OCollab (CTrustEdge (ex_vouch x02 x03 "Carol")), [x02]); (OCollab (CTrustEdge (ex_follow x03 x04)), [x03])].
Local Existing Instance ex_codec.

Definition ex_profile (b : byte) (name : string) (seq : N) : Profile := MkProfile (ex_key b) name "" [] [] seq [].
Definition ex_corpus : list CollabObject :=
  [CProfile (ex_profile x03 "target" 1); CProfile (ex_profile x04 "other" 1);
   CTrustEdge (ex_vouch x02 x03 "Carol"); CTrustEdge (ex_follow x03 x04)].

Lemma ex_ids_ok : ids_ok ex_corpus.
Proof.
  assert (∀ e, CTrustEdge e ∈ ex_corpus → e = ex_vouch x02 x03 "Carol" ∨ e = ex_follow x03 x04) as Hin.
  { intros e. unfold ex_corpus. rewrite !elem_of_cons, elem_of_nil. naive_solver. }
  assert (edge_id (ex_vouch x02 x03 "Carol") = Ok (ObjectId_new (pad_vec 32 [x02]))) as H1 by reflexivity.
  assert (edge_id (ex_follow x03 x04) = Ok (ObjectId_new (pad_vec 32 [x03]))) as H2 by reflexivity.
  split.
  - intros e [->| ->]%Hin; [by eexists|by eexists].
  - intros e e' id [->| ->]%Hin [->| ->]%Hin; rewrite ?H1, ?H2; intros Ha Hb;
      first [reflexivity | exfalso; rewrite <- Ha in Hb; vm_compute in Hb; discriminate Hb].
Qed.

Lemma search_ball_exact_witness :
  ids_ok ex_corpus ∧
  search_ball ex_corpus "target" x02 = Ok [CProfile (ex_profile x03 "target" 1); CTrustEdge (ex_vouch x02 x03 "Carol")] ∧
  ∃ out, search_ball ex_corpus "target" x02 = Ok out ∧ corpus_profiles out = [ex_profile x03 "target" 1].
Proof.
  split; [exact ex_ids_ok|]. split; [vm_compute; reflexivity|].
  destruct (search_ball_exact ex_corpus "target" x02 ex_ids_ok) as (out & Ho & Hp & _). exists out. split; [exact Ho|].
  rewrite Hp. vm_compute. reflexivity.
Defined.

Lemma search_ball_suffices_witness :
  ∃ out full got, search_ball ex_corpus "target" x02 = Ok out ∧
    rank_strangers (ex_key x01) [ex_follow x01 x02] ex_corpus "target" x02 = Ok full ∧
    rank_strangers (ex_key x01) [ex_follow x01 x02] out "target" x02 = Ok got ∧
    (λ h, (sh_key h, sh_display_name h, sh_hops h)) <$> got ≡ₚ (λ h, (sh_key h, sh_display_name h, sh_hops h)) <$> full.
Proof.
  refine (search_ball_suffices ex_corpus [ex_follow x01 x02] (ex_key x01) "target" x02 ex_ids_ok _).
  intros e He. apply list_elem_of_singleton in He as ->. reflexivity.
Defined.

Definition ex_relays : list (Key * list CollabObject) :=
  [(ex_key x0a, [CProfile (ex_profile x03 "target" 1)]); (ex_key x0b, CProfile (ex_profile x03 "target renamed" 2) :: ex_corpus)].
Lemma rank_multi_correct_witness :
  ids_ok (served ex_relays).*2 ∧
  ∃ hits, rank_strangers_multi (ex_key x01) [ex_follow x01 x02] ex_relays "target" x02 = Ok hits ∧ NoDup (sh_key <$> hits).
Proof.
  assert (ids_ok (served ex_relays).*2) as Hids.
  { destruct ex_ids_ok as [H1 H2]. assert (∀ e, CTrustEdge e ∈ (served ex_relays).*2 → CTrustEdge e ∈ ex_corpus) as Hin.
    { intros e He.
      change (CTrustEdge e ∈ CProfile (ex_profile x03 "target" 1) :: CProfile (ex_profile x03 "target renamed" 2) :: ex_corpus) in He.
      apply elem_of_cons in He as [He|He]; [discriminate He|]. apply elem_of_cons in He as [He|He]; [discriminate He|exact He]. }
    split; [intros e He; by apply H1, Hin|]. intros e e' id He He'. apply H2; by apply Hin. }
  split; [exact Hids|].
  destruct (rank_multi_correct (ex_key x01) [ex_follow x01 x02] ex_relays "target" x02 Hids) as (hits & Hh & Hnd & _).
  exists hits. split; [exact Hh|exact Hnd].
Defined.
End demo.
