(* ===== verification/Collab.v ===== *)
(** * Collab: publication and serving of signed records

    The collaboration side of [Repository]: src/src/repo/collab.rs (profiles, trust edges,
    relay pins, the hub's views, the discovery index over local state), repo/reporecord.rs
    (repository records), repo/pr.rs (proposals and comments; their merge is in
    [Propose.v]), repo/board.rs (posts) and the pin of collab/relay.rs.

    A record is put in the object store and pinned by a tag whose name is derived from it;
    the publish lock makes a publication one step.  [CollabFacts.v] holds the theorems. *)

From Stdlib Require Import Ascii.
From S2P Require Import Prelude Bfs Order Graph Ids Text Lattice Access Objects Refs RefStore Signing Policy Authority Merge Store Acl Walk Repo Trust Discovery.

(** ** Names *)
Definition COLLAB_PUBLIC_PREFIX : string := "refs/collab/public/".
Definition COLLAB_REMOTES_PREFIX : string := "refs/collab/remotes/".
Definition COLLAB_RELAYS_PREFIX : string := "refs/collab/relays/".
Definition PROPOSALS_PREFIX : string := "refs/proposals/".
Definition COMMENTS_PREFIX : string := "refs/proposals/comments/".
Definition BOARD_PREFIX : string := "refs/board/".

Definition kind_seg (kind : TrustKind) : string :=
  match kind with Vouch => "vouch" | Follow => "follow" | Review => "review" end.

Section names.
Context `{ObjectCodec}.
Definition profile_ref (key : Key) : string := COLLAB_PUBLIC_PREFIX +:+ "profile/" +:+ fingerprint key.
Definition edge_ref (e : TrustEdge) : string :=
  COLLAB_PUBLIC_PREFIX +:+ "edge/" +:+ fingerprint (from_key e) +:+ "/" +:+ kind_seg (edge_kind e) +:+ "/" +:+
  fingerprint (to_key e).
Definition repo_ref (owner : Key) (name : string) : string :=
  COLLAB_PUBLIC_PREFIX +:+ "repo/" +:+ fingerprint owner +:+ "/" +:+ name.
Definition relay_ref (key : Key) : string := COLLAB_RELAYS_PREFIX +:+ fingerprint key.
Definition proposal_ref (id : ObjectId) : string := PROPOSALS_PREFIX +:+ id_to_string id.
Definition comment_ref (proposal id : ObjectId) : string :=
  COMMENTS_PREFIX +:+ id_to_string proposal +:+ "/" +:+ id_to_string id.
Definition post_ref (board : string) (id : ObjectId) : string := BOARD_PREFIX +:+ board +:+ "/" +:+ id_to_string id.
End names.

(** ** Relay pins *)
Record RelayPin : Type := MkPin { pin_key : Key; pin_endpoint : string }.
(** [RelayPin::to_bytes], [RelayPin::from_bytes]: postcard. *)
Class RelayCodec := { pin_to_bytes : RelayPin → bytes; pin_from_bytes : bytes → option RelayPin }.
Class RelayCodecLaws `{RelayCodec} := { pin_from_to p : pin_from_bytes (pin_to_bytes p) = Some p }.

(** ** Views *)
Record TimelineView : Type := MkTimelineView { tv_name : string; tv_head : ObjectId; tv_author : string; tv_created_at : N }.
Record ProfileBundle : Type := MkBundle {
  pb_key : Key; pb_is_local : bool; pb_profile : option Profile; pb_edges : list TrustEdge;
  pb_timelines : list TimelineView; pb_repos : list RepoRecord }.
Record HubUser : Type := MkHubUser { hu_key : Key; hu_display_name : option string; hu_repo_count : N }.
Record QueryHit : Type := MkQueryHit {
  qh_key : Key; qh_display_name : string; qh_petname : option string; qh_reach : N; qh_trust_path : list Key }.

Section collab.
Context {R : Type} `{RefBackend R, IoText, Ed25519}.
Context {A : Type} `{AclBackend A}.
Context `{ObjectCodec, Postcard, RelayCodec}.
Abbreviation Repo := (Repository R A).
Implicit Types s : Repo.

(** [for name in names { if let Some(tag) = get_tag(&name)? { .. objects.get(&tag.target)? .. } }]:
    the loop of every listing below; [f] is what its body adds. *)
Definition tagged_step {X} s (f : RefName → ObjectId → option Object → list X) (out : list X) (name : RefName) : res (list X) :=
  t ← get_tag (r_refs s) name;
  match t with
  | Some tag => obj ← os_get (r_objects s) (tag_target tag); Ok (out ++ f name (tag_target tag) obj)
  | None => Ok out
  end.
Definition collect_tagged {X} s (f : RefName → ObjectId → option Object → list X) (names : list RefName) : res (list X) :=
  res_fold (tagged_step s f) [] names.
Definition list_tagged {X} s (f : RefName → ObjectId → option Object → list X) (prefix : string) : res (list X) :=
  names ← list_refs (r_refs s) prefix; collect_tagged s f names.

(** ** Profiles and edges *)
Definition profile_of (obj : option Object) : option Profile :=
  match obj with Some (OCollab (CProfile p)) => Some p | _ => None end.
Definition edge_of (obj : option Object) : option TrustEdge :=
  match obj with Some (OCollab (CTrustEdge e)) => Some e | _ => None end.
Definition repo_of (obj : option Object) : option RepoRecord :=
  match obj with Some (ORepoRecord r) => Some r | _ => None end.

(** The object a tag points at, if the tag is there. *)
Definition tag_object s (name : RefName) : res (option Object) :=
  t ← get_tag (r_refs s) name;
  match t with Some tag => os_get (r_objects s) (tag_target tag) | None => Ok None end.

Definition profile s (key : Key) : res (option Profile) :=
  name ← RefName_new (profile_ref key);
  obj ← tag_object s name;
  Ok (profile_of obj).

(** A transaction that sets one tag. *)
Definition set_tag (name : RefName) (x : ObjectId) : M Repo () :=
  on_refs (commit_transaction [SetRef name (RTag (MkTag x 0 None))]).

Definition publish_profile (p : Profile) : M Repo ObjectId :=
  if negb (verify_profile p) then throw (PolicyViolation "profile signature does not verify")
  else
    cur ← gets (λ s, profile s (profile_key p));
    if match cur with Some cur => bool_decide (profile_seq p ≤ profile_seq cur)%N | None => false end
    then throw (PolicyViolation "profile seq must be greater than the current profile's")
    else
      id ← repo_put (OCollab (CProfile p));
      _ ← pin (profile_ref (profile_key p)) id;
      mret id.

Definition publish_edge (e : TrustEdge) : M Repo ObjectId :=
  if negb (verify_edge e) then throw (PolicyViolation "trust edge signature does not verify")
  else
    name ← lift_res (RefName_new (edge_ref e));
    obj ← gets (λ s, tag_object s name);
    if match edge_of obj with Some cur => bool_decide (edge_seq e ≤ edge_seq cur)%N | None => false end
    then throw (PolicyViolation "trust edge seq must be greater than the current edge's")
    else
      id ← repo_put (OCollab (CTrustEdge e));
      _ ← set_tag name id;
      mret id.

Definition public_profiles s : res (list Profile) :=
  list_tagged s (λ _ _ obj, option_list (profile_of obj)) (COLLAB_PUBLIC_PREFIX +:+ "profile/").
Definition public_edges s : res (list TrustEdge) :=
  list_tagged s (λ _ _ obj, option_list (edge_of obj)) (COLLAB_PUBLIC_PREFIX +:+ "edge/").

(** [PublicObjectSource for Repository] *)
Definition repo_public_objects s : res (list CollabObject) :=
  ps ← public_profiles s;
  es ← public_edges s;
  Ok ((CProfile <$> ps) ++ (CTrustEdge <$> es)).
#[global] Instance repository_source : PublicObjectSource Repo := {| public_objects := repo_public_objects |}.

Definition tracked_collab s : res (list CollabObject) :=
  list_tagged s (λ _ _ obj, match obj with Some (OCollab c) => if verified c then [c] else [] | _ => [] end)
    COLLAB_REMOTES_PREFIX.

(** ** Repository records *)
Definition publish_repo (r : RepoRecord) : M Repo ObjectId :=
  if negb (verify_repo r) then throw (PolicyViolation "repo record signature does not verify")
  else
    name ← lift_res (RefName_new (repo_ref (rr_owner r) (rr_name r)));
    obj ← gets (λ s, tag_object s name);
    if match repo_of obj with Some cur => bool_decide (rr_seq r ≤ rr_seq cur)%N | None => false end
    then throw (PolicyViolation "repo record seq must be greater than the current record's")
    else
      id ← repo_put (ORepoRecord r);
      _ ← set_tag name id;
      mret id.

Definition valid_repo (obj : option Object) : option RepoRecord :=
  match repo_of obj with Some r => if verify_repo r then Some r else None | None => None end.
Definition get_repo s (owner : Key) (name : string) : res (option RepoRecord) :=
  ref_name ← RefName_new (repo_ref owner name);
  obj ← tag_object s ref_name;
  Ok (valid_repo obj).
Definition list_repos s (owner : Key) : res (list RepoRecord) :=
  out ← list_tagged s (λ _ _ obj, option_list (valid_repo obj)) (repo_ref owner "");
  Ok (sort_by (λ a b, key_cmp (rr_name a) (rr_name b)) out).

(** ** Relays *)
Definition add_relay (p : RelayPin) : M Repo () :=
  id ← repo_put (OBlob (MkBlob (pin_to_bytes p)));
  pin (relay_ref (pin_key p)) id.
Definition remove_relay (key : Key) : M Repo bool :=
  name ← lift_res (RefName_new (relay_ref key));
  t ← gets (λ s, get_tag (r_refs s) name);
  match t with
  | None => mret false
  | Some _ => _ ← on_refs (commit_transaction [DeleteRef name]); mret true
  end.
Definition relays s : res (list RelayPin) :=
  list_tagged s (λ _ _ obj, match obj with Some (OBlob b) => option_list (pin_from_bytes (blob_data b)) | _ => [] end)
    COLLAB_RELAYS_PREFIX.

(** ** Proposals, comments, posts *)
Definition put_proposal (p : ChangeProposal) : M Repo ObjectId :=
  if negb (verify_proposal p) then throw (PolicyViolation "change proposal signature does not verify")
  else repo_put (OChangeProposal p).
Definition proposal_of (obj : option Object) : option ChangeProposal :=
  match obj with Some (OChangeProposal p) => if verify_proposal p then Some p else None | _ => None end.
Definition get_proposal s (id : ObjectId) : res (option ChangeProposal) :=
  obj ← os_get (r_objects s) id; Ok (proposal_of obj).
Definition publish_proposal (p : ChangeProposal) : M Repo ObjectId :=
  id ← put_proposal p;
  _ ← pin (proposal_ref id) id;
  mret id.
Definition list_proposals s : res (list (ObjectId * ChangeProposal)) :=
  names ← list_refs (r_refs s) PROPOSALS_PREFIX;
  collect_tagged s (λ _ id obj, option_list (pair id <$> proposal_of obj))
    (filter (λ n, String.prefix COMMENTS_PREFIX (as_str n) = false) names).

Definition err_unknown_proposal (id : ObjectId) : Error :=
  PolicyViolation ("review comment references an unknown proposal: " +:+ id_to_string id).
Definition add_comment (c : ReviewComment) : M Repo ObjectId :=
  if negb (verify_comment c) then throw (PolicyViolation "review comment signature does not verify")
  else
    p ← gets (λ s, get_proposal s (com_proposal c));
    match p with
    | None => throw (err_unknown_proposal (com_proposal c))
    | Some _ =>
        id ← repo_put (OReviewComment c);
        _ ← pin (comment_ref (com_proposal c) id) id;
        mret id
    end.
Definition comment_of (obj : option Object) : option ReviewComment :=
  match obj with Some (OReviewComment c) => if verify_comment c then Some c else None | _ => None end.
Definition get_comment s (id : ObjectId) : res (option ReviewComment) :=
  obj ← os_get (r_objects s) id; Ok (comment_of obj).
Definition list_comments s (proposal : ObjectId) : res (list (ObjectId * ReviewComment)) :=
  list_tagged s (λ _ id obj, option_list (pair id <$> comment_of obj))
    (COMMENTS_PREFIX +:+ id_to_string proposal +:+ "/").

Definition publish_post (p : Post) : M Repo ObjectId :=
  if negb (verify_post p) then throw (PolicyViolation "board post signature does not verify")
  else
    id ← repo_put (OPost p);
    _ ← pin (post_ref (post_board p) id) id;
    mret id.
Definition post_of (obj : option Object) : option Post :=
  match obj with Some (OPost p) => if verify_post p then Some p else None | _ => None end.
Definition get_post s (id : ObjectId) : res (option Post) :=
  obj ← os_get (r_objects s) id; Ok (post_of obj).
Definition list_posts s (board : string) : res (list (ObjectId * Post)) :=
  list_tagged s (λ _ id obj, option_list (pair id <$> post_of obj)) (BOARD_PREFIX +:+ board +:+ "/").

(** ** The hub's views *)

(** The first loop of [hub_users], then the second. *)
Definition note_name (names : gmap Key (option string)) (p : Profile) : gmap Key (option string) :=
  <[profile_key p := if decide (display_name p = "") then None else Some (display_name p)]> names.
Definition note_repo (st : gmap Key (option string) * gmap Key N) (r : RepoRecord) : gmap Key (option string) * gmap Key N :=
  (match st.1 !! rr_owner r with Some _ => st.1 | None => <[rr_owner r := None]> st.1 end,
   <[rr_owner r := (default 0 (st.2 !! rr_owner r) + 1)%N]> st.2).
Definition hub_users s : res (list HubUser) :=
  ps ← public_profiles s;
  rs ← list_tagged s (λ _ _ obj, option_list (valid_repo obj)) (COLLAB_PUBLIC_PREFIX +:+ "repo/");
  let '(names, counts) := foldl note_repo (foldl note_name ∅ ps, ∅) rs in
  Ok ((λ e, MkHubUser e.1 e.2 (default 0%N (counts !! e.1))) <$> btree_iter names).

Definition announced_pair (name : RefName) : option (string * string) :=
  rest ← strip_prefix (COLLAB_PUBLIC_PREFIX +:+ "repo/") (as_str name); split_once rest.
(** The first two pieces of [rest.splitn(3, '/')]. *)
Definition content_pair (name : RefName) : option (string * string) :=
  rest ← strip_prefix "refs/users/" (as_str name);
  match split_on "/" rest with fp :: repo :: _ => Some (fp, repo) | _ => None end.
Definition scan_orphan_repos s : res (list (string * string) * list (string * string)) :=
  ns ← list_refs (r_refs s) (COLLAB_PUBLIC_PREFIX +:+ "repo/");
  let announced : gset (string * string) := list_to_set (omap announced_pair ns) in
  us ← list_refs (r_refs s) "refs/users/";
  let content : gset (string * string) := list_to_set (omap content_pair us) in
  Ok (btree_elems (announced ∖ content), btree_elems (content ∖ announced)).

(** What the three loops of [scan_invalid_collab_signatures] keep. *)
Definition bad_unless (ok : bool) (name : RefName) (kind : string) : list (RefName * string) := if ok then [] else [(name, kind)].
Definition scan_invalid_collab_signatures s : res (list (RefName * string)) :=
  b1 ← list_tagged s (λ n _ obj, bad_unless (match profile_of obj with Some p => verify_profile p | None => false end) n "profile")
         (COLLAB_PUBLIC_PREFIX +:+ "profile/");
  b2 ← list_tagged s (λ n _ obj, bad_unless (match edge_of obj with Some e => verify_edge e | None => false end) n "trust-edge")
         (COLLAB_PUBLIC_PREFIX +:+ "edge/");
  b3 ← list_tagged s (λ n _ obj, bad_unless (match repo_of obj with Some r => verify_repo r | None => false end) n "repo-record")
         (COLLAB_PUBLIC_PREFIX +:+ "repo/");
  Ok (b1 ++ b2 ++ b3).

(** The loop over the served timelines of [profile_bundle]. *)
Definition timeline_step s (out : list TimelineView) (name : RefName) : res (list TimelineView) :=
  r ← get_ref (r_refs s) name;
  match r with
  | Some (RTimeline t) =>
      obj ← os_get (r_objects s) (head t);
      match obj with
      | Some (OSnapshot snap) => Ok (out ++ [MkTimelineView (as_str name) (head t) (snap_author snap) (snap_created_at snap)])
      | _ => Ok out
      end
  | _ => Ok out
  end.
Definition profile_bundle s (key : Key) (accessor : Accessor) : res ProfileBundle :=
  publics ← public_profiles s;
  let is_local := existsb (λ p, bool_decide (profile_key p = key)) publics in
  prof ← (if is_local then Ok (find_first (λ p, bool_decide (profile_key p = key)) publics)
          else cs ← tracked_collab s;
               Ok (find_first (λ p, bool_decide (profile_key p = key)) (corpus_profiles cs)));
  let prof := match prof with Some p => if verify_profile p then Some p else None | None => None end in
  es ← (if is_local then public_edges s else cs ← tracked_collab s; Ok (corpus_edges cs));
  let edges := filter (λ e, from_key e = key ∧ verify_edge e = true) es in
  tls ← (if is_local then names ← list_refs_served s "" accessor; res_fold (timeline_step s) [] names else Ok []);
  repos ← list_repos s key;
  Ok (MkBundle key is_local prof edges tls repos).

(** ** Discovery over local state *)
Definition add_author (m : gmap Key (list CollabObject)) (o : CollabObject) : gmap Key (list CollabObject) :=
  <[publisher_key o := default [] (m !! publisher_key o) ++ [o]]> m.
Definition by_author (tracked : list CollabObject) : gmap Key (list CollabObject) := foldl add_author ∅ tracked.
(** [if let Some(path) = paths.get(&author) { pulled.push(..) }] *)
Definition pulled_of (paths : gmap Key (list Key)) (e : Key * list CollabObject) : option (Key * N * list Key * list CollabObject) :=
  path ← paths !! e.1;
  Some (e.1, u8 (as_u8 (N.of_nat (pred (length path)))), path, e.2).
Definition local_discovery_index s (self_key : Key) (hops : byte) : res Index :=
  own ← repo_public_objects s;
  tracked ← tracked_collab s;
  let graph := MkGraph (corpus_edges (own ++ tracked)) in
  paths ← follow_paths graph self_key hops;
  Ok (index_build self_key own (omap (pulled_of paths) (btree_iter (by_author tracked)))).

Definition hit_view (n : Namer) (r : DiscoveryResult) : QueryHit :=
  MkQueryHit (dr_key r) (match dr_object r with CProfile p => display_name p | CTrustEdge _ => "" end)
    (match namer_resolve n (dr_key r) with PetLocal nm => Some nm | PetVouch nm _ _ => Some nm | PetFingerprint _ => None end)
    (dr_distance r) (dr_trust_path r).
Definition query_discovery s (self_key : Key) (hops : byte) (term : string) : res (list QueryHit) :=
  idx ← local_discovery_index s self_key hops;
  edges ← public_edges s;
  tracked ← tracked_collab s;
  let namer := MkNamer self_key ∅ (MkGraph (edges ++ corpus_edges tracked)) in
  Ok (fmap (M := list) (hit_view namer) (query idx term)).
End collab.
