(* ===== verification/CollabFacts.v ===== *)
(** * CollabFacts: what publication guarantees

    The theorems about [Collab.v].  An abstract view, [published], gives the object that
    the tag of a name points at.  A publication is a check against the current record of
    its name and one update of that view; histories of publications keep every public
    record signed and under its own name, and never go back to an older sequence
    number; what is served, scanned and indexed is read off the view. *)

From Stdlib Require Import Ascii.
From S2P Require Import Prelude Bfs Order Graph Ids Text Lattice Access Objects Refs RefStore Signing Policy Authority Merge Store Acl Walk Repo Trust Discovery Ephemeral Collab.

(** ** Strings *)
Lemma split_on_sep c a b : split_on c (a +:+ String.String c b) = split_on c a ++ split_on c b.
Proof.
  induction a as [|d a IH]; simpl.
  - by rewrite Ascii.eqb_refl.
  - rewrite IH. destruct (Ascii.eqb d c); [done|]. by destruct (split_on_cons c a) as (seg & rest & ->).
Qed.

(** Hex digits make a segment. *)
Definition plain_char (c : ascii) : bool :=
  negb (Ascii.eqb c "/") && negb (Ascii.eqb c ".") && negb (Ascii.eqb c "000").
Fixpoint plain (s : string) : bool :=
  match s with String.EmptyString => true | String.String c s => plain_char c && plain s end.
Lemma plain_segment s : s ≠ "" → plain s = true → split_on "/" s = [s] ∧ safe_segment s.
Proof.
  assert (∀ s, plain s = true → split_on "/" s = [s] ∧ contains_char "000" s = false) as Hp.
  { induction s0 as [|c s0 IH]; [done|]. cbn [plain split_on contains_char]. unfold plain_char.
    destruct (Ascii.eqb c "/"), (Ascii.eqb c "."), (Ascii.eqb c "000"); try done. intros [-> Hc]%IH. done. }
  intros Hne Hs. destruct (Hp s Hs) as [H1 H2]. split; [done|]. split; [done|]. split; [|done].
  destruct s as [|c s]; [done|]. cbn [plain starts_with] in *. unfold plain_char in Hs. by destruct (Ascii.eqb c "/"), (Ascii.eqb c ".").
Qed.

Lemma plain_hex l : plain (hex32 l) = true.
Proof.
  induction l as [|b l IH]; [done|]. change (hex32 (b :: l)) with (bytes_str (hex_byte b ++ (l ≫= hex_byte))).
  change (bytes_str (hex_byte b ++ (l ≫= hex_byte))) with (String.String (ascii_of_byte (hex_digit (u8 b / 16)))
    (String.String (ascii_of_byte (hex_digit (u8 b `mod` 16))) (hex32 l))).
  cbn [plain]. rewrite IH. by destruct b.
Qed.

Lemma hex_ne l : l ≠ [] → hex32 l ≠ "".
Proof. by destruct l as [|b l]. Qed.

Lemma RefName_new_plain base s n : RefName_new base = Ok n → plain s = true → s ≠ "" →
  RefName_new (base +:+ "/" +:+ s) = Ok (MkRefName (base +:+ "/" +:+ s)).
Proof.
  intros [_ Hb]%RefName_new_Ok Hs Hne. apply RefName_new_Ok. split; [done|]. intros seg.
  change ("/" +:+ s) with (String.String "/" s). rewrite split_on_sep. destruct (plain_segment s Hne Hs) as [-> Hsafe].
  intros [?|Hin]%elem_of_app; [by apply Hb|]. apply list_elem_of_singleton in Hin as ->. done.
Qed.

(** ** Records: what the three kinds of publication share *)
Inductive PublicRecord : Type := PubProfile (p : Profile) | PubEdge (e : TrustEdge) | PubRepo (r : RepoRecord).

Inductive RecordKind : Type := KProfile | KEdge | KRepo.
#[global] Instance RecordKind_eq_dec : EqDecision RecordKind.
Proof. solve_decision. Defined.
Definition kind_of (r : PublicRecord) : RecordKind :=
  match r with PubProfile _ => KProfile | PubEdge _ => KEdge | PubRepo _ => KRepo end.

Definition record_object (r : PublicRecord) : Object :=
  match r with PubProfile p => OCollab (CProfile p) | PubEdge e => OCollab (CTrustEdge e) | PubRepo r => ORepoRecord r end.
Definition record_seq (r : PublicRecord) : N :=
  match r with PubProfile p => profile_seq p | PubEdge e => edge_seq e | PubRepo r => rr_seq r end.
(** The object [obj], when it is a record of the same kind as [r]. *)
Definition record_like (r : PublicRecord) (obj : option Object) : option PublicRecord :=
  match r, obj with
  | PubProfile _, Some (OCollab (CProfile p)) => Some (PubProfile p)
  | PubEdge _, Some (OCollab (CTrustEdge e)) => Some (PubEdge e)
  | PubRepo _, Some (ORepoRecord r) => Some (PubRepo r)
  | _, _ => None
  end.

#[global] Instance record_object_inj : Inj (=) (=) record_object.
Proof. by intros [] [] [= ->]. Qed.

Section records.
Context `{ObjectCodec, Ed25519, Postcard}.

(** The name a record is published under, and its signature check. *)
Definition record_name (r : PublicRecord) : string :=
  match r with
  | PubProfile p => profile_ref (profile_key p)
  | PubEdge e => edge_ref e
  | PubRepo r => repo_ref (rr_owner r) (rr_name r)
  end.
Definition record_valid (r : PublicRecord) : bool :=
  match r with PubProfile p => verify_profile p | PubEdge e => verify_edge e | PubRepo r => verify_repo r end.

Lemma record_name_public r : String.prefix COLLAB_PUBLIC_PREFIX (record_name r) = true.
Proof. destruct r; apply prefix_app. Qed.

(** Records with the same name are of the same kind. *)
Lemma record_name_kind r r' : record_name r = record_name r' → record_like r (Some (record_object r')) = Some r'.
Proof. destruct r, r'; try done; intros [= Hn]. Qed.
End records.

(** ** The published view *)
Section view.
Context {R : Type} `{RefBackendLaws R, IoText, Ed25519}.
Context {A : Type} `{AclBackend A}.
Context `{ObjectCodec, Postcard, RelayCodec}.
Abbreviation Repo := (Repository R A).
Implicit Types s : Repo.

Definition published s (n : RefName) (o : Object) : Prop :=
  ∃ t, be_view (r_refs s) !! n = Some (RTag t) ∧ r_objects s !! tag_target t = Some (Ok o).

Lemma published_fun s n o o' : published s n o → published s n o' → o = o'.
Proof. intros (t & Ht & Ho) (t' & Ht' & Ho'). congruence. Qed.

(** Nothing else is stored under the id of [o]. *)
Definition free_for (O : objects) (o : Object) : Prop := ∀ x r, obj_id o = Ok x → O !! x = Some r → r = Ok o.

Lemma get_tag_view s n t : be_inv (r_refs s) → valid_name n → get_tag (r_refs s) n = Ok t →
  match t with
  | Some tag => be_view (r_refs s) !! n = Some (RTag tag)
  | None => be_view (r_refs s) !! n = None
  end.
Proof.
  intros Hi Hv. unfold get_tag. rewrite bind_Ok. intros (r & Hr & Ht). apply (be_get_Ok _ _ _ Hi Hv) in Hr.
  destruct r as [[tag|tl]|]; simplify_eq; done.
Qed.
Lemma get_tag_stored s n t : be_inv (r_refs s) → be_view (r_refs s) !! n = Some (RTag t) → get_tag (r_refs s) n = Ok (Some t).
Proof. intros Hi Hv. unfold get_tag. by rewrite (be_get_stored _ _ _ Hi Hv). Qed.

Lemma tag_object_view s n obj : be_inv (r_refs s) → valid_name n → tag_object s n = Ok obj → ∀ o, obj = Some o ↔ published s n o.
Proof.
  intros Hi Hv. unfold tag_object. rewrite bind_Ok. intros (t & Ht & Ho) o. pose proof (get_tag_view s n t Hi Hv Ht) as Hn.
  destruct t as [tag|].
  - destruct obj as [o'|].
    + apply os_get_Some in Ho. split; [intros [= ->]; by exists tag|]. intros Hp.
      f_equal. apply (published_fun s n); [by exists tag|done].
    + apply os_get_None in Ho. split; [done|]. intros (t & Ht' & Ho'). congruence.
  - injection Ho as <-. split; [done|]. intros (t & Ht' & _). congruence.
Qed.
Lemma tag_object_published s n o : be_inv (r_refs s) → published s n o → tag_object s n = Ok (Some o).
Proof. intros Hi (t & Ht & Ho). unfold tag_object. rewrite (get_tag_stored s n t Hi Ht). by apply os_get_Some. Qed.

(** [put] on the repository. *)
Lemma repo_put_Ok o s x s' : repo_put o s = (Ok x, s') →
  obj_id o = Ok x ∧ s' = set_objects (r_objects s') s ∧ r_objects s ⊆ r_objects s' ∧ is_Some (r_objects s' !! x) ∧
  (free_for (r_objects s) o → r_objects s' = <[x := Ok o]> (r_objects s)).
Proof.
  unfold repo_put. rewrite lift_bind. destruct (serialize o) as [data|e] eqn:Hs; [|done].
  assert (obj_id o = Ok (object_id data)) as Hid by (unfold obj_id; by rewrite Hs).
  unfold mbind, M_bind, modify, mret, M_ret. intros [= <- <-].
  destruct (os_exists (r_objects s) (object_id data)) eqn:He.
  - unfold os_exists in He. apply bool_decide_eq_true in He as [r Hr]. split; [done|]. split; [by destruct s|].
    split; [done|]. split; [by exists r|]. intros Hf. symmetry. apply insert_id. rewrite Hr. f_equal. by apply (Hf (object_id data) r).
  - unfold os_exists in He. apply bool_decide_eq_false, eq_None_not_Some in He. split; [done|]. split; [done|].
    split; [by apply insert_subseteq|]. split; [|done]. exists (Ok o). simpl. apply lookup_insert_eq.
Qed.

Lemma set_tag_Ok n x s s' : be_inv (r_refs s) → valid_name n → set_tag n x s = (Ok (), s') →
  s' = set_refs (r_refs s') s ∧ be_inv (r_refs s') ∧ be_view (r_refs s') = <[n := RTag (MkTag x 0 None)]> (be_view (r_refs s)).
Proof.
  intros Hi Hv. unfold set_tag, on_refs. destruct (commit_transaction _ (r_refs s)) as [[[]|e] refs] eqn:Hc; [|done].
  intros [= <-]. split; [done|].
  assert (Forall (λ op, valid_name (op_name op)) [SetRef n (RTag (MkTag x 0 None))]) as Hall by by repeat constructor.
  destruct (commit_refines _ _ _ Hi Hall Hc) as [Hi' Hs].
  split; [done|]. unfold ops_spec in Hs. cbn in Hs. injection Hs as Hm. cbn. by rewrite Hm.
Qed.

(** What storing a record and tagging it does. *)
Record pinned s (n : RefName) (o : Object) (x : ObjectId) s' : Prop := {
  pin_id : obj_id o = Ok x;
  pin_valid : valid_name n;
  pin_inv : be_inv (r_refs s');
  pin_view : be_view (r_refs s') = <[n := RTag (MkTag x 0 None)]> (be_view (r_refs s));
  pin_grow : r_objects s ⊆ r_objects s';
  pin_objects : free_for (r_objects s) o → r_objects s' = <[x := Ok o]> (r_objects s);
  pin_rest : r_acls s' = r_acls s ∧ r_hooks s' = r_hooks s ∧ r_audit s' = r_audit s
}.

Lemma put_set_tag n o s x s' : be_inv (r_refs s) → valid_name n →
  (id ← repo_put o; _ ← set_tag n id; mret id) s = (Ok x, s') → pinned s n o x s'.
Proof.
  intros Hi Hv. rewrite M_bind_Ok. intros (id & s1 & (Hid & Hs1 & Hsub & _ & Ho)%repo_put_Ok & Hs).
  apply M_bind_Ok in Hs as ([] & s2 & Hs2 & [= <- <-]). assert (be_inv (r_refs s1)) as Hi1 by by rewrite Hs1.
  destruct (set_tag_Ok _ _ _ _ Hi1 Hv Hs2) as (He & Hi2 & Hview).
  rewrite He. rewrite Hs1 in Hview. rewrite Hs1. split; try done.
Qed.
Lemma put_pin n o s x s' : be_inv (r_refs s) →
  (id ← repo_put o; _ ← pin n id; mret id) s = (Ok x, s') → RefName_new n = Ok (MkRefName n) ∧ pinned s (MkRefName n) o x s'.
Proof.
  intros Hi Hp. destruct (RefName_new n) as [name|e] eqn:Hn.
  - pose proof (RefName_new_Ok n name) as [Hname _]. destruct (Hname Hn) as [-> _]. split; [done|].
    apply put_set_tag; [done|by apply RefName_new_valid in Hn as [_ ?]|]. rewrite <- Hp.
    unfold pin. rewrite Hn. reflexivity.
  - exfalso. apply M_bind_Ok in Hp as (id & s1 & _ & Hs). unfold pin in Hs. rewrite Hn in Hs. done.
Qed.

(** A pinned record is the published one, and no other name is touched. *)
Lemma pinned_published s n o x s' : pinned s n o x s' → free_for (r_objects s) o → published s' n o.
Proof.
  intros Hp Hf. exists (MkTag x 0 None). rewrite (pin_view _ _ _ _ _ Hp), (pin_objects _ _ _ _ _ Hp Hf).
  split; apply lookup_insert_eq.
Qed.
Lemma pinned_other s n o x s' n' o' : pinned s n o x s' → n' ≠ n → published s n' o' → published s' n' o'.
Proof.
  intros Hp Hne (t & Ht & Ho). exists t. rewrite (pin_view _ _ _ _ _ Hp), lookup_insert_ne by done.
  split; [done|]. eapply lookup_weaken; [exact Ho|apply (pin_grow _ _ _ _ _ Hp)].
Qed.

(** ** One publication *)
Definition publish (r : PublicRecord) : M Repo ObjectId :=
  match r with PubProfile p => publish_profile p | PubEdge e => publish_edge e | PubRepo r => publish_repo r end.

(** The errors of a bad signature and of an old sequence number. *)
Definition record_errors (r : PublicRecord) : Error * Error :=
  match r with
  | PubProfile _ => (PolicyViolation "profile signature does not verify",
      PolicyViolation "profile seq must be greater than the current profile's")
  | PubEdge _ => (PolicyViolation "trust edge signature does not verify",
      PolicyViolation "trust edge seq must be greater than the current edge's")
  | PubRepo _ => (PolicyViolation "repo record signature does not verify",
      PolicyViolation "repo record seq must be greater than the current record's")
  end.
Definition stale (r : PublicRecord) (cur : option Object) : bool :=
  match record_like r cur with Some c => bool_decide (record_seq r ≤ record_seq c)%N | None => false end.

(** The three publications are one operation on records. *)
Lemma publish_unfold r s : publish r s =
  (if negb (record_valid r) then throw (record_errors r).1
   else name ← lift_res (RefName_new (record_name r));
     obj ← gets (λ s, tag_object s name);
     if stale r obj then throw (record_errors r).2
     else id ← repo_put (record_object r); _ ← set_tag name id; mret id) s.
Proof.
  destruct r as [p|e|r]; cbn [publish record_valid record_errors record_name record_object fst snd].
  - unfold publish_profile. destruct (verify_profile p); [|done]. cbn [negb]. rewrite gets_bind. unfold profile. rewrite lift_bind.
    destruct (RefName_new (profile_ref (profile_key p))) as [name|e] eqn:Hn; cbn [mbind result_bind]; [|done].
    rewrite gets_bind. destruct (tag_object s name) as [obj|e]; cbn [mbind result_bind]; [|done].
    assert (stale (PubProfile p) obj = match profile_of obj with Some cur => bool_decide (profile_seq p ≤ profile_seq cur)%N | None => false end) as ->.
    { destruct obj as [[| | | | | | | |[p'|e']| | | |]|]; reflexivity. }
    destruct (match profile_of obj with Some _ => _ | None => _ end); [done|]. unfold pin. by rewrite Hn.
  - unfold publish_edge. destruct (verify_edge e); [|done]. cbn [negb]. rewrite !lift_bind. destruct (RefName_new (edge_ref e)) as [name|e0]; [|done].
    rewrite !gets_bind. destruct (tag_object s name) as [obj|e0]; [|done]. by destruct obj as [[| | | | | | | |[p'|e']| | | |]|].
  - unfold publish_repo. destruct (verify_repo r); [|done]. cbn [negb]. rewrite !lift_bind. destruct (RefName_new _) as [name|e0]; [|done].
    rewrite !gets_bind. destruct (tag_object s name) as [obj|e0]; [|done]. by destruct obj as [[| | | | | | | |[p'|e']| | | |]|].
Qed.

(** [r] is the current record under its name. *)
Definition current_record s (r : PublicRecord) : Prop := published s (MkRefName (record_name r)) (record_object r).

Lemma stale_current r s n obj c : be_inv (r_refs s) → RefName_new (record_name r) = Ok n → tag_object s n = Ok obj →
  record_name c = record_name r → current_record s c → stale r obj = bool_decide (record_seq r ≤ record_seq c)%N.
Proof.
  intros Hi Hn Ho Hname Hc. pose proof Hn as [-> _]%RefName_new_Ok. unfold current_record in Hc. rewrite Hname in Hc.
  rewrite (tag_object_published _ _ _ Hi Hc) in Ho. injection Ho as <-. unfold stale. by rewrite (record_name_kind r c).
Qed.

(** A publication that succeeds was signed and newer than the current record. *)
Lemma publish_Ok r s x s' : be_inv (r_refs s) → publish r s = (Ok x, s') →
  record_valid r = true ∧ pinned s (MkRefName (record_name r)) (record_object r) x s' ∧
  ∀ c, record_name c = record_name r → current_record s c → (record_seq c < record_seq r)%N.
Proof.
  intros Hi. rewrite publish_unfold. destruct (record_valid r); [|done]. cbn [negb]. rewrite lift_bind.
  destruct (RefName_new (record_name r)) as [n|e] eqn:Hn; [|done]. rewrite gets_bind.
  destruct (tag_object s n) as [obj|e] eqn:Ho; [|done]. destruct (stale r obj) eqn:Hs; [done|]. intros Hp.
  pose proof Hn as [Hm Hv]%RefName_new_valid. apply put_set_tag in Hp; [|done..].
  split; [done|]. split; [by rewrite <- Hm; destruct n|].
  intros c Hname Hc. rewrite (stale_current r s n obj c) in Hs by done. apply bool_decide_eq_false in Hs. lia.
Qed.

(** A bad signature or a sequence number that is not newer is refused, and nothing
    changes. *)
Lemma publish_refused r s : be_inv (r_refs s) →
  record_valid r = false ∨ (∃ c, record_name c = record_name r ∧ current_record s c ∧ (record_seq r ≤ record_seq c)%N) →
  ∃ e, publish r s = (Err e, s).
Proof.
  intros Hi Hr. rewrite publish_unfold. destruct (record_valid r) eqn:Hv; [|by eexists].
  destruct Hr as [?|(c & Hname & Hc & Hle)]; [done|]. cbn [negb]. rewrite lift_bind.
  destruct (RefName_new (record_name r)) as [n|e] eqn:Hn; [|by eexists]. rewrite gets_bind.
  destruct (tag_object s n) as [obj|e] eqn:Ho; [|by eexists]. rewrite (stale_current r s n obj c) by done.
  rewrite bool_decide_eq_true_2 by done. by eexists.
Qed.
End view.
