(* ===== verification/CollabHistory.v ===== *)
(** * CollabHistory: histories of publications and what is served from them

    Steps of the collaboration side of the repository as a relation, the invariant of
    the public namespace that every history keeps, and the functions that read it:
    the listings a hub serves and the scan for bad signatures. *)

From S2P Require Import Prelude Bfs Order Graph Ids Text Lattice Access Objects Refs RefStore Signing Policy Authority Merge Store Acl Walk Repo Trust Discovery Ephemeral Collab CollabFacts.

Section history.
Context {R : Type} `{RefBackendLaws R, IoText, Ed25519}.
Context {A : Type} `{AclBackend A}.
Context `{ObjectCodec, Postcard, RelayCodec}.
Abbreviation Repo := (Repository R A).
Implicit Types s : Repo.

Definition is_public (n : string) : Prop := String.prefix COLLAB_PUBLIC_PREFIX n = true.

(** ** Steps *)

(** One operation that succeeded.  The last two rules are every other operation of the
    repository on refs outside the public namespace, and every other [put].  Publication
    asks that no different object already sits under the new object's id. *)
Inductive collab_step : Repo → Repo → Prop :=
| step_publish r s x s' : free_for (r_objects s) (record_object r) → publish r s = (Ok x, s') → collab_step s s'
| step_add_relay p s s' : add_relay p s = (Ok (), s') → collab_step s s'
| step_remove_relay k s b s' : remove_relay k s = (Ok b, s') → collab_step s s'
| step_publish_proposal p s x s' : publish_proposal p s = (Ok x, s') → collab_step s s'
| step_add_comment c s x s' : add_comment c s = (Ok x, s') → collab_step s s'
| step_publish_post p s x s' : publish_post p s = (Ok x, s') → collab_step s s'
| step_put o s x s' : repo_put o s = (Ok x, s') → collab_step s s'
| step_refs ops s s' : Forall (λ op, valid_name (op_name op) ∧ ¬ is_public (as_str (op_name op))) ops →
    on_refs (commit_transaction ops) s = (Ok (), s') → collab_step s s'.

(** The invariant: every public name carries the signed record it is named after. *)
Record pub_ok s : Prop := {
  po_inv : be_inv (r_refs s);
  po_records n v : be_view (r_refs s) !! n = Some v → is_public (as_str n) →
    ∃ r, current_record s r ∧ record_name r = as_str n ∧ record_valid r = true
}.

(** What [s'] publishes is what [s] did or newer. *)
Definition advances s s' : Prop :=
  ∀ r, current_record s r → ∃ r', current_record s' r' ∧ record_name r' = record_name r ∧ (r' = r ∨ (record_seq r < record_seq r')%N).

#[global] Instance advances_preorder : PreOrder advances.
Proof.
  split.
  - intros s r Hr. exists r. auto.
  - intros s1 s2 s3 H12 H23 r (r2 & Hr2 & Hn2 & Hs2)%H12. destruct (H23 r2 Hr2) as (r3 & Hr3 & Hn3 & Hs3).
    exists r3. split; [done|]. split; [congruence|]. destruct Hs2 as [->|], Hs3 as [->|]; auto. right. lia.
Qed.

(** ** Steps that leave the public names alone *)
Record outside s s' : Prop := {
  ou_inv : be_inv (r_refs s');
  ou_grow : r_objects s ⊆ r_objects s';
  ou_view n : is_public (as_str n) → be_view (r_refs s') !! n = be_view (r_refs s) !! n
}.

Lemma outside_current s s' r : outside s s' → current_record s r → current_record s' r.
Proof.
  intros Ho (t & Ht & Hr). exists t. rewrite (ou_view s s' Ho) by apply record_name_public.
  split; [done|]. eapply lookup_weaken; [done|apply (ou_grow s s' Ho)].
Qed.
Lemma outside_ok s s' : pub_ok s → outside s s' → pub_ok s' ∧ advances s s'.
Proof.
  intros Hp Ho. split.
  - split; [apply Ho|]. intros n v Hv Hn. rewrite (ou_view s s' Ho) in Hv by done.
    destruct (po_records s Hp n v Hv Hn) as (r & Hr & ?). exists r. split; [by eapply outside_current|done].
  - intros r Hr. exists r. split; [by eapply outside_current|auto].
Qed.

Lemma pinned_outside s n o x s' : pinned s (MkRefName n) o x s' → ¬ is_public n → outside s s'.
Proof.
  intros Hp Hn. split; [apply Hp|apply Hp|]. intros m Hm. rewrite (pin_view _ _ _ _ _ Hp).
  apply lookup_insert_ne. by intros <-.
Qed.
Lemma put_pin_outside n o s x s' : be_inv (r_refs s) → ¬ is_public n →
  (id ← repo_put o; _ ← pin n id; mret id) s = (Ok x, s') → outside s s'.
Proof. intros Hi Hn [_ Hp]%put_pin; [|done]. by eapply pinned_outside. Qed.
Lemma refs_outside ops s s' : be_inv (r_refs s) →
  Forall (λ op, valid_name (op_name op) ∧ ¬ is_public (as_str (op_name op))) ops →
  on_refs (commit_transaction ops) s = (Ok (), s') → outside s s'.
Proof.
  unfold on_refs. intros Hi Hops Hs. destruct (commit_transaction ops (r_refs s)) as [[[]|e] refs] eqn:Hc; [|done].
  injection Hs as <-. assert (Forall (λ op, valid_name (op_name op)) ops) as Hv by (eapply Forall_impl; [done|by intros ? []]).
  destruct (commit_refines _ _ _ Hi Hv Hc) as [Hi' Hspec]. split; [done|done|]. simpl. intros n Hn. revert Hspec.
  generalize (be_view refs) as m'. generalize (be_view (r_refs s)) as m. clear -Hops Hn.
  induction Hops as [|op ops [_ Hop] _ IH]; intros m m'; [by intros [= ->]|].
  intros (m1 & Hm1 & Hm')%bind_Ok. rewrite (IH m1 m' Hm').
  assert (op_name op ≠ n) as Hne by (intros <-; done).
  destruct op; cbn [op_spec op_name] in *; repeat case_match; simplify_eq; try done; by rewrite ?lookup_insert_ne, ?lookup_delete_ne.
Qed.
Lemma put_outside o s x s' : be_inv (r_refs s) → repo_put o s = (Ok x, s') → outside s s'.
Proof. intros Hi (_ & -> & Hsub & _)%repo_put_Ok. by split. Qed.

(** ** Every step keeps the invariant *)
Lemma publish_step r s x s' : pub_ok s → free_for (r_objects s) (record_object r) → publish r s = (Ok x, s') →
  pub_ok s' ∧ advances s s'.
Proof.
  intros Hp Hf Hs. destruct (publish_Ok r s x s' (po_inv s Hp) Hs) as (Hv & Hpin & Hnew).
  assert (current_record s' r) as Hcur by by eapply pinned_published.
  assert (∀ c, record_name c ≠ record_name r → current_record s c → current_record s' c) as Hkeep.
  { intros c Hne. apply (pinned_other _ _ _ _ _ _ _ Hpin). congruence. }
  split.
  - split; [apply Hpin|]. intros n v Hn Hpub. destruct (decide (as_str n = record_name r)) as [Heq|Hne].
    { exists r. by rewrite Heq. }
    rewrite (pin_view _ _ _ _ _ Hpin), lookup_insert_ne in Hn by (intros <-; done).
    destruct (po_records s Hp n v Hn Hpub) as (c & Hc & Hname & ?). exists c. split; [|done]. apply Hkeep; [congruence|done].
  - intros c Hc. destruct (decide (record_name c = record_name r)) as [Heq|Hne].
    + exists r. split; [done|]. split; [done|]. right. by apply Hnew.
    + exists c. auto.
Qed.

Ltac not_public := unfold is_public; by intros [=].

Lemma pin_only n o s s' : (id ← repo_put o; pin n id) s = (Ok (), s') →
  ∃ x, (id ← repo_put o; _ ← pin n id; mret id) s = (Ok x, s').
Proof.
  intros (x & s1 & Hput & Hpin)%M_bind_Ok. exists x. apply M_bind_Ok. exists x, s1. split; [done|].
  apply M_bind_Ok. by exists (), s'.
Qed.
Lemma remove_relay_outside k s b s' : be_inv (r_refs s) → remove_relay k s = (Ok b, s') → outside s s'.
Proof.
  intros Hi. unfold remove_relay. rewrite lift_bind. destruct (RefName_new (relay_ref k)) as [n|e] eqn:Hn; [|done].
  rewrite gets_bind. destruct (get_tag (r_refs s) n) as [[t|]|e]; [|by intros [= _ <-]|done].
  intros ([] & s1 & Hs & [= _ <-])%M_bind_Ok. apply (refs_outside [DeleteRef n] s s1 Hi); [|done].
  pose proof Hn as [Hm Hv]%RefName_new_valid. constructor; [|done]. simpl. rewrite Hm. split; [done|not_public].
Qed.
Lemma publish_proposal_outside p s x s' : be_inv (r_refs s) → publish_proposal p s = (Ok x, s') → outside s s'.
Proof.
  intros Hi. unfold publish_proposal, put_proposal. destruct (verify_proposal p); [|done]. cbn [negb].
  intros (id & s1 & Hp & (y & s2 & Hpin & [= -> ->])%M_bind_Ok)%M_bind_Ok.
  apply (put_pin_outside (proposal_ref x) (OChangeProposal p) s x s' Hi); [not_public|].
  apply M_bind_Ok. exists x, s1. split; [done|]. apply M_bind_Ok. by exists y, s'.
Qed.
Lemma add_comment_outside c s x s' : be_inv (r_refs s) → add_comment c s = (Ok x, s') → outside s s'.
Proof.
  intros Hi. unfold add_comment. destruct (verify_comment c); [|done]. cbn [negb]. rewrite gets_bind.
  destruct (get_proposal s (com_proposal c)) as [[p|]|e]; [|done..].
  intros (id & s1 & Hp & (y & s2 & Hpin & [= -> ->])%M_bind_Ok)%M_bind_Ok.
  apply (put_pin_outside (comment_ref (com_proposal c) x) (OReviewComment c) s x s' Hi); [not_public|].
  apply M_bind_Ok. exists x, s1. split; [done|]. apply M_bind_Ok. by exists y, s'.
Qed.
Lemma publish_post_outside p s x s' : be_inv (r_refs s) → publish_post p s = (Ok x, s') → outside s s'.
Proof.
  intros Hi. unfold publish_post. destruct (verify_post p); [|done]. cbn [negb].
  intros (id & s1 & Hp & (y & s2 & Hpin & [= -> ->])%M_bind_Ok)%M_bind_Ok.
  apply (put_pin_outside (post_ref (post_board p) x) (OPost p) s x s' Hi); [not_public|].
  apply M_bind_Ok. exists x, s1. split; [done|]. apply M_bind_Ok. by exists y, s'.
Qed.

Lemma collab_step_ok s s' : collab_step s s' → pub_ok s → pub_ok s' ∧ advances s s'.
Proof.
  intros Hstep Hp. pose proof (po_inv s Hp) as Hi.
  destruct Hstep as [r s x s' Hf Hs|p s s' Hs|k s b s' Hs|p s x s' Hs|c s x s' Hs|p s x s' Hs|o s x s' Hs|ops s s' Ho Hs].
  { by eapply publish_step. }
  all: apply (outside_ok s s' Hp).
  - apply pin_only in Hs as [x Hs]. apply (put_pin_outside _ _ _ _ _ Hi) in Hs; [done|not_public].
  - by eapply remove_relay_outside.
  - by eapply publish_proposal_outside.
  - by eapply add_comment_outside.
  - by eapply publish_post_outside.
  - by eapply put_outside.
  - by eapply refs_outside.
Qed.

Lemma history_ok s s' : rtc collab_step s s' → pub_ok s → pub_ok s' ∧ advances s s'.
Proof.
  induction 1 as [s|s1 s2 s3 Hstep _ IH]; intros Hp; [done|].
  destruct (collab_step_ok s1 s2 Hstep Hp) as [Hp2 Ha2]. destruct (IH Hp2) as [Hp3 Ha3]. split; [done|]. by etrans.
Qed.

(** [C19] From a repository where every public name carries a record that verifies and that the name
    is derived from, whatever sequence runs of publications of records whose id no other stored
    object has, relay pins, proposals, comments, posts, puts, and other ref updates on names
    outside the public namespace (a bare ref update or a git import can put anything at a
    public name, and is not covered): every name of the public namespace keeps carrying a
    record that verifies and that the name is derived from, and the record under a name is
    only ever replaced by one with a greater sequence number. *)
Theorem publication_history (s s' : Repo) : pub_ok s → rtc collab_step s s' →
  pub_ok s' ∧
  ∀ r, current_record s r → ∃ r', current_record s' r' ∧ record_name r' = record_name r ∧
    (r' = r ∨ (record_seq r < record_seq r')%N).
Proof. intros Hp Hs. by apply history_ok. Qed.

(** A stale publication has a current record to blame. *)
Lemma stale_record s r n obj : pub_ok s → RefName_new (record_name r) = Ok n → tag_object s n = Ok obj → stale r obj = true →
  ∃ c, record_name c = record_name r ∧ current_record s c ∧ (record_seq r ≤ record_seq c)%N.
Proof.
  intros Hp Hn Ho. unfold stale. destruct (record_like r obj) as [c|] eqn:Hl; [|done]. intros Hst%bool_decide_eq_true.
  pose proof Hn as [-> Hv]%RefName_new_Ok. assert (valid_name (MkRefName (record_name r))) as Hvn by done.
  assert (obj = Some (record_object c)) as -> by (by destruct r, obj as [[| | | | | | | |[|]| | | |]|]; simplify_eq/=).
  assert (published s (MkRefName (record_name r)) (record_object c)) as Hc by by apply (tag_object_view s _ _ (po_inv s Hp) Hvn Ho).
  pose proof Hc as (t & Ht & _). destruct (po_records s Hp _ _ Ht (record_name_public r)) as (c' & Hc' & Hname & _).
  cbn [as_str] in Hname. assert (c = c') as <-; [|by exists c]. apply (inj record_object). eapply published_fun; [exact Hc|].
  unfold current_record in Hc'. by rewrite Hname in Hc'.
Qed.

(** ** Listings *)

(** What the loop of a listing adds for a name. *)
Definition listed {X} s (f : RefName → ObjectId → option Object → list X) (n : RefName) : list X :=
  match be_view (r_refs s) !! n with
  | Some (RTag t) => f n (tag_target t) (match r_objects s !! tag_target t with Some (Ok o) => Some o | _ => None end)
  | _ => []
  end.

Lemma tagged_step_Ok {X} s (f : RefName → ObjectId → option Object → list X) out n out' :
  be_inv (r_refs s) → valid_name n → tagged_step s f out n = Ok out' → out' = out ++ listed s f n.
Proof.
  intros Hi Hv. unfold tagged_step. intros (t & Ht & Hs)%bind_Ok. unfold listed.
  pose proof (get_tag_view s n t Hi Hv Ht) as Hn. destruct t as [t|].
  - rewrite Hn. apply bind_Ok in Hs as (obj & Ho & [= <-]). destruct obj as [o|].
    + apply os_get_Some in Ho. by rewrite Ho.
    + apply os_get_None in Ho. by rewrite Ho.
  - rewrite Hn. injection Hs as <-. by rewrite app_nil_r.
Qed.
Lemma collect_tagged_Ok {X} s (f : RefName → ObjectId → option Object → list X) names out :
  be_inv (r_refs s) → Forall valid_name names → collect_tagged s f names = Ok out → out = names ≫= listed s f.
Proof.
  intros Hi Hv. unfold collect_tagged.
  assert (∀ acc, res_fold (tagged_step s f) acc names = Ok out → out = acc ++ (names ≫= listed s f)) as Hgen; [|by apply Hgen].
  induction Hv as [|n names Hn _ IH]; intros acc; simpl; [intros [= <-]; by rewrite app_nil_r|].
  intros (acc' & Hacc & ->%IH)%bind_Ok. apply tagged_step_Ok in Hacc as ->; [|done..]. by rewrite (assoc_L (++)).
Qed.
Lemma list_tagged_Ok {X} s (f : RefName → ObjectId → option Object → list X) prefix out :
  be_inv (r_refs s) → list_tagged s f prefix = Ok out →
  ∃ names, NoDup names ∧ (∀ n, n ∈ names ↔ is_Some (be_view (r_refs s) !! n) ∧ String.prefix prefix (as_str n) = true) ∧
    out = names ≫= listed s f.
Proof.
  intros Hi. unfold list_tagged. intros (names & Hn & Hc)%bind_Ok. destruct (be_list_Ok _ _ _ Hi Hn) as (Hnd & _ & Hin).
  exists names. split; [done|]. split; [done|]. apply collect_tagged_Ok; [done| |done].
  apply Forall_forall. intros n [[r Hr] _]%Hin. by eapply be_view_valid.
Qed.

(** In a state that keeps the invariant a listing of public names is made of the current
    records under them. *)
Lemma listed_public {X} s (f : RefName → ObjectId → option Object → list X) n : pub_ok s → is_Some (be_view (r_refs s) !! n) → is_public (as_str n) →
  ∃ r x, current_record s r ∧ record_name r = as_str n ∧ record_valid r = true ∧ listed s f n = f n x (Some (record_object r)).
Proof.
  intros Hp [v Hv] Hn. destruct (po_records s Hp n v Hv Hn) as (r & Hr & Hname & Hval).
  pose proof Hr as (t & Ht & Ho). exists r, (tag_target t). split_and!; [done..|]. unfold listed.
  assert (n = MkRefName (record_name r)) as -> by (rewrite Hname; by destruct n). by rewrite Ht, Ho.
Qed.

Lemma listed_current {X} s (f : RefName → ObjectId → option Object → list X) r : current_record s r →
  is_Some (be_view (r_refs s) !! MkRefName (record_name r)) ∧
  ∃ x, listed s f (MkRefName (record_name r)) = f (MkRefName (record_name r)) x (Some (record_object r)).
Proof. intros (t & Ht & Ho). unfold listed. rewrite Ht, Ho. split; [by eexists|by eexists]. Qed.

(** The kind of a record is in its name. *)
Definition dir_of (k : RecordKind) : string :=
  COLLAB_PUBLIC_PREFIX +:+ match k with KProfile => "profile/" | KEdge => "edge/" | KRepo => "repo/" end.
Lemma record_name_dir k r : String.prefix (dir_of k) (record_name r) = bool_decide (kind_of r = k).
Proof.
  destruct k, r; try reflexivity; rewrite bool_decide_eq_true_2 by done.
  - apply (prefix_app (dir_of KProfile)).
  - apply (prefix_app (dir_of KEdge)).
  - apply (prefix_app (dir_of KRepo)).
Qed.
Lemma dir_public k : is_public (dir_of k).
Proof. apply prefix_app. Qed.

(** The listing of a directory of the public namespace, when the loop adds [g r] for a
    record [r]. *)
Lemma list_dir {X} s (f : RefName → ObjectId → option Object → list X) (g : PublicRecord → list X) k out : pub_ok s →
  (∀ n x r, record_valid r = true → kind_of r = k → f n x (Some (record_object r)) = g r) →
  list_tagged s f (dir_of k) = Ok out →
  ∃ rs, NoDup rs ∧ (∀ r, r ∈ rs ↔ current_record s r ∧ kind_of r = k) ∧ Forall (λ r, record_valid r = true) rs ∧ out = rs ≫= g.
Proof.
  intros Hp Hf Hl. destruct (list_tagged_Ok s f _ out (po_inv s Hp) Hl) as (names & Hnd & Hin & ->).
  assert (∀ l, (∀ n, n ∈ l → n ∈ names) → ∃ rs, MkRefName <$> (record_name <$> rs) = l ∧
    Forall (λ r, current_record s r ∧ record_valid r = true ∧ kind_of r = k) rs ∧ l ≫= listed s f = rs ≫= g) as Hrs.
  { induction l as [|n l IH]; intros Hl'; [by exists []|].
    destruct (IH (λ m Hm, Hl' m ltac:(by right))) as (rs & <- & Hall & Heq).
    destruct (Hin n) as [[Hv Hpre] _]; [by apply Hl'; left|].
    destruct (listed_public s f n Hp Hv (prefix_trans _ _ _ (dir_public k) Hpre)) as (r & x & Hr & Hname & Hval & Hlist).
    assert (kind_of r = k) as Hd by (by rewrite <- Hname, record_name_dir, bool_decide_eq_true in Hpre).
    exists (r :: rs). split_and!.
    - simpl. f_equal. rewrite Hname. by destruct n.
    - by constructor.
    - cbn [mbind list_bind]. rewrite Hlist, (Hf n x r) by done. f_equal. exact Heq. }
  destruct (Hrs names (λ n Hn, Hn)) as (rs & <- & Hall & Heq). rewrite Forall_forall in Hall. exists rs. split_and!; [|intros r; split..| |done].
  - by apply NoDup_fmap_1, NoDup_fmap_1 in Hnd.
  - intros Hr%Hall. tauto.
  - intros [Hr Hd]. assert (MkRefName (record_name r) ∈ MkRefName <$> (record_name <$> rs)) as Hm.
    { apply Hin. destruct (listed_current s f r Hr) as [Hv _]. split; [done|]. cbn [as_str].
      by rewrite record_name_dir, bool_decide_eq_true. }
    apply list_elem_of_fmap in Hm as (m & [= <-] & (r' & Hname & Hr')%list_elem_of_fmap).
    destruct (Hall r' Hr') as (Hcur & _). unfold current_record in Hr, Hcur. rewrite <- Hname in Hcur.
    by rewrite (inj record_object r r') by by eapply published_fun.
  - apply Forall_forall. intros r Hr%Hall. tauto.
Qed.

(** ** What is served *)
Definition collab_record (o : CollabObject) : PublicRecord :=
  match o with CProfile p => PubProfile p | CTrustEdge e => PubEdge e end.
Definition collab_of (r : PublicRecord) : option CollabObject :=
  match r with PubProfile p => Some (CProfile p) | PubEdge e => Some (CTrustEdge e) | PubRepo _ => None end.
Definition profile_in (r : PublicRecord) : list Profile := match r with PubProfile p => [p] | _ => [] end.
Definition edge_in (r : PublicRecord) : list TrustEdge := match r with PubEdge e => [e] | _ => [] end.

(** The records of a directory that [g] maps to one value each. *)
Lemma bind_current {X} (rs : list PublicRecord) (mk : X → PublicRecord) (g : PublicRecord → list X) :
  (∀ x, g (mk x) = [x]) → (∀ r x, x ∈ g r → r = mk x) → (∀ r, NoDup (g r)) → NoDup rs →
  NoDup (rs ≫= g) ∧ ∀ x, x ∈ rs ≫= g ↔ mk x ∈ rs.
Proof.
  intros Hmk Hinv Hnd Hrs. split.
  - apply NoDup_bind; [|done..]. intros r r' x _ _ ->%Hinv ->%Hinv. done.
  - intros x. rewrite list_elem_of_bind. split; [by intros (r & ->%Hinv & ?)|]. intros Hx. exists (mk x). rewrite Hmk. split; [by left|done].
Qed.

Lemma list_dir_records {X} s f (g : PublicRecord → list X) (mk : X → PublicRecord) k out : pub_ok s →
  (∀ n x r, record_valid r = true → kind_of r = k → f n x (Some (record_object r)) = g r) →
  (∀ x, g (mk x) = [x]) → (∀ r x, x ∈ g r → r = mk x) → (∀ r, NoDup (g r)) → (∀ x, kind_of (mk x) = k) →
  list_tagged s f (dir_of k) = Ok out →
  NoDup out ∧ ∀ x, x ∈ out ↔ current_record s (mk x).
Proof.
  intros Hp Hf Hmk Hinv Hnd Hkind Hl. destruct (list_dir s f g k out Hp Hf Hl) as (rs & Hrs & Hin & Hval & ->).
  destruct (bind_current rs mk g Hmk Hinv Hnd Hrs) as [Hnd' Hin']. split; [done|]. intros x. rewrite Hin', Hin. naive_solver.
Qed.

Lemma public_profiles_Ok s ps : pub_ok s → public_profiles s = Ok ps →
  NoDup ps ∧ ∀ p, p ∈ ps ↔ current_record s (PubProfile p).
Proof.
  intros Hp. apply (list_dir_records s _ profile_in PubProfile KProfile ps Hp); [by intros n x [] _ [=]|done| | |done].
  - intros [] ? Hx; simpl in Hx; set_solver.
  - intros []; repeat constructor; apply not_elem_of_nil.
Qed.
Lemma public_edges_Ok s es : pub_ok s → public_edges s = Ok es →
  NoDup es ∧ ∀ e, e ∈ es ↔ current_record s (PubEdge e).
Proof.
  intros Hp. apply (list_dir_records s _ edge_in PubEdge KEdge es Hp); [by intros n x [] _ [=]|done| | |done].
  - intros [] ? Hx; simpl in Hx; set_solver.
  - intros []; repeat constructor; apply not_elem_of_nil.
Qed.

#[local] Instance CProfile_inj : Inj (=) (=) CProfile.
Proof. by intros ? ? [=]. Qed.
#[local] Instance CTrustEdge_inj : Inj (=) (=) CTrustEdge.
Proof. by intros ? ? [=]. Qed.

(** A current record carries a verifying signature. *)
Lemma current_valid s r : pub_ok s → current_record s r → record_valid r = true.
Proof.
  intros Hp Hr. pose proof Hr as (t & Ht & _).
  destruct (po_records s Hp _ _ Ht (record_name_public r)) as (r' & Hr' & Hname & Hv).
  unfold current_record in Hr'. rewrite Hname in Hr'. cbn [as_str] in Hr'. by rewrite (inj record_object r r') by by eapply published_fun.
Qed.
Lemma current_fun s r r' : record_name r = record_name r' → current_record s r → current_record s r' → r = r'.
Proof. unfold current_record. intros -> Hr Hr'. apply (inj record_object). by eapply published_fun. Qed.

(** What a repository offers for search is exactly its current profiles and trust
    edges, each once, all with verifying signatures, and at most one profile per key. *)
Theorem repo_public_objects_exact (s : Repo) (out : list CollabObject) : pub_ok s → repo_public_objects s = Ok out →
  NoDup out ∧ (∀ o, o ∈ out ↔ current_record s (collab_record o)) ∧ (∀ o, o ∈ out → verified o = true) ∧
  ∀ p q, CProfile p ∈ out → CProfile q ∈ out → profile_key p = profile_key q → p = q.
Proof.
  intros Hp. unfold repo_public_objects. intros (ps & Hps & (es & Hes & [= <-])%bind_Ok)%bind_Ok.
  destruct (public_profiles_Ok s ps Hp Hps) as [Hnp Hp']. destruct (public_edges_Ok s es Hp Hes) as [Hne He'].
  assert (∀ o, o ∈ (CProfile <$> ps) ++ (CTrustEdge <$> es) ↔ current_record s (collab_record o)) as Hin.
  { intros o. rewrite elem_of_app, !list_elem_of_fmap. destruct o as [p|e]; cbn [collab_record]; rewrite <- ?Hp', <- ?He'; naive_solver. }
  split; [|split; [done|split]].
  - apply NoDup_app. split; [by apply (NoDup_fmap_2 _)|]. split; [|by apply (NoDup_fmap_2 _)].
    intros o (p & -> & _)%list_elem_of_fmap (e & [=] & _)%list_elem_of_fmap.
  - intros o Ho%Hin%current_valid; [|done]. by destruct o.
  - intros p q Hpo%Hin Hqo%Hin Hk. assert (PubProfile p = PubProfile q) as [= ->]; [|done].
    apply (current_fun s); [|done..]. simpl. by rewrite Hk.
Qed.

Lemma scan_dir s f k out : pub_ok s →
  (∀ n x r, record_valid r = true → kind_of r = k → f n x (Some (record_object r)) = []) →
  list_tagged s f (dir_of k) = Ok out → out = ([] : list (RefName * string)).
Proof.
  intros Hp Hf Hl. destruct (list_dir s f (λ _, []) k out Hp Hf Hl) as (rs & _ & _ & _ & ->).
  clear Hl. induction rs as [|r rs IH]; [done|exact IH].
Qed.

(** The scan for records with bad signatures reports nothing on a repository
    whose public names were only written by the repository. *)
Theorem scan_invalid_clean (s s' : Repo) (bad : list (RefName * string)) : pub_ok s → rtc collab_step s s' →
  scan_invalid_collab_signatures s' = Ok bad → bad = [].
Proof.
  intros Hs Hrun. destruct (history_ok s s' Hrun Hs) as [Hp _]. unfold scan_invalid_collab_signatures.
  intros (b1 & Hb1 & (b2 & Hb2 & (b3 & Hb3 & [= <-])%bind_Ok)%bind_Ok)%bind_Ok.
  apply (scan_dir s' _ KProfile) in Hb1 as ->; [|done|]. apply (scan_dir s' _ KEdge) in Hb2 as ->; [|done|].
  apply (scan_dir s' _ KRepo) in Hb3 as ->; [|done|]. done.
  all: intros n x [] Hv [=]; cbn in *; by rewrite Hv.
Qed.
End history.

(** ** Publishing in memory *)
Section memory.
Context `{IoText, Ed25519}.
Context {A : Type} `{AclBackend A}.
Context `{ObjectCodec, Postcard, RelayCodec}.
Abbreviation MemRepo := (Repository MemoryRefBackend A).
Implicit Types s : MemRepo.

Lemma set_tag_memory n x s : ∃ refs, set_tag n x s = (Ok (), set_refs refs s).
Proof.
  unfold set_tag, on_refs.
  assert (∃ b, commit_transaction [SetRef n (RTag (MkTag x 0 None))] (r_refs s) = (Ok (), b)) as [b ->]; [|by eexists].
  unfold commit_transaction, gets, mbind, M_bind, resolve.
  destruct (res_fold (resolve_op (be_get (r_refs s))) ∅ _) as [o|e] eqn:Ho; [|done]. cbn [mbind result_bind].
  destruct (mem_apply (r_refs s) (btree_iter o)) as (b & Hb & _). by exists b.
Qed.

(** The names of profiles and edges are ref names; that of a repository record is one
    when the repository's name is made of segments. *)
Definition nameable (r : PublicRecord) : Prop :=
  match r with PubRepo rr => is_Ok (RefName_new (record_name r)) = true | _ => True end.

Lemma fingerprint_plain k : fingerprint k ≠ "" ∧ plain (fingerprint k) = true.
Proof.
  split; [|apply plain_hex]. apply hex_ne. intros Hv%(f_equal length). by rewrite length_vec_to_list in Hv.
Qed.
Lemma record_name_ref r : nameable r → RefName_new (record_name r) = Ok (MkRefName (record_name r)).
Proof.
  assert (∀ b n k, RefName_new b = Ok n → RefName_new (b +:+ "/" +:+ fingerprint k) = Ok (MkRefName (b +:+ "/" +:+ fingerprint k))) as Hfp.
  { intros b n k Hb. destruct (fingerprint_plain k). by eapply RefName_new_plain. }
  destruct r as [p|e|rr]; cbn [nameable].
  - intros _. by apply (Hfp "refs/collab/public/profile" (MkRefName "refs/collab/public/profile")).
  - intros _. pose proof (Hfp "refs/collab/public/edge" _ (from_key e) eq_refl) as Hfrom.
    assert (∃ n, RefName_new (("refs/collab/public/edge/" +:+ fingerprint (from_key e)) +:+ "/" +:+ kind_seg (edge_kind e)) = Ok n) as [n Hk].
    { eexists. eapply RefName_new_plain; [exact Hfrom|by destruct (edge_kind e)|by destruct (edge_kind e)]. }
    specialize (Hfp _ _ (to_key e) Hk). rewrite !string_app_assoc in Hfp. exact Hfp.
  - destruct (RefName_new (record_name (PubRepo rr))) as [n|] eqn:Hn; [|done]. intros _. by pose proof Hn as [-> _]%RefName_new_Ok.
Qed.

Lemma tag_object_memory s n : pub_ok s → is_public (as_str n) → ∃ obj, tag_object s n = Ok obj.
Proof.
  intros Hp Hn. unfold tag_object. destruct (be_view (r_refs s) !! n) as [v|] eqn:Hview.
  - destruct (po_records s Hp n v Hview Hn) as (c & Hc & Hname & _).
    eexists. apply (tag_object_published s n (record_object c) (po_inv s Hp)).
    unfold current_record in Hc. rewrite Hname in Hc. by destruct n.
  - exists None. unfold get_tag. simpl in *. unfold mem_get. rewrite mem_view_lookup in Hview. by rewrite Hview.
Qed.

(** [C31] In a repository on the in-memory backends where every public name already carries a record
    that verifies and that the name is derived from, and for a record whose id no other stored
    object has: publishing succeeds exactly when the record's
    signature verifies, its name is a ref name, the object can be stored, and no current
    record of that name has a sequence number that is not smaller; the record is then
    the current one under its name. *)
Theorem publish_succeeds_iff (s : MemRepo) (r : PublicRecord) : pub_ok s → free_for (r_objects s) (record_object r) →
  match publish r s with
  | (Ok x, s') => obj_id (record_object r) = Ok x ∧ current_record s' r ∧
      record_valid r = true ∧ ∀ c, record_name c = record_name r → current_record s c → (record_seq c < record_seq r)%N
  | (Err _, s') => s' = s ∧
      ¬ (record_valid r = true ∧ nameable r ∧ is_Ok (serialize (record_object r)) = true ∧
         ∀ c, record_name c = record_name r → current_record s c → (record_seq c < record_seq r)%N)
  end.
Proof.
  intros Hp Hf. destruct (publish r s) as [[x|e] s'] eqn:Hpub.
  - destruct (publish_Ok r s x s' (po_inv s Hp) Hpub) as (Hv & Hpin & Hnew). split_and!; [apply Hpin|by eapply pinned_published|done|done].
  - rewrite publish_unfold in Hpub. destruct (record_valid r) eqn:Hv; [|injection Hpub as _ <-; naive_solver]. cbn [negb] in Hpub.
    rewrite lift_bind in Hpub. destruct (RefName_new (record_name r)) as [n|e'] eqn:Hn.
    2:{ injection Hpub as _ <-. split; [done|]. intros (_ & Hname & _). apply record_name_ref in Hname. congruence. }
    rewrite gets_bind in Hpub. pose proof Hn as [Hm _]%RefName_new_valid.
    destruct (tag_object_memory s n Hp) as [obj Ho]; [rewrite Hm; apply record_name_public|].
    rewrite Ho in Hpub. destruct (stale r obj) eqn:Hst.
    + injection Hpub as _ <-. split; [done|]. intros (_ & _ & _ & Hnew).
      destruct (stale_record s r n obj Hp Hn Ho Hst) as (c & Hname & Hc & Hle). specialize (Hnew c Hname Hc). lia.
    + destruct (repo_put (record_object r) s) as [[x|e'] s1] eqn:Hput.
      * destruct (set_tag_memory n x s1) as [refs Hset]. unfold mbind, M_bind in Hpub. by rewrite Hput, Hset in Hpub.
      * unfold mbind at 1, M_bind in Hpub. rewrite Hput in Hpub. injection Hpub as _ <-.
        unfold repo_put in Hput. rewrite lift_bind in Hput. destruct (serialize (record_object r)); [done|].
        injection Hput as _ <-. split; [done|]. by intros (_ & _ & ? & _).
Qed.
End memory.

(** ** On concrete data: two versions of one profile *)
#[local] Existing Instance demo_io_text.
#[local] Existing Instance toy_ed25519.
Definition ex_postcard : Postcard := {|
  pc_profile m := str_bytes (pm_display_name m); pc_edge _ := []; pc_proposal _ := []; pc_comment _ := []; pc_post _ := []; pc_repo _ := [] |}.
#[local] Existing Instance ex_postcard.

Definition ex_alice (name : string) (seq : N) : Profile := sign_profile zero_seed name "" [] [] seq.
Definition ex_collab_codec : ObjectCodec :=
  table_codec [(OCollab (CProfile (ex_alice "Alice" 1)), [x01]); (OCollab (CProfile (ex_alice "Alice B" 2)), [x02])].
#[local] Existing Instance ex_collab_codec.
Definition ex_relay_codec : RelayCodec := {| pin_to_bytes p := str_bytes (pin_endpoint p); pin_from_bytes _ := None |}.
#[local] Existing Instance ex_relay_codec.

Definition ex_empty : Repository MemoryRefBackend MemoryAclBackend := MkRepo ∅ ∅ ex_acls [] None.
Definition ex_after (r : PublicRecord) (s : Repository MemoryRefBackend MemoryAclBackend) : Repository MemoryRefBackend MemoryAclBackend := snd (publish r s).
Definition ex_v1 : PublicRecord := PubProfile (ex_alice "Alice" 1).
Definition ex_v2 : PublicRecord := PubProfile (ex_alice "Alice B" 2).

Lemma ex_empty_ok : pub_ok ex_empty.
Proof. split; [intros k r Hk; cbn in Hk; by rewrite lookup_empty in Hk|]. intros n v Hv. cbn in Hv. by rewrite mem_view_lookup, lookup_empty in Hv. Qed.
Lemma ex_free_v1 : free_for (r_objects ex_empty) (record_object ex_v1).
Proof. intros x r _ Hx. cbn in Hx. by rewrite lookup_empty in Hx. Qed.
Lemma ex_after_eq r s x : (publish r s).1 = Ok x → publish r s = (Ok x, ex_after r s).
Proof. intros <-. apply surjective_pairing. Qed.
Lemma ex_publish_v1 : publish ex_v1 ex_empty = (Ok (ObjectId_new (pad_vec 32 [x01])), ex_after ex_v1 ex_empty).
Proof. apply ex_after_eq. vm_compute. reflexivity. Qed.
Lemma ex_publish_v2 :
  publish ex_v2 (ex_after ex_v1 ex_empty) = (Ok (ObjectId_new (pad_vec 32 [x02])), ex_after ex_v2 (ex_after ex_v1 ex_empty)).
Proof. apply ex_after_eq. vm_compute. reflexivity. Qed.
Lemma ex_ok_v1 : pub_ok (ex_after ex_v1 ex_empty).
Proof. exact (proj1 (publish_step ex_v1 _ _ _ ex_empty_ok ex_free_v1 ex_publish_v1)). Qed.
Lemma ex_free_v2 : free_for (r_objects (ex_after ex_v1 ex_empty)) (record_object ex_v2).
Proof.
  intros x r Hx. assert (x = ObjectId_new (pad_vec 32 [x02])) as -> by (vm_compute in Hx; by injection Hx as <-).
  assert (r_objects (ex_after ex_v1 ex_empty) !! ObjectId_new (pad_vec 32 [x02]) = None) as -> by (vm_compute; reflexivity). done.
Qed.

Lemma publication_history_witness :
  pub_ok (ex_after ex_v2 (ex_after ex_v1 ex_empty)) ∧
  ∃ r', current_record (ex_after ex_v2 (ex_after ex_v1 ex_empty)) r' ∧ record_name r' = record_name ex_v1.
Proof.
  destruct (publication_history (ex_after ex_v1 ex_empty) (ex_after ex_v2 (ex_after ex_v1 ex_empty)) ex_ok_v1) as [Hok2 Hadv].
  { exact (rtc_once _ _ (step_publish ex_v2 (ex_after ex_v1 ex_empty) _ (ex_after ex_v2 (ex_after ex_v1 ex_empty)) ex_free_v2 ex_publish_v2)). }
  split; [exact Hok2|].
  assert (current_record (ex_after ex_v1 ex_empty) ex_v1) as Hc.
  { destruct (publish_Ok ex_v1 _ _ _ (po_inv _ ex_empty_ok) ex_publish_v1) as (_ & Hpin & _).
    exact (pinned_published ex_empty _ _ _ _ Hpin ex_free_v1). }
  pose proof (Hadv ex_v1 Hc) as Hr. clear -Hr. destruct Hr as (r' & Hr' & Hn & _). exists r'. split; [exact Hr'|exact Hn].
Defined.

Lemma publish_succeeds_iff_witness :
  current_record (ex_after ex_v2 (ex_after ex_v1 ex_empty)) ex_v2 ∧ (publish ex_v1 ex_empty).1 = Ok (ObjectId_new (pad_vec 32 [x01])).
Proof.
  pose proof (publish_succeeds_iff (ex_after ex_v1 ex_empty) ex_v2 ex_ok_v1 ex_free_v2) as Hiff. rewrite ex_publish_v2 in Hiff.
  split; [apply Hiff|]. by rewrite ex_publish_v1.
Defined.

Lemma repo_public_objects_exact_witness :
  ∃ out, repo_public_objects (ex_after ex_v1 ex_empty) = Ok out ∧ NoDup out.
Proof.
  exists [CProfile (ex_alice "Alice" 1)].
  assert (repo_public_objects (ex_after ex_v1 ex_empty) = Ok [CProfile (ex_alice "Alice" 1)]) as Ho by (vm_compute; reflexivity).
  split; [exact Ho|]. exact (proj1 (repo_public_objects_exact (ex_after ex_v1 ex_empty) _ ex_ok_v1 Ho)).
Defined.

Lemma scan_invalid_clean_witness : pub_ok ex_empty ∧ scan_invalid_collab_signatures (ex_after ex_v1 ex_empty) = Ok [].
Proof.
  split; [exact ex_empty_ok|].
  destruct (scan_invalid_collab_signatures (ex_after ex_v1 ex_empty)) as [bad|e] eqn:Hb; [|exfalso; vm_compute in Hb; discriminate Hb].
  f_equal. apply (scan_invalid_clean ex_empty (ex_after ex_v1 ex_empty) bad ex_empty_ok); [|exact Hb].
  exact (rtc_once _ _ (step_publish ex_v1 ex_empty _ (ex_after ex_v1 ex_empty) ex_free_v1 ex_publish_v1)).
Defined.
