(* ===== verification/Propose.v ===== *)
(** * Propose: merging a change proposal

    [Repository::merge_proposal] of src/src/repo/pr.rs, composed of the operations it
    calls: the stored proposal ([Collab.v]), the three-way merge of the two heads
    ([Repo.v], [Merge.v]), the tree and the snapshot of the result ([Ephemeral.v]) and
    the gated advance of the target ([Repo.v]).

    The theorem: a merge that is applied went from the heads that were compared to a
    snapshot of the merged files with both heads as parents, under the full authority an
    advance needs; a conflicting one changes nothing, a failing one moves no ref. *)

From S2P Require Import Prelude Graph Ids Text Lattice Access Objects Refs RefStore Signing Policy Authority Merge Store Acl Walk Repo Ephemeral Worktree Bfs Order Trust Discovery Collab.

(** [enum ProposalMerge] *)
Inductive ProposalMerge : Type :=
| Merged (snapshot : ObjectId)
| Conflicts (paths : list MergeConflict).

Definition err_no_proposal (id : ObjectId) : Error := Storage ("proposal not found: " +:+ id_to_string id).
Definition err_no_source (name : string) : Error := Storage ("source timeline not found: " +:+ name).
Definition err_no_target (name : string) : Error := Storage ("target timeline not found: " +:+ name).

Section put_merge.
Context {S : Type} `{Puts S}.
(** The tree of the merged files, then the merge snapshot. *)
Definition put_merge (files : gmap string ObjectId) (parents : list ObjectId) (author : string) (created_at : N)
    (message : string) : M S ObjectId :=
  root ← build_tree files;
  put_obj (OSnapshot (MkSnapshot root parents author created_at message)).
End put_merge.

Section propose.
Context {R : Type} `{RefBackend R, IoText, Ed25519}.
Context {A : Type} `{AclBackend A}.
Context `{ObjectCodec, Postcard}.
Abbreviation Repo := (Repository R A).
Implicit Types s : Repo.

(** A computation on the object store of the repository. *)
Definition on_objects {X} (m : M objects X) : M Repo X := λ s,
  let '(r, os) := m (r_objects s) in (r, set_objects os s).

Definition merge_proposal (id : ObjectId) (author : string) (created_at : N) (message : string) (accessor : Accessor)
    : M Repo ProposalMerge :=
  op ← gets (λ s, get_proposal s id);
  p ← lift_res (ok_or op (err_no_proposal id));
  source ← lift_res (RefName_new (prop_source p));
  target ← lift_res (RefName_new (prop_target p));
  so ← gets (λ s, get_timeline (r_refs s) source);
  source_tl ← lift_res (ok_or so (err_no_source (prop_source p)));
  ta ← gets (λ s, get_timeline (r_refs s) target);
  target_tl ← lift_res (ok_or ta (err_no_target (prop_target p)));
  result ← gets (λ s, merge_timelines s source target accessor);
  if negb (bool_decide (conflicts result = [])) then mret (Conflicts (conflicts result))
  else
    snap ← on_objects (put_merge (merged result) [head target_tl; head source_tl] author created_at message);
    _ ← advance_timeline_expecting target snap (Some (head target_tl)) accessor;
    mret (Merged snap).
End propose.

(** ** Storing the merge *)
Section storing.
Context `{ObjectCodec}.
Context (files : gmap string ObjectId) (ps : list ObjectId) (author : string) (t : N) (msg : string).
Abbreviation merge_snapshot root := (MkSnapshot root ps author t msg).

(** Where all that [put_merge] writes is stored, the snapshot is there and its tree holds
    the files. *)
Lemma put_merge_emits : ∃ r objs, emits (put_merge files ps author t msg) (put_merge files ps author t msg) r objs ∧
  ∀ x, r = Ok x → ∃ root, ∀ st, holds objs st →
    st !! x = Some (Ok (OSnapshot (merge_snapshot root))) ∧ stored st (dir_of files) root.
Proof.
  destruct (store_dir_emits (dir_of files) (dir_of_wf files)) as ([root|e] & l & Hem & Hst);
    change (emits (build_tree files) (build_tree files)) with (emits (A := ObjectId) (build_tree files) (build_tree files)) in Hem.
  - exists (obj_id (OSnapshot (merge_snapshot root))), (l ++ [OSnapshot (merge_snapshot root)]).
    split; [eapply emits_bind; [exact Hem|apply emits_put]|]. intros x Hx. exists root.
    intros st [Hl Hs]%holds_app. split; [apply Hs; [by left|done]|by apply Hst].
  - exists (Err e), l. split; [|done]. eapply emits_bind_Err. exact Hem.
Qed.

Lemma put_merge_Ok (os : objects) x os' : put_merge files ps author t msg os = (Ok x, os') →
  os ⊆ os' ∧ (collision_free (written (put_merge files ps author t msg)) os →
    ∃ root, os' !! x = Some (Ok (OSnapshot (merge_snapshot root))) ∧
      ((∀ p, is_Some (files !! p) → rooted p = false) →
       ∃ out, walk_tree os' root "" ∅ = Ok out ∧ ∀ p f, out !! p = Some f ↔ files !! p = Some f ∧ ¬ shadowed files p)).
Proof.
  destruct put_merge_emits as (r & objs & Hem & Hx). rewrite (proj1 Hem os). intros [= -> <-].
  split; [apply put_all_keeps|]. rewrite (emits_written _ _ _ _ Hem). intros Hcol.
  destruct (Hx x eq_refl) as [root Hroot]. destruct (Hroot _ (put_all_holds _ _ Hcol)) as [Hs Hst].
  exists root. split; [done|]. intros Hr. by apply walk_tree_files.
Qed.
Lemma put_merge_grows (os : objects) r os' : put_merge files ps author t msg os = (r, os') → os ⊆ os'.
Proof. destruct put_merge_emits as (r' & objs & Hem & _). rewrite (proj1 Hem os). intros [= _ <-]. apply put_all_keeps. Qed.
End storing.

(** ** The merge of a proposal *)
Section theorems.
Context {R : Type} `{RefBackendLaws R, IoText, Ed25519}.
Context {A : Type} `{AclLaws A}.
Context `{ObjectCodec, Postcard}.
Abbreviation Repo := (Repository R A).
Implicit Types s : Repo.

(** The proposal and the two heads a merge starts from. *)
Record merge_input s (id : ObjectId) (accessor : Accessor) (p : ChangeProposal) (source target : RefName) (st tt : Timeline)
    (m : MergeResult) : Prop := {
  mi_proposal : r_objects s !! id = Some (Ok (OChangeProposal p)) ∧ verify_proposal p = true;
  mi_source : as_str source = prop_source p ∧ be_view (r_refs s) !! source = Some (RTimeline st);
  mi_target : as_str target = prop_target p ∧ be_view (r_refs s) !! target = Some (RTimeline tt);
  mi_merge : merge_timelines s source target accessor = Ok m
}.

Lemma on_objects_eq {X} (m : M objects X) s : on_objects m s = ((m (r_objects s)).1, set_objects (m (r_objects s)).2 s).
Proof. unfold on_objects. by destruct (m (r_objects s)). Qed.

(** The reads of [merge_proposal], then its writes. *)
Lemma merge_proposal_cases id author t msg a s : be_inv (r_refs s) →
  (∃ e, merge_proposal id author t msg a s = (Err e, s)) ∨
  ∃ p source target st tt m, merge_input s id a p source target st tt m ∧ valid_name target ∧
    merge_proposal id author t msg a s =
      if bool_decide (conflicts m = []) then
        (snap ← on_objects (put_merge (merged m) [head tt; head st] author t msg);
         _ ← advance_timeline_expecting target snap (Some (head tt)) a;
         mret (Merged snap)) s
      else (Ok (Conflicts (conflicts m)), s).
Proof.
  intros Hi. unfold merge_proposal. rewrite gets_bind.
  destruct (get_proposal s id) as [[p|]|e] eqn:Hp; [|left; by eexists..]. rewrite !lift_bind. cbn [ok_or].
  destruct (RefName_new (prop_source p)) as [source|e] eqn:Hs; [|left; by eexists]. rewrite lift_bind.
  destruct (RefName_new (prop_target p)) as [target|e] eqn:Ht; [|left; by eexists]. rewrite lift_bind, gets_bind.
  destruct (get_timeline (r_refs s) source) as [[st|]|e] eqn:Hst; [|left; by eexists..]. rewrite lift_bind. cbn [ok_or]. rewrite gets_bind.
  destruct (get_timeline (r_refs s) target) as [[tt|]|e] eqn:Htt; [|left; by eexists..]. rewrite lift_bind. cbn [ok_or]. rewrite gets_bind.
  destruct (merge_timelines s source target a) as [m|e] eqn:Hm; [|left; by eexists].
  right. exists p, source, target, st, tt, m. apply RefName_new_valid in Hs as [Hs Hsv], Ht as [Ht Htv]. split; [|split; [done|]].
  - split; [|split; [done|by apply get_timeline_view]|split; [done|by apply get_timeline_view]|done].
    unfold get_proposal in Hp. apply bind_Ok in Hp as (obj & Ho & Hobj). injection Hobj as Hobj.
    unfold proposal_of in Hobj. destruct obj as [[]|]; try done. destruct (verify_proposal p0) eqn:Hv; [|done].
    injection Hobj as ->. split; [by apply os_get_Some|done].
  - by case_bool_decide.
Qed.

(** Merging a proposal.  When it is applied: the proposal is stored and signed, the
    three-way merge of the two heads has no conflict, the target moves from the head that
    was compared to the new snapshot and no other ref changes, under every check of an
    advance (labels of all paths of both snapshots, all hooks, the timeline's policy);
    and the snapshot has the two heads as parents and exactly the merged files, except
    files hidden by a directory of the same name.  When the merge conflicts nothing
    changes at all.  When it fails no ref moves, unless the final commit itself failed in
    the ref backend. *)
Theorem merge_proposal_gated (s s' : Repo) (id : ObjectId) (author : string) (t : N) (msg : string) (a : Accessor)
    (r : res ProposalMerge) :
  be_inv (r_refs s) → merge_proposal id author t msg a s = (r, s') →
  match r with
  | Ok (Merged x) => ∃ p source target st tt m, merge_input s id a p source target st tt m ∧ conflicts m = [] ∧
      advance_authorised (set_objects (r_objects s') s) target x (Some (head tt)) a tt ∧
      be_view (r_refs s') = <[target := RTimeline (with_head tt x)]> (be_view (r_refs s)) ∧
      r_objects s ⊆ r_objects s' ∧
      (collision_free (written (put_merge (merged m) [head tt; head st] author t msg)) (r_objects s) →
        ∃ root, r_objects s' !! x = Some (Ok (OSnapshot (MkSnapshot root [head tt; head st] author t msg))) ∧
          ((∀ q, is_Some (merged m !! q) → rooted q = false) →
           ∃ out, walk_tree (r_objects s') root "" ∅ = Ok out ∧
             ∀ q f, out !! q = Some f ↔ merged m !! q = Some f ∧ ¬ shadowed (merged m) q))
  | Ok (Conflicts cs) => s' = s ∧ cs ≠ [] ∧ ∃ p source target st tt m,
      merge_input s id a p source target st tt m ∧ cs = conflicts m
  | Err e => r_objects s ⊆ r_objects s' ∧
      (r_refs s' = r_refs s ∨ ∃ target old x,
         commit_transaction [AdvanceHeadIf target old x] (r_refs s) = (Err e, r_refs s'))
  end.
Proof.
  intros Hi Hm. destruct (merge_proposal_cases id author t msg a s Hi) as [[e He]|(p & source & target & st & tt & m & Hin & Hv & Heq)].
  { rewrite He in Hm. injection Hm as <- <-. split; [done|by left]. }
  rewrite Heq in Hm. case_bool_decide as Hc; [|injection Hm as <- <-; split; [done|]; split; [done|]; by eauto 10].
  unfold mbind, M_bind in Hm. rewrite on_objects_eq in Hm.
  destruct (put_merge (merged m) [head tt; head st] author t msg (r_objects s)) as [[x|e] os] eqn:Hput; cbn [fst snd] in Hm.
  2:{ injection Hm as <- <-. split; [by eapply put_merge_grows|by left]. }
  destruct (put_merge_Ok _ _ _ _ _ _ _ _ Hput) as [Hsub Hstored].
  destruct (advance_timeline_expecting target x (Some (head tt)) a (set_objects os s)) as [[[]|e] s2] eqn:Hadv;
    pose proof (advance_spec (set_objects os s) s2 target x (Some (head tt)) a _ Hi Hv Hadv) as Hspec;
    injection Hm as <- <-.
  - destruct Hspec as (tl & Hauth & _ & Hview & (Ho & _)). cbn in Ho.
    assert (tl = tt) as ->.
    { pose proof (aa_current _ _ _ _ _ _ Hauth) as Hcur. destruct (mi_target _ _ _ _ _ _ _ _ _ Hin) as [_ Ht].
      cbn in Hcur. rewrite Ht in Hcur. by injection Hcur. }
    exists p, source, target, st, tt, m. rewrite Ho. done.
  - destruct Hspec as [(Ho & Hr & _)|(old & Hcom & (Ho & _))]; cbn in Ho; rewrite Ho; (split; [done|]).
    + left. exact Hr.
    + right. by exists target, old, x.
Qed.
End theorems.

(** ** On concrete data: a clean merge of one proposal *)
#[local] Existing Instance demo_io_text.
#[local] Existing Instance toy_ed25519.
Definition ex_proposal_postcard : Postcard := {|
  pc_profile _ := []; pc_edge _ := []; pc_proposal m := str_bytes (qm_title m); pc_comment _ := []; pc_post _ := []; pc_repo _ := [] |}.
#[local] Existing Instance ex_proposal_postcard.
Definition ex_merge_codec : ObjectCodec := table_codec
  [(OTree (MkTree {[ "a" := MkTreeEntry (ex_id x22) KindBlob ]}), [x12]);
   (OSnapshot (MkSnapshot (ex_id x12) [ex_id x01; ex_id x02] "me" 9 "merge"), [x31])].
#[local] Existing Instance ex_merge_codec.

Definition ex_proposal : ChangeProposal := sign_proposal zero_seed "dev" "main" "title" 7.
Definition ex_proposed : Repository MemoryRefBackend MemoryAclBackend :=
  MkRepo (<[ex_id x30 := Ok (OChangeProposal ex_proposal)]> ex_repo_objects)
    (<["dev" := RTimeline (MkTimeline (ex_id x02) Unrestricted 0 "persistent" None)]> ex_refs) ex_acls [] (Some []).
Definition ex_merged : Repository MemoryRefBackend MemoryAclBackend :=
  snd (merge_proposal (ex_id x30) "me" 9 "merge" ex_writer ex_proposed).

Lemma ex_proposed_inv : be_inv (r_refs ex_proposed).
Proof.
  intros k r Hk. unfold ex_proposed in Hk. cbn [r_refs] in Hk.
  apply lookup_insert_Some in Hk as [[<- _]|[_ Hk]]; [reflexivity|]. by eapply ex_refs_ok.
Qed.

Lemma merge_proposal_gated_witness :
  ∃ tt, be_view (r_refs ex_proposed) !! ex_main = Some (RTimeline tt) ∧
    be_view (r_refs ex_merged) !! ex_main = Some (RTimeline (with_head tt (ex_id x31))).
Proof.
  assert (fst (merge_proposal (ex_id x30) "me" 9 "merge" ex_writer ex_proposed) = Ok (Merged (ex_id x31))) as Hf
    by (vm_compute; reflexivity).
  assert (merge_proposal (ex_id x30) "me" 9 "merge" ex_writer ex_proposed = (Ok (Merged (ex_id x31)), ex_merged)) as Hm.
  { rewrite <- Hf. apply surjective_pairing. }
  destruct (merge_proposal_gated _ _ _ _ _ _ _ _ ex_proposed_inv Hm)
    as (p & source & target & st & tt & m & Hin & _ & _ & Hview & _).
  destruct (mi_proposal _ _ _ _ _ _ _ _ _ Hin) as [Hp _]. destruct (mi_target _ _ _ _ _ _ _ _ _ Hin) as [Hn Ht].
  assert (p = ex_proposal) as ->.
  { assert (r_objects ex_proposed !! ex_id x30 = Some (Ok (OChangeProposal ex_proposal))) as Hp' by (vm_compute; reflexivity).
    rewrite Hp' in Hp. injection Hp as <-. reflexivity. }
  assert (target = ex_main) as -> by (destruct target; cbn in Hn; rewrite Hn; reflexivity).
  exists tt. split; [exact Ht|]. rewrite Hview. apply lookup_insert_eq.
Defined.
