(* ===== verification/Wire.v ===== *)
(** * Wire: the frames of the sync protocol

    src/src/sync/wire.rs: capabilities, the [Message] enum, length-prefixed frames; and
    the buffered receiver of src/src/sync/transport.rs ([TcpConn]).  The message codec
    is postcard, a parameter.

    The theorems: however the stream of the frames of some messages is cut into reads, the
    receiver gives back exactly these messages, in order; whatever a peer sends, the
    receiver's buffer stays within the frame cap and a constant. *)

From stdpp Require Import pretty.
From S2P Require Import Prelude Bytes Ids Objects Refs.

(** ** Capabilities *)
(** [CapSet(u32)] *)
Definition CapSet : Type := N.
Definition CAP_EMPTY : CapSet := 0%N.
Definition CAP_SEARCH : CapSet := N.shiftl 1 0.
Definition intersect (a b : CapSet) : CapSet := N.land a b.
Definition caps_contain (a b : CapSet) : bool := negb (b =? 0)%N && (N.land a b =? b)%N.

Definition PROTO_VERSION : N := 1.

(** ** Messages *)
Inductive Intent : Type := Fetch | Push | Clone.

Record RefAdvert : Type := MkAdvert { ad_name : RefName; ad_target : ObjectId; ad_is_timeline : bool }.
Record RefUpdateOp : Type := MkUpdate { up_name : RefName; up_expected_old : option ObjectId; up_new_head : ObjectId }.
Inductive RefApplyStatus : Type :=
| StatusOk
| NonFastForward (server_head : ObjectId)
| Denied (reason : string).
Record RefStatusEntry : Type := MkStatus { rs_name : RefName; rs_status : RefApplyStatus }.

#[global] Instance Intent_eq_dec : EqDecision Intent. Proof. solve_decision. Defined.
#[global] Instance RefAdvert_eq_dec : EqDecision RefAdvert. Proof. solve_decision. Defined.
#[global] Instance RefUpdateOp_eq_dec : EqDecision RefUpdateOp. Proof. solve_decision. Defined.
#[global] Instance RefApplyStatus_eq_dec : EqDecision RefApplyStatus. Proof. solve_decision. Defined.
#[global] Instance RefStatusEntry_eq_dec : EqDecision RefStatusEntry. Proof. solve_decision. Defined.

(** A signature on the wire is a byte string in [HubProof], 64 bytes in [Welcome]. *)
Inductive Message : Type :=
| Hello (proto_min proto_max : N) (caps : CapSet) (intent : Intent) (client_nonce : option (vec byte 32))
| Welcome (proto : N) (caps : CapSet) (refs : list RefAdvert) (relay_sig : option (vec byte 64))
| HaveWant (want have : list ObjectId)
| Pack (pack : bytes)
| RefUpdate (ops : list RefUpdateOp)
| RefStatus (entries : list RefStatusEntry)
| Search (term : string) (max_hops : byte)
| HubHello (owner : Key)
| HubChallenge (nonce : vec byte 32)
| HubProof (sig : bytes)
| HubIdentity (profile : option Profile) (repos : list RepoRecord)
| MDone
| MError (e : string).

#[global] Instance Message_eq_dec : EqDecision Message. Proof. solve_decision. Defined.

(** The ref names of a message are valid: deserializing a [RefName] goes through
    [RefName::new] (refs/name.rs). *)
Definition message_names (m : Message) : list RefName :=
  match m with
  | Welcome _ _ refs _ => ad_name <$> refs
  | RefUpdate ops => up_name <$> ops
  | RefStatus entries => rs_name <$> entries
  | _ => []
  end.
Definition message_ok (m : Message) : Prop := Forall valid_name (message_names m).

(** [encode_message], [decode_message]: postcard; decoding undoes encoding and validates
    names. *)
Class MessageCodec := { encode_message : Message → res bytes; decode_message : bytes → res Message }.
Class MessageCodecLaws `{MessageCodec} := {
  decode_encode_message m body : encode_message m = Ok body → decode_message body = Ok m;
  decode_message_ok m body : decode_message body = Ok m → message_ok m
}.

(** ** Frames *)
Definition MAX_FRAME_LEN : N := 256 * 1024 * 1024.

(** [(body.len() as u32).to_le_bytes()], then the body. *)
Definition frame (body : bytes) : bytes := to_le 4 (blen body) ++ body.

(** The next body and the position behind it, if the buffer holds a whole frame. *)
Definition deframe (buf : bytes) (pos : N) : res (option (bytes * N)) :=
  if (blen buf <? pos + 4)%N then Ok None
  else
    let len := from_le (slice buf pos (pos + 4)) in
    if (MAX_FRAME_LEN <? len)%N
    then Err (Storage ("frame length " +:+ pretty len +:+ " exceeds cap " +:+ pretty MAX_FRAME_LEN))
    else if (blen buf <? pos + 4 + len)%N then Ok None
    else Ok (Some (slice buf (pos + 4) (pos + 4 + len), pos + 4 + len))%N.

(** ** [TcpConn] *)
Record TcpConn : Type := MkTcp { rbuf : bytes; rpos : N }.
Definition TcpConn_new : TcpConn := MkTcp [] 0.

Section conn.
Context `{MessageCodec}.

Definition tcp_frame (m : Message) : res bytes := body ← encode_message m; Ok (frame body).

Definition COMPACT_AT : N := N.shiftl 1 16.
Definition compact (c : TcpConn) : TcpConn :=
  if (COMPACT_AT <? rpos c)%N then MkTcp (drop (N.to_nat (rpos c)) (rbuf c)) 0 else c.

Definition err_closed : Error := Storage "connection closed".

(** [recv]: [reads] are the results of the coming reads of the socket, an empty one (or
    none) at the end of the stream. *)
Fixpoint tcp_recv (c : TcpConn) (reads : list bytes) : res Message * TcpConn * list bytes :=
  match deframe (rbuf c) (rpos c) with
  | Err e => (Err e, c, reads)
  | Ok (Some (body, pos)) => (decode_message body, compact (MkTcp (rbuf c) pos), reads)
  | Ok None =>
      match reads with
      | [] => (Err err_closed, c, [])
      | chunk :: reads =>
          if decide (chunk = []) then (Err err_closed, c, reads)
          else tcp_recv (MkTcp (rbuf c ++ chunk) (rpos c)) reads
      end
  end.

(** Receiving until the first failure. *)
Fixpoint tcp_recv_all (fuel : nat) (c : TcpConn) (reads : list bytes) : list Message * Error :=
  match fuel with
  | 0%nat => ([], Panic "out of fuel")
  | S fuel =>
      match tcp_recv c reads with
      | (Ok m, c, reads) => let '(ms, e) := tcp_recv_all fuel c reads in (m :: ms, e)
      | (Err e, _, _) => ([], e)
      end
  end.
End conn.

(** ** Reading frames back *)

(** Framing only looks at the bytes that have not been consumed. *)
Lemma deframe_unread buf pos : (pos ≤ blen buf)%N →
  deframe buf pos = match deframe (drop (N.to_nat pos) buf) 0 with
                    | Ok (Some (body, p)) => Ok (Some (body, pos + p)%N)
                    | r => r
                    end.
Proof.
  intros Hp. unfold deframe. set (u := drop (N.to_nat pos) buf).
  assert (blen buf = pos + blen u)%N as -> by (unfold u, blen in *; rewrite length_drop; lia).
  assert (∀ s e, slice buf (pos + s) (pos + e) = slice u s e) as Hs.
  { intros s e. unfold slice, u. rewrite drop_drop. do 2 f_equal; lia. }
  pose proof (Hs 0 4)%N as H0. rewrite N.add_0_r in H0. rewrite H0. rewrite <- !N.add_assoc, !Hs, !N.add_0_l.
  destruct (N.ltb_spec (pos + blen u) (pos + 4)), (N.ltb_spec (blen u) 4); try done; try lia.
  destruct (MAX_FRAME_LEN <? from_le (slice u 0 4))%N; [done|].
  set (len := from_le _). destruct (N.ltb_spec (pos + blen u) (pos + (4 + len))), (N.ltb_spec (blen u) (4 + len)); try done; try lia.
Qed.

(** On a part of a stream that starts with a frame. *)
Lemma deframe_prefix u more body rest : u ++ more = frame body ++ rest → (blen body ≤ MAX_FRAME_LEN)%N →
  deframe u 0 = if (blen u <? 4 + blen body)%N then Ok None else Ok (Some (body, 4 + blen body)%N).
Proof.
  intros Heq Hb. unfold deframe. rewrite N.add_0_l. unfold frame in Heq.
  destruct (N.ltb_spec (blen u) 4) as [H4|H4].
  { by rewrite (proj2 (N.ltb_lt _ _)) by lia. }
  assert (slice u 0 4 = to_le 4 (blen body)) as ->.
  { assert (take 4 (u ++ more) = to_le 4 (blen body)) as Ht.
    { rewrite Heq, <- app_assoc. change 4%nat with (length (to_le 4 (blen body))) at 1. by rewrite take_app_length. }
    rewrite take_app_le in Ht by (unfold blen in H4; lia). exact Ht. }
  rewrite from_to_le by (unfold MAX_FRAME_LEN in Hb; lia). rewrite (proj2 (N.ltb_ge _ _)) by lia.
  destruct (N.ltb_spec (blen u) (4 + blen body)) as [|Hl]; [done|]. do 3 f_equal.
  assert (u = to_le 4 (blen body) ++ body ++ drop (N.to_nat (4 + blen body)) u) as Hu.
  { rewrite <- (take_drop (N.to_nat (4 + blen body)) u) at 1. rewrite app_assoc. f_equal.
    assert (take (N.to_nat (4 + blen body)) (u ++ more) = to_le 4 (blen body) ++ body) as Ht.
    { rewrite Heq. rewrite take_app_le by (rewrite length_app, to_le_length; unfold blen; lia).
      rewrite firstn_all2; [done|]. rewrite length_app, to_le_length. unfold blen. lia. }
    rewrite take_app_le in Ht by (unfold blen in *; lia). exact Ht. }
  rewrite Hu. apply slice_at; by rewrite blen_to_le.
Qed.

(** [frame] writes a body of any length, and [deframe] refuses one above the cap. *)
Lemma oversized_frame_refused body : (MAX_FRAME_LEN < blen body)%N → (blen body < 2 ^ 32)%N → is_Ok (deframe (frame body) 0) = false.
Proof.
  intros Hb H32. unfold deframe. rewrite N.add_0_l. rewrite (proj2 (N.ltb_ge _ _)) by (unfold frame; rewrite blen_app, blen_to_le; lia).
  assert (slice (frame body) 0 4 = to_le 4 (blen body)) as ->.
  { unfold frame. apply (slice_at [] (to_le 4 (blen body)) body 0 4); by rewrite ?blen_to_le. }
  rewrite from_to_le by lia. by rewrite (proj2 (N.ltb_lt _ _)).
Qed.

Section receive.
Context `{MessageCodec}.

Definition unread (c : TcpConn) : bytes := drop (N.to_nat (rpos c)) (rbuf c).
Definition tcp_ok (c : TcpConn) : Prop := (rpos c ≤ blen (rbuf c))%N.

Lemma compact_unread c : tcp_ok c → unread (compact c) = unread c ∧ tcp_ok (compact c).
Proof.
  unfold compact, tcp_ok, unread. intros Hc. destruct (COMPACT_AT <? rpos c)%N; [|done]. simpl. split; [by rewrite drop_0|lia].
Qed.

(** Consuming a whole frame. *)
Lemma consumed c body rest more : tcp_ok c → (4 + blen body ≤ blen (unread c))%N → unread c ++ more = frame body ++ rest →
  let c' := compact (MkTcp (rbuf c) (rpos c + (4 + blen body))) in tcp_ok c' ∧ unread c' ++ more = rest.
Proof.
  intros Hc Hl Heq. destruct (compact_unread (MkTcp (rbuf c) (rpos c + (4 + blen body)))) as [Hu Hok].
  { unfold tcp_ok, unread, blen in *. cbn [rbuf rpos]. rewrite length_drop in Hl. lia. }
  split; [done|]. rewrite Hu. unfold unread at 1. cbn [rbuf rpos].
  apply (f_equal (drop (N.to_nat (4 + blen body)))) in Heq. rewrite drop_app_le in Heq by (unfold blen in *; lia).
  unfold unread in Heq. rewrite drop_drop in Heq.
  replace (N.to_nat (rpos c + (4 + blen body))) with (N.to_nat (rpos c) + N.to_nat (4 + blen body)) by lia. rewrite Heq.
  apply drop_app_length'. unfold frame. rewrite length_app, to_le_length. unfold blen. lia.
Qed.

Lemma tcp_recv_frame body rest : (blen body ≤ MAX_FRAME_LEN)%N → ∀ reads c, tcp_ok c → Forall (λ r, r ≠ []) reads →
  unread c ++ concat reads = frame body ++ rest →
  ∃ c' reads', tcp_recv c reads = (decode_message body, c', reads') ∧ tcp_ok c' ∧ Forall (λ r, r ≠ []) reads' ∧
    unread c' ++ concat reads' = rest.
Proof.
  intros Hb. induction reads as [|chunk reads IH]; intros c Hc Hne Heq; cbn [tcp_recv];
    rewrite (deframe_unread _ _ Hc); change (drop _ (rbuf c)) with (unread c); rewrite (deframe_prefix _ _ _ _ Heq Hb);
    destruct (N.ltb_spec (blen (unread c)) (4 + blen body)) as [Hl|Hl].
  - exfalso. apply (f_equal length) in Heq. rewrite !length_app in Heq. unfold frame in Heq. rewrite length_app, to_le_length in Heq.
    cbn [concat length] in Heq. unfold blen in Hl. lia.
  - destruct (consumed c body rest (concat []) Hc Hl Heq) as [Hok Hrest]. eexists _, []. done.
  - apply Forall_cons in Hne as [Hch Hne]. rewrite decide_False by done. apply IH; [|done|].
    + unfold tcp_ok in *. simpl. rewrite blen_app. lia.
    + unfold unread, tcp_ok, blen in *. cbn [rbuf rpos]. rewrite drop_app_le by lia. rewrite <- app_assoc. exact Heq.
  - destruct (consumed c body rest _ Hc Hl Heq) as [Hok Hrest]. eexists _, (chunk :: reads). done.
Qed.

(** At the end of the stream. *)
Lemma tcp_recv_closed reads c : tcp_ok c → Forall (λ r, r ≠ []) reads → unread c ++ concat reads = [] →
  ∃ c', tcp_recv c reads = (Err err_closed, c', []).
Proof.
  intros Hc Hne [Hu Hr]%app_eq_nil. assert (reads = []) as ->.
  { destruct reads as [|r reads]; [done|]. apply Forall_cons in Hne as [? _]. simpl in Hr. by apply app_eq_nil in Hr as [-> _]. }
  cbn [tcp_recv]. rewrite (deframe_unread _ _ Hc). change (drop _ (rbuf c)) with (unread c). rewrite Hu. by eexists.
Qed.

Context `{!MessageCodecLaws}.

(** The stream a sequence of sends writes. *)
Definition tcp_stream (ms : list Message) : res bytes :=
  fs ← res_map tcp_frame ms; Ok (concat fs).

Lemma tcp_stream_cons m ms stream : tcp_stream (m :: ms) = Ok stream → ∃ body rest,
  encode_message m = Ok body ∧ tcp_stream ms = Ok rest ∧ stream = frame body ++ rest.
Proof.
  unfold tcp_stream, tcp_frame. cbn [res_map]. destruct (encode_message m) as [body|e] eqn:Hm; [|done]. cbn [mbind result_bind].
  destruct (res_map _ ms) as [fs|e] eqn:Hs; [|done]. intros [= <-]. by exists body, (concat fs).
Qed.

(** [C29] The TCP transport is a FIFO channel for messages whose encoded body is at most
    [MAX_FRAME_LEN] bytes (the sender does not check this, and the receiver refuses a longer one,
    see [oversized_frame_refused]): however the byte stream of such framed messages is cut
    into reads, the receiver returns exactly these messages in order and then reports the end
    of the connection. *)
Theorem tcp_fifo (ms : list Message) (stream : bytes) (reads : list bytes) :
  tcp_stream ms = Ok stream →
  (∀ m body, m ∈ ms → encode_message m = Ok body → (blen body ≤ MAX_FRAME_LEN)%N) →
  Forall (λ r, r ≠ []) reads → concat reads = stream →
  tcp_recv_all (S (length ms)) TcpConn_new reads = (ms, err_closed).
Proof.
  intros Hs Hcap Hne Hr.
  assert (∀ c reads, tcp_ok c → Forall (λ r, r ≠ []) reads → unread c ++ concat reads = stream →
    tcp_recv_all (S (length ms)) c reads = (ms, err_closed)) as Hgen; [|by apply Hgen].
  clear reads Hne Hr. revert stream Hs. induction ms as [|m ms IH]; intros stream Hs c reads Hc Hne Heq.
  - injection Hs as <-. destruct (tcp_recv_closed reads c Hc Hne Heq) as (c' & Hrec). cbn [length tcp_recv_all]. by rewrite Hrec.
  - apply tcp_stream_cons in Hs as (body & rest & Hm & Hs & ->).
    assert (blen body ≤ MAX_FRAME_LEN)%N as Hb by (apply (Hcap m body); [by left|done]).
    destruct (tcp_recv_frame body rest Hb reads c Hc Hne Heq) as (c' & reads' & Hrec & Hc' & Hne' & Heq').
    change (length (m :: ms)) with (S (length ms)). cbn [tcp_recv_all]. rewrite Hrec, (decode_encode_message m body Hm).
    pose proof (IH (λ m' b' Hin, Hcap m' b' (list_elem_of_further _ _ _ Hin)) rest Hs c' reads' Hc' Hne' Heq') as Hall.
    cbn [length tcp_recv_all] in Hall. by rewrite Hall.
Qed.
End receive.

(** ** The receiver's memory *)

(** [let mut chunk = [0u8; 8192]] *)
Definition READ_LEN : N := 8192.
Definition BUFFER_MAX : N := COMPACT_AT + 4 + MAX_FRAME_LEN + READ_LEN.

Record tcp_bounded (c : TcpConn) : Prop := {
  tb_ok : tcp_ok c;
  tb_pos : (rpos c ≤ COMPACT_AT)%N;
  tb_len : (blen (rbuf c) < BUFFER_MAX)%N
}.

Lemma deframe_None buf pos : (pos ≤ blen buf)%N → deframe buf pos = Ok None → (blen buf < pos + 4 + MAX_FRAME_LEN)%N.
Proof.
  intros Hp. unfold deframe. destruct (N.ltb_spec (blen buf) (pos + 4)); [intros _; unfold MAX_FRAME_LEN; lia|].
  destruct (N.ltb_spec MAX_FRAME_LEN (from_le (slice buf pos (pos + 4)))); [done|].
  destruct (N.ltb_spec (blen buf) (pos + 4 + from_le (slice buf pos (pos + 4)))); [intros _; lia|done].
Qed.
Lemma deframe_Some buf pos body p : deframe buf pos = Ok (Some (body, p)) → (p ≤ blen buf)%N.
Proof.
  unfold deframe. destruct (blen buf <? pos + 4)%N; [done|]. destruct (MAX_FRAME_LEN <? _)%N; [done|].
  destruct (N.ltb_spec (blen buf) (pos + 4 + from_le (slice buf pos (pos + 4)))); [done|]. by intros [= _ <-].
Qed.

(** [C30] Whatever bytes a peer sends, in whatever pieces, the receive buffer of a
    connection stays below the frame cap plus one read and the compaction threshold,
    about 256 MiB in all, at every read and after every message, also when the receiver
    fails. *)
Theorem tcp_recv_bounded `{MessageCodec} (c c' : TcpConn) (reads reads' : list bytes) (r : res Message) :
  tcp_bounded c → Forall (λ chunk, blen chunk ≤ READ_LEN)%N reads →
  tcp_recv c reads = (r, c', reads') → tcp_bounded c'.
Proof.
  intros Hc Hr. revert c Hc. induction Hr as [|chunk reads Hch Hr IH]; intros c Hc; cbn [tcp_recv];
    destruct (deframe (rbuf c) (rpos c)) as [[[body p]|]|e] eqn:Hd; try (by intros [= _ <- _]).
  1, 2: intros [= _ <- _]; apply deframe_Some in Hd; unfold compact; destruct (N.ltb_spec COMPACT_AT p) as [Hp|Hp];
    cbn [rpos rbuf]; rewrite ?(proj2 (N.ltb_lt _ _)), ?(proj2 (N.ltb_ge _ _)) by lia.
  1-4: destruct Hc as [_ _ Hl]; split; unfold tcp_ok in *; cbn [rbuf rpos]; try lia.
  - unfold blen in *. rewrite length_drop. lia.
  - unfold blen in *. rewrite length_drop. lia.
  - case_decide; [by intros [= _ <- _]|]. apply IH. pose proof (deframe_None _ _ (tb_ok c Hc) Hd) as Hn.
    destruct Hc as [Ho Hp Hl]. split; unfold tcp_ok, BUFFER_MAX, READ_LEN in *; cbn [rbuf rpos]; rewrite ?blen_app; lia.
Qed.

Lemma TcpConn_new_bounded : tcp_bounded TcpConn_new.
Proof. split; unfold tcp_ok; cbn; [lia|done|]. unfold BUFFER_MAX, MAX_FRAME_LEN, READ_LEN. vm_compute. done. Qed.

(** ** On concrete data *)
Definition toy_message_codec : MessageCodec := {|
  encode_message m := match m with MDone => Ok [x0b] | MError s => Ok (x0c :: str_bytes s) | _ => Err (Codec "unsupported") end;
  decode_message l :=
    match l with [x0b] => Ok MDone | x0c :: l => Ok (MError (bytes_str l)) | _ => Err (Codec "malformed") end
|}.
Lemma toy_message_codec_laws : @MessageCodecLaws toy_message_codec.
Proof.
  split; intros m body.
  - destruct m; try done; intros [= <-]; [done|]. simpl. by rewrite bytes_str_bytes.
  - simpl. intros Hd. unfold message_ok. repeat case_match; simplify_eq; constructor.
Qed.
#[local] Existing Instance toy_message_codec.
#[local] Existing Instance toy_message_codec_laws.

(** Two frames, cut in the middle of the second length prefix. *)
Definition ex_reads : list bytes := [[x01; x00; x00; x00; x0b; x03; x00]; [x00; x00; x0c; x68]; [x69]].
Lemma tcp_fifo_witness : tcp_recv_all 3 TcpConn_new ex_reads = ([MDone; MError "hi"], err_closed).
Proof.
  apply (tcp_fifo [MDone; MError "hi"] (concat ex_reads) ex_reads); [reflexivity| |by repeat constructor|reflexivity].
  intros m body Hm. rewrite !elem_of_cons, elem_of_nil in Hm. destruct Hm as [->|[->|[]]]; intros [= <-]; vm_compute; discriminate.
Defined.
Lemma tcp_recv_bounded_witness : tcp_bounded (tcp_recv TcpConn_new ex_reads).1.2.
Proof.
  apply (tcp_recv_bounded TcpConn_new _ ex_reads (tcp_recv TcpConn_new ex_reads).2 (tcp_recv TcpConn_new ex_reads).1.1 TcpConn_new_bounded).
  - repeat constructor; vm_compute; discriminate.
  - by destruct (tcp_recv TcpConn_new ex_reads) as [[? ?] ?].
Defined.
