(* ===== verification/Http.v ===== *)
(** * Http: one request and one response over a byte stream

    The message layer of src/src/sync/http.rs: [read_http] on the reads of a socket, and
    the requests and responses [post] and [respond] write.  A socket is the list of
    its coming reads, an empty one (or none) at the end of the stream, as in [Wire.v].

    The theorems: however a written message is cut into reads, [read_http] gives
    back its first line and its body; whatever a peer sends, reading one message
    consumes at most the two caps and two reads. *)

From stdpp Require Import pretty.
From S2P Require Import Prelude Bytes Ids Text Objects Wire.

(** ** Reading a message *)

(** [to_ascii_lowercase] *)
Definition ascii_lower (b : byte) : byte := if in_range 65 90 b then as_u8 (u8 b + 32) else b.

Definition MAX_HTTP_HEADER_LEN : N := 64 * 1024.
Definition MAX_HTTP_BODY_LEN : N := 256 * 1024 * 1024.

(** [find(haystack, needle)]: the first position at which the needle starts. *)
Fixpoint starts (needle l : bytes) : bool :=
  match needle, l with
  | [], _ => true
  | a :: needle, b :: l => if decide (a = b) then starts needle l else false
  | _ :: _, [] => false
  end.
Fixpoint find_bytes (needle l : bytes) : option nat :=
  if starts needle l then Some 0
  else match l with [] => None | _ :: l => S <$> find_bytes needle l end.

Definition HEADER_END : bytes := [x0d; x0a; x0d; x0a].
Definition err_header_cap : Error := Storage "http: headers exceed cap".
Definition err_header_closed : Error := Storage "http: connection closed before headers".

(** The first loop: the buffer, the position of the terminator and the reads left.
    [scanned] is how far earlier turns have looked. *)
Fixpoint read_head (buf : bytes) (scanned : nat) (reads : list bytes) : res (bytes * nat) * list bytes :=
  match find_bytes HEADER_END (drop scanned buf) with
  | Some rel => (Ok (buf, scanned + rel), reads)
  | None =>
      if (MAX_HTTP_HEADER_LEN <? blen buf)%N then (Err err_header_cap, reads)
      else
        match reads with
        | [] => (Err err_header_closed, [])
        | chunk :: reads =>
            if decide (chunk = []) then (Err err_header_closed, reads)
            else read_head (buf ++ chunk) (length buf - 3) reads
        end
  end.

(** The second loop: reads until the body is complete or the stream ends. *)
Fixpoint read_body (body : bytes) (len : N) (reads : list bytes) : bytes * list bytes :=
  if (blen body <? len)%N then
    match reads with
    | [] => (body, [])
    | chunk :: reads => if decide (chunk = []) then (body, reads) else read_body (body ++ chunk) len reads
    end
  else (body, reads).

Definition length_header (line : bytes) : option N :=
  v ← strip_prefix "content-length:" (bytes_str (ascii_lower <$> line));
  Some (default 0%N (parse_u64 (bytes_str (trim (str_bytes v))))).
Definition content_length (headers : bytes) : N := default 0%N (head (omap length_header (lines headers))).
Definition start_line (headers : bytes) : bytes := default [] (head (lines headers)).

(** [read_http]: the first line and the body. *)
Definition read_http (reads : list bytes) : res (string * bytes) * list bytes :=
  match read_head [] 0 reads with
  | (Err e, reads) => (Err e, reads)
  | (Ok (buf, header_end), reads) =>
      let headers := from_utf8_lossy (take header_end buf) in
      let len := content_length headers in
      if (MAX_HTTP_BODY_LEN <? len)%N
      then (Err (Storage ("http: content-length " +:+ pretty len +:+ " exceeds cap " +:+ pretty MAX_HTTP_BODY_LEN)), reads)
      else
        let '(body, reads) := read_body (drop (header_end + 4) buf) len reads in
        (Ok (bytes_str (start_line headers), take (N.to_nat len) body), reads)
  end.

(** ** Writing a message *)
Definition crlf : string := bytes_str [x0d; x0a].
Definition FETCH_PATH : string := "/bole/v1/fetch".
Definition PUSH_PATH : string := "/bole/v1/push".

Definition request_head (path : string) (len : N) : string :=
  "POST " +:+ path +:+ " HTTP/1.1" +:+ crlf +:+ "Host: bole" +:+ crlf +:+ "Content-Type: application/octet-stream" +:+ crlf +:+
  "Content-Length: " +:+ pretty len +:+ crlf +:+ "Connection: close" +:+ crlf +:+ crlf.
Definition response_head (len : N) : string :=
  "HTTP/1.1 200 OK" +:+ crlf +:+ "Content-Length: " +:+ pretty len +:+ crlf +:+ "Connection: close" +:+ crlf +:+ crlf.
Definition request (path : string) (body : bytes) : bytes := str_bytes (request_head path (blen body)) ++ body.
Definition respond (body : bytes) : bytes := str_bytes (response_head (blen body)) ++ body.
Definition not_found_response : bytes :=
  str_bytes ("HTTP/1.1 404 Not Found" +:+ crlf +:+ "Content-Length: 0" +:+ crlf +:+ "Connection: close" +:+ crlf +:+ crlf).

(** A connection: what the peer sends back, read by read, on the bytes it is sent. *)
Definition Peer : Type := bytes → list bytes.

Definition post (stream : Peer) (path : string) (body : bytes) : res bytes :=
  '(status_line, resp) ← (read_http (stream (request path body))).1;
  if negb (str_contains status_line " 200") then Err (Storage ("http: server returned '" +:+ status_line +:+ "'"))
  else Ok resp.

(** ** Finding the end of the headers *)
Lemma starts_spec needle l : starts needle l = true ↔ ∃ r, l = needle ++ r.
Proof.
  revert l. induction needle as [|a needle IH]; intros l; simpl; [split; [eauto|done]|].
  destruct l as [|b l]; [split; [done|by intros (r & ?)]|]. case_decide as Hab; [subst b; rewrite IH|].
  - split; [intros (r & ->); eauto|]. intros (r & [= ->]). eauto.
  - split; [done|]. intros (r & [= -> _]). done.
Qed.
Lemma starts_app needle l k : length needle ≤ length l → starts needle (l ++ k) = starts needle l.
Proof.
  revert l. induction needle as [|a needle IH]; intros [|b l]; simpl; try done; [lia|]. intros Hl.
  case_decide; [apply IH; lia|done].
Qed.
Lemma starts_short needle l : length l < length needle → starts needle l = false.
Proof. intros Hl. apply not_true_is_false. intros (r & ->)%starts_spec. rewrite length_app in Hl. lia. Qed.

Lemma find_bytes_spec needle l p : find_bytes needle l = Some p ↔
  p ≤ length l ∧ starts needle (drop p l) = true ∧ ∀ i, i < p → starts needle (drop i l) = false.
Proof.
  revert p. induction l as [|b l IH]; intros p; cbn [find_bytes].
  - destruct (starts needle []) eqn:Hs.
    + split; [intros [= <-]; split_and!; [done..|lia]|]. intros (? & _ & _). f_equal. simpl in *. lia.
    + split; [done|]. intros (Hp & Ht & _). rewrite drop_nil in Ht. congruence.
  - destruct (starts needle (b :: l)) eqn:Hs.
    + split; [intros [= <-]; split_and!; [lia|done|lia]|]. intros (_ & _ & Hlt). destruct p as [|p]; [done|].
      specialize (Hlt 0 ltac:(lia)). cbn [drop] in Hlt. congruence.
    + rewrite fmap_Some. split.
      * intros (q & (? & ? & Hlt)%IH & ->). split_and!; [simpl; lia|done|]. intros [|i] ?; [done|apply Hlt; lia].
      * intros (Hp & Ht & Hlt). destruct p as [|p]; [cbn [drop] in Ht; congruence|]. exists p. split; [|done]. apply IH.
        split_and!; [simpl in Hp; lia|done|]. intros i ?. apply (Hlt (S i)). lia.
Qed.
Lemma find_bytes_None needle l i : find_bytes needle l = None → starts needle (drop i l) = false.
Proof.
  revert i. induction l as [|b l IH]; intros i; cbn [find_bytes].
  - rewrite drop_nil. by destruct (starts needle []).
  - destruct (starts needle (b :: l)) eqn:Hs; [done|]. rewrite fmap_None. intros Hn. destruct i; [done|]. by apply IH.
Qed.

(** Nothing starts before [scanned], whatever is read later. *)
Definition none_before (buf : bytes) (scanned : nat) : Prop :=
  scanned ≤ length buf ∧ ∀ i k, i < scanned → starts HEADER_END (drop i (buf ++ k)) = false.

Lemma none_before_scan buf scanned chunk : none_before buf scanned → find_bytes HEADER_END (drop scanned buf) = None →
  none_before (buf ++ chunk) (length buf - 3).
Proof.
  intros [_ Hb] Hf. split; [rewrite length_app; lia|]. intros i k Hi. rewrite <- app_assoc, drop_app_le by lia.
  rewrite starts_app by (rewrite length_drop; simpl; lia). destruct (decide (i < scanned)) as [Hs|Hs].
  - specialize (Hb i [] Hs). by rewrite app_nil_r in Hb.
  - pose proof (find_bytes_None _ _ (i - scanned) Hf) as Hn. rewrite drop_drop in Hn. by replace (scanned + (i - scanned)) with i in Hn by lia.
Qed.

(** Scanning on from there finds the terminator of the stream, once all of it is there. *)
Lemma scan_on buf scanned k p : none_before buf scanned → find_bytes HEADER_END (buf ++ k) = Some p →
  scanned ≤ p ∧ find_bytes HEADER_END (drop scanned buf) = if decide (p + 4 ≤ length buf) then Some (p - scanned) else None.
Proof.
  intros [Hsc Hb] (Hlen & Hst & Hlt)%find_bytes_spec.
  assert (scanned ≤ p) as Hle by (destruct (decide (p < scanned)) as [Hc|]; [rewrite (Hb p k Hc) in Hst; done|lia]). split; [done|].
  assert (∀ i, i + 4 ≤ length buf → starts HEADER_END (drop i (buf ++ k)) = starts HEADER_END (drop i buf)) as Hfit.
  { intros i Hi. rewrite drop_app_le by lia. apply starts_app. rewrite length_drop. simpl. lia. }
  case_decide as Hp.
  - apply find_bytes_spec. rewrite length_drop. split; [lia|]. split; [rewrite drop_drop; replace (scanned + (p - scanned)) with p by lia; by rewrite <- Hfit|].
    intros i Hi. rewrite drop_drop, <- Hfit by lia. apply Hlt. lia.
  - destruct (find_bytes _ _) as [q|] eqn:Hq; [|done]. apply find_bytes_spec in Hq as (_ & Hq & _). rewrite drop_drop in Hq.
    assert (scanned + q + 4 ≤ length buf) as Hroom.
    { apply starts_spec in Hq as (r & Hr). apply (f_equal length) in Hr. rewrite length_drop, length_app in Hr. simpl in Hr. lia. }
    rewrite <- Hfit in Hq by lia. rewrite Hlt in Hq by lia. done.
Qed.

Lemma read_head_spec p : (N.of_nat p + 4 ≤ MAX_HTTP_HEADER_LEN)%N →
  ∀ reads buf scanned, none_before buf scanned → Forall (λ r, r ≠ []) reads →
  find_bytes HEADER_END (buf ++ concat reads) = Some p →
  ∃ buf' reads', read_head buf scanned reads = (Ok (buf', p), reads') ∧ p + 4 ≤ length buf' ∧
    Forall (λ r, r ≠ []) reads' ∧ buf' ++ concat reads' = buf ++ concat reads.
Proof.
  intros Hcap. induction reads as [|chunk reads IH]; intros buf scanned Hb Hne Hp; cbn [read_head];
    destruct (scan_on _ _ _ _ Hb Hp) as [Hle Hf]; case_decide as Hroom; rewrite Hf.
  - exists buf, []. by replace (scanned + (p - scanned)) with p by lia.
  - exfalso. apply find_bytes_spec in Hp as (_ & (r & Hr)%starts_spec & _). apply (f_equal length) in Hr.
    cbn [concat] in Hr. rewrite app_nil_r, length_drop, length_app in Hr. simpl in Hr. lia.
  - exists buf, (chunk :: reads). by replace (scanned + (p - scanned)) with p by lia.
  - rewrite (proj2 (N.ltb_ge _ _)) by (unfold blen; lia). apply Forall_cons in Hne as [Hch Hne]. rewrite decide_False by done.
    cbn [concat] in Hp |- *. rewrite app_assoc in Hp |- *. apply IH; [by eapply none_before_scan|done..].
Qed.

Lemma read_body_spec body rest : ∀ reads got, Forall (λ r, r ≠ []) reads → got ++ concat reads = body ++ rest →
  ∃ all reads', read_body got (blen body) reads = (all, reads') ∧ take (N.to_nat (blen body)) all = body.
Proof.
  intros reads. induction reads as [|chunk reads IH]; intros got Hne Heq; cbn [read_body];
    destruct (N.ltb_spec (blen got) (blen body)) as [Hl|Hl].
  - exfalso. apply (f_equal length) in Heq. cbn [concat] in Heq. rewrite app_nil_r, length_app in Heq. unfold blen in Hl. lia.
  - exists got, []. split; [done|]. unfold blen in *. rewrite Nat2N.id. cbn [concat] in Heq. rewrite app_nil_r in Heq. subst got. by rewrite take_app_length.
  - apply Forall_cons in Hne as [? ?]. rewrite decide_False by done. apply IH; [done|]. by rewrite <- app_assoc.
  - exists got, (chunk :: reads). split; [done|]. unfold blen in *. rewrite Nat2N.id.
    rewrite <- (take_app_le got (concat (chunk :: reads)) (length body)) by lia. by rewrite Heq, take_app_length.
Qed.

(** Reading a message with the headers [hd]. *)
Lemma read_http_message hd body rest reads : find_bytes HEADER_END (hd ++ HEADER_END) = Some (length hd) →
  (blen hd + 4 ≤ MAX_HTTP_HEADER_LEN)%N → content_length (from_utf8_lossy hd) = blen body → (blen body ≤ MAX_HTTP_BODY_LEN)%N →
  Forall (λ r, r ≠ []) reads → concat reads = hd ++ HEADER_END ++ body ++ rest →
  (read_http reads).1 = Ok (bytes_str (start_line (from_utf8_lossy hd)), body).
Proof.
  intros Hf Hh Hc Hb Hne Heq.
  assert (find_bytes HEADER_END ([] ++ concat reads) = Some (length hd)) as Hfind.
  { rewrite Heq. apply find_bytes_spec in Hf as (_ & _ & Hlt). apply find_bytes_spec. cbn [app]. rewrite drop_app_length. split; [rewrite length_app; lia|].
    split; [apply starts_spec; eauto|]. intros i Hi. rewrite app_assoc, drop_app_le by (rewrite length_app; lia).
    rewrite starts_app by (rewrite length_drop, length_app; simpl; lia). by apply Hlt. }
  destruct (read_head_spec (length hd) Hh reads [] 0) as (buf & reads' & Hr & Hroom & Hne' & Hrest);
    [by split; [|lia]|done|done|]. unfold read_http. rewrite Hr. simpl in Hrest. rewrite Heq in Hrest.
  assert (take (length hd) buf = hd) as ->.
  { rewrite <- (take_app_le buf (concat reads')) by lia. by rewrite Hrest, take_app_length. }
  rewrite Hc, (proj2 (N.ltb_ge _ _)) by done.
  assert (drop (length hd + 4) buf ++ concat reads' = body ++ rest) as Hbody.
  { rewrite <- drop_app_le by lia. rewrite Hrest, app_assoc. apply drop_app_length'. by rewrite length_app. }
  destruct (read_body_spec body rest reads' _ Hne' Hbody) as (all & reads2 & -> & Ht). by rewrite Ht.
Qed.

(** ** How much is read *)
Lemma read_head_bounded reads : Forall (λ chunk, blen chunk ≤ READ_LEN)%N reads → ∀ buf scanned r reads',
  (blen buf ≤ MAX_HTTP_HEADER_LEN + READ_LEN)%N → read_head buf scanned reads = (r, reads') →
  ∃ used, reads = used ++ reads' ∧ (blen buf + blen (concat used) ≤ MAX_HTTP_HEADER_LEN + READ_LEN)%N.
Proof.
  induction 1 as [|chunk reads Hch Hr IH]; intros buf scanned r reads' Hb; cbn [read_head];
    destruct (find_bytes _ _) as [rel|]; try (intros [= <- <-]; exists []; cbn [concat]; rewrite blen_nil; split; [done|lia]).
  - case_match; intros [= <- <-]; exists []; cbn [concat]; rewrite blen_nil; (split; [done|lia]).
  - destruct (N.ltb_spec MAX_HTTP_HEADER_LEN (blen buf)) as [Hc|Hc]; [intros [= <- <-]; exists []; cbn [concat]; rewrite blen_nil; split; [done|lia]|].
    case_decide as Hnil; [intros [= <- <-]; exists [chunk]; split; [done|]; rewrite Hnil; cbn [concat]; rewrite app_nil_r, blen_nil; lia|].
    intros (used & -> & Hu)%IH; [|rewrite blen_app; lia]. exists (chunk :: used). split; [done|]. cbn [concat]. rewrite blen_app in *. lia.
Qed.
Lemma read_body_bounded reads len : Forall (λ chunk, blen chunk ≤ READ_LEN)%N reads → ∀ body all reads',
  read_body body len reads = (all, reads') →
  ∃ used, reads = used ++ reads' ∧ (blen body + blen (concat used) ≤ blen body `max` (len + READ_LEN))%N.
Proof.
  induction 1 as [|chunk reads Hch Hr IH]; intros body all reads'; cbn [read_body]; destruct (N.ltb_spec (blen body) len) as [Hl|Hl];
    try (intros [= <- <-]; exists []; cbn [concat]; rewrite blen_nil; split; [done|lia]).
  case_decide as Hnil; [intros [= <- <-]; exists [chunk]; split; [done|]; rewrite Hnil; cbn [concat]; rewrite app_nil_r, blen_nil; lia|].
  intros (used & -> & Hu)%IH. exists (chunk :: used). split; [done|]. cbn [concat]. rewrite !blen_app in *. lia.
Qed.

(** Whatever bytes a peer sends, in whatever pieces, reading one message takes at most the
    two caps and two reads from the socket, about 256 MiB in all, and the body it returns is
    no longer than the cap. *)
Theorem read_http_bounded (reads reads' : list bytes) (r : res (string * bytes)) :
  Forall (λ chunk, blen chunk ≤ READ_LEN)%N reads → read_http reads = (r, reads') →
  (∃ used, reads = used ++ reads' ∧ (blen (concat used) ≤ MAX_HTTP_HEADER_LEN + MAX_HTTP_BODY_LEN + 2 * READ_LEN)%N) ∧
  ∀ line body, r = Ok (line, body) → (blen body ≤ MAX_HTTP_BODY_LEN)%N.
Proof.
  intros Hr. unfold read_http. destruct (read_head [] 0 reads) as [rh reads1] eqn:Hh.
  destruct (read_head_bounded reads Hr [] 0 rh reads1 ltac:(done) Hh) as (used1 & -> & Hu1). rewrite blen_nil in Hu1.
  destruct rh as [[buf p]|e]; [|intros [= <- <-]; split; [exists used1; split; [done|lia]|done]].
  destruct (N.ltb_spec MAX_HTTP_BODY_LEN (content_length (from_utf8_lossy (take p buf)))) as [Hc|Hc];
    [intros [= <- <-]; split; [exists used1; split; [done|lia]|done]|].
  destruct (read_body _ _ reads1) as [all reads2] eqn:Hb. apply Forall_app in Hr as [_ Hr].
  destruct (read_body_bounded reads1 _ Hr _ all reads2 Hb) as (used2 & -> & Hu2). intros [= <- <-]. split.
  - exists (used1 ++ used2). split; [by rewrite app_assoc|]. rewrite concat_app, blen_app. lia.
  - intros line body [= _ <-]. unfold blen in *. rewrite length_take. lia.
Qed.

(** ** Lines *)
Definition clean (l : bytes) : Prop := Forall (λ b, u8 b < 0x80 ∧ b ≠ x0d ∧ b ≠ x0a)%N l.
Definition join_crlf (ls : list bytes) (l : bytes) : bytes := foldr (λ l k, l ++ [x0d; x0a] ++ k) l ls.

Lemma clean_dec_spec l : forallb (λ b, (u8 b <? 0x80)%N && negb (bool_decide (b = x0d)) && negb (bool_decide (b = x0a))) l = true → clean l.
Proof.
  rewrite forallb_forall. intros Hl. apply Forall_forall. intros b Hb%list_elem_of_In%Hl.
  rewrite !andb_true_iff, !negb_true_iff, !bool_decide_eq_false, N.ltb_lt in Hb. tauto.
Qed.
Lemma join_ascii ls l : Forall clean ls → clean l → Forall (λ b, u8 b < 0x80)%N (join_crlf ls l).
Proof.
  intros Hls Hl. induction Hls as [|k ls Hk _ IH]; simpl; [eapply Forall_impl; [exact Hl|naive_solver]|].
  apply Forall_app. split; [eapply Forall_impl; [exact Hk|naive_solver]|]. by repeat constructor.
Qed.

Lemma find_step needle b l : starts needle (b :: l) = false → find_bytes needle (b :: l) = S <$> find_bytes needle l.
Proof. intros Hs. cbn [find_bytes]. by rewrite Hs. Qed.
Lemma find_clean l k : clean l → find_bytes HEADER_END (l ++ k) = (λ p, length l + p) <$> find_bytes HEADER_END k.
Proof.
  induction 1 as [|b l (_ & Hr & _) _ IH]; [simpl; by destruct (find_bytes _ k)|]. simpl. rewrite decide_False by done. rewrite IH.
  by destruct (find_bytes _ k).
Qed.
Lemma find_join ls l : Forall clean ls → Forall (λ l, l ≠ []) ls → clean l → l ≠ [] →
  find_bytes HEADER_END (join_crlf ls l ++ HEADER_END) = Some (length (join_crlf ls l)).
Proof.
  intros Hls Hne Hl Hl0.
  assert (∀ b k, b ≠ x0d → find_bytes HEADER_END (x0d :: x0a :: b :: k) = (λ p, 2 + p) <$> find_bytes HEADER_END (b :: k)) as Hcr.
  { intros b k Hr. rewrite !(find_step _ _ (_ :: b :: _)), find_step by (simpl; rewrite ?decide_False by done; done). by destruct (find_bytes _ _). }
  assert (∀ ls, Forall clean ls → Forall (λ l, l ≠ []) ls → ∃ b m, join_crlf ls l = b :: m ∧ b ≠ x0d) as Hhd.
  { intros [|k ls']; simpl; intros Hc Hn.
    - destruct l as [|b l]; [done|]. exists b, l. split; [done|]. by apply Forall_inv in Hl as (_ & ? & _).
    - apply Forall_inv in Hc. apply Forall_inv in Hn. destruct k as [|b k]; [done|]. exists b. eexists. split; [done|].
      by apply Forall_inv in Hc as (_ & ? & _). }
  induction Hls as [|k ls Hk Hls IH]; cbn [join_crlf foldr].
  - rewrite find_clean by done. simpl. by rewrite Nat.add_0_r.
  - apply Forall_cons in Hne as [Hk0 Hne]. rewrite <- app_assoc, find_clean by done.
    destruct (Hhd ls Hls Hne) as (b & m & Hj & Hc). specialize (IH Hne). unfold join_crlf in IH, Hj |- *. rewrite Hj in IH |- *.
    cbn [app] in IH |- *. rewrite Hcr, IH by done. cbn [fmap option_fmap option_map]. rewrite length_app. f_equal; simpl; lia.
Qed.

Lemma lines_cons l k : clean l → k ≠ [] → lines (l ++ [x0d; x0a] ++ k) = l :: lines k.
Proof.
  intros Hl Hk. assert (split_byte x0a (l ++ [x0d; x0a] ++ k) = (l ++ [x0d]) :: split_byte x0a k) as Hs.
  { induction Hl as [|b l (_ & _ & Hb) _ IH]; [done|]. cbn [app split_byte]. cbn [app] in IH. by rewrite decide_False, IH. }
  unfold lines. rewrite Hs. destruct (split_byte_join x0a k _ eq_refl) as (p & qs & Hp & _). rewrite reverse_cons.
  destruct (reverse (split_byte x0a k)) as [|last r] eqn:Hr; [rewrite Hp, reverse_cons in Hr; by destruct (reverse qs)|].
  cbn [app]. rewrite fmap_app, reverse_app. simpl. f_equal. unfold strip_cr. rewrite reverse_app. simpl. by rewrite reverse_involutive.
Qed.
Lemma lines_last l : clean l → l ≠ [] → lines l = [l].
Proof.
  intros Hl Hne. assert (split_byte x0a l = [l]) as Hs.
  { clear Hne. induction Hl as [|b l (_ & _ & Hb) _ IH]; [done|]. cbn [split_byte]. by rewrite decide_False, IH. }
  unfold lines. rewrite Hs. by destruct l.
Qed.
Lemma lines_join ls l : Forall clean ls → clean l → l ≠ [] → lines (join_crlf ls l) = ls ++ [l].
Proof.
  intros Hls Hl Hne. induction Hls as [|k ls Hk _ IH]; [by apply lines_last|]. simpl. rewrite <- IH. apply lines_cons; [done|].
  destruct ls as [|[|]]; done.
Qed.

(** ** Numbers in text *)
Definition digits (l : bytes) : Prop := Forall (λ b, 48 ≤ u8 b ≤ 57)%N l.

Lemma pretty_char x : (x < 10)%N → Ascii.N_of_ascii (pretty_N_char x) = (48 + x)%N.
Proof.
  intros Hx. assert (x = 0 ∨ x = 1 ∨ x = 2 ∨ x = 3 ∨ x = 4 ∨ x = 5 ∨ x = 6 ∨ x = 7 ∨ x = 8 ∨ x = 9)%N as Hc by lia.
  naive_solver.
Qed.
Lemma pretty_byte x : (x < 10)%N → u8 (Ascii.byte_of_ascii (pretty_N_char x)) = (48 + x)%N.
Proof.
  intros Hx. assert (x = 0 ∨ x = 1 ∨ x = 2 ∨ x = 3 ∨ x = 4 ∨ x = 5 ∨ x = 6 ∨ x = 7 ∨ x = 8 ∨ x = 9)%N as Hc by lia.
  naive_solver.
Qed.
Lemma parse_pretty_go x s : (x < 2 ^ 64)%N → parse_digits (pretty_N_go x s) 0 = parse_digits s x.
Proof.
  revert s. induction (N.lt_wf_0 x) as [x _ IH]; intros s Hx. destruct (decide (x = 0)%N) as [->|]; [done|].
  pose proof (N.mod_lt x 10 ltac:(lia)). pose proof (N.div_mod x 10 ltac:(lia)). pose proof (N.div_lt x 10 ltac:(lia) ltac:(lia)).
  rewrite pretty_N_go_step, IH by lia. cbn [parse_digits]. rewrite pretty_char by done.
  generalize dependent (x `mod` 10)%N. generalize dependent (x `div` 10)%N. intros q Hlt r Hr Hq.
  rewrite (proj2 (N.leb_le _ _)), (proj2 (N.leb_le _ _)) by lia. cbn [andb].
  replace (10 * q + (48 + r - 48))%N with x by lia. by rewrite (proj2 (N.ltb_lt _ _)).
Qed.
Lemma pretty_go_digits x s : digits (str_bytes s) → digits (str_bytes (pretty_N_go x s)).
Proof.
  revert s. induction (N.lt_wf_0 x) as [x _ IH]; intros s Hs. destruct (decide (x = 0)%N) as [->|]; [done|].
  rewrite pretty_N_go_step by lia. apply IH; [apply N.div_lt; lia|]. pose proof (N.mod_lt x 10 ltac:(lia)) as Hr.
  apply Forall_cons. split; [rewrite pretty_byte by done|exact Hs]. revert Hr. generalize (x `mod` 10)%N. lia.
Qed.
Lemma pretty_go_length k : ∀ x s, (x < 10 ^ N.of_nat k)%N → String.length (pretty_N_go x s) ≤ k + String.length s.
Proof.
  induction k as [|k IH]; intros x s Hx; (destruct (decide (x = 0)%N) as [->|]; [rewrite pretty_N_go_0; lia|]).
  - exfalso. change (10 ^ N.of_nat 0)%N with 1%N in Hx. lia.
  - rewrite pretty_N_go_step by lia. etrans; [apply IH|simpl; lia]. apply N.Div0.div_lt_upper_bound.
    rewrite Nat2N.inj_succ, N.pow_succ_r' in Hx. lia.
Qed.

Lemma pretty_digits (n : N) : digits (str_bytes (pretty n)) ∧ pretty n ≠ "".
Proof.
  unfold pretty, pretty_N. case_decide as Hn; [split; [by repeat constructor|done]|]. split; [apply pretty_go_digits; constructor|].
  rewrite pretty_N_go_step by lia. intros Hs. pose proof (f_equal String.length Hs) as Hl.
  assert (∀ x s, String.length s ≤ String.length (pretty_N_go x s)) as Hg.
  { intros x. induction (N.lt_wf_0 x) as [x _ IH]; intros s. destruct (decide (x = 0)%N) as [->|]; [by rewrite pretty_N_go_0|].
    rewrite pretty_N_go_step by lia. etrans; [|apply IH, N.div_lt; lia]. simpl. lia. }
  specialize (Hg (n `div` 10)%N (String.String (pretty_N_char (n `mod` 10)) "")). rewrite Hl in Hg. simpl in Hg. lia.
Qed.
Lemma pretty_length (n : N) k : (n < 10 ^ N.of_nat k)%N → 1 ≤ k → String.length (pretty (n : N)) ≤ k.
Proof. unfold pretty, pretty_N. case_decide; [simpl; lia|]. intros Hn _. pose proof (pretty_go_length k n "" Hn) as Hl. simpl in Hl. lia. Qed.
Lemma parse_pretty (n : N) : (n < 2 ^ 64)%N → parse_u64 (pretty n) = Some n.
Proof.
  intros Hn. assert (parse_digits (pretty n) 0 = Some n) as Hp.
  { unfold pretty, pretty_N. case_decide; [by subst|]. by rewrite parse_pretty_go. }
  destruct (pretty_digits n) as [Hd Hne]. unfold parse_u64. destruct (pretty n) as [|a s]; [done|].
  apply Forall_cons in Hd as [Hd _]. destruct (Ascii.eqb_spec a (Ascii.ascii_of_N 43)) as [->|Ha]; [by destruct Hd as [? _]|].
  destruct a as [[] [] [] [] [] [] [] []]; done.
Qed.

(** ** The headers that are written *)
Lemma trim_front_digits fuel ws b l : (48 ≤ u8 b ≤ 57)%N →
  forallb (λ w, match w with a :: _ => negb (in_range 48 57 a) | [] => false end) ws = true →
  trim_front fuel ws (b :: l) = b :: l.
Proof.
  intros Hb Hws. destruct fuel as [|fuel]; [done|]. cbn [trim_front].
  assert (find_first (λ w, bool_decide (take (length w) (b :: l) = w)) ws = None) as ->; [|done].
  apply find_first_None. intros w Hw. rewrite forallb_forall in Hws. specialize (Hws w (proj1 (list_elem_of_In _ _) Hw)).
  destruct w as [|a w]; [done|]. apply bool_decide_eq_false. intros [= -> _]. unfold in_range in Hws.
  rewrite !(proj2 (N.leb_le _ _)) in Hws by lia. done.
Qed.
Lemma trim_digits l : digits l → l ≠ [] → trim (x20 :: l) = l.
Proof.
  intros Hd Hne. unfold trim. assert (trim_front (length (x20 :: l)) white_space (x20 :: l) = l) as ->.
  { cbn [length trim_front]. change (find_first _ _) with (Some [x20]). cbn [length drop].
    destruct Hd as [|b l Hb _]; [done|]. apply trim_front_digits; [done|by vm_compute]. }
  unfold trim_end. assert (digits (reverse l)) as Hr by by apply Forall_reverse.
  destruct (reverse l) as [|b r] eqn:E; [by destruct Hne; apply (inj reverse)|]. apply Forall_inv in Hr.
  rewrite trim_front_digits; [by rewrite <- E, reverse_involutive|done|by vm_compute].
Qed.
Lemma lower_digits l : digits l → ascii_lower <$> l = l.
Proof.
  induction 1 as [|b l Hb _ IH]; [done|]. rewrite fmap_cons, IH. f_equal. unfold ascii_lower, in_range.
  by rewrite (proj2 (N.leb_gt _ _)) by lia.
Qed.
Lemma digits_clean l : digits l → clean l.
Proof. intros Hd. eapply Forall_impl; [exact Hd|]. intros b [H1 H2]. split; [by eapply N.le_lt_trans|]. by split; intros ->. Qed.

Definition length_line (n : N) : bytes := str_bytes ("Content-Length: " +:+ pretty n).
Lemma length_line_value (n : N) : (n < 2 ^ 64)%N → length_header (length_line n) = Some n.
Proof.
  intros Hn. destruct (pretty_digits n) as [Hd Hne]. unfold length_header, length_line. rewrite str_bytes_app, fmap_app, (lower_digits (str_bytes (pretty n))) by done.
  assert (bytes_str ((ascii_lower <$> str_bytes "Content-Length: ") ++ str_bytes (pretty n)) = "content-length:" +:+ (" " +:+ pretty n)) as ->.
  { apply (inj str_bytes). by rewrite str_bytes_str, !str_bytes_app. }
  rewrite strip_prefix_app. cbn [mbind option_bind]. rewrite str_bytes_app. simpl. rewrite trim_digits; [|done|].
  - by rewrite bytes_str_bytes, parse_pretty.
  - intros E. apply Hne, (inj str_bytes). exact E.
Qed.
Lemma length_line_clean n : clean (length_line n) ∧ length_line n ≠ [].
Proof.
  unfold length_line. rewrite str_bytes_app. split; [|done]. apply Forall_app. split; [by apply clean_dec_spec|].
  apply digits_clean, pretty_digits.
Qed.

Definition close_line : bytes := str_bytes "Connection: close".
Definition request_lines (path : string) (n : N) : list bytes :=
  [str_bytes ("POST " +:+ path +:+ " HTTP/1.1"); str_bytes "Host: bole"; str_bytes "Content-Type: application/octet-stream"; length_line n].
Definition response_lines (n : N) : list bytes := [str_bytes "HTTP/1.1 200 OK"; length_line n].

Lemma request_head_lines path n : str_bytes (request_head path n) = join_crlf (request_lines path n) close_line ++ HEADER_END.
Proof.
  unfold request_head, request_lines, length_line. cbn [join_crlf foldr]. rewrite !str_bytes_app.
  change (str_bytes crlf) with [x0d; x0a]. by repeat rewrite <- app_assoc.
Qed.
Lemma response_head_lines n : str_bytes (response_head n) = join_crlf (response_lines n) close_line ++ HEADER_END.
Proof.
  unfold response_head, response_lines, length_line. cbn [join_crlf foldr]. rewrite !str_bytes_app.
  change (str_bytes crlf) with [x0d; x0a]. by repeat rewrite <- app_assoc.
Qed.

(** Reading a message of clean header lines, the third of which at the latest is the length. *)
Lemma read_lines first ls n body reads : n = blen body → Forall clean (first :: ls) → Forall (λ l, l ≠ []) (first :: ls) →
  head (omap length_header (first :: ls ++ [close_line])) = Some n →
  (blen (join_crlf (first :: ls) close_line) + 4 ≤ MAX_HTTP_HEADER_LEN)%N → (n ≤ MAX_HTTP_BODY_LEN)%N →
  Forall (λ r, r ≠ []) reads → concat reads = (join_crlf (first :: ls) close_line ++ HEADER_END) ++ body →
  (read_http reads).1 = Ok (bytes_str first, body).
Proof.
  intros -> Hls Hne Hl Hh Hb Hr Hc. assert (clean close_line) as Hcl by by apply clean_dec_spec.
  pose proof (lines_join (first :: ls) close_line Hls Hcl ltac:(done)) as Hlines.
  rewrite (read_http_message (join_crlf (first :: ls) close_line) body [] reads).
  - rewrite from_utf8_lossy_ascii by by apply join_ascii. unfold start_line. by rewrite Hlines.
  - by apply find_join.
  - done.
  - rewrite from_utf8_lossy_ascii by by apply join_ascii. unfold content_length. rewrite Hlines. cbn [app]. by rewrite Hl.
  - done.
  - done.
  - by rewrite Hc, app_nil_r, <- app_assoc.
Qed.

Lemma str_bytes_length s : length (str_bytes s) = String.length s.
Proof. unfold str_bytes, String.list_byte_of_string. rewrite length_map. induction s as [|a s IH]; simpl; by rewrite ?IH. Qed.

Lemma length_line_short (n : N) : (n ≤ MAX_HTTP_BODY_LEN)%N → length (length_line n) ≤ 25.
Proof.
  intros Hn. unfold length_line. rewrite str_bytes_app, length_app, (str_bytes_length (pretty n)).
  pose proof (pretty_length n 9 ltac:(eapply N.le_lt_trans; [exact Hn|done]) ltac:(lia)). simpl. lia.
Qed.

Lemma post_line_clean path : clean (str_bytes path) → clean (str_bytes ("POST " +:+ path +:+ " HTTP/1.1")).
Proof.
  intros Hp. rewrite !str_bytes_app. apply Forall_app; split; [by apply clean_dec_spec|].
  apply Forall_app; split; [done|by apply clean_dec_spec].
Qed.
Lemma read_request path body reads : clean (str_bytes path) → String.length path ≤ 1024 → (blen body ≤ MAX_HTTP_BODY_LEN)%N →
  Forall (λ r, r ≠ []) reads → concat reads = request path body →
  (read_http reads).1 = Ok ("POST " +:+ path +:+ " HTTP/1.1", body).
Proof.
  intros Hp Hl Hb Hne Hc. destruct (length_line_clean (blen body)) as [Hlc Hln]. pose proof (length_line_short _ Hb) as Hlen.
  rewrite <- (bytes_str_bytes ("POST " +:+ path +:+ " HTTP/1.1")).
  apply (read_lines _ [str_bytes "Host: bole"; str_bytes "Content-Type: application/octet-stream"; length_line (blen body)] (blen body)).
  - done.
  - constructor; [by apply post_line_clean|]. do 2 (constructor; [by apply clean_dec_spec|]). constructor; [done|constructor].
  - repeat (apply Forall_cons; split; [done|]); apply Forall_nil; done.
  - cbn [omap list_omap app]. rewrite (length_line_value (blen body)) by (eapply N.le_lt_trans; [exact Hb|done]).
    unfold length_header. by rewrite str_bytes_app.
  - clear Hlc Hln. generalize dependent (length_line (blen body)). intros ll Hll.
    unfold blen, MAX_HTTP_HEADER_LEN. cbn [join_crlf foldr]. rewrite !length_app, !str_bytes_app, !length_app, (str_bytes_length path). simpl length. lia.
  - done.
  - done.
  - rewrite Hc. unfold request. by rewrite request_head_lines.
Qed.
Lemma read_response body reads : (blen body ≤ MAX_HTTP_BODY_LEN)%N → Forall (λ r, r ≠ []) reads → concat reads = respond body →
  (read_http reads).1 = Ok ("HTTP/1.1 200 OK", body).
Proof.
  intros Hb Hne Hc. destruct (length_line_clean (blen body)) as [Hlc Hln]. pose proof (length_line_short _ Hb) as Hlen.
  rewrite <- (bytes_str_bytes "HTTP/1.1 200 OK").
  apply (read_lines _ [length_line (blen body)] (blen body)).
  - done.
  - constructor; [by apply clean_dec_spec|]. constructor; [done|constructor].
  - repeat (apply Forall_cons; split; [done|]); apply Forall_nil; done.
  - cbn [omap list_omap app]. by rewrite (length_line_value (blen body)) by (eapply N.le_lt_trans; [exact Hb|done]).
  - clear Hlc Hln. generalize dependent (length_line (blen body)). intros ll Hll.
    unfold blen, MAX_HTTP_HEADER_LEN. cbn [join_crlf foldr]. rewrite !length_app. simpl length. lia.
  - done.
  - done.
  - rewrite Hc. unfold respond. by rewrite response_head_lines.
Qed.

(** However the request and the response of an exchange are cut into reads, each side reads
    the first line and the body the other one wrote. *)
Theorem http_roundtrip (path : string) (body : bytes) (reads : list bytes) :
  clean (str_bytes path) → String.length path ≤ 1024 → (blen body ≤ MAX_HTTP_BODY_LEN)%N → Forall (λ r, r ≠ []) reads →
  (concat reads = request path body → (read_http reads).1 = Ok ("POST " +:+ path +:+ " HTTP/1.1", body)) ∧
  (concat reads = respond body → (read_http reads).1 = Ok ("HTTP/1.1 200 OK", body)).
Proof. intros ????. split; [by apply read_request|by apply read_response]. Qed.

(** ** On concrete data *)

(** A response cut inside the terminator; a header block that never ends; two length
    headers, of which the first counts; a length with other text, which counts as zero. *)
Example read_cut : read_http [str_bytes ("HTTP/1.1 200 OK" +:+ crlf +:+ "content-LENGTH:  +2 " +:+ bytes_str [x0d; x0a; x0d]); [x0a; x68]; [x69; x21]; [x00]]
  = (Ok ("HTTP/1.1 200 OK", [x68; x69]), [[x00]]).
Proof. by vm_compute. Qed.
Example read_first_length : (read_http [str_bytes ("A" +:+ crlf +:+ "Content-Length: 1" +:+ crlf +:+ "Content-Length: 9" +:+ crlf +:+ crlf +:+ "xyz")]).1
  = Ok ("A", [x78]).
Proof. by vm_compute. Qed.
Example read_bad_length : (read_http [str_bytes ("A" +:+ crlf +:+ "Content-Length: 1x" +:+ crlf +:+ crlf +:+ "xyz")]).1 = Ok ("A", []).
Proof. by vm_compute. Qed.
Example read_oversized : (read_http [str_bytes ("A" +:+ crlf +:+ "Content-Length: 268435457" +:+ crlf +:+ crlf)]).1
  = Err (Storage "http: content-length 268435457 exceeds cap 268435456").
Proof. by vm_compute. Qed.
Lemma http_roundtrip_witness :
  (read_http [str_bytes (response_head 2) ++ [x68]; [x69]]).1 = Ok ("HTTP/1.1 200 OK", [x68; x69]).
Proof.
  apply (http_roundtrip FETCH_PATH [x68; x69] [str_bytes (response_head 2) ++ [x68]; [x69]]); try reflexivity.
  - by apply clean_dec_spec.
  - vm_compute. lia.
  - vm_compute. discriminate.
  - by repeat constructor.
Defined.
