(* ===== verification/Session.v ===== *)
(** * Session: two programs over a duplex channel

    The [Conn] trait of src/src/sync/transport.rs is "a duplex, ordered, reliable channel
    for protocol control messages"; the sessions of src/src/sync are programs written
    against it.  Here such a program is a [Proc]: it computes on its node's state, sends,
    receives and returns.  A receive fails once the peer has returned and everything it
    sent has been received.  Once the peer has returned, a send fails or its message is lost:
    [InProcessConn::send] returns [connection closed] as soon as the peer has dropped its
    end, which it does some time after it has returned, and over TCP the operating system
    decides.  Every send of the source is followed by [?], so a program ends with the error.

    Two programs run interleaved, one step at a time.  The theorems: every session
    terminates; [ends Q] says that every interleaving ends with both programs returned and
    [Q], and has a rule for each kind of step; and each side behaves as it does when it is fed
    the other's messages from a list and the other takes some number of messages
    before it hangs up ([cstep_feed]), which is how a side is studied against an arbitrary peer. *)

From stdpp Require Import relations.
From S2P Require Import Prelude Wire.

(** ** Programs *)
Section proc.
Context {S : Type}.

Inductive Proc (X : Type) : Type :=
| PRet (r : res X)
| PSend (m : Message) (p : Proc X)
| PRecv (k : res Message → Proc X)
| PAct (f : S → S) (k : S → Proc X).
End proc.
Arguments Proc : clear implicits.
Arguments PRet {S X}.
Arguments PSend {S X}.
Arguments PRecv {S X}.
Arguments PAct {S X}.

#[global] Instance Proc_ret {S} : MRet (Proc S) := λ X x, PRet (Ok x).
#[global] Instance Proc_bind {S} : MBind (Proc S) := λ X Y k,
  fix go p :=
    match p with
    | PRet (Ok x) => k x
    | PRet (Err e) => PRet (Err e)
    | PSend m p => PSend m (go p)
    | PRecv c => PRecv (λ r, go (c r))
    | PAct f c => PAct f (λ s, go (c s))
    end.

(** A stateful computation of the node, [conn.send(m)?], [conn.recv()?], [conn.recv()]. *)
Definition run_local {S X} (m : M S X) : Proc S X := PAct (λ s, (m s).2) (λ s, PRet (m s).1).
Definition send {S} (m : Message) : Proc S () := PSend m (PRet (Ok ())).
Definition recv {S} : Proc S Message := PRecv (λ r, PRet r).
Definition try_recv {S} : Proc S (res Message) := PRecv (λ r, PRet (Ok r)).
Definition fail {S X} (e : Error) : Proc S X := PRet (Err e).

(** ** One side, fed from a list

    The peer takes [room] messages before it is gone. *)
Fixpoint feed {S X} (p : Proc S X) (s : S) (room : nat) (inbox : list Message) : res X * S * list Message :=
  match p with
  | PRet r => (r, s, [])
  | PSend m p =>
      match room with
      | O => (Err err_closed, s, [])
      | Datatypes.S room => let '(r, s', out) := feed p s room inbox in (r, s', m :: out)
      end
  | PRecv k =>
      match inbox with
      | [] => feed (k (Err err_closed)) s room []
      | m :: inbox => feed (k (Ok m)) s room inbox
      end
  | PAct f k => feed (k s) (f s) room inbox
  end.

Lemma feed_local {S X Y} (m : M S X) (k : X → Proc S Y) s room inbox :
  feed (run_local m ≫= k) s room inbox =
  match m s with (Ok x, s') => feed (k x) s' room inbox | (Err e, s') => (Err e, s', []) end.
Proof. unfold run_local, mbind, Proc_bind. cbn [feed]. by destruct (m s) as [[x|e] s']. Qed.
Lemma feed_local_ret {S X} (m : M S X) s room inbox : feed (run_local m) s room inbox = ((m s).1, (m s).2, []).
Proof. done. Qed.
Lemma feed_send {S Y} m (k : () → Proc S Y) s room inbox :
  feed (send m ≫= k) s room inbox =
  match room with
  | O => (Err err_closed, s, [])
  | Datatypes.S room => let '(r, s', out) := feed (k ()) s room inbox in (r, s', m :: out)
  end.
Proof. by destruct room. Qed.
Lemma feed_recv {S Y} (k : Message → Proc S Y) s room inbox :
  feed (recv ≫= k) s room inbox = match inbox with [] => (Err err_closed, s, []) | m :: inbox => feed (k m) s room inbox end.
Proof. by destruct inbox. Qed.
Lemma feed_bind_assoc {S X Y Z} (p : Proc S X) (k : X → Proc S Y) (l : Y → Proc S Z) s room inbox :
  feed ((p ≫= k) ≫= l) s room inbox = feed (p ≫= λ x, k x ≫= l) s room inbox.
Proof.
  revert s room inbox. unfold mbind, Proc_bind. induction p as [[x|e]|m p IH|c IH|f c IH]; intros s room inbox; [done..| | |].
  - cbn [feed]. destruct room as [|room]; [done|]. specialize (IH s room inbox). cbn in IH |- *. by rewrite IH.
  - destruct inbox; apply IH.
  - apply IH.
Qed.

(** ** Two sides *)
Section conf.
Context {S1 X1 S2 X2 : Type}.

Record Conf : Type := MkConf {
  c_proc : Proc S1 X1; c_state : S1; s_proc : Proc S2 X2; s_state : S2;
  to_server : list Message; to_client : list Message }.

Definition returned {S X} (p : Proc S X) : Prop := match p with PRet _ => True | _ => False end.

Inductive cstep : Conf → Conf → Prop :=
| client_send m p s sp ss q q' : cstep (MkConf (PSend m p) s sp ss q q') (MkConf p s sp ss (q ++ [m]) q')
| client_send_gone m p s sp ss q q' : returned sp →
    cstep (MkConf (PSend m p) s sp ss q q') (MkConf (PRet (Err err_closed)) s sp ss q q')
| client_recv k s sp ss q m q' : cstep (MkConf (PRecv k) s sp ss q (m :: q')) (MkConf (k (Ok m)) s sp ss q q')
| client_closed k s sp ss q : returned sp → cstep (MkConf (PRecv k) s sp ss q []) (MkConf (k (Err err_closed)) s sp ss q [])
| client_act f k s sp ss q q' : cstep (MkConf (PAct f k) s sp ss q q') (MkConf (k s) (f s) sp ss q q')
| server_send cp cs m p s q q' : cstep (MkConf cp cs (PSend m p) s q q') (MkConf cp cs p s q (q' ++ [m]))
| server_send_gone cp cs m p s q q' : returned cp →
    cstep (MkConf cp cs (PSend m p) s q q') (MkConf cp cs (PRet (Err err_closed)) s q q')
| server_recv cp cs k s m q q' : cstep (MkConf cp cs (PRecv k) s (m :: q) q') (MkConf cp cs (k (Ok m)) s q q')
| server_closed cp cs k s q' : returned cp → cstep (MkConf cp cs (PRecv k) s [] q') (MkConf cp cs (k (Err err_closed)) s [] q')
| server_act cp cs f k s q q' : cstep (MkConf cp cs (PAct f k) s q q') (MkConf cp cs (k s) (f s) q q').

(** Every session terminates. *)
Lemma acc_both r s r' s' q q' : Acc (flip cstep) (MkConf (PRet r) s (PRet r') s' q q').
Proof. constructor. intros c Hs. by inversion Hs. Qed.
Lemma acc_server r cs sp : ∀ ss q q', Acc (flip cstep) (MkConf (PRet r) cs sp ss q q').
Proof.
  induction sp as [r'|m p IH|k IH|f k IH]; intros ss q q'; [apply acc_both|..];
    constructor; intros c Hs; inversion Hs; subst; eauto using acc_both.
Qed.
Lemma acc_client r ss cp : ∀ cs q q', Acc (flip cstep) (MkConf cp cs (PRet r) ss q q').
Proof.
  induction cp as [r'|m p IH|k IH|f k IH]; intros cs q q'; [apply acc_both|..];
    constructor; intros c Hs; inversion Hs; subst; eauto using acc_both.
Qed.
Theorem cstep_wf : well_founded (flip cstep).
Proof.
  intros [cp cs sp ss q q']. revert cs sp ss q q'.
  induction cp as [r|m cp IHc|k IHc|f k IHc]; intros cs sp; revert cs; [intros; apply acc_server|..];
    (induction sp as [r'|m' sp IHs|k' IHs|f' k' IHs]; intros cs ss q q'; [apply acc_client|..];
      constructor; intros c' Hs; inversion Hs; subst; eauto using acc_server, acc_client).
Qed.

(** ** Each side, fed the other's messages *)
Theorem cstep_feed c d r1 r2 : rtc cstep c d → c_proc d = PRet r1 → s_proc d = PRet r2 →
  ∃ roomc rooms outc outs, feed (c_proc c) (c_state c) roomc (to_client c ++ outs) = (r1, c_state d, outc) ∧
    feed (s_proc c) (s_state c) rooms (to_server c ++ outc) = (r2, s_state d, outs).
Proof.
  induction 1 as [c|c1 c2 d Hs _ IH]; intros Hr1 Hr2.
  - exists 0%nat, 0%nat, [], []. by rewrite Hr1, Hr2.
  - destruct (IH Hr1 Hr2) as (rc & rs & outc & outs & Hc & Hsv). clear IH.
    destruct Hs; cbn [c_proc c_state s_proc s_state to_server to_client] in *.
    + exists (Datatypes.S rc), rs, (m :: outc), outs. cbn [feed]. rewrite Hc. split; [done|]. by rewrite <- app_assoc in Hsv.
    + exists 0%nat, rs, outc, outs. done.
    + exists rc, rs, outc, outs. done.
    + exists rc, rs, outc, outs. destruct sp; [|done..]. cbn [feed] in Hsv. injection Hsv as -> <- <-. done.
    + exists rc, rs, outc, outs. done.
    + exists rc, (Datatypes.S rs), outc, (m :: outs). cbn [feed]. rewrite Hsv. split; [|done]. by rewrite <- app_assoc in Hc.
    + exists rc, 0%nat, outc, outs. done.
    + exists rc, rs, outc, outs. done.
    + exists rc, rs, outc, outs. destruct cp; [|done..]. cbn [feed] in Hc. injection Hc as -> <- <-. done.
    + exists rc, rs, outc, outs. done.
Qed.

Definition final (c : Conf) : Prop := ∀ c', ¬ cstep c c'.

(** ** A scheduler: the client as long as it can, then the server; no send fails *)
Definition cnext (c : Conf) : option Conf :=
  let '(MkConf cp cs sp ss q q') := c in
  let server :=
    match sp with
    | PRet _ => None
    | PSend m p => Some (MkConf cp cs p ss q (q' ++ [m]))
    | PRecv k =>
        match q, cp with
        | m :: q, _ => Some (MkConf cp cs (k (Ok m)) ss q q')
        | [], PRet _ => Some (MkConf cp cs (k (Err err_closed)) ss [] q')
        | [], _ => None
        end
    | PAct f k => Some (MkConf cp cs (k ss) (f ss) q q')
    end in
  match cp with
  | PRet _ => server
  | PSend m p => Some (MkConf p cs sp ss (q ++ [m]) q')
  | PRecv k =>
      match q', sp with
      | m :: q', _ => Some (MkConf (k (Ok m)) cs sp ss q q')
      | [], PRet _ => Some (MkConf (k (Err err_closed)) cs sp ss q [])
      | [], _ => server
      end
  | PAct f k => Some (MkConf (k cs) (f cs) sp ss q q')
  end.
Fixpoint crun (fuel : nat) (c : Conf) : option Conf :=
  match cnext c with
  | None => Some c
  | Some c' => match fuel with 0%nat => None | Datatypes.S fuel => crun fuel c' end
  end.

Lemma cnext_step c c' : cnext c = Some c' → cstep c c'.
Proof.
  destruct c as [cp cs sp ss q q']. destruct cp as [r|m p|k|f k], q' as [|m' q'], sp as [r'|m2 p'|k'|f' k'], q as [|m3 q];
    cbn; intros Hc; try done; injection Hc as <-; by constructor.
Qed.
Lemma cnext_final c : cnext c = None → final c.
Proof.
  intros Hc c' Hs. destruct Hs; cbn in Hc; try done; repeat case_match; by simplify_eq/=.
Qed.

Lemma crun_rtc fuel c d : crun fuel c = Some d → rtc cstep c d ∧ final d.
Proof.
  revert c. induction fuel as [|fuel IH]; intros c; cbn [crun]; destruct (cnext c) as [c'|] eqn:Hc; try done.
  1, 3: intros [= <-]; split; [done|by apply cnext_final].
  intros [Hr Hf]%IH. split; [|done]. eapply rtc_l; [|exact Hr]. by apply cnext_step.
Qed.

(** ** Outcomes of every interleaving *)

(** Every run of [c] ends, with both programs returned, and [Q] of the configuration. *)
Inductive ends (Q : Conf → Prop) : Conf → Prop :=
| ends_returned r1 s1 r2 s2 q q' : Q (MkConf (PRet r1) s1 (PRet r2) s2 q q') → ends Q (MkConf (PRet r1) s1 (PRet r2) s2 q q')
| ends_steps c c' : cstep c c' → (∀ d, cstep c d → ends Q d) → ends Q c.

Theorem ends_final Q c d : ends Q c → rtc cstep c d → final d → returned (c_proc d) ∧ returned (s_proc d) ∧ Q d.
Proof.
  intros He. induction He as [r1 s1 r2 s2 q q' HQ|c c' Hs _ IH]; intros Hr Hf.
  - inversion Hr as [|? e ? Hst]; subst; [done|]. by inversion Hst.
  - inversion Hr as [|? e ? Hst Hrt]; subst; [by destruct (Hf c')|]. by apply (IH e).
Qed.
(** In particular some run ends like that. *)
Theorem ends_run Q c : ends Q c → ∃ d, rtc cstep c d ∧ final d ∧ Q d.
Proof.
  induction 1 as [r1 s1 r2 s2 q q' HQ|c c' Hs _ IH].
  - eexists. split; [apply rtc_refl|]. split; [|done]. intros c' Hs. by inversion Hs.
  - destruct (IH c' Hs) as (d & ? & ?). exists d. split; [by eapply rtc_l|done].
Qed.

(** A local step or the receipt of a message that is there can be taken first: it commutes
    with every step of the other side, which it neither enables nor prevents. *)
Definition client_first (c c1 : Conf) : Prop :=
  match c with
  | MkConf (PAct f k) cs sp ss q q' => c1 = MkConf (k cs) (f cs) sp ss q q'
  | MkConf (PRecv k) cs sp ss q (m :: q') => c1 = MkConf (k (Ok m)) cs sp ss q q'
  | _ => False
  end.
Definition server_first (c c1 : Conf) : Prop :=
  match c with
  | MkConf cp cs (PAct f k) ss q q' => c1 = MkConf cp cs (k ss) (f ss) q q'
  | MkConf cp cs (PRecv k) ss (m :: q) q' => c1 = MkConf cp cs (k (Ok m)) ss q q'
  | _ => False
  end.

Lemma client_first_step c c1 : client_first c c1 → cstep c c1.
Proof. destruct c as [[] ? ? ? ? [|]]; simpl; intros; subst; try done; constructor. Qed.
Lemma server_first_step c c1 : server_first c c1 → cstep c c1.
Proof. destruct c as [? ? [] ? [|] ?]; simpl; intros; subst; try done; constructor. Qed.
Lemma client_first_commutes c c1 d : client_first c c1 → cstep c d → d = c1 ∨ ∃ e, client_first d e ∧ cstep c1 e.
Proof.
  destruct c as [[r|m p|k|f k] cs sp ss q [|m' q']]; simpl; intros ? Hs; subst; try done;
    inversion Hs; subst; try done; try (by left); right; eexists; (split; [reflexivity|]); econstructor; done.
Qed.
Lemma server_first_commutes c c1 d : server_first c c1 → cstep c d → d = c1 ∨ ∃ e, server_first d e ∧ cstep c1 e.
Proof.
  destruct c as [cp cs [r|m p|k|f k] ss [|m' q] q']; simpl; intros ? Hs; subst; try done;
    inversion Hs; subst; try done; try (by left); right; eexists; (split; [reflexivity|]); econstructor; done.
Qed.
Lemma ends_first (first : Conf → Conf → Prop) Q :
  (∀ c c1, first c c1 → cstep c c1) → (∀ c c1 d, first c c1 → cstep c d → d = c1 ∨ ∃ e, first d e ∧ cstep c1 e) →
  ∀ c c1, first c c1 → ends Q c1 → ends Q c.
Proof.
  intros Hst Hcom c c1 Hf He. revert c Hf. induction He as [r1 s1 r2 s2 q q' HQ|c1 c' Hs He IH]; intros c Hf.
  - apply (ends_steps Q c _ (Hst c _ Hf)); intros d Hd. destruct (Hcom _ _ d Hf Hd) as [->|(e & _ & Hs)]; [by apply ends_returned|by inversion Hs].
  - apply (ends_steps Q c _ (Hst c _ Hf)); intros d Hd. destruct (Hcom _ _ d Hf Hd) as [->|(e & Hfe & Hse)]; [by apply (ends_steps Q c1 c')|].
    by apply (IH e).
Qed.
Lemma ends_client Q c c1 : client_first c c1 → ends Q c1 → ends Q c.
Proof. apply ends_first; [apply client_first_step|apply client_first_commutes]. Qed.
Lemma ends_server Q c c1 : server_first c c1 → ends Q c1 → ends Q c.
Proof. apply ends_first; [apply server_first_step|apply server_first_commutes]. Qed.

(** The only step: a send to a peer that waits, the end of the connection, and
    the two outcomes of a send to a peer that has returned. *)
Lemma ends_client_send Q m p cs k ss q' : ends Q (MkConf p cs (PRecv k) ss [m] q') → ends Q (MkConf (PSend m p) cs (PRecv k) ss [] q').
Proof. intros He. eapply ends_steps; [by apply client_send|]. intros d Hd. by inversion Hd; subst. Qed.
Lemma ends_server_send Q k cs m p ss q : ends Q (MkConf (PRecv k) cs p ss q [m]) → ends Q (MkConf (PRecv k) cs (PSend m p) ss q []).
Proof. intros He. eapply ends_steps; [by apply server_send|]. intros d Hd. by inversion Hd; subst. Qed.
Lemma ends_client_closed Q k cs r ss q : ends Q (MkConf (k (Err err_closed)) cs (PRet r) ss q []) → ends Q (MkConf (PRecv k) cs (PRet r) ss q []).
Proof. intros He. eapply ends_steps; [by apply client_closed|]. intros d Hd. by inversion Hd; subst. Qed.
Lemma ends_server_closed Q r cs k ss q' : ends Q (MkConf (PRet r) cs (k (Err err_closed)) ss [] q') → ends Q (MkConf (PRet r) cs (PRecv k) ss [] q').
Proof. intros He. eapply ends_steps; [by apply server_closed|]. intros d Hd. by inversion Hd; subst. Qed.
Lemma ends_client_gone Q m p cs r ss q q' : ends Q (MkConf p cs (PRet r) ss (q ++ [m]) q') →
  ends Q (MkConf (PRet (Err err_closed)) cs (PRet r) ss q q') → ends Q (MkConf (PSend m p) cs (PRet r) ss q q').
Proof. intros He Hg. eapply ends_steps; [by apply client_send|]. intros d Hd. by inversion Hd; subst. Qed.
Lemma ends_server_gone Q r cs m p ss q q' : ends Q (MkConf (PRet r) cs p ss q (q' ++ [m])) →
  ends Q (MkConf (PRet r) cs (PRet (Err err_closed)) ss q q') → ends Q (MkConf (PRet r) cs (PSend m p) ss q q').
Proof. intros He Hg. eapply ends_steps; [by apply server_send|]. intros d Hd. by inversion Hd; subst. Qed.
End conf.
Arguments Conf : clear implicits.

(** Computes the two programs and the queues to their next constructors. *)
Ltac head_conf :=
  lazymatch goal with
  | |- ends ?Q (MkConf ?cp ?cs ?sp ?ss ?q ?q') =>
      let cp' := eval hnf in cp in let sp' := eval hnf in sp in let u := eval hnf in q in let v := eval hnf in q' in
      change (ends Q (MkConf cp' cs sp' ss u v))
  end.
(** One rule: local steps and receipts first. *)
Ltac next_step :=
  head_conf;
  first [ eapply ends_client; [reflexivity|] | eapply ends_server; [reflexivity|]
        | apply ends_client_send | apply ends_server_send | apply ends_client_closed | apply ends_server_closed ]; cbv beta.
Ltac run_session :=
  repeat next_step; cbn;
  first [apply ends_returned | head_conf; first [apply ends_server_gone | apply ends_client_gone]; run_session | repeat next_step; cbn].
