(* ===== verification/Sync.v ===== *)
(** * Sync: pushing and fetching

    The sessions of src/src/sync/session.rs ([serve], [serve_fetch], [serve_push],
    [apply_push_ops], [client_fetch], [client_push]) as programs over a channel
    ([Session.v]).

    A [Node] is a repository whose object store is a storage backend with the bytes of
    its objects, since packs carry bytes; [node_repo] is the [Repository] of [Repo.v] over
    the decoded view of that store.  [SyncFacts.v] and
    [SyncPush.v] hold the theorems. *)

From S2P Require Import Prelude Bytes Graph Lattice Access Ids Objects Refs RefStore Signing Policy Authority Merge Store Pack Gc Acl Walk Repo Wire Session.

(** ** Nodes *)
Record Node (B R A : Type) : Type := MkNode {
  n_store : B;
  n_refs : R;
  n_acls : A;
  n_hooks : list HookSpec;
  n_audit : option (list AuditEvent)
}.
Arguments MkNode {B R A}.
Arguments n_store {B R A}.
Arguments n_refs {B R A}.
Arguments n_acls {B R A}.
Arguments n_hooks {B R A}.
Arguments n_audit {B R A}.

Section node.
Context {B R A : Type}.
Implicit Types n : Node B R A.

Definition set_store (b : B) n : Node B R A := MkNode b (n_refs n) (n_acls n) (n_hooks n) (n_audit n).
Definition set_nrefs (r : R) n : Node B R A := MkNode (n_store n) r (n_acls n) (n_hooks n) (n_audit n).
Definition on_store {X} (m : M B X) : M (Node B R A) X := λ n,
  let '(r, b) := m (n_store n) in (r, set_store b n).
Definition on_nrefs {X} (m : M R X) : M (Node B R A) X := λ n,
  let '(r, refs) := m (n_refs n) in (r, set_nrefs refs n).
End node.

(** ** What a push may not touch *)
Definition reserved (name : string) : bool :=
  String.prefix "refs/policy/" name || String.prefix "refs/collab/" name.

Definition denied (reason : string) (op : RefUpdateOp) : RefStatusEntry := MkStatus (up_name op) (Denied reason).

(** The ref operation of an accepted update. *)
Definition push_ref_op (op : RefUpdateOp) : RefOp :=
  match up_expected_old op with
  | Some old => AdvanceHeadIf (up_name op) old (up_new_head op)
  | None => CreateTimeline (up_name op) (up_new_head op) FastForwardOnly 0 "persistent" None
  end.

Definition tag_op (name : RefName) (target : ObjectId) : RefOp := SetRef name (RTag (MkTag target 0 None)).

Section sync.
Context {B : Type} `{StorageLaws B}.
Context {R : Type} `{RefBackend R, IoText, Ed25519}.
Context {A : Type} `{AclBackend A}.
Context `{!ObjectCodec, Zstd}.
Abbreviation Node := (Node B R A).
Implicit Types n : Node.

Definition node_repo n : Repository R A := MkRepo (decoded (n_store n)) (n_refs n) (n_acls n) (n_hooks n) (n_audit n).

Definition tracking_ref (remote_name : string) (name : RefName) : res RefName :=
  match RefName_new ("refs/remotes/" +:+ remote_name +:+ "/" +:+ as_str name) with
  | Ok n => Ok n
  | Err e => Err (Storage ("bad tracking ref name: " +:+ error_text e))
  end.

(** ** Adverts and packs *)
Definition advert_step n (out : list RefAdvert) (name : RefName) : res (list RefAdvert) :=
  r ← get_ref (n_refs n) name;
  Ok (match r with
      | Some (RTimeline t) => out ++ [MkAdvert name (head t) true]
      | Some (RTag t) => out ++ [MkAdvert name (tag_target t) false]
      | None => out
      end).
Definition advertise n (accessor : Accessor) : res (list RefAdvert) :=
  names ← list_refs_served (node_repo n) "" accessor;
  res_fold (advert_step n) [] names.

Definition pack_step n (b : PackBuilder) (id : ObjectId) : res PackBuilder :=
  d ← get_raw (n_store n) id;
  Ok (match d with Some data => builder_add b id data | None => b end).
Definition build_pack n (ids : list ObjectId) : res bytes :=
  b ← res_fold (pack_step n) builder_new ids;
  '(pack, _, _) ← finish b;
  Ok pack.

(** [for (_id, canonical) in &decoded { repo.objects.put_raw(canonical)?; }] *)
Definition land (objs : list (ObjectId * bytes)) : M Node () :=
  M_iter (λ e, _ ← on_store (put_raw e.2); mret ()) objs.

(** ** Applying a push *)
Fixpoint present_loop (fuel : nat) (b : B) (seen : gset ObjectId) (stack : list ObjectId) : option (res bool) :=
  match fuel with
  | 0%nat => None
  | S fuel =>
      match stack with
      | [] => Some (Ok true)
      | x :: stack =>
          if decide (x ∈ seen) then present_loop fuel b seen stack
          else match get b x with
               | Err e => Some (Err e)
               | Ok (Some obj) => present_loop fuel b ({[x]} ∪ seen) (rev (child_edges obj) ++ stack)
               | Ok None => Some (Ok false)
               end
      end
  end.
Definition closure_present (b : B) (root : ObjectId) : res bool :=
  default (Err out_of_fuel) (present_loop (walk_fuel child_edges b 1) b ∅ [root]).

(** The fast-forward gate: [Some] is a refusal. *)
Definition ff_gate n (op : RefUpdateOp) (current : option Timeline) : res (option RefApplyStatus) :=
  match up_expected_old op, current with
  | Some old, Some remote =>
      anc ← find_common_ancestor (decoded (n_store n)) old (up_new_head op);
      Ok (if negb (bool_decide (policy remote = Unrestricted)) && negb (bool_decide (anc = Some old))
          then Some (NonFastForward (head remote)) else None)
  | _, _ => Ok None
  end.
Definition hook_gate n (registry : PolicyRegistry R) (accessor : Accessor) (op : RefUpdateOp) (current : option Timeline)
    : option RefApplyStatus :=
  match current with
  | Some remote =>
      match evaluate_replayable registry
              (MkContext (EvAdvance (up_name op) (head remote) (up_new_head op)) accessor (decoded (n_store n)) (n_refs n) 0) with
      | Allow => None
      | Deny reason | RequiresApproval reason _ => Some (Denied reason)
      end
  | None => None
  end.

(** One turn of the loop over the updates: [None] accepts. *)
Definition check_push_op n (registry : PolicyRegistry R) (lattice : LabelLattice) (rules : LabelRuleSet) (accessor : Accessor)
    (op : RefUpdateOp) : res (option RefApplyStatus) :=
  let name := as_str (up_name op) in
  if reserved name then Ok (Some (Denied "reserved ref namespace"))
  else if negb (can_write accessor (label_for_timeline rules lattice name) (ResTimeline name))
  then Ok (Some (Denied "write denied on timeline"))
  else
    obj ← os_get (decoded (n_store n)) (up_new_head op);
    match obj with
    | Some (OSnapshot _) =>
        present ← closure_present (n_store n) (up_new_head op);
        if negb present then Ok (Some (Denied "incomplete object closure"))
        else
          current ← get_timeline (n_refs n) (up_name op);
          ff ← ff_gate n op current;
          Ok (match ff with Some st => Some st | None => hook_gate n registry accessor op current end)
    | _ => Ok (Some (Denied "new head is not a snapshot"))
    end.
Definition push_op_step n (registry : PolicyRegistry R) (lattice : LabelLattice) (rules : LabelRuleSet) (accessor : Accessor)
    (acc : list RefStatusEntry * list RefUpdateOp) (op : RefUpdateOp) : res (list RefStatusEntry * list RefUpdateOp) :=
  c ← check_push_op n registry lattice rules accessor op;
  Ok (match c with
      | Some st => (acc.1 ++ [MkStatus (up_name op) st], acc.2)
      | None => (acc.1, acc.2 ++ [op])
      end).

Definition nondeterministic_reason (registry : PolicyRegistry R) : string :=
  "repository binds non-deterministic policy hook(s) [" +:+ join_names (non_deterministic registry) +:+
  "]; refusing replicated push (fail-closed)".

(** The head to report after a lost race; the zero id when there is no timeline. *)
Definition conflict_entry (refs : R) (op : RefUpdateOp) : res RefStatusEntry :=
  t ← get_timeline refs (up_name op);
  Ok (MkStatus (up_name op) (NonFastForward (match t with Some t => head t | None => ObjectId_new (pad_vec 32 []) end))).

Definition commit_push (results : list RefStatusEntry) (accepted : list RefUpdateOp) : M Node (list RefStatusEntry) := λ n,
  match on_nrefs (commit_transaction (push_ref_op <$> accepted)) n with
  | (Ok _, n') => (Ok (results ++ ((λ op, MkStatus (up_name op) StatusOk) <$> accepted)), n')
  | (Err (TransactionConflict _), n') =>
      (entries ← res_map (conflict_entry (n_refs n')) accepted; Ok (results ++ entries), n')
  | (Err e, n') => (Err e, n')
  end.

Definition apply_push_ops (accessor : Accessor) (ops : list RefUpdateOp) : M Node (list RefStatusEntry) :=
  lattice ← gets (λ n, get_lattice (n_acls n));
  rules ← gets (λ n, get_label_ruleset (n_acls n));
  registry ← gets (λ n, policy_registry (node_repo n));
  if negb (deterministic registry) then mret (denied (nondeterministic_reason registry) <$> ops)
  else
    '(results, accepted) ← gets (λ n, res_fold (push_op_step n registry lattice rules accessor) ([], []) ops);
    match accepted with
    | [] => mret results
    | _ :: _ => commit_push results accepted
    end.

(** ** The responder *)

(** What is missing of the closure of the wanted ids, as far as they are [authorized]. *)
Definition send_closure (authorized : gset ObjectId) (want have : list ObjectId) : Proc Node () :=
  let want := filter (λ w, w ∈ authorized) want in
  missing ← run_local (gets (λ n, missing_closure (n_store n) want (list_to_set have)));
  pack ← run_local (gets (λ n, build_pack n missing));
  _ ← send (Pack pack);
  send MDone.

Definition serve_fetch (accessor : Accessor) : Proc Node () :=
  refs ← run_local (gets (λ n, advertise n accessor));
  _ ← send (Welcome PROTO_VERSION CAP_EMPTY refs None);
  m ← recv;
  match m with
  | HaveWant want have => send_closure (list_to_set (ad_target <$> refs)) want have
  | _ => fail (Storage "protocol: expected HaveWant")
  end.

Definition serve_push (accessor : Accessor) : Proc Node () :=
  refs ← run_local (gets (λ n, advertise n accessor));
  _ ← send (Welcome PROTO_VERSION CAP_EMPTY refs None);
  m ← recv;
  match m with
  | Pack p =>
      objs ← run_local (lift_res (decode_pack p));
      m ← recv;
      match m with
      | RefUpdate ops =>
          if negb (has_write_capability accessor)
          then send (RefStatus (denied "no write capability" <$> ops))
          else
            _ ← run_local (land objs);
            results ← run_local (apply_push_ops accessor ops);
            send (RefStatus results)
      | _ => fail (Storage "protocol: expected RefUpdate")
      end
  | _ => fail (Storage "protocol: expected Pack")
  end.

Definition serve (accessor : Accessor) : Proc Node () :=
  m ← recv;
  match m with
  | Hello _ _ _ Fetch _ | Hello _ _ _ Clone _ => serve_fetch accessor
  | Hello _ _ _ Push _ => serve_push accessor
  | _ => _ ← send (MError "expected Hello"); fail (Storage "protocol: expected Hello")
  end.

(** ** The initiators *)
Definition hello (intent : Intent) : Message := Hello PROTO_VERSION PROTO_VERSION CAP_EMPTY intent None.

(** The [Welcome] of the responder. *)
Definition recv_welcome : Proc Node (list RefAdvert) :=
  m ← recv;
  match m with
  | Welcome _ _ refs _ => mret refs
  | MError e => fail (Storage e)
  | _ => fail (Storage "protocol: expected Welcome")
  end.

Definition tracked_advert (remote_name : string) (r : RefAdvert) : res (RefName * ObjectId) :=
  tref ← tracking_ref remote_name (ad_name r); Ok (tref, ad_target r).
Definition set_tracking (tracked : list (RefName * ObjectId)) : M Node () :=
  on_nrefs (commit_transaction ((λ e, tag_op e.1 e.2) <$> tracked)).

Definition client_fetch (remote_name : string) : Proc Node (list (RefName * ObjectId)) :=
  _ ← send (hello Fetch);
  refs ← recv_welcome;
  have ← run_local (gets (λ n, list_ids (n_store n)));
  _ ← send (HaveWant (ad_target <$> refs) have);
  m ← recv;
  match m with
  | Pack p =>
      _ ← recv;
      objs ← run_local (lift_res (decode_pack p));
      _ ← run_local (land objs);
      tracked ← run_local (lift_res (res_map (tracked_advert remote_name) refs));
      _ ← run_local (set_tracking tracked);
      mret tracked
  | _ => fail (Storage "protocol: expected Pack")
  end.

(** The updates and wants of the local timelines a push names; a name that is no local
    timeline is skipped. *)
Definition push_plan_step n (remote_name : string) (plan : list RefUpdateOp) (name : RefName) : res (list RefUpdateOp) :=
  t ← get_timeline (n_refs n) name;
  match t with
  | None => Ok plan
  | Some tl =>
      tracking ← tracking_ref remote_name name;
      tag ← get_tag (n_refs n) tracking;
      Ok (plan ++ [MkUpdate name (tag_target <$> tag) (head tl)])
  end.
(** The tracking refs of the accepted updates. *)
Definition accepted_step (remote_name : string) (ops : list RefUpdateOp) (out : list (RefName * ObjectId)) (entry : RefStatusEntry)
    : res (list (RefName * ObjectId)) :=
  if decide (rs_status entry = StatusOk) then
    match find_first (λ o, bool_decide (up_name o = rs_name entry)) ops with
    | Some op => tref ← tracking_ref remote_name (rs_name entry); Ok (out ++ [(tref, up_new_head op)])
    | None => Ok out
    end
  else Ok out.
Definition accepted_tracking (remote_name : string) (ops : list RefUpdateOp) (results : list RefStatusEntry)
    : res (list (RefName * ObjectId)) := res_fold (accepted_step remote_name ops) [] results.

Definition client_push (remote_name : string) (timelines : list RefName) : Proc Node (list RefStatusEntry) :=
  _ ← send (hello Push);
  server_refs ← recv_welcome;
  let server_have : gset ObjectId := list_to_set (ad_target <$> server_refs) in
  ops ← run_local (gets (λ n, res_fold (push_plan_step n remote_name) [] timelines));
  missing ← run_local (gets (λ n, missing_closure (n_store n) (up_new_head <$> ops) server_have));
  pack ← run_local (gets (λ n, build_pack n missing));
  _ ← send (Pack pack);
  _ ← send (RefUpdate ops);
  m ← recv;
  match m with
  | RefStatus results =>
      tracked ← run_local (lift_res (accepted_tracking remote_name ops results));
      _ ← run_local (set_tracking tracked);
      mret results
  | MError e => fail (Storage e)
  | _ => fail (Storage "protocol: expected RefStatus")
  end.
End sync.
