(* ===== verification/HttpSync.v ===== *)
(** * HttpSync: one round trip per verb

    The verbs of src/src/sync/http.rs over the messages of [Http.v]: the client's
    [http_fetch] and [http_push] and the server's [serve_http_once].  The postcard
    encoding of the request and response structs is a parameter.

    What a server may lose to any number of requests is in [SyncPush.v], the rest of the
    theorems in [HttpSyncFacts.v]. *)

From S2P Require Import Prelude Bytes Graph Lattice Access Ids Text Objects Refs RefStore Signing Policy Authority Merge Store Pack Gc Acl Walk Repo Wire Http Session Sync.

(** ** Requests and responses *)
Record FetchReq : Type := MkFetchReq { fq_have : list ObjectId }.
Record FetchResp : Type := MkFetchResp { fr_refs : list RefAdvert; fr_pack : bytes }.
Record PushReq : Type := MkPushReq { pq_pack : bytes; pq_ops : list RefUpdateOp }.
Record PushResp : Type := MkPushResp { pr_status : list RefStatusEntry }.

(** [postcard::to_allocvec], [postcard::from_bytes]; decoding a ref name validates it. *)
Class BodyCodec (X : Type) := { to_allocvec : X → res bytes; from_bytes : bytes → res X }.
Class BodyCodecLaws (X : Type) `{BodyCodec X} (names : X → list RefName) := {
  from_to_bytes (x : X) body : to_allocvec x = Ok body → from_bytes body = Ok x;
  from_bytes_names body (x : X) : from_bytes body = Ok x → Forall valid_name (names x)
}.

#[global] Instance FetchReq_eq_dec : EqDecision FetchReq. Proof. solve_decision. Defined.
#[global] Instance FetchResp_eq_dec : EqDecision FetchResp. Proof. solve_decision. Defined.
#[global] Instance PushReq_eq_dec : EqDecision PushReq. Proof. solve_decision. Defined.
#[global] Instance PushResp_eq_dec : EqDecision PushResp. Proof. solve_decision. Defined.

(** The ref names in each. *)
Definition req_names (_ : FetchReq) : list RefName := [].
Definition resp_names (r : FetchResp) : list RefName := ad_name <$> fr_refs r.
Definition push_names (r : PushReq) : list RefName := up_name <$> pq_ops r.
Definition status_names (r : PushResp) : list RefName := rs_name <$> pr_status r.

Section http.
Context {B : Type} `{StorageLaws B}.
Context {R : Type} `{RefBackend R, IoText, Ed25519}.
Context {A : Type} `{AclBackend A}.
Context `{!ObjectCodec, Zstd}.
Context `{!BodyCodec FetchReq, !BodyCodec FetchResp, !BodyCodec PushReq, !BodyCodec PushResp}.
Abbreviation Node := (Node B R A).

(** ** The client: [connect] is what connecting to the address gives *)
Definition http_fetch (connect : res Peer) (remote_name : string) : M Node (list (RefName * ObjectId)) :=
  stream ← lift_res connect;
  have ← gets (λ n, list_ids (n_store n));
  body ← lift_res (to_allocvec (MkFetchReq have));
  resp ← lift_res (post stream FETCH_PATH body);
  resp ← lift_res (from_bytes (X := FetchResp) resp);
  objs ← lift_res (decode_pack (fr_pack resp));
  _ ← land objs;
  tracked ← lift_res (res_map (tracked_advert remote_name) (fr_refs resp));
  _ ← set_tracking tracked;
  mret tracked.

Definition http_push (connect : res Peer) (remote_name : string) (timelines : list RefName) : M Node (list RefStatusEntry) :=
  ops ← gets (λ n, res_fold (push_plan_step n remote_name) [] timelines);
  let have : gset ObjectId := list_to_set (omap up_expected_old ops) in
  missing ← gets (λ n, missing_closure (n_store n) (up_new_head <$> ops) have);
  pack ← gets (λ n, build_pack n missing);
  stream ← lift_res connect;
  body ← lift_res (to_allocvec (MkPushReq pack ops));
  resp ← lift_res (post stream PUSH_PATH body);
  resp ← lift_res (from_bytes (X := PushResp) resp);
  tracked ← lift_res (accepted_tracking remote_name ops (pr_status resp));
  _ ← set_tracking tracked;
  mret (pr_status resp).

(** ** The server: the response to the request that [reads] brings *)
Definition serve_http_fetch (accessor : Accessor) (body : bytes) : M Node bytes :=
  req ← lift_res (from_bytes (X := FetchReq) body);
  refs ← gets (λ n, advertise n accessor);
  missing ← gets (λ n, missing_closure (n_store n) (ad_target <$> refs) (list_to_set (fq_have req)));
  pack ← gets (λ n, build_pack n missing);
  out ← lift_res (to_allocvec (MkFetchResp refs pack));
  mret (respond out).

Definition serve_http_push (accessor : Accessor) (body : bytes) : M Node bytes :=
  req ← lift_res (from_bytes (X := PushReq) body);
  decoded ← lift_res (decode_pack (pq_pack req));
  status ←
    (if negb (has_write_capability accessor) then mret (denied "no write capability" <$> pq_ops req)
     else _ ← land decoded; apply_push_ops accessor (pq_ops req));
  out ← lift_res (to_allocvec (MkPushResp status));
  mret (respond out).

Definition serve_http_once (accessor : Accessor) (reads : list bytes) : M Node bytes :=
  '(start_line, body) ← lift_res (read_http reads).1;
  if str_contains start_line FETCH_PATH then serve_http_fetch accessor body
  else if str_contains start_line PUSH_PATH then serve_http_push accessor body
  else mret not_found_response.
End http.

(** ** A codec for concrete runs *)
Definition table_bodies {X : Type} `{EqDecision X} (table : list (X * bytes)) : BodyCodec X := {|
  to_allocvec x :=
    match find_first (λ p, bool_decide (p.1 = x)) table with Some p => Ok p.2 | None => Err (Codec "unsupported") end;
  from_bytes data :=
    match find_first (λ p, bool_decide (p.2 = data)) table with Some p => Ok p.1 | None => Err (Codec "malformed") end
|}.
Lemma table_bodies_laws {X : Type} `{EqDecision X} (table : list (X * bytes)) (names : X → list RefName) :
  NoDup table.*2 → Forall (λ p, Forall valid_name (names p.1)) table → @BodyCodecLaws X (table_bodies table) names.
Proof.
  intros Hnd Hv. rewrite Forall_forall in Hv. split.
  - intros x body. simpl. destruct (find_first _ table) as [p|] eqn:Hp; [|done]. intros [= <-].
    apply find_first_Some in Hp as [Hin <-%bool_decide_eq_true]. by rewrite (table_find table p Hnd Hin).
  - intros body x. simpl. destruct (find_first _ table) as [p|] eqn:Hp; [|done]. intros [= <-].
    apply find_first_Some in Hp as [Hin _]. by apply Hv.
Qed.
