(* ===== verification/SyncFacts.v ===== *)
(** * SyncFacts: what a peer can do to a repository, and get from it

    Theorems about [Sync.v].  Against any peer whatever: a fetch changes nothing on the
    serving side and sends no object that a served ref does not reach; a push only moves the
    refs that its updates name, each under all the checks of [check_push_op], never one
    of a reserved namespace, never to a head whose closure is incomplete, and
    writes nothing at all without a write capability. *)

From S2P Require Import Prelude Bytes Graph Text Lattice Access Ids Objects Refs RefStore Signing Policy Authority Merge Store Pack Gc Acl Walk Repo Wire Session Sync.

Section facts.
Context {B : Type} `{StorageLaws B}.
Context {R : Type} `{RefBackendLaws R, IoText, Ed25519}.
Context {A : Type} `{AclLaws A}.
Context `{!ObjectCodec, Zstd}.
Abbreviation Node := (Node B R A).
Implicit Types n : Node.

(** ** Adverts and packs *)
Definition advert_of (name : RefName) (v : Ref) : RefAdvert :=
  MkAdvert name (ref_target v) (match v with RTimeline _ => true | RTag _ => false end).

Lemma served_view n a names name : be_inv (n_refs n) → list_refs_served (node_repo n) "" a = Ok names → name ∈ names →
  is_Some (be_view (n_refs n) !! name).
Proof.
  intros Hi Hl Hn. unfold list_refs_served, list_refs_filtered in Hl. apply bind_Ok in Hl as (l1 & Hl & [= <-]).
  apply bind_Ok in Hl as (L & _ & Hl). apply bind_Ok in Hl as (rs & _ & Hl). apply bind_Ok in Hl as (all & Hall & [= <-]).
  apply list_elem_of_filter in Hn as [_ [_ Hn]%list_elem_of_filter]. destruct (be_list_Ok _ _ _ Hi Hall) as (_ & _ & Hin). by apply Hin in Hn as [? _].
Qed.

Lemma advertise_spec n a refs : be_inv (n_refs n) → advertise n a = Ok refs →
  ∃ names, list_refs_served (node_repo n) "" a = Ok names ∧
    ∀ r, r ∈ refs ↔ ∃ name v, name ∈ names ∧ be_view (n_refs n) !! name = Some v ∧ r = advert_of name v.
Proof.
  intros Hi. unfold advertise. intros (names & Hn & Hf)%bind_Ok. exists names. split; [done|].
  assert (∀ l out, (∀ name, name ∈ l → name ∈ names) → res_fold (advert_step n) out l = Ok refs →
    ∀ r, r ∈ refs ↔ r ∈ out ∨ ∃ name v, name ∈ l ∧ be_view (n_refs n) !! name = Some v ∧ r = advert_of name v) as Hgen.
  { induction l as [|name l IH]; intros out Hl Hr r; simpl in Hr.
    - injection Hr as <-. split; [by left|]. intros [?|(? & ? & ?%elem_of_nil & _)]; done.
    - apply bind_Ok in Hr as (out1 & Ho & Hr). rewrite (IH _ (λ m Hm, Hl m ltac:(by right)) Hr).
      destruct (served_view n a names name Hi Hn (Hl name ltac:(by left))) as [v Hv].
      unfold advert_step, get_ref in Ho. rewrite (be_get_stored _ _ _ Hi Hv) in Ho. cbn [mbind result_bind] in Ho.
      assert (out1 = out ++ [advert_of name v]) as -> by (by destruct v; injection Ho as <-).
      rewrite elem_of_app, list_elem_of_singleton. setoid_rewrite elem_of_cons. split.
      + intros [[?| ->]|(m & w & ? & ? & ?)]; eauto 10.
      + intros [?|(m & w & [->|?] & ? & ->)]; eauto 10. left; right. congruence. }
  intros r. rewrite (Hgen names [] (λ _ Hm, Hm) Hf r). split; [by intros [?%elem_of_nil|?]|by right].
Qed.

(** What a pack of some ids carries. *)
Definition pack_objs (V : gmap ObjectId bytes) (ids : list ObjectId) : PackBuilder := omap (λ id, pair id <$> V !! id) ids.

Lemma pack_fold n ids : sb_inv (n_store n) → ∀ b b', res_fold (pack_step n) b ids = Ok b' → b' = b ++ pack_objs (sb_view (n_store n)) ids.
Proof.
  intros Hi. induction ids as [|id ids IH]; intros b b'; simpl; [intros [= <-]; by rewrite app_nil_r|].
  intros (b1 & Hb & ->%IH)%bind_Ok. unfold pack_step, get_raw in Hb. apply bind_Ok in Hb as (d & Hd%sb_get_Ok & [= <-]); [|done].
  rewrite <- Hd. unfold builder_add. destruct d as [data|]; simpl; [|done]. by rewrite <- app_assoc.
Qed.
Lemma build_pack_Ok n ids p : sb_inv (n_store n) → build_pack n ids = Ok p →
  ∃ entries digest, finish (pack_objs (sb_view (n_store n)) ids) = Ok (p, entries, digest).
Proof.
  intros Hi. unfold build_pack. intros (b & Hb%pack_fold & Hf)%bind_Ok; [|done]. subst b.
  apply bind_Ok in Hf as ([[pack entries] digest] & Hf & [= <-]). by exists entries, digest.
Qed.
Lemma elem_of_pack_objs V ids id data : (id, data) ∈ pack_objs V ids ↔ id ∈ ids ∧ V !! id = Some data.
Proof.
  unfold pack_objs. rewrite list_elem_of_omap. split.
  - intros (x & Hx & (d & Hd & [= -> ->])%fmap_Some). done.
  - intros [Hin Hd]. exists id. by rewrite Hd.
Qed.

(** ** What a fetch gives away *)

(** The stored bytes of [id] that a ref served to [a] reaches. *)
Definition servable n (a : Accessor) (id : ObjectId) : Prop :=
  ∃ names name v, list_refs_served (node_repo n) "" a = Ok names ∧ name ∈ names ∧
    be_view (n_refs n) !! name = Some v ∧ rtc (links (decoded (n_store n))) (ref_target v) id.

(** A closure session sends stored objects below authorized ids. *)
Lemma send_closure_spec n auth want have room inbox r n' out : sb_inv (n_store n) →
  feed (send_closure auth want have) n room inbox = (r, n', out) →
  n' = n ∧ ∀ m, m ∈ out → m = MDone ∨ ∃ p objs entries digest, m = Pack p ∧ finish objs = Ok (p, entries, digest) ∧
    ∀ id data, (id, data) ∈ objs → sb_view (n_store n) !! id = Some data ∧
      ∃ w, w ∈ auth ∧ rtc (links (decoded (n_store n))) w id.
Proof.
  intros Hsi. unfold send_closure. rewrite feed_local. unfold gets at 1. set (wants := filter _ _).
  destruct (missing_closure (n_store n) wants (list_to_set have)) as [missing|e] eqn:Hm;
    [|intros [= <- <- <-]; split; [done|]; by intros m ?%elem_of_nil].
  rewrite feed_local. unfold gets at 1. destruct (build_pack n missing) as [pk|e] eqn:Hb;
    [|intros [= <- <- <-]; split; [done|]; by intros m ?%elem_of_nil].
  rewrite feed_send. destruct room as [|room]; [intros [= <- <- <-]; split; [done|]; by intros m ?%elem_of_nil|].
  intros Hf. assert (n' = n ∧ ∀ m, m ∈ out → m = Pack pk ∨ m = MDone) as [-> Hout].
  { destruct room; injection Hf as <- <- <-; (split; [done|]); intros m [->|Hin]%elem_of_cons; try (by left);
      [by apply elem_of_nil in Hin|right; by apply list_elem_of_singleton in Hin]. }
  clear Hf. split; [done|]. intros m [->| ->]%Hout; [right|by left].
  destruct (build_pack_Ok n missing pk Hsi Hb) as (entries & digest & Hf).
  exists pk, (pack_objs (sb_view (n_store n)) missing), entries, digest. split; [done|]. split; [done|].
  intros id data [Hid Hd]%elem_of_pack_objs. split; [done|].
  pose proof (missing_closure_spec (n_store n) Hsi (list_to_set have) wants) as Hmc. rewrite Hm in Hmc.
  apply Hmc in Hid as (_ & _ & w & [Hw _]%list_elem_of_filter & Hr). exists w. split; [done|].
  eapply rtc_subrel; [|exact Hr]. by intros x y [_ ?].
Qed.

Lemma serve_fetch_spec n a room inbox r n' out : be_inv (n_refs n) → sb_inv (n_store n) →
  feed (serve_fetch a) n room inbox = (r, n', out) →
  n' = n ∧ ∀ p, Pack p ∈ out → ∃ objs entries digest, finish objs = Ok (p, entries, digest) ∧
    ∀ id data, (id, data) ∈ objs → sb_view (n_store n) !! id = Some data ∧ servable n a id.
Proof.
  intros Hri Hsi. unfold serve_fetch. rewrite feed_local. unfold gets at 1.
  destruct (advertise n a) as [refs|e] eqn:Ha; [|intros [= <- <- <-]; split; [done|]; by intros p ?%elem_of_nil].
  rewrite feed_send. destruct room as [|room]; [intros [= <- <- <-]; split; [done|]; by intros p ?%elem_of_nil|].
  rewrite feed_recv. destruct inbox as [|m inbox].
  { intros [= <- <- <-]. split; [done|]. by intros p [=]%list_elem_of_singleton. }
  destruct m; try (intros [= <- <- <-]; split; [done|]; by intros p [=]%list_elem_of_singleton).
  destruct (feed (send_closure _ _ _) n room inbox) as [[r1 n1] out1] eqn:Hf. intros [= <- <- <-].
  apply send_closure_spec in Hf as [-> Hf]; [|done]. split; [done|].
  intros p [[=]|Hp]%elem_of_cons. destruct (Hf _ Hp) as [[=]|(p' & objs & entries & digest & [= <-] & Hfin & Hall)].
  exists objs, entries, digest. split; [done|]. intros id data Hin. destruct (Hall id data Hin) as (Hd & w & Hw & Hr). split; [done|].
  apply elem_of_list_to_set, list_elem_of_fmap in Hw as (ad & -> & Had).
  destruct (advertise_spec n a refs Hri Ha) as (names & Hn & Hrefs). apply Hrefs in Had as (name & v & Hname & Hv & ->).
  exists names, name, v. done.
Qed.

(** [C9] Whatever a client sends and whenever it hangs up, a fetch session leaves the serving
    repository as it is, and every pack it sends consists of stored objects that some ref served
    to the accessor reaches: a client cannot name its way to an object it may not read. *)
Theorem serve_fetch_confined (n n' : Node) (a : Accessor) (room : nat) (inbox out : list Message) (r : res ()) :
  be_inv (n_refs n) → sb_inv (n_store n) → feed (serve_fetch a) n room inbox = (r, n', out) →
  n' = n ∧ ∀ p, Pack p ∈ out → ∃ objs entries digest, finish objs = Ok (p, entries, digest) ∧
    ∀ id data, (id, data) ∈ objs → sb_view (n_store n) !! id = Some data ∧ servable n a id.
Proof. apply serve_fetch_spec. Qed.

(** ** Complete closures *)
Lemma present_health fuel (b : B) seen stack :
  present_loop fuel b seen stack = (λ r, o ← r; Ok (bool_decide (o = None))) <$> health_loop fuel b seen stack.
Proof.
  revert seen stack. induction fuel as [|fuel IH]; intros seen stack; [done|]. cbn [present_loop health_loop].
  destruct stack as [|x stack]; [done|]. case_decide; [apply IH|]. destruct (get b x) as [[obj|]|e]; [apply IH|done|done].
Qed.

(** [x] and everything below it is stored and readable. *)
Definition complete (O : objects) (x : ObjectId) : Prop := ∀ y, rtc (links O) x y → ∃ obj, O !! y = Some (Ok obj).

Lemma closure_present_true b x : sb_inv b → closure_present b x = Ok true → complete (decoded b) x.
Proof.
  intros Hi. unfold closure_present. rewrite present_health. pose proof (first_missing_spec b x Hi) as Hf. unfold first_missing in Hf.
  destruct (health_loop _ b ∅ [x]) as [[[y|]|e]|]; cbn [default fmap option_fmap option_map mbind result_bind id]; try done.
  intros _ y Hy. by apply Hf, reaches_links.
Qed.

Lemma links_mono O O' x y : O ⊆ O' → links O x y → links O' x y.
Proof.
  intros Hs [x' y' Hn|x' r y' Hx Hy].
  - apply links_needs. rewrite map_subseteq_spec in Hs. destruct Hn; [eapply needs_root|eapply needs_parent|eapply needs_entry|eapply needs_secret]; eauto.
  - eapply links_policy; [|done]. rewrite map_subseteq_spec in Hs. eauto.
Qed.
Lemma links_complete O O' x y : O ⊆ O' → (∃ obj, O !! x = Some (Ok obj)) → links O' x y → links O x y.
Proof.
  intros Hs [obj Hx] Hl. rewrite map_subseteq_spec in Hs. apply Hs in Hx as Hx'.
  destruct Hl as [x' y' Hn|x' r y' Hr Hy].
  - apply links_needs. destruct Hn as [x ? Ho|x ? ? Ho|x ? ? ? Ho|x ? ? ? Ho]; rewrite Hx' in Ho; simplify_eq;
      [eapply needs_root|eapply needs_parent|eapply needs_entry|eapply needs_secret]; eauto.
  - rewrite Hx' in Hr. simplify_eq. by eapply links_policy.
Qed.
(** A complete closure stays complete when the store grows. *)
Lemma complete_mono O O' x : O ⊆ O' → complete O x → complete O' x.
Proof.
  intros Hs Hc. assert (∀ y, rtc (links O') x y → rtc (links O) x y) as Hr.
  { intros y. revert y. apply rtc_ind_r; [done|]. intros y z _ Hyz IH.
    eapply rtc_r; [exact IH|]. eapply links_complete; [done|by apply Hc|done]. }
  intros y [obj Hy]%Hr%Hc. exists obj. by eapply lookup_weaken.
Qed.
End facts.

(** ** Landing objects in memory *)
Section landing.
Context {R A : Type} `{!ObjectCodec}.
Implicit Types n : Node MemoryBackend R A.

Lemma put_raw_memory (data : bytes) (b : MemoryBackend) :
  put_raw data b = (Ok (object_id data), if decide (is_Some (b !! object_id data)) then b else <[object_id data := data]> b).
Proof.
  unfold put_raw. rewrite gets_bind. simpl. unfold mb_exists. case_bool_decide as Hs; destruct (decide _); done.
Qed.

Lemma land_cons e objs n : land (e :: objs) n =
  match put_raw e.2 (n_store n) with
  | (Ok _, b) => land objs (set_store b n)
  | (Err err, b) => (Err err, set_store b n)
  end.
Proof. unfold land. simpl. unfold on_store, mbind, M_bind. by destruct (put_raw e.2 (n_store n)) as [[x|err] b]. Qed.

Lemma land_memory objs : ∀ n, ∃ b, land objs n = (Ok (), set_store b n) ∧ n_store n ⊆ b ∧
  (∀ id data, b !! id = Some data → n_store n !! id = Some data ∨ ∃ e, e ∈ objs ∧ data = e.2 ∧ id = object_id e.2) ∧
  ∀ e, e ∈ objs → is_Some (b !! object_id e.2).
Proof.
  induction objs as [|e objs IH]; intros n.
  { exists (n_store n). split; [by destruct n|]. split; [done|]. split; [by left|]. by intros e ?%elem_of_nil. }
  set (b1 := if decide (is_Some (n_store n !! object_id e.2)) then n_store n else <[object_id e.2 := e.2]> (n_store n)).
  destruct (IH (set_store b1 n)) as (b & Hl & Hs & Hnew & Hall). exists b.
  assert (n_store n ⊆ b1) as Hs1.
  { unfold b1. destruct (decide _) as [|Hn]; [done|]. apply insert_subseteq. by apply eq_None_not_Some in Hn. }
  assert (is_Some (b1 !! object_id e.2)) as Hin.
  { unfold b1. destruct (decide _); [done|]. rewrite lookup_insert_eq. eauto. }
  split; [|split; [by etrans|split]].
  - by rewrite land_cons, put_raw_memory.
  - intros id data [Hd|(e' & ? & ?)]%Hnew; [|right; exists e'; split; [by right|done]].
    simpl in Hd. unfold b1 in Hd. destruct (decide _); [by left|].
    apply lookup_insert_Some in Hd as [[<- <-]|[_ ?]]; [right|by left]. exists e. split; [left|done].
  - intros e' [->|?]%elem_of_cons; [|by apply Hall]. destruct Hin as [d Hd]. exists d. by eapply lookup_weaken.
Qed.

Lemma decoded_mono (b b' : MemoryBackend) : b ⊆ b' → decoded b ⊆ decoded b'.
Proof. intros Hs. unfold decoded. by apply map_fmap_mono. Qed.

End landing.

(** ** Tracking refs *)
Definition tags (l : list (RefName * ObjectId)) (m : gmap RefName Ref) : gmap RefName Ref :=
  foldl (λ m e, <[e.1 := RTag (MkTag e.2 0 None)]> m) m l.

Lemma tags_spec l m : ops_spec m ((λ e, tag_op e.1 e.2) <$> l) = Ok (tags l m).
Proof. revert m. unfold ops_spec, tags. induction l as [|e l IH]; intros m; [done|]. apply IH. Qed.

Lemma tags_other l m name : name ∉ l.*1 → tags l m !! name = m !! name.
Proof.
  revert m. unfold tags. induction l as [|e l IH]; intros m Hn; [done|]. apply not_elem_of_cons in Hn as [Hne Hn].
  simpl. rewrite IH by done. by rewrite lookup_insert_ne.
Qed.
Lemma tags_in l m name x : (name, x) ∈ l → (∀ y, (name, y) ∈ l → y = x) → tags l m !! name = Some (RTag (MkTag x 0 None)).
Proof.
  revert m. induction l as [|[k y] l IH]; intros m Hin Hu; [by apply elem_of_nil in Hin|].
  destruct (decide ((name, x) ∈ l)) as [Hl|Hl].
  - simpl. apply IH; [done|]. intros z Hz. apply Hu. by right.
  - apply elem_of_cons in Hin as [[= <- <-]|?]; [|done]. unfold tags. simpl.
    fold (tags l (<[name := RTag (MkTag x 0 None)]> m)). rewrite tags_other; [by rewrite lookup_insert_eq|].
    intros ([? z] & -> & Hz)%list_elem_of_fmap. simpl in *. assert (z = x) as -> by (apply Hu; by right). done.
Qed.

Lemma tags_cases l m name : tags l m !! name = m !! name ∨ ∃ x, (name, x) ∈ l ∧ tags l m !! name = Some (RTag (MkTag x 0 None)).
Proof.
  revert m. unfold tags. induction l as [|[k y] l IH]; intros m; [by left|]. simpl.
  destruct (IH (<[k := RTag (MkTag y 0 None)]> m)) as [Heq|(x & ? & ?)]; [|right; exists x; split; [by right|done]].
  rewrite Heq. destruct (decide (k = name)) as [->|]; [right|left; by rewrite lookup_insert_ne].
  exists y. split; [left|by rewrite lookup_insert_eq].
Qed.

Section tracking.
Context `{!IoText}.
Lemma tracking_ref_Ok remote name t : tracking_ref remote name = Ok t →
  valid_name t ∧ as_str t = "refs/remotes/" +:+ remote +:+ "/" +:+ as_str name.
Proof.
  unfold tracking_ref. destruct (RefName_new _) as [x|] eqn:Hx; [|done]. intros [= <-].
  by apply RefName_new_valid in Hx as [? ?].
Qed.
Lemma tracking_ref_inj remote name name' t : tracking_ref remote name = Ok t → tracking_ref remote name' = Ok t → name = name'.
Proof.
  intros (_ & Ht)%tracking_ref_Ok (_ & Ht')%tracking_ref_Ok. rewrite Ht in Ht'.
  do 3 apply append_inj in Ht'. destruct name, name'. simpl in *. congruence.
Qed.

Lemma commit_tags_memory (refs : MemoryRefBackend) tracked : mem_ok refs → Forall valid_name tracked.*1 →
  ∃ refs', commit_transaction ((λ e, tag_op e.1 e.2) <$> tracked) refs = (Ok (), refs') ∧ mem_ok refs' ∧
    mem_view refs' = tags tracked (mem_view refs).
Proof.
  intros Hi Hv. assert (Forall (λ op, valid_name (op_name op)) ((λ e, tag_op e.1 e.2) <$> tracked)) as Hnames.
  { rewrite Forall_fmap in Hv. apply Forall_fmap. exact Hv. }
  pose proof (commit_memory_spec refs _ Hi Hnames) as Hc. rewrite tags_spec in Hc. destruct Hc as (refs' & Hc & Hview & Hok).
  by exists refs'.
Qed.
Lemma set_tracking_memory {B A} (n : Node B MemoryRefBackend A) tracked : mem_ok (n_refs n) → Forall valid_name tracked.*1 →
  ∃ refs, set_tracking tracked n = (Ok (), set_nrefs refs n) ∧ mem_ok refs ∧ mem_view refs = tags tracked (mem_view (n_refs n)).
Proof.
  intros Hi Hv. destruct (commit_tags_memory (n_refs n) tracked Hi Hv) as (refs & Hc & ? & ?).
  exists refs. unfold set_tracking, on_nrefs. by rewrite Hc.
Qed.
End tracking.

(** ** On concrete data: a server with one commit, a client with two *)
#[local] Existing Instance demo_io_text.
#[local] Existing Instance toy_ed25519.
#[local] Existing Instance toy_zstd.
Definition ex_tree (b : byte) : Object := OTree (MkTree {[ "a" := MkTreeEntry (ex_id b) KindBlob ]}).
Definition ex_commit (b : byte) (ps : list ObjectId) : Object := OSnapshot (MkSnapshot (ex_id b) ps "" 0 "").
Definition ex_table : list (Object * bytes) :=
  [(OBlob (MkBlob [x21]), [x21]); (ex_tree x21, [x11]); (ex_commit x11 [], [x01]);
   (OBlob (MkBlob [x22]), [x22]); (ex_tree x22, [x12]); (ex_commit x12 [ex_id x01], [x02])].
Definition ex_sync_codec : ObjectCodec := table_codec ex_table.
#[local] Existing Instance ex_sync_codec.

Definition ex_server : Node MemoryBackend MemoryRefBackend MemoryAclBackend :=
  MkNode {[ ex_id x01 := [x01]; ex_id x11 := [x11]; ex_id x21 := [x21] ]} ex_refs ex_acls [] None.
Definition ex_client : Node MemoryBackend MemoryRefBackend MemoryAclBackend :=
  MkNode {[ ex_id x01 := [x01]; ex_id x11 := [x11]; ex_id x21 := [x21]; ex_id x02 := [x02]; ex_id x12 := [x12]; ex_id x22 := [x22] ]}
    ex_refs ex_acls [] None.
Definition ex_served (inbox : list Message) : res () * Node MemoryBackend MemoryRefBackend MemoryAclBackend * list Message :=
  feed (serve_fetch accessor_new) ex_server 3 inbox.
Definition ex_asked : list Message := [HaveWant [ex_id x01; ex_id x11] []].
Definition ex_sent : bytes := match (ex_served ex_asked).2 with [_; Pack p; _] => p | _ => [] end.

Lemma serve_fetch_confined_witness : decode_pack ex_sent = Ok [(ex_id x01, [x01]); (ex_id x11, [x11]); (ex_id x21, [x21])] ∧
  ∃ objs entries digest, finish objs = Ok (ex_sent, entries, digest) ∧
    ∀ id data, (id, data) ∈ objs → servable ex_server accessor_new id.
Proof.
  split; [apply (bool_decide_unpack _); vm_compute; exact I|].
  assert (ex_served ex_asked = ((ex_served ex_asked).1.1, (ex_served ex_asked).1.2, (ex_served ex_asked).2)) as Hf
    by (destruct (ex_served ex_asked) as [[r n'] out]; reflexivity).
  assert (Pack ex_sent ∈ (ex_served ex_asked).2) as Hin by (apply (bool_decide_unpack _); vm_compute; exact I).
  assert (be_inv (n_refs ex_server)) as Hi by exact ex_refs_ok.
  assert (sb_inv (n_store ex_server)) as Hsi by exact I.
  destruct (serve_fetch_confined ex_server _ accessor_new 3 ex_asked _ _ Hi Hsi Hf) as [_ Hp].
  destruct (Hp ex_sent Hin) as (objs & entries & digest & Hfin & Hs). exists objs, entries, digest.
  split; [exact Hfin|]. intros id data Hid. exact (proj2 (Hs id data Hid)).
Defined.
