(* ===== verification/SyncPush.v ===== *)
(** * SyncPush: what a push can change

    Theorems about [serve_push] and [apply_push_ops] of [Sync.v] against any peer, on the
    in-memory backends: a push only moves the refs its updates name, each under all
    the checks of [check_push_op]; objects only come in addition, and a timeline is
    never left at a head whose closure is incomplete. *)

From S2P Require Import Prelude Bytes Graph Lattice Access Ids Text Objects Refs RefStore Signing Policy Authority Merge Store Pack Gc Acl Walk Repo Wire Http Session Sync HttpSync SyncFacts.

(** The last update of [name] in a batch, one that satisfies [P], took it from [before]
    to [after]. *)
Definition moved_by (P : RefUpdateOp → Prop) (name : RefName) (before after : option Ref) : Prop :=
  ∃ op t', P op ∧ up_name op = name ∧ after = Some (RTimeline t') ∧ head t' = up_new_head op ∧
    match before with
    | None => policy t' = FastForwardOnly ∧ expires_at t' = None
    | Some (RTimeline t) => t' = with_head t (head t')
    | Some (RTag _) => False
    end.

(** ** Batches that move heads *)
Definition head_op (op : RefOp) : Prop :=
  match op with AdvanceHeadIf _ _ _ | CreateTimeline _ _ _ _ _ _ => True | _ => False end.
Definition op_head (op : RefOp) : ObjectId :=
  match op with AdvanceHeadIf _ _ h => h | CreateTimeline _ h _ _ _ _ => h | _ => ObjectId_new (pad_vec 32 []) end.
Definition op_created (op : RefOp) : option Timeline :=
  match op with CreateTimeline _ h p now kind ex => Some (MkTimeline h p now kind ex) | _ => None end.

Lemma head_op_effect (m m' : gmap RefName Ref) op : head_op op → op_spec m op = Ok m' →
  (∀ name, name ≠ op_name op → m' !! name = m !! name) ∧
  ∃ t', m' !! op_name op = Some (RTimeline t') ∧ head t' = op_head op ∧
    match m !! op_name op, op with
    | None, CreateTimeline _ h p now kind ex => t' = MkTimeline h p now kind ex
    | Some (RTimeline t), AdvanceHeadIf _ old h => head t = old ∧ t' = with_head t h
    | _, _ => False
    end.
Proof.
  destruct op as [| |name h p now kind ex| | | | |name old h]; try done; intros _; simpl.
  - destruct (m !! name) eqn:Hm; [done|]. intros [= <-]. split; [by intros ? ?; rewrite lookup_insert_ne|].
    eexists. by rewrite lookup_insert_eq.
  - destruct (m !! name) as [[|t]|] eqn:Hm; [done| |done]. case_decide; [|done]. intros [= <-].
    split; [by intros ? ?; rewrite lookup_insert_ne|]. exists (with_head t h). by rewrite lookup_insert_eq.
Qed.

Lemma head_ops_moved ops (m m' : gmap RefName Ref) name : Forall head_op ops → ops_spec m ops = Ok m' →
  m' !! name = m !! name ∨ ∃ op t', op ∈ ops ∧ op_name op = name ∧ m' !! name = Some (RTimeline t') ∧ head t' = op_head op ∧
    match m !! name with
    | None => ∃ c tc, c ∈ ops ∧ op_name c = name ∧ op_created c = Some tc ∧ t' = with_head tc (head t')
    | Some (RTimeline t) => t' = with_head t (head t')
    | Some (RTag _) => False
    end.
Proof.
  intros Hh. revert m. induction Hh as [|op ops Hop _ IH]; intros m; [intros [= <-]; by left|].
  unfold ops_spec. cbn [res_fold]. rewrite bind_Ok. intros (m1 & Hs & Hl).
  apply head_op_effect in Hs as (Hne & t1 & Ht1 & Hh1 & Hold); [|done].
  destruct (IH m1 Hl) as [Heq|(op' & t' & Hin & Hn & Ha & Hh & Hb)]; clear IH.
  - rewrite Heq. destruct (decide (name = op_name op)) as [->|]; [right|left; by apply Hne].
    exists op, t1. rewrite Ht1. split_and!; [by left|done..|].
    destruct (m !! op_name op) as [[|t]|]; [by destruct op|destruct op; try done; by destruct Hold as [_ ->]|].
    exists op. destruct op; try done. exists t1. subst t1. split_and!; [by left|done..].
  - right. exists op', t'. split_and!; [by right|done..|].
    destruct (decide (name = op_name op)) as [->|Hne'].
    + rewrite Ht1 in Hb. destruct (m !! op_name op) as [[|t]|]; [by destruct op| |].
      * destruct op; try done. destruct Hold as [_ Ht]. rewrite Ht in Hb. exact Hb.
      * exists op. destruct op; try done. exists t1. subst t1. split_and!; [by left|done..].
    + rewrite (Hne name Hne') in Hb. destruct (m !! name) as [[|t]|]; [done..|].
      destruct Hb as (c & tc & ? & ?). exists c, tc. split; [by right|done].
Qed.

(** A relation that every compare-and-swap respects holds between the first and the
    last head. *)
Lemma head_ops_heads (P : relation ObjectId) `{!PreOrder P} ops (m m' : gmap RefName Ref) name t t' : Forall head_op ops →
  (∀ old h, AdvanceHeadIf name old h ∈ ops → P h old) →
  ops_spec m ops = Ok m' → m !! name = Some (RTimeline t) → m' !! name = Some (RTimeline t') →
  P (head t') (head t).
Proof.
  intros Hh. revert m t. induction Hh as [|op ops Hop _ IH]; intros m t HP.
  { intros [= <-] Ht Ht'. rewrite Ht in Ht'. injection Ht' as <-. reflexivity. }
  unfold ops_spec. cbn [res_fold]. rewrite bind_Ok. intros (m1 & Hs & Hl) Ht Ht'.
  apply head_op_effect in Hs as (Hne & t1 & Ht1 & Hh1 & Hold); [|done].
  assert (∀ old h, AdvanceHeadIf name old h ∈ ops → P h old) as HP' by (intros; apply HP; by right).
  destruct (decide (name = op_name op)) as [->|Hn].
  - rewrite Ht in Hold. destruct op as [| | | | | | |name old h]; try done. destruct Hold as [<- ->].
    etrans; [eapply (IH m1 _ HP' Hl Ht1 Ht')|]. apply HP. left.
  - by eapply (IH m1 t HP' Hl); [rewrite Hne|].
Qed.

Lemma push_op_head op : head_op (push_ref_op op) ∧ op_name (push_ref_op op) = up_name op ∧ op_head (push_ref_op op) = up_new_head op.
Proof. unfold push_ref_op. by destruct (up_expected_old op). Qed.
Lemma push_ops_head l : Forall head_op (push_ref_op <$> l).
Proof. apply Forall_fmap, Forall_forall. intros op _. apply push_op_head. Qed.

Lemma push_ops_moved l (m m' : gmap RefName Ref) name : ops_spec m (push_ref_op <$> l) = Ok m' →
  m' !! name = m !! name ∨ moved_by (λ op, op ∈ l) name (m !! name) (m' !! name).
Proof.
  intros Hs. destruct (head_ops_moved _ m m' name (push_ops_head l) Hs) as [?|(op & t' & Hin & Hn & Ht' & Hh & Hb)]; [by left|right].
  apply list_elem_of_fmap in Hin as (up & -> & Hin). destruct (push_op_head up) as (_ & Hn' & Hh'). exists up, t'.
  split_and!; [done|congruence|done|congruence|]. destruct (m !! name) as [[|t]|]; [done..|].
  destruct Hb as (c & tc & (up' & -> & _)%list_elem_of_fmap & _ & Hc & ->). unfold push_ref_op in Hc.
  destruct (up_expected_old up'); [done|]. by injection Hc as <-.
Qed.

Section push.
Context {R : Type} `{RefBackendLaws R, IoText, Ed25519}.
Context {B : Type} `{StorageLaws B}.
Context {A : Type} `{AclLaws A}.
Context `{!ObjectCodec, Zstd}.
Abbreviation Node := (Node B R A).
Implicit Types n : Node.

(** ** The checks of one update *)

(** What an accepted update has passed. *)
Record push_allowed n (a : Accessor) (op : RefUpdateOp) : Prop := {
  pa_namespace : reserved (as_str (up_name op)) = false;
  pa_labels : ∃ L rs, get_lattice (n_acls n) = Ok L ∧ get_label_ruleset (n_acls n) = Ok rs ∧
    can_write a (label_for_timeline rs L (as_str (up_name op))) (ResTimeline (as_str (up_name op))) = true;
  pa_snapshot : ∃ snap, decoded (n_store n) !! up_new_head op = Some (Ok (OSnapshot snap));
  pa_complete : complete (decoded (n_store n)) (up_new_head op);
  pa_forward t old : be_view (n_refs n) !! up_name op = Some (RTimeline t) → policy t ≠ Unrestricted →
    up_expected_old op = Some old → rtc (parent_of (decoded (n_store n))) (up_new_head op) old;
  pa_hooks t : be_view (n_refs n) !! up_name op = Some (RTimeline t) →
    ∃ reg, policy_registry (node_repo n) = Ok reg ∧ deterministic reg = true ∧ ∀ h, h ∈ hooks reg →
      hook_check h (MkContext (EvAdvance (up_name op) (head t) (up_new_head op)) a (decoded (n_store n)) (n_refs n) 0) = Allow
}.

Lemma evaluate_replayable_Allow (reg : PolicyRegistry R) ctx : evaluate_replayable reg ctx = Allow → evaluate reg ctx = Allow.
Proof. unfold evaluate_replayable. by destruct (non_deterministic reg). Qed.

Lemma check_push_op_None n reg L rs a op : be_inv (n_refs n) → sb_inv (n_store n) → valid_name (up_name op) →
  get_lattice (n_acls n) = Ok L → get_label_ruleset (n_acls n) = Ok rs →
  policy_registry (node_repo n) = Ok reg → deterministic reg = true →
  check_push_op n reg L rs a op = Ok None → push_allowed n a op.
Proof.
  intros Hri Hsi Hv HL Hrs Hreg Hdet. unfold check_push_op.
  destruct (reserved _) eqn:Hres; [done|]. destruct (can_write _ _ _) eqn:Hw; [|done]. cbn [negb].
  intros (obj & Hobj & Hc)%bind_Ok. assert (∃ snap, obj = Some (OSnapshot snap)) as [snap ->] by (destruct obj as [[]|]; try done; eauto).
  apply bind_Ok in Hc as ([] & Hp & Hc); [|done]. cbn [negb] in Hc. apply bind_Ok in Hc as (cur & Hcur & Hc).
  apply bind_Ok in Hc as ([st|] & Hff & Hc); [done|]. injection Hc as Hh.
  assert (∀ t, be_view (n_refs n) !! up_name op = Some (RTimeline t) → cur = Some t) as Hview.
  { intros t Ht. unfold get_timeline in Hcur. rewrite (be_get_stored _ _ _ Hri Ht) in Hcur. by injection Hcur as <-. }
  split; [done|eauto 10|..].
  - exists snap. apply os_get_Some. by rewrite Hobj.
  - by apply closure_present_true.
  - intros t old Ht Hpol Hold. rewrite (Hview t Ht) in Hff. unfold ff_gate in Hff. rewrite Hold in Hff.
    apply bind_Ok in Hff as (anc & Hanc & Hff). rewrite bool_decide_false in Hff by done. cbn [negb andb] in Hff.
    case_bool_decide as Ha; [|done]. subst anc.
    pose proof (find_common_ancestor_spec (decoded (n_store n)) old (up_new_head op)) as Hs. rewrite Hanc in Hs. by destruct Hs.
  - intros t Ht. exists reg. split; [done|]. split; [done|]. apply evaluate_Allow, evaluate_replayable_Allow.
    rewrite (Hview t Ht) in Hh. unfold hook_gate in Hh. by destruct (evaluate_replayable reg _).
Qed.

Lemma push_ops_fold n reg L rs a ops : ∀ acc acc', res_fold (push_op_step n reg L rs a) acc ops = Ok acc' →
  ∀ op, op ∈ acc'.2 → op ∈ acc.2 ∨ (op ∈ ops ∧ check_push_op n reg L rs a op = Ok None).
Proof.
  induction ops as [|op ops IH]; intros acc acc'; cbn [res_fold]; [intros [= <-]; by left|].
  rewrite bind_Ok. intros (acc1 & Hs & Hf) o Ho. unfold push_op_step in Hs. apply bind_Ok in Hs as (c & Hc & [= <-]).
  destruct (IH _ _ Hf o Ho) as [Hin|[Hin Hn]]; [|right; split; [by right|done]].
  destruct c as [st|]; simpl in Hin; [by left|]. apply elem_of_app in Hin as [?| ->%list_elem_of_singleton]; [by left|].
  right. split; [left|done].
Qed.

(** The state after [apply_push_ops]: the refs of a batch of allowed updates. *)
Lemma apply_push_ops_state n n' a ops r : be_inv (n_refs n) → sb_inv (n_store n) → Forall (valid_name ∘ up_name) ops →
  apply_push_ops a ops n = (r, n') →
  n' = n ∨ ∃ accepted refs' rc, n' = set_nrefs refs' n ∧ accepted ⊆ ops ∧ (∀ op, op ∈ accepted → push_allowed n a op) ∧
    commit_transaction (push_ref_op <$> accepted) (n_refs n) = (rc, refs').
Proof.
  intros Hri Hsi Hv. unfold apply_push_ops. rewrite gets_bind. destruct (get_lattice _) as [L|] eqn:HL; [|intros [= _ <-]; by left].
  rewrite gets_bind. destruct (get_label_ruleset _) as [rs|] eqn:Hrs; [|intros [= _ <-]; by left]. rewrite gets_bind.
  destruct (policy_registry _) as [reg|] eqn:Hreg; [|intros [= _ <-]; by left].
  destruct (deterministic reg) eqn:Hdet; cbn [negb]; [|intros [= _ <-]; by left].
  rewrite gets_bind. destruct (res_fold _ _ _) as [[res acc]|] eqn:Hf; [|intros [= _ <-]; by left].
  pose proof (push_ops_fold _ _ _ _ _ _ _ _ Hf) as Hall.
  destruct acc as [|op0 acc]; [intros [= _ <-]; by left|]. intros Hc. right. exists (op0 :: acc).
  assert (∀ op, op ∈ op0 :: acc → op ∈ ops ∧ check_push_op n reg L rs a op = Ok None) as Hacc.
  { intros op [?%elem_of_nil|?]%Hall; [done|done]. } clear Hall Hf.
  unfold commit_push, on_nrefs in Hc. destruct (commit_transaction _ (n_refs n)) as [rc refs'] eqn:Hct. exists refs', rc.
  split; [by destruct rc as [|[]]; injection Hc as _ <-|]. split; [intros op Ho; by apply Hacc|]. split; [|done].
  intros op Ho. destruct (Hacc op Ho) as [Hin Hn]. rewrite Forall_forall in Hv.
  apply (check_push_op_None n reg L rs); try done. by apply Hv.
Qed.
End push.

(** ** On the in-memory backends *)
Section memory.
Context `{IoText, Ed25519, ObjectCodec, Zstd}.
Context {A : Type} `{AclLaws A}.
Abbreviation Node := (Node MemoryBackend MemoryRefBackend A).
Implicit Types n : Node.

(** What became of a ref: as it was, or moved by an allowed update of the batch. *)
Record pushed n n' (a : Accessor) (ops : list RefUpdateOp) : Prop := {
  pu_acls : n_acls n' = n_acls n;
  pu_hooks : n_hooks n' = n_hooks n;
  pu_audit : n_audit n' = n_audit n;
  pu_refs_ok : mem_ok (n_refs n');
  pu_store : n_store n ⊆ n_store n';
  pu_refs name : mem_view (n_refs n') !! name = mem_view (n_refs n) !! name ∨
    moved_by (λ op, op ∈ ops ∧ push_allowed (set_store (n_store n') n) a op) name (mem_view (n_refs n) !! name) (mem_view (n_refs n') !! name);
  pu_forward name t t' : mem_view (n_refs n) !! name = Some (RTimeline t) → mem_view (n_refs n') !! name = Some (RTimeline t') →
    policy t ≠ Unrestricted → rtc (parent_of (decoded (n_store n'))) (head t') (head t)
}.

Lemma pushed_same n n' a ops : n_acls n' = n_acls n → n_hooks n' = n_hooks n → n_audit n' = n_audit n →
  mem_ok (n_refs n) → n_refs n' = n_refs n → n_store n ⊆ n_store n' → pushed n n' a ops.
Proof.
  intros Ha Hh Hau Hi Hr Hs. split; try done; rewrite ?Hr; try done; [by left|].
  intros name t t' Ht Ht' _. by simplify_eq.
Qed.

Lemma pushed_refl n a ops : mem_ok (n_refs n) → pushed n n a ops.
Proof. intros Hi. by apply pushed_same. Qed.

Lemma set_nrefs_set_store (b : MemoryBackend) refs n : n_store (set_nrefs refs (set_store b n)) = b.
Proof. done. Qed.

Lemma apply_pushed n b n' a ops r : mem_ok (n_refs n) → n_store n ⊆ b → Forall (valid_name ∘ up_name) ops →
  apply_push_ops a ops (set_store b n) = (r, n') → pushed n n' a ops.
Proof.
  intros Hi Hs Hv Ha. apply apply_push_ops_state in Ha as [->|(acc & refs' & rc & -> & Hsub & Hall & Hc)]; [by apply pushed_same| |done..].
  assert (Forall (λ op, valid_name (op_name op)) (push_ref_op <$> acc)) as Hnames.
  { apply Forall_fmap, Forall_forall. intros op Ho. rewrite Forall_forall in Hv. specialize (Hv op (Hsub op Ho)).
    unfold push_ref_op. simpl. by destruct (up_expected_old op). }
  pose proof (commit_memory_spec (n_refs n) _ Hi Hnames) as Hm. simpl in Hc. rewrite Hc in Hm.
  destruct (ops_spec _ _) as [m|e] eqn:Hops; [|injection Hm as _ ->; by apply pushed_same].
  destruct Hm as (refs & [= _ <-] & Hview & Hok). split; try done; cbn [n_refs n_store set_nrefs set_store].
  - intros name. rewrite Hview. destruct (push_ops_moved acc _ _ name Hops) as [?|(op & t' & Hin & ?)]; [by left|right].
    exists op, t'. split; [|done]. split; [by apply Hsub|]. apply Hall, Hin.
  - intros name t t' Ht Ht' Hp. rewrite Hview in Ht'. refine (head_ops_heads (rtc (parent_of (decoded b))) _ _ _ name t t' (push_ops_head acc) _ Hops Ht Ht').
    intros old h (op & Hop & Hin)%list_elem_of_fmap. unfold push_ref_op in Hop. destruct (up_expected_old op) eqn:Hold; [|done].
    injection Hop as -> -> ->. by apply (pa_forward _ _ _ (Hall op Hin) t).
Qed.

Lemma serve_push_spec n n' a room inbox r out : mem_ok (n_refs n) → Forall message_ok inbox →
  feed (serve_push a) n room inbox = (r, n', out) →
  (has_write_capability a = false → n' = n) ∧
  ∃ ops, (ops = [] ∨ RefUpdate ops ∈ inbox) ∧ pushed n n' a ops.
Proof.
  intros Hi Hok. assert (n' = n → (has_write_capability a = false → n' = n) ∧
    ∃ ops, (ops = [] ∨ RefUpdate ops ∈ inbox) ∧ pushed n n' a ops) as Hsame.
  { intros ->. split; [done|]. exists []. split; [by left|by apply pushed_refl]. }
  unfold serve_push. rewrite feed_local. unfold gets at 1. destruct (advertise n a) as [refs|e]; [|intros [= _ <- _]; auto].
  rewrite feed_send. destruct room as [|room]; [intros [= _ <- _]; auto|].
  rewrite feed_recv. destruct inbox as [|m inbox]; [intros [= _ <- _]; auto|].
  destruct m as [| | |p| | | | | | | | |]; try (intros [= _ <- _]; by apply Hsame).
  rewrite feed_local. unfold lift_res. destruct (decode_pack p) as [objs|e]; [|intros [= _ <- _]; auto].
  rewrite feed_recv. destruct inbox as [|m inbox]; [intros [= _ <- _]; auto|].
  destruct m as [| | | |ops| | | | | | | |]; try (intros [= _ <- _]; by apply Hsame).
  destruct (has_write_capability a); cbn [negb]; [|destruct room; intros [= _ <- _]; by apply Hsame].
  rewrite feed_local. destruct (land_memory objs n) as (b & -> & Hsub & _). rewrite feed_local.
  destruct (apply_push_ops a ops (set_store b n)) as [res n2] eqn:Ha. intros Hf.
  assert (n' = n2) as -> by (destruct res; [destruct room|]; by injection Hf). split; [done|].
  exists ops. split; [right; right; left|].
  apply (apply_pushed n b n2 a ops res); [done..| |done].
  apply Forall_cons in Hok as [_ [Hok _]%Forall_cons]. by apply Forall_fmap.
Qed.

(** [C2] Whatever a client sends and whenever it hangs up, a push session to a repository on the
    in-memory backends leaves the access rules and hooks of the
    serving repository alone, keeps every stored object, and keeps every ref as it was
    unless one of the client's updates names it and passes every check: the name is outside
    the reserved namespaces, the accessor may write its label, the new head is a stored
    snapshot with a complete closure; and where the update moves an existing timeline, a
    protected one goes forward and every hook allows the move. (The session runs no hook when
    an update creates a timeline.) Such an update creates a fast-forward-only timeline or moves
    the head of an existing one, and never touches a tag; a timeline that is not unrestricted
    ends at a descendant of its old head. Without a write capability
    the session changes nothing, not even the object store. *)
Theorem serve_push_confined n n' (a : Accessor) (room : nat) (inbox out : list Message) (r : res ()) :
  mem_ok (n_refs n) → Forall message_ok inbox → feed (serve_push a) n room inbox = (r, n', out) →
  (has_write_capability a = false → n' = n) ∧
  n_acls n' = n_acls n ∧ n_hooks n' = n_hooks n ∧ n_store n ⊆ n_store n' ∧
  (∀ name, mem_view (n_refs n') !! name = mem_view (n_refs n) !! name ∨
    moved_by (λ op, (∃ ops, RefUpdate ops ∈ inbox ∧ op ∈ ops) ∧ push_allowed (set_store (n_store n') n) a op) name
      (mem_view (n_refs n) !! name) (mem_view (n_refs n') !! name)) ∧
  ∀ name t t', mem_view (n_refs n) !! name = Some (RTimeline t) → mem_view (n_refs n') !! name = Some (RTimeline t') →
    policy t ≠ Unrestricted → rtc (parent_of (decoded (n_store n'))) (head t') (head t).
Proof.
  intros Hi Hok Hf. destruct (serve_push_spec n n' a room inbox r out Hi Hok Hf) as (Hw & ops & Hops & [Ha Hh _ _ Hs Hr Hfwd]).
  split; [done|]. split; [done|]. split; [done|]. split; [done|]. split; [|exact Hfwd]. intros name.
  destruct (Hr name) as [?|(op & t' & [Hin Hall] & ?)]; [by left|right]. exists op, t'. split; [|done]. split; [|done].
  exists ops. split; [|done]. destruct Hops as [->|?]; [|done]. by apply elem_of_nil in Hin.
Qed.

(** ** Any number of sessions *)

(** Every timeline's history is whole. *)
Definition heads_complete n : Prop :=
  ∀ name t, mem_view (n_refs n) !! name = Some (RTimeline t) → complete (decoded (n_store n)) (head t).

Lemma serve_pushed n n' a room inbox r out : mem_ok (n_refs n) → Forall message_ok inbox →
  feed (serve a) n room inbox = (r, n', out) → ∃ ops, pushed n n' a ops.
Proof.
  intros Hi Hok. unfold serve. rewrite feed_recv. destruct inbox as [|m inbox].
  { intros [= _ <- _]. exists []. by apply pushed_refl. }
  apply Forall_cons in Hok as [_ Hok].
  destruct m as [? ? ? [] ?| | | | | | | | | | | |];
    try (rewrite feed_send; destruct room; intros [= _ <- _]; exists []; by apply pushed_refl).
  - intros Hf. apply serve_fetch_spec in Hf as [-> _]; [|done..]. exists []. by apply pushed_refl.
  - intros Hf. destruct (serve_push_spec n n' a room inbox r out Hi Hok Hf) as (_ & ops & _ & ?). eauto.
  - intros Hf. apply serve_fetch_spec in Hf as [-> _]; [|done..]. exists []. by apply pushed_refl.
Qed.

(** ** Requests over HTTP *)
Section requests.
Context `{!BodyCodec FetchReq, !BodyCodec FetchResp, !BodyCodec PushReq, !BodyCodec PushResp, !BodyCodecLaws PushReq push_names}.

Lemma serve_http_fetch_same n n' a body r : serve_http_fetch a body n = (r, n') → n' = n.
Proof.
  unfold serve_http_fetch. rewrite lift_bind. destruct (from_bytes body) as [req|]; [|by intros [= _ <-]].
  rewrite gets_bind. destruct (advertise n a) as [refs|]; [|by intros [= _ <-]].
  rewrite gets_bind. destruct (missing_closure _ _ _) as [missing|]; [|by intros [= _ <-]].
  rewrite gets_bind. destruct (build_pack n missing) as [pack|]; [|by intros [= _ <-]].
  rewrite lift_bind. destruct (to_allocvec _) as [out|]; by intros [= _ <-].
Qed.

Lemma serve_http_push_spec n n' a body r : mem_ok (n_refs n) → serve_http_push a body n = (r, n') →
  (has_write_capability a = false → n' = n) ∧
  (n' = n ∨ ∃ req, from_bytes body = Ok req ∧ pushed n n' a (pq_ops req)).
Proof.
  intros Hi. unfold serve_http_push. rewrite lift_bind. destruct (from_bytes body) as [req|] eqn:Hreq; [|intros [= _ <-]; auto].
  rewrite lift_bind. destruct (decode_pack (pq_pack req)) as [objs|]; [|intros [= _ <-]; auto].
  destruct (has_write_capability a); cbn [negb].
  2: { unfold mret, mbind, M_ret, M_bind. cbn beta iota. destruct (lift_res (to_allocvec _) n) as [[] ?] eqn:E; unfold lift_res in E;
       injection E as _ <-; intros [= _ <-]; auto. }
  unfold mbind, M_bind. destruct (land_memory objs n) as (b & -> & Hsub & _).
  destruct (apply_push_ops a (pq_ops req) (set_store b n)) as [res n2] eqn:Ha.
  assert (pushed n n2 a (pq_ops req)) as Hp.
  { apply (apply_pushed n b n2 a (pq_ops req) res); [done..| |done]. apply Forall_fmap. exact (from_bytes_names body req Hreq). }
  intros Hf. assert (n' = n2) as -> by (destruct res; unfold lift_res in Hf; [destruct (to_allocvec _)|]; by injection Hf).
  split; [done|]. eauto.
Qed.

Lemma serve_http_spec n n' a reads r : mem_ok (n_refs n) → serve_http_once a reads n = (r, n') →
  (has_write_capability a = false → n' = n) ∧
  (n' = n ∨ ∃ line body req, (read_http reads).1 = Ok (line, body) ∧ from_bytes body = Ok req ∧ pushed n n' a (pq_ops req)).
Proof.
  intros Hi. unfold serve_http_once. rewrite lift_bind. destruct (read_http reads).1 as [[line body]|]; [|intros [= _ <-]; auto].
  destruct (str_contains line FETCH_PATH); [intros ->%serve_http_fetch_same; auto|].
  destruct (str_contains line PUSH_PATH); [|intros [= _ <-]; auto].
  intros [Hw Hp]%serve_http_push_spec; [|done]. split; [done|]. destruct Hp as [?|(req & ? & ?)]; eauto 10.
Qed.

(** One session with any client at all, or one request over HTTP, whatever the accessor. *)
Inductive served : relation Node :=
| session n n' a room inbox r out : Forall message_ok inbox → feed (serve a) n room inbox = (r, n', out) → served n n'
| http_request n n' a reads r : serve_http_once a reads n = (r, n') → served n n'.

Lemma served_pushed n n' : mem_ok (n_refs n) → served n n' → ∃ a ops, pushed n n' a ops.
Proof.
  intros Hi Hs. revert Hi. destruct Hs as [n1 n2 a room inbox r out Hok Hf|n1 n2 a reads r Hs]; intros Hi.
  - destruct (serve_pushed n1 n2 a room inbox r out Hi Hok Hf). eauto.
  - destruct (serve_http_spec n1 n2 a reads r Hi Hs) as [_ [->|(line & body & req & _ & _ & Hp)]]; [|eauto].
    exists a, []. by apply pushed_refl.
Qed.
End requests.

Lemma parent_of_mono O O' x y : O ⊆ O' → parent_of O x y → parent_of O' x y.
Proof. intros Hs (snap & Hx & Hy). exists snap. split; [|done]. by eapply lookup_weaken. Qed.

(** What any sessions keep. *)
Record kept n n' : Prop := {
  kp_ok : mem_ok (n_refs n');
  kp_complete : heads_complete n → heads_complete n';
  kp_acls : n_acls n' = n_acls n;
  kp_hooks : n_hooks n' = n_hooks n;
  kp_store : n_store n ⊆ n_store n';
  kp_reserved name : reserved (as_str name) = true → mem_view (n_refs n') !! name = mem_view (n_refs n) !! name;
  kp_tags name t : mem_view (n_refs n) !! name = Some (RTag t) → mem_view (n_refs n') !! name = Some (RTag t);
  kp_timelines name t : mem_view (n_refs n) !! name = Some (RTimeline t) →
    ∃ h, mem_view (n_refs n') !! name = Some (RTimeline (with_head t h)) ∧
      (policy t ≠ Unrestricted → rtc (parent_of (decoded (n_store n'))) h (head t))
}.

Lemma kept_refl n : mem_ok (n_refs n) → kept n n.
Proof. intros Hi. split; try done. intros name t Ht. exists (head t). rewrite with_head_same. done. Qed.

Lemma kept_trans n1 n2 n3 : kept n1 n2 → kept n2 n3 → kept n1 n3.
Proof.
  intros H12 H23. destruct H12 as [Hi2 Hc2 Ha2 Hh2 Hs2 Hr2 Ht2 Hl2], H23 as [Hi3 Hc3 Ha3 Hh3 Hs3 Hr3 Ht3 Hl3]. split; auto; try congruence.
  - by etrans.
  - intros name Hn. rewrite Hr3, Hr2; done.
  - intros name t (h & Hn & Hf)%Hl2. apply Hl3 in Hn as (h' & Hn & Hf'). exists h'. split; [done|]. intros Hp.
    etrans; [by apply Hf'|]. eapply rtc_subrel; [|by apply Hf]. intros x y. apply parent_of_mono, decoded_mono, Hs3.
Qed.

Lemma pushed_kept n n' a ops : mem_ok (n_refs n) → pushed n n' a ops → kept n n'.
Proof.
  intros Hi [Ha Hh _ Hok Hs Hr Hf]. split; try done.
  - intros Hc name t Ht. destruct (Hr name) as [Heq|(op & t' & [_ Hall] & _ & Ht' & Hh' & _)].
    + rewrite Ht in Heq. apply (complete_mono (decoded (n_store n))); [by apply decoded_mono|]. by apply (Hc name).
    + rewrite Ht in Ht'. injection Ht' as <-. rewrite Hh'. apply (pa_complete _ _ _ Hall).
  - intros name Hres. destruct (Hr name) as [?|(op & t' & [_ Hall] & <- & _)]; [done|].
    apply pa_namespace in Hall. congruence.
  - intros name t Ht. destruct (Hr name) as [Heq|(op & t' & _ & _ & _ & _ & Hb)]; [congruence|]. by rewrite Ht in Hb.
  - intros name t Ht. destruct (Hr name) as [Heq|(op & t' & _ & _ & Ht' & _ & Hb)].
    + exists (head t). rewrite with_head_same. split; [congruence|done].
    + rewrite Ht in Hb. exists (head t'). rewrite <- Hb. split; [done|]. by apply (Hf name).
Qed.

(** [C5] However many sessions and HTTP requests, fetches and pushes, a repository on the
    in-memory backends serves, to whatever clients with whatever accessors, wherever they hang up
    (on disk a pushed batch of clashing names can fail half way, see
    [clashing_names_poison_journal]): no ref disappears, tags and the refs of the
    policy and collaboration namespaces stay as they are, a timeline keeps its policy and
    metadata, the head of a protected one only ever moves to a descendant, the access
    rules and hooks stay, no object is lost; and if every timeline's closure was complete
    it still is. *)
Theorem replication_history
    `{!BodyCodec FetchReq, !BodyCodec FetchResp, !BodyCodec PushReq, !BodyCodec PushResp, !BodyCodecLaws PushReq push_names} n n' :
  mem_ok (n_refs n) → rtc served n n' → kept n n'.
Proof.
  intros Hi Hs. revert Hi. induction Hs as [n|n1 n2 n3 Hstep _ IH]; intros Hi; [by apply kept_refl|].
  destruct (served_pushed n1 n2 Hi Hstep) as (a & ops & Hp).
  apply (kept_trans _ n2); [by eapply pushed_kept|]. apply IH, (pu_refs_ok _ _ _ _ Hp).
Qed.
End memory.

(** ** On concrete data: the client pushes its second commit *)
#[local] Existing Instance demo_io_text.
#[local] Existing Instance toy_ed25519.
#[local] Existing Instance toy_zstd.
#[local] Existing Instance ex_sync_codec.
Definition ex_update : RefUpdateOp := MkUpdate ex_main (Some (ex_id x01)) (ex_id x02).
Definition ex_pushed_pack : bytes := match build_pack ex_client [ex_id x02; ex_id x12; ex_id x22] with Ok p => p | Err _ => [] end.
Definition ex_push : list Message := [Pack ex_pushed_pack; RefUpdate [ex_update]].
Definition ex_push_run : res () * Node MemoryBackend MemoryRefBackend MemoryAclBackend * list Message :=
  feed (serve_push ex_writer) ex_server 2 ex_push.
Definition ex_after_push : Node MemoryBackend MemoryRefBackend MemoryAclBackend := ex_push_run.1.2.
Definition ex_pushed_main : Timeline := MkTimeline (ex_id x02) FastForwardOnly 0 "persistent" None.

Lemma ex_push_run_eq : feed (serve_push ex_writer) ex_server 2 ex_push = (ex_push_run.1.1, ex_after_push, ex_push_run.2).
Proof. unfold ex_after_push, ex_push_run. destruct (feed _ _ _ _) as [[r n'] out]. reflexivity. Qed.
Lemma ex_push_ok : Forall message_ok ex_push.
Proof. repeat constructor. Qed.

Lemma serve_push_confined_witness : mem_view (n_refs ex_after_push) !! ex_main = Some (RTimeline ex_pushed_main) ∧
  moved_by (λ op, (∃ ops, RefUpdate ops ∈ ex_push ∧ op ∈ ops) ∧ push_allowed (set_store (n_store ex_after_push) ex_server) ex_writer op)
    ex_main (mem_view (n_refs ex_server) !! ex_main) (mem_view (n_refs ex_after_push) !! ex_main).
Proof.
  assert (mem_view (n_refs ex_after_push) !! ex_main = Some (RTimeline ex_pushed_main)) as Ha by (apply (bool_decide_unpack _); vm_compute; exact I).
  split; [exact Ha|].
  destruct (serve_push_confined ex_server ex_after_push ex_writer 2 ex_push _ _ ex_refs_ok ex_push_ok ex_push_run_eq) as (_ & _ & _ & _ & Hr & _).
  destruct (Hr ex_main) as [Heq|Hm]; [|exact Hm]. exfalso. rewrite Ha in Heq. vm_compute in Heq. discriminate Heq.
Defined.

Definition ex_session : list Message := Hello 1 1 CAP_EMPTY Push None :: ex_push.

(** The same update once more, over HTTP. *)
Definition ex_push_req : PushReq := MkPushReq ex_pushed_pack [ex_update].
Definition ex_bodies_fetch : BodyCodec FetchReq := table_bodies [].
Definition ex_bodies_fetched : BodyCodec FetchResp := table_bodies [].
Definition ex_bodies_push : BodyCodec PushReq := table_bodies [(ex_push_req, [x01])].
Definition ex_bodies_pushed : BodyCodec PushResp := table_bodies [(MkPushResp [MkStatus ex_main (NonFastForward (ex_id x02))], [x02])].
#[local] Existing Instance ex_bodies_fetch.
#[local] Existing Instance ex_bodies_fetched.
#[local] Existing Instance ex_bodies_push.
#[local] Existing Instance ex_bodies_pushed.
#[local] Instance ex_bodies_push_laws : BodyCodecLaws PushReq push_names.
Proof. apply table_bodies_laws; [repeat constructor; set_solver|]. repeat constructor. Qed.

Definition ex_again : res bytes * Node MemoryBackend MemoryRefBackend MemoryAclBackend :=
  serve_http_once ex_writer [request PUSH_PATH [x01]] ex_after_push.
Example ex_again_conflict : ex_again.1 = Ok (respond [x02]).
Proof. apply (bool_decide_unpack _). by vm_compute. Qed.

Lemma replication_history_witness : ∃ h, mem_view (n_refs ex_again.2) !! ex_main = Some (RTimeline (MkTimeline h FastForwardOnly 0 "persistent" None)) ∧
  rtc (parent_of (decoded (n_store ex_again.2))) h (ex_id x01).
Proof.
  assert (served ex_server ex_after_push) as Hs.
  { apply (session ex_server ex_after_push ex_writer 2 ex_session ex_push_run.1.1 ex_push_run.2); [|exact ex_push_run_eq].
    constructor; [constructor|exact ex_push_ok]. }
  assert (served ex_after_push ex_again.2) as Hh.
  { apply (http_request ex_after_push ex_again.2 ex_writer [request PUSH_PATH [x01]] ex_again.1). unfold ex_again. apply surjective_pairing. }
  pose proof (kp_timelines _ _ (replication_history ex_server ex_again.2 ex_refs_ok (rtc_l _ _ _ _ Hs (rtc_once _ _ Hh))) ex_main
    (MkTimeline (ex_id x01) FastForwardOnly 0 "persistent" None)) as Ht.
  assert (mem_view (n_refs ex_server) !! ex_main = Some (RTimeline (MkTimeline (ex_id x01) FastForwardOnly 0 "persistent" None))) as He
    by (apply (bool_decide_unpack _); vm_compute; exact I).
  destruct (Ht He) as (h & Hh' & Hf). exists h. split; [exact Hh'|]. apply Hf. discriminate.
Defined.
