(* ===== verification/Authn.v ===== *)
(** * Authn: who a peer is

    src/src/sync/authn.rs: the principal a transport has authenticated, the map from
    principals to actors, and the accessor a session is then checked against. (The
    signatures of ref updates are in Signing.)

    The theorem: a peer whose principal has no grant is harmless, whatever it sends: it
    changes nothing and is told of public references only. *)

From S2P Require Import Prelude Graph Order Ids Objects Store Lattice Access Walk Refs RefStore Acl Signing Policy Repo Pack Wire Session Sync SyncFacts SyncPush.

Inductive Principal : Type :=
| SshKey (key_id : string)
| Token (token : string)
| Mtls (subject : string)
| Anonymous.
#[global] Instance Principal_eq_dec : EqDecision Principal. Proof. solve_decision. Defined.

Inductive AuthMethod : Type := AuthSsh | AuthToken | AuthMtls | AuthNone.
Record PeerIdentity : Type := MkPeer { pi_principal : Principal; pi_method : AuthMethod }.

(** [ActorMap] *)
Record ActorMap : Type := MkActorMap {
  am_ssh : gmap string string;
  am_token : gmap string string;
  am_mtls : gmap string string
}.
Definition ActorMap_new : ActorMap := MkActorMap ∅ ∅ ∅.
Definition map_ssh_key (key_id actor : string) (m : ActorMap) : ActorMap :=
  MkActorMap (<[key_id := actor]> (am_ssh m)) (am_token m) (am_mtls m).
Definition map_token (token actor : string) (m : ActorMap) : ActorMap :=
  MkActorMap (am_ssh m) (<[token := actor]> (am_token m)) (am_mtls m).
Definition map_mtls (subject actor : string) (m : ActorMap) : ActorMap :=
  MkActorMap (am_ssh m) (am_token m) (<[subject := actor]> (am_mtls m)).
Definition actor_for (m : ActorMap) (p : Principal) : option string :=
  match p with
  | SshKey k => am_ssh m !! k
  | Token t => am_token m !! t
  | Mtls s => am_mtls m !! s
  | Anonymous => None
  end.

Section accessor.
Context {A : Type} `{AclBackend A}.

Definition accessor_for (store : A) (actor_map : ActorMap) (p : Principal) : res Accessor :=
  lattice ← get_lattice store;
  rules ← get_label_ruleset store;
  match actor_for actor_map p with
  | Some actor =>
      grant ← get_grant store actor;
      match grant with
      | Some g => Ok (accessor_from_parts lattice rules (grant_clearances g))
      | None => Ok (accessor_from_parts lattice rules ClearanceSet_default)
      end
  | None => Ok (accessor_from_parts lattice rules ClearanceSet_default)
  end.

(** A principal without a grant has no clearance at all. *)
Lemma accessor_for_grantless store m p a : accessor_for store m p = Ok a →
  (∀ actor, actor_for m p = Some actor → get_grant store actor = Ok None) →
  ∃ L rs, get_lattice store = Ok L ∧ get_label_ruleset store = Ok rs ∧ a = accessor_from_parts L rs ClearanceSet_default.
Proof.
  unfold accessor_for. rewrite bind_Ok. intros (L & HL & Ha) Hg. apply bind_Ok in Ha as (rs & Hrs & Ha). exists L, rs.
  do 2 (split; [done|]). destruct (actor_for m p) as [actor|]; [|by injection Ha].
  rewrite (Hg actor eq_refl) in Ha. by injection Ha.
Qed.
Lemma no_clearance L rs : has_write_capability (accessor_from_parts L rs ClearanceSet_default) = false ∧
  ∀ label r, can_read (accessor_from_parts L rs ClearanceSet_default) label r = false ∧
    can_write (accessor_from_parts L rs ClearanceSet_default) label r = false.
Proof. done. Qed.
End accessor.

(** ** Sessions *)
Section sessions.
Context `{IoText, Ed25519, ObjectCodec, Zstd}.
Context {A : Type} `{AclBackend A}.
Abbreviation Node := (Node MemoryBackend MemoryRefBackend A).

(** A peer without a grant, whatever it sends in a session and whenever it hangs up, leaves the serving
    repository exactly as it was, and every reference it is served has the public label. *)
Theorem grantless_peer_harmless (n n' : Node) (m : ActorMap) (p : Principal) (a : Accessor) (room : nat) (inbox out : list Message) (r : res ()) :
  mem_ok (n_refs n) → Forall message_ok inbox →
  accessor_for (n_acls n) m p = Ok a →
  (∀ actor, actor_for m p = Some actor → get_grant (n_acls n) actor = Ok None) →
  feed (serve a) n room inbox = (r, n', out) →
  n' = n ∧
  ∀ names name, list_refs_served (node_repo n) "" a = Ok names → name ∈ names →
    ∃ L rs, get_lattice (n_acls n) = Ok L ∧ get_label_ruleset (n_acls n) = Ok rs ∧
      label_for_timeline rs L (as_str name) = bottom L.
Proof.
  intros Hi Hok Ha Hg Hf. destruct (accessor_for_grantless _ _ _ _ Ha Hg) as (L & rs & HL & Hrs & ->).
  destruct (no_clearance L rs) as [Hw Hr]. split.
  - unfold serve in Hf. rewrite feed_recv in Hf. destruct inbox as [|msg inbox]; [by injection Hf|].
    apply Forall_cons in Hok as [_ Hok]. destruct msg as [? ? ? [] ?| | | | | | | | | | | |];
      try (rewrite feed_send in Hf; destruct room; by injection Hf).
    + by apply serve_fetch_spec in Hf as [-> _].
    + by apply (serve_push_spec n n' _ room inbox r out Hi Hok Hf).
    + by apply serve_fetch_spec in Hf as [-> _].
  - intros names name Hl Hin. exists L, rs. do 2 (split; [done|]).
    unfold list_refs_served, list_refs_filtered in Hl. cbn [r_acls node_repo] in Hl. rewrite HL, Hrs in Hl. cbn [mbind result_bind] in Hl.
    destruct (list_refs _ "") as [all|]; [|done]. cbn [mbind result_bind] in Hl. injection Hl as <-.
    apply list_elem_of_filter in Hin as [_ [Hv _]%list_elem_of_filter]. unfold timeline_readable_with in Hv.
    apply Is_true_true, orb_true_iff in Hv as [Hv|Hv]; [by apply bool_decide_eq_true in Hv|]. rewrite (proj1 (Hr _ _)) in Hv. done.
Qed.
End sessions.
