(* ===== verification/HttpAuth.v ===== *)
(** * HttpAuth: who makes a request

    src/bole-api/src/auth.rs, config.rs and error.rs: the error envelope, the
    configuration with its registered keys, and the extraction of a principal and an
    accessor from a request.

    Parameters: what the hex and sha2 crates compute, the parsing of an IP address, and a
    header's value as text ([None] where it is not visible ASCII).  The clock is an argument.

    The theorems: a request that is let through is anonymous only if it presents no
    credential; one that is let through as a key holder carries a fresh signature of that
    key over its method, its full target and its date; all rejections of a signed request
    are the same. *)

From S2P Require Import Prelude Graph Order Ids Text Objects Store Lattice Access Walk Refs RefStore Acl Signing Policy Repo Sync Authn.
From Stdlib Require Import Ascii.

(** ** Errors (error.rs) *)

(** The text of a message, or of an error of the library. *)
Inductive Message : Type := Text (s : string) | Display (e : Error).
Record ApiError : Type := MkApiError { ae_status : N; ae_code : string; ae_message : Message }.
Definition bad_request (msg : string) : ApiError := MkApiError 400 "bad_request" (Text msg).
Definition unauthorized (msg : string) : ApiError := MkApiError 401 "unauthorized" (Text msg).
Definition not_found (msg : string) : ApiError := MkApiError 404 "not_found" (Text msg).
Definition method_not_allowed (msg : string) : ApiError := MkApiError 405 "method_not_allowed" (Text msg).
(** [StatusCode::is_server_error] *)
Definition is_server_error (status : N) : bool := (500 <=? status)%N && (status <=? 599)%N.
Definition from_status (status : N) (msg : string) : ApiError :=
  MkApiError status
    (if decide (status = 400%N) then "bad_request" else if decide (status = 401%N) then "unauthorized"
     else if decide (status = 404%N) then "not_found" else if decide (status = 405%N) then "method_not_allowed"
     else if is_server_error status then "internal" else "bad_request") (Text msg).
Definition internal (msg : Message) : ApiError := MkApiError 500 "internal" msg.
(** [From<bole::Error>], [From<ParseObjectIdError>] *)
Definition from_error (e : Error) : ApiError := internal (Display e).
Definition from_parse_id (_ : ParseObjectIdError) : ApiError := bad_request "invalid object id (expected 64 hex chars)".
Abbreviation api := (Result ApiError).
Definition map_err {E E' A} (f : E → E') (r : Result E A) : Result E' A :=
  match r with Ok a => Ok a | Err e => Err (f e) end.

(** ** Configuration (config.rs) *)
Record RegisteredKey : Type := MkKey { rk_pubkey : Key; rk_actor : string }.
Record AuthConfig : Type := MkAuthConfig {
  actors : ActorMap;
  keys : gmap string RegisteredKey;
  trusted_proxies : list string
}.
Record KeyEntry : Type := MkKeyEntry { ke_pubkey : string; ke_actor : string }.
Record AuthConfigFile : Type := MkConfigFile {
  cf_tokens : gmap string string;
  cf_mtls : gmap string string;
  cf_keys : gmap string KeyEntry;
  cf_trusted : list string
}.
Definition AuthConfig_default : AuthConfig := MkAuthConfig ActorMap_new ∅ [].

(** [std::net::IpAddr] *)
Inductive IpAddr : Type := V4 (a : N) | V6 (a : N).
#[global] Instance IpAddr_eq_dec : EqDecision IpAddr. Proof. solve_decision. Defined.

Class HttpEnv := {
  hex_decode : string → option bytes;
  hex_encode : bytes → string;
  sha256 : bytes → bytes;
  parse_ip : string → option IpAddr
}.

Section config.
Context `{HttpEnv}.

(** [raw.try_into()], an array of 32 bytes *)
Definition key_of_bytes (raw : bytes) : option Key := if decide (length raw = 32) then Some (pad_vec 32 raw) else None.

Definition add_key (acc : ActorMap * gmap string RegisteredKey) (e : string * KeyEntry)
    : Result string (ActorMap * gmap string RegisteredKey) :=
  raw ← ok_or (hex_decode (ke_pubkey e.2)) ("key " +:+ e.1 +:+ ": pubkey is not valid hex");
  pubkey ← ok_or (key_of_bytes raw) ("key " +:+ e.1 +:+ ": pubkey must be 32 bytes");
  Ok (map_ssh_key e.1 (ke_actor e.2) acc.1, <[e.1 := MkKey pubkey (ke_actor e.2)]> acc.2).
Fixpoint add_keys (l : list (string * KeyEntry)) (acc : ActorMap * gmap string RegisteredKey)
    : Result string (ActorMap * gmap string RegisteredKey) :=
  match l with [] => Ok acc | e :: l => acc ← add_key acc e; add_keys l acc end.
(** The tables in the unspecified order of a [HashMap]. *)
Definition from_file (f : AuthConfigFile) : Result string AuthConfig :=
  let actors := foldl (λ m e, map_token e.1 e.2 m) ActorMap_new (map_to_list (cf_tokens f)) in
  let actors := foldl (λ m e, map_mtls e.1 e.2 m) actors (map_to_list (cf_mtls f)) in
  '(actors, keys) ← add_keys (map_to_list (cf_keys f)) (actors, ∅);
  Ok (MkAuthConfig actors keys (cf_trusted f)).
End config.

(** ** Requests (auth.rs) *)

(** What authentication reads of a request: a header is absent, or present with its text
    if it has one. *)
Record Parts : Type := MkParts {
  p_method : string;
  p_target : string;
  p_authorization : option (option string);
  p_client_subject : option (option string);
  p_date : option (option string);
  p_peer : option IpAddr
}.
Record RequestAuth : Type := MkAuth { ra_accessor : Accessor; ra_principal : Principal; ra_actor : option string }.

(** [value.split_once(' ')] *)
Fixpoint split_once_space (s : string) : option (string * string) :=
  match s with
  | String.EmptyString => None
  | String.String a s =>
      if Ascii.eqb a " " then Some ("", s)
      else match split_once_space s with Some (x, y) => Some (String.String a x, y) | None => None end
  end.
(** [u8::to_ascii_lowercase], [eq_ignore_ascii_case] *)
Definition to_ascii_lowercase (a : ascii) : ascii :=
  let n := N_of_ascii a in if (65 <=? n)%N && (n <=? 90)%N then ascii_of_N (n + 32) else a.
Fixpoint lowercase (s : string) : string :=
  match s with String.EmptyString => "" | String.String a s => String.String (to_ascii_lowercase a) (lowercase s) end.
Definition eq_ignore_ascii_case (s t : string) : bool := bool_decide (lowercase s = lowercase t).

(** [v.trim_matches] of the double quote *)
Definition quote : ascii := "034".
Fixpoint trim_quotes_front (s : string) : string :=
  match s with
  | String.String a s' => if Ascii.eqb a quote then trim_quotes_front s' else s
  | String.EmptyString => ""
  end.
Definition rev_string (s : string) : string := String.string_of_list_ascii (reverse (String.list_ascii_of_string s)).
Definition trim_quotes (s : string) : string := rev_string (trim_quotes_front (rev_string (trim_quotes_front s))).
Definition trim_str (s : string) : string := bytes_str (trim (str_bytes s)).

Definition extract_param (s name : string) : option string :=
  let fix find parts :=
    match parts with
    | [] => None
    | part :: parts =>
        match strip_prefix (name +:+ "=") (trim_str part) with
        | Some v => Some (trim_quotes v)
        | None => find parts
        end
    end in
  find (split_on "," s).

Definition abs_diff (a b : N) : N := (if a <? b then b - a else a - b)%N.

(** [Ipv6Addr::to_canonical] *)
Definition canonical_ip (ip : IpAddr) : IpAddr :=
  match ip with
  | V6 a => if (N.shiftr a 32 =? 65535)%N then V4 (a mod 2 ^ 32)%N else V6 a
  | V4 a => V4 a
  end.

Definition SIGNED_REQUEST_DOMAIN : bytes := str_bytes "bole-http-req-v1" ++ [x00].
Definition MAX_SKEW_SECS : N := 300.
Definition DUMMY_VERIFY_SEED : Seed := vreplicate 32 x42.
Definition newline : string := bytes_str [x0a].

Section auth.
Context `{HttpEnv, Ed25519}.
Context {A : Type} `{AclBackend A}.
(** [SystemTime::now()] in seconds. *)
Context (now : N) (config : AuthConfig).

Definition request_message (method target date : string) : bytes :=
  SIGNED_REQUEST_DOMAIN ++ str_bytes (method +:+ newline +:+ target +:+ newline +:+ date +:+ newline +:+ hex_encode (sha256 [])).
Definition generic : ApiError := unauthorized "signed request rejected".

(** [.and_then(|b| b.try_into().ok())], an array of 64 bytes *)
Definition sig_of_hex (s : string) : option (vec byte 64) :=
  b ← hex_decode s; if decide (length b = 64) then Some (pad_vec 64 b) else None.

Definition verify_signed (rest : string) (parts : Parts) : api Principal :=
  key_id ← ok_or (extract_param rest "keyId") generic;
  sig_hex ← ok_or (extract_param rest "sig") generic;
  date ← ok_or (mjoin (p_date parts)) generic;
  ts ← ok_or (parse_u64 date) generic;
  if (MAX_SKEW_SECS <? abs_diff now ts)%N then Err generic
  else
    let registered := keys config !! key_id in
    let msg := request_message (p_method parts) (p_target parts) date in
    vk ← match registered with
         | Some r => if vk_from_bytes (rk_pubkey r) then Ok (rk_pubkey r) else Err generic
         | None => Ok (verifying_key DUMMY_VERIFY_SEED)
         end;
    let verified := match sig_of_hex sig_hex with Some sb => vk_verify vk msg sb | None => false end in
    if bool_decide (registered = None) || negb verified then Err generic else Ok (SshKey key_id).

(** The peer is an allowlisted proxy. *)
Definition from_trusted_proxy (parts : Parts) : bool :=
  match p_peer parts with
  | Some a => existsb (λ t, bool_decide (canonical_ip t = canonical_ip a)) (omap parse_ip (trusted_proxies config))
  | None => false
  end.

Definition resolve_principal (parts : Parts) : api Principal :=
  match p_authorization parts with
  | Some auth =>
      value ← ok_or auth (bad_request "non-ascii Authorization header");
      '(scheme, rest) ← ok_or (split_once_space value) (unauthorized "malformed Authorization header");
      if eq_ignore_ascii_case scheme "bearer" then Ok (Token rest)
      else if eq_ignore_ascii_case scheme "signature" then verify_signed rest parts
      else Err (unauthorized "unrecognized Authorization scheme")
  | None =>
      match mjoin (p_client_subject parts) with
      | Some subject => if from_trusted_proxy parts then Ok (Mtls subject) else Ok Anonymous
      | None => Ok Anonymous
      end
  end.

(** [FromRequestParts for RequestAuth] *)
Definition from_request_parts (acls : A) (parts : Parts) : api RequestAuth :=
  principal ← resolve_principal parts;
  let actor := actor_for (actors config) principal in
  if bool_decide (actor = None) && negb (bool_decide (principal = Anonymous))
  then Err (unauthorized "credentials do not map to a known actor")
  else
    accessor ← map_err from_error (accessor_for acls (actors config) principal);
    Ok (MkAuth accessor principal actor).
End auth.

(** ** What is let through *)
Section facts.
Context `{HttpEnv, Ed25519}.
Context {A : Type} `{AclBackend A}.
Context (now : N) (config : AuthConfig).

(** A signature of the registered key over this request, made within the replay window. *)
Definition signed_by (parts : Parts) (key_id : string) : Prop := ∃ r date ts sig,
  keys config !! key_id = Some r ∧ p_date parts = Some (Some date) ∧ parse_u64 date = Some ts ∧
  (abs_diff now ts ≤ MAX_SKEW_SECS)%N ∧
  vk_verify (rk_pubkey r) (request_message (p_method parts) (p_target parts) date) sig = true.

Lemma ok_or_Err {X E} (o : option X) (e : E) e' : ok_or o e = Err e' → e' = e.
Proof. destruct o; [done|]. by intros [= ->]. Qed.

Lemma verify_signed_spec rest parts :
  match verify_signed now config rest parts with
  | Ok p => ∃ key_id, p = SshKey key_id ∧ extract_param rest "keyId" = Some key_id ∧ signed_by parts key_id
  | Err e => e = generic
  end.
Proof.
  unfold verify_signed. destruct (extract_param rest "keyId") as [key_id|]; [|done]. cbn [ok_or mbind result_bind].
  destruct (extract_param rest "sig") as [sig_hex|]; [|done]. cbn [ok_or mbind result_bind].
  destruct (p_date parts) as [[date|]|] eqn:Hd; [|done..]. cbn [ok_or mbind result_bind mjoin option_join].
  destruct (parse_u64 date) as [ts|] eqn:Hts; [|done]. cbn [ok_or mbind result_bind].
  destruct (N.ltb_spec MAX_SKEW_SECS (abs_diff now ts)) as [|Hskew]; [done|].
  destruct (keys config !! key_id) as [r|] eqn:Hr; cbn [mbind result_bind].
  - destruct (vk_from_bytes (rk_pubkey r)); [|done]. cbn [mbind result_bind]. rewrite bool_decide_false by done. cbn [orb].
    destruct (sig_of_hex sig_hex) as [sb|]; [|done].
    destruct (vk_verify _ _ sb) eqn:Hv; [|done]. exists key_id. do 2 (split; [done|]). by exists r, date, ts, sb.
  - by rewrite bool_decide_true.
Qed.

(** What a principal rests on. *)
Definition presented (parts : Parts) (p : Principal) : Prop :=
  match p with
  | Anonymous => p_authorization parts = None
  | Token t => ∃ scheme, p_authorization parts = Some (Some (scheme +:+ " " +:+ t)) ∧ lowercase scheme = "bearer"
  | SshKey k => signed_by parts k
  | Mtls subject => p_client_subject parts = Some (Some subject) ∧ from_trusted_proxy config parts = true
  end.

Lemma split_once_space_Some s x y : split_once_space s = Some (x, y) → s = x +:+ " " +:+ y.
Proof.
  revert x. induction s as [|a s IH]; intros x; [done|]. cbn [split_once_space]. destruct (Ascii.eqb_spec a " ") as [->|].
  - by intros [= <- <-].
  - destruct (split_once_space s) as [[x' y']|]; [|done]. intros [= <- <-]. by rewrite (IH x' eq_refl).
Qed.

Lemma resolve_presented parts p : resolve_principal now config parts = Ok p → presented parts p.
Proof.
  unfold resolve_principal. destruct (p_authorization parts) as [auth|] eqn:Ha.
  - rewrite bind_Ok. intros (value & Hv & Hr). destruct auth as [v|]; [|done]. injection Hv as <-.
    apply bind_Ok in Hr as ([scheme rest] & Hs & Hr). destruct (split_once_space v) as [[x y]|] eqn:Hsp; [|done].
    injection Hs as <- <-. apply split_once_space_Some in Hsp as ->.
    destruct (eq_ignore_ascii_case x "bearer") eqn:Hb.
    + injection Hr as <-. apply bool_decide_eq_true in Hb. by exists x.
    + destruct (eq_ignore_ascii_case x "signature"); [|done]. pose proof (verify_signed_spec y parts) as Hspec. rewrite Hr in Hspec.
      by destruct Hspec as (k & -> & _ & Hk).
  - destruct (p_client_subject parts) as [[subject|]|] eqn:Hc; cbn [mjoin option_join]; [|by intros [= <-]..].
    destruct (from_trusted_proxy config parts) eqn:Ht; intros [= <-]; [by split|done].
Qed.
End facts.

(** [C13] A request is let through only on what it presents: a principal other than the
    anonymous one maps to a configured actor and rests on a bearer token, on the
    word of a trusted proxy, or on a signature by the registered key over the
    method, the whole target and the date of this very request, no more than 300 seconds
    away; it is anonymous only if no Authorization header is there. Its accessor is that of the
    actor's stored grant. *)
Theorem request_authenticated `{HttpEnv, Ed25519} {A : Type} `{AclBackend A} (now : N) (config : AuthConfig) (acls : A)
    (parts : Parts) (auth : RequestAuth) :
  from_request_parts now config acls parts = Ok auth →
  presented now config parts (ra_principal auth) ∧
  (ra_principal auth ≠ Anonymous → is_Some (ra_actor auth)) ∧
  ra_actor auth = actor_for (actors config) (ra_principal auth) ∧
  accessor_for acls (actors config) (ra_principal auth) = Ok (ra_accessor auth).
Proof.
  unfold from_request_parts. rewrite bind_Ok. intros (p & Hp & Hr). apply resolve_presented in Hp.
  destruct (bool_decide _ && negb _) eqn:Hn; [done|]. apply bind_Ok in Hr as (a & Ha & [= <-]). cbn [ra_principal ra_actor ra_accessor].
  split; [done|]. split; [|split; [done|]].
  - intros Hne. rewrite (bool_decide_false (p = Anonymous)), andb_true_r in Hn by done.
    apply bool_decide_eq_false, not_eq_None_Some in Hn. done.
  - unfold map_err in Ha. by destruct (accessor_for _ _ _); simplify_eq.
Qed.

(** Every rejection of a signed request is the same answer: an unknown key cannot be told
    from a bad signature, a stale date or a malformed header. *)
Theorem rejections_uniform `{HttpEnv, Ed25519} (now : N) (config : AuthConfig) (rest : string) (parts : Parts) (e : ApiError) :
  verify_signed now config rest parts = Err e → e = generic.
Proof. intros He. pose proof (verify_signed_spec now config rest parts) as Hs. by rewrite He in Hs. Qed.

(** The bytes that are signed determine the method, the whole target and the date of a
    request (none of which holds a line feed), and are those of no other artefact the program
    signs. *)
Theorem request_message_binds `{HttpEnv, Postcard} (m t d m' t' d' : string) (x : Signed) :
  contains_char "010" m = false → contains_char "010" t = false →
  contains_char "010" m' = false → contains_char "010" t' = false →
  (request_message m t d = request_message m' t' d' → m = m' ∧ t = t' ∧ d = d') ∧
  signed_message x ≠ request_message m t d.
Proof.
  intros Hm Ht Hm' Ht'. split.
  - intros Heq%app_inv_head. apply (inj str_bytes) in Heq. apply sep_inj in Heq as [-> Heq]; [|done..].
    apply sep_inj in Heq as [-> Heq]; [|done..]. do 2 (split; [done|]).
    rewrite <- !string_app_assoc in Heq. apply (f_equal str_bytes) in Heq. rewrite !str_bytes_app in Heq.
    apply (inj str_bytes). by do 2 apply app_inv_tail in Heq.
  - destruct x; intros Heq; discriminate Heq.
Qed.

(** ** Configuration *)
Lemma foldl_insert_lookup {K V W} `{Countable K} (f : gmap K V → K * W → gmap K V) (g : K * W → V)
    (Hf : ∀ m e, f m e = <[e.1 := g e]> m) (l : list (K * W)) (m : gmap K V) k : NoDup l.*1 →
  foldl f m l !! k = match list_to_map (M := gmap K W) l !! k with Some w => Some (g (k, w)) | None => m !! k end.
Proof.
  revert m. induction l as [|[i w] l IH]; intros m; [done|]. cbn [fmap list_fmap fst foldl]. intros [Hi Hl]%NoDup_cons.
  rewrite (IH _ Hl), Hf, list_to_map_cons. cbn [fst]. destruct (decide (i = k)) as [->|Hne].
  - rewrite (not_elem_of_list_to_map_1 l k Hi). by rewrite !lookup_insert_eq.
  - by rewrite !lookup_insert_ne.
Qed.

Section config_facts.
Context `{HttpEnv}.

(** The registered key of an entry, if its public key is 32 bytes in hex. *)
Definition registered_of (e : KeyEntry) : option RegisteredKey :=
  raw ← hex_decode (ke_pubkey e); pubkey ← key_of_bytes raw; Some (MkKey pubkey (ke_actor e)).

Lemma add_key_Ok acc e acc' : add_key acc e = Ok acc' ↔
  ∃ r, registered_of e.2 = Some r ∧ acc' = (map_ssh_key e.1 (ke_actor e.2) acc.1, <[e.1 := r]> acc.2).
Proof.
  unfold add_key, registered_of. destruct (hex_decode (ke_pubkey e.2)) as [raw|]; [|naive_solver]. cbn [ok_or mbind result_bind option_bind].
  destruct (key_of_bytes raw) as [pk|]; cbn [ok_or mbind result_bind option_bind]; [|naive_solver].
  split; [intros [= <-]; by eexists|]. by intros (r & [= <-] & ->).
Qed.

Lemma add_keys_Ok l acc acc' : NoDup l.*1 → add_keys l acc = Ok acc' →
  am_token acc'.1 = am_token acc.1 ∧ am_mtls acc'.1 = am_mtls acc.1 ∧
  ∀ k, match list_to_map (M := gmap string KeyEntry) l !! k with
       | Some e => am_ssh acc'.1 !! k = Some (ke_actor e) ∧ is_Some (registered_of e) ∧ acc'.2 !! k = registered_of e
       | None => am_ssh acc'.1 !! k = am_ssh acc.1 !! k ∧ acc'.2 !! k = acc.2 !! k
       end.
Proof.
  revert acc. induction l as [|[i e] l IH]; intros acc; [by intros _ [= <-]|]. cbn [fmap list_fmap fst add_keys].
  intros [Hi Hl]%NoDup_cons (acc1 & (r & Hr & ->)%add_key_Ok & Ha)%bind_Ok. cbn [fst snd] in *.
  destruct (IH _ Hl Ha) as (Ht & Hm & Hk). cbn [map_ssh_key am_token am_mtls am_ssh fst snd] in *. do 2 (split; [done|]).
  intros k. rewrite list_to_map_cons. specialize (Hk k). destruct (decide (i = k)) as [->|Hne].
  - rewrite (not_elem_of_list_to_map_1 l k Hi) in Hk. rewrite lookup_insert_eq in *. rewrite Hr, lookup_insert_eq in *.
    destruct Hk as [-> ->]. rewrite lookup_insert_eq. split; [done|]. split; [by eexists|done].
  - rewrite lookup_insert_ne by done. destruct (list_to_map l !! k); [done|]. by rewrite !lookup_insert_ne in Hk.
Qed.

Lemma add_keys_Err l acc msg : add_keys l acc = Err msg → ∃ e, e ∈ l ∧ registered_of e.2 = None.
Proof.
  revert acc. induction l as [|e l IH]; intros acc; [done|]. cbn [add_keys]. destruct (add_key acc e) as [acc1|m] eqn:He.
  - cbn [mbind result_bind]. intros (e' & ? & ?)%IH. exists e'. split; [by right|done].
  - intros _. exists e. split; [left|]. destruct (registered_of e.2) as [r|] eqn:Hr; [|done]. exfalso.
    assert (add_key acc e = Ok (map_ssh_key e.1 (ke_actor e.2) acc.1, <[e.1 := r]> acc.2)) as Hok by (apply add_key_Ok; eauto).
    congruence.
Qed.

Lemma map_tokens_fields (l : list (string * string)) m :
  am_ssh (foldl (λ m e, map_token e.1 e.2 m) m l) = am_ssh m ∧ am_mtls (foldl (λ m e, map_token e.1 e.2 m) m l) = am_mtls m ∧
  am_token (foldl (λ m e, map_token e.1 e.2 m) m l) = foldl (λ t e, <[e.1 := e.2]> t) (am_token m) l.
Proof. revert m. induction l as [|e l IH]; intros m; [done|]. exact (IH (map_token e.1 e.2 m)). Qed.
Lemma map_mtls_fields (l : list (string * string)) m :
  am_ssh (foldl (λ m e, map_mtls e.1 e.2 m) m l) = am_ssh m ∧ am_token (foldl (λ m e, map_mtls e.1 e.2 m) m l) = am_token m ∧
  am_mtls (foldl (λ m e, map_mtls e.1 e.2 m) m l) = foldl (λ t e, <[e.1 := e.2]> t) (am_mtls m) l.
Proof. revert m. induction l as [|e l IH]; intros m; [done|]. exact (IH (map_mtls e.1 e.2 m)). Qed.

(** A configuration is read exactly: tokens, client subjects and key ids map to the actors
    the file names, the registered keys are the decoded ones, and it is refused just when
    some public key is not 32 bytes of hex. So whoever signs as a registered key is mapped
    to its actor. *)
Theorem from_file_correct (f : AuthConfigFile) :
  match from_file f with
  | Ok c =>
      (∀ t, actor_for (actors c) (Token t) = cf_tokens f !! t) ∧
      (∀ s, actor_for (actors c) (Mtls s) = cf_mtls f !! s) ∧
      (∀ k, actor_for (actors c) (SshKey k) = ke_actor <$> cf_keys f !! k) ∧
      (∀ k, keys c !! k = cf_keys f !! k ≫= registered_of) ∧
      (∀ k e, cf_keys f !! k = Some e → is_Some (registered_of e)) ∧
      trusted_proxies c = cf_trusted f
  | Err _ => ∃ k e, cf_keys f !! k = Some e ∧ registered_of e = None
  end.
Proof.
  unfold from_file. set (m1 := foldl _ ActorMap_new _). set (m2 := foldl _ m1 _).
  destruct (map_tokens_fields (map_to_list (cf_tokens f)) ActorMap_new) as (T1 & T2 & T3).
  destruct (map_mtls_fields (map_to_list (cf_mtls f)) m1) as (M1 & M2 & M3). fold m1 in T1, T2, T3. fold m2 in M1, M2, M3.
  destruct (add_keys (map_to_list (cf_keys f)) (m2, ∅)) as [[a ks]|msg] eqn:Ha; cbn [mbind result_bind].
  - destruct (add_keys_Ok _ _ _ (NoDup_fst_map_to_list _) Ha) as (Ht & Hm & Hk). rewrite list_to_map_to_list in Hk.
    cbn [actors keys trusted_proxies actor_for fst snd] in *. rewrite Ht, Hm, M2, T3, M3, T2.
    assert (∀ (t : gmap string string) k, foldl (λ (t : gmap string string) e, <[e.1 := e.2]> t) ∅ (map_to_list t) !! k = t !! k) as Hfold.
    { intros t k. rewrite (foldl_insert_lookup (λ t e, <[e.1 := e.2]> t) snd); [|done|apply NoDup_fst_map_to_list].
      rewrite list_to_map_to_list. cbn [snd]. by destruct (t !! k). }
    split; [intros t; exact (Hfold (cf_tokens f) t)|]. split; [intros t; exact (Hfold (cf_mtls f) t)|]. split; [|split; [|split; [|done]]].
    + intros k. specialize (Hk k). destruct (cf_keys f !! k) as [e|]; [by destruct Hk as [-> _]|]. destruct Hk as [-> _]. by rewrite M1, T1.
    + intros k. specialize (Hk k). destruct (cf_keys f !! k) as [e|]; [by destruct Hk as (_ & _ & ->)|]. destruct Hk as [_ ->]. done.
    + intros k e He. specialize (Hk k). rewrite He in Hk. by destruct Hk as (_ & ? & _).
  - apply add_keys_Err in Ha as ([k e] & Hin & Hr). exists k, e. by apply elem_of_map_to_list in Hin.
Qed.
End config_facts.

(** ** A signed request

    The toy signature scheme, hex as its own encoding, and a key registered for one actor. *)
Section demo.
#[local] Existing Instance toy_ed25519.
Definition toy_env : HttpEnv := {|
  hex_decode s := Some (str_bytes s);
  hex_encode l := bytes_str l;
  sha256 _ := [];
  parse_ip _ := None
|}.
#[local] Existing Instance toy_env.

Definition ex_key : Key := vreplicate 32 x41.
Definition ex_auth_config : AuthConfig :=
  MkAuthConfig (map_ssh_key "k1" "alice" ActorMap_new) {[ "k1" := MkKey ex_key "alice" ]} [].
Definition ex_signature : string :=
  bytes_str (vec_to_list (sign ex_key (request_message "GET" "/v1/timelines/main?x=1" "1000"))).
Definition ex_request : Parts :=
  MkParts "GET" "/v1/timelines/main?x=1" (Some (Some ("signature keyId=k1,sig=" +:+ ex_signature))) None (Some (Some "1000")) None.
Definition ex_request_auth : api RequestAuth := from_request_parts 1200 ex_auth_config MemoryAclBackend_new ex_request.

Lemma request_authenticated_witness : ∃ auth, ex_request_auth = Ok auth ∧ ra_principal auth = SshKey "k1" ∧
  signed_by 1200 ex_auth_config ex_request "k1".
Proof.
  assert (match ex_request_auth with Ok auth => bool_decide (ra_principal auth = SshKey "k1") | Err _ => false end = true) as Hok
    by (vm_compute; reflexivity).
  destruct ex_request_auth as [auth|e] eqn:Ha; [|discriminate Hok]. exists auth. split; [reflexivity|].
  apply bool_decide_eq_true in Hok. split; [exact Hok|].
  pose proof (proj1 (request_authenticated 1200 ex_auth_config MemoryAclBackend_new ex_request auth Ha)) as Hp.
  rewrite Hok in Hp. exact Hp.
Defined.
End demo.
