(* ===== verification/SyncCollab.v ===== *)
(** * SyncCollab: the collaboration endpoint and searching relays

    The sessions of src/src/sync/collab.rs as programs over a channel ([Session.v]): the
    read-only responder that serves a node's public records and, on a relay, the records
    it has collected ([serve_collab]); the pull that files verified records under their
    authors ([collab_pull]); the transient fetches and searches of a relay, plain and
    authenticated, and the query of several relays ([query_relay_set]).

    Nonces and what a connection to a relay delivers are arguments; the debug form of a
    message in an error text is a parameter.  [SyncCollabFacts.v] holds the theorems. *)

From S2P Require Import Prelude Bytes Graph Ids Text Lattice Access Objects Refs RefStore Signing Policy Authority Merge Store Pack Gc Acl Walk Repo Trust Discovery Collab Wire Session Sync.

(** [src/src/collab/search.rs] *)
Definition MAX_SEARCH_HOPS : byte := x06.
Definition MIN_SEARCH_TERM_LEN : N := 3.
(** [max_hops.min(MAX_SEARCH_HOPS)] *)
Definition clamp_hops (max_hops : byte) : byte := if (u8 max_hops <=? u8 MAX_SEARCH_HOPS)%N then max_hops else MAX_SEARCH_HOPS.
Definition term_too_short (term : string) : bool := (N.of_nat (String.length term) <? MIN_SEARCH_TERM_LEN)%N.

(** [{other:?}] of a message. *)
Class MessageText := { message_text : Message → string }.

(** ** What both sides of the wire share *)
Definition collab_hello (caps : CapSet) (client_nonce : option (vec byte 32)) : Message :=
  Hello PROTO_VERSION PROTO_VERSION caps Fetch client_nonce.

Definition collab_object (obj : option Object) : option CollabObject :=
  match obj with Some (OCollab c) => Some c | _ => None end.

(** The author of a record is its publisher. *)
Definition author (o : CollabObject) : Key :=
  match o with CProfile p => profile_key p | CTrustEdge e => from_key e end.

(** Where [collab_pull] files a record. *)
Definition tracking_name `{ObjectCodec} (o : CollabObject) : string :=
  let afp := fingerprint (author o) in
  match o with
  | CProfile _ => COLLAB_REMOTES_PREFIX +:+ afp +:+ "/profile"
  | CTrustEdge e => COLLAB_REMOTES_PREFIX +:+ afp +:+ "/edge/" +:+ kind_seg (edge_kind e) +:+ "/" +:+ fingerprint (to_key e)
  end.

(** The verified records among the objects of a pack. *)
Definition verified_of `{ObjectCodec, Ed25519, Postcard} (canonical : bytes) : option CollabObject :=
  match deserialize canonical with Ok (OCollab o) => if verified o then Some o else None | _ => None end.
Definition verified_objects `{ObjectCodec, Ed25519, Postcard} (objs : list (ObjectId * bytes)) : list CollabObject :=
  omap (λ e, verified_of e.2) objs.
Definition verified_pack `{ObjectCodec, Zstd, Ed25519, Postcard} (p : bytes) : res (list CollabObject) :=
  objs ← decode_pack p; Ok (verified_objects objs).

(** [codec::object_id(&codec::serialize(..).expect(..))] of a selected record. *)
Definition collab_id `{ObjectCodec} (o : CollabObject) : res ObjectId :=
  match serialize (OCollab o) with
  | Ok data => Ok (object_id data)
  | Err _ => Err (Panic "postcard serialization is infallible for owned data")
  end.

(** ** The responder *)
Section serve.
Context {B : Type} `{StorageLaws B}.
Context {R : Type} `{RefBackend R, IoText, Ed25519}.
Context {A : Type} `{AclBackend A}.
Context `{!ObjectCodec, Zstd, Postcard, MessageText}.
Abbreviation Node := (Node B R A).
Implicit Types n : Node.

Definition advert_tag_step n (out : list RefAdvert) (name : RefName) : res (list RefAdvert) :=
  t ← get_tag (n_refs n) name;
  Ok (match t with Some tag => out ++ [MkAdvert name (tag_target tag) false] | None => out end).
Definition advert_tags n (prefix : string) (out : list RefAdvert) : res (list RefAdvert) :=
  names ← list_refs (n_refs n) prefix; res_fold (advert_tag_step n) out names.
(** One edge of an ordinary node: the cache of an author it follows. *)
Definition advert_followed n (out : list RefAdvert) (e : TrustEdge) : res (list RefAdvert) :=
  if decide (edge_kind e = Follow)
  then advert_tags n (COLLAB_REMOTES_PREFIX +:+ fingerprint (to_key e) +:+ "/") out
  else Ok out.
Definition collab_adverts n (relay : bool) : res (list RefAdvert) :=
  out ← advert_tags n COLLAB_PUBLIC_PREFIX [];
  if relay then advert_tags n COLLAB_REMOTES_PREFIX out
  else es ← public_edges (node_repo n); res_fold (advert_followed n) out es.

(** A relay with a signer proves possession of its key over the client's nonce. *)
Definition relay_proof (relay : bool) (relay_signer : option Seed) (client_nonce : option (vec byte 32)) : option (vec byte 64) :=
  match relay, relay_signer, client_nonce with
  | true, Some signer, Some nonce => Some (sign_relay_challenge signer nonce)
  | _, _, _ => None
  end.

Definition corpus_step n (corpus : list CollabObject) (a : RefAdvert) : res (list CollabObject) :=
  obj ← get (n_store n) (ad_target a);
  Ok (match collab_object obj with Some o => corpus ++ [o] | None => corpus end).
Definition search_corpus n (refs : list RefAdvert) : res (list CollabObject) := res_fold (corpus_step n) [] refs.

Definition send_found (refs : list RefAdvert) (term : string) (max_hops : byte) : Proc Node () :=
  if term_too_short term then send (MError "search term too short")
  else
    corpus ← run_local (gets (λ n, search_corpus n refs));
    selected ← run_local (lift_res (search_ball corpus term (clamp_hops max_hops)));
    ids ← run_local (lift_res (res_map collab_id selected));
    pack ← run_local (gets (λ n, build_pack n ids));
    _ ← send (Pack pack);
    send MDone.

Definition collab_exchange (relay : bool) (relay_signer : option Seed) (client_nonce : option (vec byte 32)) : Proc Node () :=
  refs ← run_local (gets (λ n, collab_adverts n relay));
  _ ← send (Welcome PROTO_VERSION (if relay then CAP_SEARCH else CAP_EMPTY) refs (relay_proof relay relay_signer client_nonce));
  m ← recv;
  match m with
  | HaveWant want have => send_closure (list_to_set (ad_target <$> refs)) want have
  | Search term max_hops => send_found refs term max_hops
  | _ => fail (Storage "collab: expected HaveWant or Search")
  end.

Definition serve_collab (relay : bool) (relay_signer : option Seed) : Proc Node () :=
  m ← recv;
  match m with
  | Hello _ _ _ Fetch client_nonce | Hello _ _ _ Clone client_nonce => collab_exchange relay relay_signer client_nonce
  | Hello _ _ _ Push _ =>
      _ ← send (MError "collab endpoint is read-only"); fail (Storage "collab: push not permitted")
  | _ => _ ← send (MError "expected Hello"); fail (Storage "collab: expected Hello")
  end.

(** ** The pull *)

(** The answers every client of the endpoint awaits. *)
Definition collab_welcome {S} : Proc S (list RefAdvert * CapSet * option (vec byte 64)) :=
  m ← recv;
  match m with
  | Welcome _ caps refs relay_sig => mret (refs, caps, relay_sig)
  | MError e => fail (Storage e)
  | _ => fail (Storage "collab: expected Welcome")
  end.
Definition collab_pack {S} : Proc S bytes :=
  m ← recv;
  match m with Pack p => mret p | _ => fail (Storage "collab: expected Pack") end.
Definition collab_done {S} : Proc S () :=
  m ← recv;
  match m with MDone => mret () | other => fail (Storage ("collab: expected Done, got " +:+ message_text other)) end.

Definition resolve_step n (resolved : list (RefName * CollabObject)) (r : RefAdvert) : res (list (RefName * CollabObject)) :=
  obj ← get (n_store n) (ad_target r);
  Ok (match collab_object obj with
      | Some o => if verified o then resolved ++ [(ad_name r, o)] else resolved
      | None => resolved
      end).
(** The dialed server: the author of the first profile under [public/]. *)
Definition is_own_profile (e : RefName * CollabObject) : bool :=
  String.prefix COLLAB_PUBLIC_PREFIX (as_str e.1) && match e.2 with CProfile _ => true | CTrustEdge _ => false end.
Definition peer_of (resolved : list (RefName * CollabObject)) : option Key :=
  author ∘ snd <$> find_first is_own_profile resolved.

Definition file_record (e : RefName * CollabObject) : M Node RefOp :=
  target ← on_store (put (OCollab e.2));
  name ← lift_res (RefName_new (tracking_name e.2));
  mret (tag_op name target).
(** [M_map f l]: the loop that collects the operations of the transaction. *)
Fixpoint file_records (l : list (RefName * CollabObject)) : M Node (list RefOp) :=
  match l with
  | [] => mret []
  | e :: l => op ← file_record e; ops ← file_records l; mret (op :: ops)
  end.
Definition file_resolved (resolved : list (RefName * CollabObject)) : M Node () :=
  ops ← file_records resolved; on_nrefs (commit_transaction ops).

Definition collab_pull : Proc Node Key :=
  _ ← send (collab_hello CAP_EMPTY None);
  '(refs, _, _) ← collab_welcome;
  _ ← send (HaveWant (ad_target <$> refs) []);
  pack ← collab_pack;
  _ ← collab_done;
  objs ← run_local (lift_res (decode_pack pack));
  _ ← run_local (land objs);
  resolved ← run_local (gets (λ n, res_fold (resolve_step n) [] refs));
  match peer_of resolved with
  | Some peer => _ ← run_local (file_resolved resolved); mret peer
  | None => fail (Storage "collab: peer served no valid profile")
  end.
End serve.

(** ** Transient clients: no repository at all *)
Section transient.
Context {S : Type} `{IoText, Ed25519, ObjectCodec, Zstd, Postcard, MessageText}.

Definition fetch_verified (refs : list RefAdvert) : Proc S (list CollabObject) :=
  _ ← send (HaveWant (ad_target <$> refs) []);
  pack ← collab_pack;
  _ ← collab_done;
  run_local (lift_res (verified_pack pack)).

(** The check of the relay's proof over the nonce that was sent. *)
Definition check_relay (pinned_key : Key) (nonce : vec byte 32) (relay_sig : option (vec byte 64)) : Proc S () :=
  match relay_sig with
  | None => fail (Storage "relay did not authenticate")
  | Some sig =>
      if verify_relay_challenge pinned_key nonce sig then mret () else fail (Storage "relay auth signature invalid")
  end.

Definition collab_fetch_transient : Proc S (list CollabObject) :=
  _ ← send (collab_hello CAP_EMPTY None);
  '(refs, _, _) ← collab_welcome;
  fetch_verified refs.
Definition collab_fetch_authenticated (pinned_key : Key) (nonce : vec byte 32) : Proc S (list CollabObject) :=
  _ ← send (collab_hello CAP_EMPTY (Some nonce));
  '(refs, _, relay_sig) ← collab_welcome;
  _ ← check_relay pinned_key nonce relay_sig;
  fetch_verified refs.

Definition search_pack : Proc S bytes :=
  m ← recv;
  match m with Pack p => mret p | MError e => fail (Storage e) | _ => fail (Storage "collab: expected Pack") end.
Definition search_or_fallback (negotiated : CapSet) (refs : list RefAdvert) (term : string) (max_hops : byte) : Proc S (list CollabObject) :=
  _ ← send (if caps_contain negotiated CAP_SEARCH then Search term max_hops else HaveWant (ad_target <$> refs) []);
  pack ← search_pack;
  _ ← collab_done;
  run_local (lift_res (verified_pack pack)).

Definition collab_search (term : string) (max_hops : byte) : Proc S (list CollabObject) :=
  _ ← send (collab_hello CAP_SEARCH None);
  '(refs, welcome_caps, _) ← collab_welcome;
  search_or_fallback (intersect CAP_SEARCH welcome_caps) refs term max_hops.
Definition collab_search_authenticated (pinned_key : Key) (nonce : vec byte 32) (term : string) (max_hops : byte) : Proc S (list CollabObject) :=
  _ ← send (collab_hello CAP_SEARCH (Some nonce));
  '(refs, welcome_caps, relay_sig) ← collab_welcome;
  _ ← check_relay pinned_key nonce relay_sig;
  search_or_fallback (intersect CAP_SEARCH welcome_caps) refs term max_hops.
End transient.

(** ** Several relays *)
Section relays.
Context `{IoText, Ed25519, ObjectCodec, Zstd, Postcard, MessageText}.

(** What a relay of the loop sends, after it has said how many messages it takes before it
    hangs up; nothing from an unreachable one. *)
Class RelayNet := { relay_nonce : RelayPin → vec byte 32; relay_connect : string → option (nat * list Message) }.

(** One pinned relay: its records, unless it is unreachable, fails to authenticate or
    the session fails. *)
Definition ask_relay `{RelayNet} (term : string) (max_hops : byte) (pin : RelayPin) : option (Key * list CollabObject) :=
  match relay_connect (pin_endpoint pin) with
  | None => None
  | Some (room, inbox) =>
      match (feed (collab_search_authenticated (pin_key pin) (relay_nonce pin) term max_hops) () room inbox).1.1 with
      | Ok objs => Some (pin_key pin, objs)
      | Err _ => None
      end
  end.
Definition query_relay_set `{RelayNet} (self_key : Key) (own_edges : list TrustEdge) (relays : list RelayPin) (term : string)
    (max_hops : byte) : res (list StrangerHit) :=
  rank_strangers_multi self_key own_edges (omap (ask_relay term max_hops) relays) term max_hops.
End relays.
