(* ===== verification/SyncCollabFacts.v ===== *)
(** * SyncCollabFacts: what the collaboration endpoint gives away and takes in

    Theorems about [SyncCollab.v].  Against any client the responder changes nothing and
    only sends what its public records, and the records it serves for others, reach.
    Against any server a pull only files verified records, each under its own author.  A
    relay without the pinned key adds nothing to a query, and a search through an
    authenticated relay ranks strangers as its whole corpus would. *)

From S2P Require Import Prelude Bytes Bfs Graph Ids Text Lattice Access Objects Refs RefStore Signing Policy Authority Merge Store Pack Gc Acl Walk Repo Trust Discovery Collab Wire Session Sync SyncFacts SyncCollab.

(** ** Selected records come from the corpus *)
Section selection.
Context `{ObjectCodec} (corpus : list CollabObject).

Definition from_corpus (out : list CollabObject) : Prop := ∀ o, o ∈ out → o ∈ corpus.

Lemma ball_edges_from d l : (∀ e, e ∈ l → CTrustEdge e ∈ corpus) → ∀ s s', res_fold (ball_edge d) s l = Ok s' →
  from_corpus (bl_out s) → from_corpus (bl_out s').
Proof.
  induction l as [|e l IH]; intros Hl s s'; simpl; [by intros [= <-]|]. intros (s1 & Hs & Hf)%bind_Ok Ho.
  apply (IH (λ e' He', Hl e' ltac:(by right)) s1 s' Hf). unfold ball_edge in Hs. apply bind_Ok in Hs as (id & _ & [= <-]).
  simpl. case_bool_decide; [|done]. intros o [?| ->%list_elem_of_singleton]%elem_of_app; [by apply Ho|]. apply Hl. by left.
Qed.

Lemma search_ball_sub term max_hops out : search_ball corpus term max_hops = Ok out → from_corpus out.
Proof.
  unfold search_ball. intros ([o b] & Hf & [= <-])%bind_Ok. cbn [fst].
  assert (∀ ps s, (∀ p, p ∈ ps → CProfile p ∈ corpus) → from_corpus s.1 →
    ∀ s', res_fold (ball_profile (incoming (corpus_edges corpus)) (S (S (length (corpus_edges corpus)))) term max_hops) s ps = Ok s' →
    from_corpus s'.1) as Hgen.
  2: { apply (Hgen _ ([], ∅)) in Hf; [done| |by intros ? ?%elem_of_nil]. intros p. by rewrite elem_of_corpus_profiles. }
  induction ps as [|p ps IH]; intros s Hps Hs s'; simpl; [by intros [= <-]|]. intros (s1 & Hb & Hr)%bind_Ok.
  apply (IH s1 (λ q Hq, Hps q ltac:(by right))); [|done]. unfold ball_profile in Hb.
  destruct (profile_matches p term); cbn [negb] in Hb; [|by injection Hb as <-].
  apply bind_Ok in Hb as (t & Ht & [= <-]). simpl. destruct (run _ _ _) as [r|] eqn:Hrun; simpl in Ht; [|done]. subst r.
  apply (run_inv _ (λ t, from_corpus (bl_out t))) in Hrun as (u & Hu & Hstep).
  - unfold ball_step in Hstep. destruct (bl_q u) as [|[node depth] q]; [by injection Hstep as <-|]. case_decide; [done|].
    destruct (incoming _ !! node) as [preds|]; [|done]. by destruct (res_fold (ball_edge depth) _ preds).
  - intros u u' Hu Hstep. unfold ball_step in Hstep. destruct (bl_q u) as [|[node depth] q]; [done|]. case_decide; [by injection Hstep as <-|].
    destruct (incoming _ !! node) as [preds|] eqn:Hp; [|by injection Hstep as <-].
    destruct (res_fold (ball_edge depth) _ preds) as [v|] eqn:Hv; [|done]. injection Hstep as <-. eapply (ball_edges_from depth preds); [|exact Hv|done].
    intros e He. pose proof (incoming_lookup (corpus_edges corpus) node) as Hi. rewrite Hp in Hi. simpl in Hi. subst preds.
    apply list_elem_of_filter in He as [_ He]. by apply elem_of_corpus_edges.
  - simpl. intros o' [?| ->%list_elem_of_singleton]%elem_of_app; [by apply Hs|]. apply Hps. by left.
Qed.
End selection.

Section facts.
Context {B : Type} `{StorageLaws B}.
Context {R : Type} `{RefBackendLaws R, IoText, Ed25519}.
Context {A : Type} `{AclLaws A}.
Context `{!ObjectCodec, Zstd, Postcard, MessageText}.
Abbreviation Node := (Node B R A).
Implicit Types n : Node.

(** ** Adverts *)

(** The names a node serves: its public records; of the records it pulled, all on a relay,
    otherwise those of the authors it follows. *)
Definition collab_served n (relay : bool) (name : RefName) : Prop :=
  String.prefix COLLAB_PUBLIC_PREFIX (as_str name) = true ∨
  if relay then String.prefix COLLAB_REMOTES_PREFIX (as_str name) = true
  else ∃ es e, public_edges (node_repo n) = Ok es ∧ e ∈ es ∧ edge_kind e = Follow ∧
    String.prefix (COLLAB_REMOTES_PREFIX +:+ fingerprint (to_key e) +:+ "/") (as_str name) = true.

(** [r] advertises a tag whose name satisfies [P]. *)
Definition tag_advert n (P : RefName → Prop) (r : RefAdvert) : Prop :=
  ∃ name t, P name ∧ be_view (n_refs n) !! name = Some (RTag t) ∧ r = MkAdvert name (tag_target t) false.

Lemma tag_advert_iff n (P Q : RefName → Prop) r : (∀ name, P name ↔ Q name) → tag_advert n P r ↔ tag_advert n Q r.
Proof. intros HPQ. unfold tag_advert. by setoid_rewrite HPQ. Qed.
Lemma tag_advert_or n (P Q : RefName → Prop) r : tag_advert n P r ∨ tag_advert n Q r ↔ tag_advert n (λ name, P name ∨ Q name) r.
Proof. unfold tag_advert. naive_solver. Qed.
Lemma tag_advert_ex n {X} (l : list X) (P : X → RefName → Prop) r :
  (∃ x, x ∈ l ∧ tag_advert n (P x) r) ↔ tag_advert n (λ name, ∃ x, x ∈ l ∧ P x name) r.
Proof. unfold tag_advert. naive_solver. Qed.

Lemma advert_tag_hits n name (h h' : list RefAdvert) : be_inv (n_refs n) → is_Some (be_view (n_refs n) !! name) →
  advert_tag_step n h name = Ok h' →
  ∀ r, r ∈ h' ↔ r ∈ h ∨ ∃ t, be_view (n_refs n) !! name = Some (RTag t) ∧ r = MkAdvert name (tag_target t) false.
Proof.
  intros Hi [v Hv] Hs x. unfold advert_tag_step, get_tag in Hs. rewrite (be_get_stored _ _ _ Hi Hv) in Hs.
  destruct v as [t|tl]; [injection Hs as <-|done]. rewrite elem_of_app, list_elem_of_singleton. naive_solver.
Qed.

Lemma advert_tags_spec n prefix out out' : be_inv (n_refs n) → advert_tags n prefix out = Ok out' →
  ∀ r, r ∈ out' ↔ r ∈ out ∨ tag_advert n (λ name, String.prefix prefix (as_str name) = true) r.
Proof.
  intros Hi. unfold advert_tags. intros (names & Hn & Hf)%bind_Ok r.
  destruct (be_list_Ok _ _ _ Hi Hn) as (_ & _ & Hin).
  rewrite (res_fold_hits (advert_tag_step n)
    (λ name r, ∃ t, be_view (n_refs n) !! name = Some (RTag t) ∧ r = MkAdvert name (tag_target t) false) names
    (λ h name h' Hname, advert_tag_hits n name h h' Hi (proj1 (proj1 (Hin name) Hname))) _ _ Hf r).
  unfold tag_advert. setoid_rewrite Hin. naive_solver.
Qed.

Lemma advert_followed_hits n e (h h' : list RefAdvert) : be_inv (n_refs n) → advert_followed n h e = Ok h' →
  ∀ r, r ∈ h' ↔ r ∈ h ∨ tag_advert n (λ name, edge_kind e = Follow ∧
    String.prefix (COLLAB_REMOTES_PREFIX +:+ fingerprint (to_key e) +:+ "/") (as_str name) = true) r.
Proof.
  intros Hi Hs x. unfold advert_followed in Hs. case_decide as Hk.
  - rewrite (advert_tags_spec n _ _ _ Hi Hs). unfold tag_advert. naive_solver.
  - injection Hs as <-. unfold tag_advert. naive_solver.
Qed.

Lemma collab_adverts_spec n relay refs : be_inv (n_refs n) → collab_adverts n relay = Ok refs →
  ∀ r, r ∈ refs ↔ tag_advert n (collab_served n relay) r.
Proof.
  intros Hi. unfold collab_adverts. intros (out & Hp & Hr)%bind_Ok r.
  pose proof (advert_tags_spec n _ _ _ Hi Hp r) as Hpub. rewrite elem_of_nil in Hpub. unfold collab_served. rewrite <- tag_advert_or. destruct relay.
  - rewrite (advert_tags_spec n _ _ _ Hi Hr), Hpub. tauto.
  - apply bind_Ok in Hr as (es & Hes & Hf). rewrite (res_fold_hits _ _ es (λ h e h' _, advert_followed_hits n e h h' Hi) _ _ Hf r), Hpub.
    rewrite tag_advert_ex. assert (∀ P Q : Prop, (False ∨ P) ∨ Q ↔ P ∨ Q) as -> by tauto.
    apply or_iff_compat_l, tag_advert_iff. intros name. rewrite Hes. split; [intros (e & ?); by exists es, e|].
    intros (es' & e & [= <-] & ?). by exists e.
Qed.

(** Neither scoped records nor relay pins. *)
Lemma collab_served_prefix n relay name : collab_served n relay name →
  String.prefix COLLAB_PUBLIC_PREFIX (as_str name) = true ∨ String.prefix COLLAB_REMOTES_PREFIX (as_str name) = true.
Proof.
  intros [?|Hr]; [by left|right]. destruct relay; [done|]. destruct Hr as (_ & e & _ & _ & _ & Hp).
  apply prefix_inv in Hp as (u & ->). rewrite string_app_assoc. apply prefix_app.
Qed.

(** ** The responder against any client *)

(** The bytes stored under [id] belong to a served record: the record reaches it, or [id] is
    the id of its canonical encoding. *)
Definition collab_servable n (relay : bool) (id : ObjectId) : Prop :=
  ∃ name t, collab_served n relay name ∧ be_view (n_refs n) !! name = Some (RTag t) ∧
    (rtc (links (decoded (n_store n))) (tag_target t) id ∨
     ∃ o, decoded (n_store n) !! tag_target t = Some (Ok (OCollab o)) ∧ collab_id o = Ok id).

(** A pack of stored objects that satisfy [P]. *)
Definition packs_only n (P : ObjectId → Prop) (p : bytes) : Prop :=
  ∃ objs entries digest, finish objs = Ok (p, entries, digest) ∧
    ∀ id data, (id, data) ∈ objs → sb_view (n_store n) !! id = Some data ∧ P id.

Lemma corpus_step_hits n r (h h' : list CollabObject) : sb_inv (n_store n) → corpus_step n h r = Ok h' →
  ∀ o, o ∈ h' ↔ o ∈ h ∨ decoded (n_store n) !! ad_target r = Some (Ok (OCollab o)).
Proof.
  intros Hi Hs x. unfold corpus_step in Hs. apply bind_Ok in Hs as (obj & Hg%get_Ok_decoded & [= <-]); [|done].
  destruct obj as [obj|]; simpl; [apply os_get_Some in Hg|apply os_get_None in Hg]; [|naive_solver].
  destruct obj; rewrite Hg; try naive_solver. rewrite elem_of_app, list_elem_of_singleton. naive_solver.
Qed.

Lemma search_corpus_spec n refs corpus : sb_inv (n_store n) → search_corpus n refs = Ok corpus →
  ∀ o, o ∈ corpus ↔ ∃ r, r ∈ refs ∧ decoded (n_store n) !! ad_target r = Some (Ok (OCollab o)).
Proof.
  intros Hi Hc o. unfold search_corpus in Hc.
  rewrite (res_fold_hits _ _ refs (λ h r h' _, corpus_step_hits n r h h' Hi) _ _ Hc o), elem_of_nil. naive_solver.
Qed.
(** A message the responder may send. *)
Definition collab_reply n (relay : bool) (relay_signer : option Seed) (inbox : list Message) (m : Message) : Prop :=
  match m with
  | Welcome _ _ refs relay_sig =>
      (∀ ad, ad ∈ refs → tag_advert n (collab_served n relay) ad) ∧
      ∀ sig, relay_sig = Some sig → ∃ s nonce lo hi caps intent, relay = true ∧ relay_signer = Some s ∧
        Hello lo hi caps intent (Some nonce) ∈ inbox ∧ sig = sign_relay_challenge s nonce
  | Pack p => packs_only n (collab_servable n relay) p
  | MDone | MError _ => True
  | _ => False
  end.

Lemma collab_id_found n relay refs term hops corpus selected ids : be_inv (n_refs n) → sb_inv (n_store n) →
  collab_adverts n relay = Ok refs → search_corpus n refs = Ok corpus → search_ball corpus term hops = Ok selected →
  res_map collab_id selected = Ok ids → ∀ id, id ∈ ids → collab_servable n relay id.
Proof.
  intros Hri Hsi Ha Hc Hs Hm id Hid. apply res_map_Ok in Hm. apply list_elem_of_lookup in Hid as [k Hk].
  destruct (Forall2_lookup_r _ _ _ _ _ Hm Hk) as (o & Ho & Hoid). apply list_elem_of_lookup_2, (search_ball_sub _ _ _ _ Hs) in Ho.
  apply (search_corpus_spec n refs corpus Hsi Hc) in Ho as (r & Hr & Hd).
  apply (collab_adverts_spec n relay refs Hri Ha) in Hr as (name & t & Hn & Ht & ->). exists name, t. split_and!; [done..|right].
  by exists o.
Qed.

Lemma build_pack_only n ids p (P : ObjectId → Prop) : sb_inv (n_store n) → (∀ id, id ∈ ids → P id) →
  build_pack n ids = Ok p → packs_only n P p.
Proof.
  intros Hi HP (entries & digest & Hf)%build_pack_Ok; [|done]. exists (pack_objs (sb_view (n_store n)) ids), entries, digest.
  split; [done|]. intros id data [Hin Hd]%elem_of_pack_objs. auto.
Qed.

Lemma send_found_spec n relay signer inbox0 refs term hops room inbox r n' out : be_inv (n_refs n) → sb_inv (n_store n) →
  collab_adverts n relay = Ok refs → feed (send_found refs term hops) n room inbox = (r, n', out) →
  n' = n ∧ Forall (collab_reply n relay signer inbox0) out.
Proof.
  intros Hri Hsi Ha. unfold send_found. destruct (term_too_short term).
  { destruct room; intros [= _ <- <-]; [done|]. split; [done|]. by apply Forall_singleton. }
  rewrite feed_local. unfold gets at 1. destruct (search_corpus n refs) as [corpus|e] eqn:Hc; [|by intros [= _ <- <-]].
  rewrite feed_local. unfold lift_res at 1. destruct (search_ball corpus term _) as [selected|e] eqn:Hs; [|by intros [= _ <- <-]].
  rewrite feed_local. unfold lift_res at 1. destruct (res_map collab_id selected) as [ids|e] eqn:Hm; [|by intros [= _ <- <-]].
  rewrite feed_local. unfold gets at 1. destruct (build_pack n ids) as [p|e] eqn:Hb; [|by intros [= _ <- <-]].
  assert (packs_only n (collab_servable n relay) p) as Hp by (apply (build_pack_only n ids); [done| |done]; by eapply collab_id_found).
  destruct room as [|[|room]]; intros [= _ <- <-]; (split; [done|]); repeat constructor; done.
Qed.

Lemma serve_collab_spec n n' relay signer room inbox out r : be_inv (n_refs n) → sb_inv (n_store n) →
  feed (serve_collab relay signer) n room inbox = (r, n', out) → n' = n ∧ Forall (collab_reply n relay signer inbox) out.
Proof.
  intros Hri Hsi. unfold serve_collab. rewrite feed_recv. destruct inbox as [|m inbox]; [by intros [= _ <- <-]|].
  assert (∀ lo hi caps intent nonce, m = Hello lo hi caps intent nonce →
    feed (collab_exchange relay signer nonce) n room inbox = (r, n', out) → n' = n ∧ Forall (collab_reply n relay signer (m :: inbox)) out) as Hx.
  { intros lo hi caps intent nonce ->. unfold collab_exchange. rewrite feed_local. unfold gets at 1.
    destruct (collab_adverts n relay) as [refs|e] eqn:Ha; [|by intros [= _ <- <-]]. rewrite feed_send.
    destruct room as [|room]; [by intros [= _ <- <-]|]. rewrite feed_recv.
    set (welcome := Welcome _ _ refs _). assert (collab_reply n relay signer (Hello lo hi caps intent nonce :: inbox) welcome) as Hw.
    { split; [intros ad Had; by apply (collab_adverts_spec n relay refs Hri Ha)|]. intros sig Hsig. unfold relay_proof in Hsig.
      destruct relay, signer as [s|], nonce as [nonce|]; try done. injection Hsig as <-. eexists s, nonce, lo, hi, caps, intent.
      split_and!; [done..|by left|done]. }
    destruct inbox as [|m inbox]; [intros [= _ <- <-]; split; [done|by apply Forall_singleton]|].
    destruct m as [| |want have|pk|ops|entries|term hops| | | | | |];
      try (intros [= _ <- <-]; split; [done|by apply Forall_singleton]).
    - destruct (feed (send_closure _ _ _) n room inbox) as [[r1 n1] out1] eqn:Hf. intros [= _ <- <-].
      apply send_closure_spec in Hf as [-> Hf]; [|done]. split; [done|]. constructor; [done|]. apply Forall_forall.
      intros m [->|(p & objs & entries & digest & -> & Hfin & Hall)]%Hf; [done|]. exists objs, entries, digest. split; [done|].
      intros id data Hin. destruct (Hall id data Hin) as (Hd & w & Hw' & Hr). split; [done|].
      apply elem_of_list_to_set, list_elem_of_fmap in Hw' as (ad & -> & Had).
      apply (collab_adverts_spec n relay refs Hri Ha) in Had as (name & t & Hn & Ht & ->). exists name, t. split_and!; [done..|by left].
    - destruct (feed (send_found refs term hops) n room inbox) as [[r1 n1] out1] eqn:Hf. intros [= _ <- <-].
      eapply send_found_spec in Hf as [-> Hf]; [|done..]. split; [done|]. by constructor. }
  destruct m as [lo hi caps [] nonce| | | | | | | | | | | |]; try (by eapply Hx);
    rewrite feed_send; destruct room; intros [= _ <- <-]; (split; [done|]; first [done|by apply Forall_singleton]).
Qed.

(** [C14] Whatever a client sends and whenever it hangs up, the collaboration endpoint changes
    nothing on the serving node. It advertises only tags of its public records and, of the
    records it has pulled, all on a relay and otherwise those of the authors it follows by a
    public edge; so neither scoped records nor relay pins. Every pack consists of stored objects
    that an advertised record reaches, or that are such a record itself. A possession proof is
    only ever made by a relay with a signer, over the nonce the client sent. *)
Theorem serve_collab_confined n n' (relay : bool) (signer : option Seed) (room : nat) (inbox out : list Message) (r : res ()) :
  be_inv (n_refs n) → sb_inv (n_store n) → feed (serve_collab relay signer) n room inbox = (r, n', out) →
  n' = n ∧ Forall (collab_reply n relay signer inbox) out ∧
  ∀ proto caps refs sig ad, Welcome proto caps refs sig ∈ out → ad ∈ refs →
    String.prefix COLLAB_PUBLIC_PREFIX (as_str (ad_name ad)) = true ∨ String.prefix COLLAB_REMOTES_PREFIX (as_str (ad_name ad)) = true.
Proof.
  intros Hri Hsi Hf. destruct (serve_collab_spec n n' relay signer room inbox out r Hri Hsi Hf) as [-> Hall]. split; [done|]. split; [done|].
  intros proto caps refs sig ad Hin Had. rewrite Forall_forall in Hall. destruct (Hall _ Hin) as [Hr _].
  destruct (Hr ad Had) as (name & t & Hn & _ & ->). by eapply collab_served_prefix.
Qed.
End facts.

(** ** Clients *)
Section clients.
Context {S : Type} `{IoText, Ed25519, ObjectCodec, Zstd, Postcard, MessageText}.

Lemma feed_welcome {X} (k : list RefAdvert * CapSet * option (vec byte 64) → Proc S X) s room inbox :
  feed (collab_welcome ≫= k) s room inbox =
  match inbox with
  | [] => (Err err_closed, s, [])
  | Welcome _ caps refs sig :: inbox => feed (k (refs, caps, sig)) s room inbox
  | MError e :: _ => (Err (Storage e), s, [])
  | _ :: _ => (Err (Storage "collab: expected Welcome"), s, [])
  end.
Proof. by destruct inbox as [|[]]. Qed.
Lemma feed_pack {X} (k : bytes → Proc S X) s room inbox :
  feed (collab_pack ≫= k) s room inbox =
  match inbox with
  | [] => (Err err_closed, s, [])
  | Pack p :: inbox => feed (k p) s room inbox
  | _ :: _ => (Err (Storage "collab: expected Pack"), s, [])
  end.
Proof. by destruct inbox as [|[]]. Qed.
Lemma feed_done {X} (k : () → Proc S X) s room inbox :
  feed (collab_done ≫= k) s room inbox =
  match inbox with
  | [] => (Err err_closed, s, [])
  | MDone :: inbox => feed (k ()) s room inbox
  | m :: _ => (Err (Storage ("collab: expected Done, got " +:+ message_text m)), s, [])
  end.
Proof. by destruct inbox as [|[]]. Qed.
End clients.

(** ** The pull against any server *)
Section pull.
Context `{IoText, Ed25519, ObjectCodec, !ObjectCodecLaws, Zstd, Postcard, MessageText}.
Context {A : Type} `{AclBackend A}.
Abbreviation Node := (Node MemoryBackend MemoryRefBackend A).
Implicit Types n : Node.

Lemma put_memory obj (b : MemoryBackend) : match serialize obj with
  | Ok data => ∃ b', put obj b = (Ok (object_id data), b') ∧ b ⊆ b' ∧ is_Some (b' !! object_id data)
  | Err e => put obj b = (Err e, b)
  end.
Proof.
  destruct (serialize obj) as [data|e] eqn:Hs.
  - rewrite (put_put_raw obj data b Hs), put_raw_memory. eexists. split; [reflexivity|]. destruct (decide _) as [|Hn]; [done|].
    split; [by apply insert_subseteq, eq_None_not_Some|]. rewrite lookup_insert_eq. by eexists.
  - unfold put, lift_res. by rewrite Hs.
Qed.

(** The tag of [o] in a pulling node with the store [b]. *)
Definition filed (b : MemoryBackend) (name : RefName) (x : ObjectId) (o : CollabObject) : Prop :=
  valid_name name ∧ as_str name = tracking_name o ∧
  ∃ data, serialize (OCollab o) = Ok data ∧ x = object_id data ∧ is_Some (b !! x).

Lemma filed_mono b b' name x o : b ⊆ b' → filed b name x o → filed b' name x o.
Proof. intros Hs (? & ? & data & ? & ? & [d ?]). split_and!; [done..|]. exists data. split_and!; [done..|]. exists d. by eapply lookup_weaken. Qed.

Lemma set_store_twice (b b' : MemoryBackend) n : set_store b' (set_store b n) = set_store b' n.
Proof. done. Qed.
Lemma set_store_same n : set_store (n_store n) n = n.
Proof. by destruct n. Qed.

Lemma file_record_spec e n r n' : file_record e n = (r, n') →
  ∃ b, n' = set_store b n ∧ n_store n ⊆ b ∧ ∀ op, r = Ok op → ∃ name x, op = tag_op name x ∧ filed b name x e.2.
Proof.
  unfold file_record, mbind, M_bind, on_store. pose proof (put_memory (OCollab e.2) (n_store n)) as Hp.
  destruct (serialize (OCollab e.2)) as [data|err] eqn:Hs.
  - destruct Hp as (b & -> & Hsub & Hin). unfold lift_res. destruct (RefName_new (tracking_name e.2)) as [name|err] eqn:Hn; intros [= <- <-];
      exists b; (split; [done|]; split; [done|]); [|done]. intros op [= <-]. exists name, (object_id data).
    apply RefName_new_valid in Hn as [Hv Hn]. split; [done|]. split; [done|]. split; [done|]. exists data. done.
  - rewrite Hp. intros [= <- <-]. exists (n_store n). split; [done|]. by split.
Qed.

Lemma file_records_spec l : ∀ n r n', file_records l n = (r, n') →
  ∃ b, n' = set_store b n ∧ n_store n ⊆ b ∧ ∀ ops, r = Ok ops →
    ∃ tracked, ops = (λ e, tag_op e.1 e.2) <$> tracked ∧ ∀ name x, (name, x) ∈ tracked → ∃ e, e ∈ l ∧ filed b name x e.2.
Proof.
  induction l as [|e l IH]; intros n r n'; simpl.
  { intros [= <- <-]. exists (n_store n). rewrite set_store_same. split; [done|]. split; [done|]. intros ops [= <-].
    exists []. split; [done|]. by intros ? ? ?%elem_of_nil. }
  unfold mbind at 1, M_bind at 1. destruct (file_record e n) as [r1 n1] eqn:Hf. apply file_record_spec in Hf as (b & -> & Hb & Hop).
  destruct r1 as [op|err]; [|intros [= <- <-]; by exists b]. destruct (Hop op eq_refl) as (name & x & -> & Hfiled).
  unfold mbind at 1, M_bind at 1. destruct (file_records l (set_store b n)) as [r2 n2] eqn:Hl. apply IH in Hl as (b2 & -> & Hb2 & Hops). simpl in Hb2.
  destruct r2 as [ops|err]; [unfold mret, M_ret|]; intros [= <- <-]; exists b2; (split; [done|]; split; [by etrans|]); [|done].
  intros ops' [= <-]. destruct (Hops ops eq_refl) as (tracked & -> & Htr). exists ((name, x) :: tracked). split; [done|].
  intros k y [[= -> ->]|Hin]%elem_of_cons.
  - exists e. split; [left|]. by eapply filed_mono.
  - destruct (Htr k y Hin) as (e' & ? & ?). exists e'. split; [by right|done].
Qed.

(** What a pull leaves: the access rules and hooks, every object, and every ref except
    the tags of verified records, each filed under its own author. *)
Record pulled n n' : Prop := {
  pl_acls : n_acls n' = n_acls n;
  pl_hooks : n_hooks n' = n_hooks n;
  pl_refs_ok : mem_ok (n_refs n');
  pl_store : n_store n ⊆ n_store n';
  pl_refs name : mem_view (n_refs n') !! name = mem_view (n_refs n) !! name ∨
    ∃ o x, verified o = true ∧ filed (n_store n') name x o ∧ mem_view (n_refs n') !! name = Some (RTag (MkTag x 0 None))
}.

Lemma pulled_store b n : mem_ok (n_refs n) → n_store n ⊆ b → pulled n (set_store b n).
Proof. intros ? ?. split; try done. by left. Qed.
Lemma pulled_refl n : mem_ok (n_refs n) → pulled n n.
Proof. intros ?. split; try done. by left. Qed.

Lemma file_resolved_spec resolved b n r n' : mem_ok (n_refs n) → n_store n ⊆ b → (∀ e, e ∈ resolved → verified e.2 = true) →
  file_resolved resolved (set_store b n) = (r, n') → pulled n n' ∧ b ⊆ n_store n' ∧ ∀ e, r = Err e → n_refs n' = n_refs n.
Proof.
  intros Hi Hb Hv. unfold file_resolved, mbind at 1, M_bind at 1. destruct (file_records resolved _) as [r1 n1] eqn:Hf.
  apply file_records_spec in Hf as (b1 & -> & Hb1 & Hops). simpl in Hb1. assert (n_store n ⊆ b1) as Hs by by etrans.
  rewrite set_store_twice. destruct r1 as [ops|e]; [|intros [= _ <-]; split; [by apply pulled_store|done]].
  destruct (Hops ops eq_refl) as (tracked & -> & Htr). unfold on_nrefs.
  destruct (commit_tags_memory (n_refs n) tracked Hi) as (refs' & Hc & Hok & Hview).
  { apply Forall_fmap, Forall_forall. intros [name x] Hin. destruct (Htr name x Hin) as (e & _ & [? _]). done. }
  simpl. rewrite Hc. intros [= <- <-]. split; [|done]. split; try done. intros name. simpl. rewrite Hview.
  destruct (tags_cases tracked (mem_view (n_refs n)) name) as [?|(x & Hin & Hx)]; [by left|right].
  destruct (Htr name x Hin) as (e & He & Hfl). exists e.2, x. split; [by apply Hv|done].
Qed.

Lemma pulled_resolve_spec n refs resolved : res_fold (resolve_step n) [] refs = Ok resolved →
  ∀ e, e ∈ resolved ↔ ∃ r, r ∈ refs ∧ e.1 = ad_name r ∧ decoded (n_store n) !! ad_target r = Some (Ok (OCollab e.2)) ∧ verified e.2 = true.
Proof.
  intros Hf e. rewrite (res_fold_hits (resolve_step n) (λ r e, e.1 = ad_name r ∧
    decoded (n_store n) !! ad_target r = Some (Ok (OCollab e.2)) ∧ verified e.2 = true) refs) with (out := resolved) (hits := []); [|clear|done].
  { rewrite elem_of_nil. naive_solver. }
  intros h r h' _ Hs x. unfold resolve_step in Hs. apply bind_Ok in Hs as (obj & Hg%get_Ok_decoded & [= <-]); [|done].
  destruct obj as [obj|]; simpl; [apply os_get_Some in Hg|apply os_get_None in Hg]; [|rewrite Hg; naive_solver].
  rewrite Hg. destruct obj as [| | | | | | | |o| | | |]; try naive_solver. destruct (verified o) eqn:Hv; [|naive_solver congruence].
  rewrite elem_of_app, list_elem_of_singleton. destruct x; naive_solver.
Qed.

Lemma peer_of_Some resolved peer : peer_of resolved = Some peer →
  ∃ name p, (name, CProfile p) ∈ resolved ∧ String.prefix COLLAB_PUBLIC_PREFIX (as_str name) = true ∧ profile_key p = peer.
Proof.
  unfold peer_of. intros ([name o] & Hf & ->)%fmap_Some. apply find_first_Some in Hf as [Hin [Hp Ho]%andb_true_iff].
  destruct o as [p|e]; [|done]. by exists name, p.
Qed.

(** [C15] Whatever a server sends and wherever it hangs up, a pull into a repository on the
    in-memory backends keeps the access rules, the hooks and every object, and
    every ref but tags under [refs/collab/remotes/]: such a tag points at a record
    whose signature verifies and is named after the record's own author, so no server can
    file a record under a key that did not sign it. What the pull sends tells nothing of the
    local store. It names as its peer the author of a verified profile that the server
    advertised as its own; when it fails, every ref is as it was (the in-memory ref backend
    commits all or nothing; on disk a commit can fail half way). *)
Theorem collab_pull_sound n n' (room : nat) (inbox out : list Message) (r : res Key) :
  mem_ok (n_refs n) → feed collab_pull n room inbox = (r, n', out) →
  pulled n n' ∧
  (∀ m, m ∈ out → m = collab_hello CAP_EMPTY None ∨
     ∃ proto caps refs sig, Welcome proto caps refs sig ∈ inbox ∧ m = HaveWant (ad_target <$> refs) []) ∧
  match r with
  | Ok peer => ∃ proto caps refs sig ad p, Welcome proto caps refs sig ∈ inbox ∧ ad ∈ refs ∧
      String.prefix COLLAB_PUBLIC_PREFIX (as_str (ad_name ad)) = true ∧ verify_profile p = true ∧ profile_key p = peer ∧
      decoded (n_store n') !! ad_target ad = Some (Ok (OCollab (CProfile p)))
  | Err _ => n_refs n' = n_refs n
  end.
Proof.
  intros Hi. pose proof (pulled_refl n Hi) as Hrefl. unfold collab_pull. rewrite feed_send. set (hello := collab_hello _ _).
  destruct room as [|room]; [intros [= <- <- <-]; split; [done|]; split; [by intros m ?%elem_of_nil|done]|].
  rewrite feed_welcome.
  assert (∀ out, out = [hello] → ∀ m, m ∈ out → m = hello ∨
    ∃ proto caps refs sig, Welcome proto caps refs sig ∈ inbox ∧ m = HaveWant (ad_target <$> refs) []) as Hout by (intros ? -> m ->%list_elem_of_singleton; by left).
  assert (∀ out refs, (∃ proto caps sig, Welcome proto caps refs sig ∈ inbox) → out = [hello; HaveWant (ad_target <$> refs) []] → ∀ m, m ∈ out → m = hello ∨
    ∃ proto caps refs sig, Welcome proto caps refs sig ∈ inbox ∧ m = HaveWant (ad_target <$> refs) []) as Hout2.
  { intros ? refs (proto & caps & sig & ?) -> m [->| ->%list_elem_of_singleton]%elem_of_cons; [by left|right; eauto 10]. }
  destruct inbox as [|m inbox]; [intros [= <- <- <-]; eauto|]. destruct m as [|proto caps refs sig| | | | | | | | | | |]; try (intros [= <- <- <-]; by eauto).
  assert (∃ proto' caps' sig', Welcome proto' caps' refs sig' ∈ Welcome proto caps refs sig :: inbox) as Hw by (eexists _, _, _; left).
  specialize (Hout2 _ refs Hw eq_refl).
  rewrite feed_send. destruct room as [|room]; [intros [= <- <- <-]; eauto|].
  rewrite feed_pack. destruct inbox as [|m inbox]; [intros [= <- <- <-]; eauto|]. destruct m as [| | |p| | | | | | | | |]; try (intros [= <- <- <-]; by eauto).
  rewrite feed_done. destruct inbox as [|m inbox]; [intros [= <- <- <-]; eauto|]. destruct m; try (intros [= <- <- <-]; by eauto).
  rewrite feed_local. unfold lift_res at 1. destruct (decode_pack p) as [objs|e]; [|intros [= <- <- <-]; by eauto].
  rewrite feed_local. destruct (land_memory objs n) as (b & -> & Hb & _). rewrite feed_local. unfold gets at 1.
  pose proof (pulled_store b n Hi Hb) as Hst.
  destruct (res_fold _ [] refs) as [resolved|e] eqn:Hres; [|intros [= <- <- <-]; by eauto].
  destruct (peer_of resolved) as [peer|] eqn:Hp; [|intros [= <- <- <-]; by eauto]. rewrite feed_local.
  pose proof (pulled_resolve_spec _ _ _ Hres) as Hin. destruct (file_resolved resolved (set_store b n)) as [r1 n1] eqn:Hf.
  apply file_resolved_spec in Hf as (Hpl & Hb1 & He); [|done..|intros e (_ & _ & _ & _ & ?)%Hin; done].
  destruct r1 as [[]|e]; intros [= <- <- <-]; (split; [done|]; split; [done|]); [|by apply (He e)].
  apply peer_of_Some in Hp as (name & prof & (ad & Had & Hn & Hd & Hv)%Hin & Hpub & Hkey). simpl in *. subst name.
  exists proto, caps, refs, sig, ad, prof. split_and!; [by left|done..|]. eapply lookup_weaken; [exact Hd|]. by apply decoded_mono.
Qed.
End pull.

(** ** On concrete data: a relay with a profile of its own and an edge it pulled *)
#[local] Existing Instance demo_io_text.
#[local] Existing Instance toy_ed25519.
#[local] Existing Instance toy_zstd.
#[local] Existing Instance toy_postcard.
Definition ex_message_text : MessageText := {| message_text _ := "message" |}.
#[local] Existing Instance ex_message_text.
Definition ex_seed (b : byte) : Seed := pad_vec 32 [b].
Definition ex_nonce : vec byte 32 := pad_vec 32 [x07].
Definition ex_own_profile : Profile := sign_profile (ex_seed x0c) "target" "" [] [] 1.
Definition ex_pulled_edge : TrustEdge := sign_edge (ex_seed x0b) (ex_seed x0c) Follow None 1.
Definition ex_relay_table : list (Object * bytes) :=
  [(OCollab (CProfile ex_own_profile), [x31]); (OCollab (CTrustEdge ex_pulled_edge), [x32])].
Definition ex_relay_codec : ObjectCodec := table_codec ex_relay_table.
#[local] Existing Instance ex_relay_codec.
Lemma ex_relay_codec_laws : @ObjectCodecLaws ex_relay_codec.
Proof. apply table_codec_laws. apply (bool_decide_unpack _); vm_compute; exact I. Qed.
#[local] Existing Instance ex_relay_codec_laws.

Definition ex_profile_name : RefName := MkRefName (profile_ref (ex_seed x0c)).
Definition ex_edge_name : RefName := MkRefName (tracking_name (CTrustEdge ex_pulled_edge)).
Definition ex_relay_refs : MemoryRefBackend :=
  <[as_str ex_profile_name := RTag (MkTag (ex_id x31) 0 None)]> {[ as_str ex_edge_name := RTag (MkTag (ex_id x32) 0 None) ]}.
Lemma ex_relay_refs_ok : mem_ok ex_relay_refs.
Proof.
  apply mem_ok_insert; [|reflexivity]. intros k r Hk. apply lookup_singleton_Some in Hk as [<- _]. reflexivity.
Qed.
Definition ex_relay : Node MemoryBackend MemoryRefBackend MemoryAclBackend :=
  MkNode {[ ex_id x31 := [x31]; ex_id x32 := [x32] ]} ex_relay_refs ex_acls [] None.

Definition ex_search : list Message := [collab_hello CAP_SEARCH (Some ex_nonce); Search "target" x02].
Definition ex_found : res () * Node MemoryBackend MemoryRefBackend MemoryAclBackend * list Message :=
  feed (serve_collab true (Some (ex_seed x0a))) ex_relay 3 ex_search.
Definition ex_found_pack : bytes := match ex_found.2 with [_; Pack p; _] => p | _ => [] end.

Lemma serve_collab_confined_witness :
  verified_pack ex_found_pack = Ok [CProfile ex_own_profile; CTrustEdge ex_pulled_edge] ∧
  packs_only ex_relay (collab_servable ex_relay true) ex_found_pack.
Proof.
  split; [apply (bool_decide_unpack _); vm_compute; exact I|].
  assert (feed (serve_collab true (Some (ex_seed x0a))) ex_relay 3 ex_search = (ex_found.1.1, ex_found.1.2, ex_found.2)) as Hf
    by (unfold ex_found; destruct (feed _ _ _ _) as [[r n'] out]; reflexivity).
  assert (Pack ex_found_pack ∈ ex_found.2) as Hin by (apply (bool_decide_unpack _); vm_compute; exact I).
  assert (sb_inv (n_store ex_relay)) as Hsi by exact I. assert (be_inv (n_refs ex_relay)) as Hri by exact ex_relay_refs_ok.
  destruct (serve_collab_confined ex_relay _ true _ 3 ex_search _ _ Hri Hsi Hf) as (_ & Hall & _).
  rewrite Forall_forall in Hall. exact (Hall _ Hin).
Defined.

Definition ex_served_refs : list RefAdvert := [MkAdvert ex_profile_name (ex_id x31) false; MkAdvert ex_edge_name (ex_id x32) false].
Definition ex_answer : list Message := [Welcome 1 CAP_EMPTY ex_served_refs None; Pack ex_found_pack; MDone].
Definition ex_puller : Node MemoryBackend MemoryRefBackend MemoryAclBackend := MkNode ∅ ∅ ex_acls [] None.
Definition ex_pull_run : res Key * Node MemoryBackend MemoryRefBackend MemoryAclBackend * list Message := feed collab_pull ex_puller 2 ex_answer.

Lemma collab_pull_sound_witness :
  ex_pull_run.1.1 = Ok (ex_seed x0c) ∧
  mem_view (n_refs ex_pull_run.1.2) !! ex_edge_name = Some (RTag (MkTag (ex_id x32) 0 None)) ∧
  pulled ex_puller ex_pull_run.1.2.
Proof.
  split; [apply (bool_decide_unpack _); vm_compute; exact I|].
  split; [apply (bool_decide_unpack _); vm_compute; exact I|].
  assert (feed collab_pull ex_puller 2 ex_answer = (ex_pull_run.1.1, ex_pull_run.1.2, ex_pull_run.2)) as Hf
    by (unfold ex_pull_run; destruct (feed _ _ _ _) as [[r n'] out]; reflexivity).
  assert (mem_ok (n_refs ex_puller)) as Hi by (intros k r Hk; discriminate Hk).
  exact (proj1 (collab_pull_sound ex_puller _ 2 ex_answer _ _ Hi Hf)).
Defined.
