(* ===== verification/RelayFacts.v ===== *)
(** * RelayFacts: searching relays over the wire

    Theorems that compose [SyncCollab.v] with the search algorithms of [Discovery.v]: what a
    query of several relays returns, whatever the relays send; and the session of an
    authenticated search with an honest relay. *)

From S2P Require Import Prelude Bytes Bfs Graph Ids Text Lattice Access Objects Refs RefStore Signing Policy Authority Merge Store Pack Gc Acl Walk Repo Trust Discovery Collab Wire Session Sync SyncFacts SyncCollab SyncCollabFacts.

(** ** What a client accepts *)
Section client.
Context `{IoText, Ed25519, ObjectCodec, Zstd, Postcard, MessageText}.

Lemma verified_pack_all p objs : verified_pack p = Ok objs → Forall (λ o, verified o = true) objs.
Proof.
  unfold verified_pack. intros (l & _ & [= <-])%bind_Ok. apply Forall_forall. intros o (e & _ & Ho)%list_elem_of_omap.
  unfold verified_of in Ho. destruct (deserialize e.2) as [[]|]; try done. destruct (verified c) eqn:Hv; [|done]. by injection Ho as <-.
Qed.

(** A message of [inbox] proves possession of [key] over [nonce]. *)
Definition possession (key : Key) (nonce : vec byte 32) (inbox : list Message) : Prop :=
  ∃ proto caps refs sig, Welcome proto caps refs (Some sig) ∈ inbox ∧ verify_relay_challenge key nonce sig = true.

Lemma search_tail_spec {S} negotiated refs term hops (s : S) room inbox objs s' out :
  feed (search_or_fallback negotiated refs term hops) s room inbox = (Ok objs, s', out) → s' = s ∧ Forall (λ o, verified o = true) objs.
Proof.
  unfold search_or_fallback. rewrite feed_send. destruct room as [|room]; [done|]. unfold search_pack. destruct inbox as [|[] inbox]; try done.
  cbn [feed mbind Proc_bind recv]. destruct inbox as [|[] inbox]; try done. cbn. unfold lift_res.
  destruct (verified_pack pack) as [l|] eqn:Hp; [|done]. intros [= <- <- <-]. split; [done|]. by eapply verified_pack_all.
Qed.

Lemma auth_search_spec {S} key nonce term hops (s : S) room inbox objs s' out :
  feed (collab_search_authenticated key nonce term hops) s room inbox = (Ok objs, s', out) →
  s' = s ∧ Forall (λ o, verified o = true) objs ∧ possession key nonce inbox.
Proof.
  unfold collab_search_authenticated. rewrite feed_send. destruct room as [|room]; [done|]. rewrite feed_welcome. destruct inbox as [|m inbox]; [done|].
  destruct m as [|proto caps refs sig| | | | | | | | | | |]; try done. unfold check_relay. destruct sig as [sig|]; [|done].
  destruct (verify_relay_challenge key nonce sig) eqn:Hv; [|done]. change (mret () ≫= ?k) with (k ()). cbv beta.
  destruct (feed (search_or_fallback _ _ _ _) s room inbox) as [[r1 s1] out1] eqn:Hf. intros [= -> -> _].
  apply search_tail_spec in Hf as [-> ?]. split; [done|]. split; [done|]. exists proto, caps, refs, sig. split; [left|done].
Qed.

(** ** A query of several relays *)
Context `{RelayNet}.
Definition answers (relays : list RelayPin) (term : string) (max_hops : byte) : list (Key * list CollabObject) :=
  omap (ask_relay term max_hops) relays.

Lemma ask_relay_spec term hops pin k objs : ask_relay term hops pin = Some (k, objs) →
  k = pin_key pin ∧ Forall (λ o, verified o = true) objs ∧
  ∃ room inbox, relay_connect (pin_endpoint pin) = Some (room, inbox) ∧ possession k (relay_nonce pin) inbox.
Proof.
  unfold ask_relay. destruct (relay_connect _) as [[room inbox]|]; [|done].
  destruct (feed _ _ _ _) as [[[l|e] s] out] eqn:Hf; [|done]. intros [= <- <-].
  apply auth_search_spec in Hf as (_ & Hv & Hp). split; [done|]. split; [done|]. by exists room, inbox.
Qed.

Lemma served_answer relays term hops k o : (k, o) ∈ served (answers relays term hops) →
  verified o = true ∧ ∃ pin room inbox, pin ∈ relays ∧ pin_key pin = k ∧ relay_connect (pin_endpoint pin) = Some (room, inbox) ∧
    possession k (relay_nonce pin) inbox.
Proof.
  unfold served. rewrite list_elem_of_bind. intros ([k' objs] & (o' & [= -> ->] & Ho)%list_elem_of_fmap & Hin).
  apply list_elem_of_omap in Hin as (pin & Hpin & (-> & Hv & room & inbox & Hc & Hp)%ask_relay_spec).
  rewrite Forall_forall in Hv. split; [by apply Hv|]. exists pin, room, inbox. done.
Qed.

(** Asking any set of relays, whatever they are and send, lists every stranger once,
    under the name in a profile that the stranger signed and that matches the term, and
    attributes it only to pinned relays that proved possession of their pinned key
    over the nonce drawn for this session: a relay that cannot prove its key adds nothing.
    The query holds no repository, so it changes none. *)
Theorem query_relays_authentic (self : Key) (own : list TrustEdge) (relays : list RelayPin) (term : string) (max_hops : byte) :
  ids_ok (served (answers relays term max_hops)).*2 →
  ∃ hits, query_relay_set self own relays term max_hops = Ok hits ∧ NoDup (sh_key <$> hits) ∧
    ∀ h, h ∈ hits →
      (∃ p, verify_profile p = true ∧ profile_key p = sh_key h ∧ display_name p = sh_display_name h ∧ profile_matches p term = true) ∧
      sh_relays h ≠ [] ∧
      ∀ k, k ∈ sh_relays h → ∃ pin room inbox, pin ∈ relays ∧ pin_key pin = k ∧ relay_connect (pin_endpoint pin) = Some (room, inbox) ∧
        possession k (relay_nonce pin) inbox.
Proof.
  intros Hids. destruct (rank_multi_correct self own (answers relays term max_hops) term max_hops Hids) as (hits & Hr & Hnd & Hall).
  exists hits. split; [exact Hr|]. split; [done|]. intros h Hh. destruct (Hall h Hh) as ((r & p & Hin & Hk & Hd & Hm & _) & Hrel & _). split_and!.
  - exists p. apply served_answer in Hin as [Hv _]. done.
  - intros Hnil. assert (r ∈ sh_relays h) as Hr' by (apply Hrel; eauto). rewrite Hnil in Hr'. by apply elem_of_nil in Hr'.
  - intros k (p' & Hp & _)%Hrel. by apply served_answer in Hp as [_ ?].
Qed.
End client.

(** ** A search session with an honest relay *)
Section session.
Context {B : Type} `{StorageLaws B}.
Context {R : Type} `{RefBackendLaws R, IoText, Ed25519, !Ed25519Laws}.
Context {A : Type} `{AclLaws A}.
Context `{!ObjectCodec, !ObjectCodecLaws, Zstd, !ZstdLaws, Postcard, MessageText}.
Abbreviation Node := (Node B R A).
Implicit Types n : Node.

(** A relay that can answer a search for [term]: it can read the records it advertises, each
    verified and stored under the id of its encoding, and the answer fits in a pack. *)
Record relay_ready n (corpus : list CollabObject) (term : string) (max_hops : byte) : Prop := {
  rr_refs : be_inv (n_refs n);
  rr_store : sb_inv (n_store n);
  rr_corpus : ∃ refs, collab_adverts n true = Ok refs ∧ search_corpus n refs = Ok corpus ∧
    ∀ r o, r ∈ refs → decoded (n_store n) !! ad_target r = Some (Ok (OCollab o)) → collab_id o = Ok (ad_target r);
  rr_verified : Forall (λ o, verified o = true) corpus;
  rr_ids : ids_ok corpus;
  rr_fits : ∀ selected ids, search_ball corpus term max_hops = Ok selected → res_map collab_id selected = Ok ids →
    pack_caps (pack_objs (sb_view (n_store n)) ids) ∧ ∃ p, build_pack n ids = Ok p
}.

Lemma found_pack n corpus term hops selected : relay_ready n corpus term hops → search_ball corpus term hops = Ok selected →
  ∃ ids p, res_map collab_id selected = Ok ids ∧ build_pack n ids = Ok p ∧ verified_pack p = Ok selected.
Proof.
  intros [Hri Hsi (refs & Ha & Hc & Hcanon) Hv Hids Hfit] Hs. rewrite Forall_forall in Hv.
  assert (∀ o, o ∈ selected → ∃ id, collab_id o = Ok id ∧ decoded (n_store n) !! id = Some (Ok (OCollab o)) ∧ verified o = true) as Hall.
  { intros o Ho%(search_ball_sub _ _ _ _ Hs). pose proof (Hv o Ho) as Hvo. apply (search_corpus_spec n refs corpus Hsi Hc) in Ho as (r & Hr & Hd).
    exists (ad_target r). split; [by eapply Hcanon|done]. }
  assert (∃ ids, res_map collab_id selected = Ok ids ∧
    verified_objects (pack_objs (sb_view (n_store n)) ids) = selected) as (ids & Hm & Hvp).
  { clear Hs. induction selected as [|o l IH]; [by exists []|]. destruct (Hall o ltac:(by left)) as (id & Hid & Hd & Hvo).
    destruct (IH (λ o' Ho', Hall o' ltac:(by right))) as (ids & Hm & Hvp). exists (id :: ids). simpl. rewrite Hid, Hm. split; [done|].
    unfold decoded in Hd. rewrite lookup_fmap in Hd. apply fmap_Some in Hd as (data & Hdata & Hdec).
    unfold pack_objs, verified_objects in *. cbn [omap list_omap]. rewrite Hdata. cbn [fmap option_fmap option_map].
    cbn [omap list_omap snd]. unfold verified_of at 1. rewrite <- Hdec, Hvo. f_equal. exact Hvp. }
  exists ids. destruct (Hfit selected ids Hs Hm) as [Hcaps [p Hp]]. exists p. split; [done|]. split; [done|].
  destruct (build_pack_Ok n ids p Hsi Hp) as (entries & digest & Hf). unfold verified_pack. by rewrite (decode_finish _ _ _ _ Hcaps Hf), <- Hvp.
Qed.

Lemma clamp_small hops : (u8 hops ≤ u8 MAX_SEARCH_HOPS)%N → clamp_hops hops = hops.
Proof. intros Hh. unfold clamp_hops. by rewrite (proj2 (N.leb_le _ _) Hh). Qed.

(** [C20] Take a relay that holds the pinned key, reads every record it advertises, and whose
    corpus is of records that verify, each stored under the id of its own encoding, every trust
    edge with an id and no two with the same, where the answer fits the caps of a pack; and a
    client that searches it for a term long enough to be served (three characters) with at most
    the [MAX_SEARCH_HOPS] hops to which a relay clamps. In every interleaving the session ends, the
    relay unchanged, the client with exactly the records that the
    search algorithm selects from the relay's corpus; and for a client that holds only edges of
    its own, ranking these finds the same strangers, at the same trust distance, as
    ranking the relay's whole corpus would. *)
Theorem relay_search_session n (s : Seed) (nonce : vec byte 32) (term : string) (max_hops : byte) (corpus : list CollabObject)
    (own : list TrustEdge) (self : Key) :
  relay_ready n corpus term max_hops → term_too_short term = false → (u8 max_hops ≤ u8 MAX_SEARCH_HOPS)%N →
  (∀ e, e ∈ own → from_key e = self) →
  ∃ selected full got, search_ball corpus term max_hops = Ok selected ∧
    ends (λ d, c_proc d = PRet (Ok selected) ∧ s_proc d = PRet (Ok ()) ∧ s_state d = n)
      (MkConf (collab_search_authenticated (verifying_key s) nonce term max_hops) () (serve_collab true (Some s)) n [] []) ∧
    rank_strangers self own corpus term max_hops = Ok full ∧ rank_strangers self own selected term max_hops = Ok got ∧
    (λ h, (sh_key h, sh_display_name h, sh_hops h)) <$> got ≡ₚ (λ h, (sh_key h, sh_display_name h, sh_hops h)) <$> full.
Proof.
  intros Hready Hterm Hhops Hown. destruct (search_ball_suffices_spec corpus own self term max_hops (rr_ids _ _ _ _ Hready) Hown)
    as (selected & full & got & Hs & Hfull & Hgot & Hperm). exists selected, full, got. split; [done|]. split; [|done].
  destruct (found_pack n corpus term max_hops selected Hready Hs) as (ids & p & Hm & Hp & Hvp).
  destruct (rr_corpus _ _ _ _ Hready) as (refs & Ha & Hc & _).
  unfold collab_search_authenticated, serve_collab, collab_exchange, collab_welcome, search_or_fallback, gets, lift_res.
  repeat next_step. rewrite Ha. repeat next_step. cbn. rewrite verify_relay_challenge_sign. cbn.
  change (caps_contain (intersect CAP_SEARCH CAP_SEARCH) CAP_SEARCH) with true. cbv iota.
  repeat next_step. unfold send_found, gets, lift_res. rewrite Hterm. repeat next_step. rewrite Hc. repeat next_step. cbn.
  rewrite (clamp_small _ Hhops), Hs. repeat next_step. cbn. rewrite Hm. repeat next_step. cbn. rewrite Hp. repeat next_step. cbn. rewrite Hvp.
  run_session. done.
Qed.
End session.

(** ** On concrete data *)
#[local] Existing Instance demo_io_text.
#[local] Existing Instance toy_ed25519.
#[local] Existing Instance toy_ed25519_laws.
#[local] Existing Instance toy_zstd.
#[local] Existing Instance toy_zstd_laws.
#[local] Existing Instance toy_postcard.
#[local] Existing Instance ex_message_text.
#[local] Existing Instance ex_relay_codec.
#[local] Existing Instance ex_relay_codec_laws.
Definition ex_relay_corpus : list CollabObject := [CProfile ex_own_profile; CTrustEdge ex_pulled_edge].

Lemma ex_relay_ids : ids_ok ex_relay_corpus.
Proof.
  assert (∀ e, CTrustEdge e ∈ ex_relay_corpus → e = ex_pulled_edge) as Hin.
  { intros e He. apply elem_of_cons in He as [He|He]; [discriminate He|]. apply list_elem_of_singleton in He as [= ->]. reflexivity. }
  split.
  - intros e ->%Hin. exists (ex_id x32). apply (bool_decide_unpack _); vm_compute; exact I.
  - intros e e' id ->%Hin ->%Hin _ _. reflexivity.
Qed.

Lemma ex_relay_ready : relay_ready ex_relay ex_relay_corpus "target" x02.
Proof.
  split.
  - exact ex_relay_refs_ok.
  - exact I.
  - exists ex_served_refs. split; [apply (bool_decide_unpack _); vm_compute; exact I|].
    split; [apply (bool_decide_unpack _); vm_compute; exact I|]. intros r o Hr Hd.
    apply elem_of_cons in Hr as [->|Hr]; [|apply list_elem_of_singleton in Hr as ->].
    + assert (decoded (n_store ex_relay) !! ex_id x31 = Some (Ok (OCollab (CProfile ex_own_profile)))) as He
        by (apply (bool_decide_unpack _); vm_compute; exact I).
      cbn [ad_target] in Hd. rewrite He in Hd. injection Hd as <-. apply (bool_decide_unpack _); vm_compute; exact I.
    + assert (decoded (n_store ex_relay) !! ex_id x32 = Some (Ok (OCollab (CTrustEdge ex_pulled_edge)))) as He
        by (apply (bool_decide_unpack _); vm_compute; exact I).
      cbn [ad_target] in Hd. rewrite He in Hd. injection Hd as <-. apply (bool_decide_unpack _); vm_compute; exact I.
  - apply (bool_decide_unpack _); vm_compute; exact I.
  - exact ex_relay_ids.
  - intros selected ids Hs Hm. assert (search_ball ex_relay_corpus "target" x02 = Ok ex_relay_corpus) as Hs' by (apply (bool_decide_unpack _); vm_compute; exact I).
    assert (res_map collab_id ex_relay_corpus = Ok [ex_id x31; ex_id x32]) as Hm' by (apply (bool_decide_unpack _); vm_compute; exact I).
    assert (selected = ex_relay_corpus) as -> by congruence. assert (ids = [ex_id x31; ex_id x32]) as -> by congruence.
    split; [|exists ex_found_pack; apply (bool_decide_unpack _); vm_compute; exact I].
    assert (pack_objs (sb_view (n_store ex_relay)) [ex_id x31; ex_id x32] = [(ex_id x31, [x31]); (ex_id x32, [x32])]) as ->
      by (apply (bool_decide_unpack _); vm_compute; exact I).
    split; [|split; vm_compute; discriminate]. repeat constructor; vm_compute; (reflexivity || discriminate).
Qed.

Lemma relay_search_session_witness :
  ∃ selected full got, search_ball ex_relay_corpus "target" x02 = Ok selected ∧
    ends (λ d, c_proc d = PRet (Ok selected) ∧ s_proc d = PRet (Ok ()) ∧ s_state d = ex_relay)
      (MkConf (collab_search_authenticated (ex_seed x0a) ex_nonce "target" x02) () (serve_collab true (Some (ex_seed x0a))) ex_relay [] []) ∧
    rank_strangers (ex_seed x01) [] ex_relay_corpus "target" x02 = Ok full ∧ rank_strangers (ex_seed x01) [] selected "target" x02 = Ok got ∧
    (λ h, (sh_key h, sh_display_name h, sh_hops h)) <$> got ≡ₚ (λ h, (sh_key h, sh_display_name h, sh_hops h)) <$> full.
Proof.
  refine (relay_search_session ex_relay (ex_seed x0a) ex_nonce "target" x02 ex_relay_corpus [] (ex_seed x01) ex_relay_ready _ _ _).
  - vm_compute. reflexivity.
  - vm_compute. discriminate.
  - intros e He. apply elem_of_nil in He. destruct He.
Defined.

(** Two pins at the endpoint of the relay, one with the wrong key. *)
Definition ex_net : RelayNet := {| relay_nonce _ := ex_nonce; relay_connect ep := if decide (ep = "relay") then Some (2, ex_found.2) else None |}.
#[local] Existing Instance ex_net.
Definition ex_pins : list RelayPin := [MkPin (ex_seed x0a) "relay"; MkPin (ex_seed x0d) "relay"; MkPin (ex_seed x0e) "down"].

Lemma query_relays_authentic_witness :
  ∃ hits, query_relay_set (ex_seed x01) [] ex_pins "target" x02 = Ok hits ∧ (sh_relays <$> hits) = [[ex_seed x0a]] ∧ NoDup (sh_key <$> hits).
Proof.
  assert (answers ex_pins "target" x02 = [(ex_seed x0a, ex_relay_corpus)]) as Ha by (apply (bool_decide_unpack _); vm_compute; exact I).
  assert (ids_ok (served (answers ex_pins "target" x02)).*2) as Hids by (rewrite Ha; exact ex_relay_ids).
  destruct (query_relays_authentic (ex_seed x01) [] ex_pins "target" x02 Hids) as (hits & Hq & Hnd & _).
  exists hits. split; [exact Hq|]. split; [|exact Hnd].
  assert ((match query_relay_set (ex_seed x01) [] ex_pins "target" x02 with Ok hits => sh_relays <$> hits | Err _ => [] end) = [[ex_seed x0a]]) as Hr
    by (apply (bool_decide_unpack _); vm_compute; exact I).
  rewrite Hq in Hr. exact Hr.
Defined.
