(* ===== verification/Hub.v ===== *)
(** * Hub: pushes authenticated by their owner

    src/src/sync/hub.rs as programs over a channel ([Session.v]): a hub keeps many owners'
    repositories in one store, each below [refs/users/<fingerprint>/]; a pusher proves
    possession of the owner key over the hub's nonce and gets an accessor for that
    namespace alone ([serve_hub]); [hub_push] and [hub_fetch] are the initiators.

    [publish_profile] and [publish_repo] of [Collab.v] are restated over a [Node], whose
    store keeps bytes; [HubFacts.v] shows that they are the same operations.  Nonces are
    arguments. *)

From S2P Require Import Prelude Bytes Graph Ids Text Lattice Access Objects Refs RefStore Signing Policy Authority Merge Store Pack Gc Acl Walk Repo Trust Discovery Collab Wire Session Sync.

(** ** Namespaces *)
Section names.
Context `{ObjectCodec}.
Definition user_namespace (owner : Key) : string := "refs/users/" +:+ fingerprint owner +:+ "/".
Definition owner_pattern (owner : Key) : string := "refs/users/" +:+ fingerprint owner +:+ "/**".
Definition owner_accessor (owner : Key) : Accessor :=
  with_actor
    (with_timeline_role (with_timeline_role accessor_new (MkTimelineRole (owner_pattern owner) PermWrite))
      (MkTimelineRole (owner_pattern owner) PermRead))
    (fingerprint owner).
End names.

Section hub.
Context {B : Type} `{StorageLaws B}.
Context {R : Type} `{RefBackend R, IoText, Ed25519}.
Context {A : Type} `{AclBackend A}.
Context `{!ObjectCodec, Zstd, Postcard, RelayCodec}.
Abbreviation Node := (Node B R A).
Implicit Types n : Node.

(** ** Publication on a node *)
Definition node_set_tag (name : RefName) (x : ObjectId) : M Node () := on_nrefs (commit_transaction [tag_op name x]).
Definition node_pin (name : string) (x : ObjectId) : M Node () :=
  n ← lift_res (RefName_new name); node_set_tag n x.

Definition node_publish_profile (p : Profile) : M Node ObjectId :=
  if negb (verify_profile p) then throw (PolicyViolation "profile signature does not verify")
  else
    cur ← gets (λ n, profile (node_repo n) (profile_key p));
    if match cur with Some cur => bool_decide (profile_seq p ≤ profile_seq cur)%N | None => false end
    then throw (PolicyViolation "profile seq must be greater than the current profile's")
    else
      id ← on_store (put (OCollab (CProfile p)));
      _ ← node_pin (profile_ref (profile_key p)) id;
      mret id.

Definition node_publish_repo (r : RepoRecord) : M Node ObjectId :=
  if negb (verify_repo r) then throw (PolicyViolation "repo record signature does not verify")
  else
    name ← lift_res (RefName_new (repo_ref (rr_owner r) (rr_name r)));
    obj ← gets (λ n, tag_object (node_repo n) name);
    if match repo_of obj with Some cur => bool_decide (rr_seq r ≤ rr_seq cur)%N | None => false end
    then throw (PolicyViolation "repo record seq must be greater than the current record's")
    else
      id ← on_store (put (ORepoRecord r));
      _ ← node_set_tag name id;
      mret id.

(** [let _ = m;] *)
Definition ignore {S X} (m : M S X) : M S () := λ s, (Ok (), (m s).2).

(** The records of the authenticated owner; those of anybody else are dropped. *)
Definition land_profile (owner : Key) (profile : option Profile) : M Node () :=
  match profile with
  | Some p => if decide (profile_key p = owner) then ignore (node_publish_profile p) else mret ()
  | None => mret ()
  end.
Definition land_repo (owner : Key) (r : RepoRecord) : M Node () :=
  if decide (rr_owner r = owner) then ignore (node_publish_repo r) else mret ().
Definition land_identity (owner : Key) (profile : option Profile) (repos : list RepoRecord) : M Node () :=
  _ ← land_profile owner profile; M_iter (land_repo owner) repos.

(** ** The responder *)
Definition serve_owner_push (owner : Key) : Proc Node () :=
  let accessor := owner_accessor owner in
  adverts ← run_local (gets (λ n, advertise n accessor));
  let refs := filter (λ r, String.prefix (user_namespace owner) (as_str (ad_name r)) = true) adverts in
  _ ← send (Welcome PROTO_VERSION CAP_EMPTY refs None);
  m ← recv;
  match m with
  | Pack p =>
      decoded ← run_local (lift_res (decode_pack p));
      m ← recv;
      match m with
      | RefUpdate ops =>
          _ ← run_local (land decoded);
          results ← run_local (apply_push_ops accessor ops);
          _ ← send (RefStatus results);
          m ← recv;
          match m with
          | HubIdentity profile repos => _ ← run_local (land_identity owner profile repos); send MDone
          | _ => fail (Storage "hub: expected HubIdentity")
          end
      | _ => fail (Storage "hub: expected RefUpdate")
      end
  | _ => fail (Storage "hub: expected Pack")
  end.
Definition serve_authenticated_push (owner : Key) (nonce : vec byte 32) : Proc Node () :=
  _ ← send (HubChallenge nonce);
  m ← recv;
  match m with
  | HubProof sig =>
      if negb (verify_proof owner nonce sig)
      then _ ← send (MError "hub auth failed"); fail (AccessDenied "hub push auth failed")
      else serve_owner_push owner
  | _ => _ ← send (MError "expected HubProof"); fail (Storage "hub: expected HubProof")
  end.

Definition serve_hub (nonce : vec byte 32) : Proc Node () :=
  m ← recv;
  match m with
  | HubHello owner => serve_authenticated_push owner nonce
  | Hello _ _ _ Fetch _ | Hello _ _ _ Clone _ => serve_fetch privileged
  | Hello _ _ _ Push _ =>
      _ ← send (MError "hub requires authenticated push (use --as)");
      fail (AccessDenied "hub: plain push not allowed; authenticate with --as")
  | _ => _ ← send (MError "expected HubHello or Hello"); fail (Storage "hub: expected HubHello or Hello")
  end.
Definition serve_hub_push (nonce : vec byte 32) : Proc Node () :=
  m ← recv;
  match m with
  | HubHello owner => serve_authenticated_push owner nonce
  | _ => _ ← send (MError "expected HubHello"); fail (Storage "hub: expected HubHello")
  end.

(** ** The initiators *)
Definition hub_welcome : Proc Node (list RefAdvert) :=
  m ← recv;
  match m with
  | Welcome _ _ refs _ => mret refs
  | MError e => fail (Storage e)
  | _ => fail (Storage "hub: expected Welcome")
  end.
Definition hub_challenge : Proc Node (vec byte 32) :=
  m ← recv;
  match m with
  | HubChallenge nonce => mret nonce
  | MError e => fail (Storage e)
  | _ => fail (Storage "hub: expected HubChallenge")
  end.
Definition hub_status : Proc Node (list RefStatusEntry) :=
  m ← recv;
  match m with
  | RefStatus r => mret r
  | MError e => fail (Storage e)
  | _ => fail (Storage "hub: expected RefStatus")
  end.
Definition hub_done : Proc Node () :=
  m ← recv;
  match m with
  | MDone => mret ()
  | MError e => fail (Storage e)
  | _ => fail (Storage "hub: expected Done after identity")
  end.

(** Each push is a local timeline and its name on the hub. *)
Definition hub_plan_step n (remote_name : string) (plan : list RefUpdateOp) (p : RefName * RefName) : res (list RefUpdateOp) :=
  t ← get_timeline (n_refs n) p.1;
  match t with
  | None => Ok plan
  | Some tl =>
      tracking ← tracking_ref remote_name p.2;
      tag ← get_tag (n_refs n) tracking;
      Ok (plan ++ [MkUpdate p.2 (tag_target <$> tag) (head tl)])
  end.
Definition hub_accepted (remote_name : string) (ops : list RefUpdateOp) (out : list (RefName * ObjectId)) (entry : RefStatusEntry)
    : res (list (RefName * ObjectId)) :=
  if decide (rs_status entry = StatusOk) then
    match find_first (λ o, bool_decide (up_name o = rs_name entry)) ops with
    | Some op => tref ← RefName_new ("refs/remotes/" +:+ remote_name +:+ "/" +:+ as_str (up_name op)); Ok (out ++ [(tref, up_new_head op)])
    | None => Ok out
    end
  else Ok out.

Definition hub_push (owner_seed : Seed) (remote_name : string) (pushes : list (RefName * RefName)) : Proc Node (list RefStatusEntry) :=
  let owner := verifying_key owner_seed in
  _ ← send (HubHello owner);
  nonce ← hub_challenge;
  _ ← send (HubProof (sign_challenge owner_seed nonce));
  server_refs ← hub_welcome;
  let server_have : gset ObjectId := list_to_set (ad_target <$> server_refs) in
  ops ← run_local (gets (λ n, res_fold (hub_plan_step n remote_name) [] pushes));
  missing ← run_local (gets (λ n, missing_closure (n_store n) (up_new_head <$> ops) server_have));
  pack ← run_local (gets (λ n, build_pack n missing));
  _ ← send (Pack pack);
  _ ← send (RefUpdate ops);
  results ← hub_status;
  tracked ← run_local (lift_res (res_fold (hub_accepted remote_name ops) [] results));
  _ ← run_local (set_tracking tracked);
  prof ← run_local (gets (λ n, profile (node_repo n) owner));
  repos ← run_local (gets (λ n, list_repos (node_repo n) owner));
  _ ← send (HubIdentity prof repos);
  _ ← hub_done;
  mret results.

Definition no_such_repo (repo_name : string) : Error := Storage ("hub hosts no repo " +:+ repo_name +:+ " for that owner").

(** An empty request ends the responder's session; what it answers is not looked at. *)
Definition hub_drain (repo_name : string) : Proc Node (list (RefName * ObjectId)) :=
  _ ← send (HaveWant [] []);
  _ ← try_recv;
  _ ← try_recv;
  fail (no_such_repo repo_name).
Definition hub_land (remote_name : string) (wanted : list RefAdvert) : Proc Node (list (RefName * ObjectId)) :=
  have ← run_local (gets (λ n, list_ids (n_store n)));
  _ ← send (HaveWant (ad_target <$> wanted) have);
  m ← recv;
  match m with
  | Pack p =>
      _ ← recv;
      objs ← run_local (lift_res (decode_pack p));
      _ ← run_local (land objs);
      tracked ← run_local (lift_res (res_map (tracked_advert remote_name) wanted));
      _ ← run_local (set_tracking tracked);
      mret tracked
  | MError e => fail (Storage e)
  | _ => fail (Storage "hub: expected Pack")
  end.
Definition hub_fetch (owner : Key) (repo_name remote_name : string) : Proc Node (list (RefName * ObjectId)) :=
  let prefix := user_namespace owner +:+ repo_name +:+ "/" in
  _ ← send (hello Fetch);
  refs ← hub_welcome;
  let wanted := filter (λ r, String.prefix prefix (as_str (ad_name r)) = true) refs in
  match wanted with
  | [] => hub_drain repo_name
  | _ :: _ => hub_land remote_name wanted
  end.
End hub.
