(* ===== verification/HubFacts.v ===== *)
(** * HubFacts: ownership on a hub

    Theorems about [Hub.v].  Publication on a node refines that of [Collab.v].  Against any
    client, a session changes nothing unless its client signed the hub's nonce, and then only
    refs in the namespace of the key it signed with and that key's own public records;
    so histories of hub sessions keep the invariants of publication. *)

From Stdlib Require Import Ascii.
From S2P Require Import Prelude Bytes Bfs Order Graph Glob Ids Text Lattice Access Objects Refs RefStore Signing Policy Authority Merge Store Pack Gc Acl Walk Repo Trust Discovery Ephemeral Collab CollabFacts CollabHistory Wire Session Sync SyncFacts SyncPush SyncCollab SyncCollabFacts Hub.

(** ** The owner's accessor *)
Lemma hex_no_star l : "*"%char ∉ String.list_ascii_of_string (hex32 l).
Proof.
  induction l as [|b l IH]; [by intros ?%elem_of_nil|]. change (hex32 (b :: l)) with (bytes_str (hex_byte b ++ (l ≫= hex_byte))).
  change (bytes_str (hex_byte b ++ (l ≫= hex_byte))) with (String.String (ascii_of_byte (hex_digit (u8 b / 16)))
    (String.String (ascii_of_byte (hex_digit (u8 b `mod` 16))) (hex32 l))).
  cbn [String.list_ascii_of_string]. rewrite !elem_of_cons. intros [Hc|[Hc|?]]; [by destruct b|by destruct b|done].
Qed.

Section owner.
Context `{ObjectCodec}.

Lemma ns_no_star owner : "*"%char ∉ String.list_ascii_of_string (user_namespace owner).
Proof.
  unfold user_namespace. rewrite !list_ascii_append, !elem_of_app. intros [Hc|[Hc|Hc]].
  - revert Hc. apply (bool_decide_unpack _). vm_compute. exact I.
  - by apply hex_no_star in Hc.
  - revert Hc. apply (bool_decide_unpack _). vm_compute. exact I.
Qed.
Lemma owner_pattern_ns owner : owner_pattern owner = user_namespace owner +:+ "**".
Proof. unfold owner_pattern, user_namespace. by rewrite !string_app_assoc. Qed.

Lemma owner_accessor_roles owner : owner_accessor owner = with_actor
  (with_roles [inr (MkTimelineRole (owner_pattern owner) PermWrite); inr (MkTimelineRole (owner_pattern owner) PermRead)]) (fingerprint owner).
Proof. done. Qed.

(** Whatever its label, the owner can only write below its namespace. *)
Lemma owner_writes owner label name : can_write (owner_accessor owner) label (ResTimeline name) = true →
  String.prefix (user_namespace owner) name = true.
Proof.
  rewrite can_write_iff. intros (c & Hc & (_ & Hs & _) & _).
  assert (scope c = Some (ScopeTimeline (owner_pattern owner))) as Hsc.
  { change (c ∈ [MkClearance PROTECTED WRITE (Some (ScopeTimeline (owner_pattern owner)));
                 MkClearance PROTECTED READ (Some (ScopeTimeline (owner_pattern owner)))]) in Hc.
    by apply elem_of_cons in Hc as [->| ->%list_elem_of_singleton]. }
  rewrite Hsc in Hs. cbn [scope_applies] in Hs. rewrite owner_pattern_ns in Hs.
  apply glob_matches_iff in Hs as (_ & _ & Hg). rewrite list_ascii_append, Glob_literal_prefix in Hg by apply ns_no_star.
  destruct Hg as (u & Hu & _). by eapply prefix_ascii.
Qed.
(** ... and it can, up to the protected label. *)
Lemma owner_can_write owner label name : dominates two_point PROTECTED label = true →
  within_limit (owner_pattern owner) → within_limit name → String.prefix (user_namespace owner) name = true →
  can_write (owner_accessor owner) label (ResTimeline name) = true.
Proof.
  intros Hd Hw Hn Hp. rewrite can_write_iff. exists (MkClearance PROTECTED WRITE (Some (ScopeTimeline (owner_pattern owner)))).
  split; [left|]. split; [|done]. split; [done|]. split; [|done]. cbn [scope scope_applies]. apply glob_matches_iff. split; [done|]. split; [done|].
  rewrite owner_pattern_ns, list_ascii_append, Glob_literal_prefix by apply ns_no_star.
  apply prefix_inv in Hp as (u & ->). rewrite list_ascii_append. eexists. split; [done|]. apply Glob_double_star.
Qed.
End owner.

(** ** Publication on a node is publication *)
Section refines.
Context {R : Type} `{RefBackend R, IoText, Ed25519}.
Context {A : Type} `{AclBackend A}.
Context `{!ObjectCodec, !ObjectCodecLaws, Postcard, RelayCodec}.
Abbreviation Node := (Node MemoryBackend R A).
Abbreviation Repo := (Repository R A).

(** [m] on a node does what [m'] does on its repository. *)
Definition simulates {X} (m : M Node X) (m' : M Repo X) : Prop :=
  ∀ n, m' (node_repo n) = (λ '(r, n'), (r, node_repo n')) (m n).

Lemma sim_ret {X} (x : X) : simulates (mret x) (mret x).
Proof. done. Qed.
Lemma sim_throw {X} e : simulates (throw (A := X) e) (throw e).
Proof. done. Qed.
Lemma sim_lift {X} (r : res X) : simulates (lift_res r) (lift_res r).
Proof. done. Qed.
Lemma sim_gets {X} (f : Repo → res X) : simulates (gets (λ n, f (node_repo n))) (gets f).
Proof. done. Qed.
Lemma sim_bind {X Y} (m : M Node X) (m' : M Repo X) (k : X → M Node Y) (k' : X → M Repo Y) :
  simulates m m' → (∀ x, simulates (k x) (k' x)) → simulates (m ≫= k) (m' ≫= k').
Proof. intros Hm Hk n. unfold mbind, M_bind. rewrite (Hm n). destruct (m n) as [[x|e] n']; [apply Hk|done]. Qed.
Lemma sim_refs {X} (m : M R X) : simulates (on_nrefs m) (on_refs m).
Proof. intros n. unfold on_nrefs, on_refs. simpl. by destruct (m (n_refs n)). Qed.
Lemma sim_put obj : simulates (on_store (put obj)) (repo_put obj).
Proof.
  intros n. unfold on_store, repo_put. rewrite lift_bind. destruct (serialize obj) as [data|e] eqn:Hs; [|by unfold put; rewrite Hs; destruct n].
  rewrite (put_put_raw obj data _ Hs), put_raw_memory. unfold mbind, M_bind, modify, mret, M_ret, os_exists, node_repo, decoded. simpl.
  rewrite lookup_fmap. destruct (decide _) as [Hin|Hout].
  - rewrite bool_decide_true; [by destruct n|]. by apply fmap_is_Some.
  - rewrite bool_decide_false by (by rewrite fmap_is_Some). unfold set_objects. simpl. rewrite fmap_insert. by rewrite (deserialize_serialize obj data Hs).
Qed.

Create HintDb sim.
#[local] Hint Resolve sim_ret sim_throw sim_lift sim_gets sim_refs sim_put : sim.
#[local] Hint Resolve sim_bind : sim.

Lemma sim_publish_profile p : simulates (node_publish_profile p) (publish_profile p).
Proof.
  unfold node_publish_profile, publish_profile, node_pin, node_set_tag, pin, set_tag. destruct (negb (verify_profile p)); [apply sim_throw|].
  apply sim_bind; [apply sim_gets|]. intros cur. case_match; [apply sim_throw|]. auto 10 with sim.
Qed.
Lemma sim_publish_repo r : simulates (node_publish_repo r) (publish_repo r).
Proof.
  unfold node_publish_repo, publish_repo, node_set_tag, set_tag. destruct (negb (verify_repo r)); [apply sim_throw|].
  apply sim_bind; [apply sim_lift|]. intros name. apply sim_bind; [apply sim_gets|]. intros obj. case_match; [apply sim_throw|]. auto 10 with sim.
Qed.

(** The store only grows. *)
Definition grows {X} (m : M Node X) : Prop := ∀ n, n_store n ⊆ n_store (m n).2.
Lemma grows_bind {X Y} (m : M Node X) (k : X → M Node Y) : grows m → (∀ x, grows (k x)) → grows (m ≫= k).
Proof.
  intros Hm Hk n. specialize (Hm n). unfold mbind, M_bind. destruct (m n) as [[x|e] n']; [|done]. etrans; [exact Hm|apply Hk].
Qed.
Lemma grows_ret {X} (x : X) : grows (mret x).
Proof. intros n. simpl. reflexivity. Qed.
Lemma grows_throw {X} e : grows (throw (A := X) e).
Proof. intros n. simpl. reflexivity. Qed.
Lemma grows_lift {X} (r : res X) : grows (lift_res r).
Proof. intros n. simpl. reflexivity. Qed.
Lemma grows_gets {X} (f : Node → res X) : grows (gets f).
Proof. intros n. simpl. reflexivity. Qed.
Lemma grows_refs {X} (m : M R X) : grows (on_nrefs m).
Proof. intros n. unfold on_nrefs. destruct (m (n_refs n)). simpl. reflexivity. Qed.
Lemma grows_put obj : grows (on_store (put obj)).
Proof.
  intros n. unfold on_store. pose proof (put_memory obj (n_store n)) as Hp. destruct (serialize obj).
  - destruct Hp as (b & -> & Hb & _). exact Hb.
  - rewrite Hp. simpl. reflexivity.
Qed.
#[local] Hint Resolve grows_bind grows_ret grows_throw grows_lift grows_gets grows_refs grows_put : sim.

Lemma grows_publish_profile p : grows (node_publish_profile p).
Proof.
  unfold node_publish_profile, node_pin, node_set_tag. destruct (negb _); [apply grows_throw|].
  apply grows_bind; [apply grows_gets|]. intros cur. case_match; [apply grows_throw|]. auto 10 with sim.
Qed.
Lemma grows_publish_repo r : grows (node_publish_repo r).
Proof.
  unfold node_publish_repo, node_set_tag. destruct (negb _); [apply grows_throw|].
  apply grows_bind; [apply grows_lift|]. intros name. apply grows_bind; [apply grows_gets|]. intros obj.
  case_match; [apply grows_throw|]. auto 10 with sim.
Qed.
End refines.

(** ** The owner's records *)
Definition record_owner (r : PublicRecord) : Key :=
  match r with PubProfile p => profile_key p | PubEdge e => from_key e | PubRepo r => rr_owner r end.

Section memory.
Context `{IoText, Ed25519, ObjectCodec, !ObjectCodecLaws, Zstd, Postcard, RelayCodec}.
Context {A : Type} `{AclLaws A}.
Abbreviation Node := (Node MemoryBackend MemoryRefBackend A).
Implicit Types n : Node.

(** A publication of a record of [owner], whether it succeeds or is refused. *)
Inductive publishing (owner : Key) n n' : Prop :=
| publishing_record rec r : record_owner rec = owner → n_store n ⊆ n_store n' →
    publish rec (node_repo n) = (r, node_repo n') → publishing owner n n'.

Lemma publishing_intro {X} (m : M Node X) m' owner rec n : record_owner rec = owner → (∀ s, (m' s).2 = (publish rec s).2) →
  simulates m m' → grows m → publishing owner n (m n).2.
Proof.
  intros Ho Hm' Hs Hg. apply (publishing_record owner n _ rec (publish rec (node_repo n)).1 Ho (Hg n)).
  specialize (Hs n). specialize (Hm' (node_repo n)). destruct (m n) as [r n']. rewrite Hs in Hm'. simpl in *.
  destruct (publish rec (node_repo n)). simpl in *. by subst.
Qed.

Lemma land_profile_steps owner profile n : ∃ n', land_profile owner profile n = (Ok (), n') ∧ rtc (publishing owner) n n'.
Proof.
  unfold land_profile. destruct profile as [p|]; [|by exists n]. case_decide as Hk; [|by exists n].
  exists (node_publish_profile p n).2. split; [done|]. apply rtc_once.
  by apply (publishing_intro _ (publish_profile p) owner (PubProfile p)); [| |apply sim_publish_profile|apply grows_publish_profile].
Qed.
Lemma land_repos_steps owner repos : ∀ n, ∃ n', M_iter (land_repo owner) repos n = (Ok (), n') ∧ rtc (publishing owner) n n'.
Proof.
  induction repos as [|r repos IH]; intros n; [by exists n|]. cbn [M_iter]. unfold mbind, M_bind, land_repo at 1.
  case_decide as Hk; [|destruct (IH n) as (n' & Hl & Hr); by exists n'].
  destruct (IH (node_publish_repo r n).2) as (n' & Hl & Hr). exists n'. split; [exact Hl|].
  eapply rtc_l; [|exact Hr].
  by apply (publishing_intro _ (publish_repo r) owner (PubRepo r)); [| |apply sim_publish_repo|apply grows_publish_repo].
Qed.
Lemma land_identity_steps owner profile repos n : ∃ n', land_identity owner profile repos n = (Ok (), n') ∧ rtc (publishing owner) n n'.
Proof.
  unfold land_identity, mbind, M_bind. destruct (land_profile_steps owner profile n) as (n1 & -> & Hr1).
  destruct (land_repos_steps owner repos n1) as (n' & -> & Hr2). exists n'. split; [done|]. by etrans.
Qed.

(** In memory a publication that is refused changes nothing. *)
Lemma publish_Err_memory rec (s s' : Repository MemoryRefBackend A) e : mem_ok (r_refs s) → publish rec s = (Err e, s') → s' = s.
Proof.
  intros Hi. rewrite publish_unfold. destruct (record_valid rec); [|by intros [= _ <-]]. cbn [negb]. rewrite lift_bind.
  destruct (RefName_new _) as [name|] eqn:Hn; [|by intros [= _ <-]]. rewrite gets_bind.
  destruct (tag_object s name) as [obj|]; [|by intros [= _ <-]]. destruct (stale rec obj); [by intros [= _ <-]|].
  unfold repo_put, mbind at 1, M_bind at 1. rewrite lift_bind. destruct (serialize _) as [data|]; [|by intros [= _ <-]].
  unfold mbind, M_bind, modify, mret, M_ret, set_tag, on_refs. set (s1 := if os_exists _ _ then _ else _).
  assert (r_refs s1 = r_refs s) as Hs1 by (unfold s1; by destruct (os_exists _ _)).
  destruct (commit_tags_memory (r_refs s1) [(name, object_id data)]) as (refs' & Hc & _); [by rewrite Hs1|constructor; [by apply RefName_new_valid in Hn as [_ ?]|constructor]|].
  simpl in Hc. unfold tag_op in Hc. simpl in Hc. by rewrite Hc.
Qed.

(** ** What landing an identity changes *)
Record landed (owner : Key) n n' : Prop := {
  ld_acls : n_acls n' = n_acls n;
  ld_hooks : n_hooks n' = n_hooks n;
  ld_refs_ok : mem_ok (n_refs n');
  ld_store : n_store n ⊆ n_store n';
  ld_refs name : mem_view (n_refs n') !! name = mem_view (n_refs n) !! name ∨
    ∃ rec x, record_owner rec = owner ∧ record_valid rec = true ∧ as_str name = record_name rec ∧
      obj_id (record_object rec) = Ok x ∧ mem_view (n_refs n') !! name = Some (RTag (MkTag x 0 None))
}.

Lemma landed_refl owner n : mem_ok (n_refs n) → landed owner n n.
Proof. intros Hi. split; try done. by left. Qed.
Lemma landed_trans owner n1 n2 n3 : landed owner n1 n2 → landed owner n2 n3 → landed owner n1 n3.
Proof.
  intros [Ha Hh _ Hs Hr] [Ha' Hh' Hi' Hs' Hr']. split; [congruence..|done|by etrans|]. intros name.
  destruct (Hr' name) as [->|?]; [apply Hr|by right].
Qed.
Lemma publishing_landed owner n n' : mem_ok (n_refs n) → publishing owner n n' → landed owner n n'.
Proof.
  intros Hi [rec r Ho Hs Hp]. destruct r as [x|e].
  - apply publish_Ok in Hp as (Hv & [Hid _ Hi' Hview _ _ (Ha & Hh & _)] & _); [|done]. split; [done..|]. intros name.
    change (mem_view (n_refs n') = <[MkRefName (record_name rec) := RTag (MkTag x 0 None)]> (mem_view (n_refs n))) in Hview.
    rewrite Hview. destruct (decide (MkRefName (record_name rec) = name)) as [<-|]; [right|left; by rewrite lookup_insert_ne].
    exists rec, x. rewrite lookup_insert_eq. done.
  - apply publish_Err_memory in Hp; [|done]. injection Hp as _ Hr Ha Hh _. split; [done..|by rewrite Hr|done|]. left. by rewrite Hr.
Qed.
Lemma publishing_all_landed owner n n' : mem_ok (n_refs n) → rtc (publishing owner) n n' → landed owner n n'.
Proof.
  intros Hi Hr. revert Hi. induction Hr as [n|n1 n2 n3 Hp _ IH]; intros Hi; [by apply landed_refl|].
  apply publishing_landed in Hp; [|done]. eapply landed_trans; [exact Hp|apply IH, (ld_refs_ok _ _ _ Hp)].
Qed.

(** ** A session *)

(** A push of the owner of the namespace, and of the owner's records. *)
Definition owner_session (owner : Key) (ops : list RefUpdateOp) n n' : Prop :=
  ∃ n1, pushed n n1 (owner_accessor owner) ops ∧ rtc (publishing owner) n1 n'.

Lemma owner_session_refl owner n : mem_ok (n_refs n) → owner_session owner [] n n.
Proof. intros Hi. exists n. split; [by apply pushed_refl|done]. Qed.

Lemma serve_owner_push_spec owner n n' room inbox r out : mem_ok (n_refs n) → Forall message_ok inbox →
  feed (serve_owner_push owner) n room inbox = (r, n', out) →
  ∃ ops, (ops = [] ∨ RefUpdate ops ∈ inbox) ∧ owner_session owner ops n n'.
Proof.
  intros Hi Hok. assert (n' = n → ∃ ops, (ops = [] ∨ RefUpdate ops ∈ inbox) ∧ owner_session owner ops n n') as Hsame.
  { intros ->. exists []. split; [by left|by apply owner_session_refl]. }
  unfold serve_owner_push. rewrite feed_local. unfold gets at 1. destruct (advertise n _) as [refs|e]; [|intros [= _ <- _]; auto].
  rewrite feed_send. destruct room as [|room]; [intros [= _ <- _]; auto|].
  rewrite feed_recv. destruct inbox as [|m inbox]; [intros [= _ <- _]; auto|].
  destruct m as [| | |p| | | | | | | | |]; try (intros [= _ <- _]; by apply Hsame).
  rewrite feed_local. unfold lift_res. destruct (decode_pack p) as [objs|e]; [|intros [= _ <- _]; auto].
  rewrite feed_recv. destruct inbox as [|m inbox]; [intros [= _ <- _]; auto|].
  destruct m as [| | | |ops| | | | | | | |]; try (intros [= _ <- _]; by apply Hsame). clear Hsame.
  apply Forall_cons in Hok as [_ [Hok _]%Forall_cons].
  rewrite feed_local. destruct (land_memory objs n) as (b & -> & Hsub & _). rewrite feed_local.
  destruct (apply_push_ops _ ops (set_store b n)) as [res n1] eqn:Ha.
  apply (apply_pushed n b n1 _ ops res) in Ha; [|done..|by apply Forall_fmap].
  assert (n' = n1 → ∃ ops0, (ops0 = [] ∨ RefUpdate ops0 ∈ Pack p :: RefUpdate ops :: inbox) ∧ owner_session owner ops0 n n') as Hpush.
  { intros ->. exists ops. split; [right; right; left|]. by exists n1. }
  destruct res as [results|e]; [|intros [= _ <- _]; auto]. rewrite feed_send.
  destruct room as [|room]; [intros [= _ <- _]; auto|]. rewrite feed_recv. destruct inbox as [|m inbox]; [intros [= _ <- _]; auto|].
  destruct m as [| | | | | | | | | |profile repos| |]; try (intros [= _ <- _]; by apply Hpush).
  rewrite feed_local. destruct (land_identity_steps owner profile repos n1) as (n2 & -> & Hland). intros Hf. assert (n' = n2) as -> by (destruct room; by injection Hf).
  exists ops. split; [right; right; left|]. by exists n1.
Qed.

(** A client that signed the nonce for [owner]. *)
Definition authenticated (owner : Key) (nonce : vec byte 32) (inbox : list Message) : Prop :=
  ∃ sig, HubHello owner ∈ inbox ∧ HubProof sig ∈ inbox ∧ verify_proof owner nonce sig = true.

Lemma serve_hub_spec nonce n n' room inbox r out : mem_ok (n_refs n) → Forall message_ok inbox →
  feed (serve_hub nonce) n room inbox = (r, n', out) →
  n' = n ∨ ∃ owner ops, authenticated owner nonce inbox ∧ (ops = [] ∨ RefUpdate ops ∈ inbox) ∧ owner_session owner ops n n'.
Proof.
  intros Hi Hok. unfold serve_hub. rewrite feed_recv. destruct inbox as [|m inbox]; [intros [= _ <- _]; by left|].
  destruct m as [? ? ? [] ?| | | | | | |owner| | | | |]; try (rewrite feed_send; destruct room; intros [= _ <- _]; by left);
    try (intros [-> _]%serve_fetch_spec; [by left|done|done]).
  unfold serve_authenticated_push. rewrite feed_send. destruct room as [|room]; [intros [= _ <- _]; by left|].
  rewrite feed_recv. destruct inbox as [|m inbox]; [intros [= _ <- _]; by left|].
  destruct m as [| | | | | | | | |sig| | |]; try (rewrite feed_send; destruct room; intros [= _ <- _]; by left).
  destruct (verify_proof owner nonce sig) eqn:Hv; cbn [negb]; [|rewrite feed_send; destruct room; intros [= _ <- _]; by left].
  destruct (feed (serve_owner_push owner) n room inbox) as [[r1 n1] out1] eqn:Hf. intros [= _ <- _]. right.
  apply Forall_cons in Hok as [_ [_ Hok]%Forall_cons].
  apply serve_owner_push_spec in Hf as (ops & Hops & Hs); [|done..]. exists owner, ops. split; [|split; [|done]].
  - exists sig. split; [left|]. split; [right; left|done].
  - destruct Hops as [?|?]; [by left|right; do 2 right; done].
Qed.

Lemma pushed_namespace n n1 owner ops name : pushed n n1 (owner_accessor owner) ops →
  mem_view (n_refs n1) !! name = mem_view (n_refs n) !! name ∨
  (String.prefix (user_namespace owner) (as_str name) = true ∧
   moved_by (λ op, op ∈ ops ∧ push_allowed (set_store (n_store n1) n) (owner_accessor owner) op) name
     (mem_view (n_refs n) !! name) (mem_view (n_refs n1) !! name)).
Proof.
  intros Hp. destruct (pu_refs _ _ _ _ Hp name) as [?|Hm]; [by left|right]. split; [|done].
  destruct Hm as (op & t' & [_ Hall] & <- & _). destruct (pa_labels _ _ _ Hall) as (L & rs & _ & _ & Hw). by eapply owner_writes.
Qed.

(** [C6] Whatever a client sends to a hub on the in-memory backends and whenever it hangs up, the
    access rules, hooks and stored objects stay; and
    unless the client presents a signature over the hub's nonce that verifies under the key
    it named, nothing changes at all. A client that does present one moves refs only
    below that key's own namespace, each by one of the updates it sent, which has passed every
    check of a push for that owner: the owner's accessor may write its label, its new head is a
    stored snapshot with a complete closure, and where it moves an existing timeline, a
    protected one goes forward and every hook allows the move (no hook runs when a timeline is
    created); a timeline that is not unrestricted ends at a descendant of its old head. Beside
    that it publishes only records signed by that very key: no owner writes into another's
    repositories or identity. *)
Theorem serve_hub_confined (nonce : vec byte 32) n n' (room : nat) (inbox out : list Message) (r : res ()) :
  mem_ok (n_refs n) → Forall message_ok inbox → feed (serve_hub nonce) n room inbox = (r, n', out) →
  n' = n ∨ ∃ owner landed, authenticated owner nonce inbox ∧
    n_acls n' = n_acls n ∧ n_hooks n' = n_hooks n ∧ n_store n ⊆ landed ∧ landed ⊆ n_store n' ∧
    (∀ name, mem_view (n_refs n') !! name = mem_view (n_refs n) !! name ∨
      (String.prefix (user_namespace owner) (as_str name) = true ∧
        moved_by (λ op, (∃ ops, RefUpdate ops ∈ inbox ∧ op ∈ ops) ∧ push_allowed (set_store landed n) (owner_accessor owner) op) name
          (mem_view (n_refs n) !! name) (mem_view (n_refs n') !! name)) ∨
      ∃ rec x, record_owner rec = owner ∧ record_valid rec = true ∧ as_str name = record_name rec ∧
        obj_id (record_object rec) = Ok x ∧ mem_view (n_refs n') !! name = Some (RTag (MkTag x 0 None))) ∧
    ∀ name t t', mem_view (n_refs n) !! name = Some (RTimeline t) → mem_view (n_refs n') !! name = Some (RTimeline t') →
      policy t ≠ Unrestricted → rtc (parent_of (decoded landed)) (head t') (head t).
Proof.
  intros Hi Hok [->|(owner & ops & Hauth & Hops & n1 & Hp & Hland)]%serve_hub_spec; [by left| |done..].
  right. exists owner, (n_store n1). split; [done|].
  apply publishing_all_landed in Hland as [Ha Hh _ Hs Hr]; [|apply (pu_refs_ok _ _ _ _ Hp)].
  split; [etrans; [done|apply Hp]|]. split; [etrans; [done|apply Hp]|]. split; [apply (pu_store _ _ _ _ Hp)|]. split; [done|]. split.
  - intros name. destruct (Hr name) as [->|?]; [|by right; right]. destruct (pushed_namespace n n1 owner ops name Hp) as [?|[Hn Hm]]; [by left|].
    right; left. split; [done|]. destruct Hm as (op & t' & [Hin Hall] & ?). exists op, t'. split; [|done]. split; [|done].
    exists ops. split; [|done]. destruct Hops as [->|?]; [by apply elem_of_nil in Hin|done].
  - intros name t t' Ht Ht' Hpol. apply (pu_forward _ _ _ _ Hp name t t' Ht); [|done].
    destruct (Hr name) as [<-|(? & ? & _ & _ & _ & _ & Htag)]; [done|congruence].
Qed.

(** ** Any number of sessions *)
Inductive hub_served : relation Node :=
| hub_session nonce n n' room inbox r out : Forall message_ok inbox → feed (serve_hub nonce) n room inbox = (r, n', out) → hub_served n n'.

(** No two byte strings with one hash where a record is stored. *)
Definition collision_free (b : MemoryBackend) : Prop :=
  ∀ rec data old, serialize (record_object rec) = Ok data → b !! object_id data = Some old → old = data.

Lemma collision_free_sub b b' : b ⊆ b' → collision_free b' → collision_free b.
Proof. intros Hs Hc rec data old Hd Ho. eapply Hc; [done|]. by eapply lookup_weaken. Qed.
Lemma collision_free_for b rec : collision_free b → free_for (decoded b) (record_object rec).
Proof.
  intros Hc x r Hx Hr. unfold obj_id in Hx. destruct (serialize (record_object rec)) as [data|] eqn:Hs; [|done]. injection Hx as <-.
  unfold decoded in Hr. rewrite lookup_fmap in Hr. apply fmap_Some in Hr as (old & Ho & ->).
  rewrite (Hc rec data old Hs Ho). by apply deserialize_serialize.
Qed.

Lemma public_reserved name : is_public name → reserved name = true.
Proof.
  unfold is_public, reserved. intros (u & ->)%prefix_inv. apply orb_true_iff. right.
  change (COLLAB_PUBLIC_PREFIX +:+ u) with ("refs/collab/" +:+ ("public/" +:+ u)). apply prefix_app.
Qed.
Lemma pushed_outside n n' a ops : pushed n n' a ops → outside (node_repo n) (node_repo n').
Proof.
  intros Hp. split; [apply Hp|apply decoded_mono, Hp|]. intros name Hpub.
  destruct (pu_refs _ _ _ _ Hp name) as [?|(op & t' & [_ Hall] & <- & _)]; [done|].
  apply public_reserved in Hpub. by rewrite (pa_namespace _ _ _ Hall) in Hpub.
Qed.

Lemma publishing_store owner n n' : rtc (publishing owner) n n' → n_store n ⊆ n_store n'.
Proof. induction 1 as [n|n1 n2 n3 [rec r _ Hs _] _ IH]; [done|by etrans]. Qed.
Lemma publishing_history owner n n' : rtc (publishing owner) n n' → pub_ok (node_repo n) → collision_free (n_store n') →
  pub_ok (node_repo n') ∧ advances (node_repo n) (node_repo n').
Proof.
  induction 1 as [n|n1 n2 n3 [rec r _ Hs Hp] Hr IH]; intros Hok Hc; [done|].
  assert (pub_ok (node_repo n2) ∧ advances (node_repo n1) (node_repo n2)) as [Hok2 Ha].
  { destruct r as [x|e].
    - eapply publish_step; [done| |exact Hp]. apply collision_free_for. eapply collision_free_sub; [|exact Hc].
      etrans; [exact Hs|by eapply publishing_store].
    - apply publish_Err_memory in Hp; [|apply Hok]. by rewrite Hp. }
  destruct (IH Hok2 Hc) as (Hok3 & Ha'). split; [done|by etrans].
Qed.

Lemma hub_served_store n n' : hub_served n n' → mem_ok (n_refs n) → n_store n ⊆ n_store n' ∧ mem_ok (n_refs n').
Proof.
  intros [nonce n1 n2 room inbox r out Hok Hf] Hi. apply serve_hub_spec in Hf as [->|(owner & ops & _ & _ & n3 & Hp & Hl)]; [done| |done..].
  split; [etrans; [apply (pu_store _ _ _ _ Hp)|by eapply publishing_store]|].
  apply publishing_all_landed in Hl; [apply (ld_refs_ok _ _ _ Hl)|apply (pu_refs_ok _ _ _ _ Hp)].
Qed.

Lemma hub_stores n n' : rtc hub_served n n' → mem_ok (n_refs n) → n_store n ⊆ n_store n'.
Proof.
  induction 1 as [n|n1 n2 n3 Hstep _ IH]; intros Hi; [done|].
  destruct (hub_served_store n1 n2 Hstep Hi) as [? ?]. etrans; [done|by apply IH].
Qed.
Lemma hub_served_ok n n' : hub_served n n' → pub_ok (node_repo n) → collision_free (n_store n') →
  pub_ok (node_repo n') ∧ advances (node_repo n) (node_repo n').
Proof.
  intros [nonce n1 n2 room inbox r out Hok Hf] Hp Hc. apply serve_hub_spec in Hf as [->|(owner & ops & _ & _ & n3 & Hpu & Hl)]; [done| |apply Hp|done].
  destruct (outside_ok _ _ Hp (pushed_outside _ _ _ _ Hpu)) as [Hp3 Ha3].
  destruct (publishing_history _ _ _ Hl Hp3 Hc) as [? ?]. split; [done|by etrans].
Qed.

(** However many sessions a hub serves, to whatever clients: every name of its public
    namespace keeps carrying a record that verifies under its author's key and that the
    name is derived from, and the record under a name is only ever replaced by one with a
    greater sequence number, pushes and refused publications in between
    notwithstanding. *)
Theorem hub_history n n' : rtc hub_served n n' → pub_ok (node_repo n) → collision_free (n_store n') →
  pub_ok (node_repo n') ∧
  ∀ rec, current_record (node_repo n) rec → ∃ rec', current_record (node_repo n') rec' ∧ record_name rec' = record_name rec ∧
    (rec' = rec ∨ (record_seq rec < record_seq rec')%N).
Proof.
  intros Hs Hp Hc. assert (pub_ok (node_repo n') ∧ advances (node_repo n) (node_repo n')) as [? Ha]; [|by split].
  revert Hp. induction Hs as [n|n1 n2 n3 Hstep Hs IH]; intros Hp; [done|].
  destruct (hub_served_store n1 n2 Hstep (po_inv _ Hp)) as [_ Hi].
  destruct (hub_served_ok n1 n2 Hstep Hp) as [Hp2 Ha2]; [eapply collision_free_sub; [by apply hub_stores|done]|].
  destruct (IH Hc Hp2) as [? ?]. split; [done|by etrans].
Qed.

(** ** Fetching one repository *)
Lemma tracked_adverts remote refs tracked : res_map (tracked_advert remote) refs = Ok tracked →
  Forall valid_name tracked.*1 ∧ ∀ t x, (t, x) ∈ tracked → ∃ r, r ∈ refs ∧ tracking_ref remote (ad_name r) = Ok t ∧ x = ad_target r.
Proof.
  intros Hm%res_map_Ok. assert (∀ t x, (t, x) ∈ tracked → ∃ r, r ∈ refs ∧ tracking_ref remote (ad_name r) = Ok t ∧ x = ad_target r) as Hall.
  { intros t x [k Hk]%list_elem_of_lookup. destruct (Forall2_lookup_r _ _ _ _ _ Hm Hk) as (r & Hr & Ht).
    exists r. split; [by eapply list_elem_of_lookup_2|]. unfold tracked_advert in Ht. apply bind_Ok in Ht as (tref & Ht & [= -> ->]). done. }
  split; [|done]. apply Forall_fmap, Forall_forall. intros [t x] (r & _ & Ht & _)%Hall. by apply tracking_ref_Ok in Ht as [? _].
Qed.

Lemma feed_hub_welcome {X} (k : list RefAdvert → Proc Node X) n room inbox :
  feed (hub_welcome ≫= k) n room inbox =
  match inbox with
  | [] => (Err err_closed, n, [])
  | Welcome _ _ refs _ :: inbox => feed (k refs) n room inbox
  | MError e :: _ => (Err (Storage e), n, [])
  | _ :: _ => (Err (Storage "hub: expected Welcome"), n, [])
  end.
Proof. by destruct inbox as [|[]]. Qed.

(** What a fetch of the repository may have changed. *)
Record hub_fetched (owner : Key) (repo_name remote_name : string) n n' : Prop := {
  hf_acls : n_acls n' = n_acls n;
  hf_hooks : n_hooks n' = n_hooks n;
  hf_store : n_store n ⊆ n_store n';
  hf_refs name : mem_view (n_refs n') !! name = mem_view (n_refs n) !! name ∨
    ∃ hub_name x, String.prefix (user_namespace owner +:+ repo_name +:+ "/") (as_str hub_name) = true ∧
      tracking_ref remote_name hub_name = Ok name ∧ mem_view (n_refs n') !! name = Some (RTag (MkTag x 0 None))
}.
Lemma hub_fetched_store owner repo_name remote n b : n_store n ⊆ b → hub_fetched owner repo_name remote n (set_store b n).
Proof. intros Hs. split; try done. by left. Qed.
Lemma hub_fetched_refl owner repo_name remote n : hub_fetched owner repo_name remote n n.
Proof. split; try done. by left. Qed.

Lemma hub_land_spec owner repo_name remote wanted n n' room inbox out r : mem_ok (n_refs n) →
  (∀ a, a ∈ wanted → String.prefix (user_namespace owner +:+ repo_name +:+ "/") (as_str (ad_name a)) = true) →
  feed (hub_land remote wanted) n room inbox = (r, n', out) →
  hub_fetched owner repo_name remote n n' ∧
  match r with Ok tracked => res_map (tracked_advert remote) wanted = Ok tracked | Err _ => n_refs n' = n_refs n end.
Proof.
  intros Hi Hw. pose proof (hub_fetched_refl owner repo_name remote n) as Hrefl. unfold hub_land. rewrite feed_local. unfold gets at 1.
  destruct (list_ids _) as [have|e]; [|intros [= <- <- _]; done]. rewrite feed_send.
  destruct room as [|room]; [intros [= <- <- _]; done|]. rewrite feed_recv.
  destruct inbox as [|m inbox]; [intros [= <- <- _]; done|]. destruct m as [| | |p| | | | | | | | |]; try (intros [= <- <- _]; done).
  rewrite feed_recv. destruct inbox as [|m inbox]; [intros [= <- <- _]; done|].
  rewrite feed_local. unfold lift_res at 1. destruct (decode_pack p) as [objs|e]; [|intros [= <- <- _]; done].
  rewrite feed_local. destruct (land_memory objs n) as (b & -> & Hb & _). rewrite feed_local. unfold lift_res at 1.
  pose proof (hub_fetched_store owner repo_name remote n b Hb) as Hst.
  destruct (res_map _ wanted) as [tracked|e] eqn:Ht; [|intros [= <- <- _]; done]. rewrite feed_local.
  destruct (tracked_adverts _ _ _ Ht) as [Hv Hin].
  destruct (set_tracking_memory (set_store b n) tracked Hi Hv) as (refs & -> & Hok & Hview). intros [= <- <- _].
  split; [|done]. split; try done. intros name. simpl. rewrite Hview.
  destruct (tags_cases tracked (mem_view (n_refs n)) name) as [?|(x & Hx & Heq)]; [by left|right].
  destruct (Hin name x Hx) as (a & Ha & Hta & _). exists (ad_name a), x. split; [by apply Hw|done].
Qed.

(** Whatever a hub sends and whenever it hangs up, fetching one owner's repository from it touches no ref but
    the remote-tracking refs of names below that repository, and loses no object; an
    unsuccessful fetch leaves every ref as it was, and so does a hub without that
    repository. *)
Theorem hub_fetch_confined (owner : Key) (repo_name remote_name : string) n n' (room : nat) (inbox out : list Message)
    (r : res (list (RefName * ObjectId))) : mem_ok (n_refs n) → feed (hub_fetch owner repo_name remote_name) n room inbox = (r, n', out) →
  hub_fetched owner repo_name remote_name n n' ∧ match r with Ok tracked => tracked ≠ [] | Err _ => n_refs n' = n_refs n end.
Proof.
  intros Hi. pose proof (hub_fetched_refl owner repo_name remote_name n) as Hrefl. unfold hub_fetch. rewrite feed_send.
  destruct room as [|room]; [intros [= <- <- _]; done|]. rewrite feed_hub_welcome.
  destruct inbox as [|m inbox]; [intros [= <- <- _]; done|].
  destruct m as [|proto caps refs sig| | | | | | | | | | |]; try (intros [= <- <- _]; done).
  assert (∀ a, a ∈ filter (λ r, String.prefix (user_namespace owner +:+ repo_name +:+ "/") (as_str (ad_name r)) = true) refs →
    String.prefix (user_namespace owner +:+ repo_name +:+ "/") (as_str (ad_name a)) = true) as Hw
    by (intros a Ha; by apply list_elem_of_filter in Ha as [? _]).
  destruct (filter _ refs) as [|a wanted].
  { destruct room, inbox as [|m1 [|m2 inbox]]; intros [= <- <- _]; done. }
  destruct (feed (hub_land remote_name (a :: wanted)) n room inbox) as [[r1 n1] out1] eqn:Hf. intros [= <- <- _].
  apply (hub_land_spec owner repo_name) in Hf as [Hfe Hr]; [|done..]. split; [done|]. destruct r1 as [tracked|e]; [|done].
  intros ->. apply res_map_Ok in Hr. inversion Hr.
Qed.
End memory.

(** ** On concrete data: an owner pushes a commit to an empty hub and publishes a profile *)
#[local] Existing Instance demo_io_text.
#[local] Existing Instance toy_ed25519.
#[local] Existing Instance toy_zstd.
#[local] Existing Instance toy_postcard.
Definition ex_relay_pins : RelayCodec := {| pin_to_bytes _ := []; pin_from_bytes _ := None |}.
#[local] Existing Instance ex_relay_pins.
Definition ex_hub_profile : Profile := sign_profile (ex_seed x0c) "Alice" "" [] [] 1.
Definition ex_hub_table : list (Object * bytes) := (OCollab (CProfile ex_hub_profile), [x31]) :: ex_table.
Definition ex_hub_codec : ObjectCodec := table_codec ex_hub_table.
#[local] Existing Instance ex_hub_codec.
Lemma ex_hub_codec_laws : @ObjectCodecLaws ex_hub_codec.
Proof. apply table_codec_laws. apply (bool_decide_unpack _); vm_compute; exact I. Qed.
#[local] Existing Instance ex_hub_codec_laws.

Definition ex_hub : Node MemoryBackend MemoryRefBackend MemoryAclBackend := MkNode ∅ ∅ ex_acls [] None.
Definition ex_hub_main : RefName := MkRefName (user_namespace (ex_seed x0c) +:+ "repo/main").
Definition ex_hub_pack : bytes := match build_pack ex_client [ex_id x01; ex_id x11; ex_id x21] with Ok p => p | Err _ => [] end.
Definition ex_hub_push (proof : bytes) : list Message :=
  [HubHello (ex_seed x0c); HubProof proof; Pack ex_hub_pack; RefUpdate [MkUpdate ex_hub_main None (ex_id x01)];
   HubIdentity (Some ex_hub_profile) []].
Definition ex_hub_run (proof : bytes) : res () * Node MemoryBackend MemoryRefBackend MemoryAclBackend * list Message :=
  feed (serve_hub ex_nonce) ex_hub 4 (ex_hub_push proof).
Definition ex_hub_proof : bytes := sign_challenge (ex_seed x0c) ex_nonce.
Definition ex_hub_after : Node MemoryBackend MemoryRefBackend MemoryAclBackend := (ex_hub_run ex_hub_proof).1.2.

Lemma ex_hub_run_eq proof : feed (serve_hub ex_nonce) ex_hub 4 (ex_hub_push proof) = ((ex_hub_run proof).1.1, (ex_hub_run proof).1.2, (ex_hub_run proof).2).
Proof. unfold ex_hub_run. destruct (feed _ _ _ _) as [[r n'] out]. reflexivity. Qed.
Lemma ex_hub_push_ok proof : Forall message_ok (ex_hub_push proof).
Proof. repeat constructor. Qed.
Lemma ex_hub_refs_ok : mem_ok (n_refs ex_hub).
Proof. intros k r Hk. discriminate Hk. Qed.

(** The push lands; under another key's signature nothing does. *)
Lemma serve_hub_confined_witness :
  mem_view (n_refs ex_hub_after) !! ex_hub_main = Some (RTimeline (MkTimeline (ex_id x01) FastForwardOnly 0 "persistent" None)) ∧
  mem_view (n_refs ex_hub_after) !! MkRefName (profile_ref (ex_seed x0c)) = Some (RTag (MkTag (ex_id x31) 0 None)) ∧
  (∃ owner, authenticated owner ex_nonce (ex_hub_push ex_hub_proof)) ∧
  (ex_hub_run (sign_challenge (ex_seed x0d) ex_nonce)).1.1 = Err (AccessDenied "hub push auth failed").
Proof.
  assert (mem_view (n_refs ex_hub_after) !! ex_hub_main = Some (RTimeline (MkTimeline (ex_id x01) FastForwardOnly 0 "persistent" None))) as Hmain
    by (apply (bool_decide_unpack _); vm_compute; exact I).
  split; [exact Hmain|]. split; [apply (bool_decide_unpack _); vm_compute; exact I|].
  split; [|apply (bool_decide_unpack _); vm_compute; exact I].
  destruct (serve_hub_confined ex_nonce ex_hub _ 4 _ _ _ ex_hub_refs_ok (ex_hub_push_ok _) (ex_hub_run_eq ex_hub_proof)) as [Heq|(owner & landed & Ha & _)].
  - exfalso. change (ex_hub_after = ex_hub) in Heq. rewrite Heq in Hmain. discriminate Hmain.
  - exists owner. exact Ha.
Defined.

Lemma ex_hub_collision_free : collision_free (n_store ex_hub_after).
Proof.
  intros rec data old Hs%table_serialize Ho. apply elem_of_cons in Hs as [[= _ ->]|Hin].
  - assert (n_store ex_hub_after !! object_id [x31] = Some [x31]) as He by (apply (bool_decide_unpack _); vm_compute; exact I). congruence.
  - exfalso. clear Ho. unfold ex_table in Hin.
    repeat (apply elem_of_cons in Hin as [[= Hr _]|Hin]; [by destruct rec|]). by apply elem_of_nil in Hin.
Qed.

Lemma hub_history_witness : hub_served ex_hub ex_hub_after ∧ pub_ok (node_repo ex_hub_after).
Proof.
  assert (hub_served ex_hub ex_hub_after) as Hs.
  { exact (hub_session ex_nonce ex_hub _ 4 (ex_hub_push ex_hub_proof) _ _ (ex_hub_push_ok _) (ex_hub_run_eq ex_hub_proof)). }
  split; [exact Hs|]. assert (pub_ok (node_repo ex_hub)) as Hp.
  { split; [exact ex_hub_refs_ok|]. intros n v Hn. exfalso. change (mem_view ∅ !! n = Some v) in Hn. rewrite mem_view_lookup in Hn. discriminate Hn. }
  exact (proj1 (hub_history ex_hub ex_hub_after (rtc_once _ _ Hs) Hp ex_hub_collision_free)).
Defined.

(** A relay pin, which the source calls local-only and never advertised, is advertised by the
    ordinary listing: an anonymous reader of a hub learns the hub's pins. *)
Definition ex_pinned_hub : Node MemoryBackend MemoryRefBackend MemoryAclBackend :=
  MkNode ∅ {[ relay_ref (ex_seed x0a) := RTag (MkTag (ex_id x31) 0 None) ]} ex_acls [] None.
Example hub_advertises_relay_pins :
  (feed (serve_hub ex_nonce) ex_pinned_hub 1 [hello Fetch]).2 =
    [Welcome 1 CAP_EMPTY [MkAdvert (MkRefName (relay_ref (ex_seed x0a))) (ex_id x31) false] None] ∧
  String.prefix COLLAB_RELAYS_PREFIX (relay_ref (ex_seed x0a)) = true.
Proof. split; apply (bool_decide_unpack _); vm_compute; exact I. Qed.
