(* ===== verification/Inproc.v ===== *)
(** * Inproc: the in-process sync engine

    The methods [sync_transfer], [fetch], [push] and [clone_from] of src/src/sync/mod.rs between
    two distinct repositories ([Node]s of [Sync.v]).  What changes both of them is a
    computation on the pair, the caller's repository first. *)

From S2P Require Import Prelude Bytes Graph Lattice Access Ids Objects Refs RefStore Signing Policy Authority Merge Store Pack Gc Acl Walk Repo Wire Session Sync.

Inductive PushStatus : Type :=
| PushOk
| PushNonFastForward (server_head : ObjectId)
| PushDenied (reason : string).
Record RefResult : Type := MkResult { res_name : RefName; res_status : PushStatus }.

#[global] Instance PushStatus_eq_dec : EqDecision PushStatus. Proof. solve_decision. Defined.
#[global] Instance RefResult_eq_dec : EqDecision RefResult. Proof. solve_decision. Defined.

(** An entry of [plan]: name, local head, expected old head, tracking ref, local timeline. *)
Record PlanEntry : Type := MkEntry {
  pe_name : RefName; pe_head : ObjectId; pe_old : option ObjectId; pe_tracking : RefName; pe_timeline : Timeline }.

(** [Repository::memory()] *)
Definition memory_node : Node MemoryBackend MemoryRefBackend MemoryAclBackend := MkNode ∅ ∅ MemoryAclBackend_new [] None.

Section inproc.
Context {B R A : Type} `{StorageLaws B, RefBackend R, IoText, Ed25519, AclBackend A}.
Context {B2 R2 A2 : Type} `{StorageLaws B2, RefBackend R2, AclBackend A2}.
Context `{!ObjectCodec, Zstd}.
Abbreviation Self := (Node B R A).
Abbreviation Peer := (Node B2 R2 A2).

(** [self.sync_transfer(src, wants)]; the number of objects landed. *)
Definition sync_transfer (src : Peer) (wants : list ObjectId) : M Self nat :=
  have ← gets (λ n, have_set (n_store n));
  missing ← lift_res (missing_closure (n_store src) wants have);
  match missing with
  | [] => mret 0
  | _ :: _ =>
      pack ← lift_res (build_pack src missing);
      decoded ← lift_res (decode_pack pack);
      _ ← land decoded;
      mret (length decoded)
  end.

(** [advertise(from, accessor)] of this file: names and targets. *)
Definition head_step (from : Peer) (out : list (RefName * ObjectId)) (name : RefName) : res (list (RefName * ObjectId)) :=
  r ← get_ref (n_refs from) name;
  Ok (match r with
      | Some (RTimeline t) => out ++ [(name, head t)]
      | Some (RTag t) => out ++ [(name, tag_target t)]
      | None => out
      end).
Definition advertise_heads (from : Peer) (accessor : Accessor) : res (list (RefName * ObjectId)) :=
  names ← list_refs_served (node_repo from) "" accessor;
  res_fold (head_step from) [] names.

Definition tracked_head (remote_name : string) (e : RefName * ObjectId) : res (RefName * ObjectId) :=
  tracking ← tracking_ref remote_name e.1; Ok (tracking, e.2).
Definition fetch (remote_name : string) (from : Peer) (accessor : Accessor) : M Self (list (RefName * ObjectId)) :=
  adverts ← lift_res (advertise_heads from accessor);
  _ ← sync_transfer from adverts.*2;
  tracked ← lift_res (res_map (tracked_head remote_name) adverts);
  _ ← set_tracking tracked;
  mret tracked.

(** ** Push *)
Definition peer_nondeterministic_reason (registry : PolicyRegistry R2) : string :=
  "peer binds non-deterministic policy hook(s) [" +:+ join_names (non_deterministic registry) +:+
  "]; refusing replicated push (fail-closed)".

(** One turn of the first loop: a status that ends it, or a plan entry. *)
Definition plan_entry (remote_name : string) (self : Self) (to : Peer) (registry : PolicyRegistry R2)
    (lattice : LabelLattice) (rules : LabelRuleSet) (accessor : Accessor) (name : RefName) : res (PushStatus + PlanEntry) :=
  if reserved (as_str name) then Ok (inl (PushDenied "reserved ref namespace"))
  else
    local ← get_timeline (n_refs self) name;
    match local with
    | None => Ok (inl (PushDenied "no such local timeline"))
    | Some local =>
        if negb (can_write accessor (label_for_timeline rules lattice (as_str name)) (ResTimeline (as_str name)))
        then Ok (inl (PushDenied "write denied on timeline"))
        else if negb (deterministic registry) then Ok (inl (PushDenied (peer_nondeterministic_reason registry)))
        else
          tracking ← tracking_ref remote_name name;
          tag ← get_tag (n_refs self) tracking;
          let expected_old := tag_target <$> tag in
          remote ← get_timeline (n_refs to) name;
          match expected_old, remote with
          | Some old, Some remote =>
              anc ← find_common_ancestor (decoded (n_store to)) old (head local);
              if negb (bool_decide (policy remote = Unrestricted)) && negb (bool_decide (anc = Some old))
              then Ok (inl (PushNonFastForward (head remote)))
              else Ok (inr (MkEntry name (head local) expected_old tracking local))
          | _, _ => Ok (inr (MkEntry name (head local) expected_old tracking local))
          end
    end.
Definition plan_step (remote_name : string) (self : Self) (to : Peer) (registry : PolicyRegistry R2)
    (lattice : LabelLattice) (rules : LabelRuleSet) (accessor : Accessor) (acc : list RefResult * list PlanEntry) (name : RefName)
    : res (list RefResult * list PlanEntry) :=
  e ← plan_entry remote_name self to registry lattice rules accessor name;
  Ok (match e with
      | inl st => (acc.1 ++ [MkResult name st], acc.2)
      | inr entry => (acc.1, acc.2 ++ [entry])
      end).

(** One turn of the second loop: the hooks of the peer on an advance. *)
Definition gate_step (to : Peer) (registry : PolicyRegistry R2) (accessor : Accessor)
    (acc : list RefResult * list PlanEntry) (entry : PlanEntry) : res (list RefResult * list PlanEntry) :=
  remote ← get_timeline (n_refs to) (pe_name entry);
  Ok (match remote with
      | Some remote =>
          match evaluate_replayable registry
                  (MkContext (EvAdvance (pe_name entry) (head remote) (pe_head entry)) accessor (decoded (n_store to)) (n_refs to) 0) with
          | Allow => (acc.1, acc.2 ++ [entry])
          | Deny reason | RequiresApproval reason _ => (acc.1 ++ [MkResult (pe_name entry) (PushDenied reason)], acc.2)
          end
      | None => (acc.1, acc.2 ++ [entry])
      end).

Definition entry_op (e : PlanEntry) : RefOp :=
  match pe_old e with
  | Some old => AdvanceHeadIf (pe_name e) old (pe_head e)
  | None =>
      let t := pe_timeline e in
      CreateTimeline (pe_name e) (pe_head e) (policy t) (tl_created_at t) (tl_kind t) (expires_at t)
  end.
Definition entry_conflict (refs : R2) (e : PlanEntry) : res RefResult :=
  t ← get_timeline refs (pe_name e);
  Ok (MkResult (pe_name e) (PushNonFastForward (match t with Some t => head t | None => ObjectId_new (pad_vec 32 []) end))).

(** Computations on one of the two repositories. *)
Definition on_self {X} (m : M Self X) : M (Self * Peer) X := λ s, let '(r, n) := m s.1 in (r, (n, s.2)).
Definition on_peer {X} (m : M Peer X) : M (Self * Peer) X := λ s, let '(r, n) := m s.2 in (r, (s.1, n)).

Definition commit_plan (results : list RefResult) (plan : list PlanEntry) : M (Self * Peer) (list RefResult) := λ s,
  match on_peer (on_nrefs (commit_transaction (entry_op <$> plan))) s with
  | (Ok _, s') =>
      (_ ← on_self (set_tracking ((λ e, (pe_tracking e, pe_head e)) <$> plan));
       mret (results ++ ((λ e, MkResult (pe_name e) PushOk) <$> plan))) s'
  | (Err (TransactionConflict _), s') =>
      (entries ← res_map (entry_conflict (n_refs s'.2)) plan; Ok (results ++ entries), s')
  | (Err e, s') => (Err e, s')
  end.
End inproc.

Section push.
Context {B R A : Type} `{StorageLaws B, RefBackend R, IoText, Ed25519, AclBackend A}.
Context {B2 R2 A2 : Type} `{StorageLaws B2, RefBackend R2, AclBackend A2}.
Context `{!ObjectCodec, Zstd}.

Definition push (remote_name : string) (timelines : list RefName) (accessor : Accessor)
    : M (Node B R A * Node B2 R2 A2) (list RefResult) :=
  lattice ← gets (λ s, get_lattice (n_acls s.2));
  rules ← gets (λ s, get_label_ruleset (n_acls s.2));
  registry ← gets (λ s, policy_registry (node_repo s.2));
  '(results, plan) ← gets (λ s, res_fold (plan_step remote_name s.1 s.2 registry lattice rules accessor) ([], []) timelines);
  match plan with
  | [] => mret results
  | _ :: _ =>
      self ← gets (λ s, Ok s.1);
      _ ← on_peer (sync_transfer self (pe_head <$> plan));
      '(results, plan) ← gets (λ s, res_fold (gate_step s.2 registry accessor) (results, []) plan);
      match plan with [] => mret results | _ :: _ => commit_plan results plan end
  end.

(** ** Clone *)
Definition clone_step (from : Node B2 R2 A2) (ops : list RefOp) (name : RefName) : res (list RefOp) :=
  r ← get_ref (n_refs from) name;
  Ok (match r with
      | Some (RTimeline t) => ops ++ [CreateTimeline name (head t) (policy t) (tl_created_at t) (tl_kind t) (expires_at t)]
      | _ => ops
      end).
Definition clone_body (from : Node B2 R2 A2) (accessor : Accessor) : M (Node MemoryBackend MemoryRefBackend MemoryAclBackend) () :=
  _ ← fetch "origin" from accessor;
  names ← lift_res (list_refs_filtered (node_repo from) "" accessor);
  ops ← lift_res (res_fold (clone_step from) [] names);
  on_nrefs (commit_transaction ops).
Definition clone_from (from : Node B2 R2 A2) (accessor : Accessor) : res (Node MemoryBackend MemoryRefBackend MemoryAclBackend) :=
  match clone_body from accessor memory_node with (Ok _, n) => Ok n | (Err e, _) => Err e end.
End push.
