(* ===== verification/InprocFacts.v ===== *)
(** * InprocFacts: what the in-process engine does

    Theorems about [Inproc.v], the caller being an in-memory repository: a fetch that succeeds
    brings the whole stored closure of what the peer serves and records it under
    tracking refs, a second one transfers nothing, and one that fails moves
    no ref.  The pruning by the receiver's objects is only sound when the receiver's
    store is closed under edges; a run shows what happens when it is not.
    Over the wire a fetch ends, in every interleaving, as the in-process one does. *)

From S2P Require Import Prelude Bytes Graph Lattice Access Ids Text Objects Refs RefStore Signing Policy Authority Merge Store Pack Gc Acl Walk Repo Wire Session Sync SyncFacts SyncPush Inproc.

(** ** Transfers *)
Section transfer.
Context `{IoText, Ed25519, ObjectCodec, Zstd, !ZstdLaws}.
Context {R A : Type} `{RefBackend R, AclBackend A}.
Context {B2 R2 A2 : Type} `{StorageLaws B2, RefBackend R2, AclBackend A2}.
Abbreviation Self := (Node MemoryBackend R A).
Abbreviation Peer := (Node B2 R2 A2).
Implicit Types n : Self.
Implicit Types src : Peer.

(** The ids a receiver reports. *)
Definition held n : gset ObjectId := dom (n_store n).
Lemma have_set_memory n : have_set (n_store n) = Ok (held n).
Proof.
  unfold have_set, list_ids. simpl. unfold mb_list. f_equal. apply set_eq. intros x.
  rewrite elem_of_list_to_set, list_elem_of_fmap. unfold held. rewrite elem_of_dom. split.
  - intros ([y d] & -> & Hin%elem_of_map_to_list). eauto.
  - intros [d Hd]. exists (x, d). by rewrite elem_of_map_to_list.
Qed.

(** Every pack of [src] for [wants] stays within the caps. *)
Definition pack_within src (wants : list ObjectId) (have : gset ObjectId) : Prop :=
  ∀ missing, missing_closure (n_store src) wants have = Ok missing → pack_caps (pack_objs (sb_view (n_store src)) missing).

(** The store after the objects of some ids have come in. *)
Definition received (b : MemoryBackend) (V : gmap ObjectId bytes) (ids : list ObjectId) (b' : MemoryBackend) : Prop :=
  ∀ id, b' !! id = match b !! id with Some d => Some d | None => if decide (id ∈ ids) then V !! id else None end.

Lemma received_mono b V ids b' : received b V ids b' → b ⊆ b'.
Proof. intros Hr. apply map_subseteq_spec. intros id d Hd. by rewrite Hr, Hd. Qed.

Lemma land_received n src ids : addressed (n_store src) → (∀ id, id ∈ ids → id ∉ held n) →
  ∃ b, land (pack_objs (sb_view (n_store src)) ids) n = (Ok (), set_store b n) ∧ received (n_store n) (sb_view (n_store src)) ids b.
Proof.
  intros Ha Hn. destruct (land_memory (pack_objs (sb_view (n_store src)) ids) n) as (b & Hl & Hs & Hnew & Hall). exists b. split; [done|].
  assert (∀ id data, (id, data) ∈ pack_objs (sb_view (n_store src)) ids → id ∈ ids ∧ sb_view (n_store src) !! id = Some data ∧ object_id data = id) as Hp.
  { intros id data [? Hd]%elem_of_pack_objs. split; [done|]. split; [done|by apply Ha]. }
  intros id. destruct (n_store n !! id) as [d|] eqn:Hd; [by eapply lookup_weaken|].
  destruct (decide (id ∈ ids)) as [Hin|Hin].
  - destruct (sb_view (n_store src) !! id) as [data|] eqn:Hv.
    + assert ((id, data) ∈ pack_objs (sb_view (n_store src)) ids) as Ho by by apply elem_of_pack_objs.
      destruct (Hall _ Ho) as [d' Hd']. destruct (Hp _ _ Ho) as (_ & _ & Hid). cbn [snd] in Hd'. rewrite Hid in Hd'. rewrite Hd'.
      destruct (Hnew _ _ Hd') as [?|([id2 data2] & Ho2 & -> & Hid2)]; [congruence|]. cbn [snd] in *.
      destruct (Hp _ _ Ho2) as (_ & Hv2 & Hid3). congruence.
    + apply eq_None_not_Some. intros [d' Hd']. destruct (Hnew _ _ Hd') as [?|([id2 data2] & Ho2 & -> & Hid2)]; [congruence|].
      destruct (Hp _ _ Ho2) as (_ & Hv2 & Hid3). cbn [snd] in *. congruence.
  - apply eq_None_not_Some. intros [d' Hd']. destruct (Hnew _ _ Hd') as [?|([id2 data2] & Ho2 & -> & Hid2)]; [congruence|].
    destruct (Hp _ _ Ho2) as (Hin2 & _ & Hid3). cbn [snd] in *. congruence.
Qed.

Lemma transfer_spec n n' src wants r : sb_inv (n_store src) → addressed (n_store src) → pack_within src wants (held n) →
  sync_transfer src wants n = (r, n') →
  n' = set_store (n_store n') n ∧
  match r with
  | Ok _ => ∃ missing, missing_closure (n_store src) wants (held n) = Ok missing ∧
      received (n_store n) (sb_view (n_store src)) missing (n_store n')
  | Err _ => n_store n' = n_store n
  end.
Proof.
  intros Hi Ha Hcaps. assert (n = set_store (n_store n) n) as Hn by by destruct n.
  unfold sync_transfer. rewrite gets_bind, have_set_memory, lift_bind.
  destruct (missing_closure (n_store src) wants (held n)) as [missing|e] eqn:Hm; [|intros [= <- <-]; done].
  pose proof (missing_closure_spec (n_store src) Hi (held n) wants) as Hs. rewrite Hm in Hs. destruct Hs as [_ Hout].
  destruct missing as [|x missing].
  { intros [= <- <-]. split; [done|]. exists []. split; [done|]. intros id. by destruct (n_store n !! id). }
  rewrite lift_bind. destruct (build_pack src (x :: missing)) as [pack|e] eqn:Hb; [|intros [= <- <-]; done].
  destruct (build_pack_Ok src _ _ Hi Hb) as (entries & digest & Hf).
  rewrite lift_bind, (decode_finish _ _ _ _ (Hcaps _ Hm) Hf). unfold mbind, M_bind.
  destruct (land_received n src (x :: missing) Ha) as (b & -> & Hr); [intros id ?%Hout; tauto|].
  intros [= <- <-]. split; [done|]. by exists (x :: missing).
Qed.
End transfer.

(** ** Fetch *)
Section fetch.
Context `{IoText, Ed25519, ObjectCodec, Zstd, !ZstdLaws}.
Context {A : Type} `{AclBackend A}.
Context {B2 R2 A2 : Type} `{StorageLaws B2, RefBackendLaws R2, AclBackend A2}.
Abbreviation Self := (Node MemoryBackend MemoryRefBackend A).
Abbreviation Peer := (Node B2 R2 A2).
Implicit Types n : Self.
Implicit Types from : Peer.

Definition head_of (r : RefAdvert) : RefName * ObjectId := (ad_name r, ad_target r).
Lemma advertise_heads_advertise from a : advertise_heads from a =
  (l ← advertise from a; Ok (E := Error) (head_of <$> l : list (RefName * ObjectId))).
Proof.
  unfold advertise_heads, advertise. destruct (list_refs_served _ _ _) as [names|]; [|done]. cbn [mbind result_bind].
  change (@nil (RefName * ObjectId)) with (head_of <$> (@nil RefAdvert)) at 1. generalize (@nil RefAdvert) as out.
  induction names as [|name names IH]; intros out; [done|]. simpl. unfold head_step at 2, advert_step at 2.
  destruct (get_ref (n_refs from) name) as [[[t|t]|]|]; [| | |done]; cbn [mbind result_bind]; rewrite <- IH; by rewrite ?fmap_app.
Qed.

Lemma tracked_Ok remote l tracked : res_map (tracked_head remote) l = Ok tracked →
  Forall valid_name tracked.*1 ∧ (∀ t x, (t, x) ∈ tracked ↔ ∃ name, (name, x) ∈ l ∧ tracking_ref remote name = Ok t).
Proof.
  revert tracked. induction l as [|[name y] l IH]; intros tracked; simpl.
  { intros [= <-]. split; [constructor|]. intros t x. rewrite elem_of_nil. split; [done|]. by intros (? & ?%elem_of_nil & _). }
  rewrite bind_Ok. intros ([t0 x0] & Ht & Hl). apply bind_Ok in Hl as (tr & Htr & [= <-]).
  unfold tracked_head in Ht. apply bind_Ok in Ht as (t1 & Ht1 & [= -> ->]). simpl in Ht1.
  destruct (IH tr Htr) as [Hv Hin]. split; [constructor; [by apply tracking_ref_Ok in Ht1 as [? _]|done]|].
  intros t x. rewrite elem_of_cons, Hin. setoid_rewrite elem_of_cons. split.
  - intros [[= -> ->]|(m & ? & ?)]; eauto.
  - intros (m & [[= -> ->]|?] & Hm); [left|right; eauto]. by rewrite Ht1 in Hm; injection Hm as ->.
Qed.

(** What the receiver may lack: the closures of the refs the peer serves. *)
Definition closed_under from (have : gset ObjectId) : Prop :=
  ∀ x y, x ∈ have → links (decoded (n_store from)) x y → y ∈ have.
Definition agrees (b : MemoryBackend) from : Prop :=
  ∀ id d d', b !! id = Some d → sb_view (n_store from) !! id = Some d' → d = d'.

(** The peer's served closures are all here, and its refs tracked. *)
Record mirrored from (a : Accessor) (remote : string) n n' : Prop := {
  mi_objects id data : servable from a id → sb_view (n_store from) !! id = Some data → n_store n' !! id = Some data;
  mi_tracked names name v : list_refs_served (node_repo from) "" a = Ok names → name ∈ names → be_view (n_refs from) !! name = Some v →
    ∃ t, tracking_ref remote name = Ok t ∧ mem_view (n_refs n') !! t = Some (RTag (MkTag (ref_target v) 0 None));
  mi_others t : (∀ name, tracking_ref remote name ≠ Ok t) → mem_view (n_refs n') !! t = mem_view (n_refs n) !! t;
  mi_again adverts out : advertise_heads from a = Ok adverts → missing_closure (n_store from) adverts.*2 (held n') = Ok out → out = []
}.

Lemma heads_spec from a adverts : be_inv (n_refs from) → advertise_heads from a = Ok adverts →
  ∃ names, list_refs_served (node_repo from) "" a = Ok names ∧
    ∀ name x, (name, x) ∈ adverts ↔ ∃ v, name ∈ names ∧ be_view (n_refs from) !! name = Some v ∧ x = ref_target v.
Proof.
  intros Hi. rewrite advertise_heads_advertise, bind_Ok. intros (refs & Ha & [= <-]).
  destruct (advertise_spec from a refs Hi Ha) as (names & Hn & Hin). exists names. split; [done|]. intros name x.
  rewrite list_elem_of_fmap. split.
  - intros (r & [= -> ->] & (m & v & ? & ? & ->)%Hin). simpl. eauto.
  - intros (v & ? & ? & ->). exists (advert_of name v). split; [done|]. apply Hin. eauto.
Qed.

Lemma received_servable from a n b adverts missing : be_inv (n_refs from) → sb_inv (n_store from) →
  agrees (n_store n) from → closed_under from (held n) → advertise_heads from a = Ok adverts →
  missing_closure (n_store from) adverts.*2 (held n) = Ok missing →
  received (n_store n) (sb_view (n_store from)) missing b →
  ∀ id data, servable from a id → sb_view (n_store from) !! id = Some data → b !! id = Some data.
Proof.
  intros Hri Hsi Hag Hcl Ha Hm Hr id data (names & name & v & Hn & Hname & Hv & Hlinks) Hd.
  rewrite Hr. destruct (n_store n !! id) as [d|] eqn:Hid; [f_equal; by eapply Hag|]. rewrite decide_True; [done|].
  apply (missing_closure_closed (n_store from) Hsi (held n) adverts.*2 missing Hcl Hm).
  destruct (heads_spec from a adverts Hri Ha) as (names' & Hn' & Hin). split; [by apply not_elem_of_dom|]. split.
  - unfold decoded. rewrite lookup_fmap, Hd. by eexists.
  - exists (ref_target v). split; [|done]. apply list_elem_of_fmap. exists (name, ref_target v). split; [done|].
    apply Hin. exists v. split; [congruence|done].
Qed.

Lemma mirrored_intro from a remote n n' adverts missing tracked refs :
  be_inv (n_refs from) → sb_inv (n_store from) → agrees (n_store n) from → closed_under from (held n) →
  advertise_heads from a = Ok adverts → missing_closure (n_store from) adverts.*2 (held n) = Ok missing →
  received (n_store n) (sb_view (n_store from)) missing (n_store n') →
  res_map (tracked_head remote) adverts = Ok tracked → n_refs n' = refs → mem_view refs = tags tracked (mem_view (n_refs n)) →
  mirrored from a remote n n'.
Proof.
  intros Hri Hsi Hag Hcl Ha Hm Hr Ht <- Hrefs. destruct (tracked_Ok _ _ _ Ht) as [_ Htr].
  destruct (heads_spec from a adverts Hri Ha) as (names & Hn & Hin).
  pose proof (received_servable from a n (n_store n') adverts missing Hri Hsi Hag Hcl Ha Hm Hr) as Hobj. split; [done|..].
  - intros names' name v Hn' Hname Hv. assert (names' = names) as -> by congruence.
    assert ((name, ref_target v) ∈ adverts) as Had by (apply Hin; eauto).
    assert (∃ t, tracking_ref remote name = Ok t) as [t Htn].
    { clear -Ht Had. revert tracked Ht. induction adverts as [|[m y] l IH]; intros tracked; [by apply elem_of_nil in Had|].
      simpl. rewrite bind_Ok. intros ([t0 x0] & Ht & Hl). apply bind_Ok in Hl as (tr & Htr & _).
      apply elem_of_cons in Had as [[= <- <-]|Had]; [|by eapply IH]. apply bind_Ok in Ht as (t1 & Ht1 & _). by exists t1. }
    exists t. split; [done|]. rewrite Hrefs. apply tags_in; [apply Htr; eauto|]. intros y (m & Hm' & Htm)%Htr.
    assert (m = name) as -> by by eapply tracking_ref_inj. apply Hin in Hm' as (w & _ & Hw & ->). congruence.
  - intros t Hno. rewrite Hrefs. apply tags_other. intros ([t0 x] & -> & (m & _ & Htm)%Htr)%list_elem_of_fmap. by apply (Hno m).
  - intros adverts' out Ha' Hout. assert (adverts' = adverts) as -> by congruence. clear Ha'.
    pose proof (missing_closure_spec (n_store from) Hsi (held n') adverts.*2) as Hs. rewrite Hout in Hs. destruct Hs as [_ Hs].
    destruct out as [|x out]; [done|]. destruct (proj1 (Hs x) ltac:(left)) as (Hx & [o Ho] & w & Hw & Hp). destruct Hx.
    unfold decoded in Ho. rewrite lookup_fmap in Ho. apply fmap_Some in Ho as (data & Hd & _).
    apply elem_of_dom. exists data. apply Hobj; [|done].
    apply list_elem_of_fmap in Hw as ([name y] & -> & (v & ? & ? & ->)%Hin). exists names, name, v. split_and!; [done..|].
    eapply rtc_subrel; [|exact Hp]. by intros ? ? [_ ?].
Qed.

Lemma fetch_spec n n' from remote a r :
  mem_ok (n_refs n) → be_inv (n_refs from) → sb_inv (n_store from) → addressed (n_store from) →
  agrees (n_store n) from → closed_under from (held n) →
  (∀ adverts, advertise_heads from a = Ok adverts → pack_within from adverts.*2 (held n)) →
  fetch remote from a n = (r, n') →
  n_acls n' = n_acls n ∧ n_hooks n' = n_hooks n ∧ n_store n ⊆ n_store n' ∧ mem_ok (n_refs n') ∧
  match r with Ok _ => mirrored from a remote n n' | Err _ => n_refs n' = n_refs n end.
Proof.
  intros Hi Hri Hsi Had Hag Hcl Hcaps. unfold fetch. rewrite lift_bind.
  destruct (advertise_heads from a) as [adverts|e] eqn:Ha; [|intros [= <- <-]; done].
  destruct (sync_transfer from adverts.*2 n) as [rt n1] eqn:Ht. unfold mbind, M_bind. rewrite Ht.
  destruct (transfer_spec n n1 from _ rt Hsi Had (Hcaps _ eq_refl) Ht) as [Hn1 Hrt].
  destruct rt as [k|e].
  2: { intros [= <- <-]. rewrite Hn1. cbn [n_acls n_hooks n_store n_refs set_store]. rewrite Hrt. done. }
  destruct Hrt as (missing & Hm & Hr). apply received_mono in Hr as Hsub. unfold lift_res.
  destruct (res_map (tracked_head remote) adverts) as [tracked|e] eqn:Htr.
  2: { intros [= <- <-]. rewrite Hn1. done. }
  destruct (set_tracking_memory n1 tracked) as (refs & -> & Hok & Hview); [by rewrite Hn1|by eapply tracked_Ok|].
  intros [= <- <-]. rewrite Hn1. cbn [n_acls n_hooks n_store n_refs set_store set_nrefs]. split_and!; [done..|].
  eapply (mirrored_intro from a remote n _ adverts missing tracked refs); try done. rewrite Hview, Hn1. done.
Qed.

(** A fetch from any peer whose store is content-addressed, into an in-memory repository that
    agrees with it and is closed under edges, when the pack stays within the caps. If it
    succeeds, every object that a served ref reaches is here with the peer's bytes, the peer's
    refs are recorded under refs/remotes, no other ref changed, and a second fetch has nothing to
    transfer. If it fails no ref changed at all. Either way objects only came in
    addition, and access rules and hooks are as before. *)
Theorem fetch_mirrors n n' from (remote : string) (a : Accessor) (r : res (list (RefName * ObjectId))) :
  mem_ok (n_refs n) → be_inv (n_refs from) → sb_inv (n_store from) → addressed (n_store from) →
  agrees (n_store n) from → closed_under from (held n) →
  (∀ adverts, advertise_heads from a = Ok adverts → pack_within from adverts.*2 (held n)) →
  fetch remote from a n = (r, n') →
  n_acls n' = n_acls n ∧ n_hooks n' = n_hooks n ∧ n_store n ⊆ n_store n' ∧ mem_ok (n_refs n') ∧
  match r with Ok _ => mirrored from a remote n n' | Err _ => n_refs n' = n_refs n end.
Proof. apply fetch_spec. Qed.
End fetch.

(** ** Over the wire *)
Section wire.
Context `{IoText, Ed25519, ObjectCodec, Zstd, !ZstdLaws}.
Context {B R A : Type} `{StorageLaws B, RefBackend R, AclBackend A}.
Context {B2 R2 A2 : Type} `{StorageLaws B2, RefBackend R2, AclBackend A2}.
Abbreviation Self := (Node B R A).
Abbreviation Peer := (Node B2 R2 A2).
Implicit Types n : Self.
Implicit Types from : Peer.

Lemma empty_pack from pack : build_pack from [] = Ok pack → decode_pack pack = Ok [].
Proof.
  unfold build_pack. cbn [res_fold]. rewrite bind_Ok. intros (b & [= <-] & Hf).
  apply bind_Ok in Hf as ([[pack' entries] digest] & Hf & [= <-]). eapply decode_finish; [|exact Hf].
  split; [constructor|]. split; vm_compute; discriminate.
Qed.
Lemma build_empty from : ∃ pack, build_pack from [] = Ok pack.
Proof. by eexists. Qed.

Lemma tracked_heads remote refs : res_map (tracked_head remote) (head_of <$> refs) = res_map (tracked_advert remote) refs.
Proof. induction refs as [|r refs IH]; [done|]. rewrite fmap_cons. cbn [res_map]. by rewrite IH. Qed.

(** The in-process fetch with the transfer of nothing done like any other. *)
Lemma fetch_unfold n from remote a : fetch remote from a n =
  match advertise from a with
  | Err e => (Err e, n)
  | Ok refs =>
      match list_ids (n_store n) with
      | Err e => (Err e, n)
      | Ok have =>
          match missing_closure (n_store from) (ad_target <$> refs) (list_to_set have) with
          | Err e => (Err e, n)
          | Ok missing =>
              match build_pack from missing with
              | Err e => (Err e, n)
              | Ok pack =>
                  match decode_pack pack with
                  | Err e => (Err e, n)
                  | Ok objs =>
                      match land objs n with
                      | (Err e, n1) => (Err e, n1)
                      | (Ok _, n1) =>
                          match res_map (tracked_advert remote) refs with
                          | Err e => (Err e, n1)
                          | Ok tracked =>
                              match set_tracking tracked n1 with
                              | (Ok _, n2) => (Ok tracked, n2)
                              | (Err e, n2) => (Err e, n2)
                              end
                          end
                      end
                  end
              end
          end
      end
  end.
Proof.
  unfold fetch. rewrite lift_bind, advertise_heads_advertise. destruct (advertise from a) as [refs|e]; [|done]. cbn [mbind result_bind].
  unfold sync_transfer, mbind at 1, M_bind at 1. rewrite gets_bind. unfold have_set.
  destruct (list_ids (n_store n)) as [have|e]; [|done]. cbn [mbind result_bind]. rewrite lift_bind, <- list_fmap_compose.
  change (snd ∘ head_of) with ad_target. destruct (missing_closure _ _ _) as [missing|e]; [|done]. destruct missing as [|x missing].
  - destruct (build_empty from) as [pack Hp]. rewrite Hp, (empty_pack from pack Hp). cbn [land M_iter]. unfold mret, M_ret.
    rewrite lift_bind, tracked_heads. destruct (res_map _ _) as [tracked|e]; [|done]. unfold mbind, M_bind. by destruct (set_tracking _ _) as [[]].
  - rewrite lift_bind. destruct (build_pack from _) as [pack|e]; [|done]. rewrite lift_bind. destruct (decode_pack pack) as [objs|e]; [|done].
    unfold mbind at 1, M_bind at 1. destruct (land objs n) as [[[]|e] n1]; [|done]. unfold mret at 1, M_ret at 1.
    rewrite lift_bind, tracked_heads. destruct (res_map _ _) as [tracked|e]; [|done]. unfold mbind, M_bind. by destruct (set_tracking _ _) as [[]].
Qed.

(** A fetch session's end. *)
Definition fetch_outcome n from remote a (d : Conf Self (list (RefName * ObjectId)) Peer ()) : Prop :=
  s_state d = from ∧
  match fetch remote from a n with
  | (Ok tracked, n') => c_proc d = PRet (Ok tracked) ∧ c_state d = n'
  | (Err _, n') => (∃ e, c_proc d = PRet (Err e)) ∧ c_state d = n'
  end.

Lemma fetch_runs remote a n from : ends (fetch_outcome n from remote a) (MkConf (client_fetch remote) n (serve a) from [] []).
Proof.
  unfold fetch_outcome. rewrite fetch_unfold. unfold client_fetch, serve, recv_welcome, serve_fetch, send_closure, gets, lift_res.
  repeat next_step. destruct (advertise from a) as [refs|e]; [|run_session; eauto].
  repeat next_step. destruct (list_ids (n_store n)) as [have|e]; [|run_session; eauto].
  assert (filter (λ w, w ∈ (list_to_set (ad_target <$> refs) : gset ObjectId)) (ad_target <$> refs) = ad_target <$> refs) as Hw.
  { apply filter_all. intros w ?. by apply elem_of_list_to_set. }
  repeat next_step. rewrite Hw. clear Hw.
  destruct (missing_closure _ _ _) as [missing|e]; [|run_session; eauto].
  repeat next_step. cbn. destruct (build_pack from missing) as [pack|e]; [|run_session; eauto].
  repeat next_step. cbn. destruct (decode_pack pack) as [objs|e]; [|run_session; eauto].
  repeat next_step. cbn. destruct (land objs n) as [[[]|e] n1]; [|run_session; eauto].
  repeat next_step. cbn. destruct (res_map _ _) as [tracked|e]; [|run_session; eauto].
  repeat next_step. cbn. destruct (set_tracking tracked n1) as [[[]|e] n2]; run_session; eauto.
Qed.

(** [C18] Over the wire a fetch is the in-process one: in every interleaving of the initiator
    and the responder, over any backends, the session ends with both sides returned; the
    serving repository is as it was, and the fetching one is in the state, and has
    recorded the tracking refs, that the in-process [fetch] gives; it fails exactly when that one
    fails. *)
Theorem session_fetch_agrees remote a n from d :
  rtc cstep (MkConf (client_fetch remote) n (serve a) from [] []) d → final d →
  returned (c_proc d) ∧ returned (s_proc d) ∧ fetch_outcome n from remote a d.
Proof. apply ends_final, fetch_runs. Qed.
End wire.

(** ** On concrete data *)
#[local] Existing Instance demo_io_text.
#[local] Existing Instance toy_ed25519.
#[local] Existing Instance toy_zstd.
#[local] Existing Instance toy_zstd_laws.
#[local] Existing Instance ex_sync_codec.

Definition ex_empty_node : Node MemoryBackend MemoryRefBackend MemoryAclBackend := MkNode ∅ ∅ ex_acls [] None.
Definition ex_fetched : Node MemoryBackend MemoryRefBackend MemoryAclBackend := (fetch "origin" ex_server accessor_new ex_empty_node).2.
Definition ex_origin_main : RefName := MkRefName "refs/remotes/origin/main".

Lemma ex_server_addressed : addressed (n_store ex_server).
Proof.
  intros x data Hx. cbn [n_store ex_server sb_view mem_StorageLaws] in Hx.
  repeat (apply lookup_insert_Some in Hx as [[<- <-]|[_ Hx]]; [reflexivity|]). apply lookup_singleton_Some in Hx as [<- <-]. reflexivity.
Qed.
Lemma ex_advertised : advertise_heads ex_server accessor_new = Ok [(ex_main, ex_id x01)].
Proof. apply (bool_decide_unpack _). vm_compute. exact I. Qed.
Lemma ex_missing : missing_closure (n_store ex_server) [ex_id x01] (held ex_empty_node) = Ok [ex_id x01; ex_id x11; ex_id x21].
Proof. apply (bool_decide_unpack _). vm_compute. exact I. Qed.
Lemma ex_pack_within adverts : advertise_heads ex_server accessor_new = Ok adverts → pack_within ex_server adverts.*2 (held ex_empty_node).
Proof.
  rewrite ex_advertised. intros [= <-] missing Hm. assert (Ok (E := Error) missing = Ok [ex_id x01; ex_id x11; ex_id x21]) as [= ->] by (rewrite <- Hm; exact ex_missing).
  split; [|split; vm_compute; discriminate].
  repeat constructor; vm_compute; (reflexivity || discriminate).
Qed.

Lemma fetch_mirrors_witness : n_store ex_fetched !! ex_id x21 = Some [x21] ∧
  mem_view (n_refs ex_fetched) !! ex_origin_main = Some (RTag (MkTag (ex_id x01) 0 None)).
Proof.
  assert (fetch "origin" ex_server accessor_new ex_empty_node = (Ok [(ex_origin_main, ex_id x01)], ex_fetched)) as Hf.
  { assert ((fetch "origin" ex_server accessor_new ex_empty_node).1 = Ok [(ex_origin_main, ex_id x01)]) as <-
      by (apply (bool_decide_unpack _); vm_compute; exact I). apply surjective_pairing. }
  assert (be_inv (n_refs ex_server)) as Hi by exact ex_refs_ok. assert (sb_inv (n_store ex_server)) as Hsi by exact I.
  assert (mem_ok (n_refs ex_empty_node)) as He by (intros k r Hk; cbn in Hk; by rewrite lookup_empty in Hk).
  assert (agrees (n_store ex_empty_node) ex_server) as Hag by (intros id d d' Hd; cbn in Hd; by rewrite lookup_empty in Hd).
  assert (closed_under ex_server (held ex_empty_node)) as Hcl by (intros x y Hx; unfold held in Hx; apply elem_of_dom in Hx as [d Hd]; cbn in Hd; by rewrite lookup_empty in Hd).
  destruct (fetch_mirrors ex_empty_node ex_fetched ex_server "origin" accessor_new _ He Hi Hsi ex_server_addressed Hag Hcl ex_pack_within Hf)
    as (_ & _ & _ & _ & Hm).
  destruct (heads_spec ex_server accessor_new _ Hi ex_advertised) as (names & Hn & Hin).
  destruct (proj1 (Hin ex_main (ex_id x01)) ltac:(left)) as (v & Hname & Hv & Hx). split.
  - apply (mi_objects _ _ _ _ _ Hm); [|reflexivity]. exists names, ex_main, v. split; [exact Hn|]. split; [exact Hname|]. split; [exact Hv|].
    rewrite <- Hx. apply (rtc_l _ _ (ex_id x11)).
    + apply links_needs. apply (needs_root _ (ex_id x01) (MkSnapshot (ex_id x11) [] "" 0 "")). reflexivity.
    + apply rtc_once, links_needs. apply (needs_entry _ (ex_id x11) (MkTree {[ "a" := MkTreeEntry (ex_id x21) KindBlob ]}) "a" (MkTreeEntry (ex_id x21) KindBlob)); reflexivity.
  - destruct (mi_tracked _ _ _ _ _ Hm names ex_main v Hn Hname Hv) as (t & Ht & Htag). rewrite <- Hx in Htag.
    assert (tracking_ref "origin" ex_main = Ok ex_origin_main) as Ht' by reflexivity. rewrite Ht' in Ht. injection Ht as <-. exact Htag.
Defined.

Lemma session_fetch_agrees_witness : ∃ d,
  crun 100 (MkConf (client_fetch "origin") ex_empty_node (serve accessor_new) ex_server [] []) = Some d ∧
  c_state d = ex_fetched ∧ s_state d = ex_server.
Proof.
  destruct (crun 100 (MkConf (client_fetch "origin") ex_empty_node (serve accessor_new) ex_server [] [])) as [d|] eqn:Hd.
  2: { exfalso. assert (bool_decide (is_Some (crun 100 (MkConf (client_fetch "origin") ex_empty_node (serve accessor_new) ex_server [] []))) = true) as Hs
         by (vm_compute; reflexivity). rewrite Hd in Hs. discriminate Hs. }
  destruct (crun_rtc _ _ _ Hd) as [Hr Hf]. exists d. split; [reflexivity|].
  destruct (session_fetch_agrees "origin" accessor_new ex_empty_node ex_server d Hr Hf) as (_ & _ & Hs & Hc).
  destruct (fetch "origin" ex_server accessor_new ex_empty_node) as [r n'] eqn:Hx.
  assert (ex_fetched = n') as -> by (unfold ex_fetched; rewrite Hx; reflexivity).
  split; [|exact Hs]. destruct r; exact (proj2 Hc).
Defined.

(** *** A receiver with a hole

    A commit without its tree counts as held, so the walk stops there: fetching
    succeeds, moves the tracking ref to that commit and leaves the hole, any number of
    times. *)
Definition ex_holed : Node MemoryBackend MemoryRefBackend MemoryAclBackend := MkNode {[ ex_id x01 := [x01] ]} ∅ ex_acls [] None.
Definition ex_refetched : Node MemoryBackend MemoryRefBackend MemoryAclBackend := (fetch "origin" ex_server accessor_new ex_holed).2.

Lemma fetch_keeps_hole :
  (fetch "origin" ex_server accessor_new ex_holed).1 = Ok [(ex_origin_main, ex_id x01)] ∧
  n_store ex_refetched !! ex_id x11 = None ∧
  n_store (fetch "origin" ex_server accessor_new ex_refetched).2 = n_store ex_refetched ∧
  ¬ complete (decoded (n_store ex_refetched)) (ex_id x01).
Proof.
  do 3 (split; [apply (bool_decide_unpack _); vm_compute; exact I|]). intros Hc. destruct (Hc (ex_id x11)) as [obj Hobj].
  - apply rtc_once, links_needs. apply (needs_root _ (ex_id x01) (MkSnapshot (ex_id x11) [] "" 0 "")).
    apply (bool_decide_unpack _). vm_compute. exact I.
  - assert (decoded (n_store ex_refetched) !! ex_id x11 = None) as Hn by (apply (bool_decide_unpack _); vm_compute; exact I).
    rewrite Hn in Hobj. discriminate Hobj.
Qed.
