(* ===== verification/InprocPush.v ===== *)
(** * InprocPush: the in-process push

    Theorems about [push] of [Inproc.v] between two in-memory repositories: which refs of the
    peer it moves, under which checks, and what its report says.  The
    fast-forward gate reads the peer's store before the new objects are there; a run
    shows a forward push it refuses and the wire session accepts. *)

From S2P Require Import Prelude Bytes Graph Lattice Access Ids Text Objects Refs RefStore Signing Policy Authority Merge Store Pack Gc Acl Walk Repo Wire Session Sync SyncFacts SyncPush Inproc InprocFacts.

Section push.
Context `{IoText, Ed25519, ObjectCodec, Zstd, !ZstdLaws}.
Context {A : Type} `{AclLaws A}.
Context {A2 : Type} `{AclLaws A2}.
Abbreviation Self := (Node MemoryBackend MemoryRefBackend A).
Abbreviation Peer := (Node MemoryBackend MemoryRefBackend A2).
Implicit Types self : Self.
Implicit Types to : Peer.

(** What a planned entry has passed; [to] is the peer before anything was transferred. *)
Record planned (remote : string) self to (a : Accessor) (e : PlanEntry) : Prop := {
  pl_namespace : reserved (as_str (pe_name e)) = false;
  pl_local : get_timeline (n_refs self) (pe_name e) = Ok (Some (pe_timeline e));
  pl_head : pe_head e = head (pe_timeline e);
  pl_tracking : tracking_ref remote (pe_name e) = Ok (pe_tracking e);
  pl_labels : ∃ L rs, get_lattice (n_acls to) = Ok L ∧ get_label_ruleset (n_acls to) = Ok rs ∧
    can_write a (label_for_timeline rs L (as_str (pe_name e))) (ResTimeline (as_str (pe_name e))) = true;
  pl_forward t old : n_refs to !! as_str (pe_name e) = Some (RTimeline t) → policy t ≠ Unrestricted →
    pe_old e = Some old → rtc (parent_of (decoded (n_store to))) (pe_head e) old
}.

Lemma plan_entry_inr remote self to reg L rs a name e : get_lattice (n_acls to) = Ok L → get_label_ruleset (n_acls to) = Ok rs →
  plan_entry remote self to reg L rs a name = Ok (inr e) → pe_name e = name ∧ planned remote self to a e ∧ deterministic reg = true.
Proof.
  intros HL Hrs. unfold plan_entry. destruct (reserved _) eqn:Hres; [done|]. rewrite bind_Ok. intros ([local|] & Hl & Hp); [|done].
  destruct (can_write _ _ _) eqn:Hw; [|done]. cbn [negb] in Hp. destruct (deterministic reg) eqn:Hd; [|done]. cbn [negb] in Hp.
  apply bind_Ok in Hp as (tr & Htr & Hp). apply bind_Ok in Hp as (tag & _ & Hp). apply bind_Ok in Hp as (cur & Hcur & Hp).
  assert (∀ t, n_refs to !! as_str name = Some (RTimeline t) → cur = Some t) as Hview.
  { intros t Ht. unfold get_timeline in Hcur. simpl in Hcur. unfold mem_get in Hcur. rewrite Ht in Hcur. by injection Hcur as <-. }
  destruct (tag_target <$> tag) as [old|] eqn:Hold; [destruct cur as [t|]|].
  - apply bind_Ok in Hp as (anc & Hanc & Hp). destruct (_ && _) eqn:Hff; [done|]. injection Hp as <-.
    split; [done|]. split; [|done]. split; try done; cbn [pe_name pe_head pe_old]; [eauto|].
    intros t' old' Ht' Hpol [= <-]. specialize (Hview t' Ht'). simplify_eq.
    rewrite bool_decide_false in Hff by done. cbn [negb andb] in Hff. case_bool_decide as Ha; [|done]. subst anc.
    pose proof (find_common_ancestor_spec (decoded (n_store to)) old (head local)) as Hs. rewrite Hanc in Hs. by destruct Hs.
  - injection Hp as <-. split; [done|]. split; [|done]. split; try done; cbn [pe_name pe_head pe_old]; [eauto|].
    intros t' old' Ht'. by specialize (Hview t' Ht').
  - injection Hp as <-. split; [done|]. split; [|done]. split; try done. eauto.
Qed.

(** The first loop never reports success. *)
Lemma plan_entry_not_ok remote self to reg L rs a name : plan_entry remote self to reg L rs a name ≠ Ok (inl PushOk).
Proof.
  unfold plan_entry. destruct (reserved _); [done|]. intros ([local|] & _ & Hp)%bind_Ok; [|done].
  destruct (can_write _ _ _); [|done]. cbn [negb] in Hp. destruct (deterministic reg); [|done]. cbn [negb] in Hp.
  apply bind_Ok in Hp as (tr & _ & Hp). apply bind_Ok in Hp as (tag & _ & Hp). apply bind_Ok in Hp as (cur & _ & Hp).
  destruct (tag_target <$> tag), cur; try done. apply bind_Ok in Hp as (anc & _ & Hp). by destruct (_ && _).
Qed.

Lemma plan_fold remote self to reg L rs a names : get_lattice (n_acls to) = Ok L → get_label_ruleset (n_acls to) = Ok rs →
  ∀ acc acc', res_fold (plan_step remote self to reg L rs a) acc names = Ok acc' →
  (∀ e, e ∈ acc'.2 → e ∈ acc.2 ∨ (pe_name e ∈ names ∧ planned remote self to a e ∧ deterministic reg = true)) ∧
  (∀ name, MkResult name PushOk ∈ acc'.1 → MkResult name PushOk ∈ acc.1).
Proof.
  intros HL Hrs. induction names as [|name names IH]; intros acc acc'; cbn [res_fold]; [intros [= <-]; split; [by left|done]|].
  rewrite bind_Ok. intros (acc1 & Hs & Hf). unfold plan_step in Hs. apply bind_Ok in Hs as (c & Hc & [= <-]).
  destruct (IH _ _ Hf) as [He Hok]. split.
  - intros e [Hin|[Hin Hp]]%He; [|right; split; [by right|done]]. destruct c as [st|entry]; simpl in Hin; [by left|].
    apply elem_of_app in Hin as [?| ->%list_elem_of_singleton]; [by left|].
    apply plan_entry_inr in Hc as (<- & ? & ?); [|done..]. right. split; [left|done].
  - intros m Hm%Hok. destruct c as [st|entry]; simpl in Hm; [|done]. apply elem_of_app in Hm as [?|Hm%list_elem_of_singleton]; [done|].
    injection Hm as <- <-. by apply plan_entry_not_ok in Hc.
Qed.

(** The hooks of the peer let an entry through, over the peer's store with the new objects. *)
Definition gate_allows to (reg : PolicyRegistry MemoryRefBackend) (a : Accessor) (e : PlanEntry) : Prop :=
  ∀ t, n_refs to !! as_str (pe_name e) = Some (RTimeline t) → ∀ h, h ∈ hooks reg →
    hook_check h (MkContext (EvAdvance (pe_name e) (head t) (pe_head e)) a (decoded (n_store to)) (n_refs to) 0) = Allow.

Lemma gate_fold to reg a entries : ∀ acc acc', res_fold (gate_step to reg a) acc entries = Ok acc' →
  (∀ e, e ∈ acc'.2 → e ∈ acc.2 ∨ (e ∈ entries ∧ gate_allows to reg a e)) ∧
  (∀ name, MkResult name PushOk ∈ acc'.1 → MkResult name PushOk ∈ acc.1).
Proof.
  induction entries as [|entry entries IH]; intros acc acc'; cbn [res_fold]; [intros [= <-]; split; [by left|done]|].
  rewrite bind_Ok. intros (acc1 & Hs & Hf). unfold gate_step in Hs. apply bind_Ok in Hs as (cur & Hcur & [= <-]).
  destruct (IH _ _ Hf) as [He Hok].
  assert (∀ t, n_refs to !! as_str (pe_name entry) = Some (RTimeline t) → cur = Some t) as Hview.
  { intros t Ht. unfold get_timeline in Hcur. simpl in Hcur. unfold mem_get in Hcur. rewrite Ht in Hcur. by injection Hcur as <-. }
  assert (∀ st : list RefResult * list PlanEntry, st = (acc.1, acc.2 ++ [entry]) → gate_allows to reg a entry →
    (∀ e, e ∈ st.2 → e ∈ acc.2 ∨ (e ∈ entry :: entries ∧ gate_allows to reg a e))) as Hallow.
  { intros st -> Hg e [?|Hin%list_elem_of_singleton]%elem_of_app; [by left|right]. subst e. split; [left|done]. }
  destruct cur as [t|].
  - destruct (evaluate_replayable reg _) eqn:Hev.
    2, 3: split; [intros e [?|[? ?]]%He; [by left|right; split; [by right|done]]|];
      intros name [?|Hn%list_elem_of_singleton]%Hok%elem_of_app; done.
    split; [|exact Hok]. intros e [Hin|[? ?]]%He; [|right; split; [by right|done]].
    apply (Hallow _ eq_refl); [|done]. intros t' Ht'. specialize (Hview t' Ht'). injection Hview as <-.
    by apply evaluate_Allow, evaluate_replayable_Allow.
  - split; [|exact Hok]. intros e [Hin|[? ?]]%He; [|right; split; [by right|done]].
    apply (Hallow _ eq_refl); [|done]. intros t' Ht'. by specialize (Hview t' Ht').
Qed.

Lemma entry_op_head e : head_op (entry_op e) ∧ op_name (entry_op e) = pe_name e ∧ op_head (entry_op e) = pe_head e.
Proof. unfold entry_op. by destruct (pe_old e). Qed.
Lemma entry_ops_head l : Forall head_op (entry_op <$> l).
Proof. apply Forall_fmap, Forall_forall. intros e _. apply entry_op_head. Qed.

Lemma transfer_grows (n n' : Peer) (src : Self) wants r : sync_transfer src wants n = (r, n') →
  n' = set_store (n_store n') n ∧ n_store n ⊆ n_store n'.
Proof.
  assert (n = set_store (n_store n) n) as Hn by by destruct n.
  unfold sync_transfer. rewrite gets_bind. destruct (have_set (n_store n)) as [have|e]; [|intros [= <- <-]; done].
  rewrite lift_bind. destruct (missing_closure _ _ _) as [[|x missing]|e]; [intros [= <- <-]; done| |intros [= <- <-]; done].
  rewrite lift_bind. destruct (build_pack _ _) as [pack|e]; [|intros [= <- <-]; done].
  rewrite lift_bind. destruct (decode_pack _) as [objs|e]; [|intros [= <- <-]; done]. unfold mbind, M_bind.
  destruct (land_memory objs n) as (b & -> & Hs & _). intros [= <- <-]. done.
Qed.

(** An accepted entry of a push to [to] that has [st] as its store when the refs move. *)
Definition accepted (remote : string) (timelines : list RefName) self to (st : MemoryBackend) (a : Accessor) (e : PlanEntry) : Prop :=
  pe_name e ∈ timelines ∧ planned remote self to a e ∧
  ∃ reg, policy_registry (node_repo to) = Ok reg ∧ deterministic reg = true ∧ gate_allows (set_store st to) reg a e.

(** The peer's refs before and after. *)
Definition peer_moved (P : PlanEntry → Prop) to to' name : Prop :=
  ∃ e t', P e ∧ pe_name e = name ∧ mem_view (n_refs to') !! name = Some (RTimeline t') ∧ head t' = pe_head e ∧
    match mem_view (n_refs to) !! name with
    | None => t' = pe_timeline e
    | Some (RTimeline t) => t' = with_head t (head t') ∧ (policy t ≠ Unrestricted → rtc (parent_of (decoded (n_store to))) (head t') (head t))
    | Some (RTag _) => False
    end.

Lemma plan_moved remote timelines self to st a plan m : mem_ok (n_refs to) →
  (∀ e, e ∈ plan → accepted remote timelines self to st a e) →
  ops_spec (mem_view (n_refs to)) (entry_op <$> plan) = Ok m → ∀ to', mem_view (n_refs to') = m → ∀ name,
  mem_view (n_refs to') !! name = mem_view (n_refs to) !! name ∨ peer_moved (accepted remote timelines self to st a) to to' name.
Proof.
  intros Hi Hall Hops to' Hm name. unfold peer_moved. rewrite Hm.
  destruct (head_ops_moved _ _ m name (entry_ops_head plan) Hops) as [?|(op & t' & Hin & Hn & Ht' & Hh & Hb)]; [by left|right].
  apply list_elem_of_fmap in Hin as (e & -> & Hin). destruct (entry_op_head e) as (_ & Hn' & Hh'). exists e, t'.
  assert (pe_name e = name) as Hname by congruence. split_and!; [by apply Hall|done|done|congruence|].
  destruct (mem_view (n_refs to) !! name) as [[|t]|] eqn:Hv; [done| |].
  - split; [done|]. intros Hp. refine (head_ops_heads (rtc _) _ _ _ name t t' (entry_ops_head plan) _ Hops Hv Ht').
    intros old h (e' & He' & Hin')%list_elem_of_fmap. destruct (Hall e' Hin') as (_ & Hpl & _). unfold entry_op in He'.
    destruct (pe_old e') eqn:Hold; [|done]. injection He' as -> -> ->. apply (pl_forward _ _ _ _ _ Hpl t); [|done..].
    by rewrite <- mem_view_lookup.
  - destruct Hb as (c & tc & (e' & -> & Hin')%list_elem_of_fmap & Hnc & Hc & ->). unfold entry_op in Hc.
    destruct (Hall e' Hin') as (_ & Hpl' & _). destruct (Hall e Hin) as (_ & Hpl & _).
    assert (pe_name e' = name) as Hname' by (destruct (entry_op_head e') as (_ & <- & _); done).
    pose proof (pl_local _ _ _ _ _ Hpl) as Hl. pose proof (pl_local _ _ _ _ _ Hpl') as Hl'. rewrite Hname in Hl. rewrite Hname', Hl in Hl'.
    injection Hl' as Hl'. destruct (pe_old e'); [done|]. injection Hc as <-. rewrite Hh, Hh', (pl_head _ _ _ _ _ Hpl), <- Hl'.
    by destruct (pe_timeline e).
Qed.

(** What a push did. *)
Record push_done (remote : string) (timelines : list RefName) (a : Accessor) self to self' to' (r : res (list RefResult)) : Prop := {
  pd_self : n_store self' = n_store self ∧ n_acls self' = n_acls self ∧ n_hooks self' = n_hooks self;
  pd_to : n_acls to' = n_acls to ∧ n_hooks to' = n_hooks to ∧ n_store to ⊆ n_store to';
  pd_refs name : mem_view (n_refs to') !! name = mem_view (n_refs to) !! name ∨
    peer_moved (accepted remote timelines self to (n_store to') a) to to' name;
  pd_tracking t : mem_view (n_refs self') !! t = mem_view (n_refs self) !! t ∨
    ∃ e, accepted remote timelines self to (n_store to') a e ∧ t = pe_tracking e ∧
      mem_view (n_refs self') !! t = Some (RTag (MkTag (pe_head e) 0 None)) ∧
      ∃ t', mem_view (n_refs to') !! pe_name e = Some (RTimeline t') ∧ head t' = pe_head e;
  pd_report results name : r = Ok results → MkResult name PushOk ∈ results →
    ∃ e t', accepted remote timelines self to (n_store to') a e ∧ pe_name e = name ∧
      mem_view (n_refs to') !! name = Some (RTimeline t') ∧ head t' = pe_head e ∧
      mem_view (n_refs self') !! pe_tracking e = Some (RTag (MkTag (pe_head e) 0 None))
}.

Lemma push_done_same remote timelines a self to b r : n_store to ⊆ b →
  (∀ results name, r = Ok results → MkResult name PushOk ∉ results) →
  push_done remote timelines a self to self (set_store b to) r.
Proof. intros Hs Hr. split; try done; [by left..|]. intros results name Hres Hin. by destruct (Hr results name Hres). Qed.

(** All entries of one name carry the same head and tracking ref, so after a commit
    every entry describes the peer's ref. *)
Lemma accepted_same remote timelines self to st a e e' : accepted remote timelines self to st a e →
  accepted remote timelines self to st a e' → pe_name e = pe_name e' ∨ pe_tracking e = pe_tracking e' →
  pe_name e = pe_name e' ∧ pe_head e = pe_head e' ∧ pe_tracking e = pe_tracking e'.
Proof.
  intros (_ & Hp & _) (_ & Hp' & _) Hor. destruct Hp as [_ Hl Hh Ht _ _], Hp' as [_ Hl' Hh' Ht' _ _].
  assert (pe_name e = pe_name e') as Hn.
  { destruct Hor as [?|Heq]; [done|]. rewrite <- Heq in Ht'. by eapply tracking_ref_inj. }
  rewrite Hn in Hl, Ht. rewrite Hl in Hl'. rewrite Ht in Ht'. split; [done|]. split; congruence.
Qed.

Lemma ops_last name h ops (m m' : gmap RefName Ref) : Forall head_op ops → (∀ op, op ∈ ops → op_name op = name → op_head op = h) →
  ops_spec m ops = Ok m' → (∃ op, op ∈ ops ∧ op_name op = name) ∨ (∃ t, m !! name = Some (RTimeline t) ∧ head t = h) →
  ∃ t, m' !! name = Some (RTimeline t) ∧ head t = h.
Proof.
  intros Hh. revert m. induction Hh as [|op ops Hop _ IH]; intros m Hsame.
  { intros [= <-] [(op & ?%elem_of_nil & _)|?]; done. }
  unfold ops_spec. cbn [res_fold]. rewrite bind_Ok. intros (m1 & Hs & Hl) Hor.
  apply head_op_effect in Hs as (Hne & t1 & Ht1 & Hh1 & _); [|done].
  apply (IH m1); [intros op' ?; apply Hsame; by right|done|].
  destruct (decide (name = op_name op)) as [->|Hn]; [right; exists t1; split; [done|]; rewrite Hh1; apply Hsame; [left|done]|].
  rewrite (Hne name Hn). destruct Hor as [(op' & [->|?]%elem_of_cons & Ho)|?]; [done|left; by exists op'|by right].
Qed.

Lemma commit_plan_spec remote timelines self to b a results plan r self' to' : mem_ok (n_refs self) → mem_ok (n_refs to) → n_store to ⊆ b →
  (∀ e, e ∈ plan → accepted remote timelines self to b a e) → (∀ name, MkResult name PushOk ∉ results) →
  commit_plan results plan (self, set_store b to) = (r, (self', to')) →
  push_done remote timelines a self to self' to' r.
Proof.
  intros His Hit Hsub Hall Hno. unfold commit_plan, on_peer, on_nrefs. cbn [fst snd n_refs set_store].
  assert (Forall (λ op, valid_name (op_name op)) (entry_op <$> plan)) as Hnames.
  { apply Forall_fmap, Forall_forall. intros e He. destruct (entry_op_head e) as (_ & Hn & _). unfold compose. rewrite Hn.
    pose proof (pl_local _ _ _ _ _ (proj1 (proj2 (Hall e He)))) as Hl.
    unfold get_timeline in Hl. simpl in Hl. unfold mem_get in Hl. destruct (n_refs self !! as_str (pe_name e)) as [v|] eqn:Hv; [|done].
    assert (be_view (n_refs self) !! pe_name e = Some v) as Hbv by (simpl; by rewrite mem_view_lookup).
    exact (be_view_valid _ _ _ His Hbv). }
  pose proof (commit_memory_spec (n_refs to) _ Hit Hnames) as Hc. destruct (ops_spec _ _) as [m|e] eqn:Hops.
  2: { rewrite Hc. assert (set_nrefs (n_refs to) (set_store b to) = set_store b to) as -> by by destruct to.
       destruct e; intros [= <- <- <-]; apply push_done_same; try done. intros res name Hr Hin.
       apply bind_Ok in Hr as (entries & He & [= <-]). apply elem_of_app in Hin as [?|Hin]; [by eapply Hno|].
       clear -He Hin. revert entries He Hin. induction plan as [|e plan IH]; intros entries; simpl; [intros [= <-]; apply not_elem_of_nil|].
       rewrite bind_Ok. intros (x & Hx & He). apply bind_Ok in He as (xs & Hxs & [= <-]). unfold entry_conflict in Hx.
       apply bind_Ok in Hx as (t & _ & [= <-]). intros [?|?]%elem_of_cons; [done|]. by eapply IH. }
  destruct Hc as (refs & -> & Hview & _). cbn [fst snd]. unfold on_self, mbind, M_bind. cbn [fst].
  destruct (set_tracking_memory self ((λ e, (pe_tracking e, pe_head e)) <$> plan)) as (srefs & -> & _ & Hsv); [done| |].
  { rewrite <- list_fmap_compose. apply Forall_fmap, Forall_forall. intros e He. unfold compose. simpl.
    pose proof (pl_tracking _ _ _ _ _ (proj1 (proj2 (Hall e He)))) as Ht. by apply tracking_ref_Ok in Ht as [? _]. }
  cbn [fst snd]. intros [= <- <- <-].
  assert (∀ e, e ∈ plan → ∃ t', mem_view refs !! pe_name e = Some (RTimeline t') ∧ head t' = pe_head e) as Hheads.
  { intros e He. rewrite Hview. eapply ops_last; [apply entry_ops_head| |exact Hops|].
    - intros op (e' & -> & He')%list_elem_of_fmap Hn. destruct (entry_op_head e') as (_ & Hn' & ->).
      destruct (accepted_same remote timelines self to b a e' e (Hall e' He') (Hall e He)) as (_ & ? & _); [left; congruence|done].
    - left. exists (entry_op e). split; [apply list_elem_of_fmap; eauto|apply entry_op_head]. }
  assert (∀ e, e ∈ plan → mem_view srefs !! pe_tracking e = Some (RTag (MkTag (pe_head e) 0 None))) as Htr.
  { intros e He. rewrite Hsv. apply tags_in; [apply list_elem_of_fmap; eauto|].
    intros y (e' & [= Ht ->] & He')%list_elem_of_fmap.
    destruct (accepted_same remote timelines self to b a e' e (Hall e' He') (Hall e He)) as (_ & ? & _); [by right|done]. }
  split; try done; cbn [n_refs n_store set_nrefs set_store].
  - intros name. by apply (plan_moved remote timelines self to b a plan m Hit Hall Hops (set_nrefs refs (set_store b to)) Hview).
  - intros t. destruct (decide (t ∈ pe_tracking <$> plan)) as [(e & -> & He)%list_elem_of_fmap|Ht].
    + right. exists e. split; [by apply Hall|]. split; [done|]. split; [by apply Htr|by apply Hheads].
    + left. rewrite Hsv. apply tags_other. by rewrite <- list_fmap_compose.
  - intros res name [= <-] [?|(e & [= ->] & He)%list_elem_of_fmap]%elem_of_app; [by destruct (Hno name)|].
    destruct (Hheads e He) as (t' & ? & ?). exists e, t'. split; [by apply Hall|]. split; [done|]. split; [done|]. split; [done|by apply Htr].
Qed.

(** [C21] What the in-process push does, between two in-memory repositories. It changes nothing of
    the caller but tracking refs, and on the peer it only adds objects and moves refs. A ref of
    the peer moves only when a listed timeline of the caller has that name, outside the reserved
    namespaces, the accessor may write its label on the peer, no hook of the peer is
    non-deterministic and, where the peer has that timeline already, all hooks allow the move
    (no hook is asked about a timeline the peer does not have); it becomes the caller's head,
    keeping the peer's policy, or is created as the caller has it. A protected timeline only
    moves to a head which the objects the peer had before the transfer show to descend from the
    old one. Whatever is reported as pushed is the peer's head, and the tracking ref says so. *)
Theorem push_confined self to self' to' (remote : string) (timelines : list RefName) (a : Accessor) (r : res (list RefResult)) :
  mem_ok (n_refs self) → mem_ok (n_refs to) →
  push remote timelines a (self, to) = (r, (self', to')) →
  push_done remote timelines a self to self' to' r.
Proof.
  intros His Hit. assert (to = set_store (n_store to) to) as Hto by by destruct to.
  assert (∀ r' : res (list RefResult), (∀ results name, r' = Ok results → MkResult name PushOk ∉ results) →
    (r', (self, to)) = (r, (self', to')) → push_done remote timelines a self to self' to' r) as Hsame.
  { intros r' Hr [= <- <- <-]. rewrite Hto at 2. by apply push_done_same. }
  unfold push. rewrite gets_bind. cbn [snd]. destruct (get_lattice _) as [L|e] eqn:HL; [|by apply Hsame].
  rewrite gets_bind. cbn [snd]. destruct (get_label_ruleset _) as [rs|e] eqn:Hrs; [|by apply Hsame].
  rewrite gets_bind. cbn [snd]. destruct (policy_registry _) as [reg|e] eqn:Hreg; [|by apply Hsame].
  rewrite gets_bind. cbn [fst snd]. destruct (res_fold _ _ _) as [[results plan]|e] eqn:Hf; [|by apply Hsame].
  destruct (plan_fold _ _ _ _ _ _ _ _ HL Hrs _ _ Hf) as [Hplan Hno]. cbn [fst snd] in *.
  assert (∀ name, MkResult name PushOk ∉ results) as Hno1 by (intros name Hin%Hno; by apply elem_of_nil in Hin).
  destruct plan as [|e0 plan]; [apply Hsame; by intros ? ? [= <-]|].
  rewrite gets_bind. cbn [fst]. unfold on_peer at 1, mbind at 1, M_bind at 1. cbn [fst snd].
  destruct (sync_transfer self _ to) as [rt to1] eqn:Ht. apply transfer_grows in Ht as [Hto1 Hsub]. rewrite Hto1.
  destruct rt as [k|e]; [|intros [= <- <- <-]; by apply push_done_same].
  rewrite gets_bind. cbn [snd]. destruct (res_fold _ _ (e0 :: plan)) as [[results2 plan2]|e] eqn:Hg; [|intros [= <- <- <-]; by apply push_done_same].
  destruct (gate_fold _ _ _ _ _ _ Hg) as [Hgate Hno2]. cbn [fst snd] in *.
  assert (∀ name, MkResult name PushOk ∉ results2) as Hno3 by (intros name Hin%Hno2; by apply Hno1 in Hin).
  destruct plan2 as [|e1 plan2]; [intros [= <- <- <-]; apply push_done_same; [done|by intros ? ? [= <-]]|].
  apply commit_plan_spec; try done. intros e He. destruct (Hgate e He) as [?%elem_of_nil|[Hin Hga]]; [done|].
  destruct (Hplan e Hin) as [?%elem_of_nil|(Hn & Hp & Hd)]; [done|]. split; [done|]. split; [done|]. by exists reg.
Qed.
End push.

(** ** On concrete data *)
#[local] Existing Instance demo_io_text.
#[local] Existing Instance toy_ed25519.
#[local] Existing Instance toy_zstd.
#[local] Existing Instance toy_zstd_laws.
#[local] Existing Instance ex_sync_codec.

(** The client has committed [x02] on top of the [x01] that it fetched. *)
Definition ex_tracking : RefName := MkRefName "refs/remotes/origin/main".
Definition ex_pusher (p : TimelinePolicy) : Node MemoryBackend MemoryRefBackend MemoryAclBackend :=
  MkNode (n_store ex_client)
    {[ "main" := RTimeline (MkTimeline (ex_id x02) p 0 "persistent" None);
       "refs/remotes/origin/main" := RTag (MkTag (ex_id x01) 0 None) ]} ex_acls [] None.
Definition ex_peer (p : TimelinePolicy) : Node MemoryBackend MemoryRefBackend MemoryAclBackend :=
  MkNode (n_store ex_server) {[ "main" := RTimeline (MkTimeline (ex_id x01) p 0 "persistent" None) ]} ex_acls [] None.
Definition ex_inproc (p : TimelinePolicy) := push "origin" [ex_main] ex_writer (ex_pusher p, ex_peer p).
Definition ex_wire (p : TimelinePolicy) : option (Conf (Node MemoryBackend MemoryRefBackend MemoryAclBackend) (list RefStatusEntry) (Node MemoryBackend MemoryRefBackend MemoryAclBackend) ()) :=
  crun 100 (MkConf (client_push "origin" [ex_main]) (ex_pusher p) (serve ex_writer) (ex_peer p) [] []).
Definition head_at (n : Node MemoryBackend MemoryRefBackend MemoryAclBackend) : option ObjectId :=
  match n_refs n !! "main" with Some (RTimeline t) => Some (head t) | _ => None end.

Definition ex_wire_result (p : TimelinePolicy) : option (res (list RefStatusEntry)) * option ObjectId :=
  match ex_wire p with
  | Some d => (match c_proc d with PRet r => Some r | _ => None end, head_at (s_state d))
  | None => (None, None)
  end.

(** A forward push of a fast-forward-only timeline: the wire session moves the peer's head; the
    in-process push reports a conflict, because the peer cannot see the ancestry
    of a commit that has not been transferred; it goes through only without the protection. *)
Lemma inproc_refuses_forward :
  (ex_inproc FastForwardOnly).1 = Ok [MkResult ex_main (PushNonFastForward (ex_id x01))] ∧
  head_at (ex_inproc FastForwardOnly).2.2 = Some (ex_id x01) ∧
  ex_wire_result FastForwardOnly = (Some (Ok [MkStatus ex_main StatusOk]), Some (ex_id x02)) ∧
  (ex_inproc Unrestricted).1 = Ok [MkResult ex_main PushOk] ∧ head_at (ex_inproc Unrestricted).2.2 = Some (ex_id x02).
Proof. split_and!; apply (bool_decide_unpack _); vm_compute; exact I. Qed.

Lemma ex_nodes_ok p : mem_ok (n_refs (ex_pusher p)) ∧ mem_ok (n_refs (ex_peer p)).
Proof.
  split; intros k r Hk; cbn [n_refs ex_pusher ex_peer] in Hk.
  - apply lookup_insert_Some in Hk as [[<- _]|[_ Hk]]; [reflexivity|]. apply lookup_singleton_Some in Hk as [<- _]. reflexivity.
  - apply lookup_singleton_Some in Hk as [<- _]. reflexivity.
Qed.

Lemma push_confined_witness : ∃ e t', pe_name e = ex_main ∧
  mem_view (n_refs (ex_inproc Unrestricted).2.2) !! ex_main = Some (RTimeline t') ∧ head t' = pe_head e ∧
  mem_view (n_refs (ex_inproc Unrestricted).2.1) !! pe_tracking e = Some (RTag (MkTag (pe_head e) 0 None)).
Proof.
  assert (ex_inproc Unrestricted = ((ex_inproc Unrestricted).1, ((ex_inproc Unrestricted).2.1, (ex_inproc Unrestricted).2.2))) as Hp
    by (destruct (ex_inproc Unrestricted) as [r [s t]]; reflexivity).
  assert ((ex_inproc Unrestricted).1 = Ok [MkResult ex_main PushOk]) as Hr by (apply (bool_decide_unpack _); vm_compute; exact I).
  pose proof (push_confined (ex_pusher Unrestricted) (ex_peer Unrestricted) _ _ "origin" [ex_main] ex_writer _
    (proj1 (ex_nodes_ok Unrestricted)) (proj2 (ex_nodes_ok Unrestricted)) Hp) as Hd.
  destruct (pd_report _ _ _ _ _ _ _ _ Hd _ ex_main Hr) as (e & t' & _ & Hn & Ht' & Hh & Htr); [left|].
  exists e, t'. split; [exact Hn|]. split; [exact Ht'|]. split; [exact Hh|exact Htr].
Defined.
