(* ===== verification/PushSession.v ===== *)
(** * PushSession: a push over the wire, both sides

    The session of [client_push] with [serve] of [Sync.v], in every interleaving.  It ends, also
    where one side hangs up and a send of the other fails; how it ends is the composition of
    what the two sides compute ([push_outcome]); and between in-memory repositories both agree
    on it: a ref of the server moves just when the client learns so and records it. *)

From S2P Require Import Prelude Bytes Graph Lattice Access Ids Text Objects Refs RefStore Signing Policy Authority Merge Store Pack Gc Acl Walk Repo Wire Session Sync SyncFacts SyncPush Inproc InprocFacts InprocPush.

(** ** How the session ends *)
Section outcome.
Context `{IoText, Ed25519, ObjectCodec, Zstd}.
Context {B R A : Type} `{StorageLaws B, RefBackend R, AclBackend A}.
Context {B2 R2 A2 : Type} `{StorageLaws B2, RefBackend R2, AclBackend A2}.
Abbreviation Self := (Node B R A).
Abbreviation Peer := (Node B2 R2 A2).
Implicit Types self : Self.
Implicit Types peer : Peer.

(** What the client offers after the adverts [refs]: its updates, and a pack of what they need. *)
Definition offer (remote : string) (timelines : list RefName) self (refs : list RefAdvert) : res (bytes * list RefUpdateOp) :=
  ops ← res_fold (push_plan_step self remote) [] timelines;
  missing ← missing_closure (n_store self) (up_new_head <$> ops) (list_to_set (ad_target <$> refs));
  pack ← build_pack self missing;
  Ok (pack, ops).
(** What the server makes of an offer. *)
Definition apply_offer (a : Accessor) (pack : bytes) (ops : list RefUpdateOp) : M Peer (list RefStatusEntry) :=
  objs ← lift_res (decode_pack pack);
  if negb (has_write_capability a) then mret (denied "no write capability" <$> ops)
  else _ ← land objs; apply_push_ops a ops.

Definition failed {X} (p : Proc Self X) : Prop := ∃ e, p = PRet (Err e).
Definition push_outcome (remote : string) (timelines : list RefName) (a : Accessor) self peer
    (d : Conf Self (list RefStatusEntry) Peer ()) : Prop :=
  match advertise peer a with
  | Err _ => s_state d = peer ∧ c_state d = self ∧ failed (c_proc d)
  | Ok refs =>
      match offer remote timelines self refs with
      | Err _ => s_state d = peer ∧ c_state d = self ∧ failed (c_proc d)
      | Ok (pack, ops) =>
          s_state d = (apply_offer a pack ops peer).2 ∧
          match (apply_offer a pack ops peer).1 with
          | Err _ => c_state d = self ∧ failed (c_proc d)
          | Ok results =>
              match accepted_tracking remote ops results with
              | Err _ => c_state d = self ∧ failed (c_proc d)
              | Ok tracked =>
                  c_state d = (set_tracking tracked self).2 ∧
                  match (set_tracking tracked self).1 with Ok _ => c_proc d = PRet (Ok results) | Err _ => failed (c_proc d) end
              end
          end
      end
  end.

Lemma push_ends remote timelines a self peer :
  ends (push_outcome remote timelines a self peer) (MkConf (client_push remote timelines) self (serve a) peer [] []).
Proof.
  unfold push_outcome, offer, apply_offer, failed. unfold client_push, serve, recv_welcome, serve_push, gets, lift_res.
  repeat next_step. destruct (advertise peer a) as [refs|e]; [|run_session; eauto].
  repeat next_step. destruct (res_fold _ [] timelines) as [ops|e]; [|run_session; eauto].
  repeat next_step. cbn. destruct (missing_closure _ _ _) as [missing|e]; [|run_session; eauto].
  repeat next_step. cbn. destruct (build_pack self missing) as [pack|e]; [|run_session; eauto].
  repeat next_step. cbn. unfold mbind, M_bind. destruct (decode_pack pack) as [objs|e]; [|run_session; eauto].
  repeat next_step. cbn. destruct (has_write_capability a); cbn [negb].
  - repeat next_step. cbn. destruct (land objs peer) as [[[]|e] peer1]; [|run_session; eauto].
    repeat next_step. cbn. destruct (apply_push_ops a ops peer1) as [[results|e] peer2]; [|run_session; eauto].
    repeat next_step. cbn. destruct (accepted_tracking remote ops results) as [tracked|e]; [|run_session; eauto].
    repeat next_step. cbn. destruct (set_tracking tracked self) as [[[]|e] self']; run_session; eauto.
  - repeat next_step. cbn. destruct (accepted_tracking remote ops _) as [tracked|e]; [|run_session; eauto].
    repeat next_step. cbn. destruct (set_tracking tracked self) as [[[]|e] self']; run_session; eauto.
Qed.
End outcome.

(** ** What the two sides compute, in memory *)
Section memory.
Context `{IoText, Ed25519, ObjectCodec, Zstd}.
Context {A : Type} `{AclLaws A}.
Context {A2 : Type} `{AclLaws A2}.
Abbreviation Self := (Node MemoryBackend MemoryRefBackend A).
Abbreviation Peer := (Node MemoryBackend MemoryRefBackend A2).
Implicit Types self : Self.
Implicit Types peer : Peer.

(** The update of a local timeline. *)
Definition updates (remote : string) self (name : RefName) (op : RefUpdateOp) : Prop :=
  up_name op = name ∧ ∃ t tr, mem_view (n_refs self) !! name = Some (RTimeline t) ∧ up_new_head op = head t ∧ tracking_ref remote name = Ok tr.

Lemma offer_updates remote timelines self refs pack ops : offer remote timelines self refs = Ok (pack, ops) →
  (∀ op, op ∈ ops → up_name op ∈ timelines ∧ updates remote self (up_name op) op) ∧
  ∀ name t, name ∈ timelines → mem_view (n_refs self) !! name = Some (RTimeline t) → ∃ op, op ∈ ops ∧ up_name op = name.
Proof.
  unfold offer. rewrite bind_Ok. intros (ops' & Hf & Hr). apply bind_Ok in Hr as (missing & _ & Hr).
  apply bind_Ok in Hr as (p & _ & [= _ ->]).
  assert (∀ out out' name, push_plan_step self remote out name = Ok out' →
    (∀ op, op ∈ out' → op ∈ out ∨ updates remote self name op) ∧ out ⊆ out' ∧
    ∀ t, mem_view (n_refs self) !! name = Some (RTimeline t) → ∃ op, op ∈ out' ∧ up_name op = name) as Hstep.
  { intros out out' name. unfold push_plan_step, get_timeline. cbn. unfold mem_get. rewrite mem_view_lookup.
    destruct (n_refs self !! as_str name) as [[tag|t]|] eqn:Hv; cbn; [done| |intros [= <-]; split; [by left|by split]].
    rewrite bind_Ok. intros (tr & Htr & Hs). apply bind_Ok in Hs as (tag & _ & [= <-]). split_and!.
    - intros op [?| ->%list_elem_of_singleton]%elem_of_app; [by left|right]. split; [done|]. exists t, tr. by rewrite mem_view_lookup.
    - intros op ?. apply elem_of_app. by left.
    - intros t' [= ->]. eexists. split; [apply elem_of_app; right; by apply list_elem_of_singleton|done]. }
  assert (∀ out ops, res_fold (push_plan_step self remote) out timelines = Ok ops →
    (∀ op, op ∈ ops → op ∈ out ∨ (up_name op ∈ timelines ∧ updates remote self (up_name op) op)) ∧ out ⊆ ops ∧
    ∀ name t, name ∈ timelines → mem_view (n_refs self) !! name = Some (RTimeline t) → ∃ op, op ∈ ops ∧ up_name op = name) as Hall.
  { clear Hf. induction timelines as [|name l IH]; intros out ops0; cbn [res_fold].
    { intros [= <-]. split; [by left|]. split; [done|]. by intros ? ? ?%elem_of_nil. }
    rewrite bind_Ok. intros (out1 & Hs & Hf). destruct (Hstep _ _ _ Hs) as (Hu1 & Hsub1 & Hn1).
    destruct (IH _ _ Hf) as (Hu2 & Hsub2 & Hn2). split_and!; [|by etrans|].
    - intros op [Hop|[? ?]]%Hu2; [|right; split; [by right|done]]. destruct (Hu1 op Hop) as [?|Hu]; [by left|right].
      assert (up_name op = name) as Hn by apply Hu. rewrite Hn. split; [left|by destruct Hu].
    - intros name' t [->|Hin]%elem_of_cons Hv; [|by eapply Hn2]. destruct (Hn1 t Hv) as (op & Hop & ?). exists op. split; [by apply Hsub2|done]. }
  destruct (Hall _ _ Hf) as (Hu1 & _ & Hu2). split; [|done]. intros op [?%elem_of_nil|?]%Hu1; done.
Qed.

Lemma check_push_op_refuses (n : Peer) reg L rs a op : check_push_op n reg L rs a op ≠ Ok (Some StatusOk).
Proof.
  unfold check_push_op. destruct (reserved _); [done|]. destruct (negb _); [done|].
  intros (obj & _ & Hc)%bind_Ok. destruct obj as [[]|]; try done. apply bind_Ok in Hc as ([] & _ & Hc); [|done]. cbn [negb] in Hc.
  apply bind_Ok in Hc as (cur & _ & Hc). apply bind_Ok in Hc as (ff & Hff & [= Hc]). destruct ff as [st|].
  - injection Hc as ->. unfold ff_gate in Hff. destruct (up_expected_old op), cur; try done.
    apply bind_Ok in Hff as (anc & _ & Hff). by destruct (_ && _).
  - unfold hook_gate in Hc. destruct cur; [|done]. by destruct (evaluate_replayable _ _).
Qed.

(** Every update of the batch is reported or accepted, and no refusal reads as a success. *)
Lemma push_fold_reports (n : Peer) reg L rs a ops : ∀ acc acc', res_fold (push_op_step n reg L rs a) acc ops = Ok acc' →
  acc.1 ⊆ acc'.1 ∧ acc.2 ⊆ acc'.2 ∧ (∀ name, MkStatus name StatusOk ∈ acc'.1 → MkStatus name StatusOk ∈ acc.1) ∧
  ∀ op, op ∈ ops → op ∈ acc'.2 ∨ ∃ st, MkStatus (up_name op) st ∈ acc'.1.
Proof.
  induction ops as [|op ops IH]; intros acc acc'; cbn [res_fold].
  { intros [= <-]. split_and!; try done. by intros op ?%elem_of_nil. }
  rewrite bind_Ok. intros (acc1 & Hs & Hf). unfold push_op_step in Hs. apply bind_Ok in Hs as (c & Hc & [= <-]).
  destruct (IH _ _ Hf) as (Hs1 & Hs2 & Hok & Hall). destruct c as [st|]; cbn [fst snd] in *.
  - split_and!; [set_solver|done| |].
    + intros name [?|[= -> <-]%list_elem_of_singleton]%Hok%elem_of_app; [done|]. by apply check_push_op_refuses in Hc.
    + intros o [->|Ho]%elem_of_cons; [right; exists st; apply Hs1; set_solver|by apply Hall].
  - split_and!; [done|set_solver|done|]. intros o [->|Ho]%elem_of_cons; [left; apply Hs2; set_solver|by apply Hall].
Qed.

(** What [apply_push_ops] reports is what became of the refs. *)
Lemma apply_push_ops_report (n n' : Peer) a ops r : mem_ok (n_refs n) → Forall (valid_name ∘ up_name) ops →
  (∀ op op', op ∈ ops → op' ∈ ops → up_name op = up_name op' → up_new_head op = up_new_head op') →
  apply_push_ops a ops n = (r, n') →
  n_store n' = n_store n ∧ n_acls n' = n_acls n ∧ n_hooks n' = n_hooks n ∧
  match r with
  | Err _ => n_refs n' = n_refs n
  | Ok results =>
      (∀ op, op ∈ ops → ∃ st, MkStatus (up_name op) st ∈ results) ∧
      (∀ name, MkStatus name StatusOk ∉ results → mem_view (n_refs n') !! name = mem_view (n_refs n) !! name) ∧
      ∀ name, MkStatus name StatusOk ∈ results → ∃ op t', op ∈ ops ∧ up_name op = name ∧ complete (decoded (n_store n)) (up_new_head op) ∧
        mem_view (n_refs n') !! name = Some (RTimeline t') ∧ head t' = up_new_head op
  end.
Proof.
  intros Hi Hv Hsame. unfold apply_push_ops. rewrite gets_bind. destruct (get_lattice _) as [L|] eqn:HL; [|by intros [= <- <-]].
  rewrite gets_bind. destruct (get_label_ruleset _) as [rs|] eqn:Hrs; [|by intros [= <- <-]]. rewrite gets_bind.
  destruct (policy_registry _) as [reg|] eqn:Hreg; [|by intros [= <- <-]].
  assert (∀ results : list RefStatusEntry, (∀ op, op ∈ ops → ∃ st, MkStatus (up_name op) st ∈ results) → (∀ name, MkStatus name StatusOk ∉ results) →
    (∀ op, op ∈ ops → ∃ st, MkStatus (up_name op) st ∈ results) ∧
    (∀ name, MkStatus name StatusOk ∉ results → mem_view (n_refs n) !! name = mem_view (n_refs n) !! name) ∧
    ∀ name, MkStatus name StatusOk ∈ results → ∃ op t', op ∈ ops ∧ up_name op = name ∧ complete (decoded (n_store n)) (up_new_head op) ∧
      mem_view (n_refs n) !! name = Some (RTimeline t') ∧ head t' = up_new_head op) as Hno.
  { intros results Ha Hn. split; [done|]. split; [done|]. intros name Hin. by destruct (Hn name). }
  destruct (deterministic reg) eqn:Hdet; cbn [negb].
  2: { intros [= <- <-]. do 3 (split; [done|]). apply Hno.
    - intros op Ho. eexists. apply list_elem_of_fmap. exists op. split; [reflexivity|done].
    - intros name (op & [=] & _)%list_elem_of_fmap. }
  rewrite gets_bind. destruct (res_fold _ _ _) as [[results acc]|] eqn:Hf; [|by intros [= <- <-]].
  destruct (push_fold_reports _ _ _ _ _ _ _ _ Hf) as (_ & _ & Hok & Hall).
  pose proof (push_ops_fold _ _ _ _ _ _ _ _ Hf) as Hacc. cbn [fst snd] in *.
  assert (∀ name, MkStatus name StatusOk ∉ results) as Hnok by (intros name Hin%Hok; by apply elem_of_nil in Hin).
  destruct acc as [|op0 acc].
  { intros [= <- <-]. do 3 (split; [done|]). apply Hno; [|done]. intros op [?%elem_of_nil|?]%Hall; done. }
  revert Hacc Hall. generalize (op0 :: acc). clear op0 acc Hf. intros acc Hacc Hall. unfold commit_push, on_nrefs.
  assert (acc ⊆ ops ∧ ∀ op, op ∈ acc → push_allowed n a op) as [Hsub Hallowed].
  { split; intros op Ho; destruct (Hacc op Ho) as [?%elem_of_nil|[? Hc]]; try done.
    rewrite Forall_forall in Hv. apply (check_push_op_None n reg L rs); try done. by apply Hv. }
  assert (Forall (λ op, valid_name (op_name op)) (push_ref_op <$> acc)) as Hnames.
  { apply Forall_fmap, Forall_forall. intros op Ho. rewrite Forall_forall in Hv. specialize (Hv op (Hsub op Ho)).
    destruct (push_op_head op) as (_ & Hn & _). cbn. by rewrite Hn. }
  pose proof (commit_memory_spec (n_refs n) _ Hi Hnames) as Hm. cbn. destruct (ops_spec _ _) as [m|e] eqn:Hops.
  - destruct Hm as (refs & Hm & Hview & _). rewrite Hm. intros [= <- <-]. do 3 (split; [done|]). split_and!; cbn [n_refs set_nrefs].
    + intros op Ho. destruct (Hall op Ho) as [Hin|[st Hin]]; [exists StatusOk|exists st]; apply elem_of_app; [right|by left].
      apply list_elem_of_fmap. by exists op.
    + intros name Hn. rewrite Hview. destruct (push_ops_moved acc _ _ name Hops) as [?|(op & t' & Hin & Hop & _)]; [done|].
      destruct Hn. apply elem_of_app. right. apply list_elem_of_fmap. exists op. by rewrite Hop.
    + intros name [?%Hnok|(op & [= ->] & Hin)%list_elem_of_fmap]%elem_of_app; [done|].
      assert (∃ t', m !! up_name op = Some (RTimeline t') ∧ head t' = up_new_head op) as (t' & Ht' & Hh).
      { eapply ops_last; [apply push_ops_head| |exact Hops|].
        - intros rop (op' & -> & Hin')%list_elem_of_fmap Hn. destruct (push_op_head op') as (_ & Hn' & ->).
          apply Hsame; [by apply Hsub..|congruence].
        - left. exists (push_ref_op op). split; [apply list_elem_of_fmap; by exists op|apply push_op_head]. }
      exists op, t'. rewrite Hview. split_and!; [by apply Hsub|done|apply (pa_complete _ _ _ (Hallowed op Hin))|done|done].
  - rewrite Hm. destruct e; try by intros [= <- <-]. cbn [n_refs set_nrefs].
    destruct (res_map _ acc) as [entries|e] eqn:He; intros [= <- <-]; (do 3 (split; [done|])); [|done]. apply Hno.
    + intros op Ho. destruct (Hall op Ho) as [Hin|[st Hin]]; [|exists st; apply elem_of_app; by left].
      apply res_map_Ok in He. apply list_elem_of_lookup in Hin as [k Hk]. destruct (Forall2_lookup_l _ _ _ _ _ He Hk) as (en & Hen & Hc).
      unfold conflict_entry in Hc. apply bind_Ok in Hc as (t & _ & [= <-]). eexists. apply elem_of_app. right.
      by eapply list_elem_of_lookup_2.
    + intros name [?%Hnok|Hin]%elem_of_app; [done|]. apply res_map_Ok in He. apply list_elem_of_lookup in Hin as [k Hk].
      destruct (Forall2_lookup_r _ _ _ _ _ He Hk) as (op & _ & Hc). unfold conflict_entry in Hc. by apply bind_Ok in Hc as (t & _ & [=]).
Qed.

(** The client learns the tracking ref of every update that was accepted. *)
Definition learns (remote : string) (ops : list RefUpdateOp) (entry : RefStatusEntry) (e : RefName * ObjectId) : Prop :=
  rs_status entry = StatusOk ∧ ∃ op, op ∈ ops ∧ up_name op = rs_name entry ∧
    tracking_ref remote (rs_name entry) = Ok e.1 ∧ e.2 = up_new_head op.

Lemma accepted_step_learns remote ops out entry :
  (∀ op, op ∈ ops → ∃ tr, tracking_ref remote (up_name op) = Ok tr) →
  (∀ op op', op ∈ ops → op' ∈ ops → up_name op = up_name op' → up_new_head op = up_new_head op') →
  ∃ out', accepted_step remote ops out entry = Ok out' ∧ ∀ e, e ∈ out' ↔ e ∈ out ∨ learns remote ops entry e.
Proof.
  intros Htr Hsame. unfold accepted_step, learns. case_decide as Hst; [|exists out; naive_solver].
  destruct (find_first _ ops) as [op|] eqn:Hf.
  - apply find_first_Some in Hf as [Hin Hn%bool_decide_eq_true]. destruct (Htr op Hin) as [tr Ht]. rewrite <- Hn, Ht.
    exists (out ++ [(tr, up_new_head op)]). split; [done|]. intros e. rewrite elem_of_app, list_elem_of_singleton.
    split; intros [?|He]; [by left|right|by left|right].
    + subst e. split; [done|]. by exists op.
    + destruct He as (_ & op' & Hin' & Hn' & [= Ht'] & Hx). destruct e as [t x]; simpl in *. by rewrite Hx, Ht', (Hsame op' op).
  - exists out. split; [done|]. intros e. split; [by left|]. intros [?|(_ & op & Hin & Hn & _)]; [done|].
    rewrite find_first_None in Hf. specialize (Hf op Hin). by rewrite bool_decide_true in Hf.
Qed.
Lemma accepted_tracking_learns remote ops results :
  (∀ op, op ∈ ops → ∃ tr, tracking_ref remote (up_name op) = Ok tr) →
  (∀ op op', op ∈ ops → op' ∈ ops → up_name op = up_name op' → up_new_head op = up_new_head op') →
  ∃ tracked, accepted_tracking remote ops results = Ok tracked ∧ ∀ e, e ∈ tracked ↔ ∃ entry, entry ∈ results ∧ learns remote ops entry e.
Proof.
  intros Htr Hsame. unfold accepted_tracking.
  assert (∀ out, ∃ tracked, res_fold (accepted_step remote ops) out results = Ok tracked ∧
    ∀ e, e ∈ tracked ↔ e ∈ out ∨ ∃ entry, entry ∈ results ∧ learns remote ops entry e) as Hall.
  { induction results as [|entry results IH]; intros out; cbn [res_fold].
    { exists out. split; [done|]. intros e. split; [by left|]. intros [?|(? & ?%elem_of_nil & _)]; done. }
    destruct (accepted_step_learns remote ops out entry Htr Hsame) as (out1 & -> & H1o). cbn [mbind result_bind].
    destruct (IH out1) as (tracked & -> & Hin). exists tracked. split; [done|]. intros e. rewrite Hin, H1o.
    setoid_rewrite elem_of_cons. naive_solver. }
  destruct (Hall []) as (tracked & Ht & Hin). exists tracked. split; [done|]. intros e. rewrite Hin. split; [|by right].
  intros [?%elem_of_nil|?]; done.
Qed.

(** ** Agreement *)

(** The local head of [name] is the server's, with all that it needs, and recorded here. *)
Definition delivered (remote : string) (timelines : list RefName) self self' peer' (name : RefName) : Prop :=
  name ∈ timelines ∧ ∃ t t' tr, mem_view (n_refs self) !! name = Some (RTimeline t) ∧
    mem_view (n_refs peer') !! name = Some (RTimeline t') ∧ head t' = head t ∧ complete (decoded (n_store peer')) (head t) ∧
    tracking_ref remote name = Ok tr ∧ mem_view (n_refs self') !! tr = Some (RTag (MkTag (head t) 0 None)).

Record agreed (remote : string) (timelines : list RefName) self peer self' peer' (r : res (list RefStatusEntry)) : Prop := {
  ag_self : n_store self' = n_store self ∧ n_acls self' = n_acls self ∧ n_hooks self' = n_hooks self;
  ag_peer : n_store peer ⊆ n_store peer' ∧ n_acls peer' = n_acls peer ∧ n_hooks peer' = n_hooks peer;
  ag_failed e : r = Err e → n_refs self' = n_refs self ∧ n_refs peer' = n_refs peer;
  ag_reported results name t : r = Ok results → name ∈ timelines → mem_view (n_refs self) !! name = Some (RTimeline t) →
    ∃ st, MkStatus name st ∈ results;
  ag_accepted results name : r = Ok results → MkStatus name StatusOk ∈ results → delivered remote timelines self self' peer' name;
  ag_others results name : r = Ok results → MkStatus name StatusOk ∉ results →
    mem_view (n_refs peer') !! name = mem_view (n_refs peer) !! name;
  ag_tracking results tr : r = Ok results → mem_view (n_refs self') !! tr = mem_view (n_refs self) !! tr ∨
    ∃ name, MkStatus name StatusOk ∈ results ∧ tracking_ref remote name = Ok tr
}.

Lemma agreed_failed remote timelines self peer e : agreed remote timelines self peer self peer (Err e).
Proof. by split. Qed.

(** What the server makes of the offer, when all updates of a name have one head. *)
Lemma apply_offer_report a pack ops peer : mem_ok (n_refs peer) → Forall (valid_name ∘ up_name) ops →
  (∀ op op', op ∈ ops → op' ∈ ops → up_name op = up_name op' → up_new_head op = up_new_head op') →
  n_store peer ⊆ n_store (apply_offer a pack ops peer).2 ∧ n_acls (apply_offer a pack ops peer).2 = n_acls peer ∧
  n_hooks (apply_offer a pack ops peer).2 = n_hooks peer ∧
  match (apply_offer a pack ops peer).1 with
  | Err _ => n_refs (apply_offer a pack ops peer).2 = n_refs peer
  | Ok results =>
      (∀ op, op ∈ ops → ∃ st, MkStatus (up_name op) st ∈ results) ∧
      (∀ name, MkStatus name StatusOk ∉ results → mem_view (n_refs (apply_offer a pack ops peer).2) !! name = mem_view (n_refs peer) !! name) ∧
      ∀ name, MkStatus name StatusOk ∈ results → ∃ op t', op ∈ ops ∧ up_name op = name ∧
        complete (decoded (n_store (apply_offer a pack ops peer).2)) (up_new_head op) ∧
        mem_view (n_refs (apply_offer a pack ops peer).2) !! name = Some (RTimeline t') ∧ head t' = up_new_head op
  end.
Proof.
  intros Hi Hv Hsame. unfold apply_offer. rewrite lift_bind. destruct (decode_pack pack) as [objs|e]; [|done].
  destruct (has_write_capability a); cbn [negb].
  - unfold mbind, M_bind. destruct (land_memory objs peer) as (b & -> & Hb & _).
    destruct (apply_push_ops a ops (set_store b peer)) as [r n'] eqn:Ha.
    destruct (apply_push_ops_report (set_store b peer) n' a ops r Hi Hv Hsame Ha) as (Hst & Hac & Hh & Hr). cbn [fst snd].
    rewrite Hst, Hac, Hh. split; [done|]. do 2 (split; [done|]). by destruct r.
  - do 3 (split; [done|]). cbn. split; [|split; [done|]].
    + intros op Ho. eexists. apply list_elem_of_fmap. exists op. by split.
    + intros name (op & [=] & _)%list_elem_of_fmap.
Qed.

(** [C25] A push over the wire between repositories on the in-memory backends ends in every
    interleaving, with both sides returned, also where one of them hangs up early and a message or a
    send fails; and the two sides agree on what happened. If the client fails, no ref of either
    repository has changed. If it succeeds, its report has an entry for every listed
    timeline it has; for each name reported as accepted the server's timeline has the client's
    head, with every object it needs, and the client's tracking ref says so; and every other
    ref of the server, and every other ref of the client, is as it was. The client's objects and
    both sides' rules and hooks stay, and the server loses no object. *)
Theorem push_session_agrees self peer (remote : string) (timelines : list RefName) (a : Accessor)
    (d : Conf Self (list RefStatusEntry) Peer ()) :
  mem_ok (n_refs self) → mem_ok (n_refs peer) →
  rtc cstep (MkConf (client_push remote timelines) self (serve a) peer [] []) d → final d →
  returned (s_proc d) ∧ ∃ r, c_proc d = PRet r ∧ agreed remote timelines self peer (c_state d) (s_state d) r.
Proof.
  intros His Hip Hr Hf. destruct (ends_final _ _ _ (push_ends remote timelines a self peer) Hr Hf) as (_ & Hs & Ho). split; [done|].
  assert (s_state d = peer → c_state d = self → failed (c_proc d) →
    ∃ r, c_proc d = PRet r ∧ agreed remote timelines self peer (c_state d) (s_state d) r) as Hfail.
  { intros -> -> (e & ->). exists (Err e). split; [done|]. apply agreed_failed. }
  unfold push_outcome in Ho. destruct (advertise peer a) as [refs|e]; [|destruct Ho as (? & ? & ?); by apply Hfail].
  destruct (offer remote timelines self refs) as [[pack ops]|e] eqn:Hoff; [|destruct Ho as (? & ? & ?); by apply Hfail]. clear Hfail.
  destruct (offer_updates _ _ _ _ _ _ Hoff) as [Hup Hlisted]. destruct Ho as [Hsp Ho].
  assert (Forall (valid_name ∘ up_name) ops) as Hv.
  { apply Forall_forall. intros op Hin. destruct (Hup op Hin) as (_ & _ & t & _ & Ht & _). rewrite mem_view_lookup in Ht.
    destruct (up_name op) eqn:Hn. simpl. rewrite Hn. by apply (His _ _ Ht). }
  assert (∀ op op', op ∈ ops → op' ∈ ops → up_name op = up_name op' → up_new_head op = up_new_head op') as Hsame.
  { intros op op' Hin Hin' Hn. destruct (Hup op Hin) as (_ & _ & t & _ & Ht & -> & _), (Hup op' Hin') as (_ & _ & t' & _ & Ht' & -> & _).
    congruence. }
  assert (∀ op, op ∈ ops → ∃ tr, tracking_ref remote (up_name op) = Ok tr) as Htr.
  { intros op Hin. destruct (Hup op Hin) as (_ & _ & t & tr & _ & _ & Ht). by exists tr. }
  destruct (apply_offer_report a pack ops peer Hip Hv Hsame) as (Hst & Hac & Hh & Hrep). rewrite <- Hsp in Hst, Hac, Hh, Hrep.
  destruct (apply_offer a pack ops peer).1 as [results|e].
  2: { destruct Ho as [Hc [e' He']]. exists (Err e'). split; [done|]. rewrite Hc. split; [done..|]. done. }
  destruct (accepted_tracking_learns remote ops results Htr Hsame) as (tracked & Hat & Hlearn). rewrite Hat in Ho.
  assert (Forall valid_name tracked.*1) as Hvt.
  { apply Forall_fmap, Forall_forall. intros e (entry & _ & _ & op & _ & _ & Ht & _)%Hlearn. by apply tracking_ref_Ok in Ht as [? _]. }
  destruct (set_tracking_memory self tracked His Hvt) as (refs' & Hset & _ & Hview). rewrite Hset in Ho. destruct Ho as [Hc Hp]. cbn [fst snd] in *.
  destruct Hrep as (Hrep & Hoth & Hacc). exists (Ok results). split; [done|]. rewrite Hc. split; [done|done|done|..]; cbn [n_refs set_nrefs].
  - intros ? name t [= <-] Hn Ht. destruct (Hlisted name t Hn Ht) as (op & Hop & <-). by apply Hrep.
  - intros ? name [= <-] Hin. destruct (Hacc name Hin) as (op & t' & Hop & <- & Hcomp & Ht' & Hh').
    destruct (Hup op Hop) as (Hn & _ & t & tr & Ht & Hhd & Htrack). split; [done|]. exists t, t', tr. rewrite <- Hhd.
    split_and!; [done..|]. cbn. rewrite Hview. apply tags_in.
    + apply Hlearn. exists (MkStatus (up_name op) StatusOk). split; [done|]. split; [done|]. by exists op.
    + intros y (entry & _ & _ & op' & Hop' & Hn' & Ht2 & Hy)%Hlearn. cbn [fst snd] in Ht2, Hy. subst y.
      apply Hsame; [done..|]. rewrite Hn'. by apply (tracking_ref_inj remote _ _ tr).
  - intros ? name [= <-]. apply Hoth.
  - intros ? tr [= <-]. rewrite Hview. destruct (tags_cases tracked (mem_view (n_refs self)) tr) as [?|(x & Hin & _)]; [by left|right].
    apply Hlearn in Hin as ([name st] & Hin & Hst' & op & _ & _ & Ht & _). simpl in *. subst st. by exists name.
Qed.
End memory.

(** ** On concrete data: the forward push of [InprocPush.v] *)
#[local] Existing Instance demo_io_text.
#[local] Existing Instance toy_ed25519.
#[local] Existing Instance toy_zstd.
#[local] Existing Instance ex_sync_codec.

Lemma push_session_agrees_witness : ∃ d, ex_wire FastForwardOnly = Some d ∧
  delivered "origin" [ex_main] (ex_pusher FastForwardOnly) (c_state d) (s_state d) ex_main.
Proof.
  destruct inproc_refuses_forward as (_ & _ & Hw & _). unfold ex_wire_result in Hw.
  destruct (ex_wire FastForwardOnly) as [d|] eqn:Hd; [|discriminate Hw]. exists d. split; [reflexivity|].
  destruct (crun_rtc _ _ _ Hd) as [Hr Hf]. destruct (ex_nodes_ok FastForwardOnly) as [Hs Hp].
  destruct (push_session_agrees (ex_pusher FastForwardOnly) (ex_peer FastForwardOnly) "origin" [ex_main] ex_writer d Hs Hp Hr Hf)
    as (_ & r & Hc & Hag).
  rewrite Hc in Hw. injection Hw as -> _. apply (ag_accepted _ _ _ _ _ _ _ Hag [MkStatus ex_main StatusOk] ex_main eq_refl). left.
Defined.
