(* ===== verification/Persist.v ===== *)
(** * Persist: a repository on disk, opened again and copied

    [Repository::disk] and [Repository::copy_to] of src/src/repo/mod.rs.  A repository on
    disk is the packed store of [Packed.v], the refs of [RefsDisk.v] and the ACL files of
    [Acl.v]; what outlives the process is their files.  A process can stop between two of
    the system calls of a write, a commit or a compaction; the next one opens what it left.

    The theorems: along any history of writes, commits, compactions and interruptions the
    repository can be opened, no object is lost, and the refs are those of the commits that
    returned and some of those that were cut short, in order; a copy holds exactly
    what its source held. *)

From S2P Require Import Prelude Ids Objects Refs RefStore RefsDisk Acl Gc Store Pack Disk Packed Repack Crash Sync Inproc.
From Stdlib Require Import Lia.

(** ** Opening *)

(** The files below the root. *)
Record OnDisk : Type := MkOnDisk {
  od_loose : DiskBackend;
  od_packs : gmap string bytes;
  od_refs : RefDisk;
  od_acls : DiskAclBackend
}.
Abbreviation DiskRepo := (Node PackedDiskBackend RefDisk DiskAclBackend).

(** The counter of the journal names starts anew in every process. *)
Definition restart (d : RefDisk) : RefDisk := RefsDisk.MkDisk (files d) (dirs d) (txn d) 0.
(** What a repository leaves when its process ends. *)
Definition files_of (s : DiskRepo) : OnDisk :=
  MkOnDisk (pb_loose (n_store s)) (pb_dir (n_store s)) (restart (n_refs s)) (n_acls s).

Section disk.
Context `{Zstd, ReadDir, ObjectCodec, RefCodec}.

(** [DiskRefBackend::open]: the root, then the journals. *)
Definition refs_open (d : RefDisk) : res () * RefDisk := recover d.
(** [Repository::disk]: the store, the refs, the ACLs. *)
Definition disk : M OnDisk DiskRepo := λ f,
  match packed_open (od_loose f) (od_packs f) with
  | Err e => (Err e, f)
  | Ok store =>
      match refs_open (od_refs f) with
      | (Err e, refs) => (Err e, MkOnDisk (od_loose f) (od_packs f) refs (od_acls f))
      | (Ok _, refs) => (Ok (MkNode store refs (od_acls f) [] None), MkOnDisk (od_loose f) (od_packs f) refs (od_acls f))
      end
  end.

(** A plan that a commit can carry out (see [commit_crash_atomic]). *)
Record committable (p : plan) (data : bytes) (d : RefDisk) : Prop := {
  co_compat : compat p.*1 d;
  co_once : NoDup p.*1;
  co_some : p ≠ [];
  co_enc : encodable p;
  co_plan : plan_enc p = Ok data
}.
(** A compaction whose pack has a new name (see [compact_thrice_empties]). *)
Record compactable (pack : bytes) (entries : list PackEntry) (digest : vec byte 32) (b : PackedDiskBackend) : Prop := {
  cm_some : repack_objs None b ≠ [];
  cm_caps : pack_caps (repack_objs None b);
  cm_finish : finish (repack_objs None b) = Ok (pack, entries, digest);
  cm_fresh : pb_dir b !! (pack_stem digest +:+ ".idx") = None;
  cm_fresh_pack : pack_stem digest +:+ ".pack" ∉ pk_path <$> pb_packs b
}.

(** The files that are left when the process stops: while idle, inside the write of a
    new object, inside a compaction, inside the commit of a plan. *)
Inductive stopped (s : DiskRepo) : plan → OnDisk → Prop :=
| stop_idle : stopped s [] (files_of s)
| stop_put id data l : pb_view (n_store s) !! id = None → put_crash (pb_loose (n_store s)) id data l →
    stopped s [] (MkOnDisk l (pb_dir (n_store s)) (restart (n_refs s)) (n_acls s))
| stop_compact pack entries digest l d : compactable pack entries digest (n_store s) → NoDup (packed_ids (n_store s)) →
    repack_crash (pb_loose (n_store s)) (pb_dir (n_store s)) (pk_path <$> pb_packs (n_store s))
      (repack_objs None (n_store s)).*1 (pack_stem digest) pack (index_encode (index_build entries digest)) l d →
    stopped s [] (MkOnDisk l d (restart (n_refs s)) (n_acls s))
| stop_commit p data d : committable p data (n_refs s) →
    crash (atomic_steps p data (journal_seq (n_refs s))) (restart (n_refs s)) d →
    stopped s p (MkOnDisk (pb_loose (n_store s)) (pb_dir (n_store s)) d (n_acls s)).

Definition with_store (st : PackedDiskBackend) (s : DiskRepo) : DiskRepo := MkNode st (n_refs s) (n_acls s) (n_hooks s) (n_audit s).
Definition with_refs (d : RefDisk) (s : DiskRepo) : DiskRepo := MkNode (n_store s) d (n_acls s) (n_hooks s) (n_audit s).

(** A history, with the commits it made: those that returned, and those cut short. *)
Inductive history (s : DiskRepo) : list (plan * bool) → DiskRepo → Prop :=
| hist_start : history s [] s
| hist_put l s1 id data st : history s l s1 → pb_put id data (n_store s1) = (Ok (), st) → history s l (with_store st s1)
| hist_compact l s1 pack entries digest n st : history s l s1 → compactable pack entries digest (n_store s1) →
    pb_compact (n_store s1) = (Ok n, st) → history s l (with_store st s1)
| hist_commit l s1 p data d : history s l s1 → committable p data (n_refs s1) →
    apply_atomic p (n_refs s1) = (Ok (), d) → history s (l ++ [(p, true)]) (with_refs d s1)
| hist_reopen l s1 p f f' s2 : history s l s1 → stopped s1 p f → disk f = (Ok s2, f') → history s (l ++ [(p, false)]) s2.

(** Every plan of a commit that returned, and some of the others. *)
Inductive survivors : list (plan * bool) → list plan → Prop :=
| surv_nil : survivors [] []
| surv_keep p b l k : survivors l k → survivors ((p, b) :: l) (p :: k)
| surv_drop p l k : survivors l k → survivors ((p, false) :: l) k.
End disk.

(** ** What is found on opening *)
Section durable.
Context `{Zstd, !ZstdLaws, ReadDir, !ReadDirLaws, ObjectCodec, RefCodec, !RefCodecLaws}.

(** The store is in order, every ref file decodes, no journal is pending. *)
Record sound (s : DiskRepo) : Prop := {
  so_store : packed_inv (n_store s);
  so_refs : disk_ok (n_refs s);
  so_journal : no_journal (n_refs s)
}.
Abbreviation objects_of s := (pb_view (n_store s)).
Abbreviation refs_of s := (disk_view (n_refs s)).

Lemma recovered_open (d : RefDisk) (m : gmap RefName Ref) : recovered d m → ∃ d', refs_open d = (Ok (), d') ∧ disk_ok d' ∧ no_journal d' ∧ disk_view d' = m.
Proof. intros (d' & Hr & Hok & Hj & Hv). exists d'. by rewrite no_journal_iff. Qed.
Lemma restart_recovered d : disk_ok d → no_journal d → recovered (restart d) (disk_view d).
Proof. intros Hok Hn. by apply recovered_none; [apply no_journal_iff| |]. Qed.
Lemma disk_Ok (f : OnDisk) (store : PackedDiskBackend) (m : gmap RefName Ref) : packed_open (od_loose f) (od_packs f) = Ok store → packed_inv store → recovered (od_refs f) m →
  ∃ s' f', disk f = (Ok s', f') ∧ sound s' ∧ n_store s' = store ∧ refs_of s' = m ∧ n_acls s' = od_acls f.
Proof.
  intros Ho Hi (refs & Hr & Hok & Hj & Hv)%recovered_open. eexists _, _. unfold disk. rewrite Ho, Hr.
  split; [done|]. split; [by split|]. done.
Qed.

Lemma put_crash_view b id data l : packed_inv b → pb_view b !! id = None → put_crash (pb_loose b) id data l →
  packed_inv (with_loose b l) ∧ pb_view b ⊆ pb_view (with_loose b l).
Proof.
  intros Hi Hn Hc. destruct (loose_put_crash_safe (pb_loose b) l id data (pi_loose b Hi) Hc) as (Hl & Hv & _).
  split; [by apply packed_inv_loose|]. apply map_subseteq_spec. intros x c Hx. rewrite lookup_with_loose by done.
  rewrite lookup_loose_view in Hx, Hn by done. destruct Hv as [->| ->]; [done|].
  rewrite lookup_insert_ne; [done|]. intros ->. rewrite Hx in Hn. done.
Qed.

(** Whatever the process was doing, the next one can open the repository; it finds every
    object there was, and the refs as they were or as the interrupted commit meant them. *)
Theorem reopen_after_crash (s : DiskRepo) (p : plan) (f : OnDisk) :
  sound s → stopped s p f → ∃ s' f', disk f = (Ok s', f') ∧ sound s' ∧ objects_of s ⊆ objects_of s' ∧
    (refs_of s' = refs_of s ∨ refs_of s' = plan_apply p (refs_of s)) ∧ n_acls s' = n_acls s ∧ n_hooks s' = [].
Proof.
  intros [Hi Hok Hj] Hst.
  assert (packed_open (pb_loose (n_store s)) (pb_dir (n_store s)) = Ok (n_store s)) as Hopen.
  { unfold packed_open. rewrite (pi_loaded _ Hi). by destruct (n_store s). }
  assert (∃ store m, packed_open (od_loose f) (od_packs f) = Ok store ∧ packed_inv store ∧ objects_of s ⊆ pb_view store ∧
    recovered (od_refs f) m ∧ (m = refs_of s ∨ m = plan_apply p (refs_of s)) ∧ od_acls f = n_acls s)
    as (store & m & Ho & Hp & Hsub & Hr & Hm & Ha).
  { pose proof (restart_recovered (n_refs s) Hok Hj) as Hidle. destruct Hst as [|id data l Hn Hc|pack es digest l d Hcm Hnd Hc|p data d Hco Hc].
    - exists (n_store s), (refs_of s). eauto 10.
    - destruct (put_crash_view _ _ _ _ Hi Hn Hc) as [Hi' Hv]. exists (with_loose (n_store s) l), (refs_of s).
      split_and!; [|done|done|done|by left|done]. unfold packed_open. cbn [od_packs od_loose]. by rewrite (pi_loaded _ Hi).
    - destruct Hcm as [? ? ? ? ?]. destruct (crash_safe None (n_store s) pack es digest Hi Hnd ltac:(done) ltac:(done) ltac:(done) l d Hc)
        as (b' & Ho & Hi' & Hv). exists b', (refs_of s). split_and!; [done|done| |done|by left|done].
      apply map_subseteq_spec. intros x c Hx. by rewrite Hv.
    - destruct Hco as [? ? ? ? ?].
      destruct (crash_recovers (restart (n_refs s)) d p data (journal_seq (n_refs s))) as [Hr|Hr]; try done.
      { by apply (compat_files_dirs _ (n_refs s)). }
      + exists (n_store s), (refs_of s). eauto 10.
      + exists (n_store s), (plan_apply p (refs_of s)). eauto 10. }
  destruct (disk_Ok f store m Ho Hp Hr) as (s' & f' & Hd & Hs & <- & <- & Hacl). exists s', f'.
  split_and!; [done..|by rewrite Hacl|]. unfold disk in Hd. rewrite Ho in Hd. destruct (refs_open _) as [[]]; [|done]. by injection Hd as <- <-.
Qed.

Lemma survivors_app l k p b : survivors l k → survivors (l ++ [(p, b)]) (k ++ [p]).
Proof. induction 1; simpl; [by apply surv_keep; constructor|by constructor..]. Qed.
Lemma survivors_drop l k p : survivors l k → survivors (l ++ [(p, false)]) k.
Proof. induction 1; simpl; [by apply surv_drop; constructor|by constructor..]. Qed.

(** [C4] Durability. Along any history of object writes, compactions, commits of ref plans,
    interruptions inside any of them and openings of what they left, on a repository on disk
    that was sound, where: every compaction has something to pack, stays within the caps of a
    pack ([oversized_object_lost]) and makes a pack of a new name ([compact_thrice_empties]),
    and one that is interrupted starts with no id packed twice; every commit has a non-empty
    plan of valid, distinct names with encodable refs, none of them a directory of another, of a
    stored ref or left over from earlier refs, and none below a stored ref
    ([clashing_names_poison_journal], [leftover_directory_poisons_journal]). Then it is sound,
    no object has been lost, the refs are those the plans of all commits that returned and of
    some commits that were cut short give, in the order of the history, none of them in part;
    the ACLs are untouched; and wherever the process stops next under the same conditions, the
    repository opens. *)
Theorem durable_history (s s' : DiskRepo) (l : list (plan * bool)) :
  sound s → history s l s' →
  sound s' ∧ objects_of s ⊆ objects_of s' ∧ n_acls s' = n_acls s ∧
  (∃ k, survivors l k ∧ refs_of s' = foldl (λ m p, plan_apply p m) (refs_of s) k) ∧
  ∀ p f, stopped s' p f → ∃ s2 f2, disk f = (Ok s2, f2).
Proof.
  intros Hs Hh. assert (sound s' ∧ objects_of s ⊆ objects_of s' ∧ n_acls s' = n_acls s ∧
    ∃ k, survivors l k ∧ refs_of s' = foldl (λ m p, plan_apply p m) (refs_of s) k) as (Hs' & Hv & Ha & Hk).
  { induction Hh as [|l s1 id data st Hh IH Hput|l s1 pack es digest n st Hh IH Hcm Hc|l s1 p data d Hh IH Hco Hc|l s1 p f f' s2 Hh IH Hst Hd].
    - split_and!; [done..|]. exists []. split; [constructor|done].
    - destruct (IH) as ([Hi Hok Hj] & Hv & Ha & Hk). destruct (pb_put_Ok _ _ _ _ Hi Hput) as (Hi' & _ & Hv'). split_and!; [by split| |done..].
      etrans; [exact Hv|]. cbn [n_store with_store]. rewrite Hv'. destruct (pb_view (n_store s1) !! id) eqn:Hn; [done|]. by apply insert_subseteq.
    - destruct (IH) as ([Hi Hok Hj] & Hv & Ha & Hk). destruct Hcm as [? ? ? ? ?].
      destruct (compact_keeps_contents (n_store s1) pack es digest) as (b' & Hb & Hi' & Hv' & _); [done..|]. rewrite Hc in Hb. injection Hb as -> ->.
      split_and!; [by split| |done..]. cbn [n_store with_store]. by rewrite Hv'.
    - destruct (IH) as ([Hi Hok Hj] & Hv & Ha & k & Hk & Hr). destruct Hco as [Hcp Hnd Hne Henc Hp].
      destruct (apply_atomic_run p (n_refs s1) d Hok (compat_plan_valid p _ Hcp) Hc) as [Hok' Hv'].
      assert (no_journal d) as Hj'.
      { destruct (atomic_total (bump_seq (n_refs s1)) p data (journal_seq (n_refs s1))) as (d' & Hrun & Hn'); try done.
        { by apply (compat_files_dirs _ (n_refs s1)). }
        unfold apply_atomic in Hc. destruct p; [done|]. rewrite Hp in Hc. rewrite Hc in Hrun. by injection Hrun as ->. }
      split_and!; [by split|done|done|]. exists (k ++ [p]). split; [by apply survivors_app|]. rewrite foldl_snoc, <- Hr. exact Hv'.
    - destruct (IH) as (Hs1 & Hv & Ha & k & Hk & Hr). destruct (reopen_after_crash s1 p f Hs1 Hst) as (s3 & f3 & Hd' & Hs3 & Hv3 & Hr3 & Ha3 & _).
      rewrite Hd in Hd'. injection Hd' as <- <-. split_and!; [done|by etrans|congruence|]. destruct Hr3 as [Hr3|Hr3].
      + exists k. split; [by apply survivors_drop|congruence].
      + exists (k ++ [p]). split; [by apply survivors_app|]. rewrite foldl_snoc. congruence. }
  split_and!; [done..|]. intros p f Hst. destruct (reopen_after_crash s' p f Hs' Hst) as (s2 & f2 & Hd & _). eauto.
Qed.
End durable.

(** ** Copying a repository *)
Section copy.
Context {B1 R1 A1 B2 R2 A2 : Type} `{StorageBackend B1, RefBackendLaws R1, StorageLaws B2, RefBackendLaws R2}.
Context `{!ObjectCodec, !ObjectCodecLaws}.
Abbreviation Source := (Node B1 R1 A1).
Abbreviation Dest := (Node B2 R2 A2).

(** [self.copy_to(dest)] *)
Definition copy_to (from : Source) : M Dest () := λ dest,
  match copy_objects (n_store from) (n_store dest) with
  | (Err e, st) => (Err e, MkNode st (n_refs dest) (n_acls dest) (n_hooks dest) (n_audit dest))
  | (Ok _, st) =>
      let '(r, refs) := copy_refs (n_refs from) (n_refs dest) in
      (r, MkNode st refs (n_acls dest) (n_hooks dest) (n_audit dest))
  end.

(** A store that reads without failing as the map [V]. *)
Definition reads_as (b : B1) (V : gmap ObjectId bytes) : Prop :=
  (∃ ids, list_ids b = Ok ids ∧ ∀ x, x ∈ ids ↔ is_Some (V !! x)) ∧ ∀ x, sb_get b x = Ok (V !! x).
(** Every byte string is the encoding of an object, under its hash. *)
Definition canonical (V : gmap ObjectId bytes) : Prop :=
  ∀ x data, V !! x = Some data → object_id data = x ∧ ∃ obj, deserialize data = Ok obj ∧ serialize obj = Ok data.

Definition copy_object (from : B1) (x : ObjectId) : M B2 () :=
  obj ← lift_res (get from x);
  match obj with Some obj => _ ← put obj; mret () | None => mret () end.

(** One object of the source: its bytes are stored again. *)
Lemma copy_object_raw (from : B1) V x (b : B2) : reads_as from V → canonical V →
  copy_object from x b = match V !! x with Some data => (_ ← put_raw data; mret ()) b | None => (Ok (), b) end.
Proof.
  intros [_ Hget] Hcan. unfold copy_object, get. rewrite Hget. cbn [mbind result_bind]. destruct (V !! x) as [data|] eqn:Hx; [|done].
  destruct (Hcan x data Hx) as (_ & obj & -> & Hs). cbn [mbind result_bind]. rewrite lift_bind. unfold mbind, M_bind. by rewrite (put_put_raw obj data b Hs).
Qed.
Lemma copy_object_Ok (from : B1) V x (b b' : B2) : reads_as from V → canonical V → sb_inv b →
  copy_object from x b = (Ok (), b') → sb_inv b' ∧
  ∀ y, sb_view b' !! y = match sb_view b !! y with Some d => Some d | None => if decide (y = x) then V !! x else None end.
Proof.
  intros Hf Hcan Hb. rewrite (copy_object_raw from V x b Hf Hcan). destruct (V !! x) as [data|] eqn:Hx.
  - destruct (Hcan x data Hx) as (Hid & _). rewrite M_bind_Ok. intros (z & b1 & Hput & [= <-]).
    destruct (put_raw_Ok data z b b1 Hb Hput) as (Hb1 & -> & Hv). rewrite Hid in Hv. split; [done|]. intros y. rewrite Hv.
    destruct (decide (y = x)) as [->|Hne].
    + destruct (sb_view b !! x) eqn:Hbx; [by rewrite Hbx|]. by rewrite lookup_insert_eq.
    + destruct (sb_view b !! x); [|rewrite lookup_insert_ne by done]; by destruct (sb_view b !! y).
  - intros [= <-]. split; [done|]. intros y. by destruct (sb_view b !! y); [|case_decide].
Qed.

Lemma copy_objects_loop (from : B1) V ids : reads_as from V → canonical V → ∀ b b' : B2, sb_inv b →
  M_iter (copy_object from) ids b = (Ok (), b') → sb_inv b' ∧
  ∀ y, sb_view b' !! y = match sb_view b !! y with Some d => Some d | None => if decide (y ∈ ids) then V !! y else None end.
Proof.
  intros Hf Hcan. induction ids as [|x ids IH]; intros b b' Hb; cbn [M_iter].
  { intros [= <-]. split; [done|]. intros y. by destruct (sb_view b !! y). }
  rewrite M_bind_Ok. intros ([] & b1 & Hx & Hr). destruct (copy_object_Ok from V x b b1 Hf Hcan Hb Hx) as [Hb1 Hv1].
  destruct (IH b1 b' Hb1 Hr) as [Hb' Hv']. split; [done|]. intros y. rewrite Hv', Hv1. destruct (sb_view b !! y); [done|].
  destruct (decide (y = x)) as [->|Hne]; [|by repeat case_decide; rewrite ?elem_of_cons in *; try tauto].
  rewrite (decide_True (P := x ∈ x :: ids)) by by left. destruct (V !! x); [done|]. by case_decide.
Qed.

Lemma copy_objects_Ok (from : B1) V (b b' : B2) : reads_as from V → canonical V → sb_inv b → copy_objects from b = (Ok (), b') →
  sb_inv b' ∧ sb_view b' = sb_view b ∪ V.
Proof.
  intros Hf Hcan Hb. pose proof Hf as [(ids & Hl & Hids) _]. unfold copy_objects. rewrite lift_bind, Hl. intros Hc.
  destruct (copy_objects_loop from V ids Hf Hcan b b' Hb Hc) as [Hi Hv].
  split; [done|]. apply map_eq. intros y. rewrite Hv, lookup_union. specialize (Hids y).
  destruct (sb_view b !! y); [by rewrite union_Some_l|]. rewrite (left_id_L None _). case_decide as Hy; [done|].
  symmetry. apply eq_None_not_Some. by rewrite <- Hids.
Qed.

Definition copy_ref (from : R1) (name : RefName) : M R2 () :=
  r ← lift_res (get_ref from name);
  match r with Some r => set_raw name r | None => mret () end.
Lemma copy_refs_loop from ns : be_inv from → Forall valid_name ns → ∀ d d', be_inv d →
  M_iter (copy_ref from) ns d = (Ok (), d') → be_inv d' ∧
  ∀ n, be_view d' !! n = match (if decide (n ∈ ns) then be_view from !! n else None) with Some r => Some r | None => be_view d !! n end.
Proof.
  intros Hf Hns. induction Hns as [|m ns Hm Hns IH]; intros d d' Hd; cbn [M_iter].
  { intros [= <-]. split; [done|]. intros n. done. }
  rewrite M_bind_Ok. intros ([] & d1 & Hx & Hr). unfold copy_ref in Hx. rewrite lift_bind in Hx.
  destruct (get_ref from m) as [v|] eqn:Hg; [|done]. apply be_get_Ok in Hg; [|done..].
  assert (be_inv d1 ∧ ∀ n, be_view d1 !! n = match (if decide (n = m) then be_view from !! m else None) with Some r => Some r | None => be_view d !! n end) as [Hd1 Hv1].
  { destruct v as [r|]; rewrite <- Hg.
    - destruct (be_set_Ok d m r d1 Hd Hm Hx) as [? ->]. split; [done|]. intros n. case_decide as Hn; [by subst; rewrite lookup_insert_eq|by rewrite lookup_insert_ne].
    - injection Hx as <-. split; [done|]. intros n. by case_decide. }
  destruct (IH d1 d' Hd1 Hr) as [Hd' Hv']. split; [done|]. intros n. rewrite Hv', Hv1.
  destruct (decide (n = m)) as [->|Hne]; [|by repeat case_decide; rewrite ?elem_of_cons in *; try tauto].
  rewrite (decide_True (P := m ∈ m :: ns)) by by left. destruct (be_view from !! m); [by case_decide|]. by case_decide.
Qed.
Lemma copy_refs_Ok (from : R1) (d d' : R2) : be_inv from → be_inv d → copy_refs from d = (Ok (), d') →
  be_inv d' ∧ be_view d' = be_view from ∪ be_view d.
Proof.
  intros Hf Hd. unfold copy_refs. rewrite lift_bind. destruct (list_refs from "") as [ns|] eqn:Hl; [|done]. intros Hc.
  destruct (be_list_Ok from "" ns Hf Hl) as (_ & _ & Hns). assert (Forall valid_name ns) as Hval.
  { apply Forall_forall. intros n [[r Hr] _]%Hns. by apply (be_view_valid from n r). }
  destruct (copy_refs_loop from ns Hf Hval d d' Hd Hc) as [Hi Hv].
  split; [done|]. apply map_eq. intros n. rewrite Hv, lookup_union. specialize (Hns n). destruct (be_view from !! n) as [r|] eqn:Hn.
  - rewrite decide_True; [by rewrite union_Some_l|]. apply Hns. split; [eauto|by destruct (as_str n)].
  - rewrite (left_id_L None _). by case_decide.
Qed.

(** A copy that succeeds leaves the destination with the objects of both under their own ids,
    and with the refs of the source over its own; nothing else changes. *)
Theorem copy_to_faithful (from : Source) (V : gmap ObjectId bytes) (dest dest' : Dest) :
  reads_as (n_store from) V → canonical V → be_inv (n_refs from) → sb_inv (n_store dest) → be_inv (n_refs dest) →
  copy_to from dest = (Ok (), dest') →
  sb_inv (n_store dest') ∧ sb_view (n_store dest') = sb_view (n_store dest) ∪ V ∧
  be_inv (n_refs dest') ∧ be_view (n_refs dest') = be_view (n_refs from) ∪ be_view (n_refs dest) ∧
  n_acls dest' = n_acls dest ∧ n_hooks dest' = n_hooks dest.
Proof.
  intros Hf Hcan Hr Hd Hdr. unfold copy_to. destruct (copy_objects _ _) as [[[]|e] st] eqn:Ho; [|done].
  destruct (copy_objects_Ok _ _ _ _ Hf Hcan Hd Ho) as [Hi Hv]. destruct (copy_refs (n_refs from) (n_refs dest)) as [r refs] eqn:Hc.
  intros [= -> <-]. destruct (copy_refs_Ok _ _ _ Hr Hdr Hc) as [Hi2 Hv2]. done.
Qed.
End copy.

(** *** Into memory *)
Section backup.
Context `{Zstd, !ZstdLaws, ReadDir, !ReadDirLaws, !ObjectCodec, !ObjectCodecLaws, RefCodec, !RefCodecLaws}.

Lemma M_iter_total {S A} (f : A → M S ()) l : (∀ x s, x ∈ l → ∃ s', f x s = (Ok (), s')) → ∀ s, ∃ s', M_iter f l s = (Ok (), s').
Proof.
  induction l as [|x l IH]; intros Hf s; [by eexists|]. cbn [M_iter]. destruct (Hf x s ltac:(by left)) as [s1 Hs1].
  destruct (IH (λ y t Hy, Hf y t ltac:(by right)) s1) as [s2 Hs2]. exists s2. apply M_bind_Ok. by exists (), s1.
Qed.
Lemma packed_reads_as (b : PackedDiskBackend) : packed_inv b → reads_as b (pb_view b).
Proof.
  intros Hi. destruct (pb_list_view b Hi) as (l & Hl & _ & Hin). split; [by exists l|]. intros x. by apply pb_get_view.
Qed.

Lemma copy_objects_memory {B1} `{StorageBackend B1} (from : B1) V (m : MemoryBackend) : reads_as from V → canonical V →
  ∃ m', copy_objects from m = (Ok (), m').
Proof.
  intros Hf Hcan. pose proof Hf as [(ids & Hl & _) _]. unfold copy_objects. rewrite lift_bind, Hl. apply M_iter_total. intros x s _.
  change (∃ s', copy_object from x s = (Ok (), s')). rewrite (copy_object_raw from V x s Hf Hcan). destruct (V !! x) as [data|]; [|by eexists].
  unfold put_raw. unfold mbind, M_bind, gets. simpl. unfold mb_exists. case_bool_decide; simpl; by eexists.
Qed.
Lemma copy_refs_memory (from : RefDisk) (m : MemoryRefBackend) : disk_ok from → ∃ m', copy_refs from m = (Ok (), m').
Proof.
  intros Hok. change (be_inv from) in Hok. unfold copy_refs. destruct (list_refs from "") as [ns|e] eqn:Hl; [|done]. rewrite lift_bind. apply M_iter_total. intros n s Hn.
  apply (be_list_Ok from "" ns Hok Hl) in Hn as [[r Hr] _]. apply (be_get_stored from n r Hok) in Hr. rewrite lift_bind. unfold get_ref. rewrite Hr. by eexists.
Qed.

(** A repository on disk, whatever its history, can be copied into a fresh one in memory if
    what it stores is canonical: nothing fails, and the copy holds exactly its objects
    and refs; ACLs are not copied. *)
Theorem backup_exact (s : DiskRepo) : sound s → canonical (pb_view (n_store s)) →
  ∃ m, copy_to s memory_node = (Ok (), m) ∧ n_store m = pb_view (n_store s) ∧ mem_view (n_refs m) = disk_view (n_refs s) ∧
    mem_ok (n_refs m) ∧ n_acls m = MemoryAclBackend_new.
Proof.
  intros [Hi Hok Hj] Hcan. pose proof (packed_reads_as _ Hi) as Hr.
  destruct (copy_objects_memory (n_store s) _ ∅ Hr Hcan) as [st Hst]. destruct (copy_refs_memory (n_refs s) ∅ Hok) as [refs Hrefs].
  assert (copy_to s memory_node = (Ok (), MkNode st refs MemoryAclBackend_new [] None)) as Hc.
  { unfold copy_to. cbn [memory_node n_store n_refs]. by rewrite Hst, Hrefs. }
  assert (be_inv (n_refs memory_node)) as Hmem by (intros ? ? [=]). change (be_inv (n_refs s)) in Hok.
  assert (sb_inv (n_store memory_node)) as Hstore by done.
  destruct (copy_to_faithful s (pb_view (n_store s)) memory_node _ Hr Hcan Hok Hstore Hmem Hc) as (_ & Hv & Hmi & Hrv & _).
  eexists. split; [exact Hc|]. split; [|split; [|done]].
  - etrans; [exact Hv|]. change (∅ ∪ pb_view (n_store s) = pb_view (n_store s)). by rewrite (left_id_L ∅ (∪)).
  - etrans; [exact Hrv|]. change (disk_view (n_refs s) ∪ mem_view ∅ = disk_view (n_refs s)). unfold mem_view. rewrite kmap_empty. by rewrite (right_id_L ∅ (∪)).
Qed.
End backup.

(** ** On concrete data *)
Section demo.
Local Existing Instance toy_zstd.
Local Existing Instance toy_zstd_laws.
Local Existing Instance rolling_codec.
Local Existing Instance toy_read_dir.
Local Existing Instance toy_read_dir_laws.
Local Existing Instance demo_codec.
Local Existing Instance demo_codec_laws.

Lemma crash_prefix l1 l2 d d' : run l1 d = (Ok (), d') → crash (l1 ++ l2) d d'.
Proof.
  revert d. induction l1 as [|s l1 IH]; intros d; [intros ->%run_nil; constructor|].
  intros (d1 & Hs & Hr)%run_cons. simpl. econstructor; eauto.
Qed.

(** Two loose objects and one timeline. *)
Definition ex_repo : DiskRepo := MkNode ex_packed RefsDisk.ex_disk DiskAclBackend_new [] None.
Lemma ex_repo_sound : sound ex_repo.
Proof. split; [exact ex_packed_inv|exact ex_disk_ok|]. intros name _. apply lookup_empty. Qed.
Lemma ex_committable : committable ex_plan (demo_enc ex_plan) (n_refs ex_repo).
Proof.
  split; [exact ex_compat|apply (bool_decide_unpack _); by vm_compute|done| |reflexivity].
  repeat constructor; intros; reflexivity.
Qed.

(** Stopped with the journal in place and the first of two refs moved. *)
Definition ex_steps : list io := atomic_steps ex_plan (demo_enc ex_plan) 0.
Definition ex_torn : RefDisk := (run (take 6 ex_steps) RefsDisk.ex_disk).2.
Definition ex_left : OnDisk := MkOnDisk ex_disk ∅ ex_torn DiskAclBackend_new.
Lemma ex_stopped : stopped ex_repo ex_plan ex_left.
Proof.
  apply (stop_commit ex_repo ex_plan (demo_enc ex_plan) ex_torn ex_committable).
  change (crash (take 6 ex_steps ++ drop 6 ex_steps) RefsDisk.ex_disk ex_torn). apply crash_prefix. vm_compute. reflexivity.
Qed.
Lemma reopen_after_crash_witness : ∃ s' f', disk ex_left = (Ok s', f') ∧ pb_get (n_store s') ex_id1 = Ok (Some ex_data1) ∧
  (files ex_torn !! ["main"] = Some (demo_enc (ex_timeline (ex_id x02))) ∧ files ex_torn !! ["release"; "1.0"] = None) ∧
  (disk_view (n_refs s') = disk_view RefsDisk.ex_disk ∨ disk_view (n_refs s') = plan_apply ex_plan (disk_view RefsDisk.ex_disk)).
Proof.
  destruct (reopen_after_crash ex_repo ex_plan ex_left ex_repo_sound ex_stopped) as (s' & f' & Hd & Hs & Hv & Hr & _).
  exists s', f'. split; [exact Hd|]. split; [|split; [split; vm_compute; reflexivity|exact Hr]].
  rewrite pb_get_view by apply Hs. f_equal. apply (lookup_weaken _ _ _ _ (eq_refl (Some ex_data1) : pb_view ex_packed !! ex_id1 = Some ex_data1) Hv).
Defined.

(** The repository that opens there, with both refs in place. *)
Definition ex_reopened : DiskRepo := match (disk ex_left).1 with Ok s => s | Err _ => ex_repo end.
Definition ex_later : DiskRepo := with_store (pb_put ex_id1 ex_data1 (n_store ex_reopened)).2 ex_reopened.
Lemma ex_disk_history : history ex_repo [(ex_plan, false)] ex_later.
Proof.
  assert (history ex_repo ([] ++ [(ex_plan, false)]) ex_reopened) as Hh.
  { apply (hist_reopen ex_repo [] ex_repo ex_plan ex_left (disk ex_left).2 ex_reopened); [constructor|exact ex_stopped|]. vm_compute. reflexivity. }
  apply (hist_put ex_repo _ ex_reopened ex_id1 ex_data1 _ Hh). vm_compute. reflexivity.
Qed.
Lemma durable_history_witness : pb_get (n_store ex_later) ex_id2 = Ok (Some ex_data2) ∧
  disk_view (n_refs ex_later) = plan_apply ex_plan (disk_view RefsDisk.ex_disk) ∧
  ∃ s2 f2, disk (files_of ex_later) = (Ok s2, f2).
Proof.
  destruct (durable_history ex_repo ex_later [(ex_plan, false)] ex_repo_sound ex_disk_history) as (_ & _ & _ & _ & Hopen).
  split; [vm_compute; reflexivity|]. split; [vm_compute; reflexivity|]. apply (Hopen [] (files_of ex_later)), stop_idle.
Defined.

#[local] Instance rolling_laws : ObjectCodecLaws.
Proof. split. intros obj data Hs. destruct obj as [[d]| | | | | | | | | | | |]; try discriminate Hs. injection Hs as <-. reflexivity. Qed.
Lemma ex_canonical : canonical (pb_view (n_store ex_repo)).
Proof.
  assert (pb_view (n_store ex_repo) = {[ ex_id1 := ex_data1; ex_id2 := ex_data2 ]}) as -> by (apply (bool_decide_unpack _); by vm_compute).
  intros x data [[<- <-]|[_ [<- <-]%lookup_singleton_Some]]%lookup_insert_Some; (split; [reflexivity|]).
  - by exists (OBlob (MkBlob [x61; x62])).
  - by exists (OBlob (MkBlob [x63])).
Qed.
Lemma backup_exact_witness : ∃ m, copy_to ex_repo memory_node = (Ok (), m) ∧ n_store m !! ex_id1 = Some ex_data1 ∧
  mem_view (n_refs m) = disk_view RefsDisk.ex_disk.
Proof.
  destruct (backup_exact ex_repo ex_repo_sound ex_canonical) as (m & Hc & Hv & Hr & _).
  exists m. split; [exact Hc|]. split; [rewrite Hv; vm_compute; reflexivity|exact Hr].
Defined.
End demo.
