(* ===== verification/HttpSyncFacts.v ===== *)
(** * HttpSyncFacts: the verbs over HTTP

    Theorems about [HttpSync.v]: a fetch request gives away only what refs served to the
    accessor reach; a fetch over HTTP, however the bytes are cut into reads,
    ends as the in-process one does; a push changes nothing here but the
    tracking refs of updates the peer reports as accepted. *)

From S2P Require Import Prelude Bytes Graph Lattice Access Ids Text Objects Refs RefStore Signing Policy Authority Merge Store Pack Gc Acl Walk Repo Wire Http Session Sync HttpSync SyncFacts SyncPush Inproc InprocFacts.

(** ** What a fetch request gives away *)
Section confined.
Context {B : Type} `{StorageLaws B}.
Context {R : Type} `{RefBackendLaws R, IoText, Ed25519}.
Context {A : Type} `{AclBackend A}.
Context `{!ObjectCodec, Zstd}.
Context `{!BodyCodec FetchReq, !BodyCodec FetchResp, !BodyCodec PushReq, !BodyCodec PushResp}.
Abbreviation Node := (Node B R A).
Implicit Types n : Node.

(** Whatever a client sends as a fetch request, the serving repository stays as it is, and
    the response consists of the refs served to the accessor and a pack of
    stored objects that some such ref reaches. *)
Theorem serve_http_fetch_confined n n' (a : Accessor) (body : bytes) (r : res bytes) :
  be_inv (n_refs n) → sb_inv (n_store n) → serve_http_fetch a body n = (r, n') →
  n' = n ∧ ∀ out, r = Ok out → ∃ refs pack resp objs entries digest,
    to_allocvec (MkFetchResp refs pack) = Ok resp ∧ out = respond resp ∧ advertise n a = Ok refs ∧
    finish objs = Ok (pack, entries, digest) ∧
    ∀ id data, (id, data) ∈ objs → sb_view (n_store n) !! id = Some data ∧ servable n a id.
Proof.
  intros Hri Hsi. unfold serve_http_fetch. rewrite lift_bind. destruct (from_bytes body) as [req|]; [|by intros [= <- <-]].
  rewrite gets_bind. destruct (advertise n a) as [refs|] eqn:Ha; [|by intros [= <- <-]].
  rewrite gets_bind. destruct (missing_closure _ _ _) as [missing|] eqn:Hm; [|by intros [= <- <-]].
  rewrite gets_bind. destruct (build_pack n missing) as [pack|] eqn:Hb; [|by intros [= <- <-]].
  rewrite lift_bind. destruct (to_allocvec _) as [resp|] eqn:Hr; [|by intros [= <- <-]].
  intros [= <- <-]. split; [done|]. intros out [= <-]. destruct (build_pack_Ok n missing pack Hsi Hb) as (entries & digest & Hf).
  exists refs, pack, resp, (pack_objs (sb_view (n_store n)) missing), entries, digest. split_and!; [done..|].
  intros id data [Hid Hd]%elem_of_pack_objs. split; [done|].
  pose proof (missing_closure_spec (n_store n) Hsi (list_to_set (fq_have req)) (ad_target <$> refs)) as Hmc. rewrite Hm in Hmc.
  apply Hmc in Hid as (_ & _ & w & (ad & -> & Had)%list_elem_of_fmap & Hp).
  destruct (advertise_spec n a refs Hri Ha) as (names & Hn & Hrefs). apply Hrefs in Had as (name & v & Hname & Hv & ->).
  exists names, name, v. split_and!; [done..|]. eapply rtc_subrel; [|exact Hp]. by intros x y [_ ?].
Qed.
End confined.

(** ** A fetch over HTTP is the in-process one *)
Section agree.
Context `{IoText, Ed25519, ObjectCodec, Zstd, !ZstdLaws}.
Context {B R A : Type} `{StorageLaws B, RefBackend R, AclBackend A}.
Context {B2 R2 A2 : Type} `{StorageLaws B2, RefBackend R2, AclBackend A2}.
Context `{!BodyCodec FetchReq, !BodyCodec FetchResp, !BodyCodec PushReq, !BodyCodec PushResp}.
Context `{!BodyCodecLaws FetchReq req_names, !BodyCodecLaws FetchResp resp_names}.
Abbreviation Self := (Node B R A).
Abbreviation Peer2 := (Node B2 R2 A2).
Implicit Types n : Self.
Implicit Types from : Peer2.

(** A way to cut a stream into reads. *)
Definition cutting (cut : bytes → list bytes) : Prop := ∀ l, concat (cut l) = l ∧ Forall (λ r, r ≠ []) (cut l).

(** The connection to a server that serves [from] once; a server that fails closes it. *)
Definition http_peer (cut_in cut_out : bytes → list bytes) (a : Accessor) from : Peer := λ sent,
  match (serve_http_once a (cut_in sent) from).1 with Ok out => cut_out out | Err _ => [] end.

Definition fits {X} `{BodyCodec X} (x : X) : Prop := ∃ body, to_allocvec x = Ok body ∧ (blen body ≤ MAX_HTTP_BODY_LEN)%N.
(** The request and the response have encodings within the cap. *)
Record exchange_fits n from (a : Accessor) : Prop := {
  ef_request have : list_ids (n_store n) = Ok have → fits (MkFetchReq have);
  ef_response refs have missing pack : advertise from a = Ok refs → list_ids (n_store n) = Ok have →
    missing_closure (n_store from) (ad_target <$> refs) (list_to_set have) = Ok missing → build_pack from missing = Ok pack →
    fits (MkFetchResp refs pack)
}.

(** The server's side of a fetch. *)
Definition fetch_response from (a : Accessor) (have : list ObjectId) : res FetchResp :=
  refs ← advertise from a;
  missing ← missing_closure (n_store from) (ad_target <$> refs) (list_to_set have);
  pack ← build_pack from missing;
  Ok (MkFetchResp refs pack).

Lemma serve_fetch_request from a have body reads : to_allocvec (MkFetchReq have) = Ok body → (blen body ≤ MAX_HTTP_BODY_LEN)%N →
  Forall (λ r, r ≠ []) reads → concat reads = request FETCH_PATH body →
  (serve_http_once a reads from).1 = (resp ← fetch_response from a have; out ← to_allocvec resp; Ok (respond out)).
Proof.
  intros He Hb Hne Hc. unfold serve_http_once. rewrite lift_bind.
  rewrite (read_request FETCH_PATH body reads) by first [done | by apply clean_dec_spec | vm_compute; lia]. cbn beta iota.
  replace (str_contains _ FETCH_PATH) with true by by vm_compute. unfold serve_http_fetch, fetch_response.
  rewrite lift_bind, (from_to_bytes _ body He), gets_bind. cbn [fq_have]. destruct (advertise from a) as [refs|]; [|done]. cbn [mbind result_bind].
  rewrite gets_bind. destruct (missing_closure _ _ _) as [missing|]; [|done]. cbn [mbind result_bind].
  rewrite gets_bind. destruct (build_pack from missing) as [pack|]; [|done]. cbn [mbind result_bind]. rewrite lift_bind.
  by destruct (to_allocvec (MkFetchResp refs pack)).
Qed.

(** What the client gets. *)
Lemma post_fetch from a have body cut_in cut_out : cutting cut_in → cutting cut_out →
  to_allocvec (MkFetchReq have) = Ok body → (blen body ≤ MAX_HTTP_BODY_LEN)%N →
  (∀ resp, fetch_response from a have = Ok resp → fits resp) →
  match fetch_response from a have with
  | Ok resp => ∃ out, to_allocvec resp = Ok out ∧ post (http_peer cut_in cut_out a from) FETCH_PATH body = Ok out
  | Err _ => ∃ e, post (http_peer cut_in cut_out a from) FETCH_PATH body = Err e
  end.
Proof.
  intros Hi Ho He Hb Hf. destruct (Hi (request FETCH_PATH body)) as [Hc Hne].
  pose proof (serve_fetch_request from a have body _ He Hb Hne Hc) as Hs. unfold post, http_peer. rewrite Hs.
  destruct (fetch_response from a have) as [resp|e]; cbn [mbind result_bind].
  - destruct (Hf resp eq_refl) as (out & Hout & Hl). exists out. rewrite Hout. cbn [mbind result_bind]. split; [done|].
    destruct (Ho (respond out)) as [Hco Hno]. rewrite (read_response out _ Hl Hno Hco). cbn [mbind result_bind].
    by replace (str_contains _ " 200") with true by by vm_compute.
  - by eexists.
Qed.

(** However the bytes of the request and the response are cut into reads, a fetch over HTTP
    ends as the in-process one: it fails exactly when that one fails, the fetching
    repository is left in the same state, and the recorded tracking refs are the same. *)
Theorem http_fetch_agrees n from (remote : string) (a : Accessor) cut_in cut_out :
  cutting cut_in → cutting cut_out → exchange_fits n from a →
  match fetch remote from a n, http_fetch (Ok (http_peer cut_in cut_out a from)) remote n with
  | (Ok tracked, n1), (Ok tracked', n2) => tracked' = tracked ∧ n2 = n1
  | (Err _, n1), (Err _, n2) => n2 = n1
  | _, _ => False
  end.
Proof.
  intros Hi Ho [Hreq Hresp]. rewrite fetch_unfold. unfold http_fetch. rewrite lift_bind, gets_bind.
  destruct (list_ids (n_store n)) as [have|e] eqn:Hl; [|by destruct (advertise from a)].
  destruct (Hreq have eq_refl) as (body & He & Hb). rewrite lift_bind, He, lift_bind.
  assert (∀ resp, fetch_response from a have = Ok resp → fits resp) as Hf.
  { intros resp. unfold fetch_response. intros (refs & Ha & (missing & Hm & (pack & Hp & [= <-])%bind_Ok)%bind_Ok)%bind_Ok. by eapply Hresp. }
  pose proof (post_fetch from a have body cut_in cut_out Hi Ho He Hb Hf) as Hpost. unfold fetch_response in Hpost.
  destruct (advertise from a) as [refs|e]; cbn [mbind result_bind] in Hpost; [|by destruct Hpost as [e' ->]].
  destruct (missing_closure _ _ _) as [missing|e]; cbn [mbind result_bind] in Hpost; [|by destruct Hpost as [e' ->]].
  destruct (build_pack from missing) as [pack|e]; cbn [mbind result_bind] in Hpost; [|by destruct Hpost as [e' ->]].
  destruct Hpost as (out & Hout & ->). rewrite lift_bind, (from_to_bytes _ out Hout). cbn [fr_pack fr_refs].
  rewrite lift_bind. destruct (decode_pack pack) as [objs|e]; [|done].
  unfold mbind, M_bind, lift_res. destruct (land objs n) as [[[]|e] n1]; [|done].
  destruct (res_map _ _) as [tracked|e]; [|done]. by destruct (set_tracking _ _) as [[]].
Qed.
End agree.

(** ** What a push changes here *)
Section push.
Context `{IoText, Ed25519, ObjectCodec, Zstd}.
Context {B A : Type} `{StorageLaws B, AclBackend A}.
Context `{!BodyCodec PushReq, !BodyCodec PushResp}.
Abbreviation Node := (Node B MemoryRefBackend A).
Implicit Types n : Node.

(** The tracking refs a push moves are those of updates reported as accepted. *)
Lemma accepted_tracking_Ok remote ops results tracked : accepted_tracking remote ops results = Ok tracked →
  ∀ t x, (t, x) ∈ tracked → ∃ op, op ∈ ops ∧ MkStatus (up_name op) StatusOk ∈ results ∧
    tracking_ref remote (up_name op) = Ok t ∧ x = up_new_head op.
Proof.
  unfold accepted_tracking. intros Hf t x.
  enough (∀ out, res_fold (accepted_step remote ops) out results = Ok tracked → (t, x) ∈ tracked → (t, x) ∈ out ∨
    ∃ op, op ∈ ops ∧ MkStatus (up_name op) StatusOk ∈ results ∧ tracking_ref remote (up_name op) = Ok t ∧ x = up_new_head op) as Hgen.
  { intros Hin. by destruct (Hgen [] Hf Hin) as [?%elem_of_nil|?]. }
  clear Hf. induction results as [|entry results IH]; intros out; [intros [= <-]; by left|]. cbn [res_fold]. rewrite bind_Ok.
  intros (out1 & Ho & Hl) Hin. destruct (IH out1 Hl Hin) as [Hout|(op & ? & ? & ? & ?)]; [|right; exists op; split_and!; [done|by right|done..]].
  unfold accepted_step in Ho. case_decide as Hst; [|injection Ho as <-; by left].
  destruct (find_first _ ops) as [op|] eqn:Hop; [|injection Ho as <-; by left].
  apply find_first_Some in Hop as [Hop Hname%bool_decide_eq_true]. apply bind_Ok in Ho as (tref & Ht & [= <-]).
  apply elem_of_app in Hout as [?|[= -> ->]%list_elem_of_singleton]; [by left|right]. rewrite <- Hname in Ht. exists op. rewrite Hname at 1.
  split_and!; [done| |done..]. destruct entry as [en es]. simpl in *. subst es. by left.
Qed.

(** The updates of a push come from the local timelines it names. *)
Lemma push_plan_Ok n remote timelines ops : res_fold (push_plan_step n remote) [] timelines = Ok ops →
  ∀ op, op ∈ ops → ∃ tl, up_name op ∈ timelines ∧ get_timeline (n_refs n) (up_name op) = Ok (Some tl) ∧ up_new_head op = head tl.
Proof.
  intros Hplan op Hop. enough (∀ out, res_fold (push_plan_step n remote) out timelines = Ok ops → op ∈ out ∨
    ∃ tl, up_name op ∈ timelines ∧ get_timeline (n_refs n) (up_name op) = Ok (Some tl) ∧ up_new_head op = head tl) as Hgen.
  { by destruct (Hgen [] Hplan) as [?%elem_of_nil|?]. }
  clear Hplan. induction timelines as [|name names IH]; intros out; [intros [= ->]; by left|]. cbn [res_fold]. rewrite bind_Ok.
  intros (out1 & Hs & Hl). destruct (IH out1 Hl) as [Hout|(tl & ? & ? & ?)]; [|right; exists tl; split_and!; [by right|done..]].
  unfold push_plan_step in Hs. apply bind_Ok in Hs as ([tl|] & Htl & Hs); [|injection Hs as <-; by left].
  apply bind_Ok in Hs as (tracking & _ & Hs). apply bind_Ok in Hs as (tag & _ & [= <-]).
  apply elem_of_app in Hout as [?| ->%list_elem_of_singleton]; [by left|right]. exists tl. split_and!; [by left|done..].
Qed.

(** Whatever the peer answers, a push over HTTP leaves the objects, the access rules and the
    hooks of the pushing repository alone, and changes no ref but tracking refs
    of the remote: one of these moves only to the head of the local timeline pushed under that name. *)
Theorem http_push_local n n' connect (remote : string) (timelines : list RefName) (r : res (list RefStatusEntry)) :
  mem_ok (n_refs n) → http_push connect remote timelines n = (r, n') →
  n_store n' = n_store n ∧ n_acls n' = n_acls n ∧ n_hooks n' = n_hooks n ∧
  ∀ t, mem_view (n_refs n') !! t = mem_view (n_refs n) !! t ∨
    ∃ name tl, name ∈ timelines ∧ get_timeline (n_refs n) name = Ok (Some tl) ∧ tracking_ref remote name = Ok t ∧
      mem_view (n_refs n') !! t = Some (RTag (MkTag (head tl) 0 None)).
Proof.
  intros Hi. assert (∀ e, (Err e, n) = (r, n') → n_store n' = n_store n ∧ n_acls n' = n_acls n ∧ n_hooks n' = n_hooks n ∧
    ∀ t, mem_view (n_refs n') !! t = mem_view (n_refs n) !! t ∨
      ∃ name tl, name ∈ timelines ∧ get_timeline (n_refs n) name = Ok (Some tl) ∧ tracking_ref remote name = Ok t ∧
        mem_view (n_refs n') !! t = Some (RTag (MkTag (head tl) 0 None))) as Hsame by (intros e [= _ <-]; auto).
  unfold http_push. rewrite gets_bind. destruct (res_fold (push_plan_step n remote) [] timelines) as [ops|e] eqn:Hplan; [|apply Hsame].
  rewrite gets_bind. destruct (missing_closure _ _ _) as [missing|e]; [|apply Hsame].
  rewrite gets_bind. destruct (build_pack n missing) as [pack|e]; [|apply Hsame].
  rewrite lift_bind. destruct connect as [stream|e]; [|apply Hsame].
  rewrite lift_bind. destruct (to_allocvec _) as [body|e]; [|apply Hsame].
  rewrite lift_bind. destruct (post _ _ _) as [out|e]; [|apply Hsame].
  rewrite lift_bind. destruct (from_bytes out) as [resp|e]; [|apply Hsame].
  rewrite lift_bind. destruct (accepted_tracking _ _ _) as [tracked|e] eqn:Htr; [|apply Hsame].
  pose proof (accepted_tracking_Ok _ _ _ _ Htr) as Hin. unfold mbind, M_bind.
  destruct (set_tracking_memory n tracked Hi) as (refs & -> & Hok & Hview).
  { apply Forall_fmap, Forall_forall. intros [t x] (op & _ & _ & Ht & _)%Hin. simpl. by apply tracking_ref_Ok in Ht as [? _]. }
  intros [= _ <-]. split_and!; [done..|]. intros t. cbn [n_refs set_nrefs]. rewrite Hview.
  destruct (tags_cases tracked (mem_view (n_refs n)) t) as [?|(x & Hx & ->)]; [by left|right].
  destruct (Hin t x Hx) as (op & Hop & _ & Ht & ->). destruct (push_plan_Ok _ _ _ _ Hplan op Hop) as (tl & ? & ? & ->).
  exists (up_name op), tl. done.
Qed.
End push.

(** ** On concrete data: the fetch of [InprocFacts.v], byte by byte *)
#[local] Existing Instance demo_io_text.
#[local] Existing Instance toy_ed25519.
#[local] Existing Instance toy_zstd.
#[local] Existing Instance toy_zstd_laws.
#[local] Existing Instance ex_sync_codec.

Definition ex_http_refs : list RefAdvert := [MkAdvert ex_main (ex_id x01) true].
Definition ex_http_pack : bytes := match build_pack ex_server [ex_id x01; ex_id x11; ex_id x21] with Ok p => p | Err _ => [] end.
Definition ex_fetch_codec : BodyCodec FetchReq := table_bodies [(MkFetchReq [], [x01])].
Definition ex_fetched_codec : BodyCodec FetchResp := table_bodies [(MkFetchResp ex_http_refs ex_http_pack, [x02; x03])].
Definition ex_push_codec : BodyCodec PushReq := table_bodies [].
Definition ex_pushed_codec : BodyCodec PushResp := table_bodies [].
#[local] Existing Instance ex_fetch_codec.
#[local] Existing Instance ex_fetched_codec.
#[local] Existing Instance ex_push_codec.
#[local] Existing Instance ex_pushed_codec.
#[local] Instance ex_fetch_codec_laws : BodyCodecLaws FetchReq req_names.
Proof. apply table_bodies_laws; repeat constructor; set_solver. Qed.
#[local] Instance ex_fetched_codec_laws : BodyCodecLaws FetchResp resp_names.
Proof. apply table_bodies_laws; repeat constructor; set_solver. Qed.

Definition byte_by_byte (l : bytes) : list bytes := (λ b, [b]) <$> l.
Lemma byte_by_byte_cutting : cutting byte_by_byte.
Proof.
  intros l. unfold byte_by_byte. induction l as [|b l [Hc Hn]]; [done|]. rewrite fmap_cons. cbn [concat app]. split; [by f_equal|].
  by constructor.
Qed.

Lemma ex_exchange_fits : exchange_fits ex_empty_node ex_server accessor_new.
Proof.
  assert (list_ids (n_store ex_empty_node) = Ok []) as Hl by reflexivity. split; rewrite Hl.
  - intros have [= <-]. exists [x01]. split; [by vm_compute|]. by vm_compute.
  - intros refs have missing pack Ha [= <-] Hm Hp.
    assert (advertise ex_server accessor_new = Ok ex_http_refs) as Ha' by (apply (bool_decide_unpack _); by vm_compute).
    rewrite Ha' in Ha. injection Ha as <-.
    assert (missing_closure (n_store ex_server) (ad_target <$> ex_http_refs) (list_to_set []) = Ok [ex_id x01; ex_id x11; ex_id x21]) as Hm'
      by (apply (bool_decide_unpack _); by vm_compute).
    rewrite Hm' in Hm. injection Hm as <-.
    assert (build_pack ex_server [ex_id x01; ex_id x11; ex_id x21] = Ok ex_http_pack) as Hp' by (apply (bool_decide_unpack _); by vm_compute).
    rewrite Hp' in Hp. injection Hp as <-. exists [x02; x03]. split; [|by vm_compute].
    apply (bool_decide_unpack _). by vm_compute.
Qed.

Lemma http_fetch_agrees_witness : ∃ tracked,
  http_fetch (Ok (http_peer byte_by_byte byte_by_byte accessor_new ex_server)) "origin" ex_empty_node = (Ok tracked, ex_fetched).
Proof.
  pose proof (http_fetch_agrees ex_empty_node ex_server "origin" accessor_new byte_by_byte byte_by_byte
    byte_by_byte_cutting byte_by_byte_cutting ex_exchange_fits) as Ha.
  assert ((fetch "origin" ex_server accessor_new ex_empty_node).1 = Ok [(ex_origin_main, ex_id x01)]) as Hf
    by (apply (bool_decide_unpack _); vm_compute; exact I).
  unfold ex_fetched. destruct (fetch "origin" ex_server accessor_new ex_empty_node) as [r n1]. cbn [fst snd] in *. rewrite Hf in Ha.
  destruct (http_fetch _ "origin" ex_empty_node) as [[tracked|e] n2]; [|destruct Ha]. exists tracked. destruct Ha as [_ ->]. reflexivity.
Defined.
