(* ===== verification/Git.v ===== *)
(** * Git: git objects, the identity map and ref names

    What both directions of the git bridge share: the ids and objects of a git
    repository as the gix crate shows them, and of src/src/repo/git_import.rs the
    [IdentityMap] with its sidecar file, [sanitize_ref_name] and [sanitized_ref].

    gix is a parameter: its repository is the map from ids to kind and raw content
    that its object lookup reads, and its parsers are functions of the raw content.

    The theorems: a sanitised name is a legal bole name, sanitising changes no legal
    name, and within one import two git names never share a bole name; the saved
    sidecar is read back. *)

From S2P Require Import Prelude Ids Text Objects Refs Acl.
From Stdlib Require Import Ascii.

(** ** gix *)

(** [gix::ObjectId]: a SHA-1. *)
Record GitId : Type := MkGitId { git_id : vec byte 20 }.
#[global] Instance GitId_eq_dec : EqDecision GitId. Proof. solve_decision. Defined.
#[global] Program Instance GitId_countable : Countable GitId :=
  inj_countable' (λ g, vec_to_list (git_id g)) (λ l, MkGitId (pad_vec 20 l)) _.
Next Obligation. intros [v]. f_equal. apply pad_vec_to_list. Qed.
Definition git_bytes (g : GitId) : bytes := vec_to_list (git_id g).
#[global] Instance git_bytes_inj : Inj (=) (=) git_bytes.
Proof. intros [v] [w] Heq. f_equal. unfold git_bytes in Heq. simpl in Heq. by apply vec_to_list_inj2 in Heq. Qed.

(** [gix::object::Kind] *)
Inductive GitKind : Type := GitCommit | GitTree | GitBlob | GitTag.
#[global] Instance GitKind_eq_dec : EqDecision GitKind. Proof. solve_decision. Defined.

(** [BStr], text of any bytes; [to_string] and formatting replace what is not UTF-8. *)
Abbreviation BStr := string.
Definition bstr_text (s : BStr) : string := bytes_str (from_utf8_lossy (str_bytes s)).
Lemma bstr_text_valid s : utf8_valid (str_bytes s) = true → bstr_text s = s.
Proof. intros Hs. unfold bstr_text. by rewrite from_utf8_lossy_valid, bytes_str_bytes. Qed.

Record GitSignature : Type := MkSignature { sig_name : BStr; sig_email : BStr; sig_seconds : Z }.
(** What the importer asks of an entry's mode: [is_tree], [is_commit], otherwise a blob. *)
Inductive EntryMode : Type := ModeTree | ModeCommit | ModeBlob.
Record GitEntry : Type := MkGitEntry { ge_mode : EntryMode; ge_filename : BStr; ge_oid : GitId }.
Record GitTagObject : Type := MkGitTag { gt_message : BStr; gt_tagger : option GitSignature }.
#[global] Instance EntryMode_eq_dec : EqDecision EntryMode. Proof. solve_decision. Defined.
#[global] Instance GitEntry_eq_dec : EqDecision GitEntry. Proof. solve_decision. Defined.

(** The parsers, on the raw content of an object of the right kind, and the errors. *)
Class Gix := {
  commit_tree_id : bytes → res GitId;
  commit_parent_ids : bytes → list GitId;
  commit_author : bytes → res GitSignature;
  commit_committer : bytes → res GitSignature;
  commit_message : bytes → BStr;
  tree_iter : bytes → list (res GitEntry);
  tag_decode : bytes → res GitTagObject;
  err_not_found : GitId → Error;
  err_not_kind : GitKind → GitKind → Error
}.

(** An opened repository: its objects (reading one may fail), what iterating over its
    references yields (each with the id it peels to), and the id a reference that is
    not symbolic points to. *)
Record GitRepo : Type := MkGitRepo {
  git_objects : gmap GitId (res (GitKind * bytes));
  git_references : res (list (res (BStr * res GitId)));
  git_targets : gmap string GitId
}.

Section gix.
Context `{Gix}.
Definition find_object (G : GitRepo) (id : GitId) : res (GitKind * bytes) :=
  match git_objects G !! id with Some r => r | None => Err (err_not_found id) end.
(** [try_into_commit], [try_into_tree] *)
Definition try_into (k : GitKind) (obj : GitKind * bytes) : res bytes :=
  if decide (obj.1 = k) then Ok obj.2 else Err (err_not_kind k obj.1).
Definition find_kind (G : GitRepo) (k : GitKind) (id : GitId) : res bytes :=
  obj ← find_object G id; try_into k obj.
End gix.

(** ** [IdentityMap] *)
Record IdentityMap : Type := MkIdentityMap {
  git_to_bole : gmap bytes (vec byte 32);
  bole_to_git : gmap (vec byte 32) bytes
}.
#[global] Instance IdentityMap_eq_dec : EqDecision IdentityMap. Proof. solve_decision. Defined.

Definition idmap_new : IdentityMap := MkIdentityMap ∅ ∅.
Definition idmap_insert (git : bytes) (bole : ObjectId) (m : IdentityMap) : IdentityMap :=
  MkIdentityMap (<[git := as_bytes bole]> (git_to_bole m)) (<[as_bytes bole := git]> (bole_to_git m)).
Definition bole_for_git (m : IdentityMap) (git : bytes) : option ObjectId :=
  ObjectId_new <$> git_to_bole m !! git.
Definition git_for_bole (m : IdentityMap) (bole : ObjectId) : option bytes := bole_to_git m !! as_bytes bole.
Definition idmap_len (m : IdentityMap) : nat := size (git_to_bole m).
Definition idmap_is_empty (m : IdentityMap) : bool := bool_decide (git_to_bole m = ∅).

(** postcard, on the map. *)
Class MapCodec := { map_enc : IdentityMap → res bytes; map_dec : bytes → res IdentityMap }.
Class MapCodecLaws `{MapCodec} := { map_dec_enc m data : map_enc m = Ok data → map_dec data = Ok m }.

(** The files of [<dir>/git-map]. *)
Abbreviation sidecar := (gmap string bytes).

Section sidecar_file.
Context `{MapCodec}.
(** [map_path], given the fingerprint of the source; [with_extension("tmp")]. *)
Definition map_file (fingerprint : string) : string := fingerprint +:+ ".postcard".
Definition map_tmp (fingerprint : string) : string := fingerprint +:+ ".tmp".

Definition idmap_load (fingerprint : string) (d : sidecar) : res IdentityMap :=
  match d !! map_file fingerprint with Some data => map_dec data | None => Ok idmap_new end.
Definition idmap_save (fingerprint : string) (m : IdentityMap) : M sidecar () :=
  data ← lift_res (map_enc m);
  _ ← modify (<[map_tmp fingerprint := data]>);
  modify (λ d, <[map_file fingerprint := data]> (delete (map_tmp fingerprint) d)).
End sidecar_file.

(** ** Ref names *)

(** [s.chars().filter(|c| *c != '\0').collect()] *)
Fixpoint strip_nul (s : string) : string :=
  match s with
  | String.EmptyString => ""
  | String.String a s => if Ascii.eqb a "000" then strip_nul s else String.String a (strip_nul s)
  end.
Definition sanitize_segment (s : string) : string :=
  match strip_nul s with
  | String.String a rest => if Ascii.eqb a "." then "_" +:+ rest else String.String a rest
  | String.EmptyString => ""
  end.
Definition sanitized_segments (git_name : string) : list string :=
  filter (.≠ "") (sanitize_segment <$> filter (.≠ "") (split_on "/" git_name)).
Definition sanitize_ref_name (git_name : string) : option string :=
  match sanitized_segments git_name with [] => None | segs => Some (join_on "/" segs) end.

Definition err_empty_name (short : string) : Error := GitProjection ("ref name empty after sanitization: " +:+ short).
Definition err_clash (prev short sanitized : string) : Error :=
  GitProjection ("git refs '" +:+ prev +:+ "' and '" +:+ short +:+ "' both sanitize to '" +:+ sanitized +:+ "'").
(** [.map_err(|e| Error::GitProjection(e.to_string()))] on the errors of [RefName::new]. *)
Definition as_projection {A} (r : res A) : res A :=
  match r with
  | Err (InvalidRefName msg) => Err (GitProjection ("invalid ref name: " +:+ msg))
  | _ => r
  end.

(** [seen: &mut HashMap<String, String>]: the git name each bole name came from. *)
Definition sanitized_ref (short : string) (seen : gmap string string) : res (RefName * gmap string string) :=
  sanitized ← ok_or (sanitize_ref_name short) (err_empty_name short);
  _ ← match seen !! sanitized with
      | Some prev => if decide (prev = short) then Ok () else Err (err_clash prev short sanitized)
      | None => Ok ()
      end;
  name ← as_projection (RefName_new sanitized);
  Ok (name, <[sanitized := short]> seen).

(** ** Facts about names *)
Lemma split_no_sep c s seg : seg ∈ split_on c s → contains_char c seg = false.
Proof.
  revert seg. induction s as [|a s IH]; intros seg; simpl; [by intros ->%list_elem_of_singleton|].
  destruct (Ascii.eqb_spec a c) as [->|Ha]; [intros [->|?]%elem_of_cons; auto|].
  destruct (split_on c s) as [|seg0 rest]; [intros ->%list_elem_of_singleton; simpl; by destruct (Ascii.eqb_spec a c)|].
  intros [->|?]%elem_of_cons; [|apply IH; by right]. simpl. destruct (Ascii.eqb_spec a c); [done|]. apply IH. left.
Qed.

Lemma split_single c s : contains_char c s = false → split_on c s = [s].
Proof.
  induction s as [|a s IH]; [done|]. simpl. intros [Ha Hs]%orb_false_iff. by rewrite Ha, IH.
Qed.
Lemma split_join_cons c x s : contains_char c x = false → split_on c (x +:+ String.String c s) = x :: split_on c s.
Proof.
  induction x as [|a x IH]; intros Hx.
  - change ("" +:+ String.String c s) with (String.String c s). simpl. by rewrite Ascii.eqb_refl.
  - change (String.String a x +:+ String.String c s) with (String.String a (x +:+ String.String c s)).
    simpl in *. apply orb_false_iff in Hx as [Ha Hx]. by rewrite Ha, IH.
Qed.
Lemma split_join c l : l ≠ [] → (∀ x, x ∈ l → contains_char c x = false) → split_on c (join_on c l) = l.
Proof.
  intros Hne Hl. induction l as [|x l IH]; [done|]. destruct l as [|y l].
  - apply split_single, Hl. left.
  - change (join_on c (x :: y :: l)) with (x +:+ String.String c (join_on c (y :: l))).
    rewrite split_join_cons by (apply Hl; left). f_equal. apply IH; [done|]. intros z ?. apply Hl. by right.
Qed.

Lemma strip_nul_chars s : contains_char "000" (strip_nul s) = false ∧
  (contains_char "/" s = false → contains_char "/" (strip_nul s) = false) ∧
  (contains_char "000" s = false → strip_nul s = s).
Proof.
  induction s as [|a s (IH1 & IH2 & IH3)]; [done|]. simpl. destruct (Ascii.eqb a "000") eqn:Ha.
  - split; [done|]. split; [|done]. intros [_ ?]%orb_false_iff. by apply IH2.
  - simpl. rewrite Ha. split; [done|]. split; [|intros ?; by rewrite IH3].
    intros [-> ?]%orb_false_iff. by apply IH2.
Qed.

Lemma sanitize_segment_spec s : contains_char "/" s = false →
  contains_char "/" (sanitize_segment s) = false ∧
  (sanitize_segment s ≠ "" → safe_segment (sanitize_segment s)) ∧ (safe_segment s → sanitize_segment s = s) ∧
  (sanitize_segment s = "" → strip_nul s = "").
Proof.
  intros Hs. destruct (strip_nul_chars s) as (H0 & H1 & H2). specialize (H1 Hs). unfold sanitize_segment, safe_segment.
  destruct (strip_nul s) as [|a rest]; [by split_and!; [..|intros (_ & _ & <-%H2)|]|].
  simpl in H0, H1. apply orb_false_iff in H0 as [Ha Hr], H1 as [Hb Hr'].
  destruct (Ascii.eqb a ".") eqn:Hd.
  - change ("_" +:+ rest) with (String.String "_" rest). simpl. split_and!; [done..| |done].
    intros (_ & Hdot & <-%H2). simpl in Hdot. congruence.
  - simpl. rewrite Ha, Hb, Hd. split_and!; [done..| |done]. by intros (_ & _ & <-%H2).
Qed.

Lemma sanitized_segments_spec s seg : seg ∈ sanitized_segments s → safe_segment seg ∧ contains_char "/" seg = false.
Proof.
  intros [Hne (seg0 & -> & [_ Hin]%list_elem_of_filter)%list_elem_of_fmap]%list_elem_of_filter.
  destruct (sanitize_segment_spec seg0 (split_no_sep _ _ _ Hin)) as (? & ? & _). auto.
Qed.

Lemma sanitize_safe s : (∀ seg, seg ∈ split_on "/" s → safe_segment seg) → sanitize_ref_name s = Some s.
Proof.
  intros Hsafe. unfold sanitize_ref_name, sanitized_segments.
  rewrite (filter_all (.≠ "") (split_on "/" s)) by (intros seg Hin; apply (Hsafe seg Hin)).
  assert (sanitize_segment <$> split_on "/" s = split_on "/" s) as ->.
  { rewrite <- (list_fmap_id (split_on "/" s)) at 2. apply list_fmap_ext. intros i seg Hseg.
    apply list_elem_of_lookup_2 in Hseg. apply sanitize_segment_spec; [by eapply split_no_sep|by apply Hsafe]. }
  rewrite filter_all by (intros seg Hin; apply (Hsafe seg Hin)). destruct (split_on_cons "/" s) as (seg & rest & Heq).
  rewrite <- (join_split "/" s) at 2. by rewrite Heq.
Qed.

Lemma sanitize_segments s t : sanitize_ref_name s = Some t → split_on "/" t = sanitized_segments s.
Proof.
  unfold sanitize_ref_name. destruct (sanitized_segments s) as [|seg segs] eqn:Hs; [done|]. intros [= <-].
  change (split_on "/" (join_on "/" (seg :: segs)) = seg :: segs).
  apply split_join; [done|]. intros x Hx. rewrite <- Hs in Hx. by apply sanitized_segments_spec in Hx as [_ ?].
Qed.

(** Sanitising a git name yields a legal bole name or refuses it: the result passes
    the check of ref names, is itself left alone by sanitising, and is the git name when
    that was legal already; a name is refused just when nothing of any of its
    segments is left. *)
Theorem sanitize_ref_name_correct (s : string) :
  match sanitize_ref_name s with
  | Some t => RefName_new t = Ok (MkRefName t) ∧ sanitize_ref_name t = Some t ∧ (RefName_new s = Ok (MkRefName s) → t = s)
  | None => ∀ seg, seg ∈ split_on "/" s → strip_nul seg = ""
  end.
Proof.
  destruct (sanitize_ref_name s) as [t|] eqn:Hs.
  - assert (∀ seg, seg ∈ split_on "/" t → safe_segment seg) as Hsafe.
    { intros seg. rewrite (sanitize_segments s t Hs). by intros [? _]%sanitized_segments_spec. }
    split; [by apply RefName_new_Ok|]. split; [by apply sanitize_safe|]. intros [_ Hv]%RefName_new_Ok.
    rewrite (sanitize_safe s Hv) in Hs. by injection Hs.
  - intros seg Hin. unfold sanitize_ref_name in Hs. destruct (sanitized_segments s) as [|seg0 segs] eqn:Hsegs; [|done].
    destruct (decide (seg = "")) as [->|Hne]; [done|].
    apply (sanitize_segment_spec seg (split_no_sep _ _ _ Hin)). destruct (decide (sanitize_segment seg = "")) as [|Hn]; [done|].
    exfalso. eapply not_elem_of_nil. rewrite <- Hsegs. apply list_elem_of_filter. split; [exact Hn|].
    apply list_elem_of_fmap. exists seg. split; [done|]. by apply list_elem_of_filter.
Qed.

(** *** One import gives no two git names the same bole name. *)
Lemma as_projection_Ok {A} (r : res A) a : as_projection r = Ok a ↔ r = Ok a.
Proof. destruct r as [|[]]; naive_solver. Qed.

Lemma sanitized_ref_spec short seen name seen' : sanitized_ref short seen = Ok (name, seen') →
  sanitize_ref_name short = Some (as_str name) ∧ valid_name name ∧
  (seen !! as_str name = None ∨ seen !! as_str name = Some short) ∧ seen' = <[as_str name := short]> seen.
Proof.
  unfold sanitized_ref. rewrite bind_Ok. intros (t & Ht & Hr). apply bind_unit_Ok in Hr as [Hseen Hr].
  apply bind_Ok in Hr as (n & Hn & [= <- <-]). apply as_projection_Ok, RefName_new_valid in Hn as [<- Hv].
  split; [by destruct (sanitize_ref_name short); simplify_eq/=|]. split; [done|]. split; [|done].
  destruct (seen !! as_str n) as [prev|]; [right|by left]. by apply check_Ok in Hseen as [-> _].
Qed.

(** What has been recorded stays. *)
Lemma sanitized_ref_keeps short seen name seen' k s :
  sanitized_ref short seen = Ok (name, seen') → seen !! k = Some s → seen' !! k = Some s.
Proof.
  intros (_ & _ & Hs & ->)%sanitized_ref_spec Hk. destruct (decide (k = as_str name)) as [->|Hne].
  - rewrite Hk in Hs. rewrite lookup_insert_eq. naive_solver.
  - by rewrite lookup_insert_ne.
Qed.

(** ** The sidecar *)
Section sidecar_facts.
Context `{MapCodecLaws}.

Lemma list_ascii_cat s t : String.list_ascii_of_string (s +:+ t) = String.list_ascii_of_string s ++ String.list_ascii_of_string t.
Proof. induction s as [|c s IH]; [done|]. change (String.String c s +:+ t) with (String.String c (s +:+ t)). simpl. by rewrite IH. Qed.

Lemma map_file_tmp f g : map_tmp f ≠ map_file g.
Proof.
  unfold map_tmp, map_file. intros Heq. apply (f_equal (λ s, last (String.list_ascii_of_string s))) in Heq.
  by rewrite !list_ascii_cat, !last_app in Heq.
Qed.
#[global] Instance map_file_inj : Inj (=) (=) map_file.
Proof.
  intros f g Heq. apply (f_equal String.list_ascii_of_string) in Heq. unfold map_file in Heq.
  rewrite !list_ascii_cat in Heq. apply app_inv_tail in Heq.
  by rewrite <- (String.string_of_list_ascii_of_string f), Heq, String.string_of_list_ascii_of_string.
Qed.

(** Saving a map leaves what loading reads back, and no other source's sidecar changes. *)
Lemma idmap_save_load f m d d' : idmap_save f m d = (Ok (), d') →
  idmap_load f d' = Ok m ∧ ∀ g, g ≠ f → d' !! map_file g = d !! map_file g.
Proof.
  unfold idmap_save, idmap_load, mbind, M_bind, lift_res, modify. destruct (map_enc m) as [data|] eqn:He; [|done].
  intros [= <-]. split; [rewrite lookup_insert_eq; by apply map_dec_enc|]. intros g Hg.
  rewrite lookup_insert_ne by by intros ?%(inj map_file).
  rewrite lookup_delete_ne, lookup_insert_ne; [done|apply map_file_tmp..].
Qed.
End sidecar_facts.

(** ** Computations that only add

    A translation only adds to a store. [yields F m Q]: every run of [m] grows its
    state, and if all it stored is in [F] and it returns a value, the value has the
    property [Q]. *)
Class Grows (S : Type) := { grows : relation S; grows_preorder :: PreOrder grows }.
#[global] Instance objects_Grows : Grows objects := {| grows := (⊆) |}.

Section yields.
Context {S : Type} `{Grows S} (F : S).

Definition yields {X} (m : M S X) (Q : X → Prop) : Prop := ∀ s,
  grows s (m s).2 ∧ (grows (m s).2 F → ∀ x, (m s).1 = Ok x → Q x).

Lemma yields_ret {X} (x : X) (Q : X → Prop) : Q x → yields (mret x) Q.
Proof. intros HQ s. split; [reflexivity|]. by intros _ y [= <-]. Qed.
Lemma yields_throw {X} e (Q : X → Prop) : yields (throw e) Q.
Proof. intros s. split; [reflexivity|]. by intros _ y. Qed.
Lemma yields_weaken {X} (m : M S X) (Q Q' : X → Prop) : yields m Q → (∀ x, Q x → Q' x) → yields m Q'.
Proof. intros Hm HQ s. destruct (Hm s) as [Hs Hq]. split; [done|]. intros HF x Hx. by apply HQ, Hq. Qed.
Lemma yields_bind {X Y} (m : M S X) (f : X → M S Y) Q Q' :
  yields m Q → (∀ x, yields (f x) (λ y, Q x → Q' y)) → yields (m ≫= f) Q'.
Proof.
  intros Hm Hf s. destruct (Hm s) as [Hs Hq]. unfold mbind, M_bind. destruct (m s) as [[x|e] s1]; [|done]. simpl in *.
  destruct (Hf x s1) as [Hs' Hq']. split; [by etrans|]. intros HF y Hy. apply (Hq' HF y Hy). apply Hq; [by etrans|done].
Qed.
Lemma yields_lift {X Y} (r : res X) (f : X → M S Y) Q : (∀ x, r = Ok x → yields (f x) Q) → yields (lift_res r ≫= f) Q.
Proof. intros Hf s. unfold lift_res, mbind, M_bind. destruct r as [x|e]; [by apply Hf|]. split; [reflexivity|done]. Qed.
(** A loop: an invariant of what is done and what has been accumulated. *)
Lemma yields_fold {X B} (f : B → X → M S B) (I : list X → B → Prop) l : ∀ l0 b,
  (∀ l1 x l2 b, l0 ++ l = l1 ++ x :: l2 → yields (f b x) (λ b', I l1 b → I (l1 ++ [x]) b')) →
  yields (M_fold f b l) (λ b', I l0 b → I (l0 ++ l) b').
Proof.
  induction l as [|x l IH]; intros l0 b Hf; cbn [M_fold]; [apply yields_ret; by rewrite app_nil_r|].
  eapply yields_bind; [by eapply (Hf l0 x l b)|]. intros b'.
  rewrite (cons_middle x l0 l), (assoc_L (++)). eapply yields_weaken; [apply (IH (l0 ++ [x]) b')|].
  - intros l1 y l2 b''. rewrite <- (assoc_L (++)). apply Hf.
  - simpl. auto.
Qed.
End yields.
