(* ===== verification/GitProject.v ===== *)
(** * GitProject: from bole to git

    [project_to_git] and [project_to_git_mapped] of src/src/repo/git_projection.rs: the
    order of snapshots, the encodings of trees, commits and tags, the nested trees made
    from the visible paths, the loose references, [HEAD] and the sidecar.

    gix is a parameter here as an object database that content can be written to; the
    other files of the target directory are a small file system. *)

From S2P Require Import Prelude Graph Topo Order Ids Text Objects Store Lattice Access Walk Refs RefStore Acl Signing Policy Repo Git.
From Stdlib Require Import Ascii.

(** ** The target *)

(** [git_repo.objects.write_buf(kind, bytes)], and what the database then holds. *)
Class GitOdb (D : Type) := {
  write_buf : GitKind → bytes → M D GitId;
  odb_view : D → gmap GitId (GitKind * bytes)
}.
(** What is written is found under the id that is returned, nothing else changes, and
    nothing that was there is lost. *)
Class GitOdbLaws (D : Type) `{GitOdb D} := {
  write_buf_Ok k data d g d' : write_buf k data d = (Ok g, d') →
    odb_view d' = <[g := (k, data)]> (odb_view d) ∧ odb_view d ⊆ odb_view d';
  write_buf_Err k data d e d' : write_buf k data d = (Err e, d') → odb_view d' = odb_view d
}.

(** The target directory: the object database, and the other files and directories by
    the components of their paths. *)
Record Target (D : Type) : Type := MkTarget {
  t_odb : D;
  t_files : gmap (list string) bytes;
  t_dirs : gset (list string)
}.
Arguments MkTarget {D}.
Arguments t_odb {D}.
Arguments t_files {D}.
Arguments t_dirs {D}.

Section target.
Context {D : Type}.
Definition on_odb {X} (m : M D X) : M (Target D) X := λ t,
  let '(r, d) := m (t_odb t) in (r, MkTarget d (t_files t) (t_dirs t)).

(** The proper prefixes of a path. *)
Definition parent_dirs (p : list string) : list (list string) := (λ i, take i p) <$> seq 1 (length p - 1).
(** [std::fs::create_dir_all(path.parent())] *)
Definition create_parent_dirs (p : list string) : M (Target D) () := λ t,
  if existsb (λ a, bool_decide (is_Some (t_files t !! a))) (parent_dirs p) then (Err (Io NotADirectory), t)
  else (Ok (), MkTarget (t_odb t) (t_files t) (list_to_set (parent_dirs p) ∪ t_dirs t)).
(** [std::fs::write] *)
Definition fs_write (p : list string) (data : bytes) : M (Target D) () := λ t,
  if decide (p ∈ t_dirs t) then (Err (Io IsADirectory), t)
  else (Ok (), MkTarget (t_odb t) (<[p := data]> (t_files t)) (t_dirs t)).
End target.

(** ** Encodings *)

(** ["\n"] *)
Definition newline : string := bytes_str [x0a].
(** [Display] of a git id. *)
Definition git_hex (g : GitId) : string := hex32 (git_bytes g).
Definition ends_line (s : string) : string := if ends_with "010" s then s else s +:+ newline.

Definition encode_tag (target_commit : GitId) (tag_name tagger message : string) : bytes :=
  str_bytes ("object " +:+ git_hex target_commit +:+ newline +:+ "type commit" +:+ newline +:+ "tag " +:+ tag_name +:+
    newline +:+ "tagger " +:+ tagger +:+ newline +:+ newline +:+ ends_line message).

Definition parent_line (p : GitId) : string := "parent " +:+ git_hex p +:+ newline.
Definition encode_commit (tree : GitId) (parents : list GitId) (identity message : string) : bytes :=
  str_bytes ("tree " +:+ git_hex tree +:+ newline +:+ foldr (λ p s, parent_line p +:+ s) "" parents +:+
    "author " +:+ identity +:+ newline +:+ "committer " +:+ identity +:+ newline +:+ newline +:+ ends_line message).

(** An entry of a tree to be written: name, whether a directory, id. *)
Abbreviation OutEntry := (string * bool * GitId)%type.
Definition entry_key (e : OutEntry) : string := if e.1.2 then e.1.1 +:+ "/" else e.1.1.
Definition entry_mode (e : OutEntry) : bytes := if e.1.2 then str_bytes "40000" else str_bytes "100644".
Definition encode_entry (e : OutEntry) : bytes :=
  entry_mode e ++ [x20] ++ str_bytes e.1.1 ++ [x00] ++ git_bytes e.2.
Definition encode_tree (entries : list OutEntry) : bytes :=
  sort_by (λ a b, key_cmp (entry_key a) (entry_key b)) entries ≫= encode_entry.

(** ** Order of snapshots *)
Definition collect_topo (O : objects) (starts : list ObjectId) : res (list ObjectId) :=
  match topo (λ _, edges_of parents_of O) (S (2 * length starts + 2 * degree parents_of O * size O)) ∅ []
    ((λ s, (s, false)) <$> rev starts) with
  | Some r => r
  | None => Err (Panic "out of fuel")
  end.

(** ** Nested trees from paths *)

(** The paths below a directory, without its name. *)
Definition sub_flat (dir : string) (flat : gmap string ObjectId) : gmap string ObjectId :=
  list_to_map (omap (λ e, rest ← strip_prefix (dir +:+ "/") e.1; Some (rest, e.2)) (btree_iter flat)).

Section trees.
Context {D : Type} `{GitOdb D} (O : objects).

(** One path: the first of a directory writes the directory's tree, a name without a
    slash its blob; what is not a blob is skipped. *)
Definition level_entry (subtree : gmap string ObjectId → M D GitId) (flat : gmap string ObjectId)
    (acc : list OutEntry * gset string) (e : string * ObjectId) : M D (list OutEntry * gset string) :=
  let '(path, blob_id) := e in
  match split_once path with
  | Some (dir, _) =>
      if decide (dir ∈ acc.2) then mret acc
      else sub_id ← subtree (sub_flat dir flat); mret (acc.1 ++ [(dir, true, sub_id)], {[dir]} ∪ acc.2)
  | None =>
      obj ← lift_res (os_get O blob_id);
      match obj with
      | Some (OBlob b) =>
          git_blob ← write_buf GitBlob (blob_data b); mret (acc.1 ++ [(path, false, git_blob)], acc.2)
      | _ => mret acc
      end
  end.

(** [fuel] bounds the number of slashes in a path. *)
Fixpoint write_tree_level (fuel : nat) (flat : gmap string ObjectId) : M D GitId :=
  match fuel with
  | 0 => throw (Panic "stack overflow")
  | S fuel =>
      acc ← M_fold (level_entry (write_tree_level fuel) flat) ([], ∅) (btree_iter flat);
      write_buf GitTree (encode_tree acc.1)
  end.

Definition path_fuel (flat : gmap string ObjectId) : nat := S (max_list (String.length <$> btree_keys flat)).
Definition write_git_tree_level (flat : gmap string ObjectId) : M D GitId := write_tree_level (path_fuel flat) flat.
End trees.

(** ** [project_impl] *)
Section project.
Context {R : Type} `{RefBackend R, IoText, Ed25519}.
Context {A : Type} `{AclBackend A}.
Context {D : Type} `{GitOdb D, MapCodec}.
Context (s : Repository R A) (accessor : Accessor).

Definition write_loose_ref (ref_name : string) (sha : GitId) : M (Target D) () :=
  let path := split_on "/" ref_name in
  _ ← create_parent_dirs path;
  fs_write path (str_bytes (git_hex sha +:+ newline)).

Definition as_timeline (name : RefName) (r : option Ref) : option (RefName * ObjectId) :=
  match r with Some (RTimeline tl) => Some (name, head tl) | _ => None end.
(** The visible timelines and their heads. *)
Definition timeline_heads (visible : list RefName) : res (list (RefName * ObjectId)) :=
  res_fold (λ acc name, r ← get_ref (r_refs s) name; Ok (acc ++ option_list (as_timeline name r))) [] visible.

(** The identity line of a snapshot's commit. *)
Definition commit_identity (snap : Snapshot) : string :=
  (if decide (snap_author snap = "") then "bole" else snap_author snap) +:+ " <bole@local> " +:+
  pretty (snap_created_at snap) +:+ " +0000".

(** One snapshot of pass 3. *)
Definition project_snapshot (lattice : LabelLattice) (rules : LabelRuleSet) (id_map : gmap ObjectId GitId)
    (snap_id : ObjectId) : M D (gmap ObjectId GitId) :=
  obj ← lift_res (os_get (r_objects s) snap_id);
  match obj with
  | Some (OSnapshot snap) =>
      flat ← lift_res (walk_tree_filtered (r_objects s) lattice rules accessor (snap_root snap) "" ∅);
      git_tree ← write_git_tree_level (r_objects s) flat;
      let parents := omap (λ p, id_map !! p) (snap_parents snap) in
      git_commit ← write_buf GitCommit (encode_commit git_tree parents (commit_identity snap) (snap_message snap));
      mret (<[snap_id := git_commit]> id_map)
  | _ => mret id_map
  end.

(** One timeline of pass 4. *)
Definition project_branch (id_map : gmap ObjectId GitId) (h : RefName * ObjectId) : M (Target D) () :=
  match id_map !! h.2 with
  | Some git_id => write_loose_ref ("refs/heads/" +:+ as_str h.1) git_id
  | None => mret ()
  end.

(** One visible ref of pass 5. *)
Definition project_tag (id_map : gmap ObjectId GitId) (name : RefName) : M (Target D) () :=
  r ← lift_res (get_ref (r_refs s) name);
  match r with
  | Some (RTag tag) =>
      match id_map !! tag_target tag with
      | Some git_commit =>
          target ← match tag_message tag with
                   | None => mret git_commit
                   | Some msg =>
                       on_odb (write_buf GitTag (encode_tag git_commit (as_str name)
                         ("bole <bole@local> " +:+ pretty (tag_created_at tag) +:+ " +0000") msg))
                   end;
          write_loose_ref ("refs/tags/" +:+ as_str name) target
      | None => mret ()
      end
  | _ => mret ()
  end.

(** Passes 1 to 6; [open] is the outcome of opening or creating the target. *)
Definition project_objects (open : res ()) : M (Target D) (gmap ObjectId GitId) :=
  _ ← lift_res open;
  visible ← lift_res (list_refs_filtered s "" accessor);
  heads ← lift_res (timeline_heads visible);
  ordered ← lift_res (collect_topo (r_objects s) heads.*2);
  lattice ← lift_res (get_lattice (r_acls s));
  rules ← lift_res (get_label_ruleset (r_acls s));
  id_map ← on_odb (M_fold (project_snapshot lattice rules) ∅ ordered);
  _ ← M_iter (project_branch id_map) heads;
  _ ← M_iter (project_tag id_map) visible;
  _ ← match find_first (λ h, bool_decide (is_Some (id_map !! h.2))) heads with
      | Some h => fs_write ["HEAD"] (str_bytes ("ref: refs/heads/" +:+ as_str h.1 +:+ newline))
      | None => mret ()
      end;
  mret id_map.

(** Pass 7, in the unspecified order of a [HashMap]. *)
Definition extend_map (id_map : gmap ObjectId GitId) (m : IdentityMap) : IdentityMap :=
  foldl (λ m e, idmap_insert (git_bytes e.2) e.1 m) m (map_to_list id_map).

(** The target and the sidecar directory; [map_dir] gives the fingerprint of the target,
    if the correspondence is to be recorded. *)
Definition project_impl (open : res ()) (map_dir : option string) : M (Target D * sidecar) () := λ w,
  let '(r, t) := project_objects open w.1 in
  match r with
  | Err e => (Err e, (t, w.2))
  | Ok id_map =>
      match map_dir with
      | None => (Ok (), (t, w.2))
      | Some fp =>
          let '(r, d) := (m ← gets (idmap_load fp); idmap_save fp (extend_map id_map m)) w.2 in (r, (t, d))
      end
  end.
Definition project_to_git (open : res ()) : M (Target D * sidecar) () := project_impl open None.
Definition project_to_git_mapped (open : res ()) (fingerprint : string) : M (Target D * sidecar) () :=
  project_impl open (Some fingerprint).
End project.
