(* ===== verification/GitImport.v ===== *)
(** * GitImport: from git to bole

    [git_import] of src/src/repo/git_import.rs with all its passes: the references it
    selects, the order of commits, the translation of commits, trees and blobs, the
    timelines and tags it creates or advances, the label rules, the sidecar.  Values the
    code passes as [&mut] are threaded; the stored objects, the refs, the rules and the
    sidecar are state and survive an error.

    The clock of an import is the constant zero, as in the code. Reading the ruleset
    file is a parameter. *)

From S2P Require Import Prelude Graph Topo Ids Text Objects Store Lattice Access Refs RefStore Acl Signing Policy Merge Ephemeral Repo Git.

(** [ImportOptions] *)
Record ImportOptions : Type := MkImportOptions {
  io_branches : list string;
  io_timeline_policy : TimelinePolicy;
  io_label_ruleset : option string;
  io_dry_run : bool;
  io_force : bool
}.
Definition ImportOptions_default : ImportOptions := MkImportOptions [] Unrestricted None false false.

Record ImportSummary : Type := MkSummary {
  blobs_written : N;
  trees_written : N;
  snapshots_written : N;
  timelines_created : N;
  timelines_advanced : N;
  tags_created : N;
  skipped_via_identity_map : N
}.
#[global] Instance ImportSummary_eq_dec : EqDecision ImportSummary. Proof. solve_decision. Defined.
Definition ImportSummary_default : ImportSummary := MkSummary 0 0 0 0 0 0 0.
Definition count_blob (s : ImportSummary) : ImportSummary :=
  MkSummary (blobs_written s + 1) (trees_written s) (snapshots_written s) (timelines_created s) (timelines_advanced s) (tags_created s) (skipped_via_identity_map s).
Definition count_tree (s : ImportSummary) : ImportSummary :=
  MkSummary (blobs_written s) (trees_written s + 1) (snapshots_written s) (timelines_created s) (timelines_advanced s) (tags_created s) (skipped_via_identity_map s).
Definition count_snapshot (s : ImportSummary) : ImportSummary :=
  MkSummary (blobs_written s) (trees_written s) (snapshots_written s + 1) (timelines_created s) (timelines_advanced s) (tags_created s) (skipped_via_identity_map s).
Definition count_created (s : ImportSummary) : ImportSummary :=
  MkSummary (blobs_written s) (trees_written s) (snapshots_written s) (timelines_created s + 1) (timelines_advanced s) (tags_created s) (skipped_via_identity_map s).
Definition count_advanced (s : ImportSummary) : ImportSummary :=
  MkSummary (blobs_written s) (trees_written s) (snapshots_written s) (timelines_created s) (timelines_advanced s + 1) (tags_created s) (skipped_via_identity_map s).
Definition count_tag (s : ImportSummary) : ImportSummary :=
  MkSummary (blobs_written s) (trees_written s) (snapshots_written s) (timelines_created s) (timelines_advanced s) (tags_created s + 1) (skipped_via_identity_map s).
Definition count_skipped (s : ImportSummary) : ImportSummary :=
  MkSummary (blobs_written s) (trees_written s) (snapshots_written s) (timelines_created s) (timelines_advanced s) (tags_created s) (skipped_via_identity_map s + 1).

(** The two values a translation updates. *)
Abbreviation Tr := (IdentityMap * ImportSummary)%type.

(** [map.insert(oid.as_bytes().to_vec(), id)] and one counter. *)
Definition record_id (oid : GitId) (id : ObjectId) (count : ImportSummary → ImportSummary) (tr : Tr) : Tr :=
  (idmap_insert (git_bytes oid) id tr.1, count tr.2).

(** ** Order of commits *)
Section order.
Context `{Gix} (G : GitRepo).

(** The parents not yet visited; the last one pushed is met first. *)
Definition commit_next (visited : gset GitId) (id : GitId) : res (list GitId) :=
  data ← find_kind G GitCommit id;
  Ok (rev (filter (.∉ visited) (commit_parent_ids data))).
Definition commit_degree : nat :=
  max_list ((λ e : GitId * res (GitKind * bytes),
    match e.2 with Ok (_, data) => length (commit_parent_ids data) | Err _ => 0 end) <$> map_to_list (git_objects G)).
(** Each stored commit pushes at most [commit_degree] ids. *)
Definition topo_commits_fuel (heads : list GitId) : nat :=
  S (2 * length heads + 2 * commit_degree * size (git_objects G)).
Definition topo_commits (heads : list GitId) : res (list GitId) :=
  match topo commit_next (topo_commits_fuel heads) ∅ [] ((λ h, (h, false)) <$> rev heads) with
  | Some r => r
  | None => Err (Panic "out of fuel")
  end.
End order.

(** ** Translation *)
Section translate.
Context `{Gix, ObjectCodec} (G : GitRepo) (dry_run : bool).

(** [if dry_run { object_id(to_allocvec(obj)) } else { put(obj) }] *)
Definition store_or_id (obj : Object) : M objects ObjectId :=
  if dry_run then lift_res (obj_id obj) else os_put obj.

Definition translate_blob (oid : GitId) (tr : Tr) : M objects (ObjectId * Tr) :=
  match bole_for_git tr.1 (git_bytes oid) with
  | Some existing => mret (existing, tr)
  | None =>
      blob ← lift_res (find_object G oid);
      id ← store_or_id (OBlob (MkBlob blob.2));
      mret (id, record_id oid id count_blob tr)
  end.

(** One entry of a tree, given the translation of subtrees. *)
Definition import_entry (subtree : GitId → Tr → M objects (ObjectId * Tr)) (acc : gmap string TreeEntry * Tr)
    (entry : res GitEntry) : M objects (gmap string TreeEntry * Tr) :=
  e ← lift_res entry;
  match ge_mode e with
  | ModeTree => '(id, tr) ← subtree (ge_oid e) acc.2;
                mret (<[bstr_text (ge_filename e) := MkTreeEntry id KindTree]> acc.1, tr)
  | ModeCommit => mret acc
  | ModeBlob => '(id, tr) ← translate_blob (ge_oid e) acc.2;
                mret (<[bstr_text (ge_filename e) := MkTreeEntry id KindBlob]> acc.1, tr)
  end.

(** [fuel] bounds the nesting. *)
Fixpoint translate_tree (fuel : nat) (oid : GitId) (tr : Tr) : M objects (ObjectId * Tr) :=
  match bole_for_git tr.1 (git_bytes oid) with
  | Some existing => mret (existing, tr)
  | None =>
      match fuel with
      | O => throw (Panic "stack overflow")
      | S fuel =>
          data ← lift_res (find_kind G GitTree oid);
          '(entries, tr) ← M_fold (import_entry (translate_tree fuel)) (∅, tr) (tree_iter data);
          id ← store_or_id (OTree (MkTree entries));
          mret (id, record_id oid id count_tree tr)
      end
  end.

(** No chain of nested trees is longer than the repository has objects. *)
Definition tree_fuel : nat := S (size (git_objects G)).

Definition err_parent : Error := GitProjection "parent commit not translated before child".
Fixpoint mapped_parents (m : IdentityMap) (ps : list GitId) : res (list ObjectId) :=
  match ps with
  | [] => Ok []
  | p :: ps => b ← ok_or (bole_for_git m (git_bytes p)) err_parent; l ← mapped_parents m ps; Ok (b :: l)
  end.

(** [author.seconds().max(0) as u64] *)
Definition as_time (seconds : Z) : N := Z.to_N (Z.max 0 seconds).
Definition signature_text (s : GitSignature) : string := bstr_text (sig_name s) +:+ " <" +:+ bstr_text (sig_email s) +:+ ">".
(** ["\n\n"] *)
Definition two_lines : string := bytes_str [x0a; x0a].
(** The message, with the committer as a trailer where it is not the author. *)
Definition import_message (author : GitSignature) (committer : res GitSignature) (message : string) : string :=
  match committer with
  | Ok c =>
      if negb (bool_decide (sig_name c = sig_name author)) || negb (bool_decide (sig_email c = sig_email author))
      then bytes_str (trim_end (str_bytes message)) +:+ two_lines +:+ "Committer: " +:+
           signature_text c +:+ " " +:+ pretty (sig_seconds c)
      else message
  | Err _ => message
  end.

Definition translate_commit (oid : GitId) (tr : Tr) : M objects (ObjectId * Tr) :=
  match bole_for_git tr.1 (git_bytes oid) with
  | Some existing => mret (existing, (tr.1, count_skipped tr.2))
  | None =>
      data ← lift_res (find_kind G GitCommit oid);
      tree_oid ← lift_res (commit_tree_id data);
      '(root, tr) ← translate_tree tree_fuel tree_oid tr;
      parents ← lift_res (mapped_parents tr.1 (commit_parent_ids data));
      author ← lift_res (commit_author data);
      let message := import_message author (commit_committer data) (bstr_text (commit_message data)) in
      id ← store_or_id (OSnapshot (MkSnapshot root parents (signature_text author)
             (as_time (sig_seconds author)) message));
      mret (id, record_id oid id count_snapshot tr)
  end.

(** [for commit_oid in &ordered] *)
Definition translate_all (ordered : list GitId) (tr : Tr) : M objects Tr :=
  M_fold (λ tr oid, r ← translate_commit oid tr; mret r.2) tr ordered.
End translate.

(** ** Branches and tags *)
Abbreviation named_ids := (list (string * GitId)).
(** One reference: a selected branch, a tag, or neither. *)
Definition sort_ref (opts : ImportOptions) (acc : named_ids * named_ids) (r : res (BStr * res GitId))
    : res (named_ids * named_ids) :=
  '(name, peeled) ← r;
  let full := bstr_text name in
  target ← peeled;
  match strip_prefix "refs/heads/" full with
  | Some short =>
      if bool_decide (io_branches opts = []) || existsb (λ b, bool_decide (b = short)) (io_branches opts)
      then Ok (acc.1 ++ [(short, target)], acc.2) else Ok acc
  | None =>
      match strip_prefix "refs/tags/" full with
      | Some short => Ok (acc.1, acc.2 ++ [(short, target)])
      | None => Ok acc
      end
  end.
Definition sort_refs (opts : ImportOptions) (G : GitRepo) : res (named_ids * named_ids) :=
  refs ← git_references G; res_fold (sort_ref opts) ([], []) refs.

Section import.
Context {R : Type} `{RefBackend R, IoText, Ed25519}.
Context {A : Type} `{AclBackend A}.
Context `{Gix, ObjectCodec, MapCodec}.
(** [std::fs::read], of the ruleset file. *)
Context (read_file : string → res bytes).
Abbreviation Repo := (Repository R A).

(** An operation of the object store, of the access rules. *)
Definition on_objects {X} (m : M objects X) : M Repo X := λ s,
  let '(r, objs) := m (r_objects s) in (r, set_objects objs s).
Definition on_acls {X} (m : M A X) : M Repo X := λ s,
  let '(r, a) := m (r_acls s) in (r, MkRepo (r_objects s) (r_refs s) a (r_hooks s) (r_audit s)).

(** The names seen so far and the summary. *)
Abbreviation Names := (gmap string string * ImportSummary)%type.

Definition err_untranslated (short : string) : Error := GitProjection ("untranslated branch head: " +:+ short).
Definition err_not_forward (name : RefName) : Error :=
  GitProjection ("non-fast-forward re-import of '" +:+ as_str name +:+ "' (use force)").

(** One branch of pass 7. *)
Definition import_branch (opts : ImportOptions) (map : IdentityMap) (acc : Names) (branch : string * GitId)
    : M Repo Names :=
  let '(short, oid) := branch in
  '(name, seen) ← lift_res (sanitized_ref short acc.1);
  bole_head ← lift_res (ok_or (bole_for_git map (git_bytes oid)) (err_untranslated short));
  existing ← gets (λ s, get_timeline (r_refs s) name);
  match existing with
  | None =>
      _ ← on_refs (create_timeline name bole_head (io_timeline_policy opts) 0 "persistent" None);
      mret (seen, count_created acc.2)
  | Some tl =>
      ancestor ← gets (λ s, find_common_ancestor (r_objects s) (head tl) bole_head);
      if negb (io_force opts || bool_decide (policy tl = Unrestricted) || bool_decide (ancestor = Some (head tl)))
      then throw (err_not_forward name)
      else if decide (head tl = bole_head) then mret (seen, acc.2)
      else _ ← on_refs (advance_head name bole_head); mret (seen, count_advanced acc.2)
  end.

(** [annotated_tag_meta]: the message and time of the tag a ref points to. *)
Definition tag_meta (G : GitRepo) (short : string) (bole_target : ObjectId) (s : Repo) : res (option string * N) :=
  let lightweight :=
    obj ← os_get (r_objects s) bole_target;
    Ok (None, match obj with Some (OSnapshot snap) => snap_created_at snap | _ => 0%N end) in
  match git_targets G !! ("refs/tags/" +:+ short) with
  | Some tid =>
      match find_object G tid with
      | Ok (GitTag, data) =>
          t ← tag_decode data;
          let '(line, created_at) :=
            match gt_tagger t with
            | Some g => (two_lines +:+ "Tagger: " +:+ signature_text g +:+ " " +:+ pretty (sig_seconds g), as_time (sig_seconds g))
            | None => ("", 0%N)
            end in
          Ok (Some (bstr_text (gt_message t) +:+ line), created_at)
      | _ => lightweight
      end
  | None => lightweight
  end.

Definition translate_tag (G : GitRepo) (map : IdentityMap) (name : RefName) (target : GitId) (sum : ImportSummary)
    : M Repo ImportSummary :=
  match bole_for_git map (git_bytes target) with
  | None => mret sum
  | Some bole_target =>
      '(message, created_at) ← gets (tag_meta G (as_str name) bole_target);
      existing ← gets (λ s, get_tag (r_refs s) name);
      match existing with
      | Some _ => mret sum
      | None => _ ← on_refs (create_tag name bole_target message created_at); mret (count_tag sum)
      end
  end.

(** One tag of pass 8. *)
Definition import_tag (G : GitRepo) (map : IdentityMap) (acc : Names) (tag : string * GitId) : M Repo Names :=
  let '(short, target) := tag in
  '(name, seen) ← lift_res (sanitized_ref short acc.1);
  sum ← translate_tag G map name target acc.2;
  mret (seen, sum).

(** [read_to_string] *)
Definition err_utf8 : Error := Io (OtherIo "stream did not contain valid UTF-8").
Definition read_to_string (path : string) : res bytes :=
  data ← read_file path; if utf8_valid data then Ok data else Err err_utf8.
Definition ruleset_line (line : bytes) : M Repo () :=
  let glob := trim line in
  if bool_decide (glob = []) || match glob with x23 :: _ => true | _ => false end then mret ()
  else on_acls (set_path_acl (MkPathAcl (bytes_str glob))).
Definition apply_label_ruleset (ruleset : string) : M Repo () :=
  text ← lift_res (read_to_string ruleset);
  M_iter ruleset_line (lines text).

(** ** [git_import] *)

(** The repository and the files of the sidecar directory. *)
Definition World : Type := (Repo * sidecar)%type.
Definition on_repo {X} (m : M Repo X) : M World X := λ w, let '(r, s) := m w.1 in (r, (s, w.2)).
Definition on_sidecar {X} (m : M sidecar X) : M World X := λ w, let '(r, d) := m w.2 in (r, (w.1, d)).

(** Passes 7 to 9: everything but objects and sidecar. *)
Definition import_refs (G : GitRepo) (opts : ImportOptions) (branches tags : named_ids) (tr : Tr) : M Repo ImportSummary :=
  names ← M_fold (import_branch opts tr.1) (∅, tr.2) branches;
  names ← M_fold (import_tag G tr.1) names tags;
  _ ← match io_label_ruleset opts with Some ruleset => apply_label_ruleset ruleset | None => mret () end;
  mret names.2.

(** [open] is the outcome of [gix::open]; the source stands for its fingerprint. *)
Definition git_import (open : res GitRepo) (source : string) (opts : ImportOptions) : M World ImportSummary :=
  G ← lift_res open;
  map ← gets (λ w, idmap_load source w.2);
  '(branches, tags) ← lift_res (sort_refs opts G);
  ordered ← lift_res (topo_commits G branches.*2);
  tr ← on_repo (on_objects (translate_all G (io_dry_run opts) ordered (map, ImportSummary_default)));
  if io_dry_run opts then mret tr.2
  else
    sum ← on_repo (import_refs G opts branches tags tr);
    _ ← on_sidecar (idmap_save source tr.1);
    mret sum.
End import.
