(* ===== verification/GitProjectFacts.v ===== *)
(** * GitProjectFacts: what an export contains

    The theorems about the parts of src/src/repo/git_projection.rs: the order of
    snapshots; a tree that is written reads back, in git, as exactly the paths it was
    made from. *)

From S2P Require Import Prelude Graph Topo Order Ids Text Objects Store Lattice Access Walk Refs RefStore Acl Signing Policy Merge Repo Git GitProject GitImportFacts.
From Stdlib Require Import Ascii.

(** ** The order of snapshots *)

Lemma collect_topo_runs (O : objects) (starts : list ObjectId) :
  ∃ r, topo (λ _, edges_of parents_of O) (S (2 * length starts + 2 * degree parents_of O * size O)) ∅ []
    ((λ s, (s, false)) <$> rev starts) = Some r.
Proof.
  destruct (topo_fuel (λ _, edges_of parents_of O) (S (2 * length starts + 2 * degree parents_of O * size O)) ∅ []
    ((λ s, (s, false)) <$> rev starts) (dom O) (degree parents_of O)) as [r Hr]; [..|by exists r].
  - intros V x ns Hns. destruct (edges_of_bound parents_of O x ns Hns) as [Hl Hin]. by split.
  - rewrite difference_empty_L, size_dom.
    replace (topo_weight ((λ s, (s, false)) <$> rev starts)) with (2 * length starts); [lia|].
    pose proof (topo_weight_push (rev starts) (A := ObjectId) []) as Hw. rewrite app_nil_r in Hw. rewrite Hw, length_rev.
    unfold topo_weight. simpl. lia.
Qed.

Lemma parents_next (O : objects) (V : gset ObjectId) x ns : edges_of parents_of O x = Ok ns →
  (∀ y, y ∈ ns → parent_of O x y) ∧ ∀ y, parent_of O x y → y ∈ ns ∨ y ∈ V.
Proof.
  intros Hns. assert (∀ y, y ∈ ns ↔ parent_of O x y) as Hy; [|split; intros y; [by rewrite Hy|intros ?; left; by apply Hy]].
  intros y. rewrite <- edge_parents. unfold edge. rewrite Hns. naive_solver.
Qed.

Lemma collect_topo_within (O : objects) (starts : list ObjectId) l x :
  collect_topo O starts = Ok l → x ∈ l → reached (parent_of O) starts x.
Proof.
  unfold collect_topo. destruct (collect_topo_runs O starts) as [r Hr]. rewrite Hr. intros -> Hx.
  apply (topo_within _ _ _ (λ V x ns, parents_next O V x ns) _ _ _ _ _ Hr); [by intros ? ?%elem_of_nil| |done].
  intros y b (s & [= -> ->] & Hs)%list_elem_of_fmap. exists s. split; [|done].
  by rewrite list_elem_of_In, in_rev, <- list_elem_of_In.
Qed.

Lemma collect_topo_spec (O : objects) (starts : list ObjectId) :
  (∀ x, reached (parent_of O) starts x → ¬ tc (parent_of O) x x) →
  match collect_topo O starts with
  | Ok l => NoDup l ∧ parents_first (parent_of O) l ∧ ∀ x, x ∈ l ↔ reached (parent_of O) starts x
  | Err e => ∃ x, reached (parent_of O) starts x ∧ O !! x = Some (Err e)
  end.
Proof.
  intros Hac. unfold collect_topo. destruct (collect_topo_runs O starts) as [r Hr]. rewrite Hr.
  apply (topo_sound _ (parent_of O) starts) in Hr; [|intros V x ns; apply parents_next|done].
  destruct r as [l|e]; [done|]. destruct Hr as (V & x & Hx & He). exists x. split; [done|].
  unfold edges_of in He. apply os_get_Err. destruct (os_get O x); by simplify_eq/=.
Qed.

(** The sort of snapshots ends on every store. On a history without cycles (a snapshot
    is named by the hash of its parents' ids) it lists every id the starts reach by
    parent links, each once, and each after all its parents; it fails only on an id
    that is reached and cannot be read. *)
Theorem collect_topo_correct (O : objects) (starts : list ObjectId) :
  (∀ x, reached (parent_of O) starts x → ¬ tc (parent_of O) x x) →
  match collect_topo O starts with
  | Ok l => NoDup l ∧ parents_first (parent_of O) l ∧ ∀ x, x ∈ l ↔ reached (parent_of O) starts x
  | Err e => ∃ x, reached (parent_of O) starts x ∧ O !! x = Some (Err e)
  end.
Proof. apply collect_topo_spec. Qed.

(** ** Paths *)
Lemma split_once_None p : split_once p = None → contains_char "/" p = false.
Proof.
  induction p as [|a p IH]; [done|]. cbn [split_once contains_char]. destruct (Ascii.eqb a "/"); [done|].
  destruct (split_once p) as [[]|]; [done|]. intros _. by apply IH.
Qed.
Lemma split_once_Some p dir rest : split_once p = Some (dir, rest) → p = dir +:+ "/" +:+ rest ∧ contains_char "/" dir = false.
Proof.
  revert dir. induction p as [|a p IH]; intros dir; [done|]. cbn [split_once]. destruct (Ascii.eqb_spec a "/") as [->|Ha].
  - by intros [= <- <-].
  - destruct (split_once p) as [[x y]|]; [|done]. intros [= <- <-]. destruct (IH x eq_refl) as [-> Hx]. split; [done|].
    cbn [contains_char]. rewrite Hx. by destruct (Ascii.eqb_spec a "/").
Qed.
Lemma split_slash dir rest : contains_char "/" dir = false → split_on "/" (dir +:+ "/" +:+ rest) = dir :: split_on "/" rest.
Proof. apply split_join_cons. Qed.

Lemma string_length_app a b : String.length (a +:+ b) = String.length a + String.length b.
Proof. induction a as [|c a IH]; [done|]. change (String.String c a +:+ b) with (String.String c (a +:+ b)). simpl. by rewrite IH. Qed.

Lemma sub_flat_lookup dir (flat : gmap string ObjectId) rest : sub_flat dir flat !! rest = flat !! (dir +:+ "/" +:+ rest).
Proof.
  set (l := omap (λ e, rest ← strip_prefix (dir +:+ "/") e.1; Some (rest, e.2)) (btree_iter flat)).
  assert (∀ k x, (k, x) ∈ l ↔ flat !! (dir +:+ "/" +:+ k) = Some x) as Hl.
  { intros k x. unfold l. rewrite list_elem_of_omap. split.
    - intros ([p y] & Hin%elem_of_btree_iter & Hs). simpl in Hs. destruct (strip_prefix _ p) as [k'|] eqn:Hp; [|done].
      injection Hs as -> ->. apply strip_prefix_Some in Hp as ->. by rewrite string_app_assoc in Hin.
    - intros Hx%elem_of_btree_iter. eexists. split; [exact Hx|]. cbn [fst snd]. rewrite <- string_app_assoc.
      by rewrite strip_prefix_app. }
  apply option_eq. intros x. rewrite <- Hl. unfold sub_flat. fold l. symmetry. apply elem_of_list_to_map.
  assert (∀ es : list (string * ObjectId), NoDup es.*1 →
    NoDup (omap (λ e, rest ← strip_prefix (dir +:+ "/") e.1; Some (rest, e.2)) es).*1) as Hnd; [|apply Hnd, NoDup_btree_keys].
  induction es as [|[p y] es IH]; cbn [fmap list_fmap]; [intros; constructor|]. intros [Hp Hes]%NoDup_cons. cbn [omap list_omap fst snd].
  destruct (strip_prefix (dir +:+ "/") p) as [k|] eqn:Hk; [|by apply IH]. cbn [fmap list_fmap fst]. apply NoDup_cons. split; [|by apply IH].
  intros ([k' z] & Hk' & ([q w] & Hq & Hs)%list_elem_of_omap)%list_elem_of_fmap. simpl in Hk', Hs. subst k'.
  destruct (strip_prefix _ q) as [k2|] eqn:Hq2; [|done]. injection Hs as -> ->.
  apply strip_prefix_Some in Hk, Hq2. subst p q. apply Hp. by apply (list_elem_of_fmap_2 fst _ (_, z)).
Qed.

(** ** Reading a written tree *)

(** A segment of a path that can be the name of a tree entry. *)
Definition name_ok (n : string) : Prop := n ≠ "" ∧ contains_char "000" n = false.
(** Paths made of such names, none of them below another one. *)
Definition flat_ok (flat : gmap string ObjectId) : Prop := ∀ p, is_Some (flat !! p) →
  (∀ seg, seg ∈ split_on "/" p → name_ok seg) ∧ ∀ q, flat !! (p +:+ "/" +:+ q) = None.

Lemma flat_ok_sub dir flat : contains_char "/" dir = false → flat_ok flat → flat_ok (sub_flat dir flat).
Proof.
  intros Hd Hf p. rewrite sub_flat_lookup. intros Hp. destruct (Hf _ Hp) as [Hn Hq]. split.
  - intros seg Hseg. apply Hn. rewrite split_slash by done. by right.
  - intros q. rewrite sub_flat_lookup. specialize (Hq q). by rewrite !string_app_assoc in Hq.
Qed.

(** What gix shows of an entry that was written. *)
Definition shown (e : OutEntry) : res GitEntry := Ok (MkGitEntry (if e.1.2 then ModeTree else ModeBlob) e.1.1 e.2).

(** gix reads the tree and commit formats of git: it gives back the entries of a tree whose
    names are allowed, and the tree and the parents of a commit. *)
Class GixFormat `{Gix} := {
  tree_iter_encode es : Forall (λ e : OutEntry, name_ok e.1.1) es →
    tree_iter (es ≫= encode_entry) = shown <$> es;
  commit_tree_encode t ps i m : commit_tree_id (encode_commit t ps i m) = Ok t;
  commit_parents_encode t ps i m : commit_parent_ids (encode_commit t ps i m) = ps
}.

(** Where names are unique every entry is found. *)
Lemma tree_map_entries (es : list OutEntry) name v : NoDup es.*1.*1 →
  tree_map (shown <$> es) !! name = Some v ↔ ∃ b g, ((name, b), g) ∈ es ∧ v = (if b : bool then ModeTree else ModeBlob, g).
Proof.
  induction es as [|[[n b] g] es IH] using rev_ind; intros Hnd.
  { split; [done|]. by intros (b & g & ?%elem_of_nil & _). }
  rewrite !fmap_app, NoDup_app in Hnd. destruct Hnd as (Hnd & Hn & _).
  rewrite fmap_app. cbn [fmap list_fmap]. unfold shown at 2. cbn [fst snd]. rewrite tree_map_snoc. cbn [ge_mode ge_filename ge_oid].
  rewrite decide_False by by destruct b. setoid_rewrite elem_of_app. setoid_rewrite list_elem_of_singleton.
  destruct (decide (n = name)) as [->|Hne].
  - rewrite lookup_insert_eq. split; [intros [= <-]; exists b, g; split; [by right|done]|].
    intros (b' & g' & [Hin|[= -> ->]] & ->); [|done]. exfalso. apply (Hn name); [|left].
    apply (list_elem_of_fmap_2 fst _ (name, b')), (list_elem_of_fmap_2 fst _ ((name, b'), g')). exact Hin.
  - rewrite lookup_insert_ne by done. rewrite (IH Hnd). split; [naive_solver|].
    intros (b' & g' & [Hin|[= -> -> ->]] & ->); [eauto|done].
Qed.

Section written.
Context {D : Type} `{GitOdbLaws D, GixFormat} (O : objects).
#[global] Program Instance odb_Grows : Grows D := {| grows d d' := odb_view d ⊆ odb_view d' |}.
Next Obligation. split; [by intros d|]. intros d1 d2 d3 ? ?. by etrans. Qed.

(** The repository that gix shows. *)
Definition shown_repo (d : D) : GitRepo := MkGitRepo (Ok <$> odb_view d) (Ok []) ∅.

Lemma shown_object d g k data : find_object (shown_repo d) g = Ok (k, data) ↔ odb_view d !! g = Some (k, data).
Proof.
  unfold find_object. cbn [git_objects shown_repo]. rewrite lookup_fmap.
  destruct (odb_view d !! g) as [[k' data']|]; cbn [fmap option_fmap option_map]; naive_solver.
Qed.
Lemma shown_kind d g k data : find_kind (shown_repo d) k g = Ok data ↔ odb_view d !! g = Some (k, data).
Proof. by rewrite find_kind_Ok, shown_object. Qed.

Lemma yields_write (F : D) k data : yields F (write_buf k data) (λ g, odb_view F !! g = Some (k, data)).
Proof.
  intros d. destruct (write_buf k data d) as [[g|e] d'] eqn:Hw; cbn [fst snd].
  - destruct (write_buf_Ok _ _ _ _ _ Hw) as [Hv Hs]. split; [exact Hs|]. intros HF g' [= <-].
    eapply lookup_weaken; [|exact HF]. rewrite Hv. apply lookup_insert_eq.
  - split; [|done]. simpl. by rewrite (write_buf_Err _ _ _ _ _ Hw).
Qed.

(** The content behind a path: that of a blob, nothing for secrets and the like. *)
Definition blob_content (x : ObjectId) : option bytes :=
  match O !! x with Some (Ok (OBlob b)) => Some (blob_data b) | _ => None end.
Definition content_at (flat : gmap string ObjectId) (p : string) : option bytes := flat !! p ≫= blob_content.

(** The written tree reads back as the paths it was made from. *)
Definition reads_back (F : D) (flat : gmap string ObjectId) (g : GitId) : Prop :=
  (∃ data, odb_view F !! g = Some (GitTree, data)) ∧
  ∀ p, git_file (shown_repo F) g (split_on "/" p) = content_at flat p.

(** What the loop over the paths has collected. *)
Record level_inv (F : D) (flat : gmap string ObjectId) (done : list (string * ObjectId))
    (acc : list OutEntry * gset string) : Prop := {
  li_dir n g : ((n, true), g) ∈ acc.1 → n ∈ acc.2 ∧ reads_back F (sub_flat n flat) g ∧
    contains_char "/" n = false ∧ ∃ q x, (n +:+ "/" +:+ q, x) ∈ done;
  li_file n g : ((n, false), g) ∈ acc.1 → contains_char "/" n = false ∧
    ∃ x data, (n, x) ∈ done ∧ O !! x = Some (Ok (OBlob (MkBlob data))) ∧ odb_view F !! g = Some (GitBlob, data);
  li_seen n : n ∈ acc.2 → ∃ g, ((n, true), g) ∈ acc.1;
  li_dirs p x dir rest : (p, x) ∈ done → split_once p = Some (dir, rest) → dir ∈ acc.2;
  li_files p x data : (p, x) ∈ done → split_once p = None → O !! x = Some (Ok (OBlob (MkBlob data))) → ∃ g, ((p, false), g) ∈ acc.1;
  li_nodup : NoDup acc.1.*1.*1
}.

Lemma level_inv_nil F flat : level_inv F flat [] ([], ∅).
Proof.
  split; cbn [fst snd].
  - by intros n g ?%elem_of_nil.
  - by intros n g ?%elem_of_nil.
  - set_solver.
  - by intros p x dir rest ?%elem_of_nil.
  - by intros p x data ?%elem_of_nil.
  - constructor.
Qed.

(** A path whose directory was seen, or that names nothing to write. *)
Lemma level_inv_skip F flat done acc p x :
  level_inv F flat done acc →
  match split_once p with
  | Some (dir, _) => dir ∈ acc.2
  | None => ∀ data, O !! x ≠ Some (Ok (OBlob (MkBlob data)))
  end → level_inv F flat (done ++ [(p, x)]) acc.
Proof.
  intros [Hd Hf Hs Hds Hfs Hn] Hp. split; [|..|done].
  - intros n g Hin. destruct (Hd n g Hin) as (? & ? & ? & q & y & Hq). split_and!; [done..|]. exists q, y. apply elem_of_app. by left.
  - intros n g Hin. destruct (Hf n g Hin) as (? & y & data & Hq & ?). split; [done|]. exists y, data. split; [|done]. apply elem_of_app. by left.
  - done.
  - intros p' x' dir rest [Hin|[= -> ->]%list_elem_of_singleton]%elem_of_app; [by eapply Hds|]. intros Hso. by rewrite Hso in Hp.
  - intros p' x' data [Hin|[= -> ->]%list_elem_of_singleton]%elem_of_app; [by eapply Hfs|]. intros Hso Hx. rewrite Hso in Hp. by destruct (Hp data).
Qed.

Lemma names_snoc (es : list OutEntry) n b g : NoDup es.*1.*1 → (∀ b' g', ((n, b'), g') ∉ es) → NoDup (es ++ [((n, b), g)]).*1.*1.
Proof.
  intros Hn Hnew. rewrite !fmap_app. apply NoDup_app. split; [done|]. split; [|apply NoDup_singleton].
  intros m Hm ->%list_elem_of_singleton. apply list_elem_of_fmap in Hm as ([m' b'] & Heq & Hm).
  apply list_elem_of_fmap in Hm as ([[m2 b2] g'] & [= -> ->] & Hm). cbn [fst] in Heq. subst m2. by apply (Hnew b2 g').
Qed.

(** A new directory. *)
Lemma level_inv_dir F flat done acc p x dir rest g :
  flat_ok flat → (∀ q y, (q, y) ∈ done ++ [(p, x)] → flat !! q = Some y) →
  level_inv F flat done acc → split_once p = Some (dir, rest) → dir ∉ acc.2 → reads_back F (sub_flat dir flat) g →
  level_inv F flat (done ++ [(p, x)]) (acc.1 ++ [((dir, true), g)], {[dir]} ∪ acc.2).
Proof.
  intros Hflat Hin [Hd Hf Hs Hds Hfs Hn] Hp Hdir Hg. pose proof (split_once_Some _ _ _ Hp) as [-> Hnd].
  split; cbn [fst snd].
  - intros n g' [Hi|[= -> ->]%list_elem_of_singleton]%elem_of_app.
    + destruct (Hd n g' Hi) as (? & ? & ? & q & y & Hq). split; [set_solver|]. split; [done|]. split; [done|].
      exists q, y. apply elem_of_app. by left.
    + split; [set_solver|]. split; [done|]. split; [done|]. exists rest, x. apply elem_of_app. right. left.
  - intros n g' [Hi|?%list_elem_of_singleton]%elem_of_app; [|done].
    destruct (Hf n g' Hi) as (? & y & data & Hq & ?). split; [done|]. exists y, data. split; [|done]. apply elem_of_app. by left.
  - intros n [->%elem_of_singleton|Hi]%elem_of_union; [exists g; apply elem_of_app; right; left|].
    destruct (Hs n Hi) as [g' ?]. exists g'. apply elem_of_app. by left.
  - intros p' x' d' r' [Hi|[= -> ->]%list_elem_of_singleton]%elem_of_app Hso; [apply elem_of_union; right; by eapply Hds|].
    rewrite Hp in Hso. injection Hso as -> _. set_solver.
  - intros p' x' data [Hi|[= -> ->]%list_elem_of_singleton]%elem_of_app Hso Hx; [|by rewrite Hp in Hso].
    destruct (Hfs p' x' data Hi Hso Hx) as [g' ?]. exists g'. apply elem_of_app. by left.
  - apply names_snoc; [done|]. intros b2 g2 Hi. destruct b2; [by apply Hd in Hi as [? _]|].
    destruct (Hf dir g2 Hi) as (_ & y & data & Hq & _).
    destruct (Hflat dir) as [_ Hno]; [exists y; apply Hin, elem_of_app; by left|]. specialize (Hno rest).
    rewrite (Hin (dir +:+ "/" +:+ rest) x) in Hno; [done|]. apply elem_of_app. right. left.
Qed.

(** A new file. *)
Lemma level_inv_file F flat done acc p x data g :
  flat_ok flat → (∀ q y, (q, y) ∈ done ++ [(p, x)] → flat !! q = Some y) → p ∉ done.*1 →
  level_inv F flat done acc → split_once p = None → O !! x = Some (Ok (OBlob (MkBlob data))) → odb_view F !! g = Some (GitBlob, data) →
  level_inv F flat (done ++ [(p, x)]) (acc.1 ++ [((p, false), g)], acc.2).
Proof.
  intros Hflat Hin Hnew [Hd Hf Hs Hds Hfs Hn] Hp Hx Hg. split; cbn [fst snd].
  - intros n g' [Hi|?%list_elem_of_singleton]%elem_of_app; [|done].
    destruct (Hd n g' Hi) as (? & ? & ? & q & y & Hq). split_and!; [done..|]. exists q, y. apply elem_of_app. by left.
  - intros n g' [Hi|[= -> ->]%list_elem_of_singleton]%elem_of_app.
    + destruct (Hf n g' Hi) as (? & y & d' & Hq & ?). split; [done|]. exists y, d'. split; [|done]. apply elem_of_app. by left.
    + split; [by apply split_once_None|]. exists x, data. split; [|done]. apply elem_of_app. right. left.
  - intros n Hi. destruct (Hs n Hi) as [g' ?]. exists g'. apply elem_of_app. by left.
  - intros p' x' d' r' [Hi|[= -> ->]%list_elem_of_singleton]%elem_of_app Hso; [by eapply Hds|by rewrite Hp in Hso].
  - intros p' x' data' [Hi|[= -> ->]%list_elem_of_singleton]%elem_of_app Hso Hx'.
    + destruct (Hfs p' x' data' Hi Hso Hx') as [g' ?]. exists g'. apply elem_of_app. by left.
    + exists g. apply elem_of_app. right. left.
  - apply names_snoc; [done|]. intros b2 g2 Hi. destruct b2.
    + destruct (Hd p g2 Hi) as (_ & _ & _ & q & y & Hq). destruct (Hflat p) as [_ Hno]; [exists x; apply Hin, elem_of_app; right; left|].
      specialize (Hno q). rewrite (Hin (p +:+ "/" +:+ q) y) in Hno; [done|]. apply elem_of_app. by left.
    + destruct (Hf p g2 Hi) as (_ & y & d' & Hq & _). apply Hnew. by apply (list_elem_of_fmap_2 fst _ (p, y)).
Qed.

(** The encoded level reads back. *)
Lemma sorted_entries es : sort_by (λ a b, key_cmp (entry_key a) (entry_key b)) es ≡ₚ es.
Proof. apply sort_by_perm. Qed.

Lemma level_reads_back F flat es seen g : flat_ok flat → level_inv F flat (btree_iter flat) (es, seen) →
  odb_view F !! g = Some (GitTree, encode_tree es) → reads_back F flat g.
Proof.
  intros Hflat [Hd Hf Hs Hds Hfs Hn] Hg. cbn [fst snd] in *. split; [by eexists|].
  set (es' := sort_by (λ a b, key_cmp (entry_key a) (entry_key b)) es).
  assert (es' ≡ₚ es) as Hperm by apply sorted_entries.
  assert (∀ p x, flat !! p = Some x → ∀ seg, seg ∈ split_on "/" p → name_ok seg) as Hok by (intros p x Hp; apply Hflat; eauto).
  assert (tree_iter (encode_tree es) = shown <$> es') as Hiter.
  { apply tree_iter_encode. apply Forall_forall. intros [[n b] g'] Hin. rewrite Hperm in Hin. cbn [fst]. destruct b.
    - destruct (Hd n g' Hin) as (_ & _ & Hsl & q & x & Hq). apply elem_of_btree_iter in Hq.
      apply (Hok _ _ Hq). rewrite split_slash by done. left.
    - destruct (Hf n g' Hin) as (Hsl & x & data & Hq & _). apply elem_of_btree_iter in Hq.
      apply (Hok _ _ Hq). rewrite split_single by done. left. }
  assert (∀ name v, tree_map (tree_iter (encode_tree es)) !! name = Some v ↔
    ∃ b g', ((name, b), g') ∈ es ∧ v = (if b : bool then ModeTree else ModeBlob, g')) as Hmap.
  { intros name v. rewrite Hiter, tree_map_entries by by rewrite Hperm. by setoid_rewrite Hperm. }
  assert (find_kind (shown_repo F) GitTree g = Ok (encode_tree es)) as Hkind by by apply shown_kind.
  intros p. unfold content_at. destruct (split_once p) as [[dir rest]|] eqn:Hp.
  - apply split_once_Some in Hp as Hsp. destruct Hsp as [Heq Hsl]. rewrite Heq, split_slash by done. cbn [git_file]. rewrite Hkind.
    assert (∀ x, flat !! p = Some x → ∃ g', ((dir, true), g') ∈ es) as Hdir.
    { intros x Hx. apply Hs. eapply Hds; [|exact Hp]. by apply elem_of_btree_iter. }
    destruct (tree_map (tree_iter (encode_tree es)) !! dir) as [v|] eqn:Hv.
    + apply Hmap in Hv as (b & g' & Hin & ->). destruct b.
      * destruct (Hd dir g' Hin) as (_ & [_ Hsub] & _). rewrite Hsub. unfold content_at. by rewrite sub_flat_lookup.
      * destruct (Hf dir g' Hin) as (_ & x & data & Hq & _). apply elem_of_btree_iter in Hq.
        destruct (Hflat dir) as [_ Hno]; [by eexists|]. rewrite Hno. cbn [mbind option_bind].
        destruct (split_on_cons "/" rest) as (seg & segs & ->). done.
    + destruct (flat !! (dir +:+ "/" +:+ rest)) as [x|] eqn:Hx; [|done]. exfalso. rewrite <- Heq in Hx.
      destruct (Hdir x Hx) as [g' Hin]. assert (Some (ModeTree, g') = None) as Hbad; [|done].
      rewrite <- Hv. symmetry. apply Hmap. by exists true, g'.
  - pose proof (split_once_None _ Hp) as Hsl. rewrite split_single by done. cbn [git_file]. rewrite Hkind.
    destruct (tree_map (tree_iter (encode_tree es)) !! p) as [v|] eqn:Hv.
    + apply Hmap in Hv as (b & g' & Hin & ->). destruct b.
      * destruct (Hd p g' Hin) as (_ & [[sub Hsub] _] & _ & q & x & Hq). apply elem_of_btree_iter in Hq.
        destruct (flat !! p) as [y|] eqn:Hy.
        { destruct (Hflat p) as [_ Hno]; [by eexists|]. by rewrite Hno in Hq. }
        cbn [git_file]. by rewrite (proj2 (shown_kind F g' GitTree sub) Hsub).
      * destruct (Hf p g' Hin) as (_ & x & data & Hq & Hx & Hb). apply elem_of_btree_iter in Hq. rewrite Hq.
        rewrite (proj2 (shown_object F g' GitBlob data) Hb). cbn [mbind option_bind]. unfold blob_content. by rewrite Hx.
    + destruct (flat !! p) as [x|] eqn:Hx; [|done]. cbn [mbind option_bind]. unfold blob_content.
      destruct (O !! x) as [[[[data]| | | | | | | | | | | |]|]|] eqn:Ho; try done. exfalso.
      destruct (Hfs p x data) as [g' Hin]; [by apply elem_of_btree_iter|done|done|].
      assert (Some (ModeBlob, g') = None) as Hbad; [|done]. rewrite <- Hv. symmetry. apply Hmap. by exists false, g'.
Qed.

Lemma level_yields F fuel flat : flat_ok flat → (∀ p, is_Some (flat !! p) → String.length p < fuel) →
  yields F (write_tree_level O fuel flat) (reads_back F flat).
Proof.
  revert flat. induction fuel as [|fuel IH]; intros flat Hflat Hlen; cbn [write_tree_level]; [apply yields_throw|].
  eapply yields_bind; [apply (yields_fold F _ (level_inv F flat) (btree_iter flat) [] ([], ∅))|].
  - intros done [p x] rest [es seen] Hall. simpl in Hall.
    assert (∀ q y, (q, y) ∈ done ++ [(p, x)] → flat !! q = Some y) as Hin.
    { intros q y Hq. apply elem_of_btree_iter. rewrite Hall, (cons_middle (p, x)), (assoc_L (++)). apply elem_of_app. by left. }
    assert (flat !! p = Some x) as Hpx by (apply Hin, elem_of_app; right; left).
    unfold level_entry. destruct (split_once p) as [[dir r]|] eqn:Hp.
    + case_decide as Hdir; cbn [snd] in Hdir.
      * apply yields_ret. intros HI. apply level_inv_skip; [done|]. by rewrite Hp.
      * destruct (split_once_Some _ _ _ Hp) as [Heq Hsl]. eapply yields_bind; [apply IH; [by apply flat_ok_sub|]|].
        { intros q. rewrite sub_flat_lookup. intros Hq%Hlen. rewrite !string_length_app in Hq. simpl in Hq. lia. }
        intros g. apply yields_ret. intros Hg HI. by eapply (level_inv_dir F flat done (es, seen)).
    + apply yields_lift. intros obj Hobj. destruct obj as [[[data]| | | | | | | | | | | |]|];
        try (apply yields_ret; intros HI; apply level_inv_skip; [done|]; rewrite Hp; intros data Hd;
             apply os_get_Some in Hd; rewrite Hd in Hobj; discriminate Hobj).
      apply os_get_Some in Hobj. eapply yields_bind; [apply yields_write|]. intros g. apply yields_ret. intros Hg HI.
      apply (level_inv_file F flat done (es, seen) p x data g); try done.
      pose proof (NoDup_btree_keys flat) as Hnd. unfold btree_keys in Hnd. rewrite Hall, fmap_app in Hnd.
      apply NoDup_app in Hnd as (_ & Hnd & _). intros Hp'. apply (Hnd p Hp'). left.
  - intros [es seen]. eapply yields_weaken; [apply yields_write|]. intros g Hg HI.
    eapply level_reads_back; [done|apply HI, level_inv_nil|exact Hg].
Qed.

(** Path fuel is enough: no path has more slashes than characters. *)
Lemma path_fuel_enough (flat : gmap string ObjectId) p : is_Some (flat !! p) → String.length p < path_fuel flat.
Proof.
  intros Hp. unfold path_fuel. apply Nat.lt_succ_r, max_list_elem_of_le.
  apply (list_elem_of_fmap_2 String.length). by apply elem_of_btree_keys.
Qed.

Lemma tree_reads_back (F : D) flat : flat_ok flat → yields F (write_git_tree_level O flat) (reads_back F flat).
Proof. intros Hf. apply level_yields; [done|]. apply path_fuel_enough. Qed.

(** [C24] A tree written to git reads back as the paths it was made from. Writing keeps
    what the database held; afterwards, following the names of a path through the
    nested git trees from the returned id gives the content of the blob at that
    path, and nothing for a path that is not there or whose object is a secret or another
    object that is no blob. (No path is below another one, and no name is empty or has a
    NUL.) *)
Theorem git_tree_roundtrip (flat : gmap string ObjectId) (d d' : D) (g : GitId) :
  flat_ok flat → write_git_tree_level O flat d = (Ok g, d') →
  odb_view d ⊆ odb_view d' ∧ ∀ p, git_file (shown_repo d') g (split_on "/" p) = content_at flat p.
Proof.
  intros Hf Hw. destruct (tree_reads_back d' flat Hf d) as [Hs Hq]. rewrite Hw in Hs, Hq. cbn [fst snd] in *.
  split; [exact Hs|]. apply Hq; done.
Qed.
End written.
