(* ===== verification/GitFormat.v ===== *)
(** * GitFormat: a reader of git's formats

    What the encoders of src/src/repo/git_projection.rs write is git's own format: a
    reader of trees and commits, written from the format and not from the encoders,
    reads back their entries, tree and parents. It stands for the parsers of gix where
    the theorems about an export are applied to a concrete repository. *)

From S2P Require Import Prelude Graph Topo Ids Text Objects Refs Acl Policy Git GitProject GitImportFacts GitProjectFacts.
From Stdlib Require Import Ascii.

(** ** The reader *)

Fixpoint strip_bytes (p l : bytes) : option bytes :=
  match p, l with
  | [], _ => Some l
  | a :: p, b :: l => if decide (a = b) then strip_bytes p l else None
  | _ :: _, [] => None
  end.
(** What stands before the first [c], and what after it. *)
Fixpoint cut_at (c : byte) (l : bytes) : option (bytes * bytes) :=
  match l with
  | [] => None
  | a :: l => if decide (a = c) then Some ([], l) else '(x, y) ← cut_at c l; Some (a :: x, y)
  end.

(** A header line: a key and forty hex digits. *)
Definition id_line (key : string) (data : bytes) : option (GitId * bytes) :=
  rest ← strip_bytes (str_bytes key) data;
  v ← (if decide (length (take 40 rest) = 40) then parse_hex 20 (take 40 rest) else None);
  rest ← strip_bytes [x0a] (drop 40 rest);
  Some (MkGitId v, rest).
Fixpoint id_lines (fuel : nat) (key : string) (data : bytes) : list GitId :=
  match fuel, id_line key data with
  | S fuel, Some (g, rest) => g :: id_lines fuel key rest
  | _, _ => []
  end.
Definition read_commit_tree (data : bytes) : res GitId := ok_or (fst <$> id_line "tree " data) (Storage "commit").
Definition read_commit_parents (data : bytes) : list GitId :=
  match id_line "tree " data with Some (_, rest) => id_lines (length rest) "parent " rest | None => [] end.

Definition mode_of (m : bytes) : EntryMode :=
  if decide (m = str_bytes "40000") then ModeTree else if decide (m = str_bytes "160000") then ModeCommit else ModeBlob.
Definition read_entry (data : bytes) : option (GitEntry * bytes) :=
  '(mode, rest) ← cut_at x20 data;
  '(name, rest) ← cut_at x00 rest;
  if decide (length (take 20 rest) = 20)
  then Some (MkGitEntry (mode_of mode) (bytes_str name) (MkGitId (pad_vec 20 (take 20 rest))), drop 20 rest) else None.
Fixpoint read_entries (fuel : nat) (data : bytes) : list (res GitEntry) :=
  match fuel, data with
  | S fuel, _ :: _ =>
      match read_entry data with Some (e, rest) => Ok e :: read_entries fuel rest | None => [Err (Storage "tree")] end
  | _, _ => []
  end.
Definition read_tree (data : bytes) : list (res GitEntry) := read_entries (length data) data.

(** A [Gix] with this reader; the rest of its parsers play no part in an export. *)
Definition format_gix : Gix := {|
  commit_tree_id := read_commit_tree;
  commit_parent_ids := read_commit_parents;
  commit_author _ := Err (Storage "author");
  commit_committer _ := Err (Storage "committer");
  commit_message _ := "";
  tree_iter := read_tree;
  tag_decode _ := Err (Storage "tag");
  err_not_found _ := Storage "not found";
  err_not_kind _ _ := Storage "kind"
|}.

(** ** Facts *)
Lemma str_bytes_hex32 l : str_bytes (hex32 l) = l ≫= hex_byte.
Proof. unfold hex32. apply str_bytes_str. Qed.
Lemma git_hex_length g : length (str_bytes (git_hex g)) = 40.
Proof. unfold git_hex. rewrite str_bytes_hex32, hex_bytes_length. unfold git_bytes. by rewrite length_vec_to_list. Qed.

Lemma strip_bytes_app p l : strip_bytes p (p ++ l) = Some l.
Proof. induction p as [|a p IH]; [done|]. simpl. by rewrite decide_True. Qed.
Lemma cut_at_app c x y : c ∉ x → cut_at c (x ++ c :: y) = Some (x, y).
Proof.
  induction x as [|a x IH]; intros Hc; simpl; [by rewrite decide_True|]. apply not_elem_of_cons in Hc as [? Hc].
  rewrite decide_False by done. by rewrite IH.
Qed.

Lemma id_line_app key g rest : id_line key (str_bytes (key +:+ git_hex g +:+ newline) ++ rest) = Some (g, rest).
Proof.
  unfold id_line. rewrite !str_bytes_app, <- !(assoc_L (++)), strip_bytes_app. cbn [mbind option_bind].
  rewrite take_app_length' by by rewrite git_hex_length. rewrite drop_app_length' by by rewrite git_hex_length.
  rewrite decide_True by apply git_hex_length.
  assert (parse_hex 20 (str_bytes (git_hex g)) = Some (git_id g)) as ->.
  { apply parse_hex_Some; [apply git_hex_length|]. apply str_bytes_hex32. }
  cbn [mbind option_bind]. change (str_bytes newline) with [x0a]. rewrite strip_bytes_app. by destruct g.
Qed.

Lemma id_lines_app ps rest fuel : length ps ≤ fuel → id_line "parent " rest = None →
  id_lines fuel "parent " (str_bytes (foldr (λ p s, parent_line p +:+ s) "" ps) ++ rest) = ps.
Proof.
  revert fuel. induction ps as [|p ps IH]; intros fuel Hf Hr.
  - change (str_bytes (foldr _ "" [])) with (@nil byte). rewrite app_nil_l. destruct fuel; [done|]. simpl. by rewrite Hr.
  - destruct fuel as [|fuel]; simpl in Hf; [lia|]. cbn [foldr]. rewrite str_bytes_app, <- (assoc_L (++)). cbn [id_lines].
    unfold parent_line at 1. rewrite id_line_app. f_equal. apply IH; [lia|done].
Qed.
Lemma parent_lines_length ps : length ps ≤ length (str_bytes (foldr (λ p s, parent_line p +:+ s) "" ps)).
Proof.
  induction ps as [|p ps IH]; [done|]. cbn [foldr]. rewrite str_bytes_app, length_app.
  assert (1 ≤ length (str_bytes (parent_line p))); [|cbn [length]; lia].
  unfold parent_line. rewrite str_bytes_app, length_app. change (length (str_bytes "parent ")) with 7. lia.
Qed.

Lemma read_commit t ps i m :
  read_commit_tree (encode_commit t ps i m) = Ok t ∧ read_commit_parents (encode_commit t ps i m) = ps.
Proof.
  assert (∃ rest, encode_commit t ps i m = str_bytes ("tree " +:+ git_hex t +:+ newline) ++
    str_bytes (foldr (λ p s, parent_line p +:+ s) "" ps) ++ str_bytes "author " ++ rest) as [rest ->].
  { eexists. unfold encode_commit. rewrite !str_bytes_app, <- !(assoc_L (++)). reflexivity. }
  unfold read_commit_tree, read_commit_parents. rewrite id_line_app. split; [done|]. apply id_lines_app; [|done].
  rewrite !length_app. pose proof (parent_lines_length ps). lia.
Qed.

Lemma no_nul n : contains_char "000" n = false → x00 ∉ str_bytes n.
Proof.
  induction n as [|c n IH]; [set_solver|]. cbn [contains_char]. intros [Hc Hn]%orb_false_iff.
  change (str_bytes (String.String c n)) with (byte_of_ascii c :: str_bytes n). apply not_elem_of_cons. split; [|by apply IH].
  intros Heq. apply (f_equal ascii_of_byte) in Heq. rewrite ascii_of_byte_of_ascii in Heq. by subst c.
Qed.

Lemma read_entry_app (e : OutEntry) rest : name_ok e.1.1 → ∃ x, shown e = Ok x ∧ read_entry (encode_entry e ++ rest) = Some (x, rest).
Proof.
  destruct e as [[n b] g]. cbn [fst snd]. intros [_ Hn%no_nul]. eexists. split; [reflexivity|]. unfold read_entry, encode_entry.
  rewrite <- !(assoc_L (++)). change ([x20] ++ ?l) with (x20 :: l). cbn [fst snd].
  assert (x20 ∉ entry_mode (n, b, g)) as Hm by (destruct b; apply (bool_decide_unpack _); vm_compute; exact I).
  rewrite cut_at_app by exact Hm.
  cbn [mbind option_bind]. change ([x00] ++ ?l) with (x00 :: l). rewrite cut_at_app by done. cbn [mbind option_bind].
  assert (length (git_bytes g) = 20) as Hg by by unfold git_bytes; rewrite length_vec_to_list.
  rewrite take_app_length' by done. rewrite drop_app_length' by done. rewrite decide_True by done.
  unfold git_bytes. rewrite pad_vec_to_list, bytes_str_bytes. do 3 f_equal; [by destruct b|by destruct g].
Qed.
Lemma encode_entry_cons (e : OutEntry) : ∃ c l, encode_entry e = c :: l.
Proof. destruct e as [[n b] g]. destruct b; eexists _, _; reflexivity. Qed.

Lemma read_entries_app (es : list OutEntry) fuel : Forall (λ e : OutEntry, name_ok e.1.1) es →
  length (es ≫= encode_entry) ≤ fuel → read_entries fuel (es ≫= encode_entry) = shown <$> es.
Proof.
  intros Hes. revert fuel. induction Hes as [|e es He Hes IH]; intros fuel; [by destruct fuel|]. cbn [mbind list_bind fmap list_fmap].
  destruct (read_entry_app e (es ≫= encode_entry) He) as (x & -> & Hr). destruct (encode_entry_cons e) as (c & l & Hc).
  rewrite Hc in *. rewrite length_app. cbn [length app] in *. intros Hf. destruct fuel as [|fuel]; [lia|]. cbn [read_entries].
  rewrite Hr. f_equal. apply IH. lia.
Qed.

#[export] Instance format_GixFormat : @GixFormat format_gix.
Proof.
  split.
  - intros es Hes. cbn [tree_iter format_gix]. by apply read_entries_app.
  - intros t ps i m. apply read_commit.
  - intros t ps i m. apply read_commit.
Qed.

(** ** A database of git objects

    Objects under a checksum of their content; two contents with one checksum are
    refused. *)
Abbreviation MemoryOdb := (gmap GitId (GitKind * bytes)).
Definition kind_byte (k : GitKind) : N := match k with GitCommit => 1 | GitTree => 2 | GitBlob => 3 | GitTag => 4 end.
Definition checksum (l : bytes) : N := foldl (λ acc b, (acc * 31 + u8 b + 1) `mod` 65521)%N 7%N l.
Definition content_id (k : GitKind) (data : bytes) : GitId :=
  MkGitId (pad_vec 20 [as_u8 (kind_byte k); as_u8 (checksum data / 256); as_u8 (checksum data); as_u8 (N.of_nat (length data))]).
#[export] Instance MemoryOdb_GitOdb : GitOdb MemoryOdb := {|
  write_buf k data := λ d,
    match d !! content_id k data with
    | None => (Ok (content_id k data), <[content_id k data := (k, data)]> d)
    | Some c => if decide (c = (k, data)) then (Ok (content_id k data), d) else (Err (Storage "checksum"), d)
    end;
  odb_view d := d
|}.
#[export] Instance MemoryOdb_laws : GitOdbLaws MemoryOdb.
Proof.
  split; intros k data d g d'; simpl; destruct (d !! content_id k data) as [c|] eqn:Hc.
  - case_decide as Heq; [|done]. intros [= <- <-]. subst c. by rewrite insert_id.
  - intros [= <- <-]. split; [done|]. by apply insert_subseteq.
  - case_decide; [done|]. by intros [= _ <-].
  - done.
Qed.

(** ** The theorems about the parts, on a concrete tree *)
Section parts_demo.
#[local] Existing Instance format_gix.

(** Two blobs, one of them nested, and a secret. *)
Definition ex_blob (data : bytes) : res Object := Ok (OBlob (MkBlob data)).
Definition oid (b : byte) : ObjectId := ObjectId_new (pad_vec 32 [b]).
Definition ex_files : objects := {[ oid x01 := ex_blob [x61]; oid x02 := ex_blob [x62; x0a] ]}.
Definition ex_flat : gmap string ObjectId :=
  {[ "README" := oid x01; "src/lib/a.rs" := oid x02; "src/main.rs" := oid x01; "src/missing" := oid x03 ]}.
Definition ex_written := write_git_tree_level (D := MemoryOdb) ex_files ex_flat ∅.

Lemma ex_flat_ok : flat_ok ex_flat.
Proof.
  intros p Hp.
  assert (p ∈ ["README"; "src/lib/a.rs"; "src/main.rs"; "src/missing"]) as Hin.
  { apply elem_of_btree_keys in Hp. assert (btree_keys ex_flat = ["README"; "src/lib/a.rs"; "src/main.rs"; "src/missing"]) as Hk
      by (vm_compute; reflexivity). by rewrite Hk in Hp. }
  split.
  - intros seg Hseg. rewrite !elem_of_cons, elem_of_nil in Hin. destruct Hin as [->|[->|[->|[->|[]]]]];
      vm_compute in Hseg; repeat (apply elem_of_cons in Hseg as [->|Hseg]; [split; [discriminate|reflexivity]|]); by apply elem_of_nil in Hseg.
  - intros q. destruct (ex_flat !! (p +:+ "/" +:+ q)) as [x|] eqn:Hq; [|done]. exfalso.
    assert (p +:+ "/" +:+ q ∈ ["README"; "src/lib/a.rs"; "src/main.rs"; "src/missing"]) as Hin'.
    { assert (btree_keys ex_flat = ["README"; "src/lib/a.rs"; "src/main.rs"; "src/missing"]) as <- by (vm_compute; reflexivity).
      by apply elem_of_btree_keys. }
    rewrite !elem_of_cons, elem_of_nil in Hin, Hin'.
    destruct Hin as [->|[->|[->|[->|[]]]]]; vm_compute in Hin'; destruct Hin' as [?|[?|[?|[?|[]]]]]; discriminate.
Qed.

Lemma ex_written_eq : ∃ g, ex_written = (Ok g, ex_written.2).
Proof.
  assert (is_Ok ex_written.1 = true) as Hok by (vm_compute; reflexivity).
  destruct ex_written as [[g|e] d]; [by exists g|done].
Qed.

Lemma git_tree_roundtrip_witness : ∃ g, ex_written = (Ok g, ex_written.2) ∧
  git_file (shown_repo (D := MemoryOdb) ex_written.2) g ["src"; "lib"; "a.rs"] = Some [x62; x0a].
Proof.
  destruct ex_written_eq as [g Hg]. exists g. split; [exact Hg|].
  destruct (git_tree_roundtrip ex_files ex_flat ∅ _ g ex_flat_ok Hg) as [_ Hp].
  exact (eq_trans (Hp "src/lib/a.rs") ltac:(vm_compute; reflexivity)).
Defined.

(** A line of two snapshots. *)
Definition ex_line : objects := {[
  oid x01 := Ok (OSnapshot (MkSnapshot (oid x09) [] "" 0 "one"));
  oid x02 := Ok (OSnapshot (MkSnapshot (oid x09) [oid x01] "" 0 "two")) ]}.
Lemma ex_line_parents x y : parent_of ex_line x y → x = oid x02 ∧ y = oid x01.
Proof.
  intros (snap & Hx & Hy). unfold ex_line in Hx.
  apply lookup_insert_Some in Hx as [[_ [= <-]]|[_ Hx]]; [by apply elem_of_nil in Hy|].
  apply lookup_singleton_Some in Hx as [<- [= <-]]. by apply list_elem_of_singleton in Hy as ->.
Qed.
Lemma collect_topo_correct_witness : collect_topo ex_line [oid x02] = Ok [oid x01; oid x02] ∧
  parents_first (parent_of ex_line) [oid x01; oid x02].
Proof.
  assert (∀ x, reached (parent_of ex_line) [oid x02] x → ¬ tc (parent_of ex_line) x x) as Hac.
  { intros x _. intros Ht. assert (∀ a b, tc (parent_of ex_line) a b → a = oid x02 ∧ b = oid x01) as Hab.
    { induction 1 as [a b Hab|a b c Hab _ [? ?]]; [by apply ex_line_parents|]. apply ex_line_parents in Hab as [_ ->]. done. }
    destruct (Hab _ _ Ht) as [-> Heq]. discriminate Heq. }
  pose proof (collect_topo_correct ex_line [oid x02] Hac) as Hc.
  assert (collect_topo ex_line [oid x02] = Ok [oid x01; oid x02]) as Heq by (vm_compute; reflexivity).
  rewrite Heq in Hc. destruct Hc as (_ & Hp & _). by split.
Defined.
End parts_demo.
