(* ===== verification/GitExport.v ===== *)
(** * GitExport: what an export discloses and what it delivers

    The theorems about [project_impl] of src/src/repo/git_projection.rs: whatever the
    outcome, nothing reaches the target but what the accessor may see; a successful
    export holds, for every snapshot in the history of a visible timeline, a commit with
    the visible files of that snapshot and the commits of its parents. *)

From S2P Require Import Prelude Graph Topo Order Ids Text Objects Store Lattice Access Walk Refs RefStore Acl Signing Policy Merge Repo Git GitProject GitImportFacts GitProjectFacts GitFormat.
From Stdlib Require Import Ascii.

(** ** Computations and what they leave behind

    Every run of [m] takes its state along [R], and what it returns satisfies [Q]. *)
Section leaves.
Context {S : Type} (R : relation S) `{!PreOrder R}.

Definition leaves {X} (m : M S X) (Q : X → Prop) : Prop := ∀ s, R s (m s).2 ∧ ∀ x, (m s).1 = Ok x → Q x.

Lemma leaves_ret {X} (x : X) (Q : X → Prop) : Q x → leaves (mret x) Q.
Proof. intros HQ s. split; [reflexivity|]. by intros y [= <-]. Qed.
Lemma leaves_throw {X} e (Q : X → Prop) : leaves (throw e) Q.
Proof. intros s. by split. Qed.
Lemma leaves_weaken {X} (m : M S X) (Q Q' : X → Prop) : leaves m Q → (∀ x, Q x → Q' x) → leaves m Q'.
Proof. intros Hm HQ s. destruct (Hm s) as [? Hx]. split; [done|]. intros x ?. by apply HQ, Hx. Qed.
Lemma leaves_bind {X Y} (m : M S X) (f : X → M S Y) Q Q' :
  leaves m Q → (∀ x, Q x → leaves (f x) Q') → leaves (m ≫= f) Q'.
Proof.
  intros Hm Hf s. destruct (Hm s) as [Hs Hx]. unfold mbind, M_bind. destruct (m s) as [[x|e] s1]; [|done].
  destruct (Hf x (Hx x eq_refl) s1) as [Hs' ?]. split; [by etrans|done].
Qed.
Lemma leaves_lift {X Y} (r : res X) (f : X → M S Y) Q : (∀ x, r = Ok x → leaves (f x) Q) → leaves (lift_res r ≫= f) Q.
Proof. intros Hf s. rewrite lift_bind. destruct r as [x|e]; [by apply Hf|by split]. Qed.
(** A loop, with an invariant of what is accumulated. *)
Lemma leaves_fold {X B} (f : B → X → M S B) (I : B → Prop) l b :
  (∀ b x, x ∈ l → I b → leaves (f b x) I) → I b → leaves (M_fold f b l) I.
Proof.
  revert b. induction l as [|x l IH]; intros b Hf Hb; [by apply leaves_ret|]. eapply leaves_bind; [apply Hf; [left|done]|].
  intros b' Hb'. apply IH; [|done]. intros b2 y ?. apply Hf. by right.
Qed.
Lemma leaves_iter {X} (f : X → M S ()) l : (∀ x, x ∈ l → leaves (f x) (λ _, True)) → leaves (M_iter f l) (λ _, True).
Proof.
  induction l as [|x l IH]; intros Hf; [by apply leaves_ret|]. eapply leaves_bind; [apply Hf; left|].
  intros ? _. apply IH. intros y ?. apply Hf. by right.
Qed.
End leaves.

(** ** What is added to a target *)
Section adds.
Context {D : Type} `{GitOdbLaws D}.

(** Every new object satisfies [P], and every new file [F]. *)
Definition adds (P : GitKind → bytes → Prop) : relation D := λ d d', ∀ g k data,
  odb_view d' !! g = Some (k, data) → odb_view d !! g = Some (k, data) ∨ P k data.
Definition adds_files (P : GitKind → bytes → Prop) (F : list string → bytes → Prop) : relation (Target D) := λ t t',
  adds P (t_odb t) (t_odb t') ∧
  ∀ p data, t_files t' !! p = Some data → t_files t !! p = Some data ∨ F p data.

#[global] Instance adds_preorder P : PreOrder (adds P).
Proof.
  split; [by intros d g k data; left|]. intros d1 d2 d3 H12 H23 g k data Hg.
  destruct (H23 g k data Hg); [by apply H12|by right].
Qed.
#[global] Instance adds_files_preorder P F : PreOrder (adds_files P F).
Proof.
  split; [intros t; split; [done|by left]|]. intros t1 t2 t3 [H12 F12] [H23 F23]. split; [by etrans|].
  intros p data Hp. destruct (F23 p data Hp); [by apply F12|by right].
Qed.

Lemma adds_write (P : GitKind → bytes → Prop) k data : P k data → leaves (adds P) (write_buf k data) (λ _, True).
Proof.
  intros HP d. split; [|done]. destruct (write_buf k data d) as [[g|e] d'] eqn:Hw; cbn [snd]; intros g' k' data'.
  - destruct (write_buf_Ok _ _ _ _ _ Hw) as [Hv _]. rewrite Hv.
    intros [[<- [= <- <-]]|[_ ?]]%lookup_insert_Some; [by right|by left].
  - rewrite (write_buf_Err _ _ _ _ _ Hw). by left.
Qed.
Lemma adds_on_odb {X} P F (m : M D X) Q : leaves (adds P) m Q → leaves (adds_files P F) (on_odb m) Q.
Proof.
  intros Hm t. destruct (Hm (t_odb t)) as [Ha Hq]. unfold on_odb. destruct (m (t_odb t)) as [r d]; cbn [fst snd] in *.
  split; [|done]. split; [done|by left].
Qed.
Lemma adds_fs_write P (F : list string → bytes → Prop) p data : F p data → leaves (adds_files P F) (fs_write p data) (λ _, True).
Proof.
  intros HF t. split; [|done]. unfold fs_write. case_decide; cbn [snd]; [done|]. split; [done|].
  cbn [t_files]. intros q data' [[<- <-]|[_ ?]]%lookup_insert_Some; [by right|by left].
Qed.
Lemma adds_parents P F p : leaves (adds_files P F) (create_parent_dirs (D := D) p) (λ _, True).
Proof. intros t. split; [|done]. unfold create_parent_dirs. destruct (existsb _ _); [done|]. split; [done|by left]. Qed.
Lemma adds_loose_ref P (F : list string → bytes → Prop) name g : F (split_on "/" name) (str_bytes (git_hex g +:+ newline)) →
  leaves (adds_files P F) (write_loose_ref (D := D) name g) (λ _, True).
Proof. intros HF. eapply leaves_bind; [apply _|apply adds_parents|]. intros ? _. by apply adds_fs_write. Qed.

(** The trees and blobs made from a set of paths: contents of the paths, and trees whose
    names are parts of them. *)
Definition of_paths (O : objects) (flat : gmap string ObjectId) (k : GitKind) (data : bytes) : Prop :=
  match k with
  | GitBlob => ∃ p x, flat !! p = Some x ∧ blob_content O x = Some data
  | GitTree => ∃ es : list OutEntry, data = encode_tree es ∧
      ∀ n b g, ((n, b), g) ∈ es → ∃ p, is_Some (flat !! p) ∧ n ∈ split_on "/" p
  | _ => False
  end.
Lemma of_paths_sub O flat dir k data : contains_char "/" dir = false →
  of_paths O (sub_flat dir flat) k data → of_paths O flat k data.
Proof.
  intros Hd. destruct k; simpl; [done| | |done].
  - intros (es & -> & Hes). exists es. split; [done|]. intros n b g Hin. destruct (Hes n b g Hin) as (p & Hp & Hn).
    rewrite sub_flat_lookup in Hp. exists (dir +:+ "/" +:+ p). split; [done|]. rewrite split_slash by done. by right.
  - intros (p & x & Hp & Hx). rewrite sub_flat_lookup in Hp. by exists (dir +:+ "/" +:+ p), x.
Qed.

Lemma adds_weaken {X} (P P' : GitKind → bytes → Prop) (m : M D X) Q :
  (∀ k data, P k data → P' k data) → leaves (adds P) m Q → leaves (adds P') m Q.
Proof.
  intros HP Hm d. destruct (Hm d) as [Ha ?]. split; [|done]. intros g k data Hg. destruct (Ha g k data Hg); [by left|right; by apply HP].
Qed.

Lemma level_adds O fuel flat : leaves (adds (of_paths O flat)) (write_tree_level O fuel flat) (λ _, True).
Proof.
  revert flat. induction fuel as [|fuel IH]; intros flat; cbn [write_tree_level]; [by apply leaves_throw; apply _|].
  set (I := λ acc : list OutEntry * gset string, ∀ n b g, ((n, b), g) ∈ acc.1 → ∃ p, is_Some (flat !! p) ∧ n ∈ split_on "/" p).
  assert (∀ acc n b g p x, I acc → (p, x) ∈ btree_iter flat → n ∈ split_on "/" p → ∀ seen, I (acc.1 ++ [((n, b), g)], seen)) as Hsnoc.
  { intros acc n b g p x HI Hp%elem_of_btree_iter Hn seen n' b' g' [Hin|[= -> -> ->]%list_elem_of_singleton]%elem_of_app;
      [by eapply HI|by exists p]. }
  eapply leaves_bind; [apply _|apply (leaves_fold _ _ I)|].
  - intros acc [p x] Hp HI. unfold level_entry. destruct (split_once p) as [[dir rest]|] eqn:Hs.
    + apply split_once_Some in Hs as [-> Hd]. case_decide; [by apply leaves_ret; [apply _|]|].
      eapply leaves_bind; [apply _| |].
      * eapply adds_weaken; [|apply IH]. intros k data. by apply of_paths_sub.
      * intros g _. apply leaves_ret; [apply _|]. eapply Hsnoc; [done..|]. rewrite split_slash by done. left.
    + apply split_once_None in Hs. apply leaves_lift; [apply _|]. intros obj Hobj.
      destruct obj as [[b| | | | | | | | | | | |]|]; try by (apply leaves_ret; [apply _|]).
      apply os_get_Some in Hobj. eapply leaves_bind; [apply _|apply adds_write|].
      * simpl. exists p, x. split; [by apply elem_of_btree_iter|]. unfold blob_content. by rewrite Hobj.
      * intros g _. apply leaves_ret; [apply _|]. eapply Hsnoc; [done..|]. rewrite split_single by done. left.
  - by intros n b g ?%elem_of_nil.
  - intros acc HI. apply adds_write. simpl. by exists acc.1.
Qed.
End adds.

(** ** What an accessor may see of a repository *)
Section export.
Context {R : Type} `{RefBackendLaws R, IoText, Ed25519}.
Context {A : Type} `{AclBackend A}.
Context {D : Type} `{GitOdbLaws D, MapCodec}.
Context (s : Repository R A) (accessor : Accessor) (L : LabelLattice) (rs : LabelRuleSet).
Context (Hrefs : be_inv (r_refs s)) (HL : get_lattice (r_acls s) = Ok L) (Hrs : get_label_ruleset (r_acls s) = Ok rs).

(** A visible ref. *)
Definition ref_visible (n : RefName) (r : Ref) : Prop :=
  be_view (r_refs s) !! n = Some r ∧ timeline_readable_with L rs n accessor = true.
(** A snapshot in the history of a visible timeline. *)
Definition in_history (x : ObjectId) : Prop := ∃ n tl, ref_visible n (RTimeline tl) ∧ rtc (parent_of (r_objects s)) (head tl) x.
Definition history_visible (x : ObjectId) (snap : Snapshot) : Prop :=
  in_history x ∧ r_objects s !! x = Some (Ok (OSnapshot snap)).
(** A file of a snapshot the accessor may see. *)
Definition file_visible (snap : Snapshot) (p : string) (x : ObjectId) : Prop :=
  files (r_objects s) (snap_root snap, "", 0) p x ∧ visible L rs accessor p = true.

Inductive disclosed : GitKind → bytes → Prop :=
  | disclosed_blob id snap p x b : history_visible id snap → file_visible snap p x →
      r_objects s !! x = Some (Ok (OBlob b)) → disclosed GitBlob (blob_data b)
  | disclosed_tree id snap (es : list OutEntry) : history_visible id snap →
      (∀ n b g, ((n, b), g) ∈ es → ∃ p x, file_visible snap p x ∧ n ∈ split_on "/" p) →
      disclosed GitTree (encode_tree es)
  | disclosed_commit id snap tree parents : history_visible id snap →
      disclosed GitCommit (encode_commit tree parents (commit_identity snap) (snap_message snap))
  | disclosed_tag n tag msg g : ref_visible n (RTag tag) → tag_message tag = Some msg →
      disclosed GitTag (encode_tag g (as_str n) ("bole <bole@local> " +:+ pretty (tag_created_at tag) +:+ " +0000") msg).

Inductive disclosed_file : list string → bytes → Prop :=
  | disclosed_branch n tl g : ref_visible n (RTimeline tl) →
      disclosed_file (split_on "/" ("refs/heads/" +:+ as_str n)) (str_bytes (git_hex g +:+ newline))
  | disclosed_tag_ref n tag g : ref_visible n (RTag tag) →
      disclosed_file (split_on "/" ("refs/tags/" +:+ as_str n)) (str_bytes (git_hex g +:+ newline))
  | disclosed_head n tl : ref_visible n (RTimeline tl) →
      disclosed_file ["HEAD"] (str_bytes ("ref: refs/heads/" +:+ as_str n +:+ newline)).

Lemma visible_refs names n : list_refs_filtered s "" accessor = Ok names →
  n ∈ names ↔ is_Some (be_view (r_refs s) !! n) ∧ timeline_readable_with L rs n accessor = true.
Proof.
  unfold list_refs_filtered. rewrite HL, Hrs. cbn [mbind result_bind]. intros (all & Hall & [= <-])%bind_Ok.
  destruct (be_list_Ok _ _ _ Hrefs Hall) as (_ & _ & Hin). rewrite list_elem_of_filter, Hin, Is_true_true.
  assert (String.prefix "" (as_str n) = true) as Hp; [|tauto]. destruct n as [n]. by destruct n.
Qed.
Lemma visible_get names n r : list_refs_filtered s "" accessor = Ok names → n ∈ names →
  get_ref (r_refs s) n = Ok (Some r) → ref_visible n r.
Proof.
  intros Hl Hn Hr. apply (visible_refs _ _ Hl) in Hn as [[r' Hr'] Hv]. split; [|done].
  pose proof (be_get_stored _ _ _ Hrefs Hr') as Hg. unfold get_ref in Hr. congruence.
Qed.

Lemma timeline_heads_spec names heads : list_refs_filtered s "" accessor = Ok names → timeline_heads s names = Ok heads →
  ∀ n x, (n, x) ∈ heads ↔ ∃ tl, ref_visible n (RTimeline tl) ∧ head tl = x.
Proof.
  intros Hl Hh n x. unfold timeline_heads in Hh.
  rewrite (res_fold_hits _ (λ name e, ∃ tl, get_ref (r_refs s) name = Ok (Some (RTimeline tl)) ∧ e = (name, head tl)) names) with (2 := Hh).
  - rewrite elem_of_nil. split.
    + intros [[]|(name & Hin & tl & Hg & [= -> ->])]. exists tl. split; [|done]. by eapply visible_get.
    + intros (tl & Hr & <-). right. exists n. destruct Hr as [Hr Hv]. split; [by apply (visible_refs _ _ Hl); eauto|].
      exists tl. split; [|done]. by apply (be_get_stored _ _ _ Hrefs).
  - intros h name h' _ Hb t. apply bind_Ok in Hb as (r & Hr & [= <-]). rewrite elem_of_app. unfold as_timeline.
    destruct r as [[tag|tl]|]; simpl; rewrite ?list_elem_of_singleton, ?elem_of_nil, Hr; naive_solver.
Qed.

(** The snapshots in order are in the history of a visible timeline. *)
Lemma ordered_visible names heads ordered x : list_refs_filtered s "" accessor = Ok names →
  timeline_heads s names = Ok heads → collect_topo (r_objects s) heads.*2 = Ok ordered → x ∈ ordered → in_history x.
Proof.
  intros Hl Hh Ht Hx. destruct (collect_topo_within _ _ _ _ Ht Hx) as (y & Hy & Hr).
  apply list_elem_of_fmap in Hy as ([n z] & -> & Hy). apply (timeline_heads_spec _ _ Hl Hh) in Hy as (tl & Hv & <-).
  by exists n, tl.
Qed.

(** The paths the walk collects. *)
Lemma walked_visible snap flat : walk_tree_filtered (r_objects s) L rs accessor (snap_root snap) "" ∅ = Ok flat →
  ∀ p x, flat !! p = Some x → file_visible snap p x.
Proof.
  intros Hw p x Hp. pose proof (walk_tree_spec (r_objects s) L rs accessor (snap_root snap) "" ∅) as Hs. rewrite Hw in Hs.
  destruct Hs as (Hs & _ & _). by destruct (Hs p x Hp).
Qed.

Lemma paths_disclosed id snap flat k data : history_visible id snap →
  walk_tree_filtered (r_objects s) L rs accessor (snap_root snap) "" ∅ = Ok flat →
  of_paths (r_objects s) flat k data → disclosed k data.
Proof.
  intros Hh Hw. pose proof (walked_visible snap flat Hw) as Hv. destruct k; simpl; [done| | |done].
  - intros (es & -> & Hes). eapply disclosed_tree; [done|]. intros n b g Hin. destruct (Hes n b g Hin) as (p & [x Hp] & ?).
    exists p, x. auto.
  - intros (p & x & Hp & Hx). unfold blob_content in Hx.
    destruct (r_objects s !! x) as [[[b| | | | | | | | | | | |]|]|] eqn:Hb; try done. injection Hx as <-.
    by eapply disclosed_blob; [|apply Hv|].
Qed.

Lemma snapshot_discloses id_map x : in_history x →
  leaves (adds disclosed) (project_snapshot (D := D) s accessor L rs id_map x) (λ _, True).
Proof.
  intros Hx. unfold project_snapshot. apply leaves_lift; [apply _|]. intros obj Hobj.
  destruct obj as [[| |snap| | | | | | | | | |]|]; try by (apply leaves_ret; [apply _|]). apply os_get_Some in Hobj.
  assert (history_visible x snap) as Hh by done. apply leaves_lift; [apply _|]. intros flat Hw.
  eapply leaves_bind; [apply _| |].
  - eapply adds_weaken; [|apply level_adds]. intros k data. by eapply paths_disclosed.
  - intros tree _. eapply leaves_bind; [apply _|apply adds_write; by eapply disclosed_commit|].
    intros g _. by apply leaves_ret; [apply _|].
Qed.

Lemma tag_discloses names (id_map : gmap ObjectId GitId) n : list_refs_filtered s "" accessor = Ok names → n ∈ names →
  leaves (adds_files disclosed disclosed_file) (project_tag (D := D) s id_map n) (λ _, True).
Proof.
  intros Hl Hn. unfold project_tag. apply leaves_lift; [apply _|]. intros r Hr.
  destruct r as [[tag|tl]|]; [|apply leaves_ret; solve [apply _|done]..].
  pose proof (visible_get _ _ _ Hl Hn Hr) as Hv. destruct (id_map !! tag_target tag) as [g|]; [|by apply leaves_ret; [apply _|]].
  eapply leaves_bind; [apply _| |intros target _; by eapply adds_loose_ref, disclosed_tag_ref].
  destruct (tag_message tag) as [msg|] eqn:Hm; [|by apply (leaves_ret _ _ (λ _, True))].
  apply adds_on_odb, adds_write. by eapply disclosed_tag.
Qed.

Lemma objects_disclose (open : res ()) :
  leaves (adds_files disclosed disclosed_file) (project_objects (D := D) s accessor open) (λ _, True).
Proof.
  unfold project_objects. apply leaves_lift; [apply _|]. intros _ _. apply leaves_lift; [apply _|]. intros names Hl.
  apply leaves_lift; [apply _|]. intros heads Hh. apply leaves_lift; [apply _|]. intros ordered Ht.
  rewrite HL, Hrs. do 2 (apply leaves_lift; [apply _|]; intros ? [= <-]).
  eapply leaves_bind; [apply _| |].
  { apply adds_on_odb, (leaves_fold _ _ (λ _, True)); [|done]. intros b x Hx _. apply snapshot_discloses.
    by eapply ordered_visible. }
  assert (∀ h, h ∈ heads → ∃ tl, ref_visible h.1 (RTimeline tl)) as Hhead.
  { intros [n x] Hin. apply (timeline_heads_spec _ _ Hl Hh) in Hin as (tl & ? & _). by exists tl. }
  intros id_map _. eapply leaves_bind; [apply _|apply leaves_iter; [apply _|]|].
  { intros h [tl Hv]%Hhead. unfold project_branch. destruct (id_map !! h.2); [|by apply leaves_ret; [apply _|]].
    apply adds_loose_ref. by eapply disclosed_branch. }
  intros _ _. eapply leaves_bind; [apply _|apply leaves_iter; [apply _|]|].
  { intros n Hn. by eapply tag_discloses. }
  intros _ _. eapply leaves_bind; [apply _| |intros ? _; by apply leaves_ret; [apply _|]].
  destruct (find_first _ heads) as [h|] eqn:Hf; [|by apply (leaves_ret _ _ (λ _, True))].
  apply find_first_Some in Hf as [[tl Hv]%Hhead _]. apply adds_fs_write. by eapply disclosed_head.
Qed.

Lemma project_impl_unfold open map_dir t d : project_impl s accessor open map_dir (t, d) =
  match project_objects s accessor open t, map_dir with
  | (Err e, t'), _ => (Err e, (t', d))
  | (Ok id_map, t'), None => (Ok (), (t', d))
  | (Ok id_map, t'), Some fp => let '(r, d') := (m ← gets (idmap_load fp); idmap_save fp (extend_map id_map m)) d in (r, (t', d'))
  end.
Proof. unfold project_impl. cbn [fst snd]. destruct (project_objects s accessor open t) as [[id_map|e] t']; [|done]. by destruct map_dir. Qed.
End export.

(** ** Confinement *)

(** [C10] An export discloses only what the accessor may see, whatever its outcome. Every
    object that is new in the target is the content of a visible file of a snapshot in
    the history of a visible timeline, a tree of names on the paths of such files, the
    commit of such a snapshot, or the object of a visible annotated tag; every file it
    writes is [HEAD] or a reference named after a visible ref. And of the directory of the
    sidecar it touches only the files of this target. *)
Theorem export_confined {R : Type} `{RefBackendLaws R, IoText, Ed25519} {A : Type} `{AclBackend A}
    {D : Type} `{GitOdbLaws D, MapCodec} (s : Repository R A) (a : Accessor) (L : LabelLattice) (rs : LabelRuleSet)
    (open : res ()) (map_dir : option string) (t t' : Target D) (d d' : sidecar) (r : res ()) :
  be_inv (r_refs s) → get_lattice (r_acls s) = Ok L → get_label_ruleset (r_acls s) = Ok rs →
  project_impl s a open map_dir (t, d) = (r, (t', d')) →
  (∀ g k data, odb_view (t_odb t') !! g = Some (k, data) →
     odb_view (t_odb t) !! g = Some (k, data) ∨ disclosed s a L rs k data) ∧
  (∀ p data, t_files t' !! p = Some data → t_files t !! p = Some data ∨ disclosed_file s a L rs p data) ∧
  (∀ f, d' !! f = d !! f ∨ ∃ fp, map_dir = Some fp ∧ f ∈ [map_file fp; map_tmp fp]).
Proof.
  intros Hi HL Hrs. rewrite project_impl_unfold. destruct (objects_disclose s a L rs Hi HL Hrs open t) as [[Ho Hf] _].
  destruct (project_objects s a open t) as [[id_map|e] t1]; cbn [snd] in *; [|by intros [= _ <- <-]; eauto].
  destruct map_dir as [fp|]; [|by intros [= _ <- <-]; eauto]. rewrite gets_bind.
  assert (∀ m r2 d2, idmap_save fp m d = (r2, d2) → ∀ f, d2 !! f = d !! f ∨ f ∈ [map_file fp; map_tmp fp]) as Hsave.
  { unfold idmap_save. intros m r2 d2. rewrite lift_bind. destruct (map_enc m) as [data|]; [|by intros [= _ <-]; left].
    intros [= _ <-] f. destruct (decide (f = map_file fp)) as [->|]; [right; left|].
    destruct (decide (f = map_tmp fp)) as [->|]; [right; right; left|]. left. by simplify_map_eq. }
  destruct (idmap_load fp d) as [m|e]; [|by intros [= _ <- <-]; eauto].
  destruct (idmap_save fp (extend_map id_map m) d) as [r2 d2] eqn:Hs. intros [= _ <- <-].
  split; [done|]. split; [done|]. intros f. destruct (Hsave _ _ _ Hs f); [by left|right; eauto].
Qed.

(** ** A concrete export

    A snapshot with a public file and a protected one, exported for an actor without any
    clearance. *)
Section demo.
#[local] Existing Instance demo_io_text.
#[local] Existing Instance toy_ed25519.
#[local] Existing Instance format_gix.
#[local] Instance no_map_codec : MapCodec := {| map_enc _ := Err (Storage "map"); map_dec _ := Err (Storage "map") |}.

Definition ex_tree : gmap string TreeEntry :=
  {[ "README" := MkTreeEntry (oid x04) KindBlob; "key.pem" := MkTreeEntry (oid x05) KindBlob ]}.
Definition ex_objects : objects := {[
  oid x01 := Ok (OSnapshot (MkSnapshot (oid x03) [] "ann" 7 "one"));
  oid x02 := Ok (OSnapshot (MkSnapshot (oid x03) [oid x01] "" 8 "two"));
  oid x03 := Ok (OTree (MkTree ex_tree));
  oid x04 := ex_blob [x61]; oid x05 := ex_blob [x62] ]}.
Definition ex_export_refs : MemoryRefBackend :=
  {[ "main" := RTimeline (MkTimeline (oid x02) Unrestricted 0 "persistent" None); "v1" := RTag (MkTag (oid x01) 9 (Some "release")) ]}.
Definition ex_export_acls : MemoryAclBackend := snd (set_path_acl (MkPathAcl "key.pem") MemoryAclBackend_new).
Definition ex_source : Repository MemoryRefBackend MemoryAclBackend := MkRepo ex_objects ex_export_refs ex_export_acls [] None.
Definition ex_export_rules : LabelRuleSet := MkRuleSet [RulePath "key.pem" PROTECTED].
Definition ex_target : Target MemoryOdb := MkTarget ∅ ∅ ∅.
Definition ex_export := project_impl ex_source accessor_new (Ok ()) None (ex_target, ∅).

Lemma ex_export_refs_ok : be_inv (r_refs ex_source).
Proof.
  intros k r Hk. cbn [r_refs ex_source] in Hk. unfold ex_export_refs in Hk. apply lookup_insert_Some in Hk as [[<- _]|[_ Hk]]; [reflexivity|].
  by apply lookup_singleton_Some in Hk as [<- _].
Qed.
Lemma ex_export_eq : ex_export = (Ok (), ex_export.2).
Proof. assert (ex_export.1 = Ok ()) as <- by (apply (bool_decide_unpack _); vm_compute; exact I). by destruct ex_export. Qed.
Lemma ex_export_pair : ex_export = (Ok (), (ex_export.2.1, ex_export.2.2)).
Proof. rewrite ex_export_eq at 1. by destruct ex_export.2. Qed.

Lemma export_confined_witness :
  t_odb ex_export.2.1 !! content_id GitBlob [x61] = Some (GitBlob, [x61]) ∧
  disclosed ex_source accessor_new two_point ex_export_rules GitBlob [x61] ∧
  ∀ g, t_odb ex_export.2.1 !! g ≠ Some (GitBlob, [x62]).
Proof.
  assert (get_lattice (r_acls ex_source) = Ok two_point) as HL by reflexivity.
  assert (get_label_ruleset (r_acls ex_source) = Ok ex_export_rules) as Hrs by reflexivity.
  destruct (export_confined ex_source accessor_new two_point ex_export_rules (Ok ()) None ex_target _ ∅ _ _
    ex_export_refs_ok HL Hrs ex_export_pair) as [Ho _].
  assert (t_odb ex_export.2.1 !! content_id GitBlob [x61] = Some (GitBlob, [x61])) as Hb
    by (apply (bool_decide_unpack _); vm_compute; exact I).
  split; [exact Hb|]. split.
  - destruct (Ho _ _ _ Hb) as [Hold|Hd]; [discriminate Hold|exact Hd].
  - intros g Hg. assert (map_Forall (λ _ c, c ≠ (GitBlob, [x62])) (t_odb ex_export.2.1)) as Hall
      by (apply (bool_decide_unpack _); vm_compute; exact I). exact (Hall g _ Hg eq_refl).
Defined.
End demo.
