(* ===== verification/GitDeliver.v ===== *)
(** * GitDeliver: what a successful export delivers

    The theorem about [project_impl] of src/src/repo/git_projection.rs on a history
    without cycles: when it succeeds, every snapshot in the history of a visible timeline
    has its commit, whose parents are the commits of its parents and whose tree reads back
    as the files of the snapshot the accessor may see; every visible timeline has its
    branch, and the sidecar leads from each snapshot to its commit. *)

From S2P Require Import Prelude Graph Topo Order Ids Text Objects Store Lattice Access Walk Refs RefStore Acl Signing Policy Merge Repo Git GitProject GitImportFacts GitProjectFacts GitFormat GitExport.
From Stdlib Require Import Ascii.

(** ** Loops that establish something *)
Lemma iter_establishes {S X} (P : S → Prop) (f : X → M S ()) l x s s' : x ∈ l →
  (∀ s s', f x s = (Ok (), s') → P s') → (∀ y s s', y ∈ l → f y s = (Ok (), s') → P s → P s') →
  M_iter f l s = (Ok (), s') → P s'.
Proof.
  intros Hx He Hk. revert s. assert (∀ l', (∀ y, y ∈ l' → y ∈ l) → ∀ s, P s → M_iter f l' s = (Ok (), s') → P s') as Hrest.
  { induction l' as [|y l' IH]; intros Hl s Hs; cbn [M_iter]; [by intros [= <-]|]. intros ([] & s1 & Hy & Hr)%M_bind_Ok.
    eapply IH; [|by eapply Hk, Hs; [apply Hl; left|]|exact Hr]. intros z ?. apply Hl. by right. }
  assert (∀ l', (∀ y, y ∈ l' → y ∈ l) → x ∈ l' → ∀ s, M_iter f l' s = (Ok (), s') → P s') as Hall; [|by intros s; apply Hall].
  induction l' as [|y l' IH]; intros Hl; [by intros ?%elem_of_nil|]. intros Hin s. cbn [M_iter]. intros ([] & s1 & Hy & Hr)%M_bind_Ok.
  apply elem_of_cons in Hin as [<-|Hin].
  - eapply Hrest; [|by eapply He|exact Hr]. intros z ?. apply Hl. by right.
  - eapply IH; [|done|exact Hr]. intros z ?. apply Hl. by right.
Qed.

Lemma omap_agree (m m' : gmap ObjectId GitId) (ps : list ObjectId) : (∀ p, p ∈ ps → m !! p = m' !! p) →
  omap (λ p, m !! p) ps = omap (λ p, m' !! p) ps.
Proof.
  induction ps as [|p ps IH]; intros Hp; [done|]. cbn [omap list_omap]. rewrite (Hp p) by left.
  rewrite IH; [done|]. intros q ?. apply Hp. by right.
Qed.

Section deliver.
Context {R : Type} `{RefBackendLaws R, IoText, Ed25519}.
Context {A : Type} `{AclBackend A}.
Context {D : Type} `{GitOdbLaws D, MapCodec, GixFormat}.
Context (s : Repository R A) (accessor : Accessor) (L : LabelLattice) (rs : LabelRuleSet).
Context (Hrefs : be_inv (r_refs s)) (HL : get_lattice (r_acls s) = Ok L) (Hrs : get_label_ruleset (r_acls s) = Ok rs).
Abbreviation Os := (r_objects s).

Definition visible_paths (snap : Snapshot) : res (gmap string ObjectId) :=
  walk_tree_filtered Os L rs accessor (snap_root snap) "" ∅.

(** The commit of a snapshot, its parents by what has been exported. *)
Definition delivered (F : D) (id_map : gmap ObjectId GitId) (snap : Snapshot) (g : GitId) : Prop := ∃ tree flat,
  odb_view F !! g = Some (GitCommit, encode_commit tree (omap (λ p, id_map !! p) (snap_parents snap)) (commit_identity snap) (snap_message snap)) ∧
  visible_paths snap = Ok flat ∧ reads_back Os F flat tree.

Definition is_snapshot (x : ObjectId) : Prop := ∃ snap, Os !! x = Some (Ok (OSnapshot snap)).
(** What the loop over the snapshots has exported. *)
Definition exported (F : D) (done : list ObjectId) (id_map : gmap ObjectId GitId) : Prop :=
  (∀ x, is_Some (id_map !! x) ↔ x ∈ done ∧ is_snapshot x) ∧
  ∀ x snap g, Os !! x = Some (Ok (OSnapshot snap)) → id_map !! x = Some g → delivered F id_map snap g.

Context (Hflat : ∀ x snap flat, history_visible s accessor L rs x snap → visible_paths snap = Ok flat → flat_ok flat).

Lemma exported_snoc F ordered l1 x l2 id_map snap g : ordered = l1 ++ x :: l2 → NoDup ordered → parents_first (parent_of Os) ordered →
  Os !! x = Some (Ok (OSnapshot snap)) → exported F l1 id_map → delivered F id_map snap g → exported F (l1 ++ [x]) (<[x := g]> id_map).
Proof.
  intros Heq Hnd Hp Hx [Hdom Hdel] Hg.
  assert (x ∉ l1) as Hnew by (rewrite Heq in Hnd; apply NoDup_app in Hnd as (_ & Hn & _); intros ?; by apply (Hn x); [|left]).
  assert (∀ y snap' p, y ∈ l1 ++ [x] → Os !! y = Some (Ok (OSnapshot snap')) → p ∈ snap_parents snap' → id_map !! p = <[x := g]> id_map !! p) as Hkeep.
  { intros y snap' p Hy Hs Hps. symmetry. apply lookup_insert_ne. intros <-. apply Hnew.
    assert (parent_of Os y x) as Hpar by by exists snap'. apply elem_of_app in Hy as [(a & b & ->)%list_elem_of_split| ->%list_elem_of_singleton].
    - apply elem_of_app. left. apply (Hp a y (b ++ x :: l2)); [|done]. by rewrite Heq, <- (assoc_L (++)).
    - by apply (Hp l1 x l2). }
  split.
  - intros y. destruct (decide (x = y)) as [->|Hne].
    + rewrite lookup_insert_eq. split; [|by eexists]. intros _. split; [apply elem_of_app; right; left|by exists snap].
    + rewrite lookup_insert_ne by done. rewrite Hdom, elem_of_app, list_elem_of_singleton. naive_solver.
  - intros y snap' g' Hy Hm. assert (y ∈ l1 ++ [x] ∧ delivered F id_map snap' g') as [Hin (tree & flat & Ho & Hv)].
    { destruct (decide (x = y)) as [->|Hne].
      - rewrite lookup_insert_eq in Hm. simplify_eq. split; [apply elem_of_app; right; left|done].
      - rewrite lookup_insert_ne in Hm by done. split; [|by eapply Hdel]. apply elem_of_app. left. by apply Hdom; eauto. }
    exists tree, flat. split; [|done]. rewrite <- (omap_agree id_map); [exact Ho|]. intros p. by eapply Hkeep.
Qed.

Lemma snapshots_exported F ordered : NoDup ordered → parents_first (parent_of Os) ordered →
  (∀ x, x ∈ ordered → in_history s accessor L rs x) →
  yields F (M_fold (project_snapshot (D := D) s accessor L rs) ∅ ordered) (exported F ordered).
Proof.
  intros Hnd Hp Hh. eapply yields_weaken; [apply (yields_fold F _ (exported F) ordered [] ∅)|].
  - intros l1 x l2 id_map Heq. simpl in Heq. unfold project_snapshot. apply yields_lift. intros obj Hobj.
    assert (x ∉ l1) as Hnew by (rewrite Heq in Hnd; apply NoDup_app in Hnd as (_ & Hn & _); intros ?; by apply (Hn x); [|left]).
    assert (¬ is_snapshot x → exported F l1 id_map → exported F (l1 ++ [x]) id_map) as Hskip.
    { intros Hns [Hdom Hdel]. split; [|done]. intros y. rewrite Hdom, elem_of_app, list_elem_of_singleton. naive_solver. }
    destruct obj as [[| |snap| | | | | | | | | |]|]; try (apply yields_ret, Hskip; intros [snap' Hs];
      apply os_get_Some in Hs; rewrite Hs in Hobj; discriminate Hobj).
    apply os_get_Some in Hobj. apply yields_lift. intros flat Hw.
    eapply yields_bind; [apply tree_reads_back|].
    { eapply Hflat; [|exact Hw]. split; [|exact Hobj]. apply Hh. rewrite Heq. apply elem_of_app. right. left. }
    intros tree. eapply yields_bind; [apply yields_write|]. intros g. apply yields_ret. intros Hg Ht HI.
    eapply exported_snoc; [exact Heq|done..|]. by exists tree, flat.
  - intros id_map Hi. apply Hi. split; [|done]. intros x. rewrite lookup_empty. split; [by intros []|by intros [?%elem_of_nil _]].
Qed.

(** ** The references *)
Lemma loose_ref_Ok name g (t t' : Target D) : write_loose_ref name g t = (Ok (), t') →
  t_odb t' = t_odb t ∧ t_files t' = <[split_on "/" name := str_bytes (git_hex g +:+ newline)]> (t_files t).
Proof.
  unfold write_loose_ref. intros ([] & t1 & Hc & Hw)%M_bind_Ok. unfold create_parent_dirs in Hc. destruct (existsb _ _); [done|].
  injection Hc as <-. unfold fs_write in Hw. case_decide; [done|]. by injection Hw as <-.
Qed.
Lemma branch_Ok id_map h (t t' : Target D) : project_branch id_map h t = (Ok (), t') →
  t_odb t' = t_odb t ∧ t_files t' = match id_map !! h.2 with
    | Some g => <[split_on "/" ("refs/heads/" +:+ as_str h.1) := str_bytes (git_hex g +:+ newline)]> (t_files t)
    | None => t_files t
    end.
Proof. unfold project_branch. destruct (id_map !! h.2); [apply loose_ref_Ok|]. by intros [= <-]. Qed.

(** Loose references of branches survive the tags and [HEAD]. *)
Definition later (t t' : Target D) : Prop := odb_view (t_odb t) ⊆ odb_view (t_odb t') ∧
  ∀ n, t_files t' !! split_on "/" ("refs/heads/" +:+ n) = t_files t !! split_on "/" ("refs/heads/" +:+ n).
#[local] Instance later_preorder : PreOrder later.
Proof. split; [done|]. intros t1 t2 t3 [H12 F12] [H23 F23]. split; [by etrans|]. intros n. by rewrite F23. Qed.

Lemma tag_later id_map n : leaves later (project_tag (D := D) s id_map n) (λ _, True).
Proof.
  intros t. split; [|done]. unfold project_tag. rewrite lift_bind. destruct (get_ref (r_refs s) n) as [[[tag|tl]|]|e]; try done.
  destruct (id_map !! tag_target tag) as [g|]; [|done].
  assert (∀ target, leaves later (write_loose_ref (D := D) ("refs/tags/" +:+ as_str n) target) (λ _, True)) as Hw.
  { intros target t1. split; [|done]. unfold write_loose_ref, mbind, M_bind, create_parent_dirs.
    destruct (existsb _ _); [done|]. unfold fs_write. case_decide; [done|]. split; [done|]. intros m. cbn [snd t_files].
    apply lookup_insert_ne. intros Heq%(inj (split_on "/")). discriminate Heq. }
  destruct (tag_message tag) as [msg|].
  - unfold mbind at 1, M_bind at 1, on_odb.
    destruct (write_buf GitTag _ (t_odb t)) as [[target|e] d'] eqn:Hwr; cbn [fst snd].
    + destruct (write_buf_Ok _ _ _ _ _ Hwr) as [_ Hs]. transitivity (MkTarget d' (t_files t) (t_dirs t)); [by split|apply Hw].
    + split; [|done]. cbn [t_odb]. by rewrite (write_buf_Err _ _ _ _ _ Hwr).
  - apply Hw.
Qed.

Lemma head_later (data : bytes) : leaves later (fs_write (D := D) ["HEAD"] data) (λ _, True).
Proof.
  intros t. split; [|done]. unfold fs_write. case_decide; [done|]. split; [done|]. intros m. cbn [snd t_files].
  apply lookup_insert_ne. intros Heq. discriminate Heq.
Qed.

(** The steps of a successful export. *)
Lemma objects_Ok open (t t' : Target D) id_map : project_objects s accessor open t = (Ok id_map, t') →
  ∃ names heads ordered d1 t2,
    list_refs_filtered s "" accessor = Ok names ∧ timeline_heads s names = Ok heads ∧ collect_topo Os heads.*2 = Ok ordered ∧
    M_fold (project_snapshot s accessor L rs) ∅ ordered (t_odb t) = (Ok id_map, d1) ∧
    M_iter (project_branch id_map) heads (MkTarget d1 (t_files t) (t_dirs t)) = (Ok (), t2) ∧ later t2 t'.
Proof.
  unfold project_objects. rewrite lift_bind. destruct open as [[]|]; [|done]. rewrite lift_bind.
  destruct (list_refs_filtered s "" accessor) as [names|] eqn:Hl; [|done]. rewrite lift_bind.
  destruct (timeline_heads s names) as [heads|] eqn:Hh; [|done]. rewrite lift_bind.
  destruct (collect_topo Os heads.*2) as [ordered|] eqn:Ho; [|done]. rewrite HL, lift_bind, Hrs, lift_bind.
  intros (m & t1 & Hfold & Hrest)%M_bind_Ok. unfold on_odb in Hfold.
  destruct (M_fold _ ∅ ordered (t_odb t)) as [r d1] eqn:Hf. injection Hfold as -> <-.
  apply M_bind_Ok in Hrest as ([] & t2 & Hb & Hrest). apply M_bind_Ok in Hrest as ([] & t3 & Ht & Hrest).
  apply M_bind_Ok in Hrest as ([] & t4 & Hhead & [= -> ->]). exists names, heads, ordered, d1, t2. do 5 (split; [done|]).
  transitivity t3.
  - assert (leaves later (M_iter (project_tag s id_map) names) (λ _, True)) as Htag by (apply leaves_iter; [apply _|]; intros; apply tag_later).
    destruct (Htag t2) as [Hl2 _]. by rewrite Ht in Hl2.
  - destruct (find_first _ heads) as [h|]; [|by injection Hhead as ->].
    destruct (head_later (str_bytes ("ref: refs/heads/" +:+ as_str h.1 +:+ newline)) t3) as [Hlt _]. by rewrite Hhead in Hlt.
Qed.

Lemma branches_Ok id_map heads (t t' : Target D) : (∀ n x y, (n, x) ∈ heads → (n, y) ∈ heads → x = y) →
  M_iter (project_branch id_map) heads t = (Ok (), t') →
  odb_view (t_odb t) ⊆ odb_view (t_odb t') ∧
  ∀ n x g, (n, x) ∈ heads → id_map !! x = Some g →
    t_files t' !! split_on "/" ("refs/heads/" +:+ as_str n) = Some (str_bytes (git_hex g +:+ newline)).
Proof.
  intros Hnd Hr. split.
  - revert t Hr. clear Hnd. induction heads as [|h heads IH]; intros t; cbn [M_iter]; [by intros [= <-]|].
    intros ([] & t1 & [Ho _]%branch_Ok & Hr)%M_bind_Ok. rewrite <- Ho. by apply IH.
  - intros n x g Hin Hx. revert Hr. apply (iter_establishes (λ t', t_files t' !! split_on "/" ("refs/heads/" +:+ as_str n) =
      Some (str_bytes (git_hex g +:+ newline))) _ heads (n, x)); [done|..].
    + intros t1 t2 [_ ->]%branch_Ok. cbn [fst snd]. rewrite Hx. apply lookup_insert_eq.
    + intros [m y] t1 t2 Hm [_ ->]%branch_Ok Ht1. cbn [fst snd]. destruct (id_map !! y) as [g'|] eqn:Hy; [|done].
      destruct (decide (as_str m = as_str n)) as [Heq|Hne].
      * assert (y = x) as ->; [|rewrite Heq, Hx in *; simplify_eq; apply lookup_insert_eq].
        assert (m = n) as -> by (destruct m, n; by f_equal). by apply (Hnd n).
      * rewrite lookup_insert_ne; [done|]. intros Hsp%(inj (split_on "/")). apply Hne. by apply (inj (String.append "refs/heads/")) in Hsp.
Qed.
End deliver.

(** ** The sidecar *)
Lemma extend_map_finds (id_map : gmap ObjectId GitId) m x g : id_map !! x = Some g →
  git_for_bole (extend_map id_map m) x = Some (git_bytes g).
Proof.
  intros Hx. unfold extend_map. apply elem_of_map_to_list in Hx. pose proof (NoDup_fst_map_to_list id_map) as Hnd.
  revert Hx Hnd. generalize (map_to_list id_map). induction l as [|[y h] l IH] using rev_ind; [by intros ?%elem_of_nil|].
  rewrite elem_of_app, list_elem_of_singleton, fmap_app, NoDup_app, foldl_app. intros Hx (Hnd & Hne & _).
  cbn [foldl fst snd]. unfold git_for_bole, idmap_insert. cbn [bole_to_git].
  destruct Hx as [Hx|[= -> ->]]; [|apply lookup_insert_eq]. rewrite lookup_insert_ne; [by apply IH|].
  intros Heq. apply (Hne x); [by apply (list_elem_of_fmap_2 fst _ (x, g))|]. cbn. replace y with x; [left|].
  destruct x, y. by f_equal.
Qed.

(** ** Delivery *)

(** [C11] A successful export delivers every visible history. For each snapshot in the
    history of a visible timeline, and for nothing else, it returns a commit: the
    target holds it, with the author, date and message of the snapshot, its parents are
    the commits of the snapshot's parents, and its tree reads back in git as
    exactly the files of the snapshot that the accessor may see; the branch of each visible timeline
    holds the commit of its head, and the saved sidecar leads from each snapshot to its commit.
    (The history has no cycles, no path is below another one, and no name is empty or has a NUL.) *)
Theorem export_faithful {R : Type} `{RefBackendLaws R, IoText, Ed25519} {A : Type} `{AclBackend A}
    {D : Type} `{GitOdbLaws D, MapCodecLaws, GixFormat} (s : Repository R A) (a : Accessor) (L : LabelLattice) (rs : LabelRuleSet)
    (open : res ()) (map_dir : option string) (t t' : Target D) (d d' : sidecar) :
  be_inv (r_refs s) → get_lattice (r_acls s) = Ok L → get_label_ruleset (r_acls s) = Ok rs →
  (∀ x, in_history s a L rs x → ¬ tc (parent_of (r_objects s)) x x) →
  (∀ x snap flat, history_visible s a L rs x snap → visible_paths s a L rs snap = Ok flat → flat_ok flat) →
  project_impl s a open map_dir (t, d) = (Ok (), (t', d')) →
  ∃ id_map : gmap ObjectId GitId,
    (∀ x, is_Some (id_map !! x) ↔ ∃ snap, history_visible s a L rs x snap) ∧
    (∀ x snap, history_visible s a L rs x snap → ∃ g tree flat data,
       id_map !! x = Some g ∧ odb_view (t_odb t') !! g = Some (GitCommit, data) ∧
       (∃ ps, data = encode_commit tree ps (commit_identity snap) (snap_message snap)) ∧
       commit_tree_id data = Ok tree ∧ commit_parent_ids data = omap (λ p, id_map !! p) (snap_parents snap) ∧
       visible_paths s a L rs snap = Ok flat ∧
       ∀ p, git_file (shown_repo (t_odb t')) tree (split_on "/" p) = content_at (r_objects s) flat p) ∧
    (∀ n tl g, ref_visible s a L rs n (RTimeline tl) → id_map !! head tl = Some g →
       t_files t' !! split_on "/" ("refs/heads/" +:+ as_str n) = Some (str_bytes (git_hex g +:+ newline))) ∧
    (∀ fp, map_dir = Some fp → ∃ m, idmap_load fp d' = Ok m ∧ ∀ x g, id_map !! x = Some g → git_for_bole m x = Some (git_bytes g)).
Proof.
  intros Hi HL Hrs Hac Hflat. rewrite project_impl_unfold.
  destruct (project_objects s a open t) as [[id_map|e] t1] eqn:Hp; [|done]. intros Hw.
  assert (t1 = t' ∧ ∀ fp, map_dir = Some fp → ∃ m, idmap_load fp d' = Ok m ∧
    ∀ x g, id_map !! x = Some g → git_for_bole m x = Some (git_bytes g)) as [-> Hmap].
  { destruct map_dir as [fp|]; [|by injection Hw as -> ->]. rewrite gets_bind in Hw. destruct (idmap_load fp d) as [m|]; [|done].
    destruct (idmap_save fp (extend_map id_map m) d) as [r d2] eqn:Hs. injection Hw as -> <- <-. split; [done|]. intros fp' [= <-].
    exists (extend_map id_map m). split; [by eapply idmap_save_load|]. intros x g. apply extend_map_finds. }
  destruct (objects_Ok s a L rs HL Hrs open t t' id_map Hp) as (names & heads & ordered & d1 & t2 & Hl & Hh & Ht & Hf & Hb & [Ho2 Hfiles]).
  pose proof (timeline_heads_spec s a L rs Hi HL Hrs names heads Hl Hh) as Hheads.
  assert (∀ x, reached (parent_of (r_objects s)) heads.*2 x ↔ in_history s a L rs x) as Hreach.
  { intros x. split.
    - intros (y & ([n z] & -> & Hin)%list_elem_of_fmap & Hr). apply Hheads in Hin as (tl & Hv & <-). by exists n, tl.
    - intros (n & tl & Hv & Hr). exists (head tl). split; [|done]. apply list_elem_of_fmap. exists (n, head tl). split; [done|].
      apply Hheads. by exists tl. }
  pose proof (collect_topo_spec (r_objects s) heads.*2 ltac:(intros x Hx%Hreach; by apply Hac)) as Hs. rewrite Ht in Hs.
  destruct Hs as (Hnd & Hpf & Hin).
  assert (∀ x, x ∈ ordered ↔ in_history s a L rs x) as Hord by (intros x; by rewrite Hin, Hreach).
  apply branches_Ok in Hb as [Ho1 Hbr].
  2:{ intros n x y (tl & [Hv _] & <-)%Hheads (tl' & [Hv' _] & <-)%Hheads. congruence. }
  cbn [t_odb] in Ho1.
  destruct (snapshots_exported s a L rs Hflat (t_odb t') ordered Hnd Hpf ltac:(intros x; apply Hord) (t_odb t)) as [_ Hex].
  rewrite Hf in Hex. cbn [fst snd] in Hex. destruct (Hex ltac:(etrans; [exact Ho1|exact Ho2]) id_map eq_refl) as [Hdom Hdel].
  exists id_map. split; [intros x; rewrite Hdom, Hord; by split; [intros [? [snap ?]]; exists snap|intros [snap [? ?]]; split; [|exists snap]]|].
  split; [|split; [|exact Hmap]].
  - intros x snap [Hx Hsn]. assert (is_Some (id_map !! x)) as [g Hg] by (apply Hdom; split; [by apply Hord|by exists snap]).
    destruct (Hdel x snap g Hsn Hg) as (tree & flat & Hc & Hv & _ & Hrb). eexists g, tree, flat, _.
    split; [done|]. split; [exact Hc|]. split; [by eexists|]. split; [apply commit_tree_encode|]. split; [apply commit_parents_encode|].
    by split.
  - intros n tl g Hv Hg. rewrite Hfiles. eapply Hbr; [|exact Hg]. apply Hheads. by exists tl.
Qed.

(** ** The export of the two snapshots *)
Section demo.
#[local] Existing Instance demo_io_text.
#[local] Existing Instance toy_ed25519.
#[local] Existing Instance format_gix.
#[local] Existing Instance no_map_codec.
#[local] Instance no_map_codec_laws : MapCodecLaws.
Proof. by split. Qed.

Lemma ex_snapshots x snap : ex_objects !! x = Some (Ok (OSnapshot snap)) →
  snap_root snap = oid x03 ∧ ((x = oid x01 ∧ snap_parents snap = []) ∨ (x = oid x02 ∧ snap_parents snap = [oid x01])).
Proof.
  intros Hx. unfold ex_objects in Hx. do 4 (apply lookup_insert_Some in Hx as [[<- Hs]|[_ Hx]];
    [first [discriminate Hs|injection Hs as <-; auto]|]).
  apply lookup_singleton_Some in Hx as [_ Hs]. discriminate Hs.
Qed.
Lemma ex_parents x y : parent_of ex_objects x y → x = oid x02 ∧ y = oid x01.
Proof.
  intros (snap & [_ [[_ Hps]|[-> Hps]]]%ex_snapshots & Hy); rewrite Hps in Hy; [by apply elem_of_nil in Hy|].
  by apply list_elem_of_singleton in Hy.
Qed.
Lemma ex_acyclic x : ¬ tc (parent_of ex_objects) x x.
Proof.
  intros Ht. assert (∀ a b, tc (parent_of ex_objects) a b → a = oid x02 ∧ b = oid x01) as Hab.
  { induction 1 as [a b Hab|a b c Hab _ [? ?]]; [by apply ex_parents|]. by apply ex_parents in Hab as [-> _]. }
  destruct (Hab _ _ Ht) as [-> Heq]. discriminate Heq.
Qed.
Lemma ex_visible : walk_tree_filtered ex_objects two_point ex_export_rules accessor_new (oid x03) "" ∅ = Ok {[ "README" := oid x04 ]}.
Proof. vm_compute. reflexivity. Qed.

Lemma export_faithful_witness : ∃ g tree,
  t_files ex_export.2.1 !! ["refs"; "heads"; "main"] = Some (str_bytes (git_hex g +:+ newline)) ∧
  git_file (shown_repo (t_odb ex_export.2.1)) tree ["README"] = Some [x61] ∧
  git_file (shown_repo (t_odb ex_export.2.1)) tree ["key.pem"] = None.
Proof.
  assert (get_lattice (r_acls ex_source) = Ok two_point) as HL by reflexivity.
  assert (get_label_ruleset (r_acls ex_source) = Ok ex_export_rules) as Hrs by reflexivity.
  assert (∀ snap, snap_root snap = oid x03 → visible_paths ex_source accessor_new two_point ex_export_rules snap = Ok {[ "README" := oid x04 ]}) as Hvis.
  { intros snap Hr. unfold visible_paths. rewrite Hr. exact ex_visible. }
  destruct (export_faithful ex_source accessor_new two_point ex_export_rules (Ok ()) None ex_target ex_export.2.1 ∅ ex_export.2.2
    ex_export_refs_ok HL Hrs (λ x _, ex_acyclic x)) as (id_map & Hdom & Hdel & Hbr & _); [|exact ex_export_pair|].
  - intros x snap flat [_ [Hr _]%ex_snapshots]. rewrite (Hvis snap Hr). intros [= <-] p [y [<- _]%lookup_singleton_Some].
    split.
    + intros seg Hseg. apply list_elem_of_singleton in Hseg as ->. split; [discriminate|reflexivity].
    + intros q. apply lookup_singleton_ne. intros Heq. discriminate Heq.
  - assert (ref_visible ex_source accessor_new two_point ex_export_rules (MkRefName "main")
      (RTimeline (MkTimeline (oid x02) Unrestricted 0 "persistent" None))) as Hv
      by (split; [apply (bool_decide_unpack _); vm_compute; exact I|vm_compute; reflexivity]).
    destruct (Hdel (oid x02) (MkSnapshot (oid x03) [oid x01] "" 8 "two")) as (g & tree & flat & data & Hg & _ & _ & _ & _ & Hw & Hf).
    { split; [|vm_compute; reflexivity]. eexists _, _. split; [exact Hv|apply rtc_refl]. }
    rewrite (Hvis (MkSnapshot (oid x03) [oid x01] "" 8 "two") eq_refl) in Hw. injection Hw as <-. exists g, tree. split; [exact (Hbr _ _ g Hv Hg)|].
    split; [exact (eq_trans (Hf "README") eq_refl)|exact (eq_trans (Hf "key.pem") eq_refl)].
Defined.
End demo.
