(* ===== verification/GitImportRefs.v ===== *)
(** * GitImportRefs: the refs an import touches

    Passes 7 to 9 of [git_import] (src/src/repo/git_import.rs) on the in-memory ref
    backend, and the theorems about whole imports: what a successful one leaves behind
    every selected branch, what any import may move, and two collisions the importer
    does not guard against. *)

From S2P Require Import Prelude Graph Topo Ids Text Objects Store Lattice Access Refs RefStore Acl Signing Policy Merge Ephemeral Worktree Repo Git GitImport GitImportFacts.

Lemma M_fold_rel {S X B} (Rel : relation S) `{!PreOrder Rel} (f : B → X → M S B) l b s r s' :
  (∀ b x s r s', x ∈ l → f b x s = (r, s') → Rel s s') → M_fold f b l s = (r, s') → Rel s s'.
Proof.
  revert b s. induction l as [|x l IH]; intros b s Hf; cbn [M_fold]; [by intros [= _ <-]|].
  unfold mbind, M_bind. destruct (f b x s) as [[b'|e] s1] eqn:Hx.
  - intros Hl. transitivity s1; [by eapply (Hf b x s); [left|]|]. eapply IH; [|exact Hl]. intros ????? ?. apply Hf. by right.
  - intros [= _ <-]. by eapply (Hf b x s); [left|].
Qed.

(** ** What may become of a ref *)
Definition ref_moved (opts : ImportOptions) (objs : objects) (before after : option Ref) : Prop :=
  match before with
  | Some (RTag t) => after = Some (RTag t)
  | Some (RTimeline t) => ∃ h, after = Some (RTimeline (with_head t h)) ∧
      (io_force opts = true ∨ policy t = Unrestricted ∨ rtc (parent_of objs) h (head t))
  | None => after = None ∨ (∃ t, after = Some (RTag t)) ∨
      ∃ h, after = Some (RTimeline (MkTimeline h (io_timeline_policy opts) 0 "persistent" None))
  end.

Lemma ref_moved_refl opts objs x : ref_moved opts objs x x.
Proof.
  destruct x as [[t|t]|]; simpl; [done| |by left]. exists (head t). rewrite with_head_same. split; [done|]. by right; right.
Qed.
Lemma ref_moved_trans opts objs x y z : ref_moved opts objs x y → ref_moved opts objs y z → ref_moved opts objs x z.
Proof.
  destruct x as [[t|t]|]; simpl.
  - by intros ->.
  - intros (h & -> & Hh) (h' & -> & Hh'). exists h'. split; [by destruct t|]. destruct t as [h0 p c k e]; simpl in *.
    destruct Hh as [?|[?|Hh]]; [by left|by right; left|]. destruct Hh' as [?|[?|Hh']]; [by left|by right; left|].
    right; right. by etrans.
  - intros [->|[(t & ->)|(h & ->)]]; [done|by intros ->; right; left; exists t|].
    intros (h' & -> & _). right; right. by exists h'.
Qed.

Section refs.
Context `{IoText, Ed25519}.
Context {A : Type} `{AclBackend A}.
Context `{Gix, ObjectCodec, MapCodecLaws} (read_file : string → res bytes).
Abbreviation Repo := (Repository MemoryRefBackend A).

(** A repository after some of these passes: only refs were moved, as allowed. *)
Record refs_moved (opts : ImportOptions) (s s' : Repo) : Prop := {
  rm_objects : r_objects s' = r_objects s;
  rm_acls : r_acls s' = r_acls s;
  rm_hooks : r_hooks s' = r_hooks s;
  rm_audit : r_audit s' = r_audit s;
  rm_ok : mem_ok (r_refs s) → mem_ok (r_refs s');
  rm_refs n : ref_moved opts (r_objects s) (mem_view (r_refs s) !! n) (mem_view (r_refs s') !! n)
}.
#[global] Instance refs_moved_preorder opts : PreOrder (refs_moved opts).
Proof.
  split.
  - intros s. split; try done. intros n. apply ref_moved_refl.
  - intros s1 s2 s3 [] []. split; try congruence; [auto|]. intros n. eapply ref_moved_trans; [done|].
    rewrite <- rm_objects0. done.
Qed.

Lemma set_ref_moved opts (s : Repo) name r : valid_name name →
  ref_moved opts (r_objects s) (mem_view (r_refs s) !! name) (Some r) →
  refs_moved opts s (set_refs (<[as_str name := r]> (r_refs s)) s).
Proof.
  intros Hv Hm. split; try done; cbn [set_refs r_refs].
  - intros Hok. by apply mem_ok_insert.
  - intros n. rewrite mem_view_insert. destruct (decide (n = name)) as [->|Hn]; [by rewrite lookup_insert_eq|].
    rewrite lookup_insert_ne by done. apply ref_moved_refl.
Qed.

(** *** One branch: refused, or its timeline is created, stays or moves to the mapped head. *)
Lemma import_branch_cases opts m acc (short : string) (oid : GitId) (s s' : Repo) r :
  import_branch opts m acc (short, oid) s = (r, s') →
  (∃ e, r = Err e ∧ s' = s) ∨
  ∃ name seen b t sum, sanitized_ref short acc.1 = Ok (name, seen) ∧ bole_for_git m (git_bytes oid) = Some b ∧
    r = Ok (seen, sum) ∧ mem_view (r_refs s') !! name = Some (RTimeline t) ∧ head t = b ∧
    (∀ n, n ≠ name → mem_view (r_refs s') !! n = mem_view (r_refs s) !! n) ∧
    refs_moved opts s s'.
Proof.
  unfold import_branch. rewrite lift_bind. destruct (sanitized_ref short acc.1) as [[name seen]|e] eqn:Hname; [|intros [= <- <-]; left; eauto].
  pose proof (sanitized_ref_spec _ _ _ _ Hname) as (_ & Hv & _).
  rewrite lift_bind. destruct (bole_for_git m (git_bytes oid)) as [b|] eqn:Hb; cbn [ok_or]; [|intros [= <- <-]; left; eauto].
  rewrite gets_bind. destruct (get_timeline (r_refs s) name) as [[tl|]|e] eqn:Ht; [..|intros [= <- <-]; left; eauto];
    unfold get_timeline, be_get in Ht; cbn [mem_RefBackend] in Ht; unfold mem_get in Ht; cbn [mbind result_bind] in Ht.
  - assert (mem_view (r_refs s) !! name = Some (RTimeline tl)) as Hview.
    { rewrite mem_view_lookup. by destruct (r_refs s !! as_str name) as [[]|]; simplify_eq. }
    rewrite gets_bind. pose proof (find_common_ancestor_spec (r_objects s) (head tl) b) as Hanc.
    destruct (find_common_ancestor (r_objects s) (head tl) b) as [anc|e]; [|intros [= <- <-]; left; eauto].
    destruct (negb _) eqn:Hgate; [intros [= <- <-]; left; eauto|]. apply negb_false_iff in Hgate.
    assert (io_force opts = true ∨ policy tl = Unrestricted ∨ rtc (parent_of (r_objects s)) b (head tl)) as Hallowed.
    { apply orb_true_iff in Hgate as [[?|?%bool_decide_eq_true]%orb_true_iff| ->%bool_decide_eq_true]; [by left|by right; left|].
      right; right. by destruct Hanc. }
    destruct (decide (head tl = b)) as [Hsame|Hsame].
    + unfold mret, M_ret. intros [= <- <-]. right. exists name, seen, b, tl, acc.2. split; [done|]. split; [done|]. split; [done|]. split; [done|].
      split; [done|]. split; [done|]. reflexivity.
    + rewrite on_refs_bind. unfold advance_head, gets, be_get, be_set. cbn [mem_RefBackend]. unfold mem_get, mem_set, modify, mbind, M_bind.
      rewrite <- mem_view_lookup, Hview. intros [= <- <-]. right. exists name, seen, b, (with_head tl b), (count_advanced acc.2).
      cbn [r_refs set_refs]. rewrite mem_view_insert, lookup_insert_eq. do 5 (split; [done|]). split.
      * intros n Hn. by rewrite lookup_insert_ne.
      * apply set_ref_moved; [done|]. rewrite Hview. by exists b.
  - assert (mem_view (r_refs s) !! name = None) as Hview.
    { rewrite mem_view_lookup. by destruct (r_refs s !! as_str name) as [[]|]; simplify_eq. }
    rewrite on_refs_bind. unfold create_timeline, gets, be_get, be_set. cbn [mem_RefBackend]. unfold mem_get, mem_set, modify, mbind, M_bind.
    rewrite <- mem_view_lookup, Hview. intros [= <- <-]. right.
    exists name, seen, b, (MkTimeline b (io_timeline_policy opts) 0 "persistent" None), (count_created acc.2).
    cbn [r_refs set_refs]. rewrite mem_view_insert, lookup_insert_eq. do 5 (split; [done|]). split.
    + intros n Hn. by rewrite lookup_insert_ne.
    + apply set_ref_moved; [done|]. rewrite Hview. right; right. by exists b.
Qed.

(** A branch of the list has its timeline at the image of a branch of that name. *)
Definition branch_landed (m : IdentityMap) (branches : named_ids) (refs : MemoryRefBackend) (short : string) : Prop :=
  ∃ name oid b t, sanitize_ref_name short = Some (as_str name) ∧ (short, oid) ∈ branches ∧
    bole_for_git m (git_bytes oid) = Some b ∧ mem_view refs !! name = Some (RTimeline t) ∧ head t = b.

Lemma branches_land opts m l : ∀ l0 acc (s : Repo) acc' s',
  (∀ short oid, (short, oid) ∈ l0 → branch_landed m l0 (r_refs s) short ∧
     ∀ name, sanitize_ref_name short = Some (as_str name) → acc.1 !! as_str name = Some short) →
  M_fold (import_branch opts m) acc l s = (Ok acc', s') →
  ∀ short oid, (short, oid) ∈ l0 ++ l → branch_landed m (l0 ++ l) (r_refs s') short.
Proof.
  induction l as [|[short oid] l IH]; intros l0 acc s acc' s' Hl0; cbn [M_fold].
  { intros [= _ <-]. rewrite app_nil_r. intros short oid Hin. by apply (Hl0 short oid). }
  unfold mbind, M_bind. destruct (import_branch opts m acc (short, oid) s) as [r s1] eqn:Hb.
  destruct (import_branch_cases _ _ _ _ _ _ _ _ Hb) as [(e & -> & ->)|(name & seen & b & t & sum & Hn & Hm & -> & Hv & Ht & Hoth & _)]; [done|].
  pose proof (sanitized_ref_spec _ _ _ _ Hn) as (Hs & _ & Hfree & Hseen). intros Hf.
  rewrite (cons_middle (short, oid) l0 l), (assoc_L (++)). apply (IH (l0 ++ [(short, oid)]) (seen, sum) s1 acc' s'); [|exact Hf].
  intros sh od [Hin|[= -> ->]%list_elem_of_singleton]%elem_of_app.
  - destruct (Hl0 sh od Hin) as [(n & o & b' & t' & Hs' & Ho & Hm' & Hv' & Ht') Hname]. split.
    + destruct (decide (n = name)) as [->|Hne].
      * exists name, oid, b, t. assert (sh = short) as ->.
        { specialize (Hname name Hs'). destruct Hfree as [Hfree|Hfree]; rewrite Hname in Hfree; by simplify_eq. }
        split; [done|]. split; [apply elem_of_app; right; left|]. done.
      * exists n, o, b', t'. split; [done|]. split; [apply elem_of_app; by left|]. rewrite Hoth by done. done.
    + intros k Hk. eapply sanitized_ref_keeps; [exact Hn|]. by apply Hname.
  - split.
    + exists name, oid, b, t. split; [done|]. split; [apply elem_of_app; right; left|]. done.
    + intros k Hk. rewrite Hseen. cbn [fst]. rewrite Hk in Hs. injection Hs as ->. by rewrite lookup_insert_eq.
Qed.

(** *** Tags: refs that exist are left alone. *)
Definition tags_only : relation Repo := λ s s', ∀ n,
  is_Some (mem_view (r_refs s) !! n) → mem_view (r_refs s') !! n = mem_view (r_refs s) !! n.
#[global] Instance tags_only_preorder : PreOrder tags_only.
Proof. split; [by intros s n|]. intros s1 s2 s3 Ha Hb n Hn. rewrite Hb; [auto|]. by rewrite Ha. Qed.

Lemma import_tag_moves opts G m acc tag (s s' : Repo) r :
  import_tag G m acc tag s = (r, s') → refs_moved opts s s' ∧ tags_only s s'.
Proof.
  unfold import_tag. destruct tag as [short target]. rewrite lift_bind.
  destruct (sanitized_ref short acc.1) as [[name seen]|e] eqn:Hname; [|by intros [= <- <-]].
  pose proof (sanitized_ref_spec _ _ _ _ Hname) as (_ & Hv & _).
  unfold mbind at 1, M_bind at 1, translate_tag. destruct (bole_for_git m (git_bytes target)) as [b|]; [|by intros [= <- <-]].
  rewrite gets_bind. destruct (tag_meta G (as_str name) b s) as [[msg at_]|e]; [|by intros [= <- <-]].
  rewrite gets_bind. destruct (get_tag (r_refs s) name) as [[t|]|e] eqn:Ht; [by intros [= <- <-]| |by intros [= <- <-]].
  unfold get_tag, be_get in Ht. cbn [mem_RefBackend] in Ht. unfold mem_get in Ht. cbn [mbind result_bind] in Ht.
  assert (mem_view (r_refs s) !! name = None) as Hview.
  { rewrite mem_view_lookup. by destruct (r_refs s !! as_str name) as [[]|]; simplify_eq. }
  rewrite on_refs_bind. unfold create_tag, gets, be_get, be_set. cbn [mem_RefBackend]. unfold mem_get, mem_set, modify, mbind, M_bind.
  rewrite <- mem_view_lookup, Hview. intros [= <- <-]. split.
  - apply set_ref_moved; [done|]. rewrite Hview. right; left. eauto.
  - intros n Hn. cbn [r_refs set_refs]. rewrite mem_view_insert, lookup_insert_ne; [done|]. intros ->. rewrite Hview in Hn. by destruct Hn.
Qed.

(** *** Label rules: nothing but the rules. *)
Record rules_only (s s' : Repo) : Prop := {
  ro_objects : r_objects s' = r_objects s;
  ro_refs : r_refs s' = r_refs s;
  ro_hooks : r_hooks s' = r_hooks s;
  ro_audit : r_audit s' = r_audit s
}.

Lemma ruleset_rules ruleset (s s' : Repo) r : apply_label_ruleset read_file ruleset s = (r, s') → rules_only s s'.
Proof.
  unfold apply_label_ruleset. rewrite lift_bind. destruct (read_to_string read_file ruleset) as [text|e]; [|by intros [= _ <-]].
  revert s. induction (lines text) as [|line ls IH]; intros s; cbn [M_iter]; [by intros [= _ <-]|].
  unfold mbind, M_bind. destruct (ruleset_line line s) as [r1 s1] eqn:Hl.
  assert (rules_only s s1) as Hone.
  { unfold ruleset_line in Hl. revert Hl. destruct (_ || _); [by intros [= _ <-]|]. unfold on_acls.
    destruct (set_path_acl _ (r_acls s)) as [ra a]. by intros [= _ <-]. }
  destruct r1 as [[]|e]; [|by intros [= _ <-]]. intros Hr. destruct Hone, (IH s1 Hr). split; congruence.
Qed.

(** Passes 7 to 9: branches and tags, then the label rules. *)
Lemma import_refs_spec opts G branches tags tr (s s' : Repo) r :
  import_refs read_file G opts branches tags tr s = (r, s') →
  ∃ s1, refs_moved opts s s1 ∧ rules_only s1 s' ∧ (io_label_ruleset opts = None → s' = s1) ∧
    (is_Ok r = true → ∀ short oid, (short, oid) ∈ branches → branch_landed tr.1 branches (r_refs s') short).
Proof.
  unfold import_refs. unfold mbind at 1, M_bind at 1. destruct (M_fold (import_branch opts tr.1) _ branches s) as [rb sb] eqn:Hb.
  assert (refs_moved opts s sb) as Hmb.
  { eapply (M_fold_rel (refs_moved opts)); [|exact Hb]. intros acc [short oid] s0 r0 s1 _ Hone.
    destruct (import_branch_cases _ _ _ _ _ _ _ _ Hone) as [(_ & _ & ->)|(? & ? & ? & ? & ? & _ & _ & _ & _ & _ & _ & ?)]; done. }
  destruct rb as [names|e]; [|intros [= <- <-]; exists sb; by split_and!].
  unfold mbind at 1, M_bind at 1. destruct (M_fold (import_tag G tr.1) names tags sb) as [rt st] eqn:Ht.
  assert (refs_moved opts sb st ∧ tags_only sb st) as [Hmt Hto].
  { split; (eapply M_fold_rel; [apply _| |exact Ht]); intros acc tag s0 r0 s1 _ Hone;
      by destruct (import_tag_moves opts _ _ _ _ _ _ _ Hone). }
  assert (refs_moved opts s st) as Hst by (etrans; [exact Hmb|exact Hmt]).
  assert (∀ short oid, (short, oid) ∈ branches → branch_landed tr.1 branches (r_refs st) short) as Hland.
  { intros short oid Hin. pose proof (branches_land opts tr.1 branches [] (∅, tr.2) s names sb) as Hl.
    destruct (Hl ltac:(by intros ?? ?%elem_of_nil) Hb short oid Hin) as (n & o & b & t & ? & ? & ? & Hv & ?).
    exists n, o, b, t. rewrite Hto by by rewrite Hv. done. }
  destruct rt as [names'|e]; [|intros [= <- <-]; exists st; by split_and!].
  unfold mbind, M_bind. destruct (io_label_ruleset opts) as [ruleset|].
  - destruct (apply_label_ruleset read_file ruleset st) as [ra sa] eqn:Ha. apply ruleset_rules in Ha as Hr.
    intros Heq. assert (s' = sa) as -> by by destruct ra; injection Heq. exists st. split_and!; [done..|].
    intros _. by rewrite (ro_refs _ _ Hr).
  - intros [= <- <-]. exists st. by split_and!.
Qed.

(** ** Whole imports *)
Abbreviation MemWorld := (World (R := MemoryRefBackend) (A := A)).

Lemma translate_all_grows G dry ordered tr objs rt objs' : translate_all G dry ordered tr objs = (rt, objs') → objs ⊆ objs'.
Proof.
  destruct (same_all G ordered tr objs objs) as (r & o & Hd & Hr & Hs). destruct dry; intros Ht; rewrite Ht in *; by simplify_eq.
Qed.

Lemma save_result source m (d d' : sidecar) r : idmap_save source m d = (r, d') →
  (r = Ok () ∨ d' = d) ∧ ∀ g, g ≠ source → d' !! map_file g = d !! map_file g.
Proof.
  intros Hs. assert (r = Ok () ∨ d' = d) as Hr.
  { revert Hs. unfold idmap_save. rewrite lift_bind. destruct (map_enc m); [|intros [= _ <-]; by right]. intros [= <- _]. by left. }
  split; [done|]. intros g Hg. destruct Hr as [-> | ->]; [|done]. revert Hs. unfold idmap_save. rewrite lift_bind.
  destruct (map_enc m) as [data|]; [|done]. unfold mbind, M_bind, modify. intros [= <-].
  rewrite lookup_insert_ne by by intros ?%(inj map_file).
  rewrite lookup_delete_ne, lookup_insert_ne; [done|apply map_file_tmp..].
Qed.

(** What an import that got past its first passes does, and how it ends. *)
Lemma finish_spec source opts G branches tags rt (w w' : MemWorld) r :
  finish read_file source opts G branches tags rt w = (r, w') →
  (∃ s1, refs_moved opts w.1 s1 ∧ rules_only s1 w'.1 ∧ (io_label_ruleset opts = None → w'.1 = s1)) ∧
  (∀ g, g ≠ source → w'.2 !! map_file g = w.2 !! map_file g) ∧
  (io_dry_run opts = false → is_Ok r = true → ∃ tr, rt = Ok tr ∧ (∃ d, idmap_save source tr.1 d = (Ok (), w'.2)) ∧
    ∀ short oid, (short, oid) ∈ branches → branch_landed tr.1 branches (r_refs w'.1) short).
Proof.
  unfold finish. destruct w as [s d]. destruct rt as [tr|e]; [|intros [= <- <-]; split; [by exists s|done]].
  destruct (io_dry_run opts); [intros [= <- <-]; split; [by exists s|done]|].
  unfold mbind at 1, M_bind at 1, on_repo. cbn [fst snd]. destruct (import_refs read_file G opts branches tags tr s) as [ri si] eqn:Hi.
  apply import_refs_spec in Hi as (s1 & Hm & Hro & Hno & Hl). destruct ri as [sum|e].
  2: { intros [= <- <-]. split; [by exists s1|]. done. }
  unfold mbind, M_bind, on_sidecar. cbn [fst snd]. destruct (idmap_save source tr.1 d) as [rs ds] eqn:Hs.
  pose proof (save_result _ _ _ _ _ Hs) as [Hr Hg]. destruct rs as [[]|e]; intros [= <- <-]; (split; [by exists s1|]); (split; [done|]).
  - intros _ _. exists tr. split; [done|]. split; [by exists d|]. by apply Hl.
  - done.
Qed.

(** [C17] For a repository on the in-memory backends, whose object store takes every object that can
    be encoded and whose refs commit all or nothing: whatever a git repository holds and
    wherever an import stops with an error, it keeps every stored object, every hook and every
    audit event; no tag is moved or removed, no timeline removed; a timeline that existed keeps
    everything but its head, and its head goes forward in the history the store then holds,
    unless the timeline is unrestricted or the import is forced; new timelines carry the policy
    of the options. Access rules change only if a ruleset is given, and the sidecars of other
    sources stay. *)
Theorem git_import_forward (open : res GitRepo) (source : string) (opts : ImportOptions) (w w' : MemWorld) (r : res ImportSummary) :
  mem_ok (r_refs w.1) → git_import read_file open source opts w = (r, w') →
  mem_ok (r_refs w'.1) ∧ r_objects w.1 ⊆ r_objects w'.1 ∧
  r_hooks w'.1 = r_hooks w.1 ∧ r_audit w'.1 = r_audit w.1 ∧
  (io_label_ruleset opts = None → r_acls w'.1 = r_acls w.1) ∧
  (∀ g, g ≠ source → w'.2 !! map_file g = w.2 !! map_file g) ∧
  ∀ n, ref_moved opts (r_objects w'.1) (mem_view (r_refs w.1) !! n) (mem_view (r_refs w'.1) !! n).
Proof.
  intros Hok Hg. destruct (git_import_phases read_file open source opts w) as [(e & He & _)|(G & m & bs & ts & ordered & _ & He)].
  { rewrite He in Hg. injection Hg as <- <-. split_and!; try done. intros n. apply ref_moved_refl. }
  rewrite He in Hg. destruct (translate_all _ _ _ _ _) as [rt objs] eqn:Ht. apply translate_all_grows in Ht.
  apply finish_spec in Hg as ((s1 & [Ho Ha Hh Hau Hk Hr] & [Ro Rr Rh Ra] & Hno) & Hside & _). cbn [fst snd set_objects r_objects r_refs r_acls r_hooks r_audit] in *.
  split_and!; [rewrite Rr; auto|by rewrite Ro, Ho|congruence|congruence| |done|].
  - intros Hn. by rewrite (Hno Hn).
  - intros n. rewrite Rr, Ro, Ho. apply Hr.
Qed.

(** [C16] A successful import (not a dry run) into a repository on the in-memory backends is a
    faithful copy. The saved identity map relates each git object to an image of it in the store
    (author and message as text), unless the pair was known before; every selected branch has a
    timeline, under its sanitised name, whose head is the image of the commit of a branch of
    that name; and where nothing was known before, the snapshot has, path for path, exactly the
    files of the commit's tree. (The git repository's tree entries must be of the kind their
    mode says and their names UTF-8, its commits name trees and commits, and no two objects
    share the id of a stored one. Names that are not UTF-8 are replaced and can collapse:
    [lossy_names_collapse].) *)
Theorem git_import_faithful (G : GitRepo) (source : string) (opts : ImportOptions) (w w' : MemWorld)
    (known : IdentityMap) (sum : ImportSummary) :
  well_formed G → unique_ids (r_objects w'.1) → io_dry_run opts = false → idmap_load source w.2 = Ok known →
  git_import read_file (Ok G) source opts w = (Ok sum, w') →
  ∃ m, idmap_load source w'.2 = Ok m ∧ map_ok G (r_objects w'.1) known m ∧
  ∀ branches tags, sort_refs opts G = Ok (branches, tags) → ∀ short oid, (short, oid) ∈ branches →
  ∃ name oid' t, sanitize_ref_name short = Some (as_str name) ∧ (short, oid') ∈ branches ∧
    mem_view (r_refs w'.1) !! name = Some (RTimeline t) ∧ imported G (r_objects w'.1) known GitCommit oid' (head t) ∧
    (known = idmap_new → ∃ data tree snap, find_kind G GitCommit oid' = Ok data ∧ commit_tree_id data = Ok tree ∧
      r_objects w'.1 !! head t = Some (Ok (OSnapshot snap)) ∧
      ∀ path, git_file G tree path = bole_file (r_objects w'.1) (snap_root snap) path).
Proof.
  intros Hwf Hu Hd Hload Hg. destruct (git_import_phases read_file (Ok G) source opts w) as [(e & He & _)|(G' & m & bs & ts & ordered & Hp & He)].
  { by rewrite He in Hg. }
  rewrite He, Hd in Hg. destruct (translate_all _ _ _ _ _) as [rt objs] eqn:Ht.
  destruct Hp as [[= <-] Hm Hrefs Hord]. assert (m = known) as -> by congruence.
  apply finish_spec in Hg as ((s1 & [Ho Ha Hh Hau Hk Hr] & [Ro Rr Rh Ra] & _) & _ & Hfin).
  cbn [fst snd set_objects r_objects r_refs r_acls r_hooks r_audit] in *. destruct (Hfin Hd eq_refl) as (tr & -> & (d & Hsave) & Hland).
  rewrite Ro, Ho in *. destruct (all_yields G objs known Hu Hwf ordered (known, ImportSummary_default) (r_objects w.1)) as [_ Hy].
  rewrite Ht in Hy. assert (map_ok G objs known tr.1) as Hmap by (apply (Hy (reflexivity _) tr eq_refl), map_ok_known).
  exists tr.1. split; [by apply (idmap_save_load source tr.1 d)|]. split; [done|].
  intros bs' ts' Hrefs' short oid Hin. rewrite Hrefs in Hrefs'. injection Hrefs' as <- <-.
  destruct (Hland short oid Hin) as (name & oid' & b & t & Hs & Hin' & Hb & Hv & <-). exists name, oid', t.
  assert (imported G objs known GitCommit oid' (head t)) as Himp.
  { eapply map_ok_kind; [done| |done]. destruct (topo_commits_heads G bs.*2 ordered oid' Hord) as (data & Hf).
    - by apply (list_elem_of_fmap_2 snd _ (short, oid')).
    - intros k d' Hf'. apply find_kind_Ok in Hf. congruence. }
  do 4 (split; [done|]). intros ->. inversion Himp as [? ? ? Hb'| | |? data ? tree root ps author Hf Ht' Hroot _ _ Hsn]; subst; [done|].
  eexists data, tree, _. split; [done|]. split; [done|]. split; [exact Hsn|]. intros path. by apply imported_files.
Qed.
End refs.

(** ** Concrete imports

    A repository with one commit of one file, on a branch, and two ways to add a tag. *)
Section demo.
#[local] Existing Instance demo_io_text.
#[local] Existing Instance toy_ed25519.

Definition gid (b : byte) : GitId := MkGitId (pad_vec 20 [b]).
Definition ex_signature : GitSignature := MkSignature "ann" "a@x" 7.
(** Three objects, told apart by their content. *)
Definition ex_gix : Gix := {|
  commit_tree_id data := if decide (data = [x01]) then Ok (gid x02) else Err (GitProjection "no tree");
  commit_parent_ids _ := [];
  commit_author _ := Ok ex_signature;
  commit_committer _ := Ok ex_signature;
  commit_message _ := "m";
  tree_iter data := if decide (data = [x02]) then [Ok (MkGitEntry ModeBlob "a" (gid x03))] else [];
  tag_decode _ := Err (GitProjection "no tag");
  err_not_found _ := GitProjection "not found";
  err_not_kind _ _ := GitProjection "kind"
|}.
#[local] Existing Instance ex_gix.

Definition ex_git_objects : gmap GitId (res (GitKind * bytes)) :=
  {[ gid x01 := Ok (GitCommit, [x01]); gid x02 := Ok (GitTree, [x02]); gid x03 := Ok (GitBlob, [x61]) ]}.
Definition ex_git (tags : list string) : GitRepo :=
  MkGitRepo ex_git_objects (Ok ((λ n, Ok (n, Ok (gid x01))) <$> "refs/heads/main" :: tags)) ∅.

Definition ex_image_blob : Object := OBlob (MkBlob [x61]).
Definition ex_image_tree : Object := OTree (MkTree {[ "a" := MkTreeEntry (id_of_bytes [x03]) KindBlob ]}).
Definition ex_image : Object := OSnapshot (MkSnapshot (id_of_bytes [x02]) [] "ann <a@x>" 7 "m").
Definition ex_codec : ObjectCodec :=
  table_codec [(ex_image_blob, [x03]); (ex_image_tree, [x02]); (ex_image, [x01])].
#[local] Existing Instance ex_codec.

(** The identity map the import arrives at is the only one that can be encoded. *)
Definition ex_map : IdentityMap :=
  idmap_insert (git_bytes (gid x01)) (id_of_bytes [x01])
    (idmap_insert (git_bytes (gid x02)) (id_of_bytes [x02])
      (idmap_insert (git_bytes (gid x03)) (id_of_bytes [x03]) idmap_new)).
Definition ex_map_codec : MapCodec := {|
  map_enc m := if decide (m = ex_map) then Ok [x01] else Err (Codec "map");
  map_dec data := if decide (data = [x01]) then Ok ex_map else Err (Codec "map")
|}.
#[local] Existing Instance ex_map_codec.
#[local] Instance ex_map_codec_laws : MapCodecLaws.
Proof. split. intros m data. simpl. case_decide as Hm; [|done]. intros [= <-]. by rewrite decide_True, Hm. Qed.

Definition no_file (_ : string) : res bytes := Err (Io NotFound).
Definition ex_empty : Repository MemoryRefBackend MemoryAclBackend := MkRepo ∅ ∅ MemoryAclBackend_new [] None.
Definition ex_import (tags : list string) : res ImportSummary * World (R := MemoryRefBackend) (A := MemoryAclBackend) :=
  git_import no_file (Ok (ex_git tags)) "src" ImportOptions_default (ex_empty, ∅).
Definition ex_imported : World (R := MemoryRefBackend) (A := MemoryAclBackend) := (ex_import []).2.

Lemma ex_import_eq : ex_import [] = (Ok (MkSummary 1 1 1 1 0 0 0), ex_imported).
Proof.
  unfold ex_imported. assert ((ex_import []).1 = Ok (MkSummary 1 1 1 1 0 0 0)) as <-; [|by destruct (ex_import [])].
  apply (bool_decide_unpack _). vm_compute. exact I.
Qed.

(** The importer keeps no git name out of the namespaces that a push may not write: after
    importing a repository with a tag [refs/policy/root], whose bole name is the
    reference of the pinned policy root, no policy registry can be built, so
    every advance of a timeline is refused from then on. *)
Example import_pins_policy_root :
  is_Ok (ex_import ["refs/tags/refs/policy/root"]).1 = true ∧
  is_Ok (policy_registry ex_empty) = true ∧
  is_Ok (policy_registry (ex_import ["refs/tags/refs/policy/root"]).2.1) = false.
Proof. apply (bool_decide_unpack _). vm_compute. exact I. Qed.

(** Branches and tags share one namespace in bole: a git repository with a tag named
    like a branch cannot be imported. The import fails after its timelines have been
    created, and without saving the identity map. *)
Example same_name_aborts :
  (ex_import ["refs/tags/main"]).1 = Err (err_not_tag (MkRefName "main")) ∧
  bool_decide (is_Some (mem_view (r_refs (ex_import ["refs/tags/main"]).2.1) !! MkRefName "main")) = true ∧
  (ex_import ["refs/tags/main"]).2.2 = ∅.
Proof. apply (bool_decide_unpack _). vm_compute. exact I. Qed.

(** A tree with two files whose names are not UTF-8: both names become the replacement
    character, and of the two files the import keeps one. *)
Definition lossy_gix : Gix := {|
  commit_tree_id := @commit_tree_id ex_gix;
  commit_parent_ids := @commit_parent_ids ex_gix;
  commit_author := @commit_author ex_gix;
  commit_committer := @commit_committer ex_gix;
  commit_message := @commit_message ex_gix;
  tree_iter data := if decide (data = [x02]) then [Ok (MkGitEntry ModeBlob (bytes_str [xff]) (gid x03)); Ok (MkGitEntry ModeBlob (bytes_str [xfe]) (gid x04))] else [];
  tag_decode := @tag_decode ex_gix;
  err_not_found := @err_not_found ex_gix;
  err_not_kind := @err_not_kind ex_gix
|}.
Definition lossy_git : GitRepo :=
  MkGitRepo {[ gid x02 := Ok (GitTree, [x02]); gid x03 := Ok (GitBlob, [x61]); gid x04 := Ok (GitBlob, [x62]) ]} (Ok []) ∅.
Definition lossy_blob : Object := OBlob (MkBlob [x62]).
Definition lossy_tree : Object := OTree (MkTree {[ bytes_str REPLACEMENT := MkTreeEntry (id_of_bytes [x04]) KindBlob ]}).
Definition lossy_codec : ObjectCodec := table_codec [(ex_image_blob, [x03]); (lossy_blob, [x04]); (lossy_tree, [x02])].
Theorem lossy_names_collapse :
  (@git_file lossy_gix lossy_git (gid x02) [bytes_str [xff]]) = Some [x61] ∧
  (@git_file lossy_gix lossy_git (gid x02) [bytes_str [xfe]]) = Some [x62] ∧
  let '(r, stored) := @translate_tree lossy_gix lossy_codec lossy_git false 3 (gid x02) (idmap_new, ImportSummary_default) ∅ in
  fst <$> r = Ok (id_of_bytes [x02]) ∧ stored !! id_of_bytes [x02] = Some (Ok lossy_tree).
Proof. apply (bool_decide_unpack _). vm_compute. exact I. Qed.

(** *** The theorems at this import *)
Lemma ex_find g k data : find_object (ex_git []) g = Ok (k, data) →
  (g = gid x01 ∧ k = GitCommit ∧ data = [x01]) ∨ (g = gid x02 ∧ k = GitTree ∧ data = [x02]) ∨ (g = gid x03 ∧ k = GitBlob ∧ data = [x61]).
Proof.
  unfold find_object. cbn [git_objects ex_git]. unfold ex_git_objects.
  destruct (_ !! g) as [r|] eqn:Hg; [intros ->|discriminate].
  apply lookup_insert_Some in Hg as [[<- [= <- <-]]|[_ Hg]]; [by left|].
  apply lookup_insert_Some in Hg as [[<- [= <- <-]]|[_ Hg]]; [by right; left|].
  apply lookup_singleton_Some in Hg as [<- [= <- <-]]. by right; right.
Qed.
Lemma ex_find_kind g k data : find_kind (ex_git []) k g = Ok data →
  (k = GitCommit ∧ data = [x01]) ∨ (k = GitTree ∧ data = [x02]) ∨ (k = GitBlob ∧ data = [x61]).
Proof. intros Hf%find_kind_Ok%ex_find. naive_solver. Qed.

Lemma ex_kind g k data : find_object (ex_git []) g = Ok (k, data) → kind_at (ex_git []) g k.
Proof. intros Hf k' d'. rewrite Hf. by intros [= <- _]. Qed.

Lemma ex_well_formed : well_formed (ex_git []).
Proof.
  assert (kind_at (ex_git []) (gid x02) GitTree) as Ht by by apply (ex_kind _ _ [x02]).
  assert (kind_at (ex_git []) (gid x03) GitBlob) as Hb by by apply (ex_kind _ _ [x61]).
  split.
  - intros g data e [[? ?]|[[_ ->]|[? ?]]]%ex_find_kind; [done| |done].
    intros [= ->]%list_elem_of_singleton. done.
  - intros g data e [[? ?]|[[_ ->]|[? ?]]]%ex_find_kind; [done| |done].
    intros [= ->]%list_elem_of_singleton. done.
  - intros g data e [[? ?]|[[_ ->]|[? ?]]]%ex_find_kind; [done| |done].
    intros [= ->]%list_elem_of_singleton. reflexivity.
  - intros g data t [[_ ->]|[[? ?]|[? ?]]]%ex_find_kind; [|done..]. by intros [= <-].
  - intros g data p _ Hp. cbn [commit_parent_ids ex_gix] in Hp. by apply elem_of_nil in Hp.
Qed.

Lemma ex_unique : unique_ids (r_objects ex_imported.1).
Proof.
  intros x obj r Hx Hr. unfold obj_id in Hx. destruct (serialize obj) as [data|] eqn:Hs; [|done]. injection Hx as <-.
  apply table_serialize in Hs. apply elem_of_cons in Hs as [[= -> ->]|Hs]; [|apply elem_of_cons in Hs as [[= -> ->]|[= -> ->]%list_elem_of_singleton]];
    vm_compute in Hr; injection Hr as <-; reflexivity.
Qed.

Lemma git_import_faithful_witness : ∃ t snap, mem_view (r_refs ex_imported.1) !! MkRefName "main" = Some (RTimeline t) ∧
  r_objects ex_imported.1 !! head t = Some (Ok (OSnapshot snap)) ∧
  bole_file (r_objects ex_imported.1) (snap_root snap) ["a"] = Some [x61].
Proof.
  assert (idmap_load "src" (∅ : sidecar) = Ok idmap_new) as Hload by (apply (bool_decide_unpack _); vm_compute; exact I).
  destruct (git_import_faithful no_file (ex_git []) "src" ImportOptions_default (ex_empty, ∅) ex_imported idmap_new _
    ex_well_formed ex_unique eq_refl Hload ex_import_eq) as (m & _ & _ & Hb).
  destruct (Hb [("main", gid x01)] [] ltac:(apply (bool_decide_unpack _); vm_compute; exact I) "main" (gid x01) ltac:(left))
    as (name & oid' & t & Hs & [= ->]%list_elem_of_singleton & Hv & _ & Hfiles).
  assert (name = MkRefName "main") as -> by (destruct name; f_equal; simpl in Hs; by injection Hs).
  destruct (Hfiles eq_refl) as (data & tree & snap & Hd & Ht & Hsn & Hp). exists t, snap. split; [exact Hv|]. split; [exact Hsn|].
  rewrite <- Hp. assert (data = [x01]) as -> by (vm_compute in Hd; by injection Hd).
  assert (tree = gid x02) as -> by (vm_compute in Ht; by injection Ht). apply (bool_decide_unpack _). vm_compute. exact I.
Defined.

Lemma git_import_forward_witness : mem_ok (r_refs ex_imported.1) ∧
  ref_moved ImportOptions_default (r_objects ex_imported.1) None (mem_view (r_refs ex_imported.1) !! MkRefName "main").
Proof.
  assert (mem_ok (r_refs ex_empty)) as Hok by (intros n r Hr; discriminate Hr).
  destruct (git_import_forward no_file (Ok (ex_git [])) "src" ImportOptions_default (ex_empty, ∅) ex_imported _ Hok ex_import_eq)
    as (Hok' & _ & _ & _ & _ & _ & Hm).
  split; [exact Hok'|]. exact (Hm (MkRefName "main")).
Defined.

Definition ex_dry : ImportOptions := MkImportOptions [] Unrestricted None true false.
Definition ex_dry_run := git_import no_file (Ok (ex_git [])) "src" ex_dry (ex_empty, ∅).
Lemma ex_dry_eq : ex_dry_run = (ex_dry_run.1, ex_dry_run.2).
Proof. by destruct ex_dry_run. Qed.
Lemma dry_run_agrees_witness : ex_dry_run.2 = (ex_empty, ∅) ∧ ex_dry_run.1 = Ok (MkSummary 1 1 1 0 0 0 0).
Proof.
  destruct (dry_run_agrees no_file (Ok (ex_git [])) "src" ex_dry (ex_empty, ∅) _ _ eq_refl ex_dry_eq) as [Hw _].
  split; [exact Hw|]. apply (bool_decide_unpack _). vm_compute. exact I.
Defined.

Lemma translate_tree_terminates_witness :
  translate_tree (ex_git []) false (tree_fuel (ex_git [])) (gid x02) (idmap_new, ImportSummary_default) ∅ =
  translate_tree (ex_git []) false 100 (gid x02) (idmap_new, ImportSummary_default) ∅.
Proof.
  apply (translate_tree_terminates (ex_git []) false 100 (gid x02)); [|vm_compute; lia].
  constructor. intros y (data & e & Hd & He & Hm & _). exfalso.
  destruct (ex_find_kind _ _ _ Hd) as [[? ?]|[[_ ->]|[? ?]]]; [done| |done].
  apply list_elem_of_singleton in He. injection He as ->. discriminate Hm.
Defined.
End demo.
