(* ===== verification/HttpApi.v ===== *)
(** * HttpApi: the read API

    The handlers of src/bole-api/src/handlers and the route table of router.rs, from a
    matched route with its decoded parameters to a JSON value, the bytes of a blob or an
    error. Matching a path against the table, decoding parameters and rendering JSON
    are axum's and serde's.

    The theorems: what the timeline and snapshot routes answer is determined by what the
    caller may see, so a hidden reference cannot be told from a missing one; a blob is
    served only for a file the caller may see. The tree route does not keep this:
    it shows the head of a hidden timeline. *)

From S2P Require Import Prelude Bfs Order Graph Ids Text Objects Store Lattice Access Walk Refs RefStore Acl Signing Policy Authority Merge Repo Trust Discovery Collab Sync Authn HttpAuth.
From Stdlib Require Import Ascii.

(** ** JSON *)
Inductive Json : Type :=
| JNull
| JBool (b : bool)
| JNum (n : N)
| JStr (s : string)
| JArr (l : list Json)
| JObj (fields : list (string * Json)).
Definition json_option {X} (f : X → Json) (o : option X) : Json := match o with Some x => f x | None => JNull end.

(** What a handler answers. *)
Inductive Response : Type := RJson (j : Json) | RBytes (data : bytes).

(** The routes, with their parameters; the last two are the fallbacks. *)
Inductive Route : Type :=
| GetStatus
| ListTimelines
| GetTimeline (name : string)
| GetSnapshot (id : string)
| GetBlob (id path : string)
| ListRepos
| ListUserRepos (key : string)
| GetRepo (owner name : string)
| GetRepoTree (owner name : string)
| ListUsers
| GetProfile (key : string)
| GetBundle (key : string)
| ListProposals
| GetProposal (id : string)
| GetBoard (board : string)
| Unmatched
| WrongMethod.

(** [?] on an error of the library. *)
Definition lib {X} (r : res X) : api X := map_err from_error r.

(** The format [Debug] gives a policy. *)
Definition policy_debug (p : TimelinePolicy) : string :=
  match p with FastForwardOnly => "FastForwardOnly" | Append => "Append" | Unrestricted => "Unrestricted" end.
Definition trust_kind_name (k : TrustKind) : string :=
  match k with Follow => "follow" | Vouch => "vouch" | Review => "review" end.
Definition jid (id : ObjectId) : Json := JStr (id_to_string id).

Section handlers.
Context `{HttpEnv}.
Context {R : Type} `{RefBackend R, IoText, Ed25519}.
Context {A : Type} `{AclBackend A}.
Context `{ObjectCodec, Postcard, RelayCodec}.
(** [env!("CARGO_PKG_VERSION")] *)
Context (version : string) (s : Repository R A).

(** *** status.rs *)
Definition get_status : api Json :=
  refs ← lib (list_refs (r_refs s) "");
  Ok (JObj [("service", JStr "bole-api"); ("version", JStr version); ("ref_count", JNum (N.of_nat (length refs)))]).

(** *** timelines.rs *)
Definition timeline_row (out : list Json) (name : RefName) : res (list Json) :=
  r ← get_ref (r_refs s) name;
  Ok (match r with
      | Some (RTimeline t) => out ++ [JObj [("name", JStr (as_str name)); ("kind", JStr "timeline");
          ("head", jid (head t)); ("policy", JStr (policy_debug (policy t)))]]
      | Some (RTag tag) => out ++ [JObj [("name", JStr (as_str name)); ("kind", JStr "tag"); ("head", jid (tag_target tag))]]
      | None => out
      end).
Definition list_timelines (accessor : Accessor) : api Json :=
  names ← lib (list_refs_served s "" accessor);
  rows ← lib (res_fold timeline_row [] names);
  Ok (JObj [("timelines", JArr rows)]).
Definition get_timeline_json (name : string) (accessor : Accessor) : api Json :=
  ref_name ← map_err (λ _, bad_request "invalid ref name") (RefName_new name);
  served ← lib (ref_served s ref_name accessor);
  if negb served then Err (not_found "no such ref")
  else
    r ← lib (get_ref (r_refs s) ref_name);
    match r with
    | Some (RTimeline t) => Ok (JObj [("name", JStr (as_str ref_name)); ("kind", JStr "timeline"); ("head", jid (head t));
        ("policy", JStr (policy_debug (policy t))); ("created_at", JNum (tl_created_at t))])
    | Some (RTag tag) => Ok (JObj [("name", JStr (as_str ref_name)); ("kind", JStr "tag"); ("head", jid (tag_target tag));
        ("created_at", JNum (tag_created_at tag))])
    | None => Err (not_found "no such ref")
    end.

(** *** snapshots.rs *)
Definition snapshot_for (id : string) (accessor : Accessor) : api FilteredSnapshot :=
  oid ← map_err from_parse_id (id_from_str id);
  f ← lib (get_snapshot_filtered s oid accessor);
  ok_or f (not_found "no such snapshot").
Definition get_metadata (id : string) (accessor : Accessor) : api Json :=
  f ← snapshot_for id accessor;
  Ok (JObj [("id", jid (fs_id f)); ("author", JStr (fs_author f)); ("created_at", JNum (fs_created_at f));
    ("message", JStr (fs_message f)); ("parents", JArr (jid <$> fs_parents f));
    ("visible_paths", JObj ((λ e, (e.1, jid e.2)) <$> btree_iter (fs_visible_paths f)))]).
Definition get_blob (id path : string) (accessor : Accessor) : api bytes :=
  f ← snapshot_for id accessor;
  blob_id ← ok_or (fs_visible_paths f !! path) (not_found "no such path in snapshot");
  obj ← lib (os_get (r_objects s) blob_id);
  match obj with
  | Some (OBlob b) => Ok (blob_data b)
  | _ => Err (internal (Text "path did not resolve to a blob"))
  end.

(** *** repos.rs *)
Definition list_repos_json : api Json :=
  refs ← lib (list_refs (r_refs s) "");
  Ok (JObj [("repos", JArr [JObj [("id", JStr "default"); ("ref_count", JNum (N.of_nat (length refs)))]])]).
Definition parse_key (key_hex : string) : api Key :=
  raw ← ok_or (hex_decode key_hex) (bad_request "key must be 64 hex chars");
  ok_or (key_of_bytes raw) (bad_request "key must be 32 bytes (64 hex)").
Definition repo_json (r : RepoRecord) : Json :=
  JObj [("name", JStr (rr_name r)); ("description", JStr (rr_description r)); ("owner", JStr (key_hex (rr_owner r)));
    ("seq", JNum (rr_seq r))].
Definition list_for_owner (key : string) : api Json :=
  owner ← parse_key key;
  rs ← lib (list_repos s owner);
  Ok (JObj [("owner", JStr (key_hex owner)); ("repos", JArr (repo_json <$> rs))]).
Definition repo_record (owner : Key) (name : string) : api RepoRecord :=
  rec ← lib (get_repo s owner name);
  ok_or rec (not_found "no such repo").
Definition get_repo_json (owner_hex name : string) : api Json :=
  owner ← parse_key owner_hex;
  rec ← repo_record owner name;
  Ok (repo_json rec).

(** The repo's timeline: [main], else the first one. *)
Definition choose_timeline (prefix : string) (timelines : list RefName) : option RefName :=
  let main := match RefName_new (prefix +:+ "main") with
              | Ok m => if existsb (λ t, bool_decide (t = m)) timelines then Some m else None
              | Err _ => None
              end in
  match main with Some m => Some m | None => list.head timelines end.
(** Its name below the prefix, and its head. *)
Definition tree_head (prefix : string) (chosen : option RefName) : api (string * option ObjectId) :=
  match chosen with
  | Some rn =>
      t ← lib (get_timeline (r_refs s) rn);
      Ok (match t with Some t => (default "" (strip_prefix prefix (as_str rn)), Some (head t)) | None => ("", None) end)
  | None => Ok ("", None)
  end.
(** The visible files of the head, and the text of a README.md at the root. *)
Definition tree_files (head : option ObjectId) (accessor : Accessor) : api (list string * option string) :=
  match head with
  | None => Ok ([], None)
  | Some h =>
      f ← lib (get_snapshot_filtered s h accessor);
      match f with
      | None => Ok ([], None)
      | Some f =>
          let files := btree_keys (fs_visible_paths f) in
          match find_first (λ p, eq_ignore_ascii_case p "README.md") files ≫= λ rp, fs_visible_paths f !! rp with
          | None => Ok (files, None)
          | Some blob_id =>
              obj ← lib (os_get (r_objects s) blob_id);
              Ok (files, match obj with Some (OBlob b) => from_utf8 (blob_data b) | _ => None end)
          end
      end
  end.
Definition get_tree (owner_hex name : string) (accessor : Accessor) : api Json :=
  owner ← parse_key owner_hex;
  rec ← repo_record owner name;
  let prefix := "refs/users/" +:+ fingerprint owner +:+ "/" +:+ name +:+ "/" in
  timelines ← lib (list_refs (r_refs s) prefix);
  '(label, head) ← tree_head prefix (choose_timeline prefix timelines);
  '(files, readme) ← tree_files head accessor;
  Ok (JObj [("name", JStr (rr_name rec)); ("description", JStr (rr_description rec)); ("owner", JStr (key_hex (rr_owner rec)));
    ("seq", JNum (rr_seq rec)); ("timeline", JStr label); ("head", json_option jid head);
    ("files", JArr (JStr <$> files)); ("readme", json_option JStr readme)]).

(** *** profiles.rs *)
Definition user_row (u : HubUser) : Json :=
  JObj [("key", JStr (key_hex (hu_key u))); ("display_name", json_option JStr (hu_display_name u));
    ("repo_count", JNum (hu_repo_count u))].
Definition list_users : api Json :=
  users ← lib (hub_users s);
  Ok (JObj [("users", JArr (user_row <$> users))]).
Definition profile_fields (p : Profile) : list (string * Json) :=
  [("key", JStr (key_hex (profile_key p))); ("display_name", JStr (display_name p)); ("bio", JStr (bio p));
   ("endpoints", JArr (JStr <$> endpoints p)); ("dns_aliases", JArr (JStr <$> dns_aliases p)); ("seq", JNum (profile_seq p))].
Definition get_profile (key : string) : api Json :=
  key ← parse_key key;
  p ← lib (profile s key);
  p ← ok_or p (not_found "no profile for key");
  if negb (verify_profile p) then Err (not_found "profile failed verification")
  else Ok (JObj (profile_fields p ++ [("sig", JStr (hex_encode (profile_sig p)))])).
Definition edge_row (e : TrustEdge) : Json :=
  JObj [("to", JStr (key_hex (to_key e))); ("kind", JStr (trust_kind_name (edge_kind e)));
    ("petname", json_option JStr (petname e)); ("seq", JNum (edge_seq e))].
Definition view_row (t : TimelineView) : Json :=
  JObj [("name", JStr (tv_name t)); ("head", jid (tv_head t)); ("author", JStr (tv_author t)); ("created_at", JNum (tv_created_at t))].
Definition get_bundle (key : string) (accessor : Accessor) : api Json :=
  key ← parse_key key;
  b ← lib (profile_bundle s key accessor);
  Ok (JObj [("key", JStr (key_hex (pb_key b))); ("is_local", JBool (pb_is_local b));
    ("profile", json_option (λ p, JObj (profile_fields p)) (pb_profile b));
    ("trust", JObj [("edges", JArr (edge_row <$> pb_edges b))]);
    ("timelines", JArr (view_row <$> pb_timelines b)); ("repos", JArr (repo_json <$> pb_repos b))]).

(** *** proposals.rs, boards.rs *)
Definition hex_key (k : Key) : Json := JStr (hex_encode (vec_to_list k)).
Definition proposal_fields (id : ObjectId) (p : ChangeProposal) : list (string * Json) :=
  [("id", jid id); ("from", JStr (prop_source p)); ("into", JStr (prop_target p)); ("title", JStr (prop_title p));
   ("author", hex_key (prop_author p)); ("created_at", JNum (prop_created_at p))].
Definition list_proposals_json : api Json :=
  ps ← lib (list_proposals s);
  Ok (JObj [("proposals", JArr ((λ e, JObj (proposal_fields e.1 e.2)) <$> ps))]).
Definition comment_row (e : ObjectId * ReviewComment) : Json :=
  JObj [("id", jid e.1); ("body", JStr (com_body e.2)); ("resolves", JBool (com_resolves e.2));
    ("author", hex_key (com_author e.2)); ("created_at", JNum (com_created_at e.2))].
Definition get_proposal_json (id : string) : api Json :=
  oid ← map_err (λ _, bad_request "invalid proposal id") (id_from_str id);
  p ← lib (get_proposal s oid);
  p ← ok_or p (not_found "no such proposal");
  cs ← lib (list_comments s oid);
  Ok (JObj (proposal_fields oid p ++ [("comments", JArr (comment_row <$> cs))])).
Definition post_row (e : ObjectId * Post) : Json :=
  JObj [("id", jid e.1); ("body", JStr (post_body e.2)); ("parent", json_option jid (post_parent e.2));
    ("author", hex_key (post_author e.2)); ("created_at", JNum (post_created_at e.2))].
Definition get_board (board : string) : api Json :=
  posts ← lib (list_posts s board);
  Ok (JObj [("board", JStr board); ("posts", JArr (post_row <$> posts))]).

(** *** router.rs *)

(** The handler of a route, for an authenticated caller. *)
Definition handle (route : Route) (accessor : Accessor) : api Response :=
  match route with
  | GetStatus => RJson <$> get_status
  | ListTimelines => RJson <$> list_timelines accessor
  | GetTimeline name => RJson <$> get_timeline_json name accessor
  | GetSnapshot id => RJson <$> get_metadata id accessor
  | GetBlob id path => RBytes <$> get_blob id path accessor
  | ListRepos => RJson <$> list_repos_json
  | ListUserRepos key => RJson <$> list_for_owner key
  | GetRepo owner name => RJson <$> get_repo_json owner name
  | GetRepoTree owner name => RJson <$> get_tree owner name accessor
  | ListUsers => RJson <$> list_users
  | GetProfile key => RJson <$> get_profile key
  | GetBundle key => RJson <$> get_bundle key accessor
  | ListProposals => RJson <$> list_proposals_json
  | GetProposal id => RJson <$> get_proposal_json id
  | GetBoard board => RJson <$> get_board board
  | Unmatched => Err (not_found "no such route")
  | WrongMethod => Err (method_not_allowed "method not allowed on this route")
  end.
(** The routes whose handler takes no [RequestAuth]. *)
Definition open_route (route : Route) : bool := match route with GetStatus | Unmatched | WrongMethod => true | _ => false end.
Definition serve_request (now : N) (config : AuthConfig) (parts : Parts) (route : Route) : api Response :=
  if open_route route then handle route accessor_new
  else auth ← from_request_parts now config (r_acls s) parts; handle route (ra_accessor auth).
End handlers.

(** ** Hidden references *)
Section hidden.
Context `{HttpEnv}.
Context {R : Type} `{RefBackendLaws R, IoText, Ed25519}.
Context {A : Type} `{AclBackend A}.
Context `{ObjectCodec, Postcard, RelayCodec}.
Context (version : string) (a : Accessor).
Implicit Types s : Repository R A.

(** Two repositories that differ at most in references the caller may not see. *)
Record same_visible s1 s2 (L : LabelLattice) (rs : LabelRuleSet) : Prop := {
  sv_objects : r_objects s1 = r_objects s2;
  sv_acls : r_acls s1 = r_acls s2;
  sv_lattice : get_lattice (r_acls s1) = Ok L;
  sv_rules : get_label_ruleset (r_acls s1) = Ok rs;
  sv_refs n : timeline_readable_with L rs n a = true → String.prefix COLLAB_SCOPED_PREFIX (as_str n) = false →
    be_view (r_refs s1) !! n = be_view (r_refs s2) !! n
}.
(** The routes over timelines and snapshots. *)
Definition gated_route (route : Route) : bool :=
  match route with ListTimelines | GetTimeline _ | GetSnapshot _ | GetBlob _ _ => true | _ => false end.

Lemma served_sorted s l : be_inv (r_refs s) → list_refs_served s "" a = Ok l →
  StronglySorted key_le l ∧ NoDup l ∧ ∃ L rs, get_lattice (r_acls s) = Ok L ∧ get_label_ruleset (r_acls s) = Ok rs ∧
    ∀ n, n ∈ l ↔ is_Some (be_view (r_refs s) !! n) ∧ timeline_readable_with L rs n a = true ∧
      String.prefix COLLAB_SCOPED_PREFIX (as_str n) = false.
Proof.
  intros Hi Hl. unfold list_refs_served, list_refs_filtered in Hl.
  apply bind_Ok in Hl as (l1 & (L & HL & Hl1)%bind_Ok & [= <-]). apply bind_Ok in Hl1 as (rs & Hrs & (all & Hall & [= <-])%bind_Ok).
  destruct (be_list_Ok _ _ _ Hi Hall) as (Hnd & Hs & Hin).
  split; [|split; [by do 2 apply NoDup_filter|]].
  - apply StronglySorted_filter, StronglySorted_filter, Sorted_StronglySorted; [apply _|exact Hs].
  - exists L, rs. do 2 (split; [done|]). intros n. rewrite !list_elem_of_filter, Hin, !Is_true_true, negb_true_iff.
    assert (String.prefix "" (as_str n) = true) as Hp; [|tauto]. destruct n as [n]. by destruct n.
Qed.

Lemma served_same s1 s2 L rs l1 l2 : be_inv (r_refs s1) → be_inv (r_refs s2) → same_visible s1 s2 L rs →
  list_refs_served s1 "" a = Ok l1 → list_refs_served s2 "" a = Ok l2 → l1 = l2.
Proof.
  intros Hi1 Hi2 [_ Ha HL Hrs Hv] Hl1 Hl2.
  destruct (served_sorted s1 l1 Hi1 Hl1) as (S1 & N1 & L1 & rs1 & HL1 & Hrs1 & E1).
  destruct (served_sorted s2 l2 Hi2 Hl2) as (S2 & N2 & L2 & rs2 & HL2 & Hrs2 & E2).
  rewrite <- Ha in HL2, Hrs2. assert (L1 = L) as -> by congruence. assert (L2 = L) as -> by congruence.
  assert (rs1 = rs) as -> by congruence. assert (rs2 = rs) as -> by congruence. apply (StronglySorted_unique key_le); [done..|]. apply NoDup_Permutation; [done..|].
  intros n. rewrite E1, E2. split; intros (Hn & Hr & Hs); [rewrite <- (Hv n Hr Hs)|rewrite (Hv n Hr Hs)]; done.
Qed.

Lemma rows_same s1 s2 names : be_inv (r_refs s1) → be_inv (r_refs s2) →
  (∀ n, n ∈ names → valid_name n ∧ be_view (r_refs s1) !! n = be_view (r_refs s2) !! n) →
  ∀ out rows1 rows2, res_fold (timeline_row s1) out names = Ok rows1 → res_fold (timeline_row s2) out names = Ok rows2 → rows1 = rows2.
Proof.
  intros Hi1 Hi2. induction names as [|n names IH]; intros Hn out rows1 rows2; [by intros [= ->] [= ->]|]. cbn [res_fold].
  intros (o1 & Ho1 & H1')%bind_Ok (o2 & Ho2 & H2')%bind_Ok. assert (o1 = o2) as <-.
  { destruct (Hn n) as [Hvn Hv]; [left|]. unfold timeline_row in Ho1, Ho2.
    apply bind_Ok in Ho1 as (r1 & Hr1 & [= <-]). apply bind_Ok in Ho2 as (r2 & Hr2 & [= <-]).
    apply (be_get_Ok _ _ _ Hi1 Hvn) in Hr1. apply (be_get_Ok _ _ _ Hi2 Hvn) in Hr2. by rewrite Hr1, Hr2, Hv. }
  eapply IH; [|done..]. intros m ?. apply Hn. by right.
Qed.

Lemma lib_Ok {X} (r : res X) x : lib r = Ok x ↔ r = Ok x.
Proof. unfold lib, map_err. destruct r; naive_solver. Qed.

(** A step of a handler that answers with an error of the library makes the answer one. *)
Lemma lib_bind {X Y} (r : res X) (f : X → api Y) : (∀ e, lib r ≫= f ≠ Err (from_error e)) → ∃ x, r = Ok x ∧ lib r ≫= f = f x.
Proof. destruct r as [x|e]; [by exists x|]. intros Hn. by destruct (Hn e). Qed.

Lemma list_timelines_same s1 s2 L rs : be_inv (r_refs s1) → be_inv (r_refs s2) → same_visible s1 s2 L rs →
  (∀ e, list_timelines s1 a ≠ Err (from_error e)) → (∀ e, list_timelines s2 a ≠ Err (from_error e)) →
  list_timelines s1 a = list_timelines s2 a.
Proof.
  intros Hi1 Hi2 Hsv. unfold list_timelines. intros He1 He2.
  destruct (lib_bind _ _ He1) as (l1 & Hl1 & Eq1). destruct (lib_bind _ _ He2) as (l2 & Hl2 & Eq2).
  rewrite Eq1 in He1 |- *. rewrite Eq2 in He2 |- *. clear Eq1 Eq2.
  assert (l1 = l2) as <- by exact (served_same s1 s2 L rs l1 l2 Hi1 Hi2 Hsv Hl1 Hl2).
  destruct (lib_bind _ _ He1) as (o1 & Ho1 & Eq1). destruct (lib_bind _ _ He2) as (o2 & Ho2 & Eq2). rewrite Eq1, Eq2.
  destruct (served_sorted s1 l1 Hi1 Hl1) as (_ & _ & L1 & rs1 & HL1 & Hrs1 & E1). destruct Hsv as [_ Ha HL Hrs Hv].
  assert (L1 = L) as -> by congruence. assert (rs1 = rs) as -> by congruence.
  rewrite (rows_same s1 s2 l1 Hi1 Hi2) with (out := []) (rows1 := o1) (rows2 := o2); [done| |done..].
  intros n (Hn & Hr & Hs)%E1. split; [|by apply Hv]. destruct Hn as [v Hn]. exact (be_view_valid _ _ _ Hi1 Hn).
Qed.

Lemma get_timeline_same s1 s2 L rs name : be_inv (r_refs s1) → be_inv (r_refs s2) → same_visible s1 s2 L rs →
  (∀ e, get_timeline_json s1 name a ≠ Err (from_error e)) → (∀ e, get_timeline_json s2 name a ≠ Err (from_error e)) →
  get_timeline_json s1 name a = get_timeline_json s2 name a.
Proof.
  intros Hi1 Hi2 [_ Ha HL Hrs Hv]. unfold get_timeline_json. destruct (RefName_new name) as [n|] eqn:Hn; [|done].
  apply RefName_new_valid in Hn as [_ Hn]. cbn [map_err mbind result_bind]. intros He1 He2.
  destruct (lib_bind _ _ He1) as (b1 & Hb1 & Eq1). destruct (lib_bind _ _ He2) as (b2 & Hb2 & Eq2).
  rewrite Eq1 in He1 |- *. rewrite Eq2 in He2 |- *. clear Eq1 Eq2.
  unfold ref_served in Hb1, Hb2. destruct (String.prefix COLLAB_SCOPED_PREFIX (as_str n)) eqn:Hp; [by simplify_eq/=|].
  rewrite <- Ha in Hb2. rewrite HL, Hrs in Hb1, Hb2. cbn [mbind result_bind] in Hb1, Hb2.
  apply bind_Ok in Hb1 as (r1 & Hr1 & [= <-]). apply bind_Ok in Hb2 as (r2 & Hr2 & [= <-]).
  destruct (timeline_readable_with L rs n a) eqn:Hr; [|done]. cbn [andb].
  assert (r1 = r2) as <-. { apply (be_get_Ok _ _ _ Hi1 Hn) in Hr1. apply (be_get_Ok _ _ _ Hi2 Hn) in Hr2. by rewrite Hr1, Hr2, (Hv n Hr Hp). }
  by rewrite Hr1, Hr2.
Qed.
End hidden.

(** [C12] The timeline and snapshot routes answer by what the caller may see: two repositories
    that differ only in references the caller may not read, or in the scoped records
    of the collaboration, get the same answer, so a hidden timeline cannot be told from
    one that does not exist. (An answer here is one that is not an internal error.) *)
Theorem hidden_refs_unobservable `{HttpEnv} {R : Type} `{RefBackendLaws R, IoText, Ed25519} {A : Type} `{AclBackend A}
    `{ObjectCodec, Postcard, RelayCodec} (version : string) (s1 s2 : Repository R A) (a : Accessor)
    (L : LabelLattice) (rs : LabelRuleSet) (route : Route) :
  be_inv (r_refs s1) → be_inv (r_refs s2) → same_visible a s1 s2 L rs → gated_route route = true →
  (∀ e, handle version s1 route a ≠ Err (from_error e)) → (∀ e, handle version s2 route a ≠ Err (from_error e)) →
  handle version s1 route a = handle version s2 route a.
Proof.
  intros Hi1 Hi2 Hsv Hg He1 He2. destruct route; try discriminate Hg; cbn [handle] in *.
  - rewrite (list_timelines_same a s1 s2 L rs Hi1 Hi2 Hsv); [done|..]; intros e He; [apply (He1 e)|apply (He2 e)]; by rewrite He.
  - rewrite (get_timeline_same a s1 s2 L rs name Hi1 Hi2 Hsv); [done|..]; intros e He; [apply (He1 e)|apply (He2 e)]; by rewrite He.
  - unfold get_metadata, snapshot_for, get_snapshot_filtered. by rewrite (sv_objects _ _ _ _ _ Hsv), (sv_acls _ _ _ _ _ Hsv).
  - unfold get_blob, snapshot_for, get_snapshot_filtered. by rewrite (sv_objects _ _ _ _ _ Hsv), (sv_acls _ _ _ _ _ Hsv).
Qed.

(** A blob is served only for a file the caller may see: the id is that of a stored
    snapshot, the path leads through its trees to the blob, and it is public or the caller's clearances
    read it. *)
Theorem served_blob_visible `{HttpEnv} {R : Type} `{RefBackend R, IoText, Ed25519} {A : Type} `{AclBackend A}
    `{ObjectCodec, Postcard, RelayCodec} (version : string) (s : Repository R A) (now : N) (config : AuthConfig)
    (parts : Parts) (id path : string) (resp : Response) :
  serve_request version s now config parts (GetBlob id path) = Ok resp →
  ∃ auth oid snap x b L rs, from_request_parts now config (r_acls s) parts = Ok auth ∧ id = id_to_string oid ∧
    r_objects s !! oid = Some (Ok (OSnapshot snap)) ∧ get_lattice (r_acls s) = Ok L ∧ get_label_ruleset (r_acls s) = Ok rs ∧
    files (r_objects s) (snap_root snap, "", 0) path x ∧ visible L rs (ra_accessor auth) path = true ∧
    r_objects s !! x = Some (Ok (OBlob b)) ∧ resp = RBytes (blob_data b).
Proof.
  unfold serve_request. cbn [open_route]. rewrite bind_Ok. intros (auth & Hauth & Hr). cbn [handle] in Hr.
  destruct (get_blob s id path (ra_accessor auth)) as [data|e] eqn:Hb; [|done]. injection Hr as <-.
  unfold get_blob in Hb. apply bind_Ok in Hb as (f & Hf & Hb). unfold snapshot_for in Hf.
  destruct (id_from_str id) as [oid|] eqn:Hid; [|done]. cbn [map_err mbind result_bind] in Hf.
  apply bind_Ok in Hf as (o & Ho%lib_Ok & Hf). destruct o as [f'|]; [|done]. injection Hf as ->.
  unfold get_snapshot_filtered in Ho. apply bind_Ok in Ho as (obj & Hobj & Ho). destruct obj as [[| |snap| | | | | | | | | |]|]; try done.
  apply os_get_Some in Hobj. apply bind_Ok in Ho as (L & HL & Ho). apply bind_Ok in Ho as (rs & Hrs & Ho).
  apply bind_Ok in Ho as (paths & Hw & [= <-]). cbn [fs_visible_paths] in Hb.
  destruct (paths !! path) as [x|] eqn:Hx; [|done]. cbn [ok_or mbind result_bind] in Hb.
  apply bind_Ok in Hb as (obj & Hx'%lib_Ok & Hb). destruct obj as [[b| | | | | | | | | | | |]|]; try done. injection Hb as <-.
  apply os_get_Some in Hx'. pose proof (walk_tree_spec (r_objects s) L rs (ra_accessor auth) (snap_root snap) "" ∅) as Hs.
  rewrite Hw in Hs. destruct Hs as (Hs & _ & _). destruct (Hs path x Hx) as [?|[Hfile Hvis]]; [done|].
  exists auth, oid, snap, x, b, L, rs. split; [done|]. split; [by apply id_from_str_Ok|]. done.
Qed.

(** ** A hub with a hidden timeline

    One announced repository whose only timeline is protected, and the same hub without
    the timeline; the caller is anonymous. *)
Section demo.
#[local] Existing Instance demo_io_text.
#[local] Existing Instance toy_ed25519.
#[local] Existing Instance toy_postcard.
#[local] Existing Instance toy_env.
Definition no_codec : ObjectCodec := table_codec [].
#[local] Existing Instance no_codec.
#[local] Instance no_relay_codec : RelayCodec := {| pin_to_bytes _ := []; pin_from_bytes _ := None |}.

Definition ex_owner : Key := vreplicate 32 x41.
Definition ex_owner_hex : string := bytes_str (vec_to_list ex_owner).
Definition ex_hidden : string := "refs/users/" +:+ fingerprint ex_owner +:+ "/proj/main".
Definition ex_hub_objects : objects := {[
  ex_id x01 := Ok (OSnapshot (MkSnapshot (ex_id x11) [] "ann" 7 "m")); ex_id x11 := Ok (OTree (MkTree {[ "a" := MkTreeEntry (ex_id x21) KindBlob ]}));
  ex_id x21 := Ok (OBlob (MkBlob [x61])); ex_id x30 := Ok (ORepoRecord (sign_repo ex_owner "proj" "a project" 1)) ]}.
Definition ex_hub_acls : MemoryAclBackend := snd (set_timeline_acl (MkTimelineAcl "refs/users/**") MemoryAclBackend_new).
Definition ex_announced : MemoryRefBackend := {[ repo_ref ex_owner "proj" := RTag (MkTag (ex_id x30) 0 None) ]}.
Definition ex_bare_hub : Repository MemoryRefBackend MemoryAclBackend := MkRepo ex_hub_objects ex_announced ex_hub_acls [] None.
Definition ex_hub : Repository MemoryRefBackend MemoryAclBackend :=
  MkRepo ex_hub_objects (<[ex_hidden := RTimeline (MkTimeline (ex_id x01) FastForwardOnly 0 "persistent" None)]> ex_announced) ex_hub_acls [] None.
Definition ex_anonymous : Accessor := accessor_from_parts two_point (MkRuleSet [RuleTimeline "refs/users/**" PROTECTED]) ClearanceSet_default.
Definition json_field (name : string) (r : api Response) : option Json :=
  match r with Ok (RJson (JObj fields)) => snd <$> find_first (λ e, bool_decide (e.1 = name)) fields | _ => None end.

(** The tree route takes the head of a repo's timeline from the unfiltered reference list:
    an anonymous caller, for whom the timeline does not exist on its own route, is
    told that it exists, its name and its head. *)
Example tree_shows_hidden_head :
  handle "0" ex_hub (GetTimeline ex_hidden) ex_anonymous = Err (not_found "no such ref") ∧
  json_field "timeline" (handle "0" ex_hub (GetRepoTree ex_owner_hex "proj") ex_anonymous) = Some (JStr "main") ∧
  json_field "head" (handle "0" ex_hub (GetRepoTree ex_owner_hex "proj") ex_anonymous) = Some (jid (ex_id x01)) ∧
  json_field "head" (handle "0" ex_bare_hub (GetRepoTree ex_owner_hex "proj") ex_anonymous) = Some JNull.
Proof. vm_compute. repeat split. Qed.

(** The number of references that the status route shows counts the hidden ones too. *)
Example status_counts_hidden :
  json_field "ref_count" (handle "0" ex_hub GetStatus ex_anonymous) = Some (JNum 2) ∧
  json_field "ref_count" (handle "0" ex_bare_hub GetStatus ex_anonymous) = Some (JNum 1).
Proof. vm_compute. split; reflexivity. Qed.

Lemma ex_announced_ok : be_inv (r_refs ex_bare_hub).
Proof. intros k r Hk. cbn [r_refs ex_bare_hub] in Hk. unfold ex_announced in Hk. apply lookup_singleton_Some in Hk as [<- _]. vm_compute. reflexivity. Qed.
Lemma ex_hub_ok : be_inv (r_refs ex_hub).
Proof.
  intros k r Hk. cbn [r_refs ex_hub] in Hk. apply lookup_insert_Some in Hk as [[<- _]|[_ Hk]]; [vm_compute; reflexivity|].
  unfold ex_announced in Hk. apply lookup_singleton_Some in Hk as [<- _]. vm_compute. reflexivity.
Qed.

Lemma hidden_refs_unobservable_witness :
  handle "0" ex_hub (GetTimeline ex_hidden) ex_anonymous = handle "0" ex_bare_hub (GetTimeline ex_hidden) ex_anonymous.
Proof.
  assert (same_visible ex_anonymous ex_hub ex_bare_hub two_point (MkRuleSet [RuleTimeline "refs/users/**" PROTECTED])) as Hsv.
  { split; [reflexivity..|]. intros n Hr _. destruct (decide (as_str n = ex_hidden)) as [Hn|Hn].
    - exfalso. destruct n as [n]. cbn [as_str] in Hn. subst n. vm_compute in Hr. discriminate Hr.
    - change (mem_view (<[ex_hidden := RTimeline (MkTimeline (ex_id x01) FastForwardOnly 0 "persistent" None)]> ex_announced) !! n = mem_view ex_announced !! n).
      rewrite !mem_view_lookup. apply lookup_insert_ne. intros Heq. apply Hn. symmetry. exact Heq. }
  apply (hidden_refs_unobservable "0" ex_hub ex_bare_hub ex_anonymous _ _ (GetTimeline ex_hidden) ex_hub_ok ex_announced_ok Hsv eq_refl).
  - intros e He. vm_compute in He. discriminate He.
  - intros e He. vm_compute in He. discriminate He.
Defined.

Definition ex_anonymous_request : Parts := MkParts "GET" "/v1/snapshots" None None None None.
Lemma served_blob_visible_witness : ∃ snap x, r_objects ex_hub !! ex_id x01 = Some (Ok (OSnapshot snap)) ∧
  files (r_objects ex_hub) (snap_root snap, "", 0) "a" x.
Proof.
  assert (serve_request "0" ex_hub 0 AuthConfig_default ex_anonymous_request (GetBlob (id_to_string (ex_id x01)) "a") = Ok (RBytes [x61])) as Hr
    by (vm_compute; reflexivity).
  destruct (served_blob_visible "0" ex_hub 0 AuthConfig_default ex_anonymous_request _ _ _ Hr)
    as (auth & oid & snap & x & b & L & rs & _ & Hid & Hs & _ & _ & Hf & _).
  assert (oid = ex_id x01) as ->; [|exists snap, x; split; [exact Hs|exact Hf]].
  assert (id_from_str (id_to_string (ex_id x01)) = Ok oid) as Ho by (apply id_from_str_Ok; exact Hid).
  vm_compute in Ho. injection Ho as <-. reflexivity.
Defined.
End demo.
